(* ===== verification/_CoqProject ===== *)
-Q . S2P
Prelude.v
BTree.v
Abi.v
Digest.v
Chunk.v
Filesystem.v
FilesystemInv.v
FilesystemLinks.v
FilesystemSteps.v
FilesystemNames.v
FilesystemPaths.v
FilesystemBudget.v
Snapshot.v
Pager.v
PagerView.v
PagerOps.v
PagerFault.v
Net.v
NetSpec.v
NetRecord.v
NetRecordSpec.v
LiftCache.v
Cpu.v
Fd.v
FdInv.v
FdSteps.v
Proc.v
ProcSpec.v
Signals.v
SignalsSpec.v
Text.v
ChunkManifest.v
ChunkManifestSpec.v
Manifest.v
Authority.v
AuthorityInstall.v
AuthorityVerify.v
Env.v
GuestMem.v
GuestMemSpec.v
Switch.v
SwitchSpec.v
ProcCalls.v
ProcCallsSpec.v
Inotify.v
InotifySpec.v
FileIo.v
FileIoSpec.v
Streams.v
StreamsSpec.v
Poll.v
PollSpec.v
MemCalls.v
MemCallsSpec.v
MemRemap.v
SharedMaps.v
PathCalls.v
PathSpec.v
Listing.v
Sockets.v
DescCalls.v
Elf.v
Sysno.v
Exec.v
Dispatch.v
ExecSpec.v
ExecCommit.v
ElfSpec.v
Pcode.v
Wasm.v
Jit.v
JitSim.v
JitArms.v
JitAccess.v
JitBlock.v
Backend.v
VmTrace.v
Vm.v
VmSpec.v
VmFuel.v
