(* ===== verification/Prelude.v ===== *)
(** * webTOS: a verification of its Linux layer and its engine

    webTOS runs x86-64 Linux programs in a browser tab. An engine
    ([crates/x64-engine]) decodes and executes guest instructions;
    [crates/linux-compat] is the kernel the guest sees: files, descriptors,
    processes, signals, sockets and memory mappings, all inside one
    [LinuxEnv]; [crates/webtos-web] exports it to JavaScript. Images are
    content-addressed: a signed manifest names every path and the digest of
    every chunk, chunks arrive on demand, and a fault on a page whose chunk is
    absent stops the guest until the page delivers it.

    This library models [crates/linux-compat/src], and of the engine the
    compiler of blocks ([jit.rs]), the machine that dispatches to it ([vm.rs])
    and the backend that runs what it compiles ([crates/jit-wasmi]). A Rust
    function is a Rocq function of the same name; [Result] is [res] (with [Panic]
    for an index out of range, a failed [expect] or, in the sums a guest or an
    input can drive, an overflow, as in the builds that check it: excluding
    [Panic] there shows that no build overflows), a method on
    [&mut self] is an [stm], machine integers are [Z] with their wrap-around
    written out, and the width of [usize] is a parameter ([Host]) so that the
    results hold for the 32-bit wasm build and the 64-bit native one. Counters of
    events (activity of a pipe, terminal or watch) and the engine's instruction
    counters wrap, as in the release build. [Rc] cells
    are references into a heap with explicit counts. Modules and functions of
    the sources are named in the opening comment of each file.

    ** Files
    - [Prelude], [BTree], [Text]: fallible and stateful computations, machine
      integers, bytes, ordered maps, text and numbers in text.
    - [Abi] (abi.rs): errno values, [struct stat], directory records.
    - [Digest] (digest.rs): SHA-256, streaming, and its hexadecimal form.
    - [Chunk] (chunk.rs): layouts, the verified chunk store, range reads.
    - [Filesystem] (vfs.rs) with [FilesystemInv] (well-formed arenas, no
      panic), [FilesystemLinks] (link counts), [FilesystemSteps] (sequences of
      calls), [FilesystemNames] (refinement of a map from names to nodes),
      [FilesystemPaths] (paths and resolution), [FilesystemBudget] (quota);
      [Snapshot] is the image format.
    - [Pager] (pager.rs) with [PagerView] (what an address shows), [PagerOps]
      (mapping calls), [PagerFault] (faults, requests, tickets).
    - [Net], [NetSpec] (net.rs): the broker interface as a class with laws, the
      host-driven broker and the metered one as instances. [NetRecord],
      [NetRecordSpec] (netrecord.rs): recording, replay, receipts.
    - [LiftCache] (liftcache.rs): the header of a translation cache.
    - [Cpu] (cpu.rs, signal frames): registers and their saved images.
    - [Fd] (fd.rs and the descriptor calls of syscall.rs) with [FdInv],
      [FdSteps]: tables, shared descriptions, pipes and their ends.
    - [Proc], [ProcSpec] (proc.rs): processes, parked tasks, the scheduler.
    - [Signals], [SignalsSpec] (the signal section of syscall.rs).
    - [ChunkManifest], [ChunkManifestSpec] (chunk_manifest.rs): the canonical
      manifest. [Manifest], [Authority], [AuthorityInstall],
      [AuthorityVerify] (lib.rs): file manifests and what the image trusts.
    - [Env] (the state of [LinuxEnv]): the record [Env], the machine the calls
      run on, and the class [GuestMemory] of the engine's memory with its laws.
      [GuestMem], [GuestMemSpec]: copies between kernel and guest, with the
      page-ins they cause.
    - [Switch], [SwitchSpec]: parking and resuming tasks,
      entry to and return from signal handlers.
    - [ProcCalls], [ProcCallsSpec]: clone, fork, exit, wait, futex, kill.
    - [Inotify], [InotifySpec]: watches and event queues.
    - [FileIo], [FileIoSpec], [Streams], [StreamsSpec], [Poll], [PollSpec]:
      reads and writes at offsets, pipes and terminals, waiting for readiness.
    - [MemCalls], [MemCallsSpec], [MemRemap], [SharedMaps]: mmap, mprotect,
      munmap, brk, mremap, and shared file mappings.
    - [PathCalls], [PathSpec], [Listing]: calls that take paths, directories.
    - [DescCalls], [Sockets]: descriptor control, clocks, identity and limits;
      sockets.
    - [Elf] (lazy_elf.rs) with [ElfSpec]; [Exec] (program start and execve)
      with [ExecSpec], [ExecCommit]; the engine's resident loader is the class
      [ImageLoader].
    - [Sysno] (numbers), [Dispatch]: the table of all system calls, the
      dispatcher, and the handler of the engine's exceptions.

    The engine:
    - [Pcode]: p-code, the register space, the processor and the interpreter
      of the vendored engine, which the compiler is written against. Guest
      memory is a class ([Softmmu]), as are floats on bit patterns ([Floats]).
    - [Wasm]: the WebAssembly instructions the compiler emits, their
      structured control, and the four imports, as an executable semantics.
    - [Jit] (jit.rs): the compiler, one definition per emitter and per arm of
      [translate_instruction]; blocks, self-loop regions, traces.
    - [JitSim]: running emitted code, registers in linear memory, and the
      relation [agrees] between a wasm store and a processor. [JitArms] (integers,
      128-bit operations in two lanes, floats) and [JitAccess] (the inline
      translation cache, faults, divisions, loads and stores): one simulation
      lemma per arm. [JitBlock]: every operation, blocks and self-loops.
    - [Backend] (jit.rs, jit-wasmi/lib.rs): what a backend promises the machine
      ([BackendLaws]), the wasmi backend, which keeps it, the theorem from
      translation to state, and a concrete machine.
    - [VmTrace] (the budget of compiled code, loops, traces, executed bytes),
      [Vm] (the machine: its state, switches, lifting and reuse, dispatch, exits,
      exceptions, demand pages, the run loop). [VmSpec] (program counter and fuel
      where a block stops; a compiled step and a compiled loop against the
      interpreted ones), [VmFuel] (instruction counts; a concrete machine).

    Each file of a [Spec] kind, and those named after a property, hold proofs;
    the others hold the definitions. A call of the machine is an [stm] on
    [machine] (in [Env]: the environment with the engine's registers and
    memory); [Dispatch] composes all of them as [LinuxEnv::handle_syscall] does.

    ** What the theorems show
    - Filesystem calls never panic, keep their invariants under every sequence
      of calls, implement the abstract name map with its errno on each branch,
      never exceed the storage budget, and reclaim only contents nothing refers
      to. Snapshots read back, and hostile bytes are refused or give a
      well-formed filesystem.
    - The streaming hasher computes the SHA-256 of the standard, stated apart from
      the code. Data read lazily is the data its digests name, unless the very
      bytes read and those named have the same digest; the manifest parser
      accepts one text per image, and an image whose authority is installed
      holds only paths and bytes the manifest describes.
    - A page fault fills a page with the bytes its mappings describe; a late
      completion of an outdated request is refused; a program loaded lazily
      shows at every address the byte its segments describe.
    - A TCP stream arrives in order; traffic stays within its budget whatever
      the broker; a complete session replays identically.
    - Pipe ends are counted exactly under every sequence of descriptor calls,
      so end of file is reported when and only when the last writer is gone;
      bytes come out of a pipe in the order they went in, and only a read whose
      copy to the guest fails loses any; the blocking calls wake exactly when the
      condition they wait for holds, and so does poll for records that ask for
      input on the reading end of a pipe and only for what a descriptor allows.
    - Signals are dequeued lowest first and reach one thread; a handler that
      returns restores the interrupted registers; a task switched out and in
      again has the registers it had and the memory map of its group; deadlines
      wake some task.
    - mmap, mprotect, munmap and mremap keep the tables well formed and touch
      only their range. Calls that take paths keep the kernel's invariants.
    - execve hands the new program the strings it was given, unless memory refuses
      the copy, and either leaves the calling image as it was or commits to the
      new one, after which it returns no errno.
    - Compiled code does what the interpreter does. For every operation the
      compiler accepts, and so for blocks and self-loops, running the emitted
      WebAssembly leaves the registers, memory and exception that interpreting
      leaves and reports the operation that stopped; on that, a step of the
      machine that dispatches to compiled code ends as the step without it,
      with program counter, fuel and position put back on a fault. Operands
      are as the lifter makes them ([inst_ok]): inside the register space, off
      the program counter, outputs of two lanes apart from their inputs.
      [SoftmmuLaws] says what a hit in the inline translation cache means,
      [FloatLaws] that NaN compares unequal to itself and where the two bounds
      of a float-to-integer conversion lie, [ApartMemory] that guest accesses
      leave a backend's own memory alone; [Backend] and [VmFuel] have instances.
    - A slice of a run never counts past its timer when no block jumps to itself
      (an example in [VmFuel] shows the charge of a self-loop overdrawing the
      fuel); the budget of compiled code
      is exact and no dispatch reaches evicted code; a selected trace is a
      closed chain of translatable blocks.

    ** Fuel
    Loops that are not structural carry fuel: symbolic links nine deep (the
    limit of the source), one step per chunk or page of a range, one per byte
    of a string with its limit, one per node on the climb of getcwd, 65 turns
    for the 64 signal bits, 64 digits for 64-bit numbers, 4096 strings for an
    argument vector, and depth three for an ELF image (an interpreter may not
    name another). Where running out would be visible it is a [Panic], and the
    theorems exclude it. The one loop of a compiled region has the iteration
    budget of its call as fuel, which the theorems show to be enough; the run
    loop of the machine and the handlers that call each other take fuel as an
    argument and give [None] without it.

    ** Not modelled
    The lifter from x86-64 to p-code (vendored icicle and ghidra-x86) and the
    softmmu, which are classes; that the code of a multi-block trace does what
    its blocks do (its translation and dispatch are modelled, its simulation is
    not proved); the wall-clock split and the coverage report of a profiled run;
    construction of the engine (lib.rs, build.rs, decode.rs, linux_min.rs); the
    JavaScript exports (webtos-web), native sockets, tracing, and the host
    wrapper of linux-compat's lib.rs (budgets, crash bundle, secret
    substitution in the text of files). *)

From Stdlib Require Export ZArith Lia.
From stdpp Require Export base tactics list numbers option fin_maps gmap strings.

#[global] Open Scope Z_scope.

(** * Fallible computations

    A Rust function that returns [Result<A, E>] and may also panic (an index
    out of bounds, an [unwrap] on [None], an arithmetic overflow under the
    [relcheck] profile of [crates/Cargo.toml]) returns [res E A]. *)
Inductive res (E A : Type) : Type :=
| Ok (a : A)
| Err (e : E)
| Panic.
Arguments Ok {E A} a.
Arguments Err {E A} e.
Arguments Panic {E A}.

Definition rbind {E A B} (m : res E A) (k : A → res E B) : res E B :=
  match m with
  | Ok a => k a
  | Err e => Err e
  | Panic => Panic
  end.

Declare Scope rust_scope.
Delimit Scope rust_scope with rust.
Notation "'let!' x ':=' m 'in' k" := (rbind m (λ x, k))
  (at level 10, x binder, m at level 100, k at level 200)
  : rust_scope.
#[global] Open Scope rust_scope.

(** [opt.ok_or(e)?] and [opt.expect(..)]. *)
Definition ok_or {E A} (o : option A) (e : E) : res E A :=
  match o with Some a => Ok a | None => Err e end.
Definition expect {E A} (o : option A) : res E A :=
  match o with Some a => Ok a | None => Panic end.
Definition no_panic {E A} (m : res E A) : Prop := m ≠ Panic.
Definition is_ok {E A} (m : res E A) : bool :=
  match m with Ok _ => true | _ => false end.

(** * Operations on [&mut self]

    A method that updates its receiver returns the receiver together with its
    result: what it changed before an early [return Err(..)] stays changed. *)
Definition stm (S E A : Type) : Type := S → S * res E A.

Definition sret {S E A} (a : A) : stm S E A := λ s, (s, Ok a).
Definition sfail {S E A} (e : E) : stm S E A := λ s, (s, Err e).
Definition sbind {S E A B} (m : stm S E A) (k : A → stm S E B) : stm S E B := λ s,
  match m s with
  | (s', Ok a) => k a s'
  | (s', Err e) => (s', Err e)
  | (s', Panic) => (s', Panic)
  end.
(** A call through [&self]. *)
Definition query {S E A} (f : S → res E A) : stm S E A := λ s, (s, f s).
(** An assignment through [&mut self]. *)
Definition modify {S E} (f : S → S) : stm S E () := λ s, (f s, Ok ()).
Notation "'do!' x '<-' m 'in' k" := (sbind m (λ x, k))
  (at level 10, x binder, m at level 100, k at level 200)
  : rust_scope.

(** [m.map_err(f)] *)
Definition map_err {S E E' A} (f : E → E') (m : stm S E A) : stm S E' A := λ s,
  match m s with
  | (s', Ok a) => (s', Ok a)
  | (s', Err e) => (s', Err (f e))
  | (s', Panic) => (s', Panic)
  end.

(** What a method guarantees of the receiver it leaves and its result. *)
Definition triple {S E A} (P : S → Prop) (m : stm S E A) (Q : S → res E A → Prop) : Prop :=
  ∀ s, P s → Q (m s).1 (m s).2.

(** * Machine integers

    A value of an unsigned width is a [Z] in [[0, 2^bits)]; the operations
    write the wrap-around, saturation or overflow check out. *)
Definition U16_MAX : Z := 2 ^ 16 - 1.
Definition U32_MAX : Z := 2 ^ 32 - 1.
Definition U64_MAX : Z := 2 ^ 64 - 1.

Definition wrap (bits x : Z) : Z := x mod 2 ^ bits.
Definition fits (bits x : Z) : Prop := 0 ≤ x < 2 ^ bits.
Abbreviation is_u8 := (fits 8).
Abbreviation is_u16 := (fits 16).
Abbreviation is_u32 := (fits 32).
Abbreviation is_u64 := (fits 64).

Definition wrapping_add64 (a b : Z) : Z := wrap 64 (a + b).
Definition wrapping_sub64 (a b : Z) : Z := wrap 64 (a - b).
Definition wrapping_mul64 (a b : Z) : Z := wrap 64 (a * b).
Definition saturating_add64 (a b : Z) : Z := Z.min (a + b) U64_MAX.
Definition saturating_mul64 (a b : Z) : Z := Z.min (a * b) U64_MAX.
Definition saturating_sub (a b : Z) : Z := Z.max 0 (a - b).
Definition checked_add64 (a b : Z) : option Z :=
  if a + b <=? U64_MAX then Some (a + b) else None.

(** [a + b], [a * b] and [a - b] on [u64] where overflow checks are on. *)
Definition add64 {E} (a b : Z) : res E Z :=
  if a + b <=? U64_MAX then Ok (a + b) else Panic.
Definition mul64 {E} (a b : Z) : res E Z :=
  if a * b <=? U64_MAX then Ok (a * b) else Panic.
Definition sub64 {E} (a b : Z) : res E Z :=
  if b <=? a then Ok (a - b) else Panic.

(** [x as u32 as i32 as i64], and [x as i64]. *)
Definition signed (bits x : Z) : Z := let y := wrap bits x in if y <? 2 ^ (bits - 1) then y else y - 2 ^ bits.
Definition as_i32 (x : Z) : Z := signed 32 x.
Definition as_i64 (x : Z) : Z := signed 64 x.
Definition has_flag (flags bit : Z) : bool := negb (Z.land flags bit =? 0).

(** [x.is_multiple_of(n)] for a nonzero literal [n]. *)
Definition is_multiple_of (x n : Z) : bool := x mod n =? 0.
Definition div_ceil (a b : Z) : Z := (a + b - 1) / b.

(** * The host

    [usize] is 32 bits wide in the browser and 64 on a native host, and the
    capacity a [Vec] gets from the allocator is at least the capacity asked
    for; whether an allocation of a given size is granted at all is the
    allocator's answer to [try_reserve]. All are parameters of the model. *)
Class Host := {
  usize_bits : Z;
  usize_bits_cases : usize_bits = 32 ∨ usize_bits = 64;
  alloc_exact : Z → Z;
  alloc_exact_ge : ∀ n, n ≤ alloc_exact n;
  alloc_grow : Z → Z → Z;
  alloc_grow_ge : ∀ cap needed, needed ≤ alloc_grow cap needed;
  alloc_fits : Z → bool
}.

Definition usize_max `{Host} : Z := 2 ^ usize_bits - 1.
(** [x as usize] *)
Definition as_usize `{Host} (x : Z) : Z := x mod 2 ^ usize_bits.
(** [usize::try_from(x)] *)
Definition try_usize `{Host} (x : Z) : option Z :=
  if x <=? usize_max then Some x else None.
Definition saturating_add_usize `{Host} (a b : Z) : Z := Z.min (a + b) usize_max.
Definition saturating_mul_usize `{Host} (a b : Z) : Z := Z.min (a * b) usize_max.
Definition checked_mul_usize `{Host} (a b : Z) : option Z :=
  if a * b <=? usize_max then Some (a * b) else None.

#[global, program] Instance native_host : Host := {|
  usize_bits := 64; alloc_exact n := n; alloc_grow cap n := Z.max n (2 * cap);
  alloc_fits n := n <=? 2 ^ 63 - 1
|}.
Next Obligation. by right. Qed.
Next Obligation. simpl; lia. Qed.
Next Obligation. simpl; lia. Qed.

Section host.
Context `{Host}.

Lemma usize_max_bounds : U32_MAX ≤ usize_max ≤ U64_MAX.
Proof.
  unfold usize_max, U32_MAX, U64_MAX.
  destruct usize_bits_cases as [-> | ->]; lia.
Qed.

Lemma usize_pos : 0 < 2 ^ usize_bits.
Proof. destruct usize_bits_cases as [-> | ->]; lia. Qed.

Lemma as_usize_id x : 0 ≤ x ≤ usize_max → as_usize x = x.
Proof. intros. apply Z.mod_small. unfold usize_max in *. lia. Qed.

Lemma as_usize_small x : 0 ≤ x ≤ U32_MAX → as_usize x = x.
Proof.
  intros Hx. apply Z.mod_small. unfold U32_MAX in Hx.
  destruct usize_bits_cases as [-> | ->]; lia.
Qed.
End host.

(** * Bytes *)
Abbreviation bytes := (list Z).
Definition byte_list (l : bytes) : Prop := Forall is_u8 l.

(** A [Vec<u8>]: its contents and its capacity. *)
Record vec := Vec { vdata : bytes; vcap : Z }.
Definition vec_new : vec := Vec [] 0.
Definition vlen (v : vec) : Z := Z.of_nat (length (vdata v)).
Definition vec_wf (v : vec) : Prop := vlen v ≤ vcap v ∧ byte_list (vdata v).
(** [slice.to_vec()], and a [Vec] filled to the capacity it was given. *)
Definition to_vec `{Host} (l : bytes) : vec := Vec l (alloc_exact (Z.of_nat (length l))).
(** [v.extend_from_slice(l)]: the buffer grows only when it must. *)
Definition vec_extend `{Host} (v : vec) (l : bytes) : vec :=
  let needed := vlen v + Z.of_nat (length l) in
  Vec (vdata v ++ l) (if needed <=? vcap v then vcap v else alloc_grow (vcap v) needed).

(** [v.try_reserve_exact(n)] and [v.try_reserve(n)]. *)
Definition vec_try_reserve_exact `{Host} (v : vec) (n : Z) : option vec :=
  if vlen v + n <=? vcap v then Some v
  else if alloc_fits (vlen v + n) then Some (Vec (vdata v) (alloc_exact (vlen v + n)))
  else None.
Definition vec_try_reserve `{Host} (v : vec) (n : Z) : option vec :=
  if vlen v + n <=? vcap v then Some v
  else if alloc_fits (vlen v + n) then Some (Vec (vdata v) (alloc_grow (vcap v) (vlen v + n)))
  else None.

Definition zlen {A} (l : list A) : Z := Z.of_nat (length l).

(** Indexing by a machine integer: [v.get(i)]. *)
Definition getz {A} (l : list A) (i : Z) : option A :=
  if (0 <=? i) && (i <? zlen l) then l !! Z.to_nat i else None.
(** [&l[a..b]] within range; a range out of bounds panics in the caller. *)
Definition slicez {A} (l : list A) (a b : Z) : list A :=
  take (Z.to_nat (b - a)) (drop (Z.to_nat a) l).

(** Little- and big-endian encodings, [to_le_bytes] and friends. *)
Fixpoint le_bytes (n : nat) (x : Z) : bytes :=
  match n with
  | O => []
  | S n => x mod 256 :: le_bytes n (x / 256)
  end.
Fixpoint le_val (l : bytes) : Z :=
  match l with
  | [] => 0
  | b :: l => b + 256 * le_val l
  end.
Definition be_bytes (n : nat) (x : Z) : bytes := rev (le_bytes n x).
Definition be_val (l : bytes) : Z := le_val (rev l).

(** * Automation *)
Create HintDb rust.
Create HintDb keeps.
Create Rewrite HintDb zlen.

(** Case analysis on the scrutinee of a [res] bind that is known to succeed. *)
Lemma rbind_Ok {E A B} (m : res E A) (k : A → res E B) b :
  rbind m k = Ok b → ∃ a, m = Ok a ∧ k a = Ok b.
Proof. destruct m; simpl; intros; simplify_eq; eauto. Qed.

Lemma rbind_no_panic {E A B} (m : res E A) (k : A → res E B) :
  no_panic m → (∀ a, m = Ok a → no_panic (k a)) → no_panic (rbind m k).
Proof. unfold no_panic. destruct m; simpl; auto. Qed.

Lemma no_panic_Ok {E A} (a : A) : no_panic (E:=E) (Ok a).
Proof. discriminate. Qed.
Lemma no_panic_Err {E A} (e : E) : no_panic (A:=A) (Err e).
Proof. discriminate. Qed.
Lemma no_panic_ok_or {E A} (o : option A) (e : E) : no_panic (ok_or o e).
Proof. destruct o; discriminate. Qed.
#[export] Hint Resolve no_panic_Ok no_panic_Err no_panic_ok_or : rust.

Lemma ok_or_Ok {E A} (o : option A) (e : E) a : ok_or o e = Ok a ↔ o = Some a.
Proof. destruct o; simpl; split; congruence. Qed.

(** Rules for [triple]: a bind runs its continuation from the state and value
    the first part left, and passes errors and panics on. *)
Section triples.
Context {S E : Type}.
Implicit Types P : S → Prop.

Lemma triple_ret {A} P (a : A) (Q : S → res E A → Prop) :
  (∀ s, P s → Q s (Ok a)) → triple P (sret a) Q.
Proof. intros HQ s Hs. by apply HQ. Qed.

Lemma triple_fail {A} P e (Q : S → res E A → Prop) :
  (∀ s, P s → Q s (Err e)) → triple P (sfail e) Q.
Proof. intros HQ s Hs. by apply HQ. Qed.

Lemma triple_query {A} P (f : S → res E A) Q :
  (∀ s, P s → Q s (f s)) → triple P (query f) Q.
Proof. intros HQ s Hs. by apply HQ. Qed.

Lemma triple_modify P (f : S → S) (Q : S → res E () → Prop) :
  (∀ s, P s → Q (f s) (Ok ())) → triple P (modify f) Q.
Proof. intros HQ s Hs. by apply HQ. Qed.

Lemma triple_bind {A B} P (m : stm S E A) (k : A → stm S E B) R Q :
  triple P m R →
  (∀ a, triple (λ s, R s (Ok a)) (k a) Q) →
  (∀ s e, R s (Err e) → Q s (Err e)) →
  (∀ s, R s Panic → Q s Panic) →
  triple P (sbind m k) Q.
Proof.
  intros Hm Hk He Hp s Hs. specialize (Hm s Hs). unfold sbind.
  destruct (m s) as [s' [a|e|]]; simpl in *; auto. by apply Hk.
Qed.

Lemma triple_conseq {A} P P' (m : stm S E A) Q Q' :
  triple P m Q → (∀ s, P' s → P s) → (∀ s r, Q s r → Q' s r) → triple P' m Q'.
Proof. unfold triple. auto. Qed.
End triples.

(** A relation between the receiver before and after, whatever the result; for
    a preorder it passes through sequences of calls. *)
Definition keeps {S E A} (R : S → S → Prop) (m : stm S E A) : Prop := ∀ s, R s (m s).1.

Section keeps.
Context {S E : Type} (R : S → S → Prop) `{!PreOrder R}.
Lemma keeps_ret {A} (a : A) : keeps (E:=E) R (sret a).
Proof. intros s. reflexivity. Qed.
Lemma keeps_fail {A} (e : E) : keeps (A:=A) R (sfail e).
Proof. intros s. reflexivity. Qed.
Lemma keeps_query {A} (f : S → res E A) : keeps R (query f).
Proof. intros s. reflexivity. Qed.
Lemma keeps_modify (f : S → S) : (∀ s, R s (f s)) → keeps (E:=E) R (modify f).
Proof. intros Hf s. apply Hf. Qed.
Lemma keeps_bind {A B} (m : stm S E A) (k : A → stm S E B) :
  keeps R m → (∀ a, keeps R (k a)) → keeps R (sbind m k).
Proof.
  intros Hm Hk s. unfold sbind. specialize (Hm s). destruct (m s) as [s' [a|e|]]; [|done..].
  etrans; [exact Hm|apply Hk].
Qed.
Lemma keeps_if {A} (b : bool) (m m' : stm S E A) : keeps R m → keeps R m' → keeps R (if b then m else m').
Proof. by destruct b. Qed.
End keeps.
Lemma keeps_mono {S E A} (R R' : S → S → Prop) (m : stm S E A) :
  (∀ s s', R s s' → R' s s') → keeps R m → keeps R' m.
Proof. unfold keeps. auto. Qed.
#[export] Hint Resolve keeps_ret keeps_fail keeps_query : keeps.

(** Follows the structure of a computation down to its basic steps, which the
    [keeps] hints decide. *)
Ltac keep :=
  repeat (intros; match goal with
    | |- keeps _ (sbind _ _) => apply keeps_bind; [typeclasses eauto| |]
    | |- keeps _ (modify _) => apply keeps_modify
    | |- keeps _ (if ?b then _ else _) => destruct b
    | |- keeps _ (match ?x with _ => _ end) => destruct x
    | |- keeps _ (let '(_, _) := ?x in _) => destruct x
    end); eauto with keeps typeclass_instances.


(** Peels every successful bind, guard and [match] off a hypothesis. *)
Ltac step_res H :=
  match type of H with
  | rbind ?m _ = Ok _ =>
      let a := fresh "a" in let Ha := fresh "Ha" in
      apply rbind_Ok in H as (a & Ha & H)
  | ok_or _ _ = Ok _ => apply ok_or_Ok in H
  | (if ?b then _ else _) = Ok _ => let Hb := fresh "Hb" in destruct b eqn:Hb; try discriminate H
  | (match ?x with _ => _ end) = Ok _ =>
      let Hx := fresh "Hx" in destruct x eqn:Hx; try discriminate H
  end.
Ltac inv_res H := repeat (step_res H); try (injection H as H); simplify_eq/=.

(** Turns boolean comparisons into propositions for [lia]. *)
Ltac bool_to_prop :=
  repeat match goal with
  | H : _ && _ = true |- _ => apply andb_true_iff in H as [? ?]
  | H : _ || _ = false |- _ => apply orb_false_iff in H as [? ?]
  | H : negb _ = true |- _ => apply negb_true_iff in H
  | H : negb _ = false |- _ => apply negb_false_iff in H
  | H : (_ <=? _) = true |- _ => apply Z.leb_le in H
  | H : (_ <=? _) = false |- _ => apply Z.leb_gt in H
  | H : (_ <? _) = true |- _ => apply Z.ltb_lt in H
  | H : (_ <? _) = false |- _ => apply Z.ltb_ge in H
  | H : (_ =? _) = true |- _ => apply Z.eqb_eq in H
  | H : (_ =? _) = false |- _ => apply Z.eqb_neq in H
  end.

Ltac case_if :=
  match goal with
  | |- context [if ?b then _ else _] => let Hb := fresh "Hb" in destruct b eqn:Hb
  end.

Ltac unfold_widths := unfold fits, U16_MAX, U32_MAX, U64_MAX in *.

(** * Lists *)
Section lists.
Context {A : Type}.
Implicit Types l : list A.

Lemma zlen_nonneg l : 0 ≤ zlen l.
Proof. unfold zlen. lia. Qed.
Lemma zlen_nil : zlen ([] : list A) = 0.
Proof. done. Qed.
Lemma zlen_cons x l : zlen (x :: l) = zlen l + 1.
Proof. unfold zlen. simpl. lia. Qed.
Lemma zlen_app l1 l2 : zlen (l1 ++ l2) = zlen l1 + zlen l2.
Proof. unfold zlen. rewrite length_app. lia. Qed.

Lemma getz_Some l i x :
  getz l i = Some x ↔ 0 ≤ i < zlen l ∧ l !! Z.to_nat i = Some x.
Proof.
  unfold getz. destruct (_ && _) eqn:Hb.
  - bool_to_prop. naive_solver.
  - split; [done|]. intros [[? ?] _].
    apply andb_false_iff in Hb as [?|?]; bool_to_prop; lia.
Qed.

Lemma getz_is_Some l i : is_Some (getz l i) ↔ 0 ≤ i < zlen l.
Proof.
  unfold getz. destruct (_ && _) eqn:Hb.
  - bool_to_prop. split; [done|]. intros _. apply lookup_lt_is_Some.
    unfold zlen in *. lia.
  - split; [by intros [? ?]|]. intros [? ?].
    apply andb_false_iff in Hb as [?|?]; bool_to_prop; lia.
Qed.

Lemma getz_nat l (i : nat) : getz l (Z.of_nat i) = l !! i.
Proof.
  unfold getz. rewrite Nat2Z.id. destruct (_ && _) eqn:Hb; [done|].
  symmetry. apply lookup_ge_None. apply andb_false_iff in Hb as [?|?];
    bool_to_prop; unfold zlen in *; lia.
Qed.

Lemma slicez_length l a b :
  0 ≤ a ≤ b → b ≤ zlen l → zlen (slicez l a b) = b - a.
Proof.
  intros. unfold slicez, zlen in *. rewrite length_take, length_drop. lia.
Qed.

Lemma slicez_lookup l a b i :
  0 ≤ a → Z.of_nat i < b - a → slicez l a b !! i = l !! Z.to_nat (a + Z.of_nat i).
Proof.
  intros. unfold slicez. rewrite lookup_take_lt by lia. rewrite lookup_drop.
  f_equal. lia.
Qed.

Lemma slicez_app l a b c :
  0 ≤ a ≤ b → b ≤ c → slicez l a b ++ slicez l b c = slicez l a c.
Proof.
  intros. unfold slicez.
  replace (Z.to_nat (c - a)) with (Z.to_nat (b - a) + Z.to_nat (c - b))%nat by lia.
  rewrite <- take_take_drop, drop_drop. do 3 f_equal. lia.
Qed.

Lemma slicez_full l : slicez l 0 (zlen l) = l.
Proof. unfold slicez, zlen. simpl. rewrite drop_0. apply take_ge. lia. Qed.
End lists.
#[export] Hint Rewrite @zlen_cons @zlen_app @zlen_nil : zlen.
#[export] Hint Resolve zlen_nonneg : rust.

Lemma byte_list_app l k : byte_list (l ++ k) ↔ byte_list l ∧ byte_list k.
Proof. apply Forall_app. Qed.
Lemma byte_list_take n l : byte_list l → byte_list (take n l).
Proof. apply Forall_take. Qed.
Lemma byte_list_drop n l : byte_list l → byte_list (drop n l).
Proof. apply Forall_drop. Qed.
Lemma byte_list_slicez l a b : byte_list l → byte_list (slicez l a b).
Proof. intros. by apply byte_list_take, byte_list_drop. Qed.
#[export] Hint Resolve byte_list_take byte_list_drop byte_list_slicez : rust.

(** * Little-endian words *)
Lemma length_le_bytes n x : length (le_bytes n x) = n.
Proof. revert x. induction n; intros; simpl; auto. Qed.
Lemma zlen_le_bytes n x : zlen (le_bytes n x) = Z.of_nat n.
Proof. unfold zlen. by rewrite length_le_bytes. Qed.
#[export] Hint Rewrite zlen_le_bytes : zlen.

Lemma le_bytes_byte_list n x : byte_list (le_bytes n x).
Proof.
  revert x. induction n; intros; simpl; constructor; [|apply IHn].
  unfold fits. apply Z.mod_pos_bound. lia.
Qed.
#[export] Hint Resolve le_bytes_byte_list : rust.

Lemma le_val_bytes n x : le_val (le_bytes n x) = x mod 2 ^ (8 * Z.of_nat n).
Proof.
  revert x. induction n as [|n IH]; intros x; simpl le_bytes; simpl le_val.
  { by rewrite Z.mod_1_r. }
  rewrite IH.
  replace (2 ^ (8 * Z.of_nat (S n))) with (256 * 2 ^ (8 * Z.of_nat n)).
  2:{ replace (8 * Z.of_nat (S n)) with (8 + 8 * Z.of_nat n) by lia.
      rewrite Z.pow_add_r by lia. lia. }
  rewrite Z.rem_mul_r by lia. lia.
Qed.

Lemma le_val_bytes_id n x : fits (8 * Z.of_nat n) x → le_val (le_bytes n x) = x.
Proof. intros Hx. rewrite le_val_bytes. apply Z.mod_small. exact Hx. Qed.

Lemma le_val_bound l : byte_list l → fits (8 * zlen l) (le_val l).
Proof.
  induction 1 as [|b l Hb _ IH]; [done|].
  simpl. rewrite zlen_cons. unfold fits in *.
  replace (8 * (zlen l + 1)) with (8 + 8 * zlen l) by lia.
  rewrite Z.pow_add_r by (unfold zlen; lia). lia.
Qed.

Lemma le_bytes_val l : byte_list l → le_bytes (length l) (le_val l) = l.
Proof.
  induction 1 as [|b l Hb _ IH]; [done|]. simpl. unfold fits in Hb.
  rewrite (Z.mul_comm 256), Z.mod_add, Z.mod_small by lia.
  rewrite Z.div_add, Z.div_small by lia. by rewrite Z.add_0_l, IH.
Qed.

Lemma be_val_bytes_id n x : fits (8 * Z.of_nat n) x → be_val (be_bytes n x) = x.
Proof. intros. unfold be_val, be_bytes. rewrite rev_involutive. by apply le_val_bytes_id. Qed.
Lemma length_be_bytes n x : length (be_bytes n x) = n.
Proof. unfold be_bytes. by rewrite length_rev, length_le_bytes. Qed.
Lemma be_bytes_byte_list n x : byte_list (be_bytes n x).
Proof. unfold be_bytes, byte_list. apply Forall_rev, le_bytes_byte_list. Qed.
#[export] Hint Resolve be_bytes_byte_list : rust.

(** * Writing into a fixed array

    [out[offset..offset + b.len()].copy_from_slice(b)], for a range in bounds. *)
Definition copy_at (offset : nat) (b : bytes) (out : bytes) : bytes :=
  take offset out ++ b ++ drop (offset + length b) out.

Lemma length_copy_at offset b out :
  (offset + length b ≤ length out)%nat → length (copy_at offset b out) = length out.
Proof. intros. unfold copy_at. rewrite !length_app, length_take, length_drop. lia. Qed.

Lemma copy_at_lookup offset b out i :
  (offset + length b ≤ length out)%nat →
  copy_at offset b out !! i =
    if decide (offset ≤ i < offset + length b)%nat then b !! (i - offset)%nat else out !! i.
Proof.
  intros Hlen. unfold copy_at. case_decide as Hi.
  - rewrite lookup_app_r by (rewrite length_take; lia).
    rewrite lookup_app_l by (rewrite length_take; lia).
    f_equal. rewrite length_take. lia.
  - destruct (decide (i < offset)%nat).
    + rewrite lookup_app_l by (rewrite length_take; lia). by rewrite lookup_take_lt.
    + rewrite lookup_app_r by (rewrite length_take; lia).
      rewrite lookup_app_r by (rewrite length_take; lia).
      rewrite lookup_drop. f_equal. rewrite length_take. lia.
Qed.

(** Reading back the bytes just written. *)
Lemma copy_at_read_same offset b out :
  (offset + length b ≤ length out)%nat →
  take (length b) (drop offset (copy_at offset b out)) = b.
Proof.
  intros. unfold copy_at.
  rewrite drop_app_length' by (rewrite length_take; lia).
  by rewrite take_app_length.
Qed.

(** Reading a range the write does not touch. *)
Lemma copy_at_read_other offset b out at_ n :
  (offset + length b ≤ length out)%nat →
  (at_ + n ≤ offset ∨ offset + length b ≤ at_)%nat →
  take n (drop at_ (copy_at offset b out)) = take n (drop at_ out).
Proof.
  intros Hlen Hd. apply list_eq. intros i.
  destruct (decide (i < n)%nat) as [Hi|Hi].
  - rewrite !lookup_take_lt, !lookup_drop, copy_at_lookup by lia.
    case_decide; [lia|done].
  - rewrite !lookup_take_ge by lia. done.
Qed.

