(* ===== verification/BTree.v ===== *)
(** Ordered maps.

    [std::collections::BTreeMap] as the strictly sorted list of its entries:
    iteration order is key order, which [Vfs::serialize], [Vfs::list] and
    [Recording::receipts] observe, so an unordered map would not do. Lookup,
    insertion and removal satisfy the map laws on every list; sortedness is an
    invariant that makes the representation canonical ([bt_ext]). *)

From S2P Require Import Prelude.

(** * Ordered keys *)
Class OrdKey (K : Type) := {
  kcmp : K → K → comparison;
  kcmp_eq : ∀ a b, kcmp a b = Eq ↔ a = b;
  kcmp_antisym : ∀ a b, kcmp b a = CompOpp (kcmp a b);
  kcmp_trans : ∀ a b c, kcmp a b = Lt → kcmp b c = Lt → kcmp a c = Lt
}.

Definition klt {K} `{OrdKey K} (a b : K) : Prop := kcmp a b = Lt.

Section ordkey.
Context {K} `{OrdKey K}.

Lemma kcmp_refl a : kcmp a a = Eq.
Proof. by apply kcmp_eq. Qed.
Lemma klt_irrefl a : ¬ klt a a.
Proof. unfold klt. rewrite kcmp_refl. done. Qed.
Lemma klt_trans a b c : klt a b → klt b c → klt a c.
Proof. apply kcmp_trans. Qed.
Lemma klt_ne a b : klt a b → a ≠ b.
Proof. intros Hlt ->. by apply klt_irrefl in Hlt. Qed.
Lemma kcmp_gt a b : kcmp a b = Gt ↔ klt b a.
Proof. unfold klt. rewrite (kcmp_antisym a b). destruct (kcmp a b); simpl; done. Qed.

#[local] Instance ordkey_eq_dec : EqDecision K.
Proof.
  intros a b. destruct (kcmp a b) eqn:E.
  - left. by apply kcmp_eq.
  - right. by apply klt_ne.
  - right. intros ->. by rewrite kcmp_refl in E.
Defined.
End ordkey.

#[global, program] Instance Z_ordkey : OrdKey Z := {| kcmp := Z.compare |}.
Next Obligation. apply Z.compare_eq_iff. Qed.
Next Obligation. apply Z.compare_antisym. Qed.
Next Obligation. intros a b c. rewrite !Z.compare_lt_iff. lia. Qed.

(** Byte strings compare lexicographically, a prefix first. *)
Fixpoint lex_cmp (a b : bytes) : comparison :=
  match a, b with
  | [], [] => Eq
  | [], _ => Lt
  | _, [] => Gt
  | x :: a, y :: b => match x ?= y with Eq => lex_cmp a b | c => c end
  end.

Lemma lex_cmp_eq a b : lex_cmp a b = Eq ↔ a = b.
Proof.
  revert b. induction a as [|x a IH]; intros [|y b]; simpl; try done.
  destruct (Z.compare_spec x y); rewrite ?IH; split; intros; simplify_eq; try done; lia.
Qed.
Lemma lex_cmp_antisym a b : lex_cmp b a = CompOpp (lex_cmp a b).
Proof.
  revert b. induction a as [|x a IH]; intros [|y b]; simpl; try done.
  rewrite (Z.compare_antisym x y), IH. by destruct (x ?= y).
Qed.
Lemma lex_cmp_trans a b c : lex_cmp a b = Lt → lex_cmp b c = Lt → lex_cmp a c = Lt.
Proof.
  revert b c. induction a as [|x a IH]; intros [|y b] [|z c]; simpl; try done.
  destruct (x ?= y) eqn:E1, (y ?= z) eqn:E2; try done; intros H1 H2;
    rewrite ?Z.compare_eq_iff, ?Z.compare_lt_iff in *; subst;
    try (rewrite (proj2 (Z.compare_lt_iff _ _)) by lia; done).
  rewrite Z.compare_refl. eauto.
Qed.
#[global, program] Instance bytes_ordkey : OrdKey bytes := {| kcmp := lex_cmp |}.
Next Obligation. apply lex_cmp_eq. Qed.
Next Obligation. apply lex_cmp_antisym. Qed.
Next Obligation. apply lex_cmp_trans. Qed.

(** * The map *)
Abbreviation btree K V := (list (K * V)).

Section btree.
Context {K V : Type} `{OrdKey K}.
#[local] Existing Instance ordkey_eq_dec.
Implicit Types (m : btree K V) (k : K) (v : V).

Fixpoint bt_get (m : btree K V) (k : K) : option V :=
  match m with
  | [] => None
  | (k', v) :: m => match kcmp k k' with Eq => Some v | _ => bt_get m k end
  end.

Fixpoint bt_insert (m : btree K V) (k : K) (v : V) : btree K V :=
  match m with
  | [] => [(k, v)]
  | (k', v') :: m' =>
      match kcmp k k' with
      | Eq => (k, v) :: m'
      | Lt => (k, v) :: m
      | Gt => (k', v') :: bt_insert m' k v
      end
  end.

Fixpoint bt_remove (m : btree K V) (k : K) : btree K V :=
  match m with
  | [] => []
  | (k', v') :: m' =>
      match kcmp k k' with Eq => bt_remove m' k | _ => (k', v') :: bt_remove m' k end
  end.

Definition bt_mem (m : btree K V) (k : K) : bool :=
  match bt_get m k with Some _ => true | None => false end.

(** Strictly increasing keys. *)
Fixpoint bt_sorted (m : btree K V) : Prop :=
  match m with
  | [] => True
  | (k, _) :: m' => Forall (λ e, klt k e.1) m' ∧ bt_sorted m'
  end.

Lemma bt_get_insert_eq m k v : bt_get (bt_insert m k v) k = Some v.
Proof.
  induction m as [|[k' v'] m IH]; simpl; [by rewrite kcmp_refl|].
  destruct (kcmp k k') eqn:E; simpl; rewrite ?kcmp_refl, ?E; auto.
Qed.

Lemma bt_get_insert_ne m k k' v : k ≠ k' → bt_get (bt_insert m k v) k' = bt_get m k'.
Proof.
  intros Hne. assert (Hc : kcmp k' k ≠ Eq) by (rewrite kcmp_eq; congruence).
  induction m as [|[k0 v0] m IH]; simpl.
  { destruct (kcmp k' k); done. }
  destruct (kcmp k k0) eqn:E; simpl.
  - apply kcmp_eq in E as ->. by destruct (kcmp k' k0).
  - by destruct (kcmp k' k).
  - rewrite IH. done.
Qed.

Lemma bt_get_insert m k k' v :
  bt_get (bt_insert m k v) k' = if decide (k = k') then Some v else bt_get m k'.
Proof.
  case_decide as E; [subst; apply bt_get_insert_eq|by apply bt_get_insert_ne].
Qed.

Lemma bt_get_remove_eq m k : bt_get (bt_remove m k) k = None.
Proof.
  induction m as [|[k' v'] m IH]; simpl; [done|].
  destruct (kcmp k k') eqn:E; simpl; rewrite ?E; auto.
Qed.

Lemma bt_get_remove_ne m k k' : k ≠ k' → bt_get (bt_remove m k) k' = bt_get m k'.
Proof.
  intros Hne. induction m as [|[k0 v0] m IH]; simpl; [done|].
  destruct (kcmp k k0) eqn:E; simpl; rewrite IH; try done.
  apply kcmp_eq in E as ->. destruct (kcmp k' k0) eqn:E'; try done.
  apply kcmp_eq in E'. congruence.
Qed.

Lemma bt_get_In m k v : bt_get m k = Some v → (k, v) ∈ m.
Proof.
  induction m as [|[k' v'] m IH]; simpl; [done|].
  destruct (kcmp k k') eqn:E; intros; [|right; auto..].
  apply kcmp_eq in E. simplify_eq. left.
Qed.

Lemma bt_get_None m k : bt_get m k = None ↔ k ∉ m.*1.
Proof.
  induction m as [|[k' v'] m IH]; simpl; [set_solver|].
  rewrite not_elem_of_cons. destruct (kcmp k k') eqn:E.
  - apply kcmp_eq in E. naive_solver.
  - rewrite IH. apply klt_ne in E. naive_solver.
  - rewrite IH. apply kcmp_gt, klt_ne in E. naive_solver.
Qed.

Lemma bt_get_below m k : Forall (λ e, klt k e.1) m → bt_get m k = None.
Proof.
  intros Hk. apply bt_get_None. intros ([k' v] & -> & Hin)%list_elem_of_fmap.
  rewrite Forall_forall in Hk. by apply (klt_irrefl k'), (Hk _ Hin).
Qed.

Lemma bt_sorted_get m k v : bt_sorted m → (k, v) ∈ m → bt_get m k = Some v.
Proof.
  induction m as [|[k' v'] m IH]; simpl; [set_solver|].
  intros [Hk Hs] [?|Hin]%elem_of_cons; simplify_eq/=; [by rewrite kcmp_refl|].
  rewrite Forall_forall in Hk. specialize (Hk _ Hin). simpl in Hk.
  destruct (kcmp k k') eqn:E; [|by auto..].
  apply kcmp_eq in E. subst. by apply klt_irrefl in Hk.
Qed.

Lemma bt_insert_Forall (P : K * V → Prop) m k v :
  P (k, v) → Forall P m → Forall P (bt_insert m k v).
Proof.
  intros Hp. induction 1 as [|[k' v'] m Hx Hm IH]; simpl; [by constructor|].
  destruct (kcmp k k'); repeat constructor; auto.
Qed.

Lemma bt_remove_Forall (P : K * V → Prop) m k : Forall P m → Forall P (bt_remove m k).
Proof.
  induction 1 as [|[k' v'] m Hx Hm IH]; simpl; [done|].
  destruct (kcmp k k'); try constructor; auto.
Qed.

Lemma bt_insert_sorted m k v : bt_sorted m → bt_sorted (bt_insert m k v).
Proof.
  induction m as [|[k' v'] m IH]; simpl; [done|]. intros [Hk Hs].
  destruct (kcmp k k') eqn:E; simpl.
  - apply kcmp_eq in E as ->. done.
  - split; [|done]. constructor; [done|].
    eapply Forall_impl; [exact Hk|]. intros [] ?. by eapply klt_trans.
  - split; [|auto]. apply bt_insert_Forall; [by apply kcmp_gt|done].
Qed.

Lemma bt_remove_sorted m k : bt_sorted m → bt_sorted (bt_remove m k).
Proof.
  induction m as [|[k' v'] m IH]; simpl; [done|]. intros [Hk Hs].
  destruct (kcmp k k'); simpl; auto using bt_remove_Forall.
Qed.

(** Inserting a key above every key of a sorted map appends it. *)
Lemma bt_insert_snoc m k v :
  Forall (λ e, klt e.1 k) m → bt_insert m k v = m ++ [(k, v)].
Proof.
  induction 1 as [|[k' v'] m Hk _ IH]; simpl; [done|].
  apply kcmp_gt in Hk. simpl in Hk. by rewrite Hk, IH.
Qed.

(** Sorted maps with the same lookups are equal. *)
Lemma bt_ext m1 m2 :
  bt_sorted m1 → bt_sorted m2 → (∀ k, bt_get m1 k = bt_get m2 k) → m1 = m2.
Proof.
  revert m2. induction m1 as [|[k1 v1] m1 IH]; intros [|[k2 v2] m2]; simpl.
  - done.
  - intros _ _ Hg. specialize (Hg k2). by rewrite kcmp_refl in Hg.
  - intros _ _ Hg. specialize (Hg k1). by rewrite kcmp_refl in Hg.
  - intros [Hk1 Hs1] [Hk2 Hs2] Hg.
    assert (Hlt : ∀ k (m : btree K V) k', Forall (λ e, klt k e.1) m → klt k' k → bt_get m k' = None).
    { intros k m k' Hall Hl. apply bt_get_None. intros ([? ?] & ? & Hin)%list_elem_of_fmap.
      rewrite Forall_forall in Hall. specialize (Hall _ Hin). simplify_eq/=.
      eapply klt_irrefl, klt_trans; eassumption. }
    destruct (kcmp k1 k2) eqn:E.
    + apply kcmp_eq in E as ->. pose proof (Hg k2) as Hg2.
      rewrite kcmp_refl in Hg2. simplify_eq. f_equal. apply IH; [done..|].
      intros k. specialize (Hg k). destruct (kcmp k k2) eqn:E; [|done..].
      apply kcmp_eq in E as ->. rewrite Forall_forall in Hk1, Hk2.
      transitivity (@None V); [|symmetry]; apply bt_get_None;
        intros ([? ?] & ? & Hin)%list_elem_of_fmap; simplify_eq/=;
        [specialize (Hk1 _ Hin)|specialize (Hk2 _ Hin)]; by eapply klt_irrefl.
    + specialize (Hg k1). rewrite kcmp_refl, E in Hg. by rewrite (Hlt k2) in Hg.
    + specialize (Hg k2). rewrite kcmp_refl in Hg.
      apply kcmp_gt in E as E'. unfold klt in E'. rewrite E', (Hlt k1) in Hg; done.
Qed.

End btree.
#[export] Hint Resolve bt_insert_sorted bt_remove_sorted : rust.
