(* ===== verification/Abi.v ===== *)
(** The Linux x86-64 ABI surface the other components share.

    Models [crates/linux-compat/src/abi.rs]: errno values, open flags, file
    types, the [struct stat] encoding and [linux_dirent64] records. *)

From S2P Require Import Prelude.

(** * Errno *)
Definition EPERM : Z := 1.
Definition ENOENT : Z := 2.
Definition ESRCH : Z := 3.
Definition EINTR : Z := 4.
Definition EIO : Z := 5.
Definition EBADF : Z := 9.
Definition ECHILD : Z := 10.
Definition EAGAIN : Z := 11.
Definition ENOMEM : Z := 12.
Definition EACCES : Z := 13.
Definition ENODEV : Z := 19.
Definition EFAULT : Z := 14.
Definition EEXIST : Z := 17.
Definition ENOTDIR : Z := 20.
Definition EISDIR : Z := 21.
Definition EINVAL : Z := 22.
Definition EMFILE : Z := 24.
Definition E2BIG : Z := 7.
Definition ENOEXEC : Z := 8.
Definition ENOTTY : Z := 25.
Definition EFBIG : Z := 27.
Definition ENOSPC : Z := 28.
Definition ESPIPE : Z := 29.
Definition EPIPE : Z := 32.
Definition ERANGE : Z := 34.
Definition ENOSYS : Z := 38.
Definition ENOTEMPTY : Z := 39.
Definition ELOOP : Z := 40.
Definition ENOTSOCK : Z := 88.
Definition EDESTADDRREQ : Z := 89.
Definition EPROTONOSUPPORT : Z := 93.
Definition EAFNOSUPPORT : Z := 97.
Definition EOPNOTSUPP : Z := 95.
Definition ENETUNREACH : Z := 101.
Definition ECONNRESET : Z := 104.
Definition ENOTCONN : Z := 107.
Definition ETIMEDOUT : Z := 110.
Definition ECONNREFUSED : Z := 111.

(** [neg]: [-errno] in the register-return convention. *)
Definition neg (errno : Z) : Z := wrap 64 (- errno).

(** * open(2) flags *)
Definition O_ACCMODE : Z := 3.
Definition O_RDONLY : Z := 0.
Definition O_WRONLY : Z := 1.
Definition O_RDWR : Z := 2.
Definition O_APPEND : Z := 1024.
Definition O_NONBLOCK : Z := 2048.
Definition O_CLOEXEC : Z := 524288.
Definition O_CREAT : Z := 64.
Definition O_EXCL : Z := 128.
Definition O_TRUNC : Z := 512.
Definition O_DIRECTORY : Z := 65536.
Definition O_NOFOLLOW : Z := 131072.
Definition AT_FDCWD : Z := 2 ^ 64 - 100.
Definition AT_SYMLINK_NOFOLLOW : Z := 256.
Definition AT_REMOVEDIR : Z := 512.
Definition AT_EMPTY_PATH : Z := 4096.
Definition SEEK_SET : Z := 0.
Definition SEEK_CUR : Z := 1.
Definition SEEK_END : Z := 2.
Definition F_DUPFD : Z := 0.
Definition F_GETFD : Z := 1.
Definition F_SETFD : Z := 2.
Definition F_GETFL : Z := 3.
Definition F_SETFL : Z := 4.
Definition F_GETLK : Z := 5.
Definition F_SETLK : Z := 6.
Definition F_SETLKW : Z := 7.
Definition F_OFD_GETLK : Z := 36.
Definition F_OFD_SETLK : Z := 37.
Definition F_OFD_SETLKW : Z := 38.
Definition F_UNLCK : Z := 2.
Definition F_DUPFD_CLOEXEC : Z := 1030.
Definition FD_CLOEXEC : Z := 1.
Definition IN_MODIFY : Z := 2.
Definition IN_MOVED_FROM : Z := 64.
Definition IN_MOVED_TO : Z := 128.
Definition IN_CREATE : Z := 256.
Definition IN_DELETE : Z := 512.
Definition IN_DELETE_SELF : Z := 1024.
Definition IN_MOVE_SELF : Z := 2048.
Definition IN_ISDIR : Z := 1073741824.
Definition IN_ALL_EVENTS : Z := 4095.
Definition IN_Q_OVERFLOW : Z := 16384.

Definition TCGETS : Z := 21505.
Definition TCSETS : Z := 21506.
Definition TCSETSW : Z := 21507.
Definition TCSETSF : Z := 21508.
Definition TCFLSH : Z := 21515.
Definition TIOCGWINSZ : Z := 21523.
Definition TIOCSWINSZ : Z := 21524.
Definition TIOCSPTLCK : Z := 1074025521.
Definition TIOCGPTN : Z := 2147767344.
Definition TIOCSCTTY : Z := 21518.
Definition TIOCNOTTY : Z := 21538.
Definition TIOCGPGRP : Z := 21519.
Definition TIOCSPGRP : Z := 21520.
Definition FIONREAD : Z := 21531.
Definition FIONBIO : Z := 21537.
Definition FIONCLEX : Z := 21584.
Definition FIOCLEX : Z := 21585.

(** * Memory mappings *)
Definition PROT_READ : Z := 1.
Definition PROT_WRITE : Z := 2.
Definition PROT_EXEC : Z := 4.
Definition MAP_SHARED : Z := 1.
Definition MAP_FIXED : Z := 16.
Definition MAP_ANONYMOUS : Z := 32.

(** * File types *)
Definition S_IFDIR : Z := 16384.
Definition S_IFIFO : Z := 4096.
Definition S_IFCHR : Z := 8192.
Definition S_IFREG : Z := 32768.
Definition S_IFLNK : Z := 40960.
Definition DT_DIR : Z := 4.
Definition DT_REG : Z := 8.
Definition DT_LNK : Z := 10.
Definition DT_CHR : Z := 2.

(** * struct stat *)
Record Stat := {
  st_dev : Z; st_ino : Z; st_nlink : Z; st_mode : Z; st_uid : Z; st_gid : Z;
  st_rdev : Z; st_size : Z; st_blksize : Z; st_blocks : Z;
  st_atime_sec : Z; st_atime_nsec : Z; st_mtime_sec : Z; st_mtime_nsec : Z;
  st_ctime_sec : Z; st_ctime_nsec : Z
}.

(** [Stat::encode]: the fields are written one by one into 144 zero bytes. *)
Definition encode (s : Stat) : bytes :=
  let out := replicate 144 0 in
  let out := copy_at 0 (le_bytes 8 (st_dev s)) out in
  let out := copy_at 8 (le_bytes 8 (st_ino s)) out in
  let out := copy_at 16 (le_bytes 8 (st_nlink s)) out in
  let out := copy_at 24 (le_bytes 4 (st_mode s)) out in
  let out := copy_at 28 (le_bytes 4 (st_uid s)) out in
  let out := copy_at 32 (le_bytes 4 (st_gid s)) out in
  let out := copy_at 40 (le_bytes 8 (st_rdev s)) out in
  let out := copy_at 48 (le_bytes 8 (st_size s)) out in
  let out := copy_at 56 (le_bytes 8 (st_blksize s)) out in
  let out := copy_at 64 (le_bytes 8 (st_blocks s)) out in
  let out := copy_at 72 (le_bytes 8 (st_atime_sec s)) out in
  let out := copy_at 80 (le_bytes 8 (st_atime_nsec s)) out in
  let out := copy_at 88 (le_bytes 8 (st_mtime_sec s)) out in
  let out := copy_at 96 (le_bytes 8 (st_mtime_nsec s)) out in
  let out := copy_at 104 (le_bytes 8 (st_ctime_sec s)) out in
  copy_at 112 (le_bytes 8 (st_ctime_nsec s)) out.

(** * linux_dirent64 *)

(** [(19 + name.len() + 1 + 7) & !7] *)
Definition reclen_of (name_len : Z) : Z := Z.land (19 + name_len + 1 + 7) (Z.lnot 7).

Definition encode_dirent64 (ino next_off d_type : Z) (name : bytes) (remaining : Z)
    : option bytes :=
  let reclen := reclen_of (zlen name) in
  if remaining <? reclen then None
  else
    let rec_ := replicate (Z.to_nat reclen) 0 in
    let rec_ := copy_at 0 (le_bytes 8 ino) rec_ in
    let rec_ := copy_at 8 (le_bytes 8 next_off) rec_ in
    let rec_ := copy_at 16 (le_bytes 2 (wrap 16 reclen)) rec_ in
    let rec_ := copy_at 18 [d_type] rec_ in
    Some (copy_at 19 name rec_).

(** * Facts *)

(** A sequence of field writes; a field no later write overlaps reads back. *)
Fixpoint puts (ws : list (nat * bytes)) (out : bytes) : bytes :=
  match ws with
  | [] => out
  | (o, b) :: ws => puts ws (copy_at o b out)
  end.

Definition in_range (size : nat) (w : nat * bytes) : bool :=
  bool_decide (w.1 + length w.2 ≤ size)%nat.
Definition apart (at_ n : nat) (w : nat * bytes) : bool :=
  bool_decide (at_ + n ≤ w.1 ∨ w.1 + length w.2 ≤ at_)%nat.

Lemma length_puts ws out :
  forallb (in_range (length out)) ws = true → length (puts ws out) = length out.
Proof.
  revert out. induction ws as [|[o b] ws IH]; intros out; [done|].
  cbn. rewrite andb_true_iff. intros [Hw Hws]. apply bool_decide_eq_true in Hw. cbn in Hw.
  rewrite IH; rewrite length_copy_at; auto.
Qed.

Lemma puts_read_other ws out at_ n :
  forallb (in_range (length out)) ws = true → forallb (apart at_ n) ws = true →
  take n (drop at_ (puts ws out)) = take n (drop at_ out).
Proof.
  revert out. induction ws as [|[o b] ws IH]; intros out; [done|].
  cbn. rewrite !andb_true_iff. intros [Hw Hws] [Ha Has].
  apply bool_decide_eq_true in Hw, Ha. cbn in Hw, Ha.
  rewrite IH; rewrite ?length_copy_at; auto using copy_at_read_other.
Qed.

Lemma puts_app ws1 ws2 out : puts (ws1 ++ ws2) out = puts ws2 (puts ws1 out).
Proof. revert out. induction ws1 as [|[? ?] ? IH]; intros; cbn; auto. Qed.

Lemma puts_read ws1 o b ws2 out :
  forallb (in_range (length out)) (ws1 ++ (o, b) :: ws2) = true →
  forallb (apart o (length b)) ws2 = true →
  take (length b) (drop o (puts (ws1 ++ (o, b) :: ws2) out)) = b.
Proof.
  rewrite forallb_app, andb_true_iff. cbn [forallb]. rewrite andb_true_iff.
  intros (Hr1 & Hw & Hr2) Ha. apply bool_decide_eq_true in Hw. cbn in Hw.
  rewrite puts_app. cbn [puts].
  assert (Hl : length (puts ws1 out) = length out) by by apply length_puts.
  rewrite puts_read_other; [|rewrite length_copy_at; rewrite Hl; done|done].
  apply copy_at_read_same. by rewrite Hl.
Qed.

Lemma puts_lookup_other ws out i :
  forallb (in_range (length out)) ws = true → forallb (apart i 1) ws = true →
  puts ws out !! i = out !! i.
Proof.
  intros Hr Ha. pose proof (puts_read_other ws out i 1 Hr Ha) as He.
  apply (f_equal (λ l, l !! 0%nat)) in He.
  by rewrite !lookup_take_lt, !lookup_drop, Nat.add_0_r in He by lia.
Qed.

(** What a guest that reads the 144 bytes as [struct stat] sees. *)
Definition field (at_ n : nat) (l : bytes) : Z := le_val (take n (drop at_ l)).
Definition to_i64 (x : Z) : Z := if x <? 2 ^ 63 then x else x - 2 ^ 64.
Definition stat_view (l : bytes) : Stat := {|
  st_dev := field 0 8 l; st_ino := field 8 8 l; st_nlink := field 16 8 l;
  st_mode := field 24 4 l; st_uid := field 28 4 l; st_gid := field 32 4 l;
  st_rdev := field 40 8 l; st_size := to_i64 (field 48 8 l);
  st_blksize := to_i64 (field 56 8 l); st_blocks := to_i64 (field 64 8 l);
  st_atime_sec := to_i64 (field 72 8 l); st_atime_nsec := to_i64 (field 80 8 l);
  st_mtime_sec := to_i64 (field 88 8 l); st_mtime_nsec := to_i64 (field 96 8 l);
  st_ctime_sec := to_i64 (field 104 8 l); st_ctime_nsec := to_i64 (field 112 8 l)
|}.

Definition is_i64 (x : Z) : Prop := - 2 ^ 63 ≤ x < 2 ^ 63.
Definition stat_wf (s : Stat) : Prop :=
  Forall is_u64 [st_dev s; st_ino s; st_nlink s; st_rdev s] ∧
  Forall is_u32 [st_mode s; st_uid s; st_gid s] ∧
  Forall is_i64 [st_size s; st_blksize s; st_blocks s; st_atime_sec s; st_atime_nsec s;
                 st_mtime_sec s; st_mtime_nsec s; st_ctime_sec s; st_ctime_nsec s].

Lemma to_i64_le_val x : is_i64 x → to_i64 (le_val (le_bytes 8 x)) = x.
Proof.
  unfold is_i64, to_i64. intros. rewrite le_val_bytes. change (8 * Z.of_nat 8) with 64.
  destruct (decide (0 ≤ x)).
  - rewrite Z.mod_small by lia. case_if; bool_to_prop; lia.
  - rewrite <- (Z.mod_add x 1), Z.mod_small by lia. case_if; bool_to_prop; lia.
Qed.

Definition stat_writes (s : Stat) : list (nat * bytes) :=
  [(0%nat, le_bytes 8 (st_dev s)); (8%nat, le_bytes 8 (st_ino s));
   (16%nat, le_bytes 8 (st_nlink s)); (24%nat, le_bytes 4 (st_mode s));
   (28%nat, le_bytes 4 (st_uid s)); (32%nat, le_bytes 4 (st_gid s));
   (40%nat, le_bytes 8 (st_rdev s)); (48%nat, le_bytes 8 (st_size s));
   (56%nat, le_bytes 8 (st_blksize s)); (64%nat, le_bytes 8 (st_blocks s));
   (72%nat, le_bytes 8 (st_atime_sec s)); (80%nat, le_bytes 8 (st_atime_nsec s));
   (88%nat, le_bytes 8 (st_mtime_sec s)); (96%nat, le_bytes 8 (st_mtime_nsec s));
   (104%nat, le_bytes 8 (st_ctime_sec s)); (112%nat, le_bytes 8 (st_ctime_nsec s))].

Lemma encode_puts s : encode s = puts (stat_writes s) (replicate 144 0).
Proof. reflexivity. Qed.

(** The [k]-th field of the encoding. *)
Lemma stat_field s k o b :
  stat_writes s !! k = Some (o, b) → take (length b) (drop o (encode s)) = b.
Proof.
  intros Hk. rewrite encode_puts.
  rewrite <- (take_drop_middle _ _ _ Hk).
  do 16 (destruct k as [|k]; [injection Hk as <- <-; apply puts_read; reflexivity|]).
  done.
Qed.

Lemma stat_unsigned s k o n x :
  stat_writes s !! k = Some (o, le_bytes n x) → fits (8 * Z.of_nat n) x →
  field o n (encode s) = x.
Proof.
  intros Hk Hx. unfold field. rewrite <- (length_le_bytes n x) at 1.
  rewrite (stat_field s k o) by done. by apply le_val_bytes_id.
Qed.

Lemma stat_signed s k o x :
  stat_writes s !! k = Some (o, le_bytes 8 x) → is_i64 x →
  to_i64 (field o 8 (encode s)) = x.
Proof.
  intros Hk Hx. unfold field. rewrite <- (length_le_bytes 8 x) at 1.
  rewrite (stat_field s k o) by done. by apply to_i64_le_val.
Qed.
#[local] Opaque encode.

(** [Stat::encode] writes exactly 144 bytes and every field of the
    [struct stat] the guest reads back is the field that was encoded: no field
    overlaps another and no width is truncated. *)
Theorem stat_encode_view s :
  stat_wf s → length (encode s) = 144%nat ∧ stat_view (encode s) = s.
Proof.
  intros (H64 & H32 & Hi64). split.
  { rewrite encode_puts, length_puts; reflexivity. }
  repeat match goal with H : Forall _ (_ :: _) |- _ => apply Forall_cons in H as [? H] end.
  transitivity {| st_dev := st_dev s; st_ino := st_ino s; st_nlink := st_nlink s;
    st_mode := st_mode s; st_uid := st_uid s; st_gid := st_gid s; st_rdev := st_rdev s;
    st_size := st_size s; st_blksize := st_blksize s; st_blocks := st_blocks s;
    st_atime_sec := st_atime_sec s; st_atime_nsec := st_atime_nsec s;
    st_mtime_sec := st_mtime_sec s; st_mtime_nsec := st_mtime_nsec s;
    st_ctime_sec := st_ctime_sec s; st_ctime_nsec := st_ctime_nsec s |}; [|by destruct s].
  unfold stat_view; f_equal;
  [ apply (stat_unsigned s 0) | apply (stat_unsigned s 1) | apply (stat_unsigned s 2)
  | apply (stat_unsigned s 3) | apply (stat_unsigned s 4) | apply (stat_unsigned s 5)
  | apply (stat_unsigned s 6) | apply (stat_signed s 7) | apply (stat_signed s 8)
  | apply (stat_signed s 9) | apply (stat_signed s 10) | apply (stat_signed s 11)
  | apply (stat_signed s 12) | apply (stat_signed s 13) | apply (stat_signed s 14)
  | apply (stat_signed s 15)]; done.
Qed.

Lemma stat_encode_view_witness :
  let s := Build_Stat 1 7 1 33188 1000 1000 0 (-1) 4096 8 5 0 6 0 7 0 in
  length (encode s) = 144%nat ∧ stat_view (encode s) = s.
Proof.
  apply stat_encode_view. unfold stat_wf, fits, is_i64; cbn.
  repeat constructor; cbv; congruence.
Defined.

Lemma reclen_of_div n : reclen_of n = (n + 27) / 8 * 8.
Proof.
  unfold reclen_of. rewrite <- Z.ldiff_land. change 7 with (Z.ones 3) at 2.
  rewrite Z.ldiff_ones_r, Z.shiftl_mul_pow2, Z.shiftr_div_pow2 by lia.
  change (2 ^ 3) with 8. f_equal. f_equal. lia.
Qed.

Lemma reclen_of_bounds n : 0 ≤ n → n + 20 ≤ reclen_of n ≤ n + 27 ∧ reclen_of n mod 8 = 0.
Proof.
  intros. rewrite reclen_of_div, Z.mod_mul by lia.
  pose proof (Z.div_mod (n + 27) 8). pose proof (Z.mod_pos_bound (n + 27) 8). lia.
Qed.

Definition dirent_writes (ino next_off d_type : Z) (name : bytes) : list (nat * bytes) :=
  [(0%nat, le_bytes 8 ino); (8%nat, le_bytes 8 next_off);
   (16%nat, le_bytes 2 (wrap 16 (reclen_of (zlen name)))); (18%nat, [d_type]); (19%nat, name)].

Lemma dirent_in_range ino off t name :
  forallb (in_range (Z.to_nat (reclen_of (zlen name)))) (dirent_writes ino off t name) = true.
Proof.
  pose proof (reclen_of_bounds (zlen name) (zlen_nonneg _)). unfold zlen in *.
  unfold dirent_writes, in_range. cbn [forallb fst snd]. rewrite !length_le_bytes. cbn.
  rewrite !bool_decide_eq_true_2 by (rewrite ?length_le_bytes; lia). done.
Qed.

(** What a reader of a [linux_dirent64] record finds in it. *)
Definition dirent_read (ino next_off d_type : Z) (name : bytes) (r : bytes) : Prop :=
  take 8 (drop 0 r) = le_bytes 8 ino ∧
  take 8 (drop 8 r) = le_bytes 8 next_off ∧
  take 1 (drop 18 r) = [d_type] ∧
  take (length name) (drop 19 r) = name ∧
  r !! (19 + length name)%nat = Some 0.

(** [encode_dirent64] refuses exactly the records that do not fit. A
    record it returns is 8-byte aligned, fits the space that remained, carries
    the inode, the next offset, the type and the NUL-terminated name at the
    kernel's offsets, and its [d_reclen] field is its length whenever the name
    is at most 65508 bytes, so a reader that steps by [d_reclen] lands on the
    next record. *)
Theorem encode_dirent64_spec ino next_off d_type name remaining :
  zlen name ≤ 65508 →
  (encode_dirent64 ino next_off d_type name remaining = None ∧
     remaining < reclen_of (zlen name)) ∨
  (∃ r, encode_dirent64 ino next_off d_type name remaining = Some r ∧
     zlen r ≤ remaining ∧ zlen r mod 8 = 0 ∧
     dirent_read ino next_off d_type name r ∧ field 16 2 r = zlen r).
Proof.
  intros Hname. pose proof (reclen_of_bounds (zlen name) (zlen_nonneg _)) as [Hb Hm].
  pose proof (zlen_nonneg name).
  unfold encode_dirent64. case_if; bool_to_prop; [by left|right].
  eexists. split; [reflexivity|].
  change (copy_at 19 name _) with
    (puts (dirent_writes ino next_off d_type name) (replicate (Z.to_nat (reclen_of (zlen name))) 0)).
  pose proof (dirent_in_range ino next_off d_type name) as Hr.
  set (out := replicate (Z.to_nat (reclen_of (zlen name))) 0) in *.
  assert (Hout : length out = Z.to_nat (reclen_of (zlen name))) by apply length_replicate.
  rewrite <- Hout in Hr. unfold dirent_writes in *. set (r := puts _ out).
  assert (Hl : zlen r = reclen_of (zlen name)).
  { unfold zlen. subst r. rewrite length_puts, Hout by done. unfold zlen in *. lia. }
  rewrite Hl. split_and!; [done|done|unfold dirent_read; split_and!|].
  - apply (puts_read [] 0 (le_bytes 8 ino)); [done|reflexivity].
  - apply (puts_read [_] 8 (le_bytes 8 next_off)); [done|reflexivity].
  - by apply (puts_read [_; _; _] 18 [d_type]).
  - by apply (puts_read [_; _; _; _] 19 name []).
  - subst r. rewrite puts_lookup_other; [|done|].
    + apply lookup_replicate. unfold zlen in *. lia.
    + unfold apart. cbn [forallb fst snd]. rewrite !length_le_bytes. cbn.
      rewrite !bool_decide_eq_true_2 by (rewrite ?length_le_bytes; lia). done.
  - assert (Hf : take 2 (drop 16 r) = le_bytes 2 (wrap 16 (reclen_of (zlen name))))
      by by apply (puts_read [_; _] 16 (le_bytes 2 _)).
    unfold field. rewrite Hf.
    rewrite le_val_bytes_id by (apply Z.mod_pos_bound; lia).
    apply Z.mod_small. lia.
Qed.

Lemma encode_dirent64_spec_witness :
  zlen (replicate 3 97) ≤ 65508 ∧
  ∃ r, encode_dirent64 5 2 DT_REG (replicate 3 97) 24 = Some r ∧ zlen r = 24 ∧
       dirent_read 5 2 DT_REG (replicate 3 97) r.
Proof.
  split; [vm_compute; congruence|].
  destruct (encode_dirent64_spec 5 2 DT_REG (replicate 3 97) 24) as [[Hn _]|(r & Hr & _ & _ & Hd & _)].
  - vm_compute; congruence.
  - vm_compute in Hn. congruence.
  - exists r. split_and!; [done| |done]. vm_compute in Hr. by simplify_eq.
Defined.
