(* ===== verification/Digest.v ===== *)
(** SHA-256 and hexadecimal digests.

    Models [crates/linux-compat/src/digest.rs]: the running hasher
    [Sha256] with [new]/[update]/[finish]/[compress], the one-shot [sha256],
    and [hex]/[from_hex]. The reference, [Standard.hash], is FIPS 180-4 written
    apart from the code: its constants are the fractional parts of roots of
    primes, its schedule is the recurrence of the standard. The running hasher
    computes it however the message is cut into pieces. *)

From S2P Require Import Prelude.

(** * u32 words *)
Definition add32 (a b : Z) : Z := wrap 32 (a + b).
Definition not32 (a : Z) : Z := U32_MAX - a.
Definition rotate_right (x n : Z) : Z :=
  Z.lor (Z.shiftr x n) (wrap 32 (Z.shiftl x (32 - n))).

(** The round constants, one row of eight words of the table per literal. *)
Definition row_words (row : Z) : list Z :=
  map (λ i, Z.shiftr row (32 * (7 - Z.of_nat i)) mod 2 ^ 32) (seq 0 8).
Definition K : list Z := Eval vm_compute in concat (map row_words [
  0x428a2f9871374491b5c0fbcfe9b5dba53956c25b59f111f1923f82a4ab1c5ed5;
  0xd807aa9812835b01243185be550c7dc372be5d7480deb1fe9bdc06a7c19bf174;
  0xe49b69c1efbe47860fc19dc6240ca1cc2de92c6f4a7484aa5cb0a9dc76f988da;
  0x983e5152a831c66db00327c8bf597fc7c6e00bf3d5a7914706ca635114292967;
  0x27b70a852e1b21384d2c6dfc53380d13650a7354766a0abb81c2c92e92722c85;
  0xa2bfe8a1a81a664bc24b8b70c76c51a3d192e819d6990624f40e3585106aa070;
  0x19a4c1161e376c082748774c34b0bcb5391c0cb34ed8aa4a5b9cca4f682e6ff3;
  0x748f82ee78a5636f84c878148cc7020890befffaa4506cebbef9a3f7c67178f2
]).

(** * The hasher *)
Record Sha256 := {
  state : list Z;
  buffer : bytes;
  buffered : nat;
  bits : Z
}.

Definition initial_state : list Z := [
  0x6a09e667; 0xbb67ae85; 0x3c6ef372; 0xa54ff53a; 0x510e527f; 0x9b05688c; 0x1f83d9ab;
  0x5be0cd19].

Definition new : Sha256 := {|
  state := initial_state; buffer := replicate 64 0; buffered := 0; bits := 0
|}.

(** The first loop of [compress]: sixteen big-endian words of the block. *)
Definition block_words (block : bytes) : list Z :=
  fold_left (λ w i, <[i := be_val [nth (i * 4)%nat block 0; nth (i * 4 + 1)%nat block 0;
                                  nth (i * 4 + 2)%nat block 0; nth (i * 4 + 3)%nat block 0]]> w)
    (seq 0 16) (replicate 64 0).

(** The second loop: the message schedule. *)
Definition schedule_step (w : list Z) (i : nat) : list Z :=
  let w15 := nth (i - 15) w 0 in
  let w2 := nth (i - 2) w 0 in
  let s0 := Z.lxor (Z.lxor (rotate_right w15 7) (rotate_right w15 18)) (Z.shiftr w15 3) in
  let s1 := Z.lxor (Z.lxor (rotate_right w2 17) (rotate_right w2 19)) (Z.shiftr w2 10) in
  <[i := add32 (add32 (add32 (nth (i - 16) w 0) s0) (nth (i - 7) w 0)) s1]> w.
Definition schedule (block : bytes) : list Z :=
  fold_left schedule_step (seq 16 48) (block_words block).

Definition working : Type := Z * Z * Z * Z * Z * Z * Z * Z.

(** One round of the third loop. *)
Definition round (w : list Z) (v : working) (i : nat) : working :=
  let '(a, b, c, d, e, f, g, h) := v in
  let s1 := Z.lxor (Z.lxor (rotate_right e 6) (rotate_right e 11)) (rotate_right e 25) in
  let ch := Z.lxor (Z.land e f) (Z.land (not32 e) g) in
  let t1 := add32 (add32 (add32 (add32 h s1) ch) (nth i K 0)) (nth i w 0) in
  let s0 := Z.lxor (Z.lxor (rotate_right a 2) (rotate_right a 13)) (rotate_right a 22) in
  let maj := Z.lxor (Z.lxor (Z.land a b) (Z.land a c)) (Z.land b c) in
  let t2 := add32 s0 maj in
  (add32 t1 t2, a, b, c, add32 d t1, e, f, g).

Definition compress (st : list Z) (block : bytes) : list Z :=
  match st with
  | [a; b; c; d; e; f; g; h] =>
      let '(a', b', c', d', e', f', g', h') :=
        fold_left (round (schedule block)) (seq 0 64) (a, b, c, d, e, f, g, h) in
      [add32 a a'; add32 b b'; add32 c c'; add32 d d';
       add32 e e'; add32 f f'; add32 g g'; add32 h h']
  | _ => st
  end.

(** [slice.as_chunks::<n>()]: the whole chunks and the remainder. *)
Fixpoint take_chunks (k n : nat) (l : bytes) : list bytes * bytes :=
  match k with
  | O => ([], l)
  | S k => let '(bs, r) := take_chunks k n (drop n l) in (take n l :: bs, r)
  end.
Definition as_chunks (n : nat) (l : bytes) : list bytes * bytes :=
  take_chunks (length l / n) n l.

(** The part of [update] after the early return. *)
Definition update_blocks (st : list Z) (buf : bytes) (nbits : Z) (l : bytes) : Sha256 :=
  let '(blocks, rest) := as_chunks 64 l in
  {| state := fold_left compress blocks st;
     buffer := copy_at 0 rest buf;
     buffered := length rest;
     bits := nbits |}.

Definition update (s : Sha256) (l : bytes) : Sha256 :=
  let nbits := wrapping_add64 (bits s) (wrapping_mul64 (wrap 64 (zlen l)) 8) in
  if (0 <? buffered s)%nat then
    let take_ := Nat.min (64 - buffered s) (length l) in
    let buf := copy_at (buffered s) (take take_ l) (buffer s) in
    let n := (buffered s + take_)%nat in
    let l := drop take_ l in
    if (n <? 64)%nat
    then {| state := state s; buffer := buf; buffered := n; bits := nbits |}
    else update_blocks (compress (state s) buf) buf nbits l
  else update_blocks (state s) (buffer s) nbits l.

(** The padding [finish] feeds to [update], for a count of buffered bytes;
    [wrapping_sub] on [usize] is taken modulo 2^32 or 2^64. *)
Definition finish_tail `{Host} (s : Sha256) : bytes :=
  let tail := copy_at 0 [0x80] (replicate 72 0) in
  let zeros := Z.to_nat (((56 - (Z.of_nat (buffered s) + 1)) mod 2 ^ usize_bits) mod 64) in
  let end_ := (1 + zeros)%nat in
  let tail := copy_at end_ (be_bytes 8 (bits s)) tail in
  take (end_ + 8) tail.

Definition state_bytes (st : list Z) : bytes := concat (be_bytes 4 <$> st).

Definition finish `{Host} (s : Sha256) : bytes :=
  state_bytes (state (update s (finish_tail s))).

Definition sha256 `{Host} (l : bytes) : bytes := finish (update new l).

(** * Hexadecimal digests *)

(** [char::from_digit(d, 16)] and [char::to_digit(16)], on ASCII codes. *)
Definition from_digit (d : Z) : option Z :=
  if d <? 10 then Some (48 + d) else if d <? 16 then Some (97 + d - 10) else None.
Definition to_digit (c : Z) : option Z :=
  if (48 <=? c) && (c <=? 57) then Some (c - 48)
  else if (97 <=? c) && (c <=? 102) then Some (c - 97 + 10)
  else if (65 <=? c) && (c <=? 70) then Some (c - 65 + 10)
  else None.

Fixpoint hex (digest : bytes) : option bytes :=
  match digest with
  | [] => Some []
  | b :: rest =>
      hi ← from_digit (Z.shiftr b 4);
      lo ← from_digit (Z.land b 15);
      out ← hex rest;
      Some (hi :: lo :: out)
  end.

Fixpoint from_hex_pairs (pairs : list bytes) : option bytes :=
  match pairs with
  | [] => Some []
  | p :: rest =>
      hi ← to_digit (nth 0 p 0);
      lo ← to_digit (nth 1 p 0);
      out ← from_hex_pairs rest;
      Some (wrap 8 (Z.lor (Z.shiftl hi 4) lo) :: out)
  end.

Definition from_hex (text : bytes) : option bytes :=
  if (length text =? 64)%nat then from_hex_pairs (as_chunks 2 text).1 else None.

(** Known answers: the empty message and [abc]. *)
Example sha256_empty :
  hex (sha256 []) =
  Some (Z.of_nat ∘ Ascii.nat_of_ascii <$>
    String.list_ascii_of_string "e3b0c44298fc1c149afbf4c8996fb92427ae41e4649b934ca495991b7852b855").
Proof. vm_compute. reflexivity. Qed.
Example sha256_abc :
  hex (sha256 [97; 98; 99]) =
  Some (Z.of_nat ∘ Ascii.nat_of_ascii <$>
    String.list_ascii_of_string "ba7816bf8f01cfea414140de5dae2223b00361a396177a9cb410ff61f20015ad").
Proof. vm_compute. reflexivity. Qed.

(** * Cutting a message into blocks *)
Definition whole (n : nat) (bs : list bytes) : Prop := Forall (λ b, length b = n) bs.

Lemma take_chunks_concat n bs r :
  whole n bs → take_chunks (length bs) n (concat bs ++ r) = (bs, r).
Proof.
  induction 1 as [|b bs Hb _ IH]; [done|]. cbn [concat length take_chunks].
  rewrite <- (app_assoc b), drop_app_length', take_app_length' by done.
  by rewrite IH.
Qed.

Lemma whole_concat_length n bs : whole n bs → length (concat bs) = (length bs * n)%nat.
Proof. induction 1 as [|b bs Hb _ IH]; cbn; [done|]. rewrite length_app. lia. Qed.

Lemma as_chunks_concat n bs r :
  (length r < n)%nat → whole n bs → as_chunks n (concat bs ++ r) = (bs, r).
Proof.
  intros Hr Hbs. unfold as_chunks.
  rewrite length_app, (whole_concat_length n) by done.
  rewrite Nat.div_add_l, Nat.div_small, Nat.add_0_r by lia.
  by apply take_chunks_concat.
Qed.

Lemma take_chunks_split k n l :
  (k * n ≤ length l)%nat → ∃ bs r, take_chunks k n l = (bs, r) ∧
    l = concat bs ++ r ∧ whole n bs ∧ length bs = k.
Proof.
  revert l. induction k as [|k IH]; intros l Hl; [exists [], l; by repeat constructor|].
  destruct (IH (drop n l)) as (bs & r & He & Hd & Hw & Hk); [rewrite length_drop; cbn in Hl; lia|].
  exists (take n l :: bs), r. cbn [take_chunks]. rewrite He. split_and!; [done| |..].
  - cbn [concat]. rewrite <- app_assoc, <- Hd. symmetry. apply take_drop.
  - constructor; [|done]. rewrite length_take. lia.
  - cbn. by rewrite Hk.
Qed.

Lemma as_chunks_split n l :
  (0 < n)%nat → ∃ bs r, as_chunks n l = (bs, r) ∧ l = concat bs ++ r ∧ whole n bs ∧
    (length r < n)%nat.
Proof.
  intros Hn. pose proof (Nat.div_mod_eq (length l) n) as Hd.
  pose proof (Nat.mod_upper_bound (length l) n).
  destruct (take_chunks_split (length l / n) n l) as (bs & r & He & Hl & Hw & Hk); [lia|].
  exists bs, r. split_and!; try done.
  assert (Hlen : length l = (length bs * n + length r)%nat).
  { by rewrite Hl, length_app, (whole_concat_length n) by done. }
  rewrite Hk in Hlen. nia.
Qed.

(** * The reference: FIPS 180-4 *)
Definition pad (m : bytes) : bytes :=
  m ++ 0x80 :: replicate (Z.to_nat ((55 - zlen m) mod 64)) 0 ++ be_bytes 8 (8 * zlen m).

Module Standard.
(** The constants: the first 32 bits of the fractional parts of the square roots of
    the first eight primes, and of the cube roots of the first sixty-four. *)
Definition prime (n : Z) : bool := forallb (λ d, negb (n mod Z.of_nat d =? 0)) (seq 2 (Z.to_nat (Z.sqrt n) - 1)).
Definition primes : list Z := List.filter prime (seqZ 2 310).
(** The largest [x] below [2^n] whose cube is at most [y], bit by bit. *)
Fixpoint cube_root_from (n : nat) (x y : Z) : Z :=
  match n with
  | O => x
  | S n => let x' := x + 2 ^ Z.of_nat n in cube_root_from n (if x' * x' * x' <=? y then x' else x) y
  end.
Definition sqrt_bits (p : Z) : Z := Z.sqrt (p * 2 ^ 64) mod 2 ^ 32.
Definition cbrt_bits (p : Z) : Z := cube_root_from 36 0 (p * 2 ^ 96) mod 2 ^ 32.
Definition H0 : list Z := map sqrt_bits (take 8 primes).
Definition K : list Z := map cbrt_bits (take 64 primes).
Example cube_roots : forallb (λ p, let x := cube_root_from 36 0 (p * 2 ^ 96) in
  (x ^ 3 <=? p * 2 ^ 96) && (p * 2 ^ 96 <? (x + 1) ^ 3)) (take 64 primes) = true.
Proof. vm_compute. reflexivity. Qed.

(** Words of 32 bits and the six functions on them. *)
Definition SHR (n x : Z) : Z := Z.shiftr x n.
Definition ROTR (n x : Z) : Z := Z.lor (Z.shiftr x n) (Z.shiftl x (32 - n) mod 2 ^ 32).
Definition Ch (x y z : Z) : Z := Z.lxor (Z.land x y) (Z.ldiff z x).
Definition Maj (x y z : Z) : Z := Z.lxor (Z.lxor (Z.land x y) (Z.land x z)) (Z.land y z).
Definition Sum (i j k x : Z) : Z := Z.lxor (Z.lxor (ROTR i x) (ROTR j x)) (ROTR k x).
Definition Sigma (i j k x : Z) : Z := Z.lxor (Z.lxor (ROTR i x) (ROTR j x)) (SHR k x).

(** [M_t], the [t]-th big-endian word of a block, and the words [W_0 .. W_(t-1)]. *)
Definition M (block : bytes) (t : nat) : Z :=
  ((nth (4 * t) block 0 * 256 + nth (4 * t + 1) block 0) * 256 + nth (4 * t + 2) block 0) * 256 + nth (4 * t + 3) block 0.
Fixpoint W (block : bytes) (t : nat) : list Z :=
  match t with
  | O => []
  | S t =>
      let w := W block t in
      w ++ [if (t <? 16)%nat then M block t
            else (Sigma 17 19 10 (nth (t - 2) w 0) + nth (t - 7) w 0 + Sigma 7 18 3 (nth (t - 15) w 0) + nth (t - 16) w 0) mod 2 ^ 32]
  end.
Definition step (k w : Z) (v : working) : working :=
  let '(a, b, c, d, e, f, g, h) := v in
  let T1 := (h + Sum 6 11 25 e + Ch e f g + k + w) mod 2 ^ 32 in
  let T2 := (Sum 2 13 22 a + Maj a b c) mod 2 ^ 32 in
  ((T1 + T2) mod 2 ^ 32, a, b, c, (d + T1) mod 2 ^ 32, e, f, g).
Definition listed (v : working) : list Z := let '(a, b, c, d, e, f, g, h) := v in [a; b; c; d; e; f; g; h].
Definition of_list (l : list Z) : working :=
  (nth 0 l 0, nth 1 l 0, nth 2 l 0, nth 3 l 0, nth 4 l 0, nth 5 l 0, nth 6 l 0, nth 7 l 0).
(** The next hash value, after the 64 steps on a block. *)
Definition next (H : list Z) (block : bytes) : list Z :=
  let v := fold_left (λ v kw, step kw.1 kw.2 v) (zip K (W block 64)) (of_list H) in
  zip_with (λ x y, (x + y) mod 2 ^ 32) H (listed v).
Definition hash (m : bytes) : bytes := concat (be_bytes 4 <$> fold_left next (as_chunks 64 (pad m)).1 H0).
End Standard.

(** The code's constants, schedule, rounds and compression are the standard's. *)
Lemma K_standard : K = Standard.K.
Proof. vm_compute. reflexivity. Qed.
Lemma initial_standard : initial_state = Standard.H0.
Proof. vm_compute. reflexivity. Qed.
Lemma length_W block t : length (Standard.W block t) = t.
Proof. induction t as [|t IH]; [done|]. cbn [Standard.W]. rewrite length_app, IH. cbn. lia. Qed.
Lemma block_words_standard block : block_words block = Standard.W block 16 ++ replicate 48 0.
Proof.
  assert (∀ a b c d, be_val [a; b; c; d] = ((a * 256 + b) * 256 + c) * 256 + d) as Hbe by (intros; unfold be_val; cbn; lia).
  assert (∀ n, (n ≤ 16)%nat →
    fold_left (λ w i, <[i := be_val [nth (i * 4)%nat block 0; nth (i * 4 + 1)%nat block 0; nth (i * 4 + 2)%nat block 0;
      nth (i * 4 + 3)%nat block 0]]> w) (seq 0 n) (replicate 64 0) = Standard.W block n ++ replicate (64 - n) 0) as Hall.
  { intros n Hn. induction n as [|n IH]; [done|]. rewrite seq_S, fold_left_app, IH by lia. cbn [fold_left Nat.add].
    rewrite Hbe. replace (64 - n)%nat with (S (64 - S n)) by lia. cbn [replicate].
    rewrite insert_app_r_alt by (rewrite length_W; lia). rewrite length_W, Nat.sub_diag. cbn [insert list_insert Standard.W].
    rewrite (proj2 (Nat.ltb_lt _ _)) by lia. rewrite <- app_assoc. unfold Standard.M. by rewrite !(Nat.mul_comm n 4). }
  by apply (Hall 16%nat).
Qed.
Lemma add32_chain a b c : add32 (add32 a b) c = add32 a (b + c).
Proof. unfold add32, wrap. rewrite Z.add_mod_idemp_l by lia. f_equal. lia. Qed.
Lemma W_next block t : (16 ≤ t)%nat →
  let w := Standard.W block t in
  Standard.W block (S t) = w ++ [(Standard.Sigma 17 19 10 (nth (t - 2) w 0) + nth (t - 7) w 0 +
    Standard.Sigma 7 18 3 (nth (t - 15) w 0) + nth (t - 16) w 0) mod 2 ^ 32].
Proof. intros Ht. cbn [Standard.W]. by rewrite (proj2 (Nat.ltb_ge _ _) Ht). Qed.
Lemma sigmas_standard x y :
  Z.lxor (Z.lxor (rotate_right x 17) (rotate_right x 19)) (Z.shiftr x 10) = Standard.Sigma 17 19 10 x ∧
  Z.lxor (Z.lxor (rotate_right y 7) (rotate_right y 18)) (Z.shiftr y 3) = Standard.Sigma 7 18 3 y.
Proof. by unfold Standard.Sigma, Standard.SHR, Standard.ROTR, rotate_right, wrap. Qed.
Lemma schedule_prefix block n :
  (n ≤ 48)%nat → fold_left schedule_step (seq 16 n) (Standard.W block 16 ++ replicate 48 0) =
    Standard.W block (16 + n) ++ replicate (48 - n) 0.
Proof.
  induction n as [|n IH]; intros Hn; [by rewrite Nat.add_0_r, Nat.sub_0_r|]. rewrite seq_S, fold_left_app, IH by lia. cbn [fold_left].
  rewrite Nat.add_succ_r. assert (16 ≤ 16 + n)%nat as Ht by lia. replace (48 - n)%nat with (S (48 - S n)) by lia.
  revert Ht. generalize (16 + n)%nat (48 - S n)%nat. clear. intros t k Ht. rewrite W_next by done. cbn [replicate]. cbv zeta.
  generalize (length_W block t). generalize (Standard.W block t). intros w Hw. unfold schedule_step.
  rewrite insert_app_r_alt by lia. rewrite Hw, Nat.sub_diag. cbn [insert list_insert]. rewrite <- app_assoc.
  rewrite !app_nth1 by lia. cbn [app]. do 2 f_equal.
  destruct (sigmas_standard (nth (t - 2) w 0) (nth (t - 15) w 0)) as [-> ->].
  rewrite !add32_chain. unfold add32, wrap. f_equal. lia.
Qed.
Lemma schedule_standard block : schedule block = Standard.W block 64.
Proof.
  unfold schedule. rewrite block_words_standard, schedule_prefix by lia. replace (48 - 48)%nat with 0%nat by lia.
  replace (16 + 48)%nat with 64%nat by lia. apply app_nil_r.
Qed.

Definition u32s (v : working) : Prop := Forall is_u32 (Standard.listed v).
Lemma u32_mod x : is_u32 (x mod 2 ^ 32).
Proof. apply Z.mod_pos_bound. lia. Qed.
Lemma u32_high x n : is_u32 x → 32 ≤ n → Z.testbit x n = false.
Proof. intros Hx Hn. rewrite <- (Z.mod_small x (2 ^ 32)) by exact Hx. apply Z.mod_pow2_bits_high. lia. Qed.
Lemma not32_spec e g : is_u32 e → is_u32 g → Z.land (not32 e) g = Z.ldiff g e.
Proof.
  intros He Hg. unfold not32. replace (U32_MAX - e) with (Z.ldiff (Z.ones 32) e).
  - apply Z.bits_inj'. intros n Hn. rewrite Z.land_spec, !Z.ldiff_spec, Z.testbit_ones by lia.
    destruct (Z.lt_ge_cases n 32); [|by rewrite (u32_high g) by (done || lia); rewrite andb_false_r].
    replace (0 <=? n) with true by lia. replace (n <? 32) with true by lia. cbn. apply andb_comm.
  - rewrite <- Z.sub_nocarry_ldiff; [done|]. apply Z.bits_inj'. intros n Hn. rewrite Z.ldiff_spec, Z.bits_0, Z.testbit_ones by lia.
    destruct (Z.lt_ge_cases n 32); [|by rewrite (u32_high e) by (done || lia)].
    replace (0 <=? n) with true by lia. replace (n <? 32) with true by lia. apply andb_false_r.
Qed.
Lemma round_standard w v i : u32s v → round w v i = Standard.step (nth i K 0) (nth i w 0) v ∧ u32s (round w v i).
Proof.
  destruct v as [[[[[[[a b] c] d] e] f] g] h]. unfold u32s. cbn [Standard.listed]. rewrite !Forall_cons.
  intros (Ha & Hb & Hc & Hd & He & Hf & Hg & Hh & _). split.
  - unfold round, Standard.step, Standard.Sum, Standard.Ch, Standard.Maj, Standard.ROTR, rotate_right.
    rewrite (not32_spec e g He Hg), !add32_chain. unfold add32, wrap. rewrite <- !Z.add_assoc.
    by rewrite (Z.add_mod_idemp_l (h + _)), <- !Z.add_assoc by lia.
  - unfold round. cbn [Standard.listed]. rewrite !Forall_cons. unfold add32, wrap. split_and!; try done; try apply u32_mod.
Qed.
Lemma rounds_standard w v :
  length w = 64%nat → u32s v → fold_left (round w) (seq 0 64) v = fold_left (λ v kw, Standard.step kw.1 kw.2 v) (zip Standard.K w) v ∧
  u32s (fold_left (round w) (seq 0 64) v).
Proof.
  intros Hw Hv. rewrite <- K_standard.
  assert (∀ n, (n ≤ 64)%nat → fold_left (round w) (seq 0 n) v = fold_left (λ v kw, Standard.step kw.1 kw.2 v) (take n (zip K w)) v ∧
    u32s (fold_left (round w) (seq 0 n) v)) as Hall.
  { induction n as [|n IH]; intros Hn; [done|]. destruct (IH ltac:(lia)) as [E Hu]. rewrite seq_S, fold_left_app. cbn [fold_left Nat.add].
    destruct (round_standard w _ n Hu) as [Er Hr]. split; [|done]. rewrite Er, E.
    assert (zip K w !! n = Some (nth n K 0, nth n w 0)) as Hz.
    { apply lookup_zip_with_Some. exists (nth n K 0), (nth n w 0). split; [done|].
      assert (n < length K)%nat as HK by (change (length K) with 64%nat; lia). assert (n < length w)%nat as Hw' by lia.
      apply lookup_lt_is_Some_2 in HK as [x Hx], Hw' as [y Hy]. by rewrite !nth_lookup, Hx, Hy. }
    by rewrite (take_S_r _ _ _ Hz), fold_left_app. }
  destruct (Hall 64%nat ltac:(lia)) as [E Hu]. split; [|done]. rewrite E, take_ge; [done|]. rewrite length_zip_with, Hw. lia.
Qed.
Lemma compress_standard st block :
  length st = 8%nat → Forall is_u32 st →
  compress st block = Standard.next st block ∧ length (compress st block) = 8%nat ∧ Forall is_u32 (compress st block).
Proof.
  intros Hl Hu. do 8 (destruct st as [|? st]; [done|]). destruct st; [|done]. unfold compress, Standard.next.
  rewrite schedule_standard. change (Standard.of_list _) with (z, z0, z1, z2, z3, z4, z5, z6).
  destruct (rounds_standard (Standard.W block 64) (z, z0, z1, z2, z3, z4, z5, z6) (length_W _ _) Hu) as [<- _].
  destruct (fold_left _ _ _) as [[[[[[[? ?] ?] ?] ?] ?] ?] ?]. split; [done|]. split; [done|]. repeat (constructor; [apply u32_mod|]). constructor.
Qed.
Lemma blocks_standard bs st :
  length st = 8%nat → Forall is_u32 st → fold_left compress bs st = fold_left Standard.next bs st.
Proof.
  revert st. induction bs as [|b bs IH]; intros st Hl Hu; [done|]. cbn. destruct (compress_standard st b Hl Hu) as (<- & ? & ?). by apply IH.
Qed.
Definition sha256_spec (m : bytes) : bytes := Standard.hash m.
Lemma spec_blocks m : sha256_spec m = state_bytes (fold_left compress (as_chunks 64 (pad m)).1 initial_state).
Proof.
  unfold sha256_spec, Standard.hash, state_bytes. rewrite <- initial_standard, blocks_standard; [done..|]. repeat (constructor; [split; lia|]). constructor.
Qed.

(** The hasher has absorbed [m]: whole blocks are compressed, the rest is at
    the front of the buffer, and the bit count is that of [m]. *)
Definition absorbed (s : Sha256) (m : bytes) : Prop :=
  ∃ bs r, m = concat bs ++ r ∧ whole 64 bs ∧ (length r < 64)%nat ∧
    state s = fold_left compress bs initial_state ∧
    buffered s = length r ∧ take (length r) (buffer s) = r ∧
    length (buffer s) = 64%nat ∧ bits s = (8 * zlen m) mod 2 ^ 64.

Lemma absorbed_new : absorbed new [].
Proof. exists [], []. split_and!; try done; [constructor|cbn; lia]. Qed.

Lemma bits_update (m l : bytes) :
  wrapping_add64 ((8 * zlen m) mod 2 ^ 64) (wrapping_mul64 (wrap 64 (zlen l)) 8) =
  (8 * zlen (m ++ l)) mod 2 ^ 64.
Proof.
  unfold wrapping_add64, wrapping_mul64, wrap. rewrite zlen_app.
  rewrite Z.mul_mod_idemp_l, <- Z.add_mod by lia. f_equal. lia.
Qed.

Lemma copy_at_0_buffer rest buf :
  (length rest ≤ length buf)%nat →
  take (length rest) (copy_at 0 rest buf) = rest ∧ length (copy_at 0 rest buf) = length buf.
Proof.
  intros. split; [|by apply length_copy_at].
  pose proof (copy_at_read_same 0 rest buf) as He. rewrite drop_0 in He. auto.
Qed.

Lemma update_blocks_absorbed bs st buf nbits l m :
  whole 64 bs → st = fold_left compress bs initial_state → length buf = 64%nat →
  m = concat bs ++ l → nbits = (8 * zlen m) mod 2 ^ 64 →
  absorbed (update_blocks st buf nbits l) m.
Proof.
  intros Hbs -> Hbuf -> ->. unfold update_blocks.
  destruct (as_chunks_split 64 l) as (bs2 & r & -> & Hl & Hw & Hr); [lia|].
  exists (bs ++ bs2), r. rewrite fold_left_app.
  destruct (copy_at_0_buffer r buf) as [??]; [lia|].
  split_and!; cbn; try done.
  - by rewrite concat_app, <- app_assoc, <- Hl.
  - by apply Forall_app.
  - by etransitivity.
Qed.

Lemma copy_at_prefix (r l buf : bytes) :
  (length r + length l ≤ length buf)%nat → take (length r) buf = r →
  take (length r + length l) (copy_at (length r) l buf) = r ++ l.
Proof.
  intros. unfold copy_at. rewrite app_assoc.
  rewrite take_app_length' by (rewrite length_app, length_take; lia). congruence.
Qed.

Lemma absorbed_update s m l : absorbed s m → absorbed (update s l) (m ++ l).
Proof.
  intros (bs & r & Hm & Hbs & Hr & Hst & Hn & Hbuf & Hlen & Hbits).
  unfold update. rewrite Hbits, bits_update, Hn.
  destruct (Nat.ltb_spec 0 (length r)) as [Hpos|Hzero].
  2:{ destruct r; cbn in *; [|lia]. rewrite app_nil_r in Hm.
      eapply update_blocks_absorbed; eauto. by rewrite Hm. }
  set (t := Nat.min (64 - length r) (length l)).
  assert (Ht : length (take t l) = t) by (rewrite length_take; lia).
  assert (Hc : take (length r + t) (copy_at (length r) (take t l) (buffer s)) = r ++ take t l).
  { rewrite <- Ht at 1. apply copy_at_prefix; [lia|done]. }
  assert (Hcl : length (copy_at (length r) (take t l) (buffer s)) = 64%nat)
    by (rewrite length_copy_at; lia).
  destruct (Nat.ltb_spec (length r + t) 64) as [Hshort|Hfull].
  - assert (Hall : take t l = l) by (apply take_ge; lia).
    exists bs, (r ++ l). rewrite Hall in *. rewrite length_app.
    split_and!; cbn; try done; try lia; [by rewrite Hm, <- app_assoc|].
    rewrite <- Hc. f_equal. lia.
  - assert (H64 : (length r + t = 64)%nat) by lia.
    rewrite H64, take_ge in Hc by lia. rewrite Hc.
    apply (update_blocks_absorbed (bs ++ [r ++ take t l])).
    + apply Forall_app. split; [done|]. constructor; [|constructor]. rewrite length_app. lia.
    + by rewrite fold_left_app, Hst.
    + rewrite length_app. lia.
    + rewrite Hm, concat_app. cbn. rewrite app_nil_r, <- !app_assoc. by rewrite take_drop.
    + done.
Qed.

Lemma absorbed_updates s m ls : absorbed s m → absorbed (fold_left update ls s) (m ++ concat ls).
Proof.
  revert s m. induction ls as [|l ls IH]; intros s m Hs; cbn; [by rewrite app_nil_r|].
  rewrite app_assoc. by apply IH, absorbed_update.
Qed.

Lemma zeros_count `{Host} m bs r :
  m = concat bs ++ r → whole 64 bs →
  ((56 - (Z.of_nat (length r) + 1)) mod 2 ^ usize_bits) mod 64 = (55 - zlen m) mod 64.
Proof.
  intros -> Hbs. rewrite Z.mod_mod_divide.
  2:{ destruct usize_bits_cases as [-> | ->]; [by exists (2 ^ 26)|by exists (2 ^ 58)]. }
  rewrite zlen_app. unfold zlen at 1. rewrite (whole_concat_length 64) by done.
  rewrite Nat2Z.inj_mul. change (Z.of_nat 64) with 64. unfold zlen.
  rewrite <- (Z.mod_add (55 - _) (Z.of_nat (length bs))) by lia. f_equal. lia.
Qed.

Lemma tail_shape z x b :
  (z < 64)%nat → length b = 8%nat →
  take (1 + z + 8) (copy_at (1 + z) b (copy_at 0 [x] (replicate 72 0))) =
  x :: replicate z 0 ++ b.
Proof.
  intros Hz Hb. change (copy_at 0 [x] (replicate 72 0)) with (x :: replicate 71 0).
  unfold copy_at. cbn [take Nat.add]. rewrite take_replicate, Nat.min_l by lia.
  cbn [app take]. f_equal. rewrite app_assoc.
  apply take_app_length'. rewrite length_app, length_replicate. lia.
Qed.

Lemma be_bytes_wrap x : be_bytes 8 (x mod 2 ^ 64) = be_bytes 8 x.
Proof.
  unfold be_bytes. f_equal.
  rewrite <- (le_bytes_val (le_bytes 8 x)) by apply le_bytes_byte_list.
  by rewrite length_le_bytes, le_val_bytes.
Qed.

Lemma finish_tail_pad `{Host} s m : absorbed s m → m ++ finish_tail s = pad m.
Proof.
  intros (bs & r & Hm & Hbs & Hr & _ & Hn & _ & _ & Hbits).
  unfold pad, finish_tail. f_equal. rewrite Hn, Hbits, (zeros_count m bs r) by done.
  rewrite be_bytes_wrap. apply tail_shape; [|apply length_be_bytes].
  pose proof (Z.mod_pos_bound (55 - zlen m) 64). lia.
Qed.

(** The padded message is whole blocks: the fold of [Standard.hash] drops nothing. *)
Lemma pad_blocks m : (length (pad m) mod 64 = 0)%nat.
Proof.
  unfold pad. rewrite length_app. cbn [length].
  rewrite length_app, length_replicate, length_be_bytes.
  apply Nat2Z.inj. rewrite Nat2Z.inj_mod. change (Z.of_nat 64) with 64.
  replace (Z.of_nat _) with (zlen m + 9 + (55 - zlen m) mod 64).
  2:{ pose proof (Z.mod_pos_bound (55 - zlen m) 64). unfold zlen in *. lia. }
  rewrite Z.add_mod_idemp_r by lia. by replace (zlen m + 9 + _) with 64 by lia.
Qed.

Lemma absorbed_finish `{Host} s m : absorbed s m → finish s = sha256_spec m.
Proof.
  intros Hs. rewrite spec_blocks. unfold finish. rewrite <- (finish_tail_pad s m Hs).
  apply absorbed_update with (l := finish_tail s) in Hs
    as (bs & r & Hm & Hbs & Hr & Hst & _).
  rewrite Hm in *. rewrite Hst. rewrite as_chunks_concat by done. done.
Qed.

(** C39. The running hasher computes SHA-256 of the concatenation of the pieces
    it was fed, whatever the pieces are: an image hashed as it arrives has the
    digest of the whole image, and the digest is that of FIPS 180-4 as [Standard]
    states it: the constants derived from roots of primes, the schedule, the 64
    steps, the padding. *)
Theorem sha256_streaming `{Host} (pieces : list bytes) :
  finish (fold_left update pieces new) = sha256_spec (concat pieces) ∧
  finish (fold_left update pieces new) = sha256 (concat pieces).
Proof.
  assert (He : finish (fold_left update pieces new) = sha256_spec (concat pieces))
    by (apply absorbed_finish, (absorbed_updates new []), absorbed_new).
  split; [done|]. rewrite He. symmetry.
  apply absorbed_finish, (absorbed_update new []), absorbed_new.
Qed.

(** * Digests as text *)
Lemma fold_round_length st bs :
  length st = 8%nat → length (fold_left compress bs st) = 8%nat.
Proof.
  revert st. induction bs as [|b bs IH]; intros st Hst; [done|]. cbn. apply IH.
  do 8 (destruct st as [|? st]; [done|]). destruct st; [|done].
  unfold compress. by destruct (fold_left _ _ _) as [[[[[[[? ?] ?] ?] ?] ?] ?] ?].
Qed.

Lemma state_bytes_spec st : byte_list (state_bytes st) ∧ length (state_bytes st) = (4 * length st)%nat.
Proof.
  unfold state_bytes. induction st as [|w st [IHb IHl]]; [by split; [constructor|]|].
  rewrite fmap_cons. cbn [concat length].
  rewrite byte_list_app, length_app, length_be_bytes, IHl. split; [|lia].
  split; [apply be_bytes_byte_list|done].
Qed.

(** Every digest is 32 bytes. *)
Lemma sha256_digest `{Host} l : byte_list (sha256 l) ∧ length (sha256 l) = 32%nat.
Proof.
  replace (sha256 l) with (sha256_spec l).
  2:{ symmetry. apply absorbed_finish, (absorbed_update new []), absorbed_new. }
  rewrite spec_blocks. destruct (state_bytes_spec (fold_left compress (as_chunks 64 (pad l)).1 initial_state)).
  rewrite fold_round_length in * by done. done.
Qed.

Lemma nibbles b : is_u8 b →
  ∃ hi lo, from_digit (Z.shiftr b 4) = Some hi ∧ from_digit (Z.land b 15) = Some lo ∧
    to_digit hi = Some (b / 16) ∧ to_digit lo = Some (b mod 16) ∧
    wrap 8 (Z.lor (Z.shiftl (b / 16) 4) (b mod 16)) = b.
Proof.
  intros Hb. unfold fits in Hb.
  assert (Hall : forallb (λ n : nat, let b := Z.of_nat n in
    match from_digit (Z.shiftr b 4), from_digit (Z.land b 15) with
    | Some hi, Some lo =>
        bool_decide (to_digit hi = Some (b / 16) ∧ to_digit lo = Some (b mod 16) ∧
          wrap 8 (Z.lor (Z.shiftl (b / 16) 4) (b mod 16)) = b)
    | _, _ => false
    end) (seq 0 256) = true) by (vm_compute; reflexivity).
  rewrite forallb_forall in Hall. specialize (Hall (Z.to_nat b)).
  cbv zeta in Hall. rewrite Z2Nat.id in Hall by lia.
  repeat case_match; try (discriminate Hall; apply in_seq; lia).
  all: specialize (Hall ltac:(apply in_seq; lia)); try discriminate.
  apply bool_decide_eq_true in Hall as (? & ? & ?). eauto 10.
Qed.

Lemma hex_total d : byte_list d →
  ∃ t, hex d = Some t ∧ length t = (2 * length d)%nat ∧
    from_hex_pairs (as_chunks 2 t).1 = Some d.
Proof.
  induction 1 as [|b d Hb _ (t & Ht & Hlen & Hback)]; [by exists []|].
  destruct (nibbles b Hb) as (hi & lo & Hhi & Hlo & Hdh & Hdl & Hw).
  exists (hi :: lo :: t). cbn [hex]. rewrite Hhi, Hlo, Ht. split_and!; [done|cbn; lia|].
  destruct (as_chunks_split 2 t) as (bs & r & He & Hc & Hbs & Hr); [lia|].
  rewrite He in Hback. rewrite Hc.
  change (hi :: lo :: concat bs ++ r) with (concat ([hi; lo] :: bs) ++ r).
  rewrite (as_chunks_concat 2 ([hi; lo] :: bs) r) by (done || by constructor).
  cbn. rewrite Hdh, Hdl. cbn. cbn in Hback. by rewrite Hback, Hw.
Qed.

(** A digest printed by [hex] is 64 characters and parses back to itself
    with [from_hex]; printing never hits the [expect] on a nibble. *)
Theorem hex_roundtrip d :
  byte_list d → length d = 32%nat →
  ∃ t, hex d = Some t ∧ length t = 64%nat ∧ from_hex t = Some d.
Proof.
  intros Hd Hl. destruct (hex_total d Hd) as (t & Ht & Hlen & Hback).
  exists t. assert (length t = 64%nat) by lia. split_and!; try done.
  unfold from_hex. by replace (length t) with 64%nat.
Qed.

Lemma hex_roundtrip_witness :
  ∃ t, hex (replicate 32 171) = Some t ∧ length t = 64%nat ∧ from_hex t = Some (replicate 32 171).
Proof.
  apply hex_roundtrip; [|done].
  apply Forall_replicate. split; lia.
Defined.

(** [from_hex] also reads uppercase digits, although its comment speaks of a
    lowercase digest: two texts name the same digest. *)
Example from_hex_uppercase : from_hex (replicate 64 65) = Some (replicate 32 170).
Proof. reflexivity. Qed.
