(* ===== verification/Chunk.v ===== *)
(** Content-addressed chunks.

    Models [crates/linux-compat/src/chunk.rs]: the immutable layout of a
    chunked file ([ChunkedFile::new], [chunk_at]) and the store of verified
    chunks ([ChunkStore::insert], [get], [contains], [first_missing], [bytes],
    [read_range]). The loop of [read_range] runs on fuel, one step per chunk;
    running out of fuel is a [Panic], which [read_range_total] excludes. *)

From S2P Require Import Prelude BTree Digest.

Definition DEFAULT_CHUNK_SIZE : Z := 64 * 1024.

(** [[u8; 32]] *)
Abbreviation Hash := (list Z).

Record ChunkedFile := {
  cf_size : Z;
  chunk_size : Z;
  cf_chunks : list Hash
}.

#[global] Instance chunked_file_eq_dec : EqDecision ChunkedFile.
Proof. solve_decision. Defined.

Inductive LayoutError :=
| ZeroLengthLayout
| BadChunkSize
| WrongHashCount (size chunk_size expected got : Z).

Module Layout.
(** [ChunkedFile::new] *)
Definition new (sz csz : Z) (hs : list Hash) : res LayoutError ChunkedFile :=
  if sz =? 0 then
    if bool_decide (hs = []) && negb (csz =? 0) && is_multiple_of csz 4096
    then Ok {| cf_size := sz; chunk_size := csz; cf_chunks := hs |}
    else Err ZeroLengthLayout
  else if (csz =? 0) || negb (is_multiple_of csz 4096) then Err BadChunkSize
  else
    let expected := div_ceil sz csz in
    if negb (expected =? zlen hs) then Err (WrongHashCount sz csz expected (zlen hs))
    else Ok {| cf_size := sz; chunk_size := csz; cf_chunks := hs |}.
End Layout.

(** [chunk_at]: the index, hash and byte range of the chunk at [offset]. *)
Definition chunk_at `{Host} (f : ChunkedFile) (offset : Z)
    : res Empty_set (option (Z * Hash * (Z * Z))) :=
  if cf_size f <=? offset then Ok None
  else if chunk_size f =? 0 then Panic
  else
    let index := as_usize (offset / chunk_size f) in
    let! start := mul64 index (chunk_size f) in
    let! limit := add64 start (chunk_size f) in
    let stop := Z.min limit (cf_size f) in
    let! h := expect (getz (cf_chunks f) index) in
    Ok (Some (index, h, (start, stop))).

Inductive ReadRange :=
| Ready (v : vec)
| Missing (h : Hash)
| Invalid (index got expected : Z).

(** * The store *)
Record ChunkStore := { resident_chunks : btree Hash vec }.
Definition store_default : ChunkStore := {| resident_chunks := [] |}.

Inductive InsertError := DigestMismatch.

Module Store.
Definition get (s : ChunkStore) (h : Hash) : option vec := bt_get (resident_chunks s) h.
Definition contains (s : ChunkStore) (h : Hash) : bool := bt_mem (resident_chunks s) h.

Definition insert `{Host} (s : ChunkStore) (expected : Hash) (b : vec)
    : res InsertError ChunkStore :=
  if bool_decide (sha256 (vdata b) = expected) then
    match bt_get (resident_chunks s) expected with
    | Some _ => Ok s
    | None => Ok {| resident_chunks := bt_insert (resident_chunks s) expected b |}
    end
  else Err DigestMismatch.

Definition first_missing (s : ChunkStore) (f : ChunkedFile) : option Hash :=
  List.find (λ h, negb (bt_mem (resident_chunks s) h)) (cf_chunks f).

Definition sum_caps (l : btree Hash vec) : Z := foldr (λ e acc, vcap e.2 + acc) 0 l.
(** [ChunkStore::bytes] *)
Definition store_bytes (s : ChunkStore) : Z := sum_caps (resident_chunks s).


Fixpoint read_loop `{Host} (fuel : nat) (s : ChunkStore) (f : ChunkedFile) (end_ cap cursor : Z)
    (out : bytes) : res Empty_set ReadRange :=
  match fuel with
  | O => Panic
  | S fuel =>
      if cursor <? end_ then
        let! at_ := chunk_at f cursor in
        let! '(index, h, (start, stop)) := expect at_ in
        match get s h with
        | None => Ok (Missing h)
        | Some chunk =>
            let expected_len := as_usize (stop - start) in
            if negb (vlen chunk =? expected_len)
            then Ok (Invalid index (vlen chunk) expected_len)
            else
              let in_chunk := as_usize (cursor - start) in
              let take_ := Z.min (as_usize (end_ - cursor)) (vlen chunk - in_chunk) in
              let cursor' := cursor + take_ in
              if index =? as_usize (saturating_sub cursor' 1 / chunk_size f)
              then read_loop fuel s f end_ cap cursor'
                     (out ++ slicez (vdata chunk) in_chunk (in_chunk + take_))
              else Panic
        end
      else Ok (Ready (Vec out cap))
  end.

Definition read_range `{Host} (s : ChunkStore) (f : ChunkedFile) (offset len : Z)
    : res Empty_set ReadRange :=
  let end_ := Z.min (saturating_add64 offset len) (cf_size f) in
  if end_ <=? offset then Ok (Ready vec_new)
  else read_loop (S (length (cf_chunks f))) s f end_
         (alloc_exact (as_usize (end_ - offset))) offset [].
End Store.

(** * Well-formed layouts *)

(** What [ChunkedFile::new] establishes, with the bounds that make its
    arithmetic exact: the hash table is a [Vec], and the last chunk's nominal
    end is still a [u64]. *)
Definition file_wf `{Host} (f : ChunkedFile) : Prop :=
  0 ≤ cf_size f ∧ 0 < chunk_size f ≤ U32_MAX ∧ chunk_size f mod 4096 = 0 ∧
  zlen (cf_chunks f) = div_ceil (cf_size f) (chunk_size f) ∧
  zlen (cf_chunks f) ≤ usize_max ∧ cf_size f + chunk_size f ≤ U64_MAX.

Lemma div_ceil_spec a b : 0 ≤ a → 0 < b → (div_ceil a b - 1) * b < a ≤ div_ceil a b * b ∨ a = 0 ∧ div_ceil a b = 0.
Proof.
  intros. unfold div_ceil. pose proof (Z.div_mod (a + b - 1) b).
  pose proof (Z.mod_pos_bound (a + b - 1) b). nia.
Qed.

(** The byte extent of chunk [i]. *)
Definition chunk_start (f : ChunkedFile) (i : Z) : Z := i * chunk_size f.
Definition chunk_stop (f : ChunkedFile) (i : Z) : Z :=
  Z.min (chunk_start f i + chunk_size f) (cf_size f).

(** [ChunkedFile::new] accepts exactly the layouts that describe [size]
    bytes: a nonzero page-multiple chunk size and one hash per chunk, with no
    hash for the empty file. *)
Theorem layout_new_spec sz csz hs f :
  0 ≤ sz → 0 ≤ csz →
  Layout.new sz csz hs = Ok f ↔
  f = {| cf_size := sz; chunk_size := csz; cf_chunks := hs |} ∧
  csz ≠ 0 ∧ csz mod 4096 = 0 ∧ zlen hs = div_ceil sz csz.
Proof.
  intros Hsz Hcsz. unfold Layout.new, is_multiple_of.
  destruct (Z.eqb_spec sz 0) as [->|Hne].
  - assert (Hz : csz ≠ 0 → div_ceil 0 csz = 0) by (intros; apply Z.div_small; lia).
    case_bool_decide as He; subst; cbn.
    + destruct (Z.eqb_spec csz 0); [naive_solver|]. cbn.
      destruct (Z.eqb_spec (csz mod 4096) 0); [|naive_solver].
      rewrite Hz by done. naive_solver.
    + split; [done|]. intros (_ & ? & _ & Hl). rewrite Hz in Hl by done.
      destruct hs; [done|]. unfold zlen in Hl. cbn in Hl. lia.
  - destruct (Z.eqb_spec csz 0); [naive_solver|]. cbn.
    destruct (Z.eqb_spec (csz mod 4096) 0); cbn; [|naive_solver].
    destruct (Z.eqb_spec (div_ceil sz csz) (zlen hs)); naive_solver.
Qed.

Lemma layout_new_spec_witness :
  Layout.new 4113 4096 [[1]; [2]] = Ok {| cf_size := 4113; chunk_size := 4096; cf_chunks := [[1]; [2]] |}.
Proof. apply layout_new_spec; vm_compute; [congruence..|]. repeat split; congruence. Defined.

Section layout.
Context `{Host} (f : ChunkedFile) (Hf : file_wf f).

Lemma chunk_index_bounds off :
  0 ≤ off < cf_size f → 0 ≤ off / chunk_size f < zlen (cf_chunks f) ∧
  0 ≤ chunk_start f (off / chunk_size f) ≤ off ∧
  off < chunk_stop f (off / chunk_size f) ≤ cf_size f.
Proof.
  intros Hoff. destruct Hf as (? & ? & ? & Hc & ?). rewrite Hc.
  unfold chunk_stop, chunk_start.
  pose proof (Z.div_mod off (chunk_size f)). pose proof (Z.mod_pos_bound off (chunk_size f)).
  pose proof (Z.div_pos off (chunk_size f)).
  destruct (div_ceil_spec (cf_size f) (chunk_size f)); [lia..| |lia]. nia.
Qed.

Lemma chunk_at_spec off :
  0 ≤ off < cf_size f →
  ∃ h, getz (cf_chunks f) (off / chunk_size f) = Some h ∧
    chunk_at f off = Ok (Some (off / chunk_size f, h,
      (chunk_start f (off / chunk_size f), chunk_stop f (off / chunk_size f)))).
Proof.
  intros Hoff. destruct (chunk_index_bounds off Hoff) as [Hi Hr].
  destruct Hf as (? & ? & ? & Hc & Hu & Hm).
  destruct (proj2 (getz_is_Some (cf_chunks f) (off / chunk_size f)) Hi) as [h Hh].
  exists h. split; [done|]. unfold chunk_at, mul64, add64.
  rewrite (proj2 (Z.leb_gt _ _)), (proj2 (Z.eqb_neq _ _)) by lia.
  assert (as_usize (off / chunk_size f) = off / chunk_size f) as ->
    by (apply Z.mod_small; unfold usize_max in Hu; lia).
  unfold chunk_start, chunk_stop in *.
  rewrite (proj2 (Z.leb_le _ _)) by (unfold chunk_start in *; lia). cbn.
  rewrite (proj2 (Z.leb_le _ _)) by (unfold chunk_start in *; lia). cbn.
  rewrite Hh. done.
Qed.
End layout.

(** Chunk [i] is resident with the length its layout requires. *)
Definition chunk_ok (s : ChunkStore) (f : ChunkedFile) (i : Z) : Prop :=
  ∃ h v, getz (cf_chunks f) i = Some h ∧ Store.get s h = Some v ∧
    vlen v = chunk_stop f i - chunk_start f i.
Definition overlaps (f : ChunkedFile) (lo hi i : Z) : Prop :=
  0 ≤ i ∧ Z.max lo (chunk_start f i) < Z.min hi (chunk_stop f i).

(** The resident chunks agree with the file contents [content]. *)
Definition backs (s : ChunkStore) (f : ChunkedFile) (content : bytes) : Prop :=
  zlen content = cf_size f ∧
  ∀ i h v, getz (cf_chunks f) i = Some h → Store.get s h = Some v →
    vlen v = chunk_stop f i - chunk_start f i →
    vdata v = slicez content (chunk_start f i) (chunk_stop f i).

(** What reading [[lo, hi)] of a file yields. *)
Inductive read_result (s : ChunkStore) (f : ChunkedFile) (lo hi : Z)
    (mk : bytes → vec) : ReadRange → Prop :=
| RR_ready data :
    (∀ i, overlaps f lo hi i → chunk_ok s f i) → zlen data = hi - lo →
    (∀ content, backs s f content → data = slicez content lo hi) →
    read_result s f lo hi mk (Ready (mk data))
| RR_missing i h :
    overlaps f lo hi i → getz (cf_chunks f) i = Some h → Store.get s h = None →
    (∀ j, overlaps f lo hi j → j < i → chunk_ok s f j) →
    read_result s f lo hi mk (Missing h)
| RR_invalid i h v :
    overlaps f lo hi i → getz (cf_chunks f) i = Some h → Store.get s h = Some v →
    vlen v ≠ chunk_stop f i - chunk_start f i →
    (∀ j, overlaps f lo hi j → j < i → chunk_ok s f j) →
    read_result s f lo hi mk (Invalid i (vlen v) (chunk_stop f i - chunk_start f i)).

Lemma read_result_ext s f lo hi mk mk' r :
  (∀ d, mk d = mk' d) → read_result s f lo hi mk r → read_result s f lo hi mk' r.
Proof. intros He []; [rewrite He|..]; econstructor; eauto. Qed.

Section reading.
Context `{Host} (s : ChunkStore) (f : ChunkedFile) (Hf : file_wf f).

(** The chunk under the cursor, and where the loop goes next. *)
Lemma overlaps_split lo hi j :
  0 ≤ lo < hi → hi ≤ cf_size f → overlaps f lo hi j →
  let i := lo / chunk_size f in
  j = i ∨ i < j ∧ overlaps f (Z.min hi (chunk_stop f i)) hi j.
Proof.
  intros Hlo Hhi [Hj Ho] i. destruct (chunk_index_bounds f Hf lo) as [Hi Hr]; [lia|].
  fold i in Hi, Hr. destruct Hf as (? & ? & _).
  unfold overlaps, chunk_stop, chunk_start in *.
  destruct (Z.lt_total j i) as [Hlt|[Heq|Hgt]]; [nia|by left|right].
  split; [lia|]. split; [lia|]. nia.
Qed.

Lemma overlaps_ge lo hi j :
  0 ≤ lo < hi → hi ≤ cf_size f → overlaps f lo hi j → lo / chunk_size f ≤ j.
Proof. intros ? ? Hj. destruct (overlaps_split lo hi j) as [->|[? _]]; auto; lia. Qed.

Lemma overlaps_here lo hi :
  0 ≤ lo < hi → hi ≤ cf_size f → overlaps f lo hi (lo / chunk_size f).
Proof.
  intros. destruct (chunk_index_bounds f Hf lo); [lia|]. unfold overlaps. lia.
Qed.

Lemma overlaps_next lo hi j :
  0 ≤ lo < hi → hi ≤ cf_size f →
  overlaps f (Z.min hi (chunk_stop f (lo / chunk_size f))) hi j →
  overlaps f lo hi j ∧ lo / chunk_size f < j.
Proof.
  intros ? ? [Hj Ho]. destruct (chunk_index_bounds f Hf lo); [lia|].
  destruct Hf as (? & ? & _). unfold overlaps, chunk_stop, chunk_start in *.
  split; [lia|]. nia.
Qed.

Lemma read_result_step lo hi mk h v r :
  0 ≤ lo < hi → hi ≤ cf_size f →
  let i := lo / chunk_size f in
  let next := Z.min hi (chunk_stop f i) in
  getz (cf_chunks f) i = Some h → Store.get s h = Some v →
  vlen v = chunk_stop f i - chunk_start f i →
  read_result s f next hi
    (λ d, mk (slicez (vdata v) (lo - chunk_start f i) (next - chunk_start f i) ++ d)) r →
  read_result s f lo hi mk r.
Proof.
  intros Hlo Hhi i next Hh Hv Hlen.
  destruct (chunk_index_bounds f Hf lo) as [Hi Hr]; [lia|]. fold i in Hi, Hr.
  assert (Hok : chunk_ok s f i) by (exists h, v; auto).
  assert (Hnext : lo < next ≤ hi ∧ next ≤ chunk_stop f i) by (unfold next; lia).
  destruct 1 as [data Hall Hd Hc|j hj Hoj Hgj Hnj Hbefore|j hj vj Hoj Hgj Hvj Hne Hbefore].
  - apply RR_ready.
    + intros j Hj. destruct (overlaps_split lo hi j Hlo Hhi Hj) as [->|[_ Hj']]; auto.
    + rewrite zlen_app, Hd, slicez_length; [lia|lia|]. unfold vlen in Hlen.
      unfold zlen. lia.
    + intros content Hb. destruct (Hb) as [Hsz Hcont].
      rewrite (Hc content Hb), (Hcont i h v) by done.
      rewrite <- (slicez_app content lo next hi) by lia. f_equal.
      apply list_eq. intros k. unfold slicez at 1.
      destruct (decide (Z.of_nat k < next - lo)).
      * rewrite lookup_take_lt, lookup_drop, !slicez_lookup by lia. f_equal. lia.
      * rewrite lookup_take_ge by lia. symmetry. apply lookup_ge_None.
        unfold slicez. rewrite length_take. lia.
  - destruct (overlaps_next lo hi j) as [? ?]; [done..|].
    apply (RR_missing _ _ _ _ _ j); [done..|]. intros k Hk Hkj.
    destruct (overlaps_split lo hi k Hlo Hhi Hk) as [->|[_ ?]]; auto.
  - destruct (overlaps_next lo hi j) as [? ?]; [done..|].
    apply (RR_invalid _ _ _ _ _ j hj); [done..|]. intros k Hk Hkj.
    destruct (overlaps_split lo hi k Hlo Hhi Hk) as [->|[_ ?]]; auto.
Qed.

(** Chunks the loop still has to visit. *)
Definition visits (lo hi : Z) : Z :=
  if lo <? hi then (hi - 1) / chunk_size f - lo / chunk_size f + 1 else 0.

Lemma visits_nonneg lo hi : 0 ≤ visits lo hi.
Proof.
  unfold visits. case_if; [|lia]. bool_to_prop.
  assert (lo / chunk_size f ≤ (hi - 1) / chunk_size f); [|lia].
  destruct Hf as (? & ? & _). apply Z.div_le_mono; lia.
Qed.

Lemma visits_next lo hi :
  0 ≤ lo < hi → hi ≤ cf_size f →
  visits (Z.min hi (chunk_stop f (lo / chunk_size f))) hi = visits lo hi - 1 ∨
  visits (Z.min hi (chunk_stop f (lo / chunk_size f))) hi = 0 ∧ 1 ≤ visits lo hi.
Proof.
  intros Hlo Hhi. destruct (chunk_index_bounds f Hf lo) as [Hi Hr]; [lia|].
  destruct Hf as (? & ? & _). unfold visits at 2 4.
  rewrite (proj2 (Z.ltb_lt lo hi)) by lia.
  assert (lo / chunk_size f ≤ (hi - 1) / chunk_size f) by (apply Z.div_le_mono; lia).
  destruct (Z.ltb_spec (chunk_stop f (lo / chunk_size f)) hi) as [Hs|Hs].
  - left. rewrite Z.min_r by lia. unfold visits. rewrite (proj2 (Z.ltb_lt _ _)) by lia.
    assert (chunk_stop f (lo / chunk_size f) = (lo / chunk_size f + 1) * chunk_size f) as ->
      by (unfold chunk_stop, chunk_start in *; lia).
    rewrite Z.div_mul by lia. lia.
  - right. rewrite Z.min_l by lia. unfold visits. rewrite Z.ltb_irrefl. lia.
Qed.

(** The [debug_assert] of the loop: the bytes taken all come from chunk [i]. *)
Lemma last_index lo hi :
  0 ≤ lo < hi → hi ≤ cf_size f →
  let i := lo / chunk_size f in
  as_usize (saturating_sub (Z.min hi (chunk_stop f i)) 1 / chunk_size f) = i.
Proof.
  intros Hlo Hhi i. destruct (chunk_index_bounds f Hf lo) as [Hi Hr]; [lia|]. fold i in Hi, Hr.
  destruct Hf as (? & ? & _ & _ & ? & _). unfold saturating_sub.
  rewrite Z.max_r by lia.
  replace ((Z.min hi (chunk_stop f i) - 1) / chunk_size f) with i; [apply as_usize_id; lia|].
  unfold chunk_stop, chunk_start in *.
  apply Z.div_unique with
    (r := Z.min hi (Z.min (i * chunk_size f + chunk_size f) (cf_size f)) - 1 - i * chunk_size f); lia.
Qed.

Lemma read_loop_done hi cap out :
  read_result s f hi hi (λ d, Vec (out ++ d) cap) (Ready (Vec out cap)).
Proof.
  replace (Vec out cap) with ((λ d, Vec (out ++ d) cap) []) by (cbn; by rewrite app_nil_r).
  apply (RR_ready _ _ _ _ (λ d, Vec (out ++ d) cap) []).
  - intros i [? ?]. lia.
  - rewrite zlen_nil. lia.
  - intros. unfold slicez. by rewrite Z.sub_diag.
Qed.

Lemma read_loop_spec fuel hi cap lo out :
  0 ≤ lo ≤ hi → hi ≤ cf_size f → hi - lo ≤ usize_max → visits lo hi < Z.of_nat fuel →
  ∃ r, Store.read_loop fuel s f hi cap lo out = Ok r ∧
    read_result s f lo hi (λ d, Vec (out ++ d) cap) r.
Proof.
  revert lo out. induction fuel as [|fuel IH]; intros lo out Hlo Hhi Hus Hfuel.
  { pose proof (visits_nonneg lo hi). lia. }
  cbn [Store.read_loop]. destruct (Z.ltb_spec lo hi) as [Hlt|Hge].
  2:{ replace hi with lo by lia. eauto using read_loop_done. }
  destruct (chunk_at_spec f Hf lo) as (h & Hh & ->); [lia|].
  destruct (chunk_index_bounds f Hf lo) as [Hi Hr]; [lia|].
  pose proof (last_index lo hi ltac:(lia) Hhi) as Hlast.
  pose proof (visits_next lo hi ltac:(lia) Hhi) as Hvisits.
  pose proof (overlaps_here lo hi ltac:(lia) Hhi) as Hhere.
  pose proof (λ j, overlaps_ge lo hi j ltac:(lia) Hhi) as Hfirst.
  pose proof (read_result_step lo hi (λ d, Vec (out ++ d) cap) h) as Hstep.
  cbv zeta in Hlast, Hstep. set (i := lo / chunk_size f) in *. cbn -[as_usize].
  assert (Hcs : chunk_stop f i - chunk_start f i ≤ U32_MAX)
    by (destruct Hf as (? & ? & _); unfold chunk_stop; lia).
  pose proof usize_max_bounds. rewrite !as_usize_id by lia.
  destruct (Store.get s h) as [v|] eqn:Hv.
  2:{ eexists. split; [done|]. apply (RR_missing _ _ _ _ _ i); [done..|].
      intros j Hj Hji. specialize (Hfirst j Hj). lia. }
  destruct (Z.eqb_spec (vlen v) (chunk_stop f i - chunk_start f i)) as [Hlen|Hne]; cbn -[as_usize].
  2:{ eexists. split; [done|]. apply (RR_invalid _ _ _ _ _ i h v); [done..|].
      intros j Hj Hji. specialize (Hfirst j Hj). lia. }
  replace (lo + _) with (Z.min hi (chunk_stop f i)) by lia.
  replace (lo - chunk_start f i + _) with (Z.min hi (chunk_stop f i) - chunk_start f i) by lia.
  rewrite Hlast, Z.eqb_refl.
  edestruct (IH (Z.min hi (chunk_stop f i))) as (r & Hr1 & Hr2);
    [lia..|destruct Hvisits as [?|[? ?]]; lia|].
  exists r. split; [exact Hr1|]. apply (Hstep v); [lia|done..|].
  eapply read_result_ext; [|exact Hr2]. intros d. by rewrite app_assoc.
Qed.
End reading.

Lemma read_range_cases `{Host} s f offset len :
  file_wf f → is_u64 offset → 0 ≤ len ≤ usize_max →
  let hi := Z.min (saturating_add64 offset len) (cf_size f) in
  (hi ≤ offset ∧ Store.read_range s f offset len = Ok (Ready vec_new)) ∨
  (offset < hi ∧ ∃ r, Store.read_range s f offset len = Ok r ∧
     read_result s f offset hi (λ d, Vec d (alloc_exact (hi - offset))) r).
Proof.
  intros Hf Hoff Hlen hi. unfold Store.read_range. fold hi.
  destruct (Z.leb_spec hi offset) as [Hle|Hlt]; [by left|right]. split; [done|].
  pose proof usize_max_bounds. unfold_widths.
  assert (Hhi : hi ≤ cf_size f ∧ hi ≤ offset + len) by (unfold hi, saturating_add64; lia).
  rewrite as_usize_id by lia.
  apply (read_loop_spec s f Hf _ hi _ offset []); [lia..|].
  unfold visits. rewrite (proj2 (Z.ltb_lt _ _)) by lia.
  destruct (chunk_index_bounds f Hf (hi - 1)) as [? _]; [lia|].
  assert (0 ≤ offset / chunk_size f) by (destruct Hf as (? & ? & _); apply Z.div_pos; lia).
  unfold zlen in *. lia.
Qed.

(** Reading a well-formed chunked file always terminates without a panic.
    Past the end of the file (or for an empty request) it yields no bytes; and
    otherwise either every chunk the range overlaps is resident and the result
    has exactly the bytes of that range of any contents the resident chunks
    agree with, or it names the first chunk of the range that is absent or has
    the wrong length. *)
Theorem read_range_total `{Host} s f offset len :
  file_wf f → is_u64 offset → 0 ≤ len ≤ usize_max →
  let hi := Z.min (saturating_add64 offset len) (cf_size f) in
  (hi ≤ offset ∧ Store.read_range s f offset len = Ok (Ready vec_new)) ∨
  (offset < hi ∧ ∃ r, Store.read_range s f offset len = Ok r ∧
     read_result s f offset hi (λ d, Vec d (alloc_exact (hi - offset))) r).
Proof. apply read_range_cases. Qed.

Lemma read_range_total_witness :
  let f := {| cf_size := 5000; chunk_size := 4096; cf_chunks := [[1]; [2]] |} in
  let s := {| resident_chunks := [([1], Vec (replicate 4096 7) 4096)] |} in
  file_wf f ∧ Store.read_range s f 4090 20 = Ok (Missing [2]).
Proof.
  set (f := {| cf_size := 5000; chunk_size := 4096; cf_chunks := [[1]; [2]] |}).
  set (s := {| resident_chunks := [([1], Vec (replicate 4096 7) 4096)] |}).
  assert (Hf : file_wf f) by (vm_compute; repeat split; congruence). split; [done|].
  destruct (read_range_total s f 4090 20) as [[Hbad _]|(_ & r & Hr & _)];
    [done|vm_compute; repeat split; congruence..| |].
  - vm_compute in Hbad. congruence.
  - vm_compute in Hr |- *. done.
Defined.

(** * Integrity of the store *)
Definition store_wf `{Host} (s : ChunkStore) : Prop :=
  bt_sorted (resident_chunks s) ∧ ∀ h v, Store.get s h = Some v → sha256 (vdata v) = h.

Lemma sum_caps_insert l h b :
  bt_get l h = None → Store.sum_caps (bt_insert l h b) = Store.sum_caps l + vcap b.
Proof.
  induction l as [|[k w] l IH]; intros Hg; [cbn; lia|].
  cbn [bt_insert bt_get] in *. destruct (kcmp h k); [done|..]; cbn [Store.sum_caps foldr snd].
  - fold (Store.sum_caps l). lia.
  - fold (Store.sum_caps (bt_insert l h b)) (Store.sum_caps l). rewrite IH by done. lia.
Qed.

(** A chunk enters the store only under its own SHA-256 digest: a mismatch
    is refused, and a match adds exactly that binding (keeping the copy that is
    already there), so every resident chunk stays addressed by its content. *)
Theorem store_insert_spec `{Host} s expected b :
  store_wf s →
  (sha256 (vdata b) ≠ expected → Store.insert s expected b = Err DigestMismatch) ∧
  (sha256 (vdata b) = expected → ∃ s', Store.insert s expected b = Ok s' ∧ store_wf s' ∧
     Store.get s' expected = Some (default b (Store.get s expected)) ∧
     (∀ h, h ≠ expected → Store.get s' h = Store.get s h) ∧
     Store.store_bytes s' = Store.store_bytes s + (if Store.contains s expected then 0 else vcap b)).
Proof.
  intros [Hs Hd]. unfold Store.insert. split; intros He; [by rewrite bool_decide_eq_false_2|].
  rewrite bool_decide_eq_true_2 by done. unfold Store.contains, bt_mem, Store.get in *.
  destruct (bt_get (resident_chunks s) expected) as [v|] eqn:Hg.
  - exists s. repeat split; try done; cbn; rewrite ?Hg; cbn; try done; lia.
  - eexists. split_and!; [done|split; cbn; [by apply bt_insert_sorted|]|..]; cbn.
    + intros h v. rewrite bt_get_insert. case_decide; naive_solver.
    + apply bt_get_insert_eq.
    + intros. by apply bt_get_insert_ne.
    + by apply sum_caps_insert.
Qed.

Lemma store_insert_spec_witness :
  store_wf store_default ∧ Store.insert store_default [] (Vec [97] 1) = Err DigestMismatch.
Proof.
  assert (Hw : store_wf store_default) by (split; [done|cbn; done]).
  split; [done|]. apply (store_insert_spec store_default [] (Vec [97] 1) Hw).
  vm_compute. congruence.
Defined.

(** The image [content] is the one the hashes of [f] name. *)
Definition named_by `{Host} (f : ChunkedFile) (content : bytes) : Prop :=
  zlen content = cf_size f ∧
  ∀ i h, getz (cf_chunks f) i = Some h →
    sha256 (slicez content (chunk_start f i) (chunk_stop f i)) = h.
(** Two byte strings with one digest, and a store that holds, under a hash of [f],
    other bytes than the image has in that chunk. *)
Definition collides `{Host} (a b : bytes) : Prop := a ≠ b ∧ sha256 a = sha256 b.
Definition forged `{Host} (s : ChunkStore) (f : ChunkedFile) (content : bytes) : Prop :=
  ∃ i h v, getz (cf_chunks f) i = Some h ∧ Store.get s h = Some v ∧
    collides (vdata v) (slicez content (chunk_start f i) (chunk_stop f i)).

Lemma named_backs `{Host} s f content :
  store_wf s → named_by f content → backs s f content ∨ forged s f content.
Proof.
  intros [_ Hs] [Hsz Hn].
  assert (Hall : ∀ n, (∀ i h v, i < Z.of_nat n → getz (cf_chunks f) i = Some h → Store.get s h = Some v →
    vdata v = slicez content (chunk_start f i) (chunk_stop f i)) ∨ forged s f content).
  { induction n as [|n [IH|?]]; [left; intros i ? ? ? Hg; apply getz_Some in Hg; lia| |by right].
    destruct (getz (cf_chunks f) (Z.of_nat n)) as [h|] eqn:Hh.
    2:{ left. intros i h v ? Hg. destruct (decide (i = Z.of_nat n)); [congruence|].
        apply IH; [lia|done]. }
    destruct (Store.get s h) as [v|] eqn:Hv.
    2:{ left. intros i h' v ? Hg Hv'. destruct (decide (i = Z.of_nat n)); [congruence|].
        eapply IH; eauto; lia. }
    destruct (decide (vdata v = slicez content (chunk_start f (Z.of_nat n)) (chunk_stop f (Z.of_nat n)))).
    - left. intros i h' v' ? Hg Hv'. destruct (decide (i = Z.of_nat n)); [congruence|].
      eapply IH; eauto; lia.
    - right. exists (Z.of_nat n), h, v. do 2 (split; [done|]). split; [done|]. rewrite (Hs h v Hv). symmetry. by apply Hn. }
  destruct (Hall (length (cf_chunks f))) as [Hb|?]; [left|by right].
  split; [done|]. intros i h v Hg Hv _. apply (Hb i h v); [|done..].
  apply getz_Some in Hg as [? _]. unfold zlen in *. lia.
Qed.

(** C34. Integrity of lazy reads: when the hashes of a file name the image
    [content] and every resident chunk entered through [insert], the bytes a
    read returns are the bytes of the image at that range, unless the store holds
    a forged chunk of this very file: bytes that differ from the image's chunk and
    have the same SHA-256 digest. *)
Theorem read_range_integrity `{Host} s f content offset len v :
  file_wf f → is_u64 offset → 0 ≤ len ≤ usize_max → store_wf s → named_by f content →
  Store.read_range s f offset len = Ok (Ready v) →
  vdata v = slicez content offset (Z.min (offset + len) (cf_size f)) ∨ forged s f content.
Proof.
  intros Hf Hoff Hlen Hs Hn Hr. destruct (named_backs s f content Hs Hn) as [Hb|?]; [left|by right].
  assert (He : Z.min (saturating_add64 offset len) (cf_size f) = Z.min (offset + len) (cf_size f)).
  { destruct Hf as (? & ? & _ & _ & _ & ?). unfold saturating_add64. lia. }
  destruct (read_range_cases s f offset len Hf Hoff Hlen) as [[Hle Hr']|(_ & r & Hr' & Hres)];
    rewrite Hr' in Hr; simplify_eq; rewrite He in *.
  - unfold slicez. replace (Z.to_nat _) with 0%nat by lia. done.
  - inversion Hres; subst; cbn; auto.
Qed.

#[local] Opaque sha256.
Lemma read_range_integrity_witness :
  let img := replicate 17 2 in
  let f := {| cf_size := 17; chunk_size := 4096; cf_chunks := [sha256 img] |} in
  let s := {| resident_chunks := [(sha256 img, Vec img 17)] |} in
  vdata (Vec (replicate 7 2) 7) = slicez img 10 (Z.min (10 + 20) 17).
Proof.
  cbv zeta. set (img := replicate 17 2).
  set (f := {| cf_size := 17; chunk_size := 4096; cf_chunks := [sha256 img] |}).
  set (s := {| resident_chunks := [(sha256 img, Vec img 17)] |}).
  destruct (read_range_integrity s f img 10 20 (Vec (replicate 7 2) 7)) as [Hr|(i & h & v & Hi & Hv & Hne & _)]; [..|exact Hr|].
  - vm_compute. repeat split; congruence.
  - vm_compute. repeat split; congruence.
  - vm_compute. repeat split; congruence.
  - split; [by repeat constructor|]. intros h v Hv. apply bt_get_In in Hv.
    apply list_elem_of_singleton in Hv. apply pair_equal_spec in Hv as [Hh Hw].
    rewrite Hh, Hw. reflexivity.
  - split; [done|]. intros i h Hi. apply getz_Some in Hi as [Hb Hi].
    assert (i = 0) as -> by (unfold zlen in Hb; cbn in Hb; lia). 
    change (Some (sha256 img) = Some h) in Hi. apply Some_inj in Hi. rewrite <- Hi. reflexivity.
  - vm_compute. reflexivity.
  - apply bt_get_In, list_elem_of_singleton, pair_equal_spec in Hv as [_ ->]. destruct Hne.
    apply getz_Some in Hi as [Hb _]. assert (i = 0) as -> by (unfold zlen in Hb; cbn in Hb; lia). reflexivity.
Defined.
