(* ===== verification/Filesystem.v ===== *)
(** The in-memory filesystem: data and operations.

    Models [crates/linux-compat/src/vfs.rs] except its snapshot format, which
    is in [Snapshot]. The arena of nodes is a list indexed by [nat]; an index
    out of range is the Rust panic, so every access goes through [node_at].
    An operation on [&mut self] returns the filesystem together with its
    result, since several of them change the arena before they fail. *)

From S2P Require Import Prelude BTree Abi Digest Chunk.

Definition ROOT : nat := 0.

Inductive Dev := DevNull | DevZero | DevTty | DevRandom | DevPtmx.

Inductive NodeKind :=
| Dir (entries : btree bytes nat)
| File (data : vec)
| Chunked (file : ChunkedFile)
| Symlink (target : vec)
| CharDev (dev : Dev).

Record Node := {
  kind : NodeKind;
  mode : Z;
  nlink : Z;
  mtime_sec : Z;
  n_parent : nat
}.

Record Resolved := { r_parent : nat; r_name : bytes; r_node : option nat }.

Record Vfs := {
  nodes : list Node;
  chunks : ChunkStore;
  manifest_root : option Hash;
  storage_budget : option Z;
  unlinked : list nat
}.

#[global] Instance dev_eq_dec : EqDecision Dev.
Proof. solve_decision. Defined.

Definition data_len (k : NodeKind) : Z :=
  match k with
  | File data => vcap data
  | Chunked _ => 0
  | Symlink target => vcap target
  | Dir _ | CharDev _ => 0
  end.

Definition file_type_bits (n : Node) : Z :=
  match kind n with
  | Dir _ => S_IFDIR
  | File _ | Chunked _ => S_IFREG
  | Symlink _ => S_IFLNK
  | CharDev _ => S_IFCHR
  end.

Definition d_type (n : Node) : Z :=
  match kind n with
  | Dir _ => DT_DIR
  | File _ | Chunked _ => DT_REG
  | Symlink _ => DT_LNK
  | CharDev _ => DT_CHR
  end.

Definition node_size (n : Node) : Z :=
  match kind n with
  | File data => vlen data
  | Chunked file => cf_size file
  | Symlink target => vlen target
  | Dir entries => zlen entries
  | CharDev _ => 0
  end.

(** Updates of one field. *)
Definition with_kind (n : Node) (k : NodeKind) : Node :=
  {| kind := k; mode := mode n; nlink := nlink n; mtime_sec := mtime_sec n; n_parent := n_parent n |}.
Definition with_nlink (n : Node) (c : Z) : Node :=
  {| kind := kind n; mode := mode n; nlink := c; mtime_sec := mtime_sec n; n_parent := n_parent n |}.
Definition with_parent (n : Node) (p : nat) : Node :=
  {| kind := kind n; mode := mode n; nlink := nlink n; mtime_sec := mtime_sec n; n_parent := p |}.
Definition set_nodes (v : Vfs) (l : list Node) : Vfs :=
  {| nodes := l; chunks := chunks v; manifest_root := manifest_root v;
     storage_budget := storage_budget v; unlinked := unlinked v |}.
Definition set_unlinked (v : Vfs) (l : list nat) : Vfs :=
  {| nodes := nodes v; chunks := chunks v; manifest_root := manifest_root v;
     storage_budget := storage_budget v; unlinked := l |}.
Definition set_chunks (v : Vfs) (c : ChunkStore) : Vfs :=
  {| nodes := nodes v; chunks := c; manifest_root := manifest_root v;
     storage_budget := storage_budget v; unlinked := unlinked v |}.
Definition set_node (v : Vfs) (i : nat) (n : Node) : Vfs :=
  set_nodes v (<[i := n]> (nodes v)).

Definition is_dir_kind (k : NodeKind) : bool :=
  match k with Dir _ => true | _ => false end.
Definition new_nlink (k : NodeKind) : Z := if is_dir_kind k then 2 else 1.

(** [self.nodes[i]] *)
Definition node_at (v : Vfs) (i : nat) : res Z Node := expect (nodes v !! i).
Definition is_dir (v : Vfs) (i : nat) : res Z bool :=
  let! n := node_at v i in Ok (is_dir_kind (kind n)).
(** [let NodeKind::Dir(entries) = .. else { return Err(ENOTDIR) }] *)
Definition dir_entries (v : Vfs) (i : nat) : res Z (btree bytes nat) :=
  let! n := node_at v i in
  match kind n with Dir entries => Ok entries | _ => Err ENOTDIR end.
Definition set_entries (v : Vfs) (i : nat) (entries : btree bytes nat) : Vfs :=
  match nodes v !! i with
  | Some n => set_node v i (with_kind n (Dir entries))
  | None => v
  end.

Definition alloc (v : Vfs) (n : Node) : Vfs * nat :=
  (set_nodes v (nodes v ++ [n]), length (nodes v)).

(** * Paths *)
Definition SLASH : Z := 47.
Definition DOT : bytes := [46].
Definition DOTDOT : bytes := [46; 46].

(** [path.split(|&b| b == b'/')] *)
Fixpoint split_slash (path : bytes) : list bytes :=
  match path with
  | [] => [[]]
  | b :: path =>
      if b =? SLASH then [] :: split_slash path
      else match split_slash path with
           | c :: cs => (b :: c) :: cs
           | [] => [[b]]
           end
  end.
Definition components (path : bytes) : list bytes :=
  filter (λ c, c ≠ [] ∧ c ≠ DOT) (split_slash path).

(** The loop of [resolve_depth] over the components, [rec] being the
    recursive call on the target of a symbolic link. *)
Fixpoint walk (rec : nat → bytes → bool → res Z Resolved) (v : Vfs)
    (follow_last : bool) (cs : list bytes) (current : nat) : res Z Resolved :=
  match cs with
  | [] => Panic
  | component :: rest =>
      let is_last := bool_decide (rest = []) in
      if bool_decide (component = DOTDOT) then
        let! n := node_at v current in
        let up := n_parent n in
        if is_last then
          let! u := node_at v up in
          Ok {| r_parent := n_parent u; r_name := DOT; r_node := Some up |}
        else walk rec v follow_last rest up
      else
        let! entries := dir_entries v current in
        let next := bt_get entries component in
        if is_last then
          let found := Ok {| r_parent := current; r_name := component; r_node := next |} in
          if follow_last then
            match next with
            | Some next_node =>
                let! n := node_at v next_node in
                match kind n with
                | Symlink target => rec current (vdata target) true
                | _ => found
                end
            | None => found
            end
          else found
        else
          match next with
          | None => Err ENOENT
          | Some next_node =>
              let! n := node_at v next_node in
              match kind n with
              | Symlink target =>
                  let! resolved := rec current (vdata target) true in
                  let! node := ok_or (r_node resolved) ENOENT in
                  let! d := is_dir v node in
                  if d then walk rec v follow_last rest node else Err ENOTDIR
              | Dir _ => walk rec v follow_last rest next_node
              | _ => Err ENOTDIR
              end
          end
  end.

(** [fuel] is [9 - depth]: at [depth > 8] the walk gives up with [ELOOP]. *)
Fixpoint resolve_depth (fuel : nat) (v : Vfs) (start : nat) (path : bytes)
    (follow_last : bool) : res Z Resolved :=
  match fuel with
  | O => Err ELOOP
  | S fuel =>
      let current := if bool_decide (head path = Some SLASH) then ROOT else start in
      let cs := components path in
      if bool_decide (cs = []) then
        let! n := node_at v current in
        Ok {| r_parent := n_parent n; r_name := DOT; r_node := Some current |}
      else walk (λ s p fl, resolve_depth fuel v s p fl) v follow_last cs current
  end.
Definition MAX_DEPTH : nat := 9.

Definition resolve (v : Vfs) (start : nat) (path : bytes) (follow_last : bool)
    : res Z Resolved :=
  if bool_decide (path = []) then Err ENOENT
  else resolve_depth MAX_DEPTH v start path follow_last.

(** * Reading *)
Definition occupied_by_a_directory (v : Vfs) (path : bytes) : res Z bool :=
  match resolve v ROOT path false with
  | Ok r => match r_node r with Some node => is_dir v node | None => Ok false end
  | Err _ => Ok false
  | Panic => Panic
  end.

Module Fs.
(** [Vfs::bytes]. The buffers summed are live at the same time, so their
    capacities add up within the address space. *)
Definition node_bytes (l : list Node) : Z := foldr (λ n acc, data_len (kind n) + acc) 0 l.
Definition total_bytes `{Host} (v : Vfs) : Z :=
  saturating_add_usize (node_bytes (nodes v)) (Store.store_bytes (chunks v)).

Definition storage_headroom `{Host} (v : Vfs) : option Z :=
  option_map (λ budget, saturating_sub budget (total_bytes v)) (storage_budget v).

Definition reserve `{Host} (v : Vfs) (growth : Z) : res Z () :=
  if growth =? 0 then Ok ()
  else match storage_budget v with
       | None => Ok ()
       | Some budget =>
           if saturating_add_usize (total_bytes v) growth <=? budget then Ok ()
           else Err ENOSPC
       end.

Definition first_missing_file_chunk (v : Vfs) (node : nat) : res Z (option Hash) :=
  let! n := ok_or (nodes v !! node) ENOENT in
  match kind n with
  | File _ => Ok None
  | Chunked file => Ok (Store.first_missing (chunks v) file)
  | Dir _ => Err EISDIR
  | _ => Err EINVAL
  end.

(** [ChunkStore::read_range] never fails but may panic. *)
Definition read_chunked_range `{Host} (v : Vfs) (file : ChunkedFile) (offset len : Z)
    : res Z ReadRange :=
  match Store.read_range (chunks v) file offset len with
  | Ok r => Ok r
  | Err e => match e with end
  | Panic => Panic
  end.

Definition read_node_range `{Host} (v : Vfs) (node : nat) (offset len : Z)
    : res Z ReadRange :=
  let! n := ok_or (nodes v !! node) ENOENT in
  match kind n with
  | File data =>
      let start := Z.min (default usize_max (try_usize offset)) (vlen data) in
      let stop := Z.min (saturating_add_usize start len) (vlen data) in
      Ok (Ready (to_vec (slicez (vdata data) start stop)))
  | Chunked file => read_chunked_range v file offset len
  | Dir _ => Err EISDIR
  | _ => Err EINVAL
  end.

(** [list] *)
Definition list_dir (v : Vfs) (dir : nat) : res Z (list (bytes * nat)) :=
  let! n := node_at v dir in
  match kind n with
  | Dir entries => Ok ((DOT, dir) :: (DOTDOT, n_parent n) :: entries)
  | _ => Err ENOTDIR
  end.

(** The loop of [abs_path_of]; [left] bounds the segments still allowed, and
    [fuel] the climb, which may visit nodes that contribute no segment. *)
Fixpoint climb (fuel : nat) (v : Vfs) (current : nat) (segments : list bytes)
    : res Z (list bytes) :=
  match fuel with
  | O => Panic
  | S fuel =>
      if (current =? ROOT)%nat || (256 <=? length segments)%nat then Ok segments
      else
        let! n := node_at v current in
        let parent := n_parent n in
        let! p := node_at v parent in
        let found := match kind p with
                     | Dir entries => List.find (λ e, (e.2 =? current)%nat) entries
                     | _ => None
                     end in
        climb fuel v parent
          (match found with Some (name, _) => segments ++ [name] | None => segments end)
  end.

Definition join_segments (segments : list bytes) : bytes :=
  mjoin (map (λ s, SLASH :: s) (rev segments)).

Definition abs_path_of (fuel : nat) (v : Vfs) (node : nat) : res Z bytes :=
  if (node =? ROOT)%nat then Ok [SLASH]
  else
    let! segments := climb fuel v node [] in
    let path := join_segments segments in
    Ok (if bool_decide (path = []) then [SLASH] else path).

Definition read_file (v : Vfs) (path : bytes) : res Z (option bytes) :=
  match resolve v ROOT path true with
  | Ok r =>
      match r_node r with
      | Some node =>
          match nodes v !! node with
          | Some n => match kind n with File data => Ok (Some (vdata data)) | _ => Ok None end
          | None => Ok None
          end
      | None => Ok None
      end
  | Err _ => Ok None
  | Panic => Panic
  end.

(** * Updating *)
Abbreviation op A := (stm Vfs Z A).

Definition put_chunk `{Host} (expected : Hash) (b : vec) : op () := λ v,
  let charged := if Store.contains (chunks v) expected then Ok () else reserve v (vcap b) in
  match charged with
  | Ok _ =>
      match Store.insert (chunks v) expected b with
      | Ok c => (set_chunks v c, Ok ())
      | Err _ => (v, Err EINVAL)
      | Panic => (v, Panic)
      end
  | Err e => (v, Err e)
  | Panic => (v, Panic)
  end.

Definition topology_node `{Host} (n : Node) : Node :=
  with_kind n (match kind n with
               | File _ => File vec_new
               | Symlink target => Symlink (to_vec (vdata target))
               | k => k
               end).
Definition topology_only `{Host} (v : Vfs) : Vfs :=
  {| nodes := map topology_node (nodes v); chunks := store_default;
     manifest_root := manifest_root v; storage_budget := None; unlinked := unlinked v |}.

(** [materialize_file]: the bytes it leaves in the node are the result. *)
Definition materialize_file `{Host} (node : nat) : op vec :=
  do! b <- query (λ v,
    let! n := ok_or (nodes v !! node) ENOENT in
    match kind n with
    | File _ => Ok None
    | Chunked file =>
        let! r := read_chunked_range v file 0 usize_max in
        match r with
        | Ready b => Ok (Some b)
        | Missing _ => Err EIO
        | Invalid _ _ _ => Err EIO
        end
    | Dir _ => Err EISDIR
    | _ => Err EINVAL
    end) in
  do! _ <- match b with
           | Some b =>
               do! _ <- query (λ v, reserve v (vcap b)) in
               do! n <- query (λ v, node_at v node) in
               modify (λ v, set_node v node (with_kind n (File b)))
           | None => sret ()
           end in
  query (λ v,
    let! n := node_at v node in
    match kind n with File data => Ok data | _ => Panic end).

Definition alloc_node (n : Node) : op nat := λ v,
  let '(v, i) := alloc v n in (v, Ok i).

(** The link [displaced] loses when its name goes to another node. *)
Definition drop_link (displaced : nat) : op () := λ v,
  match nodes v !! displaced with
  | None => (v, Panic)
  | Some old =>
      let old := with_nlink old (saturating_sub (nlink old) 1) in
      let v := set_node v displaced old in
      (if (nlink old =? 0) && negb (bool_decide (displaced ∈ unlinked v))
       then set_unlinked v (unlinked v ++ [displaced]) else v, Ok ())
  end.

Fixpoint mkdir_loop (cs : list bytes) (current : nat) : op nat :=
  match cs with
  | [] => sret current
  | component :: cs =>
      if bool_decide (component = DOTDOT) then
        do! n <- query (λ v, node_at v current) in
        mkdir_loop cs (n_parent n)
      else
        do! entries <- query (λ v, dir_entries v current) in
        match bt_get entries component with
        | Some next =>
            do! d <- query (λ v, is_dir v next) in
            if d then mkdir_loop cs next else sfail ENOTDIR
        | None =>
            do! node <- alloc_node {| kind := Dir []; mode := 493; nlink := 2;
                                      mtime_sec := 0; n_parent := current |} in
            do! entries <- query (λ v, dir_entries v current) in
            do! _ <- modify (λ v, set_entries v current (bt_insert entries component node)) in
            mkdir_loop cs node
        end
  end.
Definition mkdir_p (path : bytes) : op nat := mkdir_loop (components path) ROOT.

(** [path.iter().rposition(|&b| b == b'/').unwrap_or(0)] *)
Fixpoint rposition_slash (path : bytes) : option nat :=
  match path with
  | [] => None
  | b :: path =>
      match rposition_slash path with
      | Some i => Some (S i)
      | None => if b =? SLASH then Some O else None
      end
  end.

Definition add_node (path : bytes) (k : NodeKind) (md : Z) : op nat :=
  do! occupied <- query (λ v,
    if is_dir_kind k then Ok false else occupied_by_a_directory v path) in
  if occupied then sfail EISDIR
  else
    do! _ <- mkdir_p (take (default O (rposition_slash path)) path) in
    do! resolved <- query (λ v, resolve v ROOT path false) in
    do! node <- alloc_node {| kind := k; mode := md; nlink := new_nlink k;
                              mtime_sec := 0; n_parent := r_parent resolved |} in
    do! entries <- query (λ v, dir_entries v (r_parent resolved)) in
    do! _ <- modify (λ v,
      set_entries v (r_parent resolved) (bt_insert entries (r_name resolved) node)) in
    do! _ <- match bt_get entries (r_name resolved) with
             | Some displaced => drop_link displaced
             | None => sret ()
             end in
    sret node.

Definition add_chunked_file (path : bytes) (file : ChunkedFile) (md : Z) : op nat :=
  add_node path (Chunked file) md.

Definition create_file_with_capacity `{Host} (path : bytes) (capacity md : Z) : op nat :=
  match vec_try_reserve_exact vec_new capacity with
  | Some data => add_node path (File data) md
  | None => sfail ENOMEM
  end.

Definition append_file `{Host} (path : bytes) (b : bytes) : op () :=
  do! resolved <- query (λ v, resolve v ROOT path true) in
  do! node <- query (λ _, ok_or (r_node resolved) ENOENT) in
  do! n <- query (λ v, node_at v node) in
  match kind n with
  | File data =>
      match vec_try_reserve data (zlen b) with
      | Some data => modify (λ v, set_node v node (with_kind n (File (vec_extend data b))))
      | None => sfail ENOMEM
      end
  | _ => sfail EISDIR
  end.

Definition create `{Host} (parent : nat) (name : bytes) (k : NodeKind) (md : Z) : op nat :=
  if bool_decide (name = []) || bool_decide (name = DOT) || bool_decide (name = DOTDOT)
  then sfail EEXIST
  else
    do! _ <- query (λ v, reserve v (data_len k)) in
    do! node <- alloc_node {| kind := k; mode := md; nlink := new_nlink k;
                              mtime_sec := 0; n_parent := parent |} in
    do! entries <- query (λ v, dir_entries v parent) in
    if bt_mem entries name then sfail EEXIST
    else
      do! _ <- modify (λ v, set_entries v parent (bt_insert entries name node)) in
      sret node.

Definition link (parent : nat) (name : bytes) (node : nat) : op () :=
  do! entries <- query (λ v, dir_entries v parent) in
  if bt_mem entries name then sfail EEXIST
  else
    do! _ <- modify (λ v, set_entries v parent (bt_insert entries name node)) in
    do! n <- query (λ v, node_at v node) in
    do! c <- query (λ _, add64 (nlink n) 1) in
    modify (λ v, set_node v node (with_nlink n c)).

Definition unlink (parent : nat) (name : bytes) (rmdir : bool) : op () :=
  do! entries <- query (λ v, dir_entries v parent) in
  do! node <- query (λ _, ok_or (bt_get entries name) ENOENT) in
  do! n <- query (λ v, node_at v node) in
  do! _ <- query (λ _,
    match kind n with
    | Dir children =>
        if negb rmdir then Err EISDIR
        else if negb (bool_decide (children = [])) then Err ENOTEMPTY
        else Ok ()
    | _ => if rmdir then Err ENOTDIR else Ok ()
    end) in
  do! _ <- modify (λ v, set_entries v parent (bt_remove entries name)) in
  drop_link node.

Definition has_unlinked (v : Vfs) : bool := negb (bool_decide (unlinked v = [])).

(** The loop of [release_unreferenced] over the taken [unlinked] list. *)
Fixpoint release_loop (referenced : gset nat) (todo : list nat) (l : list Node)
    (freed : Z) (still_open : list nat) : list Node * Z * list nat :=
  match todo with
  | [] => (l, freed, still_open)
  | node :: todo =>
      if bool_decide (node ∈ referenced)
      then release_loop referenced todo l freed (still_open ++ [node])
      else match l !! node with
           | Some entry =>
               release_loop referenced todo (<[node := with_kind entry (File vec_new)]> l)
                 (freed + data_len (kind entry)) still_open
           | None => release_loop referenced todo l freed still_open
           end
  end.
Definition release_unreferenced (referenced : gset nat) (v : Vfs) : Vfs * Z :=
  let '(l, freed, still_open) := release_loop referenced (unlinked v) (nodes v) 0 [] in
  (set_unlinked (set_nodes v l) still_open, freed).

Definition rename (old_parent : nat) (old_name : bytes) (new_parent : nat)
    (new_name : bytes) : op () :=
  do! entries <- query (λ v, dir_entries v old_parent) in
  do! node <- query (λ _, ok_or (bt_get entries old_name) ENOENT) in
  do! new_entries <- query (λ v, dir_entries v new_parent) in
  do! _ <- query (λ v,
    match bt_get new_entries new_name with
    | Some existing =>
        let! e := node_at v existing in
        match kind e with
        | Dir children => if negb (bool_decide (children = [])) then Err ENOTEMPTY else Ok ()
        | _ => Ok ()
        end
    | None => Ok ()
    end) in
  do! entries <- query (λ v, dir_entries v old_parent) in
  do! _ <- modify (λ v, set_entries v old_parent (bt_remove entries old_name)) in
  do! entries <- query (λ v, dir_entries v new_parent) in
  do! _ <- modify (λ v, set_entries v new_parent (bt_insert entries new_name node)) in
  do! _ <- match bt_get entries new_name with
           | Some displaced =>
               if (displaced =? node)%nat then sret () else drop_link displaced
           | None => sret ()
           end in
  do! n <- query (λ v, node_at v node) in
  modify (λ v, set_node v node (with_parent n new_parent)).

Definition take_file_contents (path : bytes) : op (option vec) := λ v,
  match resolve v ROOT path true with
  | Ok r =>
      match r_node r with
      | Some node =>
          match nodes v !! node with
          | Some n =>
              match kind n with
              | File data => (set_node v node (with_kind n (File vec_new)), Ok (Some data))
              | _ => (v, Ok None)
              end
          | None => (v, Ok None)
          end
      | None => (v, Ok None)
      end
  | Err _ => (v, Ok None)
  | Panic => (v, Panic)
  end.

Definition put_file_contents (path : bytes) (data : vec) : op () := λ v,
  match resolve v ROOT path true with
  | Ok r =>
      match r_node r ≫= λ node, (node,.) <$> nodes v !! node with
      | Some (node, n) =>
          match kind n with
          | File _ => (set_node v node (with_kind n (File data)), Ok ())
          | _ => (v, Ok ())
          end
      | None => (v, Ok ())
      end
  | Err _ => (v, Ok ())
  | Panic => (v, Panic)
  end.

(** [Vfs::new]: the root, the skeleton directories, the devices. *)
Definition empty_root : Vfs :=
  {| nodes := [{| kind := Dir []; mode := 493; nlink := 2; mtime_sec := 0; n_parent := ROOT |}];
     chunks := store_default; manifest_root := None; storage_budget := None; unlinked := [] |}.
Definition str (s : String.string) : bytes :=
  map (λ a, Z.of_N (Ascii.N_of_ascii a)) (String.list_ascii_of_string s).
Definition skeleton : list bytes :=
  map str ["/bin"; "/dev"; "/dev/pts"; "/etc"; "/home"; "/tmp"; "/usr"; "/usr/bin"; "/var"]%string.
Definition devices : list (bytes * Dev) :=
  [(str "/dev/null", DevNull); (str "/dev/zero", DevZero); (str "/dev/tty", DevTty);
   (str "/dev/urandom", DevRandom); (str "/dev/ptmx", DevPtmx)].
Definition new : Vfs :=
  let v := foldl (λ v d, (mkdir_p d v).1) empty_root skeleton in
  foldl (λ v '(p, dev), (add_node p (CharDev dev) 438 v).1) v devices.
End Fs.
