(* ===== verification/FilesystemInv.v ===== *)
(** The filesystem arena: well-formedness, and that no operation panics.

    [vfs_wf] says that every index stored in the arena is in range and that
    every directory is a sorted map; [fs_ok] packages what an operation run
    from a well-formed filesystem guarantees. *)

From S2P Require Import Prelude BTree Abi Digest Chunk Filesystem.

Section wf.
Context `{Host}.

Definition node_wf (len : nat) (n : Node) : Prop :=
  (n_parent n < len)%nat ∧
  match kind n with
  | Dir entries => bt_sorted entries ∧ Forall (λ e, (e.2 < len)%nat) entries
  | Chunked file => file_wf file
  | _ => True
  end.

Definition vfs_wf (v : Vfs) : Prop :=
  (0 < length (nodes v))%nat ∧ Forall (node_wf (length (nodes v))) (nodes v).

Lemma node_wf_mono len len' n : (len ≤ len')%nat → node_wf len n → node_wf len' n.
Proof.
  intros Hle [? Hk]. split; [lia|]. destruct (kind n); try done.
  destruct Hk as [? Hall]. split; [done|]. eapply Forall_impl; [exact Hall|]. simpl. lia.
Qed.

Lemma vfs_wf_node v i n : vfs_wf v → nodes v !! i = Some n → node_wf (length (nodes v)) n.
Proof. intros [_ Hall] ?. by eapply Forall_lookup_1. Qed.

Lemma length_set_node v i n : length (nodes (set_node v i n)) = length (nodes v).
Proof. apply length_insert. Qed.
Lemma length_set_entries v i es : length (nodes (set_entries v i es)) = length (nodes v).
Proof. unfold set_entries. destruct (nodes v !! i); [apply length_set_node|done]. Qed.

Lemma set_node_wf v i n : vfs_wf v → node_wf (length (nodes v)) n → vfs_wf (set_node v i n).
Proof.
  intros [? ?] ?. unfold vfs_wf. rewrite length_set_node. split; [done|].
  by apply Forall_insert.
Qed.

Lemma set_entries_wf v i es :
  vfs_wf v → bt_sorted es → Forall (λ e, (e.2 < length (nodes v))%nat) es →
  vfs_wf (set_entries v i es).
Proof.
  intros Hv ? ?. unfold set_entries. destruct (nodes v !! i) as [n|] eqn:Hn; [|done].
  apply set_node_wf; [done|]. split; [apply (vfs_wf_node v i n Hv Hn)|done].
Qed.

Lemma alloc_wf v n : vfs_wf v → node_wf (S (length (nodes v))) n → vfs_wf (alloc v n).1.
Proof.
  intros [? ?] Hn. unfold vfs_wf. cbn. rewrite length_app. cbn. split; [lia|].
  rewrite Nat.add_1_r. apply Forall_app. split; [|by constructor].
  eapply Forall_impl; [eassumption|]. intros ? ?. by eapply node_wf_mono; [|eassumption]; lia.
Qed.

Lemma set_unlinked_wf v l : vfs_wf v → vfs_wf (set_unlinked v l).
Proof. done. Qed.
Lemma set_chunks_wf v c : vfs_wf v → vfs_wf (set_chunks v c).
Proof. done. Qed.
End wf.
#[export] Hint Resolve set_unlinked_wf set_chunks_wf : rust.
#[export] Hint Rewrite length_set_node length_set_entries : zlen.

(** Looking up one directory entry. *)
Definition lookup_entry (v : Vfs) (p : nat) (nm : bytes) : option nat :=
  match nodes v !! p with
  | Some n => match kind n with Dir entries => bt_get entries nm | _ => None end
  | None => None
  end.
Definition is_directory (v : Vfs) (i : nat) : Prop :=
  ∃ n es, nodes v !! i = Some n ∧ kind n = Dir es.

Section lookups.
Context `{Host} (v : Vfs) (Hv : vfs_wf v).
Implicit Types i : nat.

Lemma node_at_ok i : (i < length (nodes v))%nat →
  ∃ n, nodes v !! i = Some n ∧ node_at v i = Ok n ∧ node_wf (length (nodes v)) n.
Proof.
  intros Hi. destruct (lookup_lt_is_Some_2 _ _ Hi) as [n Hn]. exists n.
  unfold node_at. rewrite Hn. split_and!; [done..|]. by eapply vfs_wf_node.
Qed.

Lemma dir_entries_ok i : (i < length (nodes v))%nat →
  (∃ n es, dir_entries v i = Ok es ∧ nodes v !! i = Some n ∧ kind n = Dir es ∧
     bt_sorted es ∧ Forall (λ e, (e.2 < length (nodes v))%nat) es) ∨
  (∃ n, dir_entries v i = Err ENOTDIR ∧ nodes v !! i = Some n ∧ is_dir_kind (kind n) = false).
Proof.
  intros Hi. destruct (node_at_ok i Hi) as (n & Hn & He & [_ Hk]).
  unfold dir_entries. rewrite He. cbn. destruct (kind n) eqn:Ek; [left|right..].
  - destruct Hk. eauto 10.
  - exists n. by rewrite Ek.
  - exists n. by rewrite Ek.
  - exists n. by rewrite Ek.
  - exists n. by rewrite Ek.
Qed.

Lemma entry_bound (es : btree bytes nat) nm i :
  Forall (λ e, (e.2 < length (nodes v))%nat) es → bt_get es nm = Some i →
  (i < length (nodes v))%nat.
Proof. intros Hall Hg%bt_get_In. by apply (proj1 (Forall_forall _ _) Hall) in Hg. Qed.

Lemma is_dir_ok i : (i < length (nodes v))%nat →
  ∃ n, nodes v !! i = Some n ∧ is_dir v i = Ok (is_dir_kind (kind n)).
Proof.
  intros Hi. destruct (node_at_ok i Hi) as (n & Hn & He & _). exists n.
  unfold is_dir. rewrite He. done.
Qed.

Lemma is_dir_kind_true n i : nodes v !! i = Some n → is_dir_kind (kind n) = true → is_directory v i.
Proof. unfold is_directory. destruct (kind n) eqn:E; cbn; naive_solver. Qed.
End lookups.

(** * Path resolution *)

(** A resolved path names an entry of a directory, or (for a path that ends in
    [..] or has no components) a node together with its parent. *)
Inductive resolved_wf (v : Vfs) : Resolved → Prop :=
| resolved_entry p nm :
    is_directory v p → nm ∉ [[]; DOT; DOTDOT] →
    resolved_wf v {| r_parent := p; r_name := nm; r_node := lookup_entry v p nm |}
| resolved_self i n :
    nodes v !! i = Some n →
    resolved_wf v {| r_parent := n_parent n; r_name := DOT; r_node := Some i |}.

Definition res_wf (v : Vfs) (m : res Z Resolved) : Prop :=
  match m with Ok r => resolved_wf v r | Err _ => True | Panic => False end.

Lemma resolved_wf_bounds `{Host} v r :
  vfs_wf v → resolved_wf v r →
  (r_parent r < length (nodes v))%nat ∧
  ∀ i, r_node r = Some i → (i < length (nodes v))%nat.
Proof.
  intros Hv [p nm (n & es & Hn & Hk) _|i n Hn]; cbn.
  - split; [by eapply lookup_lt_Some|]. unfold lookup_entry. rewrite Hn, Hk.
    intros i Hg. destruct (vfs_wf_node v p n Hv Hn) as [_ Hw]. rewrite Hk in Hw.
    destruct Hw. by eapply entry_bound.
  - split; [by apply (vfs_wf_node v i n Hv)|]. intros ? [= <-]. by eapply lookup_lt_Some.
Qed.

Section resolve.
Context `{Host} (v : Vfs) (Hv : vfs_wf v).

Lemma walk_wf rec fl cs cur :
  (∀ s p f, (s < length (nodes v))%nat → res_wf v (rec s p f)) →
  (cur < length (nodes v))%nat → cs ≠ [] → Forall (λ c, c ≠ [] ∧ c ≠ DOT) cs →
  res_wf v (walk rec v fl cs cur).
Proof.
  intros Hrec. revert cur. induction cs as [|c cs IH]; [done|]. intros cur Hcur _ Hall.
  apply Forall_cons in Hall as [[Hc1 Hc2] Hall]. cbn [walk].
  assert (IH' : cs ≠ [] → ∀ x, (x < length (nodes v))%nat → res_wf v (walk rec v fl cs x)) by auto.
  clear IH. destruct (decide (cs = [])) as [Hlast|Hlast], (decide (c = DOTDOT)) as [Hdd|Hdd];
    rewrite ?(bool_decide_eq_true_2 _ Hlast), ?(bool_decide_eq_false_2 _ Hlast),
      ?(bool_decide_eq_true_2 _ Hdd), ?(bool_decide_eq_false_2 _ Hdd).
  - destruct (node_at_ok v Hv cur Hcur) as (n & Hn & -> & [Hp _]). cbn.
    destruct (node_at_ok v Hv _ Hp) as (u & Hu & -> & _). cbn. by constructor.
  - destruct (dir_entries_ok v Hv cur Hcur) as [(n & es & -> & Hn & Hk & Hs & Hb)|(n & -> & _)];
      cbn; [|done].
    assert (Hent : res_wf v (Ok {| r_parent := cur; r_name := c; r_node := bt_get es c |})).
    { cbn. replace (bt_get es c) with (lookup_entry v cur c)
        by (unfold lookup_entry; by rewrite Hn, Hk).
      constructor; [unfold is_directory; eauto|set_solver]. }
    destruct fl; [|done]. destruct (bt_get es c) as [x|] eqn:Hg; [|done].
    destruct (node_at_ok v Hv x) as (nx & Hnx & -> & _); [by eapply entry_bound|]. cbn.
    destruct (kind nx); try done. by apply Hrec.
  - destruct (node_at_ok v Hv cur Hcur) as (n & Hn & -> & [Hp _]). cbn. auto.
  - destruct (dir_entries_ok v Hv cur Hcur) as [(n & es & -> & Hn & Hk & Hs & Hb)|(n & -> & _)];
      cbn; [|done].
    destruct (bt_get es c) as [x|] eqn:Hg; [|done].
    assert (Hx : (x < length (nodes v))%nat) by (by eapply entry_bound).
    destruct (node_at_ok v Hv x Hx) as (nx & Hnx & -> & _). cbn.
    destruct (kind nx) as [| | |t|]; try done; [by auto|].
    specialize (Hrec cur (vdata t) true Hcur). destruct (rec _ _ _) as [r| |]; cbn; try done.
    cbn in Hrec. apply (resolved_wf_bounds v r Hv) in Hrec as [_ Hr].
    destruct (r_node r) as [y|]; cbn; [|done].
    destruct (is_dir_ok v Hv y) as (ny & Hny & ->); [auto|]. cbn.
    case_if; [|done]. apply IH'; auto.
Qed.

Lemma components_ok path : Forall (λ c : bytes, c ≠ [] ∧ c ≠ DOT) (components path).
Proof. apply Forall_forall. intros c [? _]%list_elem_of_filter. done. Qed.

Lemma resolve_depth_wf fuel start path fl :
  (start < length (nodes v))%nat → res_wf v (resolve_depth fuel v start path fl).
Proof.
  revert start path fl. induction fuel as [|fuel IH]; intros start path fl Hs; [done|].
  cbn [resolve_depth]. set (cur := if bool_decide _ then ROOT else start).
  assert (Hcur : (cur < length (nodes v))%nat).
  { unfold cur. case_if; [destruct Hv; unfold ROOT; lia|done]. }
  case_bool_decide as Hc.
  - destruct (node_at_ok v Hv cur Hcur) as (n & Hn & -> & _). cbn. by constructor.
  - apply walk_wf; [by auto|done|done|apply components_ok].
Qed.

Lemma resolve_wf start path fl :
  (start < length (nodes v))%nat → res_wf v (resolve v start path fl).
Proof. intros. unfold resolve. case_bool_decide; [done|by apply resolve_depth_wf]. Qed.

(** The shape operations use: a resolution either fails with an errno or
    yields a well-formed answer. *)
Lemma resolve_cases start path fl :
  (start < length (nodes v))%nat →
  (∃ r, resolve v start path fl = Ok r ∧ resolved_wf v r ∧
     (r_parent r < length (nodes v))%nat ∧
     ∀ i, r_node r = Some i → (i < length (nodes v))%nat) ∨
  (∃ e, resolve v start path fl = Err e).
Proof.
  intros Hs. pose proof (resolve_wf start path fl Hs) as Hr.
  destruct (resolve v start path fl) as [r|e|]; [left|right; eauto|done].
  exists r. destruct (resolved_wf_bounds v r Hv Hr). auto.
Qed.
End resolve.

Lemma root_bound `{Host} v : vfs_wf v → (ROOT < length (nodes v))%nat.
Proof. intros [? _]. done. Qed.
#[export] Hint Resolve root_bound : rust.

(** * Operations *)

(** Running from [v], an operation leaves a well-formed arena that has lost no
    index, and either fails with an errno or returns a value satisfying [R]. *)
Definition fs_ok `{Host} {A} (v : Vfs) (R : A → Vfs → Prop) (p : Vfs * res Z A) : Prop :=
  vfs_wf p.1 ∧ (length (nodes v) ≤ length (nodes p.1))%nat ∧
  match p.2 with Ok a => R a p.1 | Err _ => True | Panic => False end.
Definition any {A} (_ : A) (_ : Vfs) : Prop := True.
Definition index_ok (i : nat) (v : Vfs) : Prop := (i < length (nodes v))%nat.

Section ops.
Context `{Host}.

Lemma fs_ok_bind {A B} v (m : stm Vfs Z A) (k : A → stm Vfs Z B) R Q :
  fs_ok v R (m v) →
  (∀ a v', vfs_wf v' → (length (nodes v) ≤ length (nodes v'))%nat → R a v' →
     fs_ok v' Q (k a v')) →
  fs_ok v Q (sbind m k v).
Proof.
  unfold sbind. intros (Hw & Hl & Hr) Hk. destruct (m v) as [v' [a|e|]]; cbn in *;
    [|by split|done].
  destruct (Hk a v') as (? & ? & ?); [done..|]. split; [done|]. split; [lia|done].
Qed.

(** A query that cannot panic. *)
Lemma fs_ok_query {A} v (f : Vfs → res Z A) R :
  vfs_wf v → match f v with Ok a => R a v | Err _ => True | Panic => False end →
  fs_ok v R (query f v).
Proof. intros Hv Hr. split; [exact Hv|]. split; [cbn; lia|exact Hr]. Qed.

Lemma fs_ok_ret {A} v (R : A → Vfs → Prop) a : vfs_wf v → R a v → fs_ok v R (sret a v).
Proof. intros Hv Hr. split; [exact Hv|]. split; [cbn; lia|exact Hr]. Qed.
Lemma fs_ok_fail {A} v (R : A → Vfs → Prop) e : vfs_wf v → fs_ok v R (sfail e v).
Proof. intros Hv. split; [exact Hv|]. split; [cbn; lia|exact I]. Qed.

Lemma fs_ok_modify v f (R : () → Vfs → Prop) :
  vfs_wf (f v) → (length (nodes v) ≤ length (nodes (f v)))%nat → R () (f v) →
  fs_ok v R (modify f v).
Proof. intros. split; done. Qed.

Lemma alloc_node_ok v n :
  vfs_wf v → node_wf (S (length (nodes v))) n →
  fs_ok v (λ i v', i = length (nodes v) ∧ nodes v' = nodes v ++ [n]) (Fs.alloc_node n v).
Proof.
  intros. split; [by apply alloc_wf|]. cbn. rewrite length_app. split; [lia|done].
Qed.

Lemma with_kind_wf len n k :
  node_wf len n →
  match k with
  | Dir es => bt_sorted es ∧ Forall (λ e, (e.2 < len)%nat) es
  | Chunked f => file_wf f
  | _ => True
  end → node_wf len (with_kind n k).
Proof. intros [? _] ?. done. Qed.

Lemma drop_link_ok v d : vfs_wf v → (d < length (nodes v))%nat → fs_ok v any (Fs.drop_link d v).
Proof.
  intros Hv Hd. unfold Fs.drop_link. destruct (node_at_ok v Hv d Hd) as (n & -> & _ & Hn).
  split; cbn; [|case_if; cbn; rewrite length_insert; done].
  assert (vfs_wf (set_node v d (with_nlink n (saturating_sub (nlink n) 1))))
    by (apply set_node_wf; done).
  case_if; [by apply set_unlinked_wf|done].
Qed.

Lemma set_entries_insert_ok v i es nm x :
  vfs_wf v → bt_sorted es → Forall (λ e, (e.2 < length (nodes v))%nat) es →
  (x < length (nodes v))%nat → vfs_wf (set_entries v i (bt_insert es nm x)).
Proof. intros. apply set_entries_wf; [done|by apply bt_insert_sorted|by apply bt_insert_Forall]. Qed.
Lemma set_entries_remove_ok v i es nm :
  vfs_wf v → bt_sorted es → Forall (λ e, (e.2 < length (nodes v))%nat) es →
  vfs_wf (set_entries v i (bt_remove es nm)).
Proof. intros. apply set_entries_wf; [done|by apply bt_remove_sorted|by apply bt_remove_Forall]. Qed.

(** The entries of a directory, as every operation reads them. *)
Definition entries_ok (i : nat) (es : btree bytes nat) (v : Vfs) : Prop :=
  (∃ n, nodes v !! i = Some n ∧ kind n = Dir es) ∧
  bt_sorted es ∧ Forall (λ e, (e.2 < length (nodes v))%nat) es.

Lemma query_entries_ok v i :
  vfs_wf v → (i < length (nodes v))%nat →
  fs_ok v (entries_ok i) (query (λ v, dir_entries v i) v).
Proof.
  intros Hv Hi. apply fs_ok_query; [done|].
  destruct (dir_entries_ok v Hv i Hi) as [(n & es & -> & ?)|(n & -> & _)]; [|done].
  unfold entries_ok. naive_solver.
Qed.

Lemma query_node_ok v i :
  vfs_wf v → (i < length (nodes v))%nat →
  fs_ok v (λ n v', nodes v' !! i = Some n ∧ node_wf (length (nodes v')) n)
    (query (λ v, node_at v i) v).
Proof.
  intros Hv Hi. apply fs_ok_query; [done|].
  destruct (node_at_ok v Hv i Hi) as (n & ? & -> & ?). done.
Qed.

Lemma mkdir_loop_ok cs v cur :
  vfs_wf v → (cur < length (nodes v))%nat → fs_ok v index_ok (Fs.mkdir_loop cs cur v).
Proof.
  revert v cur. induction cs as [|c cs IH]; intros v cur Hv Hcur; cbn [Fs.mkdir_loop].
  { by apply fs_ok_ret. }
  case_bool_decide as Hdd.
  { eapply fs_ok_bind; [by apply query_node_ok|]. intros n v' Hv' _ [_ [? _]]. auto. }
  eapply fs_ok_bind; [by apply query_entries_ok|]. intros es v1 Hv1 Hl1 (_ & _ & Hb).
  destruct (bt_get es c) as [x|] eqn:Hg.
  - assert (x < length (nodes v1))%nat by (by eapply entry_bound).
    destruct (is_dir_ok v1 Hv1 x) as (nx & _ & Hd); [done|].
    eapply (fs_ok_bind _ _ _ any); [apply fs_ok_query; [done|by rewrite Hd]|].
    intros [] v2 Hv2 Hl2 _; [apply IH; [done|lia]|by apply fs_ok_fail].
  - eapply fs_ok_bind.
    { apply alloc_node_ok; [done|]. split; cbn; [lia|done]. }
    intros i v2 Hv2 Hl2 [-> Hn2].
    eapply fs_ok_bind; [apply query_entries_ok; [done|lia]|]. intros es' v3 Hv3 Hl3 (_ & Hs3 & Hb3).
    assert (length (nodes v1) < length (nodes v3))%nat
      by (rewrite Hn2, length_app in Hl3; cbn in Hl3; lia).
    eapply (fs_ok_bind _ _ _ any).
    { apply fs_ok_modify; [by apply set_entries_insert_ok|by rewrite length_set_entries|done]. }
    intros _ v4 Hv4 Hl4 _. rewrite ?length_set_entries in Hl4. apply IH; [done|lia].
Qed.

Lemma mkdir_p_ok path v : vfs_wf v → fs_ok v index_ok (Fs.mkdir_p path v).
Proof. intros. apply mkdir_loop_ok; eauto with rust. Qed.

Definition kind_ok (len : nat) (k : NodeKind) : Prop :=
  match k with
  | Dir es => bt_sorted es ∧ Forall (λ e, (e.2 < len)%nat) es
  | Chunked f => file_wf f
  | _ => True
  end.

Lemma kind_ok_mono len len' k : (len ≤ len')%nat → kind_ok len k → kind_ok len' k.
Proof.
  intros Hle. destruct k; try done. intros [? Hall]. split; [done|].
  eapply Forall_impl; [exact Hall|]. cbn. lia.
Qed.

Lemma occupied_ok v path :
  vfs_wf v → ∃ b, occupied_by_a_directory v path = Ok b.
Proof.
  intros Hv. unfold occupied_by_a_directory.
  destruct (resolve_cases v Hv ROOT path false) as [(r & -> & _ & _ & Hr)|[e ->]];
    [eauto with rust| |eauto].
  destruct (r_node r) as [i|]; [|eauto].
  destruct (is_dir_ok v Hv i) as (n & _ & ->); eauto.
Qed.

Lemma query_resolve_ok v start path fl :
  vfs_wf v → (start < length (nodes v))%nat →
  fs_ok v (λ r v', resolved_wf v' r) (query (λ v, resolve v start path fl) v).
Proof.
  intros Hv Hs. apply fs_ok_query; [done|].
  destruct (resolve_cases v Hv start path fl) as [(r & -> & Hr & _)|[e ->]]; done.
Qed.

(** Installing a node under a name, dropping the link it displaces. *)
Lemma add_node_ok path k md v :
  vfs_wf v → kind_ok (length (nodes v)) k → fs_ok v index_ok (Fs.add_node path k md v).
Proof.
  intros Hv Hk. unfold Fs.add_node. destruct (occupied_ok v path Hv) as [b Hb].
  eapply (fs_ok_bind _ _ _ any).
  { apply fs_ok_query; [done|]. destruct (is_dir_kind k); [done|by rewrite Hb]. }
  intros [] v1 Hv1 Hl1 _; [by apply fs_ok_fail|].
  eapply fs_ok_bind; [by apply mkdir_p_ok|]. intros _ v2 Hv2 Hl2 _.
  eapply fs_ok_bind; [apply query_resolve_ok; eauto with rust|]. intros r v3 Hv3 Hl3 Hr.
  apply (resolved_wf_bounds v3 r Hv3) in Hr as [Hr _].
  eapply fs_ok_bind.
  { apply alloc_node_ok; [done|]. split; cbn; [lia|].
    eapply (kind_ok_mono (length (nodes v))); [lia|done]. }
  intros i v4 Hv4 Hl4 [-> Hn4].
  eapply fs_ok_bind; [apply query_entries_ok; [done|lia]|]. intros es v5 Hv5 Hl5 (_ & Hs5 & Hb5).
  assert (length (nodes v3) < length (nodes v5))%nat
    by (rewrite Hn4, length_app in Hl5; cbn in Hl5; lia).
  eapply (fs_ok_bind _ _ _ any).
  { apply fs_ok_modify; [by apply set_entries_insert_ok|by rewrite length_set_entries|done]. }
  intros _ v6 Hv6 Hl6 _. rewrite ?length_set_entries in Hl6.
  eapply (fs_ok_bind _ _ _ any).
  { destruct (bt_get es (r_name r)) as [d|] eqn:Hg; [|by apply fs_ok_ret].
    apply drop_link_ok; [done|]. assert (d < length (nodes v5))%nat by (by eapply entry_bound). lia. }
  intros _ v7 Hv7 Hl7 _. apply fs_ok_ret; [done|]. unfold index_ok. lia.
Qed.

Lemma create_ok parent name k md v :
  vfs_wf v → (parent < length (nodes v))%nat → kind_ok (length (nodes v)) k →
  fs_ok v index_ok (Fs.create parent name k md v).
Proof.
  intros Hv Hp Hk. unfold Fs.create. case_if; [by apply fs_ok_fail|].
  eapply (fs_ok_bind _ _ _ any).
  { apply fs_ok_query; [done|]. unfold Fs.reserve.
    case_if; [done|]. destruct (storage_budget v); [|done]. by case_if. }
  intros _ v1 Hv1 Hl1 _.
  eapply fs_ok_bind.
  { apply alloc_node_ok; [done|]. split; cbn; [lia|].
    eapply (kind_ok_mono (length (nodes v))); [lia|done]. }
  intros i v2 Hv2 Hl2 [-> Hn2].
  eapply fs_ok_bind; [apply query_entries_ok; [done|lia]|]. intros es v3 Hv3 Hl3 (_ & Hs3 & Hb3).
  assert (length (nodes v1) < length (nodes v3))%nat
    by (rewrite Hn2, length_app in Hl3; cbn in Hl3; lia).
  case_if; [by apply fs_ok_fail|].
  eapply (fs_ok_bind _ _ _ any).
  { apply fs_ok_modify; [by apply set_entries_insert_ok|by rewrite length_set_entries|done]. }
  intros _ v4 Hv4 Hl4 _. rewrite ?length_set_entries in Hl4.
  apply fs_ok_ret; [done|]. unfold index_ok. lia.
Qed.

Lemma link_ok parent name node v :
  vfs_wf v → (parent < length (nodes v))%nat →
  (∃ n, nodes v !! node = Some n ∧ nlink n < U64_MAX) →
  fs_ok v any (Fs.link parent name node v).
Proof.
  intros Hv Hp (n & Hn & Hmax). unfold Fs.link, sbind, query.
  pose proof (lookup_lt_Some _ _ _ Hn) as Hnode.
  destruct (dir_entries_ok v Hv parent Hp) as [(m & es & -> & Hm & Hk & Hs & Hb)|(m & -> & _)];
    [|by apply fs_ok_fail].
  case_if; [by apply fs_ok_fail|]. cbn [modify].
  set (v1 := set_entries v parent (bt_insert es name node)).
  assert (Hv1 : vfs_wf v1) by (by apply set_entries_insert_ok).
  assert (Hl : length (nodes v1) = length (nodes v)) by apply length_set_entries.
  destruct (node_at_ok v1 Hv1 node) as (n' & Hn' & -> & Hw); [lia|].
  assert (Hnl : nlink n' = nlink n).
  { revert Hn'. unfold v1, set_entries. rewrite Hm. cbn.
    destruct (decide (parent = node)) as [->|].
    - rewrite list_lookup_insert_eq by lia. intros [= <-]. cbn. congruence.
    - rewrite list_lookup_insert_ne by done. congruence. }
  unfold add64. rewrite Hnl, (proj2 (Z.leb_le _ _)) by lia. cbn.
  split; cbn; [by apply set_node_wf|]. rewrite length_insert, Hl. done.
Qed.

Lemma unlink_ok parent name rmdir v :
  vfs_wf v → (parent < length (nodes v))%nat → fs_ok v any (Fs.unlink parent name rmdir v).
Proof.
  intros Hv Hp. unfold Fs.unlink.
  eapply fs_ok_bind; [by apply query_entries_ok|]. intros es v1 Hv1 Hl1 (_ & Hs & Hb).
  eapply (fs_ok_bind _ _ _ index_ok).
  { apply fs_ok_query; [done|]. destruct (bt_get es name) eqn:Hg; [|done]. by eapply entry_bound. }
  intros x v2 Hv2 Hl2 Hx.
  eapply (fs_ok_bind _ _ _ (λ _ v', x < length (nodes v') ∧
    Forall (λ e, (e.2 < length (nodes v'))%nat) es)%nat).
  { apply fs_ok_query; [done|]. destruct (node_at_ok v2 Hv2 x Hx) as (n & _ & -> & _).
    split; [done|]. eapply Forall_impl; [exact Hb|]. cbn. lia. }
  intros n v3 Hv3 Hl3 [Hx3 Hb3].
  eapply (fs_ok_bind _ _ _ (λ _ v', x < length (nodes v') ∧
    Forall (λ e, (e.2 < length (nodes v'))%nat) es)%nat).
  { apply fs_ok_query; [done|]. destruct (kind n), rmdir; cbn; try done.
    by case_if. }
  intros _ v4 Hv4 Hl4 [Hx4 Hb4].
  eapply (fs_ok_bind _ _ _ (λ _ v', x < length (nodes v'))%nat).
  { apply fs_ok_modify; [by apply set_entries_remove_ok|by rewrite length_set_entries|].
    by rewrite length_set_entries. }
  intros _ v5 Hv5 Hl5 Hx5. by apply drop_link_ok.
Qed.

Lemma rename_ok op on np nn v :
  vfs_wf v → (op < length (nodes v))%nat → (np < length (nodes v))%nat →
  fs_ok v any (Fs.rename op on np nn v).
Proof.
  intros Hv Ho Hn. unfold Fs.rename.
  eapply fs_ok_bind; [by apply query_entries_ok|]. intros es v1 Hv1 Hl1 (_ & _ & Hb).
  eapply (fs_ok_bind _ _ _ index_ok).
  { apply fs_ok_query; [done|]. destruct (bt_get es on) eqn:Hg; [|done]. by eapply entry_bound. }
  intros x v2 Hv2 Hl2 Hx. unfold index_ok in Hx.
  eapply fs_ok_bind; [apply query_entries_ok; [done|lia]|]. intros ne v3 Hv3 Hl3 (_ & _ & Hb3).
  eapply (fs_ok_bind _ _ _ any).
  { apply fs_ok_query; [done|]. destruct (bt_get ne nn) as [y|] eqn:Hg; [|done].
    destruct (node_at_ok v3 Hv3 y) as (ny & _ & -> & _); [by eapply entry_bound|]. cbn.
    destruct (kind ny); try done. by case_if. }
  intros _ v4 Hv4 Hl4 _.
  eapply fs_ok_bind; [apply query_entries_ok; [done|lia]|]. intros es5 v5 Hv5 Hl5 (_ & Hs5 & Hb5).
  eapply (fs_ok_bind _ _ _ any).
  { apply fs_ok_modify; [by apply set_entries_remove_ok|by rewrite length_set_entries|done]. }
  intros _ v6 Hv6 Hl6 _. rewrite ?length_set_entries in Hl6.
  eapply fs_ok_bind; [apply query_entries_ok; [done|lia]|]. intros es7 v7 Hv7 Hl7 (_ & Hs7 & Hb7).
  eapply (fs_ok_bind _ _ _ any).
  { apply fs_ok_modify; [apply set_entries_insert_ok; [done..|lia]|by rewrite length_set_entries|done]. }
  intros _ v8 Hv8 Hl8 _. rewrite ?length_set_entries in Hl8.
  eapply (fs_ok_bind _ _ _ any).
  { destruct (bt_get es7 nn) as [d|] eqn:Hg; [|by apply fs_ok_ret].
    case_if; [by apply fs_ok_ret|]. apply drop_link_ok; [done|].
    assert (d < length (nodes v7))%nat by (by eapply entry_bound). lia. }
  intros _ v9 Hv9 Hl9 _.
  eapply fs_ok_bind; [apply query_node_ok; [done|lia]|]. intros nd v10 Hv10 Hl10 [_ [_ Hw]].
  apply fs_ok_modify; [|by rewrite length_set_node|done].
  apply set_node_wf; [done|]. split; cbn; [lia|done].
Qed.

Lemma release_loop_wf len referenced todo l freed still :
  length l = len → Forall (node_wf len) l →
  length (Fs.release_loop referenced todo l freed still).1.1 = len ∧
  Forall (node_wf len) (Fs.release_loop referenced todo l freed still).1.1.
Proof.
  revert l freed still. induction todo as [|i todo IH]; intros l freed still Hl Hw; [done|].
  cbn. case_bool_decide; [by apply IH|]. destruct (l !! i) as [n|] eqn:Hi; [|by apply IH].
  apply IH; [by rewrite length_insert|]. apply Forall_insert; [done|].
  destruct (Forall_lookup_1 _ _ _ _ Hw Hi). done.
Qed.

Lemma release_unreferenced_wf referenced v :
  vfs_wf v → vfs_wf (Fs.release_unreferenced referenced v).1 ∧
  length (nodes (Fs.release_unreferenced referenced v).1) = length (nodes v).
Proof.
  intros [Hl Hw]. unfold Fs.release_unreferenced.
  destruct (release_loop_wf (length (nodes v)) referenced (unlinked v) (nodes v) 0 []) as [Hlen Hw'];
    [done..|]. destruct (Fs.release_loop _ _ _ _ _) as [[l f] st]. cbn in *.
  split; [split; cbn; rewrite Hlen; done|done].
Qed.

Lemma append_file_ok path b v : vfs_wf v → fs_ok v any (Fs.append_file path b v).
Proof.
  intros Hv. unfold Fs.append_file.
  eapply fs_ok_bind; [apply query_resolve_ok; eauto with rust|]. intros r v1 Hv1 Hl1 Hr.
  apply (resolved_wf_bounds v1 r Hv1) in Hr as [_ Hr].
  eapply (fs_ok_bind _ _ _ index_ok).
  { apply fs_ok_query; [done|]. destruct (r_node r); [|done]. by apply Hr. }
  intros x v2 Hv2 Hl2 Hx.
  eapply fs_ok_bind; [by apply query_node_ok|]. intros n v3 Hv3 Hl3 [Hn Hw].
  destruct (kind n) as [|data| | |]; try by apply fs_ok_fail.
  destruct (vec_try_reserve data (zlen b)); [|by apply fs_ok_fail].
  apply fs_ok_modify; [|by rewrite length_set_node|done].
  apply set_node_wf; [done|]. by apply with_kind_wf.
Qed.

Lemma read_chunked_range_ok v f off len :
  file_wf f → is_u64 off → 0 ≤ len ≤ usize_max →
  ∃ r, Fs.read_chunked_range v f off len = Ok r.
Proof.
  intros Hf Ho Hl. unfold Fs.read_chunked_range.
  destruct (read_range_cases (chunks v) f off len Hf Ho Hl) as [[_ ->]|(_ & r & -> & _)]; eauto.
Qed.

Lemma reserve_no_panic v g : Fs.reserve v g ≠ Panic.
Proof.
  unfold Fs.reserve. case_if; [done|]. destruct (storage_budget v); [|done]. by case_if.
Qed.

Lemma materialize_file_ok node v : vfs_wf v → fs_ok v any (Fs.materialize_file node v).
Proof.
  intros Hv. unfold Fs.materialize_file, sbind, query.
  destruct (nodes v !! node) as [n|] eqn:Hn; cbn; [|by apply fs_ok_fail].
  destruct (vfs_wf_node v node n Hv Hn) as [Hp Hk]. pose proof (lookup_lt_Some _ _ _ Hn) as Hlt.
  destruct (kind n) as [es|data|f| |] eqn:Ek; try by apply fs_ok_fail.
  { cbn. unfold node_at. rewrite Hn. cbn. rewrite Ek. by apply fs_ok_ret. }
  destruct (read_chunked_range_ok v f 0 usize_max Hk) as [r ->];
    [done|pose proof usize_max_bounds; unfold_widths; lia|].
  destruct r as [b|h|]; cbn; try by apply fs_ok_fail.
  pose proof (reserve_no_panic v (vcap b)).
  destruct (Fs.reserve v (vcap b)); [|by apply fs_ok_fail|done].
  unfold node_at. rewrite Hn. cbn. rewrite list_lookup_insert_eq by done. cbn.
  split; cbn; [apply set_node_wf; [done|by split]|]. by rewrite length_insert.
Qed.

Lemma put_chunk_ok h b v : vfs_wf v → fs_ok v any (Fs.put_chunk h b v).
Proof.
  intros Hv. unfold Fs.put_chunk. set (c := if Store.contains _ _ then _ else _).
  assert (c ≠ Panic) by (unfold c; case_if; [done|apply reserve_no_panic]).
  destruct c; [|by apply fs_ok_fail|done]. unfold Store.insert. case_if; [|by apply fs_ok_fail].
  destruct (bt_get _ _); split; done.
Qed.

Lemma take_file_contents_ok path v : vfs_wf v → fs_ok v any (Fs.take_file_contents path v).
Proof.
  intros Hv. unfold Fs.take_file_contents.
  destruct (resolve_cases v Hv ROOT path true) as [(r & -> & _ & _ & Hr)|[e ->]];
    [eauto with rust| |by apply fs_ok_ret].
  destruct (r_node r) as [i|]; [|by apply fs_ok_ret].
  destruct (node_at_ok v Hv i) as (n & -> & _ & Hw); [auto|].
  destruct (kind n); try by apply fs_ok_ret.
  split; cbn; [apply set_node_wf; [done|by apply with_kind_wf]|by rewrite length_insert].
Qed.

Lemma put_file_contents_ok path data v : vfs_wf v → fs_ok v any (Fs.put_file_contents path data v).
Proof.
  intros Hv. unfold Fs.put_file_contents.
  destruct (resolve_cases v Hv ROOT path true) as [(r & -> & _ & _ & Hr)|[e ->]];
    [eauto with rust| |by apply fs_ok_ret].
  destruct (r_node r) as [i|]; [|by apply fs_ok_ret]. cbn.
  destruct (node_at_ok v Hv i) as (n & -> & _ & Hw); [auto|]. cbn.
  destruct (kind n); try by apply fs_ok_ret.
  split; cbn; [apply set_node_wf; [done|by apply with_kind_wf]|by rewrite length_insert].
Qed.
End ops.
