(* ===== verification/FilesystemLinks.v ===== *)
(** Link counts, and the safety of reclaiming unlinked contents.

    [release_unreferenced] empties every node on the [unlinked] list that no
    descriptor refers to. That loses no data a path can still reach because
    every node carries at least as many links as there are directory entries
    naming it ([links_wf]), and only nodes with no link left are listed. *)

From S2P Require Import Prelude BTree Abi Digest Chunk Filesystem FilesystemInv.

(** * Counting references *)
Definition refs_in (i : nat) (k : NodeKind) : Z :=
  match k with
  | Dir entries => zlen (filter (λ e, e.2 = i) entries)
  | _ => 0
  end.
Fixpoint refs_of (l : list Node) (i : nat) : Z :=
  match l with
  | [] => 0
  | n :: l => refs_in i (kind n) + refs_of l i
  end.
Definition refs (v : Vfs) (i : nat) : Z := refs_of (nodes v) i.

Definition one (i j : nat) : Z := if decide (i = j) then 1 else 0.
Definition one_opt (o : option nat) (j : nat) : Z :=
  match o with Some i => one i j | None => 0 end.

Lemma refs_in_nonneg i k : 0 ≤ refs_in i k.
Proof. destruct k; cbn; auto using zlen_nonneg; lia. Qed.
Lemma refs_of_nonneg l i : 0 ≤ refs_of l i.
Proof. induction l as [|n l IH]; cbn [refs_of]; [lia|]. pose proof (refs_in_nonneg i (kind n)). lia. Qed.

Lemma refs_in_cons i e es : refs_in i (Dir (e :: es)) = one e.2 i + refs_in i (Dir es).
Proof.
  unfold refs_in, one. rewrite filter_cons. case_decide; [rewrite zlen_cons|]; lia.
Qed.

Lemma refs_in_insert i es k x :
  bt_sorted es →
  refs_in i (Dir (bt_insert es k x)) = refs_in i (Dir es) + one x i - one_opt (bt_get es k) i.
Proof.
  induction es as [|[k' x'] es IH]; cbn [bt_insert bt_get bt_sorted].
  { rewrite refs_in_cons. cbn [snd one_opt]. lia. }
  intros [Hk Hs]. destruct (kcmp k k') eqn:E; rewrite !refs_in_cons; cbn [snd one_opt].
  - lia.
  - rewrite bt_get_below; [cbn; lia|]. eapply Forall_impl; [eassumption|]. intros e He. by eapply klt_trans.
  - rewrite IH by done. lia.
Qed.

Lemma bt_remove_absent (es : btree bytes nat) k : bt_get es k = None → bt_remove es k = es.
Proof.
  induction es as [|[k' x'] es IH]; cbn [bt_get bt_remove]; [done|].
  destruct (kcmp k k') eqn:E; [done|..]; intros Hg; by rewrite (IH Hg).
Qed.

Lemma refs_in_remove i es k :
  bt_sorted es →
  refs_in i (Dir (bt_remove es k)) = refs_in i (Dir es) - one_opt (bt_get es k) i.
Proof.
  induction es as [|[k' x'] es IH]; cbn [bt_remove bt_get bt_sorted]; [cbn; lia|].
  intros [Hk Hs]. destruct (kcmp k k') eqn:E; rewrite !refs_in_cons; cbn [snd one_opt].
  - apply kcmp_eq in E as ->. rewrite bt_remove_absent; [lia|].
    apply bt_get_None. intros (e & -> & He)%list_elem_of_fmap.
    rewrite Forall_forall in Hk. by eapply klt_irrefl, (Hk e).
  - rewrite IH by done. lia.
  - rewrite IH by done. lia.
Qed.

Lemma refs_of_app l1 l2 i : refs_of (l1 ++ l2) i = refs_of l1 i + refs_of l2 i.
Proof. induction l1 as [|n l1 IH]; cbn [refs_of app]; [done|]. lia. Qed.

Lemma refs_of_insert l p n n' i :
  l !! p = Some n →
  refs_of (<[p := n']> l) i = refs_of l i - refs_in i (kind n) + refs_in i (kind n').
Proof.
  revert p. induction l as [|m l IH]; intros [|p] Hp; try done; cbn in Hp; simplify_eq.
  - change (<[0%nat := n']> (n :: l)) with (n' :: l). cbn [refs_of]. lia.
  - change (<[S p := n']> (m :: l)) with (m :: <[p := n']> l). cbn [refs_of].
    rewrite (IH p) by done. lia.
Qed.

Lemma refs_of_bound len l i :
  Forall (λ n, match kind n with Dir es => Forall (λ e, (e.2 < len)%nat) es | _ => True end) l →
  (len ≤ i)%nat → refs_of l i = 0.
Proof.
  intros Hall Hi. induction Hall as [|n l Hn _ IH]; cbn [refs_of]; [done|]. rewrite IH.
  assert (refs_in i (kind n) = 0); [|lia]. destruct (kind n); cbn; try done.
  induction Hn as [|e es He _ IHes]; [done|]. rewrite filter_cons.
  rewrite decide_False by lia. exact IHes.
Qed.

Lemma lookup_entry_refs v p nm i : lookup_entry v p nm = Some i → 1 ≤ refs v i.
Proof.
  unfold lookup_entry, refs. destruct (nodes v !! p) as [n|] eqn:Hn; [|done].
  destruct (kind n) as [es| | | |] eqn:Hk; try done. intros Hg%bt_get_In.
  apply list_elem_of_split_length in Hn as (l1 & l2 & -> & _).
  rewrite refs_of_app. cbn [refs_of].
  pose proof (refs_of_nonneg l1 i). pose proof (refs_of_nonneg l2 i).
  assert (1 ≤ refs_in i (kind n)); [|lia]. rewrite Hk. cbn. unfold zlen.
  assert ((nm, i) ∈ filter (λ e : bytes * nat, e.2 = i) es) as Hin by (by apply list_elem_of_filter).
  destruct (filter _ es); [set_solver|cbn; lia].
Qed.

(** * Accounting with a debt

    [links v δ]: every node has links for its entries and [δ] more. An
    operation moves entries and counts one step at a time, so in between the
    two sides differ by a known amount. *)
Definition links (v : Vfs) (δ : nat → Z) : Prop :=
  ∀ i n, nodes v !! i = Some n → refs v i + δ i ≤ nlink n.
Definition unlinked_dead (v : Vfs) : Prop :=
  ∀ i, i ∈ unlinked v → ∃ n, nodes v !! i = Some n ∧ nlink n = 0.
Definition links_wf (v : Vfs) : Prop := links v (λ _, 0) ∧ unlinked_dead v.

Section debts.
Context `{Host}.

Lemma links_weaken v δ δ' : (∀ i, δ' i ≤ δ i) → links v δ → links v δ'.
Proof. intros Hle Hl i n Hn. specialize (Hl i n Hn). specialize (Hle i). lia. Qed.

Lemma refs_set_node v p n n' i :
  nodes v !! p = Some n →
  refs (set_node v p n') i = refs v i - refs_in i (kind n) + refs_in i (kind n').
Proof. intros. by apply refs_of_insert. Qed.

Lemma set_entries_links v p n es es' δ :
  nodes v !! p = Some n → kind n = Dir es → links v δ →
  links (set_entries v p es') (λ i, δ i + refs_in i (Dir es) - refs_in i (Dir es')).
Proof.
  intros Hn Hk Hl i m. unfold set_entries. rewrite Hn. cbn [set_node set_nodes nodes].
  intros Hm. rewrite (refs_set_node _ _ n) by done. rewrite Hk. cbn [with_kind kind].
  destruct (decide (p = i)) as [<-|Hne].
  - rewrite list_lookup_insert_eq in Hm by (by eapply lookup_lt_Some). simplify_eq.
    specialize (Hl p n Hn). cbn. lia.
  - rewrite list_lookup_insert_ne in Hm by done. specialize (Hl i m Hm). lia.
Qed.

Lemma insert_links v p n es nm x δ :
  nodes v !! p = Some n → kind n = Dir es → bt_sorted es → links v δ →
  links (set_entries v p (bt_insert es nm x))
    (λ i, δ i - one x i + one_opt (bt_get es nm) i).
Proof.
  intros Hn Hk Hs Hl. eapply links_weaken; [|by eapply set_entries_links].
  intros i. cbv beta. rewrite refs_in_insert by done. lia.
Qed.

Lemma remove_links v p n es nm δ :
  nodes v !! p = Some n → kind n = Dir es → bt_sorted es → links v δ →
  links (set_entries v p (bt_remove es nm)) (λ i, δ i + one_opt (bt_get es nm) i).
Proof.
  intros Hn Hk Hs Hl. eapply links_weaken; [|by eapply set_entries_links].
  intros i. cbv beta. rewrite refs_in_remove by done. lia.
Qed.

(** Replacing a count. *)
Lemma with_nlink_links v d n c δ :
  nodes v !! d = Some n → links v δ →
  links (set_node v d (with_nlink n c)) (λ i, δ i + one d i * (c - nlink n)).
Proof.
  intros Hn Hl i m Hm. rewrite (refs_set_node _ _ n) by done. cbn [with_nlink kind].
  unfold one. cbn [set_node set_nodes nodes] in Hm. destruct (decide (d = i)) as [<-|Hne].
  - rewrite list_lookup_insert_eq in Hm by (by eapply lookup_lt_Some). simplify_eq.
    specialize (Hl d n Hn). cbn. lia.
  - rewrite list_lookup_insert_ne in Hm by done. specialize (Hl i m Hm). lia.
Qed.

Lemma drop_link_links v d δ :
  links v δ → unlinked_dead v →
  links (Fs.drop_link d v).1 (λ i, δ i - one d i) ∧ unlinked_dead (Fs.drop_link d v).1.
Proof.
  intros Hl Hd. unfold Fs.drop_link. destruct (nodes v !! d) as [n|] eqn:Hn; cbn [fst].
  2:{ split; [|done]. eapply links_weaken; [|exact Hl]. intros i. cbv beta. unfold one.
      case_decide; lia. }
  set (c := saturating_sub (nlink n) 1). set (v1 := set_node v d (with_nlink n c)).
  assert (Hl1 : links v1 (λ i, δ i - one d i)).
  { eapply links_weaken; [|by apply (with_nlink_links v d n c δ)]. intros i. cbv beta.
    unfold one, c, saturating_sub. case_decide; lia. }
  assert (Hget : nodes v1 !! d = Some (with_nlink n c))
    by (apply list_lookup_insert_eq; by eapply lookup_lt_Some).
  assert (Hd1 : unlinked_dead v1).
  { intros i Hi. destruct (Hd i Hi) as (m & Hm & Hz). destruct (decide (d = i)) as [<-|Hne].
    - eexists. split; [exact Hget|]. cbn. unfold c, saturating_sub. simplify_eq. lia.
    - exists m. cbn. by rewrite list_lookup_insert_ne. }
  case_if; [|done]. split; [done|]. intros i. cbn [set_unlinked unlinked nodes].
  rewrite elem_of_app, list_elem_of_singleton. intros [Hi|Hi]; [by apply Hd1|]. subst i.
  bool_to_prop. eauto.
Qed.

Lemma alloc_links v n δ :
  vfs_wf v → (∀ i, refs_in i (kind n) = 0) → δ (length (nodes v)) ≤ nlink n → links v δ →
  links (alloc v n).1 δ.
Proof.
  intros [_ Hw] Hk Hd Hl i m. cbn. unfold refs. cbn. rewrite refs_of_app. cbn [refs_of].
  rewrite Hk. intros [Hm|[Hge Hm]]%lookup_app_Some.
  - specialize (Hl i m Hm). unfold refs in Hl. lia.
  - apply list_lookup_singleton_Some in Hm as [Hi <-].
    rewrite (refs_of_bound (length (nodes v))); [|clear - Hw|lia].
    + replace i with (length (nodes v)) by lia. lia.
    + eapply Forall_impl; [exact Hw|]. intros x [_ Hx]. destruct (kind x); naive_solver.
Qed.

Lemma alloc_dead v n : unlinked_dead v → unlinked_dead (alloc v n).1.
Proof.
  intros Hd i Hi. destruct (Hd i Hi) as (m & Hm & ?). exists m. cbn. split; [|done].
  by apply lookup_app_l_Some.
Qed.

(** Rewriting a node that keeps its count. *)
Lemma set_node_dead v p n n' :
  nodes v !! p = Some n → nlink n' = nlink n → unlinked_dead v → unlinked_dead (set_node v p n').
Proof.
  intros Hn He Hd i Hi. destruct (Hd i Hi) as (m & Hm & ?). cbn.
  destruct (decide (p = i)) as [<-|Hne].
  - exists n'. rewrite list_lookup_insert_eq by (by eapply lookup_lt_Some). split; [done|].
    simplify_eq. lia.
  - exists m. by rewrite list_lookup_insert_ne.
Qed.

Lemma set_node_links v p n n' δ :
  nodes v !! p = Some n → nlink n' = nlink n →
  (∀ i, refs_in i (kind n') ≤ refs_in i (kind n)) → links v δ → links (set_node v p n') δ.
Proof.
  intros Hn He Hr Hl i m Hm. rewrite (refs_set_node _ _ n) by done. specialize (Hr i).
  cbn in Hm. destruct (decide (p = i)) as [<-|Hne].
  - rewrite list_lookup_insert_eq in Hm by (by eapply lookup_lt_Some). simplify_eq.
    specialize (Hl p n Hn). lia.
  - rewrite list_lookup_insert_ne in Hm by done. specialize (Hl i m Hm). lia.
Qed.

Lemma set_entries_dead v p es : unlinked_dead v → unlinked_dead (set_entries v p es).
Proof.
  intros Hd. unfold set_entries. destruct (nodes v !! p) as [n|] eqn:Hn; [|done].
  by eapply set_node_dead.
Qed.
End debts.

(** * Every operation keeps the counts *)
Section keep.
Context `{Host}.

Definition empty_kind (k : NodeKind) : Prop :=
  match k with Dir es => es = [] | Chunked f => file_wf f | _ => True end.

Lemma empty_kind_ok k len : empty_kind k → kind_ok len k.
Proof. destruct k; cbn; try done. intros ->. done. Qed.
Lemma empty_kind_refs k i : empty_kind k → refs_in i k = 0.
Proof. destruct k; cbn; try done. by intros ->. Qed.
Lemma new_nlink_pos k : 1 ≤ new_nlink k.
Proof. unfold new_nlink. case_if; lia. Qed.

(** Allocating a node and naming it: the node displaced, if any, is owed the
    link it had under that name. *)
Lemma alloc_insert_links v nd p n es nm :
  vfs_wf v → links_wf v → (∀ i, refs_in i (kind nd) = 0) → 1 ≤ nlink nd →
  nodes (alloc v nd).1 !! p = Some n → kind n = Dir es → bt_sorted es →
  let v' := set_entries (alloc v nd).1 p (bt_insert es nm (length (nodes v))) in
  links v' (one_opt (bt_get es nm)) ∧ unlinked_dead v'.
Proof.
  intros Hv [Hl Hd] Hr Hn Hp Hk Hs. split; [|by apply set_entries_dead, alloc_dead].
  eapply links_weaken; [|eapply (insert_links _ p n es nm _ (one (length (nodes v)))); try done].
  - intros i. cbv beta. lia.
  - apply alloc_links; [done..| |].
    + unfold one. by rewrite decide_True.
    + intros i m Hm. specialize (Hl i m Hm). unfold one. rewrite decide_False; [done|].
      intros <-. apply lookup_lt_Some in Hm. lia.
Qed.

Lemma one_opt_nonneg o i : 0 ≤ one_opt o i.
Proof. destruct o; cbn; [|lia]. unfold one. case_decide; lia. Qed.

Lemma links_wf_slack v δ : (∀ i, 0 ≤ δ i) → links v δ → unlinked_dead v → links_wf v.
Proof. intros. split; [|done]. by eapply links_weaken. Qed.

Lemma mkdir_loop_links cs v cur :
  vfs_wf v → links_wf v → (cur < length (nodes v))%nat → links_wf (Fs.mkdir_loop cs cur v).1.
Proof.
  revert v cur. induction cs as [|c cs IH]; intros v cur Hv Hl Hcur; cbn [Fs.mkdir_loop]; [done|].
  case_bool_decide as Hdd; unfold sbind, query.
  { destruct (node_at_ok v Hv cur Hcur) as (n & Hn & -> & [? _]). auto. }
  destruct (dir_entries_ok v Hv cur Hcur) as [(n & es & -> & Hn & Hk & Hs & Hb)|(n & -> & _)]; [|done].
  destruct (bt_get es c) as [x|] eqn:Hg.
  - assert (x < length (nodes v))%nat by (by eapply entry_bound).
    destruct (is_dir_ok v Hv x) as (nx & _ & ->); [done|]. case_if; [by apply IH|done].
  - set (nd := {| kind := Dir [] |}). cbn [Fs.alloc_node alloc]. unfold Fs.alloc_node.
    change (set_nodes v (nodes v ++ [nd])) with (alloc v nd).1.
    assert (Hv2 : vfs_wf (alloc v nd).1) by (apply alloc_wf; [done|split; cbn; [lia|done]]).
    assert (Hlen : length (nodes (alloc v nd).1) = S (length (nodes v)))
      by (cbn; rewrite length_app; cbn; lia).
    destruct (dir_entries_ok _ Hv2 cur) as [(n2 & es2 & E2 & Hn2 & Hk2 & Hs2 & Hb2)|(n2 & E2 & _)];
      [lia| |].
    + destruct (alloc_insert_links v nd cur n2 es2 c) as [Hl3 Hd3]; try done.
      unfold alloc in *. cbn [fst] in *. rewrite E2. cbn [modify].
      apply IH.
      * apply set_entries_insert_ok; [done..|lia].
      * eapply links_wf_slack; [|done..]. intros. apply one_opt_nonneg.
      * rewrite length_set_entries. lia.
    + unfold alloc in *. cbn [fst] in *. rewrite E2. cbn [fst].
      split; [apply (alloc_links v nd (λ _, 0)); try done; apply Hl|apply (alloc_dead v nd), Hl].
Qed.

Lemma keep_bind {A B} v (m : stm Vfs Z A) (k : A → stm Vfs Z B) R :
  fs_ok v R (m v) → links_wf (m v).1 →
  (∀ a v', vfs_wf v' → links_wf v' → (length (nodes v) ≤ length (nodes v'))%nat → R a v' →
     links_wf (k a v').1) →
  links_wf (sbind m k v).1.
Proof.
  unfold sbind. intros (Hw & Hlen & Hr) Hl Hk.
  destruct (m v) as [v' [a|e|]]; cbn in *; auto.
Qed.

Lemma add_node_links path k md v :
  vfs_wf v → links_wf v → empty_kind k → links_wf (Fs.add_node path k md v).1.
Proof.
  intros Hv Hl Hk. unfold Fs.add_node. destruct (occupied_ok v path Hv) as [b Hb].
  eapply (keep_bind _ _ _ any); [|done|].
  { apply fs_ok_query; [done|]. destruct (is_dir_kind k); [done|by rewrite Hb]. }
  intros [] v1 Hv1 Hl1 _ _; [done|].
  eapply keep_bind; [by apply mkdir_p_ok|apply mkdir_loop_links; eauto with rust|].
  intros _ v2 Hv2 Hl2 _ _.
  eapply keep_bind; [apply query_resolve_ok; eauto with rust|done|]. intros r v3 Hv3 Hl3 _ Hr.
  apply (resolved_wf_bounds v3 r Hv3) in Hr as [Hr _].
  set (nd := {| kind := k; mode := md; nlink := new_nlink k; mtime_sec := 0;
                n_parent := r_parent r |}).
  unfold sbind, query, Fs.alloc_node. cbn [alloc]. change (set_nodes v3 _) with (alloc v3 nd).1.
  assert (Hv4 : vfs_wf (alloc v3 nd).1)
    by (apply alloc_wf; [done|split; cbn; [lia|by apply empty_kind_ok]]).
  destruct (dir_entries_ok _ Hv4 (r_parent r)) as [(n4 & es & -> & Hn4 & Hk4 & Hs4 & Hb4)|(n4 & -> & _)];
    [cbn; rewrite length_app; lia| |].
  - destruct (alloc_insert_links v3 nd (r_parent r) n4 es (r_name r) Hv3 Hl3) as [Hl5 Hd5]; try done.
    { intros. by apply empty_kind_refs. }
    { apply new_nlink_pos. }
    cbn [modify]. destruct (bt_get es (r_name r)) as [d|]; [|by split].
    apply (drop_link_links _ d) in Hl5 as [Hl6 Hd6]; [|done].
    destruct (Fs.drop_link d _) as [v6 [?|?|]]; cbn in *;
      (split; [|done]); (eapply links_weaken; [|exact Hl6]); intros i; cbv beta; lia.
  - split; [apply alloc_links|apply alloc_dead]; try done; try apply Hl3.
    + intros. by apply empty_kind_refs.
    + cbn. pose proof (new_nlink_pos k). lia.
Qed.

Lemma create_links parent name k md v :
  vfs_wf v → links_wf v → (parent < length (nodes v))%nat → empty_kind k →
  links_wf (Fs.create parent name k md v).1.
Proof.
  intros Hv Hl Hp Hk. unfold Fs.create. case_if; [done|].
  eapply (keep_bind _ _ _ (λ _ v', parent < length (nodes v'))%nat); [|done|].
  { apply fs_ok_query; [done|]. pose proof (reserve_no_panic v (data_len k)).
    by destruct (Fs.reserve v (data_len k)). }
  intros _ v1 Hv1 Hl1 _ Hp1.
  set (nd := {| kind := k; mode := md; nlink := new_nlink k; mtime_sec := 0; n_parent := parent |}).
  unfold sbind, query, Fs.alloc_node. cbn [alloc]. change (set_nodes v1 _) with (alloc v1 nd).1.
  assert (Hv2 : vfs_wf (alloc v1 nd).1)
    by (apply alloc_wf; [done|split; cbn; [lia|by apply empty_kind_ok]]).
  assert (Hl2 : links_wf (alloc v1 nd).1).
  { split; [apply alloc_links|apply alloc_dead]; try done; try apply Hl1.
    - intros. by apply empty_kind_refs.
    - cbn. pose proof (new_nlink_pos k). lia. }
  destruct (dir_entries_ok _ Hv2 parent) as [(n2 & es & -> & Hn2 & Hk2 & Hs2 & Hb2)|(n2 & -> & _)];
    [cbn; rewrite length_app; lia| |done].
  case_if; [done|]. cbn [modify sret fst].
  destruct (alloc_insert_links v1 nd parent n2 es name Hv1 Hl1) as [Hl5 Hd5]; try done.
  - intros. by apply empty_kind_refs.
  - apply new_nlink_pos.
  - eapply links_wf_slack; [|done..]. intros. apply one_opt_nonneg.
Qed.

Lemma nlink_set_entries v p es i n :
  nodes (set_entries v p es) !! i = Some n →
  ∃ m, nodes v !! i = Some m ∧ nlink m = nlink n.
Proof.
  unfold set_entries. destruct (nodes v !! p) as [m|] eqn:Hm; [|eauto]. cbn.
  destruct (decide (p = i)) as [<-|]; [|rewrite list_lookup_insert_ne by done; eauto].
  rewrite list_lookup_insert_eq by (by eapply lookup_lt_Some). intros [= <-]. eauto.
Qed.

(** A node some entry names has a link, so it is not waiting to be emptied. *)
Lemma named_not_dead v p nm i :
  links_wf v → lookup_entry v p nm = Some i → i ∉ unlinked v.
Proof.
  intros [Hl Hd] He%lookup_entry_refs Hi. destruct (Hd i Hi) as (n & Hn & Hz).
  specialize (Hl i n Hn). cbn in Hl. lia.
Qed.

Lemma unlinked_set_entries v p es : unlinked (set_entries v p es) = unlinked v.
Proof. unfold set_entries. by destruct (nodes v !! p). Qed.

Lemma link_links parent name node v p nm n :
  vfs_wf v → links_wf v → (parent < length (nodes v))%nat →
  lookup_entry v p nm = Some node → nodes v !! node = Some n → nlink n < U64_MAX →
  links_wf (Fs.link parent name node v).1.
Proof.
  intros Hv Hl Hp Hnm Hn Hmax. pose proof (named_not_dead v p nm node Hl Hnm) as Hnd.
  unfold Fs.link, sbind, query.
  destruct (dir_entries_ok v Hv parent Hp) as [(m & es & -> & Hm & Hk & Hs & Hb)|(m & -> & _)]; [|done].
  case_if; [done|]. cbn [modify]. set (v1 := set_entries v parent _). destruct Hl as [Hl Hd].
  assert (Hl1 : links v1 (λ i, 0 - one node i)).
  { eapply links_weaken; [|by apply (insert_links v parent m es name node (λ _, 0))].
    intros i. cbv beta. pose proof (one_opt_nonneg (bt_get es name) i). lia. }
  assert (Hd1 : unlinked_dead v1) by (by apply set_entries_dead).
  assert (Hlt : (node < length (nodes v1))%nat)
    by (unfold v1; rewrite length_set_entries; by eapply lookup_lt_Some).
  destruct (lookup_lt_is_Some_2 _ _ Hlt) as [n1 Hn1].
  destruct (nlink_set_entries _ _ _ _ _ Hn1) as (n0 & Hn0 & He).
  assert (n0 = n) as -> by congruence.
  unfold node_at. rewrite Hn1. cbn. unfold add64. rewrite (proj2 (Z.leb_le _ _)) by lia. cbn. split.
  - eapply links_weaken; [|by apply (with_nlink_links v1 node n1)]. intros i. cbv beta. lia.
  - intros i Hi. cbn in Hi. unfold v1 in Hi. rewrite unlinked_set_entries in Hi.
    destruct (Hd1 i) as (x & Hx & Hz); [unfold v1; by rewrite unlinked_set_entries|].
    exists x. cbn. rewrite list_lookup_insert_ne; [done|]. intros <-. done.
Qed.

(** Errors and panics leave the tree as it was; success removes the entry
    and takes its link away. *)
Lemma unlink_links parent name rmdir v :
  vfs_wf v → links_wf v → (parent < length (nodes v))%nat →
  links_wf (Fs.unlink parent name rmdir v).1.
Proof.
  intros Hv Hl Hp. unfold Fs.unlink, sbind, query.
  destruct (dir_entries_ok v Hv parent Hp) as [(m & es & -> & Hm & Hk & Hs & Hb)|(m & -> & _)]; [|done].
  destruct (bt_get es name) as [x|] eqn:Hg; cbn [ok_or]; [|done].
  destruct (node_at v x) as [n| |]; [|done..].
  destruct (match kind n with Dir _ => _ | _ => _ end) as [?| |]; [|done..]. cbn [modify].
  destruct Hl as [Hl Hd].
  destruct (drop_link_links (set_entries v parent (bt_remove es name)) x (λ i, 0 + one_opt (bt_get es name) i))
    as [Hl' Hd']; [by eapply remove_links|by apply set_entries_dead|].
  split; [|done]. eapply links_weaken; [|exact Hl']. intros i. cbv beta. rewrite Hg. cbn. lia.
Qed.

Lemma with_parent_links v i n p :
  nodes v !! i = Some n → links_wf v → links_wf (set_node v i (with_parent n p)).
Proof.
  intros Hn [Hl Hd]. split; [by eapply set_node_links|by eapply set_node_dead].
Qed.

Lemma rename_links op on np nn v :
  vfs_wf v → links_wf v → (op < length (nodes v))%nat → (np < length (nodes v))%nat →
  links_wf (Fs.rename op on np nn v).1.
Proof.
  intros Hv Hl Ho Hnp. unfold Fs.rename, sbind, query.
  destruct (dir_entries_ok v Hv op Ho) as [(m & es & Ees & Hm & Hk & Hs & Hb)|(m & -> & _)]; [|done].
  rewrite Ees. destruct (bt_get es on) as [x|] eqn:Hg; cbn [ok_or]; [|done].
  destruct (dir_entries v np) as [ne| |]; [|done..].
  destruct (match bt_get ne nn with Some _ => _ | None => _ end) as [?| |]; [|done..].
  cbn [modify]. set (v1 := set_entries v op (bt_remove es on)). destruct Hl as [Hl Hd].
  assert (Hv1 : vfs_wf v1) by (by apply set_entries_remove_ok).
  assert (Hd1 : unlinked_dead v1) by (by apply set_entries_dead).
  assert (Hl1 : links v1 (one x)).
  { eapply links_weaken; [|by apply (remove_links v op m es on (λ _, 0))].
    intros i. rewrite Hg. cbn. lia. }
  assert (Hlen : length (nodes v1) = length (nodes v)) by apply length_set_entries.
  assert (Hx : (x < length (nodes v1))%nat) by (rewrite Hlen; by eapply entry_bound).
  destruct (dir_entries_ok v1 Hv1 np) as [(m2 & es2 & -> & Hm2 & Hk2 & Hs2 & Hb2)|(m2 & -> & _)];
    [lia| |by eapply (links_wf_slack _ _ (one_opt_nonneg (Some x)))].
  set (v2 := set_entries v1 np (bt_insert es2 nn x)).
  assert (Hl2 : links v2 (one_opt (bt_get es2 nn))).
  { eapply links_weaken; [|by apply (insert_links v1 np m2 es2 nn x (one x))].
    intros i. cbv beta. lia. }
  assert (Hd2 : unlinked_dead v2) by (by apply set_entries_dead).
  assert (Hfin : ∀ w, links_wf w →
    links_wf (match node_at w x with
              | Ok a => modify (λ v, set_node v x (with_parent a np)) w
              | Err e => (w, Err e) | Panic => (w, Panic) end).1).
  { intros w Hw. unfold node_at. destruct (nodes w !! x) eqn:E; [|done]. by apply with_parent_links. }
  assert (Hkeep : links_wf v2) by (eapply links_wf_slack; [apply one_opt_nonneg|done..]).
  destruct (bt_get es2 nn) as [d|] eqn:Hg2; [|by apply Hfin].
  case_if; [by apply Hfin|].
  destruct (drop_link_links v2 d _ Hl2 Hd2) as [Hl3 Hd3].
  destruct (Fs.drop_link d v2) as [v3 [?|?|]] eqn:E3; cbn [fst] in *;
    try apply Hfin; (split; [|done]); (eapply links_weaken; [|exact Hl3]); intros i; cbn; lia.
Qed.

(** Replacing the contents of a regular file. *)
Lemma with_file_links v i n data :
  nodes v !! i = Some n → links_wf v → links_wf (set_node v i (with_kind n (File data))).
Proof.
  intros Hn [Hl Hd]. split; [|by eapply set_node_dead].
  eapply set_node_links; [done..| |done]. intros j. apply refs_in_nonneg.
Qed.

Lemma append_file_links path b v : vfs_wf v → links_wf v → links_wf (Fs.append_file path b v).1.
Proof.
  intros Hv Hl. unfold Fs.append_file, sbind, query.
  destruct (resolve v ROOT path true) as [r| |]; [|done..].
  destruct (r_node r) as [i|]; cbn; [|done]. unfold node_at.
  destruct (nodes v !! i) as [n|] eqn:Hn; cbn; [|done]. destruct (kind n); try done.
  destruct (vec_try_reserve data (zlen b)); [by apply with_file_links|done].
Qed.

Lemma materialize_file_links node v : links_wf v → links_wf (Fs.materialize_file node v).1.
Proof.
  intros Hl. unfold Fs.materialize_file, sbind, query.
  destruct (nodes v !! node) as [n|] eqn:Hn; cbn; [|done].
  destruct (kind n) as [|?|f| |] eqn:Ek; try done.
  destruct (Fs.read_chunked_range v f 0 usize_max) as [[b|h|]| |]; cbn; try done.
  destruct (Fs.reserve v (vcap b)); [|done..]. unfold node_at. rewrite Hn. cbn.
  by apply with_file_links.
Qed.

Lemma put_chunk_links h b v : links_wf v → links_wf (Fs.put_chunk h b v).1.
Proof.
  intros Hl. unfold Fs.put_chunk. destruct (if Store.contains _ _ then _ else _); [|done..].
  by destruct (Store.insert _ _ _).
Qed.

Lemma take_file_contents_links path v : links_wf v → links_wf (Fs.take_file_contents path v).1.
Proof.
  intros Hl. unfold Fs.take_file_contents.
  destruct (resolve v ROOT path true) as [r| |]; [|done..].
  destruct (r_node r) as [i|]; [|done]. destruct (nodes v !! i) as [n|] eqn:Hn; [|done].
  destruct (kind n); try done. by apply with_file_links.
Qed.

Lemma put_file_contents_links path data v :
  links_wf v → links_wf (Fs.put_file_contents path data v).1.
Proof.
  intros Hl. unfold Fs.put_file_contents.
  destruct (resolve v ROOT path true) as [r| |]; [|done..].
  destruct (r_node r) as [i|]; [|done]. cbn. destruct (nodes v !! i) as [n|] eqn:Hn; [|done]. cbn.
  destruct (kind n); try done. by apply with_file_links.
Qed.
End keep.

(** * Reclaiming *)
Definition emptied (n : Node) : Node := with_kind n (File vec_new).

Lemma node_bytes_insert l i n n' :
  l !! i = Some n →
  Fs.node_bytes (<[i := n']> l) = Fs.node_bytes l - data_len (kind n) + data_len (kind n').
Proof.
  unfold Fs.node_bytes. revert i. induction l as [|m l IH]; intros [|i] Hi; try done; cbn in Hi; simplify_eq.
  - cbn. lia.
  - change (<[S i := n']> (m :: l)) with (m :: <[i := n']> l). cbn [foldr]. rewrite (IH i) by done. lia.
Qed.

Lemma release_loop_spec referenced todo l freed still :
  let '(l', freed', still') := Fs.release_loop referenced todo l freed still in
  (∀ i, l' !! i = if decide (i ∈ todo ∧ i ∉ referenced) then emptied <$> l !! i else l !! i) ∧
  freed' + Fs.node_bytes l' = freed + Fs.node_bytes l ∧
  still' = still ++ filter (.∈ referenced) todo.
Proof.
  revert l freed still. induction todo as [|x todo IH]; intros l freed still; cbn [Fs.release_loop].
  { split_and!; [|done|by rewrite app_nil_r]. intros i. rewrite decide_False; [done|set_solver]. }
  rewrite filter_cons. case_bool_decide as Hx.
  { rewrite decide_True by done. specialize (IH l freed (still ++ [x])).
    destruct (Fs.release_loop _ _ _ _ _) as [[l' f'] s'].
    destruct IH as (Hl & Hf & Hs). split_and!; [|done|by rewrite Hs, <- app_assoc].
    intros i. rewrite Hl. do 2 case_decide; set_solver. }
  rewrite decide_False by done. destruct (l !! x) as [n|] eqn:Hn.
  - specialize (IH (<[x := emptied n]> l) (freed + data_len (kind n)) still). fold (emptied n).
    destruct (Fs.release_loop _ _ _ _ _) as [[l' f'] s'].
    destruct IH as (Hl & Hf & Hs). split_and!; [|rewrite Hf, (node_bytes_insert l x n) by done; cbn; lia|done].
    intros i. rewrite Hl. destruct (decide (x = i)) as [<-|Hne].
    + rewrite list_lookup_insert_eq by (by eapply lookup_lt_Some). rewrite Hn.
      rewrite (decide_True (P := x ∈ x :: todo ∧ _)) by set_solver. by case_decide.
    + rewrite list_lookup_insert_ne by done. do 2 case_decide; set_solver.
  - specialize (IH l freed still). destruct (Fs.release_loop _ _ _ _ _) as [[l' f'] s'].
    destruct IH as (Hl & Hf & Hs). split_and!; [|done..].
    intros i. rewrite Hl. destruct (decide (x = i)) as [<-|Hne]; [|do 2 case_decide; set_solver].
    rewrite Hn. by do 2 case_decide.
Qed.

Lemma release_unreferenced_spec referenced v :
  let '(v', freed) := Fs.release_unreferenced referenced v in
  (∀ i, nodes v' !! i =
     if decide (i ∈ unlinked v ∧ i ∉ referenced) then emptied <$> nodes v !! i else nodes v !! i) ∧
  freed + Fs.node_bytes (nodes v') = Fs.node_bytes (nodes v) ∧
  unlinked v' = filter (.∈ referenced) (unlinked v).
Proof.
  unfold Fs.release_unreferenced.
  pose proof (release_loop_spec referenced (unlinked v) (nodes v) 0 []) as Hr.
  destruct (Fs.release_loop _ _ _ _ _) as [[l' f'] s']. destruct Hr as (Hl & Hf & Hs).
  cbn [nodes unlinked set_nodes set_unlinked]. split_and!; [done|lia|done].
Qed.

Lemma refs_of_le l l' :
  length l = length l' →
  (∀ i n n', l !! i = Some n → l' !! i = Some n' → n' = n ∨ n' = emptied n) →
  ∀ j, refs_of l' j ≤ refs_of l j.
Proof.
  revert l'. induction l as [|n l IH]; intros [|n' l'] Hlen Hr j; try done.
  cbn [refs_of]. specialize (IH l' ltac:(cbn in Hlen; lia) (λ i, Hr (S i)) j).
  destruct (Hr 0%nat n n') as [->| ->]; [done..|lia|]. cbn. pose proof (refs_in_nonneg j (kind n)). lia.
Qed.

Lemma release_unreferenced_links referenced v :
  links_wf v → links_wf (Fs.release_unreferenced referenced v).1.
Proof.
  intros [Hl Hd]. pose proof (release_unreferenced_spec referenced v) as Hr.
  destruct (Fs.release_unreferenced referenced v) as [v' freed]. destruct Hr as (Hn & _ & Hu). cbn.
  assert (Hback : ∀ i n', nodes v' !! i = Some n' →
    ∃ n, nodes v !! i = Some n ∧ (n' = n ∨ n' = emptied n)).
  { intros i n'. rewrite Hn. case_decide; [|eauto]. intros (n & -> & ?)%fmap_Some. eauto. }
  split.
  - intros i n' Hi. destruct (Hback i n' Hi) as (n & Hn0 & Hor).
    assert (nlink n' = nlink n) as -> by (by destruct Hor as [-> | ->]).
    assert (refs v' i ≤ refs v i); [|specialize (Hl i n Hn0); cbv beta in *; lia].
    apply refs_of_le.
    + apply Nat.le_antisymm; apply Nat.nlt_ge; intros Hlt;
        apply lookup_lt_is_Some_2 in Hlt as [x Hx].
      * specialize (Hn (length (nodes v'))). rewrite Hx, lookup_ge_None_2 in Hn by done. by case_decide.
      * specialize (Hn (length (nodes v))). rewrite Hx, lookup_ge_None_2 in Hn by done. by case_decide.
    + intros k m m' Hm Hm'. destruct (Hback k m' Hm') as (m0 & Hm0 & ?). by simplify_eq.
  - intros i. rewrite Hu. intros [_ Hi]%list_elem_of_filter. destruct (Hd i Hi) as (n & Hn0 & Hz).
    rewrite Hn, Hn0. case_decide; eauto.
Qed.
