(* ===== verification/FilesystemSteps.v ===== *)
(** The filesystem as a transition system.

    A [fs_call] is one call the system call layer or the host makes on the
    filesystem; [call_ok] states what the caller has established (an index
    came from the filesystem, a hard link is made to a node found by a path, a
    directory starts empty). The theorems hold of every filesystem reachable
    by such calls. *)

From S2P Require Import Prelude BTree Abi Digest Chunk Filesystem FilesystemInv FilesystemLinks.

Inductive fs_call :=
| CMkdirP (path : bytes)
| CAddNode (path : bytes) (k : NodeKind) (md : Z)
| CCreateFileWithCapacity (path : bytes) (capacity md : Z)
| CAppendFile (path b : bytes)
| CCreate (parent : nat) (name : bytes) (k : NodeKind) (md : Z)
| CLink (parent : nat) (name : bytes) (node : nat)
| CUnlink (parent : nat) (name : bytes) (rmdir : bool)
| CRename (old_parent : nat) (old_name : bytes) (new_parent : nat) (new_name : bytes)
| CRelease (referenced : gset nat)
| CPutChunk (h : Hash) (b : vec)
| CMaterialize (node : nat)
| CTakeContents (path : bytes)
| CPutContents (path : bytes) (data : vec).

Section steps.
Context `{Host}.

Definition discard {A} (p : Vfs * res Z A) : Vfs * res Z () :=
  (p.1, match p.2 with Ok _ => Ok () | Err e => Err e | Panic => Panic end).

Definition exec (c : fs_call) (v : Vfs) : Vfs * res Z () :=
  match c with
  | CMkdirP path => discard (Fs.mkdir_p path v)
  | CAddNode path k md => discard (Fs.add_node path k md v)
  | CCreateFileWithCapacity path capacity md =>
      discard (Fs.create_file_with_capacity path capacity md v)
  | CAppendFile path b => Fs.append_file path b v
  | CCreate parent name k md => discard (Fs.create parent name k md v)
  | CLink parent name node => Fs.link parent name node v
  | CUnlink parent name rmdir => Fs.unlink parent name rmdir v
  | CRename op on np nn => Fs.rename op on np nn v
  | CRelease referenced => ((Fs.release_unreferenced referenced v).1, Ok ())
  | CPutChunk h b => Fs.put_chunk h b v
  | CMaterialize node => discard (Fs.materialize_file node v)
  | CTakeContents path => discard (Fs.take_file_contents path v)
  | CPutContents path data => Fs.put_file_contents path data v
  end.

Definition call_ok (v : Vfs) (c : fs_call) : Prop :=
  match c with
  | CAddNode _ k _ => empty_kind k
  | CCreate parent _ k _ => (parent < length (nodes v))%nat ∧ empty_kind k
  | CLink parent _ node =>
      (parent < length (nodes v))%nat ∧
      (∃ p nm, lookup_entry v p nm = Some node) ∧
      ∃ n, nodes v !! node = Some n ∧ nlink n < U64_MAX
  | CUnlink parent _ _ => (parent < length (nodes v))%nat
  | CRename op _ np _ => (op < length (nodes v))%nat ∧ (np < length (nodes v))%nat
  | _ => True
  end.

Inductive fs_step (v : Vfs) : Vfs → Prop :=
| fs_step_call c : call_ok v c → fs_step v (exec c v).1.
Definition fs_steps : Vfs → Vfs → Prop := rtc fs_step.

Definition arena_ok (v : Vfs) {A} (p : Vfs * res Z A) : Prop :=
  vfs_wf p.1 ∧ (length (nodes v) ≤ length (nodes p.1))%nat ∧ p.2 ≠ Panic.

Lemma fs_ok_arena {A} v R (p : Vfs * res Z A) : fs_ok v R p → arena_ok v p.
Proof. intros (? & ? & Hr). split; [done|]. split; [done|]. intros E. by rewrite E in Hr. Qed.
Lemma fs_ok_discard {A} v R (p : Vfs * res Z A) : fs_ok v R p → arena_ok v (discard p).
Proof.
  intros (? & ? & Hr). split; [done|]. split; [done|]. cbn. by destruct p.2.
Qed.

Lemma exec_arena_ok v c : vfs_wf v → call_ok v c → arena_ok v (exec c v).
Proof.
  intros Hv. destruct c; cbn [exec call_ok]; intros Hc;
    try (eapply fs_ok_discard || eapply fs_ok_arena).
  - by apply mkdir_p_ok.
  - apply add_node_ok; [done|by apply empty_kind_ok].
  - unfold Fs.create_file_with_capacity. destruct (vec_try_reserve_exact _ _).
    + by apply add_node_ok.
    + by apply (fs_ok_fail v index_ok).
  - by apply append_file_ok.
  - destruct Hc. apply create_ok; [done..|by apply empty_kind_ok].
  - apply link_ok; [done|apply Hc..].
  - by apply unlink_ok.
  - apply rename_ok; [done|apply Hc..].
  - destruct (release_unreferenced_wf referenced v Hv) as [? Hl]. split; [done|].
    split; [cbn [fst]; lia|by instantiate (1 := any)].
  - by apply put_chunk_ok.
  - by apply materialize_file_ok.
  - by apply take_file_contents_ok.
  - by apply put_file_contents_ok.
Qed.

Lemma exec_links_wf v c : vfs_wf v → links_wf v → call_ok v c → links_wf (exec c v).1.
Proof.
  intros Hv Hl. destruct c; cbn [exec call_ok discard fst]; intros Hc.
  - apply mkdir_loop_links; eauto with rust.
  - by apply add_node_links.
  - unfold Fs.create_file_with_capacity. destruct (vec_try_reserve_exact _ _); [|done].
    by apply add_node_links.
  - by apply append_file_links.
  - destruct Hc. by apply create_links.
  - destruct Hc as (? & (p & nm & ?) & n & ? & ?). by eapply link_links.
  - by apply unlink_links.
  - destruct Hc. by apply rename_links.
  - by apply release_unreferenced_links.
  - by apply put_chunk_links.
  - by apply materialize_file_links.
  - by apply take_file_contents_links.
  - by apply put_file_contents_links.
Qed.

Definition fs_good (v : Vfs) : Prop := vfs_wf v ∧ links_wf v.

Lemma fs_steps_good v v' : fs_good v → fs_steps v v' → fs_good v'.
Proof.
  intros Hg Hs. revert Hg. induction Hs as [|v1 v2 v3 [c Hc] _ IH]; [done|].
  intros [Hv Hl]. apply IH. split; [by apply exec_arena_ok|by apply exec_links_wf].
Qed.
Lemma fs_steps_wf v v' :
  vfs_wf v → fs_steps v v' → vfs_wf v' ∧ (length (nodes v) ≤ length (nodes v'))%nat.
Proof.
  intros Hv Hs. revert Hv. induction Hs as [|v1 v2 v3 [c Hc] _ IH]; [done|].
  intros Hv. destruct (exec_arena_ok v1 c Hv Hc) as (Hw & Hl & _).
  destruct (IH Hw). split; [done|lia].
Qed.

Lemma empty_root_good : fs_good Fs.empty_root.
Proof.
  split.
  - split; cbn; [lia|]. repeat constructor.
  - split; [|intros i Hi; by apply elem_of_nil in Hi]. intros [|i] n Hn; [|done]. cbn in Hn. simplify_eq. done.
Qed.

Lemma new_steps : fs_steps Fs.empty_root Fs.new.
Proof.
  unfold Fs.new. set (v1 := foldl _ Fs.empty_root _).
  assert (Hfold : ∀ {A} (f : A → fs_call) (g : Vfs → A → Vfs) l v,
    (∀ v x, x ∈ l → call_ok v (f x) ∧ g v x = (exec (f x) v).1) → fs_steps v (foldl g v l)).
  { intros A f g l. induction l as [|x l IH]; intros v Hx; cbn; [constructor|].
    destruct (Hx v x) as [Hc Hg]; [left|]. apply (rtc_l _ _ (g v x)); [rewrite Hg; by constructor|].
    apply IH. intros. apply Hx. by right. }
  transitivity v1; [by apply (Hfold _ CMkdirP)|].
  apply (Hfold _ (λ '(p, dev), CAddNode p (CharDev dev) 438)). by intros ? [].
Qed.

Lemma new_good : fs_good Fs.new.
Proof. eapply fs_steps_good; [apply empty_root_good|apply new_steps]. Qed.
End steps.

(** C10. No sequence of filesystem calls can make one panic: every filesystem
    reachable from a well-formed one is well-formed (all stored indices in
    range, directories sorted), no index ever becomes invalid, and any further
    call returns a result or an errno. *)
Theorem fs_calls_never_panic `{Host} v0 v c :
  vfs_wf v0 → fs_steps v0 v → call_ok v c →
  (exec c v).2 ≠ Panic ∧ vfs_wf (exec c v).1 ∧
  (length (nodes v0) ≤ length (nodes v))%nat ∧
  (length (nodes v) ≤ length (nodes (exec c v).1))%nat.
Proof.
  intros Hv Hs Hc. destruct (fs_steps_wf v0 v Hv Hs) as [Hw Hl].
  destruct (exec_arena_ok v c Hw Hc) as (? & ? & ?). auto.
Qed.

Lemma fs_calls_never_panic_witness :
  (exec (CRename 0 (Fs.str "tmp") 1 (Fs.str "x")) Fs.new).2 ≠ Panic.
Proof.
  refine (proj1 (fs_calls_never_panic Fs.empty_root Fs.new _ _ new_steps _)).
  - apply empty_root_good.
  - vm_compute. split; repeat constructor.
Defined.

(** Reclaiming unlinked contents loses nothing that is still in use: in
    every filesystem reachable from a good one, a node that any directory entry
    names or any descriptor refers to is left exactly as it was, every other
    node on the unlinked list is emptied, and the number returned is the
    number of bytes released. *)
Theorem release_unreferenced_safe `{Host} v0 v referenced :
  fs_good v0 → fs_steps v0 v →
  let '(v', freed) := Fs.release_unreferenced referenced v in
  (∀ p nm i, lookup_entry v p nm = Some i → nodes v' !! i = nodes v !! i) ∧
  (∀ i, i ∈ referenced → nodes v' !! i = nodes v !! i) ∧
  (∀ i, i ∈ unlinked v → i ∉ referenced → nodes v' !! i = emptied <$> nodes v !! i) ∧
  freed = Fs.node_bytes (nodes v) - Fs.node_bytes (nodes v') ∧
  (∀ i, i ∈ unlinked v' ↔ i ∈ unlinked v ∧ i ∈ referenced).
Proof.
  intros Hg Hs. destruct (fs_steps_good v0 v Hg Hs) as [Hv Hl].
  pose proof (release_unreferenced_spec referenced v) as Hr.
  destruct (Fs.release_unreferenced referenced v) as [v' freed]. destruct Hr as (Hn & Hf & Hu).
  split_and!.
  - intros p nm i He%(named_not_dead v p nm i Hl). rewrite Hn, decide_False; [done|naive_solver].
  - intros i Hi. rewrite Hn, decide_False; [done|naive_solver].
  - intros i Hi Hr. by rewrite Hn, decide_True.
  - lia.
  - intros i. rewrite Hu, list_elem_of_filter. naive_solver.
Qed.

(** /tmp/f is created, linked as /tmp/g and unlinked: the contents stay. *)
Definition hard_linked : Vfs :=
  let v := (exec (CCreate 6 [102] (File (Vec [1; 2; 3] 3)) 420) Fs.new).1 in
  let v := (exec (CLink 6 [103] 15) v).1 in
  (exec (CUnlink 6 [102] false) v).1.
Lemma hard_linked_steps : fs_steps Fs.new hard_linked.
Proof.
  unfold hard_linked. cbv zeta.
  eapply rtc_l; [constructor|eapply rtc_l; [constructor|eapply rtc_l; [constructor|apply rtc_refl]]].
  - split; [apply Nat.ltb_lt; vm_compute; reflexivity|exact I].
  - split; [apply Nat.ltb_lt; vm_compute; reflexivity|]. split.
    + exists 6%nat, [102]. vm_compute. reflexivity.
    + eexists. split; [vm_compute; reflexivity|]. vm_compute. reflexivity.
  - apply Nat.ltb_lt. vm_compute. reflexivity.
Qed.

Lemma release_unreferenced_safe_witness :
  lookup_entry hard_linked 6 [103] = Some 15%nat ∧
  nodes (Fs.release_unreferenced ∅ hard_linked).1 !! 15%nat = nodes hard_linked !! 15%nat.
Proof.
  split; [vm_compute; reflexivity|].
  pose proof (release_unreferenced_safe Fs.new hard_linked ∅ new_good hard_linked_steps) as Hr.
  destruct (Fs.release_unreferenced ∅ hard_linked) as [v' freed]. destruct Hr as (Hr & _).
  apply (Hr 6%nat [103] 15%nat). vm_compute. reflexivity.
Defined.
