(* ===== verification/FilesystemNames.v ===== *)
(** The namespace the filesystem implements.

    Seen from above, a filesystem is the partial map [(directory, name) ->
    node] read by [lookup_entry]. [ns_spec] states what each call that changes
    names does to that map on every branch, errno included; the theorems show
    that the arena operations implement it. *)

From S2P Require Import Prelude BTree Abi Digest Chunk Filesystem FilesystemInv FilesystemLinks FilesystemSteps.

(** Two filesystems with the same names. *)
Definition same_names (v v' : Vfs) : Prop :=
  ∀ p nm, lookup_entry v' p nm = lookup_entry v p nm.
#[global] Instance same_names_equiv : Equivalence same_names.
Proof.
  split.
  - intros v p nm. done.
  - intros v v' Hs p nm. by rewrite Hs.
  - intros v1 v2 v3 H1 H2 p nm. by rewrite H2, H1.
Qed.

(** [v'] has the names of [v], except that [(p, nm)] now maps to [o]. *)
Definition rebinds (v : Vfs) (p : nat) (nm : bytes) (o : option nat) (v' : Vfs) : Prop :=
  ∀ p' nm', lookup_entry v' p' nm' =
    if decide (p' = p ∧ nm' = nm) then o else lookup_entry v p' nm'.

#[global] Instance rebinds_proper :
  Proper (same_names ==> eq ==> eq ==> eq ==> same_names ==> iff) rebinds.
Proof.
  intros v1 v2 Hv p ? <- nm ? <- o ? <- w1 w2 Hw.
  split; intros Hr p' nm'; specialize (Hr p' nm').
  - by rewrite Hw, Hr, Hv.
  - by rewrite <- Hw, Hr, Hv.
Qed.

Lemma rebinds_from v v1 p nm o v' : same_names v v1 → rebinds v1 p nm o v' → rebinds v p nm o v'.
Proof. intros Hs. by apply rebinds_proper. Qed.
Lemma rebinds_to v w w' p nm o : same_names w w' → rebinds v p nm o w → rebinds v p nm o w'.
Proof. intros Hs. by apply rebinds_proper. Qed.

Section names.
Context `{Host}.

Lemma lookup_entry_set_entries v p n es p' nm :
  nodes v !! p = Some n →
  lookup_entry (set_entries v p es) p' nm =
    if decide (p' = p) then bt_get es nm else lookup_entry v p' nm.
Proof.
  intros Hn. unfold lookup_entry, set_entries. rewrite Hn. cbn.
  case_decide as E; [subst p'|by rewrite list_lookup_insert_ne].
  by rewrite list_lookup_insert_eq by (by eapply lookup_lt_Some).
Qed.

Lemma insert_rebinds v p n es nm x :
  nodes v !! p = Some n → kind n = Dir es →
  rebinds v p nm (Some x) (set_entries v p (bt_insert es nm x)).
Proof.
  intros Hn Hk p' nm'. rewrite (lookup_entry_set_entries v p n) by done.
  destruct (decide (p' = p)) as [->|Hne]; [|by rewrite decide_False by naive_solver].
  destruct (decide (nm' = nm)) as [->|Hnm].
  - by rewrite bt_get_insert_eq, decide_True.
  - rewrite bt_get_insert_ne by done. rewrite decide_False by naive_solver.
    unfold lookup_entry. by rewrite Hn, Hk.
Qed.

Lemma remove_rebinds v p n es nm :
  nodes v !! p = Some n → kind n = Dir es →
  rebinds v p nm None (set_entries v p (bt_remove es nm)).
Proof.
  intros Hn Hk p' nm'. rewrite (lookup_entry_set_entries v p n) by done.
  destruct (decide (p' = p)) as [->|Hne]; [|by rewrite decide_False by naive_solver].
  destruct (decide (nm' = nm)) as [->|Hnm].
  - by rewrite bt_get_remove_eq, decide_True.
  - rewrite bt_get_remove_ne by done. rewrite decide_False by naive_solver.
    unfold lookup_entry. by rewrite Hn, Hk.
Qed.

(** Changing a node but not its kind. *)
Lemma set_node_names v i n n' :
  nodes v !! i = Some n → kind n' = kind n → same_names v (set_node v i n').
Proof.
  intros Hn He p nm. unfold lookup_entry. cbn.
  destruct (decide (i = p)) as [->|Hne]; [|by rewrite list_lookup_insert_ne].
  rewrite list_lookup_insert_eq by (by eapply lookup_lt_Some). by rewrite Hn, He.
Qed.

Lemma alloc_names v n : (∀ nm es, kind n = Dir es → bt_get es nm = None) → same_names v (alloc v n).1.
Proof.
  intros Hk p nm. unfold lookup_entry. cbn.
  destruct (decide (p < length (nodes v))%nat) as [Hp|Hp]; [by rewrite lookup_app_l|].
  rewrite lookup_app_r by lia. rewrite (lookup_ge_None_2 (nodes v)) by lia.
  destruct ([n] !! _) as [m|] eqn:Hm; [|done].
  apply list_lookup_singleton_Some in Hm as [_ <-]. destruct (kind n) eqn:E; try done. by apply Hk.
Qed.

Lemma drop_link_names v d : same_names v (Fs.drop_link d v).1.
Proof.
  unfold Fs.drop_link. destruct (nodes v !! d) as [n|] eqn:Hn; [|done]. cbn [fst].
  assert (Hs : same_names v (set_node v d (with_nlink n (saturating_sub (nlink n) 1))))
    by (by eapply set_node_names).
  by case_if.
Qed.
End names.

(** * The specification *)
Definition reserved_name (nm : bytes) : Prop := nm ∈ [[]; DOT; DOTDOT].

Inductive ns_spec `{Host} (v : Vfs) : fs_call → Vfs → res Z () → Prop :=
(* create *)
| ns_create_done p nm k md v' :
    ¬ reserved_name nm → Fs.reserve v (data_len k) = Ok () → is_directory v p →
    lookup_entry v p nm = None → rebinds v p nm (Some (length (nodes v))) v' →
    nodes v' !! length (nodes v) =
      Some {| kind := k; mode := md; nlink := new_nlink k; mtime_sec := 0; n_parent := p |} →
    ns_spec v (CCreate p nm k md) v' (Ok ())
| ns_create_exists p nm k md v' :
    (reserved_name nm ∨ is_Some (lookup_entry v p nm)) → same_names v v' →
    ns_spec v (CCreate p nm k md) v' (Err EEXIST)
| ns_create_nospace p nm k md :
    Fs.reserve v (data_len k) = Err ENOSPC → ns_spec v (CCreate p nm k md) v (Err ENOSPC)
| ns_create_notdir p nm k md v' :
    ¬ is_directory v p → same_names v v' → ns_spec v (CCreate p nm k md) v' (Err ENOTDIR)
(* link *)
| ns_link_done p nm i v' :
    is_directory v p → lookup_entry v p nm = None → rebinds v p nm (Some i) v' →
    ns_spec v (CLink p nm i) v' (Ok ())
| ns_link_exists p nm i :
    is_Some (lookup_entry v p nm) → ns_spec v (CLink p nm i) v (Err EEXIST)
| ns_link_notdir p nm i : ¬ is_directory v p → ns_spec v (CLink p nm i) v (Err ENOTDIR)
(* unlink *)
| ns_unlink_done p nm rmdir i v' :
    lookup_entry v p nm = Some i → (is_directory v i ↔ rmdir = true) →
    (rmdir = true → ∀ nm', lookup_entry v i nm' = None) → rebinds v p nm None v' →
    ns_spec v (CUnlink p nm rmdir) v' (Ok ())
| ns_unlink_notdir p nm rmdir :
    (¬ is_directory v p ∨ rmdir = true ∧ ∃ i, lookup_entry v p nm = Some i ∧ ¬ is_directory v i) →
    ns_spec v (CUnlink p nm rmdir) v (Err ENOTDIR)
| ns_unlink_absent p nm rmdir :
    is_directory v p → lookup_entry v p nm = None → ns_spec v (CUnlink p nm rmdir) v (Err ENOENT)
| ns_unlink_isdir p nm i :
    lookup_entry v p nm = Some i → is_directory v i → ns_spec v (CUnlink p nm false) v (Err EISDIR)
| ns_unlink_notempty p nm i nm' :
    lookup_entry v p nm = Some i → is_Some (lookup_entry v i nm') →
    ns_spec v (CUnlink p nm true) v (Err ENOTEMPTY)
(* rename *)
| ns_rename_done op on np nn i v1 v' :
    lookup_entry v op on = Some i → is_directory v np →
    (∀ j nm', lookup_entry v np nn = Some j → lookup_entry v j nm' = None) →
    rebinds v op on None v1 → rebinds v1 np nn (Some i) v' →
    (∃ n, nodes v' !! i = Some n ∧ n_parent n = np) →
    ns_spec v (CRename op on np nn) v' (Ok ())
| ns_rename_notdir op on np nn :
    (¬ is_directory v op ∨ ¬ is_directory v np) → ns_spec v (CRename op on np nn) v (Err ENOTDIR)
| ns_rename_absent op on np nn :
    is_directory v op → lookup_entry v op on = None → ns_spec v (CRename op on np nn) v (Err ENOENT)
| ns_rename_notempty op on np nn j nm' :
    lookup_entry v np nn = Some j → is_Some (lookup_entry v j nm') →
    ns_spec v (CRename op on np nn) v (Err ENOTEMPTY).

Definition ns_ok `{Host} (v : Vfs) (c : fs_call) (q : Vfs * res Z ()) : Prop :=
  ns_spec v c q.1 q.2.
Definition names_call (c : fs_call) : Prop :=
  match c with CCreate _ _ _ _ | CLink _ _ _ | CUnlink _ _ _ | CRename _ _ _ _ => True | _ => False end.

Section refine.
Context `{Host} (v : Vfs) (Hv : vfs_wf v).

Lemma entries_lookup i n es nm : nodes v !! i = Some n → kind n = Dir es → lookup_entry v i nm = bt_get es nm.
Proof. intros Hn Hk. unfold lookup_entry. by rewrite Hn, Hk. Qed.
Lemma not_dir_lookup i n : nodes v !! i = Some n → is_dir_kind (kind n) = false → ¬ is_directory v i.
Proof. intros Hn Hk (m & es & Hm & E). simplify_eq. by rewrite E in Hk. Qed.
Lemma nonempty_entry i n es :
  nodes v !! i = Some n → kind n = Dir es → es ≠ [] → ∃ nm, is_Some (lookup_entry v i nm).
Proof.
  intros Hn Hk He. destruct es as [|[nm x] es]; [done|]. exists nm. exists x.
  rewrite (entries_lookup i n ((nm, x) :: es)) by done. cbn [bt_get]. by rewrite kcmp_refl.
Qed.

Lemma create_refines p nm k md :
  (p < length (nodes v))%nat → empty_kind k →
  ns_ok v (CCreate p nm k md) (exec (CCreate p nm k md) v).
Proof.
  intros Hp Hk. cbn [exec]. unfold Fs.create. destruct (_ || _ || _) eqn:Hres.
  { apply ns_create_exists; [left|done]. unfold reserved_name.
    apply orb_true_iff in Hres as [[Hr|Hr]%orb_true_iff|Hr]; apply bool_decide_eq_true in Hr; set_solver. }
  assert (Hnr : ¬ reserved_name nm).
  { unfold reserved_name. apply orb_false_iff in Hres as [[H1 H2]%orb_false_iff H3].
    apply bool_decide_eq_false in H1, H2, H3. set_solver. }
  unfold sbind, query, Fs.alloc_node. cbn [alloc].
  destruct (Fs.reserve v (data_len k)) as [[]|e|] eqn:Er.
  2:{ cbn. assert (e = ENOSPC) as ->; [|by constructor]. revert Er. unfold Fs.reserve.
      case_if; [done|]. destruct (storage_budget v); [|done]. case_if; congruence. }
  2:{ by apply reserve_no_panic in Er. }
  set (nd := {| kind := k; mode := md; nlink := new_nlink k; mtime_sec := 0; n_parent := p |}).
  change (set_nodes v _) with (alloc v nd).1. set (v1 := (alloc v nd).1).
  assert (Hs1 : same_names v v1).
  { apply alloc_names. intros nm' es E. cbn in E. rewrite E in Hk. by rewrite Hk. }
  assert (Hp1 : nodes v1 !! p = nodes v !! p) by (cbn; by apply lookup_app_l).
  unfold dir_entries, node_at. rewrite Hp1.
  destruct (lookup_lt_is_Some_2 _ _ Hp) as [n Hn]. rewrite Hn. cbn [expect rbind].
  destruct (kind n) as [es| | | |] eqn:Ek;
    try (apply ns_create_notdir; [|exact Hs1]; eapply not_dir_lookup; [done|by rewrite Ek]).
  pose proof (entries_lookup p n es nm Hn Ek) as Hlk. unfold bt_mem.
  destruct (bt_get es nm) as [x|] eqn:Hg; cbn [modify sret discard fst snd sfail].
  { apply ns_create_exists; [right; eauto|exact Hs1]. }
  apply ns_create_done; try done; [by exists n, es|..].
  - eapply rebinds_from; [exact Hs1|]. apply (insert_rebinds v1 p n es); [congruence|done].
  - unfold set_entries. rewrite Hp1, Hn. unfold v1. cbn. rewrite list_lookup_insert_ne by lia.
    rewrite lookup_app_r, Nat.sub_diag by lia. done.
Qed.

Lemma link_refines p nm i :
  call_ok v (CLink p nm i) →
  ns_ok v (CLink p nm i) (exec (CLink p nm i) v).
Proof.
  intros (Hp & _ & m & Hm & Hmax). cbn [exec]. unfold Fs.link, sbind, query.
  destruct (dir_entries_ok v Hv p Hp) as [(n & es & -> & Hn & Hk & _)|(n & -> & Hn & Hk)].
  2:{ apply ns_link_notdir. by eapply not_dir_lookup. }
  pose proof (entries_lookup p n es nm Hn Hk) as Hlk. unfold bt_mem.
  destruct (bt_get es nm) as [x|] eqn:Hg; cbn [modify].
  { apply ns_link_exists. eauto. }
  set (v1 := set_entries v p (bt_insert es nm i)).
  assert (Hlt : (i < length (nodes v1))%nat)
    by (unfold v1; rewrite length_set_entries; by eapply lookup_lt_Some).
  destruct (lookup_lt_is_Some_2 _ _ Hlt) as [n1 Hn1].
  destruct (nlink_set_entries _ _ _ _ _ Hn1) as (n0 & Hn0 & He). simplify_eq.
  unfold node_at. rewrite Hn1. cbn. unfold add64. rewrite (proj2 (Z.leb_le _ _)) by lia. cbn.
  apply ns_link_done; [by exists n, es|by rewrite Hlk|].
  eapply rebinds_to; [by apply (set_node_names v1 i n1)|]. by apply (insert_rebinds v p n es).
Qed.

Lemma unlink_refines p nm rmdir :
  (p < length (nodes v))%nat →
  ns_ok v (CUnlink p nm rmdir) (exec (CUnlink p nm rmdir) v).
Proof.
  intros Hp. cbn [exec]. unfold Fs.unlink, sbind, query.
  destruct (dir_entries_ok v Hv p Hp) as [(n & es & -> & Hn & Hk & _ & Hb)|(n & -> & Hn & Hk)].
  2:{ apply ns_unlink_notdir. left. by eapply not_dir_lookup. }
  pose proof (entries_lookup p n es nm Hn Hk) as Hlk.
  destruct (bt_get es nm) as [x|] eqn:Hg; cbn [ok_or].
  2:{ apply ns_unlink_absent; [by exists n, es|exact Hlk]. }
  destruct (node_at_ok v Hv x) as (nx & Hnx & -> & _); [by eapply entry_bound|].
  assert (Hdone : (is_directory v x ↔ rmdir = true) →
    (rmdir = true → ∀ nm', lookup_entry v x nm' = None) →
    let w := Fs.drop_link x (set_entries v p (bt_remove es nm)) in
    ns_ok v (CUnlink p nm rmdir) w).
  { intros Hd He w. unfold ns_ok. assert (w.2 = Ok ()) as ->.
    { unfold w, Fs.drop_link. destruct (nodes (set_entries v p (bt_remove es nm)) !! x) eqn:E; [reflexivity|].
      apply lookup_ge_None in E. rewrite length_set_entries in E. apply lookup_lt_Some in Hnx. lia. }
    apply (ns_unlink_done _ _ _ _ x); [exact Hlk|exact Hd|exact He|]. unfold w. eapply rebinds_to; [apply drop_link_names|].
    by apply (remove_rebinds v p n es). }
  destruct (is_dir_kind (kind nx)) eqn:Ed.
  - destruct (kind nx) as [ch| | | |] eqn:Ek; try done.
    assert (Hdx : is_directory v x) by (by exists nx, ch). destruct rmdir; cbn [negb].
    2:{ by eapply ns_unlink_isdir. }
    case_bool_decide as Hch; cbn [negb modify].
    2:{ destruct (nonempty_entry x nx ch) as [nm' ?]; [done..|]. by eapply ns_unlink_notempty. }
    apply Hdone; [done|]. intros _ nm'. by rewrite (entries_lookup x nx ch), Hch.
  - pose proof (not_dir_lookup x nx Hnx Ed) as Hnd. destruct rmdir.
    + destruct (kind nx); try done; apply ns_unlink_notdir; right; eauto.
    + destruct (kind nx); try done; apply Hdone; done.
Qed.

Lemma drop_link_returns w d : (d < length (nodes w))%nat → (Fs.drop_link d w).2 = Ok ().
Proof.
  intros Hd. unfold Fs.drop_link. destruct (lookup_lt_is_Some_2 _ _ Hd) as [n ->]. reflexivity.
Qed.

Lemma drop_link_length w d : length (nodes (Fs.drop_link d w).1) = length (nodes w).
Proof.
  unfold Fs.drop_link. destruct (nodes w !! d) as [n|]; [|done]. cbn [fst].
  case_if; cbn; by rewrite length_insert.
Qed.

(** The last step of [rename]: record the new parent. *)
Lemma reparent_refines op on np nn x v1 w :
  lookup_entry v op on = Some x → is_directory v np →
  (∀ j nm', lookup_entry v np nn = Some j → lookup_entry v j nm' = None) →
  rebinds v op on None v1 → rebinds v1 np nn (Some x) w → (x < length (nodes w))%nat →
  ns_ok v (CRename op on np nn)
    (sbind (query (λ v, node_at v x)) (λ n, modify (λ v, set_node v x (with_parent n np))) w).
Proof.
  intros Hx Hd He H1 H2 Hlt. destruct (lookup_lt_is_Some_2 _ _ Hlt) as [n Hn].
  unfold ns_ok, sbind, query, node_at. rewrite Hn. cbn [expect modify fst snd]. apply (ns_rename_done v op on np nn x v1); try done.
  - eapply rebinds_to; [|exact H2]. by eapply set_node_names.
  - exists (with_parent n np). split; [|done]. by apply list_lookup_insert_eq.
Qed.

(** The target of a rename: absent, replaceable, or a directory in use. *)
Lemma rename_target np m ne nn :
  nodes v !! np = Some m → kind m = Dir ne →
  let check :=
    match bt_get ne nn with
    | Some existing =>
        let! e := node_at v existing in
        match kind e with
        | Dir children => if negb (bool_decide (children = [])) then Err ENOTEMPTY else Ok ()
        | _ => Ok ()
        end
    | None => Ok ()
    end in
  (check = Ok () ∧ ∀ j nm', lookup_entry v np nn = Some j → lookup_entry v j nm' = None) ∨
  (check = Err ENOTEMPTY ∧ ∃ j nm', lookup_entry v np nn = Some j ∧ is_Some (lookup_entry v j nm')).
Proof.
  intros Hm Hkm. destruct (vfs_wf_node v np m Hv Hm) as [_ Hw]. rewrite Hkm in Hw. destruct Hw as [_ Hb].
  rewrite (entries_lookup np m ne nn Hm Hkm).
  destruct (bt_get ne nn) as [y|] eqn:Hgy; [|by left].
  destruct (node_at_ok v Hv y) as (ny & Hny & -> & _); [by eapply entry_bound|]. cbn.
  destruct (kind ny) as [ch| | | |] eqn:Eky;
    try (left; split; [done|]; intros j nm' [= <-]; unfold lookup_entry; by rewrite Hny, Eky).
  case_bool_decide as Hch; cbn.
  - left. split; [done|]. intros j nm' [= <-]. by rewrite (entries_lookup y ny ch), Hch.
  - right. split; [done|]. destruct (nonempty_entry y ny ch) as [nm' ?]; eauto.
Qed.

Lemma rename_refines op on np nn :
  (op < length (nodes v))%nat → (np < length (nodes v))%nat →
  ns_ok v (CRename op on np nn) (exec (CRename op on np nn) v).
Proof.
  intros Ho Hnp. cbn [exec]. unfold Fs.rename. unfold sbind at 1, query at 1.
  destruct (dir_entries_ok v Hv op Ho) as [(n & es & Ees & Hn & Hk & Hs & Hb)|(n & -> & Hn & Hk)].
  2:{ apply ns_rename_notdir. left. by eapply not_dir_lookup. }
  rewrite Ees. unfold sbind at 1, query at 1. pose proof (entries_lookup op n es on Hn Hk) as Hlk.
  destruct (bt_get es on) as [x|] eqn:Hg; cbn [ok_or].
  2:{ apply ns_rename_absent; [by exists n, es|exact Hlk]. }
  assert (Hx : (x < length (nodes v))%nat) by (by eapply entry_bound).
  unfold sbind at 1, query at 1.
  destruct (dir_entries_ok v Hv np Hnp) as [(m & ne & -> & Hm & Hkm & _ & Hbm)|(m & -> & Hm & Hkm)].
  2:{ apply ns_rename_notdir. right. by eapply not_dir_lookup. }
  assert (Hdnp : is_directory v np) by (by exists m, ne).
  unfold sbind at 1, query at 1.
  destruct (rename_target np m ne nn Hm Hkm) as [[-> Hempty]|(-> & j & nm' & Hj & Hnm')].
  2:{ by eapply ns_rename_notempty. }
  unfold sbind at 1, query at 1. rewrite Ees. unfold sbind at 1, modify at 1.
  set (v1 := set_entries v op (bt_remove es on)).
  assert (Hv1 : vfs_wf v1) by (by apply set_entries_remove_ok).
  assert (Hr1 : rebinds v op on None v1) by (by apply (remove_rebinds v op n es)).
  assert (Hlen : length (nodes v1) = length (nodes v)) by apply length_set_entries.
  unfold sbind at 1, query at 1.
  destruct (dir_entries_ok v1 Hv1 np) as [(m2 & es2 & -> & Hm2 & Hk2 & _ & Hb2)|(m2 & Em & Hm2 & Hk2)]; [lia| |].
  2:{ exfalso. revert Hm2. unfold v1, set_entries. rewrite Hn. cbn.
      destruct (decide (op = np)) as [->|]; [rewrite list_lookup_insert_eq by done|rewrite list_lookup_insert_ne by done];
        intros; simplify_eq/=; by rewrite Hkm in Hk2. }
  unfold sbind at 1, modify at 1. set (v2 := set_entries v1 np (bt_insert es2 nn x)).
  assert (Hr2 : rebinds v1 np nn (Some x) v2) by (by apply (insert_rebinds v1 np m2 es2)).
  assert (Hlen2 : length (nodes v2) = length (nodes v1)) by apply length_set_entries.
  unfold sbind at 1. destruct (bt_get es2 nn) as [d|] eqn:Hg2.
  2:{ apply (reparent_refines op on np nn x v1 v2); try done. lia. }
  case_if; [apply (reparent_refines op on np nn x v1 v2); try done; lia|].
  assert (Hd : (d < length (nodes v1))%nat) by (by eapply entry_bound).
  pose proof (drop_link_returns v2 d ltac:(lia)) as Hret. pose proof (drop_link_length v2 d) as Hl3.
  pose proof (drop_link_names v2 d) as Hs3. destruct (Fs.drop_link d v2) as [v3 r3]. cbn in Hret. subst r3.
  apply (reparent_refines op on np nn x v1 v3); try done; [by eapply rebinds_to|cbn in Hl3; lia].
Qed.
End refine.

(** C1. Refinement to the namespace: on every branch, creating, linking,
    unlinking and renaming change the map from directory and name to node
    exactly as specified, returning the errno the specification gives; a
    refused call leaves every name as it was. *)
Theorem namespace_refinement `{Host} v0 v c :
  vfs_wf v0 → fs_steps v0 v → call_ok v c → names_call c →
  ns_spec v c (exec c v).1 (exec c v).2.
Proof.
  intros Hv0 Hs Hc Hn. destruct (fs_steps_wf v0 v Hv0 Hs) as [Hv _].
  destruct c; try done; cbn in Hc.
  - destruct Hc. by apply create_refines.
  - by apply link_refines.
  - by apply unlink_refines.
  - destruct Hc. by apply rename_refines.
Qed.

Lemma namespace_refinement_witness :
  ns_spec Fs.new (CRename 0 (Fs.str "tmp") 1 (Fs.str "t"))
    (exec (CRename 0 (Fs.str "tmp") 1 (Fs.str "t")) Fs.new).1 (Ok ()).
Proof.
  assert (Hr : (exec (CRename 0 (Fs.str "tmp") 1 (Fs.str "t")) Fs.new).2 = Ok ())
    by (vm_compute; reflexivity).
  rewrite <- Hr. apply (namespace_refinement Fs.empty_root Fs.new); [apply empty_root_good|apply new_steps| |done].
  split; apply Nat.ltb_lt; vm_compute; reflexivity.
Defined.
