(* ===== verification/FilesystemPaths.v ===== *)
(** Paths: resolution against the namespace, and the working directory.

    [descend] walks the namespace of [FilesystemNames] one plain name at a
    time; [resolve] agrees with it on a path of plain names through
    directories, and [abs_path_of] inverts it. *)

From S2P Require Import Prelude BTree Abi Digest Chunk Filesystem FilesystemInv FilesystemLinks FilesystemSteps FilesystemNames.

(** A name a directory entry can have: no slash, not empty, not a dot name. *)
Definition plain_name (nm : bytes) : Prop := (SLASH ∉ nm) ∧ ¬ reserved_name nm.

Lemma plain_name_ne nm : plain_name nm → nm ≠ [] ∧ nm ≠ DOT ∧ nm ≠ DOTDOT.
Proof. unfold plain_name, reserved_name. intros [_ Hr]. split_and!; intros ->; apply Hr; set_solver. Qed.

(** * Splitting *)
Lemma split_slash_plain nm : SLASH ∉ nm → split_slash nm = [nm].
Proof.
  induction nm as [|b nm IH]; [done|]. intros Hb. cbn [split_slash].
  rewrite (proj2 (Z.eqb_neq _ _)) by set_solver. rewrite IH by set_solver. done.
Qed.

Lemma split_slash_app nm rest :
  SLASH ∉ nm → split_slash (nm ++ SLASH :: rest) = nm :: split_slash rest.
Proof.
  induction nm as [|b nm IH]; intros Hb; cbn [app split_slash].
  { done. }
  rewrite (proj2 (Z.eqb_neq _ _)) by set_solver. rewrite IH by set_solver. done.
Qed.

(** [/a/b/c] from its names. *)
Definition abs_path (names : list bytes) : bytes := mjoin (map (λ s, SLASH :: s) names).

Lemma split_slash_abs names :
  Forall (λ nm, SLASH ∉ nm) names → names ≠ [] → split_slash (abs_path names) = [] :: names.
Proof.
  intros Hall Hne. assert (Hgen : ∀ nm rest, SLASH ∉ nm → Forall (λ nm, SLASH ∉ nm) rest →
    split_slash (nm ++ abs_path rest) = nm :: rest).
  { clear. intros nm rest Hnm Hall. revert nm Hnm.
    induction Hall as [|x rest Hx Hall IH]; intros nm Hnm.
    - unfold abs_path. cbn. rewrite app_nil_r. by apply split_slash_plain.
    - change (abs_path (x :: rest)) with (SLASH :: x ++ abs_path rest).
      rewrite split_slash_app by done. by rewrite IH. }
  destruct Hall as [|x names Hx Hall]; [done|].
  change (abs_path (x :: names)) with (SLASH :: (x ++ abs_path names)).
  cbn [split_slash]. change (SLASH =? SLASH) with true. cbn. by rewrite Hgen.
Qed.

Lemma filter_plain (names : list bytes) :
  Forall plain_name names → filter (λ c, c ≠ [] ∧ c ≠ DOT) names = names.
Proof.
  induction 1 as [|nm names Hnm _ IH]; [done|]. rewrite filter_cons, IH.
  apply plain_name_ne in Hnm. rewrite decide_True by naive_solver. done.
Qed.

Lemma plain_no_slash names : Forall plain_name names → Forall (λ nm, SLASH ∉ nm) names.
Proof. intros Hall. eapply Forall_impl; [exact Hall|]. by intros ? [? _]. Qed.

Lemma components_abs names :
  Forall plain_name names → names ≠ [] → components (abs_path names) = names.
Proof.
  intros Hall Hne. unfold components. rewrite split_slash_abs by auto using plain_no_slash.
  rewrite filter_cons, decide_False by naive_solver. by apply filter_plain.
Qed.

Lemma components_plain nm : plain_name nm → components nm = [nm].
Proof.
  intros Hnm. unfold components. rewrite split_slash_plain by apply Hnm.
  apply filter_plain. by constructor.
Qed.

(** * Descending *)
Fixpoint descend (v : Vfs) (i : nat) (names : list bytes) : option nat :=
  match names with
  | [] => Some i
  | nm :: names => match lookup_entry v i nm with Some j => descend v j names | None => None end
  end.

(** Every node on the way down, the end included, is a directory. *)
Fixpoint dirs_along (v : Vfs) (i : nat) (names : list bytes) : Prop :=
  is_directory v i ∧
  match names with
  | [] => True
  | nm :: names => ∃ j, lookup_entry v i nm = Some j ∧ dirs_along v j names
  end.

Lemma dir_entries_directory v i :
  is_directory v i → ∃ es, dir_entries v i = Ok es ∧ ∀ nm, bt_get es nm = lookup_entry v i nm.
Proof.
  intros (n & es & Hn & Hk). exists es. unfold dir_entries, node_at, lookup_entry.
  rewrite Hn. cbn. rewrite Hk. done.
Qed.

Lemma walk_dirs rec v fl names i :
  dirs_along v i names → Forall plain_name names → names ≠ [] →
  ∃ p nm d, walk rec v fl names i = Ok {| r_parent := p; r_name := nm; r_node := Some d |} ∧
    descend v i names = Some d.
Proof.
  revert i. induction names as [|nm names IH]; [done|]. intros i [Hd (j & Hj & Hrest)] Hall _.
  apply Forall_cons in Hall as [Hnm Hall]. apply plain_name_ne in Hnm as (Hn1 & Hn2 & Hn3).
  cbn [walk]. rewrite (bool_decide_eq_false_2 _ Hn3).
  destruct (dir_entries_directory v i Hd) as (es & -> & Hes). cbn [rbind]. rewrite Hes, Hj.
  cbn [descend]. rewrite Hj.
  assert (Hdj : is_directory v j) by (by destruct names, Hrest).
  destruct Hdj as (nj & ej & Hnj & Hkj). unfold node_at. rewrite Hnj. cbn [expect rbind]. rewrite Hkj.
  destruct names as [|nm' names'].
  - rewrite bool_decide_eq_true_2 by done. destruct fl; eauto.
  - rewrite bool_decide_eq_false_2 by done. by apply IH.
Qed.

Lemma resolve_abs v names fl :
  dirs_along v ROOT names → Forall plain_name names → names ≠ [] →
  ∃ p nm d, resolve v ROOT (abs_path names) fl = Ok {| r_parent := p; r_name := nm; r_node := Some d |} ∧
    descend v ROOT names = Some d.
Proof.
  intros Hd Hall Hne. unfold resolve.
  rewrite bool_decide_eq_false_2 by (by destruct names).
  change MAX_DEPTH with (S 8). cbn [resolve_depth].
  rewrite components_abs, (bool_decide_eq_false_2 (names = [])) by done.
  assert (bool_decide (head (abs_path names) = Some SLASH) = true) as -> by (by destruct names).
  by apply walk_dirs.
Qed.

Lemma resolve_root v n fl :
  nodes v !! ROOT = Some n →
  resolve v ROOT [SLASH] fl = Ok {| r_parent := n_parent n; r_name := DOT; r_node := Some ROOT |}.
Proof.
  intros Hn. unfold resolve. rewrite bool_decide_eq_false_2 by done.
  change MAX_DEPTH with (S 8). cbn [resolve_depth].
  assert (components [SLASH] = []) as -> by (vm_compute; reflexivity).
  rewrite (bool_decide_eq_true_2 ([] = [])), (bool_decide_eq_true_2 (head [SLASH] = _)) by done.
  unfold node_at. by rewrite Hn.
Qed.

(** Resolving a single plain name is one lookup. *)
Lemma resolve_name v p nm :
  is_directory v p → plain_name nm →
  resolve v p nm false = Ok {| r_parent := p; r_name := nm; r_node := lookup_entry v p nm |}.
Proof.
  intros Hd Hnm. destruct (plain_name_ne nm Hnm) as (Hn1 & Hn2 & Hn3). unfold resolve.
  rewrite bool_decide_eq_false_2 by done. change MAX_DEPTH with (S 8). cbn [resolve_depth].
  rewrite components_plain by done. rewrite (bool_decide_eq_false_2 ([nm] = [])) by done.
  rewrite (bool_decide_eq_false_2 (head nm = _)).
  2:{ destruct nm as [|b nm]; [done|]. cbn. intros [= ->]. destruct Hnm as [Hs _]. apply Hs. left. }
  cbn [walk]. rewrite (bool_decide_eq_false_2 _ Hn3), (bool_decide_eq_true_2 ([] = [])) by done.
  destruct (dir_entries_directory v p Hd) as (es & -> & Hes). cbn [rbind]. by rewrite Hes.
Qed.

(** * The working directory *)

(** [d] hangs below the root: each node up to the root is a directory and its
    parent names it. [names] runs from [d] upwards. *)
Inductive dir_chain (v : Vfs) : nat → list bytes → Prop :=
| chain_root : is_directory v ROOT → dir_chain v ROOT []
| chain_up d n np es nm names :
    d ≠ ROOT → is_directory v d → nodes v !! d = Some n →
    nodes v !! n_parent n = Some np → kind np = Dir es → bt_sorted es →
    List.find (λ e, (e.2 =? d)%nat) es = Some (nm, d) → plain_name nm →
    dir_chain v (n_parent n) names → dir_chain v d (nm :: names).

Lemma dir_chain_plain v d names : dir_chain v d names → Forall plain_name names.
Proof. induction 1; constructor; auto. Qed.

Lemma dirs_along_snoc v i names j nm k :
  dirs_along v i names → descend v i names = Some j → lookup_entry v j nm = Some k →
  is_directory v k → dirs_along v i (names ++ [nm]) ∧ descend v i (names ++ [nm]) = Some k.
Proof.
  revert i. induction names as [|x names IH]; intros i; cbn [dirs_along descend app].
  - intros [Hd _] [= ->] Hk Hdk. rewrite Hk. split; [|done]. split; [done|]. exists k.
    split; [done|]. by split.
  - intros [Hd (y & Hy & Hrest)]. rewrite Hy. intros Hdesc Hk Hdk.
    destruct (IH y Hrest Hdesc Hk Hdk). split; [|done]. split; [done|]. eauto.
Qed.

Lemma dir_chain_descend v d names :
  dir_chain v d names → dirs_along v ROOT (rev names) ∧ descend v ROOT (rev names) = Some d.
Proof.
  induction 1 as [Hr|d n np es nm names Hne Hd Hn Hnp Hk Hs Hf Hnm Hc [IH1 IH2]]; [done|].
  cbn [rev]. eapply dirs_along_snoc; [done..| |done].
  unfold lookup_entry. rewrite Hnp, Hk. apply bt_sorted_get; [done|].
  apply list_elem_of_In. by apply List.find_some in Hf as [? _].
Qed.

Lemma climb_chain fuel v d names segs :
  dir_chain v d names → (length names < fuel)%nat → (length segs + length names ≤ 256)%nat →
  Fs.climb fuel v d segs = Ok (segs ++ names).
Proof.
  intros Hc. revert fuel segs.
  induction Hc as [Hr|d n np es nm names Hne Hd Hn Hnp Hk Hs Hf Hnm Hc IH]; intros fuel segs Hfuel Hlen.
  - destruct fuel; [cbn in Hfuel; lia|]. cbn. by rewrite app_nil_r.
  - cbn [length] in Hfuel, Hlen. destruct fuel as [|fuel]; [lia|]. cbn [Fs.climb].
    rewrite (proj2 (Nat.eqb_neq _ _) Hne), (proj2 (Nat.leb_gt _ _)) by lia. cbn [orb].
    unfold node_at. rewrite Hn. cbn [expect rbind]. rewrite Hnp. cbn [expect rbind]. rewrite Hk, Hf.
    rewrite IH by (rewrite ?length_app; cbn; lia). by rewrite <- app_assoc.
Qed.

(** [getcwd] tells the truth: for every directory that hangs below the
    root by at most 256 plain names, [abs_path_of] terminates with an absolute
    path, and resolving that path (following links or not) finds the directory
    again. *)
Theorem abs_path_of_resolves v d names fuel fl :
  dir_chain v d names → (length names ≤ 256)%nat → (length names < fuel)%nat →
  ∃ path p nm, Fs.abs_path_of fuel v d = Ok path ∧
    resolve v ROOT path fl = Ok {| r_parent := p; r_name := nm; r_node := Some d |}.
Proof.
  intros Hc Hlen Hfuel. unfold Fs.abs_path_of.
  destruct names as [|nm names].
  - inversion Hc as [(n & es & Hn & Hk) Hroot|]; subst. exists [SLASH], (n_parent n), DOT.
    split; [done|]. by apply resolve_root.
  - assert (Hne : d ≠ ROOT) by (by inversion Hc).
    rewrite (proj2 (Nat.eqb_neq _ _) Hne), (climb_chain fuel v d (nm :: names) []) by done.
    cbn [rbind app]. change (Fs.join_segments (nm :: names)) with (abs_path (rev (nm :: names))).
    destruct (dir_chain_descend v d _ Hc) as [H1 H2].
    assert (Hne' : rev (nm :: names) ≠ []) by (intros Er; apply (f_equal length) in Er;
      rewrite length_rev in Er; done).
    destruct (resolve_abs v (rev (nm :: names)) fl) as (p & nm' & d' & Hr & Hd'); [done| |done|].
    { apply Forall_rev. by eapply dir_chain_plain. }
    assert (d' = d) as -> by congruence.
    rewrite bool_decide_eq_false_2 by (by destruct (rev (nm :: names))). eauto.
Qed.

(** /a/b, as an arena. *)
Definition nested : Vfs :=
  let dir es p := {| kind := Dir es; mode := 493; nlink := 2; mtime_sec := 0; n_parent := p |} in
  {| nodes := [dir [([97], 1%nat)] 0%nat; dir [([98], 2%nat)] 0%nat; dir [] 1%nat];
     chunks := store_default; manifest_root := None; storage_budget := None; unlinked := [] |}.

Lemma abs_path_of_resolves_witness :
  ∃ path p nm, Fs.abs_path_of 3 nested 2 = Ok path ∧
    resolve nested ROOT path true = Ok {| r_parent := p; r_name := nm; r_node := Some 2%nat |}.
Proof.
  assert (Hdir : ∀ i n es, nodes nested !! i = Some n → kind n = Dir es → is_directory nested i)
    by (intros; eexists; eauto).
  assert (Hplain : ∀ b, b ≠ SLASH → b ≠ 46 → plain_name [b]).
  { intros b H1 H2. split; [set_solver|]. unfold reserved_name, DOT, DOTDOT.
    rewrite !elem_of_cons. intros [?|[?|[?|?%elem_of_nil]]]; congruence. }
  apply (abs_path_of_resolves nested 2 [[98]; [97]]); [|cbn; lia..].
  refine (chain_up nested 2 _ _ _ [98] _ _ _ eq_refl eq_refl eq_refl _ eq_refl _ _);
    [done|by eapply Hdir|done|by apply Hplain|].
  refine (chain_up nested 1 _ _ _ [97] _ _ _ eq_refl eq_refl eq_refl _ eq_refl _ _);
    [done|by eapply Hdir|done|by apply Hplain|].
  apply chain_root. by eapply Hdir.
Defined.
