(* ===== verification/FilesystemBudget.v ===== *)
(** The guest's disk quota.

    [Vfs::reserve] is consulted before the guest allocates; the theorem shows
    that the calls a guest can reach keep [Vfs::bytes] at or under the ceiling
    once it is there, errors and reclaiming included. *)

From S2P Require Import Prelude BTree Abi Digest Chunk Filesystem FilesystemInv FilesystemLinks FilesystemSteps.

Section budget.
Context `{Host}.

Definition raw_bytes (v : Vfs) : Z := Fs.node_bytes (nodes v) + Store.store_bytes (chunks v).
Definition within_budget (v : Vfs) : Prop :=
  ∀ b, storage_budget v = Some b → Fs.total_bytes v ≤ b.

Lemma total_raw v : Fs.total_bytes v = Z.min (raw_bytes v) usize_max.
Proof. done. Qed.

(** A call that charges [g] bytes after [reserve] granted them. *)
Lemma reserve_within v v' g :
  0 ≤ g → Fs.reserve v g = Ok () → within_budget v → storage_budget v' = storage_budget v →
  raw_bytes v' ≤ raw_bytes v + g → within_budget v'.
Proof.
  intros Hg Hr Hw Hb Hraw b. rewrite Hb. intros Hbud. specialize (Hw b Hbud).
  revert Hr. unfold Fs.reserve, saturating_add_usize. rewrite Hbud, !total_raw in *.
  destruct (Z.eqb_spec g 0) as [->|]; [lia|].
  destruct (Z.leb_spec (Z.min (Z.min (raw_bytes v) usize_max + g) usize_max) b); [lia|done].
Qed.

(** A call that charges nothing. *)
Lemma no_growth_within v v' :
  within_budget v → storage_budget v' = storage_budget v → raw_bytes v' ≤ raw_bytes v →
  within_budget v'.
Proof. intros Hw Hb Hr b. rewrite Hb. intros Hbud. specialize (Hw b Hbud). rewrite total_raw in *. lia. Qed.

(** Capacities are [usize]s. *)
Definition caps_ok (v : Vfs) : Prop := Forall (λ n, 0 ≤ data_len (kind n)) (nodes v).

(** [v'] holds the same bytes as [v] under the same ceiling. *)
Definition same_bytes (v v' : Vfs) : Prop :=
  raw_bytes v' = raw_bytes v ∧ storage_budget v' = storage_budget v ∧ (caps_ok v → caps_ok v').
#[global] Instance same_bytes_preorder : PreOrder same_bytes.
Proof.
  split; [done|]. intros v1 v2 v3 (? & ? & ?) (? & ? & ?).
  split_and!; [congruence..|by auto].
Qed.

Lemma node_bytes_app l1 l2 : Fs.node_bytes (l1 ++ l2) = Fs.node_bytes l1 + Fs.node_bytes l2.
Proof.
  unfold Fs.node_bytes. induction l1 as [|n l1 IH]; cbn [app foldr]; [lia|]. rewrite IH. lia.
Qed.

Lemma raw_alloc v n : raw_bytes (alloc v n).1 = raw_bytes v + data_len (kind n).
Proof. unfold raw_bytes. cbn [alloc fst nodes set_nodes chunks]. rewrite node_bytes_app. cbn. lia. Qed.

Lemma set_node_same v i n n' :
  nodes v !! i = Some n → data_len (kind n') = data_len (kind n) → same_bytes v (set_node v i n').
Proof.
  intros Hn He. split_and!; [|done|].
  - unfold raw_bytes. cbn [set_node set_nodes nodes chunks].
    rewrite (node_bytes_insert _ i n) by done. lia.
  - intros Hc. apply Forall_insert; [done|]. rewrite He. by apply (Forall_lookup_1 _ _ _ _ Hc Hn).
Qed.

Lemma set_entries_same v i n es es' :
  nodes v !! i = Some n → kind n = Dir es → same_bytes v (set_entries v i es').
Proof.
  intros Hn Hk. unfold set_entries. rewrite Hn. apply (set_node_same v i n); [done|]. by rewrite Hk.
Qed.

Lemma drop_link_same v d : same_bytes v (Fs.drop_link d v).1.
Proof.
  unfold Fs.drop_link. destruct (nodes v !! d) as [n|] eqn:Hn; [|done]. cbn [fst].
  assert (Hs : same_bytes v (set_node v d (with_nlink n (saturating_sub (nlink n) 1))))
    by (by eapply set_node_same).
  by case_if.
Qed.

Lemma dir_entries_Ok v i es :
  dir_entries v i = Ok es → ∃ n, nodes v !! i = Some n ∧ kind n = Dir es.
Proof.
  unfold dir_entries, node_at. destruct (nodes v !! i) as [n|]; cbn; [|done].
  destruct (kind n) eqn:E; try done. intros [= <-]. eauto.
Qed.

Lemma set_entries_same' v i es es' : dir_entries v i = Ok es → same_bytes v (set_entries v i es').
Proof. intros (n & ? & ?)%dir_entries_Ok. by eapply set_entries_same. Qed.

(** Sequencing calls that charge nothing. *)
Lemma same_bind {A B} v (m : stm Vfs Z A) (k : A → stm Vfs Z B) :
  same_bytes v (m v).1 → (∀ a v', m v = (v', Ok a) → same_bytes v' (k a v').1) →
  same_bytes v (sbind m k v).1.
Proof.
  unfold sbind. intros Hm Hk. destruct (m v) as [v' [a|e|]]; cbn in *; [|done..].
  etransitivity; [exact Hm|]. by apply Hk.
Qed.

Lemma same_query {A B} v (f : Vfs → res Z A) (k : A → stm Vfs Z B) :
  (∀ a, f v = Ok a → same_bytes v (k a v).1) → same_bytes v (sbind (query f) k v).1.
Proof. intros Hk. unfold sbind, query. destruct (f v); [by apply Hk|done..]. Qed.

Lemma link_same p nm i v : same_bytes v (Fs.link p nm i v).1.
Proof.
  apply same_query. intros es Hes. case_if; [done|].
  eapply same_bind; [by eapply set_entries_same'|]. intros [] v' _.
  apply same_query. unfold node_at. intros n Hn. destruct (nodes v' !! i) eqn:E; [|done].
  apply same_query. intros c _. cbn in *. simplify_eq. by eapply set_node_same.
Qed.

Lemma unlink_same p nm rmdir v : same_bytes v (Fs.unlink p nm rmdir v).1.
Proof.
  apply same_query. intros es Hes. apply same_query. intros x _. apply same_query. intros n _.
  apply same_query. intros [] _. eapply same_bind; [by eapply set_entries_same'|].
  intros [] v' _. apply drop_link_same.
Qed.

Lemma rename_same op on np nn v : same_bytes v (Fs.rename op on np nn v).1.
Proof.
  apply same_query. intros es _. apply same_query. intros x _. apply same_query. intros ne _.
  apply same_query. intros [] _. apply same_query. intros es' Hes'.
  eapply same_bind; [by eapply set_entries_same'|]. intros [] v1 _.
  apply same_query. intros es2 Hes2. eapply same_bind; [by eapply set_entries_same'|]. intros [] v2 _.
  eapply same_bind.
  { destruct (bt_get es2 nn); [|done]. case_if; [done|apply drop_link_same]. }
  intros [] v3 _. apply same_query. unfold node_at. intros n Hn.
  destruct (nodes v3 !! x) eqn:E; [|done]. cbn in *. simplify_eq. by eapply set_node_same.
Qed.

Lemma mkdir_loop_same cs cur v : same_bytes v (Fs.mkdir_loop cs cur v).1.
Proof.
  revert cur v. induction cs as [|c cs IH]; intros cur v; cbn [Fs.mkdir_loop]; [done|].
  case_bool_decide; [apply same_query; intros; apply IH|].
  apply same_query. intros es _. destruct (bt_get es c) as [x|].
  - apply same_query. intros [] _; [apply IH|done].
  - eapply same_bind.
    { unfold Fs.alloc_node. cbn [alloc fst]. split_and!; [|done|].
      - etransitivity; [apply (raw_alloc v)|]. cbn. lia.
      - intros Hc. apply Forall_app. split; [done|]. by constructor. }
    intros i v1 _. apply same_query. intros es1 Hes1.
    eapply same_bind; [by eapply set_entries_same'|]. intros [] v2 _. apply IH.
Qed.

Lemma release_loop_freed referenced todo l freed still :
  0 ≤ freed → Forall (λ n, 0 ≤ data_len (kind n)) l →
  let r := Fs.release_loop referenced todo l freed still in
  0 ≤ r.1.2 ∧ Forall (λ n, 0 ≤ data_len (kind n)) r.1.1.
Proof.
  revert l freed still. induction todo as [|i todo IH]; intros l freed still Hf Hl; [done|].
  cbn [Fs.release_loop]. case_bool_decide; [by apply IH|].
  destruct (l !! i) as [n|] eqn:Hn; [|by apply IH].
  apply IH; [|by apply Forall_insert]. pose proof (Forall_lookup_1 _ _ _ _ Hl Hn). cbn in *. lia.
Qed.

Lemma release_less referenced v :
  caps_ok v →
  raw_bytes (Fs.release_unreferenced referenced v).1 ≤ raw_bytes v ∧
  storage_budget (Fs.release_unreferenced referenced v).1 = storage_budget v ∧
  caps_ok (Fs.release_unreferenced referenced v).1.
Proof.
  intros Hc. pose proof (release_loop_spec referenced (unlinked v) (nodes v) 0 []) as Hr.
  destruct (release_loop_freed referenced (unlinked v) (nodes v) 0 []) as [Hf Hl]; [done..|].
  unfold Fs.release_unreferenced, raw_bytes.
  destruct (Fs.release_loop _ _ _ _ _) as [[l f] st]. destruct Hr as (_ & Hr & _).
  cbn [fst snd nodes chunks set_nodes set_unlinked storage_budget] in *. split_and!; [lia|done..].
Qed.

(** The calls the quota governs, with the capacities they bring. *)
Definition guest_call (c : fs_call) : Prop :=
  match c with
  | CCreate _ _ k _ => 0 ≤ data_len k
  | CPutChunk _ b => 0 ≤ vcap b
  | CMkdirP _ | CLink _ _ _ | CUnlink _ _ _ | CRename _ _ _ _ | CRelease _ | CMaterialize _ => True
  | _ => False
  end.
Definition budget_inv (v : Vfs) : Prop := within_budget v ∧ caps_ok v.

Lemma same_bytes_inv v v' : same_bytes v v' → budget_inv v → budget_inv v'.
Proof.
  intros (Hr & Hb & Hc) [Hw Hcap]. split; [|auto]. eapply no_growth_within; [exact Hw|done|lia].
Qed.

Lemma create_within p nm k md v :
  0 ≤ data_len k → budget_inv v → budget_inv (Fs.create p nm k md v).1.
Proof.
  intros Hk [Hw Hc]. unfold Fs.create. case_if; [done|].
  unfold sbind at 1, query at 1. destruct (Fs.reserve v (data_len k)) as [[]| |] eqn:Hr; [|done..].
  set (nd := {| kind := k; mode := md; nlink := new_nlink k; mtime_sec := 0; n_parent := p |}).
  unfold sbind at 1, Fs.alloc_node. cbn [alloc]. change (set_nodes v _) with (alloc v nd).1.
  assert (Hinv : budget_inv (alloc v nd).1).
  { split; [|apply Forall_app; split; [done|by constructor]].
    eapply reserve_within; [exact Hk|done..|]. rewrite raw_alloc. cbn. lia. }
  eapply same_bytes_inv; [|exact Hinv]. apply same_query. intros es Hes. case_if; [done|].
  eapply same_bind; [by eapply set_entries_same'|]. done.
Qed.

Lemma put_chunk_within h b v : 0 ≤ vcap b → budget_inv v → budget_inv (Fs.put_chunk h b v).1.
Proof.
  intros Hb [Hw Hc]. unfold Fs.put_chunk, Store.contains, bt_mem, Store.insert.
  destruct (bt_get (resident_chunks (chunks v)) h) as [w|] eqn:Hg.
  { case_if; [split; [|done]|done]. eapply no_growth_within; [exact Hw|done|]; apply Z.le_refl. }
  destruct (Fs.reserve v (vcap b)) as [[]| |] eqn:Hr; [|done..].
  case_if; [|done]. split; [|done]. eapply reserve_within; [exact Hb|done..|].
  unfold raw_bytes, Store.store_bytes. cbn [set_chunks nodes chunks resident_chunks fst].
  rewrite sum_caps_insert by done. lia.
Qed.

Lemma read_capacity v f b : file_wf f → Fs.read_chunked_range v f 0 usize_max = Ok (Ready b) → 0 ≤ vcap b.
Proof.
  intros Hf. unfold Fs.read_chunked_range. pose proof usize_max_bounds as Hu. unfold_widths.
  destruct (read_range_cases (chunks v) f 0 usize_max Hf) as [[_ ->]|(Hlt & r & -> & Hr)]; [done|lia|..].
  - by intros [= <-].
  - intros [= ->]. inversion Hr; subst. cbn.
    pose proof (alloc_exact_ge (Z.min (saturating_add64 0 usize_max) (cf_size f) - 0)). lia.
Qed.

Lemma materialize_within i v : vfs_wf v → budget_inv v → budget_inv (Fs.materialize_file i v).1.
Proof.
  intros Hv [Hw Hc]. unfold Fs.materialize_file, sbind, query.
  destruct (nodes v !! i) as [n|] eqn:Hn; cbn; [|done].
  destruct (vfs_wf_node v i n Hv Hn) as [_ Hk].
  destruct (kind n) as [|?|f| |] eqn:Ek; try done.
  destruct (Fs.read_chunked_range v f 0 usize_max) as [[b|h|]| |] eqn:Er; cbn; try done.
  apply read_capacity in Er; [|done].
  destruct (Fs.reserve v (vcap b)) as [[]| |] eqn:Hr; [|done..]. unfold node_at. rewrite Hn. cbn [expect modify].
  split; cbn [fst]; [|by apply Forall_insert].
  eapply reserve_within; [exact Er|done..|]. unfold raw_bytes. cbn [set_node set_nodes nodes chunks].
  rewrite (node_bytes_insert _ i n) by done. rewrite Ek. cbn. lia.
Qed.

Lemma guest_call_within v c : vfs_wf v → guest_call c → budget_inv v → budget_inv (exec c v).1.
Proof.
  intros Hv. destruct c; cbn [guest_call exec discard fst]; intros Hc; try done.
  - apply same_bytes_inv, mkdir_loop_same.
  - by apply create_within.
  - apply same_bytes_inv, link_same.
  - apply same_bytes_inv, unlink_same.
  - apply same_bytes_inv, rename_same.
  - intros [Hw Hcap]. destruct (release_less referenced v Hcap) as (? & ? & ?).
    split; [by eapply no_growth_within|done].
  - by apply put_chunk_within.
  - by apply materialize_within.
Qed.
End budget.

(** Guest calls only. *)
Inductive guest_step `{Host} (v : Vfs) : Vfs → Prop :=
| guest_step_call c : call_ok v c → guest_call c → guest_step v (exec c v).1.

(** The storage budget is a ceiling: from a well-formed filesystem that is
    within its budget, no sequence of guest calls (create, link, unlink, rename,
    mkdir, reclaiming, chunk arrival, materialization) takes the bytes held
    above it, including calls that fail after allocating. *)
Theorem storage_budget_kept `{Host} v0 v :
  vfs_wf v0 → budget_inv v0 → rtc guest_step v0 v → within_budget v.
Proof.
  intros Hv Hb Hs. revert Hv Hb.
  induction Hs as [v|v1 v2 v3 [c Hok Hg] _ IH]; intros Hv Hb; [apply Hb|].
  apply IH; [by apply exec_arena_ok|by apply guest_call_within].
Qed.

(** A root with room for ten bytes. *)
Definition small_disk : Vfs :=
  {| nodes := nodes Fs.empty_root; chunks := store_default; manifest_root := None;
     storage_budget := Some 10; unlinked := [] |}.
Lemma storage_budget_kept_witness :
  within_budget (exec (CCreate 0 [97] (Symlink (Vec [1; 2; 3] 8)) 420) small_disk).1.
Proof.
  apply (storage_budget_kept small_disk).
  - split; cbn; [lia|]. repeat constructor.
  - split; [intros b [= <-]; vm_compute; congruence|]. repeat constructor; vm_compute; congruence.
  - eapply rtc_l; [|apply rtc_refl]. constructor; [split; cbn; [lia|done]|vm_compute; congruence].
Defined.
