(* ===== verification/Snapshot.v ===== *)
(** Filesystem snapshots.

    Models [Vfs::serialize] and [Vfs::deserialize] of
    [crates/linux-compat/src/vfs.rs]. The reader is a function from the bytes
    left to a value and the bytes after it. The theorems: a snapshot restores
    the filesystem it was taken of, whatever trailing state is transport only;
    and any bytes at all either are refused or restore a well-formed arena. *)

From S2P Require Import Prelude BTree Abi Digest Chunk Filesystem FilesystemInv FilesystemLinks FilesystemSteps FilesystemPaths.

Definition SNAPSHOT_MAGIC : bytes := [87; 84; 70; 83].
Definition SNAPSHOT_VERSION : Z := 3.
Definition MIN_NODE_BYTES : Z := 8 + 4 + 8 + 8 + 1.

Inductive SnapError :=
| Truncated
| NotAnImage
| UnsupportedVersion
| InvalidRootTag
| Implausible
| TooLargeForHost
| BadChildIndex
| BadParentIndex
| UnknownDevice (tag : Z)
| UnknownNode (tag : Z)
| HashTableTooLarge
| BadLayout (e : LayoutError)
| TrailingBytes
| NoManifestRoot.

(** * Writing *)
Definition dev_tag (d : Dev) : Z :=
  match d with DevNull => 0 | DevZero => 1 | DevTty => 2 | DevRandom => 3 | DevPtmx => 5 end.

Definition write_entry (e : bytes * nat) : bytes :=
  le_bytes 2 (zlen e.1) ++ e.1 ++ le_bytes 8 (Z.of_nat e.2).

Definition write_kind (k : NodeKind) : bytes :=
  match k with
  | Dir entries => [1] ++ le_bytes 4 (zlen entries) ++ concat (map write_entry entries)
  | File data => [2] ++ le_bytes 8 (vlen data) ++ vdata data
  | Chunked file =>
      [5] ++ le_bytes 8 (cf_size file) ++ le_bytes 4 (chunk_size file) ++
      le_bytes 8 (zlen (cf_chunks file)) ++ concat (cf_chunks file)
  | Symlink target => [3] ++ le_bytes 2 (vlen target) ++ vdata target
  | CharDev dev => [4; dev_tag dev]
  end.

Definition write_node (n : Node) : bytes :=
  le_bytes 8 (Z.of_nat (n_parent n)) ++ le_bytes 4 (mode n) ++ le_bytes 8 (nlink n) ++
  le_bytes 8 (mtime_sec n) ++ write_kind (kind n).

Definition serialize (v : Vfs) : bytes :=
  SNAPSHOT_MAGIC ++ le_bytes 4 SNAPSHOT_VERSION ++
  match manifest_root v with Some root => 1 :: root | None => [0] end ++
  le_bytes 4 (zlen (nodes v)) ++ concat (map write_node (nodes v)).

(** * Reading *)
Definition reader (A : Type) : Type := bytes → res SnapError (A * bytes).

Definition r_take (n : Z) : reader bytes := λ r,
  if zlen r <? n then Err Truncated
  else Ok (take (Z.to_nat n) r, drop (Z.to_nat n) r).
(** [u8], [u16], [u32], [u64]: [n] bytes, little-endian. *)
Definition r_word (n : nat) : reader Z := λ r,
  let! '(b, r) := r_take (Z.of_nat n) r in Ok (le_val b, r).
Definition r_i64 : reader Z := λ r,
  let! '(x, r) := r_word 8 r in Ok (if x <? 2 ^ 63 then x else x - 2 ^ 64, r).
Definition index_of `{Host} (x : Z) : res SnapError nat :=
  match try_usize x with Some i => Ok (Z.to_nat i) | None => Err TooLargeForHost end.

Fixpoint r_entries `{Host} (n : nat) (count : nat) (m : btree bytes nat) : reader (btree bytes nat) := λ r,
  match n with
  | O => Ok (m, r)
  | S n =>
      let! '(len, r) := r_word 2 r in
      let! '(name, r) := r_take len r in
      let! '(c, r) := r_word 8 r in
      let! child := index_of c in
      if (count <=? child)%nat then Err BadChildIndex
      else r_entries n count (bt_insert m name child) r
  end.

Definition dev_of (tag : Z) : res SnapError Dev :=
  if tag =? 0 then Ok DevNull
  else if tag =? 1 then Ok DevZero
  else if tag =? 2 then Ok DevTty
  else if tag =? 3 then Ok DevRandom
  else if tag =? 5 then Ok DevPtmx
  else Err (UnknownDevice tag).

Definition lift_layout {A} (m : res LayoutError A) : res SnapError A :=
  match m with Ok a => Ok a | Err e => Err (BadLayout e) | Panic => Panic end.

Definition r_kind `{Host} (version : Z) (count : nat) : reader NodeKind := λ r,
  let! '(tag, r) := r_word 1 r in
  if tag =? 1 then
    let! '(entries, r) := r_word 4 r in
    let! '(m, r) := r_entries (Z.to_nat (as_usize entries)) count [] r in
    Ok (Dir m, r)
  else if tag =? 2 then
    let! '(l, r) := r_word 8 r in
    let! len := index_of l in
    let! '(b, r) := r_take (Z.of_nat len) r in
    Ok (File (to_vec b), r)
  else if tag =? 3 then
    let! '(len, r) := r_word 2 r in
    let! '(b, r) := r_take len r in
    Ok (Symlink (to_vec b), r)
  else if tag =? 4 then
    let! '(d, r) := r_word 1 r in
    let! dev := dev_of d in
    Ok (CharDev dev, r)
  else if (tag =? 5) && (2 <=? version) then
    let! '(size, r) := r_word 8 r in
    let! '(csz, r) := r_word 4 r in
    let! '(c, r) := r_word 8 r in
    let! n := index_of c in
    let! hashes_len := ok_or (checked_mul_usize (Z.of_nat n) 32) HashTableTooLarge in
    let! '(hashes, r) := r_take hashes_len r in
    let! file := lift_layout (Layout.new size csz (as_chunks 32 hashes).1) in
    Ok (Chunked file, r)
  else Err (UnknownNode tag).

Definition r_node_of `{Host} (version : Z) (count : nat) : reader Node := λ r,
  let! '(p, r) := r_word 8 r in
  let! parent := index_of p in
  let! '(md, r) := r_word 4 r in
  let! '(nl, r) := r_word 8 r in
  let! '(mt, r) := r_i64 r in
  let! '(k, r) := r_kind version count r in
  if (count <=? parent)%nat then Err BadParentIndex
  else Ok ({| kind := k; mode := md; nlink := nl; mtime_sec := mt; n_parent := parent |}, r).

Fixpoint r_nodes `{Host} (n : nat) (version : Z) (count : nat) : reader (list Node) := λ r,
  match n with
  | O => Ok ([], r)
  | S n =>
      let! '(x, r) := r_node_of version count r in
      let! '(l, r) := r_nodes n version count r in
      Ok (x :: l, r)
  end.

Definition r_root (version : Z) : reader (option Hash) := λ r,
  if 3 <=? version then
    let! '(tag, r) := r_word 1 r in
    if tag =? 0 then Ok (None, r)
    else if tag =? 1 then let! '(h, r) := r_take 32 r in Ok (Some h, r)
    else Err InvalidRootTag
  else Ok (None, r).

Definition is_chunked (n : Node) : bool := match kind n with Chunked _ => true | _ => false end.

Definition deserialize `{Host} (b : bytes) : res SnapError Vfs :=
  let! '(magic, r) := r_take 4 b in
  if negb (bool_decide (magic = SNAPSHOT_MAGIC)) then Err NotAnImage
  else
    let! '(version, r) := r_word 4 r in
    if negb ((1 <=? version) && (version <=? SNAPSHOT_VERSION)) then Err UnsupportedVersion
    else
      let! '(root, r) := r_root version r in
      let! '(c, r) := r_word 4 r in
      let count := as_usize c in
      if (count =? 0) || (4000000 <? count) then Err Implausible
      else if zlen r <? saturating_mul_usize count MIN_NODE_BYTES then Err Implausible
      else
        let! '(l, r) := r_nodes (Z.to_nat count) version (Z.to_nat count) r in
        if negb (bool_decide (r = [])) then Err TrailingBytes
        else if bool_decide (root = None) && existsb is_chunked l then Err NoManifestRoot
        else Ok {| nodes := l; chunks := store_default; manifest_root := root;
                   storage_budget := None; unlinked := [] |}.

(** * Round trip *)
Section roundtrip.
Context `{Host}.

Lemma r_take_app n b r : zlen b = n → r_take n (b ++ r) = Ok (b, r).
Proof.
  intros <-. unfold r_take. rewrite zlen_app. pose proof (zlen_nonneg r).
  rewrite (proj2 (Z.ltb_ge _ _)) by lia. unfold zlen. rewrite Nat2Z.id.
  by rewrite take_app_length, drop_app_length.
Qed.

Lemma r_word_app n x r : fits (8 * Z.of_nat n) x → r_word n (le_bytes n x ++ r) = Ok (x, r).
Proof.
  intros Hx. unfold r_word. rewrite r_take_app by apply zlen_le_bytes. cbn.
  by rewrite le_val_bytes_id.
Qed.

Lemma le_bytes_mod n x : le_bytes n (x mod 2 ^ (8 * Z.of_nat n)) = le_bytes n x.
Proof.
  revert x. induction n as [|n IH]; intros x; [done|]. cbn [le_bytes].
  replace (8 * Z.of_nat (S n)) with (8 + 8 * Z.of_nat n) by lia.
  rewrite Z.pow_add_r by lia. change (2 ^ 8) with 256.
  rewrite Z.rem_mul_r by lia. f_equal.
  - rewrite (Z.mul_comm 256), Z.mod_add by lia. by rewrite Z.mod_mod by lia.
  - rewrite (Z.mul_comm 256), Z.div_add by lia. rewrite (Z.div_small (x mod 256)).
    + rewrite Z.add_0_l. apply IH.
    + by apply Z.mod_pos_bound.
Qed.

Lemma r_i64_app x r : - 2 ^ 63 ≤ x < 2 ^ 63 → r_i64 (le_bytes 8 x ++ r) = Ok (x, r).
Proof.
  intros Hx. unfold r_i64. rewrite <- le_bytes_mod, r_word_app.
  2:{ unfold fits. apply Z.mod_pos_bound. lia. }
  cbn [rbind]. change (8 * Z.of_nat 8) with 64. do 2 f_equal.
  destruct (Z.leb_spec 0 x).
  - rewrite Z.mod_small by lia. by rewrite (proj2 (Z.ltb_lt _ _)) by lia.
  - assert (x mod 2 ^ 64 = x + 2 ^ 64) as ->.
    { symmetry. apply Z.mod_unique with (-1); lia. }
    rewrite (proj2 (Z.ltb_ge _ _)) by lia. f_equal. lia.
Qed.

Lemma index_of_nat i : Z.of_nat i ≤ usize_max → index_of (Z.of_nat i) = Ok i.
Proof.
  intros Hi. unfold index_of, try_usize. rewrite (proj2 (Z.leb_le _ _)) by done. by rewrite Nat2Z.id.
Qed.

Lemma r_entries_app count es m r :
  Forall (λ e, zlen e.1 ≤ U16_MAX ∧ (e.2 < count)%nat) es → Z.of_nat count ≤ usize_max →
  bt_sorted (m ++ es) →
  r_entries (length es) count m (concat (map write_entry es) ++ r) = Ok (m ++ es, r).
Proof.
  intros Hall Hc. revert m. induction Hall as [|[nm x] es [Hnm Hx] _ IH]; intros m Hs; cbn [length map concat r_entries].
  { by rewrite app_nil_r. }
  unfold write_entry. cbn [fst snd] in *. rewrite <- !app_assoc.
  pose proof (zlen_nonneg nm). pose proof usize_max_bounds.
  rewrite r_word_app by (unfold_widths; cbn in *; lia). cbn [rbind].
  rewrite r_take_app by done. cbn [rbind].
  rewrite r_word_app by (unfold_widths; cbn in *; lia). cbn [rbind].
  rewrite index_of_nat by lia. cbn [rbind].
  rewrite (proj2 (Nat.leb_gt _ _)) by done.
  rewrite bt_insert_snoc.
  - rewrite IH by (by rewrite <- app_assoc). by rewrite <- app_assoc.
  - clear - Hs. induction m as [|[k v] m IHm]; constructor; cbn in Hs.
    + destruct Hs as [Hk _]. apply Forall_app in Hk as [_ [Hk _]%Forall_cons]. exact Hk.
    + destruct Hs as [_ Hs]. by apply IHm.
Qed.

(** What a snapshot can represent: field widths, and a manifest root when a
    file is only named by its hashes. *)
Definition kind_fits (count : nat) (k : NodeKind) : Prop :=
  match k with
  | Dir es => zlen es ≤ U32_MAX ∧ Forall (λ e, zlen e.1 ≤ U16_MAX ∧ (e.2 < count)%nat) es ∧ bt_sorted es
  | File data => vlen data ≤ usize_max
  | Symlink target => vlen target ≤ U16_MAX
  | Chunked f =>
      is_u64 (cf_size f) ∧ 0 < chunk_size f ≤ U32_MAX ∧ chunk_size f mod 4096 = 0 ∧
      zlen (cf_chunks f) = div_ceil (cf_size f) (chunk_size f) ∧
      zlen (cf_chunks f) * 32 ≤ usize_max ∧ whole 32 (cf_chunks f)
  | CharDev _ => True
  end.
Definition node_fits (count : nat) (n : Node) : Prop :=
  (n_parent n < count)%nat ∧ is_u32 (mode n) ∧ is_u64 (nlink n) ∧
  - 2 ^ 63 ≤ mtime_sec n < 2 ^ 63 ∧ kind_fits count (kind n).
Definition snapshot_fits (v : Vfs) : Prop :=
  1 ≤ zlen (nodes v) ≤ 4000000 ∧
  Forall (node_fits (length (nodes v))) (nodes v) ∧
  match manifest_root v with
  | Some root => zlen root = 32
  | None => Forall (λ n, is_chunked n = false) (nodes v)
  end.

(** The node a snapshot restores: the same, in fresh buffers. *)
Definition restored_node (n : Node) : Node :=
  with_kind n (match kind n with
               | File data => File (to_vec (vdata data))
               | Symlink target => Symlink (to_vec (vdata target))
               | k => k
               end).
Definition restored (v : Vfs) : Vfs :=
  {| nodes := map restored_node (nodes v); chunks := store_default;
     manifest_root := manifest_root v; storage_budget := None; unlinked := [] |}.

Lemma r_tag_app t r : 0 ≤ t < 256 → r_word 1 (t :: r) = Ok (t, r).
Proof.
  intros Ht. change (t :: r) with ([t] ++ r).
  replace [t] with (le_bytes 1 t) by (cbn; by rewrite Z.mod_small by lia).
  by apply r_word_app.
Qed.

Lemma layout_new_ok sz csz hs :
  0 ≤ sz → csz ≠ 0 → 0 ≤ csz → csz mod 4096 = 0 → zlen hs = div_ceil sz csz →
  Layout.new sz csz hs = Ok {| cf_size := sz; chunk_size := csz; cf_chunks := hs |}.
Proof.
  intros Hsz Hne Hcsz Hmod Hl. unfold Layout.new, is_multiple_of.
  rewrite Hmod, (proj2 (Z.eqb_neq csz 0)) by done. cbn.
  destruct (Z.eqb_spec sz 0) as [->|].
  - assert (div_ceil 0 csz = 0) as E by (apply Z.div_small; lia). rewrite E in Hl.
    rewrite bool_decide_eq_true_2; [done|]. destruct hs; [done|]. rewrite zlen_cons in Hl.
    pose proof (zlen_nonneg hs). lia.
  - by rewrite Hl, Z.eqb_refl.
Qed.

Lemma r_kind_app count k r :
  kind_fits count k → Z.of_nat count ≤ usize_max →
  r_kind SNAPSHOT_VERSION count (write_kind k ++ r) =
    Ok (kind (restored_node {| kind := k; mode := 0; nlink := 0; mtime_sec := 0; n_parent := 0 |}), r).
Proof.
  intros Hk Hc. pose proof usize_max_bounds as Hu. unfold r_kind.
  destruct k as [es|data|f|t|d]; cbn [write_kind app kind_fits] in *; rewrite r_tag_app by lia;
    cbn [rbind Z.eqb Pos.eqb]; rewrite <- ?app_assoc.
  - destruct Hk as (Hl & Hall & Hs). pose proof (zlen_nonneg es).
    rewrite r_word_app by (unfold_widths; cbn in *; lia). cbn [rbind].
    rewrite as_usize_small by lia. unfold zlen at 1. rewrite Nat2Z.id.
    by rewrite (r_entries_app count es []).
  - assert (0 ≤ vlen data) by (unfold vlen; lia).
    rewrite r_word_app by (unfold_widths; cbn in *; lia). cbn [rbind].
    unfold vlen in *. rewrite index_of_nat by done. cbn [rbind]. by rewrite r_take_app.
  - destruct Hk as (Hsz & Hcs & Hmod & Hl & Hus & Hw). pose proof (zlen_nonneg (cf_chunks f)).
    change (_ && (2 <=? SNAPSHOT_VERSION)) with true. cbv iota.
    rewrite r_word_app by done. cbn [rbind].
    rewrite r_word_app by (unfold_widths; cbn in *; lia). cbn [rbind].
    rewrite r_word_app by (unfold_widths; cbn in *; lia). cbn [rbind].
    unfold zlen at 1. rewrite index_of_nat by (unfold zlen in *; lia). cbn [rbind].
    unfold checked_mul_usize. fold (zlen (cf_chunks f)). rewrite (proj2 (Z.leb_le _ _)) by done. cbn [ok_or rbind].
    rewrite r_take_app.
    2:{ unfold zlen. rewrite (whole_concat_length 32) by done. lia. }
    cbn [rbind]. rewrite <- (app_nil_r (concat (cf_chunks f))), as_chunks_concat by (done || cbn; lia).
    cbn [fst]. unfold fits in Hsz. rewrite layout_new_ok by (lia || done). by destruct f.
  - assert (0 ≤ vlen t) by (unfold vlen; lia).
    rewrite r_word_app by (unfold_widths; cbn in *; lia). cbn [rbind]. by rewrite r_take_app.
  - rewrite r_tag_app by (destruct d; cbn; lia). cbn [rbind]. by destruct d.
Qed.

Lemma r_node_app count n r :
  node_fits count n → Z.of_nat count ≤ usize_max →
  r_node_of SNAPSHOT_VERSION count (write_node n ++ r) = Ok (restored_node n, r).
Proof.
  intros (Hp & Hm & Hn & Ht & Hk) Hc. pose proof usize_max_bounds as Hu.
  unfold r_node_of, write_node. rewrite <- !app_assoc.
  rewrite r_word_app by (unfold_widths; cbn in *; lia). cbn [rbind].
  rewrite index_of_nat by lia. cbn [rbind]. rewrite r_word_app by done. cbn [rbind].
  rewrite r_word_app by done. cbn [rbind]. rewrite r_i64_app by done. cbn [rbind].
  rewrite r_kind_app by done. cbn [rbind]. rewrite (proj2 (Nat.leb_gt _ _)) by done.
  by destruct n.
Qed.

Lemma r_nodes_app count l r :
  Forall (node_fits count) l → Z.of_nat count ≤ usize_max →
  r_nodes (length l) SNAPSHOT_VERSION count (concat (map write_node l) ++ r) =
    Ok (map restored_node l, r).
Proof.
  intros Hall Hc. induction Hall as [|n l Hn _ IH]; cbn [length map concat r_nodes]; [done|].
  rewrite <- app_assoc, r_node_app by done. cbn [rbind]. by rewrite IH.
Qed.

Lemma write_node_length n : MIN_NODE_BYTES ≤ zlen (write_node n).
Proof.
  unfold write_node, write_kind. destruct (kind n); autorewrite with zlen; unfold MIN_NODE_BYTES;
    repeat match goal with |- context [zlen ?l] => pose proof (zlen_nonneg l); generalize dependent (zlen l); intros end; lia.
Qed.

Lemma write_nodes_length l : zlen l * MIN_NODE_BYTES ≤ zlen (concat (map write_node l)).
Proof.
  induction l as [|n l IH]; [done|]. cbn [map concat]. rewrite zlen_app, zlen_cons.
  pose proof (write_node_length n). lia.
Qed.
End roundtrip.

(** C33. Snapshots round-trip: reading back what [serialize] wrote restores
    every node (kind, contents, names, links, mode, time, parent) at its index
    and the manifest root. Only the chunk cache, the budget and the list of
    unlinked nodes, which are not part of an image, start afresh. *)
Theorem snapshot_roundtrip `{Host} v :
  snapshot_fits v → deserialize (serialize v) = Ok (restored v).
Proof.
  intros (Hlen & Hall & Hroot). pose proof usize_max_bounds as Hu. unfold deserialize, serialize.
  rewrite r_take_app by done. cbn [rbind]. rewrite bool_decide_eq_true_2 by done. cbn [negb].
  rewrite r_word_app by (vm_compute; split; congruence). cbn [rbind].
  change (negb ((1 <=? SNAPSHOT_VERSION) && (SNAPSHOT_VERSION <=? SNAPSHOT_VERSION))) with false. cbv iota.
  set (tail := le_bytes 4 _ ++ _).
  assert (Hr : r_root SNAPSHOT_VERSION
    (match manifest_root v with Some root => 1 :: root | None => [0] end ++ tail) = Ok (manifest_root v, tail)).
  { unfold r_root. change (3 <=? SNAPSHOT_VERSION) with true. cbv iota.
    destruct (manifest_root v) as [root|]; cbn [app]; rewrite r_tag_app by lia; cbn [rbind Z.eqb Pos.eqb]; [|done].
    by rewrite r_take_app. }
  rewrite Hr. cbn [rbind]. subst tail. rewrite r_word_app by (unfold_widths; cbn; lia). cbn [rbind].
  rewrite as_usize_small by (unfold_widths; lia). cbv zeta.
  rewrite (proj2 (Z.eqb_neq _ _)), (proj2 (Z.ltb_ge 4000000 _)) by lia. cbn [orb].
  rewrite (proj2 (Z.ltb_ge _ _)).
  2:{ etransitivity; [apply Z.le_min_l|apply write_nodes_length]. }
  unfold zlen. rewrite Nat2Z.id, <- (app_nil_r (concat _)), r_nodes_app.
  2:{ done. } 2:{ unfold zlen, U32_MAX in *. lia. }
  cbn [rbind]. rewrite bool_decide_eq_true_2 by done. cbn [negb].
  destruct (manifest_root v) as [root|] eqn:Er; [unfold restored; by rewrite Er|].
  rewrite bool_decide_eq_true_2 by done. cbn [andb].
  assert (existsb is_chunked (map restored_node (nodes v)) = false) as ->.
  { clear - Hroot. induction Hroot as [|n l Hn _ IH]; [done|]. cbn [map existsb]. rewrite IH, orb_false_r.
    unfold is_chunked, restored_node in *. cbn. by destruct (kind n). }
  unfold restored. by rewrite Er.
Qed.

Lemma snapshot_roundtrip_witness : deserialize (serialize nested) = Ok (restored nested).
Proof.
  apply snapshot_roundtrip. split; [vm_compute; split; congruence|]. split; [|by repeat constructor].
  repeat constructor; try (vm_compute; congruence); try (vm_compute; lia).
Defined.

(** * Hostile images *)

(** Reading from [r] yields a value satisfying [P] and shorter input, or an
    error; never a panic. Images are limited to what a 32-bit host can hold. *)
Definition ok_read {A} (P : A → Prop) (m : reader A) : Prop :=
  ∀ r, byte_list r → zlen r ≤ U32_MAX →
  match m r with
  | Ok (a, r') => P a ∧ byte_list r' ∧ zlen r' ≤ U32_MAX
  | Err _ => True
  | Panic => False
  end.

(** One read of a [let!] chain. *)
Ltac read_step L :=
  match goal with
  | Hb : byte_list ?r, Hl : zlen ?r ≤ U32_MAX |- context [rbind (?m ?r) _] =>
      let X := fresh "X" in pose proof (L r Hb Hl) as X;
      let x := fresh "x" in let r' := fresh "r" in
      destruct (m r) as [[x r']|?|]; [|exact I|destruct X];
      let Hx := fresh "Hx" in let Hb' := fresh "Hb" in let Hl' := fresh "Hl" in
      destruct X as (Hx & Hb' & Hl'); clear Hb Hl; cbn [rbind]
  end.

Section hostile.
Context `{Host}.

Lemma ok_take n : 0 ≤ n → ok_read (λ b, zlen b = n ∧ byte_list b ∧ zlen b ≤ U32_MAX) (r_take n).
Proof.
  intros Hn r Hb Hl. unfold r_take. case_if; [done|]. bool_to_prop.
  split_and!; eauto with rust; unfold zlen in *; rewrite ?length_take, ?length_drop; lia.
Qed.

Lemma ok_word n : ok_read (fits (8 * Z.of_nat n)) (r_word n).
Proof.
  intros r Hb Hl. unfold r_word. read_step (ok_take (Z.of_nat n) ltac:(lia)).
  destruct Hx as (Hx & Hy & _). apply le_val_bound in Hy. by rewrite Hx in Hy.
Qed.

Lemma ok_i64 : ok_read (λ _, True) r_i64.
Proof. intros r Hb Hl. unfold r_i64. by read_step (ok_word 8). Qed.

Lemma index_of_Ok x i : 0 ≤ x → index_of x = Ok i → Z.of_nat i = x ∧ x ≤ usize_max.
Proof.
  intros Hx. unfold index_of, try_usize. case_if; [|done]. bool_to_prop. intros [= <-]. lia.
Qed.
Lemma index_of_no_panic x : index_of x ≠ Panic.
Proof. unfold index_of. by destruct (try_usize x). Qed.

Lemma ok_entries n count m :
  bt_sorted m → Forall (λ e, (e.2 < count)%nat) m →
  ok_read (λ m', bt_sorted m' ∧ Forall (λ e, (e.2 < count)%nat) m') (r_entries n count m).
Proof.
  revert m. induction n as [|n IH]; intros m Hs Hall r Hb Hl; cbn [r_entries]; [done|].
  read_step (ok_word 2). read_step (ok_take x (proj1 Hx)). read_step (ok_word 8).
  pose proof (index_of_no_panic x1). destruct (index_of x1) as [i|e|]; [|done..]. cbn [rbind].
  destruct (Nat.leb_spec count i); [done|].
  apply IH; [by apply bt_insert_sorted|by apply bt_insert_Forall|done..].
Qed.

Lemma layout_new_wf sz csz hs f :
  is_u64 sz → is_u32 csz → zlen hs ≤ 2 ^ 27 → Layout.new sz csz hs = Ok f → file_wf f.
Proof.
  intros Hsz Hcsz Hn. unfold Layout.new, is_multiple_of. pose proof usize_max_bounds as Hu.
  assert (Hmain : csz ≠ 0 → csz mod 4096 = 0 → zlen hs = div_ceil sz csz →
    file_wf {| cf_size := sz; chunk_size := csz; cf_chunks := hs |}).
  { intros Hne Hmod Hl. unfold file_wf. cbn [cf_size chunk_size cf_chunks].
    destruct (div_ceil_spec sz csz) as [Hd|Hd]; unfold_widths; [lia..| |];
      (split_and!; [lia..|done|done|lia|]); [nia|lia]. }
  destruct (Z.eqb_spec sz 0) as [->|Hsz0].
  - case_bool_decide as He; cbn; [|done]. destruct (Z.eqb_spec csz 0); cbn; [done|].
    destruct (Z.eqb_spec (csz mod 4096) 0); [|done]. intros [= <-]. subst.
    apply Hmain; [done..|]. symmetry. apply Z.div_small. unfold_widths. lia.
  - destruct (Z.eqb_spec csz 0); cbn; [done|]. destruct (Z.eqb_spec (csz mod 4096) 0); cbn; [|done].
    destruct (Z.eqb_spec (div_ceil sz csz) (zlen hs)); cbn; [|done]. intros [= <-]. by apply Hmain.
Qed.

Lemma as_chunks_count l : zlen l ≤ U32_MAX → zlen (as_chunks 32 l).1 ≤ 2 ^ 27.
Proof.
  intros Hl. destruct (as_chunks_split 32 l) as (bs & r & -> & E & Hw & _); [lia|]. cbn [fst].
  assert (length l = (length bs * 32 + length r)%nat)
    by (by rewrite E, length_app, (whole_concat_length 32) by done).
  unfold zlen, U32_MAX in *. lia.
Qed.

Lemma ok_kind version count : ok_read (kind_ok count) (r_kind version count).
Proof.
  intros r Hb Hl. unfold r_kind. read_step (ok_word 1).
  destruct (x =? 1). { read_step (ok_word 4). by read_step (ok_entries (Z.to_nat (as_usize x0)) count [] I (Forall_nil_2 _)). }
  destruct (x =? 2).
  { read_step (ok_word 8). pose proof (index_of_no_panic x0). destruct (index_of x0) as [i|e|]; [|done..].
    cbn [rbind]. by read_step (ok_take (Z.of_nat i) ltac:(lia)). }
  destruct (x =? 3). { read_step (ok_word 2). by read_step (ok_take x0 (proj1 Hx0)). }
  destruct (x =? 4). { read_step (ok_word 1). unfold dev_of. by repeat case_if. }
  destruct (_ && _); [|done].
  read_step (ok_word 8). read_step (ok_word 4). read_step (ok_word 8).
  pose proof (index_of_no_panic x2). destruct (index_of x2) as [i|e|]; [|done..]. cbn [rbind].
  unfold checked_mul_usize. case_if; cbn [ok_or rbind]; [|done].
  read_step (ok_take (Z.of_nat i * 32) ltac:(lia)). destruct Hx3 as (_ & _ & Hx3).
  pose proof (as_chunks_count x3 Hx3) as Hcount.
  pose proof (layout_new_wf x0 x1 (as_chunks 32 x3).1) as Hwf.
  assert (Hnp : Layout.new x0 x1 (as_chunks 32 x3).1 ≠ Panic) by (unfold Layout.new; by repeat case_if).
  destruct (Layout.new x0 x1 (as_chunks 32 x3).1) as [f|e|]; cbn [lift_layout rbind]; [|done..].
  split; [|done]. by apply Hwf.
Qed.

Lemma ok_node version count : ok_read (node_wf count) (r_node_of version count).
Proof.
  intros r Hb Hl. unfold r_node_of. read_step (ok_word 8).
  pose proof (index_of_no_panic x). destruct (index_of x) as [i|e|]; [|done..]. cbn [rbind].
  read_step (ok_word 4). read_step (ok_word 8). read_step ok_i64. read_step (ok_kind version count).
  destruct (Nat.leb_spec count i); done.
Qed.

Lemma ok_nodes n version count :
  ok_read (λ l, length l = n ∧ Forall (node_wf count) l) (r_nodes n version count).
Proof.
  induction n as [|n IH]; intros r Hb Hl; cbn [r_nodes]; [done|].
  read_step (ok_node version count). read_step IH. destruct Hx0 as [? ?].
  split; [|done]. split; [cbn; lia|by constructor].
Qed.

Lemma ok_root version : ok_read (λ _, True) (r_root version).
Proof.
  intros r Hb Hl. unfold r_root. case_if; [|done]. read_step (ok_word 1).
  case_if; [done|]. case_if; [|done]. by read_step (ok_take 32 ltac:(lia)).
Qed.
End hostile.

(** C30. Untrusted images are safe to load: whatever the bytes are (up to the
    address space of a 32-bit host), [deserialize] returns an error or a
    well-formed filesystem, on which no later call can panic. *)
Theorem deserialize_safe `{Host} b :
  byte_list b → zlen b ≤ U32_MAX →
  match deserialize b with
  | Ok v => vfs_wf v ∧ ∀ v' c, fs_steps v v' → call_ok v' c → (exec c v').2 ≠ Panic
  | Err _ => True
  | Panic => False
  end.
Proof.
  intros Hb Hl. unfold deserialize. read_step (ok_take 4 ltac:(lia)).
  case_if; [done|]. read_step (ok_word 4). case_if; [done|]. read_step (ok_root x0).
  read_step (ok_word 4). destruct (_ || _) eqn:Hc; [done|]. case_if; [done|].
  apply orb_false_iff in Hc as [Hc _]. apply Z.eqb_neq in Hc.
  set (count := as_usize x2) in *. assert (0 ≤ count) by (apply Z.mod_pos_bound, usize_pos).
  read_step (ok_nodes (Z.to_nat count) x0 (Z.to_nat count)). destruct Hx3 as [Hlen Hall].
  case_if; [done|]. case_if; [done|].
  set (v := {| nodes := x3 |}). assert (Hv : vfs_wf v) by (split; cbn; rewrite Hlen; [lia|done]).
  split; [done|]. intros v' c Hs Hok. destruct (fs_steps_wf v v' Hv Hs) as [Hv' _].
  by apply exec_arena_ok.
Qed.

Lemma deserialize_safe_witness :
  byte_list (serialize nested) ∧ zlen (serialize nested) ≤ U32_MAX ∧
  match deserialize (serialize nested) with Ok v => vfs_wf v | _ => False end.
Proof.
  assert (Hb : byte_list (serialize nested)).
  { vm_compute. repeat constructor; congruence. }
  assert (Hl : zlen (serialize nested) ≤ U32_MAX) by (vm_compute; congruence).
  split; [done|]. split; [done|]. pose proof (deserialize_safe (serialize nested) Hb Hl) as Hs.
  destruct (deserialize (serialize nested)) as [v|e|] eqn:E; [apply Hs|..];
    vm_compute in E; discriminate E.
Defined.
