(* ===== verification/Pager.v ===== *)
(** Lazy file mappings and page-in requests: data and operations.

    Models [crates/linux-compat/src/pager.rs]. Addresses are [u64]s; where the
    code adds without a check an overflow is a [Panic]. The table of address
    spaces and the set of resident pages are a [gmap] and a [gset]. *)

From S2P Require Import Prelude BTree Abi Digest Chunk Filesystem.

Definition PAGE_SIZE : Z := 4096.

(** Permission bits of the MMU. *)
Module Perm.
Definition INIT : Z := 1.
Definition READ : Z := 2.
Definition WRITE : Z := 4.
Definition EXEC : Z := 8.
Definition MAP : Z := 16.
End Perm.

Inductive AccessKind := AccRead | AccWrite | AccExecute.
#[global] Instance access_eq_dec : EqDecision AccessKind.
Proof. solve_decision. Defined.

Record PageRequest := {
  ticket : Z;
  pr_hash : Hash;
  pr_asid : Z;
  pr_generation : Z;
  pr_page : Z;
  pr_access : AccessKind
}.

Record FileMapping := {
  m_start : Z;
  m_end : Z;
  data_start : Z;
  file_offset : Z;
  file_len : Z;
  final_perm : Z;
  fill : Z;
  m_file : ChunkedFile
}.

Inductive MapError := BadRange | DataOverflow | DataOutside | PastFile.

Definition mapping_new (start end_ dstart off len prm fl : Z) (f : ChunkedFile)
    : res MapError FileMapping :=
  if (end_ <=? start) || negb (is_multiple_of start PAGE_SIZE) || negb (is_multiple_of end_ PAGE_SIZE)
  then Err BadRange
  else
    let! data_end := ok_or (checked_add64 dstart len) DataOverflow in
    if (dstart <? start) || (end_ <? data_end) then Err DataOutside
    else if match checked_add64 off len with Some e => cf_size f <? e | None => true end
    then Err PastFile
    else Ok {| m_start := start; m_end := end_; data_start := dstart; file_offset := off;
               file_len := len; final_perm := prm; fill := fl; m_file := f |}.

Definition data_end (m : FileMapping) : Z := data_start m + file_len m.

(** [FileMapping::clipped]; the sum for [file_offset] is the only one that can
    leave [u64]. *)
Definition clipped (m : FileMapping) (start end_ : Z) : res Z (option FileMapping) :=
  if (end_ <=? start) || (m_end m <=? start) || (end_ <=? m_start m) then Ok None
  else
    let start := Z.max start (m_start m) in
    let end_ := Z.min end_ (m_end m) in
    let ds := Z.min (Z.max (data_start m) start) end_ in
    let de := Z.max (Z.min (data_end m) end_) ds in
    let skipped := saturating_sub ds (data_start m) in
    let! off := add64 (file_offset m) skipped in
    Ok (Some {| m_start := start; m_end := end_; data_start := ds; file_offset := off;
                file_len := de - ds; final_perm := final_perm m; fill := fill m;
                m_file := m_file m |}).

Record AddressSpace := { generation : Z; mappings : list FileMapping }.
Definition space_default : AddressSpace := {| generation := 0; mappings := [] |}.

Inductive FaultResolution :=
| NotLazy
| PageReady (page : Z) (b : bytes) (prm : Z)
| PageMissing (r : PageRequest)
| ShortRange
| SecondPageIn
| BadChunk (index got expected : Z).

Record Pager := {
  spaces : gmap Z AddressSpace;
  resident : gset (Z * Z);
  pending : option PageRequest;
  next_ticket : Z;
  page_ins : Z;
  page_ins_by_access : Z * Z * Z
}.
Definition pager_default : Pager :=
  {| spaces := ∅; resident := ∅; pending := None; next_ticket := 0; page_ins := 0;
     page_ins_by_access := (0, 0, 0) |}.

Definition set_spaces (p : Pager) (s : gmap Z AddressSpace) : Pager :=
  {| spaces := s; resident := resident p; pending := pending p; next_ticket := next_ticket p;
     page_ins := page_ins p; page_ins_by_access := page_ins_by_access p |}.
Definition set_resident (p : Pager) (r : gset (Z * Z)) : Pager :=
  {| spaces := spaces p; resident := r; pending := pending p; next_ticket := next_ticket p;
     page_ins := page_ins p; page_ins_by_access := page_ins_by_access p |}.
Definition set_pending (p : Pager) (r : option PageRequest) (t : Z) : Pager :=
  {| spaces := spaces p; resident := resident p; pending := r; next_ticket := t;
     page_ins := page_ins p; page_ins_by_access := page_ins_by_access p |}.

(** [x.wrapping_add(1).max(1)] *)
Definition bump (x : Z) : Z := Z.max (wrapping_add64 x 1) 1.
Definition page_of (a : Z) : Z := Z.land a (Z.lnot (PAGE_SIZE - 1)).
Definition covers (a : Z) (m : FileMapping) : bool := (m_start m <=? a) && (a <? m_end m).

Definition map_file (p : Pager) (asid : Z) (m : FileMapping) : Pager :=
  let space := default space_default (spaces p !! asid) in
  set_spaces p (<[asid := {| generation := bump (generation space);
                             mappings := mappings space ++ [m] |}]> (spaces p)).

Definition is_empty (p : Pager) : bool :=
  forallb (λ e, bool_decide (mappings e.2 = [])) (map_to_list (spaces p)).

Definition pager_generation (p : Pager) (asid : Z) : Z :=
  match spaces p !! asid with Some s => generation s | None => 0 end.

(** The loop of [nonresident_pages], one step per page of the range and one to see
    that it is over; [None] when the steps run out. *)
Fixpoint nonresident_loop (fuel : nat) (p : Pager) (s : AddressSpace) (asid page end_ : Z) : option (list Z) :=
  match fuel with
  | O => None
  | S fuel =>
      if page <? end_ then
        l ← nonresident_loop fuel p s asid (saturating_add64 page PAGE_SIZE) end_;
        Some ((if negb (bool_decide ((asid, page) ∈ resident p)) && existsb (covers page) (mappings s) then [page] else []) ++ l)
      else Some []
  end.
Definition nonresident_pages (p : Pager) (asid start len : Z) : option (list Z) :=
  match spaces p !! asid with
  | None => Some []
  | Some s =>
      let end_ := saturating_add64 start len in
      nonresident_loop (Z.to_nat ((end_ - page_of start) / PAGE_SIZE + 2)) p s asid (page_of start) end_
  end.

(** [iter().rfind(..)] *)
Definition rfind {A} (f : A → bool) (l : list A) : option A := List.find f (rev l).

Definition page_state (p : Pager) (asid page : Z) : option (bool * Z) :=
  let page := page_of page in
  match spaces p !! asid with
  | None => None
  | Some s =>
      match rfind (covers page) (mappings s) with
      | None => None
      | Some m => Some (bool_decide ((asid, page) ∈ resident p), final_perm m)
      end
  end.

Definition required_perm (a : AccessKind) : Z :=
  match a with AccRead => Perm.READ | AccWrite => Perm.WRITE | AccExecute => Perm.EXEC end.

(** [bytes[a..b].fill(0)] for a range in bounds. *)
Definition zero_range (a b : Z) (l : bytes) : bytes :=
  copy_at (Z.to_nat a) (replicate (Z.to_nat (b - a)) 0) l.

(** What the loop over the touching mappings leaves. *)
Inductive Filled :=
| FBytes (b : bytes) (prm : Z)
| FShort
| FMissing (h : Hash)
| FInvalid (index got expected : Z).

Fixpoint fill_page `{Host} (v : Vfs) (page : Z) (touching : list FileMapping) (b : bytes) (prm : Z)
    : res Z Filled :=
  match touching with
  | [] => Ok (FBytes b prm)
  | m :: touching =>
      let prm := final_perm m in
      let! limit := add64 page PAGE_SIZE in
      let zero_start := Z.max (data_end m) page in
      let zero_end := Z.min (m_end m) limit in
      let b := if zero_start <? zero_end then zero_range (zero_start - page) (zero_end - page) b else b in
      let copy_start := Z.max page (data_start m) in
      let copy_end := Z.min limit (data_end m) in
      if copy_end <=? copy_start then fill_page v page touching b prm
      else
        let! off := add64 (file_offset m) (copy_start - data_start m) in
        let len := as_usize (copy_end - copy_start) in
        let! r := Fs.read_chunked_range v (m_file m) off len in
        match r with
        | Ready part =>
            if vlen part =? len
            then fill_page v page touching (copy_at (Z.to_nat (copy_start - page)) (vdata part) b) prm
            else Ok FShort
        | Missing h => Ok (FMissing h)
        | Invalid i g e => Ok (FInvalid i g e)
        end
  end.

(** The page a fault is about: the one addressed, or the cold page after it
    when that one is resident and both sides grant the access. *)
Definition fault_page (p : Pager) (s : AddressSpace) (asid address : Z) (access : AccessKind)
    : option (Z * list FileMapping) :=
  let page := page_of address in
  let touching := filter (covers page) (mappings s) in
  if bool_decide (touching = []) then None
  else if bool_decide ((asid, page) ∈ resident p) then
    let denied l := match last l with Some m => Z.land (final_perm m) (required_perm access) =? 0 | None => true end in
    if denied touching then None
    else
      let next := saturating_add64 page PAGE_SIZE in
      let next_touching := filter (covers next) (mappings s) in
      if denied next_touching || bool_decide ((asid, next) ∈ resident p) then None
      else Some (next, next_touching)
  else Some (page, touching).

Definition resolve_fault `{Host} (p : Pager) (v : Vfs) (asid address : Z) (access : AccessKind)
    : Pager * res Z FaultResolution :=
  match spaces p !! asid with
  | None => (p, Ok NotLazy)
  | Some s =>
      match fault_page p s asid address access with
      | None => (p, Ok NotLazy)
      | Some (page, touching) =>
          match head touching with
          | None => (p, Panic)
          | Some first =>
              match fill_page v page touching (replicate (Z.to_nat PAGE_SIZE) (fill first)) Perm.INIT with
              | Ok (FBytes b prm) => (p, Ok (PageReady page b prm))
              | Ok FShort => (p, Ok ShortRange)
              | Ok (FInvalid i g e) => (p, Ok (BadChunk i g e))
              | Ok (FMissing h) =>
                  match pending p with
                  | Some r =>
                      if bool_decide (pr_hash r = h) && (pr_asid r =? asid) &&
                         (pr_generation r =? generation s) && (pr_page r =? page)
                      then (p, Ok (PageMissing r))
                      else (p, Ok SecondPageIn)
                  | None =>
                      let t := bump (next_ticket p) in
                      let r := {| ticket := t; pr_hash := h; pr_asid := asid;
                                  pr_generation := generation s; pr_page := page;
                                  pr_access := access |} in
                      (set_pending p (Some r) t, Ok (PageMissing r))
                  end
              | Err e => (p, Err e)
              | Panic => (p, Panic)
              end
          end
      end
  end.

Definition mark_resident (p : Pager) (asid page : Z) (access : AccessKind) : res Z Pager :=
  let key := (asid, page_of page) in
  if bool_decide (key ∈ resident p) then Ok p
  else
    let '(r, w, x) := page_ins_by_access p in
    let! total := add64 (page_ins p) 1 in
    let! by_access :=
      match access with
      | AccRead => let! n := add64 r 1 in Ok (n, w, x)
      | AccWrite => let! n := add64 w 1 in Ok (r, n, x)
      | AccExecute => let! n := add64 x 1 in Ok (r, w, n)
      end in
    Ok {| spaces := spaces p; resident := {[key]} ∪ resident p; pending := pending p;
          next_ticket := next_ticket p; page_ins := total; page_ins_by_access := by_access |}.

Inductive CompleteError := NoPending | WrongTicket | StaleTicket | ChunkRefused (errno : Z).

(** [complete], on the pager and the filesystem. *)
Definition complete `{Host} (p : Pager) (v : Vfs) (t : Z) (b : vec)
    : Pager * Vfs * res CompleteError () :=
  match pending p with
  | None => (p, v, Err NoPending)
  | Some r =>
      if negb (ticket r =? t) then (p, v, Err WrongTicket)
      else
        let current :=
          match spaces p !! pr_asid r with
          | Some s => (generation s =? pr_generation r) && existsb (covers (pr_page r)) (mappings s)
          | None => false
          end in
        if negb current then (set_pending p None (next_ticket p), v, Err StaleTicket)
        else
          match Fs.put_chunk (pr_hash r) b v with
          | (v, Ok _) => (set_pending p None (next_ticket p), v, Ok ())
          | (v, Err e) => (p, v, Err (ChunkRefused e))
          | (v, Panic) => (p, v, Panic)
          end
  end.

Definition drop_space (p : Pager) (asid : Z) : Pager :=
  set_resident (set_spaces p (delete asid (spaces p))) (filter (λ k, k.1 ≠ asid) (resident p)).

(** [if let Some(x) = mapping.clipped(a, b) { push }], optionally rewritten. *)
Definition push_clipped (m : FileMapping) (a b : Z) (f : FileMapping → FileMapping)
    (l : list FileMapping) : res Z (list FileMapping) :=
  let! o := clipped m a b in
  Ok (match o with Some x => l ++ [f x] | None => l end).

Definition outside (m : FileMapping) (start end_ : Z) : bool :=
  (m_end m <=? start) || (end_ <=? m_start m).

Fixpoint unmap_loop (ms : list FileMapping) (start end_ : Z) (kept : list FileMapping)
    : res Z (list FileMapping) :=
  match ms with
  | [] => Ok kept
  | m :: ms =>
      if outside m start end_ then unmap_loop ms start end_ (kept ++ [m])
      else
        let! kept := push_clipped m (m_start m) start id kept in
        let! kept := push_clipped m end_ (m_end m) id kept in
        unmap_loop ms start end_ kept
  end.

Definition unmap (p : Pager) (asid start len : Z) : res Z Pager :=
  match checked_add64 start len with
  | None => Ok (drop_space p asid)
  | Some end_ =>
      match spaces p !! asid with
      | None => Ok p
      | Some s =>
          let! kept := unmap_loop (mappings s) start end_ [] in
          Ok (set_resident
                (set_spaces p (<[asid := {| generation := bump (generation s); mappings := kept |}]> (spaces p)))
                (filter (λ k, k.1 ≠ asid ∨ k.2 < start ∨ end_ ≤ k.2) (resident p)))
      end
  end.

Definition with_perm (prm : Z) (m : FileMapping) : FileMapping :=
  {| m_start := m_start m; m_end := m_end m; data_start := data_start m;
     file_offset := file_offset m; file_len := file_len m; final_perm := prm; fill := fill m;
     m_file := m_file m |}.

Fixpoint protect_loop (ms : list FileMapping) (start end_ prm : Z) (split : list FileMapping)
    : res Z (list FileMapping) :=
  match ms with
  | [] => Ok split
  | m :: ms =>
      if outside m start end_ then protect_loop ms start end_ prm (split ++ [m])
      else
        let! split := push_clipped m (m_start m) start id split in
        let! split := push_clipped m start end_ (with_perm prm) split in
        let! split := push_clipped m end_ (m_end m) id split in
        protect_loop ms start end_ prm split
  end.

Definition protect (p : Pager) (asid start len prm : Z) : res Z Pager :=
  match checked_add64 start len with
  | None => Ok p
  | Some end_ =>
      match spaces p !! asid with
      | None => Ok p
      | Some s =>
          let! l := protect_loop (mappings s) start end_ prm [] in
          Ok (set_spaces p (<[asid := {| generation := bump (generation s); mappings := l |}]> (spaces p)))
      end
  end.

Definition shifted (delta : Z) (m : FileMapping) : FileMapping :=
  {| m_start := wrapping_add64 (m_start m) delta; m_end := wrapping_add64 (m_end m) delta;
     data_start := wrapping_add64 (data_start m) delta; file_offset := file_offset m;
     file_len := file_len m; final_perm := final_perm m; fill := fill m; m_file := m_file m |}.

Fixpoint remap_loop (ms : list FileMapping) (old_start old_end copy_end delta : Z)
    (kept moved : list FileMapping) : res Z (list FileMapping * list FileMapping) :=
  match ms with
  | [] => Ok (kept, moved)
  | m :: ms =>
      if outside m old_start old_end then remap_loop ms old_start old_end copy_end delta (kept ++ [m]) moved
      else
        let! kept := push_clipped m (m_start m) old_start id kept in
        let! kept := push_clipped m old_end (m_end m) id kept in
        let! moved := push_clipped m old_start copy_end (shifted delta) moved in
        remap_loop ms old_start old_end copy_end delta kept moved
  end.

(** The mapping over the grown tail. *)
Definition remap_tail (source : FileMapping) (old_end old_len new_start new_len : Z)
    : option FileMapping :=
  let tail_start := saturating_add64 new_start old_len in
  let tail_end := saturating_add64 new_start new_len in
  if tail_start <? tail_end then
    let off := Z.min (saturating_add64 (file_offset source) (saturating_sub old_end (data_start source)))
                 (cf_size (m_file source)) in
    let len := Z.min (saturating_sub (cf_size (m_file source)) off) (tail_end - tail_start) in
    match mapping_new tail_start tail_end tail_start off len (final_perm source) (fill source)
            (m_file source) with
    | Ok t => Some t
    | _ => None
    end
  else None.

Definition remap (p : Pager) (asid old_start old_len new_start new_len : Z) : res Z Pager :=
  match spaces p !! asid with
  | None => Ok p
  | Some s =>
      let old_end := saturating_add64 old_start old_len in
      let copy_len := Z.min old_len new_len in
      let copy_end := saturating_add64 old_start copy_len in
      let tail_source :=
        if old_len <? new_len
        then rfind (λ m, (m_start m <? old_end) && (old_end <=? m_end m)) (mappings s)
        else None in
      let! '(kept, moved) :=
        remap_loop (mappings s) old_start old_end copy_end (wrapping_sub64 new_start old_start) [] [] in
      let tail := match tail_source with
                  | Some source => option_list (remap_tail source old_end old_len new_start new_len)
                  | None => []
                  end in
      let old_resident := filter (λ k, k.1 = asid ∧ old_start ≤ k.2 < copy_end) (resident p) in
      if bool_decide (set_Forall (λ k, new_start + (k.2 - old_start) ≤ U64_MAX) old_resident) then
        Ok (set_resident
              (set_spaces p (<[asid := {| generation := bump (generation s);
                                          mappings := kept ++ moved ++ tail |}]> (spaces p)))
              (filter (λ k, k.1 ≠ asid ∨ k.2 < old_start ∨ old_end ≤ k.2) (resident p) ∪
               set_map (λ k, (asid, new_start + (k.2 - old_start))) old_resident))
      else Panic
  end.

Definition fork_space (p : Pager) (parent child : Z) : Pager :=
  match spaces p !! parent with
  | None => p
  | Some s =>
      set_resident (set_spaces p (<[child := s]> (spaces p)))
        (resident p ∪ set_map (λ k, (child, k.2)) (filter (λ k : Z * Z, k.1 = parent) (resident p)))
  end.
