(* ===== verification/PagerView.v ===== *)
(** What a table of lazy mappings means, address by address.

    [view p asid a] lists, in the order they apply, what each mapping covering
    address [a] contributes there: a byte of a file, a zero, or nothing (the
    padding before the data). The operations that split and move mappings are
    specified by what they do to views; how a mapping is cut up is invisible. *)

From S2P Require Import Prelude BTree Abi Digest Chunk Filesystem Pager.

Inductive Source := FromFile (f : ChunkedFile) (off : Z) | Zeroed | Kept.
Record Effect := { e_source : Source; e_perm : Z; e_fill : Z }.

Definition effect (m : FileMapping) (a : Z) : Effect :=
  {| e_source :=
       if (data_start m <=? a) && (a <? data_end m)
       then FromFile (m_file m) (file_offset m + (a - data_start m))
       else if data_end m <=? a then Zeroed else Kept;
     e_perm := final_perm m; e_fill := fill m |}.

Definition view_of (ms : list FileMapping) (a : Z) : list Effect :=
  map (λ m, effect m a) (filter (covers a) ms).
Definition view (p : Pager) (asid a : Z) : list Effect :=
  match spaces p !! asid with Some s => view_of (mappings s) a | None => [] end.

Definition aligned (x : Z) : Prop := x mod PAGE_SIZE = 0.

Section views.
Context `{Host}.

(** What [FileMapping::new] establishes, kept by clipping. A piece without
    data may lie past the end of the file. *)
Record mapping_wf (m : FileMapping) : Prop := {
  mw_range : 0 ≤ m_start m < m_end m;
  mw_end : m_end m ≤ U64_MAX;
  mw_start_aligned : aligned (m_start m);
  mw_end_aligned : aligned (m_end m);
  mw_data : m_start m ≤ data_start m ∧ 0 ≤ file_len m ∧ data_end m ≤ m_end m;
  mw_offset : 0 ≤ file_offset m ∧ file_offset m + (m_end m - data_start m) ≤ U64_MAX;
  mw_file : 0 < file_len m → file_offset m + file_len m ≤ cf_size (m_file m);
  mw_layout : file_wf (m_file m)
}.
Definition space_wf (s : AddressSpace) : Prop := Forall mapping_wf (mappings s).
Definition pager_wf (p : Pager) : Prop := ∀ asid s, spaces p !! asid = Some s → space_wf s.

Lemma covers_iff a m : covers a m = true ↔ m_start m ≤ a < m_end m.
Proof. unfold covers. rewrite andb_true_iff, Z.leb_le, Z.ltb_lt. done. Qed.

Lemma mapping_new_wf start end_ ds off len prm fl f m :
  0 ≤ start → 0 ≤ off → 0 ≤ len → end_ ≤ U64_MAX → file_wf f → off + (end_ - ds) ≤ U64_MAX →
  mapping_new start end_ ds off len prm fl f = Ok m → mapping_wf m.
Proof.
  intros Hs Ho Hl He Hf Hroom. unfold mapping_new, is_multiple_of, checked_add64.
  destruct (_ || _ || _) eqn:Hr; [done|]. apply orb_false_iff in Hr as [[H1 H2]%orb_false_iff H3].
  bool_to_prop. destruct (Z.leb_spec (ds + len) U64_MAX); cbn [ok_or rbind]; [|done].
  destruct (_ || _) eqn:Hd; [done|]. apply orb_false_iff in Hd as [H4 H5]. bool_to_prop.
  destruct (Z.leb_spec (off + len) U64_MAX); [|done].
  destruct (Z.ltb_spec (cf_size f) (off + len)); [done|]. intros [= <-].
  split; cbn; unfold data_end; cbn; try done; lia.
Qed.

(** Cutting a mapping at page boundaries. *)
Lemma clipped_spec m a b :
  mapping_wf m → aligned a → aligned b →
  ∃ o, clipped m a b = Ok o ∧
  match o with
  | None => ∀ x, a ≤ x < b → covers x m = false
  | Some c => mapping_wf c ∧ fill c = fill m ∧
      (∀ x, covers x c = true ↔ a ≤ x < b ∧ covers x m = true) ∧
      (∀ x, covers x c = true → effect c x = effect m x)
  end.
Proof.
  intros [Hr He Hsa Hea Hd Ho Hf Hl] Ha Hb. unfold clipped.
  destruct (_ || _ || _) eqn:Hc.
  { eexists. split; [done|]. intros x Hx. apply not_true_iff_false. rewrite covers_iff.
    apply orb_true_iff in Hc as [[Hc|Hc]%orb_true_iff|Hc]; bool_to_prop; lia. }
  apply orb_false_iff in Hc as [[H1 H2]%orb_false_iff H3]. bool_to_prop.
  unfold add64, saturating_sub, data_end in *.
  set (s' := Z.max a (m_start m)). set (e' := Z.min b (m_end m)).
  set (ds := Z.min (Z.max (data_start m) s') e').
  set (de := Z.max (Z.min (data_start m + file_len m) e') ds).
  assert (Hs' : s' = Z.max a (m_start m)) by done. assert (He' : e' = Z.min b (m_end m)) by done.
  assert (Hds : ds = Z.min (Z.max (data_start m) s') e') by done.
  assert (Hde : de = Z.max (Z.min (data_start m + file_len m) e') ds) by done.
  clearbody s' e' ds de.
  rewrite (proj2 (Z.leb_le _ _)) by lia. cbn [rbind]. eexists. split; [done|]. cbn [fill]. split_and!; [|done|..].
  - split; cbn [m_start m_end data_start file_offset file_len m_file]; unfold data_end; cbn [data_start file_len];
      unfold aligned, PAGE_SIZE in *; try lia; try done.
    + rewrite Hs'. by destruct (Z.max_spec a (m_start m)) as [[_ ->]|[_ ->]].
    + rewrite He'. by destruct (Z.min_spec b (m_end m)) as [[_ ->]|[_ ->]].
  - intros x. rewrite !covers_iff. cbn. lia.
  - intros x. rewrite covers_iff. cbn [m_start m_end]. intros Hx. unfold effect, data_end.
    cbn [data_start file_len file_offset final_perm fill m_file]. f_equal.
    destruct (Z.leb_spec ds x), (Z.ltb_spec x (ds + (de - ds))), (Z.leb_spec (data_start m) x),
      (Z.ltb_spec x (data_start m + file_len m)); cbn; try lia;
      try (f_equal; lia); repeat case_if; bool_to_prop; try done; lia.
Qed.

Lemma view_of_app l1 l2 a : view_of (l1 ++ l2) a = view_of l1 a ++ view_of l2 a.
Proof. unfold view_of. by rewrite filter_app, map_app. Qed.

Lemma view_of_one m a : view_of [m] a = if covers a m then [effect m a] else [].
Proof. unfold view_of. rewrite filter_cons. destruct (covers a m); cbn; done. Qed.
Lemma view_of_cons m l a : view_of (m :: l) a = view_of [m] a ++ view_of l a.
Proof. apply (view_of_app [m] l). Qed.

(** Pushing a piece: the piece shows where it lies, as [f] leaves it. *)
Lemma push_clipped_view m a b f g l :
  mapping_wf m → aligned a → aligned b →
  (∀ c, mapping_wf c → mapping_wf (f c)) → (∀ c x, covers x (f c) = covers x c) →
  (∀ c x, effect (f c) x = g (effect c x)) → Forall mapping_wf l →
  ∃ l', push_clipped m a b f l = Ok l' ∧ Forall mapping_wf l' ∧
    ∀ x, view_of l' x = view_of l x ++
      (if (a <=? x) && (x <? b) then map g (view_of [m] x) else []).
Proof.
  intros Hm Ha Hb Hf Hcov Heff Hl. unfold push_clipped.
  destruct (clipped_spec m a b Hm Ha Hb) as (o & -> & Ho). cbn [rbind]. eexists. split; [done|].
  destruct o as [c|].
  - destruct Ho as (Hc & _ & Hrange & He). split; [apply Forall_app; auto|].
    intros x. rewrite view_of_app, !view_of_one, Hcov. f_equal.
    destruct (covers x c) eqn:Ec.
    + destruct (proj1 (Hrange x) Ec) as [Hx ->]. rewrite (proj2 (Z.leb_le _ _)), (proj2 (Z.ltb_lt _ _)) by lia.
      cbn. by rewrite Heff, He.
    + destruct (Z.leb_spec a x), (Z.ltb_spec x b); cbn; try done.
      destruct (covers x m) eqn:Em; [|done]. rewrite (proj2 (Hrange x)) in Ec; done.
  - split; [done|]. intros x. destruct (Z.leb_spec a x), (Z.ltb_spec x b); cbn [andb]; rewrite ?app_nil_r; try done.
    rewrite view_of_one, Ho by lia. by rewrite app_nil_r.
Qed.

Lemma push_clipped_id m a b l :
  mapping_wf m → aligned a → aligned b → Forall mapping_wf l →
  ∃ l', push_clipped m a b id l = Ok l' ∧ Forall mapping_wf l' ∧
    ∀ x, view_of l' x = view_of l x ++ (if (a <=? x) && (x <? b) then view_of [m] x else []).
Proof.
  intros Hm Ha Hb Hl.
  destruct (push_clipped_view m a b id id l) as (l' & -> & Hl' & Hv); try done.
  eexists. split; [done|]. split; [done|]. intros x. by rewrite Hv, map_id.
Qed.

(** A mapping clear of a range contributes nothing inside it. *)
Lemma outside_view m start end_ x :
  outside m start end_ = true → start ≤ x < end_ → view_of [m] x = [].
Proof.
  unfold outside. intros Ho Hx. rewrite view_of_one. destruct (covers x m) eqn:E; [|done].
  apply covers_iff in E. apply orb_true_iff in Ho as [?|?]; bool_to_prop; lia.
Qed.
Lemma view_outside_range m x : ¬ (m_start m ≤ x < m_end m) → view_of [m] x = [].
Proof. intros Hx. rewrite view_of_one. destruct (covers x m) eqn:E; [|done]. by apply covers_iff in E. Qed.

(** Inside [[a, b)], by a boolean. *)
Definition within (a b x : Z) : bool := (a <=? x) && (x <? b).

(** A mapping is the sum of its pieces left of, inside and right of a range. *)
Lemma view_pieces m start end_ x :
  start ≤ end_ →
  (if (m_start m <=? x) && (x <? start) then view_of [m] x else []) ++
  (if (end_ <=? x) && (x <? m_end m) then view_of [m] x else []) =
  (if within start end_ x then [] else view_of [m] x).
Proof.
  intros Hle. unfold within. destruct (decide (m_start m ≤ x < m_end m)) as [Hx|Hx].
  - destruct (Z.leb_spec (m_start m) x), (Z.ltb_spec x start), (Z.leb_spec end_ x),
      (Z.ltb_spec x (m_end m)), (Z.leb_spec start x), (Z.ltb_spec x end_); cbn [andb];
      rewrite ?app_nil_r; lia || done.
  - rewrite view_outside_range by done. by repeat case_if.
Qed.

Lemma unmap_loop_view ms start end_ kept :
  Forall mapping_wf ms → Forall mapping_wf kept → aligned start → aligned end_ → start ≤ end_ →
  ∃ l, unmap_loop ms start end_ kept = Ok l ∧ Forall mapping_wf l ∧
    ∀ x, view_of l x = view_of kept x ++ (if within start end_ x then [] else view_of ms x).
Proof.
  intros Hms. revert kept. induction Hms as [|m ms Hm Hms IH]; intros kept Hk Hs He Hle; cbn [unmap_loop].
  { eexists. split; [done|]. split; [done|]. intros x. case_if; by rewrite app_nil_r. }
  destruct (outside m start end_) eqn:Ho.
  - destruct (IH (kept ++ [m])) as (l & -> & Hl & Hv); [by apply Forall_app; auto|done..|].
    eexists. split; [done|]. split; [done|]. intros x.
    rewrite Hv, view_of_app, <- app_assoc, (view_of_cons m ms). f_equal.
    unfold within. destruct (Z.leb_spec start x), (Z.ltb_spec x end_); cbn [andb]; try done.
    by rewrite (outside_view m start end_ x).
  - destruct (push_clipped_id m (m_start m) start kept) as (k1 & -> & Hk1 & Hv1); [done|apply Hm|done..|].
    cbn [rbind]. destruct (push_clipped_id m end_ (m_end m) k1) as (k2 & -> & Hk2 & Hv2); [done..|apply Hm|done|].
    cbn [rbind]. destruct (IH k2) as (l & -> & Hl & Hv); [done..|].
    eexists. split; [done|]. split; [done|]. intros x.
    rewrite Hv, Hv2, Hv1, <- !app_assoc, (view_of_cons m ms). f_equal.
    rewrite app_assoc, (view_pieces m start end_ x Hle). by case_if.
Qed.

Definition set_perm (prm : Z) (e : Effect) : Effect :=
  {| e_source := e_source e; e_perm := prm; e_fill := e_fill e |}.

Lemma with_perm_wf prm m : mapping_wf m → mapping_wf (with_perm prm m).
Proof. intros []. by split. Qed.

Lemma protect_loop_view ms start end_ prm split :
  Forall mapping_wf ms → Forall mapping_wf split → aligned start → aligned end_ → start ≤ end_ →
  ∃ l, protect_loop ms start end_ prm split = Ok l ∧ Forall mapping_wf l ∧
    ∀ x, view_of l x = view_of split x ++
      (if within start end_ x then map (set_perm prm) (view_of ms x) else view_of ms x).
Proof.
  intros Hms. revert split. induction Hms as [|m ms Hm Hms IH]; intros split Hk Hs He Hle; cbn [protect_loop].
  { eexists. split; [done|]. split; [done|]. intros x. case_if; by rewrite app_nil_r. }
  destruct (outside m start end_) eqn:Ho.
  - destruct (IH (split ++ [m])) as (l & -> & Hl & Hv); [by apply Forall_app; auto|done..|].
    eexists. split; [done|]. split; [done|]. intros x.
    rewrite Hv, view_of_app, <- app_assoc, (view_of_cons m ms). f_equal.
    unfold within. destruct (Z.leb_spec start x), (Z.ltb_spec x end_); cbn [andb]; try done.
    by rewrite (outside_view m start end_ x).
  - destruct (push_clipped_id m (m_start m) start split) as (k1 & -> & Hk1 & Hv1); [done|apply Hm|done..|].
    cbn [rbind].
    destruct (push_clipped_view m start end_ (with_perm prm) (set_perm prm) k1) as (k2 & -> & Hk2 & Hv2);
      try done; [apply with_perm_wf|].
    cbn [rbind]. destruct (push_clipped_id m end_ (m_end m) k2) as (k3 & -> & Hk3 & Hv3); [done..|apply Hm|done|].
    cbn [rbind]. destruct (IH k3) as (l & -> & Hl & Hv); [done..|].
    eexists. split; [done|]. split; [done|]. intros x.
    rewrite Hv, Hv3, Hv2, Hv1, <- !app_assoc, (view_of_cons m ms), map_app. f_equal.
    pose proof (view_pieces m start end_ x Hle) as Hp. unfold within in *.
    destruct (Z.leb_spec start x), (Z.ltb_spec x end_); cbn [andb] in *; cbn [app].
    + apply app_eq_nil in Hp as [-> ->]. done.
    + by rewrite app_assoc, Hp.
    + by rewrite app_assoc, Hp.
    + by rewrite app_assoc, Hp.
Qed.
End views.
