(* ===== verification/PagerOps.v ===== *)
(** Changing an address space: what each pager operation does to views.

    Theorems about [map], [unmap], [protect], [remap], [fork_space] and
    [drop_space] of [crates/linux-compat/src/pager.rs], over the views of
    [PagerView]. *)

From S2P Require Import Prelude BTree Abi Digest Chunk Filesystem Pager PagerView.

Section ops.
Context `{Host}.

Lemma pager_wf_space p asid s : pager_wf p → spaces p !! asid = Some s → Forall mapping_wf (mappings s).
Proof. intros Hp Hs. exact (Hp asid s Hs). Qed.

(** Replacing the mappings of one address space. *)
Lemma set_space_wf p asid s r :
  pager_wf p → Forall mapping_wf (mappings s) →
  pager_wf (set_resident (set_spaces p (<[asid := s]> (spaces p))) r).
Proof.
  intros Hp Hs asid' s'. cbn. destruct (decide (asid = asid')) as [<-|Hne].
  - rewrite lookup_insert_eq. by intros [= <-].
  - rewrite lookup_insert_ne by done. apply Hp.
Qed.

Lemma set_space_view p asid s r asid' x :
  view (set_resident (set_spaces p (<[asid := s]> (spaces p))) r) asid' x =
  if decide (asid' = asid) then view_of (mappings s) x else view p asid' x.
Proof.
  unfold view. cbn. case_decide as E; [subst; by rewrite lookup_insert_eq|].
  by rewrite lookup_insert_ne by congruence.
Qed.

Lemma unmap_spec p asid start len :
  pager_wf p → aligned start → aligned len → 0 ≤ start → 0 ≤ len → start + len ≤ U64_MAX →
  ∃ p', unmap p asid start len = Ok p' ∧ pager_wf p' ∧
    (∀ asid' x, view p' asid' x =
       if decide (asid' = asid ∧ start ≤ x < start + len) then [] else view p asid' x) ∧
    (is_Some (spaces p !! asid) → resident p' = filter (λ k, k.1 ≠ asid ∨ k.2 < start ∨ start + len ≤ k.2) (resident p)).
Proof.
  intros Hp Hs Hl H0 H1 Hmax. unfold unmap, checked_add64. rewrite (proj2 (Z.leb_le _ _)) by done.
  assert (He : aligned (start + len)).
  { unfold aligned, PAGE_SIZE in *. rewrite Z.add_mod, Hs, Hl by lia. done. }
  destruct (spaces p !! asid) as [s|] eqn:Hsp.
  - destruct (unmap_loop_view (mappings s) start (start + len) []) as (l & -> & Hwf & Hv);
      [by eapply pager_wf_space|done..|lia|].
    cbn [rbind]. eexists. split; [done|]. split; [by apply set_space_wf|]. split; [|done].
    intros asid' x. rewrite set_space_view. cbn [mappings]. rewrite Hv. cbn [app]. change (view_of [] x) with (@nil Effect).
    unfold within. destruct (decide (asid' = asid)) as [->|Hne]; [|by rewrite decide_False by naive_solver].
    unfold view at 1. rewrite Hsp.
    destruct (Z.leb_spec start x), (Z.ltb_spec x (start + len)); cbn;
      case_decide; done || lia.
  - eexists. split; [done|]. split; [done|]. split; [|by intros [? ?]].
    intros asid' x. case_decide as E; [|done]. destruct E as [-> _]. unfold view. by rewrite Hsp.
Qed.

Lemma protect_spec p asid start len prm :
  pager_wf p → aligned start → aligned len → 0 ≤ start → 0 ≤ len → start + len ≤ U64_MAX →
  ∃ p', protect p asid start len prm = Ok p' ∧ pager_wf p' ∧ resident p' = resident p ∧
    ∀ asid' x, view p' asid' x =
      if decide (asid' = asid ∧ start ≤ x < start + len)
      then map (set_perm prm) (view p asid' x) else view p asid' x.
Proof.
  intros Hp Hs Hl H0 H1 Hmax. unfold protect, checked_add64. rewrite (proj2 (Z.leb_le _ _)) by done.
  assert (He : aligned (start + len)).
  { unfold aligned, PAGE_SIZE in *. rewrite Z.add_mod, Hs, Hl by lia. done. }
  destruct (spaces p !! asid) as [s|] eqn:Hsp.
  - destruct (protect_loop_view (mappings s) start (start + len) prm []) as (l & -> & Hwf & Hv);
      [by eapply pager_wf_space|done..|lia|].
    cbn [rbind]. eexists. split; [done|].
    change (set_spaces p ?x) with (set_resident (set_spaces p x) (resident p)).
    split; [by apply set_space_wf|]. split; [done|].
    intros asid' x. rewrite set_space_view. cbn [mappings]. rewrite Hv. change (view_of [] x) with (@nil Effect). cbn [app].
    unfold within. destruct (decide (asid' = asid)) as [->|Hne]; [|by rewrite decide_False by naive_solver].
    unfold view at 1 2. rewrite Hsp.
    destruct (Z.leb_spec start x), (Z.ltb_spec x (start + len)); cbn [andb];
      case_decide; done || lia.
  - eexists. split; [done|]. split; [done|]. split; [done|].
    intros asid' x. case_decide as E; [|done]. destruct E as [-> _]. unfold view. by rewrite Hsp.
Qed.

Lemma map_file_view p asid m asid' x :
  view (map_file p asid m) asid' x =
  view p asid' x ++ (if decide (asid' = asid) then view_of [m] x else []).
Proof.
  unfold map_file. change (set_spaces p ?x) with (set_resident (set_spaces p x) (resident p)).
  rewrite set_space_view. case_decide as E; [|by rewrite app_nil_r]. subst. cbn [mappings].
  rewrite view_of_app. unfold view. by destruct (spaces p !! asid).
Qed.

Lemma fork_view p parent child asid x :
  view (fork_space p parent child) asid x =
  if decide (asid = child ∧ is_Some (spaces p !! parent)) then view p parent x else view p asid x.
Proof.
  unfold fork_space. destruct (spaces p !! parent) as [s|] eqn:Hs.
  - rewrite set_space_view. case_decide as E.
    + subst. rewrite decide_True by eauto. unfold view. by rewrite Hs.
    + by rewrite decide_False by naive_solver.
  - rewrite decide_False; [done|]. intros [_ [? ?]]. done.
Qed.

Lemma drop_view p asid asid' x :
  view (drop_space p asid) asid' x = if decide (asid' = asid) then [] else view p asid' x.
Proof.
  unfold drop_space, view. cbn. case_decide as E; [subst; by rewrite lookup_delete_eq|].
  by rewrite lookup_delete_ne by congruence.
Qed.

(** * Moving a range *)

Lemma shifted_add a old new :
  0 ≤ a + (new - old) ≤ U64_MAX → wrapping_add64 a (wrapping_sub64 new old) = a + (new - old).
Proof.
  intros Hr. unfold wrapping_add64, wrapping_sub64, wrap, U64_MAX in *.
  rewrite Z.add_mod_idemp_r by lia. apply Z.mod_small. lia.
Qed.

(** A piece moved by [new - old] shows at [x] what it showed at [x - (new - old)]. *)
Lemma shifted_spec m old new :
  mapping_wf m → aligned old → aligned new → 0 ≤ m_start m + (new - old) →
  m_end m + (new - old) ≤ U64_MAX →
  let c := shifted (wrapping_sub64 new old) m in
  mapping_wf c ∧ (∀ x, view_of [c] x = view_of [m] (x - (new - old))).
Proof.
  intros [Hr He Hsa Hea Hd Ho Hf Hl] Hold Hnew Hlo Hhi c. unfold data_end in *.
  assert (Hc : m_start c = m_start m + (new - old) ∧ m_end c = m_end m + (new - old) ∧
               data_start c = data_start m + (new - old)).
  { unfold c, shifted. cbn. rewrite !shifted_add by lia. done. }
  destruct Hc as (Hc1 & Hc2 & Hc3).
  assert (Hal : ∀ y, aligned y → aligned (y + (new - old))).
  { intros y. unfold aligned, PAGE_SIZE in *. clear - Hold Hnew. intros. Z.div_mod_to_equations. lia. }
  split.
  - split; unfold data_end; rewrite ?Hc1, ?Hc2, ?Hc3; change (file_len c) with (file_len m);
      change (file_offset c) with (file_offset m); change (m_file c) with (m_file m); try lia; auto.
  - intros x. rewrite !view_of_one. unfold covers, effect, data_end. rewrite Hc1, Hc2, Hc3.
    change (file_len c) with (file_len m). change (file_offset c) with (file_offset m).
    change (m_file c) with (m_file m). change (final_perm c) with (final_perm m). change (fill c) with (fill m).
    replace (m_start m + (new - old) <=? x) with (m_start m <=? x - (new - old)) by lia.
    replace (x <? m_end m + (new - old)) with (x - (new - old) <? m_end m) by lia.
    replace (data_start m + (new - old) <=? x) with (data_start m <=? x - (new - old)) by lia.
    replace (x <? data_start m + (new - old) + file_len m) with (x - (new - old) <? data_start m + file_len m) by lia.
    replace (data_start m + (new - old) + file_len m <=? x) with (data_start m + file_len m <=? x - (new - old)) by lia.
    replace (x - (data_start m + (new - old))) with (x - (new - old) - data_start m) by lia. done.
Qed.

Lemma push_shifted_view m old copy_end new l :
  mapping_wf m → aligned old → aligned copy_end → aligned new → 0 ≤ new →
  new + (copy_end - old) ≤ U64_MAX → Forall mapping_wf l →
  ∃ l', push_clipped m old copy_end (shifted (wrapping_sub64 new old)) l = Ok l' ∧ Forall mapping_wf l' ∧
    ∀ x, view_of l' x = view_of l x ++
      (if within old copy_end (x - (new - old)) then view_of [m] (x - (new - old)) else []).
Proof.
  intros Hm Ha Hb Hn H0 Hmax Hl. unfold push_clipped.
  destruct (clipped_spec m old copy_end Hm Ha Hb) as (o & -> & Ho). cbn [rbind]. eexists. split; [done|].
  unfold within. destruct o as [c|].
  - destruct Ho as (Hc & _ & Hrange & He).
    assert (Hcr : old ≤ m_start c ∧ m_end c ≤ copy_end).
    { destruct Hc as [? _ _ _ _ _ _ _].
      assert (covers (m_start c) c = true) as Hlo by (apply covers_iff; lia).
      assert (covers (m_end c - 1) c = true) as Hhi by (apply covers_iff; lia).
      apply Hrange in Hlo, Hhi. lia. }
    destruct (shifted_spec c old new) as [Hsw Hsv]; [done..|lia|lia|].
    split; [apply Forall_app; auto|]. intros x. rewrite view_of_app, Hsv, !view_of_one. f_equal.
    destruct (covers (x - (new - old)) c) eqn:Ec.
    + destruct (proj1 (Hrange _) Ec) as [Hx ->]. rewrite (proj2 (Z.leb_le _ _)), (proj2 (Z.ltb_lt _ _)) by lia.
      cbn. by rewrite He.
    + destruct (Z.leb_spec old (x - (new - old))), (Z.ltb_spec (x - (new - old)) copy_end); cbn; try done.
      destruct (covers (x - (new - old)) m) eqn:Em; [|done]. rewrite (proj2 (Hrange _)) in Ec; done.
  - split; [done|]. intros x.
    destruct (Z.leb_spec old (x - (new - old))), (Z.ltb_spec (x - (new - old)) copy_end); cbn [andb];
      rewrite ?app_nil_r; try done.
    rewrite view_of_one, Ho by lia. by rewrite app_nil_r.
Qed.

Lemma remap_loop_view ms old_start old_end copy_end new kept moved :
  Forall mapping_wf ms → Forall mapping_wf kept → Forall mapping_wf moved →
  aligned old_start → aligned old_end → aligned copy_end → aligned new →
  old_start ≤ copy_end ≤ old_end → 0 ≤ new → new + (copy_end - old_start) ≤ U64_MAX →
  ∃ k mv, remap_loop ms old_start old_end copy_end (wrapping_sub64 new old_start) kept moved = Ok (k, mv) ∧
    Forall mapping_wf k ∧ Forall mapping_wf mv ∧
    (∀ x, view_of k x = view_of kept x ++ (if within old_start old_end x then [] else view_of ms x)) ∧
    (∀ x, view_of mv x = view_of moved x ++
       (if within old_start copy_end (x - (new - old_start)) then view_of ms (x - (new - old_start)) else [])).
Proof.
  intros Hms. revert kept moved. induction Hms as [|m ms Hm Hms IH];
    intros kept moved Hk Hmv Hs He Hc Hn Hle H0 Hmax; cbn [remap_loop].
  { do 2 eexists. split_and!; [done..| |]; intros x; case_if; by rewrite app_nil_r. }
  destruct (outside m old_start old_end) eqn:Ho.
  - destruct (IH (kept ++ [m]) moved) as (k & mv & -> & Hk' & Hmv' & Hv1 & Hv2);
      [by apply Forall_app; auto|done..|].
    do 2 eexists. split_and!; [done..| |].
    + intros x. rewrite Hv1, view_of_app, <- app_assoc, (view_of_cons m ms). f_equal.
      unfold within. destruct (Z.leb_spec old_start x), (Z.ltb_spec x old_end); cbn [andb]; try done.
      by rewrite (outside_view m old_start old_end x).
    + intros x. rewrite Hv2, (view_of_cons m ms). f_equal. unfold within.
      destruct (Z.leb_spec old_start (x - (new - old_start))), (Z.ltb_spec (x - (new - old_start)) copy_end);
        cbn [andb]; try done. by rewrite (outside_view m old_start old_end) by (done || lia).
  - destruct (push_clipped_id m (m_start m) old_start kept) as (k1 & -> & Hk1 & Hv1); [done|apply Hm|done..|].
    cbn [rbind]. destruct (push_clipped_id m old_end (m_end m) k1) as (k2 & -> & Hk2 & Hv2); [done..|apply Hm|done|].
    cbn [rbind]. destruct (push_shifted_view m old_start copy_end new moved) as (m1 & -> & Hm1 & Hv3); [done..|].
    cbn [rbind]. destruct (IH k2 m1) as (k & mv & -> & Hk' & Hmv' & Hvk & Hvm); [done..|].
    do 2 eexists. split_and!; [done..| |].
    + intros x. rewrite Hvk, Hv2, Hv1, <- !app_assoc, (view_of_cons m ms). f_equal.
      rewrite app_assoc, (view_pieces m old_start old_end x) by lia. by case_if.
    + intros x. rewrite Hvm, Hv3, <- app_assoc, (view_of_cons m ms). f_equal. by case_if.
Qed.

(** The file position a mapping gives to address [a], past its data too. *)
Definition file_pos (m : FileMapping) (a : Z) : Z := file_offset m + (a - data_start m).
(** The file continued over the grown tail, zeros once it ends. *)
Definition continued (m : FileMapping) (a : Z) : Effect :=
  {| e_source := if file_pos m a <? cf_size (m_file m) then FromFile (m_file m) (file_pos m a) else Zeroed;
     e_perm := final_perm m; e_fill := fill m |}.

Lemma remap_tail_view src old_start old_len new_start new_len :
  mapping_wf src → aligned old_len → aligned new_start → aligned new_len → 0 ≤ old_start →
  0 ≤ old_len < new_len → 0 ≤ new_start → new_start + new_len ≤ U64_MAX →
  m_start src < old_start + old_len ≤ m_end src → data_start src ≤ old_start + old_len →
  cf_size (m_file src) + new_len ≤ U64_MAX →
  let tail := option_list (remap_tail src (old_start + old_len) old_len new_start new_len) in
  Forall mapping_wf tail ∧
  ∀ x, view_of tail x =
    if within (new_start + old_len) (new_start + new_len) x
    then [continued src (x - (new_start - old_start))] else [].
Proof.
  intros [Hr He Hsa Hea Hd Ho Hf Hl] Hol Hns Hnl H0 Hlen Hn Hmax Hb Hds Hroom. unfold remap_tail.
  assert (Hsz : 0 ≤ cf_size (m_file src)) by apply Hl.
  unfold saturating_add64, saturating_sub, data_end in *.
  rewrite !(Z.min_l (new_start + _)) by lia. rewrite (proj2 (Z.ltb_lt _ _)) by lia.
  rewrite (Z.max_r 0 (old_start + old_len - _)) by lia.
  set (off := Z.min (Z.min _ U64_MAX) _).
  assert (Hoff : off = Z.min (file_offset src + (old_start + old_len - data_start src)) (cf_size (m_file src)))
    by (unfold off; lia). clearbody off.
  set (len := Z.min (Z.max 0 _) _).
  assert (Hlen' : len = Z.min (cf_size (m_file src) - off) (new_len - old_len)) by (unfold len; lia). clearbody len.
  assert (Ht1 : aligned (new_start + old_len)) by (unfold aligned, PAGE_SIZE in *; clear - Hol Hns; Z.div_mod_to_equations; lia).
  assert (Ht2 : aligned (new_start + new_len)) by (unfold aligned, PAGE_SIZE in *; clear - Hnl Hns; Z.div_mod_to_equations; lia).
  destruct (mapping_new _ _ _ _ _ _ _ _) as [t|e|] eqn:Et.
  2,3: exfalso; revert Et; unfold mapping_new, is_multiple_of, checked_add64, aligned in *; rewrite Ht1, Ht2;
    rewrite (proj2 (Z.leb_gt _ _)), (proj2 (Z.leb_le _ _)) by lia; cbn [Z.eqb negb orb ok_or rbind];
    rewrite Z.ltb_irrefl, (proj2 (Z.ltb_ge _ _)) by lia; cbn [orb];
    rewrite (proj2 (Z.leb_le _ _)), (proj2 (Z.ltb_ge _ _)) by lia; done.
  change (option_list (Some t)) with [t]. split.
  { constructor; [|done]. eapply mapping_new_wf; [..|exact Et]; lia || done. }
  assert (Heq : t = {| m_start := new_start + old_len; m_end := new_start + new_len;
    data_start := new_start + old_len; file_offset := off; file_len := len; final_perm := final_perm src;
    fill := fill src; m_file := m_file src |}).
  { unfold mapping_new in Et. by inv_res Et. }
  intros x. rewrite view_of_one, Heq. unfold covers, within. cbn [m_start m_end].
  destruct (Z.leb_spec (new_start + old_len) x), (Z.ltb_spec x (new_start + new_len)); cbn [andb]; try done.
  do 2 f_equal. unfold effect, continued, file_pos, data_end. cbn [data_start file_len file_offset m_file final_perm fill].
  f_equal. rewrite (proj2 (Z.leb_le _ _)) by lia. cbn [andb].
  destruct (Z.ltb_spec x (new_start + old_len + len)).
  - rewrite (proj2 (Z.ltb_lt _ _)) by lia. f_equal. lia.
  - rewrite (proj2 (Z.leb_le _ _)), (proj2 (Z.ltb_ge _ _)) by lia. done.
Qed.

Lemma rfind_Some {A} (f : A → bool) l x : rfind f l = Some x → f x = true ∧ x ∈ l.
Proof.
  unfold rfind. intros [Hin Hf]%List.find_some. split; [done|].
  apply list_elem_of_In. by apply in_rev in Hin.
Qed.

End ops.

(** The arguments the system call layer passes: page-aligned, within [u64]. *)
Definition page_range (start len : Z) : Prop :=
  aligned start ∧ aligned len ∧ 0 ≤ start ∧ 0 ≤ len ∧ start + len ≤ U64_MAX.

(** [munmap] forgets exactly its range: in that address space no mapping
    shows there any more and no page of it counts as resident, while every
    other address of every address space shows what it showed; so the pieces a
    mapping is cut into still read the same bytes of the same file. *)
Theorem unmap_view `{Host} p asid start len :
  pager_wf p → page_range start len → is_Some (spaces p !! asid) →
  ∃ p', unmap p asid start len = Ok p' ∧ pager_wf p' ∧
    (∀ asid' x, view p' asid' x =
       if decide (asid' = asid ∧ start ≤ x < start + len) then [] else view p asid' x) ∧
    (∀ asid' page, (asid', page) ∈ resident p' ↔
       (asid', page) ∈ resident p ∧ ¬ (asid' = asid ∧ start ≤ page < start + len)).
Proof.
  intros Hp (Ha & Hl & H0 & H1 & Hmax) Hs.
  destruct (unmap_spec p asid start len) as (p' & Hu & Hw & Hv & Hr); [done..|].
  exists p'. split_and!; [done..|]. intros asid' page. rewrite (Hr Hs), elem_of_filter. cbn. intuition lia.
Qed.

(** [mprotect] changes permissions and nothing else: inside its range
    every mapping keeps its bytes and gets the new permission, outside it and
    in other address spaces nothing changes, and residency is untouched. *)
Theorem protect_view `{Host} p asid start len prm :
  pager_wf p → page_range start len →
  ∃ p', protect p asid start len prm = Ok p' ∧ pager_wf p' ∧ resident p' = resident p ∧
    ∀ asid' x, view p' asid' x =
      if decide (asid' = asid ∧ start ≤ x < start + len)
      then map (set_perm prm) (view p asid' x) else view p asid' x.
Proof. intros Hp (? & ? & ? & ? & ?). by apply protect_spec. Qed.

Lemma sat_add a b : a + b ≤ U64_MAX → saturating_add64 a b = a + b.
Proof. intros. unfold saturating_add64. lia. Qed.

(** [mremap] moves what was mapped: the old range shows nothing, the new
    one shows, byte for byte, what the old one showed, and when the mapping
    grows the file is continued over the new tail (zeros past its end) with the
    permissions of the mapping that ended there. *)
Theorem remap_view `{Host} p asid s old_start old_len new_start new_len :
  pager_wf p → spaces p !! asid = Some s →
  page_range old_start old_len → page_range new_start new_len →
  Forall (λ m, cf_size (m_file m) + new_len ≤ U64_MAX ∧
    (m_start m < old_start + old_len ≤ m_end m → data_start m ≤ old_start + old_len)) (mappings s) →
  let moved := Z.min old_len new_len in
  let back x := x - (new_start - old_start) in
  ∃ p', remap p asid old_start old_len new_start new_len = Ok p' ∧ pager_wf p' ∧
    (∀ asid' x, asid' ≠ asid → view p' asid' x = view p asid' x) ∧
    (∀ x, view p' asid x =
       (if within old_start (old_start + old_len) x then [] else view p asid x) ++
       (if within new_start (new_start + moved) x then view p asid (back x) else []) ++
       match (if old_len <? new_len
              then rfind (λ m, (m_start m <? old_start + old_len) && (old_start + old_len <=? m_end m)) (mappings s)
              else None) with
       | Some src => if within (new_start + old_len) (new_start + new_len) x then [continued src (back x)] else []
       | None => []
       end) ∧
    (∀ page, (asid, page) ∈ resident p' ↔
       ((asid, page) ∈ resident p ∧ ¬ old_start ≤ page < old_start + old_len) ∨
       (new_start ≤ page < new_start + moved ∧ (asid, back page) ∈ resident p)).
Proof.
  intros Hp Hs (Ha & Hl & H0 & H1 & Hmax) (Hna & Hnl & Hn0 & Hn1 & Hnmax) Hms moved back.
  pose proof (pager_wf_space p asid s Hp Hs) as Hw.
  unfold remap. rewrite Hs. fold moved. assert (Hmv : 0 ≤ moved ≤ old_len ∧ moved ≤ new_len) by (unfold moved; lia).
  rewrite !sat_add by lia.
  assert (Hoe : aligned (old_start + old_len)) by (unfold aligned, PAGE_SIZE in *; clear - Ha Hl; Z.div_mod_to_equations; lia).
  assert (Hce : aligned (old_start + moved)).
  { unfold moved, aligned, PAGE_SIZE in *. clear - Ha Hl Hnl. destruct (Z.min_spec old_len new_len) as [[_ ->]|[_ ->]];
      Z.div_mod_to_equations; lia. }
  destruct (remap_loop_view (mappings s) old_start (old_start + old_len) (old_start + moved) new_start [] [])
    as (k & mv & -> & Hk & Hm & Hvk & Hvm); [done..|lia|lia|lia|].
  cbn [rbind]. set (tail := match (if old_len <? new_len then _ else _) with Some _ => _ | None => _ end).
  assert (Htail : Forall mapping_wf tail ∧ ∀ x, view_of tail x =
    match (if old_len <? new_len
           then rfind (λ m, (m_start m <? old_start + old_len) && (old_start + old_len <=? m_end m)) (mappings s)
           else None) with
    | Some src => if within (new_start + old_len) (new_start + new_len) x then [continued src (back x)] else []
    | None => [] end).
  { unfold tail. destruct (Z.ltb_spec old_len new_len) as [Hlt|]; [|done].
    destruct (rfind _ _) as [src|] eqn:Hf; [|done]. apply rfind_Some in Hf as [Hb Hin]. bool_to_prop.
    rewrite Forall_forall in Hw, Hms. destruct (Hms src Hin) as [Hroom Hds].
    apply (remap_tail_view src old_start old_len new_start new_len); auto; lia. }
  destruct Htail as [Htw Htv]. rewrite bool_decide_eq_true_2.
  2:{ intros [a pg] Hin. apply elem_of_filter in Hin as [[_ Hr] _]. cbn in *. lia. }
  eexists. split; [done|]. split; [apply set_space_wf; [done|]; cbn; by rewrite !Forall_app|].
  split_and!.
  - intros asid' x Hne. by rewrite set_space_view, decide_False.
  - intros x. rewrite set_space_view, decide_True by done. cbn [mappings].
    rewrite !view_of_app, Hvk, Hvm, Htv. change (view_of [] x) with (@nil Effect). cbn [app].
    unfold view. rewrite Hs. f_equal. f_equal. fold (back x).
    replace (within old_start (old_start + moved) (back x)) with (within new_start (new_start + moved) x); [done|].
    unfold within, back. f_equal; lia.
  - intros page. cbn. rewrite elem_of_union, elem_of_filter, elem_of_map. cbn. split.
    + intros [[? ?]|([a pg] & Heq & Hin)]; [left; split; [done|lia]|].
      apply elem_of_filter in Hin as [[Hasid Hr] Hin]. cbn in *. right. simplify_eq. unfold back.
      split; [lia|]. by replace (new_start + (pg - old_start) - (new_start - old_start)) with pg by lia.
    + intros [[? ?]|[Hr Hin]]; [left; split; [lia|done]|]. right. exists (asid, back page).
      split; [cbn; f_equal; unfold back; lia|]. apply elem_of_filter. cbn. unfold back in *. split; [lia|done].
Qed.

(** A 9000-byte file mapped over five pages, with 256 bytes of padding before
    its data and zeros after it. *)
Definition demo_file : ChunkedFile :=
  {| cf_size := 9000; chunk_size := 4096; cf_chunks := [[1]; [2]; [3]] |}.
Definition demo_mapping : FileMapping :=
  {| m_start := 65536; m_end := 86016; data_start := 65792; file_offset := 0; file_len := 9000;
     final_perm := 3; fill := 0; m_file := demo_file |}.
Definition demo_pager : Pager := map_file pager_default 1 demo_mapping.

Lemma demo_wf : pager_wf demo_pager.
Proof.
  intros asid s. unfold demo_pager, map_file. cbn.
  destruct (decide (asid = 1)) as [->|Hne]; [|rewrite lookup_insert_ne by congruence; done].
  rewrite lookup_insert_eq. intros [= <-]. constructor; [|constructor].
  split; vm_compute; repeat split; congruence.
Qed.
Lemma demo_range : page_range 69632 4096.
Proof. vm_compute. repeat split; congruence. Qed.

Lemma unmap_view_witness :
  ∃ p', unmap demo_pager 1 69632 4096 = Ok p' ∧ view p' 1 70000 = [] ∧
    view p' 1 80000 = view demo_pager 1 80000.
Proof.
  destruct (unmap_view demo_pager 1 69632 4096 demo_wf demo_range) as (p' & Hu & _ & Hv & _); [vm_compute; eauto|].
  exists p'. split; [exact Hu|]. split; [rewrite Hv, decide_True by lia|rewrite Hv, decide_False by lia]; reflexivity.
Defined.

Lemma protect_view_witness :
  ∃ p', protect demo_pager 1 69632 4096 5 = Ok p' ∧
    view p' 1 70000 = map (set_perm 5) (view demo_pager 1 70000).
Proof.
  destruct (protect_view demo_pager 1 69632 4096 5 demo_wf demo_range) as (p' & Hu & _ & _ & Hv).
  exists p'. split; [exact Hu|]. rewrite Hv, decide_True by lia. reflexivity.
Defined.

Lemma remap_view_witness :
  ∃ p', remap demo_pager 1 69632 4096 131072 8192 = Ok p' ∧ pager_wf p'.
Proof.
  destruct (remap_view demo_pager 1 {| generation := 1; mappings := [demo_mapping] |} 69632 4096 131072 8192)
    as (p' & Hr & Hw & _).
  - exact demo_wf.
  - vm_compute. reflexivity.
  - exact demo_range.
  - vm_compute. repeat split; congruence.
  - constructor; [|constructor]. vm_compute. repeat split; congruence.
  - exists p'. split; [exact Hr|exact Hw].
Defined.
