(* ===== verification/PagerFault.v ===== *)
(** Page faults: the bytes installed, and the page-in ticket protocol.

    Theorems about [Pager::resolve], [complete], [mark_resident] and
    [nonresident_pages] of [crates/linux-compat/src/pager.rs]. *)

From Stdlib Require Import Sorted.
From S2P Require Import Prelude BTree Abi Digest Chunk Filesystem Pager PagerView PagerOps.

(** The byte an address shows, given what was under it. *)
Definition apply_effect (contents : ChunkedFile → bytes) (base : Z) (e : Effect) : Z :=
  match e_source e with
  | FromFile f off => default 0 (getz (contents f) off)
  | Zeroed => 0
  | Kept => base
  end.
Definition shown (contents : ChunkedFile → bytes) (base : Z) (l : list Effect) : Z :=
  foldl (apply_effect contents) base l.

Section fill.
Context `{Host} (v : Vfs) (page : Z) (Hpa : aligned page).

Lemma aligned_gap a b : aligned a → aligned b → a < b → a + PAGE_SIZE ≤ b.
Proof. unfold aligned, PAGE_SIZE. intros. Z.div_mod_to_equations. lia. Qed.

(** A mapping that covers the first byte of a page covers the page. *)
Lemma covers_page m i :
  mapping_wf m → 0 ≤ i < PAGE_SIZE → covers (page + i) m = covers page m.
Proof.
  intros [Hr He Hsa Hea Hd Ho Hf Hl] Hi. apply eq_true_iff_eq. rewrite !covers_iff.
  assert (page < m_end m → page + PAGE_SIZE ≤ m_end m) by (by apply aligned_gap).
  assert (page < m_start m → page + PAGE_SIZE ≤ m_start m) by (by apply aligned_gap). lia.
Qed.

Lemma view_of_page ms i :
  Forall mapping_wf ms → 0 ≤ i < PAGE_SIZE →
  view_of ms (page + i) = map (λ m, effect m (page + i)) (filter (covers page) ms).
Proof.
  intros Hw Hi. unfold view_of. f_equal. induction Hw as [|m ms Hm _ IH]; [done|].
  rewrite !filter_cons, IH, (covers_page m i) by done. done.
Qed.

(** One mapping's zeroes and file bytes, written over the page. *)
Definition zeroed_by (m : FileMapping) (b : bytes) : bytes :=
  let zs := Z.max (data_end m) page in
  let ze := Z.min (m_end m) (page + PAGE_SIZE) in
  if zs <? ze then zero_range (zs - page) (ze - page) b else b.

Lemma zeroed_by_lookup m b i :
  mapping_wf m → covers page m = true → zlen b = PAGE_SIZE → 0 ≤ i < PAGE_SIZE →
  zlen (zeroed_by m b) = PAGE_SIZE ∧
  getz (zeroed_by m b) i = (if data_end m <=? page + i then Some 0 else getz b i).
Proof.
  intros [Hr He Hsa Hea Hd Ho Hf Hl] Hc%covers_iff Hb Hi.
  assert (page + PAGE_SIZE ≤ m_end m) by (apply aligned_gap; lia || done).
  unfold zeroed_by. rewrite (Z.min_r (m_end m)) by lia.
  destruct (Z.ltb_spec (Z.max (data_end m) page) (page + PAGE_SIZE)) as [Hz|Hz].
  - unfold zero_range. set (at_ := Z.max (data_end m) page - page).
    assert (Hlen : (Z.to_nat at_ + length (replicate (Z.to_nat (page + PAGE_SIZE - page - at_)) 0%Z) ≤ length b)%nat).
    { rewrite length_replicate. unfold zlen in Hb. lia. }
    assert (Hzl : zlen (copy_at (Z.to_nat at_) (replicate (Z.to_nat (page + PAGE_SIZE - page - at_)) 0) b) = PAGE_SIZE)
      by (unfold zlen; rewrite (length_copy_at _ _ _ Hlen); exact Hb).
    split; [exact Hzl|]. unfold getz.
    rewrite Hzl, Hb, (proj2 (Z.leb_le _ _)), (proj2 (Z.ltb_lt _ _)) by lia. cbn [andb].
    rewrite (copy_at_lookup _ _ _ _ Hlen), length_replicate.
    destruct (Z.leb_spec (data_end m) (page + i)).
    + rewrite decide_True by lia. apply lookup_replicate_2. lia.
    + by rewrite decide_False by lia.
  - split; [done|]. by rewrite (proj2 (Z.leb_gt _ _)) by lia.
Qed.

(** The file bytes of one mapping, read and copied. *)
Lemma copied_lookup m b part i :
  mapping_wf m → covers page m = true → zlen b = PAGE_SIZE → 0 ≤ i < PAGE_SIZE →
  let cs := Z.max page (data_start m) in
  let ce := Z.min (page + PAGE_SIZE) (data_end m) in
  cs < ce → zlen part = ce - cs →
  zlen (copy_at (Z.to_nat (cs - page)) part b) = PAGE_SIZE ∧
  getz (copy_at (Z.to_nat (cs - page)) part b) i =
    (if (data_start m <=? page + i) && (page + i <? data_end m)
     then getz part (page + i - cs) else getz b i).
Proof.
  intros [Hr He Hsa Hea Hd Ho Hf Hl] Hc%covers_iff Hb Hi cs ce Hlt Hpart.
  assert (Hcs : cs = Z.max page (data_start m)) by done. assert (Hce : ce = Z.min (page + PAGE_SIZE) (data_end m)) by done.
  clearbody cs ce. unfold zlen in Hpart, Hb.
  assert (Hlen : (Z.to_nat (cs - page) + length part ≤ length b)%nat) by lia.
  assert (Hzl : zlen (copy_at (Z.to_nat (cs - page)) part b) = PAGE_SIZE)
    by (unfold zlen; by rewrite (length_copy_at _ _ _ Hlen)).
  split; [done|]. unfold getz. rewrite Hzl. unfold zlen.
  rewrite Hb, (proj2 (Z.leb_le 0 i)), (proj2 (Z.ltb_lt i PAGE_SIZE)) by lia. cbn [andb].
  rewrite (copy_at_lookup _ _ _ _ Hlen).
  destruct (Z.leb_spec (data_start m) (page + i)), (Z.ltb_spec (page + i) (data_end m)); cbn [andb].
  - rewrite decide_True by lia. rewrite (proj2 (Z.leb_le _ _)), (proj2 (Z.ltb_lt _ _)) by lia. cbn [andb]. f_equal. lia.
  - by rewrite decide_False by lia.
  - by rewrite decide_False by lia.
  - by rewrite decide_False by lia.
Qed.

Lemma getz_slicez (l : bytes) a b i :
  0 ≤ a → 0 ≤ i < b - a → b ≤ zlen l → getz (slicez l a b) i = getz l (a + i).
Proof.
  intros Ha Hi Hb. unfold getz. rewrite slicez_length by lia.
  rewrite !(proj2 (Z.leb_le _ _)), !(proj2 (Z.ltb_lt _ _)) by lia. cbn [andb].
  rewrite slicez_lookup by lia. f_equal. lia.
Qed.

Lemma copied_step m b b1 data contents i :
  mapping_wf m → covers page m = true → zlen b1 = PAGE_SIZE → 0 ≤ i < PAGE_SIZE →
  getz b1 i = (if data_end m <=? page + i then Some 0 else getz b i) → is_Some (getz b i) →
  let cs := Z.max page (data_start m) in
  let ce := Z.min (page + PAGE_SIZE) (data_end m) in
  let off := file_offset m + (cs - data_start m) in
  cs < ce → zlen (contents (m_file m)) = cf_size (m_file m) →
  data = slicez (contents (m_file m)) off (off + (ce - cs)) →
  getz (copy_at (Z.to_nat (cs - page)) data b1) i =
    option_map (λ base, apply_effect contents base (effect m (page + i))) (getz b i).
Proof.
  intros Hm Hc Hb1 Hi Hz [x Hx] cs ce off Hlt Hcl Hdata. pose proof Hm as [Hr He Hsa Hea Hd Ho Hf Hl].
  assert (Hcs : cs = Z.max page (data_start m)) by done. assert (Hce : ce = Z.min (page + PAGE_SIZE) (data_end m)) by done.
  assert (Hoff : off = file_offset m + (cs - data_start m)) by done.
  assert (Hfl : 0 < file_len m) by (unfold data_end in *; lia). specialize (Hf Hfl).
  assert (Hdl : zlen data = ce - cs) by (rewrite Hdata, slicez_length; unfold data_end in *; lia).
  destruct (copied_lookup m b1 data i Hm Hc Hb1 Hi Hlt Hdl) as [_ Hget].
  etransitivity; [exact Hget|]. fold cs. rewrite Hz, Hx. cbn [option_map].
  unfold apply_effect, effect. cbn [e_source].
  destruct (Z.leb_spec (data_start m) (page + i)), (Z.ltb_spec (page + i) (data_end m)); cbn [andb];
    try (destruct (Z.leb_spec (data_end m) (page + i)); done || lia).
  rewrite Hdata, getz_slicez by (unfold data_end in *; lia).
  replace (off + (page + i - cs)) with (file_offset m + (page + i - data_start m)) by lia.
  destruct (proj2 (getz_is_Some (contents (m_file m)) (file_offset m + (page + i - data_start m))))
    as [y Hy]; [unfold data_end in *; lia|]. by rewrite Hy.
Qed.

Definition files_back (contents : ChunkedFile → bytes) (ms : list FileMapping) : Prop :=
  Forall (λ m, backs (chunks v) (m_file m) (contents (m_file m))) ms.

(** What filling a page can come to. *)
Definition filled_ok (touching : list FileMapping) (b : bytes) (prm : Z) (r : Filled) : Prop :=
  match r with
  | FBytes b' prm' =>
      zlen b' = PAGE_SIZE ∧ prm' = match last touching with Some m => final_perm m | None => prm end ∧
      ∀ contents, files_back contents touching → ∀ i, 0 ≤ i < PAGE_SIZE →
        getz b' i = option_map (λ base, shown contents base (map (λ m, effect m (page + i)) touching)) (getz b i)
  | FMissing h => Store.get (chunks v) h = None ∧ ∃ m, m ∈ touching ∧ h ∈ cf_chunks (m_file m)
  | FInvalid _ _ _ => True
  | FShort => False
  end.

Lemma filled_ok_cons m touching b b1 prm r :
  zlen b = PAGE_SIZE →
  (∀ contents, files_back contents (m :: touching) → ∀ i, 0 ≤ i < PAGE_SIZE →
     getz b1 i = option_map (λ base, apply_effect contents base (effect m (page + i))) (getz b i)) →
  filled_ok touching b1 (final_perm m) r → filled_ok (m :: touching) b prm r.
Proof.
  intros Hb Hstep. destruct r as [b' prm'| |h|]; cbn [filled_ok]; try done.
  - intros (Hl & Hp & Hc). split; [done|]. split.
    { rewrite Hp, last_cons. by destruct (last touching). }
    intros contents Hf i Hi. pose proof Hf as [_ Hf']%Forall_cons.
    rewrite (Hc contents Hf' i Hi), (Hstep contents Hf i Hi). by destruct (getz b i).
  - intros (Hg & m' & Hin & Hh). split; [done|]. exists m'. split; [by right|done].
Qed.

Lemma fill_page_ok touching b prm :
  Forall mapping_wf touching → Forall (λ m, covers page m = true) touching → zlen b = PAGE_SIZE →
  ∃ r, fill_page v page touching b prm = Ok r ∧ filled_ok touching b prm r.
Proof.
  intros Hw. revert b prm. induction Hw as [|m ms Hm Hw IH]; intros b prm Hc Hb; cbn [fill_page].
  { eexists. split; [done|]. cbn. split_and!; [done..|]. intros _ _ i _. by destruct (getz b i). }
  apply Forall_cons in Hc as [Hcm Hc]. pose proof Hm as [Hr He Hsa Hea Hd Ho Hf Hl].
  pose proof Hcm as Hcm'. apply covers_iff in Hcm'.
  assert (Hpe : page + PAGE_SIZE ≤ m_end m) by (apply aligned_gap; lia || done).
  unfold add64. rewrite (proj2 (Z.leb_le (page + PAGE_SIZE) _)) by lia. cbn [rbind].
  fold (zeroed_by m b). set (b1 := zeroed_by m b).
  assert (Hb1 : zlen b1 = PAGE_SIZE)
    by (apply (zeroed_by_lookup m b 0); unfold PAGE_SIZE in *; done || lia).
  assert (Hz : ∀ i, 0 ≤ i < PAGE_SIZE → getz b1 i = (if data_end m <=? page + i then Some 0 else getz b i))
    by (intros; by apply zeroed_by_lookup).
  assert (Hsome : ∀ i, 0 ≤ i < PAGE_SIZE → is_Some (getz b i)) by (intros; apply getz_is_Some; lia).
  clearbody b1. set (cs := Z.max page (data_start m)). set (ce := Z.min (page + PAGE_SIZE) (data_end m)).
  assert (Hcs : cs = Z.max page (data_start m)) by done. assert (Hce : ce = Z.min (page + PAGE_SIZE) (data_end m)) by done.
  destruct (Z.leb_spec ce cs) as [Hnone|Hsome'].
  - destruct (IH b1 (final_perm m) Hc Hb1) as (r & -> & Hok). exists r. split; [done|].
    apply (filled_ok_cons m ms b b1); [done| |done]. intros contents _ i Hi. rewrite Hz by done.
    destruct (Hsome i Hi) as [x ->]. cbn. unfold apply_effect, effect. cbn [e_source].
    destruct (Z.leb_spec (data_start m) (page + i)), (Z.ltb_spec (page + i) (data_end m)),
      (Z.leb_spec (data_end m) (page + i)); cbn; try done; lia.
  - pose proof usize_max_bounds as Hu. unfold data_end in *.
    rewrite (proj2 (Z.leb_le (file_offset m + _) _)) by lia. cbn [rbind].
    rewrite as_usize_small by (unfold PAGE_SIZE, U32_MAX in *; lia).
    set (off := file_offset m + (cs - data_start m)). specialize (Hf ltac:(lia)).
    assert (Hoff : 0 ≤ off ∧ off + (ce - cs) ≤ cf_size (m_file m)) by (unfold off; lia).
    assert (Hsz : cf_size (m_file m) ≤ U64_MAX) by (destruct Hl as (? & ? & _ & _ & _ & ?); lia).
    unfold Fs.read_chunked_range.
    destruct (read_range_cases (chunks v) (m_file m) off (ce - cs) Hl) as [[Hle _]|(_ & rr & -> & Hres)];
      [unfold_widths; lia|unfold PAGE_SIZE, U32_MAX in *; lia|unfold saturating_add64 in Hle; lia|].
    unfold saturating_add64 in Hres. rewrite !Z.min_l in Hres by lia. cbn [rbind].
    destruct Hres as [data Hall Hdl Hcont|j hj _ Hg Hn _|j hj vj _ Hg Hvj Hne _].
    + replace (off + (ce - cs) - off) with (ce - cs) in * by lia.
      assert (vlen (Vec data (alloc_exact (ce - cs))) = ce - cs) as -> by (unfold vlen, zlen in *; cbn; lia).
      rewrite Z.eqb_refl. cbn [vdata].
      destruct (copied_lookup m b1 data 0 Hm Hcm Hb1) as [Hb2 _];
        [unfold PAGE_SIZE; lia|unfold data_end; lia..|].
      destruct (IH (copy_at (Z.to_nat (cs - page)) data b1) (final_perm m) Hc Hb2) as (r & Hfill & Hok).
      exists r. split; [exact Hfill|]. eapply filled_ok_cons; [done| |exact Hok]. intros contents Hfb i Hi.
      apply Forall_cons in Hfb as [Hback _].
      apply (copied_step m b b1 data contents i Hm Hcm Hb1 Hi (Hz i Hi) (Hsome i Hi));
        [unfold data_end; lia|apply Hback|by apply Hcont].
    + eexists. split; [done|]. cbn. split; [done|]. exists m. split; [left|].
      apply getz_Some in Hg as [_ Hg]. by eapply list_elem_of_lookup_2.
    + eexists. split; [done|]. done.
Qed.
End fill.

Lemma page_of_spec a : page_of a = a / PAGE_SIZE * PAGE_SIZE.
Proof.
  unfold page_of, PAGE_SIZE. change (4096 - 1) with (Z.ones 12). rewrite <- Z.ldiff_land, Z.ldiff_ones_r by lia.
  rewrite Z.shiftl_mul_pow2, Z.shiftr_div_pow2 by lia. done.
Qed.
Lemma page_of_aligned a : aligned (page_of a).
Proof. rewrite page_of_spec. unfold aligned. by rewrite Z.mod_mul. Qed.
Lemma page_of_bounds a : page_of a ≤ a < page_of a + PAGE_SIZE.
Proof. rewrite page_of_spec. unfold PAGE_SIZE. Z.div_mod_to_equations. lia. Qed.

(** The background of a page and its permission, from its view. *)
Definition base_fill (l : list Effect) : Z := match head l with Some e => e_fill e | None => 0 end.
Definition view_perm (l : list Effect) : Z := match last l with Some e => e_perm e | None => 0 end.

Section faults.
Context `{Host}.

Lemma filter_covers_wf page ms :
  Forall mapping_wf ms →
  Forall mapping_wf (filter (covers page) ms) ∧ Forall (λ m, covers page m = true) (filter (covers page) ms).
Proof.
  intros Hw. split; apply Forall_forall; intros m [Hc Hin]%list_elem_of_filter.
  - by apply (proj1 (Forall_forall _ _) Hw).
  - by destruct (covers page m).
Qed.

(** The page a fault is served for, and that it is a cold page of the view. *)
Lemma fault_page_spec p s asid address access page touching :
  Forall mapping_wf (mappings s) → is_u64 address →
  fault_page p s asid address access = Some (page, touching) →
  (page = page_of address ∨ page = page_of address + PAGE_SIZE ∧ (asid, page_of address) ∈ resident p) ∧
  aligned page ∧ 0 ≤ page ∧ ((asid, page) ∉ resident p) ∧
  touching = filter (covers page) (mappings s) ∧ touching ≠ [].
Proof.
  intros Hw Ha. unfold fault_page.
  pose proof (page_of_aligned address) as Hpa. pose proof (page_of_bounds address) as Hpb.
  assert (Hp0 : 0 ≤ page_of address)
    by (rewrite page_of_spec; apply Z.mul_nonneg_nonneg; [apply Z.div_pos|]; unfold_widths; unfold PAGE_SIZE; lia).
  case_bool_decide as Hne; [done|]. case_bool_decide as Hres; [|intros [= <- <-]; auto 10].
  case_if; [done|]. set (next := saturating_add64 _ _). destruct (_ || _) eqn:Hd; [done|].
  intros [= <- <-]. apply orb_false_iff in Hd as [Hd Hnr]. apply bool_decide_eq_false in Hnr.
  assert (Hnt : filter (covers next) (mappings s) ≠ []) by (intros E; by rewrite E in Hd).
  assert (Hnext : next = page_of address + PAGE_SIZE).
  { unfold next, saturating_add64. destruct (filter (covers next) (mappings s)) as [|m l] eqn:E; [done|].
    assert (m ∈ filter (covers next) (mappings s)) as Hin by (rewrite E; left).
    apply list_elem_of_filter in Hin as [Hc Hin]. apply (proj1 (Forall_forall _ _) Hw) in Hin as [_ He _ Hea _ _ _ _].
    assert (covers next m = true) as Hc' by (by destruct (covers next m)). apply covers_iff in Hc'.
    unfold next, saturating_add64, aligned, PAGE_SIZE, U64_MAX in *. Z.div_mod_to_equations. lia. }
  rewrite Hnext in *. split_and!; auto; [|lia].
  unfold aligned, PAGE_SIZE in *. clear - Hpa. Z.div_mod_to_equations. lia.
Qed.

Lemma fault_page_none p s asid address access :
  fault_page p s asid address access = None →
  filter (covers (page_of address)) (mappings s) = [] ∨ (asid, page_of address) ∈ resident p.
Proof. unfold fault_page. case_bool_decide; [by left|]. case_bool_decide; [by right|done]. Qed.

Lemma head_filter_fill page ms m l :
  filter (covers page) ms = m :: l → base_fill (view_of ms page) = fill m.
Proof. intros E. unfold view_of, base_fill. by rewrite E. Qed.

Lemma view_perm_last page ms :
  view_perm (view_of ms page) = match last (filter (covers page) ms) with Some m => final_perm m | None => 0 end.
Proof. unfold view_perm, view_of. rewrite fmap_last. by destruct (last _). Qed.
End faults.

(** What serving a fault may come to: a page that is ready, a request for a
    chunk, or a refusal. *)
Definition fault_served (p : Pager) (v : Vfs) (asid : Z) (s : AddressSpace) (address : Z)
    (p' : Pager) (r : res Z FaultResolution) : Prop :=
  match r with
  | Ok (PageReady page b prm) => p' = p ∧
      (page = page_of address ∨ page = page_of address + PAGE_SIZE ∧ (asid, page_of address) ∈ resident p) ∧
      ((asid, page) ∉ resident p) ∧ zlen b = PAGE_SIZE ∧ prm = view_perm (view p asid page) ∧
      ∀ contents, files_back v contents (mappings s) → ∀ i, 0 ≤ i < PAGE_SIZE →
        getz b i = Some (shown contents (base_fill (view p asid page)) (view p asid (page + i)))
  | Ok (PageMissing q) => pending p' = Some q ∧ spaces p' = spaces p ∧ resident p' = resident p ∧
      Store.get (chunks v) (pr_hash q) = None ∧ pr_asid q = asid ∧ pr_generation q = generation s ∧
      (∃ m, m ∈ mappings s ∧ covers (pr_page q) m = true ∧ pr_hash q ∈ cf_chunks (m_file m)) ∧
      (pending p = Some q ∨ pending p = None ∧ ticket q = bump (next_ticket p))
  | Ok NotLazy => p' = p ∧ (view p asid (page_of address) = [] ∨ (asid, page_of address) ∈ resident p)
  | Ok SecondPageIn => p' = p ∧ is_Some (pending p)
  | Ok (BadChunk _ _ _) => p' = p
  | Ok ShortRange | Err _ | Panic => False
  end.

Lemma resolve_fault_served `{Host} p v asid s address access :
  pager_wf p → spaces p !! asid = Some s → is_u64 address →
  fault_served p v asid s address (resolve_fault p v asid address access).1 (resolve_fault p v asid address access).2.
Proof.
  intros Hp Hs Ha. pose proof (pager_wf_space p asid s Hp Hs) as Hw.
  assert (Hview : ∀ x, view p asid x = view_of (mappings s) x) by (intros; unfold view; by rewrite Hs).
  unfold resolve_fault. rewrite Hs. destruct (fault_page p s asid address access) as [[page touching]|] eqn:Hf.
  2:{ split; [done|]. apply fault_page_none in Hf as [Hf|Hf]; [left|by right].
      rewrite Hview. unfold view_of. by rewrite Hf. }
  destruct (fault_page_spec p s asid address access page touching Hw Ha Hf) as (Hpg & Hpa & Hp0 & Hnr & Ht & Hne).
  destruct touching as [|first rest] eqn:Etouch; [done|]. rewrite <- Etouch in *. clear Hne.
  assert (Hhead : head touching = Some first) by (by rewrite Etouch). rewrite Hhead.
  destruct (filter_covers_wf page (mappings s) Hw) as [Hw' Hc]. rewrite <- Ht in Hw', Hc.
  destruct (fill_page_ok v page Hpa touching (replicate (Z.to_nat PAGE_SIZE) (fill first)) Perm.INIT)
    as (r & -> & Hr); [done..|unfold zlen; by rewrite length_replicate|].
  destruct r as [b prm| |h|]; cbn [filled_ok] in Hr; [|done| |done].
  - destruct Hr as (Hl & Hprm & Hbytes). split_and!; try done.
    + rewrite Hview, view_perm_last, <- Ht. subst prm. destruct (last touching) eqn:E; [done|].
      apply last_None in E. by rewrite E in Etouch.
    + intros contents Hfb i Hi.
      assert (Hfb' : files_back v contents touching).
      { rewrite Ht. apply Forall_forall. intros m [_ Hin]%list_elem_of_filter.
        by apply (proj1 (Forall_forall _ _) Hfb). }
      rewrite (Hbytes contents Hfb' i Hi).
      rewrite Hview, Hview, (view_of_page page Hpa) by done. rewrite <- Ht.
      assert (Hbf : base_fill (view_of (mappings s) page) = fill first)
        by (eapply head_filter_fill; rewrite <- Ht; exact Etouch).
      rewrite Hbf.
      assert (Hgr : getz (replicate (Z.to_nat PAGE_SIZE) (fill first)) i = Some (fill first)).
      { apply getz_Some. unfold zlen. rewrite length_replicate. split; [lia|]. apply lookup_replicate_2. lia. }
      by rewrite Hgr.
  - destruct Hr as (Hget & m & Hm & Hh). rewrite Ht in Hm. apply list_elem_of_filter in Hm as [Hcm Hm].
    assert (Hcm' : covers page m = true) by (by destruct (covers page m)).
    destruct (pending p) as [q|] eqn:Hpend.
    + destruct (_ && _) eqn:Hq; [|by eauto]. bool_to_prop. case_bool_decide; [|done]. subst.
      split_and!; eauto 10; congruence.
    + cbn. split_and!; eauto 10.
Qed.

(** C15. Page faults install the right bytes: serving a fault never panics; when
    it is ready, the page is a cold page of the faulting access and every byte of
    it is what the view of its address shows over the background, with the
    permission of the last mapping; when it must wait, the request names a chunk
    the store lacks, under the current generation of the address space, and is
    the one recorded as pending; in the other cases the pager is unchanged. *)
Theorem page_fault_correct `{Host} p v asid s address access :
  pager_wf p → spaces p !! asid = Some s → is_u64 address →
  let '(p', r) := resolve_fault p v asid address access in
  match r with
  | Ok (PageReady page b prm) => p' = p ∧
      (page = page_of address ∨ page = page_of address + PAGE_SIZE ∧ (asid, page_of address) ∈ resident p) ∧
      ((asid, page) ∉ resident p) ∧ zlen b = PAGE_SIZE ∧ prm = view_perm (view p asid page) ∧
      ∀ contents, files_back v contents (mappings s) → ∀ i, 0 ≤ i < PAGE_SIZE →
        getz b i = Some (shown contents (base_fill (view p asid page)) (view p asid (page + i)))
  | Ok (PageMissing q) => pending p' = Some q ∧ spaces p' = spaces p ∧ resident p' = resident p ∧
      Store.get (chunks v) (pr_hash q) = None ∧ pr_asid q = asid ∧ pr_generation q = generation s ∧
      (∃ m, m ∈ mappings s ∧ covers (pr_page q) m = true ∧ pr_hash q ∈ cf_chunks (m_file m)) ∧
      (pending p = Some q ∨ pending p = None ∧ ticket q = bump (next_ticket p))
  | Ok NotLazy => p' = p ∧ (view p asid (page_of address) = [] ∨ (asid, page_of address) ∈ resident p)
  | Ok SecondPageIn => p' = p ∧ is_Some (pending p)
  | Ok (BadChunk _ _ _) => p' = p
  | Ok ShortRange | Err _ | Panic => False
  end.
Proof.
  intros Hp Hs Ha. pose proof (resolve_fault_served p v asid s address access Hp Hs Ha) as Hf.
  by destruct (resolve_fault p v asid address access).
Qed.

Lemma page_fault_correct_witness :
  pager_wf demo_pager ∧
  ∃ q, resolve_fault demo_pager Fs.empty_root 1 70000 AccRead =
         (set_pending demo_pager (Some q) 1, Ok (PageMissing q)) ∧
    Store.get (chunks Fs.empty_root) (pr_hash q) = None.
Proof.
  split; [exact demo_wf|].
  pose proof (page_fault_correct demo_pager Fs.empty_root 1
    {| generation := 1; mappings := [demo_mapping] |} 70000 AccRead demo_wf) as Hf.
  destruct (resolve_fault demo_pager Fs.empty_root 1 70000 AccRead) as [p' r] eqn:E.
  assert (Hr : r = Ok (PageMissing {| ticket := 1; pr_hash := [1]; pr_asid := 1; pr_generation := 1;
    pr_page := 69632; pr_access := AccRead |}))
    by (apply (f_equal snd) in E; vm_compute in E; congruence).
  assert (Hp : p' = set_pending demo_pager (Some {| ticket := 1; pr_hash := [1]; pr_asid := 1;
    pr_generation := 1; pr_page := 69632; pr_access := AccRead |}) 1)
    by (apply (f_equal fst) in E; cbn [fst] in E; rewrite <- E; vm_compute; reflexivity).
  rewrite Hr, Hp in *. eexists. split; [reflexivity|].
  apply Hf; vm_compute; [reflexivity|split; congruence].
Defined.

(** * Tickets *)
Section tickets.
Context `{Host}.

Lemma bump_spec g : is_u64 g → bump g = if g =? U64_MAX then 1 else g + 1.
Proof.
  intros Hg. unfold bump, wrapping_add64, wrap, U64_MAX in *. unfold fits in Hg.
  destruct (Z.eqb_spec g (2 ^ 64 - 1)) as [->|Hne]; [done|]. rewrite Z.mod_small by lia. lia.
Qed.
Lemma bump_u64 g : is_u64 g → 1 ≤ bump g ≤ U64_MAX.
Proof. intros Hg. rewrite bump_spec by done. unfold_widths. case_if; bool_to_prop; lia. Qed.

(** The generation after [n] changes of the mappings. *)
Lemma bump_iter n g : 1 ≤ g ≤ U64_MAX → Nat.iter n bump g = (g - 1 + Z.of_nat n) mod U64_MAX + 1.
Proof.
  intros Hg. induction n as [|n IH].
  - cbn [Nat.iter nat_rect]. rewrite Z.mod_small; lia.
  - cbn [Nat.iter nat_rect]. unfold Nat.iter in IH. rewrite IH. set (k := g - 1 + Z.of_nat n).
    replace (g - 1 + Z.of_nat (S n)) with (k + 1) by lia.
    assert (Hk : 0 ≤ k mod U64_MAX < U64_MAX) by (apply Z.mod_pos_bound; done).
    rewrite bump_spec by (unfold fits, U64_MAX in *; lia).
    rewrite <- (Z.add_mod_idemp_l k 1) by done.
    destruct (Z.eqb_spec (k mod U64_MAX + 1) U64_MAX) as [E|E].
    + rewrite E, Z.mod_same by done. done.
    + rewrite (Z.mod_small (k mod U64_MAX + 1)) by lia. lia.
Qed.

Lemma bump_iter_ne n g : is_u64 g → 0 < Z.of_nat n < U64_MAX → Nat.iter n bump g ≠ g.
Proof.
  intros Hg Hn. destruct (decide (g = 0)) as [->|Hne].
  - destruct n as [|n]; [lia|]. cbn [Nat.iter nat_rect].
    assert (∀ k, is_u64 (Nat.iter k bump 0)) as Hk.
    { induction k as [|k IH]; [done|]. cbn [Nat.iter nat_rect]. pose proof (bump_u64 _ IH).
      unfold_widths. unfold Nat.iter in *. lia. }
    pose proof (bump_u64 _ (Hk n)). unfold Nat.iter in *. lia.
  - rewrite bump_iter by (unfold_widths; lia). unfold fits, U64_MAX in *. intros E.
    assert (Hm : (g - 1 + Z.of_nat n) mod (2 ^ 64 - 1) = g - 1) by lia.
    Z.div_mod_to_equations. nia.
Qed.

(** One change of the mappings of an address space. *)
Inductive space_change (asid : Z) (p : Pager) : Pager → Prop :=
| change_map m : space_change asid p (map_file p asid m)
| change_unmap start len p' : start + len ≤ U64_MAX → unmap p asid start len = Ok p' → space_change asid p p'
| change_protect start len prm p' :
    start + len ≤ U64_MAX → protect p asid start len prm = Ok p' → space_change asid p p'
| change_remap o ol n nl p' : remap p asid o ol n nl = Ok p' → space_change asid p p'.

Lemma space_change_effect asid p p' s :
  spaces p !! asid = Some s → space_change asid p p' →
  pending p' = pending p ∧ ∃ ms, spaces p' !! asid = Some {| generation := bump (generation s); mappings := ms |}.
Proof.
  intros Hs [m|start len q Hmax Hu|start len prm q Hmax Hu|o ol n nl q Hu].
  - split; [done|]. unfold map_file. rewrite Hs. cbn. rewrite lookup_insert_eq. eauto.
  - unfold unmap, checked_add64 in Hu. rewrite (proj2 (Z.leb_le _ _)), Hs in Hu by done. inv_res Hu.
    cbn. rewrite lookup_insert_eq. eauto.
  - unfold protect, checked_add64 in Hu. rewrite (proj2 (Z.leb_le _ _)), Hs in Hu by done. inv_res Hu.
    cbn. rewrite lookup_insert_eq. eauto.
  - unfold remap in Hu. rewrite Hs in Hu. cbv zeta in Hu. inv_res Hu.
    cbn. rewrite lookup_insert_eq. eauto.
Qed.

Lemma space_changes_effect asid n p p' s :
  spaces p !! asid = Some s → nsteps (space_change asid) n p p' →
  pending p' = pending p ∧
  ∃ ms, spaces p' !! asid = Some {| generation := Nat.iter n bump (generation s); mappings := ms |}.
Proof.
  intros Hs Hn. revert s Hs. induction Hn as [p|n p1 p2 p3 Hc Hn IH]; intros s Hs.
  { split; [done|]. exists (mappings s). rewrite Hs. by destruct s. }
  destruct (space_change_effect asid p1 p2 s Hs Hc) as [Hp (ms & Hs2)].
  destruct (IH _ Hs2) as [Hp' (ms' & Hs3)]. split; [congruence|]. exists ms'. rewrite Hs3. cbn [generation].
  by rewrite Nat.iter_succ_r.
Qed.
End tickets.

(** A page-in is accepted only under its ticket's authority: if it
    succeeds, the ticket is the pending one, the address space still has the
    generation and a mapping of that page, and the bytes hash to the chunk
    asked for and are in the store; a stale ticket is dropped without touching
    the filesystem, and any other refusal changes nothing. *)
Theorem complete_spec `{Host} p v t b :
  match complete p v t b with
  | (p', v', Ok _) => ∃ q s, pending p = Some q ∧ ticket q = t ∧
      spaces p !! pr_asid q = Some s ∧ generation s = pr_generation q ∧
      (∃ m, m ∈ mappings s ∧ covers (pr_page q) m = true) ∧
      sha256 (vdata b) = pr_hash q ∧ is_Some (Store.get (chunks v') (pr_hash q)) ∧
      nodes v' = nodes v ∧ p' = set_pending p None (next_ticket p)
  | (p', v', Err StaleTicket) => v' = v ∧ p' = set_pending p None (next_ticket p)
  | (p', v', Err _) => v' = v ∧ p' = p
  | (_, _, Panic) => False
  end.
Proof.
  unfold complete. destruct (pending p) as [q|] eqn:Hq; [|done].
  destruct (Z.eqb_spec (ticket q) t) as [Ht|]; cbn [negb]; [|done].
  destruct (spaces p !! pr_asid q) as [s|] eqn:Hs; cbn [negb]; [|done].
  destruct (_ && _) eqn:Hc; cbn [negb]; [|done]. bool_to_prop.
  apply existsb_exists in H1 as (m & Hin%list_elem_of_In & Hm).
  unfold Fs.put_chunk. destruct (if Store.contains _ _ then _ else _) as [[]|e|] eqn:Er; [|done|].
  2:{ revert Er. case_if; [done|]. unfold Fs.reserve. case_if; [done|]. destruct (storage_budget v); [|done]. by case_if. }
  unfold Store.insert. case_bool_decide as Hsha; [|done].
  destruct (bt_get (resident_chunks (chunks v)) (pr_hash q)) as [w|] eqn:Hg.
  - exists q, s. split_and!; eauto.
  - exists q, s. split_and!; eauto. cbn. unfold Store.get. cbn [resident_chunks]. rewrite bt_get_insert_eq. eauto.
Qed.


(** A space dropped and mapped again under the same id has the first generation
    again: the ticket of a fault before the drop passes for current. *)
Example ticket_outlives_space :
  let q := {| ticket := 1; pr_hash := sha256 [7]; pr_asid := 1; pr_generation := 1; pr_page := 65536; pr_access := AccRead |} in
  let p := set_pending demo_pager (Some q) 1 in
  (complete (map_file (drop_space p 1) 1 demo_mapping) Fs.empty_root 1 (Vec [7] 1)).2 = Ok ().
Proof. vm_compute. reflexivity. Qed.

(** * Residency *)
Lemma covers_view p asid s page :
  spaces p !! asid = Some s → existsb (covers page) (mappings s) = true ↔ view p asid page ≠ [].
Proof.
  intros Hs. unfold view, view_of. rewrite Hs, existsb_exists. split.
  - intros (m & Hin%list_elem_of_In & Hc). intros E%map_eq_nil.
    assert (m ∈ filter (covers page) (mappings s)) as Hm
      by (apply list_elem_of_filter; split; [by rewrite Hc|done]).
    rewrite E in Hm. by apply elem_of_nil in Hm.
  - intros Hne. destruct (filter (covers page) (mappings s)) as [|m l] eqn:E; [done|].
    assert (m ∈ filter (covers page) (mappings s)) as [Hc Hin]%list_elem_of_filter by (rewrite E; left).
    exists m. split; [by apply list_elem_of_In|by destruct (covers page m)].
Qed.
Definition page_listed p asid (lo hi x : Z) : Prop := aligned x ∧ lo ≤ x < hi ∧ ((asid, x) ∉ resident p) ∧ view p asid x ≠ [].
(** The loop runs to its end: past the last page the addition saturates, and no
    range reaches the address it saturates to. *)
Lemma nonresident_loop_spec fuel p s asid page end_ :
  spaces p !! asid = Some s → aligned page → 0 ≤ page → end_ ≤ U64_MAX →
  (1 ≤ fuel)%nat → end_ - page ≤ (Z.of_nat fuel - 1) * PAGE_SIZE →
  ∃ l, nonresident_loop fuel p s asid page end_ = Some l ∧ StronglySorted Z.lt l ∧ ∀ x, x ∈ l ↔ page_listed p asid page end_ x.
Proof.
  intros Hs. revert page. induction fuel as [|fuel IH]; intros page Ha H0 Hmax Hf He; [lia|]. cbn [nonresident_loop].
  destruct (Z.ltb_spec page end_) as [Hlt|Hge].
  2:{ exists []. split; [done|]. split; [constructor|]. unfold page_listed. intros x. rewrite elem_of_nil. lia. }
  assert (Hgap : ∀ x, aligned x → page < x → page + PAGE_SIZE ≤ x) by (intros; by apply aligned_gap).
  assert (∃ l, nonresident_loop fuel p s asid (saturating_add64 page PAGE_SIZE) end_ = Some l ∧ StronglySorted Z.lt l ∧
    ∀ x, x ∈ l ↔ page_listed p asid (page + PAGE_SIZE) end_ x) as (l & -> & Hl & Hin).
  { destruct (Z.le_gt_cases (page + PAGE_SIZE) U64_MAX) as [Hle|Hgt].
    - rewrite sat_add by done. apply IH; [unfold aligned, PAGE_SIZE in *; clear - Ha; Z.div_mod_to_equations; lia|unfold PAGE_SIZE in *; lia..].
    - destruct fuel as [|fuel]; [unfold PAGE_SIZE in *; lia|]. cbn [nonresident_loop]. unfold saturating_add64. rewrite Z.min_r by lia.
      replace (U64_MAX <? end_) with false by lia. exists []. split; [done|]. split; [constructor|].
      unfold page_listed. intros x. rewrite elem_of_nil. lia. }
  cbn [mbind option_bind]. eexists. split; [done|]. pose proof (covers_view p asid s page Hs) as Hcov. split.
  - destruct (_ && _); [|done]. constructor; [done|]. apply Forall_forall. intros x (_ & ? & _)%Hin. unfold PAGE_SIZE in *. lia.
  - intros x. rewrite elem_of_app, Hin.
    assert (Hhere : x ∈ (if negb (bool_decide ((asid, page) ∈ resident p)) && existsb (covers page) (mappings s)
        then [page] else []) ↔ x = page ∧ ((asid, page) ∉ resident p) ∧ view p asid page ≠ []).
    { rewrite <- Hcov. case_bool_decide; destruct (existsb _ _); cbn; set_solver. }
    rewrite Hhere. unfold page_listed. split.
    + intros [(-> & ? & ?)|(? & ? & ? & ?)]; split_and!; try done; unfold PAGE_SIZE in *; lia.
    + intros (Hx & Hr & ? & ?). destruct (decide (x = page)) as [->|Hne]; [by left|right].
      split_and!; try done; [apply Hgap; [done|lia]|lia].
Qed.
Lemma nonresident_listed p asid s start len :
  spaces p !! asid = Some s → is_u64 start → 0 ≤ len →
  ∃ l, nonresident_pages p asid start len = Some l ∧ StronglySorted Z.lt l ∧
    ∀ x, x ∈ l ↔ page_listed p asid (page_of start) (saturating_add64 start len) x.
Proof.
  intros Hs Hu Hlen. unfold nonresident_pages. rewrite Hs. pose proof (page_of_bounds start) as Hb. unfold fits in Hu.
  assert (saturating_add64 start len ≤ U64_MAX) as Hmax by (unfold saturating_add64; lia). set (e := saturating_add64 start len) in *.
  assert (0 ≤ page_of start) as H0 by (rewrite page_of_spec; apply Z.mul_nonneg_nonneg; [apply Z.div_pos|]; unfold PAGE_SIZE; lia).
  assert (start ≤ e) as Hle by (unfold e, saturating_add64, U64_MAX; lia).
  assert (0 ≤ (e - page_of start) / PAGE_SIZE) by (apply Z.div_pos; unfold PAGE_SIZE in *; lia).
  apply nonresident_loop_spec; [done|apply page_of_aligned|done|done|lia|]. rewrite Z2Nat.id by lia.
  unfold PAGE_SIZE in *. Z.div_mod_to_equations. lia.
Qed.
Lemma nonresident_total p asid start len : is_u64 start → 0 ≤ len → is_Some (nonresident_pages p asid start len).
Proof.
  intros Hu Hlen. destruct (spaces p !! asid) as [s|] eqn:Hs; [|unfold nonresident_pages; rewrite Hs; eauto].
  destruct (nonresident_listed p asid s start len Hs Hu Hlen) as (l & -> & _). eauto.
Qed.

(** C40. [nonresident_pages] terminates on every range, up to the top of the address
    space where the page address saturates, and lists, in ascending order and once
    each, exactly the pages a copy must fault in first: the pages overlapping the
    range that some lazy mapping covers and that are not resident yet. *)
Theorem nonresident_pages_spec p asid s start len :
  spaces p !! asid = Some s → is_u64 start → 0 ≤ len →
  ∃ l, nonresident_pages p asid start len = Some l ∧ StronglySorted Z.lt l ∧
    ∀ x, x ∈ l ↔ aligned x ∧ page_of start ≤ x < Z.min (start + len) U64_MAX ∧ ((asid, x) ∉ resident p) ∧ view p asid x ≠ [].
Proof. apply nonresident_listed. Qed.

Lemma nonresident_pages_spec_witness :
  ∃ l, nonresident_pages demo_pager 1 65600 8000 = Some l ∧ 65536 ∈ l.
Proof.
  destruct (nonresident_pages_spec demo_pager 1 {| generation := 1; mappings := [demo_mapping] |} 65600 8000) as (l & E & _ & Hl).
  - vm_compute. reflexivity.
  - split; lia.
  - lia.
  - exists l. split; [exact E|]. apply Hl. split; [reflexivity|]. split; [vm_compute; split; congruence|]. split; [|vm_compute; congruence].
    apply not_elem_of_empty.
Defined.

(** The page-in counters. *)
Definition counted (p : Pager) : Prop :=
  let '(r, w, x) := page_ins_by_access p in
  page_ins p = r + w + x ∧ 0 ≤ r ∧ 0 ≤ w ∧ 0 ≤ x.

(** Residency is recorded once: marking a page adds exactly that page to
    the resident set and counts it under its access the first time only, so the
    total stays the sum of the three access counts; it fails only when a 64-bit
    counter is full. *)
Lemma mark_resident_spec p asid page access :
  counted p → page_ins p < U64_MAX →
  ∃ p', mark_resident p asid page access = Ok p' ∧ counted p' ∧
    resident p' = {[(asid, page_of page)]} ∪ resident p ∧ spaces p' = spaces p ∧ pending p' = pending p ∧
    page_ins p' = page_ins p + (if decide ((asid, page_of page) ∈ resident p) then 0 else 1).
Proof.
  unfold counted, mark_resident. destruct (page_ins_by_access p) as [[r w] x] eqn:E. intros (Hsum & ? & ? & ?) Hmax.
  case_bool_decide as Hin.
  - exists p. rewrite E, decide_True by done. split_and!; [done..| |done|done|lia]. set_solver.
  - rewrite decide_False by done. unfold add64. rewrite (proj2 (Z.leb_le (page_ins p + 1) _)) by lia. cbn [rbind].
    destruct access; rewrite (proj2 (Z.leb_le _ _)) by lia; cbn [rbind];
      (eexists; split; [done|]; cbn; split_and!; done || lia).
Qed.

