(* ===== verification/Net.v ===== *)
(** The network broker boundary: [crates/linux-compat/src/net.rs].

    The trait [NetworkBroker] is a type class over the broker's state, with the
    contract its users rely on as the class [BrokerLaws]. [HostBroker], whose
    transport lives in the browser, and [MeteredBroker], which charges another
    broker's traffic to a quota, are instances. [NativeBroker] drives operating
    system sockets and is not modelled. *)

From S2P Require Import Prelude Abi.

Record SocketAddrV4 := { octets : bytes; port : Z }.
#[global] Instance sockaddr_eq_dec : EqDecision SocketAddrV4.
Proof. solve_decision. Defined.

Inductive RecvOutcome := Data (b : bytes) | Closed | WouldBlock.

(** The trait. [readable], [local_addr] and [host_driven] change no broker. *)
Class NetworkBroker (B : Type) := {
  host_driven : B → bool;
  tcp_connect : SocketAddrV4 → stm B Z Z;
  tcp_send : Z → bytes → stm B Z Z;
  tcp_recv : Z → Z → stm B Z RecvOutcome;
  tcp_shutdown_write : Z → stm B Z ();
  udp_open : stm B Z Z;
  udp_send_to : Z → SocketAddrV4 → bytes → stm B Z Z;
  udp_recv_from : Z → Z → stm B Z (option (bytes * SocketAddrV4));
  readable : Z → B → bool;
  local_addr : Z → B → option SocketAddrV4;
  close : Z → B → B;
  wait_ready : list Z → Z → B → B * bool
}.

(** What a caller of the trait relies on: a transfer reports no more than what
    it was given or asked for, and nothing panics. *)
Class BrokerLaws (B : Type) `{NetworkBroker B} := {
  tcp_send_bound h l b : match (tcp_send h l b).2 with Ok n => 0 ≤ n ≤ zlen l | Err _ => True | Panic => False end;
  tcp_recv_bound h n b : 0 ≤ n →
    match (tcp_recv h n b).2 with Ok (Data l) => zlen l ≤ n | Ok _ | Err _ => True | Panic => False end;
  udp_send_bound h a l b : match (udp_send_to h a l b).2 with Ok n => 0 ≤ n ≤ zlen l | Err _ => True | Panic => False end;
  udp_recv_bound h n b : 0 ≤ n →
    match (udp_recv_from h n b).2 with Ok (Some (l, _)) => zlen l ≤ n | Ok None | Err _ => True | Panic => False end
}.

(** * The host-driven broker *)
Inductive NetCommand :=
| TcpConnect (handle : Z) (addr : SocketAddrV4)
| TcpSend (handle : Z) (b : bytes)
| TcpShutdownWrite (handle : Z)
| UdpOpen (handle : Z)
| UdpSendTo (handle : Z) (addr : SocketAddrV4) (b : bytes)
| CloseCmd (handle : Z).

Definition OP_TCP_CONNECT : Z := 1.
Definition OP_TCP_SEND : Z := 2.
Definition OP_TCP_SHUTDOWN_WRITE : Z := 3.
Definition OP_UDP_OPEN : Z := 4.
Definition OP_UDP_SEND_TO : Z := 5.
Definition OP_CLOSE : Z := 6.

Record Endpoint := {
  rx : bytes;
  datagrams : list (bytes * SocketAddrV4);
  closed : bool;
  error : option Z;
  local : option SocketAddrV4
}.
Definition endpoint_default : Endpoint :=
  {| rx := []; datagrams := []; closed := false; error := None; local := None |}.
Definition endpoint_readable (e : Endpoint) : bool :=
  negb (bool_decide (rx e = [])) || negb (bool_decide (datagrams e = [])) || closed e
  || bool_decide (is_Some (error e)).

Record HostBroker := {
  endpoints : gmap Z Endpoint;
  commands : list NetCommand;
  next_handle : Z
}.

Module Host_broker.
Definition new : HostBroker := {| endpoints := ∅; commands := []; next_handle := 1 |}.

Definition set_endpoint (h : Z) (e : Endpoint) (b : HostBroker) : HostBroker :=
  {| endpoints := <[h := e]> (endpoints b); commands := commands b; next_handle := next_handle b |}.
Definition push (c : NetCommand) (b : HostBroker) : HostBroker :=
  {| endpoints := endpoints b; commands := commands b ++ [c]; next_handle := next_handle b |}.

(** [self.endpoints.entry(handle).or_default()] *)
Definition endpoint (b : HostBroker) (h : Z) : Endpoint := default endpoint_default (endpoints b !! h).

(** [handle()], and the endpoint both opening calls insert for it. *)
Definition handle (b : HostBroker) : Z * HostBroker :=
  (next_handle b,
   {| endpoints := endpoints b; commands := commands b;
      next_handle := saturating_add64 (next_handle b) 1 |}).

Definition tcp_connect (addr : SocketAddrV4) : stm HostBroker Z Z := λ b,
  let '(h, b) := handle b in
  (push (TcpConnect h addr) (set_endpoint h endpoint_default b), Ok h).
Definition udp_open : stm HostBroker Z Z := λ b,
  let '(h, b) := handle b in
  (push (UdpOpen h) (set_endpoint h endpoint_default b), Ok h).

(** [endpoints.get(&handle).ok_or(EBADF)?] and the pending error. *)
Definition send (h : Z) (n : Z) (c : NetCommand) : stm HostBroker Z Z := λ b,
  match endpoints b !! h with
  | None => (b, Err EBADF)
  | Some e => match error e with Some errno => (b, Err errno) | None => (push c b, Ok n) end
  end.
Definition tcp_send (h : Z) (l : bytes) : stm HostBroker Z Z := send h (zlen l) (TcpSend h l).
Definition udp_send_to (h : Z) (a : SocketAddrV4) (l : bytes) : stm HostBroker Z Z :=
  send h (zlen l) (UdpSendTo h a l).

Definition with_rx (l : bytes) (e : Endpoint) : Endpoint :=
  {| rx := l; datagrams := datagrams e; closed := closed e; error := error e; local := local e |}.
Definition with_datagrams (l : list (bytes * SocketAddrV4)) (e : Endpoint) : Endpoint :=
  {| rx := rx e; datagrams := l; closed := closed e; error := error e; local := local e |}.

Definition tcp_recv (h max : Z) : stm HostBroker Z RecvOutcome := λ b,
  match endpoints b !! h with
  | None => (b, Err EBADF)
  | Some e =>
      if bool_decide (rx e = []) then
        match error e with
        | Some errno => (b, Err errno)
        | None => (b, Ok (if closed e then Closed else WouldBlock))
        end
      else
        let n := Z.to_nat (Z.min (Z.min max (zlen (rx e))) 1048576) in
        (set_endpoint h (with_rx (drop n (rx e)) e) b, Ok (Data (take n (rx e))))
  end.

Definition tcp_shutdown_write (h : Z) : stm HostBroker Z () := λ b,
  match endpoints b !! h with
  | None => (b, Err EBADF)
  | Some _ => (push (TcpShutdownWrite h) b, Ok ())
  end.

Definition udp_recv_from (h max : Z) : stm HostBroker Z (option (bytes * SocketAddrV4)) := λ b,
  match endpoints b !! h with
  | None => (b, Err EBADF)
  | Some e =>
      match datagrams e with
      | (l, from) :: rest =>
          (set_endpoint h (with_datagrams rest e) b, Ok (Some (take (Z.to_nat (Z.min max 65536)) l, from)))
      | [] => match error e with Some errno => (b, Err errno) | None => (b, Ok None) end
      end
  end.

Definition readable (h : Z) (b : HostBroker) : bool :=
  match endpoints b !! h with Some e => endpoint_readable e | None => false end.
Definition local_addr (h : Z) (b : HostBroker) : option SocketAddrV4 := endpoints b !! h ≫= local.
Definition close (h : Z) (b : HostBroker) : HostBroker :=
  match endpoints b !! h with
  | None => b
  | Some _ =>
      push (CloseCmd h)
        {| endpoints := delete h (endpoints b); commands := commands b; next_handle := next_handle b |}
  end.
Definition wait_ready (hs : list Z) (timeout : Z) (b : HostBroker) : HostBroker * bool :=
  (b, existsb (λ h, readable h b) hs).

(** What the host reports back. *)
Definition deliver_connected (h : Z) (a : option SocketAddrV4) (b : HostBroker) : HostBroker :=
  let e := endpoint b h in
  set_endpoint h {| rx := rx e; datagrams := datagrams e; closed := closed e; error := error e; local := a |} b.
Definition deliver_data (h : Z) (l : bytes) (b : HostBroker) : HostBroker :=
  let e := endpoint b h in set_endpoint h (with_rx (rx e ++ l) e) b.
Definition deliver_datagram (h : Z) (from : SocketAddrV4) (l : bytes) (b : HostBroker) : HostBroker :=
  let e := endpoint b h in set_endpoint h (with_datagrams (datagrams e ++ [(l, from)]) e) b.
Definition deliver_closed (h : Z) (b : HostBroker) : HostBroker :=
  let e := endpoint b h in
  set_endpoint h {| rx := rx e; datagrams := datagrams e; closed := true; error := error e; local := local e |} b.
Definition deliver_error (h errno : Z) (b : HostBroker) : HostBroker :=
  let e := endpoint b h in
  set_endpoint h
    {| rx := rx e; datagrams := datagrams e; closed := closed e;
       error := match error e with None => Some errno | Some x => Some x end; local := local e |} b.

(** The command stream. *)
Definition push_addr (a : SocketAddrV4) : bytes := octets a ++ be_bytes 2 (port a).
Definition encode_command (c : NetCommand) : bytes :=
  match c with
  | TcpConnect h a => OP_TCP_CONNECT :: le_bytes 4 h ++ push_addr a
  | TcpSend h l => OP_TCP_SEND :: le_bytes 4 h ++ le_bytes 4 (zlen l) ++ l
  | TcpShutdownWrite h => OP_TCP_SHUTDOWN_WRITE :: le_bytes 4 h
  | UdpOpen h => OP_UDP_OPEN :: le_bytes 4 h
  | UdpSendTo h a l => OP_UDP_SEND_TO :: le_bytes 4 h ++ push_addr a ++ le_bytes 4 (zlen l) ++ l
  | CloseCmd h => OP_CLOSE :: le_bytes 4 h
  end.
Definition take_commands (b : HostBroker) : HostBroker * bytes :=
  ({| endpoints := endpoints b; commands := []; next_handle := next_handle b |},
   concat (map encode_command (commands b))).
Definition has_commands (b : HostBroker) : bool := negb (bool_decide (commands b = [])).
End Host_broker.

#[global] Instance net_command_eq_dec : EqDecision NetCommand.
Proof. solve_decision. Defined.

#[global] Instance host_network_broker : NetworkBroker HostBroker := {|
  host_driven _ := true;
  tcp_connect := Host_broker.tcp_connect; tcp_send := Host_broker.tcp_send;
  tcp_recv := Host_broker.tcp_recv; tcp_shutdown_write := Host_broker.tcp_shutdown_write;
  udp_open := Host_broker.udp_open; udp_send_to := Host_broker.udp_send_to;
  udp_recv_from := Host_broker.udp_recv_from; readable := Host_broker.readable;
  local_addr := Host_broker.local_addr; close := Host_broker.close;
  wait_ready := Host_broker.wait_ready
|}.

(** * The network quota *)
Record NetMeter := { sent : Z; received : Z; budget : option Z }.
Record NetUsage := { sent_bytes : Z; received_bytes : Z; usage_total : Z }.
(** The meter is shared with the host through an [Rc]; the wrapper holds the
    only broker that charges it. *)
Record MeteredBroker (B : Type) := { inner : B; meter : NetMeter }.
Arguments inner {B} _.
Arguments meter {B} _.

Module Meter.
Section meter.
Context `{Host}.
Definition new : NetMeter := {| sent := 0; received := 0; budget := None |}.
Definition usage (m : NetMeter) : NetUsage :=
  {| sent_bytes := sent m; received_bytes := received m;
     usage_total := saturating_add_usize (sent m) (received m) |}.
Definition set_budget (n : option Z) (m : NetMeter) : NetMeter :=
  {| sent := sent m; received := received m; budget := n |}.
Definition headroom (m : NetMeter) : option Z :=
  (λ n, saturating_sub n (usage_total (usage m))) <$> budget m.
Definition allowance (m : NetMeter) (want : Z) : Z :=
  match headroom m with Some room => Z.min want room | None => want end.
Definition charge (s r : Z) (m : NetMeter) : NetMeter :=
  {| sent := saturating_add_usize (sent m) s; received := saturating_add_usize (received m) r;
     budget := budget m |}.
End meter.
End Meter.

Module Metered.
Section metered.
Context `{Host} {B : Type} `{NetworkBroker B}.
Abbreviation MB := (MeteredBroker B).

Definition new (b : B) (m : NetMeter) : MB := {| inner := b; meter := m |}.
Definition allow (want : Z) (mb : MB) : res Z Z :=
  let allowance := Meter.allowance (meter mb) want in
  if (allowance =? 0) && (0 <? want) then Err EPERM else Ok allowance.
(** A call on the wrapped broker, and a charge. *)
Definition lift {A} (f : stm B Z A) : stm MB Z A := λ mb,
  let '(b, r) := f (inner mb) in (Build_MeteredBroker _ b (meter mb), r).
Definition charge (s r : Z) : stm MB Z () :=
  modify (λ mb, Build_MeteredBroker _ (inner mb) (Meter.charge s r (meter mb))).

Definition tcp_send (h : Z) (l : bytes) : stm MB Z Z :=
  do! allowance <- query (allow (zlen l)) in
  do! n <- lift (Net.tcp_send h (take (Z.to_nat allowance) l)) in
  do! _ <- charge n 0 in
  sret n.
Definition tcp_recv (h max : Z) : stm MB Z RecvOutcome :=
  do! allowance <- query (allow max) in
  do! o <- lift (Net.tcp_recv h allowance) in
  do! _ <- match o with Data l => charge 0 (zlen l) | _ => sret () end in
  sret o.
Definition udp_send_to (h : Z) (a : SocketAddrV4) (l : bytes) : stm MB Z Z :=
  do! allowance <- query (allow (zlen l)) in
  if allowance <? zlen l then sfail EPERM
  else
    do! n <- lift (Net.udp_send_to h a l) in
    do! _ <- charge n 0 in
    sret n.
Definition udp_recv_from (h max : Z) : stm MB Z (option (bytes * SocketAddrV4)) :=
  do! allowance <- query (allow max) in
  do! o <- lift (Net.udp_recv_from h allowance) in
  do! _ <- match o with Some (l, _) => charge 0 (zlen l) | None => sret () end in
  sret o.

#[global] Instance metered_network_broker : NetworkBroker MB := {|
  Net.host_driven mb := Net.host_driven (inner mb);
  Net.tcp_connect a := lift (Net.tcp_connect a); Net.tcp_send := tcp_send; Net.tcp_recv := tcp_recv;
  Net.tcp_shutdown_write h := lift (Net.tcp_shutdown_write h); Net.udp_open := lift Net.udp_open;
  Net.udp_send_to := udp_send_to; Net.udp_recv_from := udp_recv_from;
  Net.readable h mb := Net.readable h (inner mb); Net.local_addr h mb := Net.local_addr h (inner mb);
  Net.close h mb := Build_MeteredBroker _ (Net.close h (inner mb)) (meter mb);
  Net.wait_ready hs t mb :=
    let '(b, r) := Net.wait_ready hs t (inner mb) in (Build_MeteredBroker _ b (meter mb), r)
|}.
End metered.
End Metered.
