(* ===== verification/NetSpec.v ===== *)
(** Correctness of the network brokers: the contract of the trait for
    [HostBroker] and [MeteredBroker], in-order delivery of a stream, the
    quota, and the command stream the browser decodes. *)

From S2P Require Import Prelude Abi Net.

(** * The contract *)
#[global, program] Instance host_broker_laws : BrokerLaws HostBroker.
Next Obligation.
  intros h l b. cbn. unfold Host_broker.tcp_send, Host_broker.send.
  destruct (endpoints b !! h) as [e|]; [destruct (error e)|]; cbn; auto with rust lia.
Qed.
Next Obligation.
  intros h n b Hn. cbn. unfold Host_broker.tcp_recv. destruct (endpoints b !! h) as [e|]; [|done].
  case_bool_decide; cbn; [destruct (error e), (closed e); done|].
  unfold zlen. rewrite length_take. lia.
Qed.
Next Obligation.
  intros h a l b. cbn. unfold Host_broker.udp_send_to, Host_broker.send.
  destruct (endpoints b !! h) as [e|]; [destruct (error e)|]; cbn; auto with rust lia.
Qed.
Next Obligation.
  intros h n b Hn. cbn. unfold Host_broker.udp_recv_from. destruct (endpoints b !! h) as [e|]; [|done].
  destruct (datagrams e) as [|[l a] rest]; cbn; [by destruct (error e)|].
  unfold zlen. rewrite length_take. lia.
Qed.

(** * Traces of a broker

    One call of the trait with the payload it sent and received, and a run of
    them with the totals. *)
Definition sent_by (r : res Z Z) : Z := match r with Ok n => n | _ => 0 end.
Definition received_by (r : res Z RecvOutcome) : Z := match r with Ok (Data l) => zlen l | _ => 0 end.
Definition datagram_by (r : res Z (option (bytes * SocketAddrV4))) : Z :=
  match r with Ok (Some (l, _)) => zlen l | _ => 0 end.

Inductive broker_step {B} `{NetworkBroker B} (b : B) : Z → Z → B → Prop :=
| step_connect a : broker_step b 0 0 (tcp_connect a b).1
| step_send h l : broker_step b (sent_by (tcp_send h l b).2) 0 (tcp_send h l b).1
| step_recv h n : 0 ≤ n → broker_step b 0 (received_by (tcp_recv h n b).2) (tcp_recv h n b).1
| step_shutdown h : broker_step b 0 0 (tcp_shutdown_write h b).1
| step_open : broker_step b 0 0 (udp_open b).1
| step_send_to h a l : broker_step b (sent_by (udp_send_to h a l b).2) 0 (udp_send_to h a l b).1
| step_recv_from h n : 0 ≤ n → broker_step b 0 (datagram_by (udp_recv_from h n b).2) (udp_recv_from h n b).1
| step_close h : broker_step b 0 0 (close h b)
| step_wait hs t : broker_step b 0 0 (wait_ready hs t b).1.

Inductive broker_run {B} `{NetworkBroker B} (b : B) : Z → Z → B → Prop :=
| run_nil : broker_run b 0 0 b
| run_step s r s' r' b1 b2 :
    broker_step b s r b1 → broker_run b1 s' r' b2 → broker_run b (s + s') (r + r') b2.

(** The calls of a wrapped broker: each is a call of it, or refused before
    reaching it. *)
Inductive at_most_one {B} `{NetworkBroker B} (b : B) : Z → Z → B → Prop :=
| one_call s r b' : broker_step b s r b' → at_most_one b s r b'
| no_call : at_most_one b 0 0 b.

Section metered.
Context `{Host} {B : Type} `{BrokerLaws B}.
Abbreviation MB := (MeteredBroker B).
Implicit Types mb : MB.

(** The meter is within its budget; the counts are [usize] values. *)
Definition within (m : NetMeter) : Prop :=
  0 ≤ sent m ∧ 0 ≤ received m ∧
  match budget m with Some n => sent m + received m ≤ n ≤ usize_max | None => True end.

(** Room for [n] more bytes. *)
Definition room (m : NetMeter) (n : Z) : Prop :=
  match budget m with Some k => sent m + received m + n ≤ k | None => True end.

(** [m'] is [m] after [s] bytes sent and [r] received, still within budget. *)
Definition charged (m : NetMeter) (s r : Z) (m' : NetMeter) : Prop :=
  within m' ∧ budget m' = budget m ∧
  (is_Some (budget m) → sent m' = sent m + s ∧ received m' = received m + r).

Lemma allow_spec want mb :
  within (meter mb) → 0 ≤ want →
  match Metered.allow want mb with
  | Ok n => 0 ≤ n ≤ want ∧ room (meter mb) n
  | Err e => e = EPERM
  | Panic => False
  end.
Proof.
  intros (Hs & Hr & Hb) Hw. unfold Metered.allow, Meter.allowance, Meter.headroom, room.
  destruct (budget (meter mb)) as [n|] eqn:En; cbn [fmap option_fmap option_map].
  - unfold saturating_sub, Meter.usage, saturating_add_usize. cbn [usage_total].
    destruct (_ && _) eqn:Hc; bool_to_prop; lia.
  - destruct (_ && _) eqn:Hc; bool_to_prop; lia.
Qed.

Lemma charge_charged s r m :
  within m → 0 ≤ s → 0 ≤ r → room m (s + r) → charged m s r (Meter.charge s r m).
Proof.
  intros (? & ? & ?) ? ? ?. unfold charged, within, room, Meter.charge, saturating_add_usize in *.
  cbn [sent received budget]. pose proof usize_max_bounds. unfold U32_MAX in *.
  destruct (budget m); split_and!; try lia; try done; intros [? ?]; lia || done.
Qed.

Lemma charged_refl m : within m → charged m 0 0 m.
Proof. intros. unfold charged. split_and!; auto; lia. Qed.

Lemma charged_trans m1 m2 m3 s r s' r' :
  charged m1 s r m2 → charged m2 s' r' m3 → charged m1 (s + s') (r + r') m3.
Proof.
  intros (_ & E1 & C1) (W & E2 & C2). split; [done|]. split; [congruence|]. intros Hs.
  destruct (C1 Hs). rewrite <- E1 in Hs. destruct (C2 Hs). lia.
Qed.

(** What one call of the wrapper does to the meter and to the wrapped broker. *)
Definition metered_effect (mb : MB) (s r : Z) (mb' : MB) : Prop :=
  charged (meter mb) s r (meter mb') ∧ at_most_one (inner mb) s r (inner mb').

Lemma refused mb : within (meter mb) → metered_effect mb 0 0 mb.
Proof. intros. split; [by apply charged_refl|apply no_call]. Qed.

Lemma lift_effect {A} (f : stm B Z A) mb :
  within (meter mb) → broker_step (inner mb) 0 0 (f (inner mb)).1 →
  metered_effect mb 0 0 (Metered.lift f mb).1.
Proof.
  intros ? Hs. unfold Metered.lift. destruct (f (inner mb)) as [b r].
  split; [by apply charged_refl|by apply one_call].
Qed.

(** A transfer of [s] and [r] bytes within the allowance [n]. *)
Lemma transfer_effect mb b s r n :
  within (meter mb) → room (meter mb) n → 0 ≤ s → 0 ≤ r → s + r ≤ n →
  broker_step (inner mb) s r b →
  metered_effect mb s r (Build_MeteredBroker _ b (Meter.charge s r (meter mb))).
Proof.
  intros Hw Hroom ? ? ? Hb. split; [|by apply one_call]. apply charge_charged; auto.
  unfold room in *. destruct (budget (meter mb)); [lia|done].
Qed.

Lemma no_transfer_effect mb b :
  within (meter mb) → broker_step (inner mb) 0 0 b →
  metered_effect mb 0 0 (Build_MeteredBroker _ b (meter mb)).
Proof. intros. split; [by apply charged_refl|by apply one_call]. Qed.

(** Runs the allowance check of a metered call. *)
Ltac check_allowance mb want :=
  match goal with Hw : within (meter mb) |- _ =>
    let Ha := fresh "Ha" in
    pose proof (allow_spec want mb Hw ltac:(auto with rust)) as Ha;
    unfold sbind at 1, query; unfold sbind at 1;
    destruct (Metered.allow want mb) as [k|e|]; [|by apply refused|done]
  end.

Lemma tcp_send_effect h l mb :
  within (meter mb) → metered_effect mb (sent_by (tcp_send h l mb).2) 0 (tcp_send h l mb).1.
Proof.
  intros Hw. cbn. unfold Metered.tcp_send. check_allowance mb (zlen l).
  set (l' := take _ l). pose proof (step_send (inner mb) h l') as Hi.
  pose proof (tcp_send_bound h l' (inner mb)) as Hb.
  assert (zlen l' ≤ k) by (unfold l', zlen; rewrite length_take; lia).
  unfold sbind, Metered.lift. destruct (tcp_send h l' (inner mb)) as [b' [n|e|]]; cbn in *;
    [|by apply no_transfer_effect|done].
  apply (transfer_effect mb b' n 0 k); tauto || lia.
Qed.

Lemma tcp_recv_effect h n mb :
  within (meter mb) → 0 ≤ n → metered_effect mb 0 (received_by (tcp_recv h n mb).2) (tcp_recv h n mb).1.
Proof.
  intros Hw Hn. cbn. unfold Metered.tcp_recv. check_allowance mb n.
  pose proof (step_recv (inner mb) h k) as Hi. pose proof (tcp_recv_bound h k (inner mb)) as Hb.
  destruct Ha as [? ?]. specialize (Hi ltac:(lia)). specialize (Hb ltac:(lia)).
  unfold sbind, Metered.lift. destruct (tcp_recv h k (inner mb)) as [b' [[l| |]|e|]]; cbn in *;
    try (by apply no_transfer_effect).
  apply (transfer_effect mb b' 0 (zlen l) k); auto with rust lia.
Qed.

Lemma udp_send_effect h a l mb :
  within (meter mb) → metered_effect mb (sent_by (udp_send_to h a l mb).2) 0 (udp_send_to h a l mb).1.
Proof.
  intros Hw. cbn. unfold Metered.udp_send_to. check_allowance mb (zlen l).
  destruct (Z.ltb_spec k (zlen l)); [by apply refused|].
  pose proof (step_send_to (inner mb) h a l) as Hi. pose proof (udp_send_bound h a l (inner mb)) as Hb.
  unfold sbind, Metered.lift. destruct (udp_send_to h a l (inner mb)) as [b' [n|e|]]; cbn in *;
    [|by apply no_transfer_effect|done].
  apply (transfer_effect mb b' n 0 k); tauto || lia.
Qed.

Lemma udp_recv_effect h n mb :
  within (meter mb) → 0 ≤ n → metered_effect mb 0 (datagram_by (udp_recv_from h n mb).2) (udp_recv_from h n mb).1.
Proof.
  intros Hw Hn. cbn. unfold Metered.udp_recv_from. check_allowance mb n.
  pose proof (step_recv_from (inner mb) h k) as Hi. pose proof (udp_recv_bound h k (inner mb)) as Hb.
  destruct Ha as [? ?]. specialize (Hi ltac:(lia)). specialize (Hb ltac:(lia)).
  unfold sbind, Metered.lift. destruct (udp_recv_from h k (inner mb)) as [b' [[[l a]|]|e|]]; cbn in *;
    try (by apply no_transfer_effect).
  apply (transfer_effect mb b' 0 (zlen l) k); auto with rust lia.
Qed.

Lemma metered_step mb s r mb' :
  within (meter mb) → broker_step mb s r mb' → metered_effect mb s r mb'.
Proof.
  intros Hw []; eauto using tcp_send_effect, tcp_recv_effect, udp_send_effect, udp_recv_effect.
  - apply (lift_effect (tcp_connect a)); [done|constructor].
  - apply (lift_effect (tcp_shutdown_write h)); [done|constructor].
  - apply (lift_effect udp_open); [done|constructor].
  - apply no_transfer_effect; [done|constructor].
  - cbn. pose proof (step_wait (inner mb) hs t) as Hs. destruct (wait_ready hs t (inner mb)).
    by apply no_transfer_effect.
Qed.

(** A wrapped broker moves exactly what its wrapper reports. *)
Lemma metered_run mb s r mb' :
  within (meter mb) → broker_run mb s r mb' →
  charged (meter mb) s r (meter mb') ∧ broker_run (inner mb) s r (inner mb').
Proof.
  intros Hw Hr. induction Hr as [mb|mb s r s' r' b1 b2 Hs Hr IH].
  { split; [by apply charged_refl|constructor]. }
  destruct (metered_step _ _ _ _ Hw Hs) as [Hc Ho]. destruct (IH (proj1 Hc)) as [Hc' Hi].
  split; [by eapply charged_trans|]. destruct Ho as [x y z Hz|]; [by eapply run_step|].
  by rewrite !Z.add_0_l.
Qed.

(** The contract survives the wrapper, so metered brokers can be wrapped again. *)
Lemma allow_bound want mb :
  0 ≤ want → match Metered.allow want mb with Ok n => 0 ≤ n ≤ want | Err _ => True | Panic => False end.
Proof.
  intros. unfold Metered.allow, Meter.allowance, Meter.headroom, saturating_sub.
  destruct (budget (meter mb)); cbn [fmap option_fmap option_map]; case_if; lia.
Qed.

Ltac check_bound mb want :=
  let Ha := fresh "Ha" in
  pose proof (allow_bound want mb ltac:(auto with rust)) as Ha;
  unfold sbind at 1, query; unfold sbind at 1; destruct (Metered.allow want mb) as [k|e|]; [|done|done].

#[global] Instance metered_laws : BrokerLaws MB.
Proof.
  split; intros; cbn.
  - unfold Metered.tcp_send. check_bound b (zlen l). set (l' := take _ l).
    assert (zlen l' ≤ zlen l) by (unfold l', zlen; rewrite length_take; lia).
    pose proof (tcp_send_bound h l' (inner b)) as Hb. unfold sbind, Metered.lift.
    destruct (tcp_send h l' (inner b)) as [b' [n|e|]]; cbn in *; [lia|done..].
  - unfold Metered.tcp_recv. check_bound b n. pose proof (tcp_recv_bound h k (inner b)) as Hb.
    specialize (Hb ltac:(lia)). unfold sbind, Metered.lift.
    destruct (tcp_recv h k (inner b)) as [b' [[l| |]|e|]]; cbn in *; done || lia.
  - unfold Metered.udp_send_to. check_bound b (zlen l). case_if; [done|].
    pose proof (udp_send_bound h a l (inner b)) as Hsb. unfold sbind, Metered.lift.
    destruct (udp_send_to h a l (inner b)) as [b' [n|e|]]; cbn in *; done.
  - unfold Metered.udp_recv_from. check_bound b n. pose proof (udp_recv_bound h k (inner b)) as Hb.
    specialize (Hb ltac:(lia)). unfold sbind, Metered.lift.
    destruct (udp_recv_from h k (inner b)) as [b' [[[l a]|]|e|]]; cbn in *; done || lia.
Qed.
End metered.

(** C22. The network quota holds whatever the broker behind it: along any run
    of calls on a metered broker the meter counts exactly the payload sent and
    received, the wrapped broker moved exactly that payload, and while a
    budget is set the total never exceeds it. *)
Theorem network_quota `{Host} {B : Type} `{BrokerLaws B} (mb mb' : MeteredBroker B) n s r :
  budget (meter mb) = Some n → within (meter mb) → broker_run mb s r mb' →
  budget (meter mb') = Some n ∧
  sent (meter mb') = sent (meter mb) + s ∧ received (meter mb') = received (meter mb) + r ∧
  sent (meter mb') + received (meter mb') ≤ n ∧
  broker_run (inner mb) s r (inner mb').
Proof.
  intros Hn Hw Hr. destruct (metered_run _ _ _ _ Hw Hr) as [((_ & _ & Hw') & Hb & Hc) Hi].
  rewrite Hn in *. rewrite Hb in Hw'. destruct Hc as [Hs Hr']; [eauto|]. split_and!; auto. lia.
Qed.

Definition example_addr : SocketAddrV4 := {| octets := [10; 0; 0; 1]; port := 443 |}.
Definition example_broker : HostBroker := (Host_broker.tcp_connect example_addr Host_broker.new).1.

Lemma network_quota_witness :
  let m := Metered.new example_broker {| sent := 0; received := 0; budget := Some 3 |} in
  let m' := (tcp_send 1 [7; 8; 9; 10] m).1 in
  sent (meter m') = 3 ∧ sent (meter m') + received (meter m') ≤ 3.
Proof.
  intros m m'. destruct (network_quota m m' 3 (3 + 0) (0 + 0)) as (_ & Hs & _ & Hb & _).
  - reflexivity.
  - vm_compute. split_and!; congruence.
  - apply (run_step m 3 0 0 0 m' m'); [|constructor]. exact (step_send m 1 [7; 8; 9; 10]).
  - split; [exact Hs|exact Hb].
Defined.

(** * In-order delivery

    What the host and the guest do to a host-driven broker. *)
Inductive host_op :=
| ODeliver (h : Z) (l : bytes)
| ODatagram (h : Z) (from : SocketAddrV4) (l : bytes)
| OPeerClosed (h : Z)
| OError (h errno : Z)
| OConnected (h : Z) (a : option SocketAddrV4)
| ORecv (h max : Z)
| ORecvFrom (h max : Z)
| OSend (h : Z) (l : bytes)
| OSendTo (h : Z) (a : SocketAddrV4) (l : bytes)
| OShutdown (h : Z)
| OClose (h : Z)
| OTake.

Definition host_exec (o : host_op) (b : HostBroker) : HostBroker :=
  match o with
  | ODeliver h l => Host_broker.deliver_data h l b
  | ODatagram h a l => Host_broker.deliver_datagram h a l b
  | OPeerClosed h => Host_broker.deliver_closed h b
  | OError h e => Host_broker.deliver_error h e b
  | OConnected h a => Host_broker.deliver_connected h a b
  | ORecv h n => (tcp_recv h n b).1
  | ORecvFrom h n => (udp_recv_from h n b).1
  | OSend h l => (tcp_send h l b).1
  | OSendTo h a l => (udp_send_to h a l b).1
  | OShutdown h => (tcp_shutdown_write h b).1
  | OClose h => close h b
  | OTake => (Host_broker.take_commands b).1
  end.

(** The bytes an operation adds to the stream [h], and those the guest gets. *)
Definition delivered (h : Z) (o : host_op) : bytes :=
  match o with ODeliver h' l => if h' =? h then l else [] | _ => [] end.
Definition got (h : Z) (o : host_op) (b : HostBroker) : bytes :=
  match o with
  | ORecv h' n => if h' =? h then match (tcp_recv h' n b).2 with Ok (Data l) => l | _ => [] end else []
  | _ => []
  end.
Fixpoint host_run (h : Z) (ops : list host_op) (b : HostBroker) : bytes * HostBroker :=
  match ops with
  | [] => ([], b)
  | o :: ops => let '(l, b') := host_run h ops (host_exec o b) in (got h o b ++ l, b')
  end.

Definition rx_of (h : Z) (b : HostBroker) : bytes := rx (Host_broker.endpoint b h).

Lemma endpoint_set h h' e b :
  Host_broker.endpoint (Host_broker.set_endpoint h' e b) h =
  if decide (h' = h) then e else Host_broker.endpoint b h.
Proof.
  unfold Host_broker.endpoint. cbn. case_decide as E; [subst; by rewrite lookup_insert_eq|].
  by rewrite lookup_insert_ne.
Qed.
Lemma endpoint_push h c b : Host_broker.endpoint (Host_broker.push c b) h = Host_broker.endpoint b h.
Proof. done. Qed.

Lemma host_exec_rx h o b :
  o ≠ OClose h → got h o b ++ rx_of h (host_exec o b) = rx_of h b ++ delivered h o.
Proof.
  intros Hne. unfold rx_of. destruct o as [h' l|h' a l|h'|h' e|h' a|h' n|h' n|h' l|h' a l|h'|h'|];
    cbn [got delivered host_exec];
    unfold Host_broker.deliver_data, Host_broker.deliver_datagram, Host_broker.deliver_closed,
      Host_broker.deliver_error, Host_broker.deliver_connected.
  1-5: rewrite endpoint_set; destruct (Z.eqb_spec h' h); case_decide; subst; try done; cbn; by rewrite ?app_nil_r.
  - cbn. unfold Host_broker.tcp_recv.
    destruct (endpoints b !! h') as [e|] eqn:He; [|by destruct (_ =? _); rewrite app_nil_r].
    case_bool_decide; [destruct (error e); cbn; destruct (h' =? h), (closed e); by rewrite app_nil_r|].
    cbn [fst snd]. rewrite endpoint_set, app_nil_r. destruct (Z.eqb_spec h' h); case_decide; try done.
    subst. cbn. rewrite take_drop. unfold Host_broker.endpoint. by rewrite He.
  - cbn. unfold Host_broker.udp_recv_from. rewrite app_nil_r.
    destruct (endpoints b !! h') as [e|] eqn:He; [|done].
    destruct (datagrams e) as [|[l a] rest]; [by destruct (error e)|]. cbn [fst]. rewrite endpoint_set.
    case_decide; [|done]. subst. unfold Host_broker.endpoint. by rewrite He.
  - cbn. unfold Host_broker.tcp_send, Host_broker.send. rewrite app_nil_r.
    destruct (endpoints b !! h') as [e|]; [|done]. by destruct (error e).
  - cbn. unfold Host_broker.udp_send_to, Host_broker.send. rewrite app_nil_r.
    destruct (endpoints b !! h') as [e|]; [|done]. by destruct (error e).
  - cbn. unfold Host_broker.tcp_shutdown_write. rewrite app_nil_r. by destruct (endpoints b !! h').
  - cbn. unfold Host_broker.close. rewrite app_nil_r. destruct (endpoints b !! h') eqn:He; [|done].
    rewrite endpoint_push. unfold Host_broker.endpoint. cbn. rewrite lookup_delete_ne; [done|congruence].
  - by rewrite app_nil_r.
Qed.

Lemma run_in_order h ops b :
  OClose h ∉ ops → (host_run h ops b).1 ++ rx_of h (host_run h ops b).2 = rx_of h b ++ concat (map (delivered h) ops).
Proof.
  revert b. induction ops as [|o ops IH]; intros b Hc; cbn [host_run map concat].
  { by rewrite app_nil_r. }
  apply not_elem_of_cons in Hc as [Hne Hc]. specialize (IH (host_exec o b) Hc).
  destruct (host_run h ops (host_exec o b)) as [l b'] eqn:E. cbn [fst snd] in *.
  by rewrite <- app_assoc, IH, !app_assoc, host_exec_rx.
Qed.
(** What a read answers, by what is buffered. *)
Lemma recv_front h max b :
  match (tcp_recv h max b).2 with
  | Ok (Data l) => l = take (Z.to_nat (Z.min max 1048576)) (rx_of h b) ∧ rx_of h b ≠ []
  | Ok Closed => rx_of h b = [] ∧ closed (Host_broker.endpoint b h) = true
  | Ok WouldBlock | Err _ => rx_of h b = []
  | Panic => False
  end.
Proof.
  cbn. unfold Host_broker.tcp_recv, rx_of, Host_broker.endpoint. destruct (endpoints b !! h) as [e|]; [|done]. cbn.
  case_bool_decide as Hr; [destruct (error e); cbn; [done|]; by destruct (closed e)|]. cbn. split; [|done].
  pose proof (zlen_nonneg (rx e)). destruct (Z.min_spec (Z.min max 1048576) (zlen (rx e))) as [[? E]|[? E]].
  - f_equal. lia.
  - rewrite !take_ge; [done|unfold zlen in *; lia..].
Qed.


(** * The command stream

    The decoder of the documented layout: [op:u8, handle:u32le], then
    [addr:u32be, port:u16be] for a destination and [len:u32le] with the bytes
    for a payload. *)
Definition split_at (n : nat) (l : bytes) : option (bytes * bytes) :=
  if decide (n ≤ length l)%nat then Some (take n l, drop n l) else None.
Definition d_handle (l : bytes) : option (Z * bytes) :=
  '(b, l) ← split_at 4 l; Some (le_val b, l).
Definition d_addr (l : bytes) : option (SocketAddrV4 * bytes) :=
  '(ip, l) ← split_at 4 l; '(p, l) ← split_at 2 l; Some ({| octets := ip; port := be_val p |}, l).
Definition d_payload (l : bytes) : option (bytes * bytes) :=
  '(n, l) ← d_handle l; split_at (Z.to_nat n) l.
Definition decode_command (l : bytes) : option (NetCommand * bytes) :=
  match l with
  | [] => None
  | op :: l =>
      '(h, l) ← d_handle l;
      if op =? OP_TCP_CONNECT then '(a, l) ← d_addr l; Some (TcpConnect h a, l)
      else if op =? OP_TCP_SEND then '(b, l) ← d_payload l; Some (TcpSend h b, l)
      else if op =? OP_TCP_SHUTDOWN_WRITE then Some (TcpShutdownWrite h, l)
      else if op =? OP_UDP_OPEN then Some (UdpOpen h, l)
      else if op =? OP_UDP_SEND_TO then
        '(a, l) ← d_addr l; '(b, l) ← d_payload l; Some (UdpSendTo h a b, l)
      else if op =? OP_CLOSE then Some (CloseCmd h, l)
      else None
  end.
Fixpoint decode_commands (fuel : nat) (l : bytes) : option (list NetCommand) :=
  match fuel, l with
  | _, [] => Some []
  | O, _ => None
  | S fuel, l => '(c, l) ← decode_command l; cs ← decode_commands fuel l; Some (c :: cs)
  end.

Definition addr_wf (a : SocketAddrV4) : Prop := length (octets a) = 4%nat ∧ is_u16 (port a).
Definition command_wf (c : NetCommand) : Prop :=
  match c with
  | TcpConnect h a => is_u32 h ∧ addr_wf a
  | TcpSend h l => is_u32 h ∧ is_u32 (zlen l)
  | UdpSendTo h a l => is_u32 h ∧ addr_wf a ∧ is_u32 (zlen l)
  | TcpShutdownWrite h | UdpOpen h | CloseCmd h => is_u32 h
  end.

Lemma split_at_app n a l : length a = n → split_at n (a ++ l) = Some (a, l).
Proof.
  intros <-. unfold split_at. rewrite decide_True by (rewrite length_app; lia).
  by rewrite take_app_length, drop_app_length.
Qed.
Lemma d_handle_le h l : is_u32 h → d_handle (le_bytes 4 h ++ l) = Some (h, l).
Proof.
  intros. unfold d_handle. rewrite split_at_app by apply length_le_bytes. cbn -[le_val le_bytes].
  by rewrite le_val_bytes_id.
Qed.
Lemma d_addr_push a l : addr_wf a → d_addr (Host_broker.push_addr a ++ l) = Some (a, l).
Proof.
  intros [Hl Hp]. unfold d_addr, Host_broker.push_addr. rewrite <- app_assoc, split_at_app by done.
  cbn -[be_val be_bytes]. rewrite split_at_app by apply length_be_bytes. cbn -[be_val be_bytes].
  rewrite be_val_bytes_id by done. by destruct a.
Qed.
Lemma d_payload_le b l : is_u32 (zlen b) → d_payload (le_bytes 4 (zlen b) ++ b ++ l) = Some (b, l).
Proof.
  intros. unfold d_payload. rewrite d_handle_le by done. cbn -[zlen].
  by rewrite split_at_app by (unfold zlen; lia).
Qed.

Lemma decode_encode c l :
  command_wf c → decode_command (Host_broker.encode_command c ++ l) = Some (c, l).
Proof.
  destruct c as [h a|h b|h|h|h a b|h]; cbn [command_wf Host_broker.encode_command]; intros Hc;
    rewrite <- ?app_comm_cons, <- ?app_assoc; cbn [decode_command app];
    rewrite d_handle_le by tauto; cbn [mbind option_bind]; cbn -[d_addr d_payload le_bytes zlen].
  all: rewrite ?d_addr_push by tauto; cbn [mbind option_bind]; rewrite ?d_payload_le by tauto; done.
Qed.

Lemma encode_nonempty c : Host_broker.encode_command c ≠ [].
Proof. by destruct c. Qed.

(** The command stream is lossless: draining the broker leaves no command
    behind, and a host that decodes the bytes by the documented layout gets
    exactly the recorded commands in order. *)
Theorem take_commands_roundtrip b :
  Forall command_wf (commands b) →
  let '(b', out) := Host_broker.take_commands b in
  decode_commands (length (commands b)) out = Some (commands b) ∧
  commands b' = [] ∧ endpoints b' = endpoints b.
Proof.
  intros Hw. cbn. split; [|done]. induction Hw as [|c cs Hc Hcs IH]; [done|].
  cbn [map concat length decode_commands]. destruct (_ ++ _) eqn:E.
  - apply app_eq_nil in E as [E _]. by apply encode_nonempty in E.
  - rewrite <- E, decode_encode by done. cbn. by rewrite IH.
Qed.

Lemma take_commands_roundtrip_witness :
  let b := (tcp_send 1 [104; 105] example_broker).1 in
  decode_commands 2 (Host_broker.take_commands b).2 = Some [TcpConnect 1 example_addr; TcpSend 1 [104; 105]].
Proof.
  intros b. apply (take_commands_roundtrip b).
  repeat constructor; vm_compute; congruence.
Defined.
