(* ===== verification/NetRecord.v ===== *)
(** Recording, replaying and classifying network traffic:
    [crates/linux-compat/src/netrecord.rs].

    [RecordingBroker] wraps any broker of [Net]; [ReplayBroker] answers from
    the log alone. A guest is a finite tree of broker calls that continues on
    their results, so that "the guest cannot tell the difference" is an
    equation between two runs. *)

From S2P Require Import Prelude BTree Abi Net.

Inductive RecordedRecv := RData (b : bytes) | RClosed | RWouldBlock | RError (errno : Z).

(** [Result<Handle, u64>] of an event: the handle on the left. *)
Inductive NetEvent :=
| ETcpConnect (addr : SocketAddrV4) (result : Z + Z)
| EUdpOpen (result : Z + Z)
| ESent (handle len : Z)
| ESentTo (handle : Z) (addr : SocketAddrV4) (len : Z)
| EReceived (handle : Z) (outcome : RecordedRecv)
| EReceivedFrom (handle : Z) (result : option (bytes * SocketAddrV4))
| EClosed (handle : Z).

Abbreviation Recording := (list NetEvent).

(** * Recording *)
Record RecordingBroker (B : Type) := { rec_inner : B; log : Recording }.
Arguments rec_inner {B} _.
Arguments log {B} _.

Module Recorder.
Section recorder.
Context {B : Type} `{NetworkBroker B}.
Abbreviation RB := (RecordingBroker B).

Definition new (b : B) : RB := {| rec_inner := b; log := [] |}.
Definition recorded (e : list NetEvent) (b : B) (rb : RB) : RB :=
  {| rec_inner := b; log := log rb ++ e |}.
(** A call forwarded unchanged, and the event [f] makes of its result. *)
Definition forward {A} (call : stm B Z A) (f : res Z A → list NetEvent) : stm RB Z A := λ rb,
  let '(b, r) := call (rec_inner rb) in (recorded (f r) b rb, r).

Definition tcp_connect (a : SocketAddrV4) : stm RB Z Z :=
  forward (Net.tcp_connect a)
    (λ r, match r with Ok h => [ETcpConnect a (inl h)] | Err e => [ETcpConnect a (inr e)] | Panic => [] end).
Definition tcp_send (h : Z) (l : bytes) : stm RB Z Z :=
  forward (Net.tcp_send h l) (λ r, match r with Ok n => [ESent h n] | _ => [] end).
Definition tcp_recv (h max : Z) : stm RB Z RecvOutcome :=
  forward (Net.tcp_recv h max)
    (λ r, match r with
          | Ok (Data l) => [EReceived h (RData l)]
          | Ok Closed => [EReceived h RClosed]
          | Ok WouldBlock => [EReceived h RWouldBlock]
          | Err e => [EReceived h (RError e)]
          | Panic => []
          end).
Definition tcp_shutdown_write (h : Z) : stm RB Z () := forward (Net.tcp_shutdown_write h) (λ _, []).
Definition udp_open : stm RB Z Z :=
  forward Net.udp_open
    (λ r, match r with Ok h => [EUdpOpen (inl h)] | Err e => [EUdpOpen (inr e)] | Panic => [] end).
Definition udp_send_to (h : Z) (a : SocketAddrV4) (l : bytes) : stm RB Z Z :=
  forward (Net.udp_send_to h a l) (λ r, match r with Ok n => [ESentTo h a n] | _ => [] end).
Definition udp_recv_from (h max : Z) : stm RB Z (option (bytes * SocketAddrV4)) :=
  forward (Net.udp_recv_from h max) (λ r, match r with Ok v => [EReceivedFrom h v] | _ => [] end).
Definition close (h : Z) (rb : RB) : RB := recorded [EClosed h] (Net.close h (rec_inner rb)) rb.

#[global] Instance recording_network_broker : NetworkBroker RB := {|
  Net.host_driven rb := Net.host_driven (rec_inner rb);
  Net.tcp_connect := tcp_connect; Net.tcp_send := tcp_send; Net.tcp_recv := tcp_recv;
  Net.tcp_shutdown_write := tcp_shutdown_write; Net.udp_open := udp_open;
  Net.udp_send_to := udp_send_to; Net.udp_recv_from := udp_recv_from;
  Net.readable h rb := Net.readable h (rec_inner rb); Net.local_addr h rb := Net.local_addr h (rec_inner rb);
  Net.close := close;
  Net.wait_ready hs t rb :=
    let '(b, r) := Net.wait_ready hs t (rec_inner rb) in (recorded [] b rb, r)
|}.
End recorder.
End Recorder.

(** * Replaying *)
Record ReplayBroker := { recording : Recording; cursor : nat }.

Module Replay.
Definition new (r : Recording) : ReplayBroker := {| recording := r; cursor := 0 |}.
Definition advance (b : ReplayBroker) : ReplayBroker :=
  {| recording := recording b; cursor := S (cursor b) |}.
Definition peek (b : ReplayBroker) : option NetEvent := recording b !! cursor b.
Definition next_event (b : ReplayBroker) : ReplayBroker * option NetEvent :=
  match peek b with Some e => (advance b, Some e) | None => (b, None) end.
(** [if matches!(..) { self.cursor += 1 }] *)
Definition skip_if (f : NetEvent → bool) (b : ReplayBroker) : ReplayBroker :=
  match peek b with Some e => if f e then advance b else b | None => b end.

Definition result_of (r : Z + Z) : res Z Z := match r with inl h => Ok h | inr e => Err e end.

Definition tcp_connect (a : SocketAddrV4) : stm ReplayBroker Z Z := λ b,
  let '(b, e) := next_event b in
  (b, match e with Some (ETcpConnect _ r) => result_of r | _ => Err ECONNREFUSED end).
Definition tcp_send (h : Z) (l : bytes) : stm ReplayBroker Z Z := λ b,
  (skip_if (λ e, match e with ESent _ _ => true | _ => false end) b, Ok (zlen l)).
Definition tcp_recv (h max : Z) : stm ReplayBroker Z RecvOutcome := λ b,
  let '(b, e) := next_event b in
  (b, match e with
      | Some (EReceived _ (RData l)) => Ok (Data l)
      | Some (EReceived _ RClosed) => Ok Closed
      | Some (EReceived _ RWouldBlock) => Ok WouldBlock
      | Some (EReceived _ (RError e)) => Err e
      | _ => Ok Closed
      end).
Definition tcp_shutdown_write (h : Z) : stm ReplayBroker Z () := sret ().
Definition udp_open : stm ReplayBroker Z Z := λ b,
  let '(b, e) := next_event b in
  (b, match e with Some (EUdpOpen r) => result_of r | _ => Err EAFNOSUPPORT end).
Definition udp_send_to (h : Z) (a : SocketAddrV4) (l : bytes) : stm ReplayBroker Z Z := λ b,
  (skip_if (λ e, match e with ESentTo _ _ _ => true | _ => false end) b, Ok (zlen l)).
Definition udp_recv_from (h max : Z) : stm ReplayBroker Z (option (bytes * SocketAddrV4)) := λ b,
  let '(b, e) := next_event b in
  (b, match e with Some (EReceivedFrom _ v) => Ok v | _ => Ok None end).
Definition close (h : Z) (b : ReplayBroker) : ReplayBroker :=
  skip_if (λ e, match e with EClosed _ => true | _ => false end) b.
End Replay.

#[global] Instance replay_network_broker : NetworkBroker ReplayBroker := {|
  host_driven _ := false;
  tcp_connect := Replay.tcp_connect; tcp_send := Replay.tcp_send; tcp_recv := Replay.tcp_recv;
  tcp_shutdown_write := Replay.tcp_shutdown_write; udp_open := Replay.udp_open;
  udp_send_to := Replay.udp_send_to; udp_recv_from := Replay.udp_recv_from;
  readable _ _ := true; local_addr _ _ := None; close := Replay.close;
  wait_ready _ _ b := (b, true)
|}.

(** * The ledger *)
Inductive Protocol := Tcp | Udp.
Inductive Outcome := OOpen | OClosed | ORefused (errno : Z) | OErrored (errno : Z).
Record Receipt := {
  protocol : Protocol;
  peer : option SocketAddrV4;
  bytes_sent : Z;
  bytes_received : Z;
  outcome : Outcome
}.

Module Ledger.
Section ledger.
Context `{Host}.
Definition add_usize {E} (a b : Z) : res E Z := if a + b <=? usize_max then Ok (a + b) else Panic.
Definition tcp (a : SocketAddrV4) : Receipt :=
  {| protocol := Tcp; peer := Some a; bytes_sent := 0; bytes_received := 0; outcome := OOpen |}.
Definition udp : Receipt :=
  {| protocol := Udp; peer := None; bytes_sent := 0; bytes_received := 0; outcome := OOpen |}.
Definition with_outcome (o : Outcome) (r : Receipt) : Receipt :=
  {| protocol := protocol r; peer := peer r; bytes_sent := bytes_sent r;
     bytes_received := bytes_received r; outcome := o |}.
Definition add_sent (n : Z) (r : Receipt) : res Z Receipt :=
  let! s := add_usize (bytes_sent r) n in
  Ok {| protocol := protocol r; peer := peer r; bytes_sent := s;
        bytes_received := bytes_received r; outcome := outcome r |}.
Definition add_received (n : Z) (r : Receipt) : res Z Receipt :=
  let! s := add_usize (bytes_received r) n in
  Ok {| protocol := protocol r; peer := peer r; bytes_sent := bytes_sent r;
        bytes_received := s; outcome := outcome r |}.
Definition sentinel (m : btree Z Receipt) : res Z Z := add64 (U64_MAX - 1000000) (zlen m).
(** [by_handle.entry(h).or_insert_with(..)] *)
Definition or_insert (h : Z) (r : Receipt) (m : btree Z Receipt) : btree Z Receipt :=
  if bt_mem m h then m else bt_insert m h r.
(** [if let Some(r) = by_handle.get_mut(h) { .. }] *)
Definition update (h : Z) (f : Receipt → res Z Receipt) (m : btree Z Receipt) : res Z (btree Z Receipt) :=
  match bt_get m h with
  | Some r => let! r := f r in Ok (bt_insert m h r)
  | None => Ok m
  end.
Definition classify (m : btree Z Receipt) (e : NetEvent) : res Z (btree Z Receipt) :=
  match e with
  | ETcpConnect a (inl h) => Ok (or_insert h (tcp a) m)
  | ETcpConnect a (inr errno) =>
      let! k := sentinel m in Ok (bt_insert m k (with_outcome (ORefused errno) (tcp a)))
  | EUdpOpen (inl h) => Ok (or_insert h udp m)
  | ESent h n | ESentTo h _ n => update h (add_sent n) m
  | EReceived h (RData l) => update h (add_received (zlen l)) m
  | EReceived h RClosed => update h (λ r, Ok (with_outcome OClosed r)) m
  | EReceived h (RError errno) => update h (λ r, Ok (with_outcome (OErrored errno) r)) m
  | EReceivedFrom h (Some (l, _)) => update h (add_received (zlen l)) m
  | _ => Ok m
  end.
Fixpoint classify_all (m : btree Z Receipt) (es : Recording) : res Z (btree Z Receipt) :=
  match es with
  | [] => Ok m
  | e :: es => let! m := classify m e in classify_all m es
  end.
Definition receipts (es : Recording) : res Z (list Receipt) :=
  let! m := classify_all [] es in Ok (map snd m).
End ledger.
End Ledger.
