(* ===== verification/NetRecordSpec.v ===== *)
(** Correctness of recording and replaying: a deterministic guest cannot tell
    a replay from the session recorded, as long as every send of the session
    was complete; and the ledger accounts for every byte. *)

From S2P Require Import Prelude BTree Abi Net NetRecord.

Definition example_peer : SocketAddrV4 := {| octets := [10; 0; 0; 1]; port := 443 |}.

(** * Guests *)
Inductive guest (A : Type) :=
| Done (a : A)
| CConnect (addr : SocketAddrV4) (k : res Z Z → guest A)
| CSend (h : Z) (l : bytes) (k : res Z Z → guest A)
| CRecv (h max : Z) (k : res Z RecvOutcome → guest A)
| CShutdown (h : Z) (k : res Z () → guest A)
| CUdpOpen (k : res Z Z → guest A)
| CSendTo (h : Z) (addr : SocketAddrV4) (l : bytes) (k : res Z Z → guest A)
| CRecvFrom (h max : Z) (k : res Z (option (bytes * SocketAddrV4)) → guest A)
| CReadable (h : Z) (k : bool → guest A)
| CLocalAddr (h : Z) (k : option SocketAddrV4 → guest A)
| CWaitReady (hs : list Z) (timeout : Z) (k : bool → guest A)
| CClose (h : Z) (k : guest A).
Arguments Done {A} a.
Arguments CConnect {A} addr k.
Arguments CSend {A} h l k.
Arguments CRecv {A} h max k.
Arguments CShutdown {A} h k.
Arguments CUdpOpen {A} k.
Arguments CSendTo {A} h addr l k.
Arguments CRecvFrom {A} h max k.
Arguments CReadable {A} h k.
Arguments CLocalAddr {A} h k.
Arguments CWaitReady {A} hs timeout k.
Arguments CClose {A} h k.

Fixpoint run_guest {A B} `{NetworkBroker B} (g : guest A) (b : B) : A * B :=
  match g with
  | Done a => (a, b)
  | CConnect a k => let '(b, r) := tcp_connect a b in run_guest (k r) b
  | CSend h l k => let '(b, r) := tcp_send h l b in run_guest (k r) b
  | CRecv h n k => let '(b, r) := tcp_recv h n b in run_guest (k r) b
  | CShutdown h k => let '(b, r) := tcp_shutdown_write h b in run_guest (k r) b
  | CUdpOpen k => let '(b, r) := udp_open b in run_guest (k r) b
  | CSendTo h a l k => let '(b, r) := udp_send_to h a l b in run_guest (k r) b
  | CRecvFrom h n k => let '(b, r) := udp_recv_from h n b in run_guest (k r) b
  | CReadable h k => run_guest (k (readable h b)) b
  | CLocalAddr h k => run_guest (k (local_addr h b)) b
  | CWaitReady hs t k => let '(b, r) := wait_ready hs t b in run_guest (k r) b
  | CClose h k => run_guest k (close h b)
  end.

(** The sessions a log captures: each send was accepted whole, each [shutdown]
    succeeded and no datagram receive failed; and what the log does not record was
    answered as a replay answers it: sockets asked about were readable and without
    a local address, and waits ended ready. *)
Fixpoint complete_session {A B} `{NetworkBroker B} (g : guest A) (b : B) : Prop :=
  match g with
  | Done a => True
  | CConnect a k => let '(b, r) := tcp_connect a b in r ≠ Panic ∧ complete_session (k r) b
  | CSend h l k => let '(b, r) := tcp_send h l b in r = Ok (zlen l) ∧ complete_session (k r) b
  | CRecv h n k => let '(b, r) := tcp_recv h n b in r ≠ Panic ∧ complete_session (k r) b
  | CShutdown h k => let '(b, r) := tcp_shutdown_write h b in r = Ok () ∧ complete_session (k r) b
  | CUdpOpen k => let '(b, r) := udp_open b in r ≠ Panic ∧ complete_session (k r) b
  | CSendTo h a l k => let '(b, r) := udp_send_to h a l b in r = Ok (zlen l) ∧ complete_session (k r) b
  | CRecvFrom h n k => let '(b, r) := udp_recv_from h n b in is_ok r = true ∧ complete_session (k r) b
  | CReadable h k => readable h b = true ∧ complete_session (k true) b
  | CLocalAddr h k => local_addr h b = None ∧ complete_session (k None) b
  | CWaitReady hs t k => let '(b, r) := wait_ready hs t b in r = true ∧ complete_session (k r) b
  | CClose h k => complete_session k (close h b)
  end.

Section replay.
Context {B : Type} `{NetworkBroker B}.
Implicit Types rb : RecordingBroker B.

(** Recording changes nothing: the guest and the broker behind it run as
    they would without it. *)
Lemma recording_transparent {A} (g : guest A) rb :
  (run_guest g rb).1 = (run_guest g (rec_inner rb)).1 ∧
  rec_inner (run_guest g rb).2 = (run_guest g (rec_inner rb)).2.
Proof.
  revert rb. induction g; intros rb; cbn; [done|..|apply IHg].
  8-9: match goal with IH : ∀ r rb, _ |- _ => apply IH end.
  8: { destruct (wait_ready hs timeout (rec_inner rb)) as [b' r] eqn:E. apply (H0 r (Recorder.recorded [] b' rb)). }
  all: unfold Recorder.tcp_connect, Recorder.tcp_send, Recorder.tcp_recv, Recorder.tcp_shutdown_write,
    Recorder.udp_open, Recorder.udp_send_to, Recorder.udp_recv_from, Recorder.forward;
    match goal with |- context [?c (rec_inner ?rb)] => destruct (c (rec_inner rb)) as [b' r] eqn:E end; cbn;
    match goal with IH : ∀ r rb, _ |- _ => apply (IH r (Recorder.recorded _ b' rb)) end.
Qed.

(** One forwarded call appends its event. *)
Ltac forwarded :=
  unfold Recorder.tcp_connect, Recorder.tcp_send, Recorder.tcp_recv, Recorder.tcp_shutdown_write,
    Recorder.udp_open, Recorder.udp_send_to, Recorder.udp_recv_from, Recorder.forward;
  match goal with |- context [?c (rec_inner ?rb)] => destruct (c (rec_inner rb)) as [b' r] eqn:E end; cbn.

Lemma run_log_prefix {A} (g : guest A) rb : ∃ ev, log (run_guest g rb).2 = log rb ++ ev.
Proof.
  revert rb. induction g; intros rb; cbn; [exists []; by rewrite app_nil_r| ..].
  8-9: match goal with IH : ∀ r rb, _ |- _ => apply IH end.
  8: { destruct (wait_ready hs timeout (rec_inner rb)) as [b' r]. destruct (H0 r (Recorder.recorded [] b' rb)) as [ev ->]. exists ev.
    unfold Recorder.recorded. cbn [log]. by rewrite app_nil_r. }
  1-7: forwarded; match goal with IH : ∀ r rb, _ |- context [Recorder.recorded ?e _ _] =>
    destruct (IH r (Recorder.recorded e b' rb)) as [ev ->]; exists (e ++ ev); unfold Recorder.recorded; cbn [log]; by rewrite <- app_assoc end.
  destruct (IHg (close h rb)) as [ev Hev]. exists (EClosed h :: ev). cbn in *. by rewrite Hev, <- app_assoc.
Qed.

(** A replay standing at the position where [rb] stood, with the log the rest
    of the run made. *)
Definition in_step {A} (g : guest A) rb (b : ReplayBroker) : Prop :=
  cursor b = length (log rb) ∧ ∃ tail, recording b = log (run_guest g rb).2 ++ tail.

(** The event of the call a recorded run makes next is the one under the
    cursor; after it the replay is in step again. *)
Lemma peek_next {A} (g : guest A) rb b' e b :
  cursor b = length (log rb) →
  (∃ tail, recording b = log (run_guest g (Recorder.recorded [e] b' rb)).2 ++ tail) →
  Replay.peek b = Some e ∧ in_step g (Recorder.recorded [e] b' rb) (Replay.advance b).
Proof.
  intros Hc [tail Ht]. destruct (run_log_prefix g (Recorder.recorded [e] b' rb)) as [ev Hev]. split.
  - unfold Replay.peek. rewrite Ht, Hev, Hc. cbn [log Recorder.recorded]. rewrite <- !app_assoc.
    by apply list_lookup_middle.
  - split; [|by exists tail]. cbn. rewrite Hc, length_app. cbn. lia.
Qed.

Lemma replay_in_step {A} (g : guest A) rb b :
  complete_session g (rec_inner rb) → in_step g rb b →
  (run_guest g b).1 = (run_guest g rb).1 ∧ cursor (run_guest g b).2 = length (log (run_guest g rb).2).
Proof.
  revert rb b. induction g as [a|a k IH|h l k IH|h n k IH|h k IH|k IH|h a l k IH|h n k IH|h k IH|h k IH|hs t k IH|h k IH];
    intros rb b Hs [Hc Ht]; cbn in *; [done|..].
  - revert Hs Ht. forwarded. intros [Hp Hs] Ht. destruct r as [x|x|]; [..|done];
      destruct (peek_next _ rb _ _ b Hc Ht) as [Hpk Hin];
      unfold Replay.tcp_connect, Replay.next_event; rewrite Hpk; by apply IH.
  - revert Hs Ht. forwarded. intros [-> Hs] Ht.
    destruct (peek_next _ rb _ _ b Hc Ht) as [Hpk Hin]. unfold Replay.skip_if. rewrite Hpk. by apply IH.
  - revert Hs Ht. forwarded. intros [Hp Hs] Ht. destruct r as [[l| |]|x|]; [..|done];
      destruct (peek_next _ rb _ _ b Hc Ht) as [Hpk Hin];
      unfold Replay.tcp_recv, Replay.next_event; rewrite Hpk; by apply IH.
  - revert Hs Ht. forwarded. intros [-> Hs] Ht. apply IH; [done|]. split; [|done].
    cbn. by rewrite app_nil_r.
  - revert Hs Ht. forwarded. intros [Hp Hs] Ht. destruct r as [x|x|]; [..|done];
      destruct (peek_next _ rb _ _ b Hc Ht) as [Hpk Hin];
      unfold Replay.udp_open, Replay.next_event; rewrite Hpk; by apply IH.
  - revert Hs Ht. forwarded. intros [-> Hs] Ht.
    destruct (peek_next _ rb _ _ b Hc Ht) as [Hpk Hin]. unfold Replay.skip_if. rewrite Hpk. by apply IH.
  - revert Hs Ht. forwarded. intros [Hp Hs] Ht. destruct r as [x|x|]; [|done..].
    destruct (peek_next _ rb _ _ b Hc Ht) as [Hpk Hin].
    unfold Replay.udp_recv_from, Replay.next_event. rewrite Hpk. by apply IH.
  - destruct Hs as [E Hs]. rewrite E in *. by apply IH.
  - destruct Hs as [E Hs]. rewrite E in *. by apply IH.
  - destruct (wait_ready hs t (rec_inner rb)) as [b' r]. destruct Hs as [-> Hs]. apply IH; [done|]. split; [|done].
    cbn. by rewrite app_nil_r.
  - destruct (peek_next _ rb _ _ b Hc Ht) as [Hpk Hin]. unfold Replay.close, Replay.skip_if.
    rewrite Hpk. by apply IH.
Qed.
End replay.

(** C36. A recorded session replays: recording leaves the guest's result and
    the broker behind it as they would be without it; and when the session was
    complete (every send whole, no failed shutdown or datagram receive, sockets
    asked about readable and without a local address, waits ready), running the
    same guest against the log alone gives it the same results call by call, so
    the same outcome, and consumes the log to its end. *)
Theorem replay_reproduces {A B} `{NetworkBroker B} (g : guest A) (b : B) :
  let '(a, rb) := run_guest g (Recorder.new b) in
  a = (run_guest g b).1 ∧ rec_inner rb = (run_guest g b).2 ∧
  (complete_session g b → (run_guest g (Replay.new (log rb))).1 = a ∧ cursor (run_guest g (Replay.new (log rb))).2 = length (log rb)).
Proof.
  pose proof (recording_transparent g (Recorder.new b)) as [H1 H2].
  destruct (run_guest g (Recorder.new b)) as [a rb] eqn:E. cbn in *. split_and!; [done..|].
  intros Hs. pose proof (replay_in_step g (Recorder.new b) (Replay.new (log rb)) Hs) as Hr.
  rewrite E in Hr. apply Hr. split; [done|]. rewrite E. exists []. by rewrite app_nil_r.
Qed.

(** A guest that counts what its first send took: replaying a session whose
    send was cut short reports the whole length, so the two runs differ. *)
Definition counting_guest : guest (res Z Z) := CConnect example_peer (λ _, CSend 1 [7; 8; 9; 10] Done).

Theorem replay_partial_send_diverges :
  let b := Metered.new Host_broker.new {| sent := 0; received := 0; budget := Some 3 |} in
  let '(a, rb) := run_guest counting_guest (Recorder.new b) in
  a = Ok 3 ∧ (run_guest counting_guest (Replay.new (log rb))).1 = Ok 4.
Proof. vm_compute. done. Qed.

Lemma replay_reproduces_witness :
  let g := CConnect example_peer (λ _, CSend 1 [104; 105] (λ _, CRecv 1 16 Done)) in
  let b := Host_broker.deliver_data 1 [111; 107] Host_broker.new in
  complete_session g b ∧
  run_guest g (Replay.new (log (run_guest g (Recorder.new b)).2)) =
    (Ok WouldBlock, {| recording := log (run_guest g (Recorder.new b)).2; cursor := 3 |}).
Proof.
  intros g b. assert (complete_session g b) as Hs by (vm_compute; done). split; [done|].
  pose proof (replay_reproduces g b) as Hr.
  destruct (run_guest g (Recorder.new b)) as [a rb] eqn:E. destruct Hr as (Ha & _ & Hr).
  destruct (Hr Hs) as [Hres Hcur]. cbn [snd]. rewrite Ha in Hres. assert (Hlog : log rb = log (run_guest g (Recorder.new b)).2) by (by rewrite E).
  rewrite Hlog in *. clear -Hres Hcur. destruct (run_guest g (Replay.new _)) as [x y] eqn:Ey. cbn [fst snd] in *.
  rewrite Hres. apply pair_equal_spec. split; [vm_compute; reflexivity|]. change y with ((x, y).2). rewrite <- Ey. vm_compute. reflexivity.
Defined.

(** * The ledger accounts for every byte *)
Section totals.
Context {V : Type} (f : V → Z).

Fixpoint total (m : btree Z V) : Z := match m with [] => 0 | (_, v) :: m => f v + total m end.

Lemma total_insert (m : btree Z V) k v :
  bt_sorted m → total (bt_insert m k v) = total m + f v - from_option f 0 (bt_get m k).
Proof.
  induction m as [|[k' v'] m IH]; cbn [bt_insert bt_get total bt_sorted]; [cbn; lia|]. intros [Hk Hs].
  destruct (kcmp k k') eqn:E; cbn [total from_option].
  - lia.
  - rewrite bt_get_below; [cbn; lia|]. eapply Forall_impl; [exact Hk|]. intros [] ?. by eapply klt_trans.
  - rewrite IH by done. lia.
Qed.
End totals.

Lemma zlen_insert {V} (m : btree Z V) k v :
  bt_sorted m → zlen (bt_insert m k v) = zlen m + (if bt_mem m k then 0 else 1).
Proof.
  assert (Ht : ∀ m : btree Z V, zlen m = total (λ _, 1) m).
  { induction m0 as [|[] m0 IH]; [done|]. rewrite zlen_cons, IH. cbn. lia. }
  intros. rewrite !Ht, total_insert by done. unfold bt_mem. destruct (bt_get m k); cbn; lia.
Qed.

Definition sent_len (e : NetEvent) : Z := match e with ESent _ n | ESentTo _ _ n => n | _ => 0 end.
Definition received_len (e : NetEvent) : Z :=
  match e with EReceived _ (RData l) | EReceivedFrom _ (Some (l, _)) => zlen l | _ => 0 end.
Definition sum_by (f : NetEvent → Z) (es : Recording) : Z := foldr (λ e s, f e + s) 0 es.

(** Every event names a handle some connect or open of the log gave out, with
    handles below the keys kept for refused connections. *)
Definition opens (e : NetEvent) : list Z :=
  match e with ETcpConnect _ (inl h) | EUdpOpen (inl h) => [h] | _ => [] end.
Definition names (e : NetEvent) : list Z :=
  match e with ESent h _ | ESentTo h _ _ | EReceived h _ | EReceivedFrom h _ => [h] | _ => [] end.
Fixpoint attributed (opened : list Z) (es : Recording) : Prop :=
  match es with
  | [] => True
  | e :: es => Forall (λ h, 0 ≤ h < U64_MAX - 1000000) (opens e) ∧ names e ⊆ opened ∧ 0 ≤ sent_len e ∧
      attributed (opens e ++ opened) es
  end.

Section ledger.
Context `{Host}.

Record ledger_inv (opened : list Z) (m : btree Z Receipt) : Prop := {
  li_sorted : bt_sorted m;
  li_keys : Forall (λ e, e.1 < U64_MAX - 1000000 + zlen m) m;
  li_nonneg : Forall (λ e, 0 ≤ bytes_sent e.2 ∧ 0 ≤ bytes_received e.2) m;
  li_opened : ∀ h, h ∈ opened → is_Some (bt_get m h)
}.

Lemma total_ge {V} (f : V → Z) (m : btree Z V) k v :
  Forall (λ e, 0 ≤ f e.2) m → bt_get m k = Some v → f v ≤ total f m.
Proof.
  intros Hf Hg. apply bt_get_In in Hg. induction Hf as [|[k' v'] m Hx Hm IH]; [by apply elem_of_nil in Hg|].
  assert (0 ≤ total f m) by (clear -Hm; induction Hm as [|[] ? ?]; cbn in *; lia).
  apply elem_of_cons in Hg as [?|Hg]; simplify_eq/=; [lia|]. specialize (IH Hg). lia.
Qed.

(** A new connection. *)
Lemma ledger_new opened m k r :
  ledger_inv opened m → bt_get m k = None → k ≤ U64_MAX - 1000000 + zlen m →
  bytes_sent r = 0 → bytes_received r = 0 →
  ledger_inv opened (bt_insert m k r) ∧ is_Some (bt_get (bt_insert m k r) k) ∧
  total bytes_sent (bt_insert m k r) = total bytes_sent m ∧
  total bytes_received (bt_insert m k r) = total bytes_received m ∧
  zlen (bt_insert m k r) = zlen m + 1.
Proof.
  intros [Hs Hk Hn Ho] Hg Hb H0 H1.
  assert (zlen (bt_insert m k r) = zlen m + 1) as Hl by (rewrite zlen_insert by done; unfold bt_mem; by rewrite Hg).
  rewrite !total_insert, Hg, bt_get_insert_eq by done. cbn. split_and!; eauto; try lia. split; auto with rust.
  - rewrite Hl. apply bt_insert_Forall; [cbn; lia|]. eapply Forall_impl; [exact Hk|]. cbn. intros; lia.
  - apply bt_insert_Forall; [cbn; lia|done].
  - intros h Hh. destruct (decide (k = h)) as [->|]; [destruct (Ho _ Hh); congruence|].
    rewrite bt_get_insert_ne; auto.
Qed.

(** An event on an open connection adds [s] and [t] to its receipt. *)
Lemma ledger_update opened m h f s t :
  ledger_inv opened m → h ∈ opened → 0 ≤ s → 0 ≤ t →
  (∀ r, bytes_sent r ≤ total bytes_sent m → bytes_received r ≤ total bytes_received m →
     ∃ r', f r = Ok r' ∧ bytes_sent r' = bytes_sent r + s ∧ bytes_received r' = bytes_received r + t) →
  ∃ m', Ledger.update h f m = Ok m' ∧ ledger_inv opened m' ∧ zlen m' = zlen m ∧
    total bytes_sent m' = total bytes_sent m + s ∧ total bytes_received m' = total bytes_received m + t.
Proof.
  intros [Hs Hk Hn Ho] Hh Hs0 Ht0 Hf. destruct (Ho _ Hh) as [r Hr]. unfold Ledger.update. rewrite Hr.
  pose proof Hn as Hn'. apply bt_get_In in Hr as Hin. rewrite Forall_forall in Hn'. specialize (Hn' _ Hin). cbn in Hn'.
  destruct (Hf r) as (r' & -> & E1 & E2).
  { apply (total_ge bytes_sent m h); [|done]. eapply Forall_impl; [exact Hn|tauto]. }
  { apply (total_ge bytes_received m h); [|done]. eapply Forall_impl; [exact Hn|tauto]. }
  exists (bt_insert m h r'). cbn [rbind]. split; [done|].
  assert (Hl : zlen (bt_insert m h r') = zlen m) by (rewrite zlen_insert by done; unfold bt_mem; rewrite Hr; lia).
  rewrite !total_insert, Hr by done. cbn [from_option]. split_and!; [|done|lia|lia]. split; auto with rust.
  - rewrite Hl. apply bt_insert_Forall; [|done]. rewrite Forall_forall in Hk. by apply (Hk _ Hin).
  - apply bt_insert_Forall; [cbn; lia|done].
  - intros k Hk'. destruct (decide (h = k)) as [->|]; [rewrite bt_get_insert_eq; eauto|].
    rewrite bt_get_insert_ne; auto.
Qed.

Lemma ledger_opened opened m l :
  ledger_inv opened m → Forall (λ h, is_Some (bt_get m h)) l → ledger_inv (l ++ opened) m.
Proof.
  intros [Hs Hk Hn Ho] Hl. split; auto. intros h [Hh|Hh]%elem_of_app; [|auto].
  rewrite Forall_forall in Hl. auto.
Qed.

(** [entry(h).or_insert_with(..)] for a fresh or a known handle. *)
Lemma ledger_or_insert opened m h r :
  ledger_inv opened m → 0 ≤ h < U64_MAX - 1000000 → bytes_sent r = 0 → bytes_received r = 0 →
  let m' := Ledger.or_insert h r m in
  ledger_inv (h :: opened) m' ∧ zlen m' ≤ zlen m + 1 ∧
  total bytes_sent m' = total bytes_sent m ∧ total bytes_received m' = total bytes_received m.
Proof.
  intros Hi Hh H0 H1 m'. unfold m', Ledger.or_insert, bt_mem. pose proof (zlen_nonneg m).
  destruct (bt_get m h) as [r0|] eqn:E.
  - split_and!; [|lia..]. apply (ledger_opened opened m [h]); [done|]. repeat constructor. eauto.
  - destruct (ledger_new opened m h r) as (Hi' & Hg & ? & ? & ?); [done..|lia|done|done|].
    split_and!; [|lia..]. apply (ledger_opened opened _ [h]); [done|]. by repeat constructor.
Qed.

(** Reading the update of an event as the growth of the totals. *)
Lemma ledger_charge opened m h f s t :
  ledger_inv opened m → [h] ⊆ opened → 0 ≤ s → 0 ≤ t →
  total bytes_sent m + s ≤ usize_max → total bytes_received m + t ≤ usize_max →
  (∀ r, bytes_sent r + s ≤ usize_max → bytes_received r + t ≤ usize_max →
     ∃ r', f r = Ok r' ∧ bytes_sent r' = bytes_sent r + s ∧ bytes_received r' = bytes_received r + t) →
  ∃ m', Ledger.update h f m = Ok m' ∧ ledger_inv opened m' ∧ zlen m' ≤ zlen m + 1 ∧
    total bytes_sent m' = total bytes_sent m + s ∧ total bytes_received m' = total bytes_received m + t.
Proof.
  intros Hi Hh ? ? ? ? Hf.
  destruct (ledger_update opened m h f s t) as (m' & ? & ? & ? & ? & ?); auto; [set_solver| |].
  - intros r ? ?. apply Hf; lia.
  - exists m'. split_and!; auto; lia.
Qed.

Lemma add_sent_ok n r :
  bytes_sent r + n ≤ usize_max → bytes_received r + 0 ≤ usize_max →
  ∃ r', Ledger.add_sent n r = Ok r' ∧ bytes_sent r' = bytes_sent r + n ∧ bytes_received r' = bytes_received r + 0.
Proof.
  intros. unfold Ledger.add_sent, Ledger.add_usize. rewrite (proj2 (Z.leb_le _ _)) by lia.
  eexists; split_and!; [done|done|cbn; lia].
Qed.
Lemma add_received_ok n r :
  bytes_sent r + 0 ≤ usize_max → bytes_received r + n ≤ usize_max →
  ∃ r', Ledger.add_received n r = Ok r' ∧ bytes_sent r' = bytes_sent r + 0 ∧ bytes_received r' = bytes_received r + n.
Proof.
  intros. unfold Ledger.add_received, Ledger.add_usize. rewrite (proj2 (Z.leb_le _ _)) by lia.
  eexists; split_and!; [done|cbn; lia|done].
Qed.
Lemma with_outcome_ok o r :
  ∃ r', Ok (E:=Z) (Ledger.with_outcome o r) = Ok r' ∧ bytes_sent r' = bytes_sent r + 0 ∧
    bytes_received r' = bytes_received r + 0.
Proof. eexists; split_and!; [done|cbn; lia..]. Qed.

Lemma ledger_event opened m e :
  ledger_inv opened m → Forall (λ h, 0 ≤ h < U64_MAX - 1000000) (opens e) → names e ⊆ opened →
  zlen m ≤ 999999 → 0 ≤ sent_len e →
  total bytes_sent m + sent_len e ≤ usize_max → total bytes_received m + received_len e ≤ usize_max →
  ∃ m', Ledger.classify m e = Ok m' ∧ ledger_inv (opens e ++ opened) m' ∧ zlen m' ≤ zlen m + 1 ∧
    total bytes_sent m' = total bytes_sent m + sent_len e ∧
    total bytes_received m' = total bytes_received m + received_len e.
Proof.
  intros Hi Ho Hn Hlen Hpos Hs Hr. pose proof (zlen_nonneg m) as Hz.
  destruct e as [a [h|x]|[h|x]|h n|h a n|h [l| | |x]|h [[l a]|]|h];
    cbn [opens names sent_len received_len Ledger.classify app] in *.
  - inversion_clear Ho. destruct (ledger_or_insert opened m h (Ledger.tcp a)) as (? & ? & ? & ?); auto.
    eexists; split_and!; eauto; lia.
  - unfold Ledger.sentinel, add64, U64_MAX. rewrite (proj2 (Z.leb_le _ _)) by lia. cbn [rbind].
    destruct (ledger_new opened m (2 ^ 64 - 1 - 1000000 + zlen m) (Ledger.with_outcome (ORefused x) (Ledger.tcp a)))
      as (? & ? & ? & ? & ?); auto; unfold U64_MAX in *; [|lia|eexists; split_and!; eauto; lia].
    apply bt_get_None. intros ([k v] & E & Hin)%list_elem_of_fmap. destruct Hi as [_ Hk _ _].
    rewrite Forall_forall in Hk. specialize (Hk _ Hin). unfold U64_MAX in Hk. cbn in *. lia.
  - inversion_clear Ho. destruct (ledger_or_insert opened m h Ledger.udp) as (? & ? & ? & ?); auto.
    eexists; split_and!; eauto; lia.
  - eexists; split_and!; eauto; lia.
  - apply ledger_charge; auto using add_sent_ok; lia.
  - apply ledger_charge; auto using add_sent_ok; lia.
  - apply ledger_charge; auto using add_received_ok with rust; lia.
  - apply ledger_charge; auto using with_outcome_ok; lia.
  - eexists; split_and!; eauto; lia.
  - apply ledger_charge; auto using with_outcome_ok; lia.
  - apply ledger_charge; auto using add_received_ok with rust; lia.
  - eexists; split_and!; eauto; lia.
  - eexists; split_and!; eauto; lia.
Qed.

Lemma sum_by_nonneg f es : Forall (λ e, 0 ≤ f e) es → 0 ≤ sum_by f es.
Proof. unfold sum_by. induction 1 as [|e es He Hes IH]; cbn in *; lia. Qed.
Lemma received_len_nonneg e : 0 ≤ received_len e.
Proof. destruct e as [| | | |? []|? [[]|]|]; cbn; auto with rust lia. Qed.

Lemma attributed_sent opened es : attributed opened es → 0 ≤ sum_by sent_len es.
Proof.
  unfold sum_by. revert opened. induction es as [|e es IH]; intros o; cbn; [lia|].
  intros (_ & _ & ? & ?%IH). lia.
Qed.

Lemma classify_all_ok opened m es :
  ledger_inv opened m → attributed opened es → zlen m + zlen es ≤ 1000000 →
  total bytes_sent m + sum_by sent_len es ≤ usize_max →
  total bytes_received m + sum_by received_len es ≤ usize_max →
  ∃ m', Ledger.classify_all m es = Ok m' ∧
    total bytes_sent m' = total bytes_sent m + sum_by sent_len es ∧
    total bytes_received m' = total bytes_received m + sum_by received_len es.
Proof.
  revert opened m. induction es as [|e es IH]; intros opened m Hi Ha Hl Hs Hr; cbn [Ledger.classify_all sum_by foldr].
  { exists m. cbn. split_and!; [done|lia..]. }
  cbn [attributed] in Ha. destruct Ha as (Ho & Hn & Hp & Ha). pose proof (attributed_sent _ _ Ha).
  pose proof (sum_by_nonneg received_len es (Forall_true _ _ received_len_nonneg)).
  rewrite zlen_cons in Hl. pose proof (zlen_nonneg es). cbn [sum_by foldr] in Hs, Hr.
  unfold sum_by in *.
  destruct (ledger_event opened m e) as (m' & -> & Hi' & ? & E1 & E2); auto; [lia..|]. cbn [rbind].
  destruct (IH _ m' Hi' Ha) as (m2 & -> & F1 & F2); [lia..|]. exists m2. split_and!; [done|lia..].
Qed.
End ledger.

(** The ledger accounts for every byte: for a log of at most a million
    events whose handles were given out by earlier connects and opens, the
    classification succeeds and its receipts add up to exactly the bytes the
    log says were sent and received. *)
Theorem receipts_account `{Host} es :
  attributed [] es → zlen es ≤ 1000000 →
  sum_by sent_len es ≤ usize_max → sum_by received_len es ≤ usize_max →
  ∃ rs, Ledger.receipts es = Ok rs ∧
    foldr (λ r s, bytes_sent r + s) 0 rs = sum_by sent_len es ∧
    foldr (λ r s, bytes_received r + s) 0 rs = sum_by received_len es.
Proof.
  intros Ha Hl Hs Hr. assert (ledger_inv [] []) as Hi by (split; try constructor; by intros ? ?%elem_of_nil).
  destruct (classify_all_ok [] [] es) as (m & E & E1 & E2); auto.
  exists (map snd m). unfold Ledger.receipts. rewrite E. split; [done|].
  cbn [total] in E1, E2. rewrite Z.add_0_l in E1, E2. rewrite <- E1, <- E2. clear.
  induction m as [|[k r] m [IH1 IH2]]; cbn in *; [done|]. rewrite IH1, IH2. done.
Qed.

Lemma receipts_account_witness :
  ∃ rs, Ledger.receipts [ETcpConnect example_peer (inl 1); ESent 1 5; ETcpConnect example_peer (inr 111);
      EReceived 1 (RData [1; 2; 3]); ESent 1 4; EReceived 1 RClosed] = Ok rs ∧
    foldr (λ r s, bytes_sent r + s) 0 rs = 9 ∧ foldr (λ r s, bytes_received r + s) 0 rs = 3.
Proof.
  apply (receipts_account [ETcpConnect example_peer (inl 1); ESent 1 5; ETcpConnect example_peer (inr 111);
      EReceived 1 (RData [1; 2; 3]); ESent 1 4; EReceived 1 RClosed]);
    [cbn; unfold U64_MAX | vm_compute; congruence..].
  split_and!; try match goal with |- Forall _ _ => repeat constructor end; try (cbn; lia); try done; set_solver.
Defined.
