(* ===== verification/LiftCache.v ===== *)
(** The header of a persisted lift cache: [crates/linux-compat/src/liftcache.rs].

    The error strings are the constructors of [ParseError], one per refusal. *)

From S2P Require Import Prelude Digest.

Definition MAGIC : bytes := [87; 84; 76; 67].
Definition FORMAT_VERSION : Z := 1.

Record LiftCacheHeader := { spec_fingerprint : bytes; image_digests : list bytes }.
#[global] Instance header_eq_dec : EqDecision LiftCacheHeader.
Proof. solve_decision. Defined.

Inductive ParseError :=
| Truncated
| NotALiftCache
| WrongVersion (version : Z)
| TooManyImages (count remaining : Z).
Inductive SpecError := WrongSpec (built_under current : bytes).

(** A [Cursor]: the bytes and the position. *)
Record Cursor := { c_bytes : bytes; c_at : Z }.

Module Cursor_.
Section cursor.
Context `{Host}.
Definition new (b : bytes) : Cursor := {| c_bytes := b; c_at := 0 |}.
Definition take (n : Z) : stm Cursor ParseError bytes := λ c,
  let end_ := c_at c + n in
  if (end_ <=? usize_max) && (end_ <=? zlen (c_bytes c))
  then ({| c_bytes := c_bytes c; c_at := end_ |}, Ok (slicez (c_bytes c) (c_at c) end_))
  else (c, Err Truncated).
Definition u32 : stm Cursor ParseError Z :=
  do! b <- take 4 in sret (le_val b).
Definition remaining (c : Cursor) : Z := zlen (c_bytes c) - c_at c.
End cursor.
End Cursor_.

Module Lift_cache.
Section lift_cache.
Context `{Host}.

Definition serialize (h : LiftCacheHeader) : bytes :=
  MAGIC ++ le_bytes 4 FORMAT_VERSION ++ spec_fingerprint h ++
  le_bytes 4 (zlen (image_digests h)) ++ concat (image_digests h).

(** [for _ in 0..count { image_digests.push(cursor.take(32)?) }] *)
Fixpoint read_digests (count : nat) : stm Cursor ParseError (list bytes) :=
  match count with
  | O => sret []
  | S n => do! d <- Cursor_.take 32 in do! ds <- read_digests n in sret (d :: ds)
  end.

Definition parse_header : stm Cursor ParseError LiftCacheHeader :=
  do! magic <- Cursor_.take 4 in
  if negb (bool_decide (magic = MAGIC)) then sfail NotALiftCache
  else
    do! version <- Cursor_.u32 in
    if negb (version =? FORMAT_VERSION) then sfail (WrongVersion version)
    else
      do! fingerprint <- Cursor_.take 32 in
      do! word <- Cursor_.u32 in
      let count := as_usize word in
      do! rest <- query (λ c, Ok (Cursor_.remaining c)) in
      if match checked_mul_usize count 32 with Some n => rest <? n | None => true end
      then sfail (TooManyImages count rest)
      else
        do! digests <- read_digests (Z.to_nat count) in
        sret {| spec_fingerprint := fingerprint; image_digests := digests |}.

Definition parse (b : bytes) : res ParseError LiftCacheHeader := (parse_header (Cursor_.new b)).2.

Definition validate_spec (h : LiftCacheHeader) (current : bytes) : res SpecError () :=
  if bool_decide (spec_fingerprint h = current) then Ok ()
  else Err (WrongSpec (spec_fingerprint h) current).

Definition covers_image (h : LiftCacheHeader) (digest : bytes) : bool :=
  bool_decide (digest ∈ image_digests h).
End lift_cache.
End Lift_cache.

(** * Correctness *)

(** A header as the types of the source have it: 32-byte arrays of bytes. *)
Definition digest_wf (d : bytes) : Prop := length d = 32%nat ∧ byte_list d.
Definition header_wf (h : LiftCacheHeader) : Prop :=
  digest_wf (spec_fingerprint h) ∧ Forall digest_wf (image_digests h) ∧ is_u32 (zlen (image_digests h)).

Section correctness.
Context `{Host}.

Definition at_ (pre rest : bytes) : Cursor := {| c_bytes := pre ++ rest; c_at := zlen pre |}.

(** A read that succeeds splits what remains; one that does not leaves too few
    bytes. *)
Lemma take_at n pre rest :
  0 ≤ n → zlen (pre ++ rest) ≤ usize_max →
  Cursor_.take n (at_ pre rest) =
  if n <=? zlen rest
  then (at_ (pre ++ take (Z.to_nat n) rest) (drop (Z.to_nat n) rest), Ok (take (Z.to_nat n) rest))
  else (at_ pre rest, Err Truncated).
Proof.
  intros Hn Hm. unfold Cursor_.take, at_. cbn [c_bytes c_at]. pose proof (zlen_nonneg pre).
  rewrite zlen_app in *. destruct (Z.leb_spec n (zlen rest)).
  - rewrite !(proj2 (Z.leb_le _ _)) by lia. cbn [andb]. f_equal.
    + f_equal; [by rewrite <- app_assoc, take_drop|]. rewrite zlen_app. unfold zlen in *. rewrite length_take. lia.
    + f_equal. unfold slicez. replace (zlen pre + n - zlen pre) with n by lia.
      unfold zlen. by rewrite Nat2Z.id, drop_app_length.
  - rewrite (proj2 (Z.leb_gt (zlen pre + n) (zlen pre + zlen rest))) by lia. by rewrite andb_false_r.
Qed.

Lemma take_bytes pre d rest n :
  zlen d = n → zlen (pre ++ d ++ rest) ≤ usize_max →
  Cursor_.take n (at_ pre (d ++ rest)) = (at_ (pre ++ d) rest, Ok d).
Proof.
  intros Hd Hm. rewrite take_at by (done || (unfold zlen in *; lia)). rewrite zlen_app.
  rewrite (proj2 (Z.leb_le _ _)) by (pose proof (zlen_nonneg rest); lia).
  replace (Z.to_nat n) with (length d) by (unfold zlen in *; lia).
  by rewrite take_app_length, drop_app_length.
Qed.

Lemma read_u32 pre x rest :
  is_u32 x → zlen (pre ++ le_bytes 4 x ++ rest) ≤ usize_max →
  Cursor_.u32 (at_ pre (le_bytes 4 x ++ rest)) = (at_ (pre ++ le_bytes 4 x) rest, Ok x).
Proof.
  intros Hx Hm. unfold Cursor_.u32, sbind. rewrite take_bytes by (done || apply zlen_le_bytes).
  unfold sret. by rewrite le_val_bytes_id.
Qed.

Lemma read_digests_ok pre ds rest :
  Forall digest_wf ds → zlen (pre ++ concat ds ++ rest) ≤ usize_max →
  Lift_cache.read_digests (length ds) (at_ pre (concat ds ++ rest)) = (at_ (pre ++ concat ds) rest, Ok ds).
Proof.
  intros Hds. revert pre. induction Hds as [|d ds [Hd _] Hds IH]; intros pre Hm; cbn [length concat Lift_cache.read_digests].
  { by rewrite app_nil_r. }
  cbn [concat] in Hm. rewrite <- app_assoc in *. unfold sbind at 1.
  rewrite take_bytes by (done || (unfold zlen; lia)). unfold sbind. rewrite IH by (by rewrite <- app_assoc).
  unfold sret. by rewrite <- app_assoc.
Qed.

Lemma remaining_at pre rest : Cursor_.remaining (at_ pre rest) = zlen rest.
Proof. unfold Cursor_.remaining, at_. cbn [c_bytes c_at]. rewrite zlen_app. lia. Qed.

Lemma zlen_concat_digests ds : Forall digest_wf ds → zlen (concat ds) = zlen ds * 32.
Proof.
  induction 1 as [|d ds [Hd _] _ IH]; [done|]. cbn [concat]. rewrite zlen_app, zlen_cons, IH.
  unfold zlen at 1. lia.
Qed.

Lemma parse_serialize h body :
  header_wf h → zlen (Lift_cache.serialize h ++ body) ≤ usize_max →
  Lift_cache.parse (Lift_cache.serialize h ++ body) = Ok h.
Proof.
  intros ((Hf & Hfb) & Hds & Hn) Hm. unfold Lift_cache.parse, Lift_cache.parse_header, Lift_cache.serialize in *.
  rewrite <- !app_assoc in *. set (tail := concat (image_digests h) ++ body) in *.
  change (Cursor_.new _) with (at_ [] (MAGIC ++ le_bytes 4 FORMAT_VERSION ++ spec_fingerprint h ++
    le_bytes 4 (zlen (image_digests h)) ++ tail)).
  unfold sbind at 1. rewrite take_bytes by done. rewrite bool_decide_true by done. cbn [negb].
  unfold sbind at 1. rewrite read_u32 by done. change (FORMAT_VERSION =? FORMAT_VERSION) with true. cbn [negb].
  unfold sbind at 1. rewrite take_bytes by (rewrite <- ?app_assoc; done || (unfold zlen; lia)).
  unfold sbind at 1. rewrite read_u32 by (rewrite <- ?app_assoc; done).
  unfold sbind at 1, query. cbv zeta. rewrite remaining_at.
  rewrite as_usize_small by (unfold U32_MAX; unfold fits in Hn; lia).
  assert (Ht : zlen (image_digests h) * 32 ≤ zlen tail ≤ usize_max).
  { pose proof (zlen_nonneg body). rewrite !zlen_app, !zlen_le_bytes in Hm. change (zlen MAGIC) with 4 in Hm.
    pose proof (zlen_nonneg (spec_fingerprint h)). unfold tail in *. rewrite zlen_app, zlen_concat_digests in * by done. lia. }
  unfold checked_mul_usize. rewrite (proj2 (Z.leb_le _ _)), (proj2 (Z.ltb_ge _ _)) by lia.
  replace (Z.to_nat (zlen (image_digests h))) with (length (image_digests h)) by (unfold zlen; lia).
  unfold tail, sbind. rewrite read_digests_ok; [by destruct h|done|].
  rewrite <- ?app_assoc. exact Hm.
Qed.

(** The converse: what a successful parse read. *)
Lemma take_inv n pre rest c d :
  0 ≤ n → zlen (pre ++ rest) ≤ usize_max → Cursor_.take n (at_ pre rest) = (c, Ok d) →
  ∃ rest', rest = d ++ rest' ∧ zlen d = n ∧ c = at_ (pre ++ d) rest'.
Proof.
  intros Hn Hm. rewrite take_at by done. destruct (Z.leb_spec n (zlen rest)); [|done].
  intros [= <- <-]. exists (drop (Z.to_nat n) rest). rewrite take_drop. split_and!; [done| |done].
  unfold zlen in *. rewrite length_take. lia.
Qed.

Lemma u32_inv pre rest c x :
  byte_list rest → zlen (pre ++ rest) ≤ usize_max → Cursor_.u32 (at_ pre rest) = (c, Ok x) →
  ∃ rest', rest = le_bytes 4 x ++ rest' ∧ is_u32 x ∧ c = at_ (pre ++ le_bytes 4 x) rest'.
Proof.
  intros Hb Hm. unfold Cursor_.u32, sbind. destruct (Cursor_.take 4 (at_ pre rest)) as [c' [d|e|]] eqn:E; [|done..].
  apply take_inv in E as (rest' & -> & Hd & ->); [|lia|done]. intros [= <- <-].
  apply byte_list_app in Hb as [Hb _]. exists rest'.
  assert (length d = 4%nat) as Hl by (unfold zlen in Hd; lia). rewrite <- Hl, le_bytes_val by done.
  split_and!; [done| |done]. apply le_val_bound in Hb. by rewrite Hd in Hb.
Qed.

Lemma read_digests_inv n pre rest c ds :
  byte_list rest → zlen (pre ++ rest) ≤ usize_max → Lift_cache.read_digests n (at_ pre rest) = (c, Ok ds) →
  ∃ rest', rest = concat ds ++ rest' ∧ Forall digest_wf ds ∧ length ds = n.
Proof.
  revert pre rest ds. induction n as [|n IH]; intros pre rest ds Hb Hm; cbn [Lift_cache.read_digests].
  { intros [= <- <-]. by exists rest. }
  unfold sbind at 1. destruct (Cursor_.take 32 (at_ pre rest)) as [c' [d|e|]] eqn:E; [|done..].
  apply take_inv in E as (rest' & -> & Hd & ->); [|lia|done]. apply byte_list_app in Hb as [Hb1 Hb2].
  unfold sbind. destruct (Lift_cache.read_digests n _) as [c2 [ds'|e|]] eqn:E2; [|done..]. intros [= <- <-].
  apply IH in E2 as (r & -> & Hw & Hl); [|done|by rewrite <- app_assoc].
  exists r. cbn [concat length]. rewrite <- app_assoc, Hl. split_and!; [done| |done].
  constructor; [|done]. split; [unfold zlen in Hd; lia|done].
Qed.

Lemma parse_inv b h :
  byte_list b → zlen b ≤ usize_max → Lift_cache.parse b = Ok h →
  header_wf h ∧ ∃ body, b = Lift_cache.serialize h ++ body.
Proof.
  intros Hb Hm. unfold Lift_cache.parse, Lift_cache.parse_header. change (Cursor_.new b) with (at_ [] b).
  unfold sbind at 1. destruct (Cursor_.take 4 _) as [c1 [d1|e|]] eqn:E1; [|done..].
  apply take_inv in E1 as (r1 & -> & _ & ->); [|lia|done]. apply byte_list_app in Hb as [_ Hb].
  case_bool_decide as Hmg; [subst d1|done]. cbn [negb app].
  unfold sbind at 1. destruct (Cursor_.u32 _) as [c2 [v|e|]] eqn:E2; [|done..].
  apply u32_inv in E2 as (r2 & -> & _ & ->); [|done|done]. apply byte_list_app in Hb as [_ Hb].
  destruct (Z.eqb_spec v FORMAT_VERSION) as [->|]; [|done]. cbn [negb].
  unfold sbind at 1. destruct (Cursor_.take 32 _) as [c3 [f|e|]] eqn:E3; [|done..].
  apply take_inv in E3 as (r3 & -> & Hf & ->); [|lia|by rewrite <- app_assoc]. apply byte_list_app in Hb as [Hfb Hb].
  unfold sbind at 1. destruct (Cursor_.u32 _) as [c4 [w|e|]] eqn:E4; [|done..].
  apply u32_inv in E4 as (r4 & -> & Hw & ->); [|done|by rewrite <- !app_assoc]. apply byte_list_app in Hb as [_ Hb].
  unfold sbind at 1, query. cbv zeta. case_if; [done|]. unfold sbind.
  destruct (Lift_cache.read_digests _ _) as [c5 [ds|e|]] eqn:E5; [|done..]. intros [= <-].
  apply read_digests_inv in E5 as (r5 & -> & Hds & Hl); [|done|by rewrite <- !app_assoc].
  rewrite as_usize_small in Hl by (unfold U32_MAX; unfold fits in Hw; lia).
  assert (zlen ds = w) as Hzl by (unfold zlen, fits in *; lia).
  split; [split_and!; cbn; [split; [unfold zlen in Hf; lia|done]|done|by rewrite Hzl]|].
  exists r5. unfold Lift_cache.serialize. cbn [spec_fingerprint image_digests]. by rewrite Hzl, <- !app_assoc.
Qed.

(** Readers that never panic compose. *)
Definition safe {S E A} (m : stm S E A) : Prop := ∀ s, (m s).2 ≠ Panic.
Lemma safe_bind {S E A B} (m : stm S E A) (k : A → stm S E B) : safe m → (∀ a, safe (k a)) → safe (sbind m k).
Proof. intros Hm Hk s. unfold sbind. specialize (Hm s). destruct (m s) as [s' [a|e|]]; [apply Hk|done..]. Qed.
Lemma safe_ret {S E A} (a : A) : safe (S:=S) (E:=E) (sret a).
Proof. done. Qed.
Lemma safe_fail {S E A} (e : E) : safe (S:=S) (A:=A) (sfail e).
Proof. done. Qed.
Lemma safe_take n : safe (Cursor_.take n).
Proof. intros c. unfold Cursor_.take. by case_if. Qed.
Lemma safe_u32 : safe Cursor_.u32.
Proof. apply safe_bind; [apply safe_take|]. intros. apply safe_ret. Qed.
Lemma safe_digests n : safe (Lift_cache.read_digests n).
Proof.
  induction n as [|n IH]; cbn [Lift_cache.read_digests]; [apply safe_ret|].
  apply safe_bind; [apply safe_take|]. intros. apply safe_bind; [done|]. intros. apply safe_ret.
Qed.

Lemma parse_no_panic b : Lift_cache.parse b ≠ Panic.
Proof.
  revert b. assert (safe Lift_cache.parse_header) as Hs; [|intros b; apply Hs].
  unfold Lift_cache.parse_header.
  repeat first [apply safe_fail|apply safe_ret|apply safe_bind; [first [apply safe_take|apply safe_u32|apply safe_digests|done]|intros ?]|case_if].
Qed.
End correctness.

(** A lift cache is trusted exactly when it is one: for any bytes, parsing
    does not panic, and it succeeds with a header precisely when the bytes are
    that header as written by this engine followed by a body. *)
Theorem lift_cache_parse_exact `{Host} b h :
  byte_list b → zlen b ≤ usize_max →
  Lift_cache.parse b ≠ Panic ∧
  (Lift_cache.parse b = Ok h ↔ header_wf h ∧ ∃ body, b = Lift_cache.serialize h ++ body).
Proof.
  intros Hb Hm. split; [apply parse_no_panic|]. split; [by apply parse_inv|].
  intros [Hw [body ->]]. by apply parse_serialize.
Qed.

Lemma lift_cache_parse_exact_witness :
  let h := {| spec_fingerprint := replicate 32 7; image_digests := [replicate 32 1; replicate 32 2] |} in
  Lift_cache.parse (Lift_cache.serialize h ++ [5; 6]) = Ok h.
Proof.
  intros h.
  assert (byte_list (Lift_cache.serialize h ++ [5; 6])) as Hb.
  { apply Forall_forall. intros x Hx. vm_compute in Hx.
    repeat (apply elem_of_cons in Hx as [->|Hx]; [unfold fits; lia|]). by apply elem_of_nil in Hx. }
  apply (lift_cache_parse_exact _ h Hb); [vm_compute; congruence|].
  split; [|by exists [5; 6]]. 
  assert (Hd : ∀ x, is_u8 x → digest_wf (replicate 32 x)) by (split; [done|by apply Forall_replicate]).
  split; [apply Hd; done|]. split; [|done]. constructor; [|constructor; [|constructor]]; apply Hd; done.
Defined.

(** A cache built under one specification is refused under any other, and
    vouches only for the images it names. *)
Lemma validate_spec_iff h current :
  is_ok (Lift_cache.validate_spec h current) = true ↔ spec_fingerprint h = current.
Proof. unfold Lift_cache.validate_spec. case_bool_decide; cbn; split; done. Qed.
