(* ===== verification/Cpu.v ===== *)
(** What the kernel layer uses of the vendored CPU ([third_party/icicle]).

    A register is a number, a register file a map; a snapshot is the register
    file, the pending exceptions, the instruction counter and the position in
    the translated block, with the engine's own scratch state carried along
    unread. Guest memory is a class: its operations are those of the softmmu,
    its laws what reading, writing and changing permissions do to the bytes a
    copy sees. [flat_memory] is an instance. *)

From S2P Require Import Prelude.

(** * Registers *)
Definition RAX : Z := 0.
Definition RDI : Z := 1.
Definition RSI : Z := 2.
Definition RDX : Z := 3.
Definition R10 : Z := 4.
Definition R8 : Z := 5.
Definition R9 : Z := 6.
Definition RSP : Z := 7.
Definition FS_OFFSET : Z := 8.
Definition PC : Z := 9.
Definition NEXT_PC : Z := 10.

Record Exception := { exc_code : Z; exc_value : Z }.
Definition ExternalAddr : Z := 8193.

Inductive VmExit :=
| Running
| InstructionLimit
| Breakpoint
| Interrupted
| Halt
| Killed
| Deadlock
| OutOfMemory
| Unimplemented
| UnhandledException (code value : Z).

Record CpuSnapshot := {
  regs : gmap Z Z;
  scratch : list Z;
  exception : Exception;
  pending_exception : option Exception;
  icount : Z;
  block_id : Z;
  block_offset : Z
}.

Module Core.
Definition read_var (r : Z) (c : CpuSnapshot) : Z := default 0 (regs c !! r).
Definition write_var (r x : Z) (c : CpuSnapshot) : CpuSnapshot :=
  {| regs := <[r := x]> (regs c); scratch := scratch c; exception := exception c;
     pending_exception := pending_exception c; icount := icount c; block_id := block_id c;
     block_offset := block_offset c |}.
Definition set_exception (e : Exception) (c : CpuSnapshot) : CpuSnapshot :=
  {| regs := regs c; scratch := scratch c; exception := e;
     pending_exception := pending_exception c; icount := icount c; block_id := block_id c;
     block_offset := block_offset c |}.
Definition set_pending (p : option Exception) (c : CpuSnapshot) : CpuSnapshot :=
  {| regs := regs c; scratch := scratch c; exception := exception c;
     pending_exception := p; icount := icount c; block_id := block_id c;
     block_offset := block_offset c |}.
Definition set_icount (n : Z) (c : CpuSnapshot) : CpuSnapshot :=
  {| regs := regs c; scratch := scratch c; exception := exception c;
     pending_exception := pending_exception c; icount := n; block_id := block_id c;
     block_offset := block_offset c |}.
(** [cpu.block_id = u64::MAX; cpu.block_offset = 0] *)
Definition leave_block (c : CpuSnapshot) : CpuSnapshot :=
  {| regs := regs c; scratch := scratch c; exception := exception c;
     pending_exception := pending_exception c; icount := icount c; block_id := U64_MAX;
     block_offset := 0 |}.
Definition external (addr : Z) : Exception := {| exc_code := ExternalAddr; exc_value := addr |}.

Lemma read_write_var r x c : read_var r (write_var r x c) = x.
Proof. unfold read_var, write_var. cbn. by rewrite lookup_insert_eq. Qed.
Lemma read_write_var_ne r r' x c : r ≠ r' → read_var r (write_var r' x c) = read_var r c.
Proof. intros. unfold read_var, write_var. cbn. by rewrite lookup_insert_ne. Qed.
End Core.

(** * Guest memory

    [M] is the softmmu, [V] a virtual address map taken out of it. A copy in
    ([mem_write]) may stop part of the way. *)
Class GuestMemory (M V : Type) := {
  mem_read : M → Z → Z → option bytes;
  mem_write : M → Z → bytes → M * bool;
  mem_update_perm : M → Z → Z → Z → M * bool;
  take_virtual_mapping : M → V * M;
  restore_virtual_mapping : V → M → M;
  snapshot_virtual_mapping : M → V * M
}.

(** Two ranges of addresses that do not meet. *)
Definition apart (a n b m : Z) : Prop := a + n ≤ b ∨ b + m ≤ a.

Class GuestMemoryLaws (M V : Type) `{GuestMemory M V} := {
  mem_read_length m a n b : 0 ≤ n → mem_read m a n = Some b → zlen b = n;
  mem_read_bytes m a n b : mem_read m a n = Some b → byte_list b;
  mem_read_app m a n k : 0 ≤ n → 0 ≤ k → a + n + k ≤ 2 ^ 64 →
    mem_read m a (n + k) = (x ← mem_read m a n; y ← mem_read m (a + n) k; Some (x ++ y));
  mem_read_write m a b m' : 0 ≤ a → a + zlen b ≤ 2 ^ 64 → byte_list b →
    mem_write m a b = (m', true) → mem_read m' a (zlen b) = Some b;
  mem_read_write_apart m a b m' r a' n : 0 ≤ a → 0 ≤ a' → 0 ≤ n → a + zlen b ≤ 2 ^ 64 → a' + n ≤ 2 ^ 64 →
    mem_write m a b = (m', r) → apart a (zlen b) a' n → mem_read m' a' n = mem_read m a' n;
  mem_read_update_perm m a n p m' r a' k :
    mem_update_perm m a n p = (m', r) → mem_read m' a' k = mem_read m a' k;
  take_restore v m : (take_virtual_mapping (restore_virtual_mapping v m)).1 = v
}.

(** * A memory without translation: the mapped bytes by address *)
Module Flat.
Fixpoint read (m : gmap Z Z) (a : Z) (n : nat) : option bytes :=
  match n with
  | O => Some []
  | S n => b ← m !! a; l ← read m (a + 1) n; Some (b mod 256 :: l)
  end.
Fixpoint write (m : gmap Z Z) (a : Z) (l : bytes) : gmap Z Z * bool :=
  match l with
  | [] => (m, true)
  | b :: l => match m !! a with Some _ => write (<[a := b]> m) (a + 1) l | None => (m, false) end
  end.

Lemma read_length m a n b : read m a n = Some b → length b = n ∧ byte_list b.
Proof.
  revert a b. induction n as [|n IH]; intros a b; cbn; [intros [= <-]; by split; [|constructor]|].
  destruct (m !! a); cbn; [|done]. destruct (read m (a + 1) n) as [l|] eqn:E; cbn; [|done].
  intros [= <-]. apply IH in E as [<- ?]. split; [done|]. constructor; [|done].
  apply (Z.mod_pos_bound _ 256). lia.
Qed.
Lemma read_app m a n k :
  read m a (n + k) = (x ← read m a n; y ← read m (a + Z.of_nat n) k; Some (x ++ y)).
Proof.
  revert a. induction n as [|n IH]; intros a; cbn.
  { rewrite Z.add_0_r. by destruct (read m a k). }
  destruct (m !! a); cbn; [|done]. rewrite IH. replace (a + Z.of_nat (S n)) with (a + 1 + Z.of_nat n) by lia.
  destruct (read m (a + 1) n); cbn; [|done]. by destruct (read m _ k).
Qed.
Lemma read_ext m m' a n :
  (∀ x, a ≤ x < a + Z.of_nat n → m' !! x = m !! x) → read m' a n = read m a n.
Proof.
  revert a. induction n as [|n IH]; intros a Hx; cbn; [done|].
  rewrite Hx by lia. rewrite IH; [done|]. intros x ?. apply Hx. lia.
Qed.
Lemma write_outside m a l m' r x :
  write m a l = (m', r) → x < a ∨ a + zlen l ≤ x → m' !! x = m !! x.
Proof.
  revert m a. induction l as [|b l IH]; intros m a; cbn; [by intros [= <- <-]|].
  destruct (m !! a); [|by intros [= <- <-]]. intros E Hx. rewrite (IH _ _ E) by (unfold zlen in *; cbn in *; lia).
  rewrite lookup_insert_ne; [done|]. unfold zlen in *; cbn in *; lia.
Qed.
Lemma read_write m a l m' :
  byte_list l → write m a l = (m', true) → read m' a (length l) = Some l.
Proof.
  intros Hl. revert m a. induction Hl as [|b l Hb Hl IH]; intros m a; cbn; [done|].
  destruct (m !! a); [|done]. intros E. rewrite (IH _ _ E).
  rewrite (write_outside _ _ _ _ _ a E) by lia. rewrite lookup_insert_eq. cbn.
  rewrite Z.mod_small by exact Hb. done.
Qed.
End Flat.

#[global] Instance flat_memory : GuestMemory (gmap Z Z) (gmap Z Z) := {|
  mem_read m a n := Flat.read m a (Z.to_nat n);
  mem_write := Flat.write;
  mem_update_perm m _ _ _ := (m, true);
  take_virtual_mapping m := (m, ∅);
  restore_virtual_mapping v _ := v;
  snapshot_virtual_mapping m := (m, m)
|}.
#[global, program] Instance flat_memory_laws : GuestMemoryLaws (gmap Z Z) (gmap Z Z).
Next Obligation. intros m a n b Hn E. apply Flat.read_length in E as [E _]. unfold zlen. lia. Qed.
Next Obligation. intros m a n b E. by apply Flat.read_length in E as [_ E]. Qed.
Next Obligation.
  intros m a n k Hn Hk _. cbn. rewrite Z2Nat.inj_add, Flat.read_app, Z2Nat.id by lia. done.
Qed.
Next Obligation. intros m a b m' _ _ Hb E. cbn. unfold zlen. rewrite Nat2Z.id. by apply (Flat.read_write m). Qed.
Next Obligation.
  intros m a b m' r a' n Ha Ha' Hn _ _ E Hap. cbn. apply Flat.read_ext. intros x Hx.
  apply (Flat.write_outside _ _ _ _ _ x E). unfold apart in Hap. lia.
Qed.
Next Obligation. intros m a n p m' r a' k [= <- <-]. done. Qed.
Next Obligation. done. Qed.
