(* ===== verification/Fd.v ===== *)
(** Open file descriptions and descriptor tables: [crates/linux-compat/src/fd.rs].

    Every [Rc<RefCell<T>>] of the source is a reference into the [Heap]: a map
    per type of shared object. The strong count of an open file description,
    which decides when its [Drop] runs, and of a descriptor table are kept
    beside them; nothing observes the count of the other objects here. The
    [activity] counters wrap at 64 bits. *)

From S2P Require Import Prelude BTree Abi Filesystem Net.

Inductive StdStream := StdIn | StdOut | StdErr.

Record PipeInner := { p_data : bytes; p_readers : Z; p_writers : Z; p_activity : Z }.

Record Pty := {
  pty_id : Z;
  m2s : bytes;
  s2m : bytes;
  termios : bytes;
  winsize : list Z;
  masters : Z;
  slaves : Z;
  slave_ever_opened : bool;
  pty_activity : Z;
  fg_pgrp : Z
}.

Record EventFdInner := { e_count : Z; e_semaphore : bool; e_activity : Z }.
Record TimerFdInner := { next_expiry : option Z; interval : Z }.

(** An inotify watch, a queued event and an instance. *)
Record NodeWatch := { w_descriptor : Z; w_node : nat; w_path : bytes; w_mask : Z }.
Record InotifyEvent := { ev_descriptor : Z; ev_mask : Z; ev_cookie : Z; ev_name : bytes }.
Record InotifyInner := {
  watches : list NodeWatch;
  next_descriptor : Z;
  queue : list InotifyEvent;
  overflowed : bool;
  i_activity : Z
}.
Definition INOTIFY_QUEUE_LIMIT : Z := 16384.

Inductive SocketKind := TcpSocket | UdpSocket.
Record NetSocket := {
  s_kind : SocketKind;
  s_handle : option Z;
  s_peer : option SocketAddrV4;
  s_activity : Z
}.

Record EpollInner := { interests : btree Z (Z * Z); edge_fired : btree Z (Z * Z) }.

Inductive Backing :=
| BStd (s : StdStream)
| BFile (node : nat)
| BDir (node : nat) (cookie : Z)
| BDev (d : Dev)
| BPipe (pipe : Z) (write_end : bool)
| BSocketPair (rx tx : Z)
| BEventFd (event : Z)
| BTimerFd (timer : Z)
| BNet (socket : Z)
| BEpoll (epoll : Z)
| BPtyMaster (pty : Z)
| BPtySlave (pty : Z)
| BInotify (inotify : Z).

Record Description := { backing : Backing; offset : Z; flags : Z }.
Definition desc_readable (d : Description) : bool := negb (Z.land (flags d) O_ACCMODE =? O_WRONLY).
Definition desc_writable (d : Description) : bool := negb (Z.land (flags d) O_ACCMODE =? O_RDONLY).

(** [desc] is a reference to an open file description. *)
Record FdEntry := { desc : Z; cloexec : bool }.
Abbreviation FdTable := (list (option FdEntry)).
Definition FD_LIMIT : Z := 1024.

(** * Pseudoterminals *)
Definition C_CC : nat := 17.

Module Terminal.
Definition le_word (a b : nat) (l : bytes) : Z := le_val (take (b - a) (drop a l)).

Definition new (id : Z) : Pty :=
  {| pty_id := id; m2s := []; s2m := [];
     termios := le_bytes 4 1280 ++ le_bytes 4 5 ++ le_bytes 4 191 ++ le_bytes 4 35387 ++ [0] ++
       [3; 28; 127; 21; 4; 0; 1; 0; 17; 19; 26; 0; 18; 15; 23; 22; 0; 0; 0];
     winsize := [24; 80; 0; 0]; masters := 1; slaves := 0; slave_ever_opened := false;
     pty_activity := 0; fg_pgrp := 0 |}.

Definition onlcr (p : Pty) : bool :=
  let oflag := le_word 4 8 (termios p) in
  negb (Z.land oflag 1 =? 0) && negb (Z.land oflag 4 =? 0).
Definition tostop (p : Pty) : bool := negb (Z.land (le_word 12 16 (termios p)) 256 =? 0).
Definition isig (p : Pty) : bool := negb (Z.land (le_word 12 16 (termios p)) 1 =? 0).

Definition with_input (l : bytes) (p : Pty) : Pty :=
  {| pty_id := pty_id p; m2s := l; s2m := s2m p; termios := termios p; winsize := winsize p;
     masters := masters p; slaves := slaves p; slave_ever_opened := slave_ever_opened p;
     pty_activity := pty_activity p; fg_pgrp := fg_pgrp p |}.
Definition with_output (l : bytes) (p : Pty) : Pty :=
  {| pty_id := pty_id p; m2s := m2s p; s2m := l; termios := termios p; winsize := winsize p;
     masters := masters p; slaves := slaves p; slave_ever_opened := slave_ever_opened p;
     pty_activity := pty_activity p; fg_pgrp := fg_pgrp p |}.
Definition touch (p : Pty) : Pty :=
  {| pty_id := pty_id p; m2s := m2s p; s2m := s2m p; termios := termios p; winsize := winsize p;
     masters := masters p; slaves := slaves p; slave_ever_opened := slave_ever_opened p;
     pty_activity := wrapping_add64 (pty_activity p) 1; fg_pgrp := fg_pgrp p |}.
Definition with_ends (m s : Z) (p : Pty) : Pty :=
  {| pty_id := pty_id p; m2s := m2s p; s2m := s2m p; termios := termios p; winsize := winsize p;
     masters := m; slaves := s; slave_ever_opened := slave_ever_opened p;
     pty_activity := pty_activity p; fg_pgrp := fg_pgrp p |}.

Definition SIGINT : Z := 2.
Definition SIGQUIT : Z := 3.
Definition SIGTSTP : Z := 20.

(** The signal a control character raises; a character set to NUL is disabled. *)
Definition raised (p : Pty) (byte : Z) : option Z :=
  let cc i := nth (C_CC + i) (termios p) 0 in
  if negb (cc 0%nat =? 0) && (byte =? cc 0%nat) then Some SIGINT
  else if negb (cc 1%nat =? 0) && (byte =? cc 1%nat) then Some SIGQUIT
  else if negb (cc 10%nat =? 0) && (byte =? cc 10%nat) then Some SIGTSTP
  else None.
Fixpoint feed_loop (p : Pty) (input : bytes) (queue : bytes) (signal : option Z) : bytes * option Z :=
  match input with
  | [] => (queue, signal)
  | byte :: input =>
      match raised p byte with
      | Some sig => feed_loop p input [] (Some sig)
      | None => feed_loop p input (queue ++ [byte]) signal
      end
  end.
Definition feed_input (p : Pty) (input : bytes) : Pty * option Z :=
  if negb (isig p) then (touch (with_input (m2s p ++ input) p), None)
  else
    let '(q, signal) := feed_loop p input (m2s p) None in
    (touch (with_input q p), signal).
End Terminal.

(** * The heap of shared objects *)
Record Heap (B : Type) := {
  ofds : gmap Z (Description * Z);
  pipes : gmap Z PipeInner;
  ptys : gmap Z Pty;
  events : gmap Z EventFdInner;
  timers : gmap Z TimerFdInner;
  inotifies : gmap Z InotifyInner;
  sockets : gmap Z NetSocket;
  epolls : gmap Z EpollInner;
  tables : gmap Z (FdTable * Z);
  broker : B;
  next_ref : Z
}.
Arguments ofds {B} _.
Arguments pipes {B} _.
Arguments ptys {B} _.
Arguments events {B} _.
Arguments timers {B} _.
Arguments inotifies {B} _.
Arguments sockets {B} _.
Arguments epolls {B} _.
Arguments tables {B} _.
Arguments broker {B} _.
Arguments next_ref {B} _.
Definition set_ofds {B} (x : gmap Z (Description * Z)) (h : Heap B) : Heap B :=
  {| ofds := x; pipes := pipes h; ptys := ptys h; events := events h; timers := timers h;
     inotifies := inotifies h; sockets := sockets h; epolls := epolls h;
     tables := tables h; broker := broker h; next_ref := next_ref h |}.
Definition set_pipes {B} (x : gmap Z PipeInner) (h : Heap B) : Heap B :=
  {| ofds := ofds h; pipes := x; ptys := ptys h; events := events h; timers := timers h;
     inotifies := inotifies h; sockets := sockets h; epolls := epolls h;
     tables := tables h; broker := broker h; next_ref := next_ref h |}.
Definition set_ptys {B} (x : gmap Z Pty) (h : Heap B) : Heap B :=
  {| ofds := ofds h; pipes := pipes h; ptys := x; events := events h; timers := timers h;
     inotifies := inotifies h; sockets := sockets h; epolls := epolls h;
     tables := tables h; broker := broker h; next_ref := next_ref h |}.
Definition set_events {B} (x : gmap Z EventFdInner) (h : Heap B) : Heap B :=
  {| ofds := ofds h; pipes := pipes h; ptys := ptys h; events := x; timers := timers h;
     inotifies := inotifies h; sockets := sockets h; epolls := epolls h;
     tables := tables h; broker := broker h; next_ref := next_ref h |}.
Definition set_timers {B} (x : gmap Z TimerFdInner) (h : Heap B) : Heap B :=
  {| ofds := ofds h; pipes := pipes h; ptys := ptys h; events := events h; timers := x;
     inotifies := inotifies h; sockets := sockets h; epolls := epolls h;
     tables := tables h; broker := broker h; next_ref := next_ref h |}.
Definition set_inotifies {B} (x : gmap Z InotifyInner) (h : Heap B) : Heap B :=
  {| ofds := ofds h; pipes := pipes h; ptys := ptys h; events := events h; timers := timers h;
     inotifies := x; sockets := sockets h; epolls := epolls h;
     tables := tables h; broker := broker h; next_ref := next_ref h |}.
Definition set_sockets {B} (x : gmap Z NetSocket) (h : Heap B) : Heap B :=
  {| ofds := ofds h; pipes := pipes h; ptys := ptys h; events := events h; timers := timers h;
     inotifies := inotifies h; sockets := x; epolls := epolls h;
     tables := tables h; broker := broker h; next_ref := next_ref h |}.
Definition set_epolls {B} (x : gmap Z EpollInner) (h : Heap B) : Heap B :=
  {| ofds := ofds h; pipes := pipes h; ptys := ptys h; events := events h; timers := timers h;
     inotifies := inotifies h; sockets := sockets h; epolls := x;
     tables := tables h; broker := broker h; next_ref := next_ref h |}.
Definition set_tables {B} (x : gmap Z (FdTable * Z)) (h : Heap B) : Heap B :=
  {| ofds := ofds h; pipes := pipes h; ptys := ptys h; events := events h; timers := timers h;
     inotifies := inotifies h; sockets := sockets h; epolls := epolls h;
     tables := x; broker := broker h; next_ref := next_ref h |}.
Definition set_broker {B} (x : B) (h : Heap B) : Heap B :=
  {| ofds := ofds h; pipes := pipes h; ptys := ptys h; events := events h; timers := timers h;
     inotifies := inotifies h; sockets := sockets h; epolls := epolls h;
     tables := tables h; broker := x; next_ref := next_ref h |}.
Definition set_next_ref {B} (x : Z) (h : Heap B) : Heap B :=
  {| ofds := ofds h; pipes := pipes h; ptys := ptys h; events := events h; timers := timers h;
     inotifies := inotifies h; sockets := sockets h; epolls := epolls h;
     tables := tables h; broker := broker h; next_ref := x |}.


(** * Descriptor tables *)
Module Table.
Section table.
Context `{Host}.

(** [while self.entries.len() < n { push(None) }] *)
Definition pad (n : nat) (t : FdTable) : FdTable := t ++ replicate (n - length t) None.
(** The first empty slot. *)
Fixpoint first_free (t : FdTable) : option nat :=
  match t with
  | [] => None
  | None :: _ => Some 0%nat
  | Some _ :: t => S <$> first_free t
  end.

Definition get (t : FdTable) (fd : Z) : res Z FdEntry := ok_or (mjoin (getz t (as_usize fd))) EBADF.

Definition insert_from (t : FdTable) (min : Z) (e : FdEntry) : FdTable * res Z Z :=
  if FD_LIMIT <=? min then (t, Err EINVAL)
  else
    let n := Z.to_nat min in
    let t := pad n t in
    match first_free (drop n t) with
    | Some k => (<[(n + k)%nat := Some e]> t, Ok (Z.of_nat (n + k)))
    | None =>
        if FD_LIMIT <=? zlen t then (t, Err EMFILE)
        else (t ++ [Some e], Ok (zlen t))
    end.

(** The table, the result and the entry displaced. *)
Definition insert_at (t : FdTable) (fd : Z) (e : FdEntry) : FdTable * res Z Z * option FdEntry :=
  let i := as_usize fd in
  if FD_LIMIT <=? i then (t, Err EBADF, None)
  else
    let n := Z.to_nat i in
    let t := pad (S n) t in
    (<[n := Some e]> t, Ok i, mjoin (t !! n)).

(** The table, the result and the entry closed. *)
Definition close (t : FdTable) (fd : Z) : FdTable * res Z FdEntry :=
  let i := as_usize fd in
  match getz t i with
  | None => (t, Err EBADF)
  | Some None => (<[Z.to_nat i := None]> t, Err EBADF)
  | Some (Some e) => (<[Z.to_nat i := None]> t, Ok e)
  end.

Definition is_cloexec (s : option FdEntry) : bool :=
  match s with Some e => cloexec e | None => false end.
Definition close_cloexec (t : FdTable) : FdTable * list FdEntry :=
  (map (λ s, if is_cloexec s then None else s) t, omap id (filter (λ s, is_cloexec s = true) t)).

(** [iter]: the occupied slots in order. *)
Fixpoint iter_from (i : Z) (t : FdTable) : list (Z * FdEntry) :=
  match t with
  | [] => []
  | Some e :: t => (i, e) :: iter_from (i + 1) t
  | None :: t => iter_from (i + 1) t
  end.
Definition iter (t : FdTable) : list (Z * FdEntry) := iter_from 0 t.
End table.
End Table.

(** * Reference counting *)
Module Fds.
Section fds.
Context `{Host} {B : Type} `{NetworkBroker B}.
Abbreviation heap := (Heap B).

Definition fresh (h : heap) : Z * heap := (next_ref h, set_next_ref (next_ref h + 1) h).

Definition reader_gone (p : PipeInner) : PipeInner :=
  {| p_data := p_data p; p_readers := saturating_sub (p_readers p) 1; p_writers := p_writers p;
     p_activity := wrapping_add64 (p_activity p) 1 |}.
Definition writer_gone (p : PipeInner) : PipeInner :=
  {| p_data := p_data p; p_readers := p_readers p; p_writers := saturating_sub (p_writers p) 1;
     p_activity := wrapping_add64 (p_activity p) 1 |}.
Definition master_gone (p : Pty) : Pty :=
  Terminal.touch (Terminal.with_ends (saturating_sub (masters p) 1) (slaves p) p).
Definition slave_gone (p : Pty) : Pty :=
  Terminal.touch (Terminal.with_ends (masters p) (saturating_sub (slaves p) 1) p).

(** [impl Drop for Description] *)
Definition drop_description (d : Description) (h : heap) : heap :=
  match backing d with
  | BPipe i true => set_pipes (alter writer_gone i (pipes h)) h
  | BPipe i false => set_pipes (alter reader_gone i (pipes h)) h
  | BSocketPair rx tx => set_pipes (alter writer_gone tx (alter reader_gone rx (pipes h))) h
  | BNet s =>
      match sockets h !! s ≫= s_handle with
      | Some handle => set_broker (close handle (broker h)) h
      | None => h
      end
  | BPtyMaster i => set_ptys (alter master_gone i (ptys h)) h
  | BPtySlave i => set_ptys (alter slave_gone i (ptys h)) h
  | _ => h
  end.

(** [Rc::new(RefCell::new(description))], [Rc::clone] and the end of an [Rc]. *)
Definition ofd_new (d : Description) (h : heap) : Z * heap :=
  let '(i, h) := fresh h in (i, set_ofds (<[i := (d, 1)]> (ofds h)) h).
Definition ofd_clone (i : Z) (h : heap) : heap := set_ofds (alter (λ x, (x.1, x.2 + 1)) i (ofds h)) h.
Definition ofd_drop (i : Z) (h : heap) : heap :=
  match ofds h !! i with
  | None => h
  | Some (d, n) =>
      if n =? 1 then drop_description d (set_ofds (delete i (ofds h)) h)
      else set_ofds (<[i := (d, n - 1)]> (ofds h)) h
  end.
Definition entries_drop (l : list FdEntry) (h : heap) : heap := foldl (λ h e, ofd_drop (desc e) h) h l.

(** [self.fds.borrow()] of the table [t]; a live [Rc] always finds it. *)
Definition table (t : Z) (h : heap) : res Z FdTable := expect (fst <$> tables h !! t).
Definition put_table (t : Z) (x : FdTable) (h : heap) : heap :=
  set_tables (alter (λ y, (x, y.2)) t (tables h)) h.

Definition get (t fd : Z) : stm heap Z FdEntry := query (λ h, let! x := table t h in Table.get x fd).
Definition desc_of (t fd : Z) (h : heap) : res Z Description :=
  let! x := table t h in
  let! e := Table.get x fd in
  expect (fst <$> ofds h !! desc e).

(** An entry that is not installed is dropped with its reference. *)
Definition insert_from (t min : Z) (e : FdEntry) : stm heap Z Z :=
  do! x <- query (table t) in
  let '(x, r) := Table.insert_from x min e in
  do! _ <- modify (put_table t x) in
  do! _ <- match r with Ok _ => sret () | _ => modify (ofd_drop (desc e)) end in
  query (λ _, r).
Definition insert (t : Z) (e : FdEntry) : stm heap Z Z := insert_from t 0 e.
Definition insert_at (t fd : Z) (e : FdEntry) : stm heap Z Z :=
  do! x <- query (table t) in
  let '(x, r, old) := Table.insert_at x fd e in
  do! _ <- modify (put_table t x) in
  do! _ <- match r with
           | Ok _ => modify (entries_drop (option_list old))
           | _ => modify (ofd_drop (desc e))
           end in
  query (λ _, r).
Definition close (t fd : Z) : stm heap Z () :=
  do! x <- query (table t) in
  let '(x, r) := Table.close x fd in
  do! _ <- modify (put_table t x) in
  do! e <- query (λ _, r) in
  modify (ofd_drop (desc e)).
Definition close_cloexec (t : Z) : stm heap Z () :=
  do! x <- query (table t) in
  let '(x, gone) := Table.close_cloexec x in
  do! _ <- modify (put_table t x) in
  modify (entries_drop gone).

(** [FdTable::new], [FdTable::clone] (fork), [Rc::clone] of the table (threads)
    and the end of a table handle. *)
Definition std_entry (s : StdStream) (h : heap) : option FdEntry * heap :=
  let '(i, h) := ofd_new {| backing := BStd s; offset := 0;
    flags := match s with StdIn => O_RDONLY | _ => O_WRONLY end |} h in
  (Some {| desc := i; cloexec := false |}, h).
Definition table_new (h : heap) : Z * heap :=
  let '(a, h) := std_entry StdIn h in
  let '(b, h) := std_entry StdOut h in
  let '(c, h) := std_entry StdErr h in
  let '(t, h) := fresh h in
  (t, set_tables (<[t := ([a; b; c], 1)]> (tables h)) h).
Definition table_clone (t : Z) : stm heap Z Z :=
  do! x <- query (table t) in
  do! _ <- modify (λ h, foldl (λ h e, ofd_clone (desc e) h) h (omap id x)) in
  λ h, let '(i, h) := fresh h in (set_tables (<[i := (x, 1)]> (tables h)) h, Ok i).
Definition table_share (t : Z) (h : heap) : heap := set_tables (alter (λ y, (y.1, y.2 + 1)) t (tables h)) h.
Definition table_drop (t : Z) (h : heap) : heap :=
  match tables h !! t with
  | None => h
  | Some (x, n) =>
      if n =? 1 then entries_drop (omap id x) (set_tables (delete t (tables h)) h)
      else set_tables (<[t := (x, n - 1)]> (tables h)) h
  end.

(** * The descriptor system calls *)
Definition install_fd (t : Z) (b : Backing) (fl : Z) (ce : bool) : stm heap Z Z := λ h,
  let '(i, h) := ofd_new {| backing := b; offset := 0; flags := fl |} h in
  insert t {| desc := i; cloexec := ce |} h.

Definition pipe_new (h : heap) : Z * heap :=
  let '(i, h) := fresh h in
  (i, set_pipes (<[i := {| p_data := []; p_readers := 1; p_writers := 1; p_activity := 0 |}]> (pipes h)) h).

Definition sys_dup (t fd min : Z) (ce : bool) : stm heap Z Z :=
  do! e <- get t fd in
  do! _ <- modify (ofd_clone (desc e)) in
  insert_from t (as_usize min) {| desc := desc e; cloexec := ce |}.

Definition sys_dup2 (t fd new_fd : Z) (ce : bool) : stm heap Z Z :=
  do! e <- get t fd in
  if fd =? new_fd then sret new_fd
  else
    do! _ <- modify (ofd_clone (desc e)) in
    insert_at t new_fd {| desc := desc e; cloexec := ce |}.

Definition CLOSE_RANGE_CLOEXEC : Z := 4.
Definition set_cloexec (fd : Z) (ce : bool) (x : FdTable) : FdTable :=
  alter (fmap (λ e, {| desc := desc e; cloexec := ce |})) (Z.to_nat fd) x.
(** [let _ = fds.close(fd)] *)
Definition ignore {A} (m : stm heap Z A) : stm heap Z () := λ h,
  match m h with (h, Panic) => (h, Panic) | (h, _) => (h, Ok ()) end.
Fixpoint each (f : Z → stm heap Z ()) (l : list Z) : stm heap Z () :=
  match l with [] => sret () | i :: l => do! _ <- f i in each f l end.
Definition sys_close_range (t first_ last_ fl : Z) : stm heap Z Z :=
  if last_ <? first_ then sfail EINVAL
  else
    do! x <- query (table t) in
    let open := filter (λ fd, first_ ≤ fd ≤ last_) (map fst (Table.iter x)) in
    do! _ <- each (λ fd,
      if negb (Z.land fl CLOSE_RANGE_CLOEXEC =? 0) then
        do! x <- query (table t) in modify (put_table t (set_cloexec fd true x))
      else ignore (close t fd)) open in
    sret 0.

(** [pipe2] and [socketpair] up to the copy of the two descriptors to the
    guest: [Ok] carries them. *)
Definition pipe_fds (t fl : Z) : stm heap Z (Z * Z) := λ h,
  let '(i, h) := pipe_new h in
  let ce := negb (Z.land fl O_CLOEXEC =? 0) in
  (do! r <- install_fd t (BPipe i false) (Z.lor O_RDONLY (Z.land fl O_NONBLOCK)) ce in
   do! w <- install_fd t (BPipe i true) (Z.lor O_WRONLY (Z.land fl O_NONBLOCK)) ce in
   sret (r, w)) h.
Definition AF_UNIX : Z := 1.
Definition SOCK_TYPE_MASK : Z := 255.
Definition SOCK_STREAM : Z := 1.
Definition SOCK_DGRAM : Z := 2.
Definition SOCK_SEQPACKET : Z := 5.
Definition SOCK_CLOEXEC : Z := 524288.
Definition socketpair_fds (t domain sock_type : Z) : stm heap Z (Z * Z) := λ h,
  if negb (domain =? AF_UNIX) then (h, Err EAFNOSUPPORT)
  else
    let kind := Z.land sock_type SOCK_TYPE_MASK in
    if negb ((kind =? SOCK_STREAM) || (kind =? SOCK_DGRAM) || (kind =? SOCK_SEQPACKET))
    then (h, Err EPROTONOSUPPORT)
    else
      let '(ab, h) := pipe_new h in
      let '(ba, h) := pipe_new h in
      let ce := negb (Z.land sock_type SOCK_CLOEXEC =? 0) in
      (do! a <- install_fd t (BSocketPair ba ab) O_RDWR ce in
       do! b <- install_fd t (BSocketPair ab ba) O_RDWR ce in
       sret (a, b)) h.
End fds.
End Fds.
