(* ===== verification/FdInv.v ===== *)
(** The descriptor table, and the invariant of descriptions and pipes. *)

From S2P Require Import Prelude Abi Net Fd.

(** Descriptor tables: which slot an insertion takes, and what each operation
    leaves in every other slot. *)
(** What descriptor [k] refers to. *)
Definition slot (t : FdTable) (k : nat) : option FdEntry := mjoin (t !! k).
Definition table_wf (t : FdTable) : Prop := zlen t ≤ FD_LIMIT.

Section tables.
Context `{Host}.
Implicit Types (t : FdTable) (e : FdEntry).

Lemma slot_pad n t k : slot (Table.pad n t) k = slot t k.
Proof.
  unfold slot, Table.pad. destruct (decide (k < length t)%nat) as [Hk|Hk]; [by rewrite lookup_app_l|].
  rewrite lookup_app_r by lia. rewrite (lookup_ge_None_2 t k) by lia.
  destruct (replicate _ _ !! _) eqn:E; [|done]. by apply lookup_replicate in E as [-> _].
Qed.
Lemma length_pad n t : length (Table.pad n t) = Nat.max n (length t).
Proof. unfold Table.pad. rewrite length_app, length_replicate. lia. Qed.

Lemma slot_insert n s t k :
  (n < length t)%nat → slot (<[n := s]> t) k = if decide (n = k) then s else slot t k.
Proof.
  intros Hn. unfold slot. case_decide as E; [subst; by rewrite list_lookup_insert_eq|].
  by rewrite list_lookup_insert_ne.
Qed.
Lemma slot_ge t k : (length t ≤ k)%nat → slot t k = None.
Proof. intros. unfold slot. by rewrite lookup_ge_None_2. Qed.
Lemma slot_app t e k : slot (t ++ [Some e]) k = if decide (length t = k) then Some e else slot t k.
Proof.
  unfold slot. case_decide as E; [subst; by rewrite list_lookup_middle|].
  destruct (decide (k < length t)%nat); [by rewrite lookup_app_l|].
  rewrite (lookup_ge_None_2 t) by lia. rewrite lookup_ge_None_2; [done|rewrite length_app; cbn; lia].
Qed.

Lemma first_free_Some t k :
  Table.first_free t = Some k → t !! k = Some None ∧ ∀ j, (j < k)%nat → is_Some (slot t j).
Proof.
  revert k. induction t as [|[e|] t IH]; intros k; cbn; [done| |].
  - destruct (Table.first_free t) as [k'|]; [|done]. intros [= <-]. destruct (IH k') as [H1 H2]; [done|].
    split; [done|]. intros [|j] Hj; [by eexists|]. apply H2. lia.
  - intros [= <-]. split; [done|lia].
Qed.
Lemma first_free_None t :
  Table.first_free t = None → ∀ j, (j < length t)%nat → is_Some (slot t j).
Proof.
  induction t as [|[e|] t IH]; cbn; [lia| |done]. destruct (Table.first_free t); [done|].
  intros _ [|j] Hj; [by eexists|]. apply IH; [done|lia].
Qed.
Lemma slot_drop n t j : slot (drop n t) j = slot t (n + j).
Proof. unfold slot. by rewrite lookup_drop. Qed.
End tables.

(** What a successful or refused insertion means. *)
Definition inserted (t : FdTable) (min : nat) (e : FdEntry) (fd : nat) (t' : FdTable) : Prop :=
  (min ≤ fd)%nat ∧ Z.of_nat fd < FD_LIMIT ∧ slot t fd = None ∧
  (∀ k, (min ≤ k < fd)%nat → is_Some (slot t k)) ∧
  ∀ k, slot t' k = if decide (fd = k) then Some e else slot t k.

Lemma insert_from_spec t min e :
  table_wf t → 0 ≤ min →
  let '(t', r) := Table.insert_from t min e in
  table_wf t' ∧
  match r with
  | Ok fd => 0 ≤ fd ∧ inserted t (Z.to_nat min) e (Z.to_nat fd) t'
  | Err errno => (∀ k, slot t' k = slot t k) ∧
      (errno = EINVAL ∧ FD_LIMIT ≤ min ∨
       errno = EMFILE ∧ ∀ k, min ≤ Z.of_nat k < FD_LIMIT → is_Some (slot t k))
  | Panic => False
  end.
Proof.
  unfold table_wf. intros Hw Hmin. unfold Table.insert_from.
  destruct (Z.leb_spec FD_LIMIT min) as [|Hlt]; [auto|].
  set (n := Z.to_nat min). pose proof (length_pad n t) as Hl.
  assert (Hpw : zlen (Table.pad n t) ≤ FD_LIMIT) by (unfold zlen in *; lia).
  destruct (Table.first_free (drop n (Table.pad n t))) as [k|] eqn:E.
  - apply first_free_Some in E as [Hk Hlow]. rewrite lookup_drop in Hk.
    pose proof (lookup_lt_Some _ _ _ Hk) as Hkl. split; [unfold zlen; rewrite length_insert; exact Hpw|].
    split; [lia|]. rewrite Nat2Z.id. split_and!; [lia|unfold zlen in *; lia| | |].
    + rewrite <- (slot_pad n). unfold slot. by rewrite Hk.
    + intros j Hj. specialize (Hlow (j - n)%nat). rewrite slot_drop, slot_pad in Hlow.
      replace (n + (j - n))%nat with j in Hlow by lia. apply Hlow. lia.
    + intros j. by rewrite slot_insert, slot_pad by lia.
  - pose proof (first_free_None _ E) as Hocc. rewrite length_drop in Hocc.
    assert (Hall : ∀ j, (n ≤ j < length (Table.pad n t))%nat → is_Some (slot t j)).
    { intros j Hj. specialize (Hocc (j - n)%nat). rewrite slot_drop, slot_pad in Hocc.
      replace (n + (j - n))%nat with j in Hocc by lia. apply Hocc. lia. }
    destruct (Z.leb_spec FD_LIMIT (zlen (Table.pad n t))) as [Hfull|Hroom].
    + split; [done|]. split; [intros; apply slot_pad|]. right. split; [done|].
      intros k Hk. apply Hall. unfold zlen in *. lia.
    + split; [rewrite zlen_app; cbn; unfold zlen in *; cbn; lia|]. split; [unfold zlen; lia|].
      replace (Z.to_nat (zlen (Table.pad n t))) with (length (Table.pad n t)) by (unfold zlen; lia). split_and!.
      * lia.
      * unfold zlen in *. lia.
      * rewrite <- (slot_pad n). by apply slot_ge.
      * intros j Hj. apply Hall. lia.
      * intros j. by rewrite slot_app, slot_pad.
Qed.

(** A new descriptor is the lowest one free at or above the minimum, as
    POSIX requires of [open], [dup] and [F_DUPFD]: the insertion fills exactly
    that slot, keeps every other slot and the limit of 1024; it fails with
    [EMFILE] only when every descriptor from the minimum to the limit is in
    use, with [EINVAL] only when the minimum is past the limit, and a refusal
    changes no slot. *)
Theorem insert_from_lowest t min e :
  table_wf t → 0 ≤ min →
  let '(t', r) := Table.insert_from t min e in
  table_wf t' ∧
  match r with
  | Ok fd => 0 ≤ fd ∧ inserted t (Z.to_nat min) e (Z.to_nat fd) t'
  | Err errno => (∀ k, slot t' k = slot t k) ∧
      (errno = EINVAL ∧ FD_LIMIT ≤ min ∨
       errno = EMFILE ∧ ∀ k, min ≤ Z.of_nat k < FD_LIMIT → is_Some (slot t k))
  | Panic => False
  end.
Proof. apply insert_from_spec. Qed.

Lemma insert_from_lowest_witness :
  let e i := {| desc := i; cloexec := false |} in
  let t := [Some (e 1); None; Some (e 3)] in
  table_wf t ∧ Table.insert_from t 0 (e 9) = ([Some (e 1); Some (e 9); Some (e 3)], Ok 1) ∧
  inserted t 0 (e 9) 1 (Table.insert_from t 0 (e 9)).1.
Proof.
  intros e t. assert (table_wf t) as Hw by (vm_compute; congruence). split; [done|]. split; [reflexivity|].
  apply (insert_from_lowest t 0 (e 9) Hw). lia.
Defined.

(** Reference counts and pipe ends: an invariant of the descriptor heap.

    A description lives exactly while some descriptor of some table refers to
    it, and the reader and writer counts of a pipe are the numbers of live
    descriptions of its ends. Both are stated with two lists for a call in
    progress: the references it holds outside any table, and the descriptions
    of pipe ends it has counted but not made yet. *)
(** * Sums over a map *)
Lemma alter_as_insert {A} (m : gmap Z A) i g x : m !! i = Some x → alter g i m = <[i := g x]> m.
Proof.
  intros Hi. apply map_eq. intros j. destruct (decide (i = j)) as [<-|].
  - by rewrite lookup_alter_eq, lookup_insert_eq, Hi.
  - by rewrite lookup_alter_ne, lookup_insert_ne.
Qed.

Section sums.
Context {A : Type} (f : A → Z).

Definition msum (m : gmap Z A) : Z := map_fold (λ _ x s, f x + s) 0 m.

Lemma msum_empty : msum ∅ = 0.
Proof. apply map_fold_empty. Qed.
Lemma msum_insert_new m i x : m !! i = None → msum (<[i := x]> m) = f x + msum m.
Proof. intros. unfold msum. rewrite map_fold_insert_L; [done|lia|done]. Qed.
Lemma msum_delete m i x : m !! i = Some x → msum (delete i m) = msum m - f x.
Proof. intros Hi. rewrite <- (insert_delete_id m i x) at 2 by done. rewrite msum_insert_new; [lia|apply lookup_delete_eq]. Qed.
Lemma msum_insert m i x : msum (<[i := x]> m) = msum m + f x - from_option f 0 (m !! i).
Proof.
  destruct (m !! i) as [y|] eqn:E; cbn [from_option]; [|rewrite msum_insert_new; [lia|done]].
  rewrite <- insert_delete_eq, msum_insert_new, (msum_delete m i y) by (done || apply lookup_delete_eq). lia.
Qed.
Lemma msum_alter m i g x : m !! i = Some x → msum (alter g i m) = msum m - f x + f (g x).
Proof. intros Hi. rewrite (alter_as_insert _ _ _ _ Hi), msum_insert, Hi. cbn. lia. Qed.
Lemma msum_nonneg m : (∀ x, 0 ≤ f x) → 0 ≤ msum m.
Proof.
  intros Hf. induction m as [|i x m Hi IH] using map_ind; [rewrite msum_empty; lia|].
  rewrite msum_insert_new by done. specialize (Hf x). lia.
Qed.
Lemma msum_pos m : (∀ x, 0 ≤ f x) → 0 < msum m ↔ ∃ i x, m !! i = Some x ∧ 0 < f x.
Proof.
  intros Hf. split.
  - induction m as [|i x m Hi IH] using map_ind; [rewrite msum_empty; lia|].
    rewrite msum_insert_new by done. intros. destruct (decide (0 < f x)).
    + exists i, x. by rewrite lookup_insert_eq.
    + destruct IH as (j & y & Hj & Hy); [specialize (Hf x); lia|]. exists j, y.
      rewrite lookup_insert_ne; [done|congruence].
  - intros (i & x & Hi & Hx). rewrite <- (insert_delete_id m i x) by done.
    rewrite msum_insert_new by apply lookup_delete_eq. pose proof (msum_nonneg (delete i m) Hf). lia.
Qed.
End sums.

(** * Counting *)
Definition b2z (b : bool) : Z := if b then 1 else 0.
Fixpoint lsum {A} (f : A → Z) (l : list A) : Z :=
  match l with [] => 0 | x :: l => f x + lsum f l end.

Lemma lsum_app {A} (f : A → Z) l k : lsum f (l ++ k) = lsum f l + lsum f k.
Proof. induction l; cbn in *; lia. Qed.
Lemma lsum_nonneg {A} (f : A → Z) l : (∀ x, 0 ≤ f x) → 0 ≤ lsum f l.
Proof. intros Hf. induction l as [|x l IH]; cbn; [lia|]. specialize (Hf x). lia. Qed.
Lemma lsum_insert {A} (f : A → Z) l i x y :
  l !! i = Some y → lsum f (<[i := x]> l) = lsum f l - f y + f x.
Proof.
  intros Hi. rewrite insert_take_drop by (by eapply lookup_lt_Some).
  rewrite <- (take_drop_middle l i y Hi) at 3. rewrite !lsum_app. cbn. lia.
Qed.
Lemma lsum_pos {A} (f : A → Z) l : (∀ x, 0 ≤ f x) → 0 < lsum f l ↔ ∃ x, x ∈ l ∧ 0 < f x.
Proof.
  intros Hf. induction l as [|x l IH]; cbn; [split; [lia|intros (? & ?%elem_of_nil & _); done]|].
  pose proof (lsum_nonneg f l Hf). pose proof (Hf x). split.
  - intros. destruct (decide (0 < f x)); [exists x; split; [left|done]|].
    destruct (proj1 IH) as (y & Hy & ?); [lia|]. exists y. split; [by right|done].
  - intros (y & [->|Hy]%elem_of_cons & ?); [lia|]. assert (0 < lsum f l) by (apply IH; eauto). lia.
Qed.

Definition refers (i : Z) (s : option FdEntry) : Z :=
  match s with Some e => b2z (desc e =? i) | None => 0 end.
Lemma refers_nonneg i s : 0 ≤ refers i s.
Proof. destruct s as [e|]; cbn; [destruct (desc e =? i); cbn|]; lia. Qed.
(** The descriptors of all tables that refer to [i]. *)
Definition tcount (i : Z) (t : FdTable) : Z := lsum (refers i) t.
Arguments tcount : simpl never.
Definition refs {B} (i : Z) (h : Heap B) : Z := msum (λ x, tcount i x.1) (tables h).
Lemma tcount_nonneg i t : 0 ≤ tcount i t.
Proof. apply lsum_nonneg, refers_nonneg. Qed.

(** The ends of pipe [i] a description is. *)
Definition is_writer (i : Z) (d : Description) : bool :=
  match backing d with BPipe j true => j =? i | BSocketPair _ tx => tx =? i | _ => false end.
Definition is_reader (i : Z) (d : Description) : bool :=
  match backing d with BPipe j false => j =? i | BSocketPair rx _ => rx =? i | _ => false end.
Definition writers {B} (i : Z) (h : Heap B) : Z := msum (λ x, b2z (is_writer i x.1)) (ofds h).
Definition readers {B} (i : Z) (h : Heap B) : Z := msum (λ x, b2z (is_reader i x.1)) (ofds h).

Lemma tcount_update i t k s s' : t !! k = Some s → tcount i (<[k := s']> t) = tcount i t - refers i s + refers i s'.
Proof. intros. by apply lsum_insert. Qed.
Lemma tcount_app i t t' : tcount i (t ++ t') = tcount i t + tcount i t'.
Proof. apply lsum_app. Qed.

Section table_counts.
Context `{Host}.

Lemma tcount_pad i n t : tcount i (Table.pad n t) = tcount i t.
Proof.
  unfold tcount, Table.pad. rewrite lsum_app.
  assert (∀ k, lsum (refers i) (replicate k None) = 0) as -> by (induction k; cbn in *; lia). lia.
Qed.

Lemma tcount_insert_from i t min e :
  tcount i (Table.insert_from t min e).1 =
  tcount i t + match (Table.insert_from t min e).2 with Ok _ => b2z (desc e =? i) | _ => 0 end.
Proof.
  unfold Table.insert_from. destruct (FD_LIMIT <=? min); [cbn; lia|].
  destruct (Table.first_free _) as [k|] eqn:E; cbn.
  - apply first_free_Some in E as [Hk _]. rewrite lookup_drop in Hk.
    rewrite (tcount_update _ _ _ _ _ Hk), tcount_pad. cbn. lia.
  - destruct (FD_LIMIT <=? _); cbn; [rewrite tcount_pad; lia|].
    rewrite tcount_app, tcount_pad. unfold tcount. cbn. lia.
Qed.

Lemma tcount_insert_at i t fd e :
  let '(t', r, old) := Table.insert_at t fd e in
  tcount i t' + refers i old = tcount i t + match r with Ok _ => b2z (desc e =? i) | _ => 0 end.
Proof.
  unfold Table.insert_at. destruct (FD_LIMIT <=? _); [cbn; lia|].
  set (n := Z.to_nat (as_usize fd)). pose proof (length_pad (S n) t).
  destruct (lookup_lt_is_Some_2 (Table.pad (S n) t) n) as [s Hs]; [lia|]. rewrite Hs.
  rewrite (tcount_update _ _ _ _ _ Hs), tcount_pad. cbn. lia.
Qed.

Lemma tcount_close i t fd :
  tcount i (Table.close t fd).1 =
  tcount i t - match (Table.close t fd).2 with Ok e => b2z (desc e =? i) | _ => 0 end.
Proof.
  unfold Table.close. destruct (getz t (as_usize fd)) as [[e|]|] eqn:E; cbn; [| |lia];
    apply getz_Some in E as [_ E]; rewrite (tcount_update _ _ _ _ _ E); cbn; lia.
Qed.

Lemma tcount_cloexec i t :
  tcount i (Table.close_cloexec t).1 = tcount i t - lsum (λ e, b2z (desc e =? i)) (Table.close_cloexec t).2.
Proof.
  unfold Table.close_cloexec. cbn. induction t as [|s t IH]; [done|]. unfold tcount in *. cbn [map lsum].
  rewrite filter_cons. destruct (Table.is_cloexec s) eqn:E.
  - rewrite decide_True by done. destruct s as [e|]; [|done]. cbn in *. lia.
  - rewrite decide_False by done. cbn in *. lia.
Qed.

Lemma tcount_entries i t : tcount i t = lsum (λ e, b2z (desc e =? i)) (omap id t).
Proof. induction t as [|[e|] t IH]; unfold tcount in *; cbn in *; lia. Qed.
End table_counts.

(** * The invariant *)
Definition hcount (i : Z) (held : list Z) : Z := lsum (λ j, b2z (j =? i)) held.
Arguments hcount : simpl never.
Definition wsum (i : Z) (ends : list Description) : Z := lsum (λ d, b2z (is_writer i d)) ends.
Definition rsum (i : Z) (ends : list Description) : Z := lsum (λ d, b2z (is_reader i d)) ends.
Arguments wsum : simpl never.
Arguments rsum : simpl never.

Lemma b2z_nonneg b : 0 ≤ b2z b.
Proof. destruct b; cbn; lia. Qed.
Lemma hcount_nonneg i l : 0 ≤ hcount i l.
Proof. apply lsum_nonneg. intros. apply b2z_nonneg. Qed.
Lemma hcount_cons i j l : hcount i (j :: l) = b2z (j =? i) + hcount i l.
Proof. done. Qed.
Lemma wsum_cons i d l : wsum i (d :: l) = b2z (is_writer i d) + wsum i l.
Proof. done. Qed.
Lemma rsum_cons i d l : rsum i (d :: l) = b2z (is_reader i d) + rsum i l.
Proof. done. Qed.
Lemma wsum_app i l k : wsum i (l ++ k) = wsum i l + wsum i k.
Proof. apply lsum_app. Qed.
Lemma rsum_app i l k : rsum i (l ++ k) = rsum i l + rsum i k.
Proof. apply lsum_app. Qed.
Lemma wsum_nonneg i l : 0 ≤ wsum i l.
Proof. apply lsum_nonneg. intros. apply b2z_nonneg. Qed.
Lemma rsum_nonneg i l : 0 ≤ rsum i l.
Proof. apply lsum_nonneg. intros. apply b2z_nonneg. Qed.
Lemma refs_nonneg {B} i (h : Heap B) : 0 ≤ refs i h.
Proof. apply msum_nonneg. intros. apply tcount_nonneg. Qed.
Lemma writers_nonneg {B} i (h : Heap B) : 0 ≤ writers i h.
Proof. apply msum_nonneg. intros. apply b2z_nonneg. Qed.
Lemma readers_nonneg {B} i (h : Heap B) : 0 ≤ readers i h.
Proof. apply msum_nonneg. intros. apply b2z_nonneg. Qed.
Create HintDb fd.
#[export] Hint Resolve b2z_nonneg hcount_nonneg wsum_nonneg rsum_nonneg refs_nonneg writers_nonneg
  readers_nonneg tcount_nonneg : fd.

Definition end_of (i : Z) (d : Description) : Prop := is_writer i d = true ∨ is_reader i d = true.

Record heap_inv {B} (held : list Z) (ends : list Description) (h : Heap B) : Prop := {
  hi_count : ∀ i d n, ofds h !! i = Some (d, n) → n = refs i h + hcount i held ∧ 1 ≤ n;
  hi_live : ∀ i, 0 < refs i h + hcount i held → is_Some (ofds h !! i);
  hi_tables : map_Forall (λ _ x, zlen x.1 ≤ FD_LIMIT ∧ 1 ≤ x.2) (tables h);
  hi_pipes : ∀ i p, pipes h !! i = Some p → 0 < readers i h + writers i h + rsum i ends + wsum i ends →
    p_readers p = readers i h + rsum i ends ∧ p_writers p = writers i h + wsum i ends;
  hi_exist : ∀ i j d n, ofds h !! i = Some (d, n) → end_of j d → is_Some (pipes h !! j);
  hi_promised : ∀ j d, d ∈ ends → end_of j d → is_Some (pipes h !! j);
  hi_fresh : ∀ i, next_ref h ≤ i → ofds h !! i = None ∧ tables h !! i = None ∧ pipes h !! i = None
}.

Section invariant.
Context `{Host} {B : Type} `{NetworkBroker B}.
Implicit Types h : Heap B.

(** Moving references between tables and the call in progress. *)
Lemma inv_transfer held held' ends h h' :
  heap_inv held ends h → ofds h' = ofds h → pipes h' = pipes h → next_ref h ≤ next_ref h' →
  (∀ i, refs i h' + hcount i held' = refs i h + hcount i held) →
  map_Forall (λ _ x, zlen x.1 ≤ FD_LIMIT ∧ 1 ≤ x.2) (tables h') →
  (∀ i, next_ref h' ≤ i → tables h' !! i = None) →
  heap_inv held' ends h'.
Proof.
  intros [Hc Hl Ht Hp He Hpr Hf] Eo Ep Hn Hr Ht' Hf'. split.
  - intros i d n. rewrite Eo, Hr. apply Hc.
  - intros i. rewrite Eo, Hr. apply Hl.
  - done.
  - intros i p. unfold readers, writers. rewrite Eo, Ep. apply Hp.
  - intros i j d n. rewrite Eo, Ep. apply He.
  - intros j d. rewrite Ep. apply Hpr.
  - intros i Hi. rewrite Eo, Ep. destruct (Hf i) as (? & _ & ?); [lia|]. auto.
Qed.

Lemma refs_put_table i t x x0 n h :
  tables h !! t = Some (x0, n) → refs i (Fds.put_table t x h) = refs i h - tcount i x0 + tcount i x.
Proof. intros E. unfold refs, Fds.put_table. cbn. by rewrite (msum_alter _ _ _ _ _ E). Qed.

Lemma inv_put_table held held' ends h t x x0 n :
  heap_inv held ends h → tables h !! t = Some (x0, n) → zlen x ≤ FD_LIMIT →
  (∀ i, tcount i x + hcount i held' = tcount i x0 + hcount i held) →
  heap_inv held' ends (Fds.put_table t x h).
Proof.
  intros Hi Et Hx Hc. eapply inv_transfer; [exact Hi|done|done|cbn; lia| | |].
  - intros i. rewrite (refs_put_table _ _ _ _ _ _ Et). specialize (Hc i). lia.
  - intros j y. cbn. destruct (decide (t = j)) as [<-|].
    + rewrite lookup_alter_eq, Et. intros [= <-]. split; [done|]. by apply (hi_tables _ _ _ Hi t _ Et).
    + rewrite lookup_alter_ne by done. apply (hi_tables _ _ _ Hi).
  - intros i Hn. cbn in *. apply lookup_alter_None. by apply (hi_fresh _ _ _ Hi i Hn).
Qed.

Lemma refs_ofds i x h : refs i (set_ofds x h) = refs i h.
Proof. done. Qed.

(** [Rc::clone] *)
Lemma inv_clone held ends h i :
  heap_inv held ends h → is_Some (ofds h !! i) → heap_inv (i :: held) ends (Fds.ofd_clone i h).
Proof.
  intros [Hc Hl Ht Hp He Hpr Hf] [[d n] Hi]. unfold Fds.ofd_clone.
  assert (Hlk : ∀ j d' n', alter (λ x, (x.1, x.2 + 1)) i (ofds h) !! j = Some (d', n') →
    ∃ n0, ofds h !! j = Some (d', n0) ∧ n' = n0 + b2z (i =? j)).
  { intros j d' n'. destruct (Z.eqb_spec i j) as [<-|]; cbn.
    - rewrite lookup_alter_eq, Hi. cbn. intros [= <- <-]. eauto.
    - rewrite lookup_alter_ne by done. exists n'. split; [done|lia]. }
  assert (Hrw : ∀ f : Description → bool, msum (λ x, b2z (f x.1)) (alter (λ x, (x.1, x.2 + 1)) i (ofds h)) =
    msum (λ x, b2z (f x.1)) (ofds h)).
  { intros f. rewrite (msum_alter _ _ _ _ _ Hi). cbn. lia. }
  split; cbn [ofds pipes tables next_ref set_ofds].
  - intros j d' n' (n0 & Hj & ->)%Hlk. destruct (Hc _ _ _ Hj). rewrite hcount_cons, refs_ofds.
    pose proof (b2z_nonneg (i =? j)). lia.
  - intros j Hj. rewrite lookup_alter. case_decide; [subst; rewrite Hi; by eexists|].
    apply Hl. rewrite hcount_cons, refs_ofds in Hj. destruct (Z.eqb_spec i j); [done|]. cbn in Hj. lia.
  - done.
  - intros j p Hj. unfold readers, writers. cbn [ofds set_ofds]. rewrite !Hrw. by apply Hp.
  - intros j k d' n' (n0 & Hj & _)%Hlk. by eapply He.
  - done.
  - intros j Hj. rewrite lookup_alter_None. by apply Hf.
Qed.

(** A new description, of an end the call has counted. *)
Lemma inv_new held ends d h :
  heap_inv held (d :: ends) h → let '(i, h') := Fds.ofd_new d h in
  heap_inv (i :: held) ends h' ∧ ofds h' !! i = Some (d, 1) ∧ tables h' = tables h.
Proof.
  intros [Hc Hl Ht Hp He Hpr Hf]. unfold Fds.ofd_new, Fds.fresh.
  set (i := next_ref h). destruct (Hf i) as (Hi & _ & _); [lia|].
  assert (Hr : ∀ j, refs j (set_ofds (<[i := (d, 1)]> (ofds (set_next_ref (i + 1) h))) (set_next_ref (i + 1) h)) = refs j h) by done.
  assert (Hz : refs i h + hcount i held = 0).
  { destruct (decide (0 < refs i h + hcount i held)) as [Hlt|]; [apply Hl in Hlt as [? ?]; congruence|].
    pose proof (refs_nonneg i h). pose proof (hcount_nonneg i held). lia. }
  assert (Hs : ∀ f : Description → bool, msum (λ x, b2z (f x.1)) (<[i := (d, 1)]> (ofds h)) = b2z (f d) + msum (λ x, b2z (f x.1)) (ofds h)).
  { intros f. by rewrite msum_insert_new. }
  split_and!; [|cbn; apply lookup_insert_eq|done]. split; cbn [ofds pipes tables next_ref set_ofds set_next_ref].
  - intros j d' n'. rewrite Hr, hcount_cons, lookup_insert_Some. intros [[<- [= <- <-]]|[Hne Hj]].
    + rewrite Z.eqb_refl. cbn. lia.
    + destruct (Hc _ _ _ Hj). rewrite (proj2 (Z.eqb_neq i j)) by done. cbn. lia.
  - intros j. rewrite Hr, hcount_cons, lookup_insert. case_decide; [by eexists|].
    rewrite (proj2 (Z.eqb_neq i j)) by done. cbn. apply Hl.
  - done.
  - intros j p Hj. unfold readers, writers. cbn [ofds set_ofds set_next_ref]. rewrite !Hs.
    specialize (Hp j p Hj). rewrite rsum_cons, wsum_cons in Hp. unfold readers, writers in Hp. lia.
  - intros j k d' n'. rewrite lookup_insert_Some. intros [[<- [= <- <-]]|[_ Hj]] Hd.
    + eapply Hpr; [left|done].
    + by eapply He.
  - intros k d' Hd. apply Hpr. by right.
  - intros j Hj. rewrite lookup_insert_ne by (unfold i in *; lia). apply Hf. unfold i in *. lia.
Qed.

(** What the [Drop] of a description does: it takes its ends off the counts. *)
Lemma drop_frame d h :
  let h' := Fds.drop_description d h in
  ofds h' = ofds h ∧ tables h' = tables h ∧ next_ref h' = next_ref h.
Proof.
  unfold Fds.drop_description. destruct (backing d) as [| | | |? []| | | |s| | | |]; try done.
  by destruct (_ ≫= _).
Qed.

Lemma drop_pipes d h j p' :
  pipes (Fds.drop_description d h) !! j = Some p' →
  ∃ p, pipes h !! j = Some p ∧ p_data p' = p_data p ∧
    p_readers p' = (if is_reader j d then saturating_sub (p_readers p) 1 else p_readers p) ∧
    p_writers p' = (if is_writer j d then saturating_sub (p_writers p) 1 else p_writers p).
Proof.
  unfold Fds.drop_description, is_reader, is_writer.
  destruct (backing d) as [| | | |k []|rx tx| | |s| | | |]; try (by eauto); cbn.
  - destruct (Z.eqb_spec k j) as [<-|]; [|rewrite lookup_alter_ne by done; by eauto].
    rewrite lookup_alter_eq. intros (p & -> & ->)%fmap_Some. by eauto.
  - destruct (Z.eqb_spec k j) as [<-|]; [|rewrite lookup_alter_ne by done; by eauto].
    rewrite lookup_alter_eq. intros (p & -> & ->)%fmap_Some. by eauto.
  - destruct (Z.eqb_spec tx j) as [<-|]; [rewrite lookup_alter_eq|rewrite lookup_alter_ne by done];
      (destruct (Z.eqb_spec rx j) as [<-|] || destruct (Z.eqb_spec rx tx) as [<-|]);
      rewrite ?lookup_alter_eq, ?lookup_alter_ne by done; try (by eauto).
    + rewrite <- option_fmap_compose. intros (p & -> & ->)%fmap_Some. by eauto.
    + intros (p & -> & ->)%fmap_Some. by eauto.
    + intros (p & -> & ->)%fmap_Some. by eauto.
  - destruct (_ ≫= _); by eauto.
Qed.
Lemma drop_pipes_dom d h j : is_Some (pipes h !! j) → is_Some (pipes (Fds.drop_description d h) !! j).
Proof.
  intros Hj. unfold Fds.drop_description.
  destruct (backing d) as [| | | |k []|rx tx| | |s| | | |]; cbn; rewrite ?lookup_alter_is_Some; try done.
  by destruct (_ ≫= _).
Qed.
Lemma drop_pipes_None d h j : pipes h !! j = None → pipes (Fds.drop_description d h) !! j = None.
Proof.
  intros Hj. destruct (pipes (Fds.drop_description d h) !! j) eqn:E; [|done].
  apply drop_pipes in E as (? & ? & _). congruence.
Qed.

Lemma hcount_other held i j : j ≠ i → hcount j (i :: held) = hcount j held.
Proof. intros Hj. rewrite hcount_cons, (proj2 (Z.eqb_neq i j)) by done. done. Qed.

Lemma held_count held ends h i d n :
  heap_inv (i :: held) ends h → ofds h !! i = Some (d, n) → n = 1 + refs i h + hcount i held.
Proof.
  intros Hinv Hi. destruct (hi_count _ _ _ Hinv _ _ _ Hi) as [-> _]. rewrite hcount_cons, Z.eqb_refl. cbn. lia.
Qed.

(** The counts of a pipe after one of its ends, [d], is dropped. *)
Lemma drop_counts ends h i d j p p' :
  ofds h !! i = Some (d, 1) → pipes h !! j = Some p →
  (0 < readers j h + writers j h + rsum j ends + wsum j ends →
    p_readers p = readers j h + rsum j ends ∧ p_writers p = writers j h + wsum j ends) →
  p_readers p' = (if is_reader j d then saturating_sub (p_readers p) 1 else p_readers p) →
  p_writers p' = (if is_writer j d then saturating_sub (p_writers p) 1 else p_writers p) →
  let h' := set_ofds (delete i (ofds h)) h in
  0 < readers j h' + writers j h' + rsum j ends + wsum j ends →
  p_readers p' = readers j h' + rsum j ends ∧ p_writers p' = writers j h' + wsum j ends.
Proof.
  intros Hi Hj Hp Er Ew h' Hpos. rewrite Er, Ew.
  assert (Hr : readers j h' = readers j h - b2z (is_reader j d)) by exact (msum_delete (λ x, b2z (is_reader j x.1)) _ _ _ Hi).
  assert (Hw : writers j h' = writers j h - b2z (is_writer j d)) by exact (msum_delete (λ x, b2z (is_writer j x.1)) _ _ _ Hi).
  pose proof (readers_nonneg j h'). pose proof (writers_nonneg j h').
  pose proof (rsum_nonneg j ends). pose proof (wsum_nonneg j ends).
  destruct Hp as [-> ->]; [destruct (is_reader j d), (is_writer j d); cbn in *; lia|].
  unfold saturating_sub. destruct (is_reader j d), (is_writer j d); cbn in *; lia.
Qed.

Lemma inv_last held ends h i d :
  heap_inv (i :: held) ends h → ofds h !! i = Some (d, 1) →
  heap_inv held ends (Fds.drop_description d (set_ofds (delete i (ofds h)) h)).
Proof.
  intros Hinv Hi. pose proof Hinv as [Hc Hl Ht Hp He Hpr Hf].
  pose proof (held_count _ _ _ _ _ _ Hinv Hi) as Hz. pose proof (refs_nonneg i h). pose proof (hcount_nonneg i held).
  set (h1 := set_ofds (delete i (ofds h)) h). destruct (drop_frame d h1) as (Eo & Et & En).
  assert (Hr : ∀ j, refs j (Fds.drop_description d h1) = refs j h) by (intros j; unfold refs; by rewrite Et).
  split; rewrite ?Eo, ?Et, ?En; cbn [ofds tables next_ref set_ofds h1].
  - intros j d' n' [Hne Hj]%lookup_delete_Some. rewrite Hr, <- (hcount_other held i j) by done. by apply (Hc j d' n').
  - intros j. rewrite Hr. intros Hj. destruct (decide (j = i)) as [->|]; [lia|].
    rewrite lookup_delete_ne by done. apply Hl. by rewrite hcount_other.
  - done.
  - intros j p' Hj. apply drop_pipes in Hj as (p & Hj & _ & Er & Ew). cbn in Hj.
    unfold readers, writers. rewrite Eo. by apply (drop_counts ends h i d j p p' Hi Hj (Hp j p Hj)).
  - intros j k d' n' [_ Hj]%lookup_delete_Some Hk. apply drop_pipes_dom. cbn. by eapply He.
  - intros k d' Hd Hk. apply drop_pipes_dom. cbn. by eapply Hpr.
  - intros j Hj. destruct (Hf j Hj) as (? & ? & ?).
    split_and!; [by apply lookup_delete_None; right|done|by apply drop_pipes_None].
Qed.

Lemma inv_less held ends h i d n :
  heap_inv (i :: held) ends h → ofds h !! i = Some (d, n) → n ≠ 1 →
  heap_inv held ends (set_ofds (<[i := (d, n - 1)]> (ofds h)) h).
Proof.
  intros Hinv Hi Hn. pose proof Hinv as [Hc Hl Ht Hp He Hpr Hf].
  pose proof (held_count _ _ _ _ _ _ Hinv Hi) as Hz. pose proof (refs_nonneg i h). pose proof (hcount_nonneg i held).
  assert (Hs : ∀ f : Description → bool, msum (λ x, b2z (f x.1)) (<[i := (d, n - 1)]> (ofds h)) = msum (λ x, b2z (f x.1)) (ofds h)).
  { intros f. rewrite msum_insert, Hi. cbn. lia. }
  split; cbn [ofds tables next_ref pipes set_ofds].
  - intros j d' n'. rewrite refs_ofds, lookup_insert_Some. intros [[<- [= <- <-]]|[Hne Hj]]; [lia|].
    rewrite <- (hcount_other held i j) by done. by apply (Hc j d' n').
  - intros j Hj. rewrite lookup_insert. case_decide; [by eexists|]. rewrite refs_ofds in Hj.
    apply Hl. by rewrite hcount_other.
  - done.
  - intros j p Hj. unfold readers, writers. cbn [ofds set_ofds]. rewrite !Hs. by apply Hp.
  - intros j k d' n'. rewrite lookup_insert_Some. intros [[<- [= <- <-]]|[_ Hj]] Hk; by eapply He.
  - done.
  - intros j Hj. destruct (Hf j Hj) as (Hj' & ? & ?). split_and!; [|done..].
    rewrite lookup_insert_ne; [done|]. intros ->. congruence.
Qed.

(** The end of an [Rc]. *)
Lemma inv_drop held ends h i :
  heap_inv (i :: held) ends h → heap_inv held ends (Fds.ofd_drop i h).
Proof.
  intros Hinv. unfold Fds.ofd_drop. destruct (hi_live _ _ _ Hinv i) as [[d n] Hi].
  { rewrite hcount_cons, Z.eqb_refl. pose proof (refs_nonneg i h). pose proof (hcount_nonneg i held). cbn. lia. }
  rewrite Hi. destruct (Z.eqb_spec n 1) as [->|Hn]; [by apply inv_last|by apply inv_less].
Qed.

Lemma inv_entries_drop held ends l h :
  heap_inv (map desc l ++ held) ends h → heap_inv held ends (Fds.entries_drop l h).
Proof.
  revert h. induction l as [|e l IH]; intros h; cbn; [done|]. intros Hi. apply IH. by apply inv_drop.
Qed.

(** Ends that will not be made: those of pipes nothing else refers to. *)
Lemma inv_abandon held ends ends' h :
  heap_inv held (ends' ++ ends) h →
  (∀ j d, d ∈ ends' → end_of j d → readers j h = 0 ∧ writers j h = 0 ∧ rsum j ends = 0 ∧ wsum j ends = 0) →
  heap_inv held ends h.
Proof.
  intros [Hc Hl Ht Hp He Hpr Hf] Hz. split; auto.
  - intros j p Hj Hpos.
    assert (rsum j ends' = 0 ∧ wsum j ends' = 0) as [Er Ew].
    { assert (∀ f : Description → bool, (∀ d, d ∈ ends' → f d = false) → lsum (λ d, b2z (f d)) ends' = 0) as Hzero.
      { intros f Hfa. clear -Hfa. induction ends' as [|d l IH]; cbn; [done|].
        rewrite IH, Hfa by set_solver. done. }
      split; apply Hzero; intros d Hd.
      - destruct (is_reader j d) eqn:E; [|done]. destruct (Hz j d Hd); [by right|]. lia.
      - destruct (is_writer j d) eqn:E; [|done]. destruct (Hz j d Hd); [by left|]. lia. }
    specialize (Hp j p Hj). unfold rsum, wsum in *. rewrite !lsum_app, Er, Ew in Hp. lia.
  - intros j d Hd. apply Hpr. set_solver.
Qed.

(** A description that is no end of a pipe needs no count. *)
Lemma inv_plain held ends d h :
  (∀ j, ¬ end_of j d) → heap_inv held ends h → heap_inv held (d :: ends) h.
Proof.
  intros Hd [Hc Hl Ht Hp He Hpr Hf].
  assert (Hno : ∀ j, is_reader j d = false ∧ is_writer j d = false).
  { intros j. specialize (Hd j). unfold end_of in Hd. destruct (is_reader j d), (is_writer j d); tauto. }
  split; auto.
  - intros j p Hj. rewrite rsum_cons, wsum_cons. destruct (Hno j) as [-> ->]. apply Hp, Hj.
  - intros j d' [->|Hin]%elem_of_cons Hj; [by apply Hd in Hj|]. by eapply Hpr.
Qed.

(** * Every operation keeps the invariant *)

(** The result of an operation on table [t]: the invariant, no panic, and the
    table still there. *)
Definition live_table (t : Z) (h : Heap B) : Prop := is_Some (tables h !! t).
Definition op_ok {A} (held : list Z) (ends : list Description) (t : Z) (x : Heap B * res Z A) : Prop :=
  heap_inv held ends x.1 ∧ live_table t x.1 ∧ x.2 ≠ Panic.

Lemma live_put_table t t' x h : live_table t h → live_table t (Fds.put_table t' x h).
Proof. unfold live_table. cbn. by rewrite lookup_alter_is_Some. Qed.
Lemma tables_ofd_drop i h : tables (Fds.ofd_drop i h) = tables h.
Proof.
  unfold Fds.ofd_drop. destruct (ofds h !! i) as [[d n]|]; [|done]. case_if; [|done].
  by destruct (drop_frame d (set_ofds (delete i (ofds h)) h)) as (_ & -> & _).
Qed.
Lemma tables_entries_drop l h : tables (Fds.entries_drop l h) = tables h.
Proof.
  unfold Fds.entries_drop. revert h. induction l as [|e l IH]; intros h; cbn [foldl]; [done|].
  by rewrite IH, tables_ofd_drop.
Qed.

Lemma table_read t h : live_table t h → ∃ x n, tables h !! t = Some (x, n) ∧ Fds.table t h = Ok x.
Proof. intros [[x n] E]. exists x, n. unfold Fds.table. by rewrite E. Qed.

Lemma insert_from_ok held ends t min e h :
  heap_inv (desc e :: held) ends h → live_table t h → 0 ≤ min →
  op_ok held ends t (Fds.insert_from t min e h).
Proof.
  intros Hi Hl Hmin. destruct (table_read _ _ Hl) as (x & n & Et & Er).
  unfold Fds.insert_from, sbind at 1, query at 1. rewrite Er.
  pose proof (insert_from_spec x min e) as Hlow. pose proof (λ i, tcount_insert_from i x min e) as Hc.
  destruct (Table.insert_from x min e) as [x' r]. cbn [fst snd] in Hc.
  destruct Hlow as [Hw Hr]; [by apply (hi_tables _ _ _ Hi t _ Et)|done|].
  unfold sbind, modify, query, op_ok. destruct r as [fd|errno|]; cbn [fst snd]; [| |done].
  - split_and!; [|by apply live_put_table|done]. eapply inv_put_table; [exact Hi|exact Et|exact Hw|].
    intros i. rewrite Hc, hcount_cons. lia.
  - split_and!; [|unfold live_table; rewrite tables_ofd_drop; by apply live_put_table|done].
    apply inv_drop. eapply inv_put_table; [exact Hi|exact Et|exact Hw|]. intros i. rewrite Hc. lia.
Qed.

Lemma zlen_insert_at t fd e : zlen t ≤ FD_LIMIT → zlen (Table.insert_at t fd e).1.1 ≤ FD_LIMIT.
Proof.
  intros. unfold Table.insert_at. destruct (Z.leb_spec FD_LIMIT (as_usize fd)); [done|]. cbn.
  unfold zlen in *. rewrite length_insert, length_pad.
  assert (0 ≤ as_usize fd) by (apply Z.mod_pos_bound, usize_pos). lia.
Qed.

Lemma insert_at_ok held ends t fd e h :
  heap_inv (desc e :: held) ends h → live_table t h → op_ok held ends t (Fds.insert_at t fd e h).
Proof.
  intros Hi Hl. destruct (table_read _ _ Hl) as (x & n & Et & Er).
  unfold Fds.insert_at, sbind at 1, query at 1. rewrite Er.
  pose proof (λ i, tcount_insert_at i x fd e) as Hc. pose proof (zlen_insert_at x fd e) as Hz.
  assert (Hp : match (Table.insert_at x fd e).1.2 with Ok _ => True | Err _ => (Table.insert_at x fd e).2 = None | Panic => False end)
    by (unfold Table.insert_at; by case_if).
  destruct (Table.insert_at x fd e) as [[x' r] old]. cbn [fst snd] in *.
  specialize (Hz (proj1 (hi_tables _ _ _ Hi t _ Et))).
  unfold sbind, modify, query, op_ok. destruct r as [k|errno|]; cbn [fst snd]; [| |done].
  - split_and!; [|unfold live_table; rewrite tables_entries_drop; by apply live_put_table|done].
    apply inv_entries_drop. eapply inv_put_table; [exact Hi|exact Et|exact Hz|].
    intros i. specialize (Hc i). rewrite hcount_cons. destruct old as [o|]; cbn in *; rewrite ?hcount_cons; lia.
  - split_and!; [|unfold live_table; rewrite tables_ofd_drop; by apply live_put_table|done].
    apply inv_drop. eapply inv_put_table; [exact Hi|exact Et|exact Hz|].
    intros i. specialize (Hc i). subst old. cbn in Hc. lia.
Qed.

Lemma close_ok held ends t fd h :
  heap_inv held ends h → live_table t h → op_ok held ends t (Fds.close t fd h).
Proof.
  intros Hi Hl. destruct (table_read _ _ Hl) as (x & n & Et & Er).
  unfold Fds.close, sbind at 1, query at 1. rewrite Er.
  pose proof (λ i, tcount_close i x fd) as Hc.
  assert (Hz : zlen (Table.close x fd).1 = zlen x ∧ (Table.close x fd).2 ≠ Panic).
  { unfold Table.close, zlen. destruct (getz _ _) as [[]|]; cbn; by rewrite ?length_insert. }
  destruct (Table.close x fd) as [x' r]. cbn [fst snd] in *. destruct Hz as [Hz Hp].
  pose proof (proj1 (hi_tables _ _ _ Hi t _ Et)) as Hlim. cbn in Hlim.
  unfold sbind, modify, query, op_ok. destruct r as [e|errno|]; cbn [fst snd]; [| |done].
  - split_and!; [|unfold live_table; rewrite tables_ofd_drop; by apply live_put_table|done].
    apply inv_drop. eapply inv_put_table; [exact Hi|exact Et|lia|]. intros i. rewrite Hc, hcount_cons. lia.
  - split_and!; [|by apply live_put_table|done]. eapply inv_put_table; [exact Hi|exact Et|lia|].
    intros i. rewrite Hc. lia.
Qed.

Lemma hcount_entries i l held :
  hcount i (map desc l ++ held) = lsum (λ e, b2z (desc e =? i)) l + hcount i held.
Proof. induction l as [|e l IH]; cbn; [done|]. rewrite hcount_cons, IH. lia. Qed.

Lemma close_cloexec_ok held ends t h :
  heap_inv held ends h → live_table t h → op_ok held ends t (Fds.close_cloexec t h).
Proof.
  intros Hi Hl. destruct (table_read _ _ Hl) as (x & n & Et & Er).
  unfold Fds.close_cloexec, sbind at 1, query at 1. rewrite Er.
  pose proof (λ i, tcount_cloexec i x) as Hc.
  assert (Hz : zlen (Table.close_cloexec x).1 = zlen x) by (unfold zlen; cbn; by rewrite length_map).
  destruct (Table.close_cloexec x) as [x' gone]. cbn [fst snd] in *.
  pose proof (proj1 (hi_tables _ _ _ Hi t _ Et)) as Hlim. cbn in Hlim.
  unfold sbind, modify, op_ok. cbn [fst snd].
  split_and!; [|unfold live_table; rewrite tables_entries_drop; by apply live_put_table|done].
  apply inv_entries_drop. eapply inv_put_table; [exact Hi|exact Et|lia|].
  intros i. rewrite hcount_entries, Hc. lia.
Qed.

(** The entry a descriptor names is live. *)
Lemma entry_live held ends h t x n e :
  heap_inv held ends h → tables h !! t = Some (x, n) → Some e ∈ x → is_Some (ofds h !! desc e).
Proof.
  intros Hi Et He. apply (hi_live _ _ _ Hi).
  assert (0 < tcount (desc e) x).
  { unfold tcount. apply lsum_pos; [apply refers_nonneg|]. exists (Some e). cbn. by rewrite Z.eqb_refl. }
  assert (0 < refs (desc e) h); [|pose proof (hcount_nonneg (desc e) held); lia].
  unfold refs. apply msum_pos; [intros; apply tcount_nonneg|]. by exists t, (x, n).
Qed.

Lemma table_get_elem x fd e : Table.get x fd = Ok e → Some e ∈ x.
Proof.
  unfold Table.get. destruct (getz x (as_usize fd)) as [[e'|]|] eqn:E; cbn; [|done..]. intros [= ->].
  apply getz_Some in E as [_ E]. by eapply list_elem_of_lookup_2.
Qed.

Lemma sys_dup_ok held ends t fd min ce h :
  heap_inv held ends h → live_table t h → op_ok held ends t (Fds.sys_dup t fd min ce h).
Proof.
  intros Hi Hl. destruct (table_read _ _ Hl) as (x & n & Et & Er).
  unfold Fds.sys_dup, sbind at 1, Fds.get, query. rewrite Er. cbn [rbind].
  destruct (Table.get x fd) as [e|errno|] eqn:Eg; [|by split_and!|].
  2:{ unfold Table.get in Eg. by destruct (mjoin _). }
  unfold sbind, modify. apply insert_from_ok; [|by apply lookup_alter_is_Some || done|].
  - cbn [desc]. apply inv_clone; [done|]. by eapply entry_live, table_get_elem.
  - apply Z.mod_pos_bound, usize_pos.
Qed.

Lemma sys_dup2_ok held ends t fd new ce h :
  heap_inv held ends h → live_table t h → op_ok held ends t (Fds.sys_dup2 t fd new ce h).
Proof.
  intros Hi Hl. destruct (table_read _ _ Hl) as (x & n & Et & Er).
  unfold Fds.sys_dup2, sbind at 1, Fds.get, query. rewrite Er. cbn [rbind].
  destruct (Table.get x fd) as [e|errno|] eqn:Eg; [|by split_and!|].
  2:{ unfold Table.get in Eg. by destruct (mjoin _). }
  case_if; [by split_and!|]. unfold sbind, modify. apply insert_at_ok; [|done].
  cbn [desc]. apply inv_clone; [done|]. by eapply entry_live, table_get_elem.
Qed.
End invariant.
