(* ===== verification/FdSteps.v ===== *)
(** Sequences of descriptor calls: pipes report end of file and a broken pipe
    exactly when the last descriptor of the other end is closed, over any
    interleaving of [dup], [close], [fork], [execve], [exit], [pipe] and
    transfers by the processes that share the tables. *)

From S2P Require Import Prelude Abi Net Fd FdInv.

Section ops.
Context `{Host} {B : Type} `{NetworkBroker B}.
Implicit Types h : Heap B.

Lemma lsum_alter {A} (g : A → Z) f l k : (∀ x, g (f x) = g x) → lsum g (alter f k l) = lsum g l.
Proof. intros Hf. revert k. induction l as [|x l IH]; intros [|k]; cbn; rewrite ?Hf; try lia. by rewrite IH. Qed.

Lemma set_cloexec_ok held ends t fd ce h :
  heap_inv held ends h → live_table t h →
  op_ok held ends t ((do! x <- query (Fds.table t) in modify (Fds.put_table t (Fds.set_cloexec fd ce x))) h).
Proof.
  intros Hi Hl. destruct (table_read _ _ Hl) as (x & n & Et & Er). unfold sbind, query. rewrite Er.
  split_and!; [|by apply live_put_table|done]. cbn. eapply inv_put_table; [exact Hi|exact Et| |].
  - unfold zlen, Fds.set_cloexec. rewrite length_alter. by apply (hi_tables _ _ _ Hi t _ Et).
  - intros i. f_equal. apply lsum_alter. by intros [].
Qed.

Lemma ignore_ok {A} held ends t (m : stm (Heap B) Z A) h :
  op_ok held ends t (m h) → op_ok held ends t (Fds.ignore m h).
Proof. unfold op_ok, Fds.ignore. intros (? & ? & ?). by destruct (m h) as [h' []]. Qed.

Lemma each_ok held ends t f l h :
  (∀ i h, heap_inv held ends h → live_table t h → op_ok held ends t (f i h)) →
  heap_inv held ends h → live_table t h → op_ok held ends t (Fds.each f l h).
Proof.
  intros Hf. revert h. induction l as [|i l IH]; intros h Hi Hl; cbn [Fds.each]; [by split_and!|].
  unfold sbind. destruct (Hf i h Hi Hl) as (H1 & H2 & H3). destruct (f i h) as [h' []]; cbn in *; [by apply IH| |done].
  by split_and!.
Qed.

Lemma sys_close_range_ok held ends t a b fl h :
  heap_inv held ends h → live_table t h → op_ok held ends t (Fds.sys_close_range t a b fl h).
Proof.
  intros Hi Hl. unfold Fds.sys_close_range. case_if; [by split_and!|].
  destruct (table_read _ _ Hl) as (x & n & Et & Er). unfold sbind at 1, query at 1. rewrite Er.
  match goal with |- context [Fds.each ?f ?l] => pose proof (each_ok held ends t f l h) as He end.
  unfold sbind at 1. destruct He as (H1 & H2 & H3); [|done..|].
  - intros i h' Hi' Hl'. case_if; [by apply set_cloexec_ok|]. apply ignore_ok. by apply close_ok.
  - destruct (Fds.each _ _ h) as [h' []]; cbn in *; by split_and!.
Qed.

Lemma install_ok held ends t b fl ce h :
  heap_inv held ({| backing := b; offset := 0; flags := fl |} :: ends) h → live_table t h →
  op_ok held ends t (Fds.install_fd t b fl ce h).
Proof.
  intros Hi Hl. unfold Fds.install_fd. pose proof (inv_new _ _ _ _ Hi) as Hn.
  destruct (Fds.ofd_new _ h) as [i h']. destruct Hn as (Hi' & _ & Et).
  apply insert_from_ok; [done|unfold live_table; by rewrite Et|lia].
Qed.

(** A refused installation leaves no description behind. *)
Lemma install_err held ends t b fl ce h h' e :
  heap_inv held ends h → live_table t h → Fds.install_fd t b fl ce h = (h', Err e) → ofds h' = ofds h.
Proof.
  intros Hi Hl. destruct (hi_fresh _ _ _ Hi (next_ref h)) as (Hf & _ & _); [lia|].
  destruct Hl as [[x n] Et].
  unfold Fds.install_fd, Fds.ofd_new, Fds.fresh, Fds.insert, Fds.insert_from, sbind, query, modify, Fds.table.
  cbn [tables set_ofds set_next_ref]. rewrite Et. cbn [fmap option_fmap option_map fst expect].
  destruct (Table.insert_from x 0 _) as [x' [|e'|]]; cbn; [done| |done]. intros [= <- _].
  unfold Fds.ofd_drop. cbn. rewrite lookup_insert_eq. cbn.
  match goal with |- ofds (Fds.drop_description ?d ?h) = _ => destruct (drop_frame d h) as (-> & _ & _) end.
  cbn. by rewrite delete_insert_eq, delete_id.
Qed.

(** * Pipes *)
Lemma unused_pipe held ends h j :
  heap_inv held ends h → pipes h !! j = None →
  readers j h = 0 ∧ writers j h = 0 ∧ rsum j ends = 0 ∧ wsum j ends = 0.
Proof.
  intros [_ _ _ _ He Hpr _] Hj.
  assert (Hm : ∀ f : Description → bool, (∀ d, f d = true → end_of j d) → msum (λ x, b2z (f x.1)) (ofds h) = 0).
  { intros f Hf. pose proof (msum_nonneg (λ x : Description * Z, b2z (f x.1)) (ofds h) (λ x, b2z_nonneg _)).
    destruct (decide (0 < msum (λ x, b2z (f x.1)) (ofds h))) as [Hp|]; [|lia].
    apply msum_pos in Hp as (k & [d n] & Hk & Hd); [|intros; apply b2z_nonneg].
    cbn in Hd. destruct (f d) eqn:E; [|done]. destruct (He k j d n Hk (Hf d E)). congruence. }
  assert (Hl : ∀ f : Description → bool, (∀ d, f d = true → end_of j d) → lsum (λ d, b2z (f d)) ends = 0).
  { intros f Hf. pose proof (lsum_nonneg (λ d, b2z (f d)) ends (λ x, b2z_nonneg _)).
    destruct (decide (0 < lsum (λ d, b2z (f d)) ends)) as [Hp|]; [|lia].
    apply lsum_pos in Hp as (d & Hd & Hp); [|intros; apply b2z_nonneg].
    destruct (f d) eqn:E; [|done]. destruct (Hpr j d Hd (Hf d E)). congruence. }
  split_and!; [apply Hm|apply Hm|apply Hl|apply Hl]; unfold end_of; auto.
Qed.

Lemma inv_pipe_new held ends h :
  heap_inv held ends h → let '(i, h') := Fds.pipe_new h in
  i = next_ref h ∧ heap_inv held ends h' ∧ ofds h' = ofds h ∧ tables h' = tables h ∧ next_ref h' = i + 1 ∧
  pipes h' = <[i := {| p_data := []; p_readers := 1; p_writers := 1; p_activity := 0 |}]> (pipes h).
Proof.
  intros Hinv. pose proof Hinv as [Hc Hl Ht Hp He Hpr Hf]. unfold Fds.pipe_new, Fds.fresh. split_and!; try done.
  destruct (Hf (next_ref h)) as (_ & _ & Hn); [lia|].
  split; cbn [ofds tables pipes next_ref set_pipes set_next_ref]; auto.
  - intros j p. rewrite lookup_insert_Some. intros [[<- _]|[_ Hj]] Hpos; [|by apply (Hp j p Hj)].
    destruct (unused_pipe _ _ _ _ Hinv Hn) as (? & ? & ? & ?). unfold readers, writers in *.
    cbn [ofds set_pipes set_next_ref] in Hpos. lia.
  - intros i j d n Hi Hd. rewrite lookup_insert_is_Some'. right. by eapply He.
  - intros j d Hin Hd. rewrite lookup_insert_is_Some'. right. by eapply Hpr.
  - intros i Hi. destruct (Hf i) as (? & ? & ?); [lia|]. rewrite lookup_insert_ne by lia. done.
Qed.

(** Promising the ends of unused pipes whose counts already include them. *)
Lemma inv_promise held ends E h :
  heap_inv held ends h →
  (∀ j d, d ∈ E → end_of j d → ∃ p, pipes h !! j = Some p ∧ p_readers p = rsum j E ∧ p_writers p = wsum j E ∧
     readers j h = 0 ∧ writers j h = 0 ∧ rsum j ends = 0 ∧ wsum j ends = 0) →
  heap_inv held (E ++ ends) h.
Proof.
  intros [Hc Hl Ht Hp He Hpr Hf] HE. split; auto.
  - intros j p Hj Hpos. rewrite rsum_app, wsum_app in *.
    destruct (decide (0 < rsum j E + wsum j E)) as [Hin|Hno].
    + assert (∃ d, d ∈ E ∧ end_of j d) as (d & Hd & Hed).
      { destruct (decide (0 < rsum j E)) as [Hr|Hr].
        - apply lsum_pos in Hr as (d & Hd & Hr); [|intros; apply b2z_nonneg]. exists d. split; [done|].
          right. by destruct (is_reader j d).
        - assert (0 < wsum j E) as Hw by (pose proof (rsum_nonneg j E); lia).
          apply lsum_pos in Hw as (d & Hd & Hw); [|intros; apply b2z_nonneg]. exists d. split; [done|].
          left. by destruct (is_writer j d). }
      destruct (HE j d Hd Hed) as (p0 & Hj0 & ? & ? & ? & ? & ? & ?).
      rewrite Hj0 in Hj. injection Hj as ->. lia.
    + pose proof (rsum_nonneg j E). pose proof (wsum_nonneg j E). specialize (Hp j p Hj). lia.
  - intros j d [Hd|Hd]%elem_of_app Hed; [|by eapply Hpr]. destruct (HE j d Hd Hed) as (p & -> & _). by eexists.
Qed.

Definition rd_end (i fl : Z) : Description := {| backing := BPipe i false; offset := 0; flags := fl |}.
Definition wr_end (i fl : Z) : Description := {| backing := BPipe i true; offset := 0; flags := fl |}.

Lemma end_of_rd i j fl : end_of j (rd_end i fl) → j = i.
Proof. unfold end_of. cbn. destruct (Z.eqb_spec i j); naive_solver. Qed.
Lemma end_of_wr i j fl : end_of j (wr_end i fl) → j = i.
Proof. unfold end_of. cbn. destruct (Z.eqb_spec i j); naive_solver. Qed.

(** Installing two ends of fresh pipes: if the first is refused, nothing
    refers to the pipes and the second end is never made. *)
Lemma install_two_ok t b1 f1 b2 f2 ce h :
  let d1 := {| backing := b1; offset := 0; flags := f1 |} in
  let d2 := {| backing := b2; offset := 0; flags := f2 |} in
  heap_inv [] [d1; d2] h → heap_inv [] [] h → live_table t h →
  (∀ j, end_of j d2 → readers j h = 0 ∧ writers j h = 0) →
  op_ok [] [] t ((do! r <- Fds.install_fd t b1 f1 ce in
    do! w <- Fds.install_fd t b2 f2 ce in sret (r, w)) h).
Proof.
  intros d1 d2 Hi Hi0 Hl Hz. unfold sbind at 1. pose proof (install_ok _ _ _ _ _ ce _ Hi Hl) as Ho.
  destruct (Fds.install_fd t b1 f1 ce h) as [h1 [r|e|]] eqn:E1; destruct Ho as (H1 & H2 & H3); cbn [fst snd] in *; [| |done].
  - unfold sbind. pose proof (install_ok _ _ _ _ _ ce _ H1 H2) as Ho.
    destruct (Fds.install_fd t b2 f2 ce h1) as [h2 [w|e|]]; destruct Ho as (? & ? & ?); by split_and!.
  - split_and!; [|done..]. cbn. apply (inv_abandon [] [] [d2]); [done|]. intros j d Hin%list_elem_of_singleton Hd. subst d.
    apply install_err with (held := []) (ends := []) in E1 as Eo; [|done..]. unfold readers, writers. rewrite Eo.
    destruct (Hz j Hd). by split_and!.
Qed.

Lemma pipe_fds_ok t fl h :
  heap_inv [] [] h → live_table t h → op_ok [] [] t (Fds.pipe_fds t fl h).
Proof.
  intros Hi Hl. unfold Fds.pipe_fds. pose proof (inv_pipe_new _ _ _ Hi) as Hp.
  destruct (hi_fresh _ _ _ Hi (next_ref h)) as (_ & _ & Hn); [lia|].
  destruct (unused_pipe _ _ _ _ Hi Hn) as (Hr & Hw & _ & _).
  destruct (Fds.pipe_new h) as [i h1]. destruct Hp as (-> & Hi1 & Eo & Et & _ & Ep). cbv zeta.
  set (f1 := Z.lor O_RDONLY _). set (f2 := Z.lor O_WRONLY _).
  apply install_two_ok; [|done|unfold live_table; by rewrite Et|].
  - apply (inv_promise [] [] [rd_end (next_ref h) f1; wr_end (next_ref h) f2]); [done|].
    intros j d Hd Hed. assert (j = next_ref h) as ->.
    { apply elem_of_cons in Hd as [->|Hd%list_elem_of_singleton]; [by eapply end_of_rd|subst d; by eapply end_of_wr]. }
    eexists. rewrite Ep, lookup_insert_eq. split; [done|].
    unfold rsum, wsum, readers, writers in *. rewrite Eo. cbn. rewrite Z.eqb_refl. by split_and!.
  - intros j Hj%end_of_wr. subst j. unfold readers, writers in *. by rewrite Eo.
Qed.

Lemma socketpair_fds_ok t dom ty h :
  heap_inv [] [] h → live_table t h → op_ok [] [] t (Fds.socketpair_fds t dom ty h).
Proof.
  intros Hi Hl. unfold Fds.socketpair_fds. case_if; [by split_and!|]. cbv zeta. case_if; [by split_and!|].
  pose proof (inv_pipe_new _ _ _ Hi) as Hp.
  assert (Hz : ∀ j, next_ref h ≤ j → readers j h = 0 ∧ writers j h = 0).
  { intros j Hj. destruct (hi_fresh _ _ _ Hi j Hj) as (_ & _ & Hn). by destruct (unused_pipe _ _ _ _ Hi Hn) as (? & ? & _). }
  destruct (Fds.pipe_new h) as [ab h1]. destruct Hp as (Ea & Hi1 & Eo1 & Et1 & En1 & Ep1).
  pose proof (inv_pipe_new _ _ _ Hi1) as Hp. destruct (Fds.pipe_new h1) as [ba h2].
  destruct Hp as (Eb & Hi2 & Eo2 & Et2 & En2 & Ep2). rewrite En1 in Eb.
  assert (Hends : ∀ j rx tx, end_of j {| backing := BSocketPair rx tx; offset := 0; flags := O_RDWR |} → j = rx ∨ j = tx).
  { intros j rx tx. unfold end_of. cbn. destruct (Z.eqb_spec rx j), (Z.eqb_spec tx j); naive_solver. }
  apply install_two_ok; [|done|unfold live_table; by rewrite Et2, Et1|].
  - set (d1 := {| backing := BSocketPair ba ab; offset := 0; flags := O_RDWR |}).
    set (d2 := {| backing := BSocketPair ab ba; offset := 0; flags := O_RDWR |}).
    apply (inv_promise [] [] [d1; d2]); [done|]. intros j d Hd Hed.
    assert (j = ab ∨ j = ba) as Hj.
    { apply elem_of_cons in Hd as [->|Hd%list_elem_of_singleton]; [|subst d]; apply Hends in Hed; tauto. }
    assert (∃ p, pipes h2 !! j = Some p ∧ p_readers p = 1 ∧ p_writers p = 1) as (p & Ej & E1 & E2).
    { rewrite Ep2, Ep1. destruct Hj as [-> | ->]; [rewrite lookup_insert_ne by lia|]; rewrite lookup_insert_eq; eauto. }
    assert (readers j h2 = 0 ∧ writers j h2 = 0) as [-> ->].
    { unfold readers, writers. rewrite Eo2, Eo1. apply Hz. lia. }
    exists p. split; [done|]. rewrite E1, E2. unfold rsum, wsum. cbn.
    destruct Hj as [-> | ->]; rewrite !Z.eqb_refl, ?(proj2 (Z.eqb_neq ab ba)), ?(proj2 (Z.eqb_neq ba ab)) by lia; by split_and!.
  - intros j Hj%Hends. unfold readers, writers. rewrite Eo2, Eo1. apply Hz. lia.
Qed.

(** * Tables: start, fork, threads, exit *)
Lemma inv_table_insert held h x held' :
  heap_inv held [] h → zlen x ≤ FD_LIMIT → (∀ i, hcount i held = tcount i x + hcount i held') →
  heap_inv held' [] (set_tables (<[next_ref h := (x, 1)]> (tables h)) (set_next_ref (next_ref h + 1) h)).
Proof.
  intros Hi Hx Hc. destruct (hi_fresh _ _ _ Hi (next_ref h)) as (_ & Hn & _); [lia|].
  eapply inv_transfer; [exact Hi|done|done|cbn; lia| | |].
  - intros i. unfold refs. cbn [tables set_tables]. rewrite msum_insert_new by done. rewrite (Hc i). cbn. lia.
  - intros j y. cbn. rewrite lookup_insert_Some. intros [[_ <-]|[_ Hj]]; [cbn; split; [done|lia]|].
    by apply (hi_tables _ _ _ Hi j).
  - intros i Hle. cbn in *. rewrite lookup_insert_ne by lia. by apply (hi_fresh _ _ _ Hi i); lia.
Qed.

Lemma std_entry_ok held s h :
  heap_inv held [] h → let '(e, h') := Fds.std_entry s h in
  ∃ i, e = Some {| desc := i; cloexec := false |} ∧ heap_inv (i :: held) [] h'.
Proof.
  intros Hi. unfold Fds.std_entry. set (d := {| backing := BStd s; offset := 0; flags := _ |}).
  assert (heap_inv held [d] h) as Hd by (apply inv_plain; [by intros j [|]|done]).
  pose proof (inv_new _ _ _ _ Hd) as Hn. destruct (Fds.ofd_new d h) as [i h']. exists i. split; [done|apply Hn].
Qed.

Lemma table_new_ok h : heap_inv [] [] h → heap_inv [] [] (Fds.table_new h).2.
Proof.
  intros Hi. unfold Fds.table_new. pose proof (std_entry_ok _ StdIn _ Hi) as H1.
  destruct (Fds.std_entry StdIn h) as [a h1]. destruct H1 as (i1 & -> & H1).
  pose proof (std_entry_ok _ StdOut _ H1) as H2. destruct (Fds.std_entry StdOut h1) as [b h2]. destruct H2 as (i2 & -> & H2).
  pose proof (std_entry_ok _ StdErr _ H2) as H3. destruct (Fds.std_entry StdErr h2) as [c h3]. destruct H3 as (i3 & -> & H3).
  unfold Fds.fresh. cbn [snd]. refine (inv_table_insert _ h3 _ [] H3 _ _); [done|].
  intros i. rewrite !hcount_cons. unfold tcount, hcount. cbn. lia.
Qed.

Lemma clone_entries_ok held l h :
  heap_inv held [] h → Forall (λ e, is_Some (ofds h !! desc e)) l →
  let h' := foldl (λ h e, Fds.ofd_clone (desc e) h) h l in
  ∃ held', heap_inv held' [] h' ∧ (∀ i, hcount i held' = lsum (λ e, b2z (desc e =? i)) l + hcount i held) ∧
    tables h' = tables h.
Proof.
  revert held h. induction l as [|e l IH]; intros held h Hi Hl; cbn [foldl]; [by exists held|].
  inversion_clear Hl as [|? ? He Hl']. destruct (IH (desc e :: held) (Fds.ofd_clone (desc e) h)) as (held' & H1 & H2 & H3).
  - by apply inv_clone.
  - eapply Forall_impl; [exact Hl'|]. intros e' ?. cbn. by rewrite lookup_alter_is_Some.
  - exists held'. split_and!; [done| |done]. intros i. rewrite H2, hcount_cons. cbn. lia.
Qed.

Lemma table_clone_ok t h : heap_inv [] [] h → live_table t h → op_ok [] [] t (Fds.table_clone t h).
Proof.
  intros Hi Hl. destruct (table_read _ _ Hl) as (x & n & Et & Er).
  unfold Fds.table_clone, sbind, query, modify. rewrite Er. cbn [fst snd].
  destruct (clone_entries_ok [] (omap id x) h) as (held' & H1 & H2 & H3); [done| |].
  - apply Forall_forall. intros e He. apply list_elem_of_omap in He as (s & Hs & Es). cbn in Es. subst s. by eapply entry_live.
  - set (h' := foldl _ h (omap id x)) in *. unfold Fds.fresh. split_and!; [|unfold live_table|done]; cbn [fst].
    + refine (inv_table_insert _ h' _ [] H1 _ _); [by apply (hi_tables _ _ _ Hi t _ Et)|].
      intros i. by rewrite H2, tcount_entries.
    + cbn. rewrite H3. apply lookup_insert_is_Some'. by right.
Qed.

Lemma table_share_ok t h : heap_inv [] [] h → heap_inv [] [] (Fds.table_share t h).
Proof.
  intros Hi. unfold Fds.table_share. eapply inv_transfer; [exact Hi|done|done|cbn; lia| | |].
  - intros i. f_equal. unfold refs. cbn [tables set_tables]. destruct (tables h !! t) as [y|] eqn:E.
    + rewrite (msum_alter _ _ _ _ _ E). cbn. lia.
    + f_equal. apply map_eq. intros j. rewrite lookup_alter. case_decide; [subst; by rewrite E|done].
  - intros j y. cbn. rewrite lookup_alter_Some. intros [(<- & z & Hz & ->)|[_ Hj]]; [|by apply (hi_tables _ _ _ Hi j)].
    destruct (hi_tables _ _ _ Hi t _ Hz). cbn. lia.
  - intros i Hle. cbn in *. apply lookup_alter_None. by apply (hi_fresh _ _ _ Hi i).
Qed.

Lemma table_drop_ok t h : heap_inv [] [] h → heap_inv [] [] (Fds.table_drop t h).
Proof.
  intros Hi. unfold Fds.table_drop. destruct (tables h !! t) as [[x n]|] eqn:E; [|done].
  destruct (hi_tables _ _ _ Hi t _ E) as [Hx Hn]. cbn in Hx, Hn. destruct (Z.eqb_spec n 1) as [->|Hne].
  - apply inv_entries_drop. eapply inv_transfer; [exact Hi|done|done|cbn; lia| | |].
    + intros i. rewrite hcount_entries, <- tcount_entries. unfold refs. cbn [tables set_tables].
      rewrite (msum_delete _ _ _ _ E). cbn. lia.
    + intros j y. cbn. intros [_ Hj]%lookup_delete_Some. by apply (hi_tables _ _ _ Hi j).
    + intros i Hle. cbn in *. apply lookup_delete_None. right. by apply (hi_fresh _ _ _ Hi i).
  - eapply inv_transfer; [exact Hi|done|done|cbn; lia| | |].
    + intros i. f_equal. unfold refs. cbn [tables set_tables]. rewrite msum_insert, E. cbn. lia.
    + intros j y. cbn. rewrite lookup_insert_Some. intros [[_ <-]|[_ Hj]]; [cbn; lia|]. by apply (hi_tables _ _ _ Hi j).
    + intros i Hle. cbn in *. apply lookup_insert_None. split; [by apply (hi_fresh _ _ _ Hi i)|].
      intros ->. destruct (hi_fresh _ _ _ Hi i Hle) as (_ & ? & _). congruence.
Qed.

(** A transfer changes the bytes and the activity of a pipe, not its ends. *)
Definition with_data (l : bytes) (a : Z) (p : PipeInner) : PipeInner :=
  {| p_data := l; p_readers := p_readers p; p_writers := p_writers p; p_activity := a |}.
Lemma transfer_ok i l a h : heap_inv [] [] h → heap_inv [] [] (set_pipes (alter (with_data l a) i (pipes h)) h).
Proof.
  intros [Hc Hl Ht Hp He Hpr Hf]. split; cbn; auto.
  - intros j p. rewrite lookup_alter_Some. intros [(<- & z & Hz & ->)|[_ Hj]] Hpos; [by apply (Hp i z Hz)|by apply (Hp j p Hj)].
  - intros. apply lookup_alter_is_Some. by eapply He.
  - by intros j d ?%elem_of_nil.
  - intros j Hj. rewrite lookup_alter_None. by apply Hf.
Qed.
End ops.

(** * Any sequence of calls *)
Inductive fd_call :=
| FDup (t fd min : Z) (ce : bool)
| FDup2 (t fd new_fd : Z) (ce : bool)
| FClose (t fd : Z)
| FCloseRange (t first_ last_ fl : Z)
| FPipe (t fl : Z)
| FSocketpair (t domain ty : Z)
| FInstall (t : Z) (b : Backing) (fl : Z) (ce : bool)
| FExec (t : Z)
| FFork (t : Z)
| FThread (t : Z)
| FExit (t : Z)
| FStart
| FTransfer (pipe : Z) (data : bytes) (activity : Z).

Section steps.
Context `{Host} {B : Type} `{NetworkBroker B}.
Implicit Types h : Heap B.

(** The heap a call leaves, and whether it returned to its caller. *)
Definition returned {A} (x : Heap B * res Z A) : Heap B * bool :=
  (x.1, match x.2 with Panic => false | _ => true end).
Definition exec_fd (c : fd_call) (h : Heap B) : Heap B * bool :=
  match c with
  | FDup t fd min ce => returned (Fds.sys_dup t fd min ce h)
  | FDup2 t fd new ce => returned (Fds.sys_dup2 t fd new ce h)
  | FClose t fd => returned (Fds.close t fd h)
  | FCloseRange t a b fl => returned (Fds.sys_close_range t a b fl h)
  | FPipe t fl => returned (Fds.pipe_fds t fl h)
  | FSocketpair t d ty => returned (Fds.socketpair_fds t d ty h)
  | FInstall t b fl ce => returned (Fds.install_fd t b fl ce h)
  | FExec t => returned (Fds.close_cloexec t h)
  | FFork t => returned (Fds.table_clone t h)
  | FThread t => (Fds.table_share t h, true)
  | FExit t => (Fds.table_drop t h, true)
  | FStart => ((Fds.table_new h).2, true)
  | FTransfer i l a => (set_pipes (alter (with_data l a) i (pipes h)) h, true)
  end.

(** A call is made through a live table; what is installed besides the two
    calls above is no end of a pipe. *)
Definition fd_call_ok (c : fd_call) (h : Heap B) : Prop :=
  match c with
  | FDup t _ _ _ | FDup2 t _ _ _ | FClose t _ | FCloseRange t _ _ _ | FPipe t _ | FSocketpair t _ _
  | FExec t | FFork t | FThread t | FExit t => live_table t h
  | FInstall t b _ _ => live_table t h ∧ match b with BPipe _ _ | BSocketPair _ _ => False | _ => True end
  | FStart | FTransfer _ _ _ => True
  end.

Inductive fd_steps : Heap B → Heap B → Prop :=
| fd_done h : fd_steps h h
| fd_more c h h' : fd_call_ok c h → fd_steps (exec_fd c h).1 h' → fd_steps h h'.

Definition heap_new (b : B) : Heap B :=
  {| ofds := ∅; pipes := ∅; ptys := ∅; events := ∅; timers := ∅; inotifies := ∅; sockets := ∅; epolls := ∅;
     tables := ∅; broker := b; next_ref := 0 |}.

Lemma heap_new_inv b : heap_inv [] [] (heap_new b).
Proof.
  split; try done.
  by intros j d ?%elem_of_nil.
Qed.

Lemma exec_fd_ok c h : heap_inv [] [] h → fd_call_ok c h → heap_inv [] [] (exec_fd c h).1 ∧ (exec_fd c h).2 = true.
Proof.
  intros Hi Hc.
  assert (Hret : ∀ t {A} (x : Heap B * res Z A), op_ok [] [] t x → heap_inv [] [] (returned x).1 ∧ (returned x).2 = true).
  { intros t A x (? & _ & ?). split; [done|]. cbn. by destruct (x.2). }
  destruct c as [t fd min ce|t fd new ce|t fd|t a b fl|t fl|t d ty|t b fl ce|t|t|t|t| |i l a]; cbn [exec_fd fd_call_ok] in *;
    [apply (Hret t)..|split; [by apply table_share_ok|done]|split; [by apply table_drop_ok|done]
    |split; [by apply table_new_ok|done]|split; [by apply transfer_ok|done]];
    auto using sys_dup_ok, sys_dup2_ok, close_ok, sys_close_range_ok, pipe_fds_ok, socketpair_fds_ok,
      close_cloexec_ok, table_clone_ok.
  destruct Hc as [Hl Hb]. apply install_ok; [|done]. apply inv_plain; [|done].
  intros j [Hj|Hj]; unfold is_writer, is_reader in Hj; cbn in Hj; by destruct b.
Qed.

Lemma fd_steps_inv h h' : heap_inv [] [] h → fd_steps h h' → heap_inv [] [] h'.
Proof. intros Hi Hs. induction Hs as [|c h h' Hc Hs IH]; [done|]. apply IH. by apply exec_fd_ok. Qed.

(** Some descriptor of some table is such an end. *)
Definition has_end (f : Description → bool) (h : Heap B) : Prop :=
  ∃ t x n e d m, tables h !! t = Some (x, n) ∧ Some e ∈ x ∧ ofds h !! desc e = Some (d, m) ∧ f d = true.

Lemma ends_pos f h :
  heap_inv [] [] h → 0 < msum (λ x, b2z (f x.1)) (ofds h) ↔ has_end f h.
Proof.
  intros Hi. rewrite msum_pos by (intros; apply b2z_nonneg). split.
  - intros (k & [d m] & Hk & Hf). destruct (hi_count _ _ _ Hi _ _ _ Hk) as [Hm Hp]. unfold hcount in Hm. cbn in Hm.
    assert (0 < refs k h) as Hr0 by lia.
    apply msum_pos in Hr0 as (t & [x n] & Ht & Hx); [|intros; apply tcount_nonneg].
    apply lsum_pos in Hx as ([e|] & He & Hr); [| |apply refers_nonneg]; cbn in Hr; [|lia].
    destruct (Z.eqb_spec (desc e) k) as [<-|]; [|cbn in Hr; lia].
    exists t, x, n, e, d, m. cbn in Hf. split_and!; [done..|]. by destruct (f d).
  - intros (t & x & n & e & d & m & Ht & He & Hd & Hf). exists (desc e), (d, m). split; [done|]. cbn. rewrite Hf. cbn. lia.
Qed.
End steps.

(** C21. End of file and broken pipe are exact: after any sequence of
    descriptor calls from an empty heap, no call panics, and for a pipe that
    still has a descriptor of its read end, the writer count is zero exactly
    when no descriptor of any table refers to its write end; likewise for the
    reader count. So a reader sees end of file, and a writer [EPIPE], exactly
    when the last descriptor of the other end is gone, whatever was duplicated,
    inherited across [fork], closed by [execve] or released by [exit]. *)
Theorem pipe_ends_exact `{Host} {B : Type} `{NetworkBroker B} (b : B) h i p :
  fd_steps (heap_new b) h → pipes h !! i = Some p →
  (∀ c, fd_call_ok c h → (exec_fd c h).2 = true) ∧
  (has_end (is_reader i) h → (p_writers p = 0 ↔ ¬ has_end (is_writer i) h)) ∧
  (has_end (is_writer i) h → (p_readers p = 0 ↔ ¬ has_end (is_reader i) h)).
Proof.
  intros Hs Hp. assert (heap_inv [] [] h) as Hi by (eapply fd_steps_inv; [apply heap_new_inv|exact Hs]).
  pose proof (ends_pos (is_reader i) h Hi) as Hr. pose proof (ends_pos (is_writer i) h Hi) as Hw.
  fold (readers i h) in Hr. fold (writers i h) in Hw.
  pose proof (hi_pipes _ _ _ Hi i p Hp) as Hc. unfold rsum, wsum in Hc. cbn in Hc.
  pose proof (readers_nonneg i h). pose proof (writers_nonneg i h). split_and!.
  - intros c Hc'. by apply exec_fd_ok.
  - rewrite <- Hr, <- Hw. intros. destruct Hc as [_ ->]; lia.
  - rewrite <- Hr, <- Hw. intros. destruct Hc as [-> _]; lia.
Qed.

(** A shell's pipeline: the pipe is inherited by a child, and both processes
    close the write end. *)
Definition run_fd {B} `{Host} `{NetworkBroker B} (cs : list fd_call) (h : Heap B) : Heap B :=
  foldl (λ h c, (exec_fd c h).1) h cs.
Definition pipeline : list fd_call := [FStart; FPipe 3 0; FFork 3; FClose 3 4; FClose 7 4].

Lemma pipe_ends_exact_witness :
  let h := run_fd pipeline (heap_new Host_broker.new) in
  has_end (is_reader 4) h ∧ ¬ has_end (is_writer 4) h.
Proof.
  intros h.
  assert (fd_steps (heap_new Host_broker.new) h) as Hs.
  { unfold h, run_fd, pipeline. cbn [foldl].
    apply (fd_more FStart); [done|]. apply (fd_more (FPipe 3 0)); [vm_compute; eexists; reflexivity|].
    apply (fd_more (FFork 3)); [vm_compute; eexists; reflexivity|].
    apply (fd_more (FClose 3 4)); [vm_compute; eexists; reflexivity|].
    apply (fd_more (FClose 7 4)); [vm_compute; eexists; reflexivity|]. apply fd_done. }
  assert (has_end (is_reader 4) h) as Hr.
  { exists 3. eexists. eexists. exists {| desc := 5; cloexec := false |}. eexists. eexists.
    split_and!; [vm_compute; reflexivity| |vm_compute; reflexivity|vm_compute; reflexivity].
    do 3 right. left. }
  split; [exact Hr|].
  destruct (pipe_ends_exact Host_broker.new h 4 {| p_data := []; p_readers := 1; p_writers := 0; p_activity := 1 |}) as (_ & Hw & _).
  - exact Hs.
  - vm_compute. reflexivity.
  - by apply Hw.
Defined.
