(* ===== verification/Proc.v ===== *)
(** Processes and the cooperative scheduler: [crates/linux-compat/src/proc.rs].

    The CPU snapshots and memory maps of parked tasks are parameters of the
    scheduler's types. Cells and tables that threads share
    ([Rc<Cell<..>>], [Rc<RefCell<HashMap<..>>>]) are references into [Shared];
    descriptor tables and the objects a task waits on live in the [Heap]. *)

From S2P Require Import Prelude BTree Abi Filesystem Cpu Net Fd.

Definition ROOT_PID : Z := 1000.
Definition MMAP_BASE : Z := 68719476736.
Definition PIPE_CAPACITY : Z := 1048576.

(** The 32 bytes of a registered [sigaction], by signal number. *)
Abbreviation SigActions := (gmap Z bytes).

Record Shared := {
  cells : gmap Z Z;
  sigtables : gmap Z SigActions;
  done_flags : gmap Z bool;
  next_cell : Z;
  next_asid : Z
}.

Record Process := {
  pid : Z;
  tgid : Z;
  ppid : Z;
  pgid : Z;
  fds : Z;
  cwd : nat;
  umask : Z;
  brk_end : Z;
  mmap_next : Z;
  sigactions : Z;
  sigmask : Z;
  pending_signals : Z;
  signal_saved : list CpuSnapshot;
  signal_saved_mask : list Z;
  altstack : option (Z * Z);
  altstack_depth : Z;
  altstack_frames : list bool;
  exe_path : bytes;
  argv : list bytes;
  envp : list bytes;
  clear_child_tid : Z;
  asid : Z;
  vfork_done : option Z;
  stopped : bool;
  stop_report : option Z
}.

(** Assignments to the fields. *)
Definition with_pending (x : Z) (p : Process) : Process :=
  {| pid := pid p; tgid := tgid p; ppid := ppid p; pgid := pgid p; fds := fds p; cwd := cwd p; umask := umask p;
     brk_end := brk_end p; mmap_next := mmap_next p; sigactions := sigactions p; sigmask := sigmask p;
     pending_signals := x; signal_saved := signal_saved p; signal_saved_mask := signal_saved_mask p;
     altstack := altstack p; altstack_depth := altstack_depth p; altstack_frames := altstack_frames p;
     exe_path := exe_path p; argv := argv p; envp := envp p; clear_child_tid := clear_child_tid p; asid := asid p;
     vfork_done := vfork_done p; stopped := stopped p; stop_report := stop_report p |}.
Definition with_stop (b : bool) (r : option Z) (p : Process) : Process :=
  {| pid := pid p; tgid := tgid p; ppid := ppid p; pgid := pgid p; fds := fds p; cwd := cwd p; umask := umask p;
     brk_end := brk_end p; mmap_next := mmap_next p; sigactions := sigactions p; sigmask := sigmask p;
     pending_signals := pending_signals p; signal_saved := signal_saved p; signal_saved_mask := signal_saved_mask p;
     altstack := altstack p; altstack_depth := altstack_depth p; altstack_frames := altstack_frames p;
     exe_path := exe_path p; argv := argv p; envp := envp p; clear_child_tid := clear_child_tid p; asid := asid p;
     vfork_done := vfork_done p; stopped := b; stop_report := r |}.
Definition with_pgid (g : Z) (p : Process) : Process :=
  {| pid := pid p; tgid := tgid p; ppid := ppid p; pgid := g; fds := fds p; cwd := cwd p; umask := umask p;
     brk_end := brk_end p; mmap_next := mmap_next p; sigactions := sigactions p; sigmask := sigmask p;
     pending_signals := pending_signals p; signal_saved := signal_saved p; signal_saved_mask := signal_saved_mask p;
     altstack := altstack p; altstack_depth := altstack_depth p; altstack_frames := altstack_frames p;
     exe_path := exe_path p; argv := argv p; envp := envp p; clear_child_tid := clear_child_tid p; asid := asid p;
     vfork_done := vfork_done p; stopped := stopped p; stop_report := stop_report p |}.
Definition with_fds (t : Z) (p : Process) : Process :=
  {| pid := pid p; tgid := tgid p; ppid := ppid p; pgid := pgid p; fds := t; cwd := cwd p; umask := umask p;
     brk_end := brk_end p; mmap_next := mmap_next p; sigactions := sigactions p; sigmask := sigmask p;
     pending_signals := pending_signals p; signal_saved := signal_saved p; signal_saved_mask := signal_saved_mask p;
     altstack := altstack p; altstack_depth := altstack_depth p; altstack_frames := altstack_frames p;
     exe_path := exe_path p; argv := argv p; envp := envp p; clear_child_tid := clear_child_tid p; asid := asid p;
     vfork_done := vfork_done p; stopped := stopped p; stop_report := stop_report p |}.
Definition with_cwd (n : nat) (p : Process) : Process :=
  {| pid := pid p; tgid := tgid p; ppid := ppid p; pgid := pgid p; fds := fds p; cwd := n; umask := umask p;
     brk_end := brk_end p; mmap_next := mmap_next p; sigactions := sigactions p; sigmask := sigmask p;
     pending_signals := pending_signals p; signal_saved := signal_saved p; signal_saved_mask := signal_saved_mask p;
     altstack := altstack p; altstack_depth := altstack_depth p; altstack_frames := altstack_frames p;
     exe_path := exe_path p; argv := argv p; envp := envp p; clear_child_tid := clear_child_tid p; asid := asid p;
     vfork_done := vfork_done p; stopped := stopped p; stop_report := stop_report p |}.
Definition with_umask (x : Z) (p : Process) : Process :=
  {| pid := pid p; tgid := tgid p; ppid := ppid p; pgid := pgid p; fds := fds p; cwd := cwd p; umask := x;
     brk_end := brk_end p; mmap_next := mmap_next p; sigactions := sigactions p; sigmask := sigmask p;
     pending_signals := pending_signals p; signal_saved := signal_saved p; signal_saved_mask := signal_saved_mask p;
     altstack := altstack p; altstack_depth := altstack_depth p; altstack_frames := altstack_frames p;
     exe_path := exe_path p; argv := argv p; envp := envp p; clear_child_tid := clear_child_tid p; asid := asid p;
     vfork_done := vfork_done p; stopped := stopped p; stop_report := stop_report p |}.
Definition with_sigmask (x : Z) (p : Process) : Process :=
  {| pid := pid p; tgid := tgid p; ppid := ppid p; pgid := pgid p; fds := fds p; cwd := cwd p; umask := umask p;
     brk_end := brk_end p; mmap_next := mmap_next p; sigactions := sigactions p; sigmask := x;
     pending_signals := pending_signals p; signal_saved := signal_saved p; signal_saved_mask := signal_saved_mask p;
     altstack := altstack p; altstack_depth := altstack_depth p; altstack_frames := altstack_frames p;
     exe_path := exe_path p; argv := argv p; envp := envp p; clear_child_tid := clear_child_tid p; asid := asid p;
     vfork_done := vfork_done p; stopped := stopped p; stop_report := stop_report p |}.
Definition with_saved (s : list CpuSnapshot) (m : list Z) (p : Process) : Process :=
  {| pid := pid p; tgid := tgid p; ppid := ppid p; pgid := pgid p; fds := fds p; cwd := cwd p; umask := umask p;
     brk_end := brk_end p; mmap_next := mmap_next p; sigactions := sigactions p; sigmask := sigmask p;
     pending_signals := pending_signals p; signal_saved := s; signal_saved_mask := m; altstack := altstack p;
     altstack_depth := altstack_depth p; altstack_frames := altstack_frames p; exe_path := exe_path p;
     argv := argv p; envp := envp p; clear_child_tid := clear_child_tid p; asid := asid p;
     vfork_done := vfork_done p; stopped := stopped p; stop_report := stop_report p |}.
Definition with_altstack (a : option (Z * Z)) (p : Process) : Process :=
  {| pid := pid p; tgid := tgid p; ppid := ppid p; pgid := pgid p; fds := fds p; cwd := cwd p; umask := umask p;
     brk_end := brk_end p; mmap_next := mmap_next p; sigactions := sigactions p; sigmask := sigmask p;
     pending_signals := pending_signals p; signal_saved := signal_saved p; signal_saved_mask := signal_saved_mask p;
     altstack := a; altstack_depth := altstack_depth p; altstack_frames := altstack_frames p; exe_path := exe_path p;
     argv := argv p; envp := envp p; clear_child_tid := clear_child_tid p; asid := asid p;
     vfork_done := vfork_done p; stopped := stopped p; stop_report := stop_report p |}.
Definition with_frames (d : Z) (l : list bool) (p : Process) : Process :=
  {| pid := pid p; tgid := tgid p; ppid := ppid p; pgid := pgid p; fds := fds p; cwd := cwd p; umask := umask p;
     brk_end := brk_end p; mmap_next := mmap_next p; sigactions := sigactions p; sigmask := sigmask p;
     pending_signals := pending_signals p; signal_saved := signal_saved p; signal_saved_mask := signal_saved_mask p;
     altstack := altstack p; altstack_depth := d; altstack_frames := l; exe_path := exe_path p; argv := argv p;
     envp := envp p; clear_child_tid := clear_child_tid p; asid := asid p; vfork_done := vfork_done p;
     stopped := stopped p; stop_report := stop_report p |}.
Definition with_clear_tid (a : Z) (p : Process) : Process :=
  {| pid := pid p; tgid := tgid p; ppid := ppid p; pgid := pgid p; fds := fds p; cwd := cwd p; umask := umask p;
     brk_end := brk_end p; mmap_next := mmap_next p; sigactions := sigactions p; sigmask := sigmask p;
     pending_signals := pending_signals p; signal_saved := signal_saved p; signal_saved_mask := signal_saved_mask p;
     altstack := altstack p; altstack_depth := altstack_depth p; altstack_frames := altstack_frames p;
     exe_path := exe_path p; argv := argv p; envp := envp p; clear_child_tid := a; asid := asid p;
     vfork_done := vfork_done p; stopped := stopped p; stop_report := stop_report p |}.
Definition with_vfork (f : option Z) (p : Process) : Process :=
  {| pid := pid p; tgid := tgid p; ppid := ppid p; pgid := pgid p; fds := fds p; cwd := cwd p; umask := umask p;
     brk_end := brk_end p; mmap_next := mmap_next p; sigactions := sigactions p; sigmask := sigmask p;
     pending_signals := pending_signals p; signal_saved := signal_saved p; signal_saved_mask := signal_saved_mask p;
     altstack := altstack p; altstack_depth := altstack_depth p; altstack_frames := altstack_frames p;
     exe_path := exe_path p; argv := argv p; envp := envp p; clear_child_tid := clear_child_tid p; asid := asid p;
     vfork_done := f; stopped := stopped p; stop_report := stop_report p |}.

(** * What a parked task waits for *)
Inductive Watch :=
| PipeReadable (pipe : Z)
| PipeWritable (pipe : Z)
| Event (event : Z)
| Timer (timer : Z)
| NetReadable (socket : Z)
| PipeActivity (pipe seen : Z)
| EventActivity (event seen : Z)
| PtyReadable (pty : Z) (master : bool)
| PtyActivity (pty seen : Z)
| InotifyReadable (inotify : Z)
| InotifyActivity (inotify seen : Z)
| Always.

Inductive ParkState :=
| Ready
| WaitChild (filter : Z) (untraced : bool)
| Futex (addr : Z) (woken : bool) (deadline : option Z)
| PipeRead (pipe : Z)
| PipeWrite (pipe : Z)
| Waiting (ws : list Watch) (deadline : option Z)
| VforkDone (flag : Z).

Record ParkedTask (C : Type) := { t_proc : Process; t_cpu : C; t_state : ParkState }.
Arguments t_proc {C} _.
Arguments t_cpu {C} _.
Arguments t_state {C} _.
Record Zombie := { z_pid : Z; z_ppid : Z; z_status : Z }.
Record Scheduler (C M : Type) := {
  parked : list (ParkedTask C);
  zombies : list Zombie;
  group_maps : gmap Z M;
  next_pid : Z
}.
Arguments parked {C M} _.
Arguments zombies {C M} _.
Arguments group_maps {C M} _.
Arguments next_pid {C M} _.

Definition set_proc {C} (p : Process) (t : ParkedTask C) : ParkedTask C :=
  {| t_proc := p; t_cpu := t_cpu t; t_state := t_state t |}.
Definition set_state {C} (s : ParkState) (t : ParkedTask C) : ParkedTask C :=
  {| t_proc := t_proc t; t_cpu := t_cpu t; t_state := s |}.
Definition set_parked {C M} (l : list (ParkedTask C)) (s : Scheduler C M) : Scheduler C M :=
  {| parked := l; zombies := zombies s; group_maps := group_maps s; next_pid := next_pid s |}.
Definition set_zombies {C M} (l : list Zombie) (s : Scheduler C M) : Scheduler C M :=
  {| parked := parked s; zombies := l; group_maps := group_maps s; next_pid := next_pid s |}.

(** * Process state *)
Module Procs.
Section procs.
Context {B : Type} `{NetworkBroker B}.

Definition new_cell (x : Z) (s : Shared) : Z * Shared :=
  (next_cell s, {| cells := <[next_cell s := x]> (cells s); sigtables := sigtables s; done_flags := done_flags s;
                   next_cell := next_cell s + 1; next_asid := next_asid s |}).
Definition new_sigtable (x : SigActions) (s : Shared) : Z * Shared :=
  (next_cell s, {| cells := cells s; sigtables := <[next_cell s := x]> (sigtables s); done_flags := done_flags s;
                   next_cell := next_cell s + 1; next_asid := next_asid s |}).
Definition alloc_asid (s : Shared) : Z * Shared :=
  (next_asid s, {| cells := cells s; sigtables := sigtables s; done_flags := done_flags s;
                   next_cell := next_cell s; next_asid := wrapping_add64 (next_asid s) 1 |}).

(** [Process::initial]: the root process, with its tables. *)
Definition initial (h : Heap B) (s : Shared) : Process * Heap B * Shared :=
  let '(t, h) := Fds.table_new h in
  let '(brk, s) := new_cell 0 s in
  let '(mm, s) := new_cell MMAP_BASE s in
  let '(sa, s) := new_sigtable ∅ s in
  ({| pid := ROOT_PID; tgid := ROOT_PID; ppid := 1; pgid := ROOT_PID; fds := t; cwd := ROOT; umask := 18;
      brk_end := brk; mmap_next := mm; sigactions := sa; sigmask := 0; pending_signals := 0;
      signal_saved := []; signal_saved_mask := []; altstack := None; altstack_depth := 0; altstack_frames := []; exe_path := [];
      argv := []; envp := []; clear_child_tid := 0; asid := 0; vfork_done := None; stopped := false;
      stop_report := None |}, h, s).

(** [fork_child]: its own table, cells and dispositions with the same
    contents. A reference that is live is always found. *)
Definition fork_child (p : Process) (child : Z) (h : Heap B) (s : Shared) : res Z (Process * Heap B * Shared) :=
  let '(h, r) := Fds.table_clone (fds p) h in
  let! t := r in
  let! brk0 := expect (cells s !! brk_end p) in
  let! mm0 := expect (cells s !! mmap_next p) in
  let! sa0 := expect (sigtables s !! sigactions p) in
  let '(brk, s) := new_cell brk0 s in
  let '(mm, s) := new_cell mm0 s in
  let '(sa, s) := new_sigtable sa0 s in
  let '(a, s) := alloc_asid s in
  Ok ({| pid := child; tgid := child; ppid := tgid p; pgid := pgid p; fds := t; cwd := cwd p; umask := umask p;
         brk_end := brk; mmap_next := mm; sigactions := sa; sigmask := sigmask p; pending_signals := 0;
         signal_saved := []; signal_saved_mask := []; altstack := altstack p; altstack_depth := 0; altstack_frames := [];
         exe_path := exe_path p; argv := argv p; envp := envp p; clear_child_tid := 0; asid := a;
         vfork_done := None; stopped := false; stop_report := None |}, h, s).

(** [thread_sibling]: every table and cell shared. *)
Definition thread_sibling (p : Process) (tid : Z) (h : Heap B) : Process * Heap B :=
  ({| pid := tid; tgid := tgid p; ppid := ppid p; pgid := pgid p; fds := fds p; cwd := cwd p; umask := umask p;
      brk_end := brk_end p; mmap_next := mmap_next p; sigactions := sigactions p; sigmask := sigmask p;
      pending_signals := 0; signal_saved := []; signal_saved_mask := []; altstack := None; altstack_depth := 0;
      altstack_frames := []; exe_path := exe_path p; argv := argv p; envp := envp p; clear_child_tid := 0;
      asid := asid p; vfork_done := None; stopped := false; stop_report := None |}, Fds.table_share (fds p) h).
End procs.
End Procs.

(** * The scheduler *)
Module Sched.
Section sched.
Context {B : Type} `{NetworkBroker B} {C M : Type}.
Abbreviation scheduler := (Scheduler C M).
Abbreviation task := (ParkedTask C).

Definition new : scheduler :=
  {| parked := []; zombies := []; group_maps := ∅; next_pid := ROOT_PID + 1 |}.

Definition group_has_parked (g : Z) (s : scheduler) : bool :=
  existsb (λ t, tgid (t_proc t) =? g) (parked s).

Definition take_pid (s : scheduler) : scheduler * res Z Z :=
  match add64 (next_pid s) 1 with
  | Ok n => ({| parked := parked s; zombies := zombies s; group_maps := group_maps s; next_pid := n |}, Ok (next_pid s))
  | Err e => (s, Err e)
  | Panic => (s, Panic)
  end.

(** The wait4 filter: -1 for any child, else a pid compared as [u64]. *)
Definition child_matches (parent filter : Z) (child child_parent : Z) : bool :=
  (child_parent =? parent) && ((filter =? -1) || (child =? wrap 64 filter)).

Definition has_child (parent filter : Z) (s : scheduler) : bool :=
  existsb (λ z, child_matches parent filter (z_pid z) (z_ppid z)) (zombies s)
  || existsb (λ t, child_matches parent filter (tgid (t_proc t)) (ppid (t_proc t))) (parked s).

(** [take_stop_report] over the parked tasks, in order. *)
Fixpoint take_report (parent filter : Z) (l : list task) : list task * option (Z * Z) :=
  match l with
  | [] => ([], None)
  | t :: l =>
      match child_matches parent filter (tgid (t_proc t)) (ppid (t_proc t)), stop_report (t_proc t) with
      | true, Some sig =>
          (set_proc (with_stop (stopped (t_proc t)) None (t_proc t)) t :: l, Some (tgid (t_proc t), sig))
      | _, _ => let '(l, r) := take_report parent filter l in (t :: l, r)
      end
  end.
Definition take_stop_report (parent filter : Z) (s : scheduler) : scheduler * option (Z * Z) :=
  let '(l, r) := take_report parent filter (parked s) in (set_parked l s, r).

(** [position(..)?] and [remove(index)]. *)
Fixpoint position {A} (f : A → bool) (l : list A) : option nat :=
  match l with
  | [] => None
  | x :: l => if f x then Some 0%nat else S <$> position f l
  end.
Definition take_zombie (parent filter : Z) (s : scheduler) : scheduler * option Zombie :=
  match position (λ z, child_matches parent filter (z_pid z) (z_ppid z)) (zombies s) with
  | None => (s, None)
  | Some i => (set_zombies (delete i (zombies s)) s, zombies s !! i)
  end.

(** [futex_wake], the loop over the parked tasks. *)
Fixpoint wake_loop (addr count woken : Z) (l : list task) : list task * Z :=
  match l with
  | [] => ([], woken)
  | t :: l =>
      if count <=? woken then (t :: l, woken)
      else
        match t_state t with
        | Futex a w d =>
            if (a =? addr) && negb w then
              let '(l, n) := wake_loop addr count (woken + 1) l in (set_state (Futex a true d) t :: l, n)
            else let '(l, n) := wake_loop addr count woken l in (t :: l, n)
        | _ => let '(l, n) := wake_loop addr count woken l in (t :: l, n)
        end
  end.
Definition futex_wake (addr count : Z) (s : scheduler) : scheduler * Z :=
  let '(l, n) := wake_loop addr count 0 (parked s) in (set_parked l s, n).

(** [Watch::ready]. An object a watch holds is always found. *)
Definition pipe_readable (p : PipeInner) : bool := negb (bool_decide (p_data p = [])) || (p_writers p =? 0).
Definition pipe_writable (p : PipeInner) : bool := (zlen (p_data p) <? PIPE_CAPACITY) || (p_readers p =? 0).
Definition look {A} (o : option A) (f : A → bool) : bool := match o with Some a => f a | None => false end.
Definition watch_ready (h : Heap B) (now : Z) (w : Watch) : bool :=
  match w with
  | PipeReadable i => look (pipes h !! i) pipe_readable
  | PipeWritable i => look (pipes h !! i) pipe_writable
  | Event i => look (events h !! i) (λ e, 0 <? e_count e)
  | Timer i => look (timers h !! i) (λ t, look (next_expiry t) (λ x, x <=? now))
  | NetReadable i => look (sockets h !! i) (λ s, look (s_handle s) (λ x, readable x (broker h)))
  | PipeActivity i seen => look (pipes h !! i) (λ p, negb (p_activity p =? seen))
  | EventActivity i seen => look (events h !! i) (λ e, negb (e_activity e =? seen))
  | PtyReadable i true =>
      look (ptys h !! i) (λ p, negb (bool_decide (s2m p = [])) || (slave_ever_opened p && (slaves p =? 0)))
  | PtyReadable i false => look (ptys h !! i) (λ p, negb (bool_decide (m2s p = [])) || (masters p =? 0))
  | PtyActivity i seen => look (ptys h !! i) (λ p, negb (pty_activity p =? seen))
  | InotifyReadable i => look (inotifies h !! i) (λ n, negb (bool_decide (queue n = [])) || overflowed n)
  | InotifyActivity i seen => look (inotifies h !! i) (λ n, negb (i_activity n =? seen))
  | Always => true
  end.

Definition wait_is_satisfied (h : Heap B) (sh : Shared) (s : scheduler) (now : Z) (t : task) : bool :=
  match t_state t with
  | Ready => true
  | Futex _ woken deadline => woken || look deadline (λ d, d <=? now)
  | WaitChild filter untraced =>
      let m := child_matches (tgid (t_proc t)) filter in
      existsb (λ z, m (z_pid z) (z_ppid z)) (zombies s)
      || (untraced && existsb (λ c, bool_decide (is_Some (stop_report (t_proc c)))
                                    && m (tgid (t_proc c)) (ppid (t_proc c))) (parked s))
  | PipeRead i => look (pipes h !! i) pipe_readable
  | PipeWrite i => look (pipes h !! i) pipe_writable
  | Waiting ws deadline => look deadline (λ d, d <=? now) || existsb (watch_ready h now) ws
  | VforkDone f => look (done_flags sh !! f) id
  end.

Definition deliverable (p : Process) : Z := Z.land (pending_signals p) (Z.lnot (sigmask p)).
Definition is_vfork (st : ParkState) : bool := match st with VforkDone _ => true | _ => false end.
Definition runnable (h : Heap B) (sh : Shared) (s : scheduler) (now : Z) (t : task) : bool :=
  if stopped (t_proc t) then false
  else if negb (deliverable (t_proc t) =? 0) && negb (is_vfork (t_state t)) then true
  else wait_is_satisfied h sh s now t.
Definition find_ready (h : Heap B) (sh : Shared) (s : scheduler) (now : Z) : option nat :=
  position (runnable h sh s now) (parked s).

(** The deadlines of one task, and the earliest of all. *)
Definition timer_deadline (h : Heap B) (w : Watch) : option Z :=
  match w with Timer i => timers h !! i ≫= next_expiry | _ => None end.
Definition deadlines_of (h : Heap B) (t : task) : list Z :=
  match t_state t with
  | Futex _ _ (Some d) => [d]
  | Waiting ws deadline => omap (timer_deadline h) ws ++ option_list deadline
  | _ => []
  end.
Definition minimum (l : list Z) : option Z :=
  match l with [] => None | x :: l => Some (foldl Z.min x l) end.
Definition earliest_deadline (h : Heap B) (s : scheduler) : option Z :=
  minimum (concat (map (deadlines_of h) (filter (λ t, stopped (t_proc t) = false) (parked s)))).

Definition net_watch_handles (h : Heap B) (s : scheduler) : list Z :=
  concat (map (λ t, match t_state t with
                    | Waiting ws _ => omap (λ w, match w with NetReadable i => sockets h !! i ≫= s_handle | _ => None end) ws
                    | _ => []
                    end) (parked s)).
End sched.
End Sched.
