(* ===== verification/ProcSpec.v ===== *)
(** Correctness of the scheduler and of process creation: futex wakeups in
    queue order, timeouts that always end an idle wait, and the isolation of a
    forked child. *)

From S2P Require Import Prelude BTree Abi Filesystem Net Fd FdInv FdSteps Proc.

(** * Positions *)
Lemma position_Some {A} (f : A → bool) l i :
  Sched.position f l = Some i ↔
  (∃ x, l !! i = Some x ∧ f x = true) ∧ ∀ j y, (j < i)%nat → l !! j = Some y → f y = false.
Proof.
  revert i. induction l as [|x l IH]; intros i; cbn.
  { split; [done|]. intros [(? & ? & _) _]. by rewrite lookup_nil in *. }
  destruct (f x) eqn:E.
  - split.
    + intros [= <-]. split; [by exists x|lia].
    + intros [_ Hj]. destruct i as [|i]; [done|]. specialize (Hj 0%nat x). cbn in Hj.
      rewrite Hj in E; [done|lia|done].
  - rewrite fmap_Some. split.
    + intros (k & [Hk Hlt]%IH & ->). split; [done|]. intros [|j] y Hj Hy; cbn in Hy; [congruence|].
      apply (Hlt j); [lia|done].
    + intros [(y & Hy & Hf) Hlt]. destruct i as [|i]; [cbn in Hy; congruence|]. exists i. split; [|done].
      apply IH. split; [by exists y|]. intros j z Hj Hz. apply (Hlt (S j) z); [lia|done].
Qed.
Lemma position_None {A} (f : A → bool) l : Sched.position f l = None ↔ ∀ x, x ∈ l → f x = false.
Proof.
  induction l as [|x l IH]; cbn; [split; [by intros _ ? ?%elem_of_nil|done]|].
  destruct (f x) eqn:E.
  - split; [done|]. intros Hf. rewrite (Hf x) in E; [done|left].
  - rewrite fmap_None, IH. split; [intros Hl y [->|]%elem_of_cons; auto|intros Hl y ?; apply Hl; by right].
Qed.

(** * Futexes *)
Definition futex_waits {C} (addr : Z) (t : ParkedTask C) : bool :=
  match t_state t with Futex a false _ => a =? addr | _ => false end.
Definition futex_woken {C} (t : ParkedTask C) : ParkedTask C :=
  match t_state t with Futex a _ d => set_state (Futex a true d) t | _ => t end.
Definition wake_first {C} (addr : Z) (t : ParkedTask C) : ParkedTask C :=
  if futex_waits addr t then futex_woken t else t.
Definition waiters {C} (addr : Z) (l : list (ParkedTask C)) : Z :=
  zlen (filter (λ t, futex_waits addr t = true) l).

Lemma waiters_cons {C} addr (t : ParkedTask C) l :
  waiters addr (t :: l) = (if futex_waits addr t then 1 else 0) + waiters addr l.
Proof.
  unfold waiters. rewrite filter_cons. destruct (futex_waits addr t); [rewrite decide_True by done|rewrite decide_False by done].
  - rewrite zlen_cons. lia.
  - lia.
Qed.

Lemma waiters_nil {C} addr : waiters (C:=C) addr [] = 0.
Proof. done. Qed.

Lemma wake_loop_cons {C} addr count woken (t : ParkedTask C) l :
  woken < count →
  Sched.wake_loop addr count woken (t :: l) =
  let '(l', n) := Sched.wake_loop addr count (woken + (if futex_waits addr t then 1 else 0)) l in
  (wake_first addr t :: l', n).
Proof.
  intros Hlt. cbn [Sched.wake_loop]. rewrite (proj2 (Z.leb_gt _ _)) by lia.
  unfold wake_first, futex_woken, futex_waits.
  destruct (t_state t) as [| |a [] d| | | |]; rewrite ?andb_false_r, ?andb_true_r, ?Z.add_0_r; cbn [negb]; try done.
  destruct (a =? addr); cbn; by rewrite ?Z.add_0_r.
Qed.

Lemma wake_loop_spec {C} addr count woken (l : list (ParkedTask C)) :
  woken ≤ count →
  ∃ l1 l2, l = l1 ++ l2 ∧ Sched.wake_loop addr count woken l = (map (wake_first addr) l1 ++ l2, woken + waiters addr l1) ∧
    woken + waiters addr l1 ≤ count ∧ (woken + waiters addr l1 = count ∨ l2 = []).
Proof.
  revert woken. induction l as [|t l IH]; intros woken Hle.
  { exists [], []. rewrite waiters_nil, Z.add_0_r. split_and!; [done..|lia|by right]. }
  destruct (decide (count ≤ woken)).
  { exists [], (t :: l). rewrite waiters_nil, Z.add_0_r. cbn [Sched.wake_loop]. rewrite (proj2 (Z.leb_le _ _)) by lia.
    split_and!; [done..|lia|left; lia]. }
  rewrite wake_loop_cons by lia.
  destruct (IH (woken + (if futex_waits addr t then 1 else 0))) as (l1 & l2 & -> & E & Hb & He); [case_if; lia|].
  exists (t :: l1), l2. rewrite E, waiters_cons. cbn. split_and!; [done|f_equal; lia|lia|]. destruct He; [left; lia|by right].
Qed.

(** [FUTEX_WAKE] wakes in queue order, neither more nor fewer tasks than
    it may: it marks exactly the waiters of the address in a prefix of the
    queue, returns their number, which is at most the count asked for, and it
    stops short of the count only when no waiter was left; every other task
    and the rest of the scheduler are untouched. *)
Theorem futex_wake_fifo {C M} addr count (s : Scheduler C M) :
  0 ≤ count →
  let '(s', n) := Sched.futex_wake addr count s in
  ∃ l1 l2, parked s = l1 ++ l2 ∧ parked s' = map (wake_first addr) l1 ++ l2 ∧
    n = waiters addr l1 ∧ n ≤ count ∧ (n = count ∨ l2 = []) ∧
    zombies s' = zombies s ∧ group_maps s' = group_maps s ∧ next_pid s' = next_pid s.
Proof.
  intros Hc. unfold Sched.futex_wake. destruct (wake_loop_spec addr count 0 (parked s)) as (l1 & l2 & El & E & Hb & He); [lia|].
  rewrite E. exists l1, l2. cbn. rewrite Z.add_0_l in *. by split_and!.
Qed.

Definition example_task (addr : Z) : ParkedTask () :=
  {| t_proc := {| pid := 1001; tgid := 1001; ppid := 1000; pgid := 1000; fds := 0; cwd := ROOT; umask := 18;
       brk_end := 0; mmap_next := 1; sigactions := 2; sigmask := 0; pending_signals := 0; signal_saved := []; signal_saved_mask := [];
       altstack := None; altstack_depth := 0; altstack_frames := []; exe_path := []; argv := []; envp := [];
       clear_child_tid := 0; asid := 0; vfork_done := None; stopped := false; stop_report := None |};
     t_cpu := (); t_state := Futex addr false (Some 500) |}.
Definition example_sched : Scheduler () () :=
  set_parked [example_task 16; example_task 32; example_task 16; example_task 16] Sched.new.

Lemma futex_wake_fifo_witness :
  (Sched.futex_wake 16 2 example_sched).2 = 2 ∧
  ∃ l1 l2, parked example_sched = l1 ++ l2 ∧ (Sched.futex_wake 16 2 example_sched).2 = waiters 16 l1.
Proof.
  split; [reflexivity|]. assert (0 ≤ 2) as H2 by lia.
  pose proof (futex_wake_fifo 16 2 example_sched H2) as Hw.
  destruct (Sched.futex_wake 16 2 example_sched) as [s' n]. destruct Hw as (l1 & l2 & ? & _ & ? & _). by exists l1, l2.
Defined.

(** * Deadlines *)
Lemma foldl_min_spec l x : foldl Z.min x l ≤ x ∧ Forall (λ y, foldl Z.min x l ≤ y) l ∧
  (foldl Z.min x l = x ∨ foldl Z.min x l ∈ l).
Proof.
  revert x. induction l as [|y l IH]; intros x; cbn; [split_and!; [lia|constructor|by left]|].
  destruct (IH (Z.min x y)) as (H1 & H2 & H3). split_and!; [lia|constructor; [lia|done]|].
  destruct H3 as [->|]; [|right; by right]. destruct (Z.min_spec x y) as [[_ ->]|[_ ->]]; [by left|right; left].
Qed.
Lemma minimum_Some l m : Sched.minimum l = Some m → m ∈ l ∧ Forall (λ y, m ≤ y) l.
Proof.
  destruct l as [|x l]; cbn; [done|]. intros [= <-]. destruct (foldl_min_spec l x) as (H1 & H2 & H3).
  split; [|by constructor]. destruct H3 as [->|]; [left|by right].
Qed.
Lemma minimum_None l : Sched.minimum l = None ↔ l = [].
Proof. by destruct l. Qed.

Section progress.
Context {B : Type} `{NetworkBroker B} {C M : Type}.
Implicit Types (h : Heap B) (s : Scheduler C M) (t : ParkedTask C).

(** A task whose deadline has passed is runnable. *)
Lemma deadline_wakes h sh s now t d :
  d ∈ Sched.deadlines_of h t → d ≤ now → stopped (t_proc t) = false → Sched.runnable h sh s now t = true.
Proof.
  intros Hd Hle Hst. unfold Sched.runnable. rewrite Hst. case_if; [done|].
  unfold Sched.deadlines_of, Sched.wait_is_satisfied in *.
  destruct (t_state t) as [|f u|a w [d'|]|i|i|ws dl|f]; try (by apply elem_of_nil in Hd).
  - apply list_elem_of_singleton in Hd as ->. cbn. rewrite (proj2 (Z.leb_le _ _)) by lia. apply orb_true_r.
  - apply elem_of_app in Hd as [Hd|Hd].
    + apply list_elem_of_omap in Hd as (w & Hw & Ew). apply orb_true_iff. right. apply existsb_exists.
      exists w. split; [by apply list_elem_of_In|]. destruct w as [| | |i| | | | | | | |]; try done. cbn in *.
      destruct (timers h !! i) as [tm|]; [|done]. cbn in *. rewrite Ew. cbn. by apply Z.leb_le.
    + destruct dl as [d'|]; cbn in Hd; [|by apply elem_of_nil in Hd]. apply list_elem_of_singleton in Hd as ->.
      cbn. by rewrite (proj2 (Z.leb_le _ _)) by lia.
Qed.

Lemma runnable_found h sh s now t :
  t ∈ parked s → Sched.runnable h sh s now t = true → is_Some (Sched.find_ready h sh s now).
Proof.
  intros Hin Hr. unfold Sched.find_ready. destruct (Sched.position _ _) eqn:E; [done|].
  rewrite position_None in E. rewrite (E t Hin) in Hr. done.
Qed.
End progress.

(** Warping the clock to the earliest deadline always ends the stall: if
    some parked task has a deadline, the one chosen is a real deadline of a
    task that is not stopped, none is earlier, and once the clock reaches it
    the scheduler finds a task to run; if none is chosen, no task that is not
    stopped has any deadline to wait for. *)
Theorem earliest_deadline_progress {B} `{NetworkBroker B} {C M} (h : Heap B) sh (s : Scheduler C M) :
  match Sched.earliest_deadline h s with
  | Some d =>
      (∃ t, t ∈ parked s ∧ stopped (t_proc t) = false ∧ d ∈ Sched.deadlines_of h t) ∧
      (∀ t d', t ∈ parked s → stopped (t_proc t) = false → d' ∈ Sched.deadlines_of h t → d ≤ d') ∧
      (∀ now, d ≤ now → is_Some (Sched.find_ready h sh s now))
  | None => ∀ t, t ∈ parked s → stopped (t_proc t) = false → Sched.deadlines_of h t = []
  end.
Proof.
  unfold Sched.earliest_deadline.
  set (l := filter (λ t, stopped (t_proc t) = false) (parked s)).
  assert (Hl : ∀ t, t ∈ l ↔ stopped (t_proc t) = false ∧ t ∈ parked s) by (intros t; unfold l; by rewrite list_elem_of_filter).
  assert (Hin : ∀ d, d ∈ concat (map (Sched.deadlines_of h) l) ↔ ∃ t, t ∈ l ∧ d ∈ Sched.deadlines_of h t).
  { intros d. rewrite !list_elem_of_In, in_concat. split.
    - intros (x & (t & <- & Ht)%in_map_iff & Hd). exists t. by rewrite !list_elem_of_In.
    - intros (t & Ht & Hd). exists (Sched.deadlines_of h t). rewrite in_map_iff. rewrite !list_elem_of_In in *. eauto. }
  destruct (Sched.minimum _) as [d|] eqn:E.
  - apply minimum_Some in E as [Hd Hmin]. apply Hin in Hd as (t & [Hs Ht]%Hl & Hd). split_and!; [by exists t| |].
    + intros t' d' Ht' Hs' Hd'. rewrite Forall_forall in Hmin. apply Hmin, Hin. exists t'. by rewrite Hl.
    + intros now Hn. eapply runnable_found; [exact Ht|]. by eapply deadline_wakes.
  - apply minimum_None in E. intros t Ht Hs. destruct (Sched.deadlines_of h t) as [|d k] eqn:Ed; [done|].
    assert (d ∈ concat (map (Sched.deadlines_of h) l)) as Hd.
    { apply Hin. exists t. rewrite Hl, Ed. split; [done|left]. }
    rewrite E in Hd. by apply elem_of_nil in Hd.
Qed.

(** * Process creation *)
Definition shared_wf (s : Shared) : Prop :=
  ∀ i, next_cell s ≤ i → cells s !! i = None ∧ sigtables s !! i = None.
(** The references of a live process are live. *)
Definition proc_live {B} (p : Process) (h : Heap B) (s : Shared) : Prop :=
  live_table (fds p) h ∧ is_Some (cells s !! brk_end p) ∧ is_Some (cells s !! mmap_next p) ∧
  is_Some (sigtables s !! sigactions p).

Section creation.
Context {B : Type} `{NetworkBroker B}.

Lemma table_clone_result t x n (h : Heap B) :
  heap_inv [] [] h → tables h !! t = Some (x, n) →
  ∃ h' i, Fds.table_clone t h = (h', Ok i) ∧ i ≠ t ∧ tables h' !! i = Some (x, 1) ∧ tables h' !! t = Some (x, n).
Proof.
  intros Hi Et. unfold Fds.table_clone, sbind, query, modify, Fds.table. rewrite Et. cbn [fmap option_fmap option_map fst expect].
  unfold Fds.fresh. set (h1 := foldl _ h (omap id x)). eexists _, (next_ref h1). split; [done|].
  assert (tables h1 = tables h ∧ next_ref h1 = next_ref h) as [E1 E2].
  { unfold h1. clear. generalize (omap id x). intros l. revert h. induction l as [|e l IH]; intros h; cbn [foldl]; [done|].
    destruct (IH (Fds.ofd_clone (desc e) h)) as [-> ->]. done. }
  assert (next_ref h ≠ t) as Hne.
  { intros <-. destruct (hi_fresh _ _ _ Hi (next_ref h)) as (_ & ? & _); [lia|]. congruence. }
  cbn. rewrite E1, E2, lookup_insert_eq, lookup_insert_ne by done. done.
Qed.
End creation.

(** [fork] isolates the child: for a live process it succeeds; the child
    has its own descriptor table, brk, mmap cursor and signal dispositions,
    each with the parent's contents at that moment and none shared with it,
    its own address space id, no pending signals, and the parent as its
    parent; the parent's table and the reference counts stay right. *)
Theorem fork_child_isolated {B} `{NetworkBroker B} (h : Heap B) sh p child :
  heap_inv [] [] h → shared_wf sh → proc_live p h sh → is_u64 (next_asid sh) →
  asid p < next_asid sh →
  ∃ c h' sh', Procs.fork_child p child h sh = Ok (c, h', sh') ∧
    pid c = child ∧ ppid c = tgid p ∧ pgid c = pgid p ∧ pending_signals c = 0 ∧ sigmask c = sigmask p ∧
    fds c ≠ fds p ∧ fst <$> tables h' !! fds c = fst <$> tables h !! fds p ∧ tables h' !! fds p = tables h !! fds p ∧
    brk_end c ≠ brk_end p ∧ cells sh' !! brk_end c = cells sh !! brk_end p ∧ cells sh' !! brk_end p = cells sh !! brk_end p ∧
    mmap_next c ≠ mmap_next p ∧ mmap_next c ≠ brk_end c ∧ cells sh' !! mmap_next c = cells sh !! mmap_next p ∧
    sigactions c ≠ sigactions p ∧ sigtables sh' !! sigactions c = sigtables sh !! sigactions p ∧
    sigtables sh' !! sigactions p = sigtables sh !! sigactions p ∧ asid c ≠ asid p ∧ heap_inv [] [] h'.
Proof.
  intros Hi Hsh (Hl & [b Eb] & [m Em] & [sa Esa]) Ha Has. destruct Hl as [[x n] Et].
  destruct (table_clone_result _ _ _ _ Hi Et) as (h' & t & Ec & Hne & Et1 & Et2).
  pose proof (table_clone_ok (fds p) h Hi (ex_intro _ _ Et)) as (Hi' & _ & _). rewrite Ec in Hi'. cbn in Hi'.
  assert (Hfresh : ∀ i j, is_Some (cells sh !! i) → next_cell sh ≤ j → j ≠ i).
  { intros i j [v Hv] Hj ->. destruct (Hsh i Hj). congruence. }
  assert (Hfresh2 : ∀ i j, is_Some (sigtables sh !! i) → next_cell sh ≤ j → j ≠ i).
  { intros i j [v Hv] Hj ->. destruct (Hsh i Hj). congruence. }
  pose proof (Hfresh (brk_end p) (next_cell sh) ltac:(eauto) ltac:(lia)) as N1.
  pose proof (Hfresh (brk_end p) (next_cell sh + 1) ltac:(eauto) ltac:(lia)) as N2.
  pose proof (Hfresh (mmap_next p) (next_cell sh + 1) ltac:(eauto) ltac:(lia)) as N3.
  pose proof (Hfresh2 (sigactions p) (next_cell sh + 1 + 1) ltac:(eauto) ltac:(lia)) as N4.
  unfold Procs.fork_child. rewrite Ec. cbn [rbind]. rewrite Eb, Em, Esa.
  cbn [expect rbind Procs.new_cell Procs.new_sigtable Procs.alloc_asid cells sigtables next_cell next_asid].
  eexists _, h', _. split; [reflexivity|]. cbn [pid ppid pgid pending_signals sigmask fds brk_end mmap_next sigactions asid cells sigtables].
  rewrite Et, Et1, Et2. split_and!; try done; try lia.
  - rewrite lookup_insert_ne by lia. by rewrite lookup_insert_eq.
  - by rewrite !lookup_insert_ne by lia.
  - by rewrite lookup_insert_eq.
  - by rewrite lookup_insert_eq.
  - by rewrite lookup_insert_ne by lia.
Qed.

Definition shared_new : Shared :=
  {| cells := ∅; sigtables := ∅; done_flags := ∅; next_cell := 0; next_asid := 1 |}.
Definition first_process : Process * Heap HostBroker * Shared :=
  Procs.initial (heap_new Host_broker.new) shared_new.

Lemma first_heap : first_process.1.2 = (Fds.table_new (heap_new Host_broker.new)).2.
Proof. vm_compute. reflexivity. Qed.
Lemma first_shared : shared_wf first_process.2.
Proof.
  intros i Hi. assert (next_cell first_process.2 = 3) as E by (vm_compute; reflexivity). rewrite E in Hi.
  unfold first_process, Procs.initial, Procs.new_cell, Procs.new_sigtable.
  destruct (Fds.table_new _) as [t h]. cbn [snd cells sigtables next_cell shared_new].
  rewrite !lookup_insert_ne by lia. done.
Qed.

Lemma fork_child_isolated_witness :
  ∃ c h' sh', Procs.fork_child first_process.1.1 1001 first_process.1.2 first_process.2 = Ok (c, h', sh') ∧
    fds c ≠ fds first_process.1.1.
Proof.
  assert (heap_inv [] [] first_process.1.2) as Hi by (rewrite first_heap; apply table_new_ok, heap_new_inv).
  destruct (fork_child_isolated first_process.1.2 first_process.2 first_process.1.1 1001 Hi first_shared)
    as (c & h' & sh' & Hf & _ & _ & _ & _ & _ & Hne & _).
  - vm_compute. split_and!; eexists; reflexivity.
  - vm_compute. split; congruence.
  - vm_compute. reflexivity.
  - exists c, h', sh'. split; [exact Hf|exact Hne].
Defined.
