(* ===== verification/Signals.v ===== *)
(** Signals: which are acted on, how they are queued and dequeued
    ([crates/linux-compat/src/syscall.rs], the signal section), and the
    process groups they are sent to.

    The running process and the parked tasks are separate, as in [LinuxEnv]. *)

From S2P Require Import Prelude BTree Abi Net Fd Proc.

Definition SIGKILL : Z := 9.
Definition SIGCHLD : Z := 17.
Definition SIGSTOP : Z := 19.
Definition NSIG : Z := 64.
Definition SIG_DFL : Z := 0.
Definition SIG_IGN : Z := 1.

Definition default_action_terminates (signal : Z) : bool :=
  negb (existsb (Z.eqb signal) [17; 18; 19; 20; 21; 22; 23; 28]).
Definition default_action_stops (signal : Z) : bool := (19 <=? signal) && (signal <=? 22).

(** [x.trailing_zeros()] of a [u64]. *)
Fixpoint ctz (p : positive) : Z := match p with xO p => 1 + ctz p | _ => 0 end.
Definition trailing_zeros (x : Z) : Z := match x with Zpos p => ctz p | _ => 64 end.
Definition bit_of (signal : Z) : Z := Z.shiftl 1 (signal - 1).
(** [word &= !bit] *)
Definition clear_bit (word bit : Z) : Z := Z.land word (Z.lnot bit).

(** The handler word of a registered action. *)
Definition disposition (sh : Shared) (p : Process) (signal : Z) : option Z :=
  (λ a, le_val (take 8 a)) <$> (sigtables sh !! sigactions p ≫= (.!! signal)).

Definition acts_on_signal (sh : Shared) (p : Process) (signal : Z) : bool :=
  if (signal =? SIGKILL) || (signal =? SIGSTOP) then true
  else
    let by_default := default_action_terminates signal || default_action_stops signal in
    match disposition sh p signal with
    | Some x => if x =? SIG_DFL then by_default else if x =? SIG_IGN then false else true
    | None => by_default
    end.

Definition raise (bit : Z) (p : Process) : Process := with_pending (Z.lor (pending_signals p) bit) p.
Definition raise_task {C} (bit : Z) (t : ParkedTask C) : ParkedTask C := set_proc (raise bit (t_proc t)) t.

(** The running process and the scheduler of [LinuxEnv]. *)
Record Tasks (C M : Type) := { cur : Process; sched : Scheduler C M }.
Arguments cur {C M} _.
Arguments sched {C M} _.
Definition set_cur {C M} (p : Process) (e : Tasks C M) : Tasks C M := {| cur := p; sched := sched e |}.
Definition set_tasks {C M} (l : list (ParkedTask C)) (e : Tasks C M) : Tasks C M :=
  {| cur := cur e; sched := set_parked l (sched e) |}.

Inductive SignalExitAction := NoAction | Handler | Terminate (signal : Z) | Stop (signal : Z).

Module Sig.
Section sig.
Context {C M : Type} (sh : Shared).
Abbreviation tasks := (Tasks C M).

Definition deliver_signal_to_pgrp (pgrp signal : Z) (e : tasks) : tasks :=
  if pgrp =? 0 then e
  else
    let bit := bit_of signal in
    let e := if (pgid (cur e) =? pgrp) && acts_on_signal sh (cur e) signal then set_cur (raise bit (cur e)) e else e in
    set_tasks (map (λ t, if (pgid (t_proc t) =? pgrp) && acts_on_signal sh (t_proc t) signal
                         then raise_task bit t else t) (parked (sched e))) e.

(** The scan for a thread to take a signal: one that does not block it, and
    the group leader among those, else one that blocks it. *)
Fixpoint choose (target bit : Z) (skip : Process → bool) (i : nat) (l : list (ParkedTask C))
    (unblocked fallback : option nat) : option nat * option nat :=
  match l with
  | [] => (unblocked, fallback)
  | t :: l =>
      let p := t_proc t in
      if negb (tgid p =? target) || skip p then choose target bit skip (S i) l unblocked fallback
      else
        let blocked := negb (Z.land (sigmask p) bit =? 0) in
        let leader := pid p =? target in
        if negb blocked && (leader || bool_decide (unblocked = None)) then
          if leader then (Some i, fallback) else choose target bit skip (S i) l (Some i) fallback
        else if blocked && (leader || bool_decide (fallback = None)) then
          choose target bit skip (S i) l unblocked (Some i)
        else choose target bit skip (S i) l unblocked fallback
  end.
Definition or_else (a b : option nat) : option nat := match a with Some x => Some x | None => b end.
Definition raise_at (i : option nat) (bit : Z) (l : list (ParkedTask C)) : list (ParkedTask C) :=
  match i with Some i => alter (raise_task bit) i l | None => l end.

Definition signal_process (target signal : Z) (e : tasks) : tasks * bool :=
  if (signal =? 0) || (NSIG <? signal) then (e, false)
  else
    let bit := bit_of signal in
    if tgid (cur e) =? target then
      ((if acts_on_signal sh (cur e) signal then set_cur (raise bit (cur e)) e else e), true)
    else
      let l := parked (sched e) in
      let '(u, f) := choose target bit (λ p, negb (acts_on_signal sh p signal)) 0 l None None in
      (set_tasks (raise_at (or_else u f) bit l) e, existsb (λ t, tgid (t_proc t) =? target) l).

Definition notify_parent_sigchld (parent : Z) (e : tasks) : tasks :=
  let bit := bit_of SIGCHLD in
  let l := parked (sched e) in
  let member := match List.find (λ t, tgid (t_proc t) =? parent) l with
                | Some t => Some (t_proc t)
                | None => if tgid (cur e) =? parent then Some (cur e) else None
                end in
  let has_handler := match member with
                     | Some p => match disposition sh p SIGCHLD with Some x => 1 <? x | None => false end
                     | None => false
                     end in
  if negb has_handler then e
  else
    let '(u, f) := choose parent bit (λ _, false) 0 l None None in
    set_tasks (raise_at (or_else u f) bit l) e.

(** The loop of [pending_signal_action]; each turn that does not return clears
    a pending bit, so 65 turns are enough for the 64 there are. *)
Fixpoint dequeue (fuel : nat) (p : Process) : res () (Process * SignalExitAction) :=
  match fuel with
  | O => Panic
  | S fuel =>
      let d := Sched.deliverable p in
      if d =? 0 then Ok (p, NoAction)
      else
        let sig := trailing_zeros d + 1 in
        let p' := with_pending (clear_bit (pending_signals p) (bit_of sig)) p in
        match disposition sh p sig with
        | Some x =>
            if x =? SIG_IGN then dequeue fuel p'
            else if x =? SIG_DFL then
              if default_action_terminates sig then Ok (p', Terminate sig)
              else if default_action_stops sig then Ok (p', Stop sig)
              else dequeue fuel p'
            else Ok (p, Handler)
        | None =>
            if default_action_terminates sig then Ok (p', Terminate sig)
            else if default_action_stops sig then Ok (p', Stop sig)
            else dequeue fuel p'
        end
  end.
Definition pending_signal_action (p : Process) : res () (Process * SignalExitAction) := dequeue 65 p.

(** The marking half of [stop_thread_group]. *)
Definition mark_stopped (signal : Z) (e : tasks) : tasks :=
  let g := tgid (cur e) in
  let mark p := with_stop true (if pid p =? g then Some signal else stop_report p) p in
  let e := set_cur (mark (cur e)) e in
  set_tasks (map (λ t, if tgid (t_proc t) =? g then set_proc (mark (t_proc t)) t else t) (parked (sched e))) e.

(** * Process groups *)
Definition set_group_pgid (target g : Z) (e : tasks) : tasks * bool :=
  let here := tgid (cur e) =? target in
  let e' := if here then set_cur (with_pgid g (cur e)) e else e in
  (set_tasks (map (λ t, if tgid (t_proc t) =? target then set_proc (with_pgid g (t_proc t)) t else t) (parked (sched e'))) e',
   here || existsb (λ t, tgid (t_proc t) =? target) (parked (sched e))).
Definition sys_getpgid (target : Z) (e : tasks) : res Z Z :=
  if (target =? 0) || (target =? tgid (cur e)) then Ok (pgid (cur e))
  else match List.find (λ t, tgid (t_proc t) =? target) (parked (sched e)) with
       | Some t => Ok (pgid (t_proc t))
       | None => Err ESRCH
       end.
Definition sys_setpgid (target g : Z) (e : tasks) : tasks * res Z Z :=
  let target := if target =? 0 then tgid (cur e) else target in
  let group := if g =? 0 then target else g in
  let '(e, found) := set_group_pgid target group e in
  (e, if found then Ok 0 else Err ESRCH).
End sig.
End Sig.
