(* ===== verification/SignalsSpec.v ===== *)
(** Correctness of signal queueing: signals are dequeued lowest first, only
    ignorable ones are discarded, blocked ones stay; a signal sent to a process
    reaches exactly one of its threads, one that does not block it if there is
    one. *)

From S2P Require Import Prelude BTree Abi Net Fd Proc Signals.

(** * Bits *)
Lemma ctz_spec p : 0 ≤ ctz p ∧ Z.testbit (Zpos p) (ctz p) = true ∧
  ∀ j, 0 ≤ j < ctz p → Z.testbit (Zpos p) j = false.
Proof.
  induction p as [p IH|p IH|]; cbn [ctz]; [split_and!; [lia|done|lia]| |split_and!; [lia|done|lia]].
  destruct IH as (H0 & H1 & H2). change (Zpos p~0) with (2 * Zpos p). split; [lia|]. split.
  - replace (1 + ctz p) with (Z.succ (ctz p)) by lia. by rewrite Z.double_bits_succ.
  - intros j Hj. destruct (decide (j = 0)) as [->|]; [apply Z.testbit_even_0|].
    replace j with (Z.succ (j - 1)) by lia. rewrite Z.double_bits_succ. apply H2. lia.
Qed.

Lemma trailing_zeros_spec x :
  0 < x < 2 ^ 64 → 0 ≤ trailing_zeros x < 64 ∧ Z.testbit x (trailing_zeros x) = true ∧
  ∀ j, 0 ≤ j < trailing_zeros x → Z.testbit x j = false.
Proof.
  intros [Hp Hb]. destruct x as [|p|p]; [lia| |lia]. cbn [trailing_zeros]. destruct (ctz_spec p) as (H0 & H1 & H2).
  split_and!; [done| |done|done]. destruct (decide (ctz p < 64)); [done|].
  rewrite Z.bits_above_log2 in H1; [done|lia|]. apply Z.log2_lt_pow2 in Hb; lia.
Qed.

Lemma testbit_bit_of sig k : 1 ≤ sig → 0 ≤ k → Z.testbit (bit_of sig) k = (k =? sig - 1).
Proof.
  intros Hs Hk. unfold bit_of. rewrite Z.shiftl_1_l. destruct (Z.eqb_spec k (sig - 1)) as [->|].
  - by apply Z.pow2_bits_true; lia.
  - apply Z.pow2_bits_false. lia.
Qed.
Lemma testbit_clear w sig k :
  1 ≤ sig → 0 ≤ k → Z.testbit (clear_bit w (bit_of sig)) k = Z.testbit w k && negb (k =? sig - 1).
Proof. intros. unfold clear_bit. by rewrite Z.land_spec, Z.lnot_spec, testbit_bit_of by lia. Qed.
Lemma testbit_deliverable p k :
  0 ≤ k → Z.testbit (Sched.deliverable p) k = Z.testbit (pending_signals p) k && negb (Z.testbit (sigmask p) k).
Proof. intros. unfold Sched.deliverable. by rewrite Z.land_spec, Z.lnot_spec by lia. Qed.

Lemma land_bound a b : 0 ≤ a < 2 ^ 64 → 0 ≤ Z.land a b < 2 ^ 64.
Proof.
  intros Ha. assert (0 ≤ Z.land a b) by (apply Z.land_nonneg; lia). split; [done|].
  assert (Z.land a b = Z.land a b mod 2 ^ 64) as ->; [|apply Z.mod_pos_bound; lia].
  apply Z.bits_inj'. intros k Hk.
  destruct (decide (k < 64)); [by rewrite Z.mod_pow2_bits_low by lia|].
  rewrite Z.mod_pow2_bits_high by lia. rewrite Z.land_spec, (Z.bits_above_log2 a); [done|lia|].
  destruct (decide (a = 0)) as [->|]; [cbn; lia|]. apply Z.log2_lt_pow2; [lia|].
  apply Z.lt_le_trans with (2 ^ 64); [lia|]. apply Z.pow_le_mono_r; lia.
Qed.

(** * Dequeueing *)
Section dequeue.
Context (sh : Shared).

(** What a signal calls for at a kernel exit; [NoAction] if it is dropped. *)
Definition effect (p : Process) (s : Z) : SignalExitAction :=
  let by_default := if default_action_terminates s then Terminate s
                    else if default_action_stops s then Stop s else NoAction in
  match disposition sh p s with
  | Some x => if x =? SIG_IGN then NoAction else if x =? SIG_DFL then by_default else Handler
  | None => by_default
  end.
Definition pending (p : Process) (s : Z) : Prop := Z.testbit (pending_signals p) (s - 1) = true.
Definition blocked (p : Process) (s : Z) : Prop := Z.testbit (sigmask p) (s - 1) = true.

(** The result of scanning the signals of [p]. *)
Definition dequeued (p p' : Process) (a : SignalExitAction) : Prop :=
  p' = with_pending (pending_signals p') p ∧
  ((a = NoAction ∧
    (∀ s, 1 ≤ s → pending p s → ¬ blocked p s → effect p s = NoAction) ∧
    (∀ s, 1 ≤ s → pending p' s ↔ pending p s ∧ blocked p s))
   ∨ ∃ s0, 1 ≤ s0 ≤ 64 ∧ pending p s0 ∧ ¬ blocked p s0 ∧ effect p s0 = a ∧ a ≠ NoAction ∧
    (∀ s, 1 ≤ s < s0 → pending p s → ¬ blocked p s → effect p s = NoAction) ∧
    (∀ s, 1 ≤ s → pending p' s ↔ pending p s ∧ (blocked p s ∨ s0 < s ∨ (s = s0 ∧ a = Handler)))).

Lemma with_pending_eta p : p = with_pending (pending_signals p) p.
Proof. by destruct p. Qed.

Lemma deliverable_spec p s :
  1 ≤ s → Z.testbit (Sched.deliverable p) (s - 1) = true ↔ pending p s ∧ ¬ blocked p s.
Proof.
  intros. rewrite testbit_deliverable by lia. unfold pending, blocked.
  destruct (Z.testbit (pending_signals p) _), (Z.testbit (sigmask p) _); cbn; intuition congruence.
Qed.

Lemma pending_dropped p s s0 :
  1 ≤ s → 1 ≤ s0 → pending (with_pending (clear_bit (pending_signals p) (bit_of s0)) p) s ↔ pending p s ∧ s ≠ s0.
Proof.
  intros. unfold pending. cbn [with_pending pending_signals]. rewrite testbit_clear by lia.
  rewrite andb_true_iff, negb_true_iff, Z.eqb_neq. intuition lia.
Qed.

(** [s0] is the lowest deliverable signal. *)
Definition lowest (p : Process) (s0 : Z) : Prop :=
  1 ≤ s0 ≤ 64 ∧ pending p s0 ∧ ¬ blocked p s0 ∧ ∀ s, 1 ≤ s < s0 → pending p s → blocked p s.

Lemma lowest_trailing p :
  0 ≤ pending_signals p < 2 ^ 64 → Sched.deliverable p ≠ 0 → lowest p (trailing_zeros (Sched.deliverable p) + 1).
Proof.
  intros Hp Hd. pose proof (land_bound _ (Z.lnot (sigmask p)) Hp) as Hb.
  destruct (trailing_zeros_spec (Sched.deliverable p)) as (H1 & H2 & H3); [unfold Sched.deliverable in *; lia|].
  set (k := trailing_zeros _) in *. replace k with ((k + 1) - 1) in H2 by lia.
  apply deliverable_spec in H2 as [H2 H4]; [|lia]. split_and!; [lia|lia|done|done|].
  intros s Hs Hps. unfold blocked. apply not_false_iff_true. intros Hm.
  specialize (H3 (s - 1) ltac:(lia)). rewrite testbit_deliverable in H3 by lia. unfold pending in Hps.
  by rewrite Hps, Hm in H3.
Qed.

Lemma dequeued_none p : Sched.deliverable p = 0 → dequeued p p NoAction.
Proof.
  intros Hd. assert (∀ s, 1 ≤ s → pending p s → blocked p s) as Hall.
  { intros s Hs Hp. unfold blocked. apply not_false_iff_true. intros Hm.
    assert (Z.testbit (Sched.deliverable p) (s - 1) = true) as Hbit
      by (apply deliverable_spec; [done|]; split; [done|]; unfold blocked; by rewrite Hm).
    by rewrite Hd, Z.bits_0 in Hbit. }
  split; [apply with_pending_eta|]. left. split_and!; [done| |].
  - intros s Hs Hp []. by apply Hall.
  - intros s Hs. specialize (Hall s Hs). tauto.
Qed.

Lemma dequeued_here p p' s0 a :
  lowest p s0 → effect p s0 = a → a ≠ NoAction → p' = with_pending (pending_signals p') p →
  (∀ s, 1 ≤ s → pending p' s ↔ pending p s ∧ (s ≠ s0 ∨ a = Handler)) → dequeued p p' a.
Proof.
  intros (H1 & H2 & H3 & H4) He Ha Heta Hp'. split; [done|]. right. exists s0. split_and!; try done; try lia.
  - intros s Hs Hp []. by apply H4.
  - intros s Hs. rewrite Hp' by done. specialize (H4 s).
    destruct (Z.lt_trichotomy s s0) as [?|[->|?]]; [|tauto|]; intuition lia.
Qed.

Lemma dequeued_skip p p' s0 a :
  lowest p s0 → effect p s0 = NoAction →
  dequeued (with_pending (clear_bit (pending_signals p) (bit_of s0)) p) p' a → dequeued p p' a.
Proof.
  intros (H1 & H2 & H3 & H4) He [Heta H]. split; [by rewrite Heta|].
  assert (∀ s, 1 ≤ s → pending (with_pending (clear_bit (pending_signals p) (bit_of s0)) p) s ↔ pending p s ∧ s ≠ s0) as Hq
    by (intros; apply pending_dropped; lia).
  destruct H as [(-> & Hn & Hp)|(s1 & Hs1 & Hp1 & Hb1 & He1 & Ha & Hlow & Hp)].
  - left. split_and!; [done| |].
    + intros s Hs Hps Hb. destruct (decide (s = s0)) as [->|]; [done|]. apply (Hn s); [done|by apply Hq|done].
    + intros s Hs. rewrite (Hp s Hs), (Hq s Hs). change (blocked (with_pending _ _) s) with (blocked p s).
      destruct (decide (s = s0)) as [->|]; tauto.
  - apply Hq in Hp1; [|lia]. destruct Hp1 as [Hp1 Hne]. change (blocked (with_pending _ _)) with (blocked p) in *.
    assert (s0 < s1) as Hlt. { destruct (decide (s1 < s0)); [|lia]. destruct Hb1. apply H4; [lia|done]. }
    right. exists s1. split_and!; try done; try lia.
    + intros s Hs Hps Hb. destruct (decide (s = s0)) as [->|]; [done|]. apply (Hlow s); [done|apply Hq; [lia|done]|done].
    + intros s Hs. rewrite (Hp s Hs), (Hq s Hs). destruct (decide (s = s0)) as [->|]; [|tauto].
      intuition lia.
Qed.

(** One turn of the loop, by the effect of the lowest deliverable signal. *)
Lemma dequeue_step fuel p :
  Sched.deliverable p ≠ 0 →
  let s0 := trailing_zeros (Sched.deliverable p) + 1 in
  let q := with_pending (clear_bit (pending_signals p) (bit_of s0)) p in
  Sig.dequeue sh (S fuel) p =
    match effect p s0 with
    | NoAction => Sig.dequeue sh fuel q
    | Handler => Ok (p, Handler)
    | a => Ok (q, a)
    end.
Proof.
  intros Hd s0 q. cbn [Sig.dequeue]. rewrite (proj2 (Z.eqb_neq _ _) Hd). unfold effect. fold s0.
  destruct (disposition sh p s0) as [x|];
    repeat match goal with |- context [if ?b then _ else _] => destruct b end; done.
Qed.

Lemma dequeue_spec fuel p b :
  0 ≤ b ≤ 64 → 64 - b < Z.of_nat fuel → 0 ≤ pending_signals p < 2 ^ 64 →
  (∀ s, 1 ≤ s ≤ b → pending p s → blocked p s) →
  ∃ p' a, Sig.dequeue sh fuel p = Ok (p', a) ∧ dequeued p p' a.
Proof.
  revert p b. induction fuel as [|fuel IH]; intros p b Hb Hf Hp Hlow; [lia|].
  destruct (decide (Sched.deliverable p = 0)) as [Hd|Hd].
  { exists p, NoAction. cbn [Sig.dequeue]. rewrite Hd. split; [done|]. by apply dequeued_none. }
  rewrite dequeue_step by done. pose proof (lowest_trailing p Hp Hd) as Hl.
  set (s0 := trailing_zeros _ + 1) in *. cbv zeta. pose proof Hl as (H1 & H2 & H3 & H4).
  assert (∀ s a, 1 ≤ s → a ≠ Handler →
    pending (with_pending (clear_bit (pending_signals p) (bit_of s0)) p) s ↔ pending p s ∧ (s ≠ s0 ∨ a = Handler)) as Hq.
  { intros s a ??. rewrite pending_dropped by lia. tauto. }
  destruct (effect p s0) eqn:He.
  - destruct (IH (with_pending (clear_bit (pending_signals p) (bit_of s0)) p) s0) as (p' & a & E & D);
      [lia| |by apply land_bound| |exists p', a; split; [done|by apply (dequeued_skip p p' s0)]].
    + assert (b < s0); [|lia]. apply Z.nle_gt. intros ?. by destruct H3; apply Hlow; [lia|].
    + intros s Hs [Hps Hne]%pending_dropped; [|lia..]. apply H4; [lia|done].
  - exists p, Handler. split; [done|]. apply (dequeued_here p p s0); [done..|apply with_pending_eta|].
    intros s Hs. tauto.
  - eexists _, _. split; [done|]. apply (dequeued_here p _ s0); [done..|intros s Hs; by apply Hq].
  - eexists _, _. split; [done|]. apply (dequeued_here p _ s0); [done..|intros s Hs; by apply Hq].
Qed.
End dequeue.

(** C37. The scan for a pending signal terminates on every process and takes
    signals in number order: it stops at the lowest unblocked pending signal
    whose disposition calls for something, the unblocked signals below it are
    dropped exactly because they are ignored, blocked signals and those above
    stay pending, and the signal found is consumed unless a handler will. *)
Theorem pending_signal_action_lowest sh p :
  0 ≤ pending_signals p < 2 ^ 64 →
  ∃ p' a, Sig.pending_signal_action sh p = Ok (p', a) ∧ dequeued sh p p' a.
Proof. intros Hp. apply (dequeue_spec sh 65 p 0); [lia|lia|done|]. intros s Hs. lia. Qed.

Definition signalled (group id pending mask : Z) : Process :=
  {| pid := id; tgid := group; ppid := 1; pgid := ROOT_PID; fds := 0; cwd := 0; umask := 18;
     brk_end := 0; mmap_next := 1; sigactions := 2; sigmask := mask; pending_signals := pending;
     signal_saved := []; signal_saved_mask := []; altstack := None; altstack_depth := 0; altstack_frames := []; exe_path := [];
     argv := []; envp := []; clear_child_tid := 0; asid := 0; vfork_done := None; stopped := false;
     stop_report := None |}.
Definition no_shared : Shared := {| cells := ∅; sigtables := ∅; done_flags := ∅; next_cell := 3; next_asid := 1 |}.

(** Signals 2 (blocked), 15, 17 (ignored by default) and 20 are pending. *)
Lemma pending_signal_action_lowest_witness :
  Sig.pending_signal_action no_shared (signalled ROOT_PID ROOT_PID 606210 2) = Ok (signalled ROOT_PID ROOT_PID 589826 2, Terminate 15) ∧
  ∃ p' a, Sig.pending_signal_action no_shared (signalled ROOT_PID ROOT_PID 606210 2) = Ok (p', a) ∧
    dequeued no_shared (signalled ROOT_PID ROOT_PID 606210 2) p' a.
Proof.
  split; [vm_compute; reflexivity|].
  apply (pending_signal_action_lowest no_shared (signalled ROOT_PID ROOT_PID 606210 2)). split; [vm_compute; discriminate|reflexivity].
Defined.

(** * Sending to a process *)
Section send.
Context {C : Type} (target bit : Z) (skip : Process → bool).
Implicit Types (t : ParkedTask C) (l pre : list (ParkedTask C)).

(** How good a thread is for the signal: 0 not a candidate, 1 and 2 blocked,
    3 and 4 unblocked, the even ones the group leader. *)
Definition rank t : Z :=
  let p := t_proc t in
  if negb (tgid p =? target) || skip p then 0
  else if Z.land (sigmask p) bit =? 0 then (if pid p =? target then 4 else 3)
  else if pid p =? target then 2 else 1.

Definition scanned pre (u f : option nat) : Prop :=
  match u with
  | Some j => (∃ t, pre !! j = Some t ∧ rank t = 3)
  | None => Forall (λ t, rank t ≤ 2) pre
  end ∧
  match f with
  | Some j => ∃ t, pre !! j = Some t ∧ 1 ≤ rank t ≤ 2 ∧ (rank t = 1 → Forall (λ t, rank t ≠ 2) pre)
  | None => Forall (λ t, rank t ≠ 1 ∧ rank t ≠ 2) pre
  end ∧ Forall (λ t, 0 ≤ rank t ≤ 3) pre.

Definition best l (i : option nat) : Prop :=
  match i with
  | Some j => ∃ t, l !! j = Some t ∧ 0 < rank t ∧ Forall (λ t', rank t' ≤ rank t) l
  | None => Forall (λ t, rank t = 0) l
  end.

Lemma scanned_best pre u f : scanned pre u f → best pre (Sig.or_else u f).
Proof.
  intros (Hu & Hf & Hr). destruct u as [j|]; cbn.
  - destruct Hu as (t & ? & ?). exists t. split_and!; [done|lia|]. eapply Forall_impl; [exact Hr|]. cbn. lia.
  - destruct f as [j|]; cbn.
    + destruct Hf as (t & ? & ? & Hf). exists t. split_and!; [done|lia|]. rewrite !Forall_forall in *.
      intros t' Ht'. specialize (Hu t' Ht'). specialize (Hr t' Ht'). destruct (decide (rank t = 1)); [|lia].
      specialize (Hf ltac:(done)). specialize (Hf t' Ht'). lia.
    + rewrite !Forall_forall in *. intros t Ht. specialize (Hu t Ht). specialize (Hf t Ht). specialize (Hr t Ht). lia.
Qed.

(** The rank of a task decides which branch of the scan it takes. *)
Lemma choose_cons i t l u f :
  Sig.choose target bit skip i (t :: l) u f =
    if rank t =? 4 then (Some i, f)
    else Sig.choose target bit skip (S i) l
           (if (rank t =? 3) && bool_decide (u = None) then Some i else u)
           (if (rank t =? 2) || (rank t =? 1) && bool_decide (f = None) then Some i else f).
Proof.
  cbn [Sig.choose]. unfold rank. destruct (negb (tgid (t_proc t) =? target) || skip (t_proc t)); [done|].
  destruct (Z.land (sigmask (t_proc t)) bit =? 0), (pid (t_proc t) =? target); cbn; try done;
    by destruct (bool_decide _).
Qed.

Lemma rank_range t : 0 ≤ rank t ≤ 4.
Proof. unfold rank. repeat case_match; lia. Qed.

Lemma scanned_snoc pre t u f :
  rank t ≠ 4 → scanned pre u f →
  scanned (pre ++ [t]) (if (rank t =? 3) && bool_decide (u = None) then Some (length pre) else u)
    (if (rank t =? 2) || (rank t =? 1) && bool_decide (f = None) then Some (length pre) else f).
Proof.
  intros Hr (Hu & Hf & Hall). pose proof (rank_range t) as Hrange. split_and!.
  - destruct u as [j|]; [rewrite andb_false_r|rewrite andb_true_r].
    + destruct Hu as (t' & ? & ?). exists t'. split; [by apply lookup_app_l_Some|done].
    + destruct (Z.eqb_spec (rank t) 3); [exists t; by rewrite list_lookup_middle|]. 
      apply Forall_app. split; [done|]. constructor; [lia|done].
  - destruct f as [j|]; [rewrite andb_false_r, orb_false_r|rewrite andb_true_r].
    + destruct (Z.eqb_spec (rank t) 2); [exists t; split_and!; [by rewrite list_lookup_middle|lia|lia|lia]|].
      destruct Hf as (t' & ? & ? & Hf). exists t'. split_and!; [by apply lookup_app_l_Some|lia|lia|].
      intros Ht'. apply Forall_app. split; [by apply Hf|]. by constructor.
    + destruct (Z.eqb_spec (rank t) 2); [exists t; split_and!; [by rewrite list_lookup_middle|lia|lia|lia]|].
      destruct (Z.eqb_spec (rank t) 1); cbn [orb].
      * exists t. split_and!; [by rewrite list_lookup_middle|lia|lia|]. intros _. apply Forall_app.
        split; [eapply Forall_impl; [exact Hf|]; cbn; lia|]. constructor; [lia|done].
      * apply Forall_app. split; [done|]. by constructor.
  - apply Forall_app. split; [done|]. constructor; [lia|done].
Qed.

Lemma choose_best pre l u f :
  scanned pre u f →
  let '(u', f') := Sig.choose target bit skip (length pre) l u f in best (pre ++ l) (Sig.or_else u' f').
Proof.
  revert pre u f. induction l as [|t l IH]; intros pre u f Hs.
  { rewrite app_nil_r. by apply scanned_best. }
  rewrite choose_cons. destruct (Z.eqb_spec (rank t) 4) as [H4|H4].
  - cbn. exists t. split_and!; [by apply list_lookup_middle|lia|]. apply Forall_forall. intros t' _.
    pose proof (rank_range t'). lia.
  - specialize (IH (pre ++ [t]) _ _ (scanned_snoc pre t u f H4 Hs)). rewrite length_app, Nat.add_1_r, <- app_assoc in IH.
    exact IH.
Qed.
End send.

Lemma pending_raise sig p s :
  1 ≤ sig → 1 ≤ s → pending (raise (bit_of sig) p) s ↔ pending p s ∨ s = sig.
Proof.
  intros. unfold pending, raise. cbn [with_pending pending_signals]. rewrite Z.lor_spec, testbit_bit_of by lia.
  rewrite orb_true_iff, Z.eqb_eq. intuition lia.
Qed.

Lemma raise_at_lookup {C} i bit (l : list (ParkedTask C)) j :
  Sig.raise_at i bit l !! j = (λ t, if decide (i = Some j) then raise_task bit t else t) <$> l !! j.
Proof.
  destruct i as [i|]; cbn [Sig.raise_at].
  - destruct (decide (Some i = Some j)) as [[= ->]|Hne]; [by rewrite list_lookup_alter_eq|].
    rewrite list_lookup_alter_ne by congruence. by destruct (l !! j).
  - by destruct (l !! j).
Qed.

(** The threads that ignore the signal are not candidates for it. *)
Abbreviation thread_rank sh target sig :=
  (rank target (bit_of sig) (λ p, negb (acts_on_signal sh p sig))).

(** What one thread is after a signal was sent to its process. *)
Definition sent_to {C} (sig : Z) (hit : bool) (t t' : ParkedTask C) : Prop :=
  if hit then t' = raise_task (bit_of sig) t ∧ ∀ s, 1 ≤ s → pending (t_proc t') s ↔ pending (t_proc t) s ∨ s = sig
  else t' = t.

(** A signal sent to another process is queued on exactly one of its
    threads, or on none if none acts on it: a thread of the highest rank, so
    one that does not block it if there is one, and the group leader among
    equals. Nothing else changes, and the caller learns whether the process
    exists even when the signal is ignored. *)
Theorem signal_process_one {C M} sh target sig (e : Tasks C M) :
  1 ≤ sig ≤ NSIG → tgid (cur e) ≠ target →
  let '(e', found) := Sig.signal_process sh target sig e in
  cur e' = cur e ∧ sched e' = set_parked (parked (sched e')) (sched e) ∧
  (found = true ↔ ∃ t, t ∈ parked (sched e) ∧ tgid (t_proc t) = target) ∧
  length (parked (sched e')) = length (parked (sched e)) ∧
  ((parked (sched e') = parked (sched e) ∧ Forall (λ t, thread_rank sh target sig t = 0) (parked (sched e))) ∨
   ∃ i t, parked (sched e) !! i = Some t ∧ 0 < thread_rank sh target sig t ∧
     Forall (λ t', thread_rank sh target sig t' ≤ thread_rank sh target sig t) (parked (sched e)) ∧
     ∀ j u u', parked (sched e) !! j = Some u → parked (sched e') !! j = Some u' → sent_to sig (bool_decide (j = i)) u u').
Proof.
  intros Hs Hne. unfold Sig.signal_process. unfold NSIG in *.
  rewrite (proj2 (Z.eqb_neq sig 0)), (proj2 (Z.ltb_ge 64 sig)), (proj2 (Z.eqb_neq _ _) Hne) by lia. cbn [orb].
  set (skip := λ p : Process, negb (acts_on_signal sh p sig)).
  pose proof (choose_best target (bit_of sig) skip [] (parked (sched e)) None None) as Hb.
  cbn [length app] in Hb. destruct (Sig.choose _ _ _ _ _ _ _) as [u f]. specialize (Hb ltac:(by repeat split)).
  cbn [cur sched set_tasks set_parked parked]. split; [done|]. split; [done|]. split.
  { rewrite existsb_exists. setoid_rewrite Z.eqb_eq. by setoid_rewrite list_elem_of_In. }
  split; [destruct (Sig.or_else u f); [apply length_alter|done]|].
  destruct (Sig.or_else u f) as [i|]; [right|by left]. destruct Hb as (t & Ht & Hr & Hall).
  exists i, t. split_and!; [done..|]. intros j v v' Hv. rewrite (raise_at_lookup (Some i)), Hv. intros [= <-].
  unfold sent_to. destruct (bool_decide_reflect (j = i)) as [->|].
  - rewrite decide_True by done. split; [done|]. intros s Hs'. apply pending_raise; lia.
  - by rewrite decide_False by congruence.
Qed.

(** The leader blocks SIGTERM, its first sibling does not. *)
Definition signal_tasks : Tasks () () :=
  let task id mask := {| t_proc := signalled ROOT_PID id 0 mask; t_cpu := (); t_state := Futex 16 false None |} in
  {| cur := signalled 7 7 0 0;
     sched := set_parked [task ROOT_PID (bit_of 15); task 1001 0; task 1002 0] Sched.new |}.

Lemma signal_process_one_witness :
  let '(e', found) := Sig.signal_process no_shared ROOT_PID 15 signal_tasks in
  found = true ∧ cur e' = cur signal_tasks ∧
  map (λ t, pending_signals (t_proc t)) (parked (sched e')) = [0; bit_of 15; 0].
Proof.
  assert (1 ≤ 15 ≤ NSIG) as Hs by (unfold NSIG; lia).
  assert (tgid (cur signal_tasks) ≠ ROOT_PID) as Hne by (vm_compute; discriminate).
  pose proof (signal_process_one no_shared ROOT_PID 15 signal_tasks Hs Hne) as Ho.
  destruct (Sig.signal_process no_shared ROOT_PID 15 signal_tasks) as [e' found] eqn:E.
  destruct Ho as (Hc & _). split; [|split; [exact Hc|]]; vm_compute in E; inversion E; reflexivity.
Defined.
