(* ===== verification/Text.v ===== *)
(** Text formats: the operations of Rust's [slice], [str] and integer types
    that the manifest parsers use, with the laws that relate parsing to
    printing. *)

From S2P Require Import Prelude.

(** * Splitting on a separator byte *)
Fixpoint split_on (sep : Z) (l : bytes) : list bytes :=
  match l with
  | [] => [[]]
  | b :: l =>
      if b =? sep then [] :: split_on sep l
      else match split_on sep l with
           | s :: r => (b :: s) :: r
           | [] => [[b]]
           end
  end.
Fixpoint join_with (sep : Z) (ls : list bytes) : bytes :=
  match ls with
  | [] => []
  | [s] => s
  | s :: r => s ++ sep :: join_with sep r
  end.

(** * Numbers
    [uN::from_str_radix] and [str::parse]: an optional sign, at least one
    digit, and a value of the type. An intermediate overflow implies an
    overflow of the value, so the range is checked once at the end. *)
Definition digit_of (radix b : Z) : option Z :=
  let d := if (48 <=? b) && (b <=? 57) then b - 48
           else if (97 <=? b) && (b <=? 122) then b - 87
           else if (65 <=? b) && (b <=? 90) then b - 55
           else radix in
  if d <? radix then Some d else None.
Fixpoint digits (radix acc : Z) (l : bytes) : option Z :=
  match l with
  | [] => Some acc
  | b :: l => d ← digit_of radix b; digits radix (acc * radix + d) l
  end.
Definition in_range (lo hi : Z) (x : option Z) : option Z :=
  v ← x; if (lo <=? v) && (v <=? hi) then Some v else None.
Definition from_str_radix (radix lo hi : Z) (l : bytes) : option Z :=
  match l with
  | [] => None
  | b :: r =>
      if bool_decide (r = []) && ((b =? 43) || (b =? 45)) then None
      else if b =? 43 then in_range lo hi (digits radix 0 r)
      else if (b =? 45) && (lo <? 0) then in_range lo hi (Z.opp <$> digits radix 0 r)
      else in_range lo hi (digits radix 0 l)
  end.
Definition I64_MIN : Z := - 2 ^ 63.
Definition I64_MAX : Z := 2 ^ 63 - 1.

(** [to_string] and [{:o}], for a radix of at most ten; 64 digits are enough
    for every 64-bit value. *)
Fixpoint show_digits (fuel : nat) (radix n : Z) (acc : bytes) : bytes :=
  match fuel with
  | O => acc
  | S fuel =>
      let acc := (48 + n mod radix) :: acc in
      if n / radix =? 0 then acc else show_digits fuel radix (n / radix) acc
  end.
Definition show_nat (radix n : Z) : bytes := show_digits 64 radix n [].
Definition show_int (n : Z) : bytes := if n <? 0 then 45 :: show_nat 10 (- n) else show_nat 10 n.

(** * UTF-8
    [lead] gives the ranges the continuation bytes after a first byte have to
    be in ([None]: no character starts with it). *)
Definition lead (b : Z) : option (list (Z * Z)) :=
  let c := (128, 191) in
  if b <? 128 then Some []
  else if (194 <=? b) && (b <=? 223) then Some [c]
  else if b =? 224 then Some [(160, 191); c]
  else if b =? 237 then Some [(128, 159); c]
  else if (225 <=? b) && (b <=? 239) then Some [c; c]
  else if b =? 240 then Some [(144, 191); c; c]
  else if (241 <=? b) && (b <=? 243) then Some [c; c; c]
  else if b =? 244 then Some [(128, 143); c; c]
  else None.
(** [str::from_utf8] succeeds. *)
Fixpoint utf8_from (need : list (Z * Z)) (l : bytes) : bool :=
  match l with
  | [] => bool_decide (need = [])
  | b :: l =>
      match need with
      | (lo, hi) :: need => (lo <=? b) && (b <=? hi) && utf8_from need l
      | [] => match lead b with Some need => utf8_from need l | None => false end
      end
  end.
Definition is_utf8 (l : bytes) : bool := utf8_from [] l.
(** [String::from_utf8_lossy]: each maximal broken piece of a character
    ([seen], the bytes of it so far) becomes U+FFFD. *)
Definition REPLACEMENT : bytes := [239; 191; 189].
Fixpoint lossy_from (seen : bytes) (need : list (Z * Z)) (l : bytes) : bytes :=
  match l with
  | [] => if bool_decide (need = []) then seen else REPLACEMENT
  | b :: l =>
      let start (out : bytes) :=
        out ++ match lead b with Some need => lossy_from [b] need l | None => REPLACEMENT ++ lossy_from [] [] l end in
      match need with
      | (lo, hi) :: need => if (lo <=? b) && (b <=? hi) then lossy_from (seen ++ [b]) need l else start REPLACEMENT
      | [] => start seen
      end
  end.
Definition from_utf8_lossy (l : bytes) : bytes := lossy_from [] [] l.

(** * Trimming and [splitn] *)
Definition is_ascii_whitespace (b : Z) : bool := (b =? 32) || (b =? 9) || (b =? 10) || (b =? 12) || (b =? 13).
Fixpoint position_of (f : Z → bool) (l : bytes) : option nat :=
  match l with
  | [] => None
  | b :: l => if f b then Some O else S <$> position_of f l
  end.
Fixpoint rposition_where (f : Z → bool) (l : bytes) : option nat :=
  match l with
  | [] => None
  | b :: l => match rposition_where f l with Some i => Some (S i) | None => if f b then Some O else None end
  end.
Fixpoint split_once (sep : Z) (l : bytes) : option (bytes * bytes) :=
  match l with
  | [] => None
  | b :: l => if b =? sep then Some ([], l) else '(s, r) ← split_once sep l; Some (b :: s, r)
  end.

(** * Lower-case hexadecimal *)
Definition nibble (d : Z) : Z := if d <? 10 then 48 + d else 87 + d.
Fixpoint hex_of (l : bytes) : bytes :=
  match l with
  | [] => []
  | b :: l => nibble (b / 16) :: nibble (b mod 16) :: hex_of l
  end.

(** * Laws *)
Lemma split_on_cons sep l : ∃ s r, split_on sep l = s :: r.
Proof. induction l as [|b l (s & r & E)]; cbn; [eauto|]. rewrite E. destruct (b =? sep); eauto. Qed.

Lemma join_with_cons sep s r : r ≠ [] → join_with sep (s :: r) = s ++ sep :: join_with sep r.
Proof. by destruct r. Qed.

Lemma split_on_no_sep sep l : Forall (λ s, sep ∉ s) (split_on sep l).
Proof.
  induction l as [|b l IH]; cbn; [repeat constructor; set_solver|].
  destruct (Z.eqb_spec b sep) as [->|]; [constructor; [set_solver|done]|].
  destruct (split_on_cons sep l) as (s & r & E). rewrite E in *. inversion_clear IH. constructor; [set_solver|done].
Qed.

Lemma join_split sep l : join_with sep (split_on sep l) = l.
Proof.
  induction l as [|b l IH]; cbn; [done|]. destruct (split_on_cons sep l) as (s & r & E). rewrite E in *.
  destruct (Z.eqb_spec b sep) as [->|].
  - rewrite join_with_cons by done. cbn [app]. by rewrite IH.
  - destruct r as [|s' r]; cbn [join_with app] in *; by rewrite IH.
Qed.

Lemma split_on_app_sep sep s l : sep ∉ s → split_on sep (s ++ sep :: l) = s :: split_on sep l.
Proof.
  induction s as [|b s IH]; intros Hs; cbn; [by rewrite Z.eqb_refl|].
  apply not_elem_of_cons in Hs as [Hne Hs]. rewrite (proj2 (Z.eqb_neq b sep)) by done. by rewrite IH.
Qed.
Lemma split_on_single sep s : sep ∉ s → split_on sep s = [s].
Proof.
  induction s as [|b s IH]; intros Hs; cbn; [done|].
  apply not_elem_of_cons in Hs as [Hne Hs]. rewrite (proj2 (Z.eqb_neq b sep)) by done. by rewrite IH.
Qed.

Lemma split_join sep ls : ls ≠ [] → Forall (λ s, sep ∉ s) ls → split_on sep (join_with sep ls) = ls.
Proof.
  intros Hne Hs. induction Hs as [|s ls Hs Hall IH]; [done|]. destruct ls as [|s' ls].
  - by apply split_on_single.
  - rewrite join_with_cons, split_on_app_sep by done. f_equal. by apply IH.
Qed.

(** ** Numbers *)
Section numbers.
Context (radix : Z) (Hradix : 2 ≤ radix ≤ 10).

Lemma digit_of_show d : 0 ≤ d < radix → digit_of radix (48 + d) = Some d.
Proof.
  intros Hd. unfold digit_of. rewrite (proj2 (Z.leb_le 48 _)), (proj2 (Z.leb_le _ 57)) by lia. cbn [andb].
  replace (48 + d - 48) with d by lia. by rewrite (proj2 (Z.ltb_lt d radix)) by lia.
Qed.

Lemma digits_show fuel n acc :
  0 ≤ n < radix ^ Z.of_nat fuel → (0 < fuel)%nat → digits radix 0 (show_digits fuel radix n acc) = digits radix n acc.
Proof.
  revert n acc. induction fuel as [|fuel IH]; intros n acc Hn Hf; [lia|]. cbn [show_digits].
  pose proof (Z.mod_pos_bound n radix) as Hm. pose proof (Z.div_mod n radix) as Hdm.
  destruct (Z.eqb_spec (n / radix) 0) as [H0|H0].
  - cbn [digits]. rewrite digit_of_show by lia. cbn. f_equal. lia.
  - assert (0 ≤ n / radix) by (apply Z.div_pos; lia). destruct fuel as [|fuel].
    { destruct H0. apply Z.div_small. cbn in Hn. lia. }
    rewrite IH; [| |lia].
    + cbn [digits]. rewrite digit_of_show by lia. cbn. f_equal. lia.
    + split; [done|]. apply Z.div_lt_upper_bound; [lia|]. rewrite <- Z.pow_succ_r by lia.
      replace (Z.succ (Z.of_nat (S fuel))) with (Z.of_nat (S (S fuel))) by lia. apply Hn.
Qed.

Lemma show_digits_chars fuel n acc :
  Forall (λ b, 48 ≤ b < 58) acc → Forall (λ b, 48 ≤ b < 58) (show_digits fuel radix n acc).
Proof.
  revert n acc. induction fuel as [|fuel IH]; intros n acc Ha; cbn [show_digits]; [done|].
  pose proof (Z.mod_pos_bound n radix). assert (Forall (λ b, 48 ≤ b < 58) (48 + n mod radix :: acc)) by (constructor; [lia|done]).
  destruct (_ =? 0); [done|]. by apply IH.
Qed.
Lemma show_nat_chars n : Forall (λ b, 48 ≤ b < 58) (show_nat radix n).
Proof. by apply show_digits_chars. Qed.
Lemma show_digits_ne fuel n acc : acc ≠ [] ∨ (0 < fuel)%nat → show_digits fuel radix n acc ≠ [].
Proof.
  revert n acc. induction fuel as [|fuel IH]; intros n acc [Ha|Hf]; cbn [show_digits]; [done|lia|..];
    (destruct (_ =? 0); [done|]; apply IH; by left).
Qed.

Lemma pow64_bound n : n < 2 ^ 64 → n < radix ^ Z.of_nat 64.
Proof. intros. apply Z.lt_le_trans with (2 ^ 64); [done|]. apply Z.pow_le_mono_l. lia. Qed.

Lemma digits_show_nat n : 0 ≤ n < 2 ^ 64 → digits radix 0 (show_nat radix n) = Some n.
Proof. intros Hn. unfold show_nat. rewrite digits_show; [done|split; [lia|apply pow64_bound; lia]|lia]. Qed.

Lemma from_str_show_nat lo hi n :
  0 ≤ n < 2 ^ 64 → lo ≤ n ≤ hi → from_str_radix radix lo hi (show_nat radix n) = Some n.
Proof.
  intros Hn Hr. pose proof (show_nat_chars n) as Hc. pose proof (digits_show_nat n Hn) as Hd.
  destruct (show_nat radix n) as [|b r] eqn:E; [by destruct (show_digits_ne 64 n []); [right; lia|]|].
  apply Forall_cons in Hc as [Hb _]. unfold from_str_radix.
  rewrite (proj2 (Z.eqb_neq b 43)), (proj2 (Z.eqb_neq b 45)), andb_false_r by lia. cbn [andb].
  rewrite Hd. cbn. by rewrite (proj2 (Z.leb_le lo n)), (proj2 (Z.leb_le n hi)) by lia.
Qed.
End numbers.

Lemma from_str_show_int n :
  I64_MIN ≤ n ≤ I64_MAX → from_str_radix 10 I64_MIN I64_MAX (show_int n) = Some n.
Proof.
  intros Hn. unfold show_int. destruct (Z.ltb_spec n 0); [|apply from_str_show_nat; unfold I64_MIN, I64_MAX in *; lia].
  unfold from_str_radix. assert (0 ≤ - n < 2 ^ 64) as Hb by (unfold I64_MIN in *; lia).
  rewrite (bool_decide_eq_false_2 (show_nat 10 (- n) = [])) by (apply show_digits_ne; right; lia). cbn [andb].
  change (45 =? 43) with false. change ((45 =? 45) && (I64_MIN <? 0)) with true. cbn iota.
  rewrite digits_show_nat by lia. cbn. rewrite Z.opp_involutive.
  by rewrite (proj2 (Z.leb_le I64_MIN n)), (proj2 (Z.leb_le n I64_MAX)) by lia.
Qed.
Lemma show_int_chars n : Forall (λ b, b = 45 ∨ 48 ≤ b < 58) (show_int n).
Proof.
  unfold show_int. assert (∀ k, Forall (λ b, b = 45 ∨ 48 ≤ b < 58) (show_nat 10 k)) as Hk.
  { intros k. eapply Forall_impl; [apply show_nat_chars; lia|]. cbn. auto. }
  destruct (n <? 0); [constructor; [by left|]|]; apply Hk.
Qed.

Lemma in_range_Some lo hi x v : in_range lo hi x = Some v → x = Some v ∧ lo ≤ v ≤ hi.
Proof. unfold in_range. destruct x as [y|]; cbn; [|done]. case_match eqn:E; [|done]. intros [= ->]. bool_to_prop. split; [done|lia]. Qed.
Lemma from_str_radix_range radix lo hi l v : from_str_radix radix lo hi l = Some v → lo ≤ v ≤ hi.
Proof.
  destruct l as [|b r]; cbn; [done|]. repeat case_match; try done; by intros [_ ?]%in_range_Some.
Qed.

(** ** UTF-8 *)
Lemma is_utf8_ascii l : Forall (λ b, 0 ≤ b < 128) l → is_utf8 l = true.
Proof.
  unfold is_utf8. induction 1 as [|b l Hb Hl IH]; cbn [utf8_from]; [done|]. unfold lead.
  by rewrite (proj2 (Z.ltb_lt b 128)) by lia.
Qed.

Lemma lossy_from_id seen need l : utf8_from need l = true → lossy_from seen need l = seen ++ l.
Proof.
  revert seen need. induction l as [|b l IH]; intros seen need; cbn [utf8_from lossy_from].
  { intros Hn. rewrite Hn. by rewrite app_nil_r. }
  destruct need as [|[lo hi] need].
  - destruct (lead b) as [need|]; [|done]. intros Hu. by rewrite IH.
  - intros [Hr Hu]%andb_true_iff. rewrite Hr, IH by done. by rewrite <- app_assoc.
Qed.
Lemma from_utf8_lossy_id l : is_utf8 l = true → from_utf8_lossy l = l.
Proof. apply (lossy_from_id [] []). Qed.

Lemma split_once_app sep s l : sep ∉ s → split_once sep (s ++ sep :: l) = Some (s, l).
Proof.
  induction s as [|b s IH]; intros Hs; cbn; [by rewrite Z.eqb_refl|].
  apply not_elem_of_cons in Hs as [Hne Hs]. rewrite (proj2 (Z.eqb_neq b sep)) by done. by rewrite IH.
Qed.

(** ** Hexadecimal *)
Definition is_lower_hex (b : Z) : bool := (48 <=? b) && (b <=? 57) || (97 <=? b) && (b <=? 102).
Lemma nibble_lower d : 0 ≤ d < 16 → is_lower_hex (nibble d) = true.
Proof.
  intros Hd. unfold is_lower_hex, nibble. destruct (Z.ltb_spec d 10).
  - by rewrite (proj2 (Z.leb_le 48 _)), (proj2 (Z.leb_le _ 57)) by lia.
  - rewrite (proj2 (Z.leb_le 97 _)), (proj2 (Z.leb_le _ 102)) by lia. by rewrite orb_true_r.
Qed.
Lemma hex_of_lower l : byte_list l → Forall (λ b, is_lower_hex b = true) (hex_of l).
Proof.
  induction 1 as [|b l Hb Hl IH]; cbn; [constructor|]. unfold fits in Hb.
  pose proof (Z.mod_pos_bound b 16). assert (0 ≤ b / 16 < 16) by (split; [apply Z.div_pos; lia|apply Z.div_lt_upper_bound; lia]).
  repeat constructor; [apply nibble_lower; lia|apply nibble_lower; lia|done].
Qed.
Lemma lower_hex_ascii b : is_lower_hex b = true → 48 ≤ b < 103.
Proof. unfold is_lower_hex. rewrite orb_true_iff, !andb_true_iff, !Z.leb_le. lia. Qed.
Lemma length_hex_of l : length (hex_of l) = (2 * length l)%nat.
Proof. induction l; cbn; lia. Qed.
Lemma digit_of_nibble d : 0 ≤ d < 16 → digit_of 16 (nibble d) = Some d.
Proof.
  intros Hd. unfold digit_of, nibble. destruct (Z.ltb_spec d 10).
  - rewrite (proj2 (Z.leb_le 48 _)), (proj2 (Z.leb_le _ 57)) by lia. cbn [andb].
    replace (48 + d - 48) with d by lia. by rewrite (proj2 (Z.ltb_lt d 16)) by lia.
  - rewrite (proj2 (Z.leb_gt _ 57)), andb_false_r by lia.
    rewrite (proj2 (Z.leb_le 97 _)), (proj2 (Z.leb_le _ 122)) by lia. cbn [andb].
    replace (87 + d - 87) with d by lia. by rewrite (proj2 (Z.ltb_lt d 16)) by lia.
Qed.
Lemma le_val_snoc l b : le_val (l ++ [b]) = le_val l + 2 ^ (8 * zlen l) * b.
Proof.
  induction l as [|a l IH]; [unfold zlen; cbn [app le_val length]; lia|]. cbn [app le_val]. rewrite IH, zlen_cons.
  replace (8 * (zlen l + 1)) with (8 + 8 * zlen l) by lia. pose proof (zlen_nonneg l).
  rewrite Z.pow_add_r by lia. change (2 ^ 8) with 256. ring.
Qed.
Lemma digits_hex_of l acc : byte_list l → digits 16 acc (hex_of l) = Some (acc * 2 ^ (8 * zlen l) + be_val l).
Proof.
  revert acc. induction l as [|b l IH]; intros acc Hl; [unfold zlen, be_val; cbn [hex_of digits length rev le_val]; f_equal; lia|].
  apply Forall_cons in Hl as [Hb Hl]. unfold fits in Hb. cbn [hex_of digits]. pose proof (Z.mod_pos_bound b 16).
  assert (0 ≤ b / 16 < 16) by (split; [apply Z.div_pos; lia|apply Z.div_lt_upper_bound; lia]).
  rewrite !digit_of_nibble by lia. cbn [mbind option_bind]. rewrite IH by done. f_equal.
  unfold be_val. cbn [rev]. rewrite le_val_snoc. unfold zlen. rewrite length_rev. cbn [length].
  replace (8 * Z.of_nat (S (length l))) with (8 + 8 * Z.of_nat (length l)) by lia. rewrite Z.pow_add_r by lia.
  change (2 ^ 8) with 256. pose proof (Z.div_mod b 16). nia.
Qed.
