(* ===== verification/ChunkManifest.v ===== *)
(** The canonical manifest of a chunk-backed image
    ([crates/linux-compat/src/chunk_manifest.rs]): its parser, with an error
    for each way a line is refused. *)

From S2P Require Import Prelude BTree Text Digest Chunk.

(** [HEADER]: "webtos-chunk-manifest 1". *)
Definition HEADER : bytes :=
  [119; 101; 98; 116; 111; 115; 45; 99; 104; 117; 110; 107; 45; 109; 97; 110; 105; 102; 101; 115; 116; 32; 49].

Inductive EntryKind :=
| EDir
| ESymlink (target : bytes)
| EFile (file : ChunkedFile) (legacy_fnv : Z).
Record Entry := { e_path : bytes; e_mode : Z; e_mtime_sec : Z; e_kind : EntryKind }.
Record ChunkManifest := { cm_root : bytes; cm_entries : list Entry }.

Inductive HexError := HexOddLength | HexNotLowercase.
Inductive LineError :=
| LineEmpty | LineNotUtf8 | LineTruncated | InvalidMode | NoncanonicalMode | InvalidMtime | NoncanonicalMtime
| PathHex (e : HexError) | PathNotAbsolute | PathNotCanonical | PathsNotSorted | PathNamedTwice
| TargetHex (e : HexError) | BadTarget | InvalidSize | InvalidChunkSize | NoncanonicalLayout
| InvalidFnv | FnvLength | FnvNotLowercase | HashHex (e : HexError) | HashNotSha256 | BadFileLayout (e : LayoutError)
| UnknownTag.
Inductive ManifestError :=
| NoFinalNewline | NoHeader | BadLine (line_no : Z) (e : LineError) | NamesNothing | NoParent (parent path : bytes).

(** [decode_hex] *)
Definition lower_digit (b : Z) : option Z :=
  if (48 <=? b) && (b <=? 57) then Some (b - 48)
  else if (97 <=? b) && (b <=? 102) then Some (b - 97 + 10)
  else None.
Fixpoint decode_pairs (pairs : list bytes) : res HexError bytes :=
  match pairs with
  | [] => Ok []
  | p :: rest =>
      let! hi := ok_or (lower_digit (nth 0 p 0)) HexNotLowercase in
      let! lo := ok_or (lower_digit (nth 1 p 0)) HexNotLowercase in
      let! out := decode_pairs rest in
      Ok (Z.lor (Z.shiftl hi 4) lo :: out)
  end.
Definition decode_hex (text : bytes) : res HexError bytes :=
  if negb (is_multiple_of (zlen text) 2) then Err HexOddLength else decode_pairs (as_chunks 2 text).1.

(** [.map_err(f)] *)
Definition map_err {E E' A} (f : E → E') (m : res E A) : res E' A :=
  match m with Ok a => Ok a | Err e => Err (f e) | Panic => Panic end.

(** [parse_octal] *)
Definition parse_octal (text : bytes) : res LineError Z :=
  let! value := ok_or (from_str_radix 8 0 U32_MAX text) InvalidMode in
  if 4095 <? value then Err InvalidMode
  else if negb (bool_decide (show_nat 8 value = text)) then Err NoncanonicalMode
  else Ok value.

Fixpoint has_double_slash (path : bytes) : bool :=
  match path with
  | [] => false
  | a :: rest => (a =? 47) && bool_decide (head rest = Some 47) || has_double_slash rest
  end.
Definition noncanonical (path : bytes) : bool :=
  (1 <? zlen path) && bool_decide (last path = Some 47)
  || has_double_slash path
  || existsb (λ part, bool_decide (part = [46]) || bool_decide (part = [46; 46])) (split_on 47 path).

Section lines.
Abbreviation line := (res LineError).

Definition field (fields : list bytes) (i : nat) : line bytes := ok_or (fields !! i) LineTruncated.

Fixpoint parse_hashes (texts : list bytes) : line (list Hash) :=
  match texts with
  | [] => Ok []
  | t :: rest =>
      let! raw := map_err HashHex (decode_hex t) in
      if (length raw =? 32)%nat then let! hs := parse_hashes rest in Ok (raw :: hs)
      else Err HashNotSha256
  end.

(** The three arms of the match on the tag. *)
Definition parse_symlink (fields : list bytes) : line EntryKind :=
  let! f4 := field fields 4 in
  let! target := map_err TargetHex (decode_hex f4) in
  if bool_decide (target = []) || existsb (Z.eqb 0) target then Err BadTarget
  else Ok (ESymlink target).
Definition parse_file (fields : list bytes) : line EntryKind :=
  let! f4 := field fields 4 in
  let! size := ok_or (from_str_radix 10 0 U64_MAX f4) InvalidSize in
  let! f5 := field fields 5 in
  let! csize := ok_or (from_str_radix 10 0 U32_MAX f5) InvalidChunkSize in
  if negb (bool_decide (show_nat 10 size = f4)) || negb (bool_decide (show_nat 10 csize = f5)) then Err NoncanonicalLayout
  else
    let! f6 := field fields 6 in
    let! fnv := ok_or (from_str_radix 16 0 U64_MAX f6) InvalidFnv in
    if negb (length f6 =? 16)%nat then Err FnvLength
    else if negb (forallb is_lower_hex f6) then Err FnvNotLowercase
    else
      let! f7 := field fields 7 in
      let! hashes := if bool_decide (f7 = []) then Ok [] else parse_hashes (split_on 44 f7) in
      let! file := map_err BadFileLayout (Layout.new size csize hashes) in
      Ok (EFile file fnv).
Definition parse_kind (tag : bytes) (fields : list bytes) : line EntryKind :=
  if bool_decide (tag = [100]) && (length fields =? 4)%nat then Ok EDir
  else if bool_decide (tag = [108]) && (length fields =? 5)%nat then parse_symlink fields
  else if bool_decide (tag = [102]) && (length fields =? 8)%nat then parse_file fields
  else Err UnknownTag.

(** The body of the loop over the lines: the state is the entries so far, the
    paths seen and the previous path. *)
Record Progress := { found : list Entry; paths : gset bytes; previous : option bytes }.
Definition parse_line (text : bytes) (st : Progress) : line Progress :=
  if bool_decide (text = []) then Err LineEmpty
  else if negb (is_utf8 text) then Err LineNotUtf8
  else
    let fields := split_on 32 text in
    let! tag := field fields 0 in
    let! f1 := field fields 1 in
    let! mode := parse_octal f1 in
    let! f2 := field fields 2 in
    let! mtime := ok_or (from_str_radix 10 I64_MIN I64_MAX f2) InvalidMtime in
    if negb (bool_decide (show_int mtime = f2)) then Err NoncanonicalMtime
    else
      let! f3 := field fields 3 in
      let! path := map_err PathHex (decode_hex f3) in
      if negb (bool_decide (head path = Some 47)) || existsb (Z.eqb 0) path then Err PathNotAbsolute
      else if noncanonical path then Err PathNotCanonical
      else if match previous st with Some before => bool_decide (lex_cmp before path ≠ Lt) | None => false end
      then Err PathsNotSorted
      else if bool_decide (path ∈ paths st) then Err PathNamedTwice
      else
        let! kind := parse_kind tag fields in
        Ok {| found := found st ++ [{| e_path := path; e_mode := mode; e_mtime_sec := mtime; e_kind := kind |}];
              paths := {[path]} ∪ paths st; previous := Some path |}.
Fixpoint parse_lines (line_no : Z) (lines : list bytes) (st : Progress) : res ManifestError Progress :=
  match lines with
  | [] => Ok st
  | l :: lines =>
      let! st := map_err (BadLine line_no) (parse_line l st) in
      parse_lines (line_no + 1) lines st
  end.
End lines.

(** The check that every path has a parent directory. *)
Definition is_edir (e : Entry) : bool := match e_kind e with EDir => true | _ => false end.
Fixpoint rposition_of (b : Z) (l : bytes) : option nat :=
  match l with
  | [] => None
  | x :: l => match rposition_of b l with Some i => Some (S i) | None => if x =? b then Some O else None end
  end.
Fixpoint check_parents (directories : gset bytes) (es : list Entry) : res ManifestError () :=
  match es with
  | [] => Ok ()
  | e :: es =>
      if bool_decide (e_path e = [47]) then check_parents directories es
      else
        let! slash := expect (rposition_of 47 (e_path e)) in
        let parent := if (slash =? 0)%nat then [47] else take slash (e_path e) in
        if negb (bool_decide (parent = [47])) && negb (bool_decide (parent ∈ directories))
        then Err (NoParent parent (e_path e))
        else check_parents directories es
  end.

Module Manifest_chunks.
Definition parse `{Host} (b : bytes) : res ManifestError ChunkManifest :=
  if negb (bool_decide (last b = Some 10)) then Err NoFinalNewline
  else
    let body := take (length b - 1) b in
    match split_on 10 body with
    | first :: lines =>
        if negb (bool_decide (first = HEADER)) then Err NoHeader
        else
          let! st := parse_lines 2 lines {| found := []; paths := ∅; previous := None |} in
          if bool_decide (found st = []) then Err NamesNothing
          else
            let! _ := check_parents (list_to_set (map e_path (List.filter is_edir (found st)))) (found st) in
            Ok {| cm_root := sha256 b; cm_entries := found st |}
    | [] => Err NoHeader
    end.
(** [file] *)
Definition file (path : bytes) (m : ChunkManifest) : option (ChunkedFile * Z) :=
  match List.find (λ e, bool_decide (e_path e = path) &&
                        match e_kind e with EFile _ _ => true | _ => false end) (cm_entries m) with
  | Some e => match e_kind e with EFile f fnv => Some (f, fnv) | _ => None end
  | None => None
  end.
End Manifest_chunks.
