(* ===== verification/ChunkManifestSpec.v ===== *)
(** The manifest format is canonical: the parser accepts exactly one text per
    well-formed image, and reads back the image that text was printed from. *)

From stdpp Require Import sorting.
From S2P Require Import Prelude BTree Text Digest Chunk ChunkManifest.

(** * Hexadecimal fields *)
Lemma as_chunks_pair a b t : (as_chunks 2 (a :: b :: t)).1 = [a; b] :: (as_chunks 2 t).1.
Proof.
  destruct (as_chunks_split 2 t) as (bs & r & He & Hc & Hbs & Hr); [lia|]. rewrite He, Hc.
  change (a :: b :: concat bs ++ r) with (concat ([a; b] :: bs) ++ r).
  by rewrite as_chunks_concat by (done || by constructor).
Qed.

Lemma lower_digit_spec b d : lower_digit b = Some d ↔ 0 ≤ d < 16 ∧ b = nibble d.
Proof.
  unfold lower_digit, nibble. split.
  - destruct ((48 <=? b) && (b <=? 57)) eqn:E1; [|destruct ((97 <=? b) && (b <=? 102)) eqn:E2; [|done]];
      intros [= <-]; bool_to_prop.
    + rewrite (proj2 (Z.ltb_lt _ 10)) by lia. lia.
    + rewrite (proj2 (Z.ltb_ge _ 10)) by lia. lia.
  - intros [Hd ->]. destruct (Z.ltb_spec d 10).
    + rewrite (proj2 (Z.leb_le 48 _)), (proj2 (Z.leb_le _ 57)) by lia. cbn [andb]. f_equal. lia.
    + rewrite (proj2 (Z.leb_gt _ 57)), andb_false_r by lia.
      rewrite (proj2 (Z.leb_le 97 _)), (proj2 (Z.leb_le _ 102)) by lia. cbn [andb]. f_equal. lia.
Qed.

Lemma lor_nibbles hi lo : 0 ≤ hi < 16 → 0 ≤ lo < 16 → Z.lor (Z.shiftl hi 4) lo = 16 * hi + lo.
Proof.
  intros Hh Hl. rewrite Z.shiftl_mul_pow2 by lia. change (2 ^ 4) with 16.
  rewrite <- Z.add_nocarry_lor; [lia|]. apply Z.bits_inj'. intros n Hn. rewrite Z.land_spec, Z.bits_0.
  destruct (decide (n < 4)).
  - change 16 with (2 ^ 4). by rewrite Z.mul_pow2_bits_low by lia.
  - rewrite (Z.bits_above_log2 lo), andb_false_r; [done|lia|].
    destruct (decide (lo = 0)) as [->|]; [cbn; lia|]. apply Z.log2_lt_pow2; [lia|].
    apply Z.lt_le_trans with (2 ^ 4); [lia|]. apply Z.pow_le_mono_r; lia.
Qed.

Lemma decode_hex_of b : byte_list b → decode_hex (hex_of b) = Ok b.
Proof.
  intros Hb. unfold decode_hex, is_multiple_of, zlen. rewrite length_hex_of.
  replace (Z.of_nat (2 * length b)) with (Z.of_nat (length b) * 2) by lia. rewrite Z.mod_mul by lia. cbn [negb].
  change (0 =? 0) with true. cbn [negb]. induction Hb as [|x b Hx Hb IH]; [done|]. cbn [hex_of]. rewrite as_chunks_pair.
  unfold fits in Hx. pose proof (Z.mod_pos_bound x 16). pose proof (Z.div_mod x 16).
  assert (0 ≤ x / 16 < 16) by (split; [apply Z.div_pos; lia|apply Z.div_lt_upper_bound; lia]).
  cbn [decode_pairs nth]. rewrite (proj2 (lower_digit_spec (nibble (x / 16)) _)) by (split; [|done]; lia).
  rewrite (proj2 (lower_digit_spec (nibble (x mod 16)) _)) by (split; [|done]; lia). cbn [ok_or rbind].
  rewrite IH. cbn [rbind]. rewrite lor_nibbles by lia. do 2 f_equal. lia.
Qed.

Lemma decode_pairs_inv bs b :
  Forall (λ p, length p = 2%nat) bs → decode_pairs bs = Ok b → concat bs = hex_of b ∧ byte_list b.
Proof.
  intros Hbs. revert b. induction Hbs as [|p bs Hp Hbs IH]; intros b; cbn [decode_pairs].
  { intros [= <-]. split; [done|constructor]. }
  destruct p as [|h [|l [|]]]; try done. cbn [nth]. intros H.
  destruct (lower_digit h) as [dh|] eqn:Eh; [|done]. destruct (lower_digit l) as [dl|] eqn:El; [|done].
  apply lower_digit_spec in Eh as [Hdh ->]. apply lower_digit_spec in El as [Hdl ->]. cbn [ok_or rbind] in H.
  destruct (decode_pairs bs) as [out| |]; try done. injection H as <-. destruct (IH out eq_refl) as [Hc Ho].
  rewrite lor_nibbles by done. cbn [concat app hex_of]. rewrite Hc. split; [|constructor; [unfold fits; lia|done]].
  rewrite (Z.mul_comm 16 dh), Z.div_add_l, (Z.div_small dl), Z.add_0_r by lia.
  by rewrite (Z.add_comm (dh * 16)), Z.mod_add, Z.mod_small by lia.
Qed.

Lemma decode_hex_inv t b : decode_hex t = Ok b → t = hex_of b ∧ byte_list b.
Proof.
  unfold decode_hex, is_multiple_of. destruct (Z.eqb_spec (zlen t mod 2) 0) as [Hm|]; [|done]. cbn [negb].
  destruct (as_chunks_split 2 t) as (bs & r & He & Hc & Hbs & Hr); [lia|]. rewrite He. cbn [fst]. intros Hd.
  apply decode_pairs_inv in Hd as [Hd Hb]; [|done]. rewrite Hd in Hc. split; [|done]. rewrite Hc.
  destruct r as [|x [|]]; [by rewrite app_nil_r| |cbn in Hr; lia].
  exfalso. rewrite Hc in Hm. unfold zlen in Hm. rewrite length_app, length_hex_of in Hm. cbn [length] in Hm.
  apply Z.mod_divide in Hm as [k Hk]; lia.
Qed.

(** * The format: what an image is printed as *)
Definition tag_of (k : EntryKind) : bytes :=
  match k with EDir => [100] | ESymlink _ => [108] | EFile _ _ => [102] end.
Definition kind_fields (k : EntryKind) : list bytes :=
  match k with
  | EDir => []
  | ESymlink target => [hex_of target]
  | EFile f fnv =>
      [show_nat 10 (cf_size f); show_nat 10 (chunk_size f); hex_of (be_bytes 8 fnv);
       join_with 44 (map hex_of (cf_chunks f))]
  end.
Definition print_fields (e : Entry) : list bytes :=
  tag_of (e_kind e) :: show_nat 8 (e_mode e) :: show_int (e_mtime_sec e) :: hex_of (e_path e) :: kind_fields (e_kind e).
Definition print_line (e : Entry) : bytes := join_with 32 (print_fields e).
Definition print_image (es : list Entry) : bytes := join_with 10 (HEADER :: map print_line es) ++ [10].

(** * Well-formed images *)
(** A name that can be a component of a path. *)
Definition name_ok (s : bytes) : Prop := s ≠ [] ∧ s ≠ [46] ∧ s ≠ [46; 46].
(** The root, or a slash before each of its names. *)
Definition path_ok (p : bytes) : Prop :=
  byte_list p ∧ (0 ∉ p) ∧ ∃ q, p = 47 :: q ∧ (q = [] ∨ Forall name_ok (split_on 47 q)).
Definition kind_ok (k : EntryKind) : Prop :=
  match k with
  | EDir => True
  | ESymlink target => byte_list target ∧ target ≠ [] ∧ (0 ∉ target)
  | EFile f fnv =>
      is_u64 (cf_size f) ∧ is_u32 (chunk_size f) ∧ is_u64 fnv ∧
      Forall (λ h, byte_list h ∧ length h = 32%nat) (cf_chunks f) ∧
      Layout.new (cf_size f) (chunk_size f) (cf_chunks f) = Ok f
  end.
Definition entry_ok (e : Entry) : Prop :=
  0 ≤ e_mode e ≤ 4095 ∧ I64_MIN ≤ e_mtime_sec e ≤ I64_MAX ∧ path_ok (e_path e) ∧ kind_ok (e_kind e).
Definition before (a b : Entry) : Prop := lex_cmp (e_path a) (e_path b) = Lt.
(** Every directory on the way to an entry is itself an entry. *)
Definition parents_named (es : list Entry) : Prop :=
  ∀ e dir name, e ∈ es → e_path e = dir ++ 47 :: name → 47 ∉ name →
    dir = [] ∨ ∃ d, d ∈ es ∧ e_kind d = EDir ∧ e_path d = dir.
Definition image_ok (es : list Entry) : Prop :=
  es ≠ [] ∧ Forall entry_ok es ∧ StronglySorted before es ∧ parents_named es.

(** ** Canonical paths *)
Lemma empty_part q :
  [] ∈ tail (split_on 47 q) ↔ has_double_slash q = true ∨ last q = Some 47.
Proof.
  induction q as [|b q IH]; cbn [split_on has_double_slash].
  { cbn. split; [set_solver|]. intros [?|?]; done. }
  destruct (split_on_cons 47 q) as (s & r & E). rewrite E in *. cbn [tail] in IH.
  assert (s = [] ↔ q = [] ∨ head q = Some 47) as Hs.
  { destruct q as [|c q]; cbn [split_on] in E; [injection E as <- <-; naive_solver|].
    cbn [head]. destruct (Z.eqb_spec c 47) as [->|]; [injection E as <- <-; naive_solver|].
    destruct (split_on_cons 47 q) as (? & ? & E'). rewrite E' in E. injection E as <- <-.
    split; [done|]. by intros [?|[= ?]]. }
  rewrite orb_true_iff, andb_true_iff, Z.eqb_eq, bool_decide_eq_true.
  destruct (Z.eqb_spec b 47) as [->|Hb]; cbn [tail].
  - rewrite elem_of_cons, IH. destruct q as [|c q]; [naive_solver|]. change (last (47 :: c :: q)) with (last (c :: q)). naive_solver.
  - rewrite IH. destruct q as [|c q]; [cbn; naive_solver|]. change (last (b :: c :: q)) with (last (c :: q)). naive_solver.
Qed.

Lemma noncanonical_spec q : noncanonical (47 :: q) = false ↔ q = [] ∨ Forall name_ok (split_on 47 q).
Proof.
  destruct (decide (q = [])) as [->|Hq]; [cbn; tauto|]. unfold noncanonical.
  rewrite (proj2 (Z.ltb_lt 1 (zlen (47 :: q)))) by (rewrite zlen_cons; destruct q; [done|]; rewrite zlen_cons; pose proof (zlen_nonneg q); lia).
  cbn [andb]. pose proof (empty_part (47 :: q)) as Hp. cbn [split_on tail] in *. rewrite Z.eqb_refl in *. cbn [tail] in Hp.
  generalize dependent (has_double_slash (47 :: q)). intros d Hp.
  rewrite <- not_true_iff_false, !orb_true_iff, bool_decide_eq_true, existsb_exists.
  setoid_rewrite orb_true_iff. setoid_rewrite bool_decide_eq_true. rewrite Forall_forall. unfold name_ok.
  setoid_rewrite <- list_elem_of_In. setoid_rewrite elem_of_cons. split.
  - intros Hn. right. intros s Hs. split_and!; intros ->; apply Hn; [left; tauto|right..]; eexists; split; [by right|by left|by right|by right].
  - intros [?|Hall] [Hd|(s & [->|Hs] & Hdot)]; [done..| |by destruct Hdot| ].
    + by destruct (Hall []) as [? _]; [tauto|].
    + by destruct (Hall s Hs) as (_ & ? & ?), Hdot.
Qed.

(** * Fields *)
Lemma lower_hex_nibble b : is_lower_hex b = true → ∃ d, 0 ≤ d < 16 ∧ b = nibble d.
Proof.
  intros Hb. assert (is_Some (lower_digit b)) as [d Hd].
  { unfold is_lower_hex, lower_digit in *. destruct ((48 <=? b) && (b <=? 57)); [eauto|]. cbn [orb] in Hb. rewrite Hb. eauto. }
  apply lower_digit_spec in Hd. eauto.
Qed.
Lemma lower_hex_text n t :
  length t = (2 * n)%nat → Forall (λ b, is_lower_hex b = true) t → ∃ b, t = hex_of b ∧ byte_list b ∧ length b = n.
Proof.
  revert t. induction n as [|n IH]; intros t Hl Ht; [destruct t; [|done]; exists []; split_and!; [done|constructor|done]|].
  destruct t as [|x [|y t]]; [done|cbn in Hl; lia|]. apply Forall_cons in Ht as [Hx Ht]. apply Forall_cons in Ht as [Hy Ht].
  destruct (lower_hex_nibble x Hx) as (dx & Hdx & ->), (lower_hex_nibble y Hy) as (dy & Hdy & ->).
  destruct (IH t) as (b & -> & Hb & <-); [cbn in Hl; lia|done|]. exists (16 * dx + dy :: b). split_and!.
  - cbn [hex_of]. rewrite (Z.mul_comm 16 dx), Z.div_add_l, (Z.div_small dy), Z.add_0_r by lia.
    by rewrite (Z.add_comm (dx * 16)), Z.mod_add, Z.mod_small by lia.
  - constructor; [unfold fits; lia|done].
  - done.
Qed.

Lemma from_str_hex b n :
  byte_list b → b ≠ [] → be_val b ≤ n → from_str_radix 16 0 n (hex_of b) = Some (be_val b).
Proof.
  intros Hb Hne Hn. pose proof (hex_of_lower b Hb) as Hl. pose proof (digits_hex_of b 0 Hb) as Hd.
  destruct (hex_of b) as [|x r] eqn:E; [by destruct b|]. apply Forall_cons in Hl as [Hx _]. apply lower_hex_ascii in Hx.
  unfold from_str_radix. rewrite (proj2 (Z.eqb_neq x 43)), (proj2 (Z.eqb_neq x 45)), andb_false_r by lia. cbn [andb].
  rewrite Hd, Z.mul_0_l, Z.add_0_l. unfold in_range. cbn [mbind option_bind].
  rewrite (proj2 (Z.leb_le _ n)), (proj2 (Z.leb_le 0 (be_val b))); [done| |done].
  unfold be_val. apply le_val_bound. by apply Forall_rev.
Qed.

Lemma be_bytes_of_val b : byte_list b → be_bytes (length b) (be_val b) = b.
Proof.
  intros Hb. unfold be_bytes, be_val. rewrite <- (length_rev b), le_bytes_val by by apply Forall_rev. by rewrite rev_involutive.
Qed.

(** The checksum field is the sixteen digits of a 64-bit number. *)
Lemma fnv_field_of v : is_u64 v →
  from_str_radix 16 0 U64_MAX (hex_of (be_bytes 8 v)) = Some v ∧
  length (hex_of (be_bytes 8 v)) = 16%nat ∧ forallb is_lower_hex (hex_of (be_bytes 8 v)) = true.
Proof.
  intros Hv. pose proof (be_bytes_byte_list 8 v) as Hb. split_and!.
  - rewrite from_str_hex; rewrite ?be_val_bytes_id by done; unfold_widths; [done|done| |lia].
    intros E. apply (f_equal length) in E. by rewrite length_be_bytes in E.
  - by rewrite length_hex_of, length_be_bytes.
  - apply forallb_forall. intros x Hx%list_elem_of_In. pose proof (hex_of_lower _ Hb) as Hl. rewrite Forall_forall in Hl. auto.
Qed.
Lemma fnv_field_inv t v :
  from_str_radix 16 0 U64_MAX t = Some v → length t = 16%nat → forallb is_lower_hex t = true →
  t = hex_of (be_bytes 8 v) ∧ is_u64 v.
Proof.
  intros Hp Hl Hf. destruct (lower_hex_text 8 t) as (b & -> & Hb & Hlb); [done| |].
  { apply Forall_forall. intros x Hx%list_elem_of_In. rewrite forallb_forall in Hf. auto. }
  assert (is_u64 (be_val b)) as Hv.
  { unfold be_val. pose proof (le_val_bound (rev b)) as Hr. unfold zlen in Hr. rewrite length_rev, Hlb in Hr.
    apply Hr. by apply Forall_rev. }
  rewrite from_str_hex in Hp; [|done|by destruct b|unfold_widths; lia]. injection Hp as <-.
  split; [|done]. rewrite <- Hlb. by rewrite be_bytes_of_val.
Qed.

(** The list of digests. *)
Definition hash_ok (h : Hash) : Prop := byte_list h ∧ length h = 32%nat.
Lemma hex_no_comma h sep : byte_list h → sep < 48 → sep ∉ hex_of h.
Proof.
  intros Hh Hs Hin. pose proof (hex_of_lower h Hh) as Hl. rewrite Forall_forall in Hl. apply Hl, lower_hex_ascii in Hin. lia.
Qed.
Lemma parse_hashes_of hs : Forall hash_ok hs → parse_hashes (map hex_of hs) = Ok hs.
Proof.
  induction 1 as [|h hs [Hb Hl] _ IH]; [done|]. cbn [map parse_hashes]. rewrite decode_hex_of by done. cbn [map_err rbind].
  rewrite Hl. cbn [Nat.eqb]. by rewrite IH.
Qed.
Lemma parse_hashes_inv ts hs : parse_hashes ts = Ok hs → ts = map hex_of hs ∧ Forall hash_ok hs.
Proof.
  revert hs. induction ts as [|t ts IH]; intros hs; cbn [parse_hashes]; [intros [= <-]; split; [done|constructor]|].
  destruct (decode_hex t) as [raw| |] eqn:Ed; cbn [map_err rbind]; [|done..].
  destruct (Nat.eqb_spec (length raw) 32) as [Hl|]; [|done]. destruct (parse_hashes ts) as [hs'| |]; cbn [rbind]; [|done..].
  intros [= <-]. destruct (IH hs' eq_refl) as [-> Hh]. apply decode_hex_inv in Ed as [-> Hb].
  split; [done|]. by constructor.
Qed.
Definition parse_hash_list (t : bytes) : res LineError (list Hash) :=
  if bool_decide (t = []) then Ok [] else parse_hashes (split_on 44 t).
Lemma hash_list_of hs : Forall hash_ok hs → parse_hash_list (join_with 44 (map hex_of hs)) = Ok hs.
Proof.
  intros Hh. unfold parse_hash_list. destruct hs as [|h hs]; [done|]. rewrite bool_decide_eq_false_2.
  - rewrite split_join; [by apply parse_hashes_of|done|]. apply Forall_map. eapply Forall_impl; [exact Hh|].
    intros x [Hb _]. by apply hex_no_comma.
  - apply Forall_cons in Hh as [[_ Hl] _]. destruct h as [|x h]; [done|]. cbn [map hex_of]. destruct hs; done.
Qed.
Lemma hash_list_inv t hs : parse_hash_list t = Ok hs → t = join_with 44 (map hex_of hs) ∧ Forall hash_ok hs.
Proof.
  unfold parse_hash_list. destruct (bool_decide_reflect (t = [])) as [->|]; [intros [= <-]; split; [done|constructor]|].
  intros [He Hh]%parse_hashes_inv. split; [|done]. by rewrite <- He, join_split.
Qed.

(** * Kinds *)
Lemma existsb_zero l : existsb (Z.eqb 0) l = false ↔ 0 ∉ l.
Proof.
  rewrite <- not_true_iff_false, existsb_exists. setoid_rewrite Z.eqb_eq. setoid_rewrite <- list_elem_of_In. naive_solver.
Qed.

Lemma layout_new_fields s c hs f : Layout.new s c hs = Ok f → cf_size f = s ∧ chunk_size f = c ∧ cf_chunks f = hs.
Proof. unfold Layout.new. repeat case_match; intros [= <-]; done. Qed.

Lemma parse_file_of pre f fnv :
  length pre = 4%nat → kind_ok (EFile f fnv) → parse_file (pre ++ kind_fields (EFile f fnv)) = Ok (EFile f fnv).
Proof.
  intros Hpre (Hs & Hc & Hv & Hh & Hnew). destruct pre as [|p0 [|p1 [|p2 [|p3 [|]]]]]; try done.
  unfold parse_file, field. cbn [app kind_fields lookup list_lookup ok_or rbind]. unfold fits in Hs, Hc.
  rewrite !from_str_show_nat by (unfold_widths; lia). cbn [ok_or rbind]. rewrite !bool_decide_eq_true_2 by done. cbn [negb orb].
  destruct (fnv_field_of fnv Hv) as (-> & -> & ->). cbn [ok_or rbind Nat.eqb negb].
  fold (parse_hash_list (join_with 44 (map hex_of (cf_chunks f)))). rewrite hash_list_of by done. cbn [rbind].
  by rewrite Hnew.
Qed.

Lemma parse_kind_of pre k :
  length pre = 4%nat → kind_ok k → parse_kind (tag_of k) (pre ++ kind_fields k) = Ok k.
Proof.
  intros Hpre Hk. unfold parse_kind. rewrite length_app, Hpre. destruct k as [|t|f fnv]; cbn [tag_of kind_fields length].
  - done.
  - cbn [Nat.add Nat.eqb andb]. rewrite bool_decide_eq_false_2, bool_decide_eq_true_2 by done. cbn [andb].
    destruct Hk as (Hb & Hne & H0). destruct pre as [|p0 [|p1 [|p2 [|p3 [|]]]]]; try done.
    unfold parse_symlink, field. cbn [app lookup list_lookup ok_or rbind]. rewrite decode_hex_of by done. cbn [map_err rbind].
    rewrite bool_decide_eq_false_2 by done. apply existsb_zero in H0. by rewrite H0.
  - cbn [Nat.add Nat.eqb andb]. rewrite !bool_decide_eq_false_2, bool_decide_eq_true_2 by done. cbn [andb].
    by apply parse_file_of.
Qed.

Lemma parse_file_inv fields k :
  length fields = 8%nat → parse_file fields = Ok k →
  ∃ f fnv, k = EFile f fnv ∧ kind_ok k ∧ drop 4 fields = kind_fields k.
Proof.
  intros Hl. destruct fields as [|x0 [|x1 [|x2 [|x3 [|f4 [|f5 [|f6 [|f7 [|]]]]]]]]]; try done. clear Hl.
  unfold parse_file, field. cbn [lookup list_lookup ok_or rbind drop].
  destruct (from_str_radix 10 0 U64_MAX f4) as [sz|] eqn:Es; cbn [ok_or rbind]; [|done].
  destruct (from_str_radix 10 0 U32_MAX f5) as [cs|] eqn:Ec; cbn [ok_or rbind]; [|done].
  destruct (bool_decide_reflect (show_nat 10 sz = f4)) as [<-|]; [|done].
  destruct (bool_decide_reflect (show_nat 10 cs = f5)) as [<-|]; [|done]. cbn [negb orb].
  destruct (from_str_radix 16 0 U64_MAX f6) as [fnv|] eqn:Ef; cbn [ok_or rbind]; [|done].
  destruct (Nat.eqb_spec (length f6) 16) as [Hl6|]; [|done]. destruct (forallb is_lower_hex f6) eqn:E6; [|done]. cbn [negb].
  fold (parse_hash_list f7). destruct (parse_hash_list f7) as [hs| |] eqn:Eh; cbn [rbind]; [|done..].
  destruct (Layout.new sz cs hs) as [f| |] eqn:En; cbn [map_err rbind]; [|done..]. intros [= <-].
  apply from_str_radix_range in Es, Ec. destruct (fnv_field_inv f6 fnv Ef Hl6 E6) as [-> Hv].
  apply hash_list_inv in Eh as [-> Hh]. pose proof (layout_new_fields _ _ _ _ En) as (H1 & H2 & H3).
  exists f, fnv. unfold kind_ok, kind_fields. rewrite H1, H2, H3. split_and!; [done|..|done]; unfold_widths; try lia; done.
Qed.

Lemma parse_kind_inv tag fields k :
  parse_kind tag fields = Ok k → kind_ok k ∧ tag = tag_of k ∧ drop 4 fields = kind_fields k.
Proof.
  unfold parse_kind. destruct (bool_decide_reflect (tag = [100])) as [->|]; cbn [andb].
  - destruct (Nat.eqb_spec (length fields) 4) as [Hl|]; cbn [andb]; [|done].
    intros [= <-]. split_and!; [done|done|]. apply nil_length_inv. rewrite length_drop. lia.
  - destruct (bool_decide_reflect (tag = [108])) as [->|]; cbn [andb].
    + destruct (Nat.eqb_spec (length fields) 5) as [Hl|]; cbn [andb]; [|done].
      destruct fields as [|x0 [|x1 [|x2 [|x3 [|x4 [|]]]]]]; try done.
      unfold parse_symlink, field. cbn [lookup list_lookup ok_or rbind drop].
      destruct (decode_hex x4) as [t| |] eqn:Ed; cbn [map_err rbind]; [|done..].
      destruct (bool_decide_reflect (t = [])) as [|Hne]; [done|]. destruct (existsb (Z.eqb 0) t) eqn:E0; [done|]. cbn [orb].
      intros [= <-]. apply decode_hex_inv in Ed as [-> Hb]. apply existsb_zero in E0. done.
    + destruct (bool_decide_reflect (tag = [102])) as [->|]; cbn [andb]; [|done].
      destruct (Nat.eqb_spec (length fields) 8) as [Hl|]; cbn [andb]; [|done].
      intros (f & fnv & -> & Hk & Hf)%parse_file_inv; [|done]. done.
Qed.

(** * Lines *)
Definition visible (s : bytes) : Prop := Forall (λ b, 33 ≤ b < 128) s.

Lemma show_visible r n : 2 ≤ r ≤ 10 → visible (show_nat r n).
Proof. intros Hr. eapply Forall_impl; [by apply show_nat_chars|]. cbn. lia. Qed.
Lemma hex_visible b : byte_list b → visible (hex_of b).
Proof. intros Hb. eapply Forall_impl; [by apply hex_of_lower|]. cbn. intros x Hx%lower_hex_ascii. lia. Qed.
Lemma join_visible sep ls : 33 ≤ sep < 128 → Forall visible ls → visible (join_with sep ls).
Proof.
  intros Hs. induction 1 as [|s ls Hv Hls IH]; [constructor|]. destruct ls as [|s' ls]; [done|].
  rewrite join_with_cons by done. apply Forall_app. split; [done|]. by constructor.
Qed.
Lemma fields_visible e : entry_ok e → Forall visible (print_fields e).
Proof.
  intros (Hm & Ht & (Hb & _) & Hk). unfold print_fields. rewrite !Forall_cons. split_and!.
  - destruct (e_kind e); apply Forall_cons_2; (lia || apply Forall_nil_2).
  - by apply show_visible.
  - eapply Forall_impl; [apply show_int_chars|]. cbn. lia.
  - by apply hex_visible.
  - destruct (e_kind e) as [|t|f fnv]; cbn [kind_fields].
    + apply Forall_nil_2.
    + destruct Hk as [Ht' _]. apply Forall_cons_2; [by apply hex_visible|apply Forall_nil_2].
    + destruct Hk as (_ & _ & _ & Hh & _).
      rewrite !Forall_cons, Forall_nil. split_and!; [by apply show_visible|by apply show_visible|apply hex_visible, be_bytes_byte_list| |done].
      apply join_visible; [lia|]. apply Forall_map. eapply Forall_impl; [exact Hh|]. intros h [? _]. by apply hex_visible.
Qed.
Lemma visible_no sep s : sep < 33 → visible s → sep ∉ s.
Proof. intros Hs Hv Hin. unfold visible in Hv. rewrite Forall_forall in Hv. apply Hv in Hin. lia. Qed.

Lemma print_line_chars e : entry_ok e → Forall (λ b, 32 ≤ b < 128) (print_line e).
Proof.
  intros He%fields_visible. unfold print_line. induction He as [|s ls Hv Hls IH]; [constructor|].
  assert (Forall (λ b, 32 ≤ b < 128) s) by (eapply Forall_impl; [exact Hv|]; cbn; lia).
  destruct ls as [|s' ls]; [done|]. rewrite join_with_cons by done. apply Forall_app. split; [done|]. constructor; [lia|done].
Qed.
Lemma split_print_line e : entry_ok e → split_on 32 (print_line e) = print_fields e.
Proof.
  intros He. apply split_join; [done|]. eapply Forall_impl; [by apply fields_visible|]. intros s. by apply visible_no.
Qed.

Lemma path_ok_spec p :
  path_ok p ↔ byte_list p ∧ head p = Some 47 ∧ existsb (Z.eqb 0) p = false ∧ noncanonical p = false.
Proof.
  unfold path_ok. rewrite existsb_zero. split.
  - intros (Hb & H0 & q & -> & Hq). by rewrite noncanonical_spec.
  - intros (Hb & Hh & H0 & Hn). split_and!; [done..|]. destruct p as [|x q]; [done|]. injection Hh as ->.
    exists q. split; [done|]. by apply noncanonical_spec.
Qed.

Definition push (e : Entry) (st : Progress) : Progress :=
  {| found := found st ++ [e]; paths := {[e_path e]} ∪ paths st; previous := Some (e_path e) |}.
Definition follows (st : Progress) (e : Entry) : Prop :=
  match previous st with Some b => lex_cmp b (e_path e) = Lt | None => True end.
Lemma follows_spec st e :
  match previous st with Some b => bool_decide (lex_cmp b (e_path e) ≠ Lt) | None => false end = false ↔ follows st e.
Proof.
  unfold follows. destruct (previous st); [|done]. rewrite bool_decide_eq_false. split; [apply dec_stable|auto].
Qed.

Lemma parse_octal_spec t v : parse_octal t = Ok v ↔ 0 ≤ v ≤ 4095 ∧ t = show_nat 8 v.
Proof.
  unfold parse_octal. split.
  - destruct (from_str_radix 8 0 U32_MAX t) as [x|] eqn:E; cbn [ok_or rbind]; [|done].
    destruct (Z.ltb_spec 4095 x); [done|]. destruct (bool_decide_reflect (show_nat 8 x = t)) as [<-|]; [|done].
    intros [= ->]. apply from_str_radix_range in E. split; [lia|done].
  - intros [Hv ->]. rewrite from_str_show_nat by (unfold_widths; lia). cbn [ok_or rbind].
    rewrite (proj2 (Z.ltb_ge 4095 v)) by lia. by rewrite bool_decide_eq_true_2.
Qed.

Lemma parse_line_of e st :
  entry_ok e → follows st e → e_path e ∉ paths st → parse_line (print_line e) st = Ok (push e st).
Proof.
  intros He Hf Hp. pose proof (print_line_chars e He) as Hc. pose proof He as (Hm & Ht & Hpath & Hk).
  unfold parse_line. rewrite bool_decide_eq_false_2.
  2:{ unfold print_line, print_fields. by destruct (e_kind e). }
  rewrite is_utf8_ascii by (eapply Forall_impl; [exact Hc|]; cbn; lia). cbn [negb]. rewrite split_print_line by done.
  unfold print_fields at 1 2 3 4, field. cbn [lookup list_lookup ok_or rbind].
  rewrite (proj2 (parse_octal_spec _ (e_mode e))) by done. cbn [rbind].
  rewrite from_str_show_int by done. cbn [ok_or rbind]. rewrite bool_decide_eq_true_2 by done. cbn [negb].
  apply path_ok_spec in Hpath as (Hb & Hh & H0 & Hn). rewrite decode_hex_of by done. cbn [map_err rbind].
  rewrite bool_decide_eq_true_2, H0, Hn by done. cbn [negb orb]. apply follows_spec in Hf. rewrite Hf.
  rewrite bool_decide_eq_false_2 by done.
  change (print_fields e) with ([tag_of (e_kind e); show_nat 8 (e_mode e); show_int (e_mtime_sec e); hex_of (e_path e)] ++ kind_fields (e_kind e)).
  rewrite parse_kind_of by done. cbn [rbind]. by destruct e.
Qed.

Lemma parse_line_inv l st st' :
  parse_line l st = Ok st' → ∃ e, l = print_line e ∧ entry_ok e ∧ follows st e ∧ st' = push e st.
Proof.
  unfold parse_line. destruct (bool_decide (l = [])); [done|]. destruct (is_utf8 l); cbn [negb]; [|done].
  pose proof (join_split 32 l) as Hj. set (fields := split_on 32 l) in *. unfold field.
  destruct fields as [|tag [|f1 [|f2 [|f3 rest]]]]; cbn [lookup list_lookup ok_or rbind].
  1-4: repeat (case_match || case_bool_decide || destruct (parse_octal _) || destruct (from_str_radix _ _ _ _) || cbn [ok_or rbind negb]); done.
  destruct (parse_octal f1) as [md| |] eqn:Em; cbn [rbind]; [|done..]. apply parse_octal_spec in Em as [Hm ->].
  destruct (from_str_radix 10 I64_MIN I64_MAX f2) as [mt|] eqn:Et; cbn [ok_or rbind]; [|done].
  destruct (bool_decide_reflect (show_int mt = f2)) as [<-|]; [|done]. cbn [negb].
  destruct (decode_hex f3) as [p| |] eqn:Ep; cbn [map_err rbind]; [|done..]. apply decode_hex_inv in Ep as [-> Hb].
  destruct (bool_decide_reflect (head p = Some 47)) as [Hh|]; [|done]. destruct (existsb (Z.eqb 0) p) eqn:E0; [done|].
  cbn [negb orb]. destruct (noncanonical p) eqn:En; [done|].
  destruct (match previous st with Some _ => _ | None => _ end) eqn:Ef; [done|]. destruct (bool_decide (p ∈ paths st)); [done|].
  destruct (parse_kind tag _) as [k| |] eqn:Ek; cbn [rbind]; [|done..]. intros [= <-].
  apply parse_kind_inv in Ek as (Hk & -> & Hr). change (rest = kind_fields k) in Hr. rewrite Hr in Hj.
  exists {| e_path := p; e_mode := md; e_mtime_sec := mt; e_kind := k |}.
  split; [by rewrite <- Hj|]. split; [|split; [by apply follows_spec|done]].
  apply from_str_radix_range in Et. split; [done|]. split; [done|]. split; [by apply path_ok_spec|done].
Qed.

(** * Images *)
Definition progress_of (es : list Entry) : Progress :=
  {| found := es; paths := list_to_set (map e_path es); previous := e_path <$> last es |}.
Lemma push_progress es e : push e (progress_of es) = progress_of (es ++ [e]).
Proof.
  unfold push, progress_of. cbn [found paths previous]. rewrite last_snoc, map_app, list_to_set_app_L. f_equal. cbn. set_solver.
Qed.

Lemma before_trans a b c : before a b → before b c → before a c.
Proof. apply lex_cmp_trans. Qed.
Lemma sorted_snoc es e :
  StronglySorted before es → StronglySorted before (es ++ [e]) ↔ follows (progress_of es) e.
Proof.
  intros Hs. unfold follows, progress_of. cbn [previous]. destruct es as [|e1 es] using rev_ind; cbn.
  { split; [done|]. intros _. repeat constructor. }
  rewrite last_snoc. cbn. split.
  - intros Ha. apply (StronglySorted_app_1_elem_of before (es ++ [e1]) [e]); set_solver.
  - intros Hb. apply StronglySorted_app_2; [|done|repeat constructor]. intros x y Hx ->%list_elem_of_singleton.
    apply elem_of_app in Hx as [Hx| ->%list_elem_of_singleton]; [|done]. apply before_trans with e1; [|done].
    apply (StronglySorted_app_1_elem_of before es [e1]); set_solver.
Qed.

Lemma sorted_fresh es e : StronglySorted before (es ++ [e]) → e_path e ∉ paths (progress_of es).
Proof.
  intros Hs. cbn [paths progress_of]. rewrite elem_of_list_to_set. intros (d & He & Hd)%list_elem_of_fmap.
  assert (before d e) as Hb by (apply (StronglySorted_app_1_elem_of before es [e]); set_solver).
  unfold before in Hb. rewrite He in Hb. apply (klt_irrefl (e_path d)), Hb.
Qed.

Lemma parse_lines_of n es1 es2 :
  Forall entry_ok es2 → StronglySorted before (es1 ++ es2) →
  parse_lines n (map print_line es2) (progress_of es1) = Ok (progress_of (es1 ++ es2)).
Proof.
  intros He. revert n es1. induction He as [|e es2 He _ IH]; intros n es1 Hs; cbn [map parse_lines]; [by rewrite app_nil_r|].
  rewrite cons_middle, app_assoc in Hs |- *. pose proof (StronglySorted_app_1_l before _ _ Hs) as Hs1.
  rewrite parse_line_of; [|done|by apply sorted_snoc; [by eapply StronglySorted_app_1_l|]|by apply sorted_fresh].
  cbn [map_err rbind]. rewrite push_progress. by apply IH.
Qed.

Lemma parse_lines_inv n ls es1 st :
  StronglySorted before es1 → parse_lines n ls (progress_of es1) = Ok st →
  ∃ es2, ls = map print_line es2 ∧ Forall entry_ok es2 ∧ StronglySorted before (es1 ++ es2) ∧ st = progress_of (es1 ++ es2).
Proof.
  revert n es1. induction ls as [|l ls IH]; intros n es1 Hs; cbn [parse_lines].
  { intros [= <-]. exists []. rewrite app_nil_r. done. }
  destruct (parse_line l _) as [st1| |] eqn:E; cbn [map_err rbind]; [|done..].
  apply parse_line_inv in E as (e & -> & He & Hf & ->). rewrite push_progress. intros Hp.
  apply IH in Hp as (es2 & -> & He2 & Hs2 & ->); [|by apply sorted_snoc].
  exists (e :: es2). rewrite <- app_assoc in *. split_and!; [done|by constructor|done..].
Qed.

(** ** Parents *)
Lemma rposition_of_app dir name : 47 ∉ name → rposition_of 47 (dir ++ 47 :: name) = Some (length dir).
Proof.
  intros Hn. assert (rposition_of 47 name = None) as H0.
  { clear dir. induction name as [|x name IH]; [done|]. apply not_elem_of_cons in Hn as [? Hn].
    cbn. rewrite IH by done. by rewrite (proj2 (Z.eqb_neq x 47)). }
  induction dir as [|x dir IH]; cbn; [by rewrite H0|by rewrite IH].
Qed.
Lemma split_last p : 47 ∈ p → ∃ dir name, p = dir ++ 47 :: name ∧ 47 ∉ name.
Proof.
  intros Hp. destruct (decide (47 ∈ tail p)) as [Ht|Ht].
  - induction p as [|x p IH]; [set_solver|]. cbn [tail] in Ht.
    destruct (decide (47 ∈ tail p)) as [Ht'|Ht'].
    + destruct (IH Ht Ht') as (dir & name & -> & Hn). by exists (x :: dir), name.
    + destruct p as [|y p]; [set_solver|]. cbn [tail] in Ht'. apply elem_of_cons in Ht as [<-|]; [|done]. by exists [x], p.
  - destruct p as [|x p]; [set_solver|]. cbn [tail] in Ht. apply elem_of_cons in Hp as [<-|]; [|done]. by exists [], p.
Qed.
Lemma path_ok_parts p : path_ok p → ∃ dir name, p = dir ++ 47 :: name ∧ (47 ∉ name) ∧ dir ≠ [47].
Proof.
  intros (_ & _ & q & -> & Hq). destruct (split_last (47 :: q)) as (dir & name & E & Hn); [left|].
  exists dir, name. split_and!; [done..|]. intros ->. injection E as ->. cbn [split_on] in Hq. rewrite Z.eqb_refl in Hq.
  destruct Hq as [?|Hq]; [done|]. apply Forall_cons in Hq as [[? _] _]. done.
Qed.

Definition parent_in (D : gset bytes) (e : Entry) : Prop :=
  ∀ dir name, e_path e = dir ++ 47 :: name → 47 ∉ name → dir = [] ∨ dir ∈ D.
Lemma parent_in_iff D e dir name :
  e_path e = dir ++ 47 :: name → 47 ∉ name → parent_in D e ↔ dir = [] ∨ dir ∈ D.
Proof.
  intros He Hn. split; [intros Hp; by apply (Hp dir name)|]. intros Hd dir' name' He' Hn'.
  pose proof (rposition_of_app dir name Hn) as H1. pose proof (rposition_of_app dir' name' Hn') as H2.
  rewrite <- He in H1. rewrite <- He', H1 in H2. injection H2 as Hl. rewrite He in He'. by apply app_inj_1 in He' as [-> _].
Qed.

Lemma check_parents_spec D es :
  Forall entry_ok es →
  check_parents D es ≠ Panic ∧ (check_parents D es = Ok () ↔ Forall (parent_in D) es).
Proof.
  induction 1 as [|e es (_ & _ & Hp & _) _ [IHp IH]]; cbn [check_parents]; [split; [done|by split]|].
  rewrite Forall_cons. destruct (path_ok_parts _ Hp) as (dir & name & He & Hn & Hd).
  rewrite (parent_in_iff D e dir name He Hn). rewrite He, rposition_of_app by done. cbn [expect rbind].
  rewrite take_app_length. destruct dir as [|x dir].
  - cbn [app length Nat.eqb]. rewrite (bool_decide_eq_true_2 ([47] = [47])) by done. cbn [negb andb].
    destruct (bool_decide _); (split; [done|]; rewrite IH; tauto).
  - rewrite bool_decide_eq_false_2 by (intros E; apply (f_equal length) in E; rewrite length_app in E; cbn in E; lia).
    cbn [length Nat.eqb]. rewrite bool_decide_eq_false_2 by done. cbn [negb andb].
    destruct (bool_decide_reflect (x :: dir ∈ D)) as [Hin|Hin]; cbn [negb]; [split; [done|]; rewrite IH; tauto|].
    split; [done|]. split; [done|]. by intros [[?|?] _].
Qed.

(** ** No panic *)
Lemma map_err_no_panic {E E' A} (f : E → E') (m : res E A) : no_panic m → no_panic (map_err f m).
Proof. by destruct m. Qed.
Lemma decode_hex_no_panic t : no_panic (decode_hex t).
Proof.
  unfold decode_hex. destruct (negb _); [done|]. induction (as_chunks 2 t).1 as [|p ps IH]; cbn [decode_pairs]; [done|].
  repeat (apply rbind_no_panic; [auto with rust|intros]); done.
Qed.
Lemma layout_no_panic s c hs : no_panic (Layout.new s c hs).
Proof. unfold Layout.new. repeat case_match; done. Qed.
Lemma parse_hashes_no_panic ts : no_panic (parse_hashes ts).
Proof.
  induction ts as [|t ts IH]; cbn [parse_hashes]; [done|].
  apply rbind_no_panic; [apply map_err_no_panic, decode_hex_no_panic|]. intros raw _. case_match; [|done].
  apply rbind_no_panic; [done|]. done.
Qed.
Lemma parse_octal_no_panic t : no_panic (parse_octal t).
Proof. unfold parse_octal. apply rbind_no_panic; [auto with rust|]. intros. repeat case_match; done. Qed.

Ltac no_panic_step :=
  first
    [ apply rbind_no_panic; [|intros ? _]
    | apply map_err_no_panic | apply decode_hex_no_panic | apply layout_no_panic | apply parse_hashes_no_panic
    | apply parse_octal_no_panic | apply no_panic_ok_or | apply no_panic_Ok | apply no_panic_Err
    | match goal with |- no_panic (if ?b then _ else _) => destruct b end ].

Lemma parse_kind_no_panic tag fields : no_panic (parse_kind tag fields).
Proof. unfold parse_kind, parse_symlink, parse_file, field. repeat no_panic_step. Qed.
Lemma parse_line_no_panic l st : no_panic (parse_line l st).
Proof. unfold parse_line, field. cbv zeta. repeat (no_panic_step || apply parse_kind_no_panic). Qed.
Lemma parse_lines_no_panic n ls st : no_panic (parse_lines n ls st).
Proof.
  revert n st. induction ls as [|l ls IH]; intros n st; cbn [parse_lines]; [done|].
  apply rbind_no_panic; [apply map_err_no_panic, parse_line_no_panic|]. intros st' _. apply IH.
Qed.

(** * The canonical format *)
Lemma header_line : 10 ∉ HEADER.
Proof. by apply (bool_decide_unpack _). Qed.
Lemma lines_no_newline es : Forall entry_ok es → Forall (λ l, 10 ∉ l) (HEADER :: map print_line es).
Proof.
  intros He. constructor; [apply header_line|]. apply Forall_map. eapply Forall_impl; [exact He|]. intros e Hc%print_line_chars Hin.
  rewrite Forall_forall in Hc. apply Hc in Hin. lia.
Qed.

Lemma parents_named_spec es :
  parents_named es ↔ Forall (parent_in (list_to_set (map e_path (List.filter is_edir es)))) es.
Proof.
  assert (∀ dir, dir ∈ (list_to_set (map e_path (List.filter is_edir es)) : gset bytes) ↔
    ∃ d, d ∈ es ∧ e_kind d = EDir ∧ e_path d = dir) as HD.
  { intros dir. rewrite elem_of_list_to_set, list_elem_of_fmap. setoid_rewrite list_elem_of_In. setoid_rewrite List.filter_In.
    unfold is_edir. split.
    - intros (d & -> & Hin & Hk). exists d. by destruct (e_kind d).
    - intros (d & Hin & Hk & <-). exists d. by rewrite Hk. }
  rewrite Forall_forall. unfold parents_named, parent_in. setoid_rewrite HD. split; intros H.
  - intros e He dir name Hp Hn. by apply (H e dir name).
  - intros e dir name He Hp Hn. by apply (H e He dir name).
Qed.

(** What parsing gives when the last byte is a newline. *)
Lemma parse_lines_image `{Host} b es root :
  Manifest_chunks.parse b = Ok {| cm_root := root; cm_entries := es |} ↔
  image_ok es ∧ b = print_image es ∧ root = sha256 b.
Proof.
  unfold Manifest_chunks.parse. split.
  - destruct (bool_decide_reflect (last b = Some 10)) as [Hl|]; [|done]. cbn [negb].
    apply last_Some in Hl as [body ->]. rewrite length_app, Nat.add_sub, take_app_length.
    pose proof (join_split 10 body) as Hj. destruct (split_on 10 body) as [|first ls]; [done|].
    destruct (bool_decide_reflect (first = HEADER)) as [->|]; [|done]. cbn [negb].
    destruct (parse_lines 2 ls _) as [st| |] eqn:E; cbn [rbind]; [|done..].
    apply (parse_lines_inv 2 ls []) in E as (es' & -> & He & Hs & ->); [|constructor]. cbn [app found progress_of] in *.
    destruct (bool_decide_reflect (es' = [])) as [|Hne]; [done|].
    destruct (check_parents _ es') as [[]| |] eqn:Ec; cbn [rbind]; [|done..]. intros [= <- <-].
    apply check_parents_spec in Ec; [|done]. unfold print_image. rewrite <- Hj. split_and!; [|done..].
    split_and!; [done..|]. by apply parents_named_spec.
  - intros ((Hne & He & Hs & Hp) & -> & ->). unfold print_image. rewrite last_snoc, bool_decide_eq_true_2 by done. cbn [negb].
    rewrite length_app, Nat.add_sub, take_app_length. rewrite split_join; [|done|by apply lines_no_newline].
    rewrite bool_decide_eq_true_2 by done. cbn [negb].
    change {| found := []; paths := ∅; previous := None |} with (progress_of []). rewrite (parse_lines_of 2 [] es) by done. cbn [app rbind found progress_of]. rewrite bool_decide_eq_false_2 by done.
    apply parents_named_spec, check_parents_spec in Hp; [|done]. by rewrite Hp.
Qed.

Lemma manifest_parse_no_panic `{Host} b : Manifest_chunks.parse b ≠ Panic.
Proof.
  unfold Manifest_chunks.parse. destruct (negb _); [done|]. destruct (split_on 10 _) as [|first ls]; [done|].
  destruct (negb _); [done|]. destruct (parse_lines 2 ls _) as [st| |] eqn:E; cbn [rbind]; [|done|by apply parse_lines_no_panic in E].
  apply (parse_lines_inv 2 ls []) in E as (es & -> & He & Hs & ->); [|constructor]. cbn [app found progress_of].
  destruct (bool_decide _); [done|]. destruct (check_parents_spec (list_to_set (map e_path (List.filter is_edir es))) es He) as [Hn _].
  by destruct (check_parents _ es).
Qed.

(** C24. The chunk manifest is canonical. Parsing any bytes returns a manifest
    or an error. It returns a manifest exactly when the entries are a
    well-formed image (canonical absolute paths in strict order, each with its
    parent directory, modes, times, layouts and digests in range) and the
    bytes are the one text that image prints as; the root is the digest of
    those bytes. So every image has exactly one authentic text. *)
Theorem chunk_manifest_canonical `{Host} b m :
  Manifest_chunks.parse b ≠ Panic ∧
  (Manifest_chunks.parse b = Ok m ↔
   image_ok (cm_entries m) ∧ b = print_image (cm_entries m) ∧ cm_root m = sha256 b).
Proof. split; [apply manifest_parse_no_panic|]. destruct m as [root es]. apply parse_lines_image. Qed.

(** The manifest of the unit test: [/bin] and the one-byte file [/bin/x]. *)
Definition sample_entries : list Entry :=
  [{| e_path := [47; 98; 105; 110]; e_mode := 493; e_mtime_sec := 0; e_kind := EDir |};
   {| e_path := [47; 98; 105; 110; 47; 120]; e_mode := 493; e_mtime_sec := 1;
      e_kind := EFile {| cf_size := 1; chunk_size := 4096; cf_chunks := [replicate 32 0] |} 14695981039346656037 |}].
Example sample_parses :
  cm_entries <$> match Manifest_chunks.parse (print_image sample_entries) with Ok m => Some m | _ => None end =
    Some sample_entries ∧
  Manifest_chunks.parse (take (length (print_image sample_entries) - 1) (print_image sample_entries)) = Err NoFinalNewline ∧
  Manifest_chunks.parse (print_image (drop 1 sample_entries)) = Err (NoParent [47; 98; 105; 110] [47; 98; 105; 110; 47; 120]).
Proof. vm_compute. split_and!; reflexivity. Qed.
