(* ===== verification/Manifest.v ===== *)
(** The manifest of delivered files ([crates/linux-compat/src/manifest.rs]):
    the parser with its errors, the text form, and the check of a delivery.
    A manifest survives being written and read, and the check passes exactly
    the deliveries it names. *)

From S2P Require Import Prelude BTree Text Digest.

Record FileEntry := { fe_digest : bytes; fe_size : Z }.
Abbreviation Manifest := (btree bytes FileEntry).

Inductive LineFault := ExpectedFields | NotADigest | NotASize | NotAbsolute | NamedTwice (path : bytes).
Inductive ManifestFault := LineFaultAt (line_no : Z) (f : LineFault) | NamesNobody.
Inductive CheckFault :=
| NotInManifest (path : bytes)
| SizeDiffers (path : bytes) (expected delivered : Z)
| DigestDiffers (path expected delivered : bytes).

(** [trim] *)
Definition trim (line : bytes) : bytes :=
  let solid b := negb (is_ascii_whitespace b) in
  let start := default (length line) (position_of solid line) in
  let stop := match rposition_where solid line with Some i => S i | None => start end in
  take (stop - start) (drop start line).

(** [line.splitn(3, ' ')] with all three present. *)
Definition three_fields (line : bytes) : option (bytes * bytes * bytes) :=
  '(digest, rest) ← split_once 32 line;
  '(size, path) ← split_once 32 rest;
  Some (digest, size, path).

Module Manifest_files.
Section parse.
Context `{Host}.

(** One turn of the loop over the lines. *)
Definition parse_entry (line : bytes) (m : Manifest) : res LineFault Manifest :=
  let line := trim line in
  if bool_decide (line = []) || bool_decide (head line = Some 35) then Ok m
  else
    let! fields := ok_or (three_fields line) ExpectedFields in
    let '(digest, size, path) := fields in
    let! digest := ok_or (from_hex digest) NotADigest in
    let! size := ok_or (if is_utf8 size then from_str_radix 10 0 usize_max size else None) NotASize in
    let path := trim path in
    if negb (bool_decide (head path = Some 47)) then Err NotAbsolute
    else if bt_mem m path then Err (NamedTwice path)
    else Ok (bt_insert m path {| fe_digest := digest; fe_size := size |}).
Fixpoint parse_entries (line_no : Z) (ls : list bytes) (m : Manifest) : res ManifestFault Manifest :=
  match ls with
  | [] => Ok m
  | l :: ls =>
      match parse_entry l m with
      | Ok m => parse_entries (line_no + 1) ls m
      | Err e => Err (LineFaultAt line_no e)
      | Panic => Panic
      end
  end.
Definition parse (text : bytes) : res ManifestFault Manifest :=
  let! m := parse_entries 1 (split_on 10 text) [] in
  if bool_decide (m = []) then Err NamesNobody else Ok m.

(** [to_text]; [hex] has an [expect] on each nibble. *)
Definition entry_line (path : bytes) (e : FileEntry) : res ManifestFault bytes :=
  let! h := expect (hex (fe_digest e)) in
  Ok (h ++ [32] ++ show_nat 10 (fe_size e) ++ [32] ++ from_utf8_lossy path ++ [10]).
Fixpoint to_text (m : Manifest) : res ManifestFault bytes :=
  match m with
  | [] => Ok []
  | (path, e) :: m =>
      let! l := entry_line path e in
      let! rest := to_text m in
      Ok (l ++ rest)
  end.
End parse.

Definition covers (path : bytes) (m : Manifest) : bool := bt_mem m path.
Definition check (path digest : bytes) (size : Z) (m : Manifest) : res CheckFault () :=
  match bt_get m path with
  | None => Err (NotInManifest path)
  | Some entry =>
      if negb (fe_size entry =? size) then Err (SizeDiffers path (fe_size entry) size)
      else if negb (bool_decide (fe_digest entry = digest)) then Err (DigestDiffers path (fe_digest entry) digest)
      else Ok ()
  end.
End Manifest_files.

(** * Writing and reading *)
Lemma hex_hex_of d : byte_list d → hex d = Some (hex_of d).
Proof.
  induction 1 as [|b d Hb _ IH]; [done|]. cbn [hex hex_of]. unfold fits in Hb. rewrite IH.
  rewrite Z.shiftr_div_pow2 by lia. change (Z.land b 15) with (Z.land b (Z.ones 4)). rewrite Z.land_ones by lia.
  change (2 ^ 4) with 16. pose proof (Z.mod_pos_bound b 16).
  assert (0 ≤ b / 16 < 16) by (split; [apply Z.div_pos; lia|apply Z.div_lt_upper_bound; lia]).
  assert (∀ d, 0 ≤ d < 16 → from_digit d = Some (nibble d)) as Hn.
  { intros x Hx. unfold from_digit, nibble. destruct (Z.ltb_spec x 10); [done|].
    rewrite (proj2 (Z.ltb_lt x 16)) by lia. f_equal. lia. }
  by rewrite !Hn by lia.
Qed.

Section roundtrip.
Context `{Host}.

Definition solid (b : Z) : bool := negb (is_ascii_whitespace b).
Definition path_printable (p : bytes) : Prop :=
  head p = Some 47 ∧ is_utf8 p = true ∧ (10 ∉ p) ∧ solid <$> last p = Some true.
Definition entry_printable (x : bytes * FileEntry) : Prop :=
  path_printable x.1 ∧ byte_list (fe_digest x.2) ∧ length (fe_digest x.2) = 32%nat ∧ 0 ≤ fe_size x.2 ≤ usize_max.
(** The line of an entry, without its newline. *)
Definition line_of (x : bytes * FileEntry) : bytes :=
  hex_of (fe_digest x.2) ++ 32 :: show_nat 10 (fe_size x.2) ++ 32 :: x.1.

Lemma rposition_last l x : last l = Some x → solid x = true → rposition_where solid l = Some (length l - 1)%nat.
Proof.
  intros (l' & ->)%last_Some Hx. rewrite length_app. cbn [length]. rewrite Nat.add_sub. clear -Hx.
  induction l' as [|b l IH]; cbn [app rposition_where]; [by rewrite Hx|by rewrite IH].
Qed.
Lemma trim_solid l : solid <$> head l = Some true → solid <$> last l = Some true → trim l = l.
Proof.
  intros Hh Hl. destruct l as [|b l]; [done|]. cbn in Hh. injection Hh as Hh. unfold trim. fold solid.
  cbn [position_of]. rewrite Hh. cbn [default]. destruct (last (b :: l)) as [x|] eqn:E; [|done]. injection Hl as Hl.
  rewrite (rposition_last _ x E Hl). rewrite drop_0, Nat.sub_0_r. apply take_ge. cbn [length]. lia.
Qed.

Lemma hex_char_solid b : is_lower_hex b = true → solid b = true.
Proof.
  intros Hb%lower_hex_ascii. unfold solid, is_ascii_whitespace.
  by rewrite !(proj2 (Z.eqb_neq b _)) by lia.
Qed.

Lemma line_of_trimmed x : entry_printable x → trim (line_of x) = line_of x.
Proof.
  destruct x as [p [d sz]]. intros ((Hp & _ & _ & Hl) & Hd & Hlen & _). cbn [fst snd fe_digest fe_size] in *. apply trim_solid.
  - unfold line_of. cbn [fst snd fe_digest fe_size]. pose proof (hex_of_lower d Hd) as Hh.
    destruct d as [|b d]; [done|]. cbn [hex_of app head fmap option_fmap option_map] in *.
    apply Forall_cons in Hh as [Hb _]. by rewrite hex_char_solid.
  - unfold line_of. cbn [fst snd fe_digest fe_size].
    destruct p as [|c p]; [done|].
    rewrite !app_comm_cons, !app_assoc, last_app. cbn [last] in *. by destruct (last (c :: p)).
Qed.

Lemma parse_line_of_entry x m :
  entry_printable x → bt_get m x.1 = None →
  Manifest_files.parse_entry (line_of x) m = Ok (bt_insert m x.1 x.2).
Proof.
  intros Hx Hm. unfold Manifest_files.parse_entry. rewrite line_of_trimmed by done.
  destruct x as [p [d sz]]. pose proof Hx as ((Hp & Hu & H10 & Hl) & Hd & Hlen & Hs).
  unfold line_of. cbn [fst snd fe_digest fe_size] in *.
  assert (hex_of d ≠ []) as Hne by (destruct d; done).
  pose proof (hex_of_lower d Hd) as Hlow. rewrite Forall_forall in Hlow.
  assert (32 ∉ hex_of d) as H32 by (intros Hin%Hlow%lower_hex_ascii; lia).
  assert (32 ∉ show_nat 10 sz) as H32'.
  { intros Hin. pose proof (show_nat_chars 10 ltac:(lia) sz) as Hc. rewrite Forall_forall in Hc. apply Hc in Hin. lia. }
  rewrite !bool_decide_eq_false_2; cbn [orb].
  3:{ by destruct (hex_of d). }
  2:{ destruct (hex_of d) as [|c r] eqn:E; [done|]. intros [= ->]. assert (is_lower_hex 35 = true) as H35 by (apply Hlow; left). done. }
  unfold three_fields. rewrite split_once_app by done. cbn [mbind option_bind]. rewrite split_once_app by done.
  cbn [mbind option_bind ok_or rbind].
  destruct (hex_total d Hd) as (t & Ht & Htl & Hback). rewrite hex_hex_of in Ht by done. injection Ht as <-.
  assert (from_hex (hex_of d) = Some d) as ->.
  { unfold from_hex. rewrite length_hex_of, Hlen. exact Hback. }
  cbn [ok_or rbind]. rewrite is_utf8_ascii.
  2:{ eapply Forall_impl; [apply show_nat_chars; lia|]. cbn. lia. }
  pose proof usize_max_bounds. rewrite from_str_show_nat by (unfold_widths; lia). cbn [ok_or rbind].
  rewrite trim_solid; [|destruct p; [done|]; cbn in *; by simplify_eq|done]. rewrite bool_decide_eq_true_2 by done. cbn [negb].
  unfold bt_mem. by rewrite Hm.
Qed.

Lemma parse_entries_of n acc m :
  Forall entry_printable m → bt_sorted (acc ++ m) →
  Manifest_files.parse_entries n (map line_of m ++ [[]]) acc = Ok (acc ++ m).
Proof.
  intros Hm. revert n acc. induction Hm as [|[p e] m Hx _ IH]; intros n acc Hs; cbn [map app Manifest_files.parse_entries].
  { cbn. by rewrite app_nil_r. }
  assert (Forall (λ x, klt x.1 p) acc) as Hlow.
  { clear -Hs. induction acc as [|[k v] acc IH]; [constructor|]. destruct Hs as [Hk Hs]. constructor; [|by apply IH].
    rewrite Forall_app, Forall_cons in Hk. apply Hk. }
  rewrite parse_line_of_entry; [|done|].
  - cbn [fst snd]. rewrite bt_insert_snoc by done. rewrite IH, <- app_assoc; [done|]. by rewrite <- app_assoc.
  - cbn [fst]. apply bt_get_None. intros ([k v] & -> & Hin)%list_elem_of_fmap. rewrite Forall_forall in Hlow.
    by apply (klt_irrefl k), (Hlow (k, v)).
Qed.

Lemma to_text_lines m :
  Forall entry_printable m → ∃ t, Manifest_files.to_text m = Ok t ∧ split_on 10 t = map line_of m ++ [[]].
Proof.
  induction 1 as [|[p [d sz]] m ((Hp & Hu & H10 & Hl) & Hd & Hlen & Hs) _ (t & Ht & Hsp)]; [by exists []|].
  cbn [fst snd fe_digest fe_size] in *. cbn [Manifest_files.to_text]. unfold Manifest_files.entry_line. cbn [fe_digest fe_size].
  rewrite hex_hex_of by done. cbn [expect rbind]. rewrite Ht. cbn [rbind]. eexists. split; [done|].
  rewrite from_utf8_lossy_id by done. cbn [map app]. rewrite <- Hsp, <- split_on_app_sep.
  - f_equal. unfold line_of. cbn [fst snd fe_digest fe_size]. rewrite <- !app_assoc. cbn [app]. by rewrite <- !app_assoc, <- !app_comm_cons, <- !app_assoc.
  - unfold line_of. cbn [fst snd fe_digest fe_size]. pose proof (hex_of_lower d Hd) as Hlow. rewrite Forall_forall in Hlow.
    pose proof (show_nat_chars 10 ltac:(lia) sz) as Hc. rewrite Forall_forall in Hc.
    rewrite elem_of_app, elem_of_cons, elem_of_app, elem_of_cons. intros [?%Hlow%lower_hex_ascii|[?|[?%Hc|[?|?]]]]; lia || done.
Qed.

(** A manifest of absolute, printable paths survives being written and
    read back: [to_text] does not panic and [parse] gives the manifest again,
    sizes and digests included. The check then passes a delivery exactly when
    the path is named with that size and that digest. *)
Theorem manifest_roundtrip m :
  m ≠ [] → bt_sorted m → Forall entry_printable m →
  (∃ t, Manifest_files.to_text m = Ok t ∧ Manifest_files.parse t = Ok m) ∧
  ∀ path digest size, Manifest_files.check path digest size m = Ok () ↔
    bt_get m path = Some {| fe_digest := digest; fe_size := size |}.
Proof.
  intros Hne Hs Hm. split.
  - destruct (to_text_lines m Hm) as (t & Ht & Hsp). exists t. split; [done|]. unfold Manifest_files.parse.
    rewrite Hsp, (parse_entries_of 1 []) by done. cbn [app rbind]. by rewrite bool_decide_eq_false_2.
  - intros path digest size. unfold Manifest_files.check. destruct (bt_get m path) as [[d s]|]; [|done]. cbn [fe_size fe_digest].
    destruct (Z.eqb_spec s size) as [->|]; cbn [negb]; [|split; congruence].
    destruct (bool_decide_reflect (d = digest)) as [->|]; cbn [negb]; split; congruence.
Qed.
End roundtrip.

Definition sample_manifest : Manifest :=
  [([47; 97], {| fe_digest := replicate 32 171; fe_size := 5 |});
   ([47; 98; 32; 99], {| fe_digest := replicate 32 0; fe_size := 0 |})].
Lemma manifest_roundtrip_witness :
  (∃ t, Manifest_files.to_text sample_manifest = Ok t ∧ Manifest_files.parse t = Ok sample_manifest) ∧
  Manifest_files.check [47; 97] (replicate 32 171) 5 sample_manifest = Ok () ∧
  Manifest_files.check [47; 97] (replicate 32 170) 5 sample_manifest ≠ Ok ().
Proof.
  assert (sample_manifest ≠ []) as Hne by discriminate.
  assert (bt_sorted sample_manifest) as Hs by (repeat constructor).
  assert (Forall entry_printable sample_manifest) as Hp.
  { repeat constructor; cbn; try lia; try reflexivity; try (apply (bool_decide_unpack _); vm_compute; reflexivity);
      vm_compute; intros [=]. }
  destruct (manifest_roundtrip sample_manifest Hne Hs Hp) as [Hr Hc]. split; [exact Hr|].
  split; [apply Hc; reflexivity|intros E%Hc; discriminate E].
Defined.
