(* ===== verification/Authority.v ===== *)
(** The image authority ([crates/linux-compat/src/lib.rs]): which files may be
    delivered, which image description is installed, and which bytes may run.

    Models of [LinuxEnv]: [reclaim_unlinked], [add_file], [create_file],
    [append_file], [add_symlink], [verify_image], [check_against_manifest],
    [mount_secret_handle], [host_secret_for_node]; of [LinuxMachine]:
    [add_chunked_file], [set_manifest], [install_chunk_manifest]. The nodes
    that descriptors refer to are collected from the tables by [open_nodes] and
    passed to the calls that reclaim. [abs_path_of] climbs on fuel. *)

From S2P Require Import Prelude BTree Abi Text Digest Chunk Filesystem ChunkManifest Manifest Net Fd.

Record Image := {
  vfs : Vfs;
  manifest : option Manifest;
  chunk_manifest : option ChunkManifest;
  in_flight : btree bytes (Sha256 * Z)
}.
Definition set_vfs (v : Vfs) (i : Image) : Image :=
  {| vfs := v; manifest := manifest i; chunk_manifest := chunk_manifest i; in_flight := in_flight i |}.
Definition set_in_flight (x : btree bytes (Sha256 * Z)) (i : Image) : Image :=
  {| vfs := vfs i; manifest := manifest i; chunk_manifest := chunk_manifest i; in_flight := x |}.

(** Secrets behind opaque handles: the nodes that stand for them. *)
Record HostSecretHandle := { hs_name : bytes; hs_value : bytes; hs_principal : bytes }.
Record SecretStore := {
  host_secret_handles : gmap Z HostSecretHandle;
  host_secret_nodes : gmap nat Z;
  next_host_secret_handle : Z;
  agent_principal : option bytes
}.

Inductive AuthError :=
| CannotAdd (path : bytes) (errno : Z)
| CannotLoad (path : bytes) (errno : Z)
| NoSuchFile (path : bytes)
| RootNotInstalled
| NotInChunkManifest (path : bytes)
| LayoutDiffers (path : bytes)
| ResidentDiffers (path : bytes)
| NotRegularFile (path : bytes)
| NoChunkAuthority (path : bytes)
| Refused (why : CheckFault)
| BadFileManifest (e : ManifestFault)
| BadChunkManifest (e : ManifestError)
| RootDiffers
| DescriptorOutsideAuthority
| NeedsPrincipal
| HandlesExhausted.

Definition to_stm {S E A} (m : res E A) : stm S E A := λ s, (s, m).
(** A filesystem call of the image, with its errno put into a message. *)
Definition on_vfs {A} (f : Z → AuthError) (m : stm Vfs Z A) : stm Image AuthError A := λ i,
  let '(v, r) := m (vfs i) in (set_vfs v i, map_err f r).

Module Image_.
Section image.
Context `{Host}.
Abbreviation iop := (stm Image AuthError).

(** The closure [collect] of [reclaim_unlinked] over one descriptor table. *)
Definition backing_node (b : Backing) : gset nat :=
  match b with BFile node => {[node]} | BDir node _ => {[node]} | _ => ∅ end.
Definition table_nodes {B} (h : Heap B) (t : Z) : gset nat :=
  match Fds.table t h with
  | Ok entries =>
      ⋃ (map (λ x : Z * FdEntry, match ofds h !! desc x.2 with Some (d, _) => backing_node (backing d) | None => ∅ end) (Table.iter entries))
  | _ => ∅
  end.
Definition open_nodes {B} (h : Heap B) (tables : list Z) : gset nat := ⋃ (map (table_nodes h) tables).

(** [reclaim_unlinked], given what is open. *)
Definition released_secret (open : gset nat) (v : Vfs) (n : nat) : bool :=
  match nodes v !! n with
  | Some node => (nlink node =? 0) && negb (bool_decide (n ∈ open))
  | None => false
  end.
Definition secret_nodes_valid (v : Vfs) (s : SecretStore) : bool :=
  forallb (λ x : nat * Z, bool_decide (is_Some (nodes v !! x.1))) (map_to_list (host_secret_nodes s)).
Definition drop_secrets (gone : list (nat * Z)) (s : SecretStore) : SecretStore :=
  {| host_secret_handles := foldr (λ x m, delete x.2 m) (host_secret_handles s) gone;
     host_secret_nodes := foldr (λ x m, delete x.1 m) (host_secret_nodes s) gone;
     next_host_secret_handle := next_host_secret_handle s; agent_principal := agent_principal s |}.
Definition reclaim_unlinked (open : gset nat) (x : Image * SecretStore) : res AuthError (Image * SecretStore * Z) :=
  let '(i, s) := x in
  if negb (Fs.has_unlinked (vfs i)) then Ok (i, s, 0)
  else if negb (secret_nodes_valid (vfs i) s) then Panic
  else
    let gone := List.filter (λ y : nat * Z, released_secret open (vfs i) y.1) (map_to_list (host_secret_nodes s)) in
    let '(v, freed) := Fs.release_unreferenced open (vfs i) in
    Ok (set_vfs v i, drop_secrets gone s, freed).

(** A step on the image followed by [reclaim_unlinked], whose count is not
    used; the step's own result is returned, unless the reclaim panics. *)
Definition then_reclaim {A} (open : gset nat) (m : iop A) : stm (Image * SecretStore) AuthError A := λ '(i, s),
  match m i with
  | (i, Panic) => ((i, s), Panic)
  | (i, r) =>
      match reclaim_unlinked open (i, s) with
      | Ok (i, s, _) => ((i, s), r)
      | _ => ((i, s), Panic)
      end
  end.

Definition check_against_manifest (path digest : bytes) (size : Z) (i : Image) : res AuthError () :=
  match manifest i with
  | None => Ok ()
  | Some m => map_err Refused (Manifest_files.check path digest size m)
  end.

Definition discard {A} (m : iop A) : iop () := do! _ <- m in sret ().

Definition add_file (open : gset nat) (path : bytes) (b : vec) (md : Z) : stm (Image * SecretStore) AuthError () := λ '(i, s),
  match (match manifest i with
         | Some _ => check_against_manifest path (sha256 (vdata b)) (vlen b) i
         | None => Ok ()
         end) with
  | Ok _ => then_reclaim open (discard (on_vfs (CannotAdd path) (Fs.add_node path (File b) md))) (i, s)
  | Err e => ((i, s), Err e)
  | Panic => ((i, s), Panic)
  end.

Definition create_file (open : gset nat) (path : bytes) (capacity md : Z) : stm (Image * SecretStore) AuthError () := λ '(i, s),
  let i := match manifest i with
           | Some _ => set_in_flight (bt_insert (in_flight i) path (Digest.new, 0)) i
           | None => i
           end in
  then_reclaim open (discard (on_vfs (CannotAdd path) (Fs.create_file_with_capacity path capacity md))) (i, s).

Definition append_file (path b : bytes) : iop () := λ i,
  match (match bt_get (in_flight i) path with
         | Some (hasher, size) =>
             let! n := (if size + zlen b <=? usize_max then Ok (size + zlen b) else Panic) in
             Ok (set_in_flight (bt_insert (in_flight i) path (update hasher b, n)) i)
         | None => Ok i
         end) with
  | Ok i => on_vfs (CannotAdd path) (Fs.append_file path b) i
  | Err e => (i, Err e)
  | Panic => (i, Panic)
  end.

Definition add_symlink (path target : bytes) : iop () :=
  discard (on_vfs (CannotAdd path) (Fs.add_node path (Symlink (to_vec target)) 511)).

(** * Verification before execution *)
Fixpoint chunks_of (fuel : nat) (n : nat) (l : bytes) : list bytes :=
  match fuel with
  | O => []
  | S fuel => match l with [] => [] | _ => take n l :: chunks_of fuel n (drop n l) end
  end.
(** [data.chunks(chunk_size)], which panics on zero, as does [div_ceil]. *)
Definition resident_matches_chunk_layout (data : bytes) (layout : ChunkedFile) : res AuthError bool :=
  let n := as_usize (chunk_size layout) in
  if negb (zlen data =? cf_size layout) then Ok false
  else if n =? 0 then Panic
  else if negb (div_ceil (zlen data) n =? zlen (cf_chunks layout)) then Ok false
  else Ok (forallb (λ x : bytes * Hash, bool_decide (sha256 x.1 = x.2))
             (zip (chunks_of (length data) (Z.to_nat n) data) (cf_chunks layout))).

(** The branch with a chunk manifest installed. *)
Definition verify_chunked (fuel : nat) (m : ChunkManifest) (v : Vfs) (path : bytes) (node : nat) : res AuthError () :=
  if negb (bool_decide (manifest_root v = Some (cm_root m))) then Err RootNotInstalled
  else
    let! resolved_path := map_err (CannotLoad path) (Fs.abs_path_of fuel v node) in
    match Manifest_chunks.file resolved_path m with
    | None => Err (NotInChunkManifest resolved_path)
    | Some (expected, _) =>
        let! n := map_err (CannotLoad path) (node_at v node) in
        match kind n with
        | Chunked actual => if bool_decide (actual = expected) then Ok () else Err (LayoutDiffers path)
        | File data =>
            let! same := resident_matches_chunk_layout (vdata data) expected in
            if same then Ok () else Err (ResidentDiffers path)
        | _ => Err (NotRegularFile path)
        end
    end.

Definition verify_image (fuel cwd : nat) (path : bytes) : iop () := λ i,
  match (let! r := map_err (CannotLoad path) (resolve (vfs i) cwd path true) in
         ok_or (r_node r) (NoSuchFile path)) with
  | Err e => (i, Err e)
  | Panic => (i, Panic)
  | Ok node =>
      match chunk_manifest i with
      | Some m => (i, verify_chunked fuel m (vfs i) path node)
      | None =>
          match nodes (vfs i) !! node with
          | None => (i, Panic)
          | Some n =>
              match kind n with
              | Chunked _ => (i, Err (NoChunkAuthority path))
              | _ =>
                  match manifest i with
                  | None => (i, Ok ())
                  | Some _ =>
                      match bt_get (in_flight i) path with
                      | Some (hasher, size) =>
                          let i := set_in_flight (bt_remove (in_flight i) path) i in
                          (i, check_against_manifest path (finish hasher) size i)
                      | None =>
                          (i, let! b := map_err (CannotLoad path) (Fs.read_file (vfs i) path) in
                              let! b := ok_or b (NoSuchFile path) in
                              check_against_manifest path (sha256 b) (zlen b) i)
                      end
                  end
              end
          end
      end
  end.

(** * Installation *)
Definition add_chunked_file (path : bytes) (file : ChunkedFile) (md : Z) : iop () := λ i,
  match (match chunk_manifest i with
         | Some m =>
             match Manifest_chunks.file path m with
             | None => Err (NotInChunkManifest path)
             | Some (expected, _) => if bool_decide (expected = file) then Ok () else Err (LayoutDiffers path)
             end
         | None => Ok ()
         end) with
  | Ok _ => discard (on_vfs (CannotAdd path) (Fs.add_chunked_file path file md)) i
  | Err e => (i, Err e)
  | Panic => (i, Panic)
  end.

Definition set_manifest (text : option bytes) : iop () := λ i,
  match (match text with
         | Some t => let! m := map_err BadFileManifest (Manifest_files.parse t) in Ok (Some m)
         | None => Ok None
         end) with
  | Ok m => ({| vfs := vfs i; manifest := m; chunk_manifest := chunk_manifest i; in_flight := in_flight i |}, Ok ())
  | Err e => (i, Err e)
  | Panic => (i, Panic)
  end.

(** [apply]: one entry, then the metadata of its node. *)
Definition apply_entry (e : Entry) : stm Vfs Z () :=
  do! node <- match e_kind e with
              | EDir => Fs.mkdir_p (e_path e)
              | ESymlink target => Fs.add_node (e_path e) (Symlink (to_vec target)) (e_mode e)
              | EFile file _ => Fs.add_chunked_file (e_path e) file (e_mode e)
              end in
  do! n <- query (λ v, node_at v node) in
  modify (λ v, set_node v node {| kind := kind n; mode := e_mode e; nlink := nlink n;
                                   mtime_sec := e_mtime_sec e; n_parent := n_parent n |}).
Fixpoint apply (es : list Entry) : stm Vfs AuthError () :=
  match es with
  | [] => sret ()
  | e :: es => λ v,
      match apply_entry e v with
      | (v, Ok _) => apply es v
      | (v, Err errno) => (v, Err (CannotAdd (e_path e) errno))
      | (v, Panic) => (v, Panic)
      end
  end.

Definition authorized (m : ChunkManifest) (n : Node) : bool :=
  match kind n with
  | Chunked file => existsb (λ e, match e_kind e with EFile f _ => bool_decide (f = file) | _ => false end) (cm_entries m)
  | _ => true
  end.
Definition with_authority (m : ChunkManifest) (i : Image) : Image :=
  {| vfs := vfs i; manifest := manifest i; chunk_manifest := Some m; in_flight := in_flight i |}.
Definition set_manifest_root (r : option bytes) (v : Vfs) : Vfs :=
  {| nodes := nodes v; chunks := chunks v; manifest_root := r; storage_budget := storage_budget v; unlinked := unlinked v |}.

Definition install_chunk_manifest (text : bytes) : iop bytes := λ i,
  match map_err BadChunkManifest (Manifest_chunks.parse text) with
  | Err e => (i, Err e)
  | Panic => (i, Panic)
  | Ok m =>
      match manifest_root (vfs i) with
      | Some snapshot_root =>
          if negb (bool_decide (snapshot_root = cm_root m)) then (i, Err RootDiffers)
          else if negb (forallb (authorized m) (nodes (vfs i))) then (i, Err DescriptorOutsideAuthority)
          else (with_authority m i, Ok (cm_root m))
      | None =>
          match apply (cm_entries m) (Fs.topology_only (vfs i)) with
          | (_, Err e) => (i, Err e)
          | (_, Panic) => (i, Panic)
          | (_, Ok _) =>
              match apply (cm_entries m) (vfs i) with
              | (v, Ok _) => (with_authority m (set_vfs (set_manifest_root (Some (cm_root m)) v) i), Ok (cm_root m))
              | (v, Err e) => (set_vfs v i, Err e)
              | (v, Panic) => (set_vfs v i, Panic)
              end
          end
      end
  end.

(** * Secrets behind handles *)
Definition mount_secret_handle (open : gset nat) (name value path principal : bytes)
    : stm (Image * SecretStore) AuthError Z := λ '(i, s),
  if bool_decide (principal = []) then ((i, s), Err NeedsPrincipal)
  else
    let handle := next_host_secret_handle s in
    match checked_add64 handle 1 with
    | None => ((i, s), Err HandlesExhausted)
    | Some next =>
        let s := {| host_secret_handles := host_secret_handles s; host_secret_nodes := host_secret_nodes s;
                    next_host_secret_handle := next; agent_principal := agent_principal s |} in
        match on_vfs (CannotAdd path) (Fs.add_node path (File vec_new) 256) i with
        | (i, Err e) => ((i, s), Err e)
        | (i, Panic) => ((i, s), Panic)
        | (i, Ok node) =>
            let s := {| host_secret_handles :=
                          <[handle := {| hs_name := name; hs_value := value; hs_principal := principal |}]> (host_secret_handles s);
                        host_secret_nodes := <[node := handle]> (host_secret_nodes s);
                        next_host_secret_handle := next_host_secret_handle s; agent_principal := agent_principal s |} in
            match reclaim_unlinked open (i, s) with
            | Ok (i, s, _) => ((i, s), Ok handle)
            | _ => ((i, s), Panic)
            end
        end
    end.
Definition host_secret_for_node (node : nat) (s : SecretStore) : option bytes :=
  handle ← host_secret_nodes s !! node;
  secret ← host_secret_handles s !! handle;
  if bool_decide (agent_principal s = Some (hs_principal secret)) then Some (hs_value secret) else None.
Definition is_host_secret_node (node : nat) (s : SecretStore) : bool :=
  bool_decide (is_Some (host_secret_nodes s !! node)).
Definition set_agent_principal (principal : bytes) : stm SecretStore AuthError () := λ s,
  if bool_decide (principal = []) then (s, Err NeedsPrincipal)
  else ({| host_secret_handles := host_secret_handles s; host_secret_nodes := host_secret_nodes s;
           next_host_secret_handle := next_host_secret_handle s; agent_principal := Some principal |}, Ok ()).
End image.
End Image_.
