(* ===== verification/AuthorityInstall.v ===== *)
(** Installing a chunk manifest is all or nothing.

    The installation is first tried on a copy of the filesystem without file
    contents. [alike] relates two filesystems that differ in nothing else; the
    calls an installation makes give related filesystems and the same result
    on both, so the real installation fails only if the trial did. *)

From S2P Require Import Prelude BTree Abi Text Digest Chunk Filesystem FilesystemInv FilesystemLinks FilesystemSteps ChunkManifest ChunkManifestSpec Manifest Authority.

(** A node without the bytes of a file and the spare room of a symlink's target. *)
Definition outline (n : Node) : Node :=
  with_kind n (match kind n with File _ => File vec_new | Symlink t => Symlink (Vec (vdata t) 0) | k => k end).
Definition like (n n' : Node) : Prop := outline n = outline n'.
Definition alike (v w : Vfs) : Prop := map outline (nodes v) = map outline (nodes w) ∧ unlinked v = unlinked w.

#[global] Instance like_equiv : Equivalence like.
Proof. unfold like. split; repeat intro; congruence. Qed.
#[global] Instance alike_equiv : Equivalence alike.
Proof.
  unfold alike. split; repeat intro; naive_solver congruence.
Qed.

Lemma topology_only_alike `{Host} v : alike (Fs.topology_only v) v.
Proof.
  split; [|done]. cbn [nodes Fs.topology_only]. rewrite map_map. apply map_ext. intros n. unfold outline, Fs.topology_node, with_kind.
  by destruct (kind n).
Qed.

(** Related nodes agree on everything but the bytes of a file and that room. *)
Definition same_kind (k k' : NodeKind) : Prop :=
  k = k' ∨ (∃ b b', k = File b ∧ k' = File b') ∨ ∃ d c c', k = Symlink (Vec d c) ∧ k' = Symlink (Vec d c').
Lemma like_inv n n' : like n n' →
  mode n = mode n' ∧ nlink n = nlink n' ∧ mtime_sec n = mtime_sec n' ∧ n_parent n = n_parent n' ∧
  same_kind (kind n) (kind n').
Proof.
  unfold like, outline, with_kind, same_kind. intros [= Hk ????]. split_and!; try done.
  destruct (kind n) as [| | |[]|], (kind n') as [| | |[]|]; simplify_eq; naive_solver.
Qed.
Lemma like_intro n n' :
  mode n = mode n' → nlink n = nlink n' → mtime_sec n = mtime_sec n' → n_parent n = n_parent n' →
  same_kind (kind n) (kind n') → like n n'.
Proof.
  unfold like, outline, with_kind. by intros -> -> -> -> [->|[(b & b' & -> & ->)|(d & c & c' & -> & ->)]].
Qed.

Lemma alike_length v w : alike v w → length (nodes v) = length (nodes w).
Proof. intros [H _]. apply (f_equal length) in H. by rewrite !length_map in H. Qed.
Lemma alike_lookup v w i : alike v w →
  match nodes v !! i, nodes w !! i with Some n, Some n' => like n n' | None, None => True | _, _ => False end.
Proof.
  intros [H _]. apply (f_equal (.!! i)) in H. rewrite !list_lookup_fmap in H.
  destruct (nodes v !! i), (nodes w !! i); try done. by apply (inj Some) in H.
Qed.
Lemma alike_set_node v w i n n' : alike v w → like n n' → alike (set_node v i n) (set_node w i n').
Proof. intros [H Hu] Hn. split; [|done]. cbn. rewrite !(list_fmap_insert outline). by f_equal. Qed.

(** * Computations that do the same on related filesystems *)
Definition agree {A} (R : A → A → Prop) (r r' : res Z A) : Prop :=
  match r, r' with Ok a, Ok a' => R a a' | Err e, Err e' => e = e' | Panic, Panic => True | _, _ => False end.
Definition parallel {A} (R : A → A → Prop) (m m' : stm Vfs Z A) : Prop :=
  ∀ v w, alike v w → alike (m v).1 (m' w).1 ∧ agree R (m v).2 (m' w).2.

Lemma agree_eq {A} (r r' : res Z A) : agree eq r r' ↔ r = r'.
Proof. destruct r, r'; cbn; split; naive_solver. Qed.

Lemma parallel_bind {A B} (R : A → A → Prop) (Q : B → B → Prop) m m' k k' :
  parallel R m m' → (∀ a a', R a a' → parallel Q (k a) (k' a')) → parallel Q (sbind m k) (sbind m' k').
Proof.
  intros Hm Hk v w Hv. unfold sbind. destruct (Hm v w Hv) as [Ha Hr].
  destruct (m v) as [v1 [a|e|]], (m' w) as [w1 [a'|e'|]]; cbn in Ha, Hr; try done. by apply (Hk a a').
Qed.
Lemma parallel_ret {A} (R : A → A → Prop) a a' : R a a' → parallel R (sret a) (sret a').
Proof. by intros Hr v w Hv. Qed.
Lemma parallel_fail {A} (R : A → A → Prop) e : parallel R (sfail e) (sfail e).
Proof. by intros v w Hv. Qed.
Lemma parallel_query {A} (R : A → A → Prop) f f' :
  (∀ v w, alike v w → agree R (f v) (f' w)) → parallel R (query f) (query f').
Proof. intros Hf v w Hv. split; [done|by apply Hf]. Qed.
Lemma parallel_modify f f' : (∀ v w, alike v w → alike (f v) (f' w)) → parallel eq (modify f) (modify f').
Proof. intros Hf v w Hv. split; [by apply Hf|done]. Qed.
Create HintDb parallel.
#[export] Hint Resolve parallel_ret parallel_fail : parallel.

(** ** Reading *)
Lemma node_at_agree i v w : alike v w → agree like (node_at v i) (node_at w i).
Proof. intros Hv. unfold node_at. pose proof (alike_lookup v w i Hv). by destruct (nodes v !! i), (nodes w !! i). Qed.
Lemma is_dir_agree i v w : alike v w → is_dir v i = is_dir w i.
Proof.
  intros Hv. unfold is_dir. pose proof (node_at_agree i v w Hv) as Hn.
  destruct (node_at v i) as [n| |], (node_at w i) as [n'| |]; cbn in *; try done; [|congruence].
  destruct (like_inv n n' Hn) as (_ & _ & _ & _ & [->|[(b & b' & -> & ->)|(d & c & c' & -> & ->)]]); done.
Qed.
Lemma dir_entries_agree i v w : alike v w → dir_entries v i = dir_entries w i.
Proof.
  intros Hv. unfold dir_entries. pose proof (node_at_agree i v w Hv) as Hn.
  destruct (node_at v i) as [n| |], (node_at w i) as [n'| |]; cbn in *; try done; [|congruence].
  destruct (like_inv n n' Hn) as (_ & _ & _ & _ & [->|[(b & b' & -> & ->)|(d & c & c' & -> & ->)]]); done.
Qed.

(** The parent of a node, and the target of a symbolic link. *)
Lemma node_at_bind {A} i v w (k k' : Node → res Z A) :
  alike v w → (∀ n n', like n n' → k n = k' n') → rbind (node_at v i) k = rbind (node_at w i) k'.
Proof.
  intros Hv Hk. pose proof (node_at_agree i v w Hv) as Hn.
  destruct (node_at v i), (node_at w i); cbn in *; try done; [by apply Hk|congruence].
Qed.

Lemma walk_agree rec rec' v w fl cs cur :
  alike v w → (∀ s p f, rec s p f = rec' s p f) → walk rec v fl cs cur = walk rec' w fl cs cur.
Proof.
  intros Hv Hrec. revert cur. induction cs as [|c cs IH]; intros cur; cbn [walk]; [done|].
  destruct (bool_decide (c = DOTDOT)).
  { pose proof (node_at_agree cur v w Hv) as Hn. destruct (node_at v cur) as [n| |], (node_at w cur) as [n'| |]; cbn in *; try done; [|congruence].
    destruct (like_inv n n' Hn) as (_ & _ & _ & -> & _). case_match; [|apply IH].
    apply node_at_bind; [done|]. intros u u' Hu. destruct (like_inv u u' Hu) as (_ & _ & _ & -> & _). done. }
  rewrite (dir_entries_agree cur v w Hv). destruct (dir_entries w cur) as [es| |]; cbn [rbind]; [|done..].
  destruct (bool_decide (cs = [])).
  - destruct fl; [|done]. destruct (bt_get es c) as [nx|]; [|done]. apply node_at_bind; [done|].
    intros n n' Hn. destruct (like_inv n n' Hn) as (_ & _ & _ & _ & [->|[(b & b' & -> & ->)|(d & x & y & -> & ->)]]);
      [|done|by rewrite Hrec]. destruct (kind n'); rewrite ?Hrec; done.
  - destruct (bt_get es c) as [nx|]; [|done]. pose proof (node_at_agree nx v w Hv) as Hn.
    destruct (node_at v nx) as [n| |], (node_at w nx) as [n'| |]; cbn in *; try done; [|congruence].
    destruct (like_inv n n' Hn) as (_ & _ & _ & _ & [->|[(b & b' & -> & ->)|(d & x & y & -> & ->)]]); [|done|cbn [vdata]].
    1: destruct (kind n') as [| | |t|]; try done.
    all: rewrite Hrec; destruct (rec' cur _ true) as [r| |]; cbn; [|done..]; destruct (r_node r) as [e|]; cbn; [|done];
      rewrite (is_dir_agree e v w Hv); destruct (is_dir w e) as [[]| |]; cbn; [apply IH|done..].
Qed.

Lemma resolve_agree v w start path fl : alike v w → resolve v start path fl = resolve w start path fl.
Proof.
  intros Hv. unfold resolve. destruct (bool_decide (path = [])); [done|]. generalize MAX_DEPTH. intros fuel. revert start path fl.
  induction fuel as [|fuel IH]; intros start path fl; cbn [resolve_depth]; [done|]. destruct (bool_decide (components path = [])).
  - apply node_at_bind; [done|]. intros n n' Hn. destruct (like_inv n n' Hn) as (_ & _ & _ & -> & _). done.
  - apply walk_agree; [done|]. intros. apply IH.
Qed.

(** ** Writing *)
Lemma alike_set_entries v w i es : alike v w → alike (set_entries v i es) (set_entries w i es).
Proof.
  intros Hv. unfold set_entries. pose proof (alike_lookup v w i Hv) as Hl.
  destruct (nodes v !! i) as [n|], (nodes w !! i) as [n'|]; try done. apply alike_set_node; [done|].
  destruct (like_inv n n' Hl) as (? & ? & ? & ? & _). apply like_intro; try done. by left.
Qed.

Lemma alloc_parallel n : parallel eq (Fs.alloc_node n) (Fs.alloc_node n).
Proof.
  intros v w Hv. cbn. split; [|by apply alike_length]. destruct Hv as [H Hu]. split; [|done]. cbn. by rewrite !map_app, H.
Qed.

Lemma drop_link_parallel d : parallel eq (Fs.drop_link d) (Fs.drop_link d).
Proof.
  intros v w Hv. unfold Fs.drop_link. pose proof (alike_lookup v w d Hv) as Hl.
  destruct (nodes v !! d) as [n|], (nodes w !! d) as [n'|]; try done.
  destruct (like_inv n n' Hl) as (H1 & H2 & H3 & H4 & H5).
  assert (alike (set_node v d (with_nlink n (saturating_sub (nlink n) 1)))
                (set_node w d (with_nlink n' (saturating_sub (nlink n') 1)))) as Ha.
  { apply alike_set_node; [done|]. apply like_intro; cbn; try done. by rewrite H2. }
  cbn [fst snd nlink with_nlink]. rewrite H2 in *. destruct Hv as [_ Hu].
  change (unlinked (set_node v d _)) with (unlinked v). change (unlinked (set_node w d _)) with (unlinked w). rewrite Hu.
  split; [|done]. destruct (_ && _); [|done]. destruct Ha as [Ha _]. split; [exact Ha|done].
Qed.

Lemma query_node_parallel i : parallel like (query (λ v, node_at v i)) (query (λ v, node_at v i)).
Proof. apply parallel_query. intros v w. apply node_at_agree. Qed.
Lemma query_entries_parallel i : parallel eq (query (λ v, dir_entries v i)) (query (λ v, dir_entries v i)).
Proof. apply parallel_query. intros v w Hv. apply agree_eq. by apply dir_entries_agree. Qed.
Lemma query_dir_parallel i : parallel eq (query (λ v, is_dir v i)) (query (λ v, is_dir v i)).
Proof. apply parallel_query. intros v w Hv. apply agree_eq. by apply is_dir_agree. Qed.
Lemma query_resolve_parallel s p fl : parallel eq (query (λ v, resolve v s p fl)) (query (λ v, resolve v s p fl)).
Proof. apply parallel_query. intros v w Hv. apply agree_eq. by apply resolve_agree. Qed.
Lemma modify_entries_parallel i es : parallel eq (modify (λ v, set_entries v i es)) (modify (λ v, set_entries v i es)).
Proof. apply parallel_modify. intros. by apply alike_set_entries. Qed.
#[export] Hint Resolve alloc_parallel drop_link_parallel query_node_parallel query_entries_parallel query_dir_parallel
  query_resolve_parallel modify_entries_parallel : parallel.

(** One bind whose first half agrees exactly. *)
Ltac parallel_step x :=
  eapply (parallel_bind eq); [by eauto with parallel|intros x ? <-].

Lemma mkdir_loop_parallel cs cur : parallel eq (Fs.mkdir_loop cs cur) (Fs.mkdir_loop cs cur).
Proof.
  revert cur. induction cs as [|c cs IH]; intros cur; cbn [Fs.mkdir_loop]; [by eauto with parallel|].
  destruct (bool_decide (c = DOTDOT)).
  - eapply (parallel_bind like); [by eauto with parallel|]. intros n n' Hn.
    destruct (like_inv n n' Hn) as (_ & _ & _ & -> & _). apply IH.
  - parallel_step es. destruct (bt_get es c) as [nx|].
    + parallel_step d. destruct d; [apply IH|by eauto with parallel].
    + parallel_step i. parallel_step es'. parallel_step u. apply IH.
Qed.
Lemma mkdir_p_parallel path : parallel eq (Fs.mkdir_p path) (Fs.mkdir_p path).
Proof. apply mkdir_loop_parallel. Qed.

Lemma occupied_agree v w path : alike v w → occupied_by_a_directory v path = occupied_by_a_directory w path.
Proof.
  intros Hv. unfold occupied_by_a_directory. rewrite (resolve_agree v w ROOT path false Hv).
  destruct (resolve w ROOT path false) as [r| |]; [|done..]. destruct (r_node r); [by apply is_dir_agree|done].
Qed.

Lemma add_node_parallel path k md : parallel eq (Fs.add_node path k md) (Fs.add_node path k md).
Proof.
  unfold Fs.add_node. eapply (parallel_bind eq).
  { apply parallel_query. intros v w Hv. apply agree_eq. case_match; [done|]. by apply occupied_agree. }
  intros occ ? <-. destruct occ; [by eauto with parallel|].
  eapply (parallel_bind eq); [apply mkdir_p_parallel|]. intros ? ? _.
  parallel_step r. parallel_step i. parallel_step es. parallel_step u.
  eapply (parallel_bind eq); [destruct (bt_get es (r_name r)); by eauto with parallel|]. intros ? ? _. by apply parallel_ret.
Qed.
#[export] Hint Resolve mkdir_p_parallel add_node_parallel : parallel.

Lemma apply_entry_parallel `{Host} e : parallel eq (Image_.apply_entry e) (Image_.apply_entry e).
Proof.
  unfold Image_.apply_entry. eapply (parallel_bind eq).
  { destruct (e_kind e); [|unfold Fs.add_chunked_file..]; by eauto with parallel. }
  intros i ? <-. eapply (parallel_bind like); [by eauto with parallel|]. intros n n' Hn. apply parallel_modify.
  intros v w Hv. apply alike_set_node; [done|]. destruct (like_inv n n' Hn) as (_ & ? & _ & ? & ?). by apply like_intro.
Qed.

Lemma apply_parallel `{Host} es v w : alike v w →
  alike (Image_.apply es v).1 (Image_.apply es w).1 ∧ (Image_.apply es v).2 = (Image_.apply es w).2.
Proof.
  revert v w. induction es as [|e es IH]; intros v w Hv; cbn [Image_.apply]; [done|].
  destruct (apply_entry_parallel e v w Hv) as [Ha Hr]. apply agree_eq in Hr.
  destruct (Image_.apply_entry e v) as [v1 r], (Image_.apply_entry e w) as [w1 r']. cbn in *. subst r'.
  destruct r; [by apply IH|done..].
Qed.

(** * No panic *)
Section install.
Context `{Host}.

(** The layouts of an image stay within 64-bit offsets. *)
Definition layouts_fit (es : list Entry) : Prop :=
  Forall (λ e, match e_kind e with EFile f _ => file_wf f | _ => True end) es.

Lemma apply_entry_ok e v :
  vfs_wf v → match e_kind e with EFile f _ => file_wf f | _ => True end → fs_ok v any (Image_.apply_entry e v).
Proof.
  intros Hv He. unfold Image_.apply_entry. eapply (fs_ok_bind _ _ _ index_ok).
  { destruct (e_kind e); [by apply mkdir_p_ok|by apply add_node_ok|by apply add_node_ok]. }
  intros i v1 Hv1 Hl1 Hi. eapply fs_ok_bind; [by apply query_node_ok|]. intros n v2 Hv2 Hl2 [Hn Hw].
  apply fs_ok_modify; [|by rewrite length_set_node|done]. apply set_node_wf; [done|]. destruct Hw as [Hp Hk]. by split.
Qed.
Lemma apply_ok es v :
  vfs_wf v → layouts_fit es → vfs_wf (Image_.apply es v).1 ∧ (Image_.apply es v).2 ≠ Panic.
Proof.
  intros Hv He. revert v Hv. induction He as [|e es He _ IH]; intros v Hv; cbn [Image_.apply]; [done|].
  destruct (apply_entry_ok e v Hv He) as (Hw & _ & Hr). destruct (Image_.apply_entry e v) as [v1 [u|err|]]; cbn in *; [by apply IH|done..].
Qed.

(** The root recorded with the filesystem does not matter to the calls. *)
Lemma apply_topology es v :
  (Image_.apply es (Fs.topology_only v)).2 = (Image_.apply es v).2.
Proof. apply apply_parallel, topology_only_alike. Qed.

(** The layouts of the manifest a text describes. *)
Definition text_fits (text : bytes) : Prop :=
  ∀ m, Manifest_chunks.parse text = Ok m → layouts_fit (cm_entries m).

(** What a successful installation leaves. *)
Definition installed (text : bytes) (i i' : Image) (root : bytes) : Prop :=
  ∃ m, Manifest_chunks.parse text = Ok m ∧ root = cm_root m ∧ chunk_manifest i' = Some m ∧
    manifest_root (vfs i') = Some root ∧ vfs_wf (vfs i') ∧ manifest i' = manifest i ∧ in_flight i' = in_flight i ∧
    (manifest_root (vfs i) = Some root → vfs i' = vfs i ∧ forallb (Image_.authorized m) (nodes (vfs i)) = true) ∧
    (manifest_root (vfs i) = None →
       Image_.apply (cm_entries m) (vfs i) = ((Image_.apply (cm_entries m) (vfs i)).1, Ok ()) ∧
       nodes (vfs i') = nodes (Image_.apply (cm_entries m) (vfs i)).1).
End install.

(** C31. Installing a chunk manifest is all or nothing. Whatever the text, the
    call does not panic; if it is refused for any reason, the machine's image
    is exactly what it was, because the trial on the content-free copy fails
    whenever the real run would. If it succeeds the manifest is the one the
    text describes, its root is recorded with the filesystem, and either every
    entry was applied or, on a restored snapshot with the same root, nothing
    was touched and every chunked file in it is one the manifest names. *)
Theorem install_chunk_manifest_atomic `{Host} text i :
  vfs_wf (vfs i) → text_fits text →
  match Image_.install_chunk_manifest text i with
  | (i', Ok root) => installed text i i' root
  | (i', Err _) => i' = i
  | (_, Panic) => False
  end.
Proof.
  intros Hv Hfit. unfold Image_.install_chunk_manifest.
  destruct (Manifest_chunks.parse text) as [m|e|] eqn:Em; cbn [map_err]; [|done|by apply manifest_parse_no_panic in Em].
  destruct (manifest_root (vfs i)) as [r|] eqn:Er.
  - destruct (bool_decide_reflect (r = cm_root m)) as [->|]; cbn [negb]; [|done].
    destruct (forallb (Image_.authorized m) (nodes (vfs i))) eqn:Ef; cbn [negb]; [|done].
    exists m. cbn. split_and!; try done. congruence.
  - pose proof (apply_topology (cm_entries m) (vfs i)) as Ht.
    destruct (apply_ok (cm_entries m) (vfs i) Hv (Hfit m Em)) as [Hw Hp].
    destruct (Image_.apply (cm_entries m) (Fs.topology_only (vfs i))) as [sh rs]. cbn [snd] in Ht. subst rs.
    destruct (Image_.apply (cm_entries m) (vfs i)) as [v1 [[]|e|]] eqn:Ea; cbn [fst snd] in *; [|done..].
    exists m. cbn. split_and!; try done; [congruence|]. intros _. by rewrite Ea.
Qed.

(** The manifest of the unit test, on a new machine. *)
Definition new_image : Image := {| vfs := Fs.new; manifest := None; chunk_manifest := None; in_flight := [] |}.
Lemma sample_fits : text_fits (print_image sample_entries).
Proof.
  intros m Hm. vm_compute in Hm. injection Hm as <-. repeat constructor; cbn; unfold_widths; try lia; done.
Qed.
Lemma install_chunk_manifest_atomic_witness :
  ∃ i' root, Image_.install_chunk_manifest (print_image sample_entries) new_image = (i', Ok root) ∧
    installed (print_image sample_entries) new_image i' root.
Proof.
  pose proof (install_chunk_manifest_atomic (print_image sample_entries) new_image (proj1 new_good) sample_fits) as Hi.
  destruct (Image_.install_chunk_manifest (print_image sample_entries) new_image) as [i' [root|e|]] eqn:E.
  - exists i', root. split; [reflexivity|exact Hi].
  - exfalso. vm_compute in E. discriminate E.
  - destruct Hi.
Defined.
