(* ===== verification/AuthorityVerify.v ===== *)
(** Only authenticated bytes run: what a file shows after [verify_image]
    accepted it is what the chunk manifest names. *)

From S2P Require Import Prelude BTree Abi Text Digest Chunk Filesystem FilesystemInv FilesystemLinks FilesystemSteps ChunkManifest ChunkManifestSpec Manifest Authority AuthorityInstall.

Section chunks.
Context `{Host}.

Lemma chunks_of_lookup fuel n l i :
  (0 < n)%nat → (length l ≤ fuel)%nat → (i * n < length l)%nat →
  Image_.chunks_of fuel n l !! i = Some (take n (drop (i * n) l)).
Proof.
  revert l i. induction fuel as [|fuel IH]; intros l i Hn Hf Hi; [lia|]. cbn [Image_.chunks_of].
  destruct l as [|x l]; [cbn in Hi; lia|]. destruct i as [|i]; [by rewrite drop_0|]. cbn [lookup list_lookup].
  rewrite IH; [|done|rewrite length_drop; cbn in *; lia|rewrite length_drop; cbn in *; lia].
  rewrite drop_drop. done.
Qed.

(** The i-th piece is the i-th chunk of the layout. *)
Lemma chunk_slice f (l : bytes) i :
  file_wf f → zlen l = cf_size f → 0 ≤ i < zlen (cf_chunks f) →
  take (Z.to_nat (chunk_size f)) (drop (Z.to_nat i * Z.to_nat (chunk_size f)) l) =
    slicez l (chunk_start f i) (chunk_stop f i) ∧ (Z.to_nat i * Z.to_nat (chunk_size f) < length l)%nat.
Proof.
  intros (Hs & Hc & _ & Hz & _) Hl Hi. rewrite Hz in Hi. unfold zlen in Hl.
  assert (i * chunk_size f < cf_size f).
  { unfold div_ceil in Hi. pose proof (Z.div_mod (cf_size f + chunk_size f - 1) (chunk_size f)).
    pose proof (Z.mod_pos_bound (cf_size f + chunk_size f - 1) (chunk_size f)). nia. }
  split; [|nia]. unfold slicez, chunk_stop, chunk_start. rewrite Z2Nat.inj_mul by nia.
  destruct (Z.min_spec (i * chunk_size f + chunk_size f) (cf_size f)) as [[? ->]|[? ->]].
  - f_equal. nia.
  - rewrite !take_ge; [done|rewrite length_drop; nia|rewrite length_drop; nia].
Qed.

Lemma resident_named f data :
  file_wf f → Image_.resident_matches_chunk_layout data f = Ok true → named_by f data.
Proof.
  intros Hf. unfold Image_.resident_matches_chunk_layout. pose proof Hf as (_ & Hc & _).
  rewrite as_usize_small by lia. destruct (Z.eqb_spec (zlen data) (cf_size f)) as [Hl|]; [|done]. cbn [negb].
  rewrite (proj2 (Z.eqb_neq (chunk_size f) 0)) by lia. case_match; [done|]. intros [= Hall].
  rewrite forallb_forall in Hall. split; [done|]. intros i h Hi. pose proof Hi as [Hb Hh]%getz_Some.
  destruct (chunk_slice f data i Hf Hl Hb) as [<- Hlt].
  specialize (Hall (take (Z.to_nat (chunk_size f)) (drop (Z.to_nat i * Z.to_nat (chunk_size f)) data), h)).
  cbn [fst snd] in Hall. rewrite bool_decide_eq_true in Hall.
  apply Hall, list_elem_of_In, (list_elem_of_lookup_2 _ (Z.to_nat i)).
  apply lookup_zip_with_Some. eexists _, _. split; [done|]. split; [|done]. apply chunks_of_lookup; lia.
Qed.

Lemma all_chunks_eq f (a b : bytes) :
  file_wf f → zlen a = cf_size f → zlen b = cf_size f →
  (∀ i, 0 ≤ i < zlen (cf_chunks f) → slicez a (chunk_start f i) (chunk_stop f i) = slicez b (chunk_start f i) (chunk_stop f i)) →
  a = b.
Proof.
  intros Hf Ha Hb Hall. apply list_eq_same_length with (length b); [done|unfold zlen in *; lia|].
  intros k x y Hk Hx Hy. assert (0 ≤ Z.of_nat k < cf_size f) as Hk' by (unfold zlen in *; lia).
  destruct (chunk_index_bounds f Hf (Z.of_nat k) Hk') as (Hi & Hs & Ht).
  set (i := Z.of_nat k / chunk_size f) in *. specialize (Hall i Hi).
  apply (f_equal (.!! (k - Z.to_nat (chunk_start f i))%nat)) in Hall. rewrite !slicez_lookup in Hall by lia.
  replace (Z.to_nat (chunk_start f i + Z.of_nat (k - Z.to_nat (chunk_start f i)))) with k in Hall by lia. congruence.
Qed.

(** [a] and [b] differ in a chunk whose digest is the same. *)
Definition differ_in_chunk f (a b : bytes) : Prop := ∃ i, 0 ≤ i < zlen (cf_chunks f) ∧
  collides (slicez a (chunk_start f i) (chunk_stop f i)) (slicez b (chunk_start f i) (chunk_stop f i)).
Lemma named_unique f a b : file_wf f → named_by f a → named_by f b → a = b ∨ differ_in_chunk f a b.
Proof.
  intros Hf [Ha Hna] [Hb Hnb].
  set (same := λ i : nat, slicez a (chunk_start f (Z.of_nat i)) (chunk_stop f (Z.of_nat i)) =
                          slicez b (chunk_start f (Z.of_nat i)) (chunk_stop f (Z.of_nat i))).
  assert (∀ i, Decision (same i)) as Hd by (intros i; unfold same; apply _).
  destruct (decide (Forall same (seq 0 (length (cf_chunks f))))) as [Hall|Hne].
  - left. apply (all_chunks_eq f); [done..|]. intros i Hi. rewrite Forall_forall in Hall.
    specialize (Hall (Z.to_nat i)). unfold same in Hall. rewrite Z2Nat.id in Hall by lia. apply Hall, elem_of_seq.
    unfold zlen in Hi. lia.
  - right. apply not_Forall_Exists, Exists_exists in Hne as (i & Hi%elem_of_seq & Hdiff); [|done].
    destruct (lookup_lt_is_Some_2 (cf_chunks f) i) as [h Hh]; [lia|].
    assert (getz (cf_chunks f) (Z.of_nat i) = Some h) as Hg by by rewrite getz_nat.
    exists (Z.of_nat i). split; [unfold zlen; lia|]. split; [exact Hdiff|]. by rewrite (Hna _ _ Hg), (Hnb _ _ Hg).
Qed.
End chunks.

(** * Acceptance *)
Section verify.
Context `{Host}.

(** Every [Vec] fits the address space. *)
Definition contents_fit (v : Vfs) : Prop :=
  Forall (λ n, match kind n with File d => vlen d ≤ usize_max | _ => True end) (nodes v).

(** What a guest reads of [node] is the image [content]. *)
Definition shows (v : Vfs) (node : nat) (f : ChunkedFile) (content : bytes) : Prop :=
  ∀ offset len b, is_u64 offset → 0 ≤ len ≤ usize_max →
    Fs.read_node_range v node offset len = Ok (Ready b) →
    vdata b = slicez content offset (Z.min (offset + len) (cf_size f)).
(** The bytes behind [node] are other than those of [content] in a chunk, under the
    same digest. *)
Definition forged_node (v : Vfs) (node : nat) (f : ChunkedFile) (content : bytes) : Prop :=
  match kind <$> nodes v !! node with
  | Some (File d) => differ_in_chunk f (vdata d) content
  | Some (Chunked f) => forged (chunks v) f content
  | _ => False
  end.

Lemma no_files_fit v :
  forallb (λ n, match kind n with File _ => false | _ => true end) (nodes v) = true → contents_fit v.
Proof.
  rewrite forallb_forall. intros Hn. apply Forall_forall. intros n Hin%list_elem_of_In. specialize (Hn n Hin). by destruct (kind n).
Qed.

Lemma chunked_shows v node n f content :
  file_wf f → store_wf (chunks v) → nodes v !! node = Some n → kind n = Chunked f → named_by f content →
  shows v node f content ∨ forged_node v node f content.
Proof.
  intros Hf Hs Hn Hk Hc. unfold forged_node. rewrite Hn. cbn. rewrite Hk.
  destruct (named_backs (chunks v) f content Hs Hc) as [Hb|?]; [left|by right]. intros offset len b Ho Hl. unfold Fs.read_node_range. rewrite Hn. cbn [ok_or rbind]. rewrite Hk.
  unfold Fs.read_chunked_range. destruct (Store.read_range (chunks v) f offset len) as [r|[]|] eqn:E; [|done].
  intros [= ->].
  assert (Z.min (saturating_add64 offset len) (cf_size f) = Z.min (offset + len) (cf_size f)) as He.
  { destruct Hf as (? & ? & _ & _ & _ & ?). unfold saturating_add64. lia. }
  destruct (read_range_cases (chunks v) f offset len Hf Ho Hl) as [[Hle Hr']|(_ & r & Hr' & Hres)];
    rewrite Hr' in E; simplify_eq; rewrite He in *.
  - unfold slicez. replace (Z.to_nat _) with 0%nat by lia. done.
  - inversion Hres; subst; cbn; auto.
Qed.

Lemma resident_shows v node n d f content :
  contents_fit v → nodes v !! node = Some n → kind n = File d → zlen (vdata d) = cf_size f → vdata d = content →
  shows v node f content.
Proof.
  intros Hfit Hn Hk Hz <- offset len b Ho Hl. unfold Fs.read_node_range. rewrite Hn. cbn [ok_or rbind]. rewrite Hk.
  intros [= <-]. cbn [vdata to_vec]. unfold contents_fit in Hfit. rewrite Forall_lookup in Hfit.
  specialize (Hfit node n Hn). rewrite Hk in Hfit. unfold vlen, zlen, fits in *.
  set (sz := Z.of_nat (length (vdata d))) in *. unfold try_usize, saturating_add_usize. rewrite <- Hz.
  destruct (Z.leb_spec offset usize_max); cbn [default from_option]; unfold id.
  - destruct (decide (offset ≤ sz)).
    + rewrite (Z.min_l offset sz) by lia. f_equal. lia.
    + unfold slicez. rewrite !drop_ge by lia. by rewrite !take_nil.
  - unfold slicez. rewrite !drop_ge by lia. by rewrite !take_nil.
Qed.

Lemma manifest_file_entry p m f fnv :
  Manifest_chunks.file p m = Some (f, fnv) → ∃ e, e ∈ cm_entries m ∧ e_path e = p ∧ e_kind e = EFile f fnv.
Proof.
  unfold Manifest_chunks.file. destruct (List.find _ _) as [e|] eqn:E; [|done].
  apply List.find_some in E as [Hin Hp]. apply andb_true_iff in Hp as [Hp%bool_decide_eq_true _].
  destruct (e_kind e) eqn:Hk; try done. intros [= -> ->]. exists e. by rewrite list_elem_of_In.
Qed.
End verify.

(** C9. With a chunk manifest installed, [verify_image] lets a path run only
    if it resolves to a file that the manifest names, and then the guest can
    read nothing from it but the bytes the manifest commits to: whatever image
    the digests of that entry name, any range read from the node, resident or
    chunk by chunk, is that range of the image, unless the bytes behind this node
    are forged: they differ from the image in a chunk and that chunk has the same
    SHA-256 digest. The check changes nothing. *)
Theorem verify_image_authentic `{Host} fuel cwd path i m :
  vfs_wf (vfs i) → store_wf (chunks (vfs i)) → contents_fit (vfs i) →
  chunk_manifest i = Some m → layouts_fit (cm_entries m) →
  (Image_.verify_image fuel cwd path i).2 = Ok () →
  (Image_.verify_image fuel cwd path i).1 = i ∧
  ∃ r node p e f fnv, resolve (vfs i) cwd path true = Ok r ∧ r_node r = Some node ∧
    Fs.abs_path_of fuel (vfs i) node = Ok p ∧ manifest_root (vfs i) = Some (cm_root m) ∧
    e ∈ cm_entries m ∧ e_path e = p ∧ e_kind e = EFile f fnv ∧
    ∀ content, named_by f content → shows (vfs i) node f content ∨ forged_node (vfs i) node f content.
Proof.
  intros Hv Hst Hfit Hm Hlay. unfold Image_.verify_image. rewrite Hm.
  destruct (resolve (vfs i) cwd path true) as [r| |]; cbn [map_err rbind]; [|done..].
  destruct (r_node r) as [node|] eqn:Hr; cbn [ok_or fst snd]; [|done]. unfold Image_.verify_chunked.
  destruct (bool_decide_reflect (manifest_root (vfs i) = Some (cm_root m))) as [Hroot|]; cbn [negb]; [|done].
  destruct (Fs.abs_path_of fuel (vfs i) node) as [p| |] eqn:Ea; cbn [map_err rbind]; [|done..].
  destruct (Manifest_chunks.file p m) as [[f fnv]|] eqn:Hf; [|done].
  destruct (manifest_file_entry p m f fnv Hf) as (e & He & Hp & Hk).
  assert (file_wf f) as Hwf. { unfold layouts_fit in Hlay. rewrite Forall_forall in Hlay. specialize (Hlay e He). by rewrite Hk in Hlay. }
  unfold node_at. destruct (nodes (vfs i) !! node) as [n|] eqn:Hn; cbn [expect map_err rbind]; [|done].
  intros Hok. split; [done|]. exists r, node, p, e, f, fnv. split_and!; try done. intros content Hc.
  destruct (kind n) as [|d|g| |] eqn:Hkn; try done.
  - destruct (Image_.resident_matches_chunk_layout (vdata d) f) as [[]| |] eqn:Er; cbn [rbind] in Hok; try done.
    pose proof (resident_named f (vdata d) Hwf Er) as Hd.
    destruct (named_unique f (vdata d) content Hwf Hd Hc) as [He'|?]; [left|right; unfold forged_node; rewrite Hn; cbn; by rewrite Hkn].
    eapply resident_shows; [done|exact Hn|exact Hkn|apply Hd|exact He'].
  - destruct (bool_decide_reflect (g = f)) as [->|]; [|done]. by eapply chunked_shows.
Qed.

(** The unit test's image, installed: [/bin/x] may run. *)
Definition sample_manifest_of_chunks : ChunkManifest := {| cm_root := [7]; cm_entries := sample_entries |}.
Definition sample_image : Image :=
  {| vfs := Image_.set_manifest_root (Some [7]) (Image_.apply sample_entries Fs.empty_root).1; manifest := None;
     chunk_manifest := Some sample_manifest_of_chunks; in_flight := [] |}.
Definition bin_x : bytes := [47; 98; 105; 110; 47; 120].
Lemma sample_layouts : layouts_fit sample_entries.
Proof. repeat constructor; cbn; unfold_widths; try lia; done. Qed.

Lemma verify_image_authentic_witness :
  Image_.verify_image 5 ROOT bin_x sample_image = (sample_image, Ok ()) ∧
  (Image_.verify_image 5 ROOT bin_x sample_image).1 = sample_image ∧
  (Image_.verify_image 5 ROOT [47; 98; 105; 110] sample_image).2 = Err (NotInChunkManifest [47; 98; 105; 110]).
Proof.
  assert (vfs_wf (vfs sample_image)) as Hv.
  { apply (apply_ok sample_entries Fs.empty_root); [apply empty_root_good|apply sample_layouts]. }
  assert (store_wf (chunks (vfs sample_image))) as Hs.
  { assert (chunks (vfs sample_image) = store_default) as -> by (vm_compute; reflexivity). split; [exact I|]. intros h v Hg. discriminate Hg. }
  assert (contents_fit (vfs sample_image)) as Hc by (apply no_files_fit; vm_compute; reflexivity).
  assert ((Image_.verify_image 5 ROOT bin_x sample_image).2 = Ok ()) as Hok by (vm_compute; reflexivity).
  destruct (verify_image_authentic 5 ROOT bin_x sample_image sample_manifest_of_chunks Hv Hs Hc eq_refl sample_layouts Hok) as [Hi _].
  split; [vm_compute; reflexivity|]. split; [exact Hi|]. vm_compute. reflexivity.
Defined.

(** Without a chunk manifest, the digest of a streamed file is the one taken
    as it arrived: bytes written to the file afterwards are not looked at the
    first time it is verified, and are the second time. *)
Lemma streamed_digest_outlives_write :
  let path := [47; 97] in
  let m := [(path, {| fe_digest := sha256 [1; 2]; fe_size := 2 |})] in
  let i0 := {| vfs := Fs.empty_root; manifest := Some m; chunk_manifest := None; in_flight := [] |} in
  let s := {| host_secret_handles := ∅; host_secret_nodes := ∅; next_host_secret_handle := 1; agent_principal := None |} in
  let i1 := (Image_.create_file ∅ path 2 493 (i0, s)).1.1 in
  let i2 := (Image_.append_file path [1; 2] i1).1 in
  let i3 := set_vfs (Fs.append_file path [66] (vfs i2)).1 i2 in
  Fs.read_file (vfs i3) path = Ok (Some [1; 2; 66]) ∧
  (Image_.verify_image 5 ROOT path i3).2 = Ok () ∧
  (Image_.verify_image 5 ROOT path (Image_.verify_image 5 ROOT path i3).1).2 = Err (Refused (SizeDiffers path 2 3)).
Proof. vm_compute. split_and!; reflexivity. Qed.
