(* ===== verification/Env.v ===== *)
(** The state a system call works on: [LinuxEnv] ([crates/linux-compat/src/lib.rs])
    beside the CPU and the guest's memory.

    The fields of [LinuxEnv] that belong together are records of their own: the
    image and its authority, the secrets, the shared objects, the tasks, the
    pager, the terminal, and what the host still owes ([Waits]). [net] says
    whether a broker is attached; the broker itself is in the heap. Recorded
    traces and the diagnostic trail are left out.

    An [Outcome] is the result of a fallible computation: [Outcome::Ret(Ok(v))]
    is [Ok (Value v)], [Outcome::Ret(Err(e))] is [Err e]. *)

From S2P Require Import Prelude BTree Abi Digest Chunk Filesystem Pager Cpu Net Fd Proc Signals Authority.

Record FileChunkRequest := { f_ticket : Z; f_hash : Hash }.
Record Waits := {
  terminal_input_wait : bool;
  network_wait : bool;
  page_in_wait : bool;
  page_in_recompile : bool;
  network_expired : bool;
  file_chunk_wait : option FileChunkRequest;
  next_file_ticket : Z
}.
Record Console := {
  output : bytes;
  stdio_pty : option Z;
  stdio_input : bytes;
  pty_ids : btree Z Z;
  next_pty_id : Z
}.

(** A live [MAP_SHARED] mapping of a file. *)
Record SharedMap := { sm_asid : Z; sm_addr : Z; sm_len : Z; sm_node : nat; sm_offset : Z }.

Record LinuxEnv (B V : Type) := {
  image : Image;
  secrets : SecretStore;
  heap : Heap B;
  shared : Shared;
  tasks : Tasks CpuSnapshot V;
  pager : Pager;
  inotify : list Z;
  inotify_cookie : Z;
  console : Console;
  waits : Waits;
  rng_state : Z;
  warp_nanos : Z;
  epoch_base_sec : Z;
  last_group : Z;
  exit_code : option Z;
  net : bool;
  shared_maps : list SharedMap
}.
Arguments image {B V} _.
Arguments secrets {B V} _.
Arguments heap {B V} _.
Arguments shared {B V} _.
Arguments tasks {B V} _.
Arguments pager {B V} _.
Arguments inotify {B V} _.
Arguments inotify_cookie {B V} _.
Arguments console {B V} _.
Arguments waits {B V} _.
Arguments rng_state {B V} _.
Arguments warp_nanos {B V} _.
Arguments epoch_base_sec {B V} _.
Arguments last_group {B V} _.
Arguments exit_code {B V} _.
Arguments net {B V} _.
Arguments shared_maps {B V} _.

Record Machine (B M V : Type) := { env : LinuxEnv B V; core : CpuSnapshot; mem : M }.
Arguments env {B M V} _.
Arguments core {B M V} _.
Arguments mem {B M V} _.

Inductive Outcome := Value (v : Z) | Switched | Exit (e : VmExit).

(** Assignments to the fields. *)
Definition set_terminal_input_wait (b : bool) (w : Waits) : Waits :=
  {| terminal_input_wait := b; network_wait := network_wait w; page_in_wait := page_in_wait w;
     page_in_recompile := page_in_recompile w; network_expired := network_expired w;
     file_chunk_wait := file_chunk_wait w; next_file_ticket := next_file_ticket w |}.
Definition set_network_wait (b : bool) (w : Waits) : Waits :=
  {| terminal_input_wait := terminal_input_wait w; network_wait := b; page_in_wait := page_in_wait w;
     page_in_recompile := page_in_recompile w; network_expired := network_expired w;
     file_chunk_wait := file_chunk_wait w; next_file_ticket := next_file_ticket w |}.
Definition set_page_in_wait (b : bool) (w : Waits) : Waits :=
  {| terminal_input_wait := terminal_input_wait w; network_wait := network_wait w; page_in_wait := b;
     page_in_recompile := page_in_recompile w; network_expired := network_expired w;
     file_chunk_wait := file_chunk_wait w; next_file_ticket := next_file_ticket w |}.
Definition set_page_in_recompile (b : bool) (w : Waits) : Waits :=
  {| terminal_input_wait := terminal_input_wait w; network_wait := network_wait w; page_in_wait := page_in_wait w;
     page_in_recompile := b; network_expired := network_expired w;
     file_chunk_wait := file_chunk_wait w; next_file_ticket := next_file_ticket w |}.
Definition set_network_expired (b : bool) (w : Waits) : Waits :=
  {| terminal_input_wait := terminal_input_wait w; network_wait := network_wait w; page_in_wait := page_in_wait w;
     page_in_recompile := page_in_recompile w; network_expired := b;
     file_chunk_wait := file_chunk_wait w; next_file_ticket := next_file_ticket w |}.
Definition set_file_chunk_wait (r : option FileChunkRequest) (w : Waits) : Waits :=
  {| terminal_input_wait := terminal_input_wait w; network_wait := network_wait w; page_in_wait := page_in_wait w;
     page_in_recompile := page_in_recompile w; network_expired := network_expired w;
     file_chunk_wait := r; next_file_ticket := next_file_ticket w |}.
Definition set_next_file_ticket (t : Z) (w : Waits) : Waits :=
  {| terminal_input_wait := terminal_input_wait w; network_wait := network_wait w; page_in_wait := page_in_wait w;
     page_in_recompile := page_in_recompile w; network_expired := network_expired w;
     file_chunk_wait := file_chunk_wait w; next_file_ticket := t |}.
Definition set_output (l : bytes) (c : Console) : Console :=
  {| output := l; stdio_pty := stdio_pty c; stdio_input := stdio_input c; pty_ids := pty_ids c;
     next_pty_id := next_pty_id c |}.
Definition set_stdio_pty (p : option Z) (c : Console) : Console :=
  {| output := output c; stdio_pty := p; stdio_input := stdio_input c; pty_ids := pty_ids c;
     next_pty_id := next_pty_id c |}.
Definition set_stdio_input (l : bytes) (c : Console) : Console :=
  {| output := output c; stdio_pty := stdio_pty c; stdio_input := l; pty_ids := pty_ids c;
     next_pty_id := next_pty_id c |}.
Definition set_pty_ids (t : btree Z Z) (c : Console) : Console :=
  {| output := output c; stdio_pty := stdio_pty c; stdio_input := stdio_input c; pty_ids := t;
     next_pty_id := next_pty_id c |}.
Definition set_next_pty_id (x : Z) (c : Console) : Console :=
  {| output := output c; stdio_pty := stdio_pty c; stdio_input := stdio_input c; pty_ids := pty_ids c;
     next_pty_id := x |}.
Definition put_image {B V} (x : Image) (e : LinuxEnv B V) : LinuxEnv B V :=
  {| image := x; secrets := secrets e; heap := heap e; shared := shared e; tasks := tasks e; pager := pager e;
     inotify := inotify e; inotify_cookie := inotify_cookie e; console := console e; waits := waits e;
     rng_state := rng_state e; warp_nanos := warp_nanos e; epoch_base_sec := epoch_base_sec e;
     last_group := last_group e; exit_code := exit_code e; net := net e;
     shared_maps := shared_maps e |}.
Definition put_secrets {B V} (x : SecretStore) (e : LinuxEnv B V) : LinuxEnv B V :=
  {| image := image e; secrets := x; heap := heap e; shared := shared e; tasks := tasks e; pager := pager e;
     inotify := inotify e; inotify_cookie := inotify_cookie e; console := console e; waits := waits e;
     rng_state := rng_state e; warp_nanos := warp_nanos e; epoch_base_sec := epoch_base_sec e;
     last_group := last_group e; exit_code := exit_code e; net := net e;
     shared_maps := shared_maps e |}.
Definition put_heap {B V} (x : Heap B) (e : LinuxEnv B V) : LinuxEnv B V :=
  {| image := image e; secrets := secrets e; heap := x; shared := shared e; tasks := tasks e; pager := pager e;
     inotify := inotify e; inotify_cookie := inotify_cookie e; console := console e; waits := waits e;
     rng_state := rng_state e; warp_nanos := warp_nanos e; epoch_base_sec := epoch_base_sec e;
     last_group := last_group e; exit_code := exit_code e; net := net e;
     shared_maps := shared_maps e |}.
Definition put_shared {B V} (x : Shared) (e : LinuxEnv B V) : LinuxEnv B V :=
  {| image := image e; secrets := secrets e; heap := heap e; shared := x; tasks := tasks e; pager := pager e;
     inotify := inotify e; inotify_cookie := inotify_cookie e; console := console e; waits := waits e;
     rng_state := rng_state e; warp_nanos := warp_nanos e; epoch_base_sec := epoch_base_sec e;
     last_group := last_group e; exit_code := exit_code e; net := net e;
     shared_maps := shared_maps e |}.
Definition put_tasks {B V} (x : Tasks CpuSnapshot V) (e : LinuxEnv B V) : LinuxEnv B V :=
  {| image := image e; secrets := secrets e; heap := heap e; shared := shared e; tasks := x; pager := pager e;
     inotify := inotify e; inotify_cookie := inotify_cookie e; console := console e; waits := waits e;
     rng_state := rng_state e; warp_nanos := warp_nanos e; epoch_base_sec := epoch_base_sec e;
     last_group := last_group e; exit_code := exit_code e; net := net e;
     shared_maps := shared_maps e |}.
Definition put_pager {B V} (x : Pager) (e : LinuxEnv B V) : LinuxEnv B V :=
  {| image := image e; secrets := secrets e; heap := heap e; shared := shared e; tasks := tasks e; pager := x;
     inotify := inotify e; inotify_cookie := inotify_cookie e; console := console e; waits := waits e;
     rng_state := rng_state e; warp_nanos := warp_nanos e; epoch_base_sec := epoch_base_sec e;
     last_group := last_group e; exit_code := exit_code e; net := net e;
     shared_maps := shared_maps e |}.
Definition put_inotify {B V} (x : list Z) (e : LinuxEnv B V) : LinuxEnv B V :=
  {| image := image e; secrets := secrets e; heap := heap e; shared := shared e; tasks := tasks e; pager := pager e;
     inotify := x; inotify_cookie := inotify_cookie e; console := console e; waits := waits e;
     rng_state := rng_state e; warp_nanos := warp_nanos e; epoch_base_sec := epoch_base_sec e;
     last_group := last_group e; exit_code := exit_code e; net := net e;
     shared_maps := shared_maps e |}.
Definition put_inotify_cookie {B V} (x : Z) (e : LinuxEnv B V) : LinuxEnv B V :=
  {| image := image e; secrets := secrets e; heap := heap e; shared := shared e; tasks := tasks e; pager := pager e;
     inotify := inotify e; inotify_cookie := x; console := console e; waits := waits e; rng_state := rng_state e;
     warp_nanos := warp_nanos e; epoch_base_sec := epoch_base_sec e; last_group := last_group e;
     exit_code := exit_code e; net := net e;
     shared_maps := shared_maps e |}.
Definition put_console {B V} (x : Console) (e : LinuxEnv B V) : LinuxEnv B V :=
  {| image := image e; secrets := secrets e; heap := heap e; shared := shared e; tasks := tasks e; pager := pager e;
     inotify := inotify e; inotify_cookie := inotify_cookie e; console := x; waits := waits e;
     rng_state := rng_state e; warp_nanos := warp_nanos e; epoch_base_sec := epoch_base_sec e;
     last_group := last_group e; exit_code := exit_code e; net := net e;
     shared_maps := shared_maps e |}.
Definition put_waits {B V} (x : Waits) (e : LinuxEnv B V) : LinuxEnv B V :=
  {| image := image e; secrets := secrets e; heap := heap e; shared := shared e; tasks := tasks e; pager := pager e;
     inotify := inotify e; inotify_cookie := inotify_cookie e; console := console e; waits := x;
     rng_state := rng_state e; warp_nanos := warp_nanos e; epoch_base_sec := epoch_base_sec e;
     last_group := last_group e; exit_code := exit_code e; net := net e;
     shared_maps := shared_maps e |}.
Definition put_rng_state {B V} (x : Z) (e : LinuxEnv B V) : LinuxEnv B V :=
  {| image := image e; secrets := secrets e; heap := heap e; shared := shared e; tasks := tasks e; pager := pager e;
     inotify := inotify e; inotify_cookie := inotify_cookie e; console := console e; waits := waits e;
     rng_state := x; warp_nanos := warp_nanos e; epoch_base_sec := epoch_base_sec e; last_group := last_group e;
     exit_code := exit_code e; net := net e;
     shared_maps := shared_maps e |}.
Definition put_warp_nanos {B V} (x : Z) (e : LinuxEnv B V) : LinuxEnv B V :=
  {| image := image e; secrets := secrets e; heap := heap e; shared := shared e; tasks := tasks e; pager := pager e;
     inotify := inotify e; inotify_cookie := inotify_cookie e; console := console e; waits := waits e;
     rng_state := rng_state e; warp_nanos := x; epoch_base_sec := epoch_base_sec e; last_group := last_group e;
     exit_code := exit_code e; net := net e;
     shared_maps := shared_maps e |}.
Definition put_epoch_base_sec {B V} (x : Z) (e : LinuxEnv B V) : LinuxEnv B V :=
  {| image := image e; secrets := secrets e; heap := heap e; shared := shared e; tasks := tasks e; pager := pager e;
     inotify := inotify e; inotify_cookie := inotify_cookie e; console := console e; waits := waits e;
     rng_state := rng_state e; warp_nanos := warp_nanos e; epoch_base_sec := x; last_group := last_group e;
     exit_code := exit_code e; net := net e;
     shared_maps := shared_maps e |}.
Definition put_last_group {B V} (x : Z) (e : LinuxEnv B V) : LinuxEnv B V :=
  {| image := image e; secrets := secrets e; heap := heap e; shared := shared e; tasks := tasks e; pager := pager e;
     inotify := inotify e; inotify_cookie := inotify_cookie e; console := console e; waits := waits e;
     rng_state := rng_state e; warp_nanos := warp_nanos e; epoch_base_sec := epoch_base_sec e; last_group := x;
     exit_code := exit_code e; net := net e;
     shared_maps := shared_maps e |}.
Definition put_exit_code {B V} (x : option Z) (e : LinuxEnv B V) : LinuxEnv B V :=
  {| image := image e; secrets := secrets e; heap := heap e; shared := shared e; tasks := tasks e; pager := pager e;
     inotify := inotify e; inotify_cookie := inotify_cookie e; console := console e; waits := waits e;
     rng_state := rng_state e; warp_nanos := warp_nanos e; epoch_base_sec := epoch_base_sec e;
     last_group := last_group e; exit_code := x; net := net e;
     shared_maps := shared_maps e |}.
Definition put_net {B V} (x : bool) (e : LinuxEnv B V) : LinuxEnv B V :=
  {| image := image e; secrets := secrets e; heap := heap e; shared := shared e; tasks := tasks e; pager := pager e;
     inotify := inotify e; inotify_cookie := inotify_cookie e; console := console e; waits := waits e;
     rng_state := rng_state e; warp_nanos := warp_nanos e; epoch_base_sec := epoch_base_sec e;
     last_group := last_group e; exit_code := exit_code e; net := x;
     shared_maps := shared_maps e |}.

Definition put_shared_maps {B V} (x : list SharedMap) (e : LinuxEnv B V) : LinuxEnv B V :=
  {| image := image e; secrets := secrets e; heap := heap e; shared := shared e; tasks := tasks e; pager := pager e;
     inotify := inotify e; inotify_cookie := inotify_cookie e; console := console e; waits := waits e;
     rng_state := rng_state e; warp_nanos := warp_nanos e; epoch_base_sec := epoch_base_sec e;
     last_group := last_group e; exit_code := exit_code e; net := net e; shared_maps := x |}.

(** [LinuxEnv::new], with the shared objects the initial process holds; the
    broker [b] is not attached. *)
Definition EPOCH_BASE_SEC : Z := 1790000000.
Definition heap_empty {B} (b : B) : Heap B :=
  {| ofds := ∅; pipes := ∅; ptys := ∅; events := ∅; timers := ∅; inotifies := ∅; sockets := ∅; epolls := ∅;
     tables := ∅; broker := b; next_ref := 0 |}.
Definition shared_empty : Shared :=
  {| cells := ∅; sigtables := ∅; done_flags := ∅; next_cell := 0; next_asid := 1 |}.
Definition env_new {B V} (b : B) : LinuxEnv B V :=
  let '(p, h, s) := Procs.initial (heap_empty b) shared_empty in
  {| image := {| vfs := Fs.new; manifest := None; chunk_manifest := None; in_flight := [] |};
     secrets := {| host_secret_handles := ∅; host_secret_nodes := ∅; next_host_secret_handle := 1;
                   agent_principal := None |};
     heap := h; shared := s; tasks := {| cur := p; sched := Sched.new |}; pager := pager_default;
     inotify := []; inotify_cookie := 0;
     console := {| output := []; stdio_pty := None; stdio_input := []; pty_ids := []; next_pty_id := 0 |};
     waits := {| terminal_input_wait := false; network_wait := false; page_in_wait := false;
                 page_in_recompile := false; network_expired := false; file_chunk_wait := None; next_file_ticket := 0 |};
     rng_state := 11400714819323198485; warp_nanos := 0; epoch_base_sec := EPOCH_BASE_SEC;
     last_group := ROOT_PID; exit_code := None; net := false;
     shared_maps := [] |}.

Section machine.
Context `{Host} {B : Type} `{NetworkBroker B} {M V : Type} `{GuestMemory M V}.
Abbreviation machine := (Machine B M V).
Abbreviation sys := (stm machine Z).

Definition on_env (f : LinuxEnv B V → LinuxEnv B V) (w : machine) : machine :=
  {| env := f (env w); core := core w; mem := mem w |}.
Definition on_core (f : CpuSnapshot → CpuSnapshot) (w : machine) : machine :=
  {| env := env w; core := f (core w); mem := mem w |}.
Definition put_mem (m : M) (w : machine) : machine := {| env := env w; core := core w; mem := m |}.
Definition on_waits (f : Waits → Waits) : machine → machine := on_env (λ e, put_waits (f (waits e)) e).
Definition on_console (f : Console → Console) : machine → machine := on_env (λ e, put_console (f (console e)) e).
Definition on_heap (f : Heap B → Heap B) : machine → machine := on_env (λ e, put_heap (f (heap e)) e).
Definition on_tasks (f : Tasks CpuSnapshot V → Tasks CpuSnapshot V) : machine → machine :=
  on_env (λ e, put_tasks (f (tasks e)) e).

(** [env.proc], [env.sched] and [env.vfs]. *)
Definition proc (w : machine) : Process := cur (tasks (env w)).
Definition put_proc (p : Process) : machine → machine := on_tasks (set_cur p).
Definition on_sched (f : Scheduler CpuSnapshot V → Scheduler CpuSnapshot V) : machine → machine :=
  on_tasks (λ t, {| cur := cur t; sched := f (sched t) |}).
Definition fs (w : machine) : Vfs := vfs (image (env w)).
Definition put_fs (v : Vfs) : machine → machine := on_env (λ e, put_image (set_vfs v (image e)) e).

Definition gets {E A} (f : machine → A) : stm machine E A := λ w, (w, Ok (f w)).
(** A computation on the filesystem, and one on the shared objects. *)
Definition with_fs {A} (m : stm Vfs Z A) : sys A := λ w, let '(v, r) := m (fs w) in (put_fs v w, r).
Definition with_heap {A} (m : stm (Heap B) Z A) : sys A := λ w,
  let '(h, r) := m (heap (env w)) in (on_heap (λ _, h) w, r).

(** * Time, random numbers and the exit code *)
Definition now_nanos (w : machine) : Z := saturating_add64 (icount (core w)) (warp_nanos (env w)).

(** xorshift64*; shifts left drop the bits above 64. *)
Definition xorshift (x : Z) : Z :=
  let x := Z.lxor x (Z.shiftr x 12) in
  let x := Z.lxor x (wrap 64 (Z.shiftl x 25)) in
  Z.lxor x (Z.shiftr x 27).
Definition next_random : sys Z := λ w,
  let x := xorshift (rng_state (env w)) in
  (on_env (put_rng_state x) w, Ok (wrapping_mul64 x 2685821657736338717)).
Definition record_exit (code : Z) : machine → machine := on_env (put_exit_code (Some code)).

(** * Waiting for a chunk of a file *)
Definition TICKET_FILE : Z := 2 ^ 63.
Inductive RequestError := SecondFileChunk.
Definition request_file_chunk (hash : Hash) : stm machine RequestError () := λ w,
  let ws := waits (env w) in
  match file_chunk_wait ws with
  | Some pending => (w, if bool_decide (f_hash pending = hash) then Ok () else Err SecondFileChunk)
  | None =>
      let t := bump (next_file_ticket ws) in
      (on_waits (λ ws, set_page_in_wait true (set_file_chunk_wait
         (Some {| f_ticket := Z.lor t TICKET_FILE; f_hash := hash |}) (set_next_file_ticket t ws))) w, Ok ())
  end.

Definition has_lazy_mappings (w : machine) : bool := negb (is_empty (pager (env w))).

(** * The descriptors of the running process *)
(** [env.proc.fds.borrow().get(fd)?.desc] and what it describes. *)
Definition get_desc (fd : Z) : sys (Z * Description) := λ w,
  (w, let! e := (let! t := Fds.table (fds (proc w)) (heap (env w)) in Table.get t fd) in
      let! d := expect (ofds (heap (env w)) !! desc e) in
      Ok (desc e, d.1)).
(** Assignments through [desc.borrow_mut()]. *)
Definition put_offset (x : Z) (d : Description) : Description :=
  {| backing := backing d; offset := x; flags := flags d |}.
Definition put_desc (i : Z) (d : Description) : machine → machine :=
  on_heap (λ h, set_ofds (alter (λ x, (d, x.2)) i (ofds h)) h).
End machine.
