(* ===== verification/GuestMem.v ===== *)
(** Copies between the kernel layer and guest memory: the first section of
    [crates/linux-compat/src/syscall.rs].

    A copy fills the lazily mapped pages it touches first, and gives up with
    [PAGE_IN_RESTART] when a chunk is absent. The page loop runs one step per
    page of the range, the string loop one per byte at most. *)

From S2P Require Import Prelude BTree Abi Digest Chunk Filesystem Pager Cpu Net Fd Proc Signals Authority Env.

Definition PAGE_IN_RESTART : Z := 1346455365.
Definition PATH_MAX : Z := 4096.

Module Copy.
Section copy.
Context `{Host} {B : Type} `{NetworkBroker B} {M V : Type} `{GuestMemory M V}.
Abbreviation machine := (Machine B M V).
Abbreviation sys := (stm machine Z).

(** [cpu.pending_exception = Some(cpu.exception)] *)
Definition replay_exception (w : machine) : machine :=
  on_core (λ c, Core.set_pending (Some (exception c)) c) w.

(** The cold page of one step of the loop. *)
Definition touch_page (page : Z) (access : AccessKind) : sys () := λ w,
  let a := asid (proc w) in
  let '(p, r) := resolve_fault (pager (env w)) (fs w) a page access in
  let w := on_env (put_pager p) w in
  match r with
  | Ok (PageReady resolved b prm) =>
      let '(m, written) := mem_write (mem w) resolved b in
      if negb written then (put_mem m w, Err EFAULT)
      else
        let '(m, updated) := mem_update_perm m resolved PAGE_SIZE prm in
        if negb updated then (put_mem m w, Err EFAULT)
        else
          match mark_resident p a resolved access with
          | Ok p => (on_env (put_pager p) (put_mem m w), Ok ())
          | Err e => (put_mem m w, Err e)
          | Panic => (put_mem m w, Panic)
          end
  | Ok (PageMissing _) => (replay_exception (on_waits (set_page_in_wait true) w), Err PAGE_IN_RESTART)
  | Ok NotLazy => (w, Ok ())
  | Ok _ => (w, Err EIO)
  | Err e => (w, Err e)
  | Panic => (w, Panic)
  end.

Fixpoint touch_loop (fuel : nat) (page end_ : Z) (access : AccessKind) : sys () :=
  match fuel with
  | O => query (λ _, Panic)
  | S fuel =>
      if end_ <=? page then sret ()
      else
        let next := touch_loop fuel (saturating_add64 page PAGE_SIZE) end_ access in
        do! st <- gets (λ w, page_state (pager (env w)) (asid (proc w)) page) in
        match st with
        | None => next
        | Some (is_resident, prm) =>
            if Z.land prm (required_perm access) =? 0 then sfail EFAULT
            else if is_resident then next
            else do! _ <- touch_page page access in next
        end
  end.

Definition host_touch (addr len : Z) (access : AccessKind) : sys () :=
  do! is_lazy <- gets has_lazy_mappings in
  if (len =? 0) || negb is_lazy then sret ()
  else
    do! end_ <- query (λ _, ok_or (checked_add64 addr len) EFAULT) in
    touch_loop (Z.to_nat ((end_ - page_of addr) / PAGE_SIZE + 2)) (page_of addr) end_ access.

Definition read_mem_raw (addr len : Z) : sys bytes := query (λ w, ok_or (mem_read (mem w) addr len) EFAULT).
Definition write_mem_raw (addr : Z) (b : bytes) : sys () := λ w,
  let '(m, written) := mem_write (mem w) addr b in
  (put_mem m w, if written then Ok () else Err EFAULT).
Definition read_mem (addr len : Z) : sys bytes :=
  do! _ <- host_touch addr len AccRead in read_mem_raw addr len.
Definition write_mem (addr : Z) (b : bytes) : sys () :=
  do! _ <- host_touch addr (zlen b) AccWrite in write_mem_raw addr b.

(** [chunk.iter().position(|&b| b == 0)] *)
Fixpoint before_nul (l : bytes) : option bytes :=
  match l with
  | [] => None
  | b :: l => if b =? 0 then Some [] else cons b <$> before_nul l
  end.
Fixpoint cstr_loop (fuel : nat) (cursor max : Z) (out : bytes) : sys bytes :=
  match fuel with
  | O => query (λ _, Panic)
  | S fuel =>
      if max <=? zlen out then sfail EINVAL
      else
        let to_page_end := PAGE_SIZE - Z.land cursor (PAGE_SIZE - 1) in
        let take := Z.min (Z.min 64 (max - zlen out)) to_page_end in
        do! chunk <- read_mem cursor take in
        match before_nul chunk with
        | Some part => sret (out ++ part)
        | None =>
            do! cursor <- query (λ _, add64 cursor take) in
            cstr_loop fuel cursor max (out ++ chunk)
        end
  end.
Definition read_cstr_limit (addr max : Z) : sys bytes := cstr_loop (S (Z.to_nat max)) addr max [].
Definition read_cstr (addr : Z) : sys bytes := read_cstr_limit addr PATH_MAX.

(** [ensure_guest_range]: [Some] outcome when the call cannot go on. *)
Definition ensure_guest_range (addr len : Z) (access : AccessKind) : sys (option Outcome) := λ w,
  match host_touch addr len access w with
  | (w, Ok _) => (w, Ok None)
  | (w, Err e) => if e =? PAGE_IN_RESTART then (w, Ok (Some (Exit Interrupted))) else (w, Err e)
  | (w, Panic) => (w, Panic)
  end.

(** * What a copy leaves alone: all but memory, the pager, the host's waits and
    the exception queued for replay. *)
Record frame (w w' : machine) : Prop := {
  fr_env : env w' = put_waits (waits (env w')) (put_pager (pager (env w')) (env w));
  fr_core : core w' = core w ∨ core w' = Core.set_pending (Some (exception (core w))) (core w)
}.
Lemma frame_refl w : frame w w.
Proof. split; [by destruct w as [[] ? ?]|by left]. Qed.
Lemma frame_trans w1 w2 w3 : frame w1 w2 → frame w2 w3 → frame w1 w3.
Proof.
  intros [He Hc] [He' Hc']. split; [rewrite He', He; done|].
  destruct Hc as [Hc|Hc], Hc' as [Hc'|Hc']; rewrite Hc', Hc; auto.
Qed.
Lemma frame_tasks w w' : frame w w' → tasks (env w') = tasks (env w) ∧ proc w' = proc w.
Proof. intros Hf. unfold proc. by rewrite (fr_env _ _ Hf). Qed.

Lemma touch_page_frame page access w : frame w (touch_page page access w).1.
Proof.
  unfold touch_page. destruct (resolve_fault _ _ _ _ _) as [p [r|e|]].
  - destruct r; try (split; [by destruct w as [[] ? ?]|by (left + right)]).
    destruct (mem_write _ _ _) as [m []]; [|split; [by destruct w as [[] ? ?]|by left]]. cbn [negb].
    destruct (mem_update_perm _ _ _ _) as [m' []]; [|split; [by destruct w as [[] ? ?]|by left]]. cbn [negb].
    destruct (mark_resident _ _ _ _); (split; [by destruct w as [[] ? ?]|by left]).
  - split; [by destruct w as [[] ? ?]|by left].
  - split; [by destruct w as [[] ? ?]|by left].
Qed.
Lemma touch_loop_frame fuel page end_ access w : frame w (touch_loop fuel page end_ access w).1.
Proof.
  revert page w. induction fuel as [|fuel IH]; intros page w; [apply frame_refl|]. cbn [touch_loop].
  destruct (end_ <=? page); [apply frame_refl|]. unfold sbind at 1, gets.
  destruct (page_state _ _ _) as [[[] prm]|]; [| |by apply IH].
  - destruct (_ =? 0); [apply frame_refl|by apply IH].
  - destruct (_ =? 0); [apply frame_refl|]. unfold sbind. pose proof (touch_page_frame page access w) as Hf.
    destruct (touch_page page access w) as [w1 [[]|e|]]; [|done..]. eapply frame_trans; [exact Hf|apply IH].
Qed.
Lemma host_touch_frame addr len access w : frame w (host_touch addr len access w).1.
Proof.
  unfold host_touch, sbind, gets. destruct (_ || _); [apply frame_refl|]. unfold query.
  destruct (ok_or _ _); [apply touch_loop_frame|apply frame_refl..].
Qed.
Lemma read_mem_frame addr len w : frame w (read_mem addr len w).1.
Proof.
  unfold read_mem, sbind. pose proof (host_touch_frame addr len AccRead w) as Hf.
  by destruct (host_touch _ _ _ _) as [w1 [[]|e|]].
Qed.
Lemma write_mem_frame addr b w : frame w (write_mem addr b w).1.
Proof.
  unfold write_mem, sbind. pose proof (host_touch_frame addr (zlen b) AccWrite w) as Hf.
  destruct (host_touch _ _ _ _) as [w1 [[]|e|]]; [|done..]. unfold write_mem_raw.
  destruct (mem_write _ _ _) as [m ok]. eapply frame_trans; [exact Hf|]. split; [by destruct w1 as [[] ? ?]|by left].
Qed.
End copy.
End Copy.
