(* ===== verification/GuestMemSpec.v ===== *)
(** Demand paging is invisible to kernel copies.

    [guest_byte] is the byte an address shows the guest: what its mappings
    describe while the page is cold, the memory's own byte otherwise. Filling
    pages leaves it alone, so a copy out of guest memory returns exactly these
    bytes and a copy in replaces exactly its range. *)

From S2P Require Import Prelude BTree Abi Digest Chunk Filesystem Pager PagerView PagerOps PagerFault Cpu Net Fd Proc Signals Authority Env GuestMem.

Section paging.
Context `{Host} {B : Type} `{NetworkBroker B} {M V : Type} `{GuestMemoryLaws M V} (contents : ChunkedFile → bytes).
Abbreviation machine := (Machine B M V).
Implicit Types w : machine.

Definition view_at w (a : Z) : list Effect := view (pager (env w)) (asid (proc w)) a.
Definition in_memory w (page : Z) : Prop := (asid (proc w), page) ∈ resident (pager (env w)).
#[global] Instance in_memory_dec w page : Decision (in_memory w page).
Proof. unfold in_memory. apply _. Defined.
(** The page of [a] is mapped lazily and its bytes are not in memory yet. *)
Definition cold w (a : Z) : bool :=
  bool_decide (view_at w (page_of a) ≠ []) && bool_decide (¬ in_memory w (page_of a)).
Definition mem_byte (m : M) (a : Z) : option Z := b ← mem_read m a 1; head b.
Definition guest_byte w (a : Z) : option Z :=
  if cold w a then Some (shown contents (base_fill (view_at w (page_of a))) (view_at w a))
  else mem_byte (mem w) a.

(** The mappings are well formed and the running space is backed by [contents]. *)
Definition bytes_of (m : FileMapping) : Prop := is_u8 (fill m) ∧ byte_list (contents (m_file m)).
Definition backed w : Prop :=
  pager_wf (pager (env w)) ∧
  ∀ s, spaces (pager (env w)) !! asid (proc w) = Some s →
    files_back (fs w) contents (mappings s) ∧ Forall bytes_of (mappings s).
Definition counters w (n : Z) : Prop := counted (pager (env w)) ∧ page_ins (pager (env w)) + n ≤ U64_MAX.

(** What a copy may do besides its transfer: fill pages of the running space
    and ask for a chunk. *)
Record paged_in w w' : Prop := {
  pi_bytes : ∀ a, is_u64 a → guest_byte w' a = guest_byte w a;
  pi_env : env w' = put_waits (waits (env w')) (put_pager (pager (env w')) (env w));
  pi_spaces : spaces (pager (env w')) = spaces (pager (env w));
  pi_resident : resident (pager (env w)) ⊆ resident (pager (env w'));
  pi_core : core w' = core w ∨ core w' = Core.set_pending (Some (exception (core w))) (core w)
}.
(** The machine stands still until the chunk of a page arrives. *)
Definition waiting w : Prop :=
  page_in_wait (waits (env w)) = true ∧ is_Some (pending (pager (env w))) ∧
  pending_exception (core w) = Some (exception (core w)).

Lemma paged_in_refl w : paged_in w w.
Proof. split; [done| |done|done|by left]. by destruct w as [[] ? ?]. Qed.
Lemma paged_in_trans w1 w2 w3 : paged_in w1 w2 → paged_in w2 w3 → paged_in w1 w3.
Proof.
  intros [Hb He Hs Hr Hc] [Hb' He' Hs' Hr' Hc']. split.
  - intros a Ha. rewrite Hb', Hb; done.
  - rewrite He', He. done.
  - congruence.
  - set_solver.
  - destruct Hc as [Hc|Hc], Hc' as [Hc'|Hc']; rewrite Hc', Hc; auto.
Qed.

Lemma paged_in_proc w w' : paged_in w w' → proc w' = proc w ∧ fs w' = fs w.
Proof. intros Hp. unfold proc, fs. rewrite (pi_env _ _ Hp). done. Qed.
Lemma paged_in_view w w' a : paged_in w w' → view_at w' a = view_at w a.
Proof.
  intros Hp. unfold view_at, view. destruct (paged_in_proc _ _ Hp) as [-> _]. by rewrite (pi_spaces _ _ Hp).
Qed.
Lemma paged_in_backed w w' : paged_in w w' → backed w → backed w'.
Proof.
  intros Hp [Hw Hf]. destruct (paged_in_proc _ _ Hp) as [Hpr Hv]. split.
  - intros a s. rewrite (pi_spaces _ _ Hp). apply Hw.
  - intros s. rewrite (pi_spaces _ _ Hp), Hpr, Hv. apply Hf.
Qed.
Lemma paged_in_cold w w' a : paged_in w w' → cold w a = false → cold w' a = false.
Proof.
  intros Hp. unfold cold. rewrite (paged_in_view _ _ _ Hp). rewrite !andb_false_iff, !bool_decide_eq_false.
  intros [?|Hn]; [by left|right]. contradict Hn. unfold in_memory in *.
  destruct (paged_in_proc _ _ Hp) as [Hpr _]. rewrite Hpr in Hn. intros ?. apply Hn. by apply (pi_resident _ _ Hp).
Qed.

(** * Bytes of memory *)
Lemma mem_byte_read m a n b i :
  0 ≤ n → a + n ≤ 2 ^ 64 → mem_read m a n = Some b → 0 ≤ i < n → mem_byte m (a + i) = getz b i.
Proof.
  intros Hn Ha Hr Hi. replace n with (i + (1 + (n - i - 1))) in Hr by lia.
  rewrite mem_read_app in Hr by lia. destruct (mem_read m a i) as [x|] eqn:Hx; [|done].
  cbn in Hr. rewrite mem_read_app in Hr by lia. destruct (mem_read m (a + i) 1) as [y|] eqn:Hy; [|done].
  cbn in Hr. destruct (mem_read m (a + i + 1) _) as [z|]; [|done]. cbn in Hr. injection Hr as <-.
  apply mem_read_length in Hx; [|lia]. unfold mem_byte. rewrite Hy. apply mem_read_length in Hy; [|lia].
  unfold zlen in Hy. destruct y as [|c [|? ?]]; cbn in Hy; try lia. cbn. symmetry. apply getz_Some.
  rewrite zlen_app, zlen_cons. pose proof (zlen_nonneg z). split; [lia|].
  rewrite lookup_app_r by (unfold zlen in *; lia).
  by replace (Z.to_nat i - length x)%nat with 0%nat by (unfold zlen in *; lia).
Qed.

Lemma mem_byte_write m a b m' i :
  0 ≤ a → a + zlen b ≤ 2 ^ 64 → byte_list b → mem_write m a b = (m', true) → 0 ≤ i < zlen b →
  mem_byte m' (a + i) = getz b i.
Proof.
  intros Ha Hb Hl Hw Hi. eapply (mem_byte_read m' a (zlen b)); [lia|done| |done]. by eapply mem_read_write.
Qed.
Lemma mem_byte_write_apart m a b m' r x :
  0 ≤ a → is_u64 x → a + zlen b ≤ 2 ^ 64 → mem_write m a b = (m', r) → x < a ∨ a + zlen b ≤ x →
  mem_byte m' x = mem_byte m x.
Proof.
  intros Ha Hx Hb Hw Hap. unfold mem_byte. erewrite mem_read_write_apart; [done|done|apply Hx|lia|done| |done|].
  - unfold fits in Hx. lia.
  - unfold apart. lia.
Qed.
Lemma mem_byte_update_perm m a n p m' r x : mem_update_perm m a n p = (m', r) → mem_byte m' x = mem_byte m x.
Proof. intros Hu. unfold mem_byte. by erewrite mem_read_update_perm. Qed.

(** * Filling one page *)
Lemma page_of_page page i : aligned page → 0 ≤ i < PAGE_SIZE → page_of (page + i) = page.
Proof.
  intros Ha Hi. rewrite page_of_spec. unfold aligned, PAGE_SIZE in *. Z.div_mod_to_equations. lia.
Qed.
Lemma page_of_self page : aligned page → page_of page = page.
Proof. intros Ha. rewrite <- (Z.add_0_r page) at 1. apply page_of_page; [done|]. unfold PAGE_SIZE. lia. Qed.
Lemma in_page page x : aligned page → page_of x = page → page ≤ x < page + PAGE_SIZE.
Proof. intros Ha <-. apply page_of_bounds. Qed.
Lemma outside_page page x : aligned page → page_of x ≠ page → x < page ∨ page + PAGE_SIZE ≤ x.
Proof.
  intros Ha Hne. destruct (decide (page ≤ x < page + PAGE_SIZE)); [|lia]. destruct Hne.
  replace x with (page + (x - page)) by lia. apply page_of_page; [done|lia].
Qed.

(** A write over a cold page is seen by no address. *)
Lemma cold_write w m' r page b :
  aligned page → 0 ≤ page → page + PAGE_SIZE ≤ 2 ^ 64 → zlen b = PAGE_SIZE → cold w page = true →
  mem_write (mem w) page b = (m', r) → ∀ a, is_u64 a → guest_byte (put_mem m' w) a = guest_byte w a.
Proof.
  intros Hpa Hp0 Hpe Hb Hc Hw a Ha. unfold guest_byte. change (cold (put_mem m' w) a) with (cold w a).
  destruct (cold w a) eqn:Hca; [done|]. cbn.
  apply (mem_byte_write_apart _ page b m' r); [done|done|by rewrite Hb|done|].
  - rewrite Hb. apply outside_page; [done|]. intros Hx. unfold cold in Hc, Hca.
    rewrite Hx in Hca. rewrite page_of_self in Hc by done. congruence.
Qed.

Lemma apply_effect_byte base m a :
  bytes_of m → is_u8 base → is_u8 (apply_effect contents base (effect m a)).
Proof.
  intros [_ Hm] Hb. unfold apply_effect, effect. cbn [e_source].
  destruct (_ && _); [|by destruct (data_end m <=? a)].
  destruct (getz (contents (m_file m)) _) as [x|] eqn:E; [|done].
  apply getz_Some in E as [_ E]. by eapply Forall_lookup in E.
Qed.
Lemma shown_byte base ms a :
  Forall bytes_of ms → is_u8 base → is_u8 (shown contents base (view_of ms a)).
Proof.
  intros Hms. unfold shown, view_of. revert base. induction Hms as [|m ms Hm _ IH]; intros base Hb; [done|].
  rewrite filter_cons. case_decide; [|by apply IH]. cbn. by apply IH, apply_effect_byte.
Qed.
Lemma base_fill_byte ms a : Forall bytes_of ms → is_u8 (base_fill (view_of ms a)).
Proof.
  intros Hms. unfold base_fill, view_of. induction Hms as [|m ms [Hm _] _ IH]; [done|].
  rewrite filter_cons. by case_decide.
Qed.

Lemma put_pager_same w : on_env (put_pager (pager (env w))) w = w.
Proof. by destruct w as [[] ? ?]. Qed.

(** The bytes a ready page is filled with, address by address. *)
Lemma filled_page w s page b :
  backed w → spaces (pager (env w)) !! asid (proc w) = Some s → zlen b = PAGE_SIZE →
  (∀ c, files_back (fs w) c (mappings s) → ∀ i, 0 ≤ i < PAGE_SIZE →
     getz b i = Some (shown c (base_fill (view_at w page)) (view_at w (page + i)))) →
  byte_list b ∧ ∀ i, 0 ≤ i < PAGE_SIZE →
    getz b i = Some (shown contents (base_fill (view_at w page)) (view_at w (page + i))).
Proof.
  intros [_ Hf] Hs Hl Hb. destruct (Hf s Hs) as [Hfb Hby]. specialize (Hb contents Hfb). split; [|done].
  apply Forall_lookup. intros i x Hi. pose proof (lookup_lt_Some _ _ _ Hi).
  specialize (Hb (Z.of_nat i)). rewrite getz_nat, Hi in Hb.
  assert (Some x = Some (shown contents (base_fill (view_at w page)) (view_at w (page + Z.of_nat i)))) as [= ->]
    by (apply Hb; unfold zlen in Hl; lia).
  unfold view_at, view. rewrite Hs. apply shown_byte; [done|]. by apply base_fill_byte.
Qed.

(** Once the page is written and recorded, its addresses read from memory what
    they showed before; the other addresses are as they were. *)
Lemma page_installed w page b m1 m2 r prm p' :
  aligned page → 0 ≤ page → page + PAGE_SIZE ≤ 2 ^ 64 → zlen b = PAGE_SIZE → byte_list b → cold w page = true →
  (∀ i, 0 ≤ i < PAGE_SIZE → getz b i = Some (shown contents (base_fill (view_at w page)) (view_at w (page + i)))) →
  mem_write (mem w) page b = (m1, true) → mem_update_perm m1 page PAGE_SIZE prm = (m2, r) →
  spaces p' = spaces (pager (env w)) → resident p' = {[(asid (proc w), page)]} ∪ resident (pager (env w)) →
  paged_in w (on_env (put_pager p') (put_mem m2 w)) ∧ cold (on_env (put_pager p') (put_mem m2 w)) page = false.
Proof.
  intros Hpa Hp0 Hpe Hl Hby Hc Hb Hw Hu Hsp Hre. set (w' := on_env (put_pager p') (put_mem m2 w)).
  assert (Hview : ∀ a, view_at w' a = view_at w a) by (intros a; unfold view_at, view; cbn; by rewrite Hsp).
  assert (Hnew : ∀ a, page_of a = page → cold w' a = false).
  { intros a Ha. unfold cold. apply andb_false_iff. right. rewrite Ha. apply bool_decide_eq_false.
    intros Hn. apply Hn. unfold in_memory. cbn. rewrite Hre. set_solver. }
  split; [|apply Hnew, page_of_self; done]. split.
  - intros a Ha. unfold guest_byte. destruct (decide (page_of a = page)) as [Hin|Hout].
    + rewrite Hnew by done. assert (cold w a = true) as ->.
      { unfold cold in *. rewrite Hin. by rewrite page_of_self in Hc. }
      destruct (in_page page a Hpa Hin). cbn. rewrite (mem_byte_update_perm _ _ _ _ _ _ a Hu).
      replace a with (page + (a - page)) by lia. erewrite (mem_byte_write _ page b); [|done|by rewrite Hl|done..|lia].
      rewrite Hb by lia. by rewrite page_of_page by (done || lia).
    + assert (cold w' a = cold w a) as ->.
      { unfold cold. rewrite Hview. f_equal. apply bool_decide_ext. unfold in_memory. cbn. rewrite Hre. set_solver. }
      rewrite !Hview. destruct (cold w a); [done|]. cbn. rewrite (mem_byte_update_perm _ _ _ _ _ _ a Hu).
      apply (mem_byte_write_apart _ page b m1 true); [done|done|by rewrite Hl|done|].
      rewrite Hl. by apply outside_page.
  - by destruct w as [[] ? ?].
  - done.
  - cbn. rewrite Hre. set_solver.
  - by left.
Qed.

Lemma cold_true w page :
  aligned page → cold w page = true ↔ view_at w page ≠ [] ∧ ¬ in_memory w page.
Proof. intros Ha. unfold cold. rewrite page_of_self by done. by rewrite andb_true_iff, !bool_decide_eq_true. Qed.

(** A lazily mapped page lies within the address space. *)
Lemma mapped_page w s page :
  pager_wf (pager (env w)) → spaces (pager (env w)) !! asid (proc w) = Some s → aligned page → view_at w page ≠ [] →
  0 ≤ page ∧ page + PAGE_SIZE ≤ U64_MAX.
Proof.
  intros Hw Hs Ha. unfold view_at, view. rewrite Hs. unfold view_of. intros Hne.
  destruct (filter (covers page) (mappings s)) as [|m l] eqn:E; [done|].
  assert (m ∈ filter (covers page) (mappings s)) as [Hc Hin]%list_elem_of_filter by (rewrite E; left).
  pose proof (pager_wf_space _ _ _ Hw Hs) as Hws. eapply Forall_forall in Hws as [? ? ? ? _ _ _ _]; [|exact Hin].
  assert (covers page m = true) as Hc' by (by destruct (covers page m)). apply covers_iff in Hc'.
  unfold aligned, PAGE_SIZE in *. Z.div_mod_to_equations. lia.
Qed.

(** What a step on a cold page leaves. *)
Definition touched w w' page (r : res Z ()) : Prop :=
  paged_in w w' ∧
  match r with
  | Ok _ => cold w' page = false ∧ counted (pager (env w')) ∧
            page_ins (pager (env w')) ≤ page_ins (pager (env w)) + 1
  | Err e => e = PAGE_IN_RESTART → waiting w'
  | Panic => False
  end.

Lemma ready_page w s page access b prm :
  backed w → counters w 1 → aligned page → cold w page = true →
  spaces (pager (env w)) !! asid (proc w) = Some s → zlen b = PAGE_SIZE →
  (∀ c, files_back (fs w) c (mappings s) → ∀ i, 0 ≤ i < PAGE_SIZE →
     getz b i = Some (shown c (base_fill (view_at w page)) (view_at w (page + i)))) →
  resolve_fault (pager (env w)) (fs w) (asid (proc w)) page access = (pager (env w), Ok (PageReady page b prm)) →
  touched w (Copy.touch_page page access w).1 page (Copy.touch_page page access w).2.
Proof.
  intros Hbk [Hcnt Hmax] Ha Hc Hs Hl Hb Hr. destruct (filled_page w s page b Hbk Hs Hl Hb) as [Hby Hbs].
  apply cold_true in Hc as Hc'; [|done]. destruct Hc' as [Hv Hm]. destruct Hbk as [Hwf _].
  destruct (mapped_page w s page Hwf Hs Ha Hv) as [Hp0 Hpe]. unfold U64_MAX in Hpe.
  unfold Copy.touch_page. rewrite Hr, put_pager_same.
  destruct (mem_write (mem w) page b) as [m1 []] eqn:Hw; cbn [negb].
  2:{ split; [|done]. split; [|by destruct w as [[] ? ?]|done|done|by left].
      apply (cold_write w m1 false page b); done || lia. }
  destruct (mem_update_perm m1 page PAGE_SIZE prm) as [m2 []] eqn:Hu; cbn [negb].
  2:{ split; [|done]. split; [|by destruct w as [[] ? ?]|done|done|by left].
      intros a Hu64. cbn [fst]. rewrite <- (cold_write w m1 true page b) by (done || lia).
      unfold guest_byte. change (cold (put_mem m2 w) a) with (cold (put_mem m1 w) a).
      cbn [mem put_mem]. by rewrite (mem_byte_update_perm _ _ _ _ _ _ a Hu). }
  destruct (mark_resident_spec (pager (env w)) (asid (proc w)) page access) as (p' & -> & Hc' & Hre & Hsp & _ & Hn);
    [done|lia|]. rewrite page_of_self in Hre by done.
  destruct (page_installed w page b m1 m2 true prm p') as [? ?]; try done; [lia|]. cbn.
  split; [done|]. split; [done|]. split; [done|]. cbn. rewrite Hn. case_decide; lia.
Qed.

Lemma guest_byte_same w w' a :
  spaces (pager (env w')) = spaces (pager (env w)) → resident (pager (env w')) = resident (pager (env w)) →
  asid (proc w') = asid (proc w) → mem w' = mem w → guest_byte w' a = guest_byte w a.
Proof.
  intros Hs Hr Ha Hm. assert (Hv : ∀ x, view_at w' x = view_at w x) by (intros; unfold view_at, view; by rewrite Ha, Hs).
  unfold guest_byte. rewrite !Hv, Hm. assert (cold w' a = cold w a) as ->; [|done]. unfold cold. rewrite Hv.
  f_equal. apply bool_decide_ext. unfold in_memory. by rewrite Ha, Hr.
Qed.

Lemma touch_page_ok w page access :
  backed w → counters w 1 → aligned page → is_u64 page → cold w page = true →
  touched w (Copy.touch_page page access w).1 page (Copy.touch_page page access w).2.
Proof.
  intros Hbk Hcnt Ha Hu Hc. apply cold_true in Hc as Hc'; [|done]. destruct Hc' as [Hv Hm].
  destruct (spaces (pager (env w)) !! asid (proc w)) as [s|] eqn:Hs.
  2:{ destruct Hv. unfold view_at, view. by rewrite Hs. }
  pose proof (resolve_fault_served (pager (env w)) (fs w) _ s page access (proj1 Hbk) Hs Hu) as Hf.
  destruct (resolve_fault _ _ _ _ _) as [p' r] eqn:Hr. unfold fault_served in Hf. cbn [fst snd] in Hf.
  rewrite page_of_self in Hf by done.
  destruct r as [[|resolved b prm|q| | |? ? ?]|e|]; try done.
  - destruct Hf as [_ [Hf|Hf]]; [|done]. by destruct Hv.
  - destruct Hf as (-> & [-> | [_ Hin]] & _ & Hl & _ & Hb); [|by destruct Hm]. by eapply ready_page.
  - destruct Hf as (Hpend & Hsp & Hre & _). unfold Copy.touch_page. rewrite Hr. cbn. split.
    + split; cbn; [|by destruct w as [[] ? ?]|done|by rewrite Hre|by right]. intros a _.
      by apply guest_byte_same.
    + intros _. split; [done|]. split; [by exists q|done].
  - destruct Hf as [-> _]. unfold Copy.touch_page. rewrite Hr, put_pager_same. split; [apply paged_in_refl|done].
  - subst p'. unfold Copy.touch_page. rewrite Hr, put_pager_same. split; [apply paged_in_refl|done].
Qed.

(** * The loop over the pages of a range *)
Lemma rfind_None {A} (f : A → bool) l : rfind f l = None → ∀ x, x ∈ l → f x = false.
Proof.
  intros Hn x Hx. apply (List.find_none f (rev l)); [done|]. apply -> List.in_rev. by apply list_elem_of_In.
Qed.
Lemma page_state_cold w page :
  aligned page →
  match page_state (pager (env w)) (asid (proc w)) page with
  | None => cold w page = false
  | Some (r, _) => cold w page = negb r
  end.
Proof.
  intros Ha. unfold page_state, cold, view_at, view, in_memory. rewrite page_of_self by done.
  destruct (spaces (pager (env w)) !! asid (proc w)) as [s|]; [|done]. unfold view_of.
  destruct (rfind _ _) as [m|] eqn:E.
  - apply rfind_Some in E as [Hc Hin]. rewrite bool_decide_true.
    { by case_bool_decide; case_bool_decide. }
    intros Hn. apply (f_equal length) in Hn. cbn in Hn. rewrite length_map in Hn. apply length_zero_iff_nil in Hn.
    assert (m ∈ filter (covers page) (mappings s)) as Hf by (apply list_elem_of_filter; by rewrite Hc).
    rewrite Hn in Hf. by apply not_elem_of_nil in Hf.
  - rewrite bool_decide_false; [done|]. intros Hn. apply Hn. clear Hn.
    destruct (filter (covers page) (mappings s)) as [|m l] eqn:E'; [done|].
    assert (m ∈ filter (covers page) (mappings s)) as [Hc Hin]%list_elem_of_filter by (rewrite E'; left).
    by rewrite (rfind_None _ _ E m Hin) in Hc.
Qed.

(** The result of touching a range: on success nothing of it is cold. *)
Definition range_touched w w' (lo hi : Z) (r : res Z ()) : Prop :=
  paged_in w w' ∧
  match r with
  | Ok _ => ∀ a, lo ≤ a < hi → cold w' a = false
  | Err e => e = PAGE_IN_RESTART → waiting w'
  | Panic => False
  end.

Lemma cold_page w a page : page_of a = page → aligned page → cold w a = cold w page.
Proof. intros Ha Hp. unfold cold. by rewrite Ha, page_of_self. Qed.

Lemma saturating_page page end_ :
  aligned page → 0 ≤ page → end_ ≤ U64_MAX →
  saturating_add64 page PAGE_SIZE = page + PAGE_SIZE ∨ end_ ≤ saturating_add64 page PAGE_SIZE ≤ page + PAGE_SIZE.
Proof. unfold saturating_add64. intros. lia. Qed.

Lemma range_touched_next w w1 w2 page next end_ r :
  paged_in w w1 → aligned page → cold w1 page = false →
  next = page + PAGE_SIZE ∨ end_ ≤ next ≤ page + PAGE_SIZE →
  range_touched w1 w2 next end_ r → range_touched w w2 page end_ r.
Proof.
  intros Hp Ha Hc Hn [Hp' Hr]. split; [by eapply paged_in_trans|].
  destruct r; [|done|done]. intros x Hx. destruct (decide (next ≤ x)); [apply Hr; lia|].
  rewrite (cold_page _ x page); [by eapply paged_in_cold| |done].
  replace x with (page + (x - page)) by lia. apply page_of_page; [done|]. lia.
Qed.

Lemma touch_loop_ok fuel w page end_ access :
  backed w → counters w (Z.of_nat fuel) → end_ ≤ U64_MAX → 0 ≤ page < end_ + PAGE_SIZE →
  aligned page ∨ end_ ≤ page → end_ - page ≤ PAGE_SIZE * (Z.of_nat fuel - 1) →
  range_touched w (Copy.touch_loop fuel page end_ access w).1 page end_ (Copy.touch_loop fuel page end_ access w).2.
Proof.
  revert w page. induction fuel as [|fuel IH]; intros w page Hbk [Hcnt Hn] He Hp0 Ha Hf.
  { exfalso. unfold PAGE_SIZE in *. lia. }
  cbn [Copy.touch_loop]. destruct (Z.leb_spec end_ page).
  { split; [apply paged_in_refl|]. cbn. lia. }
  destruct Ha as [Ha|]; [|lia]. set (next := saturating_add64 page PAGE_SIZE).
  pose proof (saturating_page page end_ Ha ltac:(lia) He) as Hnext. fold next in Hnext.
  assert (Hrest : ∀ w1, paged_in w w1 → cold w1 page = false → counted (pager (env w1)) →
    page_ins (pager (env w1)) ≤ page_ins (pager (env w)) + 1 →
    range_touched w (Copy.touch_loop fuel next end_ access w1).1 page end_ (Copy.touch_loop fuel next end_ access w1).2).
  { intros w1 Hp Hc Hc1 Hn1. eapply range_touched_next; [done..|]. apply IH.
    - by eapply paged_in_backed.
    - split; [done|lia].
    - done.
    - unfold PAGE_SIZE in *. lia.
    - destruct Hnext as [->|]; [left|right; lia]. unfold aligned, PAGE_SIZE in *. Z.div_mod_to_equations. lia.
    - unfold PAGE_SIZE in *. lia. }
  unfold sbind, gets. pose proof (page_state_cold w page Ha) as Hst.
  destruct (page_state _ _ _) as [[res prm]|]; [|apply Hrest; auto using paged_in_refl; lia].
  destruct (Z.land prm _ =? 0); [split; [apply paged_in_refl|done]|].
  destruct res; [apply Hrest; auto using paged_in_refl; lia|].
  pose proof (touch_page_ok w page access Hbk) as Ht. destruct (Copy.touch_page page access w) as [w1 r1].
  destruct Ht as [Hp Hr]; [split; [done|lia]|done|unfold fits, U64_MAX in *; lia|done|].
  destruct r1 as [|e|]; cbn in *; [|by split|done]. destruct Hr as (? & ? & ?). by apply Hrest.
Qed.

Lemma not_lazy_cold w a : has_lazy_mappings w = false → cold w a = false.
Proof.
  unfold has_lazy_mappings, is_empty. rewrite negb_false_iff, forallb_forall. intros Hall.
  unfold cold. apply andb_false_iff. left. apply bool_decide_eq_false. intros Hn. apply Hn.
  unfold view_at, view. destruct (spaces (pager (env w)) !! asid (proc w)) as [s|] eqn:Hs; [|done].
  apply elem_of_map_to_list, list_elem_of_In in Hs. specialize (Hall _ Hs). apply bool_decide_eq_true in Hall.
  cbn in Hall. unfold view_of. by rewrite Hall.
Qed.

(** Pages of a range of [len] bytes, at most. *)
Definition pages_of (len : Z) : Z := len / PAGE_SIZE + 3.

Lemma host_touch_ok w addr len access :
  backed w → is_u64 addr → 0 ≤ len → counters w (pages_of len) →
  range_touched w (Copy.host_touch addr len access w).1 addr (addr + len) (Copy.host_touch addr len access w).2.
Proof.
  intros Hbk Ha Hl Hc. unfold Copy.host_touch, sbind, gets.
  destruct (Z.eqb_spec len 0) as [->|Hl0]; cbn [orb].
  { split; [apply paged_in_refl|]. cbn. lia. }
  destruct (has_lazy_mappings w) eqn:Hz; cbn [negb].
  2:{ split; [apply paged_in_refl|]. intros a _. by apply not_lazy_cold. }
  unfold query, checked_add64. destruct (Z.leb_spec (addr + len) U64_MAX); cbn [ok_or].
  2:{ split; [apply paged_in_refl|done]. }
  destruct (page_of_bounds addr) as [? ?]. pose proof (page_of_aligned addr) as Hal.
  assert (0 ≤ page_of addr) by (rewrite page_of_spec; unfold fits, PAGE_SIZE in *; Z.div_mod_to_equations; lia).
  set (n := (addr + len - page_of addr) / PAGE_SIZE + 2).
  assert (Hn : 0 ≤ n ≤ pages_of len ∧ addr + len - page_of addr ≤ PAGE_SIZE * (n - 1)).
  { unfold n, pages_of, PAGE_SIZE in *. Z.div_mod_to_equations. lia. }
  destruct Hc as [Hc1 Hc2].
  destruct (touch_loop_ok (Z.to_nat n) w (page_of addr) (addr + len) access) as [Hp Hr];
    [done|split; [done|lia]|done|unfold PAGE_SIZE in *; lia|by left|rewrite Z2Nat.id by lia; apply Hn|].
  split; [done|]. destruct (Copy.touch_loop _ _ _ _ _) as [w' [r|e|]]; cbn in *; [|done|done].
  intros a Hx. apply Hr. lia.
Qed.

(** A write to memory where nothing is cold, address by address. *)
Lemma write_raw_ok w addr b :
  (∀ a, addr ≤ a < addr + zlen b → cold w a = false) → 0 ≤ addr → addr + zlen b ≤ 2 ^ 64 → byte_list b →
  let '(w', r) := Copy.write_mem_raw addr b w in
  env w' = env w ∧ core w' = core w ∧ r ≠ Panic ∧
  (∀ a, is_u64 a → a < addr ∨ addr + zlen b ≤ a → guest_byte w' a = guest_byte w a) ∧
  (r = Ok () → ∀ i, 0 ≤ i < zlen b → guest_byte w' (addr + i) = getz b i).
Proof.
  intros Hc Ha Hb Hby. unfold Copy.write_mem_raw. destruct (mem_write (mem w) addr b) as [m ok] eqn:Hw.
  split; [done|]. split; [done|]. split; [by destruct ok|]. split.
  - intros a Hu Hap. unfold guest_byte. change (cold (put_mem m w) a) with (cold w a).
    destruct (cold w a); [done|]. by apply (mem_byte_write_apart _ addr b m ok).
  - destruct ok; [|done]. intros _ i Hi. unfold guest_byte. change (cold (put_mem m w) _) with (cold w (addr + i)).
    rewrite Hc by lia. by eapply mem_byte_write.
Qed.
End paging.

(** What copies do; the two theorems below and the calls that copy rest on it. *)
Lemma read_mem_ok `{Host} {B} `{NetworkBroker B} {M V} `{GuestMemoryLaws M V} contents
    (w : Machine B M V) addr len :
  backed contents w → is_u64 addr → 0 ≤ len → addr + len ≤ 2 ^ 64 → counters w (pages_of len) →
  let '(w', r) := Copy.read_mem addr len w in
  paged_in contents w w' ∧
  match r with
  | Ok b => zlen b = len ∧ ∀ i, 0 ≤ i < len → guest_byte contents w (addr + i) = getz b i
  | Err e => e = PAGE_IN_RESTART → waiting w'
  | Panic => False
  end.
Proof.
  intros Hbk Ha Hl Hb Hc. destruct (host_touch_ok contents w addr len AccRead Hbk Ha Hl Hc) as [Hp Hr].
  unfold Copy.read_mem, sbind. destruct (Copy.host_touch _ _ _ _) as [w' [[]|e|]]; cbn [fst snd] in *; [|done..].
  unfold Copy.read_mem_raw, query. split; [done|].
  destruct (mem_read (mem w') addr len) as [b|] eqn:Hm; [|done]. cbn [ok_or].
  split; [by eapply mem_read_length|]. intros i Hi. rewrite <- (pi_bytes _ _ _ Hp) by (unfold fits in *; lia).
  unfold guest_byte. rewrite Hr by lia. by eapply mem_byte_read.
Qed.

Lemma write_mem_ok `{Host} {B} `{NetworkBroker B} {M V} `{GuestMemoryLaws M V} contents
    (w : Machine B M V) addr b :
  backed contents w → is_u64 addr → addr + zlen b ≤ 2 ^ 64 → byte_list b → counters w (pages_of (zlen b)) →
  let '(w', r) := Copy.write_mem addr b w in
  (∀ a, is_u64 a → a < addr ∨ addr + zlen b ≤ a → guest_byte contents w' a = guest_byte contents w a) ∧
  match r with
  | Ok _ => ∀ i, 0 ≤ i < zlen b → guest_byte contents w' (addr + i) = getz b i
  | Err e => e = PAGE_IN_RESTART → waiting w' ∧ paged_in contents w w'
  | Panic => False
  end.
Proof.
  intros Hbk Ha Hb Hby Hc.
  destruct (host_touch_ok contents w addr (zlen b) AccWrite Hbk Ha (zlen_nonneg b) Hc) as [Hp Hr].
  unfold Copy.write_mem, sbind.
  destruct (Copy.host_touch _ _ _ _) as [w1 [[]|e|]]; cbn [fst snd] in *; [|by split; [intros; apply Hp|auto]|done].
  pose proof (write_raw_ok contents w1 addr b Hr ltac:(apply Ha) Hb Hby) as Hw.
  destruct (Copy.write_mem_raw addr b w1) as [w' r] eqn:E. destruct Hw as (_ & _ & Hnp & Hout & Hin).
  split.
  - intros a Hu Hap. rewrite Hout by done. by apply Hp.
  - destruct r as [[]|e|]; [by apply Hin| |done]. intros ->. unfold Copy.write_mem_raw in E.
    by destruct (mem_write _ _ _) as [? []].
Qed.

(** C13. Demand paging is invisible to a copy out of guest memory: the bytes
    [read_mem] returns are those the guest sees at these addresses, whether
    their pages were resident or described only by file mappings; the copy
    changes no byte the guest sees, never panics, and when a chunk is absent
    it leaves the request pending with the exception queued for replay. *)
Theorem read_mem_transparent `{Host} {B} `{NetworkBroker B} {M V} `{GuestMemoryLaws M V} contents
    (w : Machine B M V) addr len :
  backed contents w → is_u64 addr → 0 ≤ len → addr + len ≤ 2 ^ 64 → counters w (pages_of len) →
  let '(w', r) := Copy.read_mem addr len w in
  paged_in contents w w' ∧
  match r with
  | Ok b => zlen b = len ∧ ∀ i, 0 ≤ i < len → guest_byte contents w (addr + i) = getz b i
  | Err e => e = PAGE_IN_RESTART → waiting w'
  | Panic => False
  end.
Proof. apply read_mem_ok. Qed.

(** A copy into guest memory replaces exactly its range: when [write_mem]
    succeeds the guest sees the new bytes there, it never changes a byte
    outside, and when it must be restarted it has changed none at all, so the
    replayed call starts from the same memory. *)
Theorem write_mem_exact `{Host} {B} `{NetworkBroker B} {M V} `{GuestMemoryLaws M V} contents
    (w : Machine B M V) addr b :
  backed contents w → is_u64 addr → addr + zlen b ≤ 2 ^ 64 → byte_list b → counters w (pages_of (zlen b)) →
  let '(w', r) := Copy.write_mem addr b w in
  (∀ a, is_u64 a → a < addr ∨ addr + zlen b ≤ a → guest_byte contents w' a = guest_byte contents w a) ∧
  match r with
  | Ok _ => ∀ i, 0 ≤ i < zlen b → guest_byte contents w' (addr + i) = getz b i
  | Err e => e = PAGE_IN_RESTART → waiting w' ∧ paged_in contents w w'
  | Panic => False
  end.
Proof. apply write_mem_ok. Qed.

(** A machine whose fourth lazy page holds nothing but the zeros after the
    file's end, over memory that still has other bytes. *)
Definition paged_machine : Machine HostBroker (gmap Z Z) (gmap Z Z) :=
  {| env := put_pager (map_file pager_default 0 demo_mapping) (env_new Host_broker.new);
     core := {| regs := ∅; scratch := []; exception := Core.external 0; pending_exception := None; icount := 0;
                block_id := 0; block_offset := 0 |};
     mem := list_to_map ((λ i, (77824 + i, 7)) <$> seqZ 0 4096) |}.
Definition nine_thousand (f : ChunkedFile) : bytes := replicate (Z.to_nat 9000) 0.

Lemma paged_machine_backed : backed nine_thousand paged_machine ∧ counters paged_machine 100.
Proof.
  split; [split|].
  - intros asid s. unfold paged_machine, map_file. cbn.
    destruct (decide (asid = 0)) as [->|Hne]; [|rewrite lookup_insert_ne by congruence; done].
    rewrite lookup_insert_eq. intros [= <-]. constructor; [|constructor].
    split; vm_compute; repeat split; congruence.
  - intros s Hs. assert (s = {| generation := 1; mappings := [demo_mapping] |}) as ->
      by (apply (inj Some); rewrite <- Hs; vm_compute; reflexivity).
    split; (apply Forall_cons; split; [|apply Forall_nil; exact I]); split.
    + vm_compute. reflexivity.
    + intros i h v _ Hg. vm_compute in Hg. done.
    + vm_compute. split; congruence.
    + apply Forall_replicate. vm_compute. split; congruence.
  - vm_compute. repeat split; congruence.
Qed.

Lemma read_mem_transparent_witness :
  ∃ w', Copy.read_mem 80000 8 paged_machine = (w', Ok (replicate 8 0)) ∧
    guest_byte nine_thousand paged_machine 80000 = Some 0 ∧
    guest_byte nine_thousand w' 80000 = Some 0.
Proof.
  pose proof (read_mem_transparent nine_thousand paged_machine 80000 8 (proj1 paged_machine_backed)) as Hr.
  destruct (Copy.read_mem 80000 8 paged_machine) as [w' r] eqn:E.
  assert (r = Ok (replicate 8 0)) as -> by (change r with ((w', r).2); rewrite <- E; vm_compute; reflexivity).
  destruct Hr as [Hp [_ Hg]]; [split; lia|lia|lia|vm_compute; repeat split; congruence|].
  exists w'. split; [reflexivity|]. specialize (Hg 0 ltac:(lia)). rewrite Z.add_0_r in Hg. split; [exact Hg|].
  rewrite (pi_bytes _ _ _ Hp); [exact Hg|split; lia].
Defined.

Lemma write_mem_exact_witness :
  ∃ w', Copy.write_mem 77900 [1; 2] (on_env (put_pager pager_default) paged_machine) = (w', Ok ()) ∧
    guest_byte nine_thousand w' 77901 = Some 2 ∧ guest_byte nine_thousand w' 77902 = Some 7.
Proof.
  set (w := on_env (put_pager pager_default) paged_machine).
  assert (Hbk : backed nine_thousand w).
  { split; [intros a s|intros s]; change (spaces (pager (env w))) with (∅ : gmap Z AddressSpace);
      by rewrite lookup_empty. }
  pose proof (write_mem_exact nine_thousand w 77900 [1; 2] Hbk) as Hw.
  destruct (Copy.write_mem 77900 [1; 2] w) as [w' r] eqn:E.
  assert (r = Ok ()) as -> by (change r with ((w', r).2); rewrite <- E; vm_compute; reflexivity).
  destruct Hw as [Hout Hin]; [split; lia|vm_compute; congruence| |vm_compute; repeat split; congruence|].
  { unfold byte_list. rewrite !Forall_cons. repeat split; lia || done. }
  exists w'. split; [reflexivity|]. split; [apply (Hin 1); vm_compute; split; congruence|].
  rewrite Hout; [vm_compute; reflexivity|split; lia|]. right. vm_compute. congruence.
Defined.
