(* ===== verification/Switch.v ===== *)
(** Parking a task and handing the CPU to the next one: the scheduling section
    of [crates/linux-compat/src/syscall.rs], with the delivery of signals that a
    switch ends in.

    Replacing a [Process] drops the descriptor table handle it held; the cells
    of a dropped process stay in [Shared], where nothing refers to them. The
    unmodelled part of [schedule_next] is its diagnostics. *)

From S2P Require Import Prelude BTree Abi Digest Chunk Filesystem Pager Cpu Net Fd Proc Signals Authority Env GuestMem.

Definition SYSCALL_INSN_LEN : Z := 2.
Definition SA_RESTART : Z := 268435456.
Definition SA_NODEFER : Z := 1073741824.
Definition SA_ONSTACK : Z := 134217728.
Definition SIGTTIN : Z := 21.
Definition SIGTTOU : Z := 22.

(** The words of a registered action: handler, flags, restorer, mask. *)
Definition sa_word (k : nat) (action : bytes) : Z := le_val (take 8 (drop (8 * k) action)).

Module Switch.
Section switch.
Context `{Host} {B : Type} `{NetworkBroker B} {M V : Type} `{GuestMemory M V}.
Abbreviation machine := (Machine B M V).
Abbreviation sys := (stm machine Z).

(** [m.is_ok()]: what a failed call changed stays changed. *)
Definition attempt {A} (m : sys A) : sys bool := λ w,
  match m w with
  | (w, Ok _) => (w, Ok true)
  | (w, Err _) => (w, Ok false)
  | (w, Panic) => (w, Panic)
  end.

(** * Resume points *)
Definition resume_at (pc : Z) (c : CpuSnapshot) : CpuSnapshot :=
  Core.leave_block (Core.set_pending None (Core.set_exception (Core.external pc)
    (Core.write_var PC pc (Core.write_var NEXT_PC pc c)))).
Definition prepare_resume (restart : bool) : sys () :=
  do! next_pc <- gets (λ w, Core.read_var NEXT_PC (core w)) in
  do! resume <- query (λ _, if restart : bool then sub64 next_pc SYSCALL_INSN_LEN else Ok next_pc) in
  modify (on_core (resume_at resume)).

Definition resume_after_syscall (rax : Z) : machine → machine := on_core (λ c,
  let next_pc := Core.read_var NEXT_PC c in
  Core.leave_block (Core.write_var PC next_pc (Core.set_exception (Core.external next_pc) (Core.write_var RAX rax c)))).

Definition end_wait_with (value : Z) : sys () :=
  do! after <- query (λ w, add64 (Core.read_var PC (core w)) SYSCALL_INSN_LEN) in
  modify (on_core (λ c, resume_at after (Core.write_var RAX value c))).

(** * Signal handlers *)
(** The loop that picks the signal to deliver: ignored ones are discarded, a
    fatal one ends it. *)
Fixpoint next_handler (fuel : nat) (sh : Shared) (p : Process) : res Z (Process * option (Z * bytes)) :=
  match fuel with
  | O => Panic
  | S fuel =>
      let pending := Sched.deliverable p in
      if pending =? 0 then Ok (p, None)
      else
        let sig := trailing_zeros pending + 1 in
        let action := sigtables sh !! sigactions p ≫= (.!! sig) in
        let handler := default SIG_DFL (sa_word 0 <$> action) in
        if (handler =? SIG_DFL) && (default_action_terminates sig || default_action_stops sig) then Ok (p, None)
        else
          let p := with_pending (clear_bit (pending_signals p) (bit_of sig)) p in
          if negb (handler =? SIG_DFL) && negb (handler =? SIG_IGN) then
            let! a := expect action in Ok (p, Some (sig, a))
          else next_handler fuel sh p
  end.

(** Where the frame goes: the top of the alternate stack when the handler asks
    for it and none is on it yet, else below the interrupted frame. *)
Definition frame_top (p : Process) (on_alt : bool) (rsp : Z) : Z :=
  let sp := match on_alt, altstack_depth p, altstack p with
            | true, 0, Some (base, size) => saturating_add64 base size
            | _, _, _ => rsp
            end in
  if negb on_alt || (0 <? altstack_depth p) then saturating_sub sp 128 else sp.

Definition enter_handler (handler sig sp siginfo ucontext : Z) (c : CpuSnapshot) : CpuSnapshot :=
  let c := Core.write_var RSP sp c in
  let c := Core.write_var RDI sig c in
  let c := Core.write_var RSI siginfo c in
  let c := Core.write_var RDX ucontext c in
  Core.leave_block (Core.set_pending None (Core.set_exception (Core.external handler) (Core.write_var PC handler c))).

(** The state is saved first; a frame that cannot be written gives it up. *)
Definition push_saved (action : bytes) (sig : Z) (w : machine) : machine :=
  let p := proc w in
  let mask := if Z.land (sa_word 1 action) SA_NODEFER =? 0 then Z.lor (sigmask p) (bit_of sig) else sigmask p in
  put_proc (with_sigmask (Z.lor mask (sa_word 3 action))
    (with_saved (core w :: signal_saved p) (sigmask p :: signal_saved_mask p) p)) w.
Definition pop_saved (p : Process) : Process :=
  let mask := match signal_saved_mask p with m :: _ => m | [] => sigmask p end in
  with_sigmask mask (with_saved (tail (signal_saved p)) (tail (signal_saved_mask p)) p).

Definition deliver_signal : sys bool :=
  do! found <- query (λ w, next_handler 65 (shared (env w)) (proc w)) in
  let '(p, next) := found in
  do! _ <- modify (put_proc p) in
  match next with
  | None => sret false
  | Some (sig, action) =>
      do! _ <- modify (push_saved action sig) in
      do! p <- gets proc in
      do! rsp <- gets (λ w, Core.read_var RSP (core w)) in
      let on_alt := negb (Z.land (sa_word 1 action) SA_ONSTACK =? 0) && bool_decide (is_Some (altstack p)) in
      let siginfo := saturating_sub (frame_top p on_alt rsp) 128 in
      do! _ <- attempt (Copy.write_mem siginfo (le_bytes 4 sig ++ replicate 124 0)) in
      let ucontext := saturating_sub siginfo 256 in
      do! _ <- attempt (Copy.write_mem ucontext (replicate 256 0)) in
      let sp := saturating_sub (Z.land ucontext (Z.lnot 15)) 8 in
      do! framed <- attempt (Copy.write_mem sp (le_bytes 8 (sa_word 2 action))) in
      if negb framed then
        do! _ <- modify (λ w, put_proc (pop_saved (proc w)) w) in sret false
      else
        do! _ <- modify (λ w, let p := proc w in put_proc (with_frames
                   (if on_alt then altstack_depth p + 1 else altstack_depth p) (on_alt :: altstack_frames p) p) w) in
        do! _ <- modify (on_core (enter_handler (sa_word 0 action) sig sp siginfo ucontext)) in
        sret true
  end.

(** The state saved on top, and the process without that frame. *)
Definition return_frame (p : Process) : option (CpuSnapshot * Process) :=
  match signal_saved p, signal_saved_mask p with
  | snapshot :: saved, mask :: masks =>
      let depth := match altstack_frames p with
                   | true :: _ => saturating_sub (altstack_depth p) 1
                   | _ => altstack_depth p
                   end in
      Some (snapshot, with_sigmask mask (with_frames depth (tail (altstack_frames p)) (with_saved saved masks p)))
  | _, _ => None
  end.
Definition sys_rt_sigreturn : sys Outcome := λ w,
  let p := proc w in
  match return_frame p with
  | Some (snapshot, p) =>
      let w := put_proc p (on_core (λ c, Core.set_icount (icount c) snapshot) w) in
      if negb (Sched.deliverable p =? 0) then (do! _ <- deliver_signal in sret Switched) w
      else (w, Ok Switched)
  | None => (put_proc (with_saved (tail (signal_saved p)) (tail (signal_saved_mask p)) p) w, Ok (Value 0))
  end.

(** [None] when nothing will be delivered to a handler. *)
Definition signal_restarts_the_syscall (sh : Shared) (p : Process) : option bool :=
  let pending := Sched.deliverable p in
  if pending =? 0 then None
  else
    action ← sigtables sh !! sigactions p ≫= (.!! (trailing_zeros pending + 1));
    let handler := sa_word 0 action in
    if (handler =? SIG_DFL) || (handler =? SIG_IGN) then None
    else Some (negb (Z.land (sa_word 1 action) SA_RESTART =? 0)).

(** * Stalls *)
Definition ready_task (w : machine) (now : Z) : option nat :=
  Sched.find_ready (heap (env w)) (shared (env w)) (sched (tasks (env w))) now.
Definition deliver_to_pgrp (pgrp sig : Z) (w : machine) : machine :=
  on_tasks (Sig.deliver_signal_to_pgrp (shared (env w)) pgrp sig) w.

(** Queued keystrokes are fed when the terminal's input queue is empty; [true]
    when they were. *)
Definition feed_terminal (w : machine) : machine * bool :=
  let c := console (env w) in
  match stdio_input c, stdio_pty c with
  | _ :: _, Some i =>
      match ptys (heap (env w)) !! i with
      | Some p =>
          if bool_decide (m2s p = []) then
            let '(p', signal) := Terminal.feed_input p (stdio_input c) in
            let w := on_heap (λ h, set_ptys (<[i := p']> (ptys h)) h) (on_console (set_stdio_input []) w) in
            (match signal with Some sig => deliver_to_pgrp (fg_pgrp p') sig w | None => w end, true)
          else (w, false)
      | None => (w, false)
      end
  | _, _ => (w, false)
  end.

Definition WAIT_CAP : Z := 30000000000.
(** The turn of the network: [inl] the answer of the whole stall, [inr] when
    guest time may advance. *)
Definition await_network (now : Z) (deadline : option Z) (w : machine) : machine * (option nat + ()) :=
  let handles := Sched.net_watch_handles (heap (env w)) (sched (tasks (env w))) in
  if bool_decide (handles = []) || negb (net (env w)) then (w, inr ())
  else if host_driven (broker (heap (env w))) then
    if network_expired (waits (env w)) then (on_waits (set_network_expired false) w, inr ())
    else (on_waits (set_network_wait true) w, inl None)
  else
    let timeout := match deadline with Some d => if now <? d then Z.min (d - now) WAIT_CAP else WAIT_CAP | None => WAIT_CAP end in
    let '(b, woke) := wait_ready handles timeout (broker (heap (env w))) in
    let w := on_heap (set_broker b) w in
    if woke then match ready_task w now with Some i => (w, inl (Some i)) | None => (w, inr ()) end
    else if bool_decide (deadline = None) then (w, inl None) else (w, inr ()).

Definition advance_clock (now : Z) (deadline : option Z) : sys (option nat) :=
  match deadline with
  | None => sret None
  | Some d =>
      do! x <- query (λ w, if now <? d then add64 (warp_nanos (env w)) (d - now) else Ok (warp_nanos (env w))) in
      do! _ <- modify (on_env (put_warp_nanos x)) in
      gets (λ w, ready_task w (now_nanos w))
  end.

Definition resolve_stall : sys (option nat) := λ w,
  let now := now_nanos w in
  let '(w, fed) := feed_terminal w in
  match (if fed : bool then ready_task w now else None) with
  | Some i => (w, Ok (Some i))
  | None =>
      let deadline := Sched.earliest_deadline (heap (env w)) (sched (tasks (env w))) in
      match await_network now deadline w with
      | (w, inl r) => (w, Ok r)
      | (w, inr _) => advance_clock now deadline w
      end
  end.

(** * Switching *)
(** The end of a [Process] value. *)
Definition drop_process (p : Process) : machine → machine := on_heap (Fds.table_drop (fds p)).

Definition park_current (state : ParkState) (w : machine) : machine :=
  let '(p, h, s) := Procs.initial (heap (env w)) (shared (env w)) in
  let t := {| t_proc := proc w; t_cpu := core w; t_state := state |} in
  put_proc p (on_sched (λ s, set_parked (parked s ++ [t]) s)
    (on_env (λ e, put_shared s (put_heap h e)) w)).

(** The MMU is handed to [next]'s group; [false] when its map is missing. *)
Definition set_group_maps (x : gmap Z V) (s : Scheduler CpuSnapshot V) : Scheduler CpuSnapshot V :=
  {| parked := parked s; zombies := zombies s; group_maps := x; next_pid := next_pid s |}.
Definition switch_map (next : Z) (w : machine) : machine * bool :=
  let prev := last_group (env w) in
  if prev =? next then (w, true)
  else
    let s := sched (tasks (env w)) in
    let '(map, m) := take_virtual_mapping (mem w) in
    let maps := if negb (prev =? 0) && Sched.group_has_parked prev s then <[prev := map]> (group_maps s)
                else group_maps s in
    let w := put_mem m (on_sched (set_group_maps (delete next maps)) w) in
    match maps !! next with
    | Some map => (put_mem (restore_virtual_mapping map m) w, true)
    | None => (w, false)
    end.

(** The task's state on the CPU; the instruction counter never rewinds. *)
Definition restore_task (t : ParkedTask CpuSnapshot) (w : machine) : machine :=
  let old := proc w in
  drop_process old (put_proc (t_proc t)
    (on_core (λ c, Core.set_icount (icount c) (t_cpu t))
      (on_env (put_last_group (tgid (t_proc t))) w))).

(** A task woken with a signal pending enters its handler; a wait the signal
    alone ended returns [EINTR] unless the handler asked for a restart. *)
Definition deliver_on_wake (may_interrupt : bool) : sys () :=
  do! p <- gets proc in
  if Sched.deliverable p =? 0 then sret ()
  else
    do! restarts <- gets (λ w, signal_restarts_the_syscall (shared (env w)) (proc w)) in
    do! _ <- (if may_interrupt && bool_decide (restarts = Some false) then end_wait_with (neg EINTR) else sret ()) in
    do! _ <- deliver_signal in
    sret ().

Definition timed_out (now : Z) (st : ParkState) : bool :=
  match st with Futex _ false (Some d) => d <=? now | _ => false end.

Definition pick_task (now : Z) : sys (option nat) := λ w,
  match ready_task w now with Some i => (w, Ok (Some i)) | None => resolve_stall w end.
Definition schedule_next : sys bool :=
  do! now <- gets now_nanos in
  do! index <- pick_task now in
  match index with
  | None => sret false
  | Some i =>
      do! t <- query (λ w, expect (parked (sched (tasks (env w))) !! i)) in
      do! _ <- modify (on_sched (λ s, set_parked (delete i (parked s)) s)) in
      do! ready <- gets (λ w, Sched.wait_is_satisfied (heap (env w)) (shared (env w)) (sched (tasks (env w))) now t) in
      do! swapped <- (λ w, let '(w, ok) := switch_map (tgid (t_proc t)) w in (w, Ok ok)) in
      if negb swapped then do! _ <- modify (drop_process (t_proc t)) in sret false
      else
        do! _ <- modify (restore_task t) in
        let late := timed_out now (t_state t) in
        do! _ <- modify (λ w, if late then on_core (Core.write_var RAX (neg ETIMEDOUT)) w else w) in
        do! _ <- deliver_on_wake (negb (Sched.is_vfork (t_state t)) && negb late && negb ready) in
        sret true
  end.

Definition reads_terminal (pty : Z) (w : Watch) : bool :=
  match w with PtyReadable i false => i =? pty | _ => false end.
Definition blocked_on_terminal_input (e : LinuxEnv B V) : bool :=
  match stdio_pty (console e) with
  | None => false
  | Some i =>
      bool_decide (stdio_input (console e) = []) &&
      existsb (λ t, match t_state t with
                    | Waiting ws None => existsb (reads_terminal i) ws
                    | _ => false
                    end) (parked (sched (tasks e)))
  end.

Definition stall_outcome : sys Outcome := λ w,
  if network_wait (waits (env w)) then (w, Ok (Exit Interrupted))
  else if blocked_on_terminal_input (env w) then
    (on_waits (set_terminal_input_wait true) w, Ok (Exit Interrupted))
  else (record_exit (-1) w, Ok (Exit Deadlock)).

Inductive HostWait := Terminal_ | Network_.
Definition pending_host_wait (e : LinuxEnv B V) : option HostWait :=
  if blocked_on_terminal_input e then Some Terminal_
  else if net e && host_driven (broker (heap e))
          && negb (bool_decide (Sched.net_watch_handles (heap e) (sched (tasks e)) = [])) then Some Network_
  else None.

(** The end of every call that gives the CPU up. *)
Definition switch_or_stall : sys Outcome :=
  do! switched <- schedule_next in
  if switched : bool then sret Switched else stall_outcome.
Definition block_and_switch (state : ParkState) (restart : bool) : sys Outcome :=
  do! _ <- prepare_resume restart in
  do! _ <- modify (park_current state) in
  switch_or_stall.

Definition notify_parent (parent : Z) (w : machine) : machine :=
  on_tasks (Sig.notify_parent_sigchld (shared (env w)) parent) w.
Definition stop_thread_group (signal : Z) (restart : bool) : sys Outcome :=
  do! _ <- modify (on_tasks (Sig.mark_stopped signal)) in
  do! parent <- gets (λ w, ppid (proc w)) in
  do! _ <- modify (notify_parent parent) in
  block_and_switch Ready restart.

(** [None] when the caller is entitled to the terminal. *)
Definition stops_background (p : Pty) (signal : Z) (w : machine) : option bool :=
  if (fg_pgrp p =? 0) || (fg_pgrp p =? pgid (proc w)) then None
  else
    let ignored := bool_decide (disposition (shared (env w)) (proc w) signal = Some SIG_IGN) in
    Some (negb (negb (Z.land (sigmask (proc w)) (bit_of signal) =? 0) || ignored)).
Definition stop_background (signal : Z) : sys (option Outcome) :=
  do! _ <- modify (λ w, deliver_to_pgrp (pgid (proc w)) signal w) in
  do! _ <- modify (λ w, let p := proc w in
                        put_proc (with_pending (clear_bit (pending_signals p) (bit_of signal)) p) w) in
  do! o <- stop_thread_group signal true in
  sret (Some o).
Definition background_tty_access (p : Pty) (signal : Z) : sys (option Outcome) :=
  do! v <- gets (stops_background p signal) in
  match v with
  | None => sret None
  | Some false => sfail EIO
  | Some true => stop_background signal
  end.
Definition background_tty_ioctl (p : Pty) : sys (option Outcome) :=
  do! v <- gets (stops_background p SIGTTOU) in
  match v with
  | None | Some false => sret None
  | Some true => stop_background SIGTTOU
  end.
End switch.
End Switch.
