(* ===== verification/SwitchSpec.v ===== *)
(** Switching tasks, and entering and leaving signal handlers. *)

From S2P Require Import Prelude BTree Abi Digest Chunk Filesystem Pager Net Cpu Fd Proc ProcSpec Signals Authority Env GuestMem Switch.

(** Switching tasks loses none and mixes no address spaces.

    Every thread group has its address map either in the MMU, when it is the
    group that ran last, or under its id among the stored maps. [quiet] relates
    states that agree on which tasks exist and where their maps are. *)
(** What identifies a task across everything a switch does to it. *)
Record Ident := { i_pid : Z; i_tgid : Z; i_ppid : Z; i_pgid : Z; i_fds : Z; i_asid : Z }.
Definition ident (p : Process) : Ident :=
  {| i_pid := pid p; i_tgid := tgid p; i_ppid := ppid p; i_pgid := pgid p; i_fds := fds p; i_asid := asid p |}.
Definition idents {C} (l : list (ParkedTask C)) : list Ident := map (λ t, ident (t_proc t)) l.
Arguments idents : simpl never.
Arguments ident : simpl never.

Section switching.
Context `{Host} {B : Type} `{NetworkBroker B} {M V : Type} `{GuestMemory M V}.
Abbreviation machine := (Machine B M V).
Implicit Types w : machine.

Definition tasks_of w : list (ParkedTask CpuSnapshot) := parked (sched (tasks (env w))).
Definition maps_of w : gmap Z V := group_maps (sched (tasks (env w))).
Definition group_of w : Z := last_group (env w).
Definition next_of w : Z := next_pid (sched (tasks (env w))).

Record quiet w w' : Prop := {
  q_cur : ident (proc w') = ident (proc w);
  q_parked : idents (tasks_of w') = idents (tasks_of w);
  q_maps : maps_of w' = maps_of w;
  q_group : group_of w' = group_of w;
  q_next : next_of w' = next_of w
}.
#[export] Instance quiet_preorder : PreOrder quiet.
Proof. split; [by intros ?|]. intros ? ? ? [] []. split; congruence. Qed.

(** Changes to other parts of the machine. *)
Lemma quiet_core f w : quiet w (on_core f w).
Proof. done. Qed.
Lemma quiet_mem m w : quiet w (put_mem m w).
Proof. done. Qed.
Lemma quiet_heap f w : quiet w (on_heap f w).
Proof. done. Qed.
Lemma quiet_waits f w : quiet w (on_waits f w).
Proof. done. Qed.
Lemma quiet_proc p w : ident p = ident (proc w) → quiet w (put_proc p w).
Proof. by split. Qed.
Lemma frame_quiet w w' : Copy.frame w w' → quiet w w'.
Proof.
  intros Hf. pose proof (Copy.fr_env _ _ Hf) as He.
  split; unfold tasks_of, maps_of, group_of, next_of, proc; by rewrite He.
Qed.
Lemma keeps_copy {A} (m : stm machine Z A) : keeps Copy.frame m → keeps quiet m.
Proof. apply keeps_mono. apply frame_quiet. Qed.

Lemma keeps_gets {E A} (f : machine → A) : keeps (E:=E) quiet (gets f).
Proof. intros w. done. Qed.
Lemma keeps_attempt {A} (m : stm machine Z A) : keeps quiet m → keeps quiet (Switch.attempt m).
Proof. intros Hm w. specialize (Hm w). unfold Switch.attempt. by destruct (m w) as [w' [a|e|]]. Qed.
Lemma keeps_write addr b : keeps quiet (Copy.write_mem addr b).
Proof. apply keeps_copy. intros w. apply Copy.write_mem_frame. Qed.
Lemma keeps_read addr n : keeps quiet (Copy.read_mem addr n).
Proof. apply keeps_copy. intros w. apply Copy.read_mem_frame. Qed.
#[local] Hint Resolve keeps_gets keeps_attempt keeps_write keeps_read quiet_core quiet_mem quiet_heap quiet_waits
  quiet_proc : keeps.

(** * Signals change no task's identity *)
Lemma idents_map {C} (f : ParkedTask C → ParkedTask C) (l : list (ParkedTask C)) :
  (∀ t, ident (t_proc (f t)) = ident (t_proc t)) → idents (map f l) = idents l.
Proof. intros Hf. unfold idents. rewrite map_map. by apply map_ext. Qed.
Lemma deliver_to_pgrp_quiet g sig w : quiet w (Switch.deliver_to_pgrp g sig w).
Proof.
  unfold Switch.deliver_to_pgrp, Sig.deliver_signal_to_pgrp.
  destruct (g =? 0); [by destruct w as [[? ? ? ? []] ? ?]|].
  split; unfold proc, tasks_of, maps_of, next_of; cbn;
    [by destruct (_ && _)| |by destruct (_ && _)|done|by destruct (_ && _)].
  rewrite idents_map; [by destruct (_ && _)|]. intros t. by destruct (_ && _).
Qed.

Lemma next_handler_ident fuel sh p p' o :
  Switch.next_handler fuel sh p = Ok (p', o) → ident p' = ident p.
Proof.
  revert p. induction fuel as [|fuel IH]; intros p; [done|]. cbn [Switch.next_handler].
  destruct (_ =? 0); [by intros [= <- _]|]. destruct (_ && _); [by intros [= <- _]|].
  destruct (_ && _).
  - destruct (_ ≫= _); cbn; [by intros [= <- _]|done].
  - intros Hn. by rewrite (IH _ Hn).
Qed.
Lemma push_saved_quiet action sig w : quiet w (Switch.push_saved action sig w).
Proof. by apply quiet_proc. Qed.
#[local] Hint Resolve push_saved_quiet : keeps.
#[local] Hint Extern 1 (ident _ = ident _) => reflexivity : keeps.

Lemma deliver_signal_quiet : keeps quiet Switch.deliver_signal.
Proof.
  intros w. unfold Switch.deliver_signal. unfold sbind at 1, query.
  destruct (Switch.next_handler _ _ _) as [[p o]|e|] eqn:Hn; [|done..]. apply next_handler_ident in Hn.
  unfold sbind at 1, modify at 1. etrans; [by apply (quiet_proc p)|]. generalize (put_proc p w).
  destruct o as [[sig action]|]; [|by intros].
  match goal with |- ∀ w, quiet w (?m w).1 => change (keeps quiet m) end.
  keep.
Qed.
#[local] Hint Resolve deliver_signal_quiet : keeps.

Lemma deliver_on_wake_quiet b : keeps quiet (Switch.deliver_on_wake b).
Proof. unfold Switch.deliver_on_wake, Switch.end_wait_with. keep. Qed.

(** * Stalls *)
Lemma feed_terminal_quiet w : quiet w (Switch.feed_terminal w).1.
Proof.
  unfold Switch.feed_terminal. destruct (stdio_input _) as [|b l]; [done|]. destruct (stdio_pty _) as [i|]; [|done].
  destruct (_ !! i) as [p|]; [|done]. case_bool_decide; [|done].
  destruct (Terminal.feed_input p (b :: l)) as [p' [sig|]]; [|done]. cbn.
  etrans; [|apply deliver_to_pgrp_quiet]. done.
Qed.
Lemma await_network_quiet now d w : quiet w (Switch.await_network now d w).1.
Proof.
  unfold Switch.await_network. destruct (_ || _); [done|]. destruct (host_driven _); [by destruct (network_expired _)|].
  destruct (wait_ready _ _ _) as [b []]; [by destruct (Switch.ready_task _ _)|by case_bool_decide].
Qed.
Lemma advance_clock_quiet now d : keeps quiet (Switch.advance_clock now d).
Proof. unfold Switch.advance_clock. keep. done. Qed.
Lemma resolve_stall_quiet : keeps quiet Switch.resolve_stall.
Proof.
  intros w. unfold Switch.resolve_stall. pose proof (feed_terminal_quiet w) as Hf.
  destruct (Switch.feed_terminal w) as [w1 fed]. cbn [fst] in Hf.
  destruct (if fed then _ else None) as [i|]; [done|]. set (d := Sched.earliest_deadline _ _).
  pose proof (await_network_quiet (now_nanos w) d w1) as Ha. destruct (Switch.await_network _ _ _) as [w2 [r|[]]].
  - by etrans.
  - etrans; [exact Hf|]. etrans; [exact Ha|]. apply advance_clock_quiet.
Qed.

(** A stall runs no guest code: memory and registers stay. *)
Definition engine_of w : CpuSnapshot * M := (core w, mem w).
Lemma deliver_to_pgrp_engine g sig w : engine_of (Switch.deliver_to_pgrp g sig w) = engine_of w.
Proof. done. Qed.
Lemma resolve_stall_engine w : engine_of (Switch.resolve_stall w).1 = engine_of w.
Proof.
  unfold Switch.resolve_stall. assert (Hf : engine_of (Switch.feed_terminal w).1 = engine_of w).
  { unfold Switch.feed_terminal. destruct (stdio_input _) as [|b l]; [done|]. destruct (stdio_pty _) as [i|]; [|done].
    destruct (_ !! i) as [p|]; [|done]. case_bool_decide; [|done].
    by destruct (Terminal.feed_input p (b :: l)) as [p' [sig|]]. }
  destruct (Switch.feed_terminal w) as [w1 fed]. cbn [fst] in Hf. destruct (if fed then _ else None) as [i|]; [done|].
  set (d := Sched.earliest_deadline _ _). assert (Ha : engine_of (Switch.await_network (now_nanos w) d w1).1 = engine_of w1).
  { unfold Switch.await_network. destruct (_ || _); [done|].
    destruct (host_driven _); [by destruct (network_expired _)|].
    destruct (wait_ready _ _ _) as [b []]; [by destruct (Switch.ready_task _ _)|by case_bool_decide]. }
  destruct (Switch.await_network _ _ _) as [w2 [r|[]]]; cbn [fst] in *; [congruence|].
  rewrite <- Hf, <- Ha. unfold Switch.advance_clock. destruct d as [d|]; [|done].
  unfold sbind, query, modify, gets. by destruct (if now_nanos w <? d then _ else _).
Qed.

(** An index the scheduler picks names a parked task. *)
Lemma find_ready_lookup w now i :
  Switch.ready_task w now = Some i →
  ∃ t, tasks_of w !! i = Some t ∧ Sched.runnable (heap (env w)) (shared (env w)) (sched (tasks (env w))) now t = true.
Proof. unfold Switch.ready_task, Sched.find_ready. rewrite position_Some. by intros [? _]. Qed.
Lemma await_network_ready now d w w' i :
  Switch.await_network now d w = (w', inl (Some i)) → Switch.ready_task w' now = Some i.
Proof.
  unfold Switch.await_network. destruct (_ || _); [done|]. destruct (host_driven _); [by destruct (network_expired _)|].
  destruct (wait_ready _ _ _) as [b []]; [|by case_bool_decide].
  destruct (Switch.ready_task _ now) eqn:Hr; [|done]. by intros [= <- <-].
Qed.
Lemma advance_clock_ready now d w w' i :
  Switch.advance_clock now d w = (w', Ok (Some i)) → Switch.ready_task w' (now_nanos w') = Some i.
Proof.
  unfold Switch.advance_clock. destruct d as [d|]; [|done]. unfold sbind, query, gets, modify.
  destruct (if now <? d then _ else _); [|done..]. by intros [= <- ?].
Qed.
Lemma resolve_stall_ready w w' i :
  Switch.resolve_stall w = (w', Ok (Some i)) → ∃ now, Switch.ready_task w' now = Some i.
Proof.
  unfold Switch.resolve_stall. destruct (Switch.feed_terminal w) as [w1 fed].
  destruct (if fed then _ else None) as [j|] eqn:Hf.
  { intros [= <- <-]. destruct fed; [eauto|done]. }
  set (d := Sched.earliest_deadline _ _).
  destruct (Switch.await_network _ d w1) as [w2 [r|[]]] eqn:Ha.
  - intros [= <- ->]. eauto using await_network_ready.
  - eauto using advance_clock_ready.
Qed.

(** * Address maps *)
(** The map of a thread group: installed when the group ran last, else stored. *)
Definition space w (g : Z) : option V :=
  if g =? group_of w then Some (take_virtual_mapping (mem w)).1 else maps_of w !! g.
(** Every parked task's group has a map. *)
Definition mapped w (i : Ident) : Prop := i_tgid i ≠ 0 ∧ is_Some (space w (i_tgid i)).
Definition maps_ok w : Prop := group_of w ≠ 0 ∧ 0 < next_of w ∧ Forall (mapped w) (idents (tasks_of w)).
(** The state between system calls: the task on the CPU is in its own map. *)
Definition running_ok w : Prop := maps_ok w ∧ tgid (proc w) = group_of w.

Lemma mapped_iff w i : mapped w i ↔ i_tgid i ≠ 0 ∧ (i_tgid i = group_of w ∨ is_Some (maps_of w !! i_tgid i)).
Proof.
  unfold mapped, space. destruct (Z.eqb_spec (i_tgid i) (group_of w)); [|naive_solver].
  split; (intros [? _]; split; [done|]); eauto.
Qed.
Lemma quiet_mapped w w' i : quiet w w' → mapped w i ↔ mapped w' i.
Proof. intros Hq. rewrite !mapped_iff. by rewrite (q_maps _ _ Hq), (q_group _ _ Hq). Qed.
Lemma quiet_maps_ok w w' : quiet w w' → maps_ok w → maps_ok w'.
Proof.
  intros Hq (Hg & Hn & Hf). split; [by rewrite (q_group _ _ Hq)|]. split; [by rewrite (q_next _ _ Hq)|].
  rewrite (q_parked _ _ Hq).
  eapply Forall_impl; [exact Hf|]. intros i. by apply (quiet_mapped w w').
Qed.
Lemma quiet_running_ok w w' : quiet w w' → running_ok w → running_ok w'.
Proof.
  intros Hq [Hm Hr]. split; [by eapply quiet_maps_ok|]. rewrite (q_group _ _ Hq), <- Hr.
  by apply (f_equal i_tgid (q_cur _ _ Hq)).
Qed.

(** Taking task [t] off the list and installing its map: the other tasks keep
    theirs, whether the group's map was in the MMU or in store. *)
Lemma switch_map_ok `{!GuestMemoryLaws M V} w l t :
  group_of w ≠ 0 → Forall (mapped w) (idents (t :: l)) → tasks_of w = l →
  ∃ w', Switch.switch_map (tgid (t_proc t)) w = (w', true) ∧ core w' = core w ∧ quiet w (on_env (put_last_group (group_of w)) (on_sched
      (Switch.set_group_maps (maps_of w)) w')) ∧
    ∀ i, i ∈ idents (t :: l) → space (on_env (put_last_group (tgid (t_proc t))) w') (i_tgid i) = space w (i_tgid i).
Proof.
  intros Hg Hf Hl. unfold Switch.switch_map. fold (group_of w). destruct (Z.eqb_spec (group_of w) (tgid (t_proc t))) as [He|Hne].
  { exists w. split; [done|]. split; [done|]. split; [by destruct w as [[? ? ? ? [? []]] ? ?]|]. intros i _. rewrite <- He. done. }
  destruct (take_virtual_mapping (mem w)) as [map m] eqn:Ht.
  set (maps := if _ && _ then _ else _). assert (Hnext : maps !! tgid (t_proc t) = maps_of w !! tgid (t_proc t)).
  { unfold maps. destruct (_ && _); [|done]. by rewrite lookup_insert_ne. }
  apply Forall_cons in Hf as [Ht0 Hf]. rewrite mapped_iff in Ht0. destruct Ht0 as [_ [Heq|[v Hv]]]; [by destruct Hne|].
  change (i_tgid _) with (tgid (t_proc t)) in Hv.
  rewrite Hnext, Hv. eexists. split; [done|]. split; [done|]. split; [by destruct w as [[? ? ? ? [? []]] ? ?]|].
  intros i Hi. set (g := i_tgid i). unfold space. change (group_of (on_env _ _)) with (tgid (t_proc t)).
  destruct (Z.eqb_spec g (tgid (t_proc t))) as [->|Hgn].
  { cbn [mem on_env put_mem]. rewrite take_restore. by rewrite (proj2 (Z.eqb_neq _ _)) by congruence. }
  cbn -[Z.eqb]. rewrite lookup_delete_ne by congruence. unfold maps. destruct (Z.eqb_spec g (group_of w)) as [Hgg|Hgg].
  - rewrite (proj2 (Z.eqb_neq _ _) Hg). cbn [negb andb]. assert (Sched.group_has_parked (group_of w) _ = true) as ->.
    { apply existsb_exists. apply elem_of_cons in Hi as [->|Hi]; [done|].
      apply list_elem_of_fmap in Hi as (t' & -> & Hin). exists t'. rewrite <- list_elem_of_In.
      split; [by rewrite <- Hl in Hin|]. by apply Z.eqb_eq. }
    rewrite Hgg, lookup_insert_eq. by rewrite Ht.
  - destruct (_ && _); [|done]. by rewrite lookup_insert_ne by congruence.
Qed.

(** * The next task *)
Context `{!GuestMemoryLaws M V}.

(** The task [t] was taken off the list of [w] and is on the CPU of [w']. *)
Record resumed w w' (t : ParkedTask CpuSnapshot) : Prop := {
  re_proc : proc w' = t_proc t;
  re_core : ∃ c, (c = t_cpu t ∨ c = Core.write_var RAX (neg ETIMEDOUT) (t_cpu t)) ∧ core w' = Core.set_icount (icount (core w)) c;
  re_tasks : ident (t_proc t) :: idents (tasks_of w') ≡ₚ idents (tasks_of w);
  re_group : group_of w' = tgid (t_proc t);
  re_next : next_of w' = next_of w;
  re_space : ∀ i, i ∈ idents (tasks_of w) → space w' (i_tgid i) = space w (i_tgid i)
}.

Lemma idents_delete {C} (l : list (ParkedTask C)) i t :
  l !! i = Some t → ident (t_proc t) :: idents (delete i l) ≡ₚ idents l.
Proof. intros Hi. symmetry. apply (Permutation_map (λ t, ident (t_proc t)) (delete_Permutation l i t Hi)). Qed.

Lemma resumed_maps w w' t : resumed w w' t → maps_ok w → running_ok w'.
Proof.
  intros [Hp _ Ht Hg Hx Hs] (Hn & Hnx & Hf). rewrite <- Ht in Hf. pose proof Hf as [[Ht0 _] Hf']%Forall_cons.
  split; [|by rewrite Hp, Hg]. split; [by rewrite Hg|]. split; [by rewrite Hx|]. apply Forall_forall. intros i Hi.
  destruct (proj1 (Forall_forall _ _) Hf' i Hi) as [Hi0 His]. split; [done|]. rewrite Hs; [done|].
  rewrite <- Ht. by right.
Qed.

(** The part of [schedule_next] after the choice of an index. *)
Lemma resume_index w i t :
  maps_ok w → tasks_of w !! i = Some t → ∀ late : bool,
  let w1 := on_sched (λ s, set_parked (delete i (parked s)) s) w in
  ∃ w2, Switch.switch_map (tgid (t_proc t)) w1 = (w2, true) ∧
    resumed w (if late then on_core (Core.write_var RAX (neg ETIMEDOUT)) (Switch.restore_task t w2)
               else Switch.restore_task t w2) t.
Proof.
  intros (Hg & Hn & Hf) Hi late w1. pose proof (idents_delete _ _ _ Hi) as Hperm. pose proof Hf as Hf'. rewrite <- Hperm in Hf'.
  destruct (switch_map_ok w1 (delete i (tasks_of w)) t Hg) as (w2 & Hsw & Hco & Hq & Hsp).
  { eapply Forall_impl; [exact Hf'|]. intros x. by rewrite !mapped_iff. }
  { done. }
  exists w2. split; [done|].
  assert (Hpk : idents (tasks_of w2) = idents (delete i (tasks_of w))) by apply (q_parked _ _ Hq).
  change (core w1) with (core w) in Hco. change (space w1) with (space w) in Hsp.
  destruct late; (split; [done|rewrite <- Hco; eauto|by rewrite <- Hperm, <- Hpk|done|apply (q_next _ _ Hq)|]).
  all: intros x Hx; rewrite <- Hperm in Hx; rewrite <- (Hsp x Hx); done.
Qed.

(** Where the index comes from: a quiet state with the task at that place. *)
Lemma pick_index w w' now r :
  Switch.pick_task now w = (w', r) →
  quiet w w' ∧ engine_of w' = engine_of w ∧ match r with Ok (Some i) => ∃ t, tasks_of w' !! i = Some t | _ => True end.
Proof.
  unfold Switch.pick_task. destruct (Switch.ready_task w now) as [i|] eqn:Hf.
  - intros [= <- <-]. split; [done|]. destruct (find_ready_lookup _ _ _ Hf) as (t & ? & _). eauto.
  - intros Hr. pose proof (resolve_stall_quiet w) as Hq. pose proof (resolve_stall_engine w) as He.
    rewrite Hr in Hq, He. split; [done|]. split; [done|].
    destruct r as [[i|]|e|]; [|done..]. destruct (resolve_stall_ready _ _ _ Hr) as (x & Hx).
    destruct (find_ready_lookup _ _ _ Hx) as (t & ? & _). eauto.
Qed.

Lemma resumed_quiet w w0 w1 t : quiet w w0 → engine_of w0 = engine_of w → resumed w0 w1 t → resumed w w1 t.
Proof.
  intros Hq [= Hc Hm] [Hp Hco Ht Hg Hn Hsp].
  split; [done|by rewrite <- Hc|by rewrite <- (q_parked _ _ Hq)|done|by rewrite Hn, (q_next _ _ Hq)|].
  intros i. rewrite <- (q_parked _ _ Hq). intros Hi. rewrite Hsp by done.
  unfold space. by rewrite (q_group _ _ Hq), (q_maps _ _ Hq), Hm.
Qed.

Lemma schedule_next_ok w w' b :
  maps_ok w → Switch.schedule_next w = (w', Ok b) →
  if b then ∃ w1 t f, resumed w w1 t ∧ w' = (Switch.deliver_on_wake f w1).1
  else quiet w w'.
Proof.
  intros Hok. unfold Switch.schedule_next. unfold sbind at 1, gets at 1. unfold sbind at 1.
  destruct (Switch.pick_task (now_nanos w) w) as [w0 r] eqn:Hpick.
  destruct (pick_index _ _ _ _ Hpick) as (Hq & He & Hi). clear Hpick. destruct r as [[i|]|e|]; [|by intros [= <- <-]|done..].
  destruct Hi as [t Hi]. unfold sbind at 1, query at 1. fold (tasks_of w0). rewrite Hi. cbn [expect].
  unfold sbind at 1, modify at 1. unfold sbind at 1, gets at 1. unfold sbind at 1.
  set (late := Switch.timed_out _ _).
  destruct (resume_index w0 i t (quiet_maps_ok _ _ Hq Hok) Hi late) as (w2 & -> & Hre). cbn [negb].
  unfold sbind at 1, modify at 1. unfold sbind at 1, modify at 1. unfold sbind at 1.
  match goal with |- context [Switch.deliver_on_wake ?f ?w1] => set (w1' := w1) in *; set (f' := f) end.
  destruct (Switch.deliver_on_wake f' w1') as [w3 r3] eqn:Hd. destruct r3 as [[]|e|]; [|done..].
  intros [= <- <-]. exists w1', t, f'. split; [by eapply resumed_quiet|by rewrite Hd].
Qed.

(** Other groups' maps are untouched by what follows a switch. *)
Lemma quiet_space w w' g : quiet w w' → g ≠ group_of w → space w' g = space w g.
Proof.
  intros Hq Hg. unfold space. rewrite (q_group _ _ Hq), (q_maps _ _ Hq). by rewrite (proj2 (Z.eqb_neq _ _) Hg).
Qed.

(** The task on the CPU of [w'] woke up with the map [v] in the MMU: that was the
    map when the switch was done, before a handler was entered for a signal. *)
Definition woke_in w' (v : option V) : Prop := ∃ w1 f,
  w' = (Switch.deliver_on_wake f w1).1 ∧ quiet w1 w' ∧ v = Some (take_virtual_mapping (mem w1)).1.
(** What a switch promises from a state where the list holds the tasks [l]. *)
Definition handed_over w (l : list Ident) w' : Prop :=
  ident (proc w') :: idents (tasks_of w') ≡ₚ l ∧ running_ok w' ∧ woke_in w' (space w (tgid (proc w'))) ∧
  ∀ i, i ∈ l → i_tgid i ≠ tgid (proc w') → space w' (i_tgid i) = space w (i_tgid i).

Lemma switch_or_stall_ok w w' o :
  maps_ok w → Switch.switch_or_stall w = (w', Ok o) →
  match o with
  | Switched => handed_over w (idents (tasks_of w)) w'
  | Exit _ => idents (tasks_of w') = idents (tasks_of w) ∧ maps_ok w'
  | Value _ => False
  end.
Proof.
  intros Hok. unfold Switch.switch_or_stall, sbind. destruct (Switch.schedule_next w) as [w2 [b|e|]] eqn:Hs; [|done..].
  pose proof (schedule_next_ok _ _ _ Hok Hs) as Hb. destruct b.
  - intros [= -> <-]. destruct Hb as (w1 & t & f & Hre & ->). pose proof (deliver_on_wake_quiet f w1) as Hq.
    pose proof (resumed_maps _ _ _ Hre Hok) as Hrun. destruct Hre as [Hp _ Ht Hg _ Hsp].
    assert (Hcur : tgid (proc (Switch.deliver_on_wake f w1).1) = tgid (t_proc t)) by (rewrite <- Hp; apply (f_equal i_tgid (q_cur _ _ Hq))).
    split; [|split; [by eapply quiet_running_ok|split]].
    + rewrite (q_cur _ _ Hq), (q_parked _ _ Hq), Hp. done.
    + exists w1, f. split; [done|]. split; [done|]. rewrite Hcur. change (tgid (t_proc t)) with (i_tgid (ident (t_proc t))).
      rewrite <- Hsp by (rewrite <- Ht; by left). unfold space. by rewrite Hg, Z.eqb_refl.
    + intros i Hi Hne. rewrite (quiet_space _ _ _ Hq), Hsp; [done..|]. rewrite Hg. intros Heq. apply Hne.
      rewrite Heq. symmetry. rewrite <- Hp. apply (f_equal i_tgid (q_cur _ _ Hq)).
  - unfold Switch.stall_outcome. destruct (network_wait _); [|destruct (Switch.blocked_on_terminal_input _)];
      (intros [= <- <-]; split; [apply (q_parked _ _ Hb)|exact (quiet_maps_ok _ _ Hb Hok)]).
Qed.

Lemma park_current_ok st w :
  running_ok w → maps_ok (Switch.park_current st w) ∧
  idents (tasks_of (Switch.park_current st w)) = idents (tasks_of w) ++ [ident (proc w)] ∧
  ∀ g, space (Switch.park_current st w) g = space w g.
Proof.
  intros [(Hg & Hn & Hf) Hr]. assert (Hid : idents (tasks_of (Switch.park_current st w)) = idents (tasks_of w) ++ [ident (proc w)]).
  { unfold Switch.park_current, idents, tasks_of. cbn. by rewrite map_app. }
  split; [|split; done]. split; [done|]. split; [done|]. rewrite Hid. apply Forall_app. split; [done|].
  apply Forall_singleton. apply mapped_iff. unfold ident. cbn. rewrite Hr. auto.
Qed.
End switching.
#[export] Hint Resolve keeps_gets keeps_attempt keeps_write keeps_read quiet_core quiet_mem quiet_heap quiet_waits
  quiet_proc push_saved_quiet deliver_signal_quiet deliver_on_wake_quiet : keeps.
#[export] Hint Extern 1 (ident _ = ident _) => reflexivity : keeps.


(** Two processes: the root on the CPU and a child ready to run in its own map. *)
Definition two_processes : Machine HostBroker (gmap Z Z) (gmap Z Z) :=
  let e := env_new Host_broker.new in
  let c := {| regs := {[NEXT_PC := 4096]}; scratch := []; exception := Core.external 0; pending_exception := None;
              icount := 0; block_id := 0; block_offset := 0 |} in
  let child := match Procs.fork_child (cur (tasks e)) 1001 (heap e) (shared e) with Ok (p, _, _) => p | _ => cur (tasks e) end in
  {| env := put_tasks {| cur := cur (tasks e);
                         sched := {| parked := [{| t_proc := child; t_cpu := c; t_state := Ready |}]; zombies := [];
                                     group_maps := {[1001 := {[0 := 2]}]}; next_pid := 1002 |} |} e;
     core := c; mem := {[0 := 1]} |}.


(** Entering a signal handler and returning from it: [deliver_signal] and
    [sys_rt_sigreturn] are inverse on the interrupted state. *)
(** The process with other pending signals, all else equal. *)
Definition same_but_pending (p p' : Process) : Prop := p' = with_pending (pending_signals p') p.
#[global] Instance same_but_pending_preorder : PreOrder same_but_pending.
Proof.
  split; [by intros []|]. unfold same_but_pending. intros p q r Hq Hr. rewrite Hr, Hq. done.
Qed.

Lemma next_handler_ok fuel sh p p' o :
  Switch.next_handler fuel sh p = Ok (p', o) →
  same_but_pending p p' ∧
  match o with
  | Some (sig, action) => sigtables sh !! sigactions p ≫= (.!! sig) = Some action ∧
      sa_word 0 action ≠ SIG_DFL ∧ sa_word 0 action ≠ SIG_IGN
  | None => True
  end.
Proof.
  revert p. induction fuel as [|fuel IH]; intros p; [done|]. cbn [Switch.next_handler].
  destruct (_ =? 0); [by intros [= <- <-]|]. destruct (_ && _); [by intros [= <- <-]|].
  set (sig := trailing_zeros _ + 1). set (q := with_pending _ p).
  destruct (negb _ && negb _) eqn:Hh.
  - destruct (sigtables sh !! sigactions p ≫= _) as [a|] eqn:Ha; cbn; [|done]. intros [= <- <-].
    apply andb_true_iff in Hh as [H1 H2]. rewrite negb_true_iff in H1, H2. apply Z.eqb_neq in H1, H2. done.
  - intros Hn. destruct (IH _ Hn) as [Hs Ho]. split; [by trans q|]. by destruct o as [[]|].
Qed.

Section handlers.
Context `{Host} {B : Type} `{NetworkBroker B} {M V : Type} `{GuestMemory M V}.
Abbreviation machine := (Machine B M V).
Implicit Types w : machine.

Definition same_proc w w' : Prop := proc w' = proc w.
#[export] Instance same_proc_preorder : PreOrder same_proc.
Proof. split; [done|]. unfold same_proc. congruence. Qed.
Lemma attempt_write_proc addr b w : same_proc w (Switch.attempt (Copy.write_mem addr b) w).1.
Proof.
  unfold Switch.attempt. pose proof (Copy.frame_tasks _ _ (Copy.write_mem_frame addr b w)) as [_ Hp].
  by destruct (Copy.write_mem addr b w) as [w' [a|e|]].
Qed.

(** The process a handler runs in, and what returning leaves of it. *)
Definition framed (c : CpuSnapshot) (mask : Z) (on_alt : bool) (p : Process) : Process :=
  let q := with_sigmask mask (with_saved (c :: signal_saved p) (sigmask p :: signal_saved_mask p) p) in
  with_frames (if on_alt then altstack_depth q + 1 else altstack_depth q) (on_alt :: altstack_frames q) q.
Lemma return_framed c mask on_alt p x y :
  0 ≤ altstack_depth p →
  Switch.return_frame (with_pending y (framed c mask on_alt (with_pending x p))) = Some (c, with_pending y p).
Proof.
  intros Hd. assert (Hs : saturating_sub (altstack_depth p + 1) 1 = altstack_depth p) by (unfold saturating_sub; lia).
  destruct on_alt; [|by destruct p].
  trans (Some (c, with_frames (saturating_sub (altstack_depth p + 1) 1) (altstack_frames p) (with_pending y p)));
    [done|]. rewrite Hs. by destruct p.
Qed.

Lemma deliver_signal_entered w w' :
  Switch.deliver_signal w = (w', Ok true) →
  ∃ p sig action mask on_alt,
    Switch.next_handler 65 (shared (env w)) (proc w) = Ok (p, Some (sig, action)) ∧
    proc w' = framed (core w) mask on_alt p ∧ Core.read_var PC (core w') = sa_word 0 action.
Proof.
  unfold Switch.deliver_signal. unfold sbind at 1, query.
  destruct (Switch.next_handler _ _ _) as [[p [[sig action]|]]|e|] eqn:Hn; [|done..].
  unfold sbind at 1, modify at 1. unfold sbind at 1, modify at 1. unfold sbind at 1, gets at 1. unfold sbind at 1, gets at 1.
  set (w1 := Switch.push_saved action sig (put_proc p w)). set (on_alt := negb _ && _).
  set (si := saturating_sub (Switch.frame_top _ _ _) 128).
  intros Hd. exists p, sig, action, (sigmask (proc w1)), on_alt. split; [done|].
  unfold sbind at 1 in Hd. pose proof (attempt_write_proc si (le_bytes 4 sig ++ replicate 124 0) w1) as P1.
  destruct (Switch.attempt _ w1) as [w2 [a2|e|]]; [|done..]. unfold sbind at 1 in Hd.
  set (uc := saturating_sub si 256) in *. pose proof (attempt_write_proc uc (replicate 256 0) w2) as P2.
  destruct (Switch.attempt _ w2) as [w3 [a3|e|]]; [|done..]. unfold sbind at 1 in Hd.
  set (sp := saturating_sub _ 8) in *. pose proof (attempt_write_proc sp (le_bytes 8 (sa_word 2 action)) w3) as P3.
  destruct (Switch.attempt _ w3) as [w4 [[]|e|]]; [|done..]. cbn [negb] in Hd.
  unfold sbind, modify in Hd. injection Hd as <-. unfold same_proc in *. cbn [fst] in *.
  assert (Hp : proc w4 = proc w1) by congruence. split.
  - change (proc (on_core _ _)) with (with_frames (if on_alt then altstack_depth (proc w4) + 1 else altstack_depth (proc w4))
      (on_alt :: altstack_frames (proc w4)) (proc w4)). by rewrite Hp.
  - cbn. unfold Switch.enter_handler. cbn. unfold Core.read_var. cbn. by rewrite lookup_insert_eq.
Qed.
End handlers.

(** C29. Returning from a signal handler resumes exactly what the signal
    interrupted: after a delivery that entered the handler, and whatever the
    handler did to registers and memory, [rt_sigreturn] puts back every
    register but the instruction counter, the signal mask, the alternate stack
    and the frames below, so that the process differs from the interrupted one
    in its pending signals only (as long as none of these is deliverable). *)
Theorem sigreturn_restores `{Host} {B} `{NetworkBroker B} {M V} `{GuestMemory M V} (w w1 w2 : Machine B M V) :
  0 ≤ altstack_depth (proc w) →
  Switch.deliver_signal w = (w1, Ok true) →
  same_but_pending (proc w1) (proc w2) →
  Z.land (pending_signals (proc w2)) (Z.lnot (sigmask (proc w))) = 0 →
  ∃ w3, Switch.sys_rt_sigreturn w2 = (w3, Ok Switched) ∧
    core w3 = Core.set_icount (icount (core w2)) (core w) ∧
    proc w3 = with_pending (pending_signals (proc w2)) (proc w) ∧ mem w3 = mem w2.
Proof.
  intros Hd0 Hd Hs Hp. destruct (deliver_signal_entered _ _ Hd) as (p & sig & action & mask & on_alt & Hn & Hpr & _).
  apply next_handler_ok in Hn as [Hn _]. unfold same_but_pending in Hs, Hn. rewrite Hpr, Hn in Hs.
  unfold Switch.sys_rt_sigreturn. rewrite Hs, return_framed by done. unfold Sched.deliverable.
  change (Z.land _ _) with (Z.land (pending_signals (proc w2)) (Z.lnot (sigmask (proc w)))). rewrite Hp.
  eexists. split; [reflexivity|]. done.
Qed.

(** A process with a handler for signal 2, which is pending, and a stack. *)
Definition interrupted : Machine HostBroker (gmap Z Z) (gmap Z Z) :=
  let e := env_new Host_broker.new in
  let p := cur (tasks e) in
  let s := shared e in
  let action := le_bytes 8 20480 ++ le_bytes 8 0 ++ le_bytes 8 24576 ++ le_bytes 8 0 in
  {| env := put_shared {| cells := cells s; sigtables := {[sigactions p := {[2 := action]}]}; done_flags := done_flags s;
                          next_cell := next_cell s; next_asid := next_asid s |}
              (put_tasks {| cur := with_pending 2 p; sched := Sched.new |} e);
     core := {| regs := {[RSP := 1000; PC := 4096; RAX := 7]}; scratch := []; exception := Core.external 4096;
                pending_exception := None; icount := 5; block_id := 0; block_offset := 0 |};
     mem := list_to_map ((λ i, (400 + i, 0)) <$> seqZ 0 600) |}.

Lemma sigreturn_restores_witness :
  ∃ w1 w3, Switch.deliver_signal interrupted = (w1, Ok true) ∧ Core.read_var PC (core w1) = 20480 ∧
    Switch.sys_rt_sigreturn w1 = (w3, Ok Switched) ∧ core w3 = core interrupted ∧
    proc w3 = with_pending 0 (proc interrupted).
Proof.
  destruct (Switch.deliver_signal interrupted) as [w1 r] eqn:E.
  assert (r = Ok true) as -> by (change r with ((w1, r).2); rewrite <- E; vm_compute; reflexivity).
  assert (Hpe : pending_signals (proc w1) = 0)
    by (change w1 with ((w1, Ok true : res Z bool).1); rewrite <- E; vm_compute; reflexivity).
  assert (Hic : icount (core w1) = 5)
    by (change w1 with ((w1, Ok true : res Z bool).1); rewrite <- E; vm_compute; reflexivity).
  destruct (sigreturn_restores interrupted w1 w1) as (w3 & Hr & Hc & Hp & _);
    [vm_compute; congruence|exact E|reflexivity|rewrite Hpe; vm_compute; reflexivity|].
  exists w1, w3. split; [reflexivity|]. split.
  - change w1 with ((w1, Ok true : res Z bool).1). rewrite <- E. vm_compute. reflexivity.
  - split; [exact Hr|]. split; [rewrite Hc, Hic; reflexivity|]. by rewrite Hp, Hpe.
Defined.
