(* ===== verification/ProcCalls.v ===== *)
(** The process, thread and waiting calls of [crates/linux-compat/src/syscall.rs]:
    exit, clone, wait4, futex, sleep, yield, kill and the signal registrations. *)

From S2P Require Import Prelude BTree Abi Digest Chunk Filesystem Pager Cpu Net Fd Proc Signals Authority Env GuestMem Switch.

Definition CLONE_VM : Z := 256.
Definition CLONE_VFORK : Z := 16384.
Definition CLONE_SETTLS : Z := 524288.
Definition CLONE_PARENT_SETTID : Z := 1048576.
Definition CLONE_CHILD_CLEARTID : Z := 2097152.
Definition CLONE_CHILD_SETTID : Z := 16777216.
Definition WNOHANG : Z := 1.
Definition WUNTRACED : Z := 2.
Definition FUTEX_WAIT : Z := 0.
Definition FUTEX_WAKE : Z := 1.
Definition FUTEX_WAIT_BITSET : Z := 9.
Definition FUTEX_WAKE_BITSET : Z := 10.
Definition FUTEX_CLOCK_REALTIME : Z := 256.
Definition SIGCONT : Z := 18.
Definition NANOS : Z := 1000000000.
Definition ENOSYS : Z := 38.
Definition STACK_T_LEN : Z := 24.
Definition SS_ONSTACK : Z := 1.
Definition SS_DISABLE : Z := 2.
Definition MINSIGSTKSZ : Z := 2048.

Record CloneSpec := { c_flags : Z; new_sp : Z; parent_tid : Z; child_tid : Z; c_tls : Z }.

Module Calls.
Section calls.
Context `{Host} {B : Type} `{NetworkBroker B} {M V : Type} `{GuestMemory M V}.
Abbreviation machine := (Machine B M V).
Abbreviation sys := (stm machine Z).

(** * Exit *)
Definition encode_exit_status (code : Z) : Z := Z.shiftl (Z.land (as_i32 code) 255) 8.

(** [done.set(true)] on the flag the process carries. *)
Definition set_done_flags (x : gmap Z bool) (s : Shared) : Shared :=
  {| cells := cells s; sigtables := sigtables s; done_flags := x; next_cell := next_cell s; next_asid := next_asid s |}.
Definition fire (f : option Z) (w : machine) : machine :=
  match f with
  | Some i => on_env (λ e, put_shared (set_done_flags (<[i := true]> (done_flags (shared e))) (shared e)) e) w
  | None => w
  end.
Definition release_vfork (w : machine) : machine :=
  put_proc (with_vfork None (proc w)) (fire (vfork_done (proc w)) w).

Definition wake_futex (addr count : Z) : sys Z := λ w,
  let '(s, n) := Sched.futex_wake addr count (sched (tasks (env w))) in (on_sched (λ _, s) w, Ok n).

(** The parked tasks of a thread group, dropped. *)
Definition drop_tasks (l : list (ParkedTask CpuSnapshot)) (w : machine) : machine :=
  foldl (λ w t, Switch.drop_process (t_proc t) w) w l.
Definition kill_siblings (g : Z) (w : machine) : machine :=
  let l := parked (sched (tasks (env w))) in
  drop_tasks (filter (λ t, tgid (t_proc t) = g) l)
    (on_sched (set_parked (filter (λ t, tgid (t_proc t) ≠ g) l)) w).

Definition push_zombie (z : Zombie) : machine → machine := on_sched (λ s, set_zombies (zombies s ++ [z]) s).
(** A new descriptor table in place of the process's own. *)
Definition release_fds (w : machine) : machine :=
  let old := fds (proc w) in
  let '(t, h) := Fds.table_new (heap (env w)) in
  on_heap (Fds.table_drop old) (put_proc (with_fds t (proc w)) (on_heap (λ _, h) w)).

Definition exit_code_of (status : Z) : Z :=
  if negb (Z.land status 127 =? 0) then 128 + Z.land status 127 else Z.shiftr status 8.

Definition task_exit (status : Z) (exit_group : bool) : sys Outcome :=
  do! _ <- modify release_vfork in
  do! p <- gets proc in
  do! _ <- (if clear_child_tid p =? 0 then sret ()
            else do! _ <- Switch.attempt (Copy.write_mem (clear_child_tid p) (le_bytes 4 0)) in
                 do! _ <- wake_futex (clear_child_tid p) U64_MAX in sret ()) in
  do! _ <- modify (λ w, if exit_group then kill_siblings (tgid p) w else w) in
  let leader := pid p =? tgid p in
  if (tgid p =? ROOT_PID) && (exit_group || leader) then
    do! _ <- modify (record_exit (exit_code_of status)) in sret (Exit Halt)
  else
    let last := leader || exit_group in
    do! _ <- modify (λ w, if last then push_zombie {| z_pid := tgid p; z_ppid := ppid p; z_status := status |} w else w) in
    do! _ <- modify release_fds in
    do! _ <- modify (λ w, if last then Switch.notify_parent (ppid p) w else w) in
    Switch.switch_or_stall.

(** * Clone *)
Definition fork_spec : CloneSpec := {| c_flags := 0; new_sp := 0; parent_tid := 0; child_tid := 0; c_tls := 0 |}.
Definition vfork_spec : CloneSpec :=
  {| c_flags := CLONE_VFORK; new_sp := 0; parent_tid := 0; child_tid := 0; c_tls := 0 |}.

Definition fresh_pid : sys Z := λ w,
  let '(s, r) := Sched.take_pid (sched (tasks (env w))) in (on_sched (λ _, s) w, r).
Definition is_thread (spec : CloneSpec) : bool := has_flag (c_flags spec) CLONE_VM && negb (has_flag (c_flags spec) CLONE_VFORK).

(** The child's process; a fork gets its own address space id in the pager. *)
Definition child_process (spec : CloneSpec) (child : Z) : sys Process := λ w,
  if is_thread spec then
    let '(p, h) := Procs.thread_sibling (proc w) child (heap (env w)) in (on_heap (λ _, h) w, Ok p)
  else
    match Procs.fork_child (proc w) child (heap (env w)) (shared (env w)) with
    | Ok (p, h, s) =>
        (on_env (λ e, put_pager (fork_space (pager e) (asid (proc w)) (asid p)) (put_shared s (put_heap h e))) w, Ok p)
    | Err e => (w, Err e)
    | Panic => (w, Panic)
    end.
Definition child_memory (spec : CloneSpec) : sys (option V) := λ w,
  if is_thread spec then (w, Ok None)
  else let '(map, m) := snapshot_virtual_mapping (mem w) in (put_mem m w, Ok (Some map)).

(** The registers of the child, built on the CPU and taken off it again. *)
Definition child_cpu (spec : CloneSpec) : sys CpuSnapshot :=
  do! c <- gets core in
  do! _ <- modify (on_core (λ c,
    let c := Core.write_var RAX 0 c in
    let c := if new_sp spec =? 0 then c else Core.write_var RSP (new_sp spec) c in
    if has_flag (c_flags spec) CLONE_SETTLS then Core.write_var FS_OFFSET (c_tls spec) c else c)) in
  do! _ <- Switch.prepare_resume false in
  do! child <- gets core in
  do! _ <- modify (on_core (λ x,
    Core.write_var FS_OFFSET (Core.read_var FS_OFFSET c)
      (Core.write_var RSP (Core.read_var RSP c) (Core.write_var RAX (Core.read_var RAX c) x)))) in
  sret child.

(** The thread id is written through the child's own map. *)
Definition set_child_tid (addr child : Z) (child_mem : option V) : sys (option V) :=
  match child_mem with
  | None => do! _ <- Switch.attempt (Copy.write_mem addr (le_bytes 4 child)) in sret None
  | Some map =>
      do! parent <- (λ w, let '(v, m) := take_virtual_mapping (mem w) in
                          (put_mem (restore_virtual_mapping map m) w, Ok v)) in
      do! _ <- Switch.attempt (Copy.write_mem addr (le_bytes 4 child)) in
      (λ w, let '(v, m) := take_virtual_mapping (mem w) in
            (put_mem (restore_virtual_mapping parent m) w, Ok (Some v)))
  end.

Definition new_flag (w : machine) : machine * Z :=
  let s := shared (env w) in
  (on_env (put_shared {| cells := cells s; sigtables := sigtables s; done_flags := <[next_cell s := false]> (done_flags s);
                         next_cell := next_cell s + 1; next_asid := next_asid s |}) w, next_cell s).

Definition add_child (child : Z) (p : Process) (c : CpuSnapshot) (map : option V) : machine → machine :=
  on_sched (λ s,
    {| parked := parked s ++ [{| t_proc := p; t_cpu := c; t_state := Ready |}]; zombies := zombies s;
       group_maps := match map with Some m => <[child := m]> (group_maps s) | None => group_maps s end;
       next_pid := next_pid s |}).

(** The child's process, registers and map. *)
Definition clone_parts (spec : CloneSpec) (child : Z) : sys (Process * CpuSnapshot * option V) :=
  do! p <- child_process spec child in
  let p := if has_flag (c_flags spec) CLONE_CHILD_CLEARTID then with_clear_tid (child_tid spec) p else p in
  do! map <- child_memory spec in
  do! c <- child_cpu spec in
  do! map <- (if has_flag (c_flags spec) CLONE_CHILD_SETTID && negb (child_tid spec =? 0)
              then set_child_tid (child_tid spec) child map else sret map) in
  sret (p, c, map).

Definition sys_clone_impl (spec : CloneSpec) : sys Outcome :=
  do! child <- fresh_pid in
  do! told <- (if has_flag (c_flags spec) CLONE_PARENT_SETTID && negb (parent_tid spec =? 0)
               then Switch.attempt (Copy.write_mem (parent_tid spec) (le_bytes 4 child)) else sret true) in
  if negb told then sfail EFAULT
  else
    do! parts <- clone_parts spec child in
    let '(p, c, map) := parts in
    if has_flag (c_flags spec) CLONE_VFORK then
      do! flag <- (λ w, let '(w, f) := new_flag w in (w, Ok f)) in
      do! _ <- modify (add_child child (with_vfork (Some flag) p) c map) in
      do! _ <- modify (on_core (Core.write_var RAX child)) in
      Switch.block_and_switch (VforkDone flag) false
    else
      do! _ <- modify (add_child child p c map) in
      sret (Value child).

(** * Waiting for children *)
Definition sched_op {A} (f : Scheduler CpuSnapshot V → Scheduler CpuSnapshot V * A) : sys A := λ w,
  let '(s, a) := f (sched (tasks (env w))) in (on_sched (λ _, s) w, Ok a).
Definition report (status_ptr status value : Z) : sys Outcome :=
  do! _ <- (if status_ptr =? 0 then sret () else Copy.write_mem status_ptr (le_bytes 4 status)) in
  sret (Value value).

Definition sys_wait4 (pid_arg status_ptr options : Z) : sys Outcome :=
  let filter := if 0 <? as_i32 pid_arg then as_i32 pid_arg else -1 in
  do! p <- gets proc in
  do! z <- sched_op (Sched.take_zombie (tgid p) filter) in
  match z with
  | Some z => report status_ptr (z_status z) (z_pid z)
  | None =>
      let untraced := has_flag options WUNTRACED in
      do! r <- (if untraced then sched_op (Sched.take_stop_report (tgid p) filter) else sret None) in
      match r with
      | Some (child, sig) => report status_ptr (Z.lor (Z.shiftl sig 8) 127) child
      | None =>
          do! any <- gets (λ w, Sched.has_child (tgid p) filter (sched (tasks (env w)))) in
          if negb any then sfail ECHILD
          else if has_flag options WNOHANG then sret (Value 0)
          else Switch.block_and_switch (WaitChild filter untraced) true
      end
  end.

(** * Timed waits *)
Definition read_timespec_at (addr : Z) : sys Z :=
  do! b <- Copy.read_mem addr 16 in
  let sec := as_i64 (le_val (take 8 b)) in
  let nsec := as_i64 (le_val (drop 8 b)) in
  if (sec <? 0) || negb ((0 <=? nsec) && (nsec <? NANOS)) then sfail EINVAL
  else sret (saturating_add64 (saturating_mul64 sec NANOS) nsec).
Definition read_timeval_at (addr : Z) : sys Z :=
  do! b <- Copy.read_mem addr 16 in
  let sec := as_i64 (le_val (take 8 b)) in
  let usec := as_i64 (le_val (drop 8 b)) in
  if (sec <? 0) || negb ((0 <=? usec) && (usec <? 1000000)) then sfail EINVAL
  else sret (saturating_add64 (saturating_mul64 sec NANOS) (saturating_mul64 usec 1000)).

(** [rax] is set to zero first: waking up is all the call reports. *)
Definition park_returning_zero (state : ParkState) : sys Outcome :=
  do! _ <- modify (on_core (Core.write_var RAX 0)) in
  do! _ <- Switch.prepare_resume false in
  do! _ <- modify (Switch.park_current state) in
  Switch.switch_or_stall.
Definition park_timeout_returning_zero (ws : list Watch) (deadline : Z) : sys Outcome :=
  park_returning_zero (Waiting ws (Some deadline)).

Definition outcome_nanosleep (req : Z) (absolute : bool) : sys Outcome :=
  do! duration <- (if req =? 0 then sret 0 else read_timespec_at req) in
  do! now <- gets now_nanos in
  do! deadline <- query (λ _, if absolute : bool then Ok (Z.max duration now) else add64 now duration) in
  park_returning_zero (Waiting [] (Some deadline)).

Definition sys_futex (addr op val timeout_ptr : Z) : sys Outcome :=
  let cmd := Z.land op 127 in
  if (cmd =? FUTEX_WAIT) || (cmd =? FUTEX_WAIT_BITSET) then
    do! b <- Copy.read_mem addr 4 in
    if negb (le_val b =? wrap 32 val) then sfail EAGAIN
    else if timeout_ptr =? 0 then Switch.block_and_switch (Futex addr false None) true
    else
      do! duration <- read_timespec_at timeout_ptr in
      do! now <- gets now_nanos in
      do! base <- gets (λ w, saturating_mul64 (wrap 64 (epoch_base_sec (env w))) NANOS) in
      do! deadline <- query (λ _,
        if cmd =? FUTEX_WAIT_BITSET then
          Ok (Z.max (if has_flag op FUTEX_CLOCK_REALTIME then saturating_sub duration base else duration) now)
        else add64 now duration) in
      park_returning_zero (Futex addr false (Some deadline))
  else if (cmd =? FUTEX_WAKE) || (cmd =? FUTEX_WAKE_BITSET) then
    do! n <- wake_futex addr val in sret (Value n)
  else sfail ENOSYS.

Definition sys_yield : sys Outcome := λ w,
  match Switch.ready_task w (now_nanos w) with
  | None => (w, Ok (Value 0))
  | Some _ => Switch.block_and_switch Ready false (on_core (Core.write_var RAX 0) w)
  end.

(** * Signal registration *)
Definition put_action (signal : Z) (action : bytes) (w : machine) : machine :=
  on_env (λ e, let s := shared e in
    put_shared {| cells := cells s; sigtables := alter (insert signal action) (sigactions (cur (tasks e))) (sigtables s);
                  done_flags := done_flags s; next_cell := next_cell s; next_asid := next_asid s |} e) w.
Definition sys_rt_sigaction (signal new old : Z) : sys Z :=
  if negb (new =? 0) && ((signal =? 9) || (signal =? 19)) then sfail EINVAL
  else
    do! previous <- gets (λ w, default (replicate 32 0)
                                 (sigtables (shared (env w)) !! sigactions (proc w) ≫= (.!! signal))) in
    do! _ <- (if old =? 0 then sret () else Copy.write_mem old previous) in
    do! _ <- (if new =? 0 then sret ()
              else do! b <- Copy.read_mem new 32 in modify (put_action signal b)) in
    sret 0.

Definition sys_rt_sigprocmask (how new old : Z) : sys Outcome :=
  do! before <- gets (λ w, sigmask (proc w)) in
  do! _ <- (if old =? 0 then sret () else Copy.write_mem old (le_bytes 8 before)) in
  if new =? 0 then sret (Value 0)
  else
    do! b <- Copy.read_mem new 8 in
    let mask := le_val b in
    do! m <- query (λ w, let old := sigmask (proc w) in
                         if how =? 0 then Ok (Z.lor old mask)
                         else if how =? 1 then Ok (Z.land old (Z.lnot mask))
                         else if how =? 2 then Ok mask
                         else Err EINVAL) in
    do! _ <- modify (λ w, put_proc (with_sigmask m (proc w)) w) in
    do! act <- (λ w, match Sig.pending_signal_action (shared (env w)) (proc w) with
                     | Ok (p, a) => (put_proc p w, Ok a)
                     | _ => (w, Panic)
                     end) in
    match act with
    | Terminate sig => task_exit sig true
    | Stop sig =>
        do! _ <- modify (Switch.resume_after_syscall 0) in Switch.stop_thread_group sig false
    | Handler =>
        do! _ <- modify (Switch.resume_after_syscall 0) in
        do! _ <- Switch.deliver_signal in sret Switched
    | NoAction => sret (Value 0)
    end.

Definition sys_sigaltstack (new old : Z) : sys Z :=
  do! p <- gets proc in
  let on_stack := 0 <? altstack_depth p in
  let '(base, size, fl) := match altstack p with
                           | Some (b, s) => (b, s, if on_stack then SS_ONSTACK else 0)
                           | None => (0, 0, SS_DISABLE)
                           end in
  do! _ <- (if old =? 0 then sret ()
            else Copy.write_mem old (le_bytes 8 base ++ le_bytes 4 fl ++ replicate 4 0 ++ le_bytes 8 size)) in
  if new =? 0 then sret 0
  else if on_stack then sfail EPERM
  else
    do! b <- Copy.read_mem new STACK_T_LEN in
    let base := le_val (take 8 b) in
    let fl := le_val (take 4 (drop 8 b)) in
    let size := le_val (take 8 (drop 16 b)) in
    if has_flag fl SS_DISABLE then
      do! _ <- modify (λ w, put_proc (with_altstack None (proc w)) w) in sret 0
    else if negb (Z.land fl (wrap 32 (Z.lnot SS_ONSTACK)) =? 0) then sfail EINVAL
    else if size <? MINSIGSTKSZ then sfail ENOMEM
    else if bool_decide (checked_add64 base size = None) then sfail EINVAL
    else do! _ <- modify (λ w, put_proc (with_altstack (Some (base, size)) (proc w)) w) in sret 0.

(** * Kill *)
(** A signal the task sends itself. *)
Definition kill_self (signal : Z) : sys Outcome :=
  let bit := bit_of signal in
  do! p <- gets proc in
  let queue := modify (λ w, put_proc (raise bit (proc w)) w) in
  if negb (Z.land (sigmask p) bit =? 0) then do! _ <- queue in sret (Value 0)
  else
    do! d <- gets (λ w, disposition (shared (env w)) (proc w) signal) in
    let handled := match d with Some x => negb (x =? SIG_DFL) | None => false end in
    if bool_decide (d = Some SIG_IGN) then sret (Value 0)
    else if handled then
      do! _ <- modify (Switch.resume_after_syscall 0) in
      do! _ <- queue in
      do! _ <- Switch.deliver_signal in
      sret Switched
    else if default_action_terminates signal then task_exit signal true
    else if default_action_stops signal then
      do! _ <- modify (Switch.resume_after_syscall 0) in Switch.stop_thread_group signal false
    else sret (Value 0).

(** Job-control signals change the targets directly. *)
Definition STOP_BITS : Z := foldr (λ s acc, Z.lor acc (bit_of s)) 0 [19; 20; 21; 22].
Definition kill_matches (target caller_pgid : Z) (p : Process) : bool :=
  if target <=? 0 then pgid p =? (if target =? 0 then caller_pgid else - target)
  else tgid p =? target.
Definition job_control (signal : Z) (parked_task : bool) (p : Process) : Process :=
  if signal =? SIGCONT then
    let p := with_pending (clear_bit (pending_signals p) STOP_BITS) p in
    if parked_task then with_stop false None p else p
  else raise (bit_of signal) p.
Definition kill_job_control (target signal : Z) : sys Outcome := λ w,
  let t := tasks (env w) in
  let m := kill_matches target (pgid (cur t)) in
  let found := m (cur t) || existsb (λ x, m (t_proc x)) (parked (sched t)) in
  let w := on_tasks (λ t, set_tasks (map (λ x, if m (t_proc x) then set_proc (job_control signal true (t_proc x)) x else x)
                                         (parked (sched t)))
                            (if m (cur t) then set_cur (job_control signal false (cur t)) t else t)) w in
  (w, if found then Ok (Value 0) else Err ESRCH).

(** [tgids.sort_unstable(); tgids.dedup()] *)
Definition sorted_unique (l : list Z) : list Z := map fst (foldl (λ t k, bt_insert t k ()) ([] : btree Z ()) l).
Definition victims (target : Z) (t : Tasks CpuSnapshot V) : res Z (list Z) :=
  if target =? -1 then Err ESRCH
  else if target <=? 0 then
    let g := if target =? 0 then pgid (cur t) else - target in
    let l := sorted_unique (map (λ x, tgid (t_proc x))
               (filter (λ x, pgid (t_proc x) = g ∧ tgid (t_proc x) ≠ tgid (cur t)) (parked (sched t)))) in
    if bool_decide (l = []) && negb (pgid (cur t) =? g) then Err ESRCH else Ok l
  else Ok [target].

(** SIGKILL removes the parked tasks of a group; one turn per task. *)
Fixpoint reap_loop (fuel : nat) (target : Z) (i : nat) (hit : bool) (w : machine) : machine * bool :=
  match fuel with
  | O => (w, hit)
  | S fuel =>
      match parked (sched (tasks (env w))) !! i with
      | None => (w, hit)
      | Some t =>
          let p := t_proc t in
          if tgid p =? target then
            let w := on_sched (λ s, set_parked (delete i (parked s)) s) w in
            let w := fire (vfork_done p) w in
            let w := if pid p =? tgid p
                     then Switch.notify_parent (ppid p)
                            (push_zombie {| z_pid := tgid p; z_ppid := ppid p; z_status := SIGKILL |} w)
                     else w in
            reap_loop fuel target i true (Switch.drop_process p w)
          else reap_loop fuel target (S i) hit w
      end
  end.
Definition reap (target : Z) (w : machine) : machine * bool :=
  let '(w, hit) := reap_loop (length (parked (sched (tasks (env w))))) target 0 false w in
  (if hit && negb (Sched.group_has_parked target (sched (tasks (env w))))
   then on_sched (λ s, Switch.set_group_maps (delete target (group_maps s)) s) w else w, hit).

Definition kill_one (signal target : Z) (w : machine) : machine * bool :=
  if signal =? SIGKILL then reap target w
  else let '(t, found) := Sig.signal_process (shared (env w)) target signal (tasks (env w)) in (on_tasks (λ _, t) w, found).
Fixpoint kill_all (signal : Z) (l : list Z) (found : bool) (w : machine) : machine * bool :=
  match l with
  | [] => (w, found)
  | x :: l => let '(w, hit) := kill_one signal x w in kill_all signal l (found || hit) w
  end.

Definition sys_kill (target_arg signal : Z) : sys Outcome :=
  let target := as_i32 target_arg in
  if NSIG <? signal then sfail EINVAL
  else
    do! t <- gets (λ w, tasks (env w)) in
    if signal =? 0 then
      if (target =? tgid (cur t)) || existsb (λ x, tgid (t_proc x) =? target) (parked (sched t))
      then sret (Value 0) else sfail ESRCH
    else if (target =? tgid (cur t)) || (target =? pid (cur t)) then kill_self signal
    else if (signal =? SIGCONT) || default_action_stops signal then kill_job_control target signal
    else
      do! l <- query (λ w, victims target (tasks (env w))) in
      do! found <- (λ w, let '(w, f) := kill_all signal l false w in (w, Ok f)) in
      if found : bool then sret (Value 0) else sfail ESRCH.
End calls.
End Calls.
