(* ===== verification/ProcCallsSpec.v ===== *)
(** The process calls keep every task in its own address space. *)

From S2P Require Import Prelude BTree Abi Digest Chunk Filesystem Pager Cpu Net Fd Proc ProcSpec Signals Authority Env GuestMem Switch SwitchSpec ProcCalls.

(** A computation that never returns an error value. *)
Definition no_err {S E A} (m : stm S E A) : Prop := ∀ s e, (m s).2 ≠ Err e.
Lemma no_err_bind {S E A B} (m : stm S E A) (k : A → stm S E B) :
  no_err m → (∀ a, no_err (k a)) → no_err (sbind m k).
Proof.
  intros Hm Hk s e. unfold sbind. specialize (Hm s). destruct (m s) as [s' [a|e'|]]; cbn in *; [apply Hk| |done].
  by destruct (Hm e').
Qed.
Lemma no_err_ret {S E A} (a : A) : no_err (S:=S) (E:=E) (sret a).
Proof. done. Qed.
Lemma no_err_modify {S E} (f : S → S) : no_err (E:=E) (modify f).
Proof. done. Qed.
Lemma no_err_query {S E A} (f : S → res E A) : (∀ s e, f s ≠ Err e) → no_err (query f).
Proof. done. Qed.
#[export] Hint Resolve no_err_ret no_err_modify : keeps.
Ltac errless :=
  repeat (intros; match goal with
    | |- no_err (sbind _ _) => apply no_err_bind
    | |- no_err (query _) => apply no_err_query
    | |- no_err (if ?b then _ else _) => destruct b
    | |- no_err (match ?x with _ => _ end) => destruct x
    end); auto with keeps.

Section calls.
Context `{Host} {B : Type} `{NetworkBroker B} {M V : Type} `{GuestMemoryLaws M V}.
Abbreviation machine := (Machine B M V).
Implicit Types w : machine.

Lemma add64_no_err a b (e : Z) : add64 a b ≠ Err e.
Proof. unfold add64. by case_match. Qed.
Lemma sub64_no_err a b (e : Z) : sub64 a b ≠ Err e.
Proof. unfold sub64. by case_match. Qed.
Lemma gets_no_err {A} (f : machine → A) : no_err (E:=Z) (gets f).
Proof. done. Qed.
Lemma attempt_no_err {A} (m : stm machine Z A) : no_err (Switch.attempt m).
Proof. intros w e. unfold Switch.attempt. by destruct (m w) as [w' [a|e'|]]. Qed.
Lemma next_handler_no_err fuel sh p e : Switch.next_handler fuel sh p ≠ Err e.
Proof.
  revert p. induction fuel as [|fuel IH]; intros p; [done|]. cbn [Switch.next_handler].
  destruct (_ =? 0); [done|]. destruct (_ && _); [done|]. destruct (_ && _); [by destruct (_ ≫= _)|apply IH].
Qed.
#[local] Hint Resolve add64_no_err sub64_no_err gets_no_err attempt_no_err next_handler_no_err : keeps.
Lemma deliver_signal_no_err : no_err (Switch.deliver_signal (B:=B) (M:=M) (V:=V)).
Proof. unfold Switch.deliver_signal. errless. Qed.
#[local] Hint Resolve deliver_signal_no_err : keeps.
Lemma resolve_stall_no_err : no_err (Switch.resolve_stall (B:=B) (M:=M) (V:=V)).
Proof.
  intros w e. unfold Switch.resolve_stall. destruct (Switch.feed_terminal w) as [w1 fed].
  destruct (if fed then _ else None); [done|]. destruct (Switch.await_network _ _ _) as [w2 [r|[]]]; [done|].
  revert w2 e. change (no_err (Switch.advance_clock (B:=B) (M:=M) (V:=V) (now_nanos w)
    (Sched.earliest_deadline (heap (env w1)) (sched (tasks (env w1)))))).
  unfold Switch.advance_clock. errless. case_match; auto with keeps.
Qed.
Lemma schedule_next_no_err : no_err (Switch.schedule_next (B:=B) (M:=M) (V:=V)).
Proof.
  unfold Switch.schedule_next, Switch.deliver_on_wake, Switch.end_wait_with. errless.
  - intros w e. unfold Switch.pick_task. destruct (Switch.ready_task w _); [done|]. apply resolve_stall_no_err.
  - intros s e. unfold expect. by case_match.
  - intros w e. by destruct (Switch.switch_map _ w).
Qed.
Lemma switch_or_stall_no_err : no_err (Switch.switch_or_stall (B:=B) (M:=M) (V:=V)).
Proof.
  unfold Switch.switch_or_stall. apply no_err_bind; [apply schedule_next_no_err|]. intros []; [done|].
  intros w e. unfold Switch.stall_outcome. destruct (network_wait _); [done|]. by destruct (Switch.blocked_on_terminal_input _).
Qed.

(** * Steps that keep the invariant *)
(** Work done without a switch: the parked tasks are among those there were, but
    for groups made with an id from [n] on, and their groups' maps are in store as
    they were. *)
Definition besides (n : Z) w w' : Prop :=
  group_of w' = group_of w ∧ next_of w ≤ next_of w' ∧
  ∀ i, i ∈ idents (tasks_of w') → i_tgid i ≠ group_of w →
    n ≤ i_tgid i ∨ i ∈ idents (tasks_of w) ∧ maps_of w' !! i_tgid i = maps_of w !! i_tgid i.
Lemma besides_refl n w : besides n w w.
Proof. split; [done|]. split; [done|]. auto. Qed.
Lemma besides_trans n m w w1 w2 : n ≤ m → besides n w w1 → besides m w1 w2 → besides n w w2.
Proof.
  intros Hm (Hg & Hn & Hi) (Hg' & Hn' & Hi'). split; [congruence|]. split; [lia|]. intros i Hin Hne.
  destruct (Hi' i Hin ltac:(congruence)) as [?|[Hin1 E1]]; [left; lia|]. destruct (Hi i Hin1 Hne) as [?|[? E]]; [by left|].
  right. split; [done|congruence].
Qed.
Lemma quiet_besides n w w' : quiet w w' → besides n w w'.
Proof.
  intros Hq. split; [apply (q_group _ _ Hq)|]. split; [by rewrite (q_next _ _ Hq)|].
  rewrite (q_parked _ _ Hq), (q_maps _ _ Hq). auto.
Qed.
Definition ok_after w w' : Prop := running_ok w → running_ok w' ∧ besides (next_of w) w w'.
#[export] Instance ok_after_preorder : PreOrder ok_after.
Proof.
  split; unfold ok_after; [by intros w ?; split; [|apply besides_refl]|].
  intros w w1 w2 H1' H2' Hw. destruct (H1' Hw) as [Hw1 Hb1], (H2' Hw1) as [Hw2 Hb2]. split; [done|].
  eapply besides_trans; [|exact Hb1|exact Hb2]. apply Hb1.
Qed.
Lemma quiet_ok_after w w' : quiet w w' → ok_after w w'.
Proof. intros Hq Hr. split; [by eapply quiet_running_ok|by apply quiet_besides]. Qed.
Lemma keeps_ok {A} (m : stm machine Z A) : keeps quiet m → keeps ok_after m.
Proof. apply keeps_mono, quiet_ok_after. Qed.

(** A call of the kernel: between calls the invariant holds again, unless the
    machine stops. *)
(** The address spaces across a call: a parked task's group that was not on the CPU
    before the call and is not after it has the map it had in store; a group that
    took the CPU was parked and woke up in the map it had in store. Groups with an
    id from [n] on were made by the call. *)
Definition conserved (n : Z) w w' : Prop :=
  (∀ i, i ∈ idents (tasks_of w') → i_tgid i ≠ group_of w → i_tgid i ≠ group_of w' →
    n ≤ i_tgid i ∨ i ∈ idents (tasks_of w) ∧ maps_of w' !! i_tgid i = maps_of w !! i_tgid i) ∧
  (group_of w' ≠ group_of w → n ≤ group_of w' ∨
    ∃ i, i ∈ idents (tasks_of w) ∧ i_tgid i = group_of w' ∧ woke_in w' (maps_of w !! group_of w')).
Definition settled (n : Z) w (x : machine * res Z Outcome) : Prop :=
  match x.2 with Ok (Exit _) | Panic => True | _ => running_ok x.1 ∧ conserved n w x.1 end.
Definition call_ok (m : stm machine Z Outcome) : Prop := ∀ w, running_ok w → settled (next_of w) w (m w).

Lemma besides_conserved n w w' : besides n w w' → conserved n w w'.
Proof. intros (Hg & _ & Hi). split; [intros; by apply Hi|done]. Qed.
Lemma conserved_after n m w w1 w2 : n ≤ m → besides n w w1 → conserved m w1 w2 → conserved n w w2.
Proof.
  intros Hm (Hg & _ & Hi) [Hc Hw]. split.
  - intros i Hin Hne Hne'. destruct (Hc i Hin ltac:(congruence) Hne') as [?|[Hin1 E1]]; [left; lia|].
    destruct (Hi i Hin1 Hne) as [?|[? E]]; [by left|]. right. split; [done|congruence].
  - intros Hne. destruct (Hw ltac:(congruence)) as [?|(i & Hin & Ei & Hwoke)]; [left; lia|].
    destruct (Hi i Hin ltac:(congruence)) as [?|[? E]]; [left; lia|]. right. exists i. split; [done|]. split; [done|].
    by rewrite <- Ei, <- E, Ei.
Qed.
Lemma settled_after n m w w1 x : n ≤ m → besides n w w1 → settled m w1 x → settled n w x.
Proof.
  unfold settled. intros Hm Hb. destruct x as [w2 [[| |e]|e|]]; cbn; [| |done| |done];
    (intros [Hr Hc]; split; [done|by eapply conserved_after]).
Qed.
Lemma ok_settled n w w' r : n ≤ next_of w → ok_after w w' → running_ok w → settled n w (w', r).
Proof.
  intros Hn Ho Hw. destruct (Ho Hw) as [Hr Hb]. apply (settled_after n (next_of w) w w); [done|apply besides_refl|].
  unfold settled. destruct r as [[]| |]; cbn; auto using besides_conserved.
Qed.
Lemma call_bind {A} (m : stm machine Z A) k : keeps ok_after m → (∀ a, call_ok (k a)) → call_ok (sbind m k).
Proof.
  intros Hm Hk w Hw. specialize (Hm w). unfold sbind. destruct (m w) as [w' [a|e|]]; cbn [fst] in Hm; [|by apply ok_settled|done].
  destruct (Hm Hw) as [Hw' Hb]. eapply settled_after; [|exact Hb|by apply Hk]. apply Hb.
Qed.
Lemma call_ret r : call_ok (λ w, (w, r)).
Proof. intros w Hw. by apply ok_settled. Qed.
Lemma call_value v : call_ok (sret (Value v)).
Proof. apply call_ret. Qed.
Lemma call_switched : call_ok (sret Switched).
Proof. apply call_ret. Qed.
Lemma call_exit e : call_ok (sret (Exit e)).
Proof. done. Qed.
Lemma call_fail e : call_ok (sfail e).
Proof. apply call_ret. Qed.
Lemma switch_call w :
  maps_ok w → settled (next_of w) w (Switch.switch_or_stall w).
Proof.
  intros Hw. pose proof (switch_or_stall_no_err w) as Hn.
  destruct (Switch.switch_or_stall w) as [w' [o|e|]] eqn:E; cbn in *; [|by destruct (Hn e)|done].
  pose proof (switch_or_stall_ok _ _ _ Hw E) as Ho. destruct o; [done| |done].
  destruct Ho as (Hperm & Hr & Hwoke & Hsp). split; [done|]. destruct Hr as [_ Hr]. cbn. split.
  - intros i Hin Hne Hne'. right. assert (i ∈ idents (tasks_of w)) as Hin' by (rewrite <- Hperm; by right). split; [done|].
    specialize (Hsp i Hin' ltac:(congruence)). unfold space in Hsp. by rewrite !(proj2 (Z.eqb_neq _ _)) in Hsp by done.
  - intros Hne. right. exists (ident (proc w')). split; [rewrite <- Hperm; by left|]. split; [done|].
    rewrite <- Hr. unfold space in Hwoke. rewrite (proj2 (Z.eqb_neq _ _)) in Hwoke by congruence. done.
Qed.
Lemma call_switch : call_ok Switch.switch_or_stall.
Proof. intros w [Hw _]. by apply switch_call. Qed.
Lemma park_besides st w n : running_ok w → besides n w (Switch.park_current st w).
Proof.
  intros Hw. split; [done|]. split; [done|]. destruct (park_current_ok st w Hw) as (_ & -> & _).
  intros i [Hi|Hi%list_elem_of_singleton]%elem_of_app Hne; [by right|]. destruct Hne. rewrite Hi. apply Hw.
Qed.
Lemma call_park st : call_ok (do! _ <- modify (Switch.park_current st) in Switch.switch_or_stall).
Proof.
  intros w Hw. destruct (park_current_ok st w Hw) as [Hm _]. unfold sbind, modify.
  eapply settled_after; [|by apply (park_besides st)|by apply switch_call]. done.
Qed.
#[local] Hint Resolve call_value call_switched call_exit call_fail call_switch call_park : keeps.

(** Basic steps. *)
Lemma gets_ok {A} (f : machine → A) : keeps (E:=Z) ok_after (gets f).
Proof. by intros w. Qed.
Lemma attempt_ok {A} (m : stm machine Z A) : keeps quiet m → keeps ok_after (Switch.attempt m).
Proof. intros Hm. by apply keeps_ok, keeps_attempt. Qed.
Lemma write_ok addr b : keeps ok_after (Copy.write_mem addr b).
Proof. apply keeps_ok, keeps_write. Qed.
Lemma read_ok addr n : keeps ok_after (Copy.read_mem addr n).
Proof. apply keeps_ok, keeps_read. Qed.
Lemma deliver_ok : keeps ok_after Switch.deliver_signal.
Proof. apply keeps_ok, deliver_signal_quiet. Qed.
Lemma core_ok f w : ok_after w (on_core f w).
Proof. apply quiet_ok_after, quiet_core. Qed.
Lemma heap_ok f w : ok_after w (on_heap f w).
Proof. apply quiet_ok_after, quiet_heap. Qed.
Lemma proc_ok p w : tgid p = tgid (proc w) → ok_after w (put_proc p w).
Proof. intros Hp [Hm Hr]. split; [split; [exact Hm|]; cbn; by rewrite Hp|].
  split; [done|]. split; [done|]. auto. Qed.
Lemma prepare_ok b : keeps ok_after (Switch.prepare_resume b).
Proof. apply keeps_ok. unfold Switch.prepare_resume. keep. Qed.
#[local] Hint Resolve gets_ok attempt_ok write_ok read_ok deliver_ok core_ok heap_ok proc_ok prepare_ok : keeps.
#[local] Hint Extern 1 (tgid _ = tgid _) => reflexivity : keeps.
Ltac calls :=
  repeat (intros; match goal with
    | |- call_ok (sbind (modify (Switch.park_current _)) _) => apply call_park
    | |- call_ok (sbind _ _) => apply call_bind
    | |- call_ok (if ?b then _ else _) => destruct b
    | |- call_ok (match ?x with _ => _ end) => destruct x
    end); keep.

(** * The lists of tasks *)
Lemma wake_loop_idents addr n k l : idents (C:=CpuSnapshot) (Sched.wake_loop addr n k l).1 = idents l.
Proof.
  revert k. induction l as [|t l IH]; intros k; [done|]. cbn [Sched.wake_loop]. destruct (n <=? k); [done|].
  assert (Hc : ∀ k t', ident (t_proc t') = ident (t_proc t) →
    idents (let '(l, m) := Sched.wake_loop addr n k l in (t' :: l, m)).1 = idents (t :: l)).
  { intros k' t' Ht. specialize (IH k'). destruct (Sched.wake_loop addr n k' l) as [l' m]. unfold idents in *. cbn in *.
    by rewrite Ht, IH. }
  destruct (t_state t); try (by apply Hc). destruct (_ && _); by apply Hc.
Qed.
Lemma take_report_idents parent filter l : idents (C:=CpuSnapshot) (Sched.take_report parent filter l).1 = idents l.
Proof.
  induction l as [|t l IH]; [done|]. cbn [Sched.take_report].
  assert (Hc : idents (let '(l, r) := Sched.take_report parent filter l in (t :: l, r)).1 = idents (t :: l)).
  { destruct (Sched.take_report parent filter l) as [l' r]. unfold idents in *. cbn in *. by rewrite IH. }
  destruct (Sched.child_matches _ _ _ _); [|done]. by destruct (stop_report _).
Qed.
Lemma futex_wake_ok addr n : keeps ok_after (Calls.wake_futex addr n).
Proof.
  apply keeps_ok. intros w. unfold Calls.wake_futex, Sched.futex_wake. pose proof (wake_loop_idents addr n 0 (tasks_of w)) as Hi.
  unfold tasks_of in Hi. destruct (Sched.wake_loop _ _ _ _) as [l m]. by split.
Qed.
Lemma take_zombie_ok p f : keeps ok_after (Calls.sched_op (Sched.take_zombie p f)).
Proof.
  apply keeps_ok. intros w. unfold Calls.sched_op, Sched.take_zombie. destruct (Sched.position _ _); [by split|].
  by destruct w as [[? ? ? ? [? []]] ? ?].
Qed.
Lemma take_stop_report_ok p f : keeps ok_after (Calls.sched_op (Sched.take_stop_report p f)).
Proof.
  apply keeps_ok. intros w. unfold Calls.sched_op, Sched.take_stop_report. pose proof (take_report_idents p f (tasks_of w)) as Hi.
  unfold tasks_of in Hi. destruct (Sched.take_report _ _ _) as [l m]. by split.
Qed.
#[local] Hint Resolve futex_wake_ok take_zombie_ok take_stop_report_ok : keeps.

(** A change of the parked tasks that keeps who they are. *)
Lemma tasks_quiet (f : Tasks CpuSnapshot V → Tasks CpuSnapshot V) w :
  ident (cur (f (tasks (env w)))) = ident (cur (tasks (env w))) →
  idents (parked (sched (f (tasks (env w))))) = idents (parked (sched (tasks (env w)))) →
  group_maps (sched (f (tasks (env w)))) = group_maps (sched (tasks (env w))) →
  next_pid (sched (f (tasks (env w)))) = next_pid (sched (tasks (env w))) → quiet w (on_tasks f w).
Proof. by split. Qed.
Lemma raise_at_idents i bit (l : list (ParkedTask CpuSnapshot)) : idents (Sig.raise_at i bit l) = idents l.
Proof.
  destruct i as [i|]; [|done]. unfold Sig.raise_at, idents. revert i. induction l as [|t l IH]; intros [|i]; [done..|].
  cbn. by rewrite IH.
Qed.
Lemma notify_parent_quiet p w : quiet w (Switch.notify_parent p w).
Proof.
  apply tasks_quiet; unfold Sig.notify_parent_sigchld; (destruct (negb _); [done|]);
    destruct (Sig.choose _ _ _ _ _ _ _) as [u f]; [done| |done..]. apply raise_at_idents.
Qed.
Lemma mark_stopped_quiet s w : quiet w (on_tasks (Sig.mark_stopped s) w).
Proof. apply tasks_quiet; [done| |done..]. apply idents_map. intros t. by destruct (_ =? _). Qed.
Lemma signal_process_quiet target s w :
  quiet w (on_tasks (λ _, (Sig.signal_process (shared (env w)) target s (tasks (env w))).1) w).
Proof.
  apply tasks_quiet; unfold Sig.signal_process; (destruct (_ || _); [done|]); (destruct (_ =? target); [by destruct (acts_on_signal _ _ _)|]);
    destruct (Sig.choose _ _ _ _ _ _ _) as [u f]; [done| |done..]. apply raise_at_idents.
Qed.

(** * The calls *)
Lemma block_call st restart : call_ok (Switch.block_and_switch st restart).
Proof. unfold Switch.block_and_switch. calls. Qed.
Lemma park_zero_call st : call_ok (Calls.park_returning_zero st).
Proof. unfold Calls.park_returning_zero. calls. Qed.
#[local] Hint Resolve block_call park_zero_call : keeps.
Lemma notify_ok p w : ok_after w (Switch.notify_parent p w).
Proof. apply quiet_ok_after, notify_parent_quiet. Qed.
Lemma mark_stopped_ok s w : ok_after w (on_tasks (Sig.mark_stopped s) w).
Proof. apply quiet_ok_after, mark_stopped_quiet. Qed.
#[local] Hint Resolve notify_ok mark_stopped_ok : keeps.
Lemma stop_call s restart : call_ok (Switch.stop_thread_group s restart).
Proof. unfold Switch.stop_thread_group. calls. Qed.
#[local] Hint Resolve stop_call : keeps.

Lemma fire_ok f w : ok_after w (Calls.fire f w).
Proof. apply quiet_ok_after. by destruct f. Qed.
Lemma release_vfork_ok w : ok_after w (Calls.release_vfork w).
Proof. unfold Calls.release_vfork. etrans; [apply fire_ok|]. apply proc_ok. by destruct (vfork_done _). Qed.
Lemma drop_tasks_quiet l w : quiet w (Calls.drop_tasks l w).
Proof.
  revert w. induction l as [|t l IH]; intros w; [done|]. cbn. etrans; [|apply IH]. apply quiet_heap.
Qed.
Lemma parked_sublist_ok w l :
  (∀ i, i ∈ idents l → i ∈ idents (tasks_of w)) → ok_after w (on_sched (set_parked l) w).
Proof.
  intros Hl [(Hg & Hn & Hf) Hr]. split.
  - split; [|done]. split; [done|]. split; [done|]. apply Forall_forall. intros i Hi. apply (proj1 (Forall_forall _ _) Hf). by apply Hl.
  - split; [done|]. split; [done|]. intros i Hi _. right. split; [by apply Hl|done].
Qed.
Lemma kill_siblings_ok g w : ok_after w (Calls.kill_siblings g w).
Proof.
  unfold Calls.kill_siblings. etrans; [|apply quiet_ok_after, drop_tasks_quiet]. apply parked_sublist_ok.
  intros i (t & -> & [_ Ht]%list_elem_of_filter)%list_elem_of_fmap. apply list_elem_of_fmap. eauto.
Qed.
Lemma push_zombie_ok z w : ok_after w (Calls.push_zombie z w).
Proof. by apply quiet_ok_after. Qed.
Lemma release_fds_ok w : ok_after w (Calls.release_fds w).
Proof.
  unfold Calls.release_fds. destruct (Fds.table_new _) as [t h].
  etrans; [apply (heap_ok (λ _, h))|]. etrans; [|apply heap_ok]. by apply proc_ok.
Qed.
Lemma record_exit_ok c w : ok_after w (record_exit c w).
Proof. by apply quiet_ok_after. Qed.
#[local] Hint Resolve release_vfork_ok kill_siblings_ok push_zombie_ok release_fds_ok record_exit_ok : keeps.
Lemma if_ok (b : bool) (f : machine → machine) w : ok_after w (f w) → ok_after w (if b then f w else w).
Proof. by destruct b. Qed.
#[local] Hint Resolve if_ok : keeps.

Lemma exit_call status g : call_ok (Calls.task_exit status g).
Proof. unfold Calls.task_exit. calls. Qed.
Lemma timespec_ok addr : keeps ok_after (Calls.read_timespec_at addr).
Proof. unfold Calls.read_timespec_at. keep. Qed.
Lemma report_call a b c : call_ok (Calls.report a b c).
Proof. unfold Calls.report. calls. Qed.
#[local] Hint Resolve exit_call timespec_ok report_call : keeps.
Lemma wait4_call a b c : call_ok (Calls.sys_wait4 a b c).
Proof. unfold Calls.sys_wait4. calls. Qed.
Lemma nanosleep_call a b : call_ok (Calls.outcome_nanosleep a b).
Proof. unfold Calls.outcome_nanosleep. calls. Qed.
Lemma futex_call a b c d : call_ok (Calls.sys_futex a b c d).
Proof. unfold Calls.sys_futex. calls. Qed.
Lemma yield_call : call_ok Calls.sys_yield.
Proof.
  unfold Calls.sys_yield. intros w Hw. destruct (Switch.ready_task _ _); [|by apply ok_settled].
  destruct (core_ok (Core.write_var RAX 0) w Hw) as [Hw' Hb]. eapply settled_after; [|exact Hb|by apply block_call]. done.
Qed.
Lemma dequeue_tgid sh fuel p p' a : Sig.dequeue sh fuel p = Ok (p', a) → tgid p' = tgid p.
Proof.
  revert p. induction fuel as [|fuel IH]; intros p; [done|]. cbn [Sig.dequeue].
  destruct (_ =? 0); [by intros [= <- _]|]. destruct (disposition _ _ _) as [x|].
  - destruct (x =? SIG_IGN); [intros Hd; by rewrite (IH _ Hd)|]. destruct (x =? SIG_DFL); [|by intros [= <- _]].
    destruct (default_action_terminates _); [by intros [= <- _]|].
    destruct (default_action_stops _); [by intros [= <- _]|]. intros Hd. by rewrite (IH _ Hd).
  - destruct (default_action_terminates _); [by intros [= <- _]|].
    destruct (default_action_stops _); [by intros [= <- _]|]. intros Hd. by rewrite (IH _ Hd).
Qed.
Lemma pending_action_tgid sh p p' a : Sig.pending_signal_action sh p = Ok (p', a) → tgid p' = tgid p.
Proof. unfold Sig.pending_signal_action. generalize 65%nat. intros n. apply dequeue_tgid. Qed.
Lemma resume_after_ok x w : ok_after w (Switch.resume_after_syscall x w).
Proof. apply core_ok. Qed.
#[local] Hint Resolve resume_after_ok : keeps.
Lemma sigprocmask_call a b c : call_ok (Calls.sys_rt_sigprocmask a b c).
Proof.
  unfold Calls.sys_rt_sigprocmask. calls. intros w.
  destruct (Sig.pending_signal_action (shared (env w)) (proc w)) as [[p x]|e|] eqn:E; [|done..].
  apply proc_ok. by apply (pending_action_tgid _ _ _ _ E).
Qed.
Lemma sigreturn_call : call_ok Switch.sys_rt_sigreturn.
Proof.
  intros w Hw. unfold Switch.sys_rt_sigreturn. destruct (Switch.return_frame (proc w)) as [[c p]|] eqn:E.
  - assert (Hw' : ok_after w (put_proc p (on_core (λ c', Core.set_icount (icount c') c) w))).
    { etrans; [apply (core_ok (λ c', Core.set_icount (icount c') c))|apply proc_ok]. unfold Switch.return_frame in E.
      destruct (signal_saved _); [done|]. destruct (signal_saved_mask _); [done|]. by injection E as _ <-. }
    set (w1 := put_proc _ _) in *. clearbody w1. destruct (negb _); [|by apply ok_settled]. destruct (Hw' Hw) as [Hr Hb].
    assert (call_ok (do! _ <- Switch.deliver_signal in sret Switched)) as Hc by calls.
    eapply settled_after; [|exact Hb|exact (Hc w1 Hr)]. apply Hb.
  - apply ok_settled; [done|by apply proc_ok|done].
Qed.

(** * Kill *)
Lemma kill_self_call s : call_ok (Calls.kill_self s).
Proof. unfold Calls.kill_self. calls. Qed.
Lemma job_control_ident s b p : ident (Calls.job_control s b p) = ident p.
Proof. unfold Calls.job_control. destruct (_ =? _); [by destruct b|done]. Qed.
Lemma kill_job_call t s : call_ok (Calls.kill_job_control t s).
Proof.
  intros w Hw. unfold Calls.kill_job_control. set (m := Calls.kill_matches t _).
  apply ok_settled; [done| |done]. apply quiet_ok_after, tasks_quiet; cbn.
  - destruct (m (cur (tasks (env w)))); [apply job_control_ident|done].
  - rewrite idents_map; [by destruct (m (cur (tasks (env w))))|]. intros x.
    destruct (m (t_proc x)); [apply job_control_ident|done].
  - by destruct (m (cur (tasks (env w)))).
  - by destruct (m (cur (tasks (env w)))).
Qed.
Lemma reap_loop_ok fuel target i hit w : ok_after w (Calls.reap_loop fuel target i hit w).1.
Proof.
  revert i hit w. induction fuel as [|fuel IH]; intros i hit w; [done|]. cbn [Calls.reap_loop].
  destruct (parked _ !! i) as [t|] eqn:Hi; [|done]. destruct (_ =? target); [|apply IH].
  etrans; [|apply IH]. etrans; [|apply heap_ok].
  etrans; [apply (parked_sublist_ok w (delete i (tasks_of w)))|].
  { intros x (t' & -> & Hx)%list_elem_of_fmap. apply list_elem_of_fmap. exists t'. split; [done|].
    unfold tasks_of. rewrite (delete_Permutation _ _ _ Hi). by right. }
  etrans; [apply fire_ok|]. destruct (pid _ =? _); [|done]. etrans; [apply push_zombie_ok|apply notify_ok].
Qed.
Lemma reap_loop_group fuel target i hit w : group_of (Calls.reap_loop fuel target i hit w).1 = group_of w.
Proof.
  revert i hit w. induction fuel as [|fuel IH]; intros i hit w; [done|]. cbn [Calls.reap_loop].
  destruct (parked _ !! i) as [t|]; [|done]. destruct (_ =? target); rewrite IH; [|done].
  unfold Calls.fire. destruct (vfork_done _), (pid _ =? _); done.
Qed.
(** The stored map of a group without parked tasks may go, unless it runs. *)
Lemma forget_map_ok target w :
  target ≠ group_of w → Sched.group_has_parked target (sched (tasks (env w))) = false →
  ok_after w (on_sched (λ s, Switch.set_group_maps (delete target (group_maps s)) s) w).
Proof.
  intros Hne Hp [(Hg & Hn & Hf) Hr].
  assert (Hgone : ∀ i, i ∈ idents (tasks_of w) → target ≠ i_tgid i).
  { intros i (t & -> & Hin)%list_elem_of_fmap Ht. enough (Sched.group_has_parked target (sched (tasks (env w))) = true) by congruence.
    apply existsb_exists. exists t. split; [by apply list_elem_of_In|]. by apply Z.eqb_eq. }
  split; [|split; [done|split; [done|]]; intros i Hi _; right; split; [done|]; apply lookup_delete_ne, (Hgone i Hi)].
  split; [|done]. split; [done|]. split; [done|].
  apply Forall_forall. intros i Hi. pose proof (proj1 (Forall_forall _ _) Hf i Hi) as Hm. rewrite mapped_iff in *.
  destruct Hm as [H0' [Hm|Hm]]; (split; [done|]); [by left|right].
  change (maps_of _) with (delete target (maps_of w)). rewrite lookup_delete_ne; [done|]. by apply Hgone.
Qed.
Lemma reap_ok target w : target ≠ group_of w → ok_after w (Calls.reap target w).1.
Proof.
  intros Hne. unfold Calls.reap. set (n := length _). pose proof (reap_loop_ok n target 0 false w) as Hl.
  pose proof (reap_loop_group n target 0 false w) as Hg. destruct (Calls.reap_loop n target 0 false w) as [w' hit].
  cbn [fst] in *. destruct (hit && negb _) eqn:Hh; [|done]. etrans; [exact Hl|]. apply forget_map_ok; [congruence|].
  apply andb_true_iff in Hh as [_ Hh]. by apply negb_true_iff in Hh.
Qed.
Lemma reap_group target w : group_of (Calls.reap target w).1 = group_of w.
Proof.
  unfold Calls.reap. set (n := length _). pose proof (reap_loop_group n target 0 false w) as Hg.
  destruct (Calls.reap_loop n target 0 false w) as [w' hit]. by destruct (_ && _).
Qed.
Lemma kill_all_ok s l found w :
  Forall (λ x, x ≠ group_of w) l → ok_after w (Calls.kill_all s l found w).1.
Proof.
  intros Hl. revert found w Hl. induction l as [|x l IH]; intros found w Hl; [done|]. cbn [Calls.kill_all].
  apply Forall_cons in Hl as [Hx Hl].
  assert (Hone : ok_after w (Calls.kill_one s x w).1 ∧ group_of (Calls.kill_one s x w).1 = group_of w).
  { unfold Calls.kill_one. destruct (s =? SIGKILL); [split; [by apply reap_ok|apply reap_group]|].
    pose proof (signal_process_quiet x s w) as Hq. destruct (Sig.signal_process _ _ _ _) as [t f].
    split; [by apply quiet_ok_after|done]. }
  destruct Hone as [Ho Hg]. destruct (Calls.kill_one s x w) as [w' hit]. cbn [fst] in *.
  etrans; [exact Ho|]. apply IH. by rewrite Hg.
Qed.
Lemma sorted_unique_Forall (P : Z → Prop) l : Forall P l → Forall P (Calls.sorted_unique l).
Proof.
  intros Hl. unfold Calls.sorted_unique. apply Forall_map.
  assert (Hm : Forall (λ e : Z * (), P e.1) []) by constructor. revert Hm.
  generalize ([] : btree Z ()). induction Hl as [|x l Hx Hl IH]; intros m Hm; [done|]. cbn. by apply IH, bt_insert_Forall.
Qed.
Lemma victims_ok target (t : Tasks CpuSnapshot V) l :
  target ≠ tgid (cur t) → Calls.victims target t = Ok l → Forall (λ x, x ≠ tgid (cur t)) l.
Proof.
  intros Hne. unfold Calls.victims. destruct (target =? -1); [done|]. destruct (target <=? 0).
  - destruct (_ && _); [done|]. intros [= <-]. apply sorted_unique_Forall, Forall_map, Forall_forall.
    by intros x [[_ Hx] _]%list_elem_of_filter.
  - intros [= <-]. by apply Forall_singleton.
Qed.
Lemma kill_victims_call l s w :
  running_ok w → Forall (λ x, x ≠ group_of w) l →
  let m := do! found <- (λ w, let '(w, f) := Calls.kill_all s l false w in (w, Ok f)) in
           (if found : bool then sret (Value 0) else sfail ESRCH) in
  settled (next_of w) w (m w).
Proof.
  intros Hw Hl m. unfold m, sbind. pose proof (kill_all_ok s l false w Hl) as Hk.
  destruct (Calls.kill_all s l false w) as [w' f]. destruct f; by apply ok_settled.
Qed.
Lemma kill_call a s : call_ok (Calls.sys_kill a s).
Proof.
  intros w Hw. unfold Calls.sys_kill. destruct (NSIG <? s); [by apply call_fail|].
  unfold sbind at 1, gets.
  destruct (s =? 0); [destruct (_ || existsb _ _); [by apply call_value|by apply call_fail]|].
  destruct ((as_i32 a =? tgid (cur (tasks (env w)))) || _) eqn:Hself; [by apply kill_self_call|].
  destruct (_ || default_action_stops s); [by apply kill_job_call|].
  apply orb_false_iff in Hself as [Hself _]. apply Z.eqb_neq in Hself.
  pose proof (victims_ok (as_i32 a) (tasks (env w))) as Hv. unfold sbind at 1, query.
  destruct (Calls.victims (as_i32 a) (tasks (env w))) as [l|e|]; [|by apply ok_settled|done].
  apply kill_victims_call; [done|]. rewrite <- (proj2 Hw). by apply Hv.
Qed.

(** * Clone *)
Lemma take_pid_ok w : ok_after w (Calls.fresh_pid w).1 ∧
  ∀ n, (Calls.fresh_pid w).2 = Ok n → n = next_of w.
Proof.
  unfold Calls.fresh_pid, Sched.take_pid, add64. destruct (Z.leb_spec (next_pid (sched (tasks (env w))) + 1) U64_MAX).
  - split; [|cbn; intros n [= <-]; done]. intros [(Hg & Hn & Hf) Hr]. split.
    + split; [|done]. split; [done|]. split; [unfold next_of in *; cbn; lia|exact Hf].
    + split; [done|]. split; [unfold next_of; cbn; lia|]. auto.
  - split; [|done]. apply quiet_ok_after. by destruct w as [[? ? ? ? [? []]] ? ?].
Qed.
(** The child of a thread is of the caller's group; a fork leads its own. *)
Lemma child_process_ok spec child w :
  quiet w (Calls.child_process spec child w).1 ∧
  ∀ p, (Calls.child_process spec child w).2 = Ok p → tgid p = if Calls.is_thread spec then tgid (proc w) else child.
Proof.
  unfold Calls.child_process. destruct (Calls.is_thread spec).
  { unfold Procs.thread_sibling. split; [done|]. by intros p [= <-]. }
  unfold Procs.fork_child. destruct (Fds.table_clone _ _) as [h [t|e|]]; [|done..]. cbn [rbind].
  destruct (cells _ !! _); [|done]. cbn [expect rbind]. destruct (cells _ !! _); [|done]. cbn [expect rbind].
  destruct (sigtables _ !! _); [|done]. cbn. split; [done|]. by intros p [= <-].
Qed.
Lemma child_memory_ok spec w :
  quiet w (Calls.child_memory spec w).1 ∧
  ∀ m, (Calls.child_memory spec w).2 = Ok m → Calls.is_thread spec = false → is_Some m.
Proof.
  unfold Calls.child_memory. destruct (Calls.is_thread spec); [done|].
  destruct (snapshot_virtual_mapping _) as [v m']. split; [done|]. intros m [= <-] _. eauto.
Qed.
Lemma child_cpu_quiet spec : keeps quiet (Calls.child_cpu (B:=B) (M:=M) (V:=V) spec).
Proof. unfold Calls.child_cpu, Switch.prepare_resume. keep. Qed.
Lemma set_child_tid_ok addr child m w :
  quiet w (Calls.set_child_tid addr child m w).1 ∧
  ∀ m', (Calls.set_child_tid addr child m w).2 = Ok m' → is_Some m → is_Some m'.
Proof.
  unfold Calls.set_child_tid. destruct m as [map|].
  - unfold sbind. destruct (take_virtual_mapping (mem w)) as [v m0].
    set (w1 := put_mem _ w). pose proof (keeps_attempt _ (keeps_write addr (le_bytes 4 child)) w1) as Hq.
    assert (Hq' : quiet w (Switch.attempt (Copy.write_mem addr (le_bytes 4 child)) w1).1) by (by trans w1). clear Hq.
    destruct (Switch.attempt _ w1) as [w2 [b|e|]]; cbn [fst snd] in *; [|by split..].
    destruct (take_virtual_mapping (mem w2)). split; [by trans w2|]. intros m' [= <-] _. eauto.
  - unfold sbind. pose proof (keeps_attempt _ (keeps_write addr (le_bytes 4 child)) w) as Hq.
    destruct (Switch.attempt _ w) as [w2 [b|e|]]; cbn [fst snd] in *; (split; [exact Hq|]); [|done..].
    intros m' [= <-] [? ?]. done.
Qed.
(** A child with its map, or a thread of the running group. *)
Lemma add_child_ok child p c map w :
  tgid p = tgid (proc w) ∨ tgid p = child ∧ is_Some map ∧ child ≠ 0 → running_ok w →
  running_ok (Calls.add_child child p c map w) ∧ besides child w (Calls.add_child child p c map w).
Proof.
  intros Hp [(Hg & Hn & Hf) Hr]. split.
  2: { split; [done|]. split; [done|]. unfold tasks_of, idents. cbn. rewrite map_app. intros i [Hi|Hi%list_elem_of_singleton]%elem_of_app Hne.
    - destruct (decide (child = i_tgid i)) as [->|Hc]; [by left|right]. split; [done|]. unfold maps_of. cbn.
      destruct map; [by rewrite lookup_insert_ne|done].
    - left. rewrite Hi in *. change (i_tgid _) with (tgid p) in *. destruct Hp as [Hp|[-> _]]; [by destruct Hne; rewrite Hp|done]. }
  split; [|done]. split; [done|]. split; [done|].
  assert (Hmono : ∀ i, mapped w i → mapped (Calls.add_child child p c map w) i).
  { intros i. rewrite !mapped_iff. intros [? Hi]. split; [done|]. destruct Hi as [?|Hi]; [by left|right].
    unfold maps_of. cbn. destruct map; [|done]. destruct (decide (child = i_tgid i)) as [->|];
      [rewrite lookup_insert_eq; eauto|by rewrite lookup_insert_ne]. }
  unfold tasks_of, idents. cbn. rewrite map_app. apply Forall_app. split.
  - eapply Forall_impl; [exact Hf|exact Hmono].
  - apply Forall_singleton. apply mapped_iff. change (i_tgid _) with (tgid p).
    destruct Hp as [->|(-> & [m ->] & Hc)]; [rewrite Hr; auto|]. split; [done|]. right.
    unfold maps_of. cbn. rewrite lookup_insert_eq. eauto.
Qed.

(** A state [w'] reached from [w], the tasks and maps as they were. *)
Lemma quiet_proc_tgid w w' : quiet w w' → tgid (proc w') = tgid (proc w).
Proof. intros Hq. apply (f_equal i_tgid (q_cur _ _ Hq)). Qed.

Lemma clone_parts_ok spec child w :
  quiet w (Calls.clone_parts spec child w).1 ∧
  ∀ p c map, (Calls.clone_parts spec child w).2 = Ok (p, c, map) →
    tgid p = tgid (proc w) ∨ tgid p = child ∧ is_Some map.
Proof.
  unfold Calls.clone_parts. unfold sbind at 1 5. destruct (child_process_ok spec child w) as [Hq1 Hp].
  destruct (Calls.child_process spec child w) as [w1 [p|e|]]; cbn [fst snd] in *; [|done..]. specialize (Hp p eq_refl).
  set (p' := if has_flag _ CLONE_CHILD_CLEARTID then _ else p).
  assert (Hp' : tgid p' = tgid p) by (unfold p'; by destruct (has_flag _ _)). clearbody p'.
  destruct (child_memory_ok spec w1) as [Hq2 Hm]. unfold sbind at 1 4.
  destruct (Calls.child_memory spec w1) as [w2 [map|e|]]; cbn [fst snd] in *; [|by split; [etrans|]..].
  specialize (Hm map eq_refl). pose proof (child_cpu_quiet spec w2) as Hq3. unfold sbind at 1 3.
  destruct (Calls.child_cpu spec w2) as [w3 [c|e|]]; cbn [fst snd] in *; [|by split; [do 2 (etrans; [done|])|]..].
  assert (Hq : quiet w w3) by (do 2 (etrans; [done|]); done). clear Hq1 Hq2 Hq3. unfold sbind at 1 2.
  assert (Hpost : ∀ map' : option V, (is_Some map → is_Some map') → tgid p' = tgid (proc w) ∨ tgid p' = child ∧ is_Some map').
  { intros map' Hmm. rewrite Hp', Hp. destruct (Calls.is_thread spec); [by left|right]. auto. }
  destruct (_ && _).
  - destruct (set_child_tid_ok (child_tid spec) child map w3) as [Hq4 Hm4].
    destruct (Calls.set_child_tid _ _ _ _) as [w4 [map'|e|]]; cbn [fst snd] in *; [|by split; [etrans|]..].
    split; [by etrans|]. intros ? ? ? [= <- _ <-]. auto.
  - split; [done|]. intros ? ? ? [= <- _ <-]. auto.
Qed.

(** The end of a clone, once the child and its map are ready. *)
Definition clone_end (spec : CloneSpec) (child : Z) (p : Process) (c : CpuSnapshot) (map : option V) : stm machine Z Outcome :=
  if has_flag (c_flags spec) CLONE_VFORK then
    do! flag <- (λ w, let '(w, f) := Calls.new_flag w in (w, Ok f)) in
    do! _ <- modify (Calls.add_child child (with_vfork (Some flag) p) c map) in
    do! _ <- modify (on_core (Core.write_var RAX child)) in
    Switch.block_and_switch (VforkDone flag) false
  else
    do! _ <- modify (Calls.add_child child p c map) in
    sret (Value child).
Lemma clone_end_call spec child p c map w :
  running_ok w → child ≤ next_of w → tgid p = tgid (proc w) ∨ tgid p = child ∧ is_Some map ∧ child ≠ 0 →
  settled child w (clone_end spec child p c map w).
Proof.
  intros Hw Hle Hp. unfold clone_end. destruct (has_flag _ _).
  - unfold sbind, modify. destruct (Calls.new_flag w) as [w1 flag] eqn:Ef.
    assert (quiet w w1) as Hq by (unfold Calls.new_flag in Ef; by injection Ef as <- _). pose proof (quiet_running_ok _ _ Hq Hw) as Hw1.
    rewrite <- (quiet_proc_tgid _ _ Hq) in Hp. rewrite <- (q_next _ _ Hq) in Hle.
    match goal with |- context [Calls.add_child child ?p' c map w1] => destruct (add_child_ok child p' c map w1 Hp Hw1) as [Hw2 Hb2] end.
    destruct (core_ok (Core.write_var RAX child) _ Hw2) as [Hw3 _].
    eapply (settled_after _ child); [done|exact (quiet_besides child _ _ Hq)|]. eapply (settled_after _ child); [done|exact Hb2|].
    eapply settled_after; [|apply quiet_besides, quiet_core|by apply block_call]. done.
  - unfold sbind, modify. destruct (add_child_ok child p c map w Hp Hw) as [Hw1 Hb1].
    split; [done|]. by apply besides_conserved.
Qed.

Lemma clone_call spec : call_ok (Calls.sys_clone_impl spec).
Proof.
  intros w Hw. unfold Calls.sys_clone_impl. unfold sbind at 1. destruct (take_pid_ok w) as [Ht Hn].
  pose proof (proj1 (proj2 (proj1 Hw))) as Hpos.
  destruct (Calls.fresh_pid w) as [w1 [child|e|]] eqn:Hpid; cbn [fst snd] in *; [|by apply ok_settled|done].
  specialize (Hn child eq_refl). destruct (Ht Hw) as [Hw1 Hb1]. rewrite <- Hn in Hb1 |- *.
  apply (settled_after child child w w1); [done..|]. unfold sbind at 1.
  assert (child ≤ next_of w1) as Hle by (rewrite Hn; apply Hb1).
  assert (Htold : keeps quiet (if has_flag (c_flags spec) CLONE_PARENT_SETTID && negb (parent_tid spec =? 0)
    then Switch.attempt (Copy.write_mem (parent_tid spec) (le_bytes 4 child)) else sret (S:=machine) (E:=Z) true)) by keep.
  specialize (Htold w1).
  match type of Htold with quiet _ (?m w1).1 => destruct (m w1) as [w2 [[]|e|]]; cbn [fst] in Htold end; cbn [negb];
    [|by apply ok_settled; [|apply quiet_ok_after|]..|done].
  pose proof (quiet_running_ok _ _ Htold Hw1) as Hw2. rewrite <- (q_next _ _ Htold) in Hle.
  apply (settled_after child child w1 w2); [done|by apply quiet_besides|]. unfold sbind at 1.
  destruct (clone_parts_ok spec child w2) as [Hq3 Hp3].
  destruct (Calls.clone_parts spec child w2) as [w3 [[[p c] map]|e|]]; cbn [fst snd] in *; [|by apply ok_settled; [|apply quiet_ok_after|]|done].
  rewrite <- (q_next _ _ Hq3) in Hle. apply (settled_after child child w2 w3); [done|by apply quiet_besides|].
  apply (clone_end_call spec child p c map); [by eapply quiet_running_ok|done|].
  rewrite (quiet_proc_tgid _ _ Hq3). destruct (Hp3 p c map eq_refl) as [?|[? ?]]; [by left|right]. split_and!; [done..|lia].
Qed.
End calls.

(** * Sequences of calls *)
Inductive proc_call :=
| KExit (status : Z) (group : bool)
| KClone (spec : CloneSpec)
| KWait (pid status options : Z)
| KFutex (addr op val timeout : Z)
| KSleep (req : Z) (absolute : bool)
| KYield
| KKill (target signal : Z)
| KSigmask (how new old : Z)
| KSigreturn
| KBlock (st : ParkState) (restart : bool).

Section runs.
Context `{Host} {B : Type} `{NetworkBroker B} {M V : Type} `{GuestMemoryLaws M V}.

Definition run_call (c : proc_call) : stm (Machine B M V) Z Outcome :=
  match c with
  | KExit s g => Calls.task_exit s g
  | KClone spec => Calls.sys_clone_impl spec
  | KWait a b c => Calls.sys_wait4 a b c
  | KFutex a b c d => Calls.sys_futex a b c d
  | KSleep a b => Calls.outcome_nanosleep a b
  | KYield => Calls.sys_yield
  | KKill a b => Calls.sys_kill a b
  | KSigmask a b c => Calls.sys_rt_sigprocmask a b c
  | KSigreturn => Switch.sys_rt_sigreturn
  | KBlock st r => Switch.block_and_switch st r
  end.

(** Guest code between the calls changes registers and memory only. *)
Inductive kstep (w : Machine B M V) : Machine B M V → Prop :=
| step_guest c m : kstep w {| env := env w; core := c; mem := m |}
| step_call k w' r : run_call k w = (w', r) → (∀ e, r ≠ Ok (Exit e)) → r ≠ Panic → kstep w w'.

Lemma run_call_ok k : call_ok (run_call k).
Proof.
  destruct k; [apply exit_call|apply clone_call|apply wait4_call|apply futex_call|apply nanosleep_call|apply yield_call|
    apply kill_call|apply sigprocmask_call|apply sigreturn_call|apply block_call].
Qed.
Lemma kstep_ok w w' : kstep w w' → running_ok w → running_ok w' ∧ conserved (next_of w) w w'.
Proof.
  intros [c m|k w1 r Hk He Hp] Hw.
  - split; [|by apply besides_conserved, quiet_besides]. destruct Hw as [(Hg & Hn & Hf) Hr]. split; [|done]. split; [done|]. split; [done|].
    eapply Forall_impl; [exact Hf|]. intros i. by rewrite !mapped_iff.
  - pose proof (run_call_ok k w Hw) as Hc. rewrite Hk in Hc. unfold settled in Hc. cbn in Hc.
    destruct r as [[| |e]|e|]; [done|done|by destruct (He e)|done|done].
Qed.
End runs.

(** C8. Every task has its own address space, always: along any interleaving of
    guest execution and process calls (fork, threads, exit, wait, futexes,
    sleeping, signals, any blocking call), every parked task's group has its map,
    in the MMU or in store, so that a switch never finds one missing; and whatever
    step is taken next, a group parked before and after it keeps the very map it
    had in store, and a group that takes the CPU wakes up with that map in the
    MMU. Groups with a fresh id are those the step made. *)
Theorem reachable_tasks_mapped `{Host} {B} `{NetworkBroker B} {M V} `{GuestMemoryLaws M V} (w0 w : Machine B M V) :
  running_ok w0 → rtc kstep w0 w →
  tgid (proc w) = last_group (env w) ∧
  (∀ t, t ∈ parked (sched (tasks (env w))) → is_Some (space w (tgid (t_proc t)))) ∧
  ∀ w', kstep w w' → conserved (next_pid (sched (tasks (env w)))) w w'.
Proof.
  intros Hw0 Hs. assert (Hw : running_ok w).
  { induction Hs as [|x y z Hxy _ IH]; [done|]. apply IH. by apply (kstep_ok x y). }
  pose proof Hw as [(_ & _ & Hf) Hr]. split; [done|]. split.
  - intros t Ht. apply (proj1 (Forall_forall _ _) Hf (ident (t_proc t))). apply list_elem_of_fmap. eauto.
  - intros w' Hk. by apply kstep_ok.
Qed.

Definition fresh_machine : Machine HostBroker (gmap Z Z) (gmap Z Z) :=
  {| env := env_new Host_broker.new;
     core := {| regs := {[NEXT_PC := 4096]}; scratch := []; exception := Core.external 0; pending_exception := None;
                icount := 0; block_id := 0; block_offset := 0 |};
     mem := ∅ |}.

Lemma reachable_tasks_mapped_witness :
  ∃ w w', rtc kstep fresh_machine w ∧ length (parked (sched (tasks (env w)))) = 1%nat ∧
    (∀ t, t ∈ parked (sched (tasks (env w))) → is_Some (space w (tgid (t_proc t)))) ∧
    kstep w w' ∧ last_group (env w') = 1001 ∧ conserved 1002 w w'.
Proof.
  destruct (run_call (KClone Calls.fork_spec) fresh_machine) as [w r] eqn:E.
  destruct (run_call (KWait (-1) 0 0) w) as [w' r'] eqn:E'.
  assert (Hr : r = Ok (Value 1001)) by (change r with ((w, r).2); rewrite <- E; vm_compute; reflexivity).
  assert (Ew : w = (run_call (KClone Calls.fork_spec) fresh_machine).1) by (by rewrite E).
  assert (Hr' : r' = Ok Switched) by (change r' with ((w', r').2); rewrite <- E', Ew; vm_compute; reflexivity).
  assert (Hs : rtc kstep fresh_machine w).
  { apply rtc_once. eapply step_call; [exact E|rewrite Hr; intros e; discriminate|rewrite Hr; discriminate]. }
  assert (Hk : kstep w w') by (eapply step_call; [exact E'|rewrite Hr'; intros e; discriminate|rewrite Hr'; discriminate]).
  destruct (reachable_tasks_mapped fresh_machine w) as (_ & Hm & Hc); [|exact Hs|].
  - split; [|vm_compute; reflexivity]. split; [vm_compute; congruence|]. split; [vm_compute; reflexivity|].
    apply Forall_nil. exact I.
  - exists w, w'. split; [exact Hs|]. split; [rewrite Ew; vm_compute; reflexivity|]. split; [exact Hm|]. split; [exact Hk|].
    split; [change w' with ((w', r').1); rewrite <- E', Ew; vm_compute; reflexivity|].
    replace 1002 with (next_pid (sched (tasks (env w)))) by (rewrite Ew; vm_compute; reflexivity). exact (Hc w' Hk).
Defined.

(** * Behaviour at the edges, on concrete machines *)
(** A process alone in its group that signals the group is told there is no
    such process, and receives nothing. *)
Example kill_own_group :
  (Calls.sys_kill 0 15 fresh_machine).2 = Err ESRCH ∧
  pending_signals (proc (Calls.sys_kill 0 15 fresh_machine).1) = 0.
Proof. split; vm_compute; reflexivity. Qed.

(** A futex wait for 5 ns on a word that never changes, with nothing else to
    run: the idle clock jumps to the deadline and the wait returns 0, as if it
    had been woken, because lateness is judged by the time before the jump. *)
Definition futex_machine : Machine HostBroker (gmap Z Z) (gmap Z Z) :=
  {| env := env fresh_machine; core := core fresh_machine;
     mem := list_to_map (zip (seqZ 64 32) (replicate 24 0 ++ [5] ++ replicate 7 0)) |}.
Example futex_idle_timeout :
  let '(w, r) := Calls.sys_futex 64 FUTEX_WAIT 0 80 futex_machine in
  r = Ok Switched ∧ Core.read_var RAX (core w) = 0 ∧ now_nanos w = 5.
Proof. vm_compute. repeat split. Qed.
