(* ===== verification/Inotify.v ===== *)
(** Filesystem watches: the inotify calls of [crates/linux-compat/src/syscall.rs].

    [notify_inotify] drops the instances nothing but the registry holds. Who
    else can hold one is read off the state: an open file description, or a
    parked task waiting on it. A read encodes as many whole queued events as fit
    the buffer; its loop is structural in the queue. *)

From S2P Require Import Prelude BTree Abi Digest Chunk Filesystem Pager Cpu Net Fd Proc Signals Authority Env GuestMem.

(** * An instance *)
Definition with_watches (l : list NodeWatch) (n : InotifyInner) : InotifyInner :=
  {| watches := l; next_descriptor := next_descriptor n; queue := queue n; overflowed := overflowed n;
     i_activity := i_activity n |}.
Definition with_next_descriptor (d : Z) (n : InotifyInner) : InotifyInner :=
  {| watches := watches n; next_descriptor := d; queue := queue n; overflowed := overflowed n;
     i_activity := i_activity n |}.
Definition with_queue (l : list InotifyEvent) (n : InotifyInner) : InotifyInner :=
  {| watches := watches n; next_descriptor := next_descriptor n; queue := l; overflowed := overflowed n;
     i_activity := i_activity n |}.
Definition with_overflowed (b : bool) (n : InotifyInner) : InotifyInner :=
  {| watches := watches n; next_descriptor := next_descriptor n; queue := queue n; overflowed := b;
     i_activity := i_activity n |}.
Definition stir (n : InotifyInner) : InotifyInner :=
  {| watches := watches n; next_descriptor := next_descriptor n; queue := queue n; overflowed := overflowed n;
     i_activity := wrapping_add64 (i_activity n) 1 |}.

Definition inotify_new : InotifyInner :=
  {| watches := []; next_descriptor := 1; queue := []; overflowed := false; i_activity := 0 |}.

(** [watches.iter_mut().find(|watch| watch.node == node)] and the assignments. *)
Fixpoint rewatch (node : nat) (mask : Z) (path : bytes) (l : list NodeWatch) : option (Z * list NodeWatch) :=
  match l with
  | [] => None
  | x :: l =>
      if bool_decide (w_node x = node)
      then Some (w_descriptor x,
                 {| w_descriptor := w_descriptor x; w_node := w_node x; w_path := path; w_mask := mask |} :: l)
      else r ← rewatch node mask path l; Some (r.1, x :: r.2)
  end.
(** The descriptor returned is an [i32], and its successor must be one too. *)
Definition I32_MAX : Z := 2 ^ 31 - 1.
Definition add_watch (node : nat) (mask : Z) (path : bytes) (n : InotifyInner) : InotifyInner * res Z Z :=
  match rewatch node mask path (watches n) with
  | Some (d, l) => (with_watches l n, Ok d)
  | None =>
      let d := next_descriptor n in
      if I32_MAX <? d + 1 then (n, Panic)
      else (with_watches (watches n ++ [{| w_descriptor := d; w_node := node; w_path := path; w_mask := mask |}])
              (with_next_descriptor (d + 1) n), Ok d)
  end.
Definition rm_watch (d : Z) (n : InotifyInner) : InotifyInner * res Z Z :=
  let l := filter (λ x, w_descriptor x ≠ d) (watches n) in
  let n' := with_watches l n in
  if zlen l =? zlen (watches n) then (n', Err EINVAL)
  else (with_queue (filter (λ e, ev_descriptor e ≠ d) (queue n)) n', Ok 0).

(** The watches an event on [node] concerns, and queueing it for them. *)
Definition concerns (node : nat) (mask : Z) (x : NodeWatch) : bool :=
  bool_decide (w_node x = node) && has_flag (w_mask x) mask.
Fixpoint push_events (ds : list Z) (name : bytes) (mask cookie : Z) (n : InotifyInner) : InotifyInner :=
  match ds with
  | [] => n
  | d :: ds =>
      if INOTIFY_QUEUE_LIMIT <=? zlen (queue n) then with_overflowed true n
      else push_events ds name mask cookie
             (with_queue (queue n ++ [{| ev_descriptor := d; ev_mask := mask; ev_cookie := cookie; ev_name := name |}]) n)
  end.
Definition notify_one (node : nat) (name : bytes) (mask cookie : Z) (n : InotifyInner) : InotifyInner :=
  stir (push_events (map w_descriptor (List.filter (concerns node mask) (watches n))) name mask cookie n).

(** * Reading *)
Definition HEADER : Z := 16.
Definition next_multiple_of (x m : Z) : Z := div_ceil x m * m.
Definition name_len (e : InotifyEvent) : Z :=
  if bool_decide (ev_name e = []) then 0 else next_multiple_of (zlen (ev_name e) + 1) 16.
Definition encode_event (e : InotifyEvent) : bytes :=
  le_bytes 4 (ev_descriptor e) ++ le_bytes 4 (ev_mask e) ++ le_bytes 4 (ev_cookie e) ++ le_bytes 4 (name_len e) ++
  ev_name e ++ replicate (Z.to_nat (name_len e - zlen (ev_name e))) 0.
Fixpoint drain_events (buf_len : Z) (out : bytes) (q : list InotifyEvent) : res Z (bytes * list InotifyEvent) :=
  match q with
  | [] => Ok (out, [])
  | e :: q' =>
      let record := HEADER + name_len e in
      if bool_decide (out = []) && (buf_len <? record) then Err EINVAL
      else if buf_len <? zlen out + record then Ok (out, q)
      else drain_events buf_len (out ++ encode_event e) q'
  end.
Definition overflow_event : InotifyEvent :=
  {| ev_descriptor := -1; ev_mask := IN_Q_OVERFLOW; ev_cookie := 0; ev_name := [] |}.
(** The queue a read starts from. *)
Definition announced (n : InotifyInner) : InotifyInner :=
  if overflowed n then with_queue (overflow_event :: queue n) (with_overflowed false n) else n.
Definition read_inotify (n : InotifyInner) (buf_len : Z) : InotifyInner * res Z bytes :=
  let n := announced n in
  if bool_decide (queue n = []) then (n, Ok [])
  else match drain_events buf_len [] (queue n) with
       | Ok (out, q) => (stir (with_queue q n), Ok out)
       | Err e => (n, Err e)
       | Panic => (n, Panic)
       end.

(** * The calls *)
Module Watching.
Section watching.
Context `{Host} {B : Type} `{NetworkBroker B} {M V : Type} `{GuestMemory M V}.
Abbreviation machine := (Machine B M V).
Abbreviation sys := (stm machine Z).

(** An update of the instance [i], through [inner.borrow_mut()]. *)
Definition on_inotify {A} (i : Z) (f : InotifyInner → InotifyInner * res Z A) : sys A := λ w,
  match inotifies (heap (env w)) !! i with
  | None => (w, Panic)
  | Some n =>
      let '(n, r) := f n in
      (on_heap (λ h, set_inotifies (<[i := n]> (inotifies h)) h) w, r)
  end.
Definition new_fd (b : Backing) (fl : Z) (ce : bool) : sys Z := λ w,
  with_heap (Fds.install_fd (fds (proc w)) b fl ce) w.

Definition inotify_of (fd : Z) : sys Z :=
  do! d <- get_desc fd in
  match backing d.2 with BInotify i => sret i | _ => sfail EINVAL end.

Definition sys_inotify_init (fl : Z) : sys Z := λ w,
  let '(i, h) := Fds.fresh (heap (env w)) in
  let h := set_inotifies (<[i := inotify_new]> (inotifies h)) h in
  new_fd (BInotify i) (Z.lor O_RDONLY (Z.land fl O_NONBLOCK)) (has_flag fl O_CLOEXEC)
    (on_env (λ e, put_inotify (inotify e ++ [i]) (put_heap h e)) w).

Definition sys_inotify_add_watch (fd path_ptr mask : Z) : sys Z :=
  do! path <- Copy.read_cstr path_ptr in
  do! node <- query (λ w, let! r := resolve (fs w) ROOT path true in ok_or (r_node r) ENOENT) in
  let mask := Z.land (wrap 32 mask) IN_ALL_EVENTS in
  if mask =? 0 then sfail EINVAL
  else do! i <- inotify_of fd in on_inotify i (add_watch node mask path).

Definition sys_inotify_rm_watch (fd descriptor : Z) : sys Z :=
  do! i <- inotify_of fd in on_inotify i (rm_watch (as_i32 descriptor)).

(** [Rc::strong_count(inner) > 1]: someone but the registry holds it. *)
Definition describes (i : Z) (d : Description) : bool :=
  match backing d with BInotify j => i =? j | _ => false end.
Definition watched_by (i : Z) (x : Watch) : bool :=
  match x with InotifyReadable j | InotifyActivity j _ => i =? j | _ => false end.
Definition waits_on (i : Z) (t : ParkedTask CpuSnapshot) : bool :=
  match t_state t with Waiting ws _ => existsb (watched_by i) ws | _ => false end.
Definition held_elsewhere (w : machine) (i : Z) : bool :=
  existsb (λ x, describes i x.2.1) (map_to_list (ofds (heap (env w)))) ||
  existsb (waits_on i) (parked (sched (tasks (env w)))).

Definition notify_inotify (node : nat) (name : bytes) (mask cookie : Z) (w : machine) : machine :=
  if bool_decide (inotify (env w) = []) then w
  else
    let live := List.filter (held_elsewhere w) (inotify (env w)) in
    on_heap (λ h, set_inotifies (foldl (λ m i, alter (notify_one node name mask cookie) i m) (inotifies h) live) h)
      (on_env (put_inotify live) w).

Definition next_inotify_cookie : sys Z := λ w,
  let c := Z.max (wrap 32 (inotify_cookie (env w) + 1)) 1 in (on_env (put_inotify_cookie c) w, Ok c).
End watching.
End Watching.
