(* ===== verification/InotifySpec.v ===== *)
(** What a watcher reads: the records of [read_inotify] decode to the events
    raised, in order, and an event that was lost is announced. *)

From S2P Require Import Prelude BTree Abi Digest Chunk Filesystem Pager Cpu Net Fd Proc Signals Authority Env GuestMem Inotify.

(** * The reader's side: [struct inotify_event] *)
Definition parse_event (l : bytes) : InotifyEvent * bytes :=
  let len := le_val (take 4 (drop 12 l)) in
  ({| ev_descriptor := as_i32 (le_val (take 4 l)); ev_mask := le_val (take 4 (drop 4 l));
      ev_cookie := le_val (take 4 (drop 8 l));
      ev_name := default [] (Copy.before_nul (take (Z.to_nat len) (drop 16 l))) |},
   drop (16 + Z.to_nat len) l).
Fixpoint parse_records (fuel : nat) (l : bytes) : option (list InotifyEvent) :=
  match l, fuel with
  | [], _ => Some []
  | _, O => None
  | _, S fuel => if zlen l <? 16 then None else let '(e, l) := parse_event l in cons e <$> parse_records fuel l
  end.
(** One record per sixteen bytes at most. *)
Definition parse (l : bytes) : option (list InotifyEvent) := parse_records (length l) l.

(** * Well-formed events and instances *)
Record event_ok (e : InotifyEvent) : Prop := {
  ok_descriptor : - 2 ^ 31 ≤ ev_descriptor e < 2 ^ 31;
  ok_mask : is_u32 (ev_mask e);
  ok_cookie : is_u32 (ev_cookie e);
  ok_name : Forall (λ b, b ≠ 0) (ev_name e);
  ok_len : zlen (ev_name e) ≤ 2 ^ 31
}.
Definition watch_ok (x : NodeWatch) : Prop := 0 < w_descriptor x < 2 ^ 31.

Lemma as_i32_wrap x : - 2 ^ 31 ≤ x < 2 ^ 31 → as_i32 (x mod 2 ^ 32) = x.
Proof.
  intros Hx. unfold as_i32, signed, wrap. rewrite Zmod_mod. change (2 ^ (32 - 1)) with (2 ^ 31).
  destruct (decide (0 ≤ x)).
  - rewrite Z.mod_small by lia. by destruct (Z.ltb_spec x (2 ^ 31)); [|lia].
  - rewrite <- (Z_mod_plus_full x 1 (2 ^ 32)). rewrite Z.mod_small by lia.
    destruct (Z.ltb_spec (x + 1 * 2 ^ 32) (2 ^ 31)); lia.
Qed.

Lemma before_nul_zeros l n : Forall (λ b, b ≠ 0) l → (0 < n)%nat → Copy.before_nul (l ++ replicate n 0) = Some l.
Proof.
  intros Hl Hn. induction Hl as [|b l Hb _ IH]; cbn; [by destruct n; [lia|]|].
  destruct (Z.eqb_spec b 0); [done|]. by rewrite IH.
Qed.

Lemma name_len_spec e :
  zlen (ev_name e) ≤ name_len e ∧ (ev_name e ≠ [] → zlen (ev_name e) < name_len e) ∧
  name_len e ≤ zlen (ev_name e) + 16.
Proof.
  unfold name_len, next_multiple_of. case_bool_decide as E.
  { rewrite E, zlen_nil. split_and!; [lia|done|lia]. }
  pose proof (zlen_nonneg (ev_name e)).
  destruct (div_ceil_spec (zlen (ev_name e) + 1) 16) as [?|[? _]]; lia.
Qed.

Lemma zlen_encode_event e : zlen (encode_event e) = HEADER + name_len e.
Proof.
  destruct (name_len_spec e) as [? _]. unfold encode_event, HEADER.
  rewrite !zlen_app, !zlen_le_bytes. unfold zlen at 2. rewrite length_replicate, Z2Nat.id by lia. lia.
Qed.

Lemma parse_event_encode e rest : event_ok e → parse_event (encode_event e ++ rest) = (e, rest).
Proof.
  intros [Hd Hm Hc Hn Hl]. destruct (name_len_spec e) as (Hle & Hlt & Hub).
  pose proof (zlen_nonneg (ev_name e)).
  assert (Hv : le_val (le_bytes 4 (name_len e)) = name_len e).
  { apply le_val_bytes_id. split; [lia|]. change (2 ^ _) with (2 ^ 32). lia. }
  unfold parse_event, encode_event. rewrite <- !app_assoc.
  set (N := ev_name e ++ replicate (Z.to_nat (name_len e - zlen (ev_name e))) 0 ++ rest).
  assert (length (ev_name e ++ replicate (Z.to_nat (name_len e - zlen (ev_name e))) 0) = Z.to_nat (name_len e)) as HN.
  { rewrite length_app, length_replicate. unfold zlen in *. lia. }
  assert (Hh : ∀ a b c d, take 4 (le_bytes 4 a ++ le_bytes 4 b ++ le_bytes 4 c ++ le_bytes 4 d ++ N) = le_bytes 4 a ∧
    take 4 (drop 4 (le_bytes 4 a ++ le_bytes 4 b ++ le_bytes 4 c ++ le_bytes 4 d ++ N)) = le_bytes 4 b ∧
    take 4 (drop 8 (le_bytes 4 a ++ le_bytes 4 b ++ le_bytes 4 c ++ le_bytes 4 d ++ N)) = le_bytes 4 c ∧
    take 4 (drop 12 (le_bytes 4 a ++ le_bytes 4 b ++ le_bytes 4 c ++ le_bytes 4 d ++ N)) = le_bytes 4 d ∧
    drop 16 (le_bytes 4 a ++ le_bytes 4 b ++ le_bytes 4 c ++ le_bytes 4 d ++ N) = N) by done.
  destruct (Hh (ev_descriptor e) (ev_mask e) (ev_cookie e) (name_len e)) as (-> & -> & -> & -> & Hdrop).
  rewrite Hv, <- drop_drop, Hdrop. unfold N. rewrite app_assoc, <- HN, take_app_length, drop_app_length.
  rewrite !le_val_bytes. change (8 * Z.of_nat 4) with 32. rewrite as_i32_wrap by done.
  rewrite (Z.mod_small (ev_mask e)), (Z.mod_small (ev_cookie e)) by done. f_equal.
  destruct (decide (ev_name e = [])) as [En|En].
  - unfold name_len. rewrite bool_decide_true by done. rewrite En. by destruct e; cbn in *; subst.
  - rewrite before_nul_zeros by (try done; specialize (Hlt En); lia). by destruct e.
Qed.

Lemma encode_event_head e : ∃ b l, encode_event e = b :: l.
Proof. by eexists _, _. Qed.

Lemma parse_records_encode evs fuel :
  Forall event_ok evs → (length evs ≤ fuel)%nat → parse_records fuel (concat (encode_event <$> evs)) = Some evs.
Proof.
  intros Hok. revert fuel. induction Hok as [|e evs He Hok IH]; intros fuel Hf; [by destruct fuel|].
  destruct fuel as [|fuel]; cbn [length] in Hf; [lia|]. cbn [fmap list_fmap concat].
  destruct (encode_event_head e) as (b & l & E). cbn [parse_records]. rewrite E. cbn [app].
  change (b :: l ++ ?r) with ((b :: l) ++ r). rewrite <- E, zlen_app, zlen_encode_event.
  destruct (name_len_spec e) as [? _]. pose proof (zlen_nonneg (ev_name e)). unfold HEADER.
  pose proof (zlen_nonneg (concat (encode_event <$> evs))).
  destruct (Z.ltb_spec (16 + name_len e + zlen (concat (encode_event <$> evs))) 16); [lia|].
  rewrite parse_event_encode by done. rewrite IH by lia. done.
Qed.

Lemma length_encoded evs : (length evs ≤ length (concat (encode_event <$> evs)))%nat.
Proof.
  induction evs as [|e evs IH]; cbn [fmap list_fmap concat length]; [done|].
  destruct (encode_event_head e) as (b & l & ->). rewrite length_app. cbn [length]. lia.
Qed.
Lemma parse_encode evs : Forall event_ok evs → parse (concat (encode_event <$> evs)) = Some evs.
Proof. intros. apply parse_records_encode; [done|apply length_encoded]. Qed.

(** * One read *)
Lemma drain_events_spec buf_len q : ∀ out out' q',
  drain_events buf_len out q = Ok (out', q') → zlen out ≤ buf_len →
  ∃ evs, q = evs ++ q' ∧ out' = out ++ concat (encode_event <$> evs) ∧ zlen out' ≤ buf_len.
Proof.
  induction q as [|e q IH]; cbn [drain_events]; intros out out' q'.
  - intros [= <- <-] ?. exists []. cbn. by rewrite app_nil_r.
  - destruct (_ && _); [done|]. destruct (Z.ltb_spec buf_len (zlen out + (HEADER + name_len e))) as [|Hr].
    + intros [= <- <-] ?. exists []. cbn. by rewrite app_nil_r.
    + intros Hd Ho. assert (Hz : zlen (out ++ encode_event e) ≤ buf_len) by (rewrite zlen_app, zlen_encode_event; lia).
      destruct (IH _ _ _ Hd Hz) as (evs & -> & -> & Hb). exists (e :: evs).
      split_and!; [done|cbn [fmap list_fmap concat]; by rewrite <- app_assoc|done].
Qed.

Lemma drain_events_no_panic buf_len q : ∀ out, drain_events buf_len out q ≠ Panic.
Proof.
  induction q as [|e q IH]; intros out; cbn [drain_events]; [done|].
  destruct (_ && _); [done|]. by destruct (_ <? _).
Qed.

(** Any read decodes to a prefix of the queue and fits the buffer; a refused
    read loses nothing. *)
Lemma read_inotify_spec n buf_len : 0 ≤ buf_len →
  let q := queue (announced n) in
  let '(n', r) := read_inotify n buf_len in
  watches n' = watches n ∧ overflowed n' = false ∧
  match r with
  | Ok out => ∃ evs, q = evs ++ queue n' ∧ out = concat (encode_event <$> evs) ∧ zlen out ≤ buf_len
  | Err _ => queue n' = q
  | Panic => False
  end.
Proof.
  intros Hb q. assert (Ho : watches (announced n) = watches n ∧ overflowed (announced n) = false).
  { unfold announced. by destruct (overflowed n) eqn:E. }
  unfold read_inotify. fold q. case_bool_decide as Eq.
  { destruct Ho as [-> ->]. split_and!; [done..|]. exists []. fold q. rewrite Eq. by cbn. }
  destruct (drain_events buf_len [] q) as [[out q']|e|] eqn:Ed.
  - destruct Ho as [Hw Hv]. cbn [stir with_queue watches overflowed queue]. rewrite Hw, Hv. split_and!; [done..|].
    destruct (drain_events_spec _ _ _ _ _ Ed) as (evs & Hq & -> & Hz); [done|]. by exists evs.
  - destruct Ho as [-> ->]. by split_and!.
  - by apply drain_events_no_panic in Ed.
Qed.

(** * Histories of an instance *)
Inductive watcher_op := Raise (node : nat) (name : bytes) (mask cookie : Z) | Read (buf_len : Z).

Definition event_for (name : bytes) (mask cookie : Z) (d : Z) : InotifyEvent :=
  {| ev_descriptor := d; ev_mask := mask; ev_cookie := cookie; ev_name := name |}.
(** What an operation does to the instance, the events it concerns the
    watches with, and what a read returned. *)
Definition run_op (op : watcher_op) (n : InotifyInner) : InotifyInner * list InotifyEvent * list (Z * bytes) :=
  match op with
  | Raise node name mask cookie =>
      (notify_one node name mask cookie n,
       event_for name mask cookie <$> (w_descriptor <$> List.filter (concerns node mask) (watches n)), [])
  | Read buf_len =>
      let '(n', r) := read_inotify n buf_len in
      (n', [], match r with Ok out => [(buf_len, out)] | _ => [] end)
  end.
Fixpoint run_ops (ops : list watcher_op) (n : InotifyInner) : InotifyInner * list InotifyEvent * list (Z * bytes) :=
  match ops with
  | [] => (n, [], [])
  | op :: ops =>
      let '(n, raised, reads) := run_op op n in
      let '(n, raised', reads') := run_ops ops n in
      (n, raised ++ raised', reads ++ reads')
  end.
Definition op_ok (op : watcher_op) : Prop :=
  match op with
  | Raise _ name mask cookie =>
      Forall (λ b, b ≠ 0) name ∧ zlen name ≤ 2 ^ 31 ∧ is_u32 mask ∧ is_u32 cookie
  | Read buf_len => 0 ≤ buf_len
  end.

(** What [read] so far and [queue] hold of the [raised] events. *)
Record heard (raised log : list InotifyEvent) (n : InotifyInner) : Prop := {
  h_watches : Forall watch_ok (watches n);
  h_queue : Forall event_ok (queue n);
  h_all : overflow_event ∉ log ++ queue n → overflowed n = false → log ++ queue n = raised
}.

Lemma overflow_event_ok : event_ok overflow_event.
Proof. split; [vm_compute; split; congruence..|by constructor|vm_compute; congruence]. Qed.

Lemma push_events_spec ds name mask cookie : ∀ n,
  let n' := push_events ds name mask cookie n in
  watches n' = watches n ∧ (∃ k, queue n' = queue n ++ (event_for name mask cookie <$> take k ds)) ∧
  (overflowed n' = false → overflowed n = false ∧ queue n' = queue n ++ (event_for name mask cookie <$> ds)).
Proof.
  induction ds as [|d ds IH]; intros n; cbn [push_events].
  { split_and!; [done| |by rewrite app_nil_r]. exists 0%nat. by rewrite app_nil_r. }
  destruct (INOTIFY_QUEUE_LIMIT <=? zlen (queue n)).
  { split_and!; [done| |done]. exists 0%nat. by rewrite app_nil_r. }
  fold (event_for name mask cookie d).
  specialize (IH (with_queue (queue n ++ [event_for name mask cookie d]) n)). cbn [with_queue queue watches overflowed] in IH.
  destruct IH as (Hw & (k & Hk) & Ho). split_and!; [done| |].
  - exists (S k). by rewrite Hk, <- app_assoc.
  - intros Hf. destruct (Ho Hf) as [? ->]. split; [done|]. by rewrite <- app_assoc.
Qed.

Lemma raise_heard raised log n node name mask cookie :
  op_ok (Raise node name mask cookie) → heard raised log n →
  heard (raised ++ (event_for name mask cookie <$> (w_descriptor <$> List.filter (concerns node mask) (watches n))))
    log (notify_one node name mask cookie n).
Proof.
  intros (Hz & Hlen & Hm & Hc) [Hw Hq Ha]. unfold notify_one.
  set (ds := map w_descriptor _). destruct (push_events_spec ds name mask cookie n) as (Ew & (k & Ek) & Eo).
  assert (Hds : Forall (λ d, 0 < d < 2 ^ 31) ds).
  { apply Forall_map. apply Forall_forall. intros x [Hx _]%list_elem_of_In%filter_In.
    rewrite Forall_forall in Hw. by apply Hw, list_elem_of_In. }
  split; cbn [stir watches queue overflowed].
  - by rewrite Ew.
  - rewrite Ek. apply Forall_app. split; [done|]. apply Forall_map, Forall_take.
    apply (Forall_impl _ _ _ Hds). intros d ?. split; cbn; [lia|done..].
  - intros Hno Hf. destruct (Eo Hf) as [Hf' Eq]. rewrite Eq in *. rewrite app_assoc in *.
    rewrite Ha; [done| |done]. intros ?. apply Hno. set_solver.
Qed.

Lemma read_heard raised log n buf_len : 0 ≤ buf_len → heard raised log n →
  ∃ evs, heard raised (log ++ evs) (read_inotify n buf_len).1 ∧
    match (read_inotify n buf_len).2 with
    | Ok out => parse out = Some evs ∧ zlen out ≤ buf_len
    | _ => evs = []
    end.
Proof.
  intros Hb [Hw Hq Ha]. pose proof (read_inotify_spec n buf_len Hb) as Hr. cbn zeta in Hr.
  destruct (read_inotify n buf_len) as [n' r]. destruct Hr as (Ew & Eo & Hr). cbn [fst snd].
  assert (Hann : Forall event_ok (queue (announced n))).
  { unfold announced. destruct (overflowed n); [|done]. constructor; [apply overflow_event_ok|done]. }
  assert (Ha' : overflow_event ∉ log ++ queue (announced n) → log ++ queue (announced n) = raised).
  { unfold announced. destruct (overflowed n) eqn:E; [|by auto]. cbn. set_solver. }
  destruct r as [out|e|]; [|exists []; split; [|done]|done].
  - destruct Hr as (evs & E & -> & Hz). rewrite E in *. apply Forall_app in Hann as [He Hq'].
    rewrite app_assoc in Ha'. exists evs. split; [split; [by rewrite Ew|done|by auto]|].
    split; [by apply parse_encode|done].
  - rewrite app_nil_r. split; [by rewrite Ew|by rewrite Hr|]. rewrite Hr. auto.
Qed.

Lemma run_ops_heard ops : ∀ raised log n, Forall op_ok ops → heard raised log n →
  let '(n', raised', reads) := run_ops ops n in
  ∃ batches, mapM (parse ∘ snd) reads = Some batches ∧ Forall (λ r, zlen r.2 ≤ r.1) reads ∧
    heard (raised ++ raised') (log ++ concat batches) n'.
Proof.
  induction ops as [|op ops IH]; intros raised log n Hops Hh; cbn [run_ops].
  { exists []. by rewrite !app_nil_r. }
  apply Forall_cons in Hops as [Hop Hops]. destruct op as [node name mask cookie|buf_len]; cbn [run_op].
  - specialize (IH _ _ _ Hops (raise_heard _ _ _ _ _ _ _ Hop Hh)).
    destruct (run_ops ops _) as [[n' raised'] reads]. cbn [app]. by rewrite app_assoc.
  - destruct (read_heard _ _ _ _ Hop Hh) as (evs & Hh' & Hr).
    destruct (read_inotify n buf_len) as [n1 r]. cbn [fst snd] in *.
    specialize (IH _ _ _ Hops Hh'). destruct (run_ops ops n1) as [[n' raised'] reads]. cbn [app].
    destruct IH as (batches & Hm & Hf & Hend). destruct r as [out|e|].
    + destruct Hr as [Hp Hz]. exists (evs :: batches). cbn [app]. change (mapM _ (?r :: reads)) with (y ← parse r.2; k ← mapM (parse ∘ snd) reads; Some (y :: k)). cbn [snd]. rewrite Hp, Hm.
      split_and!; [done|by constructor|cbn [concat]; by rewrite app_assoc].
    + subst evs. exists batches. by rewrite app_nil_r in Hend.
    + subst evs. exists batches. by rewrite app_nil_r in Hend.
Qed.

(** C25. A watcher hears everything or is told it did not. Over any sequence
    of events and reads on a fresh instance with any watches: every read returns
    whole records within its buffer, decodable by the layout of
    [struct inotify_event]; and unless an overflow record was read, is queued or
    is about to be announced, the events read so far followed by the queue are
    exactly the events raised for its watches, in order. *)
Theorem inotify_delivery ws ops :
  Forall watch_ok ws → Forall op_ok ops →
  let '(n, raised, reads) := run_ops ops (with_watches ws inotify_new) in
  ∃ batches, mapM (parse ∘ snd) reads = Some batches ∧ Forall (λ r, zlen r.2 ≤ r.1) reads ∧
    (overflow_event ∉ concat batches ++ queue n → overflowed n = false → concat batches ++ queue n = raised).
Proof.
  intros Hws Hops. pose proof (run_ops_heard ops [] [] (with_watches ws inotify_new) Hops) as Hr.
  destruct (run_ops ops _) as [[n raised] reads]. destruct Hr as (batches & ? & ? & []); [by split; cbn|].
  by exists batches.
Qed.

Lemma inotify_delivery_witness :
  let ws := [{| w_descriptor := 1; w_node := 5; w_path := []; w_mask := IN_ALL_EVENTS |}] in
  let ops := [Raise 5 [97; 98] 256 7; Raise 6 [] 2 0; Read 8; Raise 5 [] 2 0; Read 40] in
  (∃ batches, mapM (parse ∘ snd) (run_ops ops (with_watches ws inotify_new)).2 = Some batches ∧
    Forall (λ r, zlen r.2 ≤ r.1) (run_ops ops (with_watches ws inotify_new)).2 ∧
    (overflow_event ∉ concat batches ++ queue (run_ops ops (with_watches ws inotify_new)).1.1 →
     overflowed (run_ops ops (with_watches ws inotify_new)).1.1 = false →
     concat batches ++ queue (run_ops ops (with_watches ws inotify_new)).1.1 =
     (run_ops ops (with_watches ws inotify_new)).1.2)) ∧
  parse (concat (snd <$> (run_ops ops (with_watches ws inotify_new)).2)) = Some [event_for [97; 98] 256 7 1].
Proof.
  split; [|vm_compute; reflexivity].
  apply (inotify_delivery [{| w_descriptor := 1; w_node := 5; w_path := []; w_mask := IN_ALL_EVENTS |}]
    [Raise 5 [97; 98] 256 7; Raise 6 [] 2 0; Read 8; Raise 5 [] 2 0; Read 40]).
  - repeat constructor; unfold watch_ok; cbn; lia.
  - repeat apply Forall_cons_2; [..|by apply Forall_nil_2]; cbn; unfold fits; try lia;
      (split_and!; [by repeat constructor|vm_compute; congruence|lia..]).
Defined.
