(* ===== verification/FileIo.v ===== *)
(** Reading and writing through a descriptor: [read_backing], [write_backing]
    and the calls on them, of [crates/linux-compat/src/syscall.rs].

    A description is borrowed for the length of a call; its updates go to the
    heap at once. A chunk of a file that is not in the store makes the call
    request it and replay. *)

From S2P Require Import Prelude BTree Abi Digest Chunk Filesystem Pager Cpu Net Fd Proc Signals Authority Env GuestMem Inotify.

Inductive ReadBackingError := Errno (e : Z) | MissingChunk (hash : Hash).
(** The most one call transfers. *)
Definition IO_MAX : Z := 4194304.

Definition guest_size `{Host} (value : Z) : res Z Z := ok_or (try_usize value) EFBIG.
Definition offset_into (off len : Z) : Z := if len <=? off then len else off.
Definition checked_add_usize `{Host} (a b : Z) : option Z := if a + b <=? usize_max then Some (a + b) else None.

(** [data.resize(n, 0)] within the capacity. *)
Definition resized (n : Z) (l : bytes) : bytes :=
  if n <=? zlen l then take (Z.to_nat n) l else l ++ replicate (Z.to_nat (n - zlen l)) 0.
(** [data[start..end].copy_from_slice(b)] *)
Definition spliced (start : Z) (b l : bytes) : bytes :=
  take (Z.to_nat start) l ++ b ++ drop (Z.to_nat start + length b) l.

Module Io.
Section io.
Context `{Host} {B : Type} `{NetworkBroker B} {M V : Type} `{GuestMemory M V}.
Abbreviation machine := (Machine B M V).
Abbreviation sys := (stm machine Z).

(** [self.host_secret_for_node(node)] and [is_host_secret_node]. *)
Definition secret_node (node : nat) (w : machine) : bool := Image_.is_host_secret_node node (secrets (env w)).
Definition secret_of (node : nat) (w : machine) : option bytes := Image_.host_secret_for_node node (secrets (env w)).

(** [desc.offset += n] *)
Definition advance {E} (i : Z) (d : Description) (n : Z) : stm machine E () :=
  do! off <- query (λ _, add64 (offset d) n) in modify (put_desc i (put_offset off d)).

Definition read_secret (node : nat) (buf_len : Z) (i : Z) (d : Description) : stm machine ReadBackingError bytes :=
  do! secret <- query (λ w, ok_or (secret_of node w) (Errno EACCES)) in
  let start := offset_into (offset d) (zlen secret) in
  let stop := Z.min (saturating_add_usize start buf_len) (zlen secret) in
  let chunk := slicez secret start stop in
  do! _ <- advance i d (zlen chunk) in sret chunk.

Definition read_file (node : nat) (buf_len : Z) (i : Z) (d : Description) : stm machine ReadBackingError bytes :=
  do! is_secret <- gets (secret_node node) in
  if is_secret : bool then read_secret node buf_len i d
  else
    do! r <- map_err Errno (query (λ w, Fs.read_node_range (fs w) node (offset d) buf_len)) in
    match r with
    | Chunk.Ready b => do! _ <- advance i d (vlen b) in sret (vdata b)
    | Missing hash => sfail (MissingChunk hash)
    | Invalid _ _ _ => sfail (Errno EIO)
    end.

(** [for chunk in out.chunks_mut(8)], a random word each. *)
Fixpoint random_words (n : nat) : sys (list Z) :=
  match n with
  | O => sret []
  | S n => do! x <- next_random in do! l <- random_words n in sret (x :: l)
  end.
Definition random_bytes (len : Z) : sys bytes :=
  do! l <- random_words (Z.to_nat (div_ceil len 8)) in sret (take (Z.to_nat len) (concat (le_bytes 8 <$> l))).

Definition read_backing (i : Z) (d : Description) (buf_len : Z) : stm machine ReadBackingError bytes :=
  match backing d with
  | BStd StdIn => sret []
  | BStd _ => sfail (Errno EBADF)
  | BInotify n => map_err Errno (Watching.on_inotify n (λ x, read_inotify x buf_len))
  | BFile node => read_file node buf_len i d
  | BDir _ _ => sfail (Errno EISDIR)
  | BDev DevZero => sret (replicate (Z.to_nat buf_len) 0)
  | BDev DevRandom => map_err Errno (random_bytes buf_len)
  | BDev _ => sret []
  | _ => sfail (Errno EINVAL)
  end.

(** * Waiting for a chunk *)
Definition wait_for_file_chunk (hash : Hash) : sys Outcome := λ w,
  match request_file_chunk hash w with
  | (w, Ok _) => (Copy.replay_exception w, Ok (Exit Interrupted))
  | (w, Err _) => (w, Err EIO)
  | (w, Panic) => (w, Panic)
  end.
(** [Some] outcome when the call cannot go on. *)
Definition wait_to_materialize (node : nat) : sys (option Outcome) :=
  do! missing <- query (λ w, Fs.first_missing_file_chunk (fs w) node) in
  match missing with
  | Some hash => do! o <- wait_for_file_chunk hash in sret (Some o)
  | None => sret None
  end.

(** * Writing *)
(** The node's buffer, through the [&mut Vec] [materialize_file] returns. *)
Definition put_data (node : nat) (data : vec) : machine → machine := λ w,
  match nodes (fs w) !! node with
  | Some n => put_fs (set_node (fs w) node (with_kind n (File data))) w
  | None => w
  end.
Definition grow (node : nat) (data : vec) (end_ : Z) : sys vec :=
  if vlen data <? end_ then
    do! data <- query (λ _, ok_or (vec_try_reserve data (end_ - vlen data)) ENOSPC) in
    sret (Vec (resized end_ (vdata data)) (vcap data))
  else sret data.
Definition write_file (node : nat) (b : bytes) (i : Z) (d : Description) : sys Z :=
  do! is_secret <- gets (secret_node node) in
  if is_secret : bool then sfail EPERM
  else
    do! data <- with_fs (Fs.materialize_file node) in
    let len := vlen data in
    let d := if has_flag (flags d) O_APPEND then put_offset len d else d in
    do! _ <- modify (put_desc i d) in
    do! start <- query (λ _, guest_size (offset d)) in
    do! end_ <- query (λ _, ok_or (checked_add_usize start (zlen b)) EFBIG) in
    do! _ <- (if len <? end_ then query (λ w, Fs.reserve (fs w) (end_ - len)) else sret ()) in
    do! data <- with_fs (Fs.materialize_file node) in
    do! data <- grow node data end_ in
    do! _ <- modify (put_data node (Vec (spliced start b (vdata data)) (vcap data))) in
    do! _ <- modify (put_desc i (put_offset end_ d)) in
    do! _ <- modify (Watching.notify_inotify node [] IN_MODIFY 0) in
    sret (zlen b).
Definition write_backing (i : Z) (d : Description) (b : bytes) : sys Z :=
  if negb (desc_writable d) then sfail EBADF
  else match backing d with
       | BStd StdIn | BInotify _ => sfail EBADF
       | BStd _ | BDev DevTty =>
           do! _ <- modify (on_console (λ c, set_output (output c ++ b) c)) in sret (zlen b)
       | BDev _ => sret (zlen b)
       | BFile node => write_file node b i d
       | BDir _ _ => sfail EISDIR
       | _ => sfail EINVAL
       end.

(** * The calls *)
(** The end of a read: what it yielded goes to the guest, or the chunk it
    misses is waited for. *)
Definition finish_read (buf : Z) (r : res ReadBackingError bytes) : sys Outcome :=
  match r with
  | Ok chunk => do! _ <- Copy.write_mem buf chunk in sret (Value (zlen chunk))
  | Err (Errno e) => sfail e
  | Err (MissingChunk hash) => wait_for_file_chunk hash
  | Panic => query (λ _, Panic)
  end.
Definition sys_read (fd buf count : Z) : sys Outcome :=
  do! x <- get_desc fd in
  if negb (desc_readable x.2) then sfail EBADF
  else λ w, let '(w, r) := read_backing x.1 x.2 (Z.min count IO_MAX) w in finish_read buf r w.

(** Goes on with [k] unless a copy of the range has to wait first. *)
Definition guarded (addr len : Z) (access : AccessKind) (k : sys Outcome) : sys Outcome :=
  do! o <- Copy.ensure_guest_range addr len access in
  match o with Some o => sret o | None => k end.
Definition waiting_for (node : nat) (k : sys Outcome) : sys Outcome :=
  do! waiting <- wait_to_materialize node in
  match waiting with Some o => sret o | None => k end.

Definition MAX_LEN : Z := 1073741824.
(** The buffer at its new length, after room was reserved for it. *)
Definition truncate_file (node : nat) (length : Z) : sys () :=
  do! data <- with_fs (Fs.materialize_file node) in
  do! length <- query (λ _, guest_size length) in
  do! _ <- (if vlen data <? length then query (λ w, Fs.reserve (fs w) (length - vlen data)) else sret ()) in
  do! data <- with_fs (Fs.materialize_file node) in
  do! data <- (if vlen data <? length then query (λ _, ok_or (vec_try_reserve data (length - vlen data)) ENOSPC) else sret data) in
  modify (put_data node (Vec (resized length (vdata data)) (vcap data))).
Definition sys_ftruncate (fd length : Z) : sys Outcome :=
  if MAX_LEN <? length then sfail EFBIG
  else
    do! x <- get_desc fd in
    if Z.land (flags x.2) O_ACCMODE =? O_RDONLY then sfail EINVAL
    else match backing x.2 with
         | BFile node =>
             do! is_secret <- gets (secret_node node) in
             if is_secret : bool then sfail EPERM
             else
               waiting_for node (do! _ <- truncate_file node length in sret (Value 0))
         | _ => sfail EINVAL
         end.

Definition sys_write (fd buf count_arg : Z) : sys Outcome :=
  let count := Z.min count_arg IO_MAX in
  guarded buf count AccRead (
    do! x <- get_desc fd in
    let finish :=
      do! b <- Copy.read_mem buf count in
      do! n <- write_backing x.1 x.2 b in sret (Value n) in
    match backing x.2 with BFile node => waiting_for node finish | _ => finish end).

(** [raw.as_chunks::<16>()]: pairs of words. *)
Fixpoint iov_pairs (n : nat) (raw : bytes) : list (Z * Z) :=
  match n with
  | O => []
  | S n => (le_val (take 8 raw), le_val (take 8 (drop 8 raw))) :: iov_pairs n (drop 16 raw)
  end.
Definition iter_iov (iov iovcnt : Z) : sys (list (Z * Z)) :=
  let n := Z.min iovcnt 1024 in
  do! raw <- Copy.read_mem iov (n * 16) in sret (iov_pairs (length raw / 16) raw).

Definition sys_pread (fd buf count_arg pos : Z) : sys Outcome :=
  let count := Z.min count_arg IO_MAX in
  guarded buf count AccWrite (
    do! x <- get_desc fd in
    match backing x.2 with
    | BFile _ => λ w,
        let d := put_offset pos x.2 in
        let '(w, r) := read_backing x.1 d count (put_desc x.1 d w) in
        finish_read buf r (put_desc x.1 x.2 w)
    | _ => sfail ESPIPE
    end).

(** [desc.offset = saved], whatever the write made of it. *)
Definition sys_pwrite (fd buf count_arg pos : Z) : sys Outcome :=
  do! x <- get_desc fd in
  match backing x.2 with
  | BFile node =>
      waiting_for node (
        let count := Z.min count_arg IO_MAX in
        guarded buf count AccRead (
          do! b <- Copy.read_mem buf count in
          λ w,
            let d := put_offset pos x.2 in
            let '(w, r) := write_backing x.1 d b (put_desc x.1 d w) in
            (put_desc x.1 x.2 w, let! n := r in Ok (Value n))))
  | _ => sfail ESPIPE
  end.
End io.
End Io.
