(* ===== verification/FileIoSpec.v ===== *)
(** A regular file seen through a descriptor is an array of bytes and a position.

    [holds] is the array: the node's buffer, or for a chunked file any contents
    the resident chunks agree with. [file_io_refines] relates every read, write
    and truncation to its effect on the array, on every branch. *)

From S2P Require Import Prelude BTree Abi Digest Chunk Filesystem Pager Cpu Net Fd Proc Signals Authority FilesystemInv Env GuestMem Inotify FileIo.

Section contents.
Context `{Host}.

Definition holds (v : Vfs) (node : nat) (l : bytes) : Prop :=
  zlen l ≤ usize_max ∧ ∃ n, nodes v !! node = Some n ∧
    match kind n with
    | File data => vdata data = l
    | Chunked f => file_wf f ∧ backs (chunks v) f l
    | _ => False
    end.

(** * Arrays of bytes *)
Definition byte_at (l : bytes) (i : Z) : Z := default 0 (getz l i).
(** [l'] is [l] with [b] at [start]; a gap before [start] reads as zeros. *)
Definition written (start : Z) (b l l' : bytes) : Prop :=
  zlen l' = Z.max (zlen l) (start + zlen b) ∧
  ∀ i, 0 ≤ i → byte_at l' i = if (start <=? i) && (i <? start + zlen b) then byte_at b (i - start) else byte_at l i.
(** [l'] is [l] cut or extended with zeros to [n] bytes. *)
Definition truncated (n : Z) (l l' : bytes) : Prop :=
  zlen l' = n ∧ ∀ i, 0 ≤ i < n → byte_at l' i = byte_at l i.

Lemma byte_at_nat l i : 0 ≤ i → byte_at l i = default 0 (l !! Z.to_nat i).
Proof. intros Hi. unfold byte_at. rewrite <- (getz_nat l (Z.to_nat i)). by rewrite Z2Nat.id. Qed.

Lemma zlen_resized n l : 0 ≤ n → zlen (resized n l) = n.
Proof.
  intros Hn. unfold resized. destruct (Z.leb_spec n (zlen l)) as [Hle|Hgt]; unfold zlen in *.
  - rewrite length_take. lia.
  - rewrite length_app, length_replicate. lia.
Qed.
Lemma resized_truncated n l : 0 ≤ n → truncated n l (resized n l).
Proof.
  intros Hn. split; [by apply zlen_resized|]. intros i Hi. rewrite !byte_at_nat by lia.
  unfold resized. destruct (Z.leb_spec n (zlen l)) as [Hle|Hgt].
  - by rewrite lookup_take_lt by lia.
  - destruct (decide (Z.to_nat i < length l)%nat).
    + by rewrite lookup_app_l.
    + rewrite lookup_app_r by lia. rewrite (lookup_ge_None_2 l) by lia. cbn.
      destruct (replicate _ _ !! _) as [x|] eqn:E; [|done]. by apply lookup_replicate in E as [-> _].
Qed.

Lemma spliced_written start b l :
  0 ≤ start → start + zlen b ≤ zlen l → written start b l (spliced start b l).
Proof.
  intros Hs Hb. unfold spliced, written, zlen in *.
  rewrite !length_app, length_take, length_drop. split; [lia|]. intros i Hi.
  destruct (Z.leb_spec start i), (Z.ltb_spec i (start + Z.of_nat (length b))); cbn [andb]; rewrite !byte_at_nat by lia.
  - rewrite lookup_app_r by (rewrite length_take; lia).
    rewrite length_take, lookup_app_l by lia. do 2 f_equal. lia.
  - rewrite lookup_app_r by (rewrite length_take; lia). rewrite length_take, lookup_app_r by lia.
    rewrite lookup_drop. do 2 f_equal. lia.
  - rewrite lookup_app_l by (rewrite length_take; lia). by rewrite lookup_take_lt by lia.
  - rewrite lookup_app_l by (rewrite length_take; lia). by rewrite lookup_take_lt by lia.
Qed.

(** Growing first and then copying is one write. *)
Lemma grown_written start b l end_ :
  0 ≤ start → end_ = start + zlen b →
  written start b l (spliced start b (if zlen l <? end_ then resized end_ l else l)).
Proof.
  intros Hs ->. destruct (Z.ltb_spec (zlen l) (start + zlen b)) as [Hlt|Hge]; [|by apply spliced_written].
  pose proof (zlen_nonneg b). pose proof (zlen_nonneg l).
  destruct (resized_truncated (start + zlen b) l) as [Hlen Heq]; [lia|].
  destruct (spliced_written start b (resized (start + zlen b) l)) as [Hz Hi]; [lia..|].
  rewrite Hlen in Hz. split; [lia|]. intros i Hi0. rewrite Hi by done.
  destruct ((start <=? i) && (i <? start + zlen b)) eqn:E; [done|].
  destruct (decide (i < start + zlen b)); [by apply Heq|].
  rewrite !byte_at_nat by lia. by rewrite !lookup_ge_None_2 by (unfold zlen in *; lia).
Qed.

(** * Reading the whole of a chunked file *)
Lemma read_whole v f l b :
  file_wf f → backs (chunks v) f l → zlen l ≤ usize_max →
  Fs.read_chunked_range v f 0 usize_max = Ok (Chunk.Ready b) → vdata b = l.
Proof.
  intros Hf Hb Hl. unfold Fs.read_chunked_range. pose proof usize_max_bounds as Hu. unfold_widths.
  assert (Hhi : Z.min (saturating_add64 0 usize_max) (cf_size f) = cf_size f).
  { destruct Hb as [<- _]. unfold saturating_add64, U64_MAX. lia. }
  pose proof (zlen_nonneg l). pose proof (proj1 Hb) as Hsz.
  destruct (read_range_cases (chunks v) f 0 usize_max Hf) as [[Hle ->]|(_ & r & -> & Hr)]; [done|lia|..]; rewrite Hhi in *.
  - intros [= <-]. cbn. symmetry. apply nil_length_inv. unfold zlen in Hsz. lia.
  - intros [= ->]. inversion Hr as [data ? ? Hd Hm| |]. subst. cbn. rewrite (Hd l Hb).
    rewrite <- Hsz. apply slicez_full.
Qed.

Lemma materialize_holds v node l : holds v node l →
  let '(v', r) := Fs.materialize_file node v in
  chunks v' = chunks v ∧ storage_budget v' = storage_budget v ∧ (∀ m, m ≠ node → nodes v' !! m = nodes v !! m) ∧
  match r with
  | Ok data => vdata data = l ∧ ∃ n, nodes v' !! node = Some n ∧ kind n = File data
  | Err _ => v' = v
  | Panic => False
  end.
Proof.
  intros (Hl & n & Hn & Hk). unfold Fs.materialize_file, sbind, query. rewrite Hn. cbn [ok_or rbind].
  destruct (kind n) as [|data|f| |] eqn:Ek; try done.
  - cbn. unfold node_at. rewrite Hn. cbn. rewrite Ek. split_and!; [done..|]. eauto.
  - destruct Hk as [Hf Hb].
    destruct (read_chunked_range_ok v f 0 usize_max Hf) as [r Hr];
      [done|pose proof usize_max_bounds; unfold_widths; lia|].
    rewrite Hr. destruct r as [b|h|]; cbn; try (by split_and!).
    pose proof (reserve_no_panic v (vcap b)) as Hp.
    destruct (Fs.reserve v (vcap b)) as [[]|e|]; [|by split_and!|done].
    unfold node_at. rewrite Hn. cbn. pose proof (lookup_lt_Some _ _ _ Hn).
    rewrite list_lookup_insert_eq by done. cbn. split_and!; try done.
    + intros m Hm. by rewrite list_lookup_insert_ne.
    + by apply (read_whole v f l b).
    + by eexists.
Qed.
End contents.

Section refinement.
Context `{Host} {B : Type} `{NetworkBroker B} {M V : Type} `{GuestMemory M V}.
Abbreviation machine := (Machine B M V).
Implicit Types w : machine.

(** The open file description [i] reads and writes [node], which holds [l]. *)
Record open_file (i : Z) (fl : Z) (node : nat) (l : bytes) (off : Z) w : Prop := {
  of_desc : ∃ c, ofds (heap (env w)) !! i = Some ({| backing := BFile node; offset := off; flags := fl |}, c);
  of_holds : holds (fs w) node l;
  of_plain : Io.secret_node node w = false;
  of_off : is_u64 off
}.

Inductive io_op := IoRead (n : Z) | IoWrite (b : bytes) | IoTruncate (n : Z).
Inductive io_res := IoBytes (b : bytes) | IoCount (n : Z).
Definition io_desc (fl : Z) (node : nat) (off : Z) : Description := {| backing := BFile node; offset := off; flags := fl |}.
Definition run_io (op : io_op) (i fl : Z) (node : nat) (off : Z) : stm machine ReadBackingError io_res :=
  match op with
  | IoRead n => do! b <- Io.read_backing i (io_desc fl node off) n in sret (IoBytes b)
  | IoWrite b => map_err Errno (do! n <- Io.write_backing i (io_desc fl node off) b in sret (IoCount n))
  | IoTruncate n => map_err Errno (do! _ <- Io.truncate_file node n in sret (IoCount 0))
  end.
Definition io_ok (op : io_op) : Prop :=
  match op with IoRead n => 0 ≤ n ≤ usize_max | IoWrite b => True | IoTruncate n => is_u64 n end.

(** The array and position after a call, and what it answers. *)
Inductive io_spec (fl : Z) (l : bytes) (off : Z) : io_op → io_res → bytes → Z → Prop :=
| Spec_read n b :
    b = slicez l (Z.min off (zlen l)) (Z.min (off + n) (zlen l)) →
    io_spec fl l off (IoRead n) (IoBytes b) l (off + zlen b)
| Spec_write b l' start :
    start = (if has_flag fl O_APPEND then zlen l else off) → written start b l l' →
    io_spec fl l off (IoWrite b) (IoCount (zlen b)) l' (start + zlen b)
| Spec_truncate n l' :
    truncated n l l' → io_spec fl l off (IoTruncate n) (IoCount 0) l' off.

Lemma fs_put_fs v w : fs (put_fs v w) = v.
Proof. done. Qed.
Lemma put_desc_ofds i d w d0 c :
  ofds (heap (env w)) !! i = Some (d0, c) → ofds (heap (env (put_desc i d w))) !! i = Some (d, c).
Proof. intros Hd. cbn. by rewrite lookup_alter_eq, Hd. Qed.
Lemma notify_inotify_same node name mask cookie w :
  fs (Watching.notify_inotify node name mask cookie w) = fs w ∧
  ofds (heap (env (Watching.notify_inotify node name mask cookie w))) = ofds (heap (env w)) ∧
  secrets (env (Watching.notify_inotify node name mask cookie w)) = secrets (env w).
Proof. unfold Watching.notify_inotify. by case_bool_decide. Qed.

(** Putting a buffer into a node that is a file. *)
Lemma put_data_holds node data w n l :
  nodes (fs w) !! node = Some n → vdata data = l → zlen l ≤ usize_max → holds (fs (Io.put_data node data w)) node l.
Proof.
  intros Hn Hd Hl. unfold Io.put_data. rewrite Hn, fs_put_fs. split; [done|].
  exists (with_kind n (File data)). split; [|done]. cbn. apply list_lookup_insert_eq.
  by apply lookup_lt_Some in Hn.
Qed.
Lemma put_data_env node data w :
  heap (env (Io.put_data node data w)) = heap (env w) ∧ secrets (env (Io.put_data node data w)) = secrets (env w).
Proof. unfold Io.put_data. by destruct (nodes (fs w) !! node). Qed.

(** A file that was materialized and then is what it was. *)
Lemma materialized_holds v node l v' r :
  holds v node l → Fs.materialize_file node v = (v', r) → r ≠ Panic ∧ holds v' node l.
Proof.
  intros Hh Hm. pose proof (materialize_holds v node l Hh) as Hr. rewrite Hm in Hr.
  destruct Hr as (_ & _ & _ & Hr), r as [data|e|]; [|by subst|done]. destruct Hr as (Hd & n & Hn & Hk).
  split; [done|]. destruct Hh as [Hl _]. split; [done|]. exists n. by rewrite Hk.
Qed.
Lemma with_materialized i fl node l off w v' r :
  open_file i fl node l off w → Fs.materialize_file node (fs w) = (v', r) →
  r ≠ Panic ∧ open_file i fl node l off (put_fs v' w) ∧
  ∀ data, r = Ok data → vdata data = l ∧ ∃ n, nodes v' !! node = Some n ∧ kind n = File data.
Proof.
  intros [Hd Hh Hs Ho] Hm. destruct (materialized_holds _ _ _ _ _ Hh Hm) as [Hp Hh'].
  split; [done|]. split; [by split|]. intros data ->.
  pose proof (materialize_holds (fs w) node l Hh) as Hr. rewrite Hm in Hr. apply Hr.
Qed.
(** Materializing again changes nothing. *)
Lemma materialize_again v node n data :
  nodes v !! node = Some n → kind n = File data → Fs.materialize_file node v = (v, Ok data).
Proof.
  intros Hn Hk. unfold Fs.materialize_file, sbind, query, node_at. rewrite Hn. cbn. rewrite Hk. cbn.
  rewrite Hn. cbn. by rewrite Hk.
Qed.
(** What a call may leave when it fails. *)
Definition io_post (i fl : Z) (node : nat) (l : bytes) (off : Z) (op : io_op) w (x : machine * res ReadBackingError io_res) : Prop :=
  let '(w', r) := x in
  match r with
  | Ok out => ∃ l' off', io_spec fl l off op out l' off' ∧ open_file i fl node l' off' w'
  | Err e =>
      (∃ off', (off' = off ∨ has_flag fl O_APPEND = true ∧ off' = zlen l) ∧ open_file i fl node l off' w') ∧
      ∀ h, e = MissingChunk h → w' = w ∧ Store.get (chunks (fs w)) h = None
  | Panic => False
  end.
Lemma io_post_errno i fl node l off op w w' e off' :
  off' = off ∨ has_flag fl O_APPEND = true ∧ off' = zlen l → open_file i fl node l off' w' →
  io_post i fl node l off op w (w', Err (Errno e)).
Proof. intros ? ?. split; [by exists off'|done]. Qed.

(** * Reading *)
Lemma slicez_empty {A} (l : list A) a b : b ≤ a → slicez l a b = [].
Proof. intros. unfold slicez. by replace (Z.to_nat (b - a)) with 0%nat by lia. Qed.

Lemma read_node_range_holds v node l off n :
  holds v node l → is_u64 off → 0 ≤ n ≤ usize_max →
  ∃ r, Fs.read_node_range v node off n = Ok r ∧
    match r with
    | Chunk.Ready b => vdata b = slicez l (Z.min off (zlen l)) (Z.min (off + n) (zlen l))
    | Missing h => Store.get (chunks v) h = None
    | Invalid _ _ _ => True
    end.
Proof.
  intros (Hl & nd & Hn & Hk) Ho Hr. unfold Fs.read_node_range. rewrite Hn. cbn [ok_or rbind].
  pose proof usize_max_bounds as Hu. unfold_widths. destruct Ho as [Ho0 Ho1]. pose proof (zlen_nonneg l).
  destruct (kind nd) as [|data|f| |] eqn:Ek; try done.
  - eexists. split; [done|]. cbn. subst l. unfold try_usize, saturating_add_usize. change (vlen data) with (zlen (vdata data)).
    f_equal; destruct (Z.leb_spec off usize_max); cbn; lia.
  - destruct Hk as [Hf Hb]. pose proof (proj1 Hb) as Hsz. unfold Fs.read_chunked_range.
    assert (Hhi : Z.min (saturating_add64 off n) (cf_size f) = Z.min (off + n) (zlen l)).
    { rewrite Hsz. unfold saturating_add64, U64_MAX in *. lia. }
    destruct (read_range_cases (chunks v) f off n Hf) as [[Hle ->]|(Hlt & r & -> & Hres)]; [done|done|..]; rewrite Hhi in *.
    + eexists. split; [done|]. cbn. symmetry. apply slicez_empty. lia.
    + eexists. split; [done|]. inversion Hres as [data ? ? Hd|? h ? ? ?|]; subst; [|done|done].
      cbn. rewrite (Hd l Hb). f_equal; lia.
Qed.

Lemma slicez_zlen (l : bytes) a b : 0 ≤ a ≤ b → b ≤ zlen l → zlen (slicez l a b) = b - a.
Proof. intros ? ?. unfold zlen in *. unfold slicez. rewrite length_take, length_drop. lia. Qed.

Lemma read_io_ok i fl node l off w n :
  open_file i fl node l off w → 0 ≤ n ≤ usize_max →
  io_post i fl node l off (IoRead n) w (run_io (IoRead n) i fl node off w).
Proof.
  intros Hof Hn. pose proof Hof as [[c Hd] Hh Hs Ho].
  destruct (read_node_range_holds _ _ _ _ n Hh Ho Hn) as (r & Hr & Hres).
  cbn [run_io]. unfold Io.read_backing, io_desc. cbn [backing]. unfold Io.read_file, sbind at 1 2, gets. rewrite Hs.
  unfold sbind at 1, map_err, query. cbn [offset]. rewrite Hr.
  destruct r as [b|h|];
    [|split; [exists off; by auto|by intros ? [= <-]]|by apply (io_post_errno _ _ _ _ _ _ _ _ _ off); [by left|]].
  pose proof (zlen_nonneg l). pose proof (proj1 Hh) as Hmax. pose proof usize_max_bounds as Hu. unfold_widths. destruct Ho as [Ho0 Ho1].
  assert (Hb : off + zlen (vdata b) ≤ U64_MAX ∧ (zlen (vdata b) = 0 ∨ off + zlen (vdata b) ≤ zlen l)).
  { rewrite Hres, slicez_zlen by lia. unfold U64_MAX. lia. }
  unfold Io.advance, sbind, query, modify, sret, add64. cbn [offset]. change (vlen b) with (zlen (vdata b)).
  destruct (Z.leb_spec (off + zlen (vdata b)) U64_MAX) as [_|]; [|lia]. cbn [fst snd].
  exists l, (off + zlen (vdata b)). split; [by constructor|]. split; [|done|done|].
  - eexists. by erewrite put_desc_ofds.
  - pose proof (zlen_nonneg (vdata b)). unfold U64_MAX in *. split; lia.
Qed.

(** * Writing *)
Lemma put_fs_same w : put_fs (fs w) w = w.
Proof. by destruct w as [[[] ] ? ?]. Qed.
Lemma try_reserve_data v n v' : vec_try_reserve v n = Some v' → vdata v' = vdata v.
Proof.
  unfold vec_try_reserve. case_if; [by intros [= <-]|]. by case_if; [intros [= <-]|].
Qed.
Lemma open_at_put_desc i fl node l off off' w :
  open_file i fl node l off w → is_u64 off' → open_file i fl node l off' (put_desc i (io_desc fl node off') w).
Proof. intros [[c Hd] Hh Hs Ho] Ho'. split; [|done..]. exists c. by erewrite put_desc_ofds. Qed.

(** The last steps of a write, once room was found. *)
Lemma store_ok i fl node l off w data n l' end_ :
  open_file i fl node l off w → nodes (fs w) !! node = Some n → vdata data = l' →
  zlen l' ≤ usize_max → 0 ≤ end_ ≤ usize_max →
  open_file i fl node l' end_ (Watching.notify_inotify node [] IN_MODIFY 0
    (put_desc i (io_desc fl node end_) (Io.put_data node data w))).
Proof.
  intros [[c Hd] Hh Hs Ho] Hn Hl Hmax He. pose proof usize_max_bounds as Hu. unfold_widths.
  destruct (put_data_env node data w) as [Hheap Hsec].
  set (w1 := put_desc i (io_desc fl node end_) (Io.put_data node data w)).
  destruct (notify_inotify_same node [] IN_MODIFY 0 w1) as (Hf & Hofd & Hsc). split.
  - exists c. rewrite Hofd. unfold w1. erewrite put_desc_ofds; [done|]. by rewrite Hheap.
  - rewrite Hf. by apply (put_data_holds _ _ _ n).
  - unfold Io.secret_node. rewrite Hsc. cbn. rewrite Hsec. exact Hs.
  - split; lia.
Qed.
Lemma grow_ok node data end_ w :
  (∃ e, Io.grow node data end_ w = (w, Err e)) ∨
  ∃ data', Io.grow node data end_ w = (w, Ok data') ∧
    vdata data' = if zlen (vdata data) <? end_ then resized end_ (vdata data) else vdata data.
Proof.
  unfold Io.grow. change (vlen data) with (zlen (vdata data)). destruct (_ <? _); [|by right; eexists].
  unfold sbind, query. destruct (vec_try_reserve _ _) as [v'|] eqn:E; cbn; [right|by left; eexists].
  eexists. split; [done|]. cbn. by rewrite (try_reserve_data _ _ _ E).
Qed.

Lemma written_zlen start b l l' : written start b l l' → zlen l ≤ usize_max → start + zlen b ≤ usize_max → zlen l' ≤ usize_max.
Proof. intros [-> _] ? ?. lia. Qed.

(** A write at a settled position: finding room, and storing. *)
Definition store_at (i fl : Z) (node : nat) (start end_ : Z) (b : bytes) : stm machine Z Z :=
  do! data <- with_fs (Fs.materialize_file node) in
  do! data <- Io.grow node data end_ in
  do! _ <- modify (Io.put_data node (Vec (spliced start b (vdata data)) (vcap data))) in
  do! _ <- modify (put_desc i (io_desc fl node end_)) in
  do! _ <- modify (Watching.notify_inotify node [] IN_MODIFY 0) in
  sret (zlen b).
Definition write_at (i fl : Z) (node : nat) (off len : Z) (b : bytes) : stm machine Z Z :=
  do! start <- query (λ _, guest_size off) in
  do! end_ <- query (λ _, ok_or (checked_add_usize start (zlen b)) EFBIG) in
  do! _ <- (if len <? end_ then query (λ w, Fs.reserve (fs w) (end_ - len)) else sret ()) in
  store_at i fl node start end_ b.
Definition counted_io (m : stm machine Z Z) : stm machine ReadBackingError io_res :=
  map_err Errno (do! n <- m in sret (IoCount n)).

Section write_at.
Variables (i fl : Z) (node : nat) (l : bytes) (off start : Z) (b : bytes) (w0 w : machine) (data : vec) (n : Node).
Hypothesis Hof : open_file i fl node l start w.
Hypothesis Hn : nodes (fs w) !! node = Some n.
Hypothesis Hk : kind n = File data.
Hypothesis Hst : start = (if has_flag fl O_APPEND then zlen l else off).
Hypothesis Hdata : vdata data = l.

Lemma write_err e : io_post i fl node l off (IoWrite b) w0 (w, Err (Errno e)).
Proof. eapply io_post_errno; [|done]. rewrite Hst. destruct (has_flag fl O_APPEND); auto. Qed.

Lemma store_at_ok : start + zlen b ≤ usize_max →
  io_post i fl node l off (IoWrite b) w0 (counted_io (store_at i fl node start (start + zlen b) b) w).
Proof.
  intros Hend. pose proof (of_off _ _ _ _ _ _ Hof) as [Hs0 _]. pose proof (of_holds _ _ _ _ _ _ Hof) as [Hlmax _].
  pose proof (zlen_nonneg b). unfold counted_io, store_at, map_err, sbind, with_fs.
  rewrite (materialize_again _ _ n data) by done. rewrite put_fs_same.
  destruct (grow_ok node data (start + zlen b) w) as [[e ->]|(data' & -> & Hd')]; [apply write_err|].
  unfold modify, sret. exists (spliced start b (vdata data')), (start + zlen b).
  assert (Hw : written start b l (spliced start b (vdata data'))).
  { rewrite Hd', Hdata. by apply grown_written. }
  split; [by constructor|]. eapply store_ok; [done..| |lia]. by eapply written_zlen.
Qed.

Lemma write_at_ok : io_post i fl node l off (IoWrite b) w0 (counted_io (write_at i fl node start (zlen l) b) w).
Proof.
  unfold counted_io, write_at, map_err, sbind, query, guest_size, try_usize.
  destruct (Z.leb_spec start usize_max); [|apply write_err]. cbn [ok_or]. unfold checked_add_usize.
  destruct (Z.leb_spec (start + zlen b) usize_max) as [Hend|]; [|apply write_err]. cbn [ok_or].
  pose proof (store_at_ok Hend) as Hs. destruct (zlen l <? start + zlen b); [|exact Hs].
  pose proof (reserve_no_panic (fs w) (start + zlen b - zlen l)) as Hp.
  destruct (Fs.reserve _ _) as [[]|e|]; [exact Hs|apply write_err|done].
Qed.
End write_at.

Lemma write_io_ok i fl node l off w b :
  open_file i fl node l off w → io_post i fl node l off (IoWrite b) w (run_io (IoWrite b) i fl node off w).
Proof.
  intros Hof. cbn [run_io]. fold (counted_io (Io.write_backing i (io_desc fl node off) b)).
  assert (Herr : ∀ e w', open_file i fl node l off w' → io_post i fl node l off (IoWrite b) w (w', Err (Errno e))).
  { intros e w' ?. eapply io_post_errno; [by left|done]. }
  unfold Io.write_backing. destruct (negb _); [by apply Herr|]. cbn [backing io_desc].
  unfold Io.write_file, counted_io, map_err. unfold sbind at 1 2 3. unfold gets, with_fs.
  rewrite (of_plain _ _ _ _ _ _ Hof).
  destruct (Fs.materialize_file node (fs w)) as [v1 r1] eqn:Hm.
  destruct (with_materialized _ _ _ _ _ _ _ _ Hof Hm) as (Hp & Hof1 & Hd).
  destruct r1 as [data|e|]; [|by apply Herr|done]. destruct (Hd data eq_refl) as (Hdata & n & Hn & Hk).
  change (vlen data) with (zlen (vdata data)). rewrite Hdata. cbn [io_desc flags].
  pose proof usize_max_bounds as Hu. unfold_widths. pose proof (of_holds _ _ _ _ _ _ Hof) as [Hmax _]. pose proof (zlen_nonneg l).
  set (start := if has_flag fl O_APPEND then zlen l else off).
  assert (Hw1 : open_file i fl node l start (put_desc i (io_desc fl node start) (put_fs v1 w))).
  { eapply open_at_put_desc; [done|]. unfold start. destruct (has_flag fl O_APPEND); [split; lia|]. apply (of_off _ _ _ _ _ _ Hof). }
  pose proof (write_at_ok i fl node l off start b w _ data n Hw1 Hn Hk eq_refl Hdata) as Hok.
  unfold start in Hok |- *. destruct (has_flag fl O_APPEND); exact Hok.
Qed.

(** * Truncating *)
Lemma put_data_open i fl node l off w data n l' :
  open_file i fl node l off w → nodes (fs w) !! node = Some n → vdata data = l' → zlen l' ≤ usize_max →
  open_file i fl node l' off (Io.put_data node data w).
Proof.
  intros [Hd Hh Hs Ho] Hn Hl Hmax. destruct (put_data_env node data w) as [Hheap Hsec]. split.
  - by rewrite Hheap.
  - by apply (put_data_holds _ _ _ n).
  - unfold Io.secret_node. by rewrite Hsec.
  - done.
Qed.
Lemma truncate_ok i fl node l off w n :
  open_file i fl node l off w → is_u64 n →
  io_post i fl node l off (IoTruncate n) w (run_io (IoTruncate n) i fl node off w).
Proof.
  intros Hof [Hn0 _]. assert (Herr : ∀ e w', open_file i fl node l off w' → io_post i fl node l off (IoTruncate n) w (w', Err (Errno e))).
  { intros e w' ?. eapply io_post_errno; [by left|done]. }
  cbn [run_io]. unfold Io.truncate_file, map_err. unfold sbind at 1 2. unfold with_fs at 1.
  destruct (Fs.materialize_file node (fs w)) as [v1 r1] eqn:Hm.
  destruct (with_materialized _ _ _ _ _ _ _ _ Hof Hm) as (Hp & Hof1 & Hd).
  destruct r1 as [data|e|]; [|by apply Herr|done]. destruct (Hd data eq_refl) as (Hdata & nd & Hnd & Hk).
  set (w1 := put_fs v1 w) in *. unfold sbind at 1, query at 1, guest_size, try_usize.
  destruct (Z.leb_spec n usize_max) as [Hmax|]; [|by apply Herr]. cbn [ok_or].
  assert (Hstore : ∀ data', vdata data' = l → io_post i fl node l off (IoTruncate n) w
    (Io.put_data node (Vec (resized n (vdata data')) (vcap data')) w1, Ok (IoCount 0))).
  { intros data' ->. eexists _, off. split; [constructor; by apply resized_truncated|].
    eapply put_data_open; [done..|]. by rewrite zlen_resized. }
  assert (Hre : with_fs (Fs.materialize_file node) w1 = (w1, Ok data)).
  { unfold with_fs. change (fs w1) with v1. rewrite (materialize_again v1 _ nd data) by done. exact (f_equal (λ x, (x, _)) (put_fs_same w1)). }
  assert (Htail : io_post i fl node l off (IoTruncate n) w (map_err Errno (do! _ <- (
    do! data <- with_fs (Fs.materialize_file node) in
    do! data <- (if vlen data <? n then query (λ _, ok_or (vec_try_reserve data (n - vlen data)) ENOSPC) else sret data) in
    modify (Io.put_data node (Vec (resized n (vdata data)) (vcap data)))) in sret (IoCount 0)) w1)).
  { unfold map_err, sbind. rewrite Hre. destruct (vlen data <? n); [|by apply Hstore]. unfold query.
    destruct (vec_try_reserve _ _) as [v'|] eqn:E; cbn [ok_or]; [|by apply Herr].
    apply Hstore. by rewrite (try_reserve_data _ _ _ E). }
  unfold sbind at 1. destruct (vlen data <? n) eqn:Elt; [|exact Htail].
  pose proof (reserve_no_panic (fs w1) (n - vlen data)). unfold query at 1.
  destruct (Fs.reserve _ _) as [[]|e|]; [|by apply Herr|done]. exact Htail.
Qed.
End refinement.

(** C2. Descriptor I/O on a regular file is I/O on an array of bytes at a
    position, whatever the node is made of (a buffer or chunks). A read answers
    exactly the bytes between the position and the end of the request or of the
    file, and advances by them; a write puts its bytes at the position, or at the
    end when appending, fills a gap with zeros, keeps every other byte and
    advances past them; a truncation cuts or zero-extends. A call that fails
    keeps the contents, and says a chunk is missing only when it is; no call
    panics. *)
Theorem file_io_refines `{Host} {B} `{NetworkBroker B} {M V} `{GuestMemory M V} (w : Machine B M V) i fl node l off op :
  open_file i fl node l off w → io_ok op →
  let '(w', r) := run_io op i fl node off w in
  match r with
  | Ok out => ∃ l' off', io_spec fl l off op out l' off' ∧ open_file i fl node l' off' w'
  | Err e =>
      (∃ off', (off' = off ∨ has_flag fl O_APPEND = true ∧ off' = zlen l) ∧ open_file i fl node l off' w') ∧
      ∀ h, e = MissingChunk h → w' = w ∧ Store.get (chunks (fs w)) h = None
  | Panic => False
  end.
Proof. intros Hof. destruct op; intros Hok; [by apply read_io_ok|by apply write_io_ok|by apply truncate_ok]. Qed.

(** A machine with an open file of three bytes. *)
Definition three_bytes : Vfs := (Fs.create ROOT [97] (File (Vec [1; 2; 3] 3)) 420 Fs.empty_root).1.
Definition file_machine : Machine HostBroker (gmap Z Z) (gmap Z Z) :=
  put_fs three_bytes {| env := put_heap (Fds.ofd_new (io_desc O_RDWR 1 5) (heap_empty Host_broker.new)).2 (env_new Host_broker.new);
     core := {| regs := ∅; scratch := []; exception := Core.external 0; pending_exception := None; icount := 0;
                block_id := 0; block_offset := 0 |};
     mem := ∅ |}.
Lemma file_io_refines_witness :
  ∃ w', run_io (IoWrite [7; 8]) 0 O_RDWR 1 5 file_machine = (w', Ok (IoCount 2)) ∧
    (∃ l' off', io_spec O_RDWR [1; 2; 3] 5 (IoWrite [7; 8]) (IoCount 2) l' off' ∧ open_file 0 O_RDWR 1 l' off' w') ∧
    snd (run_io (IoRead 9) 0 O_RDWR 1 2 w') = Ok (IoBytes [3; 0; 0; 7; 8]).
Proof.
  assert (Hof : open_file 0 O_RDWR 1 [1; 2; 3] 5 file_machine).
  { split; [by eexists|split; [vm_compute; congruence|by eexists]|vm_compute; reflexivity|unfold fits; lia]. }
  pose proof (file_io_refines file_machine 0 O_RDWR 1 [1; 2; 3] 5 (IoWrite [7; 8]) Hof I) as Hr.
  destruct (run_io (IoWrite [7; 8]) 0 O_RDWR 1 5 file_machine) as [w' r] eqn:E.
  assert (r = Ok (IoCount 2)) as ->.
  { change r with ((w', r).2). rewrite <- E. vm_compute. reflexivity. }
  exists w'. split; [reflexivity|]. split; [exact Hr|].
  change w' with ((w', Ok (E:=ReadBackingError) (IoCount 2)).1). rewrite <- E. vm_compute. reflexivity.
Defined.

(** A write is charged for the bytes it adds, while the filesystem counts
    capacities: with a doubling allocator the last byte under the ceiling takes
    the total past it. *)
Definition eight_bytes : Vfs :=
  (λ v : Vfs, {| nodes := nodes v; chunks := chunks v; manifest_root := manifest_root v; storage_budget := Some 9;
                 unlinked := unlinked v |}) (Fs.create ROOT [97] (File (Vec (replicate 8 1) 8)) 420 Fs.empty_root).1.
Example write_past_budget :
  let '(w', r) := run_io (IoWrite [7]) 0 O_RDWR 1 8 (put_fs eight_bytes file_machine) in
  r = Ok (IoCount 1) ∧ Fs.total_bytes eight_bytes = 8 ∧ Fs.total_bytes (fs w') = 16.
Proof. vm_compute. auto. Qed.
(** A write of no bytes past the end extends the file. *)
Example empty_write_extends :
  let '(w', r) := run_io (IoWrite []) 0 O_RDWR 1 5 file_machine in
  r = Ok (IoCount 0) ∧ snd (run_io (IoRead 9) 0 O_RDWR 1 0 w') = Ok (IoBytes [1; 2; 3; 0; 0]).
Proof. vm_compute. auto. Qed.
