(* ===== verification/Streams.v ===== *)
(** Blocking reads and writes: pipes, socket pairs, event counters, timers,
    sockets and terminals, with the calls that create them, of
    [crates/linux-compat/src/syscall.rs].

    A read that finds nothing parks the task on a watch of the object and is
    replayed when the watch fires; [O_NONBLOCK] turns that into [EAGAIN]. *)

From S2P Require Import Prelude BTree Abi Digest Chunk Filesystem Pager Cpu Net Fd Proc Signals Authority Env GuestMem Switch ProcCalls Inotify FileIo.

(** * Updates of the objects *)
Definition take_data (n : Z) (p : PipeInner) : PipeInner :=
  {| p_data := drop (Z.to_nat n) (p_data p); p_readers := p_readers p; p_writers := p_writers p;
     p_activity := wrapping_add64 (p_activity p) 1 |}.
Definition add_data (b : bytes) (p : PipeInner) : PipeInner :=
  {| p_data := p_data p ++ b; p_readers := p_readers p; p_writers := p_writers p;
     p_activity := wrapping_add64 (p_activity p) 1 |}.
Definition take_event (e : EventFdInner) : EventFdInner * Z :=
  let act := wrapping_add64 (e_activity e) 1 in
  if e_semaphore e then ({| e_count := e_count e - 1; e_semaphore := true; e_activity := act |}, 1)
  else ({| e_count := 0; e_semaphore := false; e_activity := act |}, e_count e).
Definition add_event (v : Z) (e : EventFdInner) : EventFdInner :=
  {| e_count := saturating_add64 (e_count e) v; e_semaphore := e_semaphore e;
     e_activity := wrapping_add64 (e_activity e) 1 |}.
(** The expirations due at [now] and the timer after they were taken. *)
Definition take_expirations (now : Z) (t : TimerFdInner) : option (TimerFdInner * Z) :=
  match next_expiry t with
  | Some expiry =>
      if expiry <=? now then
        if interval t =? 0 then Some ({| next_expiry := None; interval := interval t |}, 1)
        else
          let n := saturating_add64 ((now - expiry) / interval t) 1 in
          Some ({| next_expiry := Some (saturating_add64 expiry (saturating_mul64 n (interval t)));
                   interval := interval t |}, n)
      else None
  | None => None
  end.
Definition stir_socket (s : NetSocket) : NetSocket :=
  {| s_kind := s_kind s; s_handle := s_handle s; s_peer := s_peer s; s_activity := wrapping_add64 (s_activity s) 1 |}.
(** [\n] to [\r\n]. *)
Fixpoint expand_newlines (l : bytes) : bytes :=
  match l with
  | [] => []
  | b :: l => if b =? 10 then 13 :: b :: expand_newlines l else b :: expand_newlines l
  end.
(** The queue a terminal end reads, and end of file. *)
Definition pty_queue (master : bool) (p : Pty) : bytes := if master then s2m p else m2s p.
Definition pty_eof (master : bool) (p : Pty) : bool :=
  if master then slave_ever_opened p && (slaves p =? 0) else masters p =? 0.
Definition pty_take (master : bool) (n : Z) (p : Pty) : Pty :=
  let q := drop (Z.to_nat n) (pty_queue master p) in
  Terminal.touch (if master then Terminal.with_output q p else Terminal.with_input q p).

Module Stream.
Section stream.
Context `{Host} {B : Type} `{NetworkBroker B} {M V : Type} `{GuestMemory M V}.
Abbreviation machine := (Machine B M V).
Abbreviation sys := (stm machine Z).

(** [object.borrow()]; a live reference always finds its object. *)
Definition borrow {A} (f : Heap B → gmap Z A) (i : Z) : sys A := query (λ w, expect (f (heap (env w)) !! i)).
Definition put_pipe (i : Z) (p : PipeInner) : machine → machine := on_heap (λ h, set_pipes (<[i := p]> (pipes h)) h).
Definition put_event (i : Z) (e : EventFdInner) : machine → machine := on_heap (λ h, set_events (<[i := e]> (events h)) h).
Definition put_timer (i : Z) (t : TimerFdInner) : machine → machine := on_heap (λ h, set_timers (<[i := t]> (timers h)) h).
Definition put_socket (i : Z) (s : NetSocket) : machine → machine := on_heap (λ h, set_sockets (<[i := s]> (sockets h)) h).
Definition put_pty (i : Z) (p : Pty) : machine → machine := on_heap (λ h, set_ptys (<[i := p]> (ptys h)) h).
(** [inner.broker.borrow_mut()] *)
Definition with_broker {A} (m : stm B Z A) : sys A := λ w,
  let '(b, r) := m (broker (heap (env w))) in (on_heap (set_broker b) w, r).

Inductive ReadKind :=
| RPlain | RPipe (pipe : Z) | REvent (event : Z) | RTimer (timer : Z) | RNet (socket : Z) | RPty (pty : Z) (master : bool).
Definition read_kind (d : Description) : res Z ReadKind :=
  if negb (desc_readable d) then Err EBADF
  else match backing d with
       | BPipe i false => Ok (RPipe i)
       | BPipe _ true => Err EBADF
       | BSocketPair rx _ => Ok (RPipe rx)
       | BEventFd i => Ok (REvent i)
       | BTimerFd i => Ok (RTimer i)
       | BNet i => Ok (RNet i)
       | BPtyMaster i => Ok (RPty i true)
       | BPtySlave i => Ok (RPty i false)
       | BEpoll _ => Err EINVAL
       | _ => Ok RPlain
       end.
Definition nonblocking (d : Description) : bool := has_flag (flags d) O_NONBLOCK.

Definition would_block (nonblock : bool) (x : Watch) : sys Outcome :=
  if nonblock then sfail EAGAIN else Switch.block_and_switch (Waiting [x] None) true.
(** The bytes read go to the guest. *)
Definition deliver (buf : Z) (b : bytes) : sys Outcome :=
  do! _ <- Copy.write_mem buf b in sret (Value (zlen b)).

Definition read_pipe (i buf count : Z) (nonblock : bool) : sys Outcome :=
  do! p <- borrow pipes i in
  if bool_decide (p_data p = []) then
    if p_writers p =? 0 then sret (Value 0) else would_block nonblock (PipeReadable i)
  else
    let n := Z.min (Z.min (as_usize count) (zlen (p_data p))) IO_MAX in
    do! _ <- modify (put_pipe i (take_data n p)) in
    deliver buf (take (Z.to_nat n) (p_data p)).
Definition read_event (i buf count : Z) (nonblock : bool) : sys Outcome :=
  if count <? 8 then sfail EINVAL
  else
    do! e <- borrow events i in
    if e_count e =? 0 then would_block nonblock (Event i)
    else
      let '(e, v) := take_event e in
      do! _ <- modify (put_event i e) in deliver buf (le_bytes 8 v).
Definition read_timer (i buf count : Z) (nonblock : bool) : sys Outcome :=
  if count <? 8 then sfail EINVAL
  else
    do! now <- gets now_nanos in
    do! t <- borrow timers i in
    match take_expirations now t with
    | None => would_block nonblock (Timer i)
    | Some (t, n) => do! _ <- modify (put_timer i t) in deliver buf (le_bytes 8 n)
    end.
(** Data from the broker, datagrams without their sender. *)
Definition receive (s : NetSocket) (count : Z) : sys RecvOutcome :=
  do! h <- query (λ _, ok_or (s_handle s) ENOTCONN) in
  match s_kind s with
  | TcpSocket => with_broker (tcp_recv h (as_usize count))
  | UdpSocket =>
      do! r <- with_broker (udp_recv_from h (as_usize count)) in
      sret (match r with Some (b, _) => Data b | None => WouldBlock end)
  end.
Definition read_net (i buf count : Z) (nonblock : bool) : sys Outcome :=
  do! s <- borrow sockets i in
  do! r <- receive s count in
  match r with
  | Data b => do! _ <- modify (put_socket i (stir_socket s)) in deliver buf b
  | Closed => sret (Value 0)
  | WouldBlock => would_block nonblock (NetReadable i)
  end.
Definition read_pty (i buf count : Z) (master nonblock : bool) : sys Outcome :=
  do! p <- borrow ptys i in
  do! stopped <- (if master then sret None else Switch.background_tty_access p SIGTTIN) in
  match stopped with
  | Some o => sret o
  | None =>
      do! p <- borrow ptys i in
      if bool_decide (pty_queue master p = []) then
        if pty_eof master p then sret (Value 0) else would_block nonblock (PtyReadable i master)
      else
        let n := Z.min (Z.min (as_usize count) (zlen (pty_queue master p))) IO_MAX in
        do! _ <- modify (put_pty i (pty_take master n p)) in
        deliver buf (take (Z.to_nat n) (pty_queue master p))
  end.

Definition outcome_read (fd buf count : Z) : sys Outcome :=
  do! x <- get_desc fd in
  do! kind <- query (λ _, read_kind x.2) in
  Io.guarded buf (Z.min count IO_MAX) AccWrite (
    match kind with
    | RPlain => Io.sys_read fd buf count
    | RPipe i => read_pipe i buf count (nonblocking x.2)
    | REvent i => read_event i buf count (nonblocking x.2)
    | RTimer i => read_timer i buf count (nonblocking x.2)
    | RNet i => read_net i buf count (nonblocking x.2)
    | RPty i master => read_pty i buf count master (nonblocking x.2)
    end).

Inductive WriteKind :=
| WPlain | WPipe (pipe : Z) | WEvent (event : Z) | WNet (socket : Z) | WPty (pty : Z) (master : bool).
Definition write_kind (d : Description) : res Z WriteKind :=
  if negb (desc_writable d) then Err EBADF
  else match backing d with
       | BPipe i true => Ok (WPipe i)
       | BPipe _ false => Err EBADF
       | BSocketPair _ tx => Ok (WPipe tx)
       | BEventFd i => Ok (WEvent i)
       | BTimerFd _ | BEpoll _ => Err EINVAL
       | BNet i => Ok (WNet i)
       | BPtyMaster i => Ok (WPty i true)
       | BPtySlave i => Ok (WPty i false)
       | _ => Ok WPlain
       end.

Definition write_pipe (i buf count : Z) (nonblock : bool) : sys Outcome :=
  do! p <- borrow pipes i in
  if p_readers p =? 0 then sfail EPIPE
  else
    let room := saturating_sub PIPE_CAPACITY (zlen (p_data p)) in
    if room =? 0 then would_block nonblock (PipeWritable i)
    else
      let n := Z.min (Z.min (as_usize count) room) IO_MAX in
      do! b <- Copy.read_mem buf n in
      do! p <- borrow pipes i in
      do! _ <- modify (put_pipe i (add_data b p)) in
      sret (Value n).
Definition write_event (i buf count : Z) : sys Outcome :=
  if count <? 8 then sfail EINVAL
  else
    do! b <- Copy.read_mem buf 8 in
    do! e <- borrow events i in
    do! _ <- modify (put_event i (add_event (le_val b) e)) in sret (Value 8).
Definition send (s : NetSocket) (b : bytes) : sys Z :=
  do! h <- query (λ _, ok_or (s_handle s) ENOTCONN) in
  match s_kind s, s_peer s with
  | TcpSocket, _ => with_broker (tcp_send h b)
  | UdpSocket, Some peer => with_broker (udp_send_to h peer b)
  | UdpSocket, None => sfail EDESTADDRREQ
  end.
Definition write_net (i buf count : Z) : sys Outcome :=
  do! b <- Copy.read_mem buf (Z.min (as_usize count) IO_MAX) in
  do! s <- borrow sockets i in
  do! n <- send s b in
  do! _ <- modify (put_socket i (stir_socket s)) in sret (Value n).
Definition write_master (i : Z) (b : bytes) : sys Outcome :=
  do! p <- borrow ptys i in
  let '(p, signal) := Terminal.feed_input p b in
  do! _ <- modify (put_pty i p) in
  do! _ <- modify (λ w, match signal with Some sig => Switch.deliver_to_pgrp (fg_pgrp p) sig w | None => w end) in
  sret (Value (zlen b)).
Definition write_slave (i : Z) (b : bytes) : sys Outcome :=
  do! p <- borrow ptys i in
  let out := if Terminal.onlcr p then expand_newlines b else b in
  do! _ <- modify (put_pty i (Terminal.touch (Terminal.with_output (s2m p ++ out) p))) in
  sret (Value (zlen b)).
Definition write_pty (i buf count : Z) (master : bool) : sys Outcome :=
  do! b <- Copy.read_mem buf (Z.min (as_usize count) IO_MAX) in
  do! p <- borrow ptys i in
  do! stopped <- (if negb master && Terminal.tostop p then Switch.background_tty_access p SIGTTOU else sret None) in
  match stopped with
  | Some o => sret o
  | None => if master then write_master i b else write_slave i b
  end.

Definition outcome_write (fd buf count : Z) : sys Outcome :=
  do! x <- get_desc fd in
  do! kind <- query (λ _, write_kind x.2) in
  match kind with
  | WPlain => Io.sys_write fd buf count
  | WPipe i => write_pipe i buf count (nonblocking x.2)
  | WEvent i => write_event i buf count
  | WNet i => write_net i buf count
  | WPty i master => write_pty i buf count master
  end.

(** * Creating the objects *)
Definition fd_pair (fds : Z * Z) : bytes := le_bytes 4 fds.1 ++ le_bytes 4 fds.2.
Definition close_fd (fd : Z) : machine → machine := λ w,
  on_heap (λ _, (Fds.close (fds (proc w)) fd (heap (env w))).1) w.
Definition sys_pipe (fds_ptr fl : Z) : sys Z :=
  do! t <- gets (λ w, fds (proc w)) in
  do! x <- with_heap (Fds.pipe_fds t fl) in
  λ w, match Copy.write_mem fds_ptr (fd_pair x) w with
       | (w, Err e) => (close_fd x.2 (close_fd x.1 w), Err e)
       | (w, Ok _) => (w, Ok 0)
       | (w, Panic) => (w, Panic)
       end.
Definition sys_socketpair (domain sock_type sv : Z) : sys Z :=
  do! t <- gets (λ w, fds (proc w)) in
  do! x <- with_heap (Fds.socketpair_fds t domain sock_type) in
  do! _ <- Copy.write_mem sv (fd_pair x) in sret 0.

Definition EFD_SEMAPHORE : Z := 1.
Definition sys_eventfd (initval fl : Z) : sys Z := λ w,
  let '(i, h) := Fds.fresh (heap (env w)) in
  let e := {| e_count := initval; e_semaphore := has_flag fl EFD_SEMAPHORE; e_activity := 0 |} in
  Watching.new_fd (BEventFd i) (Z.lor O_RDWR (Z.land fl O_NONBLOCK)) (has_flag fl O_CLOEXEC)
    (on_heap (λ _, set_events (<[i := e]> (events h)) h) w).
Definition sys_timerfd_create (fl : Z) : sys Z := λ w,
  let '(i, h) := Fds.fresh (heap (env w)) in
  Watching.new_fd (BTimerFd i) (Z.lor O_RDONLY (Z.land fl O_NONBLOCK)) (has_flag fl O_CLOEXEC)
    (on_heap (λ _, set_timers (<[i := {| next_expiry := None; interval := 0 |}]> (timers h)) h) w).
Definition timer_of (fd : Z) : sys Z :=
  do! x <- get_desc fd in match backing x.2 with BTimerFd i => sret i | _ => sfail EINVAL end.
(** [struct itimerspec]: the period and the time left. *)
Definition encode_itimerspec (now : Z) (t : TimerFdInner) : bytes :=
  let remaining := match next_expiry t with Some e => saturating_sub e now | None => 0 end in
  le_bytes 8 (interval t / NANOS) ++ le_bytes 8 (interval t mod NANOS) ++
  le_bytes 8 (remaining / NANOS) ++ le_bytes 8 (remaining mod NANOS).
Definition TFD_TIMER_ABSTIME : Z := 1.
Definition sys_timerfd_settime (fd fl new_value old_value : Z) : sys Z :=
  do! i <- timer_of fd in
  do! now <- gets now_nanos in
  do! t <- borrow timers i in
  do! _ <- (if old_value =? 0 then sret () else Copy.write_mem old_value (encode_itimerspec now t)) in
  do! period <- Calls.read_timespec_at new_value in
  do! at_ <- query (λ _, add64 new_value 16) in
  do! value <- Calls.read_timespec_at at_ in
  do! next <- query (λ _,
    if value =? 0 then Ok None
    else let! e := if has_flag fl TFD_TIMER_ABSTIME then Ok value else add64 now value in Ok (Some e)) in
  do! _ <- modify (put_timer i {| next_expiry := next; interval := period |}) in sret 0.
Definition sys_timerfd_gettime (fd curr : Z) : sys Z :=
  do! i <- timer_of fd in
  do! now <- gets now_nanos in
  do! t <- borrow timers i in
  do! _ <- Copy.write_mem curr (encode_itimerspec now t) in sret 0.
End stream.
End Stream.
