(* ===== verification/StreamsSpec.v ===== *)
(** Blocking streams: a call waits exactly when its watch is not ready, and a
    pipe hands on the bytes written to it in order. *)

From S2P Require Import Prelude BTree Abi Digest Chunk Filesystem Pager PagerView PagerOps PagerFault Cpu Net Fd Proc Signals Authority Env GuestMem GuestMemSpec Switch ProcCalls Inotify FileIo Streams.

(** * The errors of a copy *)
Section copies.
Context `{Host} {B : Type} `{NetworkBroker B} {M V : Type} `{GuestMemory M V}.
Abbreviation machine := (Machine B M V).
Implicit Types w : machine.

Definition copy_errno (e : Z) : Prop := e = EFAULT ∨ e = EIO ∨ e = PAGE_IN_RESTART.
Definition copy_fails {A} (r : res Z A) : Prop := match r with Err e => copy_errno e | _ => True end.

Lemma fill_page_errors v page touching : ∀ b prm e, fill_page v page touching b prm ≠ Err e.
Proof.
  induction touching as [|m ms IH]; intros b prm e; [done|]. cbn [fill_page].
  unfold add64. destruct (_ <=? _); cbn; [|done]. destruct (_ <=? _); [apply IH|]. destruct (_ <=? _); cbn; [|done].
  unfold Fs.read_chunked_range. destruct (Store.read_range _ _ _ _) as [r|[]|]; cbn; [|done].
  destruct r; [|done..]. destruct (_ =? _); [apply IH|done].
Qed.
Lemma resolve_fault_errors p v a page access : ∀ e, (resolve_fault p v a page access).2 ≠ Err e.
Proof.
  intros e. unfold resolve_fault. destruct (_ !! _); [|done]. destruct (fault_page _ _ _ _ _) as [[q t]|]; [|done].
  destruct (head t) as [m|]; [|done].
  destruct (fill_page v q t _ _) as [[]| |] eqn:E; try done.
  - destruct (pending p); [by destruct (_ && _)|done].
  - by apply fill_page_errors in E.
Qed.
Lemma mark_resident_errors p a page access e : mark_resident p a page access ≠ Err e.
Proof.
  unfold mark_resident. case_bool_decide; [done|]. destruct (page_ins_by_access p) as [[r x] y].
  unfold add64. destruct (_ <=? _); cbn; [|done]. destruct access; by destruct (_ <=? _).
Qed.
Lemma touch_page_errors page access w : copy_fails (Copy.touch_page page access w).2.
Proof.
  unfold Copy.touch_page. destruct (resolve_fault _ _ _ _ _) as [p r] eqn:E.
  destruct r as [r|e|]; [|by apply (f_equal snd), resolve_fault_errors in E|done].
  destruct r as [|resolved b prm| | | |]; [done| |by right; right|by right; left..].
  destruct (mem_write _ _ _) as [m []]; [|by left]. cbn [negb]. destruct (mem_update_perm _ _ _ _) as [m' []]; [|by left].
  cbn [negb]. destruct (mark_resident _ _ _ _) eqn:Em; [done| |done]. by apply mark_resident_errors in Em.
Qed.
Lemma touch_loop_errors fuel access : ∀ page end_ w, copy_fails (Copy.touch_loop fuel page end_ access w).2.
Proof.
  induction fuel as [|fuel IH]; intros page end_ w; [done|]. cbn [Copy.touch_loop].
  destruct (_ <=? _); [done|]. unfold sbind at 1, gets. destruct (page_state _ _ _) as [[[] prm]|]; [..|by apply IH].
  - destruct (_ =? _); [by left|by apply IH].
  - destruct (_ =? _); [by left|]. unfold sbind. pose proof (touch_page_errors page access w) as Ht.
    destruct (Copy.touch_page page access w) as [w1 [[]|e|]]; [by apply IH|done..].
Qed.
Lemma host_touch_errors addr len access w : copy_fails (Copy.host_touch addr len access w).2.
Proof.
  unfold Copy.host_touch, sbind, gets, query. destruct (_ || _); [done|].
  destruct (checked_add64 addr len); cbn; [apply touch_loop_errors|by left].
Qed.
Lemma write_mem_errors addr b w : copy_fails (Copy.write_mem addr b w).2.
Proof.
  unfold Copy.write_mem, sbind. pose proof (host_touch_errors addr (zlen b) AccWrite w) as Ht.
  destruct (Copy.host_touch _ _ _ _) as [w1 [[]|e|]]; [|done..]. unfold Copy.write_mem_raw.
  destruct (mem_write _ _ _) as [m []]; [done|by left].
Qed.
Lemma read_mem_errors addr n w : copy_fails (Copy.read_mem addr n w).2.
Proof.
  unfold Copy.read_mem, sbind. pose proof (host_touch_errors addr n AccRead w) as Ht.
  destruct (Copy.host_touch _ _ _ _) as [w1 [[]|e|]]; [|done..]. cbn. destruct (mem_read _ _ _); [done|by left].
Qed.
Lemma deliver_errors buf b w : (Stream.deliver buf b w).2 ≠ Err EAGAIN.
Proof.
  unfold Stream.deliver, sbind. pose proof (write_mem_errors buf b w) as He.
  destruct (Copy.write_mem buf b w) as [w1 [[]|e|]]; [done| |done].
  intros [= ->]. destruct He as [He|[He|He]]; discriminate He.
Qed.

(** * Waiting *)
Inductive stream_op :=
| OpReadPipe (i : Z) | OpWritePipe (i : Z) | OpReadEvent (i : Z) | OpReadTimer (i : Z) | OpReadPty (i : Z) (master : bool).
Definition stream_call (op : stream_op) (buf count : Z) (nonblock : bool) : stm machine Z Outcome :=
  match op with
  | OpReadPipe i => Stream.read_pipe i buf count nonblock
  | OpWritePipe i => Stream.write_pipe i buf count nonblock
  | OpReadEvent i => Stream.read_event i buf count nonblock
  | OpReadTimer i => Stream.read_timer i buf count nonblock
  | OpReadPty i master => Stream.read_pty i buf count master nonblock
  end.
Definition stream_watch (op : stream_op) : Watch :=
  match op with
  | OpReadPipe i => PipeReadable i
  | OpWritePipe i => PipeWritable i
  | OpReadEvent i => Event i
  | OpReadTimer i => Timer i
  | OpReadPty i master => PtyReadable i master
  end.
(** The object exists, and the caller is entitled to wait for it: counters need
    eight bytes of room, a terminal its foreground process group. *)
Definition may_wait (op : stream_op) (count : Z) w : Prop :=
  let h := heap (env w) in
  match op with
  | OpReadPipe i | OpWritePipe i => is_Some (pipes h !! i)
  | OpReadEvent i => 8 ≤ count ∧ ∃ e, events h !! i = Some e ∧ 0 ≤ e_count e
  | OpReadTimer i => 8 ≤ count ∧ is_Some (timers h !! i)
  | OpReadPty i master => ∃ p, ptys h !! i = Some p ∧ (master = false → Switch.stops_background p SIGTTIN w = None)
  end.
Definition op_ready (op : stream_op) w : bool := Sched.watch_ready (heap (env w)) (now_nanos w) (stream_watch op).

(** Every call is one of two: it goes on whatever [nonblock] says and does not
    answer [EAGAIN], or it waits on its watch. *)
Definition waits_exactly (op : stream_op) (buf count : Z) w : Prop :=
  if op_ready op w
  then (stream_call op buf count true w).2 ≠ Err EAGAIN ∧ stream_call op buf count false w = stream_call op buf count true w
  else stream_call op buf count true w = (w, Err EAGAIN) ∧
       stream_call op buf count false w = Switch.block_and_switch (Waiting [stream_watch op] None) true w.

Lemma borrow_run {A} (f : Heap B → gmap Z A) i a w : f (heap (env w)) !! i = Some a → Stream.borrow f i w = (w, Ok a).
Proof. intros E. unfold Stream.borrow, query. by rewrite E. Qed.
Lemma bind_run {A C} (m : stm machine Z A) (k : A → stm machine Z C) w w' a :
  m w = (w', Ok a) → sbind m k w = k a w'.
Proof. intros E. unfold sbind. by rewrite E. Qed.
Lemma read_pipe_waits i buf count w : may_wait (OpReadPipe i) count w → waits_exactly (OpReadPipe i) buf count w.
Proof.
  intros [p Hp]. unfold waits_exactly, op_ready. cbn [stream_watch Sched.watch_ready stream_call]. rewrite Hp. cbn [Sched.look].
  unfold Stream.read_pipe. rewrite !(bind_run _ _ w w p) by (by apply borrow_run). unfold Sched.pipe_readable.
  case_bool_decide; cbn [negb orb]; [by destruct (_ =? 0)|]. split; [|done]. unfold sbind, modify. apply deliver_errors.
Qed.
Lemma read_event_waits i buf count w : may_wait (OpReadEvent i) count w → waits_exactly (OpReadEvent i) buf count w.
Proof.
  intros (Hc & e & He & H0e). unfold waits_exactly, op_ready. cbn [stream_watch Sched.watch_ready stream_call]. rewrite He. cbn [Sched.look].
  unfold Stream.read_event. destruct (Z.ltb_spec count 8); [lia|]. rewrite !(bind_run _ _ w w e) by (by apply borrow_run).
  destruct (Z.ltb_spec 0 (e_count e)), (Z.eqb_spec (e_count e) 0); try lia; [|done].
  destruct (take_event e). split; [|done]. unfold sbind, modify. apply deliver_errors.
Qed.
Lemma take_expirations_ready now t :
  bool_decide (is_Some (take_expirations now t)) = Sched.look (next_expiry t) (λ x, x <=? now).
Proof.
  unfold take_expirations. destruct (next_expiry t) as [x|]; cbn [Sched.look]; [|done].
  destruct (x <=? now); [|done]. by destruct (_ =? 0).
Qed.
Lemma read_timer_waits i buf count w : may_wait (OpReadTimer i) count w → waits_exactly (OpReadTimer i) buf count w.
Proof.
  intros (Hc & t & Ht). unfold waits_exactly, op_ready. cbn [stream_watch Sched.watch_ready stream_call]. rewrite Ht. cbn [Sched.look].
  unfold Stream.read_timer. destruct (Z.ltb_spec count 8); [lia|].
  rewrite !(bind_run (gets now_nanos) _ w w (now_nanos w)) by done. rewrite !(bind_run _ _ w w t) by (by apply borrow_run).
  rewrite <- take_expirations_ready. destruct (take_expirations _ t) as [[t' n]|]; cbn; [|done].
  split; [|done]. unfold sbind, modify. apply deliver_errors.
Qed.
Lemma background_foreground p sig w :
  Switch.stops_background p sig w = None → Switch.background_tty_access p sig w = (w, Ok None).
Proof. intros E. unfold Switch.background_tty_access, sbind, gets. by rewrite E. Qed.
Lemma read_pty_waits i master buf count w :
  may_wait (OpReadPty i master) count w → waits_exactly (OpReadPty i master) buf count w.
Proof.
  intros (p & Hp & Hfg). unfold waits_exactly, op_ready. cbn [stream_watch stream_call].
  assert (Hst : (if master then sret None else Switch.background_tty_access p SIGTTIN) w = (w, Ok None)).
  { destruct master; [done|]. by apply background_foreground, Hfg. }
  assert (Sched.watch_ready (heap (env w)) (now_nanos w) (PtyReadable i master) =
    negb (bool_decide (pty_queue master p = [])) || pty_eof master p) as ->.
  { destruct master; cbn; by rewrite Hp. }
  unfold Stream.read_pty. rewrite !(bind_run (Stream.borrow ptys i) _ w w p) by (by apply borrow_run).
  rewrite !(bind_run _ _ w w None) by done. rewrite !(bind_run (Stream.borrow ptys i) _ w w p) by (by apply borrow_run).
  case_bool_decide; cbn [negb orb]; [by destruct (pty_eof _ _)|]. split; [|done]. unfold sbind, modify. apply deliver_errors.
Qed.
Lemma write_pipe_waits i buf count w : may_wait (OpWritePipe i) count w → waits_exactly (OpWritePipe i) buf count w.
Proof.
  intros [p Hp]. unfold waits_exactly, op_ready. cbn [stream_watch Sched.watch_ready stream_call]. rewrite Hp. cbn [Sched.look].
  unfold Stream.write_pipe. rewrite !(bind_run _ _ w w p) by (by apply borrow_run). unfold Sched.pipe_writable, saturating_sub.
  destruct (p_readers p =? 0); [rewrite orb_true_r; done|]. rewrite orb_false_r.
  destruct (Z.ltb_spec (zlen (p_data p)) PIPE_CAPACITY), (Z.eqb_spec (Z.max 0 (PIPE_CAPACITY - zlen (p_data p))) 0); try lia; [|done].
  split; [|done]. unfold sbind. set (len := Z.min _ _). pose proof (read_mem_errors buf len w) as He.
  destruct (Copy.read_mem buf len w) as [w1 [b|e|]]; [| |done].
  - unfold Stream.borrow, query. by destruct (pipes (heap (env w1)) !! i).
  - intros [= ->]. destruct He as [He|[He|He]]; discriminate He.
Qed.
End copies.

(** C14. A blocking call and the scheduler agree on readiness, for pipes in both
    directions, event counters, timers and both ends of a terminal. When its
    watch is ready the call goes on, blocking or not, and never answers
    [EAGAIN]; when it is not, a non-blocking call answers [EAGAIN] and changes
    nothing, and a blocking one parks on exactly that watch. So a parked task is
    made ready exactly when its replayed call makes progress: no wake-up is
    lost, and none is spurious. *)
Theorem stream_waits_exactly `{Host} {B} `{NetworkBroker B} {M V} `{GuestMemory M V} (op : stream_op) buf count (w : Machine B M V) :
  may_wait op count w →
  if op_ready op w
  then (stream_call op buf count true w).2 ≠ Err EAGAIN ∧ stream_call op buf count false w = stream_call op buf count true w
  else stream_call op buf count true w = (w, Err EAGAIN) ∧
       stream_call op buf count false w = Switch.block_and_switch (Waiting [stream_watch op] None) true w.
Proof.
  destruct op;
    [apply read_pipe_waits|apply write_pipe_waits|apply read_event_waits|apply read_timer_waits|apply read_pty_waits].
Qed.

(** * Switching tasks moves no bytes of a pipe *)
Section data.
Context `{Host} {B : Type} `{NetworkBroker B} {M V : Type} `{GuestMemory M V}.
Abbreviation machine := (Machine B M V).
Implicit Types w : machine.

Definition datas (h : Heap B) : gmap Z bytes := p_data <$> pipes h.
Definition same_data w w' : Prop := datas (heap (env w')) = datas (heap (env w)).
#[export] Instance same_data_preorder : PreOrder same_data.
Proof. split; [done|]. unfold same_data. intros ? ? ? ? ?. congruence. Qed.

Lemma frame_data w w' : Copy.frame w w' → same_data w w'.
Proof. intros Hf. unfold same_data. by rewrite (Copy.fr_env _ _ Hf). Qed.
Lemma fmap_alter_data (f : PipeInner → PipeInner) i (m : gmap Z PipeInner) :
  (∀ p, p_data (f p) = p_data p) → p_data <$> alter f i m = p_data <$> m.
Proof.
  intros Hf. apply map_eq. intros j. rewrite !lookup_fmap. destruct (decide (i = j)) as [->|Hne].
  - rewrite lookup_alter_eq. destruct (m !! j); cbn; [by rewrite Hf|done].
  - by rewrite lookup_alter_ne.
Qed.
Lemma drop_description_data d (h : Heap B) : datas (Fds.drop_description d h) = datas h.
Proof.
  unfold Fds.drop_description, datas. destruct (backing d); try done.
  - by destruct write_end; apply fmap_alter_data.
  - cbn. by rewrite !fmap_alter_data.
  - by destruct (_ ≫= _).
Qed.
Lemma ofd_drop_data i (h : Heap B) : datas (Fds.ofd_drop i h) = datas h.
Proof.
  unfold Fds.ofd_drop. destruct (_ !! i) as [[d n]|]; [|done]. destruct (_ =? 1); [|done]. by rewrite drop_description_data.
Qed.
Lemma entries_drop_data l (h : Heap B) : datas (Fds.entries_drop l h) = datas h.
Proof. unfold Fds.entries_drop. revert h. induction l as [|e l IH]; intros h; [done|]. cbn [foldl]. by rewrite IH, ofd_drop_data. Qed.
Lemma table_drop_data t (h : Heap B) : datas (Fds.table_drop t h) = datas h.
Proof. unfold Fds.table_drop. destruct (_ !! t) as [[x n]|]; [|done]. destruct (_ =? 1); [|done]. by rewrite entries_drop_data. Qed.

Lemma drop_process_data p w : same_data w (Switch.drop_process p w).
Proof. unfold same_data, Switch.drop_process. apply table_drop_data. Qed.
Lemma restore_task_data t w : same_data w (Switch.restore_task t w).
Proof. unfold Switch.restore_task. etrans; [|apply drop_process_data]. done. Qed.
Lemma park_current_data st w : same_data w (Switch.park_current st w).
Proof. done. Qed.
Lemma switch_map_data g w : same_data w (Switch.switch_map g w).1.
Proof.
  unfold Switch.switch_map. destruct (_ =? g); [done|]. destruct (take_virtual_mapping _) as [x m].
  by case_match; case_match.
Qed.
Lemma data_gets {E A} (f : machine → A) : keeps (E:=E) same_data (gets f).
Proof. by intros w. Qed.
Lemma data_attempt {A} (m : stm machine Z A) : keeps same_data m → keeps same_data (Switch.attempt m).
Proof. intros Hm w. specialize (Hm w). unfold Switch.attempt. by destruct (m w) as [w' [a|e|]]. Qed.
Lemma data_write addr b : keeps same_data (Copy.write_mem addr b).
Proof. intros w. apply frame_data, Copy.write_mem_frame. Qed.
Lemma data_core f w : same_data w (on_core f w).
Proof. done. Qed.
Lemma data_proc p w : same_data w (put_proc p w).
Proof. done. Qed.
Lemma data_push a sig w : same_data w (Switch.push_saved a sig w).
Proof. done. Qed.
#[local] Hint Resolve data_gets data_attempt data_write data_core data_proc data_push drop_process_data
  restore_task_data park_current_data : keeps.

Lemma deliver_signal_data : keeps same_data Switch.deliver_signal.
Proof. unfold Switch.deliver_signal. keep. Qed.
#[local] Hint Resolve deliver_signal_data : keeps.
Lemma deliver_on_wake_data b : keeps same_data (Switch.deliver_on_wake b).
Proof. unfold Switch.deliver_on_wake, Switch.end_wait_with. keep. Qed.
Lemma feed_terminal_data w : same_data w (Switch.feed_terminal w).1.
Proof.
  unfold Switch.feed_terminal. destruct (stdio_input _) as [|b l]; [done|]. destruct (stdio_pty _) as [i|]; [|done].
  destruct (_ !! i) as [p|]; [|done]. case_bool_decide; [|done].
  by destruct (Terminal.feed_input p (b :: l)) as [p' [sig|]].
Qed.
Lemma await_network_data now d w : same_data w (Switch.await_network now d w).1.
Proof.
  unfold Switch.await_network. destruct (_ || _); [done|]. destruct (host_driven _); [by destruct (network_expired _)|].
  destruct (wait_ready _ _ _) as [b []]; [by destruct (Switch.ready_task _ _)|by case_bool_decide].
Qed.
Lemma advance_clock_data now d : keeps same_data (Switch.advance_clock now d).
Proof. unfold Switch.advance_clock. keep. done. Qed.
Lemma pick_task_data now : keeps same_data (Switch.pick_task now).
Proof.
  intros w. unfold Switch.pick_task. destruct (Switch.ready_task w now); [done|]. unfold Switch.resolve_stall.
  pose proof (feed_terminal_data w) as Hf. destruct (Switch.feed_terminal w) as [w1 fed]. cbn [fst] in Hf.
  destruct (if fed then _ else None) as [i|]; [done|]. set (d := Sched.earliest_deadline _ _).
  pose proof (await_network_data (now_nanos w) d w1) as Ha. destruct (Switch.await_network _ _ _) as [w2 [r|[]]].
  - by etrans.
  - etrans; [exact Hf|]. etrans; [exact Ha|]. apply advance_clock_data.
Qed.
#[local] Hint Resolve deliver_on_wake_data pick_task_data : keeps.
Lemma schedule_next_data : keeps same_data Switch.schedule_next.
Proof.
  unfold Switch.schedule_next. keep; try done.
  - intros w. pose proof (switch_map_data (tgid (t_proc a0)) w) as Hs. by destruct (Switch.switch_map _ w).
  - by destruct (Switch.timed_out _ _).
Qed.
Lemma block_and_switch_data st restart : keeps same_data (Switch.block_and_switch st restart).
Proof.
  unfold Switch.block_and_switch, Switch.prepare_resume, Switch.switch_or_stall. keep.
  - apply schedule_next_data.
  - intros w. unfold Switch.stall_outcome. destruct (network_wait _); [done|]. by destruct (Switch.blocked_on_terminal_input _).
Qed.
Lemma would_block_data nonblock x : keeps same_data (Stream.would_block nonblock x).
Proof. unfold Stream.would_block. destruct nonblock; [done|apply block_and_switch_data]. Qed.
End data.

(** * The history of a pipe *)
Section fifo.
Context `{Host} {B : Type} `{NetworkBroker B} {M V : Type} `{GuestMemoryLaws M V} (contents : ChunkedFile → bytes) (i : Z).
Abbreviation machine := (Machine B M V).
Implicit Types w : machine.

Definition pipe_data w : bytes := default [] (datas (heap (env w)) !! i).
(** The range can be copied: what the copy lemmas ask of the machine. *)
Record can_copy w (addr len : Z) : Prop := {
  cc_backed : backed contents w;
  cc_addr : is_u64 addr;
  cc_range : addr + len ≤ 2 ^ 64;
  cc_counters : counters w (pages_of len)
}.
(** The guest sees [b] at [addr]. *)
Definition sees w (addr : Z) (b : bytes) : Prop := ∀ k, 0 ≤ k < zlen b → guest_byte contents w (addr + k) = getz b k.

(** Bytes that left the pipe: found by a reader in its memory, or drained by a
    read whose copy to the reader's memory then failed. *)
Inductive taken := Delivered (b : bytes) | Lost (b : bytes).
Definition taken_bytes (x : taken) : bytes := match x with Delivered b | Lost b => b end.
Definition left_pipe (l : list taken) : bytes := concat (taken_bytes <$> l).
Definition asked (count : Z) w : nat := Z.to_nat (Z.min (Z.min (as_usize count) (zlen (pipe_data w))) IO_MAX).

(** One event on the pipe [i]: a write that took [b] from the caller's memory, a
    read that put [b] there, a read that found bytes and then answered an error, a
    call that had to wait or was refused, or anything else that moves no bytes of
    this pipe. *)
Inductive pipe_step w : bytes → list taken → machine → Prop :=
| step_wrote w' buf count nonblock b :
    Stream.write_pipe i buf count nonblock w = (w', Ok (Value (zlen b))) → can_copy w buf (zlen b) → sees w buf b →
    pipe_step w b [] w'
| step_read w' buf count nonblock b :
    Stream.read_pipe i buf count nonblock w = (w', Ok (Value (zlen b))) → can_copy w buf (zlen b) → sees w' buf b →
    pipe_step w [] [Delivered b] w'
| step_lost w' buf count nonblock r :
    Stream.read_pipe i buf count nonblock w = (w', r) → pipe_data w ≠ [] → (∀ n, r ≠ Ok (Value n)) →
    pipe_step w [] [Lost (take (asked count w) (pipe_data w))] w'
| step_write_waits w' buf count nonblock r :
    Stream.write_pipe i buf count nonblock w = (w', r) → (∀ n, r ≠ Ok (Value n)) → pipe_step w [] [] w'
| step_read_waits w' buf count nonblock r :
    Stream.read_pipe i buf count nonblock w = (w', r) → pipe_data w = [] → pipe_step w [] [] w'
| step_other w' : same_data w w' → pipe_step w [] [] w'.
Inductive pipe_run w : bytes → list taken → machine → Prop :=
| run_start : pipe_run w [] [] w
| run_step wr rd wr' rd' w1 w2 :
    pipe_run w wr rd w1 → pipe_step w1 wr' rd' w2 → pipe_run w (wr ++ wr') (rd ++ rd') w2.

Lemma pipe_data_lookup w p : pipes (heap (env w)) !! i = Some p → pipe_data w = p_data p.
Proof. intros E. unfold pipe_data, datas. by rewrite lookup_fmap, E. Qed.
Lemma pipe_data_put w p : pipe_data (Stream.put_pipe i p w) = p_data p.
Proof. apply pipe_data_lookup. cbn. apply lookup_insert_eq. Qed.
Lemma same_data_pipe w w' : same_data w w' → pipe_data w' = pipe_data w.
Proof. unfold pipe_data. by intros ->. Qed.
Lemma getz_ext (l k : bytes) : zlen l = zlen k → (∀ j, 0 ≤ j < zlen l → getz l j = getz k j) → l = k.
Proof.
  intros Hz Hj. apply list_eq. intros n. destruct (decide (n < length l)%nat) as [Hn|Hn].
  - rewrite <- !getz_nat. apply Hj. unfold zlen. lia.
  - rewrite !lookup_ge_None_2; [done|unfold zlen in Hz; lia|lia].
Qed.

(** Giving the CPU up answers no value. *)
Lemma switch_no_value st restart w n : (Switch.block_and_switch st restart w).2 ≠ Ok (Value n).
Proof.
  unfold Switch.block_and_switch, Switch.switch_or_stall, sbind.
  destruct (Switch.prepare_resume restart w) as [w1 [[]|e|]]; [|done..]. cbn [modify].
  destruct (Switch.schedule_next _) as [w2 [[]|e|]]; [done| |done..].
  unfold Switch.stall_outcome. destruct (network_wait _); [done|]. by destruct (Switch.blocked_on_terminal_input _).
Qed.
Lemma would_block_no_value nonblock x w n : (Stream.would_block nonblock x w).2 ≠ Ok (Value n).
Proof. unfold Stream.would_block. destruct nonblock; [done|apply switch_no_value]. Qed.

Lemma write_pipe_run buf count nonblock w w' r : Stream.write_pipe i buf count nonblock w = (w', r) →
  match r with
  | Ok (Value n) => ∃ b w1, Copy.read_mem buf n w = (w1, Ok b) ∧ pipe_data w' = pipe_data w ++ b ∧
      0 ≤ n ∧ zlen (pipe_data w) + n ≤ PIPE_CAPACITY
  | _ => same_data w w'
  end.
Proof.
  unfold Stream.write_pipe. unfold sbind at 1, Stream.borrow at 1, query at 1.
  destruct (pipes (heap (env w)) !! i) as [p|] eqn:Hp; cbn [expect]; [|by intros [= <- <-]].
  destruct (_ =? 0); [by intros [= <- <-]|]. destruct (Z.eqb_spec (saturating_sub PIPE_CAPACITY (zlen (p_data p))) 0) as [Hfull|Hroom].
  { intros E. pose proof (would_block_data nonblock (PipeWritable i) w) as Hd. rewrite E in Hd.
    pose proof (would_block_no_value nonblock (PipeWritable i) w) as Hv. rewrite E in Hv.
    destruct r as [[n| |]| |]; try done. by specialize (Hv n). }
  set (n := Z.min _ _). unfold sbind at 1. pose proof (Copy.read_mem_frame buf n w) as Hf.
  destruct (Copy.read_mem buf n w) as [w1 [b|e|]] eqn:Er; [|by intros [= <- <-]; apply frame_data..].
  cbn [fst] in Hf. assert (Hp1 : pipes (heap (env w1)) !! i = Some p) by (rewrite (Copy.fr_env _ _ Hf); exact Hp).
  rewrite (bind_run _ _ w1 w1 p) by (by apply borrow_run). unfold sbind, modify. intros [= <- <-].
  exists b, w1. split; [done|]. rewrite pipe_data_put, (pipe_data_lookup w p) by done. split; [done|].
  pose proof (zlen_nonneg (p_data p)). assert (0 ≤ as_usize count) by (apply Z.mod_pos_bound, usize_pos).
  unfold n, saturating_sub, IO_MAX in *. lia.
Qed.

Lemma read_pipe_run buf count nonblock w w' r : Stream.read_pipe i buf count nonblock w = (w', r) →
  (pipe_data w = [] ∧ same_data w w' ∧ ∀ n, r = Ok (Value n) → n = 0) ∨
  ∃ p n w1, pipes (heap (env w)) !! i = Some p ∧ 0 ≤ n ≤ zlen (p_data p) ∧ w1 = Stream.put_pipe i (take_data n p) w ∧
    Stream.deliver buf (take (Z.to_nat n) (p_data p)) w1 = (w', r).
Proof.
  unfold Stream.read_pipe. unfold sbind at 1, Stream.borrow at 1, query at 1.
  destruct (pipes (heap (env w)) !! i) as [p|] eqn:Hp; cbn [expect].
  2:{ intros [= <- <-]. left. unfold pipe_data, datas. by rewrite lookup_fmap, Hp. }
  case_bool_decide as Hd.
  - intros E. left. rewrite (pipe_data_lookup w p) by done. split; [done|].
    destruct (_ =? 0); [by injection E as <- <-; split; [done|intros ? [= <-]]|].
    pose proof (would_block_data nonblock (PipeReadable i) w) as Hw. rewrite E in Hw. split; [done|].
    pose proof (would_block_no_value nonblock (PipeReadable i) w) as Hv. rewrite E in Hv. intros n ->. by specialize (Hv n).
  - set (n := Z.min _ _). unfold sbind, modify. intros E. right. exists p, n, (Stream.put_pipe i (take_data n p) w).
    split_and!; [done| | |done|exact E].
    + assert (0 ≤ as_usize count) by (apply Z.mod_pos_bound, usize_pos). pose proof (zlen_nonneg (p_data p)).
      unfold n, IO_MAX. lia.
    + unfold n. lia.
Qed.

Lemma read_mem_byte_list addr n w w' b : Copy.read_mem addr n w = (w', Ok b) → byte_list b.
Proof.
  unfold Copy.read_mem, sbind. destruct (Copy.host_touch _ _ _ w) as [w1 [[]|e|]]; [|done..].
  unfold Copy.read_mem_raw, query. destruct (mem_read _ _ _) eqn:E; [|done]. intros [= _ <-]. by eapply mem_read_bytes.
Qed.

(** What the pipe holds after one event. *)
Definition flows w (wr rd : bytes) w' : Prop :=
  byte_list (pipe_data w) → zlen (pipe_data w) ≤ PIPE_CAPACITY →
  pipe_data w ++ wr = rd ++ pipe_data w' ∧ byte_list (pipe_data w') ∧ zlen (pipe_data w') ≤ PIPE_CAPACITY.
Lemma same_data_flows w w' : same_data w w' → flows w [] [] w'.
Proof. intros Hs ? ?. rewrite (same_data_pipe _ _ Hs), app_nil_r. done. Qed.

Lemma wrote_flows w w' buf count nonblock b :
  Stream.write_pipe i buf count nonblock w = (w', Ok (Value (zlen b))) → can_copy w buf (zlen b) → sees w buf b →
  flows w b [] w'.
Proof.
  intros (b' & w1 & Hr & Hd & Hn & Hcap)%write_pipe_run [Hb Ha Hl Hc] Hs Hby Hlen.
  pose proof (read_mem_byte_list _ _ _ _ _ Hr) as Hby'.
  pose proof (read_mem_ok contents w buf (zlen b) Hb Ha Hn Hl Hc) as Hok. rewrite Hr in Hok. destruct Hok as [_ [Hz Hg]].
  assert (b' = b) as ->. { apply getz_ext; [done|]. intros j Hj. rewrite <- Hg by lia. apply Hs. lia. }
  rewrite Hd. split; [done|]. split; [by apply byte_list_app|]. rewrite zlen_app. lia.
Qed.
Lemma read_flows w w' buf count nonblock b :
  Stream.read_pipe i buf count nonblock w = (w', Ok (Value (zlen b))) → can_copy w buf (zlen b) → sees w' buf b →
  flows w [] b w'.
Proof.
  intros [(He & Hsd & Hz)|(p & n & w1 & Hp & Hn & -> & Hd)]%read_pipe_run [Hb Ha Hl Hc] Hs Hby Hlen.
  { specialize (Hz _ eq_refl). destruct b; [|rewrite zlen_cons in Hz; pose proof (zlen_nonneg b); lia].
    by apply same_data_flows. }
  rewrite (pipe_data_lookup w p) in * by done. set (c := take (Z.to_nat n) (p_data p)) in *.
  unfold Stream.deliver, sbind in Hd. set (w1 := Stream.put_pipe i (take_data n p) w) in *.
  assert (Hcz : zlen c = n) by (unfold c, zlen in *; rewrite length_take; lia).
  pose proof (Copy.write_mem_frame buf c w1) as Hf.
  destruct (Copy.write_mem buf c w1) as [w2 [[]|e|]] eqn:Ew; [|done..]. injection Hd as -> Hnb. cbn [fst] in Hf.
  rewrite Hcz in Hnb. rewrite <- Hnb in *.
  pose proof (write_mem_ok contents w1 buf c Hb Ha ltac:(by rewrite Hcz) (byte_list_take _ _ Hby) ltac:(by rewrite Hcz)) as Hok.
  rewrite Ew in Hok. destruct Hok as [_ Hg].
  assert (b = c) as -> by (apply getz_ext; [congruence|]; intros j Hj; rewrite <- Hs by done; apply Hg; lia).
  assert (Hpd : pipe_data w' = drop (Z.to_nat n) (p_data p)).
  { rewrite (same_data_pipe w1 w'); [unfold w1; by rewrite pipe_data_put|]. by apply frame_data. }
  rewrite Hpd, app_nil_r. split; [symmetry; apply take_drop|]. split; [by apply byte_list_drop|].
  unfold zlen in *. rewrite length_drop. lia.
Qed.
Lemma lost_flows w w' buf count nonblock r :
  Stream.read_pipe i buf count nonblock w = (w', r) → pipe_data w ≠ [] → (∀ n, r ≠ Ok (Value n)) →
  flows w [] (take (asked count w) (pipe_data w)) w'.
Proof.
  intros E Hne Hr Hby Hlen. unfold Stream.read_pipe in E. unfold sbind at 1, Stream.borrow at 1, query at 1 in E.
  destruct (pipes (heap (env w)) !! i) as [p|] eqn:Hp; [|unfold pipe_data, datas in Hne; by rewrite lookup_fmap, Hp in Hne].
  unfold asked. rewrite (pipe_data_lookup w p) in * by done. cbn [expect] in E. rewrite bool_decide_eq_false_2 in E by done.
  set (n := Z.min _ _) in *. unfold sbind, modify, Stream.deliver, sbind in E. set (w1 := Stream.put_pipe i (take_data n p) w) in *.
  pose proof (Copy.write_mem_frame buf (take (Z.to_nat n) (p_data p)) w1) as Hf. assert (same_data w1 w') as Hs.
  { apply frame_data. destruct (Copy.write_mem _ _ w1) as [w2 [[]|e|]]; cbn [fst] in Hf; by injection E as <- _. }
  rewrite app_nil_r, (same_data_pipe _ _ Hs). unfold w1. rewrite pipe_data_put. cbn [take_data p_data].
  split; [symmetry; apply take_drop|]. split; [by apply byte_list_drop|]. unfold zlen in *. rewrite length_drop. lia.
Qed.
Lemma step_flows w wr rd w' : pipe_step w wr rd w' → flows w wr (left_pipe rd) w'.
Proof.
  unfold left_pipe. intros [w1 buf count nb b|w1 buf count nb b|w1 buf count nb r Hw He Hr|w1 buf count nb r Hw Hr|w1 buf count nb r Hw He|w1 Hs];
    cbn; rewrite ?app_nil_r.
  - by eapply wrote_flows.
  - by eapply read_flows.
  - by eapply lost_flows.
  - apply same_data_flows. apply write_pipe_run in Hw. destruct r as [[n| |]| |]; try done. by specialize (Hr n).
  - apply same_data_flows. apply read_pipe_run in Hw as [(_ & ? & _)|(p & n & w2 & Hp & Hn & -> & Hd)]; [done|].
    rewrite (pipe_data_lookup w p) in He by done. rewrite He in *. rewrite take_nil in Hd.
    etrans; [|apply frame_data; unfold Stream.deliver, sbind in Hd;
      pose proof (Copy.write_mem_frame buf [] (Stream.put_pipe i (take_data n p) w)) as Hf;
      destruct (Copy.write_mem buf [] _) as [w3 [[]|e|]]; by injection Hd as <- _].
    unfold same_data, datas. cbn. rewrite fmap_insert. cbn. rewrite He, drop_nil. apply insert_id.
    by rewrite lookup_fmap, Hp, <- He.
  - by apply same_data_flows.
Qed.
End fifo.

(** C7. A pipe is a first-in first-out queue of bytes across any interleaving of
    readers, writers and other activity, task switches included. Over any run,
    the bytes it held at first followed by the bytes writers had in memory when
    their calls took them are exactly the bytes that left it followed by what is
    still queued, and it never holds more than its capacity. What left it is, in
    order, what readers found in memory after their calls, and for a read whose
    copy out failed the bytes it had asked for, which are lost. *)
Theorem pipe_fifo `{Host} {B} `{NetworkBroker B} {M V} `{GuestMemoryLaws M V} contents i (w w' : Machine B M V) wr rd :
  pipe_run contents i w wr rd w' → byte_list (pipe_data i w) → zlen (pipe_data i w) ≤ PIPE_CAPACITY →
  pipe_data i w ++ wr = left_pipe rd ++ pipe_data i w' ∧ zlen (pipe_data i w') ≤ PIPE_CAPACITY.
Proof.
  intros Hrun Hby Hlen.
  assert (pipe_data i w ++ wr = left_pipe rd ++ pipe_data i w' ∧ byte_list (pipe_data i w') ∧ zlen (pipe_data i w') ≤ PIPE_CAPACITY)
    as (? & _ & ?); [|done].
  induction Hrun as [|wr rd wr' rd' w1 w2 _ IH Hs]; [by rewrite app_nil_r|]. destruct IH as (E & Hb1 & Hl1).
  destruct (step_flows _ _ _ _ _ _ Hs Hb1 Hl1) as (E' & Hb2 & Hl2). split; [|done].
  unfold left_pipe in *. by rewrite app_assoc, E, <- app_assoc, E', fmap_app, concat_app, app_assoc.
Qed.

(** Thirty-two bytes of memory, and pipe [7] with one byte in it. *)
Definition pipe_machine : Machine HostBroker (gmap Z Z) (gmap Z Z) :=
  {| env := put_heap (set_pipes {[7 := {| p_data := [5]; p_readers := 1; p_writers := 1; p_activity := 0 |}]}
              (heap_empty Host_broker.new)) (env_new Host_broker.new);
     core := {| regs := ∅; scratch := []; exception := Core.external 0; pending_exception := None; icount := 0;
                block_id := 0; block_offset := 0 |};
     mem := list_to_map ((λ i, (1000 + i, i)) <$> seqZ 0 32) |}.
Lemma pipe_machine_backed (w : Machine HostBroker (gmap Z Z) (gmap Z Z)) addr len :
  pager (env w) = pager_default → is_u64 addr → addr + len ≤ 2 ^ 64 → 0 ≤ len ≤ 2 ^ 32 →
  can_copy (λ _, []) w addr len.
Proof.
  intros Hp Ha Hl Hn. split; [|done..|].
  - split; [intros a s|intros s]; rewrite Hp; change (spaces pager_default) with (∅ : gmap Z AddressSpace);
      by rewrite lookup_empty.
  - unfold counters, counted. rewrite Hp. cbn. unfold pages_of, PAGE_SIZE, U64_MAX.
    pose proof (Z.div_le_upper_bound len 4096 (2 ^ 32)). split; [done|]. lia.
Qed.

Lemma stream_waits_exactly_witness :
  (Stream.read_pipe 7 1000 0 true pipe_machine).2 ≠ Err EAGAIN ∧
  Stream.read_event 3 1000 8 true (Stream.put_event 3 {| e_count := 0; e_semaphore := false; e_activity := 0 |} pipe_machine) =
    (Stream.put_event 3 {| e_count := 0; e_semaphore := false; e_activity := 0 |} pipe_machine, Err EAGAIN).
Proof.
  split.
  - assert (Hr : op_ready (OpReadPipe 7) pipe_machine = true) by (vm_compute; reflexivity).
    pose proof (stream_waits_exactly (OpReadPipe 7) 1000 0 pipe_machine ltac:(by eexists)) as Hw.
    rewrite Hr in Hw. exact (proj1 Hw).
  - apply (stream_waits_exactly (OpReadEvent 3) 1000 8
      (Stream.put_event 3 {| e_count := 0; e_semaphore := false; e_activity := 0 |} pipe_machine)).
    split; [lia|]. by eexists.
Defined.

Lemma pipe_fifo_witness :
  let w1 := (Stream.write_pipe 7 1003 2 false pipe_machine).1 in
  let w2 := (Stream.read_pipe 7 1010 2 false w1).1 in
  let w3 := (Stream.read_pipe 7 5000 1 false w2).1 in
  [5] ++ [3; 4] = left_pipe [Delivered [5; 3]; Lost [4]] ++ pipe_data 7 w3.
Proof.
  cbv zeta. set (w1 := (Stream.write_pipe 7 1003 2 false pipe_machine).1). set (w2 := (Stream.read_pipe 7 1010 2 false w1).1).
  set (w3 := (Stream.read_pipe 7 5000 1 false w2).1).
  assert (E1 : Stream.write_pipe 7 1003 2 false pipe_machine = (w1, Ok (Value (zlen [3; 4])))) by (vm_compute; reflexivity).
  assert (E2 : Stream.read_pipe 7 1010 2 false w1 = (w2, Ok (Value (zlen [5; 3])))) by (vm_compute; reflexivity).
  assert (E3 : Stream.read_pipe 7 5000 1 false w2 = (w3, Err EFAULT)) by (vm_compute; reflexivity).
  assert (Hsees : ∀ (w : Machine HostBroker (gmap Z Z) (gmap Z Z)) a x y,
    guest_byte (λ _, []) w a = Some x → guest_byte (λ _, []) w (a + 1) = Some y → sees (λ _, []) w a [x; y]).
  { intros w a x y Hx Hy k Hk. change (zlen [x; y]) with 2 in Hk.
    assert (k = 0 ∨ k = 1) as [-> | ->] by lia; [by rewrite Z.add_0_r|done]. }
  apply (pipe_fifo (λ _, []) 7 pipe_machine w3 ([] ++ [3; 4] ++ [] ++ []) ([] ++ [] ++ [Delivered [5; 3]] ++ [Lost [4]])).
  - rewrite !app_assoc. eapply run_step; [|exact (step_lost (λ _, []) 7 w2 w3 5000 1 false _ E3 ltac:(by vm_compute) ltac:(done))].
    eapply run_step; [eapply run_step; [apply run_start|eapply step_wrote; [exact E1|..]]|eapply step_read; [exact E2|..]].
    + apply pipe_machine_backed; [reflexivity|split; lia|change (zlen [3; 4]) with 2; lia..].
    + apply Hsees; vm_compute; reflexivity.
    + apply pipe_machine_backed; [vm_compute; reflexivity|split; lia|change (zlen [5; 3]) with 2; lia..].
    + apply Hsees; vm_compute; reflexivity.
  - change (pipe_data 7 pipe_machine) with [5]. repeat constructor; lia.
  - change (pipe_data 7 pipe_machine) with [5]. vm_compute. congruence.
Defined.
