(* ===== verification/Poll.v ===== *)
(** Waiting for several descriptors at once: readiness, [poll], [select] and
    [epoll], and [sendfile], of [crates/linux-compat/src/syscall.rs].

    A set of descriptors is scanned in one pass; what is not ready contributes
    the watch it would wake on. *)

From S2P Require Import Prelude BTree Abi Digest Chunk Filesystem Pager Cpu Net Fd Proc Signals Authority Env GuestMem Switch ProcCalls Inotify FileIo Streams.

Definition EPOLL_CTL_ADD : Z := 1.
Definition EPOLL_CTL_DEL : Z := 2.
Definition EPOLL_CTL_MOD : Z := 3.
Definition EPOLLIN : Z := 1.
Definition EPOLLOUT : Z := 4.
Definition EPOLLHUP : Z := 16.
Definition EPOLLET : Z := 2147483648.
Definition POLLIN : Z := 1.
Definition POLLOUT : Z := 4.
Definition POLLHUP : Z := 16.
Definition POLLNVAL : Z := 32.

(** * Readiness of a description *)
Definition read_watch_of (d : Description) : option Watch :=
  match backing d with
  | BPipe i false => Some (PipeReadable i)
  | BSocketPair rx _ => Some (PipeReadable rx)
  | BEventFd i => Some (Event i)
  | BTimerFd i => Some (Timer i)
  | BNet i => Some (NetReadable i)
  | BPtyMaster i => Some (PtyReadable i true)
  | BPtySlave i => Some (PtyReadable i false)
  | BInotify i => Some (InotifyReadable i)
  | _ => None
  end.

Module Polling.
Section readiness.
Context {B : Type} `{NetworkBroker B}.

Definition desc_read_ready (h : Heap B) (now : Z) (d : Description) : bool :=
  match read_watch_of d with Some x => Sched.watch_ready h now x | None => true end.
Definition write_end_of (d : Description) : option Z :=
  match backing d with BPipe i true => Some i | BSocketPair _ tx => Some tx | _ => None end.
Definition desc_write_ready (h : Heap B) (d : Description) : bool :=
  match write_end_of d with Some i => Sched.look (pipes h !! i) Sched.pipe_writable | None => true end.
(** The reading end of a pipe without writers. *)
Definition hung_up (h : Heap B) (d : Description) : bool :=
  match backing d with BPipe i false => Sched.look (pipes h !! i) (λ p, p_writers p =? 0) | _ => false end.
(** Activity counters; [+] of the two of a socket pair wraps. *)
Definition backing_activity (h : Heap B) (d : Description) : Z :=
  let pipe i := match pipes h !! i with Some p => p_activity p | None => 0 end in
  match backing d with
  | BPipe i _ => pipe i
  | BSocketPair rx tx => wrapping_add64 (pipe rx) (pipe tx)
  | BEventFd i => match events h !! i with Some e => e_activity e | None => 0 end
  | BInotify i => match inotifies h !! i with Some n => i_activity n | None => 0 end
  | BNet i => match sockets h !! i with Some s => s_activity s | None => 0 end
  | BPtyMaster i | BPtySlave i => match ptys h !! i with Some p => pty_activity p | None => 0 end
  | _ => 0
  end.
Definition activity_watch_of (h : Heap B) (d : Description) : option Watch :=
  match backing d with
  | BPipe i _ | BSocketPair i _ => p ← pipes h !! i; Some (PipeActivity i (p_activity p))
  | BEventFd i => e ← events h !! i; Some (EventActivity i (e_activity e))
  | BPtyMaster i | BPtySlave i => p ← ptys h !! i; Some (PtyActivity i (pty_activity p))
  | _ => None
  end.
Definition push_watch (o : option Watch) (ws : list Watch) : list Watch := ws ++ option_list o.
Definition bit_if (b : bool) (bit : Z) : Z := if b then bit else 0.

(** * poll *)
Definition poll_bits (h : Heap B) (now events : Z) (d : Description) : Z :=
  Z.lor (Z.lor
    (bit_if (has_flag events POLLIN && desc_readable d && desc_read_ready h now d) POLLIN)
    (bit_if (has_flag events POLLOUT && desc_writable d && desc_write_ready h d) POLLOUT))
    (bit_if (hung_up h d) POLLHUP).
Definition poll_watches (events : Z) (d : Description) : list Watch :=
  (if has_flag events POLLIN then option_list (read_watch_of d) else []) ++
  (if has_flag events POLLOUT then PipeWritable <$> option_list (write_end_of d) else []).

(** * epoll *)
(** What one interest contributes: bits fired and the watch of a read that is
    not ready. *)
Definition fired_bits (h : Heap B) (now events : Z) (d : Description) : Z :=
  Z.lor (Z.lor
    (bit_if (has_flag events EPOLLIN && desc_readable d && desc_read_ready h now d) EPOLLIN)
    (bit_if (hung_up h d) EPOLLHUP))
    (bit_if (has_flag events EPOLLOUT && desc_writable d && desc_write_ready h d) EPOLLOUT).
Definition read_watch_if (h : Heap B) (now events : Z) (d : Description) : list Watch :=
  if has_flag events EPOLLIN && negb (desc_readable d && desc_read_ready h now d) then option_list (read_watch_of d) else [].
Record Scan := { ready : list (Z * Z); scan_watches : list Watch; new_fired : list (Z * (Z * Z)) }.
Definition scan_start : Scan := {| ready := []; scan_watches := []; new_fired := [] |}.
Definition report_ready (max : Z) (bits data : Z) (s : Scan) : option Scan :=
  if negb (bits =? 0) && (zlen (ready s) <? max)
  then Some {| ready := ready s ++ [(bits, data)]; scan_watches := scan_watches s; new_fired := new_fired s |} else None.
Definition add_watches (ws : list Watch) (s : Scan) : Scan :=
  {| ready := ready s; scan_watches := scan_watches s ++ ws; new_fired := new_fired s |}.
Definition note_fired (fd mask act : Z) (s : Scan) : Scan :=
  {| ready := ready s; scan_watches := scan_watches s; new_fired := new_fired s ++ [(fd, (mask, act))] |}.

(** An edge-triggered interest: a condition is reported once and again after
    it was seen not ready or the activity counter moved. *)
Definition scan_edge (h : Heap B) (max fd data fired : Z) (last_ : option (Z * Z)) (d : Description) (s : Scan) : Scan :=
  let act := backing_activity h d in
  let '(prev_mask, prev_act) := default (0, act) last_ in
  let prev := if act =? prev_act then prev_mask else 0 in
  let report := Z.land fired (Z.lnot prev) in
  let s := if negb (fired =? prev_mask) || negb (act =? prev_act) then note_fired fd fired act s else s in
  match report_ready max report data s with
  | Some s => s
  | None => if negb (fired =? 0) then add_watches (option_list (activity_watch_of h d)) s else s
  end.
Definition scan_interest (h : Heap B) (now max : Z) (fired_before : btree Z (Z * Z)) (fd events data : Z) (d : Description) (s : Scan) : Scan :=
  let s := add_watches (read_watch_if h now events d) s in
  let fired := fired_bits h now events d in
  if has_flag events EPOLLET then scan_edge h max fd data fired (bt_get fired_before fd) d s
  else default s (report_ready max fired data s).
(** The loop over the interests; a descriptor that is gone is skipped. *)
Fixpoint scan_loop (h : Heap B) (now max : Z) (look_up : Z → option Description) (fired_before : btree Z (Z * Z))
    (l : btree Z (Z * Z)) (s : Scan) : Scan :=
  match l with
  | [] => s
  | (fd, (events, data)) :: l =>
      scan_loop h now max look_up fired_before l
        (match look_up fd with Some d => scan_interest h now max fired_before fd events data d s | None => s end)
  end.
Definition record_fired (l : list (Z * (Z * Z))) (m : btree Z (Z * Z)) : btree Z (Z * Z) :=
  foldl (λ m x, if x.2.1 =? 0 then bt_remove m x.1 else bt_insert m x.1 x.2) m l.
Definition with_interests (x : btree Z (Z * Z)) (e : EpollInner) : EpollInner := {| interests := x; edge_fired := edge_fired e |}.
Definition with_edge_fired (x : btree Z (Z * Z)) (e : EpollInner) : EpollInner := {| interests := interests e; edge_fired := x |}.
End readiness.

Section polling.
Context `{Host} {B : Type} `{NetworkBroker B} {M V : Type} `{GuestMemory M V}.
Abbreviation machine := (Machine B M V).
Abbreviation sys := (stm machine Z).

(** [fds.get(fd)], as an option. *)
Definition find_desc (w : machine) (fd : Z) : option Description :=
  match get_desc fd w with (_, Ok x) => Some x.2 | _ => None end.

(** One record of [struct pollfd] and the loop over them. *)
Definition poll_record (w : machine) (now : Z) (r : bytes) : bytes * bool :=
  let fd := wrap 32 (le_val (take 4 r)) in
  let events := le_val (take 2 (drop 4 r)) in
  let revents := match find_desc w fd with None => POLLNVAL | Some d => poll_bits (heap (env w)) now events d end in
  (take 6 r ++ le_bytes 2 revents, negb (revents =? 0)).
Fixpoint poll_loop (n : nat) (w : machine) (now : Z) (raw : bytes) : bytes * Z :=
  match n with
  | O => (raw, 0)
  | S n =>
      let '(r, hit) := poll_record w now (take 8 raw) in
      let '(rest, k) := poll_loop n w now (drop 8 raw) in
      (r ++ rest, k + (if hit : bool then 1 else 0))
  end.
Definition sys_poll (fds_ptr nfds : Z) : sys Z :=
  do! now <- gets now_nanos in
  let n := Z.min nfds 1024 in
  do! records <- Copy.read_mem fds_ptr (n * 8) in
  do! x <- gets (λ w, poll_loop (length records / 8) w now records) in
  do! _ <- Copy.write_mem fds_ptr x.1 in
  sret x.2.

Fixpoint watch_loop (n : nat) (w : machine) (raw : bytes) : list Watch :=
  match n with
  | O => []
  | S n =>
      let fd := wrap 32 (le_val (take 4 raw)) in
      let events := le_val (take 2 (drop 4 raw)) in
      match find_desc w fd with Some d => poll_watches events d | None => [] end ++ watch_loop n w (drop 8 raw)
  end.
(** A wait on [ws] that ends with zero at the deadline, or is replayed. *)
Definition park_on (ws : list Watch) (now : Z) (timeout : option Z) : sys Outcome :=
  match timeout with
  | Some t => do! deadline <- query (λ _, add64 now t) in Calls.park_timeout_returning_zero ws deadline
  | None => Switch.block_and_switch (Waiting ws None) true
  end.
Definition MILLIS : Z := 1000000.
Definition poll_timeout (timeout_arg : Z) (is_ppoll : bool) : sys (option Z) :=
  if is_ppoll then
    if timeout_arg =? 0 then sret None else do! t <- Calls.read_timespec_at timeout_arg in sret (Some t)
  else
    let ms := as_i32 timeout_arg in
    sret (if ms <? 0 then None else Some (ms * MILLIS)).
Definition outcome_poll (fds_ptr nfds timeout_arg : Z) (is_ppoll : bool) : sys Outcome :=
  do! n <- sys_poll fds_ptr nfds in
  do! now <- gets now_nanos in
  do! timeout <- poll_timeout timeout_arg is_ppoll in
  if (0 <? n) || bool_decide (timeout = Some 0) then sret (Value n)
  else
    do! records <- Copy.read_mem fds_ptr (Z.min nfds 1024 * 8) in
    do! ws <- gets (λ w, watch_loop (length records / 8) w records) in
    park_on ws now timeout.

(** * The epoll calls *)
Definition epoll_of (fd : Z) : sys Z :=
  do! x <- get_desc fd in match backing x.2 with BEpoll i => sret i | _ => sfail EINVAL end.
Definition put_epoll (i : Z) (e : EpollInner) : machine → machine := on_heap (λ h, set_epolls (<[i := e]> (epolls h)) h).
Definition sys_epoll_create (fl : Z) : sys Z := λ w,
  let '(i, h) := Fds.fresh (heap (env w)) in
  Watching.new_fd (BEpoll i) O_RDWR (has_flag fl O_CLOEXEC)
    (on_heap (λ _, set_epolls (<[i := {| interests := []; edge_fired := [] |}]> (epolls h)) h) w).
Definition sys_epoll_ctl (epfd op fd event_ptr : Z) : sys Z :=
  do! i <- epoll_of epfd in
  if (op =? EPOLL_CTL_ADD) || (op =? EPOLL_CTL_MOD) then
    do! _ <- get_desc fd in
    do! b <- Copy.read_mem event_ptr 12 in
    let events := le_val (take 4 b) in
    let data := le_val (take 8 (drop 4 b)) in
    do! e <- Stream.borrow epolls i in
    if (op =? EPOLL_CTL_ADD) && bt_mem (interests e) fd then sfail EEXIST
    else
      do! _ <- modify (put_epoll i {| interests := bt_insert (interests e) fd (events, data);
                                      edge_fired := bt_remove (edge_fired e) fd |}) in sret 0
  else if op =? EPOLL_CTL_DEL then
    do! e <- Stream.borrow epolls i in
    if bt_mem (interests e) fd then
      do! _ <- modify (put_epoll i {| interests := bt_remove (interests e) fd; edge_fired := bt_remove (edge_fired e) fd |}) in
      sret 0
    else sfail ENOENT
  else sfail EINVAL.

(** [(max_events as usize).clamp(1, 256)] *)
Definition clamp_events (max_events : Z) : Z := Z.min (Z.max (as_usize max_events) 1) 256.
Definition encode_events (l : list (Z * Z)) : bytes := concat ((λ x, le_bytes 4 x.1 ++ le_bytes 8 x.2) <$> l).
Definition epoll_scan (max now : Z) (e : EpollInner) (w : machine) : Scan :=
  scan_loop (heap (env w)) now max (find_desc w) (edge_fired e) (interests e) scan_start.
Definition sys_epoll_wait (epfd events_ptr max_events timeout_arg : Z) : sys Outcome :=
  do! i <- epoll_of epfd in
  let max := clamp_events max_events in
  do! now <- gets now_nanos in
  do! e <- Stream.borrow epolls i in
  do! s <- gets (epoll_scan max now e) in
  do! _ <- modify (put_epoll i (with_edge_fired (record_fired (new_fired s) (edge_fired e)) e)) in
  if negb (bool_decide (ready s = [])) then
    do! _ <- Copy.write_mem events_ptr (encode_events (ready s)) in sret (Value (zlen (ready s)))
  else
    let ms := as_i32 timeout_arg in
    if ms =? 0 then sret (Value 0)
    else park_on (scan_watches s) now (if 0 <? ms then Some (ms * MILLIS) else None).

(** * select *)
Definition read_set (words : nat) (ptr : Z) : sys (list Z) :=
  if (ptr =? 0) || bool_decide (words = 0%nat) then sret (replicate words 0)
  else do! b <- Copy.read_mem ptr (Z.of_nat words * 8) in sret ((λ k, le_val (take 8 (drop (8 * k) b))) <$> seq 0 words).
Definition in_set (s : list Z) (fd : nat) : bool := Z.testbit (default 0 (s !! (fd / 64)%nat)) (Z.of_nat (fd mod 64)).
Definition set_bit (s : list Z) (fd : nat) : list Z := alter (λ x, Z.lor x (Z.shiftl 1 (Z.of_nat (fd mod 64)))) (fd / 64)%nat s.
Record Selected := { r_out : list Z; w_out : list Z; sel_count : Z; sel_watches : list Watch }.
Definition select_fd (w : machine) (now : Z) (want_read want_write : bool) (fd : nat) (d : Description) (s : Selected) : Selected :=
  let s :=
    if want_read then
      if desc_readable d && desc_read_ready (heap (env w)) now d
      then {| r_out := set_bit (r_out s) fd; w_out := w_out s; sel_count := sel_count s + 1; sel_watches := sel_watches s |}
      else {| r_out := r_out s; w_out := w_out s; sel_count := sel_count s;
              sel_watches := push_watch (read_watch_of d) (sel_watches s) |}
    else s in
  if want_write && desc_writable d && desc_write_ready (heap (env w)) d
  then {| r_out := r_out s; w_out := set_bit (w_out s) fd; sel_count := sel_count s + 1; sel_watches := sel_watches s |}
  else s.
Fixpoint select_loop (fds : list nat) (w : machine) (now : Z) (rset wset : list Z) (s : Selected) : res Z Selected :=
  match fds with
  | [] => Ok s
  | fd :: fds =>
      let want_read := in_set rset fd in
      let want_write := in_set wset fd in
      if negb want_read && negb want_write then select_loop fds w now rset wset s
      else match find_desc w (Z.of_nat fd) with
           | None => Err EBADF
           | Some d => select_loop fds w now rset wset (select_fd w now want_read want_write fd d s)
           end
  end.
Definition write_set (ptr : Z) (s : list Z) : sys () :=
  if ptr =? 0 then sret () else Copy.write_mem ptr (concat (le_bytes 8 <$> s)).
Definition select_timeout (timeout_ptr : Z) (timespec : bool) : sys (option Z) :=
  if timeout_ptr =? 0 then sret None
  else do! t <- (if timespec then Calls.read_timespec_at timeout_ptr else Calls.read_timeval_at timeout_ptr) in sret (Some t).
(** Both sets are read before either result is looked at; any error is [EFAULT]. *)
Definition read_sets (words : nat) (readfds writefds : Z) : sys (list Z * list Z) := λ w,
  let '(w, r) := read_set words readfds w in
  match r with
  | Panic => (w, Panic)
  | _ => let '(w, r') := read_set words writefds w in
         (w, match r, r' with Ok a, Ok b => Ok (a, b) | _, Panic => Panic | _, _ => Err EFAULT end)
  end.
Definition sys_select (nfds_arg readfds writefds exceptfds timeout_ptr : Z) (timespec : bool) : sys Outcome :=
  let nfds := Z.to_nat (Z.min nfds_arg 1024) in
  let words := Z.to_nat (div_ceil (Z.of_nat nfds) 64) in
  do! now <- gets now_nanos in
  do! sets <- read_sets words readfds writefds in
  do! s <- query (λ w, select_loop (seq 0 nfds) w now sets.1 sets.2
    {| r_out := replicate words 0; w_out := replicate words 0; sel_count := 0; sel_watches := [] |}) in
  do! timeout <- select_timeout timeout_ptr timespec in
  if (sel_count s =? 0) && negb (bool_decide (timeout = Some 0)) then park_on (sel_watches s) now timeout
  else
    do! _ <- write_set readfds (r_out s) in
    do! _ <- write_set writefds (w_out s) in
    do! _ <- (if exceptfds =? 0 then sret () else Copy.write_mem exceptfds (replicate (words * 8) 0)) in
    sret (Value (sel_count s)).
End polling.
End Polling.
