(* ===== verification/PollSpec.v ===== *)
(** A [poll] that waits wakes exactly when one of its descriptors is ready; two
    waits that can miss a writer. *)

From S2P Require Import Prelude BTree Abi Digest Chunk Filesystem Pager Cpu Net Fd Proc Signals Authority Env GuestMem Switch ProcCalls Inotify FileIo Streams Poll.

Section poll.
Context `{Host} {B : Type} `{NetworkBroker B} {M V : Type} `{GuestMemory M V}.
Abbreviation machine := (Machine B M V).
Implicit Types w : machine.

(** The events asked for are ones the descriptor was opened for. *)
Definition permitted (events : Z) (d : Description) : Prop :=
  (has_flag events POLLIN = true → desc_readable d = true) ∧ (has_flag events POLLOUT = true → desc_writable d = true).
(** Who holds the reading end of a pipe asks for input. *)
Definition listens (events : Z) (d : Description) : Prop := ∀ i, backing d = BPipe i false → has_flag events POLLIN = true.
(** One [struct pollfd]. *)
Definition rec_fd (r : bytes) : Z := wrap 32 (le_val (take 4 r)).
Definition rec_events (r : bytes) : Z := le_val (take 2 (drop 4 r)).
(** The two machines name the same open descriptions by the descriptors of a
    record, and the records ask for the same events. *)
Definition same_record w w' (r r' : bytes) : Prop :=
  rec_fd r' = rec_fd r ∧ rec_events r' = rec_events r ∧
  Polling.find_desc w' (rec_fd r) = Polling.find_desc w (rec_fd r).
Fixpoint same_records (n : nat) w w' (raw raw' : bytes) : Prop :=
  match n with
  | O => True
  | S n => same_record w w' raw raw' ∧ same_records n w w' (drop 8 raw) (drop 8 raw')
  end.
(** Every record that names a description satisfies [P]. *)
Fixpoint each_record (P : Z → Description → Prop) (n : nat) w (raw : bytes) : Prop :=
  match n with
  | O => True
  | S n => (∀ d, Polling.find_desc w (rec_fd raw) = Some d → P (rec_events raw) d) ∧ each_record P n w (drop 8 raw)
  end.

Lemma bits_zero a b c x y z :
  0 < x → 0 < y → 0 < z →
  (Z.lor (Z.lor (Polling.bit_if a x) (Polling.bit_if b y)) (Polling.bit_if c z) =? 0) = negb (a || b || c).
Proof.
  intros. destruct a, b, c; cbn [Polling.bit_if orb negb]; try reflexivity;
    apply Z.eqb_neq; rewrite !Z.lor_eq_0_iff; lia.
Qed.
Lemma poll_bits_zero h now events d :
  (Polling.poll_bits (B:=B) h now events d =? 0) =
  negb (has_flag events POLLIN && desc_readable d && Polling.desc_read_ready h now d
        || has_flag events POLLOUT && desc_writable d && Polling.desc_write_ready h d || Polling.hung_up h d).
Proof. apply bits_zero; reflexivity. Qed.
Lemma hung_up_readable (h : Heap B) now d i :
  backing d = BPipe i false → Polling.hung_up h d = true → Polling.desc_read_ready h now d = true.
Proof.
  unfold Polling.hung_up, Polling.desc_read_ready, read_watch_of. intros ->. cbn. destruct (pipes h !! i) as [p|]; [|done].
  cbn. unfold Sched.pipe_readable. intros ->. apply orb_true_r.
Qed.
Lemma hung_up_pipe (h : Heap B) d : Polling.hung_up h d = true → ∃ i, backing d = BPipe i false.
Proof. unfold Polling.hung_up. destruct (backing d) as [| | | |i []| | | | | | | |]; try done. eauto. Qed.

(** A descriptor that is not ready: its watches fire when it is, and only then. *)
Lemma poll_watches_wake (h h' : Heap B) now now' events d :
  listens events d → Polling.poll_bits h now events d = 0 → Polling.poll_bits h' now' events d ≠ 0 →
  existsb (Sched.watch_ready h' now') (Polling.poll_watches events d) = true.
Proof.
  intros Hpipe Hz Hnz. apply Z.eqb_eq in Hz. apply Z.eqb_neq in Hnz. rewrite poll_bits_zero in Hz, Hnz.
  apply negb_true_iff, orb_false_iff in Hz as [Hz Hhup]. apply orb_false_iff in Hz as [Hr Hw].
  unfold Polling.poll_watches. rewrite existsb_app. apply negb_false_iff, orb_true_iff in Hnz as [Hnz|Hnz];
    [apply orb_true_iff in Hnz as [Hnz|Hnz]|]; apply orb_true_iff.
  - left. apply andb_true_iff in Hnz as [[Hin Hrd]%andb_true_iff Hready]. rewrite Hin in Hr |- *. rewrite Hrd in Hr. cbn [andb] in Hr.
    unfold Polling.desc_read_ready in *. destruct (read_watch_of d); cbn; [by rewrite Hready|done].
  - right. apply andb_true_iff in Hnz as [[Hout Hwr]%andb_true_iff Hready]. rewrite Hout in Hw |- *. rewrite Hwr in Hw. cbn [andb] in Hw.
    unfold Polling.desc_write_ready in *. destruct (Polling.write_end_of d); cbn; [by rewrite Hready|done].
  - left. destruct (hung_up_pipe _ _ Hnz) as [i Hi]. rewrite (Hpipe _ Hi).
    pose proof (hung_up_readable h' now' d i Hi Hnz) as Hready. unfold Polling.desc_read_ready, read_watch_of in *. rewrite Hi in *.
    change (Sched.watch_ready h' now' (PipeReadable i) || false = true). by rewrite Hready.
Qed.
Lemma poll_watches_true (h' : Heap B) now' events d :
  permitted events d → existsb (Sched.watch_ready h' now') (Polling.poll_watches events d) = true →
  Polling.poll_bits h' now' events d ≠ 0.
Proof.
  intros (Hin & Hout) Hex. apply Z.eqb_neq. rewrite poll_bits_zero. apply negb_false_iff, orb_true_iff. left. apply orb_true_iff.
  unfold Polling.poll_watches in Hex. rewrite existsb_app in Hex. apply orb_true_iff in Hex as [Hex|Hex].
  - left. destruct (has_flag events POLLIN); [|done]. rewrite Hin by done. unfold Polling.desc_read_ready.
    destruct (read_watch_of d); cbn in *; [|done]. by rewrite orb_false_r in Hex.
  - right. destruct (has_flag events POLLOUT); [|done]. rewrite Hout by done. unfold Polling.desc_write_ready.
    destruct (Polling.write_end_of d); cbn in *; [|done]. by rewrite orb_false_r in Hex.
Qed.

Lemma poll_loop_nonneg n w now : ∀ raw, 0 ≤ (Polling.poll_loop n w now raw).2.
Proof.
  induction n as [|n IH]; intros raw; cbn [Polling.poll_loop]; [done|].
  destruct (Polling.poll_record w now (take 8 raw)) as [r hit]. specialize (IH (drop 8 raw)).
  destruct (Polling.poll_loop n w now (drop 8 raw)) as [rest k]. cbn in *. destruct hit; lia.
Qed.
Lemma rec_take raw : rec_fd (take 8 raw) = rec_fd raw ∧ rec_events (take 8 raw) = rec_events raw.
Proof.
  unfold rec_fd, rec_events. rewrite take_take. split; [done|].
  by rewrite !take_drop_commute, take_take.
Qed.

Lemma poll_loop_wakes n w w' now now' : ∀ raw raw',
  same_records n w w' raw raw' → (Polling.poll_loop n w now raw).2 = 0 →
  let woken := existsb (Sched.watch_ready (heap (env w')) now') (Polling.watch_loop n w raw) in
  let found := 0 < (Polling.poll_loop n w' now' raw').2 in
  (each_record listens n w raw → found → woken = true) ∧ (each_record permitted n w raw → woken = true → found).
Proof.
  induction n as [|n IH]; intros raw raw'; cbn [same_records Polling.poll_loop Polling.watch_loop each_record]; [done|].
  intros [(Hfd & Hev & Hdesc) Hrest]. unfold Polling.poll_record.
  destruct (rec_take raw) as [Ef Ee], (rec_take raw') as [Ef' Ee']. unfold rec_fd, rec_events in *.
  rewrite Ef, Ee, Ef', Ee', Hfd, Hev, Hdesc.
  pose proof (poll_loop_nonneg n w now (drop 8 raw)) as Hn. pose proof (poll_loop_nonneg n w' now' (drop 8 raw')) as Hn'.
  specialize (IH (drop 8 raw) (drop 8 raw') Hrest).
  destruct (Polling.poll_loop n w now (drop 8 raw)) as [r1 k], (Polling.poll_loop n w' now' (drop 8 raw')) as [r1' k'].
  cbn [snd] in *. destruct (Polling.find_desc w _) as [d|]; [|cbn; lia].
  destruct (Z.eqb_spec (Polling.poll_bits (heap (env w)) now (le_val (take 2 (drop 4 raw))) d) 0) as [Hz|]; cbn [negb]; [|lia].
  intros Hk. rewrite Z.add_0_r in Hk. destruct (IH Hk) as [IH1 IH2]. cbv zeta. rewrite existsb_app, orb_true_iff. cbn [snd] in *.
  destruct (Z.eqb_spec (Polling.poll_bits (heap (env w')) now' (le_val (take 2 (drop 4 raw))) d) 0) as [Hz'|Hnz]; cbn [negb].
  - rewrite Z.add_0_r. split; intros [Hd Hds]; [auto|]. intros [Hex|Hex]; [|auto]. by apply poll_watches_true in Hex; [|apply Hd].
  - split; intros [Hd Hds]; [|lia]. intros _. left. by apply (poll_watches_wake (heap (env w)) _ now); [apply Hd|..].
Qed.
End poll.

(** C20. A [poll] that found nothing ready waits on the right things. In any later
    state where its descriptors are still what they were: if polling the same
    records again would report a descriptor, a watch it parked on is ready (so the
    call is woken), provided every record for the reading end of a pipe asks for
    [POLLIN]; and if a watch is ready, the replayed call does report a descriptor,
    provided each record asks only for what its descriptor was opened for. Without
    [POLLIN] the hang-up of a pipe is not waited for, as [hang_up_unwatched] shows. *)
Theorem poll_wakes_exactly `{Host} {B} `{NetworkBroker B} {M V} `{GuestMemory M V} (w w' : Machine B M V) n now now' raw raw' :
  same_records n w w' raw raw' → (Polling.poll_loop n w now raw).2 = 0 →
  let woken := existsb (Sched.watch_ready (heap (env w')) now') (Polling.watch_loop n w raw) in
  let found := 0 < (Polling.poll_loop n w' now' raw').2 in
  (each_record listens n w raw → found → woken = true) ∧ (each_record permitted n w raw → woken = true → found).
Proof. apply poll_loop_wakes. Qed.

(** A process with a pipe: descriptors 3 (reading) and 4 (writing). *)
Definition bare_machine : Machine HostBroker (gmap Z Z) (gmap Z Z) :=
  {| env := env_new Host_broker.new;
     core := {| regs := ∅; scratch := []; exception := Core.external 0; pending_exception := None; icount := 0;
                block_id := 0; block_offset := 0 |};
     mem := ∅ |}.
Definition poll_machine : Machine HostBroker (gmap Z Z) (gmap Z Z) :=
  (with_heap (Fds.pipe_fds (fds (proc bare_machine)) 0) bare_machine).1.
Definition fed_machine : Machine HostBroker (gmap Z Z) (gmap Z Z) :=
  on_heap (λ h, set_pipes (add_data [1; 2] <$> pipes h) h) poll_machine.
Definition pollfd (fd events : Z) : bytes := le_bytes 4 fd ++ le_bytes 2 events ++ [0; 0].

Lemma poll_wakes_exactly_witness :
  existsb (Sched.watch_ready (heap (env fed_machine)) 0) (Polling.watch_loop 1 poll_machine (pollfd 3 POLLIN)) = true ∧
  0 < (Polling.poll_loop 1 fed_machine 0 (pollfd 3 POLLIN)).2.
Proof.
  assert (Hd : Polling.find_desc poll_machine (rec_fd (pollfd 3 POLLIN)) = Some {| backing := BPipe 4 false; offset := 0; flags := O_RDONLY |})
    by (vm_compute; reflexivity).
  destruct (poll_wakes_exactly poll_machine fed_machine 1 0 0 (pollfd 3 POLLIN) (pollfd 3 POLLIN)) as [Hw Hf]; [|vm_compute; reflexivity|].
  - split; [|exact I]. split_and!; [reflexivity..|vm_compute; reflexivity].
  - assert (Hl : each_record listens 1 poll_machine (pollfd 3 POLLIN)) by (split; [|exact I]; rewrite Hd; by intros d [= <-] i _).
    assert (Hp : each_record permitted 1 poll_machine (pollfd 3 POLLIN)).
    { split; [|exact I]. rewrite Hd. intros d [= <-]. by split; [|vm_compute]. }
    specialize (Hw Hl ltac:(by vm_compute)). split; [exact Hw|by apply Hf].
Defined.
(** Polling the reading end of a pipe for nothing parks on no watch; once the last
    writer has closed, the same poll would report [POLLHUP]. *)
Definition closed_machine : Machine HostBroker (gmap Z Z) (gmap Z Z) :=
  (with_heap (Fds.close (fds (proc poll_machine)) 4) poll_machine).1.
Example hang_up_unwatched :
  (Polling.poll_loop 1 poll_machine 0 (pollfd 3 0)).2 = 0 ∧ Polling.watch_loop 1 poll_machine (pollfd 3 0) = [] ∧
  (Polling.poll_loop 1 closed_machine 0 (pollfd 3 0)).2 = 1.
Proof. vm_compute. auto. Qed.

(** A level-triggered interest in writing alone, and a descriptor in the write
    set alone, contribute no watch: a task that waits for a full pipe to drain
    has nothing to wake it. *)
Lemma epoll_skips_writers {B} `{NetworkBroker B} (h : Heap B) now max before fd events data d s :
  has_flag events EPOLLIN = false → has_flag events EPOLLET = false →
  Polling.scan_watches (Polling.scan_interest h now max before fd events data d s) = Polling.scan_watches s.
Proof.
  intros Hin Het. unfold Polling.scan_interest, Polling.read_watch_if. rewrite Hin, Het. cbn [andb].
  unfold Polling.report_ready. destruct (_ && _); cbn; apply app_nil_r.
Qed.
Lemma select_skips_writers `{Host} {B} `{NetworkBroker B} {M V} `{GuestMemory M V} (w : Machine B M V) now fd d s :
  Polling.sel_watches (Polling.select_fd w now false true fd d s) = Polling.sel_watches s.
Proof. unfold Polling.select_fd. by destruct (_ && _). Qed.

(** An edge that did not fit the caller's array is recorded as delivered: the
    second scan reports nothing, and the second descriptor is never reported. *)
Example edge_lost :
  let e c := {| e_count := c; e_semaphore := false; e_activity := 1 |} in
  let h := set_events {[1 := e 1; 2 := e 1]} (heap_empty Host_broker.new) in
  let d i := Some {| backing := BEventFd i; offset := 0; flags := O_RDWR |} in
  let want := [(1, (Z.lor EPOLLIN EPOLLET, 10)); (2, (Z.lor EPOLLIN EPOLLET, 20))] in
  let first := Polling.scan_loop h 0 1 d [] want Polling.scan_start in
  let second := Polling.scan_loop h 0 1 d (Polling.record_fired (Polling.new_fired first) []) want Polling.scan_start in
  Polling.ready first = [(EPOLLIN, 10)] ∧ Polling.ready second = [].
Proof. vm_compute. auto. Qed.
