(* ===== verification/MemCalls.v ===== *)
(** The memory calls of [crates/linux-compat/src/syscall.rs]: [mmap], [munmap],
    [mremap], [mprotect], [brk] and [msync], with [align_up] of [lib.rs].

    The operations of the softmmu they use are a class of their own: finding a
    free range, mapping one filled with zeros, unmapping one. The laws say what
    each does to the byte an address reads. *)

From S2P Require Import Prelude BTree Abi Digest Chunk Filesystem Pager Cpu Net Fd Proc Signals Authority Env GuestMem FileIo.

(** * Ranges of the guest's address space *)
Class AddressRanges (M : Type) := {
  (** [find_free_memory]: hint, size, alignment *)
  mem_find_free : M → Z → Z → Z → option Z;
  (** [map_memory_len]: start, length, permission; the bytes are 0 *)
  mem_map : M → Z → Z → Z → M * bool;
  (** [unmap_memory_len]: start, length; false when some of it was not mapped *)
  mem_unmap : M → Z → Z → M * bool
}.
Class AddressRangesLaws (M V : Type) `{GuestMemory M V} `{AddressRanges M} := {
  find_free_spec m hint n align a :
    0 < n → mem_find_free m hint n align = Some a →
    a mod align = 0 ∧ 0 ≤ a ∧ a + n ≤ 2 ^ 64 ∧ ∀ x, a ≤ x < a + n → mem_read m x 1 = None;
  map_spec m a n prm m' :
    0 ≤ a → mem_map m a n prm = (m', true) →
    0 < n ∧ a + n ≤ 2 ^ 64 ∧
    ∀ x, is_u64 x → mem_read m' x 1 = if decide (a ≤ x < a + n) then Some [0] else mem_read m x 1;
  map_was_free m a n prm m' : mem_map m a n prm = (m', true) → ∀ x, a ≤ x < a + n → mem_read m x 1 = None;
  map_fails m a n prm m' : mem_map m a n prm = (m', false) → m' = m;
  unmap_range_spec m a n m' r :
    0 ≤ a → 0 < n → a + n ≤ 2 ^ 64 → mem_unmap m a n = (m', r) →
    ∀ x, is_u64 x → mem_read m' x 1 = if decide (a ≤ x < a + n) then None else mem_read m x 1;
  unmap_empty m a n : n = 0 ∨ 2 ^ 64 < a + n → mem_unmap m a n = (m, false);
  (** copies and permissions leave the mapped addresses alone *)
  write_keeps m a b m' r x : mem_write m a b = (m', r) → is_Some (mem_read m' x 1) ↔ is_Some (mem_read m x 1);
  (** mapping fails only where something is mapped, permissions only where nothing is *)
  map_free m a n prm : 0 ≤ a → 0 < n → a + n ≤ 2 ^ 64 → (∀ x, a ≤ x < a + n → mem_read m x 1 = None) →
    (mem_map m a n prm).2 = true;
  update_mapped m a n prm : 0 ≤ a → a + n ≤ 2 ^ 64 → (∀ x, a ≤ x < a + n → is_Some (mem_read m x 1)) →
    (mem_update_perm m a n prm).2 = true
}.

(** * The ranges of a memory without translation *)
Module FlatRange.
Definition free (m : gmap Z Z) (a n : Z) : bool := forallb (λ x, bool_decide (m !! x = None)) (seqZ a n).
Definition full (m : gmap Z Z) (a n : Z) : bool := forallb (λ x, bool_decide (is_Some (m !! x))) (seqZ a n).
Definition in_space (a n : Z) : bool := (0 <? n) && (a + n <=? 2 ^ 64).
Fixpoint find (fuel : nat) (m : gmap Z Z) (k n align : Z) : option Z :=
  match fuel with
  | O => None
  | S fuel =>
      let a := k * align in
      if (0 <=? a) && in_space a n && free m a n then Some a else find fuel m (k + 1) n align
  end.
Definition zeros (a n : Z) : gmap Z Z := list_to_map ((λ x, (x, 0)) <$> seqZ a n).
Definition map_ (m : gmap Z Z) (a n : Z) : gmap Z Z * bool :=
  if in_space a n && free m a n then (zeros a n ∪ m, true) else (m, false).
Definition unmap_ (m : gmap Z Z) (a n : Z) : gmap Z Z * bool :=
  if in_space a n then (filter (λ e, ¬ (a ≤ e.1 < a + n)) m, full m a n) else (m, false).

Lemma free_true m a n : free m a n = true ↔ ∀ x, a ≤ x < a + n → m !! x = None.
Proof.
  unfold free. rewrite forallb_forall. setoid_rewrite <- list_elem_of_In. setoid_rewrite elem_of_seqZ.
  by setoid_rewrite bool_decide_eq_true.
Qed.
Lemma read_one m x : mem_read (M := gmap Z Z) m x 1 = (λ b, [b mod 256]) <$> m !! x.
Proof. cbn -[Z.to_nat]. change (Z.to_nat 1) with 1%nat. cbn. by destruct (m !! x). Qed.
Lemma read_one_None m x : mem_read (M := gmap Z Z) m x 1 = None ↔ m !! x = None.
Proof. rewrite read_one. by destruct (m !! x). Qed.
Lemma read_one_Some m x : is_Some (mem_read (M := gmap Z Z) m x 1) ↔ is_Some (m !! x).
Proof. by rewrite read_one, fmap_is_Some. Qed.
Lemma zeros_lookup a n x : zeros a n !! x = if decide (a ≤ x < a + n) then Some 0 else None.
Proof.
  unfold zeros. case_decide as Hx.
  - apply elem_of_list_to_map_1.
    + rewrite <- list_fmap_compose. apply NoDup_fmap; [intros ??; done|apply NoDup_seqZ].
    + apply list_elem_of_fmap. exists x. split; [done|]. by apply elem_of_seqZ.
  - apply not_elem_of_list_to_map_1. rewrite <- list_fmap_compose. intros (y & -> & Hy)%list_elem_of_fmap.
    apply elem_of_seqZ in Hy. done.
Qed.
Lemma find_ok fuel m k n align a :
  find fuel m k n align = Some a → a mod align = 0 ∧ 0 ≤ a ∧ a + n ≤ 2 ^ 64 ∧ free m a n = true.
Proof.
  revert k. induction fuel as [|fuel IH]; intros k; cbn [find]; [done|].
  destruct (_ && _ && _) eqn:E; [|apply IH]. unfold in_space in E. bool_to_prop. intros [= <-].
  split_and!; try lia; [apply Z_mod_mult|done].
Qed.
Lemma write_keeps_mapped m a l m' r x : Flat.write m a l = (m', r) → is_Some (m' !! x) ↔ is_Some (m !! x).
Proof.
  revert m a. induction l as [|b l IH]; intros m a; cbn; [by intros [= <- <-]|].
  destruct (m !! a) eqn:E; [|by intros [= <- <-]]. intros ->%IH.
  destruct (decide (a = x)) as [<-|]; [rewrite lookup_insert_eq, E; split; eauto|by rewrite lookup_insert_ne].
Qed.
End FlatRange.

#[global] Instance flat_ranges : AddressRanges (gmap Z Z) := {|
  mem_find_free m hint n align := FlatRange.find 64 m (div_ceil hint align) n align;
  mem_map m a n _ := FlatRange.map_ m a n;
  mem_unmap := FlatRange.unmap_
|}.
#[global, program] Instance flat_ranges_laws : AddressRangesLaws (gmap Z Z) (gmap Z Z).
Next Obligation.
  intros m hint n align a Hn (Ha & H0 & He & Hf)%FlatRange.find_ok. split_and!; [done..|].
  intros x Hx. apply FlatRange.read_one_None. by apply (proj1 (FlatRange.free_true m a n)).
Qed.
Next Obligation.
  intros m a n prm m' Ha Hm. cbn in Hm. unfold FlatRange.map_, FlatRange.in_space in Hm.
  destruct (_ && _) eqn:E; [|done]. bool_to_prop. injection Hm as <-. split_and!; [lia..|]. intros x Hx.
  rewrite !FlatRange.read_one, lookup_union, FlatRange.zeros_lookup. case_decide; [by destruct (m !! x)|].
  by destruct (m !! x).
Qed.
Next Obligation.
  intros m a n prm m' Hm x Hx. cbn in Hm. unfold FlatRange.map_ in Hm. destruct (_ && _) eqn:E; [|done]. bool_to_prop.
  by apply FlatRange.read_one_None, (proj1 (FlatRange.free_true m a n)).
Qed.
Next Obligation. intros m a n prm m'. cbn. unfold FlatRange.map_. case_match; congruence. Qed.
Next Obligation.
  intros m a n m' r Ha Hn He Hm x Hx. cbn in Hm. unfold FlatRange.unmap_, FlatRange.in_space in Hm.
  rewrite (proj2 (Z.ltb_lt 0 n)), (proj2 (Z.leb_le (a + n) _)) in Hm by lia. cbn [andb] in Hm. injection Hm as <- <-.
  rewrite !FlatRange.read_one, map_lookup_filter. destruct (m !! x); cbn; [|by case_decide].
  case_decide; [by rewrite option_guard_False by (intros ?; lia)|by rewrite option_guard_True].
Qed.
Next Obligation.
  intros m a n Hn. cbn. unfold FlatRange.unmap_, FlatRange.in_space. destruct (_ && _) eqn:E; [|done].
  bool_to_prop. lia.
Qed.
Next Obligation. intros m a b m' r x. rewrite !FlatRange.read_one_Some. apply FlatRange.write_keeps_mapped. Qed.
Next Obligation.
  intros m a n prm Ha Hn He Hf. cbn. unfold FlatRange.map_, FlatRange.in_space.
  rewrite (proj2 (Z.ltb_lt 0 n)), (proj2 (Z.leb_le (a + n) _)) by lia. cbn [andb].
  rewrite (proj2 (FlatRange.free_true m a n)); [done|]. intros x Hx. by apply FlatRange.read_one_None, Hf.
Qed.
Next Obligation. done. Qed.

Definition align_up (value align : Z) : Z :=
  let mask := wrap 64 (Z.lnot (align - 1)) in
  match checked_add64 value (align - 1) with Some v => Z.land v mask | None => mask end.

Definition prot_to_perm (prot : Z) : Z :=
  let bits := Perm.INIT in
  let bits := if has_flag prot PROT_READ then Z.lor bits Perm.READ else bits in
  let bits := if has_flag prot PROT_WRITE then Z.lor bits Perm.WRITE else bits in
  if has_flag prot PROT_EXEC then Z.lor bits Perm.EXEC else bits.
Definition RW_INIT : Z := Z.lor (Z.lor Perm.READ Perm.WRITE) Perm.INIT.
(** The alignment of addresses the kernel picks. *)
Definition MMAP_ALIGN : Z := 65536.

Module MemCall.
Section calls.
Context `{Host} {B : Type} `{NetworkBroker B} {M V : Type} `{GuestMemory M V} `{AddressRanges M}.
Abbreviation machine := (Machine B M V).
Abbreviation sys := (stm machine Z).

(** * Cells, memory and the pager of the running process *)
Definition get_cell (i : Z) : sys Z := query (λ w, expect (cells (shared (env w)) !! i)).
Definition put_cell (i x : Z) : machine → machine := on_env (λ e,
  let s := shared e in
  put_shared {| cells := <[i := x]> (cells s); sigtables := sigtables s; done_flags := done_flags s;
                next_cell := next_cell s; next_asid := next_asid s |} e).
Definition mmap_hint : sys Z := λ w, get_cell (mmap_next (proc w)) w.
Definition set_mmap_hint (x : Z) : sys () := modify (λ w, put_cell (mmap_next (proc w)) x w).
(** A memory operation, and one whose answer is dropped. *)
Definition on_mem (f : M → M * bool) : sys bool := λ w, let '(m, r) := f (mem w) in (put_mem m w, Ok r).
Definition on_mem_ (f : M → M * bool) : sys () := do! _ <- on_mem f in sret ().
Definition on_pager (f : Pager → Z → res Z Pager) : sys () := λ w,
  match f (pager (env w)) (asid (proc w)) with
  | Ok p => (on_env (put_pager p) w, Ok ())
  | Err e => (w, Err e)
  | Panic => (w, Panic)
  end.
Definition free_range (hint size align : Z) (w : machine) : option Z := mem_find_free (mem w) hint size align.

(** * Writing shared mappings back *)
Definition overlaps (asid addr end_ : Z) (m : SharedMap) : bool :=
  (sm_asid m =? asid) && (sm_addr m <? end_) && (addr <? saturating_add64 (sm_addr m) (sm_len m)).
Definition write_back (m : SharedMap) : sys () := λ w,
  match mem_read (mem w) (sm_addr m) (as_usize (sm_len m)) with
  | None => (w, Ok ())
  | Some b =>
      match nodes (fs w) !! sm_node m with
      | None => (w, Panic)
      | Some n =>
          match kind n with
          | File data =>
              let start := Z.min (as_usize (sm_offset m)) (vlen data) in
              let n := Z.min (zlen b) (vlen data - start) in
              (Io.put_data (sm_node m) (Vec (spliced start (take (Z.to_nat n) b) (vdata data)) (vcap data)) w, Ok ())
          | _ => (w, Ok ())
          end
      end
  end.
Fixpoint write_back_all (l : list SharedMap) : sys () :=
  match l with [] => sret () | m :: l => do! _ <- write_back m in write_back_all l end.
Definition sync_shared_range (addr len : Z) : sys () := λ w,
  let end_ := saturating_add64 addr len in
  write_back_all (List.filter (overlaps (asid (proc w)) addr end_) (shared_maps (env w))) w.

Definition sys_msync (addr len : Z) : sys Z :=
  do! _ <- sync_shared_range addr (align_up len PAGE_SIZE) in sret 0.

(** * munmap *)
Definition forget_shared (addr end_ : Z) (w : machine) : machine :=
  on_env (put_shared_maps (List.filter (λ m,
    negb (sm_asid m =? asid (proc w)) || (end_ <=? sm_addr m) || (saturating_add64 (sm_addr m) (sm_len m) <=? addr))
    (shared_maps (env w)))) w.
Definition sys_munmap (addr len : Z) : sys Z :=
  let aligned_len := align_up len PAGE_SIZE in
  do! _ <- sync_shared_range addr aligned_len in
  do! _ <- modify (forget_shared addr (saturating_add64 addr aligned_len)) in
  do! ok <- on_mem (λ m, mem_unmap m addr len) in
  if ok : bool then do! _ <- on_pager (λ p a, unmap p a addr aligned_len) in sret 0
  else sfail EINVAL.

(** * mmap *)
Definition mmap_target (addr len flags : Z) : sys Z :=
  if has_flag flags MAP_FIXED && negb (addr =? 0) then
    let target := Z.land addr (Z.lnot (PAGE_SIZE - 1)) in
    do! _ <- on_mem_ (λ m, mem_unmap m target len) in
    do! _ <- on_pager (λ p a, unmap p a target len) in
    sret target
  else
    do! found <- gets (free_range addr len PAGE_SIZE) in
    if negb (addr =? 0) && (Z.land addr (PAGE_SIZE - 1) =? 0) && bool_decide (found = Some addr) then sret addr
    else
      do! hint <- mmap_hint in
      do! found <- gets (free_range hint len MMAP_ALIGN) in
      match found with
      | Some target =>
          do! next <- query (λ _, let! x := add64 target len in add64 x PAGE_SIZE) in
          do! _ <- set_mmap_hint next in
          sret target
      | None => sfail ENOMEM
      end.

(** What the mapping shows: the bytes to copy in, the lazy file with the length
    it covers, and the node to write back to. *)
Inductive Source_ := Anonymous | Eager (b : bytes) (shared_node : option nat) | Lazy (f : ChunkedFile) (len : Z).
Definition mmap_source (len flags fd off : Z) : sys Source_ :=
  if has_flag flags MAP_ANONYMOUS then sret Anonymous
  else
    do! x <- get_desc fd in
    match backing x.2 with
    | BFile node =>
        do! is_secret <- gets (Io.secret_node node) in
        if is_secret : bool then sfail ENODEV
        else
          do! n <- query (λ w, expect (nodes (fs w) !! node)) in
          match kind n with
          | File data =>
              let start := offset_into off (vlen data) in
              do! size <- query (λ _, guest_size len) in
              do! end_ <- query (λ _, expect (checked_add_usize start size)) in
              sret (Eager (slicez (vdata data) start (Z.min end_ (vlen data)))
                      (if has_flag flags MAP_SHARED then Some node else None))
          | k =>
              if has_flag flags MAP_SHARED then sfail ENODEV
              else match k with
                   | Chunked f => sret (Lazy f (Z.min (saturating_sub (cf_size f) off) len))
                   | _ => sfail EBADF
                   end
          end
    | _ => sfail EBADF
    end.

Definition finish_perm (target len prm : Z) : sys Z :=
  do! ok <- on_mem (λ m, mem_update_perm m target len prm) in
  if ok : bool then sret target else sfail ENOMEM.
Definition push_shared (m : SharedMap) : machine → machine :=
  on_env (λ e, put_shared_maps (shared_maps e ++ [m]) e).
(** The source's bytes at the freshly mapped range, and its final permission. *)
Definition mmap_install (target len prm off : Z) (src : Source_) : sys Z :=
  match src with
  | Anonymous => finish_perm target len prm
  | Eager b shared_node =>
      do! _ <- Copy.write_mem target b in
      do! _ <- modify (λ w, match shared_node with
                            | Some node => push_shared {| sm_asid := asid (proc w); sm_addr := target; sm_len := len;
                                                          sm_node := node; sm_offset := off |} w
                            | None => w
                            end) in
      finish_perm target len prm
  | Lazy f file_len =>
      if 0 <? file_len then
        do! end_ <- query (λ _, add64 target len) in
        match mapping_new target end_ target off file_len prm 0 f with
        | Ok m => do! _ <- on_pager (λ p a, Ok (map_file p a m)) in sret target
        | Err _ => sfail EINVAL
        | Panic => query (λ _, Panic)
        end
      else finish_perm target len prm
  end.
Definition sys_mmap (addr len prot flags fd off : Z) : sys Z :=
  if len =? 0 then sfail EINVAL
  else if negb (has_flag flags MAP_ANONYMOUS) && negb (Z.land off (PAGE_SIZE - 1) =? 0) then sfail EINVAL
  else
    let len := align_up len PAGE_SIZE in
    do! target <- mmap_target addr len flags in
    do! src <- mmap_source len flags fd off in
    let initial := match src with Lazy _ _ => Perm.INIT | _ => RW_INIT end in
    do! ok <- on_mem (λ m, mem_map m target len initial) in
    if negb ok then sfail ENOMEM else mmap_install target len (prot_to_perm prot) off src.

(** * mremap *)
Definition MREMAP_MAYMOVE : Z := 1.
Definition MREMAP_FIXED : Z := 2.
Definition mremap_shrink (old_addr old_size new_size : Z) : sys Z :=
  if new_size <? old_size then
    do! tail <- query (λ _, add64 old_addr new_size) in
    do! _ <- on_mem_ (λ m, mem_unmap m tail (old_size - new_size)) in
    do! _ <- on_pager (λ p a, unmap p a tail (old_size - new_size)) in
    sret old_addr
  else sret old_addr.
(** [while page < target + new_size], one step per page. *)
Fixpoint reprotect_loop (fuel : nat) (page end_ : Z) : sys () :=
  match fuel with
  | O => query (λ _, Panic)
  | S fuel =>
      if page <? end_ then
        do! st <- gets (λ w, page_state (pager (env w)) (asid (proc w)) page) in
        do! _ <- match st with
                 | Some (is_resident, prm) =>
                     on_mem_ (λ m, mem_update_perm m page PAGE_SIZE (if is_resident : bool then prm else Perm.INIT))
                 | None => sret ()
                 end in
        do! page <- query (λ _, add64 page PAGE_SIZE) in
        reprotect_loop fuel page end_
      else sret ()
  end.
Definition mremap_move (old_addr old_size new_size : Z) : sys Z :=
  do! hint <- mmap_hint in
  do! found <- gets (free_range hint new_size PAGE_SIZE) in
  do! target <- query (λ _, ok_or found ENOMEM) in
  do! ok <- on_mem (λ m, mem_map m target new_size RW_INIT) in
  if negb ok then sfail ENOMEM
  else
    do! size <- query (λ _, ok_or (try_usize old_size) ENOMEM) in
    do! buf <- Copy.read_mem_raw old_addr size in
    do! _ <- Copy.write_mem target buf in
    do! _ <- on_mem_ (λ m, mem_unmap m old_addr old_size) in
    do! _ <- on_pager (λ p a, remap p a old_addr old_size target new_size) in
    do! end_ <- query (λ _, add64 target new_size) in
    do! _ <- reprotect_loop (S (Z.to_nat (new_size / PAGE_SIZE + 1))) target end_ in
    do! next <- query (λ _, add64 end_ PAGE_SIZE) in
    do! _ <- set_mmap_hint next in
    sret target.
Definition sys_mremap (old_addr old_size new_size flags : Z) : sys Z :=
  if negb (Z.land old_addr (PAGE_SIZE - 1) =? 0) || (new_size =? 0) || (old_size =? 0) then sfail EINVAL
  else if has_flag flags MREMAP_FIXED then sfail EINVAL
  else
    let old_size := align_up old_size PAGE_SIZE in
    let new_size := align_up new_size PAGE_SIZE in
    if new_size <=? old_size then mremap_shrink old_addr old_size new_size
    else if negb (has_flag flags MREMAP_MAYMOVE) then sfail ENOMEM
    else mremap_move old_addr old_size new_size.

(** * mprotect and brk *)
Fixpoint hide_pages (l : list Z) : sys () :=
  match l with
  | [] => sret ()
  | page :: l => do! _ <- on_mem_ (λ m, mem_update_perm m page PAGE_SIZE Perm.INIT) in hide_pages l
  end.
Definition sys_mprotect (addr len prot : Z) : sys Z :=
  let len := align_up len PAGE_SIZE in
  let prm := prot_to_perm prot in
  do! ok <- on_mem (λ m, mem_update_perm m addr len prm) in
  if ok : bool then
    do! _ <- on_pager (λ p a, protect p a addr len prm) in
    do! cold_pages <- query (λ w, expect (nonresident_pages (pager (env w)) (asid (proc w)) addr len)) in
    do! _ <- hide_pages cold_pages in
    sret 0
  else sfail ENOMEM.

Definition sys_brk (addr : Z) : sys Z :=
  do! brk <- (λ w, get_cell (brk_end (proc w)) w) in
  if (addr =? 0) || (addr <=? brk) then sret brk
  else
    let new_end := align_up addr PAGE_SIZE in
    let cur_end := align_up brk PAGE_SIZE in
    do! ok <- (if cur_end <? new_end then on_mem (λ m, mem_map m cur_end (new_end - cur_end) RW_INIT) else sret true) in
    if negb ok then sret brk
    else do! _ <- modify (λ w, put_cell (brk_end (proc w)) addr w) in sret addr.
End calls.
End MemCall.
