(* ===== verification/MemCallsSpec.v ===== *)
(** What [mmap], [munmap], [mremap] and [mprotect] do to the bytes a guest sees.

    [space_ok] ties the pager to the memory under it: an address a file mapping
    covers is mapped, and a page counts as resident only under a mapping. The
    calls keep it and each changes the bytes of its own range only. *)

From S2P Require Import Prelude BTree Abi Digest Chunk Filesystem Pager PagerView PagerOps PagerFault Cpu Net Fd Proc Signals Authority Env GuestMem GuestMemSpec Inotify FileIo FileIoSpec MemCalls.

(** * Rounding to pages *)
Lemma page_mask : wrap 64 (Z.lnot (PAGE_SIZE - 1)) = 2 ^ 64 - PAGE_SIZE.
Proof. reflexivity. Qed.
Lemma land_page_mask x : is_u64 x → Z.land x (2 ^ 64 - PAGE_SIZE) = page_of x.
Proof.
  intros Hx. unfold page_of. apply Z.bits_inj'. intros n Hn. rewrite !Z.land_spec.
  destruct (decide (n < 64)) as [Hlt|Hge].
  - f_equal. rewrite <- page_mask. unfold wrap. rewrite Z.mod_pow2_bits_low by lia. done.
  - rewrite (Z.bits_above_log2 x) by (destruct (decide (x = 0)) as [->|]; [cbn; lia|unfold fits in Hx;
      try (pose proof (Z.log2_lt_pow2 x 64)); lia]). done.
Qed.
Lemma align_up_page x :
  is_u64 x → aligned (align_up x PAGE_SIZE) ∧ 0 ≤ align_up x PAGE_SIZE ≤ 2 ^ 64 - PAGE_SIZE ∧
  (0 < x → 0 < align_up x PAGE_SIZE) ∧ (x + PAGE_SIZE ≤ 2 ^ 64 → x ≤ align_up x PAGE_SIZE < x + PAGE_SIZE).
Proof.
  intros Hx. unfold align_up. rewrite page_mask. unfold checked_add64.
  destruct (Z.leb_spec (x + (PAGE_SIZE - 1)) U64_MAX) as [Hle|Hgt].
  - rewrite land_page_mask by (unfold fits, U64_MAX, PAGE_SIZE in *; lia). rewrite page_of_spec. unfold aligned.
    split; [apply Z_mod_mult|]. unfold fits, U64_MAX, PAGE_SIZE in *. Z.div_mod_to_equations. lia.
  - split; [done|]. unfold fits, U64_MAX, PAGE_SIZE in *. lia.
Qed.
Lemma aligned_add a b : aligned a → aligned b → aligned (a + b).
Proof. unfold aligned, PAGE_SIZE. intros. Z.div_mod_to_equations. lia. Qed.
(** The page of an address of a page-aligned range is in the range. *)
Lemma page_of_in a n x : aligned a → aligned n → a ≤ x < a + n ↔ a ≤ page_of x < a + n.
Proof.
  intros Ha Hn. rewrite page_of_spec. unfold aligned, PAGE_SIZE in *. Z.div_mod_to_equations. lia.
Qed.

(** * The pieces of a mapping show the same file *)
Section pieces.
Context (P : ChunkedFile → Z → Prop).
Definition over (m : FileMapping) : Prop := P (m_file m) (fill m).

Lemma push_clipped_over m a b f l l' :
  (∀ m, over m → over (f m)) → over m → Forall over l → push_clipped m a b f l = Ok l' → Forall over l'.
Proof.
  intros Hf Hm Hl. unfold push_clipped, clipped. destruct (_ || _); cbn [rbind]; [by intros [= <-]|].
  destruct (add64 _ _); cbn [rbind]; [|done..]. intros [= <-].
  apply Forall_app. split; [done|]. constructor; [by apply Hf|done].
Qed.
Lemma unmap_loop_over ms a b kept l :
  Forall over ms → Forall over kept → unmap_loop ms a b kept = Ok l → Forall over l.
Proof.
  intros Hms. revert kept. induction Hms as [|m ms Hm _ IH]; intros kept Hk; cbn; [by intros [= <-]|].
  destruct (outside m a b); [apply IH; apply Forall_app; auto|].
  destruct (push_clipped m (m_start m) a id kept) as [k1| |] eqn:E1; cbn; [|done..].
  destruct (push_clipped m b (m_end m) id k1) as [k2| |] eqn:E2; cbn; [|done..]. apply IH.
  eapply push_clipped_over; [..|exact E2]; [done..|]. eapply push_clipped_over; [..|exact E1]; done.
Qed.
Lemma protect_loop_over ms a b prm split_ l :
  Forall over ms → Forall over split_ → protect_loop ms a b prm split_ = Ok l → Forall over l.
Proof.
  intros Hms. revert split_. induction Hms as [|m ms Hm _ IH]; intros sp Hk; cbn; [by intros [= <-]|].
  destruct (outside m a b); [apply IH; apply Forall_app; auto|].
  destruct (push_clipped m (m_start m) a id sp) as [k1| |] eqn:E1; cbn; [|done..].
  destruct (push_clipped m a b (with_perm prm) k1) as [k2| |] eqn:E2; cbn; [|done..].
  destruct (push_clipped m b (m_end m) id k2) as [k3| |] eqn:E3; cbn; [|done..]. apply IH.
  eapply push_clipped_over; [..|exact E3]; [done..|]. eapply push_clipped_over; [..|exact E2]; [done..|].
  eapply push_clipped_over; [..|exact E1]; done.
Qed.
Lemma remap_loop_over ms a b c d kept moved l l' :
  Forall over ms → Forall over kept → Forall over moved → remap_loop ms a b c d kept moved = Ok (l, l') →
  Forall over l ∧ Forall over l'.
Proof.
  intros Hms. revert kept moved. induction Hms as [|m ms Hm _ IH]; intros kept moved Hk Hv; cbn; [by intros [= <- <-]|].
  destruct (outside m a b); [apply IH; [apply Forall_app; auto|done]|].
  destruct (push_clipped m (m_start m) a id kept) as [k1| |] eqn:E1; cbn; [|done..].
  destruct (push_clipped m b (m_end m) id k1) as [k2| |] eqn:E2; cbn; [|done..].
  destruct (push_clipped m a c (shifted d) moved) as [k3| |] eqn:E3; cbn; [|done..]. apply IH.
  - eapply push_clipped_over; [..|exact E2]; [done..|]. eapply push_clipped_over; [..|exact E1]; done.
  - eapply push_clipped_over; [..|exact E3]; done.
Qed.

(** Every mapping of the address space shows a file [P] allows. *)
Definition space_over (p : Pager) (a : Z) : Prop := ∀ s, spaces p !! a = Some s → Forall over (mappings s).
Lemma set_space_over p a s r :
  Forall over (mappings s) → space_over (set_resident (set_spaces p (<[a := s]> (spaces p))) r) a.
Proof. intros Hs t. cbn. rewrite lookup_insert_eq. by intros [= <-]. Qed.
Lemma unmap_over p a x n p' : space_over p a → unmap p a x n = Ok p' → space_over p' a.
Proof.
  intros Hp. unfold unmap. destruct (checked_add64 x n); [|intros [= <-] s].
  - destruct (spaces p !! a) as [s|] eqn:Hs; [|by intros [= <-]].
    destruct (unmap_loop _ _ _ _) as [l| |] eqn:E; cbn [rbind]; [|done..]. intros [= <-].
    apply set_space_over. eapply unmap_loop_over; [by eapply Hp|constructor|exact E].
  - cbn. by rewrite lookup_delete_eq.
Qed.
Lemma protect_over p a x n prm p' : space_over p a → protect p a x n prm = Ok p' → space_over p' a.
Proof.
  intros Hp. unfold protect. destruct (checked_add64 x n); [|by intros [= <-]].
  destruct (spaces p !! a) as [s|] eqn:Hs; [|by intros [= <-]].
  destruct (protect_loop _ _ _ _ _) as [l| |] eqn:E; cbn [rbind]; [|done..]. intros [= <-].
  apply (set_space_over p a _ (resident p)). eapply protect_loop_over; [by eapply Hp|constructor|exact E].
Qed.
Lemma map_file_over p a m : space_over p a → over m → space_over (map_file p a m) a.
Proof.
  intros Hp Hm. apply (set_space_over p a _ (resident p)). cbn. apply Forall_app. split; [|by constructor].
  destruct (spaces p !! a) as [s|] eqn:Hs; [by eapply Hp|constructor].
Qed.
Lemma remap_over p a o ol x n p' : space_over p a → remap p a o ol x n = Ok p' → space_over p' a.
Proof.
  intros Hp. unfold remap. destruct (spaces p !! a) as [s|] eqn:Hs; [|by intros [= <-]].
  destruct (remap_loop _ _ _ _ _ _ _) as [[k v]| |] eqn:E; cbn [rbind]; [|done..].
  apply remap_loop_over in E as [Hk Hv]; [|by eapply Hp|constructor..]. case_bool_decide; [|done].
  intros [= <-]. apply set_space_over. cbn. rewrite !Forall_app. split_and!; [done..|].
  destruct (if _ <? _ then _ else _) as [src|] eqn:Hf; [|constructor].
  assert (Hsrc : over src).
  { destruct (_ <? _); [|done]. apply rfind_Some in Hf as [_ Hin]. by eapply Forall_forall in Hin; [|by eapply Hp]. }
  clear Hf. unfold remap_tail. destruct (_ <? _); [|constructor]. destruct (mapping_new _ _ _ _ _ _ _ _) as [t| |] eqn:Et; [|constructor..].
  constructor; [|constructor]. unfold mapping_new in Et. by inv_res Et.
Qed.
End pieces.

(** No mapping call touches the counters. *)
Definition same_counts (p p' : Pager) : Prop :=
  page_ins p' = page_ins p ∧ page_ins_by_access p' = page_ins_by_access p ∧ pending p' = pending p.
Lemma unmap_counts p a x n p' : unmap p a x n = Ok p' → same_counts p p'.
Proof. unfold unmap. intros E. by inv_res E. Qed.
Lemma protect_counts p a x n prm p' : protect p a x n prm = Ok p' → same_counts p p'.
Proof. unfold protect. intros E. by inv_res E. Qed.
Lemma remap_counts p a o ol x n p' : remap p a o ol x n = Ok p' → same_counts p p'.
Proof.
  unfold remap. destruct (spaces p !! a); [|by intros [= <-]].
  destruct (remap_loop _ _ _ _ _ _ _) as [[k v]| |]; cbn [rbind]; [|done..]. case_bool_decide; [|done]. by intros [= <-].
Qed.

Section calls.
Context `{Host} {B : Type} `{NetworkBroker B} {M V : Type} `{GuestMemoryLaws M V} `{AddressRanges M}.
Context `{!AddressRangesLaws M V} (contents : ChunkedFile → bytes).
Abbreviation machine := (Machine B M V).
Abbreviation byte_of := (guest_byte contents).
Implicit Types w : machine.

Record space_ok w : Prop := {
  so_backed : backed contents w;
  so_mapped : ∀ x, is_u64 x → view_at w x ≠ [] → is_Some (mem_byte (mem w) x);
  so_resident : ∀ page, in_memory w page → view_at w page ≠ []
}.

Lemma mem_byte_None m x : mem_byte m x = None ↔ mem_read m x 1 = None.
Proof.
  unfold mem_byte. destruct (mem_read m x 1) as [b|] eqn:E; [|done]. apply mem_read_length in E; [|lia].
  destruct b; cbn; [done|]. done.
Qed.
Lemma mem_byte_Some m x : is_Some (mem_byte m x) ↔ is_Some (mem_read m x 1).
Proof. rewrite <- !not_eq_None_Some. by rewrite mem_byte_None. Qed.

(** The byte an address shows depends on its page's mappings, its residency
    and its own memory. *)
Lemma guest_byte_ext w w' x :
  view_at w' (page_of x) = view_at w (page_of x) → view_at w' x = view_at w x →
  (in_memory w' (page_of x) ↔ in_memory w (page_of x)) → mem_byte (mem w') x = mem_byte (mem w) x →
  byte_of w' x = byte_of w x.
Proof.
  intros Hvp Hv Hi Hm. unfold guest_byte. rewrite Hvp, Hv, Hm.
  assert (cold w' x = cold w x) as ->; [|done]. unfold cold. rewrite Hvp. f_equal. apply bool_decide_ext. by rewrite Hi.
Qed.
Lemma not_viewed_byte w x : view_at w (page_of x) = [] → byte_of w x = mem_byte (mem w) x.
Proof. intros Hv. unfold guest_byte, cold. by rewrite Hv. Qed.

(** Nothing is mapped from [a] on for [n] bytes. *)
Definition vacant w (a n : Z) : Prop := ∀ x, a ≤ x < a + n → view_at w x = [] ∧ mem_byte (mem w) x = None.
Lemma unmapped_vacant w a n :
  space_ok w → 0 ≤ a → a + n ≤ 2 ^ 64 → (∀ x, a ≤ x < a + n → mem_read (mem w) x 1 = None) → vacant w a n.
Proof.
  intros Hok Ha He Hf x Hx. assert (Hm : mem_byte (mem w) x = None) by (by apply mem_byte_None, Hf).
  split; [|done]. destruct (view_at w x) eqn:E; [done|]. exfalso.
  destruct (so_mapped _ Hok x) as [? Hs]; [unfold fits; lia|by rewrite E|congruence].
Qed.

(** * What a call leaves alone *)
Record same_objects w w' : Prop := {
  sb_tasks : tasks (env w') = tasks (env w);
  sb_image : image (env w') = image (env w);
  sb_secrets : secrets (env w') = secrets (env w);
  sb_heap : heap (env w') = heap (env w)
}.
Lemma same_objects_refl w : same_objects w w.
Proof. by split. Qed.
Lemma same_objects_trans w1 w2 w3 : same_objects w1 w2 → same_objects w2 w3 → same_objects w1 w3.
Proof. intros [] []. split; congruence. Qed.
Lemma same_objects_proc w w' : same_objects w w' → proc w' = proc w ∧ fs w' = fs w.
Proof. intros [Ht Hi _ _]. unfold proc, fs. by rewrite Ht, Hi. Qed.

(** Bytes outside the range and the page-in counters are as they were. *)
Record changed_in w w' (a n : Z) : Prop := {
  ci_same : same_objects w w';
  ci_counts : page_ins (pager (env w')) = page_ins (pager (env w)) ∧
    page_ins_by_access (pager (env w')) = page_ins_by_access (pager (env w));
  ci_outside : ∀ x, is_u64 x → x < a ∨ a + n ≤ x → byte_of w' x = byte_of w x
}.
Lemma changed_in_refl w a n : changed_in w w a n.
Proof. split; [apply same_objects_refl|done|done]. Qed.
Lemma changed_in_trans w1 w2 w3 a n : changed_in w1 w2 a n → changed_in w2 w3 a n → changed_in w1 w3 a n.
Proof.
  intros [S1 [C1 D1] O1] [S2 [C2 D2] O2]. split; [by eapply same_objects_trans|split; congruence|].
  intros x Hx Ho. by rewrite O2, O1.
Qed.
Lemma changed_in_counters w w' a n k : changed_in w w' a n → counters w k → counters w' k.
Proof. intros [_ [C D] _] [Hc Hk]. unfold counters, counted in *. by rewrite D, C. Qed.

(** The files the mappings of the running space show are backed. *)
Definition allowed w (f : ChunkedFile) (fl : Z) : Prop :=
  backs (chunks (fs w)) f (contents f) ∧ is_u8 fl ∧ byte_list (contents f).
Lemma backed_iff w :
  backed contents w ↔ pager_wf (pager (env w)) ∧ space_over (allowed w) (pager (env w)) (asid (proc w)).
Proof.
  unfold backed, space_over. split; intros [Hw Hs]; (split; [done|]); intros s E; specialize (Hs s E).
  - destruct Hs as [Hf Hb]. apply Forall_forall. intros m Hm. unfold files_back in Hf. rewrite Forall_forall in Hf, Hb.
    destruct (Hb m Hm). split; [by apply Hf|done].
  - unfold files_back. rewrite !Forall_forall. unfold bytes_of. rewrite Forall_forall in Hs.
    split; intros m Hm; by destruct (Hs m Hm) as (? & ? & ?).
Qed.
Lemma backed_next w w' :
  same_objects w w' → backed contents w → pager_wf (pager (env w')) →
  (∀ P, space_over P (pager (env w)) (asid (proc w)) → space_over P (pager (env w')) (asid (proc w))) →
  backed contents w'.
Proof.
  intros Hs [_ Hb]%backed_iff Hw Hn. destruct (same_objects_proc _ _ Hs) as [Hp Hv]. apply backed_iff.
  split; [done|]. rewrite Hp. unfold allowed. rewrite Hv. by apply Hn.
Qed.

(** * Unmapping a range: memory and mappings together *)
Definition unmap_both (a n : Z) : stm machine Z bool :=
  do! ok <- MemCall.on_mem (λ m, mem_unmap m a n) in
  do! _ <- MemCall.on_pager (λ p i, unmap p i a n) in sret ok.

Lemma unmap_both_ok w a n :
  space_ok w → page_range a n → 0 < n →
  ∃ w' ok, unmap_both a n w = (w', Ok ok) ∧ space_ok w' ∧ changed_in w w' a n ∧ vacant w' a n ∧
    shared (env w') = shared (env w) ∧ (mem_unmap (mem w) a n).2 = ok.
Proof.
  intros Hok (Ha & Hn & Ha0 & Hn0 & Hmax) Hpos. unfold unmap_both, MemCall.on_mem, MemCall.on_pager, sbind.
  destruct (mem_unmap (mem w) a n) as [m ok] eqn:Em. set (w1 := put_mem m w).
  destruct (unmap_spec (pager (env w1)) (asid (proc w1)) a n) as (p' & Hu & Hwf & Hv & _);
    [apply (so_backed _ Hok)|done..|]. rewrite Hu. eexists _, ok. split; [done|].
  pose proof (unmap_range_spec _ _ _ _ _ Ha0 Hpos ltac:(unfold U64_MAX in *; lia) Em) as Hread.
  set (w' := on_env (put_pager p') w1).
  assert (Hs : same_objects w w') by done.
  assert (Hvx : ∀ x, view_at w' x = if decide (a ≤ x < a + n) then [] else view_at w x).
  { intros x. change (view_at w' x) with (view p' (asid (proc w)) x). rewrite Hv.
    change (asid (proc w1)) with (asid (proc w)). repeat case_decide; naive_solver. }
  assert (Hmx : ∀ x, is_u64 x → mem_byte (mem w') x = if decide (a ≤ x < a + n) then None else mem_byte (mem w) x).
  { intros x Hx. unfold mem_byte. cbn. rewrite Hread by done. by case_decide. }
  assert (Hin : ∀ page, in_memory w' page ↔ in_memory w page ∧ ¬ (a ≤ page < a + n)).
  { intros page. unfold in_memory. cbn. revert Hu. clear Hv Hwf. unfold unmap, checked_add64.
    rewrite (proj2 (Z.leb_le (a + n) U64_MAX)) by done. change (pager (env w1)) with (pager (env w)).
    change (asid (proc w1)) with (asid (proc w)). destruct (spaces _ !! _) as [s|] eqn:Hsp.
    - destruct (unmap_loop _ _ _ _); cbn [rbind]; [|done..]. intros [= <-]. cbn. rewrite elem_of_filter. cbn. intuition lia.
    - intros [= <-]. split; [|tauto]. intros Hi. split; [done|]. destruct (so_resident _ Hok page Hi).
      unfold view_at, view. by rewrite Hsp. }
  split; [split|split; [split|split]]; try done.
  - apply (backed_next w); [done|apply (so_backed _ Hok)|done|]. intros P HP. by eapply unmap_over.
  - intros x Hx. rewrite Hvx, Hmx by done. case_decide; [done|]. by apply (so_mapped _ Hok).
  - intros page [Hi Hr]%Hin. rewrite Hvx, decide_False by done. by apply (so_resident _ Hok).
  - by destruct (unmap_counts _ _ _ _ _ Hu) as (? & ? & _).
  - intros x Hx Ho. assert (¬ (a ≤ x < a + n)) by lia. assert (¬ (a ≤ page_of x < a + n)) by (by rewrite <- page_of_in).
    apply guest_byte_ext; rewrite ?Hvx, ?Hmx, ?Hin, ?decide_False by done; tauto.
  - intros x Hx. rewrite Hvx, Hmx, !decide_True by (done || (unfold fits, U64_MAX in *; lia)). done.
Qed.

(** * A memory operation that leaves the mappings alone *)
Lemma put_mem_ok w m :
  space_ok w → (∀ x, is_u64 x → view_at w x ≠ [] → is_Some (mem_byte m x)) → space_ok (put_mem m w).
Proof. intros Hok Hm. split; [apply (so_backed _ Hok)|exact Hm|apply (so_resident _ Hok)]. Qed.
Lemma put_mem_byte w m x : mem_byte m x = mem_byte (mem w) x → byte_of (put_mem m w) x = byte_of w x.
Proof. intros Hm. by apply guest_byte_ext. Qed.

Lemma update_perm_ok w a n prm m r lo k :
  space_ok w → mem_update_perm (mem w) a n prm = (m, r) →
  space_ok (put_mem m w) ∧ changed_in w (put_mem m w) lo k ∧ ∀ x, byte_of (put_mem m w) x = byte_of w x.
Proof.
  intros Hok Hu. assert (Hb : ∀ x, mem_byte m x = mem_byte (mem w) x) by (intros; by eapply mem_byte_update_perm).
  split; [apply put_mem_ok; [done|]; intros x; rewrite Hb; apply (so_mapped _ Hok)|].
  split; [split; [done|done|]; intros x _ _|intros x]; by apply put_mem_byte.
Qed.

(** No mapping shows from [a] on for [n] bytes. *)
Definition unviewed w (a n : Z) : Prop := ∀ x, a ≤ x < a + n → view_at w x = [].
Lemma unviewed_byte w a n x :
  unviewed w a n → aligned a → aligned n → a ≤ x < a + n → byte_of w x = mem_byte (mem w) x.
Proof. intros Hv Ha Hn Hx. apply not_viewed_byte, Hv. by rewrite <- page_of_in. Qed.

Lemma map_zero_ok w a n prm m :
  space_ok w → unviewed w a n → 0 ≤ a → aligned a → aligned n → mem_map (mem w) a n prm = (m, true) →
  space_ok (put_mem m w) ∧ changed_in w (put_mem m w) a n ∧ a + n ≤ 2 ^ 64 ∧
  ∀ x, a ≤ x < a + n → byte_of (put_mem m w) x = Some 0.
Proof.
  intros Hok Hv Ha Hal Hnl Hm. destruct (map_spec _ _ _ _ _ Ha Hm) as (Hn & He & Hr).
  assert (Hb : ∀ x, is_u64 x → mem_byte m x = if decide (a ≤ x < a + n) then Some 0 else mem_byte (mem w) x).
  { intros x Hx. unfold mem_byte. rewrite Hr by done. by case_decide. }
  split; [apply put_mem_ok; [done|]|split; [split; [done|done|]|split; [done|]]].
  - intros x Hx Hs. rewrite Hb by done. case_decide; [eauto|]. by apply (so_mapped _ Hok).
  - intros x Hx Ho. apply put_mem_byte. by rewrite Hb, decide_False by (done || lia).
  - intros x Hx. rewrite (unviewed_byte _ a n) by done. cbn. by rewrite Hb, decide_True by (done || (unfold fits; lia)).
Qed.

(** * Copying to where no mapping shows *)
Lemma page_state_unviewed w page :
  aligned page → view_at w page = [] → page_state (pager (env w)) (asid (proc w)) page = None.
Proof.
  intros Ha Hv. unfold page_state. rewrite page_of_self by done.
  unfold view_at, view in Hv. destruct (spaces _ !! _) as [s|]; [|done].
  destruct (rfind _ _) as [m|] eqn:E; [|done]. apply rfind_Some in E as [Hc Hin]. exfalso.
  apply (f_equal length) in Hv. unfold view_of in Hv. rewrite length_map in Hv. apply length_zero_iff_nil in Hv.
  assert (m ∈ filter (covers page) (mappings s)) as Hf by (apply list_elem_of_filter; by rewrite Hc).
  rewrite Hv in Hf. by apply not_elem_of_nil in Hf.
Qed.
Lemma touch_loop_skip fuel page end_ access w :
  0 ≤ page → aligned page ∨ end_ ≤ page → end_ ≤ U64_MAX → (∀ x, page ≤ x < end_ → view_at w x = []) →
  end_ - page ≤ PAGE_SIZE * (Z.of_nat fuel - 1) → (0 < fuel)%nat →
  Copy.touch_loop fuel page end_ access w = (w, Ok ()).
Proof.
  revert page. induction fuel as [|fuel IH]; intros page H0p Ha He Hv Hf Hpos; [lia|]. cbn [Copy.touch_loop].
  destruct (Z.leb_spec end_ page); [done|]. destruct Ha as [Ha|]; [|lia]. unfold sbind, gets.
  rewrite page_state_unviewed by (done || (apply Hv; lia)).
  pose proof (saturating_page page end_ Ha H0p He) as Hn. apply IH.
  - unfold saturating_add64, U64_MAX, PAGE_SIZE in *. lia.
  - destruct Hn as [->|]; [left; by apply aligned_add|right; lia].
  - done.
  - intros x Hx. apply Hv. unfold PAGE_SIZE in *. lia.
  - unfold PAGE_SIZE in *. lia.
  - unfold PAGE_SIZE in *. lia.
Qed.
Lemma host_touch_skip w a n access :
  is_u64 a → aligned a → 0 ≤ n → unviewed w a n →
  Copy.host_touch a n access w = (w, Ok ()) ∨ Copy.host_touch a n access w = (w, Err EFAULT).
Proof.
  intros Hu Ha Hn Hv. unfold Copy.host_touch, sbind, gets. destruct (_ || _); [by left|].
  unfold query, checked_add64. destruct (Z.leb_spec (a + n) U64_MAX); cbn [ok_or]; [left|by right].
  rewrite page_of_self by done. apply touch_loop_skip; [apply Hu|by left|done|done|..];
    unfold PAGE_SIZE in *; Z.div_mod_to_equations; lia.
Qed.
Lemma write_unviewed_ok w a b :
  space_ok w → is_u64 a → aligned a → a + zlen b ≤ 2 ^ 64 → byte_list b → unviewed w a (zlen b) →
  let '(w', r) := Copy.write_mem a b w in
  space_ok w' ∧ changed_in w w' a (zlen b) ∧ r ≠ Panic ∧ (∀ x, view_at w' x = view_at w x) ∧
  (r = Ok () → ∀ i, 0 ≤ i < zlen b → byte_of w' (a + i) = getz b i).
Proof.
  intros Hok Hu Ha He Hb Hv. unfold Copy.write_mem, sbind.
  destruct (host_touch_skip w a (zlen b) AccWrite Hu Ha (zlen_nonneg b) Hv) as [-> | ->].
  2:{ split; [done|]. split; [apply changed_in_refl|done]. }
  assert (Hcold : ∀ x, a ≤ x < a + zlen b → cold w x = false).
  { intros x Hx. destruct (page_of_bounds x). unfold cold. rewrite (Hv (page_of x)); [done|].
    split; [|lia]. rewrite page_of_spec. unfold aligned, PAGE_SIZE in *. Z.div_mod_to_equations. lia. }
  pose proof (write_raw_ok contents w a b Hcold ltac:(apply Hu) He Hb) as Hw.
  destruct (Copy.write_mem_raw a b w) as [w' r] eqn:E. destruct Hw as (Henv & _ & Hp & Hout & Hin).
  unfold Copy.write_mem_raw in E. destruct (mem_write (mem w) a b) as [m ok] eqn:Em. injection E as <- Hr.
  split; [|split; [|split; [done|split; [done|done]]]].
  - apply put_mem_ok; [done|]. intros x Hx Hs. apply mem_byte_Some, (write_keeps _ _ _ _ _ x Em), mem_byte_Some.
    by apply (so_mapped _ Hok).
  - split; [done|done|exact Hout].
Qed.

(** * A lazy file mapping over a fresh range *)
Lemma map_file_ok w m :
  space_ok w → mapping_wf m → allowed w (m_file m) (fill m) → unviewed w (m_start m) (m_end m - m_start m) →
  (∀ x, m_start m ≤ x < m_end m → is_Some (mem_byte (mem w) x)) →
  let w' := on_env (put_pager (map_file (pager (env w)) (asid (proc w)) m)) w in
  space_ok w' ∧ changed_in w w' (m_start m) (m_end m - m_start m) ∧
  ∀ x, m_start m ≤ x < m_end m → byte_of w' x = Some (apply_effect contents (fill m) (effect m x)).
Proof.
  intros Hok Hm Hal Hv Hmem w'. pose proof Hm as [Hr He Hsa Hea _ _ _ _].
  assert (Hlen : aligned (m_end m - m_start m)) by (unfold aligned, PAGE_SIZE in *; Z.div_mod_to_equations; lia).
  assert (Hvx : ∀ x, view_at w' x = if decide (m_start m ≤ x < m_end m) then [effect m x] else view_at w x).
  { intros x. change (view_at w' x) with (view (map_file (pager (env w)) (asid (proc w)) m) (asid (proc w)) x).
    rewrite map_file_view, decide_True by done. rewrite view_of_one. change (view _ _ x) with (view_at w x).
    case_decide as Hx.
    - rewrite (proj2 (covers_iff x m)) by done. rewrite Hv by lia. done.
    - destruct (covers x m) eqn:E; [by apply covers_iff in E|]. apply app_nil_r. }
  assert (Hpg : ∀ x, m_start m ≤ x < m_end m ↔ m_start m ≤ page_of x < m_end m).
  { intros x. pose proof (page_of_in (m_start m) (m_end m - m_start m) x Hsa Hlen) as Hx.
    replace (m_start m + (m_end m - m_start m)) with (m_end m) in Hx by lia. exact Hx. }
  split; [split|split; [split|]]; try done.
  - destruct (proj1 (backed_iff w) (so_backed _ Hok)) as [Hw Hs]. apply backed_iff. split.
    + intros b s. cbn. rewrite lookup_insert_Some. intros [[<- <-]|[_ Hb]]; [|by eapply Hw]. unfold space_wf. cbn.
      apply Forall_app. split; [|by constructor].
      destruct (spaces _ !! _) as [t|] eqn:Et; [by eapply Hw|constructor].
    + by apply map_file_over.
  - intros x Hx. rewrite Hvx. case_decide; [intros _; by apply Hmem|apply (so_mapped _ Hok); done].
  - intros page Hin. rewrite Hvx. case_decide; [done|]. by apply (so_resident _ Hok).
  - intros x Hx Ho. assert (¬ (m_start m ≤ x < m_end m)) by lia. assert (¬ (m_start m ≤ page_of x < m_end m)) by (by rewrite <- Hpg).
    apply guest_byte_ext; rewrite ?Hvx, ?decide_False by done; done.
  - intros x Hx. unfold guest_byte. assert (cold w' x = true) as ->.
    { unfold cold. rewrite Hvx, decide_True by (by rewrite <- Hpg). rewrite bool_decide_true by done.
      apply bool_decide_eq_true. intros Hin. destruct (so_resident _ Hok (page_of x) Hin). apply Hv. rewrite Hpg in Hx. lia. }
    rewrite !Hvx, !decide_True by (done || (by rewrite <- Hpg)). done.
Qed.

(** * mmap *)
Lemma put_cell_ok w i x a n : space_ok w → space_ok (MemCall.put_cell i x w) ∧ changed_in w (MemCall.put_cell i x w) a n.
Proof. intros []. split; [by split|]. by split. Qed.
Lemma push_shared_ok w m a n : space_ok w → space_ok (MemCall.push_shared m w) ∧ changed_in w (MemCall.push_shared m w) a n.
Proof. intros []. split; [by split|]. by split. Qed.
Lemma vacant_unviewed w a n : vacant w a n → unviewed w a n.
Proof. intros Hv x Hx. by apply Hv. Qed.
Lemma vacant_byte w a n x : vacant w a n → aligned a → aligned n → a ≤ x < a + n → byte_of w x = None.
Proof. intros Hv Ha Hn Hx. rewrite (unviewed_byte w a n); [by apply Hv|by apply vacant_unviewed|done..]. Qed.

Lemma page_of_nonneg x : 0 ≤ x → 0 ≤ page_of x.
Proof. intros. rewrite page_of_spec. unfold PAGE_SIZE. Z.div_mod_to_equations. lia. Qed.
Lemma aligned_65536 a : a mod MMAP_ALIGN = 0 → aligned a.
Proof. unfold MMAP_ALIGN, aligned, PAGE_SIZE. intros. Z.div_mod_to_equations. lia. Qed.

(** Where the mapping goes: the range asked for, made free, or a free one. *)
Definition placed w w1 (addr n flags t : Z) : Prop :=
  0 ≤ t ∧ aligned t ∧ changed_in w w1 t n ∧ unviewed w1 t n ∧
  if has_flag flags MAP_FIXED && negb (addr =? 0) then t = page_of addr else vacant w t n.
Lemma mmap_target_ok w addr n flags :
  space_ok w → 0 ≤ addr → 0 < n → aligned n → (has_flag flags MAP_FIXED = true → page_of addr + n ≤ U64_MAX) →
  let '(w1, r) := MemCall.mmap_target addr n flags w in
  space_ok w1 ∧ match r with Ok t => placed w w1 addr n flags t | _ => changed_in w w1 0 0 end.
Proof.
  intros Hok Ha Hn Hal Hfix. unfold MemCall.mmap_target, placed. destruct (_ && _) eqn:Ef.
  - apply andb_true_iff in Ef as [Ef _]. change (Z.land addr (Z.lnot (PAGE_SIZE - 1))) with (page_of addr).
    destruct (unmap_both_ok w (page_of addr) n Hok) as (w1 & ok & E & Hok1 & Hch & Hv & _ & _); [|done|].
    { split_and!; auto using page_of_aligned, page_of_nonneg. lia. }
    unfold unmap_both, MemCall.on_mem_, sbind in *. destruct (MemCall.on_mem _ w) as [w0 [b| |]]; [|done..]. cbn in *.
    destruct (MemCall.on_pager _ w0) as [w2 [[]| |]]; [|done..]. injection E as <- _.
    split; [done|]. split_and!; auto using page_of_aligned, page_of_nonneg, vacant_unviewed.
  - unfold sbind, gets, MemCall.free_range. destruct (_ && _ && _) eqn:Eh.
    + rewrite !andb_true_iff, bool_decide_eq_true in Eh. destruct Eh as [_ Eh].
      destruct (find_free_spec _ _ _ _ _ Hn Eh) as (Hm & Ht0 & He & Hr).
      pose proof (unmapped_vacant w addr n Hok Ht0 He Hr).
      split; [done|]. split_and!; auto using changed_in_refl, vacant_unviewed.
    + unfold MemCall.mmap_hint, MemCall.get_cell, query.
      destruct (expect _) as [hint| |]; [|split; [done|apply changed_in_refl]..].
      clear Eh. destruct (mem_find_free _ _ _ _) as [t|] eqn:Et; [|cbn; split; [done|apply changed_in_refl]].
      destruct (find_free_spec _ _ _ _ _ Hn Et) as (Hm & H0t & He & Hr).
      pose proof (unmapped_vacant w t n Hok H0t He Hr) as Hv.
      destruct (let! x := add64 t n in _) as [next| |]; [|split; [done|apply changed_in_refl]..].
      unfold MemCall.set_mmap_hint, modify, sret. destruct (put_cell_ok w (mmap_next (proc w)) next t n Hok).
      split; [done|]. split_and!; auto using aligned_65536, vacant_unviewed.
Qed.

(** The byte a position of the mapped object shows: its byte, or 0 past its end
    and in anonymous memory. *)
Definition node_byte (k : NodeKind) (pos : Z) : Z :=
  match k with
  | File d => default 0 (getz (vdata d) pos)
  | Chunked f => default 0 (getz (contents f) pos)
  | _ => 0
  end.
Definition object_byte w (flags fd pos : Z) : Z :=
  if has_flag flags MAP_ANONYMOUS then 0
  else match (get_desc fd w).2 with
       | Ok (_, d) => match backing d with
                      | BFile node => match nodes (fs w) !! node with Some n => node_byte (kind n) pos | None => 0 end
                      | _ => 0
                      end
       | _ => 0
       end.
Definition image_backed w : Prop := ∀ i n, nodes (fs w) !! i = Some n →
  match kind n with
  | File d => byte_list (vdata d)
  | Chunked f => allowed w f 0 ∧ file_wf f
  | _ => True
  end.

Definition source_shows w (n flags fd off : Z) (src : MemCall.Source_) : Prop :=
  match src with
  | MemCall.Anonymous => ∀ pos, object_byte w flags fd pos = 0
  | MemCall.Eager b _ => byte_list b ∧ zlen b ≤ n ∧ ∀ i, 0 ≤ i < n → default 0 (getz b i) = object_byte w flags fd (off + i)
  | MemCall.Lazy f len => len = Z.min (saturating_sub (cf_size f) off) n ∧ allowed w f 0 ∧ file_wf f ∧
      ∀ pos, object_byte w flags fd pos = default 0 (getz (contents f) pos)
  end.
Lemma eager_slice (l : bytes) off n :
  0 ≤ off → 0 < n → let start := offset_into off (zlen l) in let b := slicez l start (Z.min (start + n) (zlen l)) in
  (byte_list l → byte_list b) ∧ zlen b ≤ n ∧ ∀ i, 0 ≤ i < n → getz b i = getz l (off + i).
Proof.
  intros Ho Hn. pose proof (zlen_nonneg l) as Hl. cbv zeta. unfold offset_into.
  assert (Hsub : ∀ s e, byte_list l → byte_list (slicez l s e)) by (intros s e Hb; by apply Forall_take, Forall_drop).
  destruct (Z.leb_spec (zlen l) off).
  - split; [auto|]. rewrite Z.min_r by lia. split; [rewrite slicez_length by lia; lia|]. intros i Hi.
    transitivity (@None Z); [|symmetry]; apply eq_None_not_Some; rewrite getz_is_Some; [|lia].
    rewrite slicez_length by lia. lia.
  - split; [auto|]. split; [rewrite slicez_length by lia; lia|]. intros i Hi.
    destruct (decide (off + i < zlen l)) as [Hlt|Hge].
    + by rewrite getz_slicez by lia.
    + transitivity (@None Z); [|symmetry]; apply eq_None_not_Some; rewrite getz_is_Some; [|lia].
      rewrite slicez_length by lia. lia.
Qed.
Lemma mmap_source_ok w n flags fd off :
  image_backed w → 0 ≤ off → 0 < n →
  let '(w', r) := MemCall.mmap_source n flags fd off w in
  w' = w ∧ match r with Ok src => source_shows w n flags fd off src | _ => True end.
Proof.
  intros Hi Ho Hn. unfold MemCall.mmap_source, source_shows, object_byte. destruct (has_flag flags MAP_ANONYMOUS); [done|].
  unfold sbind. destruct (get_desc fd w) as [w0 [[i d]| |]] eqn:Ed; [|by injection Ed as <- _..].
  assert (w0 = w) as -> by (by injection Ed as <- _). cbn [snd]. destruct (backing d) as [|node| | | | | | | | | | |]; try done.
  unfold gets, query. destruct (Io.secret_node node w); [done|].
  destruct (nodes (fs w) !! node) as [nd|] eqn:En; cbn [expect]; [|done]. specialize (Hi node nd En).
  destruct (kind nd) as [e|data|f|t|dv] eqn:Ek; cbn [node_byte]; try by destruct (has_flag flags MAP_SHARED).
  - unfold guest_size, try_usize. destruct (n <=? usize_max); cbn [ok_or]; [|done]. unfold checked_add_usize.
    destruct (_ <=? usize_max); cbn [expect]; [|done]. split; [done|]. unfold vlen in *.
    destruct (eager_slice (vdata data) off n) as (Hb & Hz & Hg); [lia..|]. split_and!; [by apply Hb|done|].
    intros j Hj. by rewrite Hg.
  - destruct (has_flag flags MAP_SHARED); [done|]. split; [done|]. by destruct Hi.
Qed.

(** The bytes of the mapped range once the call returns, the range being fresh
    and zero before. *)
Definition installed w w' (t n flags fd off : Z) (w0 : machine) (r : res Z Z) : Prop :=
  space_ok w' ∧ changed_in w w' t n ∧
  match r with
  | Ok t' => t' = t ∧ ∀ i, 0 ≤ i < n → byte_of w' (t + i) = Some (object_byte w0 flags fd (off + i))
  | _ => True
  end.
Lemma finish_perm_ok w w1 t n prm flags fd off w0 :
  space_ok w1 → changed_in w w1 t n →
  (∀ i, 0 ≤ i < n → byte_of w1 (t + i) = Some (object_byte w0 flags fd (off + i))) →
  let '(w', r) := MemCall.finish_perm t n prm w1 in installed w w' t n flags fd off w0 r.
Proof.
  intros Hok Hch Hb. unfold MemCall.finish_perm, MemCall.on_mem, sbind.
  destruct (mem_update_perm (mem w1) t n prm) as [m ok] eqn:Eu.
  destruct (update_perm_ok w1 t n prm m ok t n Hok Eu) as (Hok' & Hch' & Hb').
  assert (changed_in w (put_mem m w1) t n) by (by eapply changed_in_trans).
  destruct ok; (split; [done|]; split; [done|]); [|done]. split; [done|]. intros i Hi. rewrite Hb'. by apply Hb.
Qed.

Lemma install_eager_ok w t n prm flags fd off w0 b sn :
  space_ok w → 0 ≤ t → aligned t → 0 < n → t + n ≤ 2 ^ 64 → unviewed w t n →
  (∀ x, t ≤ x < t + n → byte_of w x = Some 0) → source_shows w0 n flags fd off (MemCall.Eager b sn) →
  let '(w', r) := MemCall.mmap_install t n prm off (MemCall.Eager b sn) w in installed w w' t n flags fd off w0 r.
Proof.
  intros Hok Ht Hta Hn He Hv Hz (Hb & Hl & Hg). cbn [MemCall.mmap_install].
  pose proof (write_unviewed_ok w t b Hok) as Hw. unfold sbind.
  destruct (Copy.write_mem t b w) as [w1 r1]. destruct Hw as (Hok1 & Hch1 & Hp & _ & Hin);
    [unfold fits; lia|done|lia|done|intros x Hx; apply Hv; lia|].
  assert (Hch : changed_in w w1 t n).
  { destruct Hch1 as [? ? Ho]. split; [done|done|]. intros x Hx Hx'. apply Ho; [done|lia]. }
  destruct r1 as [[]| |]; [|done..]. unfold modify.
  set (w2 := match sn with Some _ => _ | None => _ end).
  assert (space_ok w2 ∧ changed_in w1 w2 t n ∧ ∀ x, byte_of w2 x = byte_of w1 x) as (Hok2 & Hch2 & Hb2).
  { unfold w2. destruct sn; [|by auto using changed_in_refl].
    destruct (push_shared_ok w1 {| sm_asid := asid (proc w1); sm_addr := t; sm_len := n; sm_node := n0; sm_offset := off |} t n Hok1).
    done. }
  apply finish_perm_ok; [done|by eapply changed_in_trans|]. intros i Hi. rewrite Hb2, <- Hg by done.
  destruct (decide (i < zlen b)) as [Hlt|Hge].
  - rewrite Hin by (done || lia). destruct (proj2 (getz_is_Some b i)) as [y ->]; [lia|done].
  - rewrite (ci_outside _ _ _ _ Hch1) by (unfold fits; lia). rewrite Hz by lia.
    destruct (getz b i) eqn:E; [|done]. assert (is_Some (getz b i)) as ?%getz_is_Some by eauto. lia.
Qed.

Lemma lazy_byte f fl off t n prm i :
  0 ≤ i < n → 0 ≤ off → zlen (contents f) = cf_size f → fl = Z.min (saturating_sub (cf_size f) off) n →
  apply_effect contents 0 (effect {| m_start := t; m_end := t + n; data_start := t; file_offset := off; file_len := fl;
    final_perm := prm; fill := 0; m_file := f |} (t + i)) = default 0 (getz (contents f) (off + i)).
Proof.
  intros Hi Ho Hz Hfl. unfold apply_effect, effect, data_end. cbn. rewrite (proj2 (Z.leb_le t (t + i))) by lia. cbn [andb].
  destruct (Z.ltb_spec (t + i) (t + fl)) as [Hlt|Hge].
  - do 2 f_equal. lia.
  - rewrite (proj2 (Z.leb_le _ _)) by lia. destruct (getz (contents f) (off + i)) eqn:E; [|done].
    assert (is_Some (getz (contents f) (off + i))) as ?%getz_is_Some by eauto. unfold saturating_sub in *. lia.
Qed.
Lemma install_lazy_ok w t n prm flags fd off w0 f fl :
  space_ok w → same_objects w0 w → 0 ≤ t → aligned t → 0 < n → aligned n → t + n ≤ 2 ^ 64 → 0 ≤ off →
  off + n ≤ U64_MAX → unviewed w t n → (∀ x, t ≤ x < t + n → byte_of w x = Some 0) →
  source_shows w0 n flags fd off (MemCall.Lazy f fl) →
  let '(w', r) := MemCall.mmap_install t n prm off (MemCall.Lazy f fl) w in installed w w' t n flags fd off w0 r.
Proof.
  intros Hok Hs Ht Hta Hn Hna He Ho Hroom Hv Hz (Hfl & Hal & Hwf & Hob). cbn [MemCall.mmap_install].
  assert (Hzl : zlen (contents f) = cf_size f) by apply Hal.
  destruct (Z.ltb_spec 0 fl) as [Hpos|Hneg].
  2:{ apply finish_perm_ok; [done|apply changed_in_refl|]. intros i Hi. rewrite Hob, Hz by lia.
      destruct (getz (contents f) (off + i)) eqn:E; [|done].
      assert (is_Some (getz (contents f) (off + i))) as ?%getz_is_Some by eauto. unfold saturating_sub in *. lia. }
  unfold sbind, query, add64. destruct (Z.leb_spec (t + n) U64_MAX) as [Hle|]; [|by split; [|split; [apply changed_in_refl|]]].
  destruct (mapping_new t (t + n) t off fl prm 0 f) as [m|e|] eqn:Em; [|by split; [|split; [apply changed_in_refl|]]..].
  assert (m = {| m_start := t; m_end := t + n; data_start := t; file_offset := off; file_len := fl;
                 final_perm := prm; fill := 0; m_file := f |}) as Hm by (unfold mapping_new in Em; by inv_res Em).
  assert (Hmw : mapping_wf m) by (eapply mapping_new_wf; [..|exact Em]; lia || done).
  unfold MemCall.on_pager, sret. destruct (same_objects_proc _ _ Hs) as [_ Hfs].
  destruct (map_file_ok w m) as (Hok' & Hch & Hb); [done|done|..].
  - subst m. cbn. unfold allowed. by rewrite Hfs.
  - subst m. cbn. by replace (t + n - t) with n by lia.
  - subst m. cbn. intros x Hx. rewrite <- (unviewed_byte w t n) by done. rewrite Hz by done. eauto.
  - subst m. cbn in Hch, Hb. replace (t + n - t) with n in Hch by lia. split; [exact Hok'|]. split; [exact Hch|].
    split; [done|]. intros i Hi. rewrite Hob, Hb by lia. by rewrite lazy_byte.
Qed.

Lemma image_backed_same w w' : same_objects w w' → image_backed w → image_backed w'.
Proof.
  intros Hs Hi i n. destruct (same_objects_proc _ _ Hs) as [_ Hv]. unfold allowed. rewrite Hv. intros Hn.
  specialize (Hi i n Hn). by destruct (kind n).
Qed.
Lemma object_byte_same w w' flags fd pos : same_objects w w' → object_byte w' flags fd pos = object_byte w flags fd pos.
Proof.
  intros Hs. destruct (same_objects_proc _ _ Hs) as [Hp Hv]. unfold object_byte, get_desc. cbn [snd].
  by rewrite Hp, Hv, (sb_heap _ _ Hs).
Qed.
Lemma mmap_install_ok w t n prm flags fd off w0 src :
  space_ok w → same_objects w0 w → 0 ≤ t → aligned t → 0 < n → aligned n → t + n ≤ 2 ^ 64 → 0 ≤ off →
  off + n ≤ U64_MAX → unviewed w t n → (∀ x, t ≤ x < t + n → byte_of w x = Some 0) →
  source_shows w0 n flags fd off src →
  let '(w', r) := MemCall.mmap_install t n prm off src w in installed w w' t n flags fd off w0 r.
Proof.
  intros. destruct src; [|by apply install_eager_ok|by apply install_lazy_ok].
  apply finish_perm_ok; [done|apply changed_in_refl|]. intros i Hi.
  match goal with Hs : source_shows _ _ _ _ _ _ |- _ => rewrite (Hs (off + i)) end.
  match goal with Hz : ∀ x, _ → byte_of w x = Some 0 |- _ => apply Hz end. lia.
Qed.

(** Bytes that were mapped survive a change confined to a free range. *)
Lemma spared w w' t n x :
  changed_in w w' t n → vacant w t n → aligned t → aligned n → is_u64 x → is_Some (byte_of w x) → byte_of w' x = byte_of w x.
Proof.
  intros Hch Hv Ht Hn Hx [b Hb]. apply (ci_outside _ _ _ _ Hch); [done|].
  destruct (decide (t ≤ x < t + n)); [|lia]. by rewrite (vacant_byte w t n) in Hb.
Qed.
Definition spares w w' : Prop := ∀ x, is_u64 x → is_Some (byte_of w x) → byte_of w' x = byte_of w x.

(** From the range chosen to the end of the call. *)
Lemma mmap_placed_ok w w1 t addr n prm flags fd off src init :
  space_ok w1 → placed w w1 addr n flags t → same_objects w w1 → source_shows w n flags fd off src →
  0 < n → aligned n → 0 ≤ off → off + n ≤ U64_MAX →
  let '(w', r) := (do! ok <- MemCall.on_mem (λ m, mem_map m t n init) in
                   if negb ok then sfail ENOMEM else MemCall.mmap_install t n prm off src) w1 in
  space_ok w' ∧ changed_in w w' t n ∧
  match r with
  | Ok t' => t' = t ∧ t + n ≤ 2 ^ 64 ∧ ∀ i, 0 ≤ i < n → byte_of w' (t + i) = Some (object_byte w flags fd (off + i))
  | _ => True
  end.
Proof.
  intros Hok (Ht & Hta & Hch & Hv & _) Hs Hsrc Hn Hna Ho Hroom. unfold MemCall.on_mem, sbind.
  destruct (mem_map (mem w1) t n init) as [m ok] eqn:Em. destruct ok; cbn [negb].
  - destruct (map_zero_ok w1 t n init m Hok Hv Ht Hta Hna Em) as (Hok2 & Hch2 & He & Hz).
    pose proof (mmap_install_ok (put_mem m w1) t n prm flags fd off w src Hok2) as Hi.
    destruct (MemCall.mmap_install t n prm off src (put_mem m w1)) as [w' r].
    destruct Hi as (Hok' & Hch' & Hr); [by eapply same_objects_trans; [|apply Hch2]|done..|].
    split; [done|]. split; [by eapply changed_in_trans; [|eapply changed_in_trans]|].
    destruct r; [|done..]. destruct Hr as [-> Hr]. done.
  - apply map_fails in Em as ->. assert (put_mem (mem w1) w1 = w1) as -> by (by destruct w1).
    split; [done|]. by split.
Qed.


(** * mprotect and brk *)
Lemma hide_pages_ok l w lo k :
  space_ok w → ∃ w', MemCall.hide_pages l w = (w', Ok ()) ∧ space_ok w' ∧ changed_in w w' lo k ∧
    pager (env w') = pager (env w) ∧ ∀ x, byte_of w' x = byte_of w x.
Proof.
  revert w. induction l as [|page l IH]; intros w Hok; cbn; [exists w; auto using changed_in_refl|].
  unfold sbind, MemCall.on_mem_, MemCall.on_mem, sbind. destruct (mem_update_perm _ _ _ _) as [m ok] eqn:E.
  destruct (update_perm_ok w _ _ _ _ _ lo k Hok E) as (Hok1 & Hch & Hb). cbn.
  destruct (IH (put_mem m w) Hok1) as (w' & E' & Hok' & Hch' & Hp & Hb'). exists w'. split; [done|]. split; [done|].
  split; [by eapply changed_in_trans|]. split; [done|]. intros x. by rewrite Hb', Hb.
Qed.
Lemma protect_pager_ok w a n prm :
  space_ok w → page_range a n →
  ∃ w', MemCall.on_pager (λ p i, protect p i a n prm) w = (w', Ok ()) ∧ space_ok w' ∧ same_objects w w' ∧
    (∀ x, byte_of w' x = byte_of w x) ∧
    ∀ x, view_at w' x = if decide (a ≤ x < a + n) then map (set_perm prm) (view_at w x) else view_at w x.
Proof.
  intros Hok (Ha & Hn & Ha0 & Hn0 & Hmax). unfold MemCall.on_pager.
  destruct (protect_spec (pager (env w)) (asid (proc w)) a n prm) as (p' & Hp & Hwf & Hr & Hv);
    [apply (so_backed _ Hok)|done..|]. rewrite Hp. eexists. split; [done|]. set (w' := on_env _ w).
  assert (Hvx : ∀ x, view_at w' x = if decide (a ≤ x < a + n) then map (set_perm prm) (view_at w x) else view_at w x).
  { intros x. change (view_at w' x) with (view p' (asid (proc w)) x). rewrite Hv. unfold view_at. repeat case_decide; naive_solver. }
  assert (Hnil : ∀ x, view_at w' x = [] ↔ view_at w x = []) by (intros x; rewrite Hvx; case_decide; [by destruct (view_at w x)|done]).
  assert (Hi : ∀ page, in_memory w' page ↔ in_memory w page) by (intros; unfold in_memory; cbn; by rewrite Hr).
  assert (Hsh : ∀ base l, shown contents base (map (set_perm prm) l) = shown contents base l).
  { intros base l. revert base. induction l as [|e l IH]; intros base; [done|]. apply (IH (apply_effect contents base e)). }
  split; [split|split; [done|split; [|done]]].
  - apply (backed_next w); [done|apply (so_backed _ Hok)|done|]. intros P HP. by eapply protect_over.
  - intros x Hx. rewrite Hnil. by apply (so_mapped _ Hok).
  - intros page. rewrite Hi, Hnil. apply (so_resident _ Hok).
  - intros x. unfold guest_byte. assert (cold w' x = cold w x) as ->.
    { unfold cold. f_equal; apply bool_decide_ext; by rewrite ?Hnil, ?Hi. }
    destruct (cold w x); [|done]. f_equal. rewrite !Hvx. unfold base_fill.
    repeat case_decide; rewrite ?Hsh; destruct (view_at w (page_of x)); done.
Qed.

(** [mprotect] changes no byte the guest sees, on any outcome; on success the
    mappings of its range, and only those, carry the permission asked for, so a
    page still on demand gets it when it is filled. *)
Theorem mprotect_keeps w addr len prot :
  space_ok w → is_u64 len → let n := align_up len PAGE_SIZE in page_range addr n →
  let '(w', r) := MemCall.sys_mprotect addr len prot w in
  space_ok w' ∧ (∀ x, byte_of w' x = byte_of w x) ∧
  match r with
  | Ok v => v = 0 ∧ ∀ x, view_at w' x = if decide (addr ≤ x < addr + n) then map (set_perm (prot_to_perm prot)) (view_at w x) else view_at w x
  | Err e => e = ENOMEM ∧ ∀ x, view_at w' x = view_at w x
  | Panic => False
  end.
Proof.
  intros Hok Hl n Hr. unfold MemCall.sys_mprotect. fold n. unfold sbind at 1, MemCall.on_mem.
  destruct (mem_update_perm (mem w) addr n (prot_to_perm prot)) as [m ok] eqn:E.
  destruct (update_perm_ok w _ _ _ _ _ 0 0 Hok E) as (Hok1 & _ & Hb1). destruct ok; [|done].
  destruct (protect_pager_ok (put_mem m w) addr n (prot_to_perm prot) Hok1 Hr) as (w2 & E2 & Hok2 & _ & Hb2 & Hv2).
  unfold sbind at 1. rewrite E2. unfold sbind at 1, query.
  destruct (nonresident_total (pager (env w2)) (asid (proc w2)) addr n) as [cold Hcold];
    [destruct Hr as (_ & _ & ? & ? & ?); unfold is_u64, fits, U64_MAX in *; lia..|]. rewrite Hcold. cbn [expect].
  destruct (hide_pages_ok cold w2 0 0 Hok2) as (w' & E3 & Hok3 & Hch & Hp & Hb3).
  unfold sbind, sret. rewrite E3. split; [done|]. split; [intros x; by rewrite Hb3, Hb2, Hb1|]. split; [done|]. intros x.
  destruct (same_objects_proc _ _ (ci_same _ _ _ _ Hch)) as [Hq _]. unfold view_at at 1. rewrite Hp, Hq. apply Hv2.
Qed.

(** [brk] never moves down, and up only over free pages, which read as zeros. *)
Lemma brk_grows w addr brk :
  space_ok w → cells (shared (env w)) !! brk_end (proc w) = Some brk → is_u64 brk → is_u64 addr →
  let '(w', r) := MemCall.sys_brk addr w in
  space_ok w' ∧ spares w w' ∧
  (r = Ok brk ∨ r = Ok addr ∧ brk < addr ∧ ∀ x, align_up brk PAGE_SIZE ≤ x < align_up addr PAGE_SIZE → byte_of w' x = Some 0).
Proof.
  intros Hok Hc Hb Ha. unfold MemCall.sys_brk, sbind at 1, MemCall.get_cell, query. rewrite Hc. cbn [expect].
  destruct (_ || _) eqn:E; [by split; [|split; [intros x|left]]|]. apply orb_false_iff in E as [_ E]. bool_to_prop.
  destruct (align_up_page brk Hb) as (Hba & Hb0 & _), (align_up_page addr Ha) as (Haa & Ha0 & _).
  set (lo := align_up brk PAGE_SIZE) in *. set (hi := align_up addr PAGE_SIZE) in *.
  destruct (Z.ltb_spec lo hi) as [Hlt|Hge].
  - unfold sbind at 1, MemCall.on_mem. destruct (mem_map (mem w) lo (hi - lo) RW_INIT) as [m ok] eqn:Em. destruct ok; cbn [negb].
    2:{ apply map_fails in Em as ->. assert (put_mem (mem w) w = w) as -> by (by destruct w). by split; [|split; [intros x|left]]. }
    assert (Hn : aligned (hi - lo)) by (unfold aligned, PAGE_SIZE in *; Z.div_mod_to_equations; lia).
    assert (Hv : vacant w lo (hi - lo)).
    { apply unmapped_vacant; [done|lia|unfold PAGE_SIZE in *; lia|]. by eapply map_was_free. }
    destruct (map_zero_ok w lo (hi - lo) RW_INIT m Hok (vacant_unviewed _ _ _ Hv)) as (Hok1 & Hch & _ & Hz); [lia|done..|].
    unfold sbind, modify, sret. destruct (put_cell_ok (put_mem m w) (brk_end (proc (put_mem m w))) addr lo (hi - lo) Hok1) as [Hok2 Hch2].
    split; [done|]. split; [intros x Hx Hs; eapply spared; [by eapply changed_in_trans|exact Hv|done..]|].
    right. split; [done|]. split; [lia|]. intros x Hx. apply Hz. lia.
  - unfold sbind, modify, sret. cbn [negb]. destruct (put_cell_ok w (brk_end (proc w)) addr 0 0 Hok) as [Hok2 _].
    split; [done|]. split; [by intros x|]. right. split; [done|]. split; [lia|]. lia.
Qed.

(** A range is readable when each of its bytes is. *)
Lemma mem_read_full m a n :
  0 < n → a + n ≤ 2 ^ 64 → (∀ x, a ≤ x < a + n → is_Some (mem_byte m x)) → is_Some (mem_read m a n).
Proof.
  intros Hn. replace n with (Z.succ (n - 1)) by lia. assert (Hk : 0 ≤ n - 1) by lia. revert Hk.
  generalize (n - 1). clear n Hn. apply (natlike_ind (λ k, _ → _ → is_Some (mem_read m a (Z.succ k)))).
  - intros _ Hb. apply mem_byte_Some, Hb. lia.
  - intros k Hk IH He Hb. replace (Z.succ (Z.succ k)) with (Z.succ k + 1) by lia. rewrite mem_read_app by lia.
    destruct IH as [x ->]; [lia|intros; apply Hb; lia|]. cbn.
    destruct (proj1 (mem_byte_Some m (a + Z.succ k))) as [y ->]; [apply Hb; lia|]. cbn. eauto.
Qed.
End calls.

(** A machine with a file of three bytes open at descriptor 3 and one page of
    memory, which a shared mapping of the file covers. *)
Definition page_bytes : gmap Z Z := list_to_map ((λ i, (65536 + i, i mod 256)) <$> seqZ 0 4096).
Definition page_machine : Machine HostBroker (gmap Z Z) (gmap Z Z) :=
  put_mem page_bytes (on_env (put_shared_maps [{| sm_asid := 0; sm_addr := 65536; sm_len := 4096; sm_node := 1; sm_offset := 0 |}])
    (Watching.new_fd (BFile 1) O_RDWR false (put_fs three_bytes
       {| env := env_new Host_broker.new; core := core file_machine; mem := ∅ |})).1).
Definition no_contents (f : ChunkedFile) : bytes := [].
Lemma page_machine_ok : space_ok no_contents page_machine ∧ image_backed no_contents page_machine.
Proof.
  assert (Hs : spaces (pager (env page_machine)) = ∅) by (vm_compute; reflexivity).
  assert (Hv : ∀ x, view_at page_machine x = []) by (intros x; unfold view_at, view; rewrite Hs; reflexivity).
  split; [split|].
  - split; [intros a s|intros s]; rewrite Hs, lookup_empty; intros Hx; discriminate Hx.
  - intros x _ Hn. destruct (Hn (Hv x)).
  - intros page Hi. unfold in_memory in Hi. assert (Hr : resident (pager (env page_machine)) = ∅) by (vm_compute; reflexivity).
    rewrite Hr in Hi. apply elem_of_empty in Hi. contradiction.
  - assert (Hn : nodes (fs page_machine) = nodes three_bytes) by (vm_compute; reflexivity).
    intros [|[|i]] n; rewrite Hn; intros Hi; vm_compute in Hi; [injection Hi as <-; exact I|injection Hi as <-|discriminate Hi].
    vm_compute. repeat constructor; congruence.
Qed.
Lemma page_machine_mapped x : 65536 ≤ x < 65536 + 4096 → is_Some (mem_byte (mem page_machine) x).
Proof.
  intros Hx. change (mem page_machine) with page_bytes.
  apply mem_byte_Some, FlatRange.read_one_Some. unfold page_bytes. exists ((x - 65536) mod 256). apply elem_of_list_to_map_1.
  - rewrite <- list_fmap_compose. apply NoDup_fmap; [intros i j; cbn; lia|apply NoDup_seqZ].
  - apply list_elem_of_fmap. exists (x - 65536). split; [f_equal; lia|]. apply elem_of_seqZ. lia.
Qed.


Lemma mprotect_keeps_witness :
  ∃ w', MemCall.sys_mprotect 65536 4096 1 page_machine = (w', Ok 0) ∧ guest_byte no_contents w' 65540 = Some 4.
Proof.
  pose proof (mprotect_keeps no_contents page_machine 65536 4096 1 (proj1 page_machine_ok)) as Hm.
  destruct (MemCall.sys_mprotect 65536 4096 1 page_machine) as [w' r] eqn:E.
  assert (r = Ok 0) as -> by (change r with ((w', r).2); rewrite <- E; vm_compute; reflexivity).
  destruct Hm as (_ & Hb & _); [split; lia|vm_compute; repeat split; congruence|].
  exists w'. split; [reflexivity|]. rewrite Hb. vm_compute. reflexivity.
Defined.
