(* ===== verification/MemRemap.v ===== *)
(** [mremap]: a mapping that shrinks keeps its start, one that grows is moved
    with its bytes, resident or still on demand. *)

From S2P Require Import Prelude BTree Abi Digest Chunk Filesystem Pager PagerView PagerOps PagerFault Cpu Net Fd Proc Signals Authority Env GuestMem GuestMemSpec FileIo MemCalls MemCallsSpec.

Lemma page_of_shift x d : aligned d → page_of (x - d) = page_of x - d.
Proof. intros Hd. rewrite !page_of_spec. unfold aligned, PAGE_SIZE in *. Z.div_mod_to_equations. lia. Qed.
Lemma within_iff a b x : within a b x = true ↔ a ≤ x < b.
Proof. unfold within. rewrite andb_true_iff, Z.leb_le, Z.ltb_lt. done. Qed.
Lemma within_page a n x : aligned a → aligned n → within a (a + n) (page_of x) = within a (a + n) x.
Proof. intros Ha Hn. apply eq_true_iff_eq. rewrite !within_iff. symmetry. by apply page_of_in. Qed.

Lemma land_page x : Z.land x (PAGE_SIZE - 1) = x mod PAGE_SIZE.
Proof. change (PAGE_SIZE - 1) with (Z.ones 12). rewrite Z.land_ones by lia. done. Qed.

Section remap.
Context `{Host} {B : Type} `{NetworkBroker B} {M V : Type} `{GuestMemoryLaws M V} `{AddressRanges M}.
Context `{!AddressRangesLaws M V} (contents : ChunkedFile → bytes).
Abbreviation machine := (Machine B M V).
Abbreviation byte_of := (guest_byte contents).
Implicit Types w : machine.

(** The mapping that a grown range continues. *)
Definition tail_source w (old_end : Z) : option FileMapping :=
  s ← spaces (pager (env w)) !! asid (proc w);
  rfind (λ m, (m_start m <? old_end) && (old_end <=? m_end m)) (mappings s).
Definition growable w (old_end n : Z) : Prop := ∀ s, spaces (pager (env w)) !! asid (proc w) = Some s →
  Forall (λ m, cf_size (m_file m) + n ≤ U64_MAX ∧ (m_start m < old_end ≤ m_end m → data_start m ≤ old_end)) (mappings s).

(** The mappings after the move. *)
Definition moved_view w (old os t n x : Z) : list Effect :=
  (if within old (old + os) x then [] else view_at w x) ++
  (if within t (t + os) x then view_at w (x - (t - old)) else []) ++
  (if within (t + os) (t + n) x then option_list ((λ src, continued src (x - (t - old))) <$> tail_source w (old + os)) else []).
Lemma remap_pager w old os t n :
  space_ok contents w → page_range old os → page_range t n → os < n → growable w (old + os) n →
  ∃ p', remap (pager (env w)) (asid (proc w)) old os t n = Ok p' ∧ pager_wf p' ∧
    (∀ x, view p' (asid (proc w)) x = moved_view w old os t n x) ∧
    (∀ page, (asid (proc w), page) ∈ resident p' ↔
       (in_memory w page ∧ ¬ (old ≤ page < old + os)) ∨ (t ≤ page < t + os ∧ in_memory w (page - (t - old)))).
Proof.
  intros Hok Ho Ht Hlt Hg. destruct (spaces (pager (env w)) !! asid (proc w)) as [s|] eqn:Hs.
  - destruct (remap_view (pager (env w)) (asid (proc w)) s old os t n) as (p' & Hr & Hwf & _ & Hv & Hin);
      [apply (so_backed _ _ Hok)|done|done|done|by apply Hg|].
    rewrite Z.min_l in Hv, Hin by lia. exists p'. split; [done|]. split; [done|]. split; [|exact Hin].
    intros x. rewrite Hv. unfold moved_view, view_at, tail_source. rewrite Hs, (proj2 (Z.ltb_lt os n)) by lia. cbn.
    do 2 f_equal. destruct (rfind _ _); cbn; by destruct (within (t + os) (t + n) x).
  - assert (Hv : ∀ x, view_at w x = []) by (intros; unfold view_at, view; by rewrite Hs).
    assert (Hn : ∀ page, ¬ in_memory w page) by (intros page Hp; apply (so_resident _ _ Hok) in Hp; by rewrite Hv in Hp).
    exists (pager (env w)). unfold remap. rewrite Hs. split; [done|]. split; [apply (so_backed _ _ Hok)|]. split.
    + intros x. change (view _ _ x) with (view_at w x). unfold moved_view, tail_source. rewrite Hs, !Hv. cbn.
      by destruct (within old (old + os) x), (within t (t + os) x), (within (t + os) (t + n) x).
    + intros page. unfold in_memory in Hn. split; [intros Hp; by apply Hn in Hp|]. intros [[Hp _]|[_ Hp]]; by apply Hn in Hp.
Qed.

(** The byte the tail of a grown mapping shows. *)
Definition tail_byte w (old_end pos : Z) : Z :=
  match tail_source w old_end with
  | Some src => default 0 (getz (contents (m_file src)) (file_pos src pos))
  | None => 0
  end.
Lemma continued_byte w old_end pos base :
  space_ok contents w → old_end ≤ pos → (∀ src, tail_source w old_end = Some src → data_start src ≤ old_end) →
  apply_effect contents base (default {| e_source := Zeroed; e_perm := 0; e_fill := 0 |}
    ((λ src, continued src pos) <$> tail_source w old_end)) = tail_byte w old_end pos.
Proof.
  intros Hok Hp Hd. unfold tail_byte. destruct (tail_source w old_end) as [src|] eqn:Et; [|done]. cbn.
  unfold apply_effect, continued. cbn. specialize (Hd src eq_refl).
  destruct (spaces (pager (env w)) !! asid (proc w)) as [s|] eqn:Hs; unfold tail_source in Et; rewrite Hs in Et; [|done].
  cbn in Et. apply rfind_Some in Et as [_ Hin]. destruct (proj1 (backed_iff _ w) (so_backed _ _ Hok)) as [_ Hso].
  specialize (Hso s Hs). eapply Forall_forall in Hso as [[Hz _] _]; [|exact Hin].
  destruct (Z.ltb_spec (file_pos src pos) (cf_size (m_file src))); [done|].
  destruct (getz _ _) eqn:E; [|done]. assert (is_Some (getz (contents (m_file src)) (file_pos src pos))) as ?%getz_is_Some by eauto. lia.
Qed.

(** * From the copied bytes to the moved mapping *)
(** The memory after the copy and the unmapping of the old range. *)
Definition moved_memory w (m : M) (old os t n : Z) : Prop := ∀ x, is_u64 x →
  mem_byte m x = if within t (t + os) x then mem_byte (mem w) (x - (t - old))
                 else if within (t + os) (t + n) x then Some 0
                 else if within old (old + os) x then None else mem_byte (mem w) x.
Definition moved w w' (old os t n : Z) : Prop :=
  (∀ i, 0 ≤ i < os → byte_of w' (t + i) = byte_of w (old + i)) ∧
  (∀ i, os ≤ i < n → byte_of w' (t + i) = Some (tail_byte w (old + os) (old + i))) ∧
  (∀ x, old ≤ x < old + os → byte_of w' x = None) ∧
  (∀ x, is_u64 x → ¬ (t ≤ x < t + n) → ¬ (old ≤ x < old + os) → byte_of w' x = byte_of w x).

Section move.
Context w (old os t n : Z).
Context (Hok : space_ok contents w) (Ho : page_range old os) (Ht : page_range t n) (Hpos : 0 < os) (Hlt : os < n).
Context (Hg : growable w (old + os) n) (Hfree : vacant w t n).
Context (Hmapped : ∀ x, old ≤ x < old + os → is_Some (mem_byte (mem w) x)).

Lemma ranges_apart x : t ≤ x < t + n → ¬ (old ≤ x < old + os).
Proof. intros Hx Hy. destruct (Hmapped x Hy) as [? Hs]. destruct (Hfree x Hx) as [_ Hn]. congruence. Qed.
Lemma aligned_parts : aligned t ∧ aligned old ∧ aligned os ∧ aligned n ∧ aligned (t + os) ∧ aligned (n - os) ∧ aligned (t - old).
Proof.
  destruct Ho as (? & ? & _), Ht as (? & ? & _). unfold aligned, PAGE_SIZE in *. Z.div_mod_to_equations. lia.
Qed.

Context w' (Henv : same_objects w w').
Context (Hv : ∀ x, view_at w' x = moved_view w old os t n x).
Context (Hin : ∀ page, in_memory w' page ↔
  (in_memory w page ∧ ¬ (old ≤ page < old + os)) ∨ (t ≤ page < t + os ∧ in_memory w (page - (t - old)))).
Context (Hm : moved_memory w (mem w') old os t n).

Lemma view_head x : t ≤ x < t + os → view_at w' x = view_at w (x - (t - old)).
Proof.
  intros Hx. rewrite Hv. unfold moved_view. destruct (Hfree x) as [-> _]; [lia|].
  rewrite (proj2 (within_iff t (t + os) x)) by done. replace (within (t + os) (t + n) x) with false
    by (symmetry; apply not_true_iff_false; rewrite within_iff; lia).
  rewrite app_nil_r. by destruct (within old _ x).
Qed.
Lemma view_tail x : t + os ≤ x < t + n →
  view_at w' x = option_list ((λ src, continued src (x - (t - old))) <$> tail_source w (old + os)).
Proof.
  intros Hx. rewrite Hv. unfold moved_view. destruct (Hfree x) as [-> _]; [lia|].
  replace (within t (t + os) x) with false by (symmetry; apply not_true_iff_false; rewrite within_iff; lia).
  rewrite (proj2 (within_iff (t + os) (t + n) x)) by lia. by destruct (within old _ x).
Qed.
Lemma view_elsewhere x : ¬ (t ≤ x < t + n) →
  view_at w' x = if within old (old + os) x then [] else view_at w x.
Proof.
  intros Hx. rewrite Hv. unfold moved_view.
  replace (within t (t + os) x) with false by (symmetry; apply not_true_iff_false; rewrite within_iff; lia).
  replace (within (t + os) (t + n) x) with false by (symmetry; apply not_true_iff_false; rewrite within_iff; lia).
  by rewrite !app_nil_r.
Qed.

Lemma not_within a b x : ¬ (a ≤ x < b) → within a b x = false.
Proof. intros Hx. apply not_true_iff_false. by rewrite within_iff. Qed.
Lemma vacant_cold_free page : t ≤ page < t + n → ¬ in_memory w page.
Proof. intros Hp Hi. apply (so_resident _ _ Hok) in Hi. by destruct (Hfree page Hp). Qed.

Lemma head_bytes i : 0 ≤ i < os → byte_of w' (t + i) = byte_of w (old + i).
Proof.
  intros Hi. destruct aligned_parts as (Hat & Hao & Haos & _ & _ & _ & Had). destruct Ht as (_ & _ & Ht0 & _ & Hmax).
  assert (Hx : t ≤ page_of (t + i) < t + os) by (apply (proj1 (page_of_in t os _ ltac:(done) ltac:(done))); lia).
  assert (Hpg : page_of (t + i) - (t - old) = page_of (old + i)).
  { rewrite <- page_of_shift by done. f_equal. lia. }
  assert (Hc : cold w' (t + i) = cold w (old + i)).
  { unfold cold. rewrite view_head, Hpg by done. f_equal. apply bool_decide_ext. rewrite Hin, Hpg.
    pose proof (vacant_cold_free (page_of (t + i)) ltac:(lia)). tauto. }
  unfold guest_byte. rewrite Hc. rewrite (view_head (t + i)), (view_head (page_of (t + i))), Hpg by lia.
  replace (t + i - (t - old)) with (old + i) by lia. destruct (cold w (old + i)); [done|].
  rewrite Hm by (unfold fits, U64_MAX in *; lia). rewrite (proj2 (within_iff t (t + os) (t + i))) by lia.
  by replace (t + i - (t - old)) with (old + i) by lia.
Qed.
Lemma tail_bytes i : os ≤ i < n → byte_of w' (t + i) = Some (tail_byte w (old + os) (old + i)).
Proof.
  intros Hi. destruct aligned_parts as (Hat & Hao & Haos & Han & Hato & Hatn & Had). destruct Ht as (_ & _ & Ht0 & _ & Hmax).
  assert (Hx : t + os ≤ page_of (t + i) < t + n).
  { replace (t + n) with (t + os + (n - os)) by lia. apply (proj1 (page_of_in (t + os) (n - os) _ ltac:(done) ltac:(done))); lia. }
  assert (Hni : ¬ in_memory w' (page_of (t + i))).
  { rewrite Hin. intros [[Hb _]|[Hb _]]; [|lia]. by apply (vacant_cold_free (page_of (t + i))) in Hb; [|lia]. }
  unfold guest_byte, cold. rewrite (view_tail (page_of (t + i))), (view_tail (t + i)) by lia.
  rewrite (bool_decide_true (¬ in_memory w' _)) by done. replace (t + i - (t - old)) with (old + i) by lia.
  destruct (tail_source w (old + os)) as [src|] eqn:Et; cbn.
  - f_equal.
    pose proof (continued_byte w (old + os) (old + i) (fill src) Hok ltac:(lia)) as Hcb. rewrite Et in Hcb. apply Hcb.
    intros src' [= <-]. unfold tail_source in Et. destruct (spaces _ !! _) as [s|] eqn:Hs; [|done]. cbn in Et.
    apply rfind_Some in Et as [Hb Hi']. specialize (Hg s Hs). eapply Forall_forall in Hg as [_ Hg]; [|exact Hi'].
    apply Hg. bool_to_prop. lia.
  - rewrite Hm by (unfold fits, U64_MAX in *; lia).
    rewrite not_within by lia. rewrite (proj2 (within_iff _ _ _)) by lia. unfold tail_byte. by rewrite Et.
Qed.
Lemma old_bytes x : old ≤ x < old + os → byte_of w' x = None.
Proof.
  intros Hx. destruct aligned_parts as (Hat & Hao & Haos & Han & _). destruct Ho as (_ & _ & Ho0 & _ & Hmax).
  assert (Hnt : ¬ (t ≤ x < t + n)) by (intros Hy; by apply ranges_apart in Hy).
  assert (Hp : old ≤ page_of x < old + os) by (by apply (proj1 (page_of_in old os x Hao Haos))).
  rewrite not_viewed_byte.
  - rewrite Hm by (unfold fits, U64_MAX in *; lia). rewrite !not_within by lia. by rewrite (proj2 (within_iff _ _ _)).
  - rewrite view_elsewhere; [by rewrite (proj2 (within_iff _ _ _))|]. intros Hy. by apply ranges_apart in Hy.
Qed.
Lemma other_bytes x : is_u64 x → ¬ (t ≤ x < t + n) → ¬ (old ≤ x < old + os) → byte_of w' x = byte_of w x.
Proof.
  intros Hu Hnt Hno. destruct aligned_parts as (Hat & Hao & Haos & Han & _).
  assert (Hpt : ¬ (t ≤ page_of x < t + n)) by (by rewrite <- page_of_in).
  assert (Hpo : ¬ (old ≤ page_of x < old + os)) by (by rewrite <- page_of_in).
  apply guest_byte_ext.
  - by rewrite view_elsewhere, not_within.
  - by rewrite view_elsewhere, not_within.
  - rewrite Hin. split; [intros [[? _]|[? _]]; [done|lia]|auto].
  - rewrite Hm by done. by rewrite !not_within by lia.
Qed.
Lemma moved_ok : moved w w' old os t n.
Proof. split_and!; [exact head_bytes|exact tail_bytes|exact old_bytes|exact other_bytes]. Qed.

Lemma moved_space_ok : backed contents w' → space_ok contents w'.
Proof.
  intros Hb. destruct Ho as (_ & _ & Ho0 & _ & Homax), Ht as (_ & _ & Ht0 & _ & Hmax). split; [done| |].
  - intros x Hx Hne. rewrite Hm by done.
    destruct (within t (t + os) x) eqn:E1.
    { apply within_iff in E1. apply Hmapped. lia. }
    destruct (within (t + os) (t + n) x) eqn:E2; [eauto|]. apply not_true_iff_false in E1, E2. rewrite within_iff in E1, E2.
    rewrite view_elsewhere in Hne by lia. destruct (within old (old + os) x); [done|]. by apply (so_mapped _ _ Hok).
  - intros page [[Hi Hn]|[Hp Hi]]%Hin.
    + rewrite view_elsewhere by (intros Hp; by apply (vacant_cold_free page Hp)). rewrite not_within by done.
      by apply (so_resident _ _ Hok).
    + rewrite view_head by done. by apply (so_resident _ _ Hok).
Qed.
End move.

(** * The call *)
Lemma reprotect_ok fuel w page end_ :
  0 ≤ page → end_ + PAGE_SIZE ≤ U64_MAX → end_ - page ≤ PAGE_SIZE * (Z.of_nat fuel - 1) → (0 < fuel)%nat →
  let '(w', r) := MemCall.reprotect_loop fuel page end_ w in
  r = Ok () ∧ env w' = env w ∧ core w' = core w ∧ ∀ x, mem_byte (mem w') x = mem_byte (mem w) x.
Proof.
  revert w page. induction fuel as [|fuel IH]; intros w page Hp He Hf Hpos; [lia|]. cbn [MemCall.reprotect_loop].
  destruct (Z.ltb_spec page end_) as [Hlt|]; [|done]. unfold sbind at 1, gets.
  set (step := match page_state _ _ _ with Some _ => _ | None => _ end).
  assert (Hstep : ∃ w1, step w = (w1, Ok ()) ∧ env w1 = env w ∧ core w1 = core w ∧ ∀ x, mem_byte (mem w1) x = mem_byte (mem w) x).
  { unfold step. destruct (page_state _ _ _) as [[res prm]|]; [|by exists w].
    unfold MemCall.on_mem_, MemCall.on_mem, sbind, sret. destruct (mem_update_perm _ _ _ _) as [m ok] eqn:E.
    eexists. split; [done|]. split; [done|]. split; [done|]. intros x. by eapply mem_byte_update_perm. }
  destruct Hstep as (w1 & E & He1 & Hc1 & Hb1). unfold sbind at 1. rewrite E. unfold sbind, query, add64.
  rewrite (proj2 (Z.leb_le (page + PAGE_SIZE) U64_MAX)) by (unfold PAGE_SIZE in *; lia).
  specialize (IH w1 (page + PAGE_SIZE)). destruct (MemCall.reprotect_loop fuel (page + PAGE_SIZE) end_ w1) as [w' r].
  destruct IH as (-> & He' & Hc' & Hb'); [unfold PAGE_SIZE in *; lia|done|unfold PAGE_SIZE in *; lia|unfold PAGE_SIZE in *; lia|].
  split; [done|]. split; [congruence|]. split; [congruence|]. intros x. by rewrite Hb', Hb1.
Qed.

Definition roomy w (n : Z) : Prop := ∃ hint, cells (shared (env w)) !! mmap_next (proc w) = Some hint ∧
  ∀ t, mem_find_free (mem w) hint n PAGE_SIZE = Some t → t + n + PAGE_SIZE ≤ U64_MAX.
Definition mremapped w w' (old os n : Z) (r : res Z Z) : Prop :=
  space_ok contents w' ∧
  match r with
  | Ok t => aligned t ∧ 0 ≤ t ∧ t + n ≤ U64_MAX ∧ vacant w t n ∧ moved w w' old os t n
  | Err e => (e = ENOMEM ∨ e = EFAULT) ∧ spares contents w w'
  | Panic => False
  end.

(** The bytes in memory after the copy, before the old range goes. *)
Lemma copied_memory w m m2 old os t n prm buf :
  space_ok contents w → vacant w t n → 0 ≤ t → aligned t → 0 ≤ old → 0 < os < n → old + os ≤ 2 ^ 64 →
  (∀ x, old ≤ x < old + os → is_Some (mem_byte (mem w) x)) →
  mem_map (mem w) t n prm = (m, true) → mem_read m old os = Some buf →
  mem_write m t buf = (m2, true) → ∀ x, is_u64 x →
  mem_byte m2 x = if within t (t + os) x then mem_byte (mem w) (x - (t - old))
                  else if within (t + os) (t + n) x then Some 0 else mem_byte (mem w) x.
Proof.
  intros Hok Hv Ht Hta Ho Hos Hoe Hmp Hm Hr Hw x Hx. destruct (map_spec _ _ _ _ _ Ht Hm) as (_ & He & Hread).
  assert (Hb : ∀ y, is_u64 y → mem_byte m y = if decide (t ≤ y < t + n) then Some 0 else mem_byte (mem w) y).
  { intros y Hy. unfold mem_byte. rewrite Hread by done. by case_decide. }
  assert (Hl : zlen buf = os) by (eapply mem_read_length; [|exact Hr]; lia).
  destruct (within t (t + os) x) eqn:E1.
  - apply within_iff in E1. replace x with (t + (x - t)) at 1 by lia.
    rewrite (mem_byte_write m t buf m2) by (done || lia || (by eapply mem_read_bytes)).
    rewrite <- (mem_byte_read m old os buf (x - t)) by (done || lia). replace (old + (x - t)) with (x - (t - old)) by lia.
    rewrite Hb by (unfold fits in *; lia). case_decide as Hd; [|done]. exfalso.
    destruct (Hmp (x - (t - old)) ltac:(lia)) as [? Hs]. destruct (Hv _ Hd) as [_ Hn]. congruence.
  - apply not_true_iff_false in E1. rewrite within_iff in E1.
    rewrite (mem_byte_write_apart m t buf m2 true x) by (done || lia). rewrite Hb by done.
    destruct (within (t + os) (t + n) x) eqn:E2.
    + apply within_iff in E2. by rewrite decide_True by lia.
    + apply not_true_iff_false in E2. rewrite within_iff in E2. by rewrite decide_False by lia.
Qed.

Lemma old_unmapped w m m' ok old os t n :
  0 ≤ old → 0 < os < n → old + os ≤ U64_MAX → vacant w t n → (∀ x, old ≤ x < old + os → is_Some (mem_byte (mem w) x)) →
  (∀ x, is_u64 x → mem_byte m x =
     if within t (t + os) x then mem_byte (mem w) (x - (t - old))
     else if within (t + os) (t + n) x then Some 0 else mem_byte (mem w) x) →
  mem_unmap m old os = (m', ok) → moved_memory w m' old os t n.
Proof.
  intros Ho Hos Hmax Hv Hmp Hb Hu x Hx.
  pose proof (unmap_range_spec m old os m' ok Ho ltac:(lia) ltac:(unfold U64_MAX in *; lia) Hu x Hx) as Hr.
  assert (mem_byte m' x = if decide (old ≤ x < old + os) then None else mem_byte m x) as ->.
  { unfold mem_byte. rewrite Hr. by case_decide. }
  rewrite Hb by done. case_decide as Hd; [|by rewrite (not_within old) by done].
  assert (¬ (t ≤ x < t + n)).
  { intros Hx'. destruct (Hmp x Hd) as [? Hs]. destruct (Hv x Hx') as [_ Hn]. congruence. }
  rewrite (not_within t), (not_within (t + os)) by lia. by rewrite (proj2 (within_iff _ _ _)).
Qed.

(** The last steps: the old range goes, the mappings move, permissions follow. *)
Lemma mremap_finish w w2 old os t n :
  space_ok contents w → page_range old os → page_range t n → t + n + PAGE_SIZE ≤ U64_MAX → 0 < os → os < n →
  growable w (old + os) n → vacant w t n → (∀ x, old ≤ x < old + os → is_Some (mem_byte (mem w) x)) →
  env w2 = env w →
  (∀ x, is_u64 x → mem_byte (mem w2) x =
     if within t (t + os) x then mem_byte (mem w) (x - (t - old))
     else if within (t + os) (t + n) x then Some 0 else mem_byte (mem w) x) →
  let '(w', r) :=
    (do! _ <- MemCall.on_mem_ (λ m, mem_unmap m old os) in
     do! _ <- MemCall.on_pager (λ p a, remap p a old os t n) in
     do! end_ <- query (λ _, add64 t n) in
     do! _ <- MemCall.reprotect_loop (S (Z.to_nat (n / PAGE_SIZE + 1))) t end_ in
     do! next <- query (λ _, add64 end_ PAGE_SIZE) in
     do! _ <- MemCall.set_mmap_hint next in
     sret t) w2 in
  mremapped w w' old os n r.
Proof.
  intros Hok Ho Ht Htop Hpos Hlt Hg Hv Hmp He Hb. pose proof Ho as (Hoa & Hosa & Ho0 & _ & Homax).
  pose proof Ht as (Hta & Hna & Ht0 & _ & Hmax).
  unfold sbind at 1, MemCall.on_mem_, MemCall.on_mem. unfold sbind at 1. destruct (mem_unmap (mem w2) old os) as [m3 ok] eqn:Eu.
  pose proof (unmap_range_spec _ _ _ _ _ Ho0 Hpos ltac:(unfold U64_MAX in *; lia) Eu) as Hu. unfold sret at 1.
  destruct (remap_pager w old os t n Hok Ho Ht Hlt Hg) as (p' & Hr & Hwf & Hvw & Hin).
  unfold sbind at 1, MemCall.on_pager. change (pager (env (put_mem m3 w2))) with (pager (env w2)).
  change (proc (put_mem m3 w2)) with (proc w2). unfold proc. rewrite He. change (cur (tasks (env w))) with (proc w). rewrite Hr.
  set (w4 := on_env (put_pager p') (put_mem m3 w2)). unfold sbind at 1, query at 1, add64 at 1.
  rewrite (proj2 (Z.leb_le (t + n) U64_MAX)) by lia. unfold sbind at 1.
  pose proof (reprotect_ok (S (Z.to_nat (n / PAGE_SIZE + 1))) w4 t (t + n) Ht0 Htop) as Hp.
  destruct (MemCall.reprotect_loop _ t (t + n) w4) as [w5 r5].
  destruct Hp as (-> & He5 & _ & Hb5); [unfold PAGE_SIZE; Z.div_mod_to_equations; lia|lia|].
  unfold sbind at 1, query, add64. rewrite (proj2 (Z.leb_le _ _)) by lia. unfold sbind, MemCall.set_mmap_hint, modify, sret.
  set (w' := MemCall.put_cell _ _ w5).
  assert (Hs : same_objects w w') by (split; cbn; rewrite He5; cbn; rewrite He; done).
  assert (Hpw : pager (env w') = p') by (cbn; rewrite He5; done). destruct (same_objects_proc _ _ Hs) as [Hq _].
  assert (Hvw' : ∀ x, view_at w' x = moved_view w old os t n x) by (intros x; unfold view_at; by rewrite Hpw, Hq).
  assert (Hin' : ∀ page, in_memory w' page ↔ (in_memory w page ∧ ¬ (old ≤ page < old + os)) ∨
    (t ≤ page < t + os ∧ in_memory w (page - (t - old)))) by (intros page; unfold in_memory at 1; rewrite Hpw, Hq; apply Hin).
  assert (Hmm : moved_memory w (mem w') old os t n).
  { intros x Hx. change (mem w') with (mem w5). rewrite Hb5. change (mem w4) with m3.
    by apply (old_unmapped w (mem w2) m3 ok old os t n). }
  split.
  - apply (moved_space_ok w old os t n) with (w' := w'); try done.
    apply (backed_next contents w); [done|apply (so_backed _ _ Hok)|by rewrite Hpw|]. intros P HP. rewrite Hpw.
    by eapply remap_over.
  - split_and!; try done. by apply (moved_ok w old os t n).
Qed.

Lemma spares_refl w : spares contents w w.
Proof. by intros x. Qed.
Lemma put_mem_env w m : env (put_mem m w) = env w.
Proof. done. Qed.
Lemma write_unviewed_raw w a b :
  is_u64 a → aligned a → unviewed w a (zlen b) →
  Copy.write_mem a b w = (w, Err EFAULT) ∨
  Copy.write_mem a b w = (put_mem (mem_write (mem w) a b).1 w, if (mem_write (mem w) a b).2 then Ok () else Err EFAULT).
Proof.
  intros Hu Ha Hv. unfold Copy.write_mem, sbind.
  destruct (host_touch_skip w a (zlen b) AccWrite Hu Ha (zlen_nonneg b) Hv) as [-> | ->]; [right|by left].
  unfold Copy.write_mem_raw. by destruct (mem_write (mem w) a b).
Qed.

Lemma mremap_move_ok w old os n :
  space_ok contents w → page_range old os → aligned n → 0 < os → os < n → growable w (old + os) n → roomy w n →
  (∀ x, old ≤ x < old + os → is_Some (mem_byte (mem w) x)) →
  let '(w', r) := MemCall.mremap_move old os n w in mremapped w w' old os n r.
Proof.
  intros Hok Ho Hna Hpos Hlt Hg (hint & Hcell & Hroom) Hmp. pose proof Ho as (Hoa & Hosa & Ho0 & _ & Homax).
  unfold MemCall.mremap_move, sbind at 1, MemCall.mmap_hint, MemCall.get_cell, query. rewrite Hcell. cbn [expect].
  unfold sbind at 1, gets, MemCall.free_range. unfold sbind at 1.
  destruct (mem_find_free (mem w) hint n PAGE_SIZE) as [t|] eqn:Ef; cbn [ok_or]; [|split; [done|]; auto using spares_refl].
  specialize (Hroom t eq_refl). destruct (find_free_spec (mem w) hint n PAGE_SIZE t ltac:(lia) Ef) as (Hta & Ht0 & _ & Hfree).
  assert (Ht : page_range t n) by (split_and!; [done|done|done|lia|unfold PAGE_SIZE in *; lia]).
  pose proof (unmapped_vacant contents w t n Hok Ht0 ltac:(unfold U64_MAX, PAGE_SIZE in *; lia) Hfree) as Hv.
  unfold MemCall.on_mem at 1. unfold sbind at 1.
  destruct (mem_map (mem w) t n RW_INIT) as [m ok] eqn:Em. destruct ok; cbn [negb].
  2:{ apply map_fails in Em as ->. assert (put_mem (mem w) w = w) as -> by (by destruct w). split; [done|]; auto using spares_refl. }
  destruct (map_zero_ok contents w t n RW_INIT m Hok (vacant_unviewed _ _ _ Hv) Ht0 Hta Hna Em) as (Hok1 & Hch1 & _ & Hz).
  assert (Hsp : ∀ w', changed_in contents w w' t n → spares contents w w') by (intros w' Hc x Hx; by eapply spared).
  unfold sbind at 1. destruct (try_usize os) as [size|] eqn:Es; cbn [ok_or]; [|split; [done|]; auto].
  assert (size = os) as -> by (unfold try_usize in Es; destruct (os <=? usize_max); [by injection Es|done]).
  unfold sbind at 1, Copy.read_mem_raw, query at 1. destruct (mem_read _ old os) as [buf|] eqn:Er; cbn [ok_or];
    [|split; [done|]; auto]. change (mem (put_mem m w)) with m in Er.
  assert (Hl : zlen buf = os) by (eapply mem_read_length; [|exact Er]; lia).
  assert (Huv : unviewed (put_mem m w) t (zlen buf)) by (intros x Hx; apply (Hv x); lia).
  unfold sbind at 1. pose proof (write_unviewed_ok contents (put_mem m w) t buf Hok1) as Hw.
  destruct (write_unviewed_raw (put_mem m w) t buf) as [Ew|Ew]; [unfold fits, U64_MAX, PAGE_SIZE in *; lia|done|done|..].
  { rewrite Ew. split; [done|]; auto. }
  rewrite Ew in *. change (mem (put_mem m w)) with m in *. destruct (mem_write m t buf) as [m2 ok2] eqn:Emw. cbn [fst snd] in *.
  destruct Hw as (Hok2 & Hch2 & _ & _ & _); [unfold fits, U64_MAX, PAGE_SIZE in *; lia|done|unfold U64_MAX, PAGE_SIZE in *; lia|by eapply mem_read_bytes|done|].
  destruct ok2.
  2:{ split; [done|]. split; [auto|]. apply Hsp. eapply changed_in_trans; [exact Hch1|].
      destruct Hch2 as [? ? Hout]. split; [done|done|]. intros x Hx Hx'. apply Hout; [done|lia]. }
  apply (mremap_finish w (put_mem m2 (put_mem m w)) old os t n); try done. intros x Hx.
  by apply (copied_memory w m m2 old os t n RW_INIT buf); try done; unfold U64_MAX in *; lia.
Qed.

Lemma mremap_shrink_ok w old os n :
  space_ok contents w → page_range old os → aligned n → 0 < n → n ≤ os →
  ∃ w', MemCall.mremap_shrink old os n w = (w', Ok old) ∧ space_ok contents w' ∧
    (∀ x, old + n ≤ x < old + os → byte_of w' x = None) ∧
    (∀ x, is_u64 x → ¬ (old + n ≤ x < old + os) → byte_of w' x = byte_of w x).
Proof.
  intros Hok (Hoa & Hosa & Ho0 & _ & Homax) Hna Hpos Hle. unfold MemCall.mremap_shrink.
  destruct (Z.ltb_spec n os) as [Hlt|]; [|exists w; split_and!; done || lia].
  unfold sbind at 1, query, add64. rewrite (proj2 (Z.leb_le _ _)) by lia.
  assert (Ha : aligned (old + n)) by (by apply aligned_add).
  assert (Hd : aligned (os - n)) by (unfold aligned, PAGE_SIZE in *; Z.div_mod_to_equations; lia).
  destruct (unmap_both_ok contents w (old + n) (os - n) Hok) as (w1 & ok & E & Hok1 & Hch & Hv & _ & _);
    [split_and!; done || lia|lia|].
  unfold unmap_both, MemCall.on_mem_, sbind in *. destruct (MemCall.on_mem _ w) as [w0 [b| |]]; [|done..]. cbn in *.
  destruct (MemCall.on_pager _ w0) as [w2 [[]| |]]; [|done..]. injection E as -> _. exists w1. split; [done|]. split; [done|].
  split; [intros x Hx; apply (vacant_byte contents w1 (old + n) (os - n)); done || lia|].
  intros x Hx Hno. apply (ci_outside _ _ _ _ _ Hch); [done|lia].
Qed.
End remap.

(** C18. [mremap] carries a mapping's bytes along. Shrinking keeps the address and
    gives up the end; growing moves the mapping to a free range where each byte
    of the old one shows unchanged, resident or not, and the end continues the
    mapped file (zeros without one); the old range is given up and no other
    address changes. A refused call changes no byte that was mapped. *)
Theorem mremap_moves `{Host} {B} `{NetworkBroker B} {M V} `{GuestMemoryLaws M V} `{!AddressRanges M}
    `{!AddressRangesLaws M V} contents (w : Machine B M V) old old_size new_size flags :
  space_ok contents w → is_u64 old_size → is_u64 new_size →
  let os := align_up old_size PAGE_SIZE in
  let n := align_up new_size PAGE_SIZE in
  0 ≤ old → old + os ≤ U64_MAX → growable w (old + os) n → roomy w n →
  (∀ x, old ≤ x < old + os → is_Some (mem_byte (mem w) x)) →
  let '(w', r) := MemCall.sys_mremap old old_size new_size flags w in
  space_ok contents w' ∧
  match r with
  | Ok t => if n <=? os
            then t = old ∧ (∀ x, old + n ≤ x < old + os → guest_byte contents w' x = None) ∧
                 ∀ x, is_u64 x → ¬ (old + n ≤ x < old + os) → guest_byte contents w' x = guest_byte contents w x
            else aligned t ∧ vacant w t n ∧ moved contents w w' old os t n
  | Err e => (e = EINVAL ∨ e = ENOMEM ∨ e = EFAULT) ∧ spares contents w w'
  | Panic => False
  end.
Proof.
  intros Hok Hos Hn os n Ho Hmax Hg Hroom Hmp. unfold MemCall.sys_mremap.
  destruct (_ || _) eqn:Eb; [split; [done|]; auto using spares_refl|]. apply orb_false_iff in Eb as [Eb Eb3].
  apply orb_false_iff in Eb as [Eb1 Eb2]. apply negb_false_iff in Eb1. bool_to_prop.
  destruct (has_flag flags MemCall.MREMAP_FIXED); [split; [done|]; auto using spares_refl|]. fold os n.
  destruct (align_up_page old_size Hos) as (Hosa & _ & Hosp & _), (align_up_page new_size Hn) as (Hna & _ & Hnp & _).
  fold os in Hosa, Hosp. fold n in Hna, Hnp. unfold fits in Hos, Hn.
  assert (Hoa : aligned old) by (rewrite land_page in Eb1; done).
  assert (Hr : page_range old os) by (split_and!; done || lia).
  destruct (Z.leb_spec n os) as [Hle|Hlt].
  - destruct (mremap_shrink_ok contents w old os n) as (w' & -> & Hok' & Hend & Hrest); [done..|lia|done|]. done.
  - destruct (has_flag flags MemCall.MREMAP_MAYMOVE); cbn [negb]; [|split; [done|]; auto using spares_refl].
    pose proof (mremap_move_ok contents w old os n Hok Hr Hna ltac:(lia) Hlt Hg Hroom Hmp) as Hm.
    destruct (MemCall.mremap_move old os n w) as [w' [t|e|]]; destruct Hm as [Hok' Hm]; (split; [done|]); [|naive_solver|done].
    destruct Hm as (? & ? & ? & ? & ?). done.
Qed.

Lemma mremap_moves_witness :
  ∃ w' t, MemCall.sys_mremap 65536 4096 8192 1 page_machine = (w', Ok t) ∧
    guest_byte no_contents w' (t + 4) = Some 4 ∧ guest_byte no_contents w' (t + 4100) = Some 0 ∧
    guest_byte no_contents w' 65540 = None.
Proof.
  pose proof (mremap_moves no_contents page_machine 65536 4096 8192 1 (proj1 page_machine_ok)) as Hm.
  assert (Hs : spaces (pager (env page_machine)) = ∅) by (vm_compute; reflexivity).
  destruct (MemCall.sys_mremap 65536 4096 8192 1 page_machine) as [w' r] eqn:E.
  assert (r = Ok 68719476736) as -> by (change r with ((w', r).2); rewrite <- E; vm_compute; reflexivity).
  destruct Hm as (_ & _ & _ & Hhead & Htail & Hold & _); [split; lia|split; lia|lia|vm_compute; congruence|..].
  - intros s. rewrite Hs, lookup_empty. intros Hx. discriminate Hx.
  - exists 68719476736. split; [vm_compute; reflexivity|]. assert (Hf : mem_find_free (mem page_machine) 68719476736 (align_up 8192 PAGE_SIZE) PAGE_SIZE = Some 68719476736)
      by (vm_compute; reflexivity). rewrite Hf. intros t Ht. injection Ht as <-. vm_compute. congruence.
  - exact page_machine_mapped.
  - assert (Ho : align_up 4096 PAGE_SIZE = 4096) by reflexivity. assert (Hn : align_up 8192 PAGE_SIZE = 8192) by reflexivity.
    rewrite Ho in Hhead, Htail, Hold. rewrite Hn in Htail.
    exists w', 68719476736. split; [reflexivity|].
    split; [rewrite (Hhead 4) by lia; vm_compute; reflexivity|].
    split; [rewrite (Htail 4100) by lia; vm_compute; reflexivity|apply Hold; lia].
Defined.
