(* ===== verification/SharedMaps.v ===== *)
(** [MAP_SHARED] file mappings: [msync] and [munmap] write the guest's bytes to
    the file. *)

From S2P Require Import Prelude BTree Abi Digest Chunk Filesystem Pager PagerView PagerOps PagerFault Cpu Net Fd Proc Signals Authority Env GuestMem GuestMemSpec FileIo FileIoSpec MemCalls MemCallsSpec.

Section shared.
Context `{Host} {B : Type} `{NetworkBroker B} {M V : Type} `{GuestMemoryLaws M V} `{AddressRanges M}.
Context `{!AddressRangesLaws M V}.
Abbreviation machine := (Machine B M V).
Implicit Types w : machine.

Definition file_of w (i : nat) : option vec :=
  n ← nodes (fs w) !! i; match kind n with File d => Some d | _ => None end.
(** The map is of a node there is, and its range ends within the address space. *)
Record shared_ok w (m : SharedMap) : Prop := {
  sh_range : 0 ≤ sm_addr m ∧ 0 ≤ sm_len m ∧ sm_addr m + sm_len m ≤ 2 ^ 64;
  sh_node : is_Some (nodes (fs w) !! sm_node m)
}.
(** Where in the file a map starts and how much of it is written, as the code
    casts them to [usize]; and whether the guest's bytes can be read. *)
Definition map_start (m : SharedMap) : Z := as_usize (sm_offset m).
Definition map_size (m : SharedMap) : Z := as_usize (sm_len m).
Definition readable w (m : SharedMap) : bool := bool_decide (is_Some (mem_read (mem w) (sm_addr m) (map_size m))).
(** Does the map write byte [k] of node [i]? *)
Definition writes w (i : nat) (k : Z) (m : SharedMap) : bool :=
  bool_decide (sm_node m = i) && readable w m && (map_start m <=? k) && (k <? map_start m + map_size m).
(** [data'] is the file [data] of node [i] after the maps are written back in
    order: a byte is the one of the last map that writes it. *)
Definition synced w (maps : list SharedMap) (i : nat) (data data' : vec) : Prop :=
  vlen data' = vlen data ∧ vcap data' = vcap data ∧
  ∀ k, 0 ≤ k < vlen data →
    getz (vdata data') k =
      match last (List.filter (writes w i k) maps) with
      | Some m => mem_byte (mem w) (sm_addr m + (k - map_start m))
      | None => getz (vdata data) k
      end.

Lemma getz_byte_at (l : bytes) i : 0 ≤ i < zlen l → getz l i = Some (byte_at l i).
Proof. intros Hi. unfold byte_at. by destruct (proj2 (getz_is_Some l i) Hi) as [x ->]. Qed.
Lemma map_size_le m : 0 ≤ sm_len m → 0 ≤ map_size m ≤ sm_len m.
Proof.
  intros Hl. unfold map_size, as_usize, wrap. pose proof usize_pos. split; [by apply Z.mod_pos_bound|by apply Z.mod_le].
Qed.

Lemma write_back_file w m data :
  shared_ok w m → file_of w (sm_node m) = Some data → readable w m = true →
  ∃ data', MemCall.write_back m w = (Io.put_data (sm_node m) data' w, Ok ()) ∧ synced w [m] (sm_node m) data data'.
Proof.
  intros [(Ha & Hl & He) _] Hf Hrd. pose proof Hrd as [b Hb]%bool_decide_eq_true. pose proof (map_size_le m Hl) as Hsz.
  assert (0 ≤ map_start m) as Ho by (apply Z.mod_pos_bound, usize_pos). unfold MemCall.write_back. fold (map_size m). rewrite Hb.
  unfold file_of in Hf. destruct (nodes (fs w) !! sm_node m) as [n|]; [|done]. cbn in Hf.
  destruct (kind n); try done. injection Hf as ->. fold (map_start m). eexists. split; [done|].
  assert (Hbl : zlen b = map_size m) by (eapply mem_read_length; [lia|exact Hb]). pose proof (zlen_nonneg (vdata data)) as Hd.
  set (start := Z.min (map_start m) (vlen data)). set (k := Z.min (zlen b) (vlen data - start)). change (vlen data) with (zlen (vdata data)) in *.
  assert (Hk : 0 ≤ k ≤ zlen b ∧ start + k ≤ zlen (vdata data)) by (unfold k, start; lia).
  assert (Ht : zlen (take (Z.to_nat k) b) = k) by (unfold zlen in *; rewrite length_take; lia).
  destruct (spliced_written start (take (Z.to_nat k) b) (vdata data)) as [Hz Hi]; [unfold start; lia|lia|].
  rewrite Ht in Hz, Hi. cbn [vdata vcap]. assert (Hz' : zlen (spliced start (take (Z.to_nat k) b) (vdata data)) = zlen (vdata data)) by lia.
  split; [exact Hz'|]. split; [done|]. change (vlen data) with (zlen (vdata data)). intros i Hr. cbn [vdata]. rewrite (getz_byte_at (spliced _ _ _)) by (rewrite Hz'; lia). rewrite Hi by lia.
  cbn [List.filter]. unfold writes. rewrite Hrd, bool_decide_eq_true_2 by done. cbn [andb].
  destruct (Z.leb_spec start i), (Z.ltb_spec i (start + k)), (Z.leb_spec (map_start m) i), (Z.ltb_spec i (map_start m + map_size m)); cbn;
    try (unfold start, k in *; lia); try (by rewrite getz_byte_at).
  rewrite (mem_byte_read (mem w) _ (map_size m) b) by (done || lia). replace start with (map_start m) by (unfold start; lia).
  rewrite (getz_byte_at b) by lia. f_equal. rewrite !byte_at_nat by lia. rewrite lookup_take_lt; [done|]. unfold start, k in *. lia.
Qed.

(** What writing a buffer back leaves: every other node, and all but the
    filesystem. *)
Definition beside w w' (changed : nat → Prop) : Prop :=
  mem w' = mem w ∧ core w' = core w ∧ env w' = put_image (set_vfs (fs w') (image (env w))) (env w) ∧
  chunks (fs w') = chunks (fs w) ∧ ∀ i, ¬ changed i → nodes (fs w') !! i = nodes (fs w) !! i.
Lemma put_data_beside w i data : beside w (Io.put_data i data w) (λ j, j = i).
Proof.
  unfold Io.put_data. destruct (nodes (fs w) !! i) as [n|] eqn:E.
  - split_and!; try done.
    intros j Hj. cbn. by rewrite list_lookup_insert_ne by congruence.
  - split_and!; try done. by destruct w as [[[] ? ? ? ? ? ? ? ? ? ? ? ? ? ? ? ?] ? ?].
Qed.
Lemma put_data_file w i data : is_Some (file_of w i) → file_of (Io.put_data i data w) i = Some data.
Proof.
  unfold file_of, Io.put_data. destruct (nodes (fs w) !! i) as [n|] eqn:E; [|by intros [? ?]]. intros _. cbn.
  rewrite list_lookup_insert_eq by (by eapply lookup_lt_Some). done.
Qed.
Lemma beside_refl w P : beside w w P.
Proof. split_and!; try done. by destruct w as [[[] ? ? ? ? ? ? ? ? ? ? ? ? ? ? ? ?] ? ?]. Qed.
Lemma beside_trans w1 w2 w3 P Q : beside w1 w2 P → beside w2 w3 Q → beside w1 w3 (λ i, P i ∨ Q i).
Proof.
  intros (Hm & Hc & He & Hk & Hn) (Hm' & Hc' & He' & Hk' & Hn'). split_and!; try congruence.
  - rewrite He', He. done.
  - intros i Hi. rewrite Hn', Hn by tauto. done.
Qed.
Lemma beside_file w w' P i : beside w w' P → ¬ P i → file_of w' i = file_of w i.
Proof. intros (_ & _ & _ & _ & Hn) Hi. unfold file_of. by rewrite Hn. Qed.
Lemma put_data_nodes w i data j : is_Some (nodes (fs w) !! j) → is_Some (nodes (fs (Io.put_data i data w)) !! j).
Proof.
  unfold Io.put_data. destruct (nodes (fs w) !! i) eqn:E; [|done]. cbn. intros Hj. apply lookup_lt_is_Some_2.
  rewrite length_insert. by apply lookup_lt_is_Some.
Qed.
(** What one map does: the file it names is written, if there is one and the bytes
    can be read. *)
Lemma write_back_one w m :
  shared_ok w m → ∃ w', MemCall.write_back m w = (w', Ok ()) ∧
    beside w w' (λ i, i = sm_node m ∧ is_Some (file_of w i)) ∧ (∀ j, is_Some (nodes (fs w) !! j) → is_Some (nodes (fs w') !! j)) ∧
    ∀ i data, file_of w i = Some data → ∃ data', file_of w' i = Some data' ∧ synced w [m] i data data'.
Proof.
  intros Hok. destruct (file_of w (sm_node m)) as [d|] eqn:Hd; [destruct (readable w m) eqn:Hr|].
  1: { destruct (write_back_file w m d Hok Hd Hr) as (d' & E & Hs). eexists. split; [exact E|].
    destruct (put_data_beside w (sm_node m) d') as (? & ? & ? & ? & Hn). split.
    { split_and!; try done. intros i Hi. apply Hn. intros ->. apply Hi. eauto. }
    split; [apply put_data_nodes|]. intros i data Hf. destruct (decide (i = sm_node m)) as [->|Hne].
    - rewrite Hd in Hf. injection Hf as <-. exists d'. split; [apply put_data_file; eauto|done].
    - exists data. split; [unfold file_of in *; by rewrite Hn|]. split; [done|]. split; [done|]. intros k _. cbn [List.filter].
      unfold writes. by rewrite bool_decide_eq_false_2 by congruence. }
  all: exists w; split; [|split; [apply beside_refl|split; [done|]]].
  1, 3: unfold MemCall.write_back; fold (map_size m); destruct (sh_node _ _ Hok) as [n Hn]; rewrite Hn;
    destruct (mem_read _ _ _) as [b|] eqn:Eb; [|done]; unfold file_of in Hd; rewrite Hn in Hd; cbn in Hd.
  - unfold readable in Hr. apply bool_decide_eq_false in Hr. destruct Hr. eauto.
  - by destruct (kind n).
  - intros i data Hf. exists data. split; [done|]. split; [done|]. split; [done|]. intros k _. cbn [List.filter].
    unfold writes. by rewrite Hr, andb_false_r.
  - intros i data Hf. exists data. split; [done|]. split; [done|]. split; [done|]. intros k _. cbn [List.filter].
    unfold writes. rewrite bool_decide_eq_false_2; [done|]. intros <-. congruence.
Qed.
Lemma writes_same w w' i k m : mem w' = mem w → writes w' i k m = writes w i k m.
Proof. intros E. unfold writes, readable. by rewrite E. Qed.
Lemma synced_cons w w1 m maps i data d1 data' :
  mem w1 = mem w → synced w [m] i data d1 → synced w1 maps i d1 data' → synced w (m :: maps) i data data'.
Proof.
  intros Em (Hl & Hc & Hk) (Hl' & Hc' & Hk'). split; [congruence|]. split; [congruence|]. intros k Hr. rewrite Hk' by lia.
  rewrite (filter_ext (writes w1 i k) (writes w i k)) by (intros; by apply writes_same). rewrite Em. cbn [List.filter] in Hk |- *.
  specialize (Hk k Hr). destruct (writes w i k m); [rewrite last_cons|]; destruct (last (List.filter _ _)); done.
Qed.

(** A run over the maps writes them back in order, all from the same memory. *)
Lemma write_back_all_ok w maps :
  Forall (shared_ok w) maps →
  ∃ w', MemCall.write_back_all maps w = (w', Ok ()) ∧ beside w w' (λ i, i ∈ sm_node <$> maps ∧ is_Some (file_of w i)) ∧
    ∀ i data, file_of w i = Some data → ∃ data', file_of w' i = Some data' ∧ synced w maps i data data'.
Proof.
  revert w. induction maps as [|m maps IH]; intros w; cbn [fmap list_fmap MemCall.write_back_all].
  { intros _. exists w. split; [done|]. split; [apply beside_refl|]. intros i data Hf. by exists data. }
  intros [Hm Hms]%Forall_cons. destruct (write_back_one w m Hm) as (w1 & E & Hb & Hn & Hs). unfold sbind. rewrite E.
  destruct (IH w1) as (w2 & E2 & Hb2 & Hr).
  { apply Forall_forall. intros x Hx. eapply Forall_forall in Hms as [? ?]; [|exact Hx]. split; auto. }
  exists w2. split; [done|]. pose proof Hb as (Em & _ & _ & _ & Hkeep). split.
  { destruct (beside_trans _ _ _ _ _ Hb Hb2) as (? & ? & ? & ? & Hk). split_and!; try done.
    intros i Hi. apply Hk. intros [[-> Hf]|[Hin Hf]]; apply Hi; (split; [set_solver|]); [done|].
    destruct (file_of w i) eqn:Ef; [eauto|]. unfold file_of in Hf, Ef. rewrite Hkeep, Ef in Hf; [done|]. intros [_ [? ?]].
    unfold file_of in *. congruence. }
  intros i data Hf. destruct (Hs i data Hf) as (d1 & Hd1 & Hs1). destruct (Hr i d1 Hd1) as (d2 & Hd2 & Hs2).
  exists d2. split; [done|]. by eapply synced_cons.
Qed.

(** The maps of the running space that meet the range of the call. *)
Definition maps_in w (addr len : Z) : list SharedMap :=
  List.filter (MemCall.overlaps (asid (proc w)) addr (saturating_add64 addr (align_up len PAGE_SIZE))) (shared_maps (env w)).

(** * munmap *)
Section unmapping.
Context (contents : ChunkedFile → bytes).

Lemma beside_pager w w' P : beside w w' P → pager (env w') = pager (env w) ∧ proc w' = proc w.
Proof. intros (_ & _ & He & _). unfold proc. rewrite He. done. Qed.
Lemma beside_byte w w' P x : beside w w' P → guest_byte contents w' x = guest_byte contents w x.
Proof.
  intros Hb. destruct (beside_pager _ _ _ Hb) as [Hp Hq]. destruct Hb as [Hm _].
  apply guest_byte_same; by rewrite ?Hp, ?Hq.
Qed.
Lemma beside_space_ok w w' P : beside w w' P → space_ok contents w → space_ok contents w'.
Proof.
  intros Hb [Hbk Hm Hr]. destruct (beside_pager _ _ _ Hb) as [Hp Hq]. destruct Hb as (Hmem & _ & _ & Hc & _). split.
  - apply backed_iff in Hbk as [Hw Hs]. apply backed_iff. rewrite Hp, Hq. split; [done|]. unfold allowed in *. by rewrite Hc.
  - intros x Hx. unfold view_at in *. rewrite Hp, Hq, Hmem. by apply Hm.
  - intros page. unfold in_memory, view_at in *. rewrite Hp, Hq. apply Hr.
Qed.
Lemma forget_shared_ok w a b : space_ok contents w → space_ok contents (MemCall.forget_shared a b w).
Proof. intros []. by split. Qed.
Lemma align_up_id n : aligned n → 0 ≤ n ≤ U64_MAX → align_up n PAGE_SIZE = n.
Proof.
  intros Ha Hn. assert (Hu : is_u64 n) by (unfold fits, U64_MAX in *; lia).
  destruct (align_up_page n Hu) as (Hal & _ & _ & Hb). unfold aligned, PAGE_SIZE, U64_MAX in *. Z.div_mod_to_equations. lia.
Qed.

(** Memory goes whether or not all of it was mapped; the mappings go with it
    when it was. *)
Definition unmapped w w' (a n : Z) (r : res Z Z) : Prop :=
  (∀ x, a ≤ x < a + n → mem_byte (mem w') x = None) ∧
  (∀ x, is_u64 x → x < a ∨ a + n ≤ x → guest_byte contents w' x = guest_byte contents w x) ∧
  match r with
  | Ok v => v = 0 ∧ space_ok contents w' ∧ ∀ x, a ≤ x < a + n → guest_byte contents w' x = None
  | Err e => e = EINVAL ∧ (mem_unmap (mem w) a n).2 = false
  | Panic => False
  end.
Lemma munmap_tail_ok w a n :
  space_ok contents w → page_range a n → 0 < n →
  let '(w', r) := (do! ok <- MemCall.on_mem (λ m, mem_unmap m a n) in
                   if ok : bool then do! _ <- MemCall.on_pager (λ p i, unmap p i a n) in sret 0 else sfail EINVAL) w in
  unmapped w w' a n r ∧ fs w' = fs w ∧ shared_maps (env w') = shared_maps (env w).
Proof.
  intros Hok Hr Hn. destruct (unmap_both_ok contents w a n Hok Hr Hn) as (w2 & ok & E & Hok2 & Hch & Hv & _ & Hu).
  destruct Hr as (Ha & Hna & Ha0 & _ & Hmax). unfold unmap_both, sbind in *. unfold MemCall.on_mem in *.
  destruct (mem_unmap (mem w) a n) as [m ok'] eqn:Em. cbn [snd] in Hu. subst ok'. destruct ok.
  - destruct (MemCall.on_pager _ (put_mem m w)) as [w3 [[]|e|]] eqn:Ep; [|done..]. injection E as ->.
    assert (fs w2 = fs w ∧ shared_maps (env w2) = shared_maps (env w)) as Hsm.
    { unfold MemCall.on_pager in Ep. destruct (unmap _ _ _ _); [|done..]. by injection Ep as <-. }
    split; [|exact Hsm]. split; [intros x Hx; by apply Hv|]. split; [by apply Hch|]. split; [done|]. split; [done|].
    intros x Hx. by apply (vacant_byte contents w2 a n).
  - split; [|done]. pose proof (unmap_range_spec _ _ _ _ _ Ha0 Hn ltac:(unfold U64_MAX in *; lia) Em) as Hread.
    split; [|split; [|by rewrite Em]].
    + intros x Hx. unfold mem_byte. cbn. rewrite Hread, decide_True by (done || (unfold fits, U64_MAX in *; lia)). done.
    + intros x Hx Ho. apply put_mem_byte. unfold mem_byte. rewrite Hread, decide_False by (done || lia). done.
Qed.
End unmapping.
End shared.

(** C27. [msync] makes the bytes of shared mappings the files': each file mapped over
    the range keeps its length and gets, at the mapping's offset (cut to the host's
    [usize]) and as far as the file reaches, the bytes the guest's memory holds;
    where several mappings of one file meet, the last one in the kernel's list
    counts, and a mapping whose memory cannot be read writes nothing. Every other
    node, the memory and the rest of the kernel are untouched, and the call
    succeeds. *)
Theorem msync_writes_back `{Host} {B} `{NetworkBroker B} {M V} `{GuestMemoryLaws M V} `{!AddressRanges M}
    `{!AddressRangesLaws M V} (w : Machine B M V) addr len :
  Forall (shared_ok w) (maps_in w addr len) →
  let '(w', r) := MemCall.sys_msync addr len w in
  r = Ok 0 ∧ beside w w' (λ i, i ∈ sm_node <$> maps_in w addr len ∧ is_Some (file_of w i)) ∧
  ∀ i data, file_of w i = Some data → ∃ data', file_of w' i = Some data' ∧ synced w (maps_in w addr len) i data data'.
Proof.
  intros Hok. unfold MemCall.sys_msync, MemCall.sync_shared_range, sbind.
  destruct (write_back_all_ok w (maps_in w addr len) Hok) as (w' & E & Hb & Hr).
  unfold maps_in in E. rewrite E. done.
Qed.

(** [munmap] of whole pages gives up exactly its range: it first writes shared
    mappings back to their files, then no address of the range is mapped, every
    other address shows what it showed, and the shared mappings that met the
    range are forgotten. It fails only when part of the range was not mapped. *)
Theorem munmap_exact `{Host} {B} `{NetworkBroker B} {M V} `{GuestMemoryLaws M V} `{!AddressRanges M}
    `{!AddressRangesLaws M V} contents (w : Machine B M V) addr len :
  space_ok contents w → page_range addr len → 0 < len →
  Forall (shared_ok w) (maps_in w addr len) →
  let '(w', r) := MemCall.sys_munmap addr len w in
  unmapped contents w w' addr len r ∧
  (∀ m, m ∈ shared_maps (env w') ↔ m ∈ shared_maps (env w) ∧ m ∉ maps_in w addr len) ∧
  (∀ i, i ∉ sm_node <$> maps_in w addr len → nodes (fs w') !! i = nodes (fs w) !! i) ∧
  ∀ i data, file_of w i = Some data → ∃ data', file_of w' i = Some data' ∧ synced w (maps_in w addr len) i data data'.
Proof.
  intros Hok Hr Hn Hsh. pose proof Hr as (_ & Hna & Ha0 & _ & Hmax).
  assert (Hal : align_up len PAGE_SIZE = len) by (apply align_up_id; [done|lia]).
  destruct (write_back_all_ok w (maps_in w addr len) Hsh) as (w1 & E & Hb & Hf).
  unfold MemCall.sys_munmap, MemCall.sync_shared_range. unfold sbind at 1. unfold maps_in in E. rewrite E. clear E.
  unfold sbind at 1, modify. rewrite Hal. set (w2 := MemCall.forget_shared _ _ w1).
  assert (Hok2 : space_ok contents w2) by (by eapply forget_shared_ok, beside_space_ok).
  pose proof (munmap_tail_ok contents w2 addr len Hok2 Hr Hn) as Ht.
  match type of Ht with let '(_, _) := ?m in _ => destruct m as [w' r] end.
  destruct Ht as ((Hm & Ho & Hres) & Hfs & Hsm). change (fs w2) with (fs w1) in Hfs.
  assert (Hw2 : mem w2 = mem w) by apply Hb. unfold unmapped. rewrite Hw2 in Hres. split_and!; try done.
  - intros x Hx Hx'. rewrite Ho by done. change (guest_byte contents w2 x) with (guest_byte contents w1 x). by eapply beside_byte.
  - intros m. rewrite Hsm. destruct (beside_pager _ _ _ Hb) as [_ Hq]. unfold w2, MemCall.forget_shared, maps_in. cbn.
    rewrite Hq, Hal, !list_elem_of_In, !filter_In, <- !list_elem_of_In.
    replace (shared_maps (env w1)) with (shared_maps (env w)) by (destruct Hb as (_ & _ & -> & _); done).
    unfold MemCall.overlaps. destruct (Z.eqb_spec (sm_asid m) (asid (proc w))), (Z.leb_spec (saturating_add64 addr len) (sm_addr m)),
      (Z.ltb_spec (sm_addr m) (saturating_add64 addr len)), (Z.leb_spec (saturating_add64 (sm_addr m) (sm_len m)) addr),
      (Z.ltb_spec addr (saturating_add64 (sm_addr m) (sm_len m))); cbn; try lia; intuition congruence.
  - intros i Hi. rewrite Hfs. apply Hb. by intros [? _].
  - intros i d Hd. destruct (Hf i d Hd) as (d' & Hd' & Hs). exists d'. split; [|done]. unfold file_of in *. by rewrite Hfs.
Qed.

Definition page_map : SharedMap := {| sm_asid := 0; sm_addr := 65536; sm_len := 4096; sm_node := 1; sm_offset := 0 |}.
Lemma page_maps : maps_in page_machine 65536 4096 = [page_map].
Proof. vm_compute. reflexivity. Qed.
Lemma page_map_ok : shared_ok page_machine page_map.
Proof. split; vm_compute; [repeat split; congruence|eauto]. Qed.

Lemma msync_writes_back_witness :
  ∃ w' data, MemCall.sys_msync 65536 4096 page_machine = (w', Ok 0) ∧ file_of w' 1 = Some data ∧ getz (vdata data) 2 = Some 2.
Proof.
  pose proof (msync_writes_back page_machine 65536 4096) as Hm. rewrite page_maps in Hm.
  destruct (MemCall.sys_msync 65536 4096 page_machine) as [w' r].
  destruct Hm as (-> & _ & Hf); [constructor; [exact page_map_ok|constructor]|].
  destruct (Hf 1%nat (Vec [1; 2; 3] 3)) as (d' & Hd' & Hl & _ & Hb); [vm_compute; reflexivity|].
  exists w', d'. split; [reflexivity|]. split; [exact Hd'|].
  rewrite Hb by (vm_compute; split; congruence). vm_compute. reflexivity.
Defined.

Lemma munmap_exact_witness :
  ∃ w' data, MemCall.sys_munmap 65536 4096 page_machine = (w', Ok 0) ∧ guest_byte no_contents w' 65540 = None ∧
    file_of w' 1 = Some data ∧ getz (vdata data) 2 = Some 2 ∧ shared_maps (env w') = [].
Proof.
  pose proof (munmap_exact no_contents page_machine 65536 4096 (proj1 page_machine_ok)) as Hm. rewrite page_maps in Hm.
  destruct (MemCall.sys_munmap 65536 4096 page_machine) as [w' r] eqn:E.
  assert (r = Ok 0) as -> by (change r with ((w', r).2); rewrite <- E; vm_compute; reflexivity).
  destruct Hm as ((_ & _ & _ & _ & Hn) & Hs & _ & Hf);
    [vm_compute; repeat split; congruence|lia|constructor; [exact page_map_ok|constructor]|].
  destruct (Hf 1%nat (Vec [1; 2; 3] 3)) as (d' & Hd' & Hl & _ & Hb); [vm_compute; reflexivity|]. exists w', d'. split; [reflexivity|]. split; [apply Hn; lia|]. split; [exact Hd'|].
  split; [rewrite Hb by (vm_compute; split; congruence); vm_compute; reflexivity|].
  apply elem_of_nil_inv. intros m [Hm1 Hm2]%Hs. apply Hm2. exact Hm1.
Defined.
