(* ===== verification/PathCalls.v ===== *)
(** The calls that name files: opening, seeking, listing and describing them,
    and changing the directory tree. These are the path helpers, the [/proc]
    files, the [stat] family and the directory calls of
    [crates/linux-compat/src/syscall.rs].

    A call that takes a path is split in two: the copy of the path out of guest
    memory, and the work on the bytes. What [/proc] reports of the softmmu is a
    class. *)

From S2P Require Import Prelude BTree Abi Digest Chunk Filesystem Pager Cpu Net Fd Proc Signals Text Manifest Authority Env GuestMem Inotify FileIo.

(** What the kernel layer reads off the softmmu's tables: the mapped ranges (last
    address included), the permission of an address, and page counts. *)
Class MemoryTables (M : Type) := {
  mapped_ranges : M → list (Z * Z);
  perm_at : M → Z → Z;
  total_pages : M → Z;
  capacity : M → Z
}.

(** * Text of the [/proc] files *)
Definition pad_left (width : nat) (c : Z) (s : bytes) : bytes := replicate (width - length s) c ++ s.
Definition bytes_of_string (s : String.string) : bytes := Fs.str s.

Section procfs.
Context {M : Type} `{MemoryTables M}.

(** Adjacent ranges with the same permission are one. *)
Fixpoint coalesce (m : M) (runs : list (Z * Z * Z)) (l : list (Z * Z)) : list (Z * Z * Z) :=
  match l with
  | [] => runs
  | (start, end_) :: l =>
      let p := perm_at m start in
      coalesce m
        (match last runs with
         | Some (s, e, q) =>
             if (e + 1 =? start) && (q =? p) then removelast runs ++ [(s, end_, q)] else runs ++ [(start, end_, p)]
         | None => runs ++ [(start, end_, p)]
         end) l
  end.
Definition perm_char (p b c : Z) : Z := if has_flag p b then c else 45.
Definition maps_line (exe : bytes) (r : Z * Z * Z) : bytes :=
  let '(start, end_, p) := r in
  pad_left 12 48 (show_nat 16 start) ++ [45] ++ pad_left 12 48 (show_nat 16 (saturating_add64 end_ 1)) ++ [32] ++
  [perm_char p Perm.READ 114; perm_char p Perm.WRITE 119; perm_char p Perm.EXEC 120; 112] ++
  bytes_of_string " 00000000 00:00 0 " ++ (if start <? 4294967296 then exe else []) ++ [10].
Definition procfs_maps (exe_path : bytes) (m : M) : bytes :=
  concat (maps_line (from_utf8_lossy exe_path) <$> coalesce m [] (mapped_ranges m)).
Definition procfs_statm (m : M) : bytes :=
  let pages := show_nat 10 (total_pages m) in
  pages ++ [32] ++ pages ++ bytes_of_string " 0 0 0 " ++ pages ++ bytes_of_string " 0" ++ [10].
(** [{x:8}]: right-aligned in eight columns. *)
Definition meminfo_line (label : bytes) (kb : Z) : bytes :=
  label ++ pad_left 8 32 (show_nat 10 kb) ++ bytes_of_string " kB" ++ [10].
Definition procfs_meminfo (m : M) : bytes :=
  let total := capacity m * 4 in
  let used := total_pages m * 4 in
  let free := saturating_sub total used in
  meminfo_line (bytes_of_string "MemTotal:       ") total ++ meminfo_line (bytes_of_string "MemFree:        ") free ++
  meminfo_line (bytes_of_string "MemAvailable:   ") free.
End procfs.

Fixpoint strip_prefix (p l : bytes) : option bytes :=
  match p, l with
  | [], _ => Some l
  | x :: p, y :: l => if x =? y then strip_prefix p l else None
  | _, [] => None
  end.

(** * stat *)
Definition stat_default : Stat :=
  {| st_dev := 0; st_ino := 0; st_nlink := 0; st_mode := 0; st_uid := 0; st_gid := 0; st_rdev := 0; st_size := 0;
     st_blksize := 0; st_blocks := 0; st_atime_sec := 0; st_atime_nsec := 0; st_mtime_sec := 0; st_mtime_nsec := 0;
     st_ctime_sec := 0; st_ctime_nsec := 0 |}.
(** A node of no filesystem: [dev: 1, nlink: 1]. *)
Definition special_stat (ino md rdev blksize : Z) : Stat :=
  {| st_dev := 1; st_ino := ino; st_nlink := 1; st_mode := md; st_uid := 0; st_gid := 0; st_rdev := rdev; st_size := 0;
     st_blksize := blksize; st_blocks := 0; st_atime_sec := 0; st_atime_nsec := 0; st_mtime_sec := 0; st_mtime_nsec := 0;
     st_ctime_sec := 0; st_ctime_nsec := 0 |}.
Definition STATX_BASIC_STATS : Z := 2047.
Definition encode_statx (s : Stat) : bytes :=
  puts [(0%nat, le_bytes 4 STATX_BASIC_STATS); (4%nat, le_bytes 4 (wrap 32 (st_blksize s)));
        (16%nat, le_bytes 4 (wrap 32 (st_nlink s))); (20%nat, le_bytes 4 (st_uid s)); (24%nat, le_bytes 4 (st_gid s));
        (28%nat, le_bytes 2 (wrap 16 (st_mode s))); (32%nat, le_bytes 8 (st_ino s)); (40%nat, le_bytes 8 (st_size s));
        (48%nat, le_bytes 8 (st_blocks s));
        (64%nat, le_bytes 8 (st_atime_sec s)); (72%nat, le_bytes 4 (wrap 32 (st_atime_nsec s)));
        (96%nat, le_bytes 8 (st_ctime_sec s)); (104%nat, le_bytes 4 (wrap 32 (st_ctime_nsec s)));
        (112%nat, le_bytes 8 (st_mtime_sec s)); (120%nat, le_bytes 4 (wrap 32 (st_mtime_nsec s)));
        (136%nat, le_bytes 4 1)]
    (replicate 256 0).

(** * Directory listings *)
Fixpoint fill_dirents `{Host} (v : Vfs) (count position : Z) (out : bytes) (es : list (bytes * nat)) : res Z (bytes * Z) :=
  match es with
  | [] => Ok (out, position)
  | (name, n) :: es =>
      let! nd := node_at v n in
      let room := Z.min count usize_max in
      if room <? zlen out then Panic
      else match encode_dirent64 (Z.of_nat n + 1) (position + 1) (d_type nd) name (room - zlen out) with
           | Some rec_ => fill_dirents v count (position + 1) (out ++ rec_) es
           | None => if bool_decide (out = []) then Err EINVAL else Ok (out, position)
           end
  end.

(** Assignments to a terminal, a process and a node. *)
Definition slave_opened (fg : option Z) (p : Pty) : Pty :=
  {| pty_id := pty_id p; m2s := m2s p; s2m := s2m p; termios := termios p; winsize := winsize p; masters := masters p;
     slaves := slaves p + 1; slave_ever_opened := true; pty_activity := wrapping_add64 (pty_activity p) 1;
     fg_pgrp := if fg_pgrp p =? 0 then default 0 fg else fg_pgrp p |}.
Definition with_mode (n : Node) (md : Z) : Node :=
  {| kind := kind n; mode := md; nlink := nlink n; mtime_sec := mtime_sec n; n_parent := n_parent n |}.

Module Path.
Section path.
Context `{Host} {B : Type} `{NetworkBroker B} {M V : Type} `{GuestMemory M V} `{MemoryTables M}.
Abbreviation machine := (Machine B M V).
Abbreviation sys := (stm machine Z).

(** * Helpers *)
Definition dir_of (dirfd : Z) : sys nat :=
  if as_i32 dirfd =? as_i32 AT_FDCWD then gets (λ w, cwd (proc w))
  else do! x <- get_desc dirfd in match backing x.2 with BDir node _ => sret node | _ => sfail ENOTDIR end.
Definition path_arg (ptr : Z) : sys bytes := Copy.read_cstr ptr.
Definition resolve_at (base : nat) (path : bytes) (follow : bool) : sys Resolved := query (λ w, resolve (fs w) base path follow).
Definition found (r : Resolved) : sys nat := query (λ _, ok_or (r_node r) ENOENT).
(** [env.vfs.node(node)] and an assignment through [node_mut]. *)
Definition node_of (node : nat) : sys Node := query (λ w, node_at (fs w) node).
Definition update_node (node : nat) (f : Node → Node) : sys () :=
  do! n <- node_of node in modify (λ w, put_fs (set_node (fs w) node (f n)) w).
Definition is_dir_opt (node : option nat) : sys bool :=
  match node with Some n => query (λ w, is_dir (fs w) n) | None => sret false end.

(** [env.reclaim_unlinked()], with the descriptors of every task. *)
Definition open_now (w : machine) : gset nat :=
  Image_.open_nodes (heap (env w)) (fds (proc w) :: ((λ t, fds (t_proc t)) <$> parked (sched (tasks (env w))))).
Definition put_store (x : Image * SecretStore) : machine → machine := on_env (λ e, put_secrets x.2 (put_image x.1 e)).
Definition reclaim : sys () := λ w,
  match Image_.reclaim_unlinked (open_now w) (image (env w), secrets (env w)) with
  | Ok (i, s, _) => (put_store (i, s) w, Ok ())
  | _ => (w, Panic)
  end.

(** * [/proc] *)
Definition proc_name (w : machine) (path : bytes) : option bytes :=
  match strip_prefix (bytes_of_string "/proc/self/") path with
  | Some rest => Some rest
  | None =>
      match strip_prefix (bytes_of_string "/proc/" ++ show_nat 10 (pid (proc w)) ++ [SLASH]) path with
      | Some rest => Some rest
      | None => if bool_decide (path = bytes_of_string "/proc/meminfo") then Some (bytes_of_string "meminfo") else None
      end
  end.
Definition proc_content (w : machine) (name : bytes) : option bytes :=
  if bool_decide (name = bytes_of_string "maps") then Some (procfs_maps (exe_path (proc w)) (mem w))
  else if bool_decide (name = bytes_of_string "statm") then Some (procfs_statm (mem w))
  else if bool_decide (name = bytes_of_string "cmdline") then Some (concat ((λ a, a ++ [0]) <$> argv (proc w)))
  else if bool_decide (name = bytes_of_string "meminfo") then Some (procfs_meminfo (mem w))
  else None.
Definition is_some {A} (o : option A) : bool := match o with Some _ => true | None => false end.
(** [let _ = env.add_file(..)] *)
Definition add_file_ignored (path content : bytes) : sys () := λ w,
  match Image_.add_file (open_now w) path (to_vec content) 292 (image (env w), secrets (env w)) with
  | (x, Panic) => (put_store x w, Panic)
  | (x, _) => (put_store x w, Ok ())
  end.
Definition refresh_procfs (path : bytes) : sys () := λ w,
  match proc_name w path ≫= proc_content w with
  | None => (w, Ok ())
  | Some content =>
      let full := if is_some (strip_prefix (bytes_of_string "/proc/meminfo") path) then bytes_of_string "/proc/meminfo" else path in
      (do! taken <- with_fs (Fs.take_file_contents full) in
       match taken with
       | Some _ => with_fs (Fs.put_file_contents full (to_vec content))
       | None => add_file_ignored full content
       end) w
  end.

(** * openat *)
Definition opened_flags (fl : Z) : Z := Z.land fl (Z.lor (Z.lor O_ACCMODE O_APPEND) O_NONBLOCK).
Definition install (b : Backing) (fl : Z) : sys Z := Watching.new_fd b (opened_flags fl) (has_flag fl O_CLOEXEC).
Definition open_slave (pty : Z) (fg : option Z) (fl : Z) : sys Z :=
  do! _ <- query (λ w, expect (ptys (heap (env w)) !! pty)) in
  do! _ <- modify (on_heap (λ h, set_ptys (alter (slave_opened fg) pty (ptys h)) h)) in
  install (BPtySlave pty) fl.
(** The terminal an open of [/dev/tty] lands on. *)
Definition controlling_tty (r : Resolved) : sys (option Z) :=
  match r_node r with
  | None => sret None
  | Some node =>
      do! n <- node_of node in
      match kind n with CharDev DevTty => gets (λ w, stdio_pty (console (env w))) | _ => sret None end
  end.
(** The id a name under [/dev/pts] stands for. *)
Definition pts_id (w : machine) (r : Resolved) : res Z (option Z) :=
  match r_node r with
  | Some _ => Ok None
  | None =>
      match resolve (fs w) ROOT (bytes_of_string "/dev/pts") true with
      | Ok d =>
          if bool_decide (r_node d = Some (r_parent r))
          then Ok (from_str_radix 10 0 U64_MAX (if is_utf8 (r_name r) then r_name r else []))
          else Ok None
      | Err _ => Ok None
      | Panic => Panic
      end
  end.
Definition open_node (r : Resolved) (fl md : Z) : sys nat :=
  match r_node r with
  | Some node => if has_flag fl O_CREAT && has_flag fl O_EXCL then sfail EEXIST else sret node
  | None =>
      if negb (has_flag fl O_CREAT) then sfail ENOENT
      else
        do! mask <- gets (λ w, umask (proc w)) in
        let md := Z.land (Z.land (wrap 32 md) 511) (Z.lnot mask) in
        do! created <- with_fs (Fs.create (r_parent r) (r_name r) (File vec_new) md) in
        do! _ <- modify (Watching.notify_inotify (r_parent r) (r_name r) IN_CREATE 0) in
        sret created
  end.
Definition open_file (node : nat) (fl : Z) : sys Backing :=
  if has_flag fl O_DIRECTORY then sfail ENOTDIR
  else
    let writes := negb (Z.land fl O_ACCMODE =? O_RDONLY) in
    do! is_secret <- gets (Io.secret_node node) in
    do! value <- gets (Io.secret_of node) in
    if is_secret && (negb (is_some value) || writes) then sfail EACCES
    else
      do! _ <- (if has_flag fl O_TRUNC && writes then update_node node (λ n, with_kind n (File vec_new)) else sret ()) in
      sret (BFile node).
Definition open_ptmx : sys Backing := λ w,
  let id := next_pty_id (console (env w)) in
  match add64 (E := Z) id 1 with
  | Ok next =>
      let '(i, h) := Fds.fresh (heap (env w)) in
      let h := set_ptys (<[i := Terminal.new id]> (ptys h)) h in
      (on_console (λ c, set_pty_ids (bt_insert (pty_ids c) id i) (set_next_pty_id next c)) (on_heap (λ _, h) w),
       Ok (BPtyMaster i))
  | _ => (w, Panic)
  end.
Definition open_backing (node : nat) (fl : Z) : sys Backing :=
  do! n <- node_of node in
  match kind n with
  | Dir _ => if negb (Z.land fl O_ACCMODE =? O_RDONLY) then sfail EISDIR else sret (BDir node 0)
  | File _ | Chunked _ => open_file node fl
  | CharDev DevPtmx => open_ptmx
  | CharDev d => sret (BDev d)
  | Symlink _ => sfail ELOOP
  end.
Definition open_path (path : bytes) (dirfd fl md : Z) : sys Z :=
  do! _ <- refresh_procfs path in
  do! base <- dir_of dirfd in
  do! r <- resolve_at base path (negb (has_flag fl O_NOFOLLOW)) in
  do! tty <- controlling_tty r in
  match tty with
  | Some pty => open_slave pty None fl
  | None =>
      do! id <- query (λ w, pts_id w r) in
      match id with
      | Some id =>
          do! pty <- query (λ w, ok_or (bt_get (pty_ids (console (env w))) id) ENOENT) in
          do! pg <- gets (λ w, pgid (proc w)) in
          open_slave pty (Some pg) fl
      | None =>
          do! node <- open_node r fl md in
          do! b <- open_backing node fl in
          install b fl
      end
  end.
Definition sys_openat (dirfd path_ptr fl md : Z) : sys Z := do! path <- path_arg path_ptr in open_path path dirfd fl md.

(** * lseek and getdents64 *)
Definition seek_size (i : Z) (d : Description) : sys Z :=
  match backing d with
  | BFile node =>
      do! is_secret <- gets (Io.secret_node node) in
      if is_secret : bool then do! v <- query (λ w, ok_or (Io.secret_of node w) EACCES) in sret (zlen v)
      else do! n <- node_of node in sret (node_size n)
  | BDev _ => sret 0
  | _ => sfail ESPIPE
  end.
Definition put_cookie (node : nat) (cookie : Z) (d : Description) : Description :=
  {| backing := BDir node cookie; offset := offset d; flags := flags d |}.
Definition checked_add_i64 (a b : Z) : option Z := if (I64_MIN <=? a + b) && (a + b <=? I64_MAX) then Some (a + b) else None.
Definition sys_lseek (fd off whence : Z) : sys Z :=
  do! x <- get_desc fd in
  match backing x.2 with
  | BDir node _ =>
      if whence =? SEEK_SET then do! _ <- modify (put_desc x.1 (put_cookie node off x.2)) in sret off else sfail EINVAL
  | _ =>
      do! size <- seek_size x.1 x.2 in
      do! base <- (if whence =? SEEK_SET then sret 0
                   else if whence =? SEEK_CUR then sret (as_i64 (offset x.2))
                   else if whence =? SEEK_END then sret (as_i64 size)
                   else sfail EINVAL) in
      do! target <- query (λ _, ok_or (checked_add_i64 base (as_i64 off)) EINVAL) in
      if target <? 0 then sfail EINVAL
      else do! _ <- modify (put_desc x.1 (put_offset target x.2)) in sret target
  end.
Definition sys_getdents64 (fd dirp count : Z) : sys Z :=
  do! x <- get_desc fd in
  match backing x.2 with
  | BDir node cookie =>
      do! es <- query (λ w, Fs.list_dir (fs w) node) in
      let position := as_usize cookie in
      do! y <- query (λ w, fill_dirents (fs w) count position [] (drop (Z.to_nat position) es)) in
      do! _ <- modify (put_desc x.1 (put_cookie node y.2 x.2)) in
      do! _ <- Copy.write_mem dirp y.1 in
      sret (zlen y.1)
  | _ => sfail ENOTDIR
  end.

(** * stat *)
Definition stat_of_node (node : nat) : sys Stat :=
  do! n <- node_of node in
  do! secret <- gets (Io.secret_of node) in
  let size := as_i64 (match secret with Some v => zlen v | None => node_size n end) in
  do! rounded <- query (λ _, expect (checked_add_i64 size 511)) in
  sret {| st_dev := 1; st_ino := Z.of_nat node + 1; st_nlink := nlink n;
          st_mode := Z.lor (file_type_bits n) (Z.land (mode n) 4095); st_uid := 0; st_gid := 0; st_rdev := 0;
          st_size := size; st_blksize := 4096; st_blocks := Z.quot rounded 512; st_atime_sec := mtime_sec n;
          st_atime_nsec := 0; st_mtime_sec := mtime_sec n; st_mtime_nsec := 0; st_ctime_sec := mtime_sec n; st_ctime_nsec := 0 |}.
Definition stat_of_fd (fd : Z) : sys Stat :=
  do! x <- get_desc fd in
  match backing x.2 with
  | BFile node | BDir node _ => stat_of_node node
  | BStd _ | BDev DevTty | BPtyMaster _ | BPtySlave _ => sret (special_stat U64_MAX (Z.lor S_IFCHR 400) 34816 1024)
  | BDev _ => sret (special_stat (U64_MAX - 1) (Z.lor S_IFCHR 438) 0 4096)
  | BPipe _ _ | BSocketPair _ _ | BNet _ => sret (special_stat (U64_MAX - 2) (Z.lor S_IFIFO 384) 0 4096)
  | BEventFd _ | BTimerFd _ | BEpoll _ | BInotify _ => sret (special_stat (U64_MAX - 3) 384 0 4096)
  end.
Definition sys_fstat (fd buf : Z) : sys Z :=
  do! s <- stat_of_fd fd in do! _ <- Copy.write_mem buf (encode s) in sret 0.
Definition stat_path (path : bytes) (dirfd : Z) (follow : bool) : sys Stat :=
  do! base <- dir_of dirfd in
  do! r <- resolve_at base path follow in
  do! node <- found r in
  stat_of_node node.
Definition sys_statpath (dirfd path_ptr buf : Z) (follow : bool) : sys Z :=
  do! path <- path_arg path_ptr in
  do! s <- stat_path path dirfd follow in
  do! _ <- Copy.write_mem buf (encode s) in sret 0.
Definition sys_newfstatat (dirfd path_ptr buf fl : Z) : sys Z :=
  do! path <- path_arg path_ptr in
  if bool_decide (path = []) && has_flag fl AT_EMPTY_PATH then sys_fstat dirfd buf
  else sys_statpath dirfd path_ptr buf (negb (has_flag fl AT_SYMLINK_NOFOLLOW)).
Definition sys_statx (dirfd path_ptr fl buf : Z) : sys Z :=
  do! path <- path_arg path_ptr in
  do! s <- (if bool_decide (path = []) && has_flag fl AT_EMPTY_PATH then stat_of_fd dirfd
            else stat_path path dirfd (negb (has_flag fl AT_SYMLINK_NOFOLLOW))) in
  do! _ <- Copy.write_mem buf (encode_statx s) in sret 0.
Definition access_path (path : bytes) (dirfd : Z) : sys Z :=
  do! base <- dir_of dirfd in
  do! r <- resolve_at base path true in
  do! _ <- found r in sret 0.
Definition sys_faccessat (dirfd path_ptr : Z) : sys Z := do! path <- path_arg path_ptr in access_path path dirfd.
Definition link_target (path : bytes) (dirfd : Z) : sys bytes :=
  if bool_decide (path = bytes_of_string "/proc/self/exe") then gets (λ w, exe_path (proc w))
  else
    do! base <- dir_of dirfd in
    do! r <- resolve_at base path false in
    do! node <- found r in
    do! n <- node_of node in
    match kind n with Symlink target => sret (vdata target) | _ => sfail EINVAL end.
Definition sys_readlinkat (dirfd path_ptr buf size : Z) : sys Z :=
  do! path <- path_arg path_ptr in
  do! target <- link_target path dirfd in
  let n := Z.min (zlen target) (as_usize size) in
  do! _ <- Copy.write_mem buf (take (Z.to_nat n) target) in sret n.

(** * Changing the tree *)
Definition mkdir_path (path : bytes) (dirfd md : Z) : sys Z :=
  do! base <- dir_of dirfd in
  do! r <- resolve_at base path true in
  if is_some (r_node r) then sfail EEXIST
  else
    do! mask <- gets (λ w, umask (proc w)) in
    do! _ <- with_fs (Fs.create (r_parent r) (r_name r) (Dir []) (Z.land (Z.land (wrap 32 md) 511) (Z.lnot mask))) in
    sret 0.
Definition sys_mkdirat (dirfd path_ptr md : Z) : sys Z := do! path <- path_arg path_ptr in mkdir_path path dirfd md.

Definition dir_bit (was_dir : bool) : Z := if was_dir then IN_ISDIR else 0.
Definition notify (node : nat) (name : bytes) (mask cookie : Z) : sys () := modify (Watching.notify_inotify node name mask cookie).
Definition notify_opt (node : option nat) (mask : Z) : sys () :=
  match node with Some n => notify n [] mask 0 | None => sret () end.
Definition unlink_path (path : bytes) (dirfd fl : Z) : sys Z :=
  do! base <- dir_of dirfd in
  do! r <- resolve_at base path false in
  do! was_dir <- is_dir_opt (r_node r) in
  do! _ <- with_fs (Fs.unlink (r_parent r) (r_name r) (has_flag fl AT_REMOVEDIR)) in
  do! _ <- notify (r_parent r) (r_name r) (Z.lor IN_DELETE (dir_bit was_dir)) 0 in
  do! _ <- notify_opt (r_node r) IN_DELETE_SELF in
  do! _ <- reclaim in
  sret 0.
Definition sys_unlinkat (dirfd path_ptr fl : Z) : sys Z := do! path <- path_arg path_ptr in unlink_path path dirfd fl.

Definition rename_path (old_path new_path : bytes) (old_dirfd new_dirfd : Z) : sys Z :=
  do! old_base <- dir_of old_dirfd in
  do! new_base <- dir_of new_dirfd in
  do! old <- resolve_at old_base old_path false in
  do! new <- resolve_at new_base new_path false in
  do! was_dir <- is_dir_opt (r_node old) in
  do! _ <- with_fs (Fs.rename (r_parent old) (r_name old) (r_parent new) (r_name new)) in
  do! _ <- reclaim in
  do! cookie <- Watching.next_inotify_cookie in
  do! _ <- notify (r_parent old) (r_name old) (Z.lor IN_MOVED_FROM (dir_bit was_dir)) cookie in
  do! _ <- notify (r_parent new) (r_name new) (Z.lor IN_MOVED_TO (dir_bit was_dir)) cookie in
  do! _ <- notify_opt (r_node old) IN_MOVE_SELF in
  sret 0.
Definition sys_renameat (old_dirfd old_ptr new_dirfd new_ptr : Z) : sys Z :=
  do! old_path <- path_arg old_ptr in
  do! new_path <- path_arg new_ptr in
  rename_path old_path new_path old_dirfd new_dirfd.

Definition link_path (old_path new_path : bytes) (old_dirfd new_dirfd : Z) : sys Z :=
  do! old_base <- dir_of old_dirfd in
  do! new_base <- dir_of new_dirfd in
  do! old <- resolve_at old_base old_path true in
  do! node <- found old in
  do! is_directory <- query (λ w, is_dir (fs w) node) in
  if is_directory : bool then sfail EPERM
  else
    do! new <- resolve_at new_base new_path false in
    if is_some (r_node new) then sfail EEXIST
    else do! _ <- with_fs (Fs.link (r_parent new) (r_name new) node) in sret 0.
Definition sys_linkat (old_dirfd old_ptr new_dirfd new_ptr : Z) : sys Z :=
  do! old_path <- path_arg old_ptr in
  do! new_path <- path_arg new_ptr in
  link_path old_path new_path old_dirfd new_dirfd.

Definition symlink_path (target path : bytes) (dirfd : Z) : sys Z :=
  do! base <- dir_of dirfd in
  do! r <- resolve_at base path false in
  if is_some (r_node r) then sfail EEXIST
  else do! _ <- with_fs (Fs.create (r_parent r) (r_name r) (Symlink (to_vec target)) 511) in sret 0.
Definition sys_symlinkat (target_ptr dirfd path_ptr : Z) : sys Z :=
  do! target <- path_arg target_ptr in
  do! path <- path_arg path_ptr in
  symlink_path target path dirfd.

(** * The working directory and modes *)
Definition chdir_path (path : bytes) : sys Z :=
  do! base <- gets (λ w, cwd (proc w)) in
  do! r <- resolve_at base path true in
  do! node <- found r in
  do! is_directory <- query (λ w, is_dir (fs w) node) in
  if negb is_directory then sfail ENOTDIR
  else do! _ <- modify (λ w, put_proc (with_cwd node (proc w)) w) in sret 0.
Definition sys_chdir (path_ptr : Z) : sys Z := do! path <- path_arg path_ptr in chdir_path path.
Definition sys_fchdir (fd : Z) : sys Z :=
  do! x <- get_desc fd in
  match backing x.2 with
  | BDir node _ => do! _ <- modify (λ w, put_proc (with_cwd node (proc w)) w) in sret 0
  | _ => sfail ENOTDIR
  end.
(** One climb per node of the arena at most. *)
Definition sys_getcwd (buf size : Z) : sys Z :=
  do! path <- query (λ w, Fs.abs_path_of (S (length (nodes (fs w)))) (fs w) (cwd (proc w))) in
  let path := path ++ [0] in
  if as_usize size <? zlen path then sfail ERANGE
  else do! _ <- Copy.write_mem buf path in sret (zlen path).
Definition set_mode (node : nat) (md : Z) : sys () := update_node node (λ n, with_mode n (Z.land (wrap 32 md) 4095)).
Definition chmod_path (path : bytes) (dirfd md : Z) : sys Z :=
  do! base <- dir_of dirfd in
  do! r <- resolve_at base path true in
  do! node <- found r in
  do! _ <- set_mode node md in sret 0.
Definition sys_chmodat (dirfd path_ptr md : Z) : sys Z := do! path <- path_arg path_ptr in chmod_path path dirfd md.
Definition sys_fchmod (fd md : Z) : sys Z :=
  do! x <- get_desc fd in
  match backing x.2 with
  | BFile node | BDir node _ => do! _ <- set_mode node md in sret 0
  | _ => sret 0
  end.
End path.
End Path.
