(* ===== verification/PathSpec.v ===== *)
(** The calls that name files keep the kernel's own state consistent.

    [kernel_ok] ties the parts of the machine together: every index the
    processes, the open descriptions and the secret store hold is an index of
    the filesystem, every terminal they name exists, and the descriptor heap
    counts its references. Each call keeps it and returns a result or an
    errno, so no index of one component ever goes stale in another. *)

From S2P Require Import Prelude BTree Abi Digest Chunk Filesystem FilesystemInv FilesystemLinks FilesystemSteps Pager Net Cpu Fd FdInv FdSteps Proc Signals Text Manifest Authority Env GuestMem Inotify FileIo FileIoSpec PathCalls.

Section invariant.
Context `{Host} {B : Type} `{NetworkBroker B} {M V : Type} `{GuestMemory M V} `{MemoryTables M}.
Abbreviation machine := (Machine B M V).
Implicit Types w : machine.

Definition in_fs w (i : nat) : Prop := (i < length (nodes (fs w)))%nat.
Definition has_pty w (i : Z) : Prop := is_Some (ptys (heap (env w)) !! i).
Definition backing_ok w (b : Backing) : Prop :=
  match b with
  | BFile node | BDir node _ => in_fs w node
  | BPtyMaster i | BPtySlave i => has_pty w i
  | _ => True
  end.

Record kernel_ok w : Prop := {
  ko_fs : fs_good (fs w);
  ko_cwd : in_fs w (cwd (proc w));
  ko_heap : heap_inv [] [] (heap (env w));
  ko_table : live_table (fds (proc w)) (heap (env w));
  ko_open : ∀ i d n, ofds (heap (env w)) !! i = Some (d, n) → backing_ok w (backing d);
  ko_secrets : ∀ i h, host_secret_nodes (secrets (env w)) !! i = Some h → in_fs w i;
  ko_stdio : ∀ i, stdio_pty (console (env w)) = Some i → has_pty w i;
  ko_ids : ∀ id i, bt_get (pty_ids (console (env w))) id = Some i → has_pty w i
}.

(** From [w], a computation ends in a consistent machine whose filesystem has
    lost no index, and does not panic. *)
Definition runs {A} w (R : A → machine → Prop) (p : machine * res Z A) : Prop :=
  kernel_ok p.1 ∧ (length (nodes (fs w)) ≤ length (nodes (fs p.1)))%nat ∧
  match p.2 with Ok a => R a p.1 | Err _ => True | Panic => False end.
Definition done_ {A} (_ : A) (_ : machine) : Prop := True.

Lemma runs_bind {A C} w (m : stm machine Z A) (k : A → stm machine Z C) R Q :
  runs w R (m w) → (∀ a w', kernel_ok w' → (length (nodes (fs w)) ≤ length (nodes (fs w')))%nat → R a w' → runs w' Q (k a w')) →
  runs w Q (sbind m k w).
Proof.
  unfold sbind. intros (Hw & Hl & Hr) Hk. destruct (m w) as [w' [a|e|]]; cbn in *; [|by split|done].
  destruct (Hk a w') as (? & ? & ?); [done..|]. split; [done|]. split; [lia|done].
Qed.
Lemma runs_ret {A} w (R : A → machine → Prop) a : kernel_ok w → R a w → runs w R (sret a w).
Proof. intros. split; [done|]. split; [done|]. done. Qed.
Lemma runs_fail {A} w (R : A → machine → Prop) e : kernel_ok w → runs w R (sfail e w).
Proof. intros. split; [done|]. split; [done|]. done. Qed.
(** A look at the machine changes nothing. *)
Lemma runs_query {A C} w (f : machine → res Z A) (k : A → stm machine Z C) Q :
  kernel_ok w → f w ≠ Panic → (∀ a, f w = Ok a → runs w Q (k a w)) → runs w Q (sbind (query f) k w).
Proof.
  intros Hw Hf Hk. unfold sbind, query. destruct (f w) as [a|e|]; [by apply Hk|split; cbn; auto|done].
Qed.
Lemma runs_gets {A C} w (f : machine → A) (k : A → stm machine Z C) Q :
  runs w Q (k (f w) w) → runs w Q (sbind (gets f) k w).
Proof. done. Qed.
Lemma runs_modify w f (R : () → machine → Prop) :
  kernel_ok (f w) → (length (nodes (fs w)) ≤ length (nodes (fs (f w))))%nat → R () (f w) → runs w R (modify f w).
Proof. intros. split; [done|]. split; done. Qed.
Lemma runs_weaken {A} w (R R' : A → machine → Prop) p : (∀ a w', R a w' → R' a w') → runs w R p → runs w R' p.
Proof. intros Hr (? & ? & ?). split; [done|]. split; [done|]. destruct p.2; auto. Qed.

(** What the invariant looks at, from one machine to the next. *)
Lemma kernel_ok_step w w' :
  kernel_ok w → fs_good (fs w') → (length (nodes (fs w)) ≤ length (nodes (fs w')))%nat → in_fs w' (cwd (proc w')) →
  heap_inv [] [] (heap (env w')) → live_table (fds (proc w')) (heap (env w')) →
  (∀ i d n, ofds (heap (env w')) !! i = Some (d, n) → (∃ j d0 n0, ofds (heap (env w)) !! j = Some (d0, n0) ∧ backing d0 = backing d) ∨ backing_ok w' (backing d)) →
  (∀ i, has_pty w i → has_pty w' i) → host_secret_nodes (secrets (env w')) ⊆ host_secret_nodes (secrets (env w)) →
  (∀ i, stdio_pty (console (env w')) = Some i → has_pty w' i) →
  (∀ id i, bt_get (pty_ids (console (env w'))) id = Some i → has_pty w' i) → kernel_ok w'.
Proof.
  intros Hw Hf Hl Hc Hh Ht Ho Hp Hs Hq Hi. split; try done.
  - intros i d n Hd. destruct (Ho i d n Hd) as [(j & d0 & n0 & Hj & <-)|?]; [|done].
    pose proof (ko_open w Hw j d0 n0 Hj) as Hb. unfold backing_ok, in_fs in *. destruct (backing d0); auto; lia.
  - intros i h Hi'. assert (in_fs w i) by (eapply (ko_secrets w Hw), lookup_weaken; done). unfold in_fs in *. lia.
Qed.

(** * What each kind of update keeps *)
Lemma put_fs_ok w v : kernel_ok w → fs_good v → (length (nodes (fs w)) ≤ length (nodes v))%nat → kernel_ok (put_fs v w).
Proof.
  intros Hw Hv Hl. apply (kernel_ok_step w); try done; [| | | |by apply Hw|by apply Hw].
  - pose proof (ko_cwd w Hw) as Hc. unfold in_fs in *. rewrite fs_put_fs. change (proc (put_fs v w)) with (proc w). lia.
  - by apply Hw.
  - by apply Hw.
  - intros i d n Hd. left. by exists i, d, n.
Qed.
Lemma with_fs_runs {A} w (m : stm Vfs Z A) (R : A → Vfs → Prop) :
  kernel_ok w → links_wf (m (fs w)).1 → fs_ok (fs w) R (m (fs w)) → runs w (λ a w', R a (fs w')) (with_fs m w).
Proof.
  intros Hw Hg (Hv & Hl & Hr). unfold with_fs. destruct (m (fs w)) as [v r]. cbn in *.
  split; [by apply put_fs_ok|]. by split.
Qed.
(** Another heap over the same tables, descriptions and pipes. *)
Lemma on_heap_ok w h :
  kernel_ok w → ofds h = ofds (heap (env w)) → pipes h = pipes (heap (env w)) → tables h = tables (heap (env w)) →
  next_ref (heap (env w)) ≤ next_ref h → (∀ i, has_pty w i → is_Some (ptys h !! i)) → kernel_ok (on_heap (λ _, h) w).
Proof.
  intros Hw Eo Ep Et En Hp. apply (kernel_ok_step w); try done.
  - by apply Hw.
  - by apply Hw.
  - pose proof (ko_heap w Hw) as Hi. eapply (inv_transfer _ _ _ _ h Hi); [done..| | |].
    + intros i. unfold refs. by rewrite Et.
    + rewrite Et. apply Hi.
    + intros i Hn. rewrite Et. apply (hi_fresh _ _ _ Hi). lia.
  - destruct (ko_table w Hw) as [x Hx]. exists x. cbn. by rewrite Et.
  - intros i d n. cbn. rewrite Eo. intros Hd. left. by exists i, d, n.
  - intros i Hi. cbn in Hi. apply Hp. by apply (ko_stdio w Hw).
  - intros id i Hi. cbn in Hi. apply Hp. by apply (ko_ids w Hw id).
Qed.
Lemma notify_kernel_ok node name mask cookie w : kernel_ok w → kernel_ok (Watching.notify_inotify node name mask cookie w).
Proof.
  intros Hw. unfold Watching.notify_inotify. case_bool_decide; [done|].
  refine (on_heap_ok _ _ _ _ _ _ _ _); [|done..|cbn; lia|done]. destruct Hw. by split.
Qed.
Lemma notify_fs node name mask cookie w : fs (Watching.notify_inotify node name mask cookie w) = fs w.
Proof. apply notify_inotify_same. Qed.
Lemma notify_runs node name mask cookie w :
  kernel_ok w → runs w (λ _ w', fs w' = fs w) (modify (E:=Z) (Watching.notify_inotify node name mask cookie) w).
Proof. intros Hw. apply runs_modify; [by apply notify_kernel_ok|by rewrite notify_fs|apply notify_fs]. Qed.

Lemma get_desc_cases fd w : kernel_ok w →
  (∃ i d n, get_desc fd w = (w, Ok (i, d)) ∧ ofds (heap (env w)) !! i = Some (d, n) ∧ backing_ok w (backing d)) ∨
  (∃ e, get_desc fd w = (w, Err e)).
Proof.
  intros Hw. destruct (table_read _ _ (ko_table w Hw)) as (x & n & Et & Er).
  unfold get_desc. rewrite Er. cbn [rbind]. destruct (Table.get x fd) as [e|e|] eqn:Eg; cbn [rbind]; [|right; eauto|].
  - destruct (entry_live [] [] _ _ _ _ e (ko_heap w Hw) Et) as [[d c] Hd]; [by eapply table_get_elem|].
    left. exists (desc e), d, c. rewrite Hd. cbn. split_and!; [done..|]. by eapply (ko_open w Hw).
  - exfalso. unfold Table.get in Eg. by destruct (mjoin _).
Qed.

(** * Installing a description *)
Lemma ofd_drop_frame j (h : Heap B) :
  (∀ i d n, ofds (Fds.ofd_drop j h) !! i = Some (d, n) → ∃ n0, ofds h !! i = Some (d, n0)) ∧
  (∀ i, is_Some (ptys h !! i) → is_Some (ptys (Fds.ofd_drop j h) !! i)).
Proof.
  unfold Fds.ofd_drop. destruct (ofds h !! j) as [[d0 n0]|] eqn:E; [|split; [eauto|done]]. case_if; cbn.
  - set (h' := set_ofds _ _). destruct (drop_frame d0 h') as (-> & _). split.
    + intros i d n. cbn. rewrite lookup_delete_Some. naive_solver.
    + intros i Hi. unfold Fds.drop_description. destruct (backing d0); try done; repeat case_match; try done; cbn; by rewrite lookup_alter_is_Some.
  - split; [|done]. intros i d n. rewrite lookup_insert_Some. naive_solver.
Qed.
Lemma install_frame t b fl ce (h : Heap B) :
  (∀ i d n, ofds (Fds.install_fd t b fl ce h).1 !! i = Some (d, n) → (∃ n0, ofds h !! i = Some (d, n0)) ∨ backing d = b) ∧
  (∀ i, is_Some (ptys h !! i) → is_Some (ptys (Fds.install_fd t b fl ce h).1 !! i)).
Proof.
  unfold Fds.install_fd. destruct (Fds.ofd_new _ h) as [j h1] eqn:En.
  assert (Hn : (∀ i d n, ofds h1 !! i = Some (d, n) → (∃ n0, ofds h !! i = Some (d, n0)) ∨ backing d = b) ∧ ptys h1 = ptys h).
  { unfold Fds.ofd_new, Fds.fresh in En. injection En as <- <-. split; [|done]. intros i d n. cbn.
    rewrite lookup_insert_Some. naive_solver. }
  destruct Hn as [Hn Hp]. rewrite <- Hp. clear En Hp. unfold Fds.insert, Fds.insert_from, sbind, query.
  destruct (Fds.table t h1) as [x| |]; [|by split; [exact Hn|]..].
  destruct (Table.insert_from x 0 {| desc := j; cloexec := ce |}) as [x' [k|e|]]; cbn; [by split; [exact Hn|]|..].
  all: destruct (ofd_drop_frame j (Fds.put_table t x' h1)) as [Hd Hp]; split; [|done].
  all: intros i d n (n0 & Hi)%Hd; by apply (Hn i d n0).
Qed.
Lemma new_fd_runs w b fl ce :
  kernel_ok w → backing_ok w b → (∀ j, ¬ end_of j {| backing := b; offset := 0; flags := fl |}) →
  runs w done_ (Watching.new_fd b fl ce w).
Proof.
  intros Hw Hb Hp. unfold Watching.new_fd, with_heap.
  destruct (install_ok [] [] (fds (proc w)) b fl ce (heap (env w))) as (Hi & Ht & Hr); [apply inv_plain; [done|apply Hw]|apply Hw|].
  destruct (install_frame (fds (proc w)) b fl ce (heap (env w))) as [Ho Hq].
  destruct (Fds.install_fd _ b fl ce _) as [h r]. cbn [fst snd] in *.
  split; [|split; [cbn; done|by destruct r]].
  apply (kernel_ok_step w); try done; [apply Hw|apply Hw| | |].
  - intros i d n Hd. destruct (Ho i d n Hd) as [[n0 Hi0]|<-]; [left; by exists i, d, n0|right].
    unfold backing_ok, in_fs, has_pty in *. destruct (backing d); auto.
  - intros i Hs. apply Hq. by apply (ko_stdio w Hw).
  - intros id i Hs. apply Hq. by apply (ko_ids w Hw id).
Qed.

(** * Reclaiming *)
Lemma foldr_delete_subseteq (gone : list (nat * Z)) (m : gmap nat Z) : foldr (λ x m, delete x.1 m) m gone ⊆ m.
Proof. induction gone as [|x l IH]; cbn; [done|]. etrans; [apply delete_subseteq|done]. Qed.
Lemma secrets_valid v s : (∀ i h, host_secret_nodes s !! i = Some h → (i < length (nodes v))%nat) → Image_.secret_nodes_valid v s = true.
Proof.
  intros Hs. apply forallb_forall. intros [i h] Hi%list_elem_of_In%elem_of_map_to_list. apply bool_decide_eq_true_2.
  by apply lookup_lt_is_Some_2, (Hs i h).
Qed.
Lemma reclaim_image open i s : fs_good (vfs i) → (∀ j h, host_secret_nodes s !! j = Some h → (j < length (nodes (vfs i)))%nat) →
  ∃ i' s' n, Image_.reclaim_unlinked open (i, s) = Ok (i', s', n) ∧ fs_good (vfs i') ∧
    length (nodes (vfs i')) = length (nodes (vfs i)) ∧ host_secret_nodes s' ⊆ host_secret_nodes s.
Proof.
  intros [Hv Hl] Hs. unfold Image_.reclaim_unlinked. case_if; [by exists i, s, 0|].
  rewrite (secrets_valid _ _ Hs). cbn [negb].
  destruct (release_unreferenced_wf open (vfs i) Hv) as [Hv' Hn]. pose proof (release_unreferenced_links open (vfs i) Hl) as Hl'.
  destruct (Fs.release_unreferenced open (vfs i)) as [v n]. cbn [fst] in *. eexists _, _, _. split; [done|].
  split; [done|]. split; [done|apply foldr_delete_subseteq].
Qed.
Lemma put_store_ok w i s : kernel_ok w → fs_good (vfs i) → (length (nodes (fs w)) ≤ length (nodes (vfs i)))%nat →
  host_secret_nodes s ⊆ host_secret_nodes (secrets (env w)) → kernel_ok (Path.put_store (i, s) w).
Proof.
  intros Hw Hv Hl Hs. apply (kernel_ok_step w); try done; [|apply Hw..| |apply Hw|apply Hw].
  - pose proof (ko_cwd w Hw) as Hc. unfold in_fs in *. change (fs (Path.put_store (i, s) w)) with (vfs i).
    change (proc (Path.put_store (i, s) w)) with (proc w). lia.
  - intros j d n Hd. left. by exists j, d, n.
Qed.
Lemma reclaim_runs w : kernel_ok w → runs w done_ (Path.reclaim w).
Proof.
  intros Hw. unfold Path.reclaim.
  destruct (reclaim_image (Path.open_now w) (image (env w)) (secrets (env w))) as (i & s & n & -> & Hg & Hn & Hs);
    [apply Hw|apply Hw|].
  assert (length (nodes (fs w)) ≤ length (nodes (vfs i)))%nat by (unfold fs; lia).
  split; [by apply put_store_ok|by split].
Qed.

(** * The steps the calls share *)
Section looks.
Context {C : Type} (w : machine) (Hw : kernel_ok w) (Q : C → machine → Prop).

Lemma desc_runs fd (k : Z * Description → stm machine Z C) :
  (∀ i d n, ofds (heap (env w)) !! i = Some (d, n) → backing_ok w (backing d) → runs w Q (k (i, d) w)) →
  runs w Q (sbind (get_desc fd) k w).
Proof.
  intros Hk. unfold sbind. destruct (get_desc_cases fd w Hw) as [(i & d & n & -> & Hd & Hb)|[e ->]]; [by eapply Hk|by split].
Qed.
Lemma dir_runs fd (k : nat → stm machine Z C) :
  (∀ base, (Path.dir_of fd w).2 = Ok base → in_fs w base → runs w Q (k base w)) → runs w Q (sbind (Path.dir_of fd) k w).
Proof.
  unfold Path.dir_of. case_if; [intros Hk; by apply runs_gets, Hk, Hw|]. unfold sbind.
  destruct (get_desc_cases fd w Hw) as [(i & d & n & -> & Hd & Hok)|[e ->]]; [cbn [snd]|by split].
  destruct (backing d); intros Hk; try by split. by apply Hk.
Qed.
Lemma resolve_runs base path fl (k : Resolved → stm machine Z C) :
  in_fs w base →
  (∀ r, resolve (fs w) base path fl = Ok r → resolved_wf (fs w) r → in_fs w (r_parent r) →
     (∀ i, r_node r = Some i → in_fs w i) → runs w Q (k r w)) →
  runs w Q (sbind (Path.resolve_at base path fl) k w).
Proof.
  intros Hb Hk. destruct (ko_fs w Hw) as [Hv _].
  apply runs_query; [done|..]; destruct (resolve_cases (fs w) Hv base path fl Hb) as [(r & E & Hr & Hp & Hn)|[e E]]; rewrite E; try done.
  intros r' [= <-]. by apply Hk.
Qed.
Lemma found_runs r (k : nat → stm machine Z C) :
  (∀ i, r_node r = Some i → runs w Q (k i w)) → runs w Q (sbind (Path.found r) k w).
Proof.
  intros Hk. apply runs_query; [done|by destruct (r_node r)|]. intros i. destruct (r_node r); [|done]. intros [= <-]. by apply Hk.
Qed.
Lemma node_runs i (k : Node → stm machine Z C) :
  in_fs w i → (∀ n, nodes (fs w) !! i = Some n → node_wf (length (nodes (fs w))) n → runs w Q (k n w)) →
  runs w Q (sbind (Path.node_of i) k w).
Proof.
  intros Hi Hk. destruct (ko_fs w Hw) as [Hv _]. destruct (node_at_ok (fs w) Hv i Hi) as (n & Hn & E & Hwf).
  apply runs_query; [done|by rewrite E|]. intros n'. rewrite E. intros [= <-]. by apply Hk.
Qed.
Lemma is_dir_runs i (k : bool → stm machine Z C) :
  in_fs w i → (∀ b, runs w Q (k b w)) → runs w Q (sbind (query (λ w, is_dir (fs w) i)) k w).
Proof.
  intros Hi Hk. destruct (ko_fs w Hw) as [Hv _]. destruct (is_dir_ok (fs w) Hv i Hi) as (n & Hn & E).
  apply runs_query; [done|by rewrite E|auto].
Qed.
Lemma is_dir_opt_runs r (k : bool → stm machine Z C) :
  (∀ i, r = Some i → in_fs w i) → (∀ b, runs w Q (k b w)) → runs w Q (sbind (Path.is_dir_opt r) k w).
Proof. intros Hi Hk. destruct r as [i|]; [apply is_dir_runs; auto|apply Hk]. Qed.
End looks.

(** A rewritten node that keeps its count and names nothing new. *)
Lemma set_node_good v i n n' :
  fs_good v → nodes v !! i = Some n → node_wf (length (nodes v)) n' → nlink n' = nlink n →
  (∀ j, refs_in j (kind n') ≤ refs_in j (kind n)) → fs_good (set_node v i n').
Proof.
  intros [Hv [Hl Hd]] Hn Hwf Hk Hr. split; [by apply set_node_wf|]. split; [by eapply set_node_links|by eapply set_node_dead].
Qed.
Lemma update_runs w i f :
  kernel_ok w → in_fs w i →
  (∀ n, nodes (fs w) !! i = Some n → node_wf (length (nodes (fs w))) n →
    node_wf (length (nodes (fs w))) (f n) ∧ nlink (f n) = nlink n ∧ ∀ j, refs_in j (kind (f n)) ≤ refs_in j (kind n)) →
  runs w done_ (Path.update_node i f w).
Proof.
  intros Hw Hi Hf. unfold Path.update_node. apply node_runs; [done|done|]. intros n Hn Hwf. destruct (Hf n Hn Hwf) as (? & ? & ?).
  assert (length (nodes (fs w)) ≤ length (nodes (set_node (fs w) i (f n))))%nat by (by rewrite length_set_node).
  apply runs_modify; [|done|done]. apply put_fs_ok; [done| |done]. by apply (set_node_good _ _ n); [apply Hw|..].
Qed.
Lemma set_mode_runs w i md : kernel_ok w → in_fs w i → runs w done_ (Path.set_mode i md w).
Proof. intros Hw Hi. apply update_runs; [done..|]. intros n Hn Hwf. by split_and!. Qed.
Lemma notify_opt_runs w o mask : kernel_ok w → runs w done_ (Path.notify_opt o mask w).
Proof.
  intros Hw. destruct o; [|by apply runs_ret]. by eapply runs_weaken, notify_runs.
Qed.

(** * Opening *)
Lemma add_node_image path b md i w : fs_good (vfs i) →
  let x := on_vfs (CannotAdd path) (Fs.add_node path (File b) md) i in
  fs_good (vfs x.1) ∧ (length (nodes (vfs i)) ≤ length (nodes (vfs x.1)))%nat ∧ x.2 ≠ Panic.
Proof.
  intros [Hv Hl]. unfold on_vfs. destruct (exec_arena_ok (vfs i) (CAddNode path (File b) md) Hv I) as (Hv' & Hn & Hp).
  pose proof (exec_links_wf (vfs i) (CAddNode path (File b) md) Hv Hl I) as Hl'. cbn [exec FilesystemSteps.discard fst snd] in *.
  destruct (Fs.add_node path (File b) md (vfs i)) as [v r]. cbn in *. split_and!; [done..|]. by destruct r.
Qed.
Lemma add_file_runs w path content : kernel_ok w → runs w done_ (Path.add_file_ignored path content w).
Proof.
  intros Hw. unfold Path.add_file_ignored, Image_.add_file.
  destruct (match manifest (image (env w)) with Some _ => _ | None => _ end) as [u|e|] eqn:Ec.
  - unfold Image_.then_reclaim, Image_.discard, sbind.
    pose proof (add_node_image path (to_vec content) 292 (image (env w)) w (ko_fs w Hw)) as Hx. cbv zeta in Hx.
    destruct (on_vfs _ _ (image (env w))) as [i r]. destruct Hx as (Hg & Hn & Hp). cbn [fst snd] in *.
    destruct (reclaim_image (Path.open_now w) i (secrets (env w))) as (i' & s & n & Er & Hg' & Hn' & Hs); [done| |].
    { intros j h Hj%(ko_secrets w Hw). unfold in_fs, fs in *. lia. }
    assert (length (nodes (fs w)) ≤ length (nodes (vfs i')))%nat by (unfold fs; lia).
    destruct r; unfold sret; [rewrite Er|rewrite Er|done]; (split; [by apply put_store_ok|by split]).
  - split; [|split; [done|done]]. by apply put_store_ok; [|apply Hw|..].
  - exfalso. destruct (manifest _); [|done]. unfold Image_.check_against_manifest, Manifest_files.check in Ec.
    repeat case_match; done.
Qed.
Lemma refresh_runs w path : kernel_ok w → runs w done_ (Path.refresh_procfs path w).
Proof.
  intros Hw. unfold Path.refresh_procfs. destruct (_ ≫= _) as [content|]; [|by apply runs_ret].
  set (full := if Path.is_some _ then _ else path). clearbody full. destruct (ko_fs w Hw) as [Hv Hl].
  eapply runs_bind; [by eapply with_fs_runs, take_file_contents_ok; [| apply take_file_contents_links|]|].
  intros taken w' Hw' _ _. destruct taken as [c|]; [|by apply add_file_runs]. destruct (ko_fs w' Hw') as [Hv' Hl'].
  eapply runs_weaken; [|by eapply with_fs_runs, put_file_contents_ok; [|apply put_file_contents_links|]]. done.
Qed.
Lemma open_slave_runs w pty fg fl : kernel_ok w → has_pty w pty → runs w done_ (Path.open_slave pty fg fl w).
Proof.
  intros Hw [p Hp]. unfold Path.open_slave. apply runs_query; [done|by rewrite Hp|]. intros p' _.
  set (h := set_ptys (alter (slave_opened fg) pty (ptys (heap (env w)))) (heap (env w))).
  assert (Hw' : kernel_ok (on_heap (λ _, h) w)).
  { apply on_heap_ok; [done..| |]; [cbn; lia|]. intros i Hi. cbn. by rewrite lookup_alter_is_Some. }
  eapply (runs_bind _ _ _ (λ _ w', has_pty w' pty)).
  { refine (runs_modify _ _ _ Hw' _ _); [done|]. unfold has_pty. cbn. rewrite lookup_alter_is_Some. by exists p. }
  intros [] w1 Hw1 _ Hb. apply new_fd_runs; [done..|]. intros j [E|E]; discriminate E.
Qed.

Lemma open_node_runs w r fl md : kernel_ok w → in_fs w (r_parent r) → (∀ i, r_node r = Some i → in_fs w i) →
  runs w (λ i w', in_fs w' i) (Path.open_node r fl md w).
Proof.
  intros Hw Hp Hi. unfold Path.open_node. destruct (r_node r) as [i|].
  { case_if; [by apply runs_fail|apply runs_ret; auto]. }
  case_if; [by apply runs_fail|]. apply runs_gets. destruct (ko_fs w Hw) as [Hv Hl].
  eapply runs_bind; [by eapply with_fs_runs, create_ok; [|apply create_links|..]|].
  intros i w' Hw' _ Hi'. eapply runs_bind; [by apply notify_runs|]. intros [] w2 Hw2 _ E. apply runs_ret; [done|].
  unfold in_fs. by rewrite E.
Qed.
Lemma open_file_runs w i fl : kernel_ok w → in_fs w i → runs w (λ b w', backing_ok w' b ∧ ∀ j fl, ¬ end_of j {| backing := b; offset := 0; flags := fl |}) (Path.open_file i fl w).
Proof.
  intros Hw Hi. unfold Path.open_file. case_if; [by apply runs_fail|]. apply runs_gets, runs_gets. case_if; [by apply runs_fail|].
  eapply (runs_bind _ _ _ (λ _ w', in_fs w' i)).
  - case_if; [|by apply runs_ret]. pose proof (update_runs w i (λ n, with_kind n (File vec_new)) Hw Hi) as Hu.
    destruct Hu as (Hu & Hn & Hr); [|split; [done|split; [done|]]].
    + intros n Hn Hwf. split_and!; [|done|]; [by apply with_kind_wf|]. intros j. apply refs_in_nonneg.
    + destruct (_.2); [|done..]. unfold in_fs in *. lia.
  - intros [] w' Hw' _ Hi'. apply runs_ret; [done|]. split; [done|]. intros j ? [E|E]; discriminate E.
Qed.
Lemma open_ptmx_runs w : kernel_ok w → next_pty_id (console (env w)) < U64_MAX →
  runs w (λ b w', backing_ok w' b ∧ ∀ j fl, ¬ end_of j {| backing := b; offset := 0; flags := fl |}) (Path.open_ptmx w).
Proof.
  intros Hw Hid. unfold Path.open_ptmx, add64. rewrite (proj2 (Z.leb_le _ _)) by lia. cbn [Fds.fresh].
  set (i := next_ref (heap (env w))). set (h := set_ptys _ _).
  assert (Hh : ∀ j, has_pty w j → is_Some (ptys h !! j)).
  { intros j Hj. cbn. rewrite lookup_insert_is_Some'. by right. }
  assert (Hw' : kernel_ok (on_heap (λ _, h) w)) by (apply on_heap_ok; [done..|cbn; lia|done]).
  assert (Hi : is_Some (ptys h !! i)) by (cbn; rewrite lookup_insert_eq; by eexists).
  split; [|split; [done|split; [exact Hi|]]]; [|intros j fl [E|E]; discriminate E].
  destruct Hw' as [? ? ? ? Ho ? ? Hids]. split; try done.
  intros id j. cbn. rewrite bt_get_insert. case_decide; [intros [= <-]; exact Hi|]. apply Hids.
Qed.

Lemma open_backing_runs w i fl : kernel_ok w → in_fs w i → next_pty_id (console (env w)) < U64_MAX →
  runs w (λ b w', backing_ok w' b ∧ ∀ j fl, ¬ end_of j {| backing := b; offset := 0; flags := fl |}) (Path.open_backing i fl w).
Proof.
  intros Hw Hi Hid. unfold Path.open_backing. apply node_runs; [done..|]. intros n Hn _.
  destruct (kind n) as [es|d|c|t|[]]; try by apply open_file_runs.
  1: case_if; [by apply runs_fail|].
  2: by apply runs_fail.
  all: try by apply open_ptmx_runs.
  all: apply runs_ret; [done|]; split; [done|]; intros j ? [E|E]; discriminate E.
Qed.

(** Neither the [/proc] snapshot nor a created file hands out a terminal. *)
Definition same_console w w' : Prop := console (env w') = console (env w).
#[local] Instance same_console_preorder : PreOrder same_console.
Proof. split; [done|]. unfold same_console. intros w1 w2 w3 E1 E2. by rewrite E2. Qed.
Lemma with_fs_console {A} (m : stm Vfs Z A) : keeps same_console (with_fs m).
Proof. intros w. unfold with_fs. by destruct (m (fs w)). Qed.
#[local] Hint Resolve with_fs_console : keeps.
Lemma refresh_console path : keeps same_console (Path.refresh_procfs path).
Proof.
  intros w. unfold Path.refresh_procfs. destruct (_ ≫= _) as [content|]; [|done].
  refine (keeps_bind same_console _ _ (with_fs_console _) _ w). intros [c|]; [apply with_fs_console|].
  intros w'. unfold Path.add_file_ignored. by destruct (Image_.add_file _ _ _ _ _) as [x []].
Qed.
Lemma open_node_console r fl md : keeps same_console (Path.open_node r fl md).
Proof.
  unfold Path.open_node. keep. intros w. unfold Watching.notify_inotify. unfold same_console. by case_bool_decide.
Qed.
Lemma runs_and {A} w (R : A → machine → Prop) (P : machine → Prop) p : runs w R p → P p.1 → runs w (λ a w', R a w' ∧ P w') p.
Proof. intros (? & ? & ?) ?. split; [done|]. split; [done|]. by destruct p.2. Qed.
Lemma pts_id_ok w r : kernel_ok w → Path.pts_id w r ≠ Panic.
Proof.
  intros Hw. unfold Path.pts_id. destruct (r_node r); [done|].
  pose proof (resolve_wf (fs w) (proj1 (ko_fs w Hw)) ROOT (bytes_of_string "/dev/pts") true (root_bound _ (proj1 (ko_fs w Hw)))).
  destruct (resolve _ _ _ _); [by case_bool_decide|done..].
Qed.

Lemma open_runs w path dirfd fl md : kernel_ok w → next_pty_id (console (env w)) < U64_MAX →
  runs w done_ (Path.open_path path dirfd fl md w).
Proof.
  intros Hw Hid. unfold Path.open_path.
  eapply runs_bind; [apply (runs_and w done_ (same_console w)); [by apply refresh_runs|apply refresh_console]|].
  clear Hw. intros [] w1 Hw _ [_ E1]. unfold same_console in E1. rewrite <- E1 in Hid. clear w E1. rename w1 into w.
  apply dir_runs; [done|]. intros base _ Hb. apply resolve_runs; [done..|]. intros r _ _ Hp Hi.
  assert (Hnode : ∀ i, r_node r = Some i → in_fs w i) by done.
  assert (Hrest : runs w done_ ((do! id <- query (λ w, Path.pts_id w r) in
    match id with
    | Some id => do! pty <- query (λ w, ok_or (bt_get (pty_ids (console (env w))) id) ENOENT) in
                 do! pg <- gets (λ w, pgid (proc w)) in Path.open_slave pty (Some pg) fl
    | None => do! node <- Path.open_node r fl md in do! b <- Path.open_backing node fl in Path.install b fl
    end) w)).
  { apply runs_query; [done|by apply pts_id_ok|]. intros [id|] _.
    - apply runs_query; [done|by destruct (bt_get _ _)|]. intros pty. destruct (bt_get _ _) as [y|] eqn:Eg; [|done].
      intros [= <-]. apply runs_gets, open_slave_runs; [done|]. by apply (ko_ids w Hw id).
    - eapply runs_bind; [apply (runs_and w (λ i w', in_fs w' i) (same_console w)); [by apply open_node_runs|apply open_node_console]|].
      intros i w' Hw' _ [Hi' E']. eapply runs_bind; [apply open_backing_runs; [done..|by rewrite E']|].
      intros b w2 Hw2 _ [Hb2 Hpipe]. by apply new_fd_runs. }
  unfold Path.controlling_tty. destruct (r_node r) as [i|] eqn:En; [|exact Hrest].
  unfold sbind at 1. destruct (node_at_ok (fs w) (proj1 (ko_fs w Hw)) i) as (n & _ & E & _); [by apply Hnode|].
  unfold sbind at 1, Path.node_of, query at 1. rewrite E. destruct (kind n) as [| | | |[]]; try exact Hrest.
  unfold gets at 1. destruct (stdio_pty _) as [pty|] eqn:Es; [|exact Hrest]. apply open_slave_runs; [done|]. by apply (ko_stdio w Hw).
Qed.

(** * Changing the tree *)
Lemma create_runs w p name k md : kernel_ok w → in_fs w p → empty_kind k →
  runs w done_ ((do! _ <- with_fs (Fs.create p name k md) in sret 0) w).
Proof.
  intros Hw Hp Hk. destruct (ko_fs w Hw) as [Hv Hl].
  eapply runs_bind; [by eapply with_fs_runs, create_ok; [|apply create_links|..|apply empty_kind_ok]|].
  intros i w' Hw' _ _. by apply runs_ret.
Qed.
Lemma mkdir_runs w path dirfd md : kernel_ok w → runs w done_ (Path.mkdir_path path dirfd md w).
Proof.
  intros Hw. unfold Path.mkdir_path. apply dir_runs; [done|]. intros base _ Hb. apply resolve_runs; [done..|].
  intros r _ _ Hp _. case_if; [by apply runs_fail|]. by apply runs_gets, create_runs.
Qed.
Lemma symlink_runs w target path dirfd : kernel_ok w → runs w done_ (Path.symlink_path target path dirfd w).
Proof.
  intros Hw. unfold Path.symlink_path. apply dir_runs; [done|]. intros base _ Hb. apply resolve_runs; [done..|].
  intros r _ _ Hp _. case_if; [by apply runs_fail|]. by apply create_runs.
Qed.
Lemma unlink_runs w path dirfd fl : kernel_ok w → runs w done_ (Path.unlink_path path dirfd fl w).
Proof.
  intros Hw. unfold Path.unlink_path. apply dir_runs; [done|]. intros base _ Hb. apply resolve_runs; [done..|].
  intros r _ _ Hp Hi. apply is_dir_opt_runs; [done..|]. intros b. destruct (ko_fs w Hw) as [Hv Hl].
  eapply runs_bind; [by eapply with_fs_runs, unlink_ok; [|apply unlink_links|..]|]. intros _ w1 Hw1 _ _.
  eapply runs_bind; [by apply notify_runs|]. intros [] w2 Hw2 _ _. eapply runs_bind; [by apply notify_opt_runs|].
  intros _ w3 Hw3 _ _. eapply runs_bind; [by apply reclaim_runs|]. intros _ w4 Hw4 _ _. by apply runs_ret.
Qed.
Lemma rename_runs w op np od nd : kernel_ok w → runs w done_ (Path.rename_path op np od nd w).
Proof.
  intros Hw. unfold Path.rename_path. apply dir_runs; [done|]. intros ob _ Hob. apply dir_runs; [done|]. intros nb _ Hnb.
  apply resolve_runs; [done..|]. intros old _ _ Hop Hoi. apply resolve_runs; [done..|]. intros new _ _ Hnp _.
  apply is_dir_opt_runs; [done..|]. intros b. destruct (ko_fs w Hw) as [Hv Hl].
  eapply runs_bind; [by eapply with_fs_runs, rename_ok; [|apply rename_links|..]|]. intros _ w1 Hw1 _ _.
  eapply runs_bind; [by apply reclaim_runs|]. intros _ w2 Hw2 _ _.
  eapply (runs_bind _ _ _ done_); [by split; [destruct Hw2; split|split]|]. intros c w3 Hw3 _ _.
  eapply runs_bind; [by apply notify_runs|]. intros [] w4 Hw4 _ _. eapply runs_bind; [by apply notify_runs|].
  intros [] w5 Hw5 _ _. eapply runs_bind; [by apply notify_opt_runs|]. intros _ w6 Hw6 _ _. by apply runs_ret.
Qed.

(** What [linkat] links has a name, and room in its count for another. *)
Definition linkable w (path : bytes) (dirfd : Z) : Prop :=
  ∀ base r i, (Path.dir_of dirfd w).2 = Ok base → resolve (fs w) base path true = Ok r → r_node r = Some i →
    is_dir (fs w) i = Ok false →
    (∃ p nm, lookup_entry (fs w) p nm = Some i) ∧ ∃ n, nodes (fs w) !! i = Some n ∧ nlink n < U64_MAX.
Lemma link_runs w op np od nd : kernel_ok w → linkable w op od → runs w done_ (Path.link_path op np od nd w).
Proof.
  intros Hw Hlk. unfold Path.link_path. apply dir_runs; [done|]. intros ob Eo Hob. apply dir_runs; [done|]. intros nb _ Hnb.
  apply resolve_runs; [done..|]. intros old Er _ Hop Hoi. apply found_runs; [done|]. intros i Ei.
  destruct (ko_fs w Hw) as [Hv Hl]. destruct (is_dir_ok (fs w) Hv i (Hoi i Ei)) as (n0 & _ & Ed).
  apply runs_query; [done|by rewrite Ed|]. intros [] Eb; [by apply runs_fail|].
  destruct (Hlk ob old i Eo Er Ei Eb) as ((p & nm & Hnm) & n & Hn & Hmax).
  apply resolve_runs; [done..|]. intros new _ _ Hnp _. case_if; [by apply runs_fail|].
  eapply runs_bind; [eapply with_fs_runs, link_ok; [done|by eapply link_links|done|done|by exists n]|].
  intros _ w1 Hw1 _ _. by apply runs_ret.
Qed.

(** * The working directory, modes and positions *)
Lemma with_cwd_runs w i : kernel_ok w → in_fs w i →
  runs w done_ ((do! _ <- modify (λ w, put_proc (with_cwd i (proc w)) w) in sret 0) w).
Proof.
  intros Hw Hi. split; [|by split]. destruct Hw. by split.
Qed.
Lemma chdir_runs w path : kernel_ok w → runs w done_ (Path.chdir_path path w).
Proof.
  intros Hw. unfold Path.chdir_path. apply runs_gets, resolve_runs; [done|apply Hw|]. intros r _ _ _ Hi.
  apply found_runs; [done|]. intros i Ei. apply is_dir_runs; [done|auto|]. intros b. case_if; [by apply runs_fail|].
  apply with_cwd_runs; auto.
Qed.
Lemma fchdir_runs w fd : kernel_ok w → runs w done_ (Path.sys_fchdir fd w).
Proof.
  intros Hw. apply desc_runs; [done|]. intros i d n Hd Hb. cbn [snd]. destruct (backing d); try by apply runs_fail.
  by apply with_cwd_runs.
Qed.
Lemma chmod_runs w path dirfd md : kernel_ok w → runs w done_ (Path.chmod_path path dirfd md w).
Proof.
  intros Hw. unfold Path.chmod_path. apply dir_runs; [done|]. intros base _ Hb. apply resolve_runs; [done..|].
  intros r _ _ _ Hi. apply found_runs; [done|]. intros i Ei. eapply runs_bind; [apply set_mode_runs; auto|].
  intros _ w1 Hw1 _ _. by apply runs_ret.
Qed.
Lemma fchmod_runs w fd md : kernel_ok w → runs w done_ (Path.sys_fchmod fd md w).
Proof.
  intros Hw. apply desc_runs; [done|]. intros i d n Hd Hb. cbn [snd]. destruct (backing d); try by apply runs_ret.
  all: eapply runs_bind; [by apply set_mode_runs|]; intros _ w1 Hw1 _ _; by apply runs_ret.
Qed.

(** A description rewritten in place stays the same end of the same pipe. *)
Lemma put_desc_inv (h : Heap B) i d d' n :
  heap_inv [] [] h → ofds h !! i = Some (d, n) → (∀ j, is_reader j d' = is_reader j d ∧ is_writer j d' = is_writer j d) →
  heap_inv [] [] (set_ofds (alter (λ x, (d', x.2)) i (ofds h)) h).
Proof.
  intros [Hc Hl Ht Hp He Hpr Hf] Hi Hd. set (o := alter (λ x, (d', x.2)) i (ofds h)).
  assert (Hlk : ∀ j e m, o !! j = Some (e, m) → ∃ e0, ofds h !! j = Some (e0, m) ∧ ∀ k, end_of k e → end_of k e0).
  { intros j e m. unfold o. rewrite lookup_alter. case_decide; [subst; rewrite Hi; cbn|by eauto].
    intros [= <- <-]. exists d. split; [done|]. intros k. unfold end_of. destruct (Hd k) as [-> ->]. done. }
  assert (Hs : ∀ f : Description → bool, f d' = f d → msum (λ x, b2z (f x.1)) o = msum (λ x, b2z (f x.1)) (ofds h)).
  { intros f E. unfold o. rewrite (msum_alter _ _ _ _ _ Hi). cbn. rewrite E. lia. }
  split; cbn [ofds pipes tables next_ref set_ofds]; try done.
  - intros j e m (e0 & Hj & _)%Hlk. by eapply Hc.
  - intros j Hj. unfold o. rewrite lookup_alter_is_Some. by apply Hl.
  - intros j p Hj. unfold readers, writers. cbn [ofds set_ofds]. rewrite !Hs by apply Hd. by apply Hp.
  - intros j k e m (e0 & Hj & Hk)%Hlk Hend. by eapply He, Hk.
  - intros j Hj. unfold o. rewrite lookup_alter_None. by apply Hf.
Qed.
Lemma put_desc_ok w i d d' n :
  kernel_ok w → ofds (heap (env w)) !! i = Some (d, n) → (∀ j, is_reader j d' = is_reader j d ∧ is_writer j d' = is_writer j d) →
  backing_ok w (backing d') → kernel_ok (put_desc i d' w).
Proof.
  intros Hw Hi Hd Hb. apply (kernel_ok_step w); try done; [apply Hw|apply Hw| |apply Hw| |apply Hw|apply Hw].
  - by eapply put_desc_inv; [apply Hw|..].
  - intros j e m. cbn. rewrite lookup_alter. case_decide.
    + subst. rewrite Hi. intros [= <- <-]. by right.
    + intros Hj. left. by exists j, e, m.
Qed.
Lemma seek_size_ok w i d : kernel_ok w → backing_ok w (backing d) → ∃ r, Path.seek_size i d w = (w, r) ∧ r ≠ Panic.
Proof.
  intros Hw Hb. unfold Path.seek_size. destruct (backing d) as [|node| | | | | | | | | | |]; try by eexists.
  unfold sbind at 1, gets at 1. case_if.
  - unfold sbind, query. destruct (ok_or _ _) eqn:E; eexists; (split; [done|]); try done. by destruct (Io.secret_of node w).
  - destruct (node_at_ok (fs w) (proj1 (ko_fs w Hw)) node Hb) as (n & _ & E & _). unfold sbind, Path.node_of, query.
    rewrite E. by eexists.
Qed.
Lemma seek_runs w fd off whence : kernel_ok w → runs w done_ (Path.sys_lseek fd off whence w).
Proof.
  intros Hw. apply desc_runs; [done|]. intros i d n Hd Hb. cbn [fst snd].
  assert (Hseek : runs w done_ ((do! size <- Path.seek_size i d in
      do! base <- (if whence =? SEEK_SET then sret 0
                   else if whence =? SEEK_CUR then sret (as_i64 (offset d))
                   else if whence =? SEEK_END then sret (as_i64 size) else sfail EINVAL) in
      do! target <- query (λ _, ok_or (Path.checked_add_i64 base (as_i64 off)) EINVAL) in
      if target <? 0 then sfail EINVAL else do! _ <- modify (put_desc i (put_offset target d)) in sret target) w)).
  { unfold sbind at 1. destruct (seek_size_ok w i d Hw Hb) as (r & -> & Hr). destruct r as [size|e|]; [|by split|done].
    eapply (runs_bind _ _ _ (λ _ w', w' = w)); [|intros base ? _ _ ->].
    { repeat case_if; by split. }
    apply runs_query; [done|by destruct (Path.checked_add_i64 _ _)|]. intros target _. case_if; [by apply runs_fail|].
    split; [|by split]. by eapply put_desc_ok. }
  destruct (backing d) as [| |node c| | | | | | | | | |] eqn:Eb; try exact Hseek.
  case_if; [|by apply runs_fail]. split; [|by split]. eapply put_desc_ok; [done..| |exact Hb].
  intros j. unfold is_reader, is_writer. by rewrite Eb.
Qed.
End invariant.

(** * The system *)
Inductive path_call :=
| POpen (path : bytes) (dirfd fl md : Z)
| PMkdir (path : bytes) (dirfd md : Z)
| PSymlink (target path : bytes) (dirfd : Z)
| PLink (old_path new_path : bytes) (old_dirfd new_dirfd : Z)
| PUnlink (path : bytes) (dirfd fl : Z)
| PRename (old_path new_path : bytes) (old_dirfd new_dirfd : Z)
| PChdir (path : bytes)
| PFchdir (fd : Z)
| PChmod (path : bytes) (dirfd md : Z)
| PFchmod (fd md : Z)
| PSeek (fd off whence : Z).

Section system.
Context `{Host} {B : Type} `{NetworkBroker B} {M V : Type} `{GuestMemory M V} `{MemoryTables M}.
Abbreviation machine := (Machine B M V).

Definition exec_path (c : path_call) : stm machine Z Z :=
  match c with
  | POpen path dirfd fl md => Path.open_path path dirfd fl md
  | PMkdir path dirfd md => Path.mkdir_path path dirfd md
  | PSymlink target path dirfd => Path.symlink_path target path dirfd
  | PLink op np od nd => Path.link_path op np od nd
  | PUnlink path dirfd fl => Path.unlink_path path dirfd fl
  | PRename op np od nd => Path.rename_path op np od nd
  | PChdir path => Path.chdir_path path
  | PFchdir fd => Path.sys_fchdir fd
  | PChmod path dirfd md => Path.chmod_path path dirfd md
  | PFchmod fd md => Path.sys_fchmod fd md
  | PSeek fd off whence => Path.sys_lseek fd off whence
  end.
Definition path_call_ok (w : machine) (c : path_call) : Prop :=
  match c with
  | POpen _ _ _ _ => next_pty_id (console (env w)) < U64_MAX
  | PLink op _ od _ => linkable w op od
  | _ => True
  end.
Inductive path_step (w : machine) : machine → Prop :=
| path_step_call c : path_call_ok w c → path_step w (exec_path c w).1.

Lemma exec_path_runs w c : kernel_ok w → path_call_ok w c → runs w done_ (exec_path c w).
Proof.
  intros Hw. destruct c; cbn [exec_path path_call_ok]; intros Hc;
    eauto using open_runs, mkdir_runs, symlink_runs, link_runs, unlink_runs, rename_runs, chdir_runs, fchdir_runs, chmod_runs, fchmod_runs, seek_runs.
Qed.
Lemma path_steps_ok w w' : kernel_ok w → rtc path_step w w' →
  kernel_ok w' ∧ (length (nodes (fs w)) ≤ length (nodes (fs w')))%nat.
Proof.
  intros Hw Hs. induction Hs as [|w1 w2 w3 [c Hc] _ IH]; [done|].
  destruct (exec_path_runs w1 c Hw Hc) as (Hw2 & Hl & _). destruct (IH Hw2). split; [done|lia].
Qed.
End system.

(** C4. The calls that name files keep every index in the kernel meaningful.
    In a machine reached by any sequence of opens, creations, links, removals,
    renames, seeks, mode and directory changes from a consistent one (the
    filesystem is well formed with exact link counts; the working directory,
    the nodes behind open descriptions and secrets are nodes of the filesystem;
    the terminals descriptions and the console name exist; description counts
    are exact), every further call, on any path and any descriptor, returns a
    value or an errno and never panics, and leaves a consistent machine in
    which every node that could be named before still can be. *)
Theorem path_calls_type_safe `{Host} {B} `{NetworkBroker B} {M V} `{GuestMemory M V} `{MemoryTables M}
    (w0 w : Machine B M V) c :
  kernel_ok w0 → rtc path_step w0 w → path_call_ok w c →
  let '(w', r) := exec_path c w in
  r ≠ Panic ∧ kernel_ok w' ∧ (∀ i, in_fs w0 i → in_fs w' i).
Proof.
  intros Hw Hs Hc. destruct (path_steps_ok w0 w Hw Hs) as [Hw' Hl].
  destruct (exec_path_runs w c Hw' Hc) as (Hk & Hl' & Hr). destruct (exec_path c w) as [w' r]. cbn [fst snd] in *.
  split; [by intros ->|]. split; [done|]. unfold in_fs. lia.
Qed.

(** * The machine at start *)
Lemma std_backing `{Host} {B} `{NetworkBroker B} (b : B) i d n :
  ofds (Fds.table_new (heap_new b)).2 !! i = Some (d, n) → ∃ s, backing d = BStd s.
Proof.
  unfold Fds.table_new, Fds.std_entry, Fds.ofd_new, Fds.fresh, heap_new. cbn -[insert]. rewrite !lookup_insert_Some.
  intros [[_ [= <- <-]]|[_ [[_ [= <- <-]]|[_ [[_ [= <- <-]]|[_ Hd]]]]]]; cbn; [by eexists..|]. by rewrite lookup_empty in Hd.
Qed.
Lemma env_new_ok `{Host} {B} `{NetworkBroker B} {M V} `{GuestMemory M V} `{MemoryTables M} (b : B) c (m : M) :
  kernel_ok {| env := env_new (V:=V) b; core := c; mem := m |}.
Proof.
  set (w := {| env := env_new b; core := c; mem := m |}).
  assert (Eh : heap (env w) = (Fds.table_new (heap_new b)).2) by reflexivity.
  assert (Ef : fs w = Fs.new) by reflexivity. assert (Ec : stdio_pty (console (env w)) = None) by reflexivity.
  assert (Ei : pty_ids (console (env w)) = []) by reflexivity. assert (Es : host_secret_nodes (secrets (env w)) = ∅) by reflexivity.
  assert (Et : live_table (fds (proc w)) (Fds.table_new (heap_new b)).2) by (by eexists).
  assert (Ew : cwd (proc w) = ROOT) by reflexivity. clearbody w.
  split; unfold in_fs; rewrite ?Eh, ?Ef, ?Ec, ?Ei, ?Es, ?Ew.
  - apply new_good.
  - apply root_bound, new_good.
  - exact (table_new_ok _ (heap_new_inv b)).
  - exact Et.
  - intros i d n Hd. destruct (std_backing b i d n Hd) as [s ->]. exact I.
  - intros i h. rewrite lookup_empty. discriminate 1.
  - discriminate 1.
  - discriminate 1.
Qed.

(** Memory as a finite map has one range per address. *)
#[export] Instance flat_tables : MemoryTables (gmap Z Z) := {
  mapped_ranges m := (λ x, (x.1, x.1)) <$> map_to_list m;
  perm_at _ _ := Z.lor Perm.READ Perm.WRITE;
  total_pages _ := 0;
  capacity _ := 0
}.
Definition fresh_machine : Machine HostBroker (gmap Z Z) (gmap Z Z) :=
  {| env := env_new Host_broker.new; core := core file_machine; mem := ∅ |}.
(** A directory is made and entered, a file made in it; then the name of the
    file is opened once more. *)
Definition in_directory : Machine HostBroker (gmap Z Z) (gmap Z Z) :=
  (exec_path (POpen (Fs.str "f") AT_FDCWD (Z.lor O_CREAT O_RDWR) 420)
     (exec_path (PChdir (Fs.str "/tmp/d")) (exec_path (PMkdir (Fs.str "/tmp/d") AT_FDCWD 511) fresh_machine).1).1).1.
Lemma in_directory_steps : rtc path_step fresh_machine in_directory.
Proof.
  eapply rtc_l; [exact (path_step_call fresh_machine (PMkdir (Fs.str "/tmp/d") AT_FDCWD 511) I)|].
  eapply rtc_l; [exact (path_step_call _ (PChdir (Fs.str "/tmp/d")) I)|].
  apply rtc_once. refine (path_step_call _ (POpen (Fs.str "f") AT_FDCWD (Z.lor O_CREAT O_RDWR) 420) _). vm_compute. reflexivity.
Qed.
Lemma path_calls_type_safe_witness :
  ∃ w', exec_path (POpen (Fs.str "../d/./f") AT_FDCWD O_RDONLY 0) in_directory = (w', Ok 4) ∧ kernel_ok w'.
Proof.
  pose proof (path_calls_type_safe fresh_machine in_directory (POpen (Fs.str "../d/./f") AT_FDCWD O_RDONLY 0)
    (env_new_ok _ _ _) in_directory_steps ltac:(vm_compute; reflexivity)) as Hs.
  destruct (exec_path (POpen (Fs.str "../d/./f") AT_FDCWD O_RDONLY 0) in_directory) as [w' r] eqn:E.
  assert (r = Ok 4) as -> by (change r with ((w', r).2); rewrite <- E; vm_compute; reflexivity).
  exists w'. split; [reflexivity|exact (proj1 (proj2 Hs))].
Defined.

(** A directory counts itself, so removing it leaves one link and never
    releases its node: a process standing in it still creates files there, which
    no path from the root reaches and nothing reclaims. *)
Example removed_cwd :
  let w := on_heap (λ h, (Fds.close (fds (proc in_directory)) 3 h).1) in_directory in
  let w := (exec_path (PUnlink (Fs.str "f") AT_FDCWD 0) w).1 in
  let '(w, removed) := exec_path (PUnlink (Fs.str "/tmp/d") AT_FDCWD AT_REMOVEDIR) w in
  let '(w, created) := exec_path (POpen (Fs.str "g") AT_FDCWD (Z.lor O_CREAT O_RDWR) 420) w in
  removed = Ok 0 ∧ created = Ok 3 ∧ nlink <$> nodes (fs w) !! 17%nat = Some 1 ∧ lookup_entry (fs w) 6 (Fs.str "d") = None.
Proof. vm_compute. auto. Qed.
