(* ===== verification/Listing.v ===== *)
(** What [getdents64] shows of a directory.

    A listing is the concatenation of one record per entry, in the order of
    [list]; a call returns a run of whole records starting at the cookie, as
    long as the buffer allows, and moves the cookie past them. *)

From S2P Require Import Prelude BTree Abi Digest Chunk Filesystem FilesystemInv FilesystemSteps Pager PagerView PagerOps PagerFault Cpu Net Fd Proc Signals Text Manifest Authority Env GuestMem GuestMemSpec Inotify FileIo FileIoSpec Streams StreamsSpec MemCallsSpec PathCalls PathSpec.

(** The record of the entry at position [k], and of a run of entries. *)
Definition dirent_of (v : Vfs) (k : Z) (e : bytes * nat) : bytes :=
  match nodes v !! e.2 with
  | Some nd => default [] (encode_dirent64 (Z.of_nat e.2 + 1) (k + 1) (d_type nd) e.1 (reclen_of (zlen e.1)))
  | None => []
  end.
Fixpoint records (v : Vfs) (k : Z) (es : list (bytes * nat)) : bytes :=
  match es with [] => [] | e :: es => dirent_of v k e ++ records v (k + 1) es end.
Definition listed (v : Vfs) (e : bytes * nat) : Prop := (e.2 < length (nodes v))%nat.

Lemma records_app v es es' : ∀ k, records v k (es ++ es') = records v k es ++ records v (k + zlen es) es'.
Proof.
  induction es as [|e es IH]; intros k; cbn [records app]; [by rewrite zlen_nil, Z.add_0_r|].
  by rewrite IH, <- app_assoc, zlen_cons, <- Z.add_assoc, (Z.add_comm 1).
Qed.

Lemma encode_dirent_fits ino off t name remaining :
  encode_dirent64 ino off t name remaining =
  if remaining <? reclen_of (zlen name) then None else encode_dirent64 ino off t name (reclen_of (zlen name)).
Proof. unfold encode_dirent64. case_if; [done|]. by rewrite Z.ltb_irrefl. Qed.
Lemma zlen_dirent v k e : listed v e → zlen (dirent_of v k e) = reclen_of (zlen e.1).
Proof.
  intros [nd Hn]%lookup_lt_is_Some_2. unfold dirent_of, encode_dirent64. rewrite Hn, Z.ltb_irrefl. cbn [default].
  pose proof (reclen_of_bounds (zlen e.1) (zlen_nonneg _)).
  pose proof (dirent_in_range (Z.of_nat e.2 + 1) (k + 1) (d_type nd) e.1) as Hr.
  change (copy_at 19 e.1 _) with
    (puts (dirent_writes (Z.of_nat e.2 + 1) (k + 1) (d_type nd) e.1) (replicate (Z.to_nat (reclen_of (zlen e.1))) 0)).
  set (out := replicate _ 0). assert (Eo : length out = Z.to_nat (reclen_of (zlen e.1))) by apply length_replicate.
  assert (El : length (puts (dirent_writes (Z.of_nat e.2 + 1) (k + 1) (d_type nd) e.1) out) = length out) by (apply length_puts; by rewrite Eo).
  change (zlen (puts (dirent_writes (Z.of_nat e.2 + 1) (k + 1) (d_type nd) e.1) out) = reclen_of (zlen e.1)). unfold zlen in *. lia.
Qed.

(** The loop of the call. *)
Lemma fill_dirents_spec `{Host} v count es : ∀ k out, Forall (listed v) es → zlen out ≤ Z.min count usize_max →
  match fill_dirents v count k out es with
  | Ok (out', p) => ∃ n : nat, (n ≤ length es)%nat ∧ p = k + Z.of_nat n ∧ out' = out ++ records v k (take n es) ∧
      zlen out' ≤ count ∧ (out = [] → es ≠ [] → (0 < n)%nat) ∧
      ∀ e, es !! n = Some e → Z.min count usize_max < zlen out' + reclen_of (zlen e.1)
  | Err e => e = EINVAL ∧ out = [] ∧ ∃ x, head es = Some x ∧ Z.min count usize_max < reclen_of (zlen x.1)
  | Panic => False
  end.
Proof.
  induction es as [|[name i] es IH]; intros k out Hes Ho; cbn [fill_dirents].
  { exists 0%nat. rewrite Z.add_0_r, app_nil_r. split_and!; [done..|lia|done|done]. }
  apply Forall_cons in Hes as [Hi Hes]. destruct (lookup_lt_is_Some_2 _ _ Hi) as [nd Hn].
  assert (Er : dirent_of v k (name, i) = default [] (encode_dirent64 (Z.of_nat i + 1) (k + 1) (d_type nd) name (reclen_of (zlen name))))
    by (unfold dirent_of; cbn [fst snd] in *; by rewrite Hn).
  pose proof (zlen_dirent v k (name, i) Hi) as Hz. cbn [fst] in Hz.
  unfold node_at. cbn [snd] in Hn. rewrite Hn. cbn [expect rbind]. rewrite (proj2 (Z.ltb_ge _ _)) by lia. rewrite encode_dirent_fits.
  destruct (Z.ltb_spec (Z.min count usize_max - zlen out) (reclen_of (zlen name))) as [Hlt|Hge].
  - case_bool_decide as Eo; [split_and!; [done..|]; exists (name, i); split; [done|]; subst; rewrite zlen_nil in Hlt; cbn; lia|].
    exists 0%nat. rewrite Z.add_0_r, app_nil_r. split_and!; [lia|done..|lia|done|]. intros e [= <-]. cbn. lia.
  - destruct (encode_dirent64 _ _ _ _ _) as [r|] eqn:E; [|unfold encode_dirent64 in E; by rewrite Z.ltb_irrefl in E].
    change (dirent_of v k (name, i) = r) in Er. rewrite <- Er. clear E Er r. set (r := dirent_of v k (name, i)) in *.
    specialize (IH (k + 1) (out ++ r) Hes). rewrite zlen_app in IH. specialize (IH ltac:(lia)).
    assert (Hne : out ++ r ≠ []).
    { intros [-> E]%app_eq_nil. pose proof (reclen_of_bounds (zlen name) (zlen_nonneg _)). rewrite E, zlen_nil in Hz.
      pose proof (zlen_nonneg name). lia. }
    destruct (fill_dirents v count (k + 1) (out ++ r) es) as [[out' p]|e|]; [|by destruct IH as (_ & ? & _)|done].
    destruct IH as (n & Hn' & -> & -> & Hc & _ & Hstop). exists (S n). cbn [length take records].
    split_and!; [lia|lia|by rewrite <- app_assoc|done|lia|done].
Qed.

Lemma byte_list_copy_at o b out : byte_list b → byte_list out → byte_list (copy_at o b out).
Proof. intros. unfold copy_at. apply byte_list_app; split; [by apply byte_list_take|]. apply byte_list_app; split; [done|by apply byte_list_drop]. Qed.
Lemma d_type_byte n : is_u8 (d_type n).
Proof. unfold d_type. destruct (kind n); vm_compute; split; congruence. Qed.
Lemma byte_list_records v es : ∀ k, Forall (λ e, byte_list e.1) es → byte_list (records v k es).
Proof.
  induction es as [|[name i] es IH]; intros k Hes; cbn [records]; [constructor|]. apply Forall_cons in Hes as [Hn Hes].
  apply byte_list_app. split; [|by apply IH]. unfold dirent_of, encode_dirent64. cbn [fst snd] in *.
  destruct (nodes v !! i) as [nd|]; [|constructor]. rewrite Z.ltb_irrefl.
  apply byte_list_copy_at; [done|]. apply byte_list_copy_at; [repeat constructor; apply d_type_byte|].
  repeat (apply byte_list_copy_at; [apply le_bytes_byte_list|]). apply Forall_replicate. split; lia.
Qed.
Lemma list_dir_listed `{Host} v i es : vfs_wf v → Fs.list_dir v i = Ok es → Forall (listed v) es.
Proof.
  intros Hv. unfold Fs.list_dir, node_at. destruct (nodes v !! i) as [n|] eqn:Hn; [|done]. cbn.
  destruct (vfs_wf_node v i n Hv Hn) as [Hp Hk]. destruct (kind n); try done. intros [= <-].
  destruct Hk as [_ Hk]. apply Forall_cons; split; [by apply lookup_lt_Some in Hn|]. apply Forall_cons; by split.
Qed.

(** The result of one call from cookie [c]: a run of [k] entries was taken. *)
Definition took `{Host} (v : Vfs) (es : list (bytes * nat)) (count c : Z) (k : nat) (b : bytes) : Prop :=
  b = records v c (take k (drop (Z.to_nat c) es)) ∧ zlen b ≤ count ∧ (k ≤ length es - Z.to_nat c)%nat ∧
  (c < zlen es → (0 < k)%nat) ∧
  ∀ e, es !! (Z.to_nat c + k)%nat = Some e → Z.min count usize_max < zlen b + reclen_of (zlen e.1).

Lemma fill_took `{Host} v count c es : Forall (listed v) es → 0 ≤ c → 0 ≤ count →
  match fill_dirents v count c [] (drop (Z.to_nat c) es) with
  | Ok (b, p) => ∃ k, p = c + Z.of_nat k ∧ took v es count c k b
  | Err e => e = EINVAL ∧ ∃ x, es !! Z.to_nat c = Some x ∧ Z.min count usize_max < reclen_of (zlen x.1)
  | Panic => False
  end.
Proof.
  intros Hes Hc0 Hn. pose proof (fill_dirents_spec v count (drop (Z.to_nat c) es) c [] (Forall_drop _ _ _ Hes)) as Hf.
  pose proof usize_pos. rewrite zlen_nil in Hf. specialize (Hf ltac:(unfold usize_max; lia)).
  destruct (fill_dirents _ _ _ _ _) as [[b p]|e|]; [| |done].
  - destruct Hf as (k & Hk & -> & -> & Hb & Hpos & Hstop). rewrite length_drop in Hk. exists k. split; [done|]. split_and!; [done..| |].
    + intros Hlt. apply Hpos; [done|]. intros E%(f_equal length). rewrite length_drop in E. unfold zlen in Hlt. cbn in E. lia.
    + intros e He. apply Hstop. by rewrite lookup_drop.
  - destruct Hf as (-> & _ & x & Hx & Hlt). split; [done|]. exists x. split; [|done]. rewrite head_lookup, lookup_drop, Nat.add_0_r in Hx. done.
Qed.

Lemma can_copy_less `{Host} {B} `{NetworkBroker B} {M V} contents (w : Machine B M V) addr n n' :
  n' ≤ n → can_copy contents w addr n → can_copy contents w addr n'.
Proof.
  intros Hn [Hb Ha Hr [Hc Hp]]. split; [done..|lia|]. split; [done|]. unfold pages_of in *.
  pose proof (Z.div_le_mono n' n PAGE_SIZE ltac:(reflexivity) Hn). lia.
Qed.

(** C19. [getdents64] loses and repeats nothing: a call on a directory whose
    cookie is [c] copies whole records of a run of entries of the listing that
    starts at position [c], as many as fit the buffer and at least one unless
    the listing is at its end, answers their length and moves the cookie past
    exactly these; when not even one fits it answers EINVAL and changes
    nothing. A failed copy has moved the cookie all the same. It never
    panics. *)
Theorem getdents_exact `{Host} {B} `{NetworkBroker B} {M V} `{GuestMemoryLaws M V} contents
    (w : Machine B M V) fd i d x node c es dirp count :
  vfs_wf (fs w) → get_desc fd w = (w, Ok (i, d)) → ofds (heap (env w)) !! i = Some (d, x) → backing d = BDir node c →
  0 ≤ c ≤ usize_max → Fs.list_dir (fs w) node = Ok es → Forall (λ e, byte_list e.1) es → 0 ≤ count →
  can_copy contents w dirp count →
  let '(w', r) := Path.sys_getdents64 fd dirp count w in
  match r with
  | Ok n => ∃ k b, took (fs w) es count c k b ∧ n = zlen b ∧ sees contents w' dirp b ∧
      ofds (heap (env w')) !! i = Some (Path.put_cookie node (c + Z.of_nat k) d, x)
  | Err e =>
      (e = EINVAL ∧ w' = w ∧ ∃ e, es !! Z.to_nat c = Some e ∧ Z.min count usize_max < reclen_of (zlen e.1)) ∨
      (copy_errno e ∧ ∃ k b, took (fs w) es count c k b ∧
        ofds (heap (env w')) !! i = Some (Path.put_cookie node (c + Z.of_nat k) d, x))
  | Panic => False
  end.
Proof.
  intros Hv Hg Hd Hb Hc Hl Hn Hcount Hcopy. unfold Path.sys_getdents64, sbind at 1. rewrite Hg. cbn [fst snd]. rewrite Hb.
  unfold sbind at 1, query at 1. rewrite Hl. unfold sbind at 1, query at 1.
  assert (Ec : as_usize c = c) by (by apply as_usize_id). rewrite Ec.
  pose proof (fill_took (fs w) count c es (list_dir_listed _ _ _ Hv Hl) ltac:(lia) Hcount) as Hf.
  destruct (fill_dirents _ _ _ _ _) as [[b p]|e|]; [|destruct Hf as [-> ?]; by left|done]. destruct Hf as (k & -> & Ht).
  unfold sbind at 1, modify at 1. cbn [fst snd]. set (w1 := put_desc i _ w).
  assert (Ho : ofds (heap (env w1)) !! i = Some (Path.put_cookie node (c + Z.of_nat k) d, x)) by (by eapply put_desc_ofds).
  assert (Hby : byte_list b).
  { destruct Ht as (-> & _). apply byte_list_records, Forall_take, Forall_drop, Hn. }
  pose proof (can_copy_less contents w dirp count (zlen b) ltac:(apply Ht) Hcopy) as [Hk1 Hk2 Hk3 Hk4].
  pose proof (write_mem_ok contents w1 dirp b Hk1 Hk2 Hk3 Hby Hk4) as Hw.
  pose proof (write_mem_errors dirp b w1) as He. pose proof (Copy.fr_env _ _ (Copy.write_mem_frame dirp b w1)) as Hfr.
  unfold sbind. destruct (Copy.write_mem dirp b w1) as [w' [[]|e|]]; cbn [fst snd] in *; destruct Hw as [_ Hw]; [| |done].
  - exists k, b. split_and!; [done..|]. by rewrite Hfr.
  - right. split; [done|]. exists k, b. split; [done|]. by rewrite Hfr.
Qed.

(** The root directory, open as descriptor 3 on a machine with memory at 65536. *)
Definition root_open : Machine HostBroker (gmap Z Z) (gmap Z Z) :=
  put_mem page_bytes (exec_path (POpen [SLASH] AT_FDCWD (Z.lor O_RDONLY O_DIRECTORY) 0) fresh_machine).1.
Definition root_entries : list (bytes * nat) := match Fs.list_dir Fs.new 0 with Ok es => es | _ => [] end.
Lemma root_names : Forall (λ e, byte_list e.1) root_entries.
Proof.
  assert (Hb : forallb (λ e : bytes * nat, forallb (λ x, (0 <=? x) && (x <? 2 ^ 8)) e.1) root_entries = true) by (vm_compute; reflexivity).
  rewrite forallb_forall in Hb. apply Forall_forall. intros e He%list_elem_of_In%Hb. rewrite forallb_forall in He.
  apply Forall_forall. intros x Hx%list_elem_of_In%He. unfold fits. lia.
Qed.
Lemma get_desc_pair `{Host} {B} `{NetworkBroker B} {M V} fd (w : Machine B M V) : get_desc fd w = (w, (get_desc fd w).2).
Proof. reflexivity. Qed.
Lemma root_open_desc : get_desc 3 root_open = (root_open, Ok (4, {| backing := BDir 0 0; offset := 0; flags := 0 |})).
Proof. refine (eq_trans (get_desc_pair 3 root_open) (f_equal (pair root_open) _)). vm_compute. reflexivity. Qed.
Lemma root_open_copies : can_copy (λ _, []) root_open 65536 60.
Proof.
  split; [|split; lia|lia|vm_compute; repeat split; congruence].
  assert (Hs : spaces (pager (env root_open)) = ∅) by (vm_compute; reflexivity).
  split; [intros a s|intros s]; rewrite Hs, lookup_empty; discriminate 1.
Qed.
Lemma getdents_exact_witness :
  ∃ w' k b, Path.sys_getdents64 3 65536 60 root_open = (w', Ok 48) ∧ took (fs root_open) root_entries 60 0 k b ∧
    zlen b = 48 ∧ sees (λ _, []) w' 65536 b.
Proof.
  pose proof (getdents_exact (λ _, []) root_open 3 4 {| backing := BDir 0 0; offset := 0; flags := 0 |} 1 0 0 root_entries 65536 60) as Hg.
  destruct (Path.sys_getdents64 3 65536 60 root_open) as [w' r] eqn:E.
  assert (r = Ok 48) as -> by (change r with ((w', r).2); rewrite <- E; vm_compute; reflexivity).
  destruct Hg as (k & b & Ht & Hn & Hs & _).
  - assert (Ef : fs root_open = Fs.new) by (vm_compute; reflexivity). rewrite Ef. apply new_good.
  - exact root_open_desc.
  - vm_compute. reflexivity.
  - reflexivity.
  - vm_compute. split; congruence.
  - vm_compute. reflexivity.
  - exact root_names.
  - lia.
  - apply root_open_copies.
  - exists w', k, b. split; [reflexivity|]. split; [exact Ht|]. split; [symmetry; exact Hn|exact Hs].
Defined.

(** The cookie is a position: a listing continued after an entry it has shown
    was removed skips one that was always there. *)
Example getdents_skips :
  let w := (Path.sys_getdents64 3 65536 80 root_open).1 in
  let w := (exec_path (PUnlink (Fs.str "/bin") AT_FDCWD AT_REMOVEDIR) w).1 in
  let '(w, r) := Path.sys_getdents64 3 65536 24 w in
  r = Ok 24 ∧ mem_read (mem w) (65536 + 19) 3 = Some (Fs.str "etc").
Proof. vm_compute. auto. Qed.
(** A buffer whose page is not there yet: the replayed call starts after the
    entries that were never copied. *)
Definition cold_buffer : FileMapping :=
  {| m_start := 65536; m_end := 69632; data_start := 65536; file_offset := 0; file_len := 4096;
     final_perm := Z.lor Perm.READ Perm.WRITE; fill := 0; m_file := demo_file |}.
Example getdents_restart_loses :
  let w := on_env (put_pager (map_file pager_default 0 cold_buffer)) root_open in
  let '(w, r) := Path.sys_getdents64 3 65600 80 w in
  r = Err PAGE_IN_RESTART ∧ (fst <$> ofds (heap (env w)) !! 4) = Some {| backing := BDir 0 3; offset := 0; flags := 0 |}.
Proof. vm_compute. auto. Qed.
