(* ===== verification/Sockets.v ===== *)
(** Network sockets over the broker, and the transfers built on single reads and
    writes: vectors, messages and [sendfile], from
    [crates/linux-compat/src/syscall.rs]. *)

From S2P Require Import Prelude BTree Abi Digest Chunk Filesystem Pager Cpu Net Fd Proc Signals Text Manifest Authority Env GuestMem Switch ProcCalls Inotify FileIo Streams.

Definition AF_INET : Z := 2.
Definition SOCK_NONBLOCK : Z := 2048.
Definition SHUT_WR : Z := 1.
Definition SHUT_RDWR : Z := 2.

(** * struct sockaddr_in *)
Definition decode_sockaddr (b : bytes) : res Z SocketAddrV4 :=
  if le_val (take 2 b) =? AF_INET then Ok {| octets := take 4 (drop 4 b); port := be_val (take 2 (drop 2 b)) |}
  else Err EAFNOSUPPORT.
Definition encode_sockaddr (a : SocketAddrV4) : bytes :=
  puts [(0%nat, le_bytes 2 AF_INET); (2%nat, be_bytes 2 (port a)); (4%nat, octets a)] (replicate 16 0).
Definition UNSPECIFIED : SocketAddrV4 := {| octets := [0; 0; 0; 0]; port := 0 |}.

Definition with_handle (h : option Z) (s : NetSocket) : NetSocket :=
  {| s_kind := s_kind s; s_handle := h; s_peer := s_peer s; s_activity := s_activity s |}.
Definition with_peer (p : option SocketAddrV4) (s : NetSocket) : NetSocket :=
  {| s_kind := s_kind s; s_handle := s_handle s; s_peer := p; s_activity := s_activity s |}.
Definition is_udp (s : NetSocket) : bool := match s_kind s with UdpSocket => true | TcpSocket => false end.

Module Sock.
Section sock.
Context `{Host} {B : Type} `{NetworkBroker B} {M V : Type} `{GuestMemory M V}.
Abbreviation machine := (Machine B M V).
Abbreviation sys := (stm machine Z).

Definition parse_sockaddr_in (addr len : Z) : sys SocketAddrV4 :=
  if len <? 8 then sfail EINVAL
  else do! b <- Copy.read_mem addr 8 in query (λ _, decode_sockaddr b).
Definition write_sockaddr_in (addr_ptr len_ptr : Z) (a : SocketAddrV4) : sys () :=
  if addr_ptr =? 0 then sret ()
  else
    do! cap <- (if len_ptr =? 0 then sret 16 else do! b <- Copy.read_mem len_ptr 4 in sret (le_val b)) in
    do! _ <- Copy.write_mem addr_ptr (take (Z.to_nat (Z.min 16 cap)) (encode_sockaddr a)) in
    if len_ptr =? 0 then sret () else Copy.write_mem len_ptr (le_bytes 4 16).
Definition net_of (fd : Z) : sys Z :=
  do! x <- get_desc fd in match backing x.2 with BNet s => sret s | _ => sfail ENOTSOCK end.

Definition sys_socket (domain sock_type : Z) : sys Z := λ w,
  if negb (net (env w)) then (w, Err EAFNOSUPPORT)
  else if negb (domain =? AF_INET) then (w, Err EAFNOSUPPORT)
  else
    let ty := Z.land sock_type Fds.SOCK_TYPE_MASK in
    let open (k : SocketKind) :=
      let '(i, h) := Fds.fresh (heap (env w)) in
      let s := {| s_kind := k; s_handle := None; s_peer := None; s_activity := 0 |} in
      Watching.new_fd (BNet i) (Z.lor O_RDWR (if has_flag sock_type SOCK_NONBLOCK then O_NONBLOCK else 0))
        (has_flag sock_type Fds.SOCK_CLOEXEC) (on_heap (λ _, set_sockets (<[i := s]> (sockets h)) h) w) in
    if ty =? Fds.SOCK_STREAM then open TcpSocket
    else if ty =? Fds.SOCK_DGRAM then open UdpSocket
    else (w, Err EPROTONOSUPPORT).

(** [inner.handle], opened on first use. *)
Definition udp_handle (i : Z) (s : NetSocket) : sys Z :=
  match s_handle s with
  | Some h => sret h
  | None =>
      do! h <- Stream.with_broker udp_open in
      do! _ <- modify (Stream.put_socket i (with_handle (Some h) s)) in sret h
  end.
Definition sys_connect (fd addr len : Z) : sys Z :=
  do! i <- net_of fd in
  do! target <- parse_sockaddr_in addr len in
  do! s <- Stream.borrow sockets i in
  do! _ <- match s_kind s with
           | TcpSocket =>
               do! h <- Stream.with_broker (tcp_connect target) in
               modify (Stream.put_socket i (with_handle (Some h) s))
           | UdpSocket => do! _ <- udp_handle i s in sret ()
           end in
  do! s <- Stream.borrow sockets i in
  do! _ <- modify (Stream.put_socket i (with_peer (Some target) s)) in sret 0.

Definition sys_sendto (fd buf len addr addrlen : Z) : sys Outcome :=
  if addr =? 0 then Stream.outcome_write fd buf len
  else
    do! i <- net_of fd in
    do! target <- parse_sockaddr_in addr addrlen in
    do! b <- Copy.read_mem buf (Z.min (as_usize len) 65536) in
    do! s <- Stream.borrow sockets i in
    if negb (is_udp s) then sfail EOPNOTSUPP
    else
      do! h <- udp_handle i s in
      do! n <- Stream.with_broker (udp_send_to h target b) in
      do! s <- Stream.borrow sockets i in
      do! _ <- modify (Stream.put_socket i (stir_socket s)) in sret (Value n).

(** The socket a descriptor is, if it is one; no error is passed on. *)
Definition net_opt (fd : Z) : sys (option Z) := λ w,
  match net_of fd w with
  | (w, Ok i) => (w, Ok (Some i))
  | (w, Err _) => (w, Ok None)
  | (w, Panic) => (w, Panic)
  end.
Definition receive_from (i fd buf len addr addrlen : Z) (s : NetSocket) : sys Outcome :=
  do! h <- query (λ _, ok_or (s_handle s) ENOTCONN) in
  do! received <- Stream.with_broker (udp_recv_from h (as_usize len)) in
  match received with
  | Some (b, from) =>
      do! _ <- modify (Stream.put_socket i (stir_socket s)) in
      do! _ <- Copy.write_mem buf b in
      do! _ <- write_sockaddr_in addr addrlen from in
      sret (Value (zlen b))
  | None =>
      do! x <- get_desc fd in
      Stream.would_block (Stream.nonblocking x.2) (NetReadable i)
  end.
Definition sys_recvfrom (fd buf len addr addrlen : Z) : sys Outcome :=
  do! socket <- net_opt fd in
  match socket with
  | None => Stream.outcome_read fd buf len
  | Some i =>
      do! s <- Stream.borrow sockets i in
      if is_udp s then receive_from i fd buf len addr addrlen s else Stream.outcome_read fd buf len
  end.
Definition sys_shutdown (fd how : Z) : sys Z :=
  do! i <- net_of fd in
  do! s <- Stream.borrow sockets i in
  match s_kind s, s_handle s with
  | TcpSocket, Some h =>
      if (how =? SHUT_WR) || (how =? SHUT_RDWR) then do! _ <- Stream.with_broker (tcp_shutdown_write h) in sret 0 else sret 0
  | _, _ => sret 0
  end.
Definition sys_getpeername (fd addr len : Z) : sys Z :=
  do! i <- net_of fd in
  do! s <- Stream.borrow sockets i in
  do! peer <- query (λ _, ok_or (s_peer s) ENOTCONN) in
  do! _ <- write_sockaddr_in addr len peer in sret 0.
Definition sys_getsockname (fd addr len : Z) : sys Z :=
  do! i <- net_of fd in
  do! s <- Stream.borrow sockets i in
  do! local <- gets (λ w, h ← s_handle s; local_addr h (broker (heap (env w)))) in
  do! _ <- write_sockaddr_in addr len (default UNSPECIFIED local) in sret 0.
Definition sys_setsockopt (fd : Z) : sys Z := do! _ <- net_of fd in sret 0.
Definition sys_getsockopt (fd optval optlen : Z) : sys Z :=
  do! _ <- net_of fd in
  if optval =? 0 then sret 0
  else
    do! _ <- Copy.write_mem optval (replicate 4 0) in
    do! _ <- (if optlen =? 0 then sret () else Copy.write_mem optlen (le_bytes 4 4)) in sret 0.
Definition sys_bind (addr len : Z) : sys Z :=
  do! target <- parse_sockaddr_in addr len in
  if port target =? 0 then sret 0 else sfail EOPNOTSUPP.

(** * Vectors and messages *)
Definition first_segment (entries : list (Z * Z)) : option (Z * Z) := List.find (λ x, negb (x.2 =? 0)) entries.
Definition outcome_vectored (fd iov iovcnt : Z) (write : bool) : sys Outcome :=
  do! entries <- Io.iter_iov iov iovcnt in
  match first_segment entries with
  | Some (base, len) => if write then Stream.outcome_write fd base len else Stream.outcome_read fd base len
  | None => sret (Value 0)
  end.
Definition read_msghdr (msg : Z) : sys (Z * Z * Z * Z) :=
  do! b <- Copy.read_mem msg 56 in
  let field i := le_val (take 8 (drop i b)) in
  sret (field 0%nat, Z.land (field 8%nat) 4294967295, field 16%nat, field 24%nat).
Definition sys_sendmsg (fd msg : Z) : sys Outcome :=
  do! hdr <- read_msghdr msg in
  let '(name, name_len, iov, iovcnt) := hdr in
  do! entries <- Io.iter_iov iov iovcnt in
  match first_segment entries with
  | Some (base, len) =>
      if name =? 0 then Stream.outcome_write fd base len else sys_sendto fd base len name name_len
  | None => sret (Value 0)
  end.
Definition sys_recvmsg (fd msg : Z) : sys Outcome :=
  do! hdr <- read_msghdr msg in
  let '(name, name_len, iov, iovcnt) := hdr in
  do! control <- query (λ _, add64 msg 40) in
  do! _ <- Copy.write_mem control (le_bytes 8 0) in
  do! entries <- Io.iter_iov iov iovcnt in
  match first_segment entries with
  | Some (base, len) =>
      let cap_name := if negb (name =? 0) && (16 <=? name_len) then name else 0 in
      do! out <- sys_recvfrom fd base len cap_name 0 in
      do! _ <- match out with
               | Value _ =>
                   if cap_name =? 0 then sret ()
                   else do! at_ <- query (λ _, add64 msg 8) in Copy.write_mem at_ (le_bytes 4 16)
               | _ => sret ()
               end in
      sret out
  | None => sret (Value 0)
  end.

(** * sendfile *)
Definition SENDFILE_MAX : Z := 262144.
(** What is left to send from [off]: [inr] hash when a chunk is absent. *)
Definition sendfile_chunk (node : nat) (off count : Z) : sys (bytes + Hash) :=
  do! is_secret <- gets (Io.secret_node node) in
  let n := Z.min count SENDFILE_MAX in
  if is_secret : bool then
    do! secret <- query (λ w, ok_or (Io.secret_of node w) EACCES) in
    let start := offset_into off (zlen secret) in
    let stop := Z.min (saturating_add_usize start n) (zlen secret) in
    sret (inl (slicez secret start stop))
  else
    do! r <- query (λ w, Fs.read_node_range (fs w) node off n) in
    match r with
    | Chunk.Ready b => sret (inl (vdata b))
    | Missing hash => sret (inr hash)
    | Invalid _ _ _ => sfail EIO
    end.
(** The bytes appended to a pipe; its activity count stays. *)
Definition append_data (b : bytes) (p : PipeInner) : PipeInner :=
  {| p_data := p_data p ++ b; p_readers := p_readers p; p_writers := p_writers p; p_activity := p_activity p |}.
(** [inl n] bytes written, or the outcome of waiting for room. *)
Definition sendfile_write (out_fd : Z) (chunk : bytes) : sys (Z + Outcome) :=
  do! x <- get_desc out_fd in
  if negb (desc_writable x.2) then sfail EBADF
  else
    match backing x.2 with
    | BPipe i true =>
        do! p <- Stream.borrow pipes i in
        if p_readers p =? 0 then sfail EPIPE
        else
          let room := saturating_sub PIPE_CAPACITY (zlen (p_data p)) in
          if room =? 0 then do! o <- Switch.block_and_switch (Waiting [PipeWritable i] None) true in sret (inr o)
          else
            let taken := Z.min (zlen chunk) room in
            do! _ <- modify (Stream.put_pipe i (append_data (take (Z.to_nat taken) chunk) p)) in
            sret (inl taken)
    | _ => do! n <- Io.write_backing x.1 x.2 chunk in sret (inl (Z.min n (zlen chunk)))
    end.
(** [in_desc.borrow_mut().offset = next] *)
Definition set_offset (i next : Z) : machine → machine :=
  on_heap (λ h, set_ofds (alter (λ x, (put_offset next x.1, x.2)) i (ofds h)) h).
Definition sys_sendfile (out_fd in_fd offset_ptr count : Z) : sys Outcome :=
  do! x <- get_desc in_fd in
  match backing x.2 with
  | BFile node =>
      do! off <- (if offset_ptr =? 0 then sret (offset x.2) else do! b <- Copy.read_mem offset_ptr 8 in sret (le_val b)) in
      do! chunk <- sendfile_chunk node off count in
      match chunk with
      | inr hash => Io.wait_for_file_chunk hash
      | inl [] => sret (Value 0)
      | inl chunk =>
          do! r <- sendfile_write out_fd chunk in
          match r with
          | inr o => sret o
          | inl written =>
              do! next <- query (λ _, add64 off written) in
              do! _ <- (if offset_ptr =? 0 then modify (set_offset x.1 next) else Copy.write_mem offset_ptr (le_bytes 8 next)) in
              sret (Value written)
          end
      end
  | _ => sfail EINVAL
  end.
End sock.
End Sock.
