(* ===== verification/DescCalls.v ===== *)
(** Descriptor and terminal control, clocks, identity and limits. *)

From S2P Require Import Prelude BTree Abi Digest Chunk Filesystem Pager Net Cpu Fd Proc Signals Text Manifest Authority Env GuestMem Switch ProcCalls Inotify FileIo Streams PathCalls.

(** Descriptor and terminal control: closing, [fcntl] and [ioctl], and the calls
    on a process's mask and identity that keep no state of their own, from
    [crates/linux-compat/src/syscall.rs]. *)
(** * Updates *)
Definition with_termios (b : bytes) (p : Pty) : Pty :=
  {| pty_id := pty_id p; m2s := m2s p; s2m := s2m p; termios := b; winsize := winsize p; masters := masters p;
     slaves := slaves p; slave_ever_opened := slave_ever_opened p; pty_activity := pty_activity p; fg_pgrp := fg_pgrp p |}.
Definition with_winsize (l : list Z) (p : Pty) : Pty :=
  Terminal.touch
    {| pty_id := pty_id p; m2s := m2s p; s2m := s2m p; termios := termios p; winsize := l; masters := masters p;
       slaves := slaves p; slave_ever_opened := slave_ever_opened p; pty_activity := pty_activity p; fg_pgrp := fg_pgrp p |}.
Definition with_fg_pgrp (g : Z) (p : Pty) : Pty :=
  {| pty_id := pty_id p; m2s := m2s p; s2m := s2m p; termios := termios p; winsize := winsize p; masters := masters p;
     slaves := slaves p; slave_ever_opened := slave_ever_opened p; pty_activity := pty_activity p; fg_pgrp := g |}.
Definition put_flags (x : Z) (d : Description) : Description := {| backing := backing d; offset := offset d; flags := x |}.

(** Which queue is input depends on the side that asks. *)
Definition flush_pty (is_master input output : bool) (p : Pty) : Pty :=
  let drop_m2s := if is_master then output else input in
  let drop_s2m := if is_master then input else output in
  let p := if drop_m2s then Terminal.with_input [] p else p in
  Terminal.touch (if drop_s2m then Terminal.with_output [] p else p).

(** Sixteen-bit words, four of them. *)
Definition words16 (l : list Z) : bytes := concat (le_bytes 2 <$> l).
Definition read_words16 (b : bytes) : list Z := (λ i : nat, le_val (take 2 (drop (2 * i) b))) <$> seq 0 4.
(** The answer of a terminal that is no pseudoterminal. *)
Definition cooked_termios : bytes :=
  puts [(0%nat, le_bytes 4 1280); (4%nat, le_bytes 4 5); (8%nat, le_bytes 4 191); (12%nat, le_bytes 4 35387)] (replicate 36 0).

Module Desc.
Section desc.
Context `{Host} {B : Type} `{NetworkBroker B} {M V : Type} `{GuestMemory M V}.
Abbreviation machine := (Machine B M V).
Abbreviation sys := (stm machine Z).

Definition my_heap {A} (f : Z → stm (Heap B) Z A) : sys A := λ w, with_heap (f (fds (proc w))) w.
(** [env.proc.fds.borrow().get(fd)?] *)
Definition get_entry (fd : Z) : sys FdEntry := my_heap (λ t, Fds.get t fd).
(** [env.proc.fds.borrow_mut().get_mut(fd)?.cloexec = ce] *)
Definition set_entry_cloexec (fd : Z) (ce : bool) : sys () :=
  do! _ <- get_entry fd in
  my_heap (λ t, do! x <- query (Fds.table t) in modify (Fds.put_table t (Fds.set_cloexec (as_usize fd) ce x))).

(** * close and dup *)
Definition sys_close (fd : Z) : sys Z :=
  do! _ <- my_heap (λ t, Fds.close t fd) in
  do! _ <- Path.reclaim in
  sret 0.
Definition sys_dup (fd min : Z) (ce : bool) : sys Z := my_heap (λ t, Fds.sys_dup t fd min ce).
Definition sys_dup2 (fd new_fd : Z) (ce : bool) : sys Z := my_heap (λ t, Fds.sys_dup2 t fd new_fd ce).
Definition sys_dup3 (fd new_fd fl : Z) : sys Z :=
  if fd =? new_fd then sfail EINVAL else sys_dup2 fd new_fd (has_flag fl O_CLOEXEC).
Definition sys_close_range (first_ last_ fl : Z) : sys Z := my_heap (λ t, Fds.sys_close_range t first_ last_ fl).

(** * fcntl *)
Definition sys_fcntl (fd cmd arg : Z) : sys Z :=
  if cmd =? F_DUPFD then sys_dup fd arg false
  else if cmd =? F_DUPFD_CLOEXEC then sys_dup fd arg true
  else if cmd =? F_GETFD then do! e <- get_entry fd in sret (if cloexec e then FD_CLOEXEC else 0)
  else if cmd =? F_SETFD then do! _ <- set_entry_cloexec fd (has_flag arg FD_CLOEXEC) in sret 0
  else if cmd =? F_GETFL then do! x <- get_desc fd in sret (flags x.2)
  else if cmd =? F_SETFL then
    do! x <- get_desc fd in
    let keep := Z.land (flags x.2) O_ACCMODE in
    do! _ <- modify (put_desc x.1 (put_flags (Z.lor keep (Z.land arg (Z.lor O_APPEND O_NONBLOCK))) x.2)) in sret 0
  else if (cmd =? F_SETLK) || (cmd =? F_SETLKW) || (cmd =? F_OFD_SETLK) || (cmd =? F_OFD_SETLKW) then
    do! _ <- get_entry fd in sret 0
  else if (cmd =? F_GETLK) || (cmd =? F_OFD_GETLK) then
    do! _ <- get_entry fd in
    do! _ <- Copy.write_mem arg (le_bytes 2 F_UNLCK) in
    do! at_ <- query (λ _, add64 arg 24) in
    do! _ <- Copy.write_mem at_ (le_bytes 4 0) in sret 0
  else sfail EINVAL.

(** * ioctl *)
Definition pending_bytes (d : Description) : sys Z :=
  match backing d with
  | BPipe i false | BSocketPair i _ => do! p <- Stream.borrow pipes i in sret (wrap 32 (zlen (p_data p)))
  | _ => sret 0
  end.
(** The requests any descriptor takes; [None] passes the request on. *)
Definition plain_ioctl (fd request arg : Z) : sys (option Z) :=
  if request =? FIONBIO then
    do! b <- Copy.read_mem arg 4 in
    do! x <- get_desc fd in
    let fl := if as_i32 (le_val b) =? 0 then Z.land (flags x.2) (Z.lnot O_NONBLOCK) else Z.lor (flags x.2) O_NONBLOCK in
    do! _ <- modify (put_desc x.1 (put_flags fl x.2)) in sret (Some 0)
  else if request =? FIOCLEX then do! _ <- set_entry_cloexec fd true in sret (Some 0)
  else if request =? FIONCLEX then do! _ <- set_entry_cloexec fd false in sret (Some 0)
  else if request =? FIONREAD then
    do! x <- get_desc fd in
    do! n <- pending_bytes x.2 in
    do! _ <- Copy.write_mem arg (le_bytes 4 n) in sret (Some 0)
  else sret None.

Definition change_pty (i : Z) (f : Pty → Pty) : sys () :=
  do! p <- Stream.borrow ptys i in modify (Stream.put_pty i (f p)).
Definition put_to (arg : Z) (b : bytes) : sys Z := do! _ <- Copy.write_mem arg b in sret 0.
Definition is_set_termios (request : Z) : bool := (request =? TCSETS) || (request =? TCSETSW) || (request =? TCSETSF).
Definition pty_ioctl (i : Z) (is_master : bool) (request arg : Z) : sys Z :=
  if request =? TIOCGPTN then do! p <- Stream.borrow ptys i in put_to arg (le_bytes 4 (wrap 32 (pty_id p)))
  else if request =? TIOCSPTLCK then sret 0
  else if request =? TCGETS then do! p <- Stream.borrow ptys i in put_to arg (termios p)
  else if is_set_termios request then
    do! b <- Copy.read_mem arg 36 in
    do! _ <- change_pty i (with_termios b) in
    do! _ <- (if request =? TCSETSF then change_pty i (flush_pty is_master true false) else sret ()) in
    sret 0
  else if request =? TCFLSH then
    if arg =? 0 then do! _ <- change_pty i (flush_pty is_master true false) in sret 0
    else if arg =? 1 then do! _ <- change_pty i (flush_pty is_master false true) in sret 0
    else if arg =? 2 then do! _ <- change_pty i (flush_pty is_master true true) in sret 0
    else sfail EINVAL
  else if request =? TIOCGWINSZ then do! p <- Stream.borrow ptys i in put_to arg (words16 (winsize p))
  else if request =? TIOCSWINSZ then
    do! b <- Copy.read_mem arg 8 in
    do! _ <- change_pty i (with_winsize (read_words16 b)) in
    do! p <- Stream.borrow ptys i in
    do! _ <- modify (Switch.deliver_to_pgrp (fg_pgrp p) 28) in sret 0
  else if request =? TIOCSCTTY then
    do! pg <- gets (λ w, pgid (proc w)) in
    do! _ <- change_pty i (with_fg_pgrp pg) in sret 0
  else if request =? TIOCSPGRP then
    do! b <- Copy.read_mem arg 4 in
    do! _ <- change_pty i (with_fg_pgrp (le_val b)) in sret 0
  else if request =? TIOCGPGRP then do! p <- Stream.borrow ptys i in put_to arg (le_bytes 4 (wrap 32 (fg_pgrp p)))
  else if request =? TIOCNOTTY then sret 0
  else sfail ENOTTY.

Definition PID : Z := 1000.
Definition is_tty (d : Description) : bool :=
  match backing d with BStd StdOut | BStd StdErr | BDev DevTty => true | _ => false end.
Definition tty_ioctl (request arg : Z) : sys Z :=
  if request =? TIOCGWINSZ then put_to arg (words16 [24; 80; 0; 0])
  else if request =? TCGETS then put_to arg cooked_termios
  else if is_set_termios request || (request =? TCFLSH) || (request =? TIOCSWINSZ) || (request =? TIOCSPGRP) ||
          (request =? TIOCSCTTY) || (request =? TIOCNOTTY) then sret 0
  else if request =? TIOCGPGRP then put_to arg (le_bytes 4 PID)
  else sfail ENOTTY.
Definition sys_ioctl (fd request arg : Z) : sys Z :=
  do! answered <- plain_ioctl fd request arg in
  match answered with
  | Some v => sret v
  | None =>
      do! x <- get_desc fd in
      match backing x.2 with
      | BPtyMaster i => pty_ioctl i true request arg
      | BPtySlave i => pty_ioctl i false request arg
      | _ => if is_tty x.2 then tty_ioctl request arg else sfail ENOTTY
      end
  end.
(** The terminal a descriptor is an end of, if it is one. *)
Definition pty_of (fd : Z) : sys (option Z) := λ w,
  match get_desc fd w with
  | (w, Ok (_, d)) => (w, Ok (match backing d with BPtyMaster i | BPtySlave i => Some i | _ => None end))
  | (w, Err _) => (w, Ok None)
  | (w, Panic) => (w, Panic)
  end.
Definition outcome_ioctl (fd request arg : Z) : sys Outcome :=
  do! stopped <- (if is_set_termios request || (request =? TIOCSPGRP) then
      do! pty <- pty_of fd in
      match pty with
      | Some i => do! p <- Stream.borrow ptys i in Switch.background_tty_ioctl p
      | None => sret None
      end
    else sret None) in
  match stopped with
  | Some o => sret o
  | None => do! v <- sys_ioctl fd request arg in sret (Value v)
  end.
End desc.
End Desc.

(** Clocks, limits and identity: the calls of
    [crates/linux-compat/src/syscall.rs] that report on the machine or set one
    field of the process. *)
Definition encode_timespec (sec nsec : Z) : bytes := le_bytes 8 sec ++ le_bytes 8 nsec.
Definition UTSNAME : list bytes := Fs.str <$> ["Linux"; "webtos"; "6.6.0-webtos"; "#1 webTOS"; "x86_64"; ""]%string.
Definition encode_utsname (fields : list bytes) : bytes :=
  puts (imap (λ i f, ((i * 65)%nat, f)) fields) (replicate (65 * 6) 0).
Definition with_mtime (n : Node) (t : Z) : Node :=
  {| kind := kind n; mode := mode n; nlink := nlink n; mtime_sec := t; n_parent := n_parent n |}.

Module Misc.
Section misc.
Context `{Host} {B : Type} `{NetworkBroker B} {M V : Type} `{GuestMemory M V} `{MemoryTables M}.
Abbreviation machine := (Machine B M V).
Abbreviation sys := (stm machine Z).

(** * Clocks *)
Definition saturating_add_i64 (a b : Z) : Z := Z.max I64_MIN (Z.min I64_MAX (a + b)).
Definition now (w : machine) : Z * Z :=
  let nanos := now_nanos w in
  (saturating_add_i64 (epoch_base_sec (env w)) (as_i64 (nanos / NANOS)), nanos mod NANOS).
Definition now_monotonic (w : machine) : Z * Z := let nanos := now_nanos w in (as_i64 (nanos / NANOS), nanos mod NANOS).
Definition is_monotonic (clock_id : Z) : bool := (clock_id =? 1) || (clock_id =? 4) || (clock_id =? 7).
Definition sys_clock_gettime (clock_id ts : Z) : sys Z :=
  do! t <- gets (λ w, if is_monotonic clock_id then now_monotonic w else now w) in
  do! _ <- Copy.write_mem ts (encode_timespec t.1 t.2) in sret 0.
Definition sys_clock_getres (ts : Z) : sys Z :=
  do! _ <- (if ts =? 0 then sret () else Copy.write_mem ts (encode_timespec 0 1)) in sret 0.
Definition sys_gettimeofday (tv : Z) : sys Z :=
  if tv =? 0 then sret 0
  else
    do! t <- gets now in
    do! _ <- Copy.write_mem tv (le_bytes 8 t.1 ++ le_bytes 8 (t.2 / 1000)) in sret 0.
Definition sys_time (tloc : Z) : sys Z :=
  do! t <- gets now in
  do! _ <- (if tloc =? 0 then sret () else Copy.write_mem tloc (le_bytes 8 t.1)) in
  sret (wrap 64 t.1).

(** * The machine *)
Definition sys_sysinfo (ptr : Z) : sys Z :=
  if ptr =? 0 then sfail EFAULT
  else
    do! out <- gets (λ w,
      puts [(0%nat, le_bytes 8 (now_nanos w / NANOS)); (40%nat, le_bytes 8 (capacity (mem w)));
            (48%nat, le_bytes 8 (saturating_sub (capacity (mem w)) (total_pages (mem w)))); (72%nat, le_bytes 8 1);
            (104%nat, le_bytes 4 PAGE_SIZE)] (replicate 112 0)) in
    do! _ <- Copy.write_mem ptr out in sret 0.
Definition sys_getrusage (who ptr : Z) : sys Z :=
  if negb ((who =? 0) || (who =? -1) || (who =? 1)) then sfail EINVAL
  else if ptr =? 0 then sfail EFAULT
  else
    do! out <- gets (λ w,
      puts [(0%nat, le_bytes 8 (now_nanos w / NANOS)); (8%nat, le_bytes 8 (now_nanos w mod NANOS / 1000))] (replicate 144 0)) in
    do! _ <- Copy.write_mem ptr out in sret 0.
Definition sys_uname (buf : Z) : sys Z := do! _ <- Copy.write_mem buf (encode_utsname UTSNAME) in sret 0.
Definition sys_getrandom (buf len : Z) : sys Z :=
  let len := Z.min len 4096 in
  do! out <- Io.random_bytes len in
  do! _ <- Copy.write_mem buf out in sret len.
Definition sys_prlimit64 (old : Z) : sys Z :=
  do! _ <- (if old =? 0 then sret () else Copy.write_mem old (replicate 16 255)) in sret 0.
Definition sys_sched_getaffinity (len mask_ptr : Z) : sys Z :=
  let size := Z.min (as_usize len) 128 in
  if size <? 8 then sfail EINVAL
  else do! _ <- Copy.write_mem mask_ptr (<[0%nat := 1]> (replicate (Z.to_nat size) 0)) in sret 8.

(** * The process *)
Definition sys_umask (mask : Z) : sys Z :=
  do! old <- gets (λ w, umask (proc w)) in
  do! _ <- modify (λ w, put_proc (with_umask (Z.land (wrap 32 mask) 511) (proc w)) w) in sret old.
Definition sys_prctl (option arg : Z) : sys Z :=
  if (option =? 15) || (option =? 1) then sret 0
  else if option =? 2 then do! _ <- Copy.write_mem arg (le_bytes 4 0) in sret 0
  else sfail EINVAL.

(** * utimensat *)
Definition UTIME_NOW : Z := 1073741823.
Definition UTIME_OMIT : Z := 1073741822.
(** The node the times go to; [None] for objects outside the filesystem. *)
Definition utimens_node (dirfd path_ptr fl : Z) : sys (option nat) :=
  if path_ptr =? 0 then
    do! x <- get_desc dirfd in
    match backing x.2 with BFile node | BDir node _ => sret (Some node) | _ => sret None end
  else
    do! path <- Path.path_arg path_ptr in
    do! base <- Path.dir_of dirfd in
    do! r <- Path.resolve_at base path (negb (has_flag fl AT_SYMLINK_NOFOLLOW)) in
    do! node <- Path.found r in sret (Some node).
Definition utimens_time (times_ptr : Z) : sys (option Z) :=
  do! t <- gets now in
  if times_ptr =? 0 then sret (Some t.1)
  else
    do! at_ <- query (λ _, add64 times_ptr 16) in
    do! b <- Copy.read_mem at_ 16 in
    let nsec := as_i64 (le_val (drop 8 b)) in
    sret (if nsec =? UTIME_OMIT then None else if nsec =? UTIME_NOW then Some t.1 else Some (as_i64 (le_val (take 8 b)))).
Definition sys_utimensat (dirfd path_ptr times_ptr fl : Z) : sys Z :=
  do! node <- utimens_node dirfd path_ptr fl in
  match node with
  | None => sret 0
  | Some node =>
      do! t <- utimens_time times_ptr in
      match t with
      | None => sret 0
      | Some t => do! _ <- Path.update_node node (λ n, with_mtime n t) in sret 0
      end
  end.
End misc.
End Misc.
