(* ===== verification/Elf.v ===== *)
(** Loading an executable on demand: [crates/linux-compat/src/lazy_elf.rs].

    Only the headers and the interpreter's name are read; every [PT_LOAD] range
    becomes a file mapping of the pager. A failure is a value of [ElfError]
    (the code has messages; what it asks of one later is whether it begins with
    ["refused:"]). An interpreter names no further one, so loading recurses at
    most once. *)

From S2P Require Import Prelude BTree Abi Digest Chunk Filesystem Pager Cpu Net Fd Proc Signals Text ChunkManifest Manifest Authority Env GuestMem FileIo MemCalls.

Inductive ElfError :=
| NotVouched (e : AuthError)
| TruncatedMetadata
| WaitingForChunk
| SecondRequest
| InvalidBacking
| UnreadableMetadata (errno : Z)
| CannotResolve (errno : Z)
| NoImage
| NotChunked
| NotElf64
| NotX86_64
| BadHeaderTable
| SegmentOutsideFile
| BadAlignment
| SegmentOverflow
| NothingToLoad
| NestedInterpreter
| TwoInterpreters
| BadInterpreterPath
| NoRoom
| BadLayout
| BadMapping (e : MapError)
| StackUnmapped
| StackWrite
| LoaderFailed.

(** [why.starts_with("refused:")] *)
Definition is_refusal (e : ElfError) : bool :=
  match e with
  | NotVouched (RootNotInstalled | NotInChunkManifest _ | LayoutDiffers _ | ResidentDiffers _ | NotRegularFile _ |
                NoChunkAuthority _ | Refused _) => true
  | _ => false
  end.

Definition ELF_HEADER : Z := 64.
Definition PROGRAM_HEADER : Z := 56.
Definition PT_LOAD : Z := 1.
Definition PT_INTERP : Z := 3.
Definition PT_PHDR : Z := 6.
Definition PF_X : Z := 1.
Definition PF_W : Z := 2.
Definition PF_R : Z := 4.
Definition ELF_MAGIC : bytes := [127; 69; 76; 70].

Record Segment := {
  sg_kind : Z; sg_flags : Z; sg_offset : Z; sg_vaddr : Z; sg_filesz : Z; sg_memsz : Z; sg_align : Z
}.
Record ElfImage := {
  ei_file : ChunkedFile;
  ei_entry : Z;
  ei_phoff : Z;
  ei_phnum : Z;
  ei_segments : list Segment;
  requested_base : Z;
  image_end : Z;
  image_align : Z;
  interpreter_path : option bytes
}.
(** [ElfMetadata] and [LoadedElf] of the vendored loader, without debug info. *)
Record ElfMetadata := { em_offset : Z; entry_ptr : Z; base_ptr : Z; em_length : Z; phdr_ptr : Z; phdr_num : Z }.
Record LoadedElf := { binary : ElfMetadata; interpreter : option ElfMetadata }.

(** * Headers *)
(** [u16_at], [u32_at] and [u64_at]: [n] bytes, little-endian. *)
Definition word_at (n : nat) (b : bytes) (at_ : nat) : res ElfError Z :=
  if (length b <? at_ + n)%nat then Err TruncatedMetadata else Ok (le_val (take n (drop at_ b))).
Definition parse_segment (header : bytes) : res ElfError Segment :=
  let! kind := word_at 4 header 0 in
  let! fl := word_at 4 header 4 in
  let! off := word_at 8 header 8 in
  let! vaddr := word_at 8 header 16 in
  let! filesz := word_at 8 header 32 in
  let! memsz := word_at 8 header 40 in
  let! align := word_at 8 header 48 in
  Ok {| sg_kind := kind; sg_flags := fl; sg_offset := off; sg_vaddr := vaddr; sg_filesz := filesz; sg_memsz := memsz;
        sg_align := align |}.
Fixpoint parse_segments (count : nat) (b : bytes) : res ElfError (list Segment) :=
  match count with
  | O => Ok []
  | S count =>
      if (length b <? 56)%nat then Err TruncatedMetadata
      else
        let! s := parse_segment (take 56 b) in
        let! l := parse_segments count (drop 56 b) in
        Ok (s :: l)
  end.
Definition segment_perm (fl : Z) : Z :=
  let out := Perm.INIT in
  let out := if has_flag fl PF_R then Z.lor out Perm.READ else out in
  let out := if has_flag fl PF_W then Z.lor out Perm.WRITE else out in
  if has_flag fl PF_X then Z.lor out Perm.EXEC else out.
(** [value.checked_next_multiple_of(PAGE_SIZE)] *)
Definition page_align (value : Z) : res ElfError Z :=
  let v := div_ceil value PAGE_SIZE * PAGE_SIZE in if v <=? U64_MAX then Ok v else Err SegmentOverflow.
Definition is_power_of_two (x : Z) : bool := (0 <? x) && (Z.land x (x - 1) =? 0).
Definition checked {A} (o : option A) : res ElfError A := ok_or o SegmentOverflow.
(** [x & (PAGE_SIZE - 1)] *)
Definition in_page (x : Z) : Z := Z.land x (PAGE_SIZE - 1).
Definition is_load (s : Segment) : bool := (sg_kind s =? PT_LOAD) && negb (sg_memsz s =? 0).

(** * The layout *)
(** The lowest page, the end, the largest alignment and the number of what is
    loaded, over the segments seen so far. *)
Record Layout := { lo : Z; hi : Z; al : Z; loadable : Z }.
Definition layout_new : Layout := {| lo := U64_MAX; hi := 0; al := PAGE_SIZE; loadable := 0 |}.
Definition segment_align (a : Z) : res ElfError Z :=
  if (a =? 0) || (a =? 1) then Ok 1
  else if is_power_of_two a && (a <=? 2 ^ 30) then Ok a else Err BadAlignment.
Definition place (f : ChunkedFile) (l : Layout) (s : Segment) : res ElfError Layout :=
  if (sg_memsz s <? sg_filesz s) || match checked_add64 (sg_offset s) (sg_filesz s) with Some e => cf_size f <? e | None => true end
  then Err SegmentOutsideFile
  else
    let! align := segment_align (sg_align s) in
    let start := page_of (sg_vaddr s) in
    let! len := checked (checked_add64 (sg_memsz s) (sg_vaddr s - start)) in
    let! size := page_align len in
    let! end_ := checked (checked_add64 start size) in
    Ok {| lo := Z.min (lo l) start; hi := Z.max (hi l) end_; al := Z.max (al l) align; loadable := loadable l + 1 |}.
Fixpoint place_all (f : ChunkedFile) (l : Layout) (ss : list Segment) : res ElfError Layout :=
  match ss with
  | [] => Ok l
  | s :: ss => if is_load s then let! l := place f l s in place_all f l ss else place_all f l ss
  end.

Module Elf.
Section elf.
Context `{Host} {B : Type} `{NetworkBroker B} {M V : Type} `{GuestMemory M V} `{AddressRanges M}.
Abbreviation machine := (Machine B M V).
Abbreviation elf := (stm machine ElfError).

Definition to_elf {E A} (f : E → ElfError) (m : stm machine E A) : elf A := Prelude.map_err f m.
Definition pure_res {A} (r : res ElfError A) : elf A := query (λ _, r).
(** [env.verify_image(path)?] *)
Definition verify (path : bytes) : elf () := λ w,
  let '(i, r) := Image_.verify_image (S (length (nodes (fs w)))) (cwd (proc w)) path (image (env w)) in
  (on_env (put_image i) w, map_err NotVouched r).
Definition read_exact (node : nat) (off len : Z) : elf bytes :=
  do! r <- to_elf UnreadableMetadata (query (λ w, Fs.read_node_range (fs w) node off len)) in
  match r with
  | Chunk.Ready b => if vlen b =? len then sret (vdata b) else sfail TruncatedMetadata
  | Missing hash => do! _ <- to_elf (λ _, SecondRequest) (request_file_chunk hash) in sfail WaitingForChunk
  | Invalid _ _ _ => sfail InvalidBacking
  end.

(** The interpreter's path, from the segments of that kind. *)
Fixpoint read_interpreter (node : nat) (depth : Z) (found : option bytes) (ss : list Segment) : elf (option bytes) :=
  match ss with
  | [] => sret found
  | s :: ss =>
      if negb (sg_kind s =? PT_INTERP) then read_interpreter node depth found ss
      else if negb (depth =? 0) then sfail NestedInterpreter
      else
        match found with
        | Some _ => sfail TwoInterpreters
        | None =>
            match try_usize (sg_filesz s) with
            | None => sfail BadInterpreterPath
            | Some len =>
                if negb ((2 <=? len) && (len <=? 4096)) then sfail BadInterpreterPath
                else
                  do! b <- read_exact node (sg_offset s) len in
                  if bool_decide (last b = Some 0) && negb (existsb (Z.eqb 0) (removelast b))
                  then read_interpreter node depth (Some (removelast b)) ss
                  else sfail BadInterpreterPath
            end
        end
  end.

Definition open_image (path : bytes) : elf (nat * ChunkedFile) :=
  do! _ <- verify path in
  do! r <- to_elf CannotResolve (query (λ w, resolve (fs w) (cwd (proc w)) path true)) in
  do! node <- pure_res (ok_or (r_node r) NoImage) in
  do! n <- query (λ w, map_err CannotResolve (node_at (fs w) node)) in
  match kind n with Chunked f => sret (node, f) | _ => sfail NotChunked end.
(** The identification bytes and the fields of the ELF header. *)
Definition parse_header (header : bytes) : res ElfError (Z * Z * Z) :=
  if negb (bool_decide (take 4 header = ELF_MAGIC) && bool_decide (header !! 4%nat = Some 2) && bool_decide (header !! 5%nat = Some 1))
  then Err NotElf64
  else
    let! machine_ := word_at 2 header 18 in
    if negb (machine_ =? 62) then Err NotX86_64
    else
      let! entry := word_at 8 header 24 in
      let! phoff := word_at 8 header 32 in
      let! phentsize := word_at 2 header 54 in
      let! phnum := word_at 2 header 56 in
      if negb (phentsize =? PROGRAM_HEADER) || (phnum =? 0) || (4096 <? phnum) then Err BadHeaderTable
      else Ok (entry, phoff, phnum).
Definition inspect (path : bytes) (depth : Z) : elf ElfImage :=
  if 1 <? depth then sfail NestedInterpreter
  else
    do! x <- open_image path in
    let '(node, file) := x in
    do! header <- read_exact node 0 ELF_HEADER in
    do! h <- pure_res (parse_header header) in
    let '(entry, phoff, phnum) := h in
    do! phdrs <- read_exact node phoff (phnum * PROGRAM_HEADER) in
    do! segments <- pure_res (parse_segments (Z.to_nat phnum) phdrs) in
    do! l <- pure_res (place_all file layout_new segments) in
    if loadable l =? 0 then sfail NothingToLoad
    else
      do! interp <- read_interpreter node depth None segments in
      sret {| ei_file := file; ei_entry := entry; ei_phoff := phoff; ei_phnum := phnum; ei_segments := segments;
              requested_base := lo l; image_end := hi l; image_align := al l; interpreter_path := interp |}.

(** [prepare]; depth 2 always fails. *)
Fixpoint prepare (fuel : nat) (path : bytes) (depth : Z) : elf () :=
  match fuel with
  | O => sfail NestedInterpreter
  | S fuel =>
      do! i <- inspect path depth in
      match interpreter_path i with
      | Some interp => prepare fuel interp (depth + 1)
      | None => sret ()
      end
  end.

(** * Mapping the segments *)
Definition segment_mapping (f : ChunkedFile) (relocation : Z) (s : Segment) : res ElfError FileMapping :=
  let! start := checked (checked_add64 (page_of (sg_vaddr s)) relocation) in
  let! len := checked (checked_add64 (sg_memsz s) (in_page (sg_vaddr s))) in
  let! mapped_len := page_align len in
  let! end_ := checked (checked_add64 start mapped_len) in
  let! dstart := checked (checked_add64 (sg_vaddr s) relocation) in
  map_err BadMapping (mapping_new start end_ dstart (sg_offset s) (sg_filesz s) (segment_perm (sg_flags s)) 170 f).
Definition map_segment (f : ChunkedFile) (relocation : Z) (s : Segment) : elf () :=
  do! m <- pure_res (segment_mapping f relocation s) in
  modify (λ w, on_env (λ e, put_pager (map_file (pager e) (asid (proc w)) m) e) w).
(** The segments in order, and the program headers' address if a segment names it. *)
Fixpoint map_segments (f : ChunkedFile) (relocation : Z) (phdr : option Z) (ss : list Segment) : elf (option Z) :=
  match ss with
  | [] => sret phdr
  | s :: ss =>
      if is_load s then do! _ <- map_segment f relocation s in map_segments f relocation phdr ss
      else if sg_kind s =? PT_PHDR then
        do! p <- pure_res (checked (checked_add64 (sg_vaddr s) relocation)) in
        map_segments f relocation (Some p) ss
      else map_segments f relocation phdr ss
  end.
(** [alloc_memory]: a free range, then mapped. *)
Definition alloc_image (base len align prm : Z) : elf Z := λ w,
  match mem_find_free (mem w) base len align with
  | None => (w, Err NoRoom)
  | Some start => (put_mem (mem_map (mem w) start len prm).1 w, Ok start)
  end.
Definition map_image (i : ElfImage) : elf ElfMetadata :=
  do! len <- pure_res (ok_or (if requested_base i <=? image_end i then Some (image_end i - requested_base i) else None) BadLayout) in
  do! base <- alloc_image (requested_base i) len (image_align i) Perm.INIT in
  do! relocation <- pure_res (ok_or (if requested_base i <=? base then Some (base - requested_base i) else None) BadLayout) in
  do! phdr <- map_segments (ei_file i) relocation None (ei_segments i) in
  do! entry <- pure_res (checked (checked_add64 (ei_entry i) relocation)) in
  do! phdr <- match phdr with Some p => sret p | None => pure_res (checked (checked_add64 base (ei_phoff i))) end in
  sret {| em_offset := relocation; entry_ptr := entry; base_ptr := base; em_length := len; phdr_ptr := phdr;
          phdr_num := ei_phnum i |}.
Fixpoint load (fuel : nat) (path : bytes) (depth : Z) : elf LoadedElf :=
  match fuel with
  | O => sfail NestedInterpreter
  | S fuel =>
      do! i <- inspect path depth in
      do! b <- map_image i in
      do! interp <- match interpreter_path i with
                    | Some p => do! l <- load fuel p (depth + 1) in sret (Some (binary l))
                    | None => sret None
                    end in
      sret {| binary := b; interpreter := interp |}
  end.
End elf.
End Elf.
