(* ===== verification/Sysno.v ===== *)
(** System call numbers: the constants of [crates/linux-compat/src/abi.rs]. *)

From S2P Require Import Prelude.

Definition SYS_READ : Z := 0.
Definition SYS_WRITE : Z := 1.
Definition SYS_OPEN : Z := 2.
Definition SYS_CLOSE : Z := 3.
Definition SYS_STAT : Z := 4.
Definition SYS_FSTAT : Z := 5.
Definition SYS_LSTAT : Z := 6.
Definition SYS_POLL : Z := 7.
Definition SYS_LSEEK : Z := 8.
Definition SYS_MMAP : Z := 9.
Definition SYS_MPROTECT : Z := 10.
Definition SYS_MUNMAP : Z := 11.
Definition SYS_MREMAP : Z := 25.
Definition SYS_BRK : Z := 12.
Definition SYS_MADVISE : Z := 28.
Definition SYS_RT_SIGACTION : Z := 13.
Definition SYS_RT_SIGPROCMASK : Z := 14.
Definition SYS_RT_SIGRETURN : Z := 15.
Definition SYS_IOCTL : Z := 16.
Definition SYS_PREAD64 : Z := 17.
Definition SYS_PWRITE64 : Z := 18.
Definition SYS_READV : Z := 19.
Definition SYS_WRITEV : Z := 20.
Definition SYS_ACCESS : Z := 21.
Definition SYS_PIPE : Z := 22.
Definition SYS_DUP : Z := 32.
Definition SYS_DUP2 : Z := 33.
Definition SYS_DUP3 : Z := 292.
Definition SYS_SCHED_YIELD : Z := 24.
Definition SYS_SELECT : Z := 23.
Definition SYS_NANOSLEEP : Z := 35.
Definition SYS_SENDFILE : Z := 40.
Definition SYS_SOCKET : Z := 41.
Definition SYS_CONNECT : Z := 42.
Definition SYS_ACCEPT : Z := 43.
Definition SYS_SENDTO : Z := 44.
Definition SYS_RECVFROM : Z := 45.
Definition SYS_SENDMSG : Z := 46.
Definition SYS_RECVMSG : Z := 47.
Definition SYS_SHUTDOWN : Z := 48.
Definition SYS_BIND : Z := 49.
Definition SYS_LISTEN : Z := 50.
Definition SYS_GETSOCKNAME : Z := 51.
Definition SYS_GETPEERNAME : Z := 52.
Definition SYS_SOCKETPAIR : Z := 53.
Definition SYS_SETSOCKOPT : Z := 54.
Definition SYS_GETSOCKOPT : Z := 55.
Definition SYS_GETPID : Z := 39.
Definition SYS_CLONE : Z := 56.
Definition SYS_FORK : Z := 57.
Definition SYS_VFORK : Z := 58.
Definition SYS_EXECVE : Z := 59.
Definition SYS_EXIT : Z := 60.
Definition SYS_WAIT4 : Z := 61.
Definition SYS_KILL : Z := 62.
Definition SYS_UNAME : Z := 63.
Definition SYS_MSYNC : Z := 26.
Definition SYS_FCNTL : Z := 72.
Definition SYS_FLOCK : Z := 73.
Definition SYS_FSYNC : Z := 74.
Definition SYS_TRUNCATE : Z := 76.
Definition SYS_FTRUNCATE : Z := 77.
Definition SYS_GETDENTS : Z := 78.
Definition SYS_GETCWD : Z := 79.
Definition SYS_CHDIR : Z := 80.
Definition SYS_FCHDIR : Z := 81.
Definition SYS_RENAME : Z := 82.
Definition SYS_MKDIR : Z := 83.
Definition SYS_RMDIR : Z := 84.
Definition SYS_CREAT : Z := 85.
Definition SYS_LINK : Z := 86.
Definition SYS_UNLINK : Z := 87.
Definition SYS_SYMLINK : Z := 88.
Definition SYS_READLINK : Z := 89.
Definition SYS_CHMOD : Z := 90.
Definition SYS_FCHMOD : Z := 91.
Definition SYS_CHOWN : Z := 92.
Definition SYS_FCHOWN : Z := 93.
Definition SYS_LCHOWN : Z := 94.
Definition SYS_UMASK : Z := 95.
Definition SYS_GETTIMEOFDAY : Z := 96.
Definition SYS_GETUID : Z := 102.
Definition SYS_GETGID : Z := 104.
Definition SYS_GETEUID : Z := 107.
Definition SYS_GETEGID : Z := 108.
Definition SYS_GETPPID : Z := 110.
Definition SYS_SETPGID : Z := 109.
Definition SYS_GETPGRP : Z := 111.
Definition SYS_SETSID : Z := 112.
Definition SYS_GETGROUPS : Z := 115.
Definition SYS_GETPGID : Z := 121.
Definition SYS_SIGALTSTACK : Z := 131.
Definition SYS_PRCTL : Z := 157.
Definition SYS_ARCH_PRCTL : Z := 158.
Definition SYS_SETRLIMIT : Z := 160.
Definition SYS_SYNC : Z := 162.
Definition SYS_GETTID : Z := 186.
Definition SYS_TIME : Z := 201.
Definition SYS_FUTEX : Z := 202.
Definition SYS_EPOLL_CREATE : Z := 213.
Definition SYS_SCHED_GETAFFINITY : Z := 204.
Definition SYS_GETDENTS64 : Z := 217.
Definition SYS_SET_TID_ADDRESS : Z := 218.
Definition SYS_CLOCK_GETTIME : Z := 228.
Definition SYS_CLOCK_GETRES : Z := 229.
Definition SYS_CLOCK_NANOSLEEP : Z := 230.
Definition SYS_EXIT_GROUP : Z := 231.
Definition SYS_EPOLL_WAIT : Z := 232.
Definition SYS_EPOLL_CTL : Z := 233.
Definition SYS_TKILL : Z := 200.
Definition SYS_TGKILL : Z := 234.
Definition SYS_OPENAT : Z := 257.
Definition SYS_MKDIRAT : Z := 258.
Definition SYS_FCHOWNAT : Z := 260.
Definition SYS_NEWFSTATAT : Z := 262.
Definition SYS_UNLINKAT : Z := 263.
Definition SYS_RENAMEAT : Z := 264.
Definition SYS_LINKAT : Z := 265.
Definition SYS_SYMLINKAT : Z := 266.
Definition SYS_READLINKAT : Z := 267.
Definition SYS_FCHMODAT : Z := 268.
Definition SYS_FACCESSAT : Z := 269.
Definition SYS_PSELECT6 : Z := 270.
Definition SYS_PPOLL : Z := 271.
Definition SYS_GETRUSAGE : Z := 98.
Definition SYS_SYSINFO : Z := 99.
Definition SYS_SET_ROBUST_LIST : Z := 273.
Definition SYS_UTIMENSAT : Z := 280.
Definition SYS_EPOLL_PWAIT : Z := 281.
Definition SYS_TIMERFD_CREATE : Z := 283.
Definition SYS_EVENTFD : Z := 284.
Definition SYS_TIMERFD_SETTIME : Z := 286.
Definition SYS_TIMERFD_GETTIME : Z := 287.
Definition SYS_ACCEPT4 : Z := 288.
Definition SYS_INOTIFY_INIT : Z := 253.
Definition SYS_INOTIFY_ADD_WATCH : Z := 254.
Definition SYS_INOTIFY_RM_WATCH : Z := 255.
Definition SYS_INOTIFY_INIT1 : Z := 294.
Definition SYS_EVENTFD2 : Z := 290.
Definition SYS_EPOLL_CREATE1 : Z := 291.
Definition SYS_PIPE2 : Z := 293.
Definition SYS_PRLIMIT64 : Z := 302.
Definition SYS_GETRANDOM : Z := 318.
Definition SYS_STATX : Z := 332.
Definition SYS_RSEQ : Z := 334.
Definition SYS_CLOSE_RANGE : Z := 436.
Definition SYS_FACCESSAT2 : Z := 439.

(** The six argument registers. *)
Record Args := { a0 : Z; a1 : Z; a2 : Z; a3 : Z; a4 : Z; a5 : Z }.
