(* ===== verification/Exec.v ===== *)
(** Starting programs: [LinuxEnv::start_image], [setup_stack], [read_file] and
    [load] of [crates/linux-compat/src/lib.rs], and [execve] of
    [crates/linux-compat/src/syscall.rs].

    Emptying the address space, resetting the registers and the generic ELF
    mapper are the vendored engine's: a class, with what the first two promise
    as laws. A program whose file is in chunks is loaded by [Elf.load]. Loading
    follows one interpreter, so two levels of fuel are used and a third is
    refused by the code. *)

From S2P Require Import Prelude BTree Abi Digest Chunk Filesystem Pager Cpu Net Fd Proc Signals Text ChunkManifest Manifest Authority Env GuestMem Switch ProcCalls FileIo MemCalls PathCalls DescCalls Elf.

Class ImageLoader (M : Type) := {
  (** [reset_virtual] and [clear] *)
  mem_reset_virtual : M → M;
  mem_clear : M → M;
  (** [Cpu::reset] *)
  cpu_reset : CpuSnapshot → CpuSnapshot;
  (** [load_elf] for one file: its segments mapped and filled, its metadata
      and the interpreter it names *)
  map_elf : M → bytes → M * option (ElfMetadata * option bytes)
}.
Class ImageLoaderLaws (M V : Type) `{GuestMemory M V} `{ImageLoader M} := {
  reset_virtual_empty m x : mem_read (mem_reset_virtual m) x 1 = None;
  clear_empty m x : mem_read (mem_clear m) x 1 = None;
  cpu_reset_zero c r : Core.read_var r (cpu_reset c) = 0;
  cpu_reset_pending c : pending_exception (cpu_reset c) = pending_exception c
}.

Definition STACK_TOP : Z := 140737471578112.
Definition STACK_SIZE : Z := 16777216.
Definition BRK_GAP : Z := 1048576.
(** [perm::NONE] *)
Definition NO_ACCESS : Z := 0.
Definition MAX_STRINGS : nat := 4096.
Definition MAX_ARG_STRLEN : Z := 131072.

(** Assignments to the process. *)
Definition with_args (a e : list bytes) (p : Process) : Process :=
  {| pid := pid p; tgid := tgid p; ppid := ppid p; pgid := pgid p; fds := fds p; cwd := cwd p; umask := umask p;
     brk_end := brk_end p; mmap_next := mmap_next p; sigactions := sigactions p; sigmask := sigmask p;
     pending_signals := pending_signals p; signal_saved := signal_saved p; signal_saved_mask := signal_saved_mask p;
     altstack := altstack p; altstack_depth := altstack_depth p; altstack_frames := altstack_frames p;
     exe_path := exe_path p; argv := a; envp := e; clear_child_tid := clear_child_tid p; asid := asid p;
     vfork_done := vfork_done p; stopped := stopped p; stop_report := stop_report p |}.
Definition with_exe (x : bytes) (p : Process) : Process :=
  {| pid := pid p; tgid := tgid p; ppid := ppid p; pgid := pgid p; fds := fds p; cwd := cwd p; umask := umask p;
     brk_end := brk_end p; mmap_next := mmap_next p; sigactions := sigactions p; sigmask := sigmask p;
     pending_signals := pending_signals p; signal_saved := signal_saved p; signal_saved_mask := signal_saved_mask p;
     altstack := altstack p; altstack_depth := altstack_depth p; altstack_frames := altstack_frames p;
     exe_path := x; argv := argv p; envp := envp p; clear_child_tid := clear_child_tid p; asid := asid p;
     vfork_done := vfork_done p; stopped := stopped p; stop_report := stop_report p |}.
Definition with_asid (a : Z) (p : Process) : Process :=
  {| pid := pid p; tgid := tgid p; ppid := ppid p; pgid := pgid p; fds := fds p; cwd := cwd p; umask := umask p;
     brk_end := brk_end p; mmap_next := mmap_next p; sigactions := sigactions p; sigmask := sigmask p;
     pending_signals := pending_signals p; signal_saved := signal_saved p; signal_saved_mask := signal_saved_mask p;
     altstack := altstack p; altstack_depth := altstack_depth p; altstack_frames := altstack_frames p;
     exe_path := exe_path p; argv := argv p; envp := envp p; clear_child_tid := clear_child_tid p; asid := a;
     vfork_done := vfork_done p; stopped := stopped p; stop_report := stop_report p |}.

(** * The auxiliary vector *)
Definition auxv (l : LoadedElf) (platform random execfn : Z) : list (Z * Z) :=
  [(3, phdr_ptr (binary l)); (4, 56); (5, phdr_num (binary l)); (6, PAGE_SIZE);
   (7, match interpreter l with Some i => base_ptr i | None => 0 end); (8, 0); (9, entry_ptr (binary l));
   (11, 0); (12, 0); (13, 0); (14, 0); (15, platform); (16, 0); (23, 0); (17, 100); (25, random); (31, execfn); (0, 0)].
(** Everything [rsp] points at, in order. *)
Definition stack_words (argv_ptrs envp_ptrs : list Z) (aux : list (Z * Z)) : list Z :=
  Z.of_nat (length argv_ptrs) :: argv_ptrs ++ [0] ++ envp_ptrs ++ [0] ++ concat ((λ x, [x.1; x.2]) <$> aux).
Definition encode_words (l : list Z) : bytes := concat (le_bytes 8 <$> l).
Definition PLATFORM : bytes := Fs.str "x86_64" ++ [0].

Module Exec.
Section exec.
Context `{Host} {B : Type} `{NetworkBroker B} {M V : Type} `{GuestMemory M V} `{AddressRanges M} `{MemoryTables M}.
Context `{ImageLoader M}.
Abbreviation machine := (Machine B M V).
Abbreviation sys := (stm machine Z).
Abbreviation elf := (stm machine ElfError).

(** * The stack *)
Definition write_stack (addr : Z) (b : bytes) : elf () := λ w,
  let '(m, ok) := mem_write (mem w) addr b in (put_mem m w, if ok then Ok () else Err StackWrite).
Definition push_bytes (top : Z) (b : bytes) : elf Z :=
  do! top <- Elf.pure_res (sub64 top (zlen b)) in
  do! _ <- write_stack top b in
  sret top.
(** The addresses of strings pushed in order, and the top after the last. *)
Fixpoint push_strings (top : Z) (l : list bytes) : elf (Z * list Z) :=
  match l with
  | [] => sret (top, [])
  | s :: l =>
      do! p <- push_bytes top (s ++ [0]) in
      do! r <- push_strings p l in
      sret (r.1, p :: r.2)
  end.
Definition map_stack : elf () := λ w,
  let '(m, ok) := mem_map (mem w) (STACK_TOP - STACK_SIZE) STACK_SIZE RW_INIT in
  (put_mem m w, if ok then Ok () else Err StackUnmapped).
Definition random16 : elf bytes :=
  do! a <- Elf.to_elf (λ _, LoaderFailed) next_random in
  do! b <- Elf.to_elf (λ _, LoaderFailed) next_random in
  sret (le_bytes 8 a ++ le_bytes 8 b).
Definition write_vectors (top : Z) (words : list Z) : elf () :=
  let b := encode_words words in
  do! rsp <- Elf.pure_res (sub64 top (zlen b)) in
  let rsp := Z.land rsp (U64_MAX - 15) in
  do! _ <- write_stack rsp b in
  modify (on_core (Core.write_var RSP rsp)).
Definition setup_stack (l : LoadedElf) : elf () :=
  do! _ <- map_stack in
  do! p <- gets proc in
  do! a <- push_strings STACK_TOP (argv p) in
  do! e <- push_strings a.1 (envp p) in
  do! rnd <- random16 in
  do! random <- push_bytes e.1 rnd in
  do! execfn <- push_bytes random (exe_path p ++ [0]) in
  do! platform <- push_bytes execfn PLATFORM in
  write_vectors platform (stack_words a.2 e.2 (auxv l platform random execfn)).

(** * Loading a file *)
Definition read_file (path : bytes) : elf bytes :=
  do! _ <- Elf.verify path in
  do! r <- Elf.to_elf CannotResolve (query (λ w, resolve (fs w) (cwd (proc w)) path true)) in
  do! node <- Elf.pure_res (ok_or (r_node r) NoImage) in
  do! n <- query (λ w, map_err CannotResolve (node_at (fs w) node)) in
  match kind n with File data => sret (vdata data) | _ => sfail NotChunked end.
Fixpoint load_elf (fuel : nat) (path : bytes) (depth : Z) : elf LoadedElf :=
  match fuel with
  | O => sfail NestedInterpreter
  | S fuel =>
      do! file <- read_file path in
      do! x <- (λ w, let '(m, r) := map_elf (mem w) file in (put_mem m w, ok_or r LoaderFailed)) in
      do! interp <- match x.2 with
                    | None => sret None
                    | Some p => if depth =? 0 then do! l <- load_elf fuel p (depth + 1) in sret (Some (binary l))
                                else sfail NestedInterpreter
                    end in
      sret {| binary := x.1; interpreter := interp |}
  end.
Definition is_chunked (path : bytes) : elf bool := query (λ w,
  match resolve (fs w) (cwd (proc w)) path true with
  | Ok r =>
      match r_node r with
      | Some node =>
          let! n := map_err CannotResolve (node_at (fs w) node) in
          Ok (match kind n with Chunked _ => true | _ => false end)
      | None => Ok false
      end
  | Err _ => Ok false
  | Panic => Panic
  end).

(** * A fresh address space *)
Definition fresh_space (w : machine) : machine :=
  let s := sched (tasks (env w)) in
  let others_alive := negb (bool_decide (parked s = [])) || negb (bool_decide (group_maps s = ∅)) in
  let m := if others_alive then mem_reset_virtual (mem w) else mem_clear (mem w) in
  put_mem (mem_map m 0 PAGE_SIZE NO_ACCESS).1 (on_core (λ c, Core.set_pending None (cpu_reset c)) w).
Definition set_exe (path : bytes) : elf () :=
  do! full <- (if bool_decide (head path = Some 47) then sret path
               else
                 do! d <- Elf.to_elf CannotResolve (query (λ w,
                   Fs.abs_path_of (S (length (nodes (fs w)))) (fs w) (cwd (proc w)))) in
                 sret ((if bool_decide (d = [47]) then d else d ++ [47]) ++ path)) in
  modify (λ w, put_proc (with_exe full (proc w)) w).
Definition default_argv (path : bytes) (w : machine) : machine :=
  if bool_decide (argv (proc w) = []) then put_proc (with_args [path] (envp (proc w)) (proc w)) w else w.
(** [x64-engine/src/build.rs] *)
Definition on_boot (entry : Z) (w : machine) : machine :=
  on_core (λ c, Core.write_var PC entry (cpu_reset c)) w.
Definition loaded_end (i : ElfMetadata) : res ElfError Z := add64 (base_ptr i) (em_length i).
Definition image_limit (l : LoadedElf) : res ElfError Z :=
  let! b := loaded_end (binary l) in
  match interpreter l with
  | None => Ok b
  | Some i => let! e := loaded_end i in Ok (Z.max b e)
  end.
Definition start_image (path : bytes) : elf () :=
  do! _ <- modify fresh_space in
  do! chunked <- is_chunked path in
  do! l <- (if chunked : bool then Elf.load 3 path 0 else load_elf 2 path 0) in
  do! _ <- set_exe path in
  do! _ <- modify (default_argv path) in
  do! _ <- modify (on_boot (match interpreter l with Some i => entry_ptr i | None => entry_ptr (binary l) end)) in
  do! _ <- setup_stack l in
  do! limit <- Elf.pure_res (image_limit l) in
  do! brk <- Elf.pure_res (add64 (align_up limit PAGE_SIZE) BRK_GAP) in
  do! _ <- modify (λ w, MemCall.put_cell (brk_end (proc w)) brk w) in
  modify (λ w, MemCall.put_cell (mmap_next (proc w)) MMAP_BASE w).

(** * execve *)
Fixpoint string_vec_loop (fuel : nat) (ptr : Z) (out : list bytes) : sys (list bytes) :=
  match fuel with
  | O => sfail E2BIG
  | S fuel =>
      do! entry <- Copy.read_mem ptr 8 in
      if le_val entry =? 0 then sret out
      else
        do! s <- Copy.read_cstr_limit (le_val entry) MAX_ARG_STRLEN in
        do! next <- query (λ _, add64 ptr 8) in
        string_vec_loop fuel next (out ++ [s])
  end.
Definition read_string_vec (ptr : Z) : sys (list bytes) :=
  if ptr =? 0 then sret [] else string_vec_loop MAX_STRINGS ptr [].

(** Whether the file is in chunks, or the outcome that ends the call. *)
Definition exec_kind (node : nat) : sys (bool + Outcome) :=
  do! n <- Path.node_of node in
  match kind n with
  | File data => if bool_decide (take 4 (vdata data) = ELF_MAGIC) then sret (inl false) else sfail ENOEXEC
  | Chunked _ =>
      do! r <- query (λ w, Fs.read_node_range (fs w) node 0 4) in
      match r with
      | Chunk.Ready b => if bool_decide (vdata b = ELF_MAGIC) then sret (inl true) else sfail ENOEXEC
      | Missing hash => do! o <- Io.wait_for_file_chunk hash in sret (inr o)
      | Invalid _ _ _ => sfail EIO
      end
  | Dir _ => sfail EISDIR
  | _ => sfail EACCES
  end.
(** The metadata of a chunked image and of its interpreter, before the old
    address space is given up; the outcome when the call must end here. *)
Definition preflight (path : bytes) : sys (option Outcome) := λ w,
  match Elf.prepare 3 path 0 w with
  | (w, Ok _) => (w, Ok None)
  | (w, Err why) =>
      if page_in_wait (waits (env w)) then (Copy.replay_exception w, Ok (Some (Exit Interrupted)))
      else (w, Err (if is_refusal why then EACCES else ENOEXEC))
  | (w, Panic) => (w, Panic)
  end.
Definition clear_sigactions (w : machine) : machine := on_env (λ e, let s := shared e in
  put_shared {| cells := cells s; sigtables := alter (λ _, ∅) (sigactions (cur (tasks e))) (sigtables s);
                done_flags := done_flags s; next_cell := next_cell s; next_asid := next_asid s |} e) w.
(** The address space id of the new image; the old one's pages are dropped. *)
Definition renew_asid (w : machine) : machine :=
  let old := asid (proc w) in
  let '(a, s) := Procs.alloc_asid (shared (env w)) in
  on_env (λ e, put_pager (drop_space (pager e) old) e) (put_proc (with_asid a (proc w)) (on_env (put_shared s) w)).
Definition enter_image (w : machine) : machine := on_core (λ c,
  Core.leave_block (Core.set_pending None (Core.set_exception (Core.external (Core.read_var PC c)) c))) w.
(** Past the point of no return. *)
Definition replace_image (path : bytes) : sys Outcome := λ w,
  let n := icount (core w) in
  match start_image path (renew_asid w) with
  | (w, Ok _) => (enter_image (on_core (Core.set_icount n) w), Ok Switched)
  | (w, Err _) => Calls.task_exit (Calls.encode_exit_status 127) true (on_core (Core.set_icount n) w)
  | (w, Panic) => (w, Panic)
  end.
Definition exec_image (path : bytes) (a e : list bytes) : sys Outcome :=
  do! _ <- modify (λ w, Calls.release_vfork (clear_sigactions (put_proc (with_args a e (proc w)) w))) in
  do! _ <- Desc.my_heap Fds.close_cloexec in
  replace_image path.
Definition sys_execve (path_ptr argv_ptr envp_ptr : Z) : sys Outcome :=
  do! path <- Path.path_arg path_ptr in
  do! a <- read_string_vec argv_ptr in
  do! e <- read_string_vec envp_ptr in
  do! r <- query (λ w, resolve (fs w) (cwd (proc w)) path true) in
  do! node <- Path.found r in
  do! k <- exec_kind node in
  match k with
  | inr o => sret o
  | inl false => exec_image path a e
  | inl true =>
      do! stop <- preflight path in
      match stop with Some o => sret o | None => exec_image path a e end
  end.

(** * Loading by the host *)
(** A new root process and no other task. *)
Definition new_root (w : machine) : machine :=
  let old := proc w in
  let others := parked (sched (tasks (env w))) in
  let '(p, h, s) := Procs.initial (heap (env w)) (shared (env w)) in
  let w := on_env (λ e, put_shared s (put_heap h e)) w in
  let w := Switch.drop_process old (put_proc (with_args (argv old) (envp old) p) w) in
  Calls.drop_tasks others (on_sched (λ _, Sched.new) w).
Definition forget_host (w : machine) : machine :=
  let w := on_env (λ e, put_exit_code None (put_last_group ROOT_PID e)) w in
  let w := on_console (λ c, set_stdio_input [] (set_stdio_pty None c)) w in
  on_waits (λ x, set_page_in_recompile false (set_page_in_wait false (set_terminal_input_wait false x))) w.
Definition load (path : bytes) : elf () :=
  do! _ <- modify (λ w, on_waits (set_file_chunk_wait None)
                          (on_env (λ e, put_pager (drop_space (pager e) (asid (cur (tasks e)))) e) w)) in
  do! _ <- modify new_root in
  do! _ <- modify forget_host in
  do! _ <- modify (λ w, let '(a, s) := Procs.alloc_asid (shared (env w)) in
                        put_proc (with_asid a (proc w)) (on_env (put_shared s) w)) in
  start_image path.
End exec.
End Exec.
