(* ===== verification/Dispatch.v ===== *)
(** The kernel's entry: [handle], [dispatch] and [dispatch_simple] of
    [crates/linux-compat/src/syscall.rs], and [handle_exception] and
    [issue_syscall] of [crates/linux-compat/src/lib.rs].

    The arms of a [match] on the number are a table from numbers to calls; no
    number occurs twice, so the order of the arms does not matter. What only
    prints or records (tracing, the diagnostic trail) is left out. *)

From S2P Require Import Prelude BTree Abi Digest Chunk Filesystem Pager Net Cpu Fd Proc Signals Authority Env GuestMem Switch ProcCalls Inotify FileIo Streams Poll MemCalls PathCalls Sockets DescCalls Elf Sysno Exec.

(** Exceptions of the vendored engine the kernel answers. *)
Definition ExcSyscall : Z := 257.
Definition ReadUnmapped : Z := 513.
Definition ReadPerm : Z := 514.
Definition ReadUninitialized : Z := 517.
Definition WriteUnmapped : Z := 769.
Definition WritePerm : Z := 770.
Definition ExecViolation : Z := 1025.
Definition ARCH_SET_FS : Z := 4098.
Definition ARCH_GET_FS : Z := 4099.
Definition TIMER_ABSTIME : Z := 1.

Definition fault_access (code : Z) : option AccessKind :=
  if (code =? ReadUnmapped) || (code =? ReadPerm) || (code =? ReadUninitialized) then Some AccRead
  else if (code =? WriteUnmapped) || (code =? WritePerm) then Some AccWrite
  else if code =? ExecViolation then Some AccExecute
  else None.

Definition from_clone_args (a : Args) : CloneSpec :=
  {| c_flags := a0 a; new_sp := a1 a; parent_tid := a2 a; child_tid := a3 a; c_tls := a4 a |}.

(** The arm of a number. *)
Fixpoint arm {A} (nr : Z) (l : list (Z * A)) : option A :=
  match l with
  | [] => None
  | (n, x) :: l => if nr =? n then Some x else arm nr l
  end.

Module Kernel.
Section kernel.
Context `{Host} {B : Type} `{NetworkBroker B} {M V : Type} `{GuestMemory M V} `{AddressRanges M} `{MemoryTables M}.
Context `{ImageLoader M}.
Abbreviation machine := (Machine B M V).
Abbreviation sys := (stm machine Z).

(** * Calls written out in the dispatcher *)
Definition fchown (fd : Z) : sys Z := do! _ <- Desc.get_entry fd in sret 0.
Definition arch_prctl (op addr : Z) : sys Z :=
  if op =? ARCH_SET_FS then do! _ <- modify (on_core (Core.write_var FS_OFFSET addr)) in sret 0
  else if op =? ARCH_GET_FS then
    do! f <- gets (λ w, Core.read_var FS_OFFSET (core w)) in
    do! _ <- Copy.write_mem addr (le_bytes 8 f) in sret 0
  else sfail EINVAL.
Definition getpgid (target : Z) : sys Z := query (λ w, Sig.sys_getpgid target (tasks (env w))).
Definition setpgid (target g : Z) : sys Z := λ w,
  let '(t, r) := Sig.sys_setpgid target g (tasks (env w)) in (on_tasks (λ _, t) w, r).
Definition setsid : sys Z := λ w,
  let g := tgid (proc w) in
  (on_tasks (λ t, (Sig.set_group_pgid g g t).1) w, Ok g).
Definition set_tid_address (addr : Z) : sys Z :=
  do! _ <- modify (λ w, put_proc (with_clear_tid addr (proc w)) w) in gets (λ w, pid (proc w)).

(** * [dispatch_simple], by section of the [match] *)
Definition file_calls (a : Args) : list (Z * sys Z) :=
  [(SYS_OPEN, Path.sys_openat AT_FDCWD (a0 a) (a1 a) (a2 a));
   (SYS_CREAT, Path.sys_openat AT_FDCWD (a0 a) (Z.lor (Z.lor O_WRONLY O_CREAT) O_TRUNC) (a1 a));
   (SYS_OPENAT, Path.sys_openat (a0 a) (a1 a) (a2 a) (a3 a));
   (SYS_CLOSE, Desc.sys_close (a0 a));
   (SYS_LSEEK, Path.sys_lseek (a0 a) (a1 a) (a2 a));
   (SYS_GETDENTS64, Path.sys_getdents64 (a0 a) (a1 a) (a2 a));
   (SYS_GETDENTS, sfail ENOSYS);
   (SYS_STAT, Path.sys_statpath AT_FDCWD (a0 a) (a1 a) true);
   (SYS_LSTAT, Path.sys_statpath AT_FDCWD (a0 a) (a1 a) false);
   (SYS_FSTAT, Path.sys_fstat (a0 a) (a1 a));
   (SYS_NEWFSTATAT, Path.sys_newfstatat (a0 a) (a1 a) (a2 a) (a3 a));
   (SYS_STATX, Path.sys_statx (a0 a) (a1 a) (a2 a) (a4 a));
   (SYS_ACCESS, Path.sys_faccessat AT_FDCWD (a0 a));
   (SYS_FACCESSAT, Path.sys_faccessat (a0 a) (a1 a));
   (SYS_FACCESSAT2, Path.sys_faccessat (a0 a) (a1 a));
   (SYS_READLINK, Path.sys_readlinkat AT_FDCWD (a0 a) (a1 a) (a2 a));
   (SYS_READLINKAT, Path.sys_readlinkat (a0 a) (a1 a) (a2 a) (a3 a));
   (SYS_MKDIR, Path.sys_mkdirat AT_FDCWD (a0 a) (a1 a));
   (SYS_MKDIRAT, Path.sys_mkdirat (a0 a) (a1 a) (a2 a));
   (SYS_RMDIR, Path.sys_unlinkat AT_FDCWD (a0 a) AT_REMOVEDIR);
   (SYS_UNLINK, Path.sys_unlinkat AT_FDCWD (a0 a) 0);
   (SYS_UNLINKAT, Path.sys_unlinkat (a0 a) (a1 a) (a2 a));
   (SYS_RENAME, Path.sys_renameat AT_FDCWD (a0 a) AT_FDCWD (a1 a));
   (SYS_RENAMEAT, Path.sys_renameat (a0 a) (a1 a) (a2 a) (a3 a));
   (SYS_LINK, Path.sys_linkat AT_FDCWD (a0 a) AT_FDCWD (a1 a));
   (SYS_LINKAT, Path.sys_linkat (a0 a) (a1 a) (a2 a) (a3 a));
   (SYS_SYMLINK, Path.sys_symlinkat (a0 a) AT_FDCWD (a1 a));
   (SYS_SYMLINKAT, Path.sys_symlinkat (a0 a) (a1 a) (a2 a));
   (SYS_CHDIR, Path.sys_chdir (a0 a));
   (SYS_FCHDIR, Path.sys_fchdir (a0 a));
   (SYS_GETCWD, Path.sys_getcwd (a0 a) (a1 a));
   (SYS_CHMOD, Path.sys_chmodat AT_FDCWD (a0 a) (a1 a));
   (SYS_FCHMODAT, Path.sys_chmodat (a0 a) (a1 a) (a2 a));
   (SYS_FCHMOD, Path.sys_fchmod (a0 a) (a1 a));
   (SYS_CHOWN, sret 0); (SYS_LCHOWN, sret 0); (SYS_FCHOWNAT, sret 0);
   (SYS_FCHOWN, fchown (a0 a));
   (SYS_UTIMENSAT, Misc.sys_utimensat (a0 a) (a1 a) (a2 a) (a3 a));
   (SYS_UMASK, Misc.sys_umask (a0 a));
   (SYS_DUP, Desc.sys_dup (a0 a) 0 false);
   (SYS_DUP2, Desc.sys_dup2 (a0 a) (a1 a) false);
   (SYS_DUP3, Desc.sys_dup3 (a0 a) (a1 a) (a2 a));
   (SYS_FCNTL, Desc.sys_fcntl (a0 a) (a1 a) (a2 a));
   (SYS_FSYNC, sret 0); (SYS_SYNC, sret 0); (SYS_FLOCK, sret 0)].
Definition socket_calls (a : Args) : list (Z * sys Z) :=
  [(SYS_SOCKET, Sock.sys_socket (a0 a) (a1 a));
   (SYS_CONNECT, Sock.sys_connect (a0 a) (a1 a) (a2 a));
   (SYS_SHUTDOWN, Sock.sys_shutdown (a0 a) (a1 a));
   (SYS_GETPEERNAME, Sock.sys_getpeername (a0 a) (a1 a) (a2 a));
   (SYS_GETSOCKNAME, Sock.sys_getsockname (a0 a) (a1 a) (a2 a));
   (SYS_SETSOCKOPT, Sock.sys_setsockopt (a0 a));
   (SYS_GETSOCKOPT, Sock.sys_getsockopt (a0 a) (a3 a) (a4 a));
   (SYS_SOCKETPAIR, Stream.sys_socketpair (a0 a) (a1 a) (a3 a));
   (SYS_BIND, Sock.sys_bind (a1 a) (a2 a));
   (SYS_LISTEN, sfail EOPNOTSUPP); (SYS_ACCEPT, sfail EOPNOTSUPP); (SYS_ACCEPT4, sfail EOPNOTSUPP);
   (SYS_EVENTFD, Stream.sys_eventfd (a0 a) 0);
   (SYS_EVENTFD2, Stream.sys_eventfd (a0 a) (a1 a));
   (SYS_INOTIFY_INIT, Watching.sys_inotify_init 0);
   (SYS_INOTIFY_INIT1, Watching.sys_inotify_init (a0 a));
   (SYS_INOTIFY_ADD_WATCH, Watching.sys_inotify_add_watch (a0 a) (a1 a) (a2 a));
   (SYS_INOTIFY_RM_WATCH, Watching.sys_inotify_rm_watch (a0 a) (a1 a));
   (SYS_TIMERFD_CREATE, Stream.sys_timerfd_create (a1 a));
   (SYS_TIMERFD_SETTIME, Stream.sys_timerfd_settime (a0 a) (a1 a) (a2 a) (a3 a));
   (SYS_TIMERFD_GETTIME, Stream.sys_timerfd_gettime (a0 a) (a1 a));
   (SYS_EPOLL_CREATE, Polling.sys_epoll_create (a1 a));
   (SYS_EPOLL_CREATE1, Polling.sys_epoll_create (a1 a));
   (SYS_EPOLL_CTL, Polling.sys_epoll_ctl (a0 a) (a1 a) (a2 a) (a3 a))].
Definition memory_calls (a : Args) : list (Z * sys Z) :=
  [(SYS_MMAP, MemCall.sys_mmap (a0 a) (a1 a) (a2 a) (a3 a) (a4 a) (a5 a));
   (SYS_MSYNC, MemCall.sys_msync (a0 a) (a1 a));
   (SYS_MUNMAP, MemCall.sys_munmap (a0 a) (a1 a));
   (SYS_MPROTECT, MemCall.sys_mprotect (a0 a) (a1 a) (a2 a));
   (SYS_MREMAP, MemCall.sys_mremap (a0 a) (a1 a) (a2 a) (a3 a));
   (SYS_MADVISE, sret 0);
   (SYS_BRK, MemCall.sys_brk (a0 a));
   (SYS_RT_SIGACTION, Calls.sys_rt_sigaction (a0 a) (a1 a) (a2 a));
   (SYS_SIGALTSTACK, Calls.sys_sigaltstack (a0 a) (a1 a));
   (SYS_ARCH_PRCTL, arch_prctl (a0 a) (a1 a))].
Definition task_calls (a : Args) : list (Z * sys Z) :=
  [(SYS_UNAME, Misc.sys_uname (a0 a));
   (SYS_GETRANDOM, Misc.sys_getrandom (a0 a) (a1 a));
   (SYS_CLOCK_GETTIME, Misc.sys_clock_gettime (a0 a) (a1 a));
   (SYS_CLOCK_GETRES, Misc.sys_clock_getres (a1 a));
   (SYS_GETTIMEOFDAY, Misc.sys_gettimeofday (a0 a));
   (SYS_TIME, Misc.sys_time (a0 a));
   (SYS_GETPID, gets (λ w, tgid (proc w)));
   (SYS_GETPGRP, gets (λ w, pgid (proc w)));
   (SYS_GETPGID, getpgid (a0 a));
   (SYS_SETPGID, setpgid (a0 a) (a1 a));
   (SYS_GETTID, gets (λ w, pid (proc w)));
   (SYS_GETPPID, gets (λ w, ppid (proc w)));
   (SYS_GETUID, sret 0); (SYS_GETGID, sret 0); (SYS_GETEUID, sret 0); (SYS_GETEGID, sret 0); (SYS_GETGROUPS, sret 0);
   (SYS_SETSID, setsid);
   (SYS_SET_TID_ADDRESS, set_tid_address (a0 a));
   (SYS_PRLIMIT64, Misc.sys_prlimit64 (a3 a));
   (SYS_SETRLIMIT, sret 0);
   (SYS_PRCTL, Misc.sys_prctl (a0 a) (a1 a));
   (SYS_SCHED_GETAFFINITY, Misc.sys_sched_getaffinity (a1 a) (a2 a));
   (SYS_SET_ROBUST_LIST, sfail ENOSYS); (SYS_RSEQ, sfail ENOSYS);
   (SYS_SYSINFO, Misc.sys_sysinfo (a0 a));
   (SYS_GETRUSAGE, Misc.sys_getrusage (as_i64 (a0 a)) (a1 a));
   (SYS_CLOSE_RANGE, Desc.sys_close_range (a0 a) (a1 a) (a2 a))].
Definition simple_calls (a : Args) : list (Z * sys Z) :=
  file_calls a ++ socket_calls a ++ memory_calls a ++ task_calls a.
Definition dispatch_simple (nr : Z) (a : Args) : sys Z := default (sfail ENOSYS) (arm nr (simple_calls a)).

(** * [dispatch] *)
(** [.into()] *)
Definition returning (m : sys Z) : sys Outcome := do! v <- m in sret (Value v).
Definition blocking_calls (a : Args) : list (Z * sys Outcome) :=
  [(SYS_EXIT, Calls.task_exit (Calls.encode_exit_status (a0 a)) false);
   (SYS_EXIT_GROUP, Calls.task_exit (Calls.encode_exit_status (a0 a)) true);
   (SYS_READ, Stream.outcome_read (a0 a) (a1 a) (a2 a));
   (SYS_PREAD64, Io.sys_pread (a0 a) (a1 a) (a2 a) (a3 a));
   (SYS_WRITE, Stream.outcome_write (a0 a) (a1 a) (a2 a));
   (SYS_PWRITE64, Io.sys_pwrite (a0 a) (a1 a) (a2 a) (a3 a));
   (SYS_FTRUNCATE, Io.sys_ftruncate (a0 a) (a1 a));
   (SYS_READV, Sock.outcome_vectored (a0 a) (a1 a) (a2 a) false);
   (SYS_WRITEV, Sock.outcome_vectored (a0 a) (a1 a) (a2 a) true);
   (SYS_IOCTL, Desc.outcome_ioctl (a0 a) (a1 a) (a2 a));
   (SYS_FORK, Calls.sys_clone_impl Calls.fork_spec);
   (SYS_VFORK, Calls.sys_clone_impl Calls.vfork_spec);
   (SYS_CLONE, Calls.sys_clone_impl (from_clone_args a));
   (SYS_EXECVE, Exec.sys_execve (a0 a) (a1 a) (a2 a));
   (SYS_WAIT4, Calls.sys_wait4 (a0 a) (a1 a) (a2 a));
   (SYS_PIPE, returning (Stream.sys_pipe (a0 a) 0));
   (SYS_PIPE2, returning (Stream.sys_pipe (a0 a) (a1 a)));
   (SYS_FUTEX, Calls.sys_futex (a0 a) (a1 a) (a2 a) (a3 a));
   (SYS_RT_SIGRETURN, Switch.sys_rt_sigreturn);
   (SYS_RT_SIGPROCMASK, Calls.sys_rt_sigprocmask (a0 a) (a1 a) (a2 a));
   (SYS_SCHED_YIELD, Calls.sys_yield);
   (SYS_KILL, Calls.sys_kill (a0 a) (a1 a));
   (SYS_TGKILL, Calls.sys_kill (a1 a) (a2 a));
   (SYS_TKILL, Calls.sys_kill (a0 a) (a1 a));
   (SYS_NANOSLEEP, Calls.outcome_nanosleep (a0 a) false);
   (SYS_CLOCK_NANOSLEEP, Calls.outcome_nanosleep (a2 a) (has_flag (a1 a) TIMER_ABSTIME));
   (SYS_POLL, Polling.outcome_poll (a0 a) (a1 a) (a2 a) false);
   (SYS_PPOLL, Polling.outcome_poll (a0 a) (a1 a) (a2 a) true);
   (SYS_SENDTO, Sock.sys_sendto (a0 a) (a1 a) (a2 a) (a4 a) (a5 a));
   (SYS_RECVFROM, Sock.sys_recvfrom (a0 a) (a1 a) (a2 a) (a4 a) (a5 a));
   (SYS_SENDMSG, Sock.sys_sendmsg (a0 a) (a1 a));
   (SYS_RECVMSG, Sock.sys_recvmsg (a0 a) (a1 a));
   (SYS_EPOLL_WAIT, Polling.sys_epoll_wait (a0 a) (a1 a) (a2 a) (a3 a));
   (SYS_EPOLL_PWAIT, Polling.sys_epoll_wait (a0 a) (a1 a) (a2 a) (a3 a));
   (SYS_SELECT, Polling.sys_select (a0 a) (a1 a) (a2 a) (a3 a) (a4 a) false);
   (SYS_PSELECT6, Polling.sys_select (a0 a) (a1 a) (a2 a) (a3 a) (a4 a) true);
   (SYS_SENDFILE, Sock.sys_sendfile (a0 a) (a1 a) (a2 a) (a3 a))].
Definition dispatch (nr : Z) (a : Args) : sys Outcome :=
  default (returning (dispatch_simple nr a)) (arm nr (blocking_calls a)).

(** * [handle] *)
Definition read_args (c : CpuSnapshot) : Args :=
  {| a0 := Core.read_var RDI c; a1 := Core.read_var RSI c; a2 := Core.read_var RDX c; a3 := Core.read_var R10 c;
     a4 := Core.read_var R8 c; a5 := Core.read_var R9 c |}.
(** [match outcome { Outcome::Exit(exit) => Some(exit), _ => None }] *)
Definition ended (m : sys Outcome) : sys (option VmExit) := λ w,
  match m w with
  | (w, Ok (Exit e)) => (w, Ok (Some e))
  | (w, Panic) => (w, Panic)
  | (w, _) => (w, Ok None)
  end.
Definition take_signal : sys SignalExitAction := λ w,
  match Sig.pending_signal_action (shared (env w)) (proc w) with
  | Ok (p, act) => (put_proc p w, Ok act)
  | _ => (w, Panic)
  end.
(** [rax] and the resumption after the instruction. *)
Definition finish (value : Z) (w : machine) : machine := on_core (λ c,
  Core.set_exception (Core.external (Core.read_var NEXT_PC c)) (Core.write_var RAX value c)) w.
Definition conclude (m : sys Outcome) : sys (option VmExit) := λ w,
  match m w with
  | (w, Err e) => if e =? PAGE_IN_RESTART then (w, Ok (Some Interrupted)) else (finish (neg e) w, Ok None)
  | (w, Ok (Value v)) => (finish v w, Ok None)
  | (w, Ok Switched) => (w, Ok None)
  | (w, Ok (Exit e)) => (w, Ok (Some e))
  | (w, Panic) => (w, Panic)
  end.
Definition handle : sys (option VmExit) :=
  do! c <- gets core in
  do! act <- take_signal in
  match act with
  | Terminate sig => ended (Calls.task_exit sig true)
  | Stop sig => ended (Switch.stop_thread_group sig true)
  | _ => conclude (dispatch (Core.read_var RAX c) (read_args c))
  end.

(** * [handle_exception] *)
(** What a page that is there does: [None] when it could not be written. *)
Definition fill_fault (page : Z) (b : bytes) (prm : Z) (access : AccessKind) : sys (option VmExit) := λ w,
  let '(m, written) := mem_write (mem w) page b in
  if negb written then (put_mem m w, Ok None)
  else
    let '(m, updated) := mem_update_perm m page PAGE_SIZE prm in
    let w := put_mem m w in
    if negb updated then (w, Ok None)
    else
      let address := exc_value (exception (core w)) in
      let w := on_core (Core.set_exception {| exc_code := 0; exc_value := 0 |}) w in
      match mark_resident (pager (env w)) (asid (proc w)) page access with
      | Ok p =>
          let w := on_waits (set_page_in_wait false) (on_env (put_pager p) w) in
          match access with
          | AccExecute =>
              (on_waits (set_page_in_recompile true) (on_core (λ c, Core.leave_block (Core.write_var PC address c)) w),
               Ok (Some Interrupted))
          | _ => (w, Ok (Some Running))
          end
      | Err e => (w, Err e)
      | Panic => (w, Panic)
      end.
Definition resolve_access (access : AccessKind) : sys (option VmExit) := λ w,
  let '(p, r) := resolve_fault (pager (env w)) (fs w) (asid (proc w)) (exc_value (exception (core w))) access in
  let w := on_env (put_pager p) w in
  match r with
  | Ok (PageReady page b prm) => fill_fault page b prm access w
  | Ok (PageMissing _) => (on_waits (set_page_in_wait true) w, Ok (Some Interrupted))
  | Ok _ => (w, Ok None)
  | Err e => (w, Err e)
  | Panic => (w, Panic)
  end.
Definition handle_exception : sys (option VmExit) :=
  do! c <- gets core in
  let code := exc_code (exception c) in
  do! r <- match fault_access code with Some access => resolve_access access | None => sret None end in
  match r with
  | Some e => sret (Some e)
  | None => if code =? ExcSyscall then handle else sret None
  end.

(** * [issue_syscall] *)
Definition present (nr : Z) (a : Args) (w : machine) : machine := on_core (λ c,
  Core.write_var R9 (a5 a) (Core.write_var R8 (a4 a) (Core.write_var R10 (a3 a)
    (Core.write_var RDX (a2 a) (Core.write_var RSI (a1 a) (Core.write_var RDI (a0 a)
      (Core.write_var RAX nr (Core.write_var NEXT_PC (wrapping_add64 (Core.read_var PC c) SYSCALL_INSN_LEN) c)))))))) w.
Definition issue_syscall (nr : Z) (a : Args) : sys (Z * bool) :=
  do! _ <- modify (present nr a) in
  do! e <- handle in
  do! v <- gets (λ w, Core.read_var RAX (core w)) in
  sret (as_i64 v, bool_decide (is_Some e)).
End kernel.
End Kernel.
