(* ===== verification/ExecSpec.v ===== *)
(** The initial stack: what [setup_stack] writes is what a program, and the
    kernel's own [read_string_vec], read back. *)

From S2P Require Import Prelude BTree Abi Digest Chunk Filesystem Pager PagerView PagerOps PagerFault Cpu Net Fd Proc Signals Text ChunkManifest Manifest Authority Env GuestMem GuestMemSpec Switch ProcCalls FileIo MemCalls MemCallsSpec PathCalls DescCalls Elf Exec PathSpec.

(** What a string pushed on the stack is made of. *)
Definition c_string (s : bytes) : Prop := byte_list s ∧ zlen s < MAX_ARG_STRLEN ∧ (0 ∉ s).
Fixpoint strings_size (l : list bytes) : Z :=
  match l with [] => 0 | s :: l => zlen s + 1 + strings_size l end.
(** The bytes [setup_stack] needs, alignment included. *)
Definition stack_need (p : Process) : Z :=
  strings_size (argv p) + strings_size (envp p) + 16 + (zlen (exe_path p) + 1) + 7 +
  8 * (Z.of_nat (length (argv p)) + Z.of_nat (length (envp p)) + 39) + 15.
Abbreviation STACK_BASE := (STACK_TOP - STACK_SIZE).

Lemma strings_size_nonneg l : 0 ≤ strings_size l.
Proof. induction l as [|s l IH]; cbn; [lia|]. pose proof (zlen_nonneg s). lia. Qed.

Lemma byte_list_nul : byte_list [0].
Proof. constructor; [split; [lia|reflexivity]|constructor]. Qed.

Lemma land_sixteen x : is_u64 x → Z.land x (U64_MAX - 15) = x / 16 * 16.
Proof.
  intros Hx. transitivity (x / 2 ^ 4 * 2 ^ 4); [|done]. rewrite <- Z.shiftr_div_pow2, <- Z.shiftl_mul_pow2, <- Z.ldiff_ones_r by lia.
  apply Z.bits_inj'. intros n Hn. rewrite Z.land_spec, Z.ldiff_spec. destruct (decide (n < 64)) as [Hlt|Hge].
  - f_equal. change (U64_MAX - 15) with (wrap 64 (Z.lnot (Z.ones 4))). unfold wrap. rewrite Z.mod_pow2_bits_low by lia.
    by rewrite Z.lnot_spec.
  - rewrite (Z.bits_above_log2 x) by (destruct (decide (x = 0)) as [->|]; [cbn; lia|unfold fits in Hx;
      try (pose proof (Z.log2_lt_pow2 x 64)); lia]). done.
Qed.

Section stack.
Context `{Host} {B : Type} `{NetworkBroker B} {M V : Type} `{GuestMemoryLaws M V} `{AddressRanges M}.
Context `{!AddressRangesLaws M V} `{MemoryTables M} `{ImageLoader M}.
Abbreviation machine := (Machine B M V).
Implicit Types w : machine.

(** * Bytes in memory *)
Definition holds (m : M) (a : Z) (b : bytes) : Prop := mem_read m a (zlen b) = Some b.
Definition stack_mapped (m : M) : Prop := ∀ x, STACK_BASE ≤ x < STACK_TOP → is_Some (mem_byte m x).

Lemma stack_bounds : 0 < STACK_BASE ∧ STACK_TOP < 2 ^ 64 ∧ aligned STACK_BASE ∧ aligned STACK_TOP.
Proof. repeat split; reflexivity. Qed.

Lemma holds_app m a b c :
  a + zlen b + zlen c ≤ 2 ^ 64 → holds m a (b ++ c) ↔ holds m a b ∧ holds m (a + zlen b) c.
Proof.
  intros He. pose proof (zlen_nonneg b). pose proof (zlen_nonneg c). unfold holds. rewrite zlen_app, mem_read_app by lia.
  split; [|by intros [-> ->]]. destruct (mem_read m a (zlen b)) as [x|] eqn:Ex; [|done]. cbn.
  destruct (mem_read m (a + zlen b) (zlen c)) as [y|] eqn:Ey; [|done]. cbn. intros [= Hxy].
  apply mem_read_length in Ex; [|lia]. apply app_inj_1 in Hxy as [-> ->]; [done|]. unfold zlen in Ex. lia.
Qed.

(** Memory at and above [top] as it was. *)
Record grown w w' (top : Z) : Prop := {
  g_pager : pager (env w') = pager (env w);
  g_tasks : tasks (env w') = tasks (env w);
  g_mapped : stack_mapped (mem w) → stack_mapped (mem w');
  g_above : ∀ a n, top ≤ a → 0 ≤ n → a + n ≤ 2 ^ 64 → mem_read (mem w') a n = mem_read (mem w) a n
}.
Lemma grown_refl w top : grown w w top.
Proof. by split. Qed.
Lemma grown_trans w1 w2 w3 top top' : top' ≤ top → grown w1 w2 top → grown w2 w3 top' → grown w1 w3 top.
Proof.
  intros Ht [Hp Hk Hm Ha] [Hp' Hk' Hm' Ha']. split; [by rewrite Hp'|by rewrite Hk'|auto|].
  intros a n Hl Hn He. rewrite Ha', Ha; [done|lia..].
Qed.
Lemma grown_holds w w' top a b :
  grown w w' top → top ≤ a → a + zlen b ≤ 2 ^ 64 → holds (mem w) a b → holds (mem w') a b.
Proof. intros Hg Ht He. unfold holds. by rewrite (g_above _ _ _ Hg) by (done || apply zlen_nonneg). Qed.
Lemma grown_proc w w' top : grown w w' top → proc w' = proc w.
Proof. intros Hg. unfold proc. by rewrite (g_tasks _ _ _ Hg). Qed.
Lemma grown_view w w' top x : grown w w' top → view_at w' x = view_at w x.
Proof. intros Hg. unfold view_at. by rewrite (g_pager _ _ _ Hg), (grown_proc _ _ _ Hg). Qed.

(** * Pushing *)
(** The memory refused to copy bytes in, though the whole stack is mapped there:
    the emulator is out of pages, or the page holds translated code. *)
Definition refused : Prop := ∃ (m : M) a b,
  stack_mapped m ∧ STACK_BASE ≤ a ∧ a + zlen b ≤ STACK_TOP ∧ (mem_write m a b).2 = false.
(** A run that ended there. *)
Definition fails {A} (r : machine * res ElfError A) : Prop := r.2 = Err StackWrite ∧ refused.
Lemma fails_bind {A C} (f : stm machine ElfError A) (k : A → stm machine ElfError C) w : fails (f w) → fails (sbind f k w).
Proof. unfold fails, sbind. destruct (f w) as [w' r]. cbn. by intros [-> Hr]. Qed.
Lemma fails_after {A C} (f : stm machine ElfError A) (k : A → stm machine ElfError C) w w' a :
  f w = (w', Ok a) → fails (k a w') → fails (sbind f k w).
Proof. unfold sbind. by intros ->. Qed.

Lemma write_stack_ok w a b :
  stack_mapped (mem w) → STACK_BASE ≤ a → a + zlen b ≤ STACK_TOP → byte_list b →
  (∃ w', Exec.write_stack a b w = (w', Ok ()) ∧ holds (mem w') a b ∧ stack_mapped (mem w') ∧
    w' = put_mem (mem w') w ∧
    ∀ a' n, 0 ≤ a' → 0 ≤ n → a' + n ≤ 2 ^ 64 → apart a (zlen b) a' n → mem_read (mem w') a' n = mem_read (mem w) a' n) ∨
  fails (Exec.write_stack a b w).
Proof.
  intros Hm Ha He Hb. destruct stack_bounds as (Hl & Hh & _). pose proof (zlen_nonneg b).
  unfold Exec.write_stack. destruct (mem_write (mem w) a b) as [m []] eqn:Em;
    [left|right; split; [done|]; exists (mem w), a, b; by rewrite Em].
  eexists. split; [done|]. cbn. split; [apply (mem_read_write (mem w) a b m ltac:(lia) ltac:(lia) Hb Em)|].
  split; [|split; [done|]].
  - intros x Hx. apply mem_byte_Some, (write_keeps _ _ _ _ _ x Em), mem_byte_Some, Hm, Hx.
  - intros a' n Ha' Hn He' Hap. apply (mem_read_write_apart (mem w) a b m true a' n ltac:(lia) Ha' Hn ltac:(lia) He' Em Hap).
Qed.
Lemma push_bytes_ok w top b :
  stack_mapped (mem w) → STACK_BASE ≤ top - zlen b → top ≤ STACK_TOP → byte_list b →
  (∃ w', Exec.push_bytes top b w = (w', Ok (top - zlen b)) ∧ grown w w' top ∧ holds (mem w') (top - zlen b) b ∧
    stack_mapped (mem w')) ∨ fails (Exec.push_bytes top b w).
Proof.
  intros Hm Hl Ht Hb. destruct stack_bounds as (Hl0 & Hh & _). pose proof (zlen_nonneg b).
  unfold Exec.push_bytes. unfold sbind at 1 3. unfold Elf.pure_res, query, sub64. destruct (Z.leb_spec (zlen b) top); [|lia].
  destruct (write_stack_ok w (top - zlen b) b Hm Hl ltac:(lia) Hb) as [(w' & E & Hh' & Hm' & Hw & Hap)|Hf];
    [left|right; by apply fails_bind]. unfold sbind. rewrite E. exists w'. split; [done|]. split; [|done]. split; [by rewrite Hw|by rewrite Hw|done|].
  intros a n Ha Hn He. apply Hap; [lia..|]. left. lia.
Qed.

Definition pushed (m : M) (lo hi : Z) (p : Z) (s : bytes) : Prop :=
  holds m p (s ++ [0]) ∧ lo ≤ p ∧ p + zlen s + 1 ≤ hi.
Lemma push_strings_ok l w top :
  stack_mapped (mem w) → STACK_BASE ≤ top - strings_size l → top ≤ STACK_TOP → Forall byte_list l →
  (∃ w' ptrs, Exec.push_strings top l w = (w', Ok (top - strings_size l, ptrs)) ∧ grown w w' top ∧
    stack_mapped (mem w') ∧ Forall2 (pushed (mem w') (top - strings_size l) top) ptrs l) ∨ fails (Exec.push_strings top l w).
Proof.
  revert w top. induction l as [|s l IH]; intros w top Hm Hl Ht Hb.
  { left. exists w, []. cbn. rewrite Z.sub_0_r. split; [done|]. split; [apply grown_refl|done]. }
  destruct stack_bounds as (Hl0 & Hh & _). inversion_clear Hb as [|? ? Hbs Hbl].
  pose proof (strings_size_nonneg l) as Hn. pose proof (zlen_nonneg s) as Hs. change (strings_size (s :: l)) with (zlen s + 1 + strings_size l) in *.
  assert (Hz : zlen (s ++ [0]) = zlen s + 1) by (by rewrite zlen_app).
  assert (Hbs' : byte_list (s ++ [0])) by (apply Forall_app; split; [done|by apply byte_list_nul]).
  cbn [Exec.push_strings].
  destruct (push_bytes_ok w top (s ++ [0]) Hm) as [(w1 & E1 & G1 & Hp & Hm1)|Hf]; [rewrite ?Hz; lia..|done| |right; by apply fails_bind].
  rewrite Hz in *. destruct (IH w1 (top - (zlen s + 1))) as [(w2 & ptrs & E2 & G2 & Hm2 & Hf)|Hf]; [done|lia..|done| |].
  2: { right. eapply fails_after; [exact E1|]. by apply fails_bind. }
  left. exists w2, ((top - (zlen s + 1)) :: ptrs). unfold sbind. rewrite E1, E2. cbn.
  replace (top - (zlen s + 1) - strings_size l) with (top - (zlen s + 1 + strings_size l)) in * by lia.
  split; [done|]. split; [apply (grown_trans w w1 w2 top (top - (zlen s + 1)) ltac:(lia) G1 G2)|].
  split; [done|]. constructor.
  - split; [|lia]. apply (grown_holds _ _ _ _ _ G2); [lia|rewrite Hz; lia|done].
  - eapply Forall2_impl; [exact Hf|]. intros p x (Hx & Hlo & Hhi). split; [done|lia].
Qed.

(** * Reading back *)
Definition stack_plain w : Prop := unviewed w STACK_BASE STACK_SIZE.
Lemma read_mem_stack w a n :
  stack_plain w → STACK_BASE ≤ a → a + n ≤ STACK_TOP → 0 ≤ n →
  Copy.read_mem a n w = (w, ok_or (mem_read (mem w) a n) EFAULT).
Proof.
  intros Hv Ha He Hn. destruct stack_bounds as (Hl & Hh & Hal & _). destruct (page_of_bounds a) as [Hp1 Hp2].
  assert (Hp : STACK_BASE ≤ page_of a).
  { rewrite page_of_spec. unfold aligned, PAGE_SIZE in *. Z.div_mod_to_equations. lia. }
  unfold Copy.read_mem, Copy.host_touch, sbind at 1 2, gets. destruct (_ || _); [done|].
  unfold sbind, query, checked_add64. destruct (Z.leb_spec (a + n) U64_MAX) as [_|Hx]; [cbn [ok_or]|unfold U64_MAX in Hx; lia].
  rewrite touch_loop_skip; [done|lia|left; apply page_of_aligned|unfold U64_MAX; lia|intros x Hx; apply Hv; lia|..];
    unfold PAGE_SIZE in *; Z.div_mod_to_equations; lia.
Qed.

Lemma before_nul_app s l : (0 ∉ s) → Copy.before_nul (s ++ 0 :: l) = Some s.
Proof.
  induction s as [|x s IH]; intros Hs; [done|]. apply not_elem_of_cons in Hs as [Hx Hs]. cbn.
  destruct (Z.eqb_spec x 0); [congruence|]. by rewrite (IH Hs).
Qed.
Lemma before_nul_None s : (0 ∉ s) → Copy.before_nul s = None.
Proof.
  induction s as [|x s IH]; intros Hs; [done|]. apply not_elem_of_cons in Hs as [Hx Hs]. cbn.
  destruct (Z.eqb_spec x 0); [congruence|]. by rewrite (IH Hs).
Qed.

(** A read of [n] bytes of what holds a string and its terminator. *)
Lemma read_prefix m a s n :
  holds m a (s ++ [0]) → 0 ≤ n → n ≤ zlen s → a + zlen s + 1 ≤ 2 ^ 64 →
  mem_read m a n = Some (take (Z.to_nat n) s) ∧ holds m (a + n) (drop (Z.to_nat n) s ++ [0]).
Proof.
  intros Hh Hn Hs He. rewrite <- (take_drop (Z.to_nat n) s) in Hh. rewrite <- app_assoc in Hh.
  assert (Hz : zlen (take (Z.to_nat n) s) = n) by (unfold zlen in *; rewrite length_take; lia).
  assert (Hd : zlen (drop (Z.to_nat n) s) = zlen s - n) by (unfold zlen in *; rewrite length_drop; lia).
  apply holds_app in Hh as [Ht Hr]; [|rewrite zlen_app, Hz, Hd; change (zlen [0]) with 1; lia].
  unfold holds in Ht. rewrite Hz in *. done.
Qed.
Lemma read_beyond m a s n b :
  holds m a (s ++ [0]) → zlen s < n → a + n ≤ 2 ^ 64 → mem_read m a n = Some b → ∃ l, b = s ++ 0 :: l.
Proof.
  intros Hh Hs He Hr. pose proof (zlen_nonneg s).
  assert (Hz : zlen (s ++ [0]) = zlen s + 1) by (by rewrite zlen_app).
  replace n with (zlen (s ++ [0]) + (n - zlen s - 1)) in Hr by lia. rewrite mem_read_app in Hr by lia.
  unfold holds in Hh. rewrite Hh in Hr. clear Hh. cbn in Hr. destruct (mem_read _ _ _) as [l|]; [|done].
  injection Hr as <-. exists l. by rewrite <- app_assoc.
Qed.

Lemma cstr_stack fuel w a max out s :
  stack_plain w → stack_mapped (mem w) → STACK_BASE ≤ a → a + zlen s + 1 ≤ STACK_TOP →
  holds (mem w) a (s ++ [0]) → (0 ∉ s) → zlen out + zlen s < max → zlen s < Z.of_nat fuel →
  Copy.cstr_loop fuel a max out w = (w, Ok (out ++ s)).
Proof.
  intros Hv Hm. revert a out s. induction fuel as [|fuel IH]; intros a out s Ha He Hh Hs Hmax Hf;
    pose proof (zlen_nonneg s); [lia|]. destruct stack_bounds as (Hl & Hh64 & _ & Hal).
  cbn [Copy.cstr_loop]. destruct (Z.leb_spec max (zlen out)); [lia|].
  set (n := Z.min (Z.min 64 (max - zlen out)) (PAGE_SIZE - Z.land a (PAGE_SIZE - 1))).
  assert (Hpg : 0 < PAGE_SIZE - Z.land a (PAGE_SIZE - 1) ∧ a + (PAGE_SIZE - Z.land a (PAGE_SIZE - 1)) ≤ STACK_TOP).
  { change (PAGE_SIZE - 1) with (Z.ones 12). rewrite Z.land_ones by lia. change (2 ^ 12) with PAGE_SIZE.
    unfold aligned, PAGE_SIZE in *. Z.div_mod_to_equations. lia. }
  assert (Hn : 0 < n ∧ a + n ≤ STACK_TOP) by (unfold n; lia). clearbody n. unfold sbind at 1. rewrite read_mem_stack by (done || lia).
  destruct (mem_read_full (mem w) a n) as [b Eb]; [lia|lia|intros; apply Hm; lia|]. rewrite Eb. cbn [ok_or].
  destruct (Z.lt_ge_cases (zlen s) n) as [Hlt|Hge].
  - destruct (read_beyond _ _ _ _ _ Hh Hlt ltac:(lia) Eb) as [l ->]. by rewrite before_nul_app.
  - destruct (read_prefix (mem w) a s n Hh ltac:(lia) Hge ltac:(lia)) as [Ep Hh']. rewrite Ep in Eb. injection Eb as <-.
    rewrite <- (take_drop (Z.to_nat n) s) in Hs. apply not_elem_of_app in Hs as [Hs1 Hs2].
    rewrite before_nul_None by done. unfold sbind, query, add64.
    destruct (Z.leb_spec (a + n) U64_MAX) as [_|Hx]; [|unfold U64_MAX in Hx; lia].
    assert (Hd : zlen (drop (Z.to_nat n) s) = zlen s - n) by (unfold zlen in *; rewrite length_drop; lia).
    assert (Ht : zlen (take (Z.to_nat n) s) = n) by (unfold zlen in *; rewrite length_take; lia).
    rewrite (IH _ _ (drop (Z.to_nat n) s)); [by rewrite <- app_assoc, take_drop|try done; try lia..].
    rewrite zlen_app. lia.
Qed.
Lemma read_cstr_stack w a max s :
  stack_plain w → stack_mapped (mem w) → STACK_BASE ≤ a → a + zlen s + 1 ≤ STACK_TOP →
  holds (mem w) a (s ++ [0]) → (0 ∉ s) → zlen s < max → Copy.read_cstr_limit a max w = (w, Ok s).
Proof.
  intros. pose proof (zlen_nonneg s). unfold Copy.read_cstr_limit. apply (cstr_stack _ _ _ _ []); try done.
  rewrite Nat2Z.inj_succ, Z2Nat.id by lia. lia.
Qed.

Lemma encode_words_app l k : encode_words (l ++ k) = encode_words l ++ encode_words k.
Proof. unfold encode_words. by rewrite fmap_app, concat_app. Qed.
Lemma zlen_encode_words l : zlen (encode_words l) = 8 * Z.of_nat (length l).
Proof.
  induction l as [|x l IH]; [done|]. change (encode_words (x :: l)) with (le_bytes 8 x ++ encode_words l).
  rewrite zlen_app, IH, zlen_le_bytes. cbn [length]. lia.
Qed.
Lemma encode_words_byte_list l : byte_list (encode_words l).
Proof.
  induction l as [|x l IH]; [constructor|]. apply Forall_app. split; [apply le_bytes_byte_list|done].
Qed.

Lemma string_vec_stack fuel w a out ptrs l :
  stack_plain w → stack_mapped (mem w) → Forall2 (pushed (mem w) STACK_BASE STACK_TOP) ptrs l → Forall c_string l →
  holds (mem w) a (encode_words (ptrs ++ [0])) → STACK_BASE ≤ a → a + 8 * (Z.of_nat (length ptrs) + 1) ≤ STACK_TOP →
  (length l < fuel)%nat → Exec.string_vec_loop fuel a out w = (w, Ok (out ++ l)).
Proof.
  intros Hv Hm Hf. destruct stack_bounds as (Hl & Hh64 & _). revert fuel a out.
  induction Hf as [|p s ptrs l (Hs & Hlo & Hhi) Hf IH]; intros fuel a out Hc Hh Ha He Hfuel;
    (destruct fuel as [|fuel]; [cbn in Hfuel; lia|]); cbn [Exec.string_vec_loop]; unfold sbind at 1;
    rewrite read_mem_stack by (done || cbn in He; lia).
  { unfold holds in Hh. change (zlen (encode_words ([] ++ [0]))) with 8 in Hh. rewrite Hh. cbn [ok_or].
    change (le_val (encode_words ([] ++ [0]))) with 0. cbn. by rewrite app_nil_r. }
  inversion_clear Hc as [|? ? (Hb & Hmax & Hz) Hc']. cbn [length] in *. pose proof (zlen_nonneg s).
  change (encode_words ((p :: ptrs) ++ [0])) with (le_bytes 8 p ++ encode_words (ptrs ++ [0])) in Hh.
  apply holds_app in Hh as [Hp Hr]; rewrite ?zlen_le_bytes in *; [|rewrite zlen_encode_words, length_app; cbn; lia].
  unfold holds in Hp. rewrite zlen_le_bytes in Hp. change (Z.of_nat 8) with 8 in *. rewrite Hp. cbn [ok_or].
  rewrite le_val_bytes_id by (unfold fits; cbn; lia). destruct (Z.eqb_spec p 0); [lia|].
  unfold sbind. rewrite (read_cstr_stack w p _ s Hv Hm Hlo Hhi Hs Hz Hmax).
  unfold query, add64. destruct (Z.leb_spec (a + 8) U64_MAX) as [_|Hx]; [|unfold U64_MAX in Hx; lia].
  rewrite IH; [by rewrite <- app_assoc|done|done|lia..].
Qed.
Lemma read_string_vec_stack w a ptrs l :
  stack_plain w → stack_mapped (mem w) → Forall2 (pushed (mem w) STACK_BASE STACK_TOP) ptrs l → Forall c_string l →
  holds (mem w) a (encode_words (ptrs ++ [0])) → STACK_BASE ≤ a → a + 8 * (Z.of_nat (length ptrs) + 1) ≤ STACK_TOP →
  (length l < MAX_STRINGS)%nat → Exec.read_string_vec a w = (w, Ok l).
Proof.
  intros. destruct stack_bounds as (Hl & _). unfold Exec.read_string_vec. destruct (Z.eqb_spec a 0); [lia|].
  by apply (string_vec_stack _ _ _ [] ptrs).
Qed.

(** * The pieces of [setup_stack] *)
Lemma map_stack_ok w :
  vacant w STACK_BASE STACK_SIZE → ∃ w', Exec.map_stack w = (w', Ok ()) ∧ stack_mapped (mem w') ∧ w' = put_mem (mem w') w.
Proof.
  intros Hv. destruct stack_bounds as (Hl & Hh & _). unfold Exec.map_stack.
  destruct (mem_map (mem w) STACK_BASE STACK_SIZE RW_INIT) as [m ok] eqn:Em.
  assert (ok = true) as ->.
  { change ok with ((m, ok).2). rewrite <- Em. apply map_free; [lia|done|lia|]. intros x Hx.
    apply mem_byte_None, (proj2 (Hv x Hx)). }
  destruct (map_spec (mem w) STACK_BASE STACK_SIZE RW_INIT m ltac:(lia) Em) as (_ & _ & Hr). eexists. split; [done|]. split; [|done].
  intros x Hx. cbn. apply mem_byte_Some. rewrite Hr by (unfold fits; lia). rewrite decide_True; [eauto|lia].
Qed.
Lemma random16_ok w :
  ∃ w' r, Exec.random16 w = (w', Ok r) ∧ zlen r = 16 ∧ byte_list r ∧ grown w w' 0 ∧ mem w' = mem w.
Proof.
  eexists _, _. split; [done|]. split; [by rewrite zlen_app, !zlen_le_bytes|].
  split; [apply Forall_app; split; apply le_bytes_byte_list|]. by split; [split|].
Qed.
Lemma write_vectors_ok w top words :
  stack_mapped (mem w) → STACK_BASE ≤ top - 8 * Z.of_nat (length words) - 15 → top ≤ STACK_TOP →
  (∃ w' sp, Exec.write_vectors top words w = (w', Ok ()) ∧ Core.read_var RSP (core w') = sp ∧ sp mod 16 = 0 ∧
    STACK_BASE ≤ sp ∧ sp + 8 * Z.of_nat (length words) ≤ top ∧ holds (mem w') sp (encode_words words) ∧
    grown w w' top ∧ stack_mapped (mem w')) ∨ fails (Exec.write_vectors top words w).
Proof.
  intros Hm Hl Ht. destruct stack_bounds as (Hl0 & Hh & _).
  unfold Exec.write_vectors. unfold sbind at 1 3. unfold Elf.pure_res, query, sub64. rewrite zlen_encode_words.
  set (n := 8 * Z.of_nat (length words)) in *. assert (0 <= n) by lia. destruct (Z.leb_spec n top); [|lia].
  rewrite land_sixteen by (unfold fits; lia). set (sp := (top - n) / 16 * 16).
  assert (Hsp : sp ≤ top - n < sp + 16) by (unfold sp; Z.div_mod_to_equations; lia).
  destruct (write_stack_ok w sp (encode_words words) Hm) as [(w' & E & Hw & Hm' & He & Hap)|Hf];
    [lia|rewrite zlen_encode_words; fold n; lia|apply encode_words_byte_list|left|right; by apply fails_bind].
  unfold sbind. rewrite E. rewrite zlen_encode_words in Hap. fold n in Hap.
  eexists _, sp. split; [done|]. split; [apply Core.read_write_var|]. split; [by apply Z_mod_mult|].
  split; [lia|]. split; [lia|]. split; [done|]. split; [|done].
  split; [by rewrite He|by rewrite He|done|]. intros a k Ha Hk Hk'. apply Hap; [lia..|]. left. lia.
Qed.

Lemma words_split m sp argc (aptrs eptrs aux : list Z) :
  0 ≤ sp → sp + 8 * (Z.of_nat (length aptrs) + Z.of_nat (length eptrs) + Z.of_nat (length aux) + 3) ≤ 2 ^ 64 →
  holds m sp (encode_words (argc :: aptrs ++ [0] ++ eptrs ++ [0] ++ aux)) →
  holds m sp (le_bytes 8 argc) ∧ holds m (sp + 8) (encode_words (aptrs ++ [0])) ∧
  holds m (sp + 8 * (Z.of_nat (length aptrs) + 2)) (encode_words (eptrs ++ [0])) ∧
  holds m (sp + 8 * (Z.of_nat (length aptrs) + Z.of_nat (length eptrs) + 3)) (encode_words aux).
Proof.
  intros H0p He. change (argc :: aptrs ++ [0] ++ eptrs ++ [0] ++ aux) with ([argc] ++ aptrs ++ [0] ++ eptrs ++ [0] ++ aux).
  rewrite (app_assoc aptrs), (app_assoc eptrs), !(encode_words_app [argc]), (encode_words_app (aptrs ++ [0])),
    (encode_words_app (eptrs ++ [0])).
  intros Hh. repeat (apply holds_app in Hh as [? Hh]; [|rewrite ?zlen_app, ?zlen_encode_words, ?length_app; cbn [length]; lia]).
  rewrite ?zlen_encode_words, ?length_app in *. cbn [length] in *. split; [done|].
  replace (sp + 8 * Z.of_nat 1) with (sp + 8) in * by lia.
  replace (sp + 8 + 8 * Z.of_nat (length aptrs + 1)) with (sp + 8 * (Z.of_nat (length aptrs) + 2)) in * by lia.
  replace (sp + 8 * (Z.of_nat (length aptrs) + 2) + 8 * Z.of_nat (length eptrs + 1))
    with (sp + 8 * (Z.of_nat (length aptrs) + Z.of_nat (length eptrs) + 3)) in * by lia. done.
Qed.
Lemma pushed_grown w w' top lo hi lo' hi' ptrs l :
  grown w w' top → top ≤ lo → lo' ≤ lo → hi ≤ hi' → hi' ≤ STACK_TOP → Forall2 (pushed (mem w) lo hi) ptrs l →
  Forall2 (pushed (mem w') lo' hi') ptrs l.
Proof.
  intros Hg Ht Hlo Hhi Hs Hf. destruct stack_bounds as (_ & Hh & _). eapply Forall2_impl; [exact Hf|].
  intros p s (Hp & Hl & He). split; [|lia]. apply (grown_holds _ _ _ _ _ Hg); [lia| |done].
  rewrite zlen_app. change (zlen [0]) with 1. lia.
Qed.

(** The strings and what the auxiliary vector points at, below [top]. *)
Definition push_all (p : Process) (k : Z * list Z → Z * list Z → Z → Z → Z → stm machine ElfError ()) : stm machine ElfError () :=
  do! a <- Exec.push_strings STACK_TOP (argv p) in
  do! e <- Exec.push_strings a.1 (envp p) in
  do! rnd <- Exec.random16 in
  do! random <- Exec.push_bytes e.1 rnd in
  do! execfn <- Exec.push_bytes random (exe_path p ++ [0]) in
  do! platform <- Exec.push_bytes execfn PLATFORM in
  k a e random execfn platform.
(** Past the writes that went through, to the one that did not. *)
Ltac push_fails := unfold push_all; repeat (first [by apply fails_bind | eapply fails_after; [eassumption|]]).
Lemma push_all_ok w (p : Process) :
  stack_mapped (mem w) → Forall byte_list (argv p) → Forall byte_list (envp p) → byte_list (exe_path p) →
  STACK_BASE ≤ STACK_TOP - (strings_size (argv p) + strings_size (envp p) + 16 + (zlen (exe_path p) + 1) + 7) →
  (∃ w1 w2 w3 w4 w5 w6 aptrs eptrs r,
    let a := STACK_TOP - strings_size (argv p) in
    let e := a - strings_size (envp p) in
    let x := e - 16 - (zlen (exe_path p) + 1) in
    Exec.push_strings STACK_TOP (argv p) w = (w1, Ok (a, aptrs)) ∧
    Exec.push_strings a (envp p) w1 = (w2, Ok (e, eptrs)) ∧
    Exec.random16 w2 = (w3, Ok r) ∧ Exec.push_bytes e r w3 = (w4, Ok (e - 16)) ∧
    Exec.push_bytes (e - 16) (exe_path p ++ [0]) w4 = (w5, Ok x) ∧
    Exec.push_bytes x PLATFORM w5 = (w6, Ok (x - 7)) ∧
    grown w w6 STACK_TOP ∧ stack_mapped (mem w6) ∧
    Forall2 (pushed (mem w6) (x - 7) STACK_TOP) aptrs (argv p) ∧
    Forall2 (pushed (mem w6) (x - 7) STACK_TOP) eptrs (envp p) ∧
    zlen r = 16 ∧ holds (mem w6) (e - 16) r ∧ holds (mem w6) x (exe_path p ++ [0]) ∧ holds (mem w6) (x - 7) PLATFORM) ∨
  (∀ k, fails (push_all p k w)).
Proof.
  intros Hm Ha He Hx Hfit. destruct stack_bounds as (Hl & Hh & _).
  pose proof (strings_size_nonneg (argv p)). pose proof (strings_size_nonneg (envp p)). pose proof (zlen_nonneg (exe_path p)).
  assert (Hz : zlen (exe_path p ++ [0]) = zlen (exe_path p) + 1) by (by rewrite zlen_app).
  destruct (push_strings_ok (argv p) w STACK_TOP Hm ltac:(lia) ltac:(lia) Ha) as [(w1 & ap & E1 & G1 & M1 & F1)|Hf];
    [|right; intros k; by apply fails_bind].
  set (a := STACK_TOP - strings_size (argv p)) in *.
  destruct (push_strings_ok (envp p) w1 a M1 ltac:(lia) ltac:(lia) He) as [(w2 & ep & E2 & G2 & M2 & F2)|Hf];
    [|right; intros k; push_fails].
  set (e := a - strings_size (envp p)) in *.
  destruct (random16_ok w2) as (w3 & r & E3 & Zr & Br & G3 & Em3). assert (M3 : stack_mapped (mem w3)) by (by rewrite Em3).
  destruct (push_bytes_ok w3 e r M3) as [(w4 & E4 & G4 & H4' & M4)|Hf]; [lia..|done| |right; intros k; push_fails].
  rewrite Zr in *.
  destruct (push_bytes_ok w4 (e - 16) (exe_path p ++ [0]) M4) as [(w5 & E5 & G5 & H5' & M5)|Hf];
    [lia..|apply Forall_app; by split; [|apply byte_list_nul]| |right; intros k; push_fails]. rewrite Hz in *.
  set (x := e - 16 - (zlen (exe_path p) + 1)) in *.
  destruct (push_bytes_ok w5 x PLATFORM M5) as [(w6 & E6 & G6 & H6' & M6)|Hf];
    [change (zlen PLATFORM) with 7; lia|lia|repeat constructor; lia| |right; intros k; push_fails]. change (zlen PLATFORM) with 7 in *.
  assert (G56 : grown w4 w6 (e - 16)) by (apply (grown_trans w4 w5 w6 (e - 16) x); [lia|done|done]).
  assert (G46 : grown w3 w6 e) by (apply (grown_trans w3 w4 w6 e (e - 16)); [lia|done|done]).
  assert (G26 : grown w2 w6 e) by (apply (grown_trans w2 w3 w6 e e); [lia| |done]; split; try apply G3; by rewrite Em3).
  assert (G16 : grown w1 w6 a) by (apply (grown_trans w1 w2 w6 a e); [lia|done|done]).
  left. exists w1, w2, w3, w4, w5, w6, ap, ep, r. cbn zeta. fold a. fold e. fold x.
  repeat (split; [done|]). split; [apply (grown_trans w w1 w6 STACK_TOP a); [lia|done|done]|].
  split; [done|]. split; [apply (pushed_grown w1 w6 a a STACK_TOP); [done|lia..|done]|].
  split; [apply (pushed_grown w2 w6 e e a); [done|lia..|done]|]. split; [done|].
  split; [apply (grown_holds w4 w6 (e - 16)); [done|lia|lia|done]|].
  split; [apply (grown_holds w5 w6 x); [done|lia|rewrite Hz; lia|done]|done].
Qed.

Definition aux_words (l : LoadedElf) (platform random execfn : Z) : list Z :=
  concat ((λ x, [x.1; x.2]) <$> auxv l platform random execfn).

(** C5. The initial stack, when it fits: [setup_stack] succeeds, unless the memory
    refuses a copy into the mapped stack, which is the only error. The stack
    pointer is then a multiple of 16; the word it points at is the number of arguments;
    the kernel's own reader finds exactly the arguments in the vector after it
    and exactly the environment in the one behind that; the auxiliary vector
    follows, and the platform, the path of the program and the random bytes are
    where it says. *)
Theorem exec_arguments (l : LoadedElf) w :
  let p := proc w in
  let argc := Z.of_nat (length (argv p)) in
  let envc := Z.of_nat (length (envp p)) in
  vacant w STACK_BASE STACK_SIZE → Forall c_string (argv p) → Forall c_string (envp p) → byte_list (exe_path p) →
  (length (argv p) < MAX_STRINGS)%nat → (length (envp p) < MAX_STRINGS)%nat → stack_need p ≤ STACK_SIZE →
  fails (Exec.setup_stack l w) ∨
  ∃ w' sp platform random execfn rnd,
    Exec.setup_stack l w = (w', Ok ()) ∧ Core.read_var RSP (core w') = sp ∧ sp mod 16 = 0 ∧
    holds (mem w') sp (le_bytes 8 argc) ∧
    Exec.read_string_vec (sp + 8) w' = (w', Ok (argv p)) ∧
    Exec.read_string_vec (sp + 8 * (argc + 2)) w' = (w', Ok (envp p)) ∧
    holds (mem w') (sp + 8 * (argc + envc + 3)) (encode_words (aux_words l platform random execfn)) ∧
    holds (mem w') platform PLATFORM ∧ holds (mem w') execfn (exe_path p ++ [0]) ∧
    zlen rnd = 16 ∧ holds (mem w') random rnd.
Proof.
  cbn zeta. intros Hv Ha He Hx La Le Hfit. destruct stack_bounds as (Hl & Hh & _). unfold stack_need in Hfit.
  destruct (map_stack_ok w Hv) as (w0 & E0 & M0 & Hw0). set (p := proc w) in *.
  assert (Hp0 : proc w0 = p) by (by rewrite Hw0).
  pose proof (strings_size_nonneg (argv p)). pose proof (strings_size_nonneg (envp p)). pose proof (zlen_nonneg (exe_path p)).
  assert (∀ k, k = (λ a e random execfn platform, Exec.write_vectors platform (stack_words a.2 e.2 (auxv l platform random execfn))) →
    Exec.setup_stack l w = push_all p k w0) as Hset.
  { intros k ->. unfold Exec.setup_stack, sbind at 1 2, gets. by rewrite E0, Hp0. }
  destruct (push_all_ok w0 p M0) as [(w1 & w2 & w3 & w4 & w5 & w6 & ap & ep & r & E1 & E2 & E3 & E4 & E5 & E6 & G & M6 & Fa & Fe & Zr & Hr & Hex & Hpl)|Hf];
    [eapply Forall_impl; [exact Ha|by intros ? []]|eapply Forall_impl; [exact He|by intros ? []]|done|lia| |].
  2: { left. by erewrite Hset by done. }
  pose proof (Forall2_length _ _ _ Fa) as Na. pose proof (Forall2_length _ _ _ Fe) as Ne.
  set (e := STACK_TOP - strings_size (argv p) - strings_size (envp p)) in *.
  set (x := e - 16 - (zlen (exe_path p) + 1)) in *.
  set (words := stack_words ap ep (auxv l (x - 7) (e - 16) x)).
  assert (Nw : length words = (length (argv p) + length (envp p) + 39)%nat).
  { unfold words, stack_words. cbn [length]. rewrite !length_app, Na, Ne. cbn. lia. }
  destruct (write_vectors_ok w6 (x - 7) words M6) as [(w7 & sp & E7 & Hsp & Hal & Hlo & Htop & Hw & G7 & M7)|Hf]; [lia|lia| |].
  2: { left. erewrite Hset by done. unfold push_all. do 6 (eapply fails_after; [eassumption|]). exact Hf. }
  right.
  assert (Hpl7 : stack_plain w7).
  { intros y Hy. rewrite (grown_view w6 w7 _ _ G7), (grown_view w0 w6 _ _ G), Hw0. apply (Hv y Hy). }
  apply words_split in Hw as (W1 & W2 & W3 & W4); [|lia|unfold stack_words in Nw; rewrite Na, Ne; cbn; lia].
  exists w7, sp, (x - 7), (e - 16), x, r. erewrite Hset by done. unfold push_all, sbind. rewrite E1. cbn [fst snd].
  rewrite E2. cbn [fst snd]. rewrite E3, E4, E5, E6. cbn [fst snd]. fold words. rewrite E7, Na, Ne in *.
  split; [done|]. split; [done|]. split; [done|]. split; [done|].
  assert (Hg : ∀ ptrs ss, Forall2 (pushed (mem w6) (x - 7) STACK_TOP) ptrs ss → Forall2 (pushed (mem w7) STACK_BASE STACK_TOP) ptrs ss)
    by (intros ptrs ss; apply (pushed_grown w6 w7 (x - 7)); [done|lia..]).
  split; [apply (read_string_vec_stack w7 _ ap); auto; lia|].
  split; [apply (read_string_vec_stack w7 _ ep); auto; lia|]. split; [done|].
  assert (Hk : ∀ a b, x - 7 ≤ a → a + zlen b ≤ STACK_TOP → holds (mem w6) a b → holds (mem w7) a b)
    by (intros; apply (grown_holds w6 w7 (x - 7)); [done|lia|lia|done]).
  split; [apply Hk; [lia|change (zlen PLATFORM) with 7; lia|done]|].
  split; [apply Hk; [lia|rewrite zlen_app; change (zlen [0]) with 1; lia|done]|]. split; [done|].
  apply Hk; [lia|lia|done].
Qed.
End stack.

(** * A memory without translation never runs out of pages *)
Lemma flat_roomy (m : gmap Z Z) a b : (∀ x, a ≤ x < a + zlen b → is_Some (mem_byte m x)) → (mem_write m a b).2 = true.
Proof.
  revert m a. induction b as [|x b IH]; intros m a Hm; [done|]. cbn.
  pose proof (zlen_nonneg b) as Hb. change (zlen (x :: b)) with (Z.of_nat (S (length b))) in Hm. unfold zlen in *.
  destruct (proj1 (FlatRange.read_one_Some m a)) as [y ->]; [apply mem_byte_Some, Hm; lia|].
  apply (IH (<[a := x]> m)). intros z Hz. apply mem_byte_Some, FlatRange.read_one_Some.
  destruct (decide (z = a)) as [->|Hne]; [rewrite lookup_insert_eq; eauto|]. rewrite lookup_insert_ne by done.
  apply FlatRange.read_one_Some, mem_byte_Some, Hm. unfold zlen in *. lia.
Qed.

(** The root process of a fresh machine about to run a shell. *)
Definition shell_machine : Machine HostBroker (gmap Z Z) (gmap Z Z) :=
  put_proc (with_exe (Fs.str "/bin/sh") (with_args [Fs.str "sh"; Fs.str "-c"] [Fs.str "HOME=/"] (proc fresh_machine)))
    fresh_machine.
Definition shell_elf : LoadedElf :=
  {| binary := {| em_offset := 0; entry_ptr := 4198400; base_ptr := 4194304; em_length := 8192; phdr_ptr := 4194368;
                  phdr_num := 2 |}; interpreter := None |}.
Lemma exec_arguments_witness :
  ∃ w' sp, Exec.setup_stack shell_elf shell_machine = (w', Ok ()) ∧ Core.read_var RSP (core w') = sp ∧ sp mod 16 = 0 ∧
    Exec.read_string_vec (sp + 8) w' = (w', Ok [Fs.str "sh"; Fs.str "-c"]) ∧
    Exec.read_string_vec (sp + 32) w' = (w', Ok [Fs.str "HOME=/"]).
Proof.
  assert (Hstr : ∀ s, forallb (λ x, (0 <? x) && (x <? 256)) s = true → zlen s < MAX_ARG_STRLEN → c_string s).
  { intros s Hs Hz. rewrite forallb_forall in Hs. split; [|split; [done|]].
    - apply Forall_forall. intros x Hx%list_elem_of_In. apply Hs in Hx. bool_to_prop. unfold fits. lia.
    - intros Hx%list_elem_of_In. apply Hs in Hx. discriminate Hx. }
  destruct (exec_arguments shell_elf shell_machine) as [(_ & m & a & b & Hm & Hlo & Hhi & Hno)|(w' & sp & _ & _ & _ & _ & E & Hsp & Hal & _ & Ha & He & _)].
  - assert (Hs : spaces (pager (env shell_machine)) = ∅) by reflexivity.
    intros x _. split; [unfold view_at, view; by rewrite Hs|done].
  - apply Forall_cons; split; [apply Hstr; reflexivity|]. apply Forall_cons; split; [apply Hstr; reflexivity|constructor].
  - apply Forall_cons; split; [apply Hstr; reflexivity|constructor].
  - apply Hstr; reflexivity.
  - apply Nat.ltb_lt. reflexivity.
  - apply Nat.ltb_lt. reflexivity.
  - vm_compute; discriminate.
  - rewrite flat_roomy in Hno; [done|]. intros x Hx. apply Hm. lia.
  - exists w', sp. split; [exact E|]. split; [exact Hsp|]. split; [exact Hal|]. split; [exact Ha|exact He].
Defined.
