(* ===== verification/ExecCommit.v ===== *)
(** The point of no return of [execve]: until the program named has been read,
    resolved and checked, the calling process is left as it was. *)

From S2P Require Import Prelude BTree Abi Digest Chunk Filesystem Pager Cpu Net Fd Proc Signals Text ChunkManifest Manifest Authority Env GuestMem Switch ProcCalls ProcCallsSpec FileIo MemCalls PathCalls DescCalls Elf Exec.

Section commit.
Context `{Host} {B : Type} `{NetworkBroker B} {M V : Type} `{GuestMemory M V} `{AddressRanges M} `{MemoryTables M}.
Context `{ImageLoader M}.
Abbreviation machine := (Machine B M V).
Implicit Types w : machine.

(** * What reading and checking may do *)
(** A page brought in, a chunk asked for, the exception kept for a replay, a
    file compared with the manifest. *)
Inductive benign : machine → machine → Prop :=
| b_touch page access w : benign w (Copy.touch_page page access w).1
| b_request hash w : benign w (request_file_chunk hash w).1
| b_replay w : benign w (Copy.replay_exception w)
| b_verify path w : benign w (Elf.verify path w).1.
Definition spared w w' : Prop := rtc benign w w'.

(** The caller: its process, the other tasks, descriptors and everything they
    share, the files, the console, and the registers. *)
Record intact w w' : Prop := {
  in_tasks : tasks (env w') = tasks (env w);
  in_heap : heap (env w') = heap (env w);
  in_shared : shared (env w') = shared (env w);
  in_fs : fs w' = fs w;
  in_console : console (env w') = console (env w);
  in_regs : regs (core w') = regs (core w) ∧ exception (core w') = exception (core w)
}.
Lemma benign_intact w w' : benign w w' → intact w w'.
Proof.
  destruct 1 as [page access w|hash w|w|path w]; [| |done|].
  - destruct (Copy.touch_page_frame page access w) as [He Hc].
    split; unfold fs; try (by rewrite He). by destruct Hc as [-> | ->].
  - unfold request_file_chunk. by destruct (file_chunk_wait _).
  - unfold Elf.verify, Image_.verify_image. destruct (rbind _ _) as [node| |]; [|done..].
    destruct (chunk_manifest _); [done|]. destruct (nodes _ !! _) as [n|]; [|done].
    destruct (kind n); try done; (destruct (manifest _); [|done]; by destruct (bt_get _ _) as [[]|]).
Qed.
Lemma spared_intact w w' : spared w w' → intact w w'.
Proof.
  induction 1 as [|w1 w2 w3 Hs _ IH]; [done|]. destruct (benign_intact _ _ Hs), IH. split; try congruence.
  split; [transitivity (regs (core w2))|transitivity (exception (core w2))]; tauto.
Qed.

(** * Computations that spare the caller *)
Definition keeps {E A} (m : stm machine E A) : Prop := ∀ w, spared w (m w).1.
Lemma spares_query {E A} (f : machine → res E A) : keeps (query f).
Proof. intros w. apply rtc_refl. Qed.
Lemma spares_gets {E A} (f : machine → A) : keeps (gets (E := E) f).
Proof. intros w. apply rtc_refl. Qed.
Lemma spares_ret {E A} (x : A) : keeps (sret (E := E) x).
Proof. intros w. apply rtc_refl. Qed.
Lemma spares_fail {E A} (e : E) : keeps (sfail (A := A) e).
Proof. intros w. apply rtc_refl. Qed.
Lemma spares_bind {E A C} (m : stm machine E A) (k : A → stm machine E C) :
  keeps m → (∀ x, keeps (k x)) → keeps (do! x <- m in k x).
Proof.
  intros Hm Hk w. unfold sbind. pose proof (Hm w) as Hw. destruct (m w) as [w1 [x|e|]]; [|done..].
  unfold spared in *. etrans; [exact Hw|apply Hk].
Qed.
Lemma spares_map_err {E E' A} (f : E → E') (m : stm machine E A) : keeps m → keeps (Prelude.map_err f m).
Proof. intros Hm w. unfold Prelude.map_err. pose proof (Hm w) as Hw. by destruct (m w) as [w1 [x|e|]]. Qed.
Create HintDb exec_keeps discriminated.
#[local] Hint Resolve spares_query spares_gets spares_ret spares_fail : exec_keeps.
Ltac keeps := repeat (first [ assumption | solve [eauto with exec_keeps] | apply spares_bind; [|intros ?] | apply spares_map_err
                            | case_match | progress cbn zeta ]).

Lemma touch_page_keeps page access : keeps (Copy.touch_page page access).
Proof. intros w. apply rtc_once, b_touch. Qed.
#[local] Hint Resolve touch_page_keeps : exec_keeps.
Lemma touch_loop_keeps fuel page end_ access : keeps (Copy.touch_loop fuel page end_ access).
Proof. revert page. induction fuel as [|fuel IH]; intros page; cbn [Copy.touch_loop]; keeps. Qed.
#[local] Hint Resolve touch_loop_keeps : exec_keeps.
Lemma read_mem_keeps addr len : keeps (Copy.read_mem addr len).
Proof. unfold Copy.read_mem, Copy.host_touch, Copy.read_mem_raw. keeps. Qed.
#[local] Hint Resolve read_mem_keeps : exec_keeps.
Lemma cstr_keeps addr max : keeps (Copy.read_cstr_limit addr max).
Proof.
  unfold Copy.read_cstr_limit. generalize (S (Z.to_nat max)), (@nil Z). intros fuel. revert addr.
  induction fuel as [|fuel IH]; intros addr out; cbn [Copy.cstr_loop]; keeps.
Qed.
#[local] Hint Resolve cstr_keeps : exec_keeps.
Lemma string_vec_keeps ptr : keeps (Exec.read_string_vec ptr).
Proof.
  unfold Exec.read_string_vec. destruct (_ =? 0); [keeps|]. generalize MAX_STRINGS, (@nil bytes). intros fuel. revert ptr.
  induction fuel as [|fuel IH]; intros ptr out; cbn [Exec.string_vec_loop]; keeps.
Qed.
Lemma request_keeps hash : keeps (request_file_chunk hash).
Proof. intros w. apply rtc_once, b_request. Qed.
Lemma verify_keeps path : keeps (Elf.verify path).
Proof. intros w. apply rtc_once, b_verify. Qed.
#[local] Hint Resolve string_vec_keeps request_keeps verify_keeps : exec_keeps.
Lemma wait_keeps hash : keeps (Io.wait_for_file_chunk hash).
Proof.
  intros w. unfold Io.wait_for_file_chunk. pose proof (request_keeps hash w) as Hw.
  destruct (request_file_chunk hash w) as [w1 [[]|e|]]; [|done..]. eapply rtc_r; [exact Hw|apply b_replay].
Qed.
Lemma read_exact_keeps node off len : keeps (Elf.read_exact node off len).
Proof. unfold Elf.read_exact, Elf.to_elf. keeps. Qed.
#[local] Hint Resolve wait_keeps read_exact_keeps : exec_keeps.
Lemma inspect_keeps path depth : keeps (Elf.inspect path depth).
Proof.
  unfold Elf.inspect, Elf.open_image, Elf.to_elf, Elf.pure_res. case_match; [keeps|]. apply spares_bind; [keeps|].
  intros [node file]. apply spares_bind; [keeps|]. intros header. apply spares_bind; [keeps|]. intros [[entry phoff] phnum].
  apply spares_bind; [keeps|]. intros phdrs. apply spares_bind; [keeps|]. intros segments. apply spares_bind; [keeps|].
  intros l. case_match; [keeps|]. apply spares_bind; [|keeps]. generalize (@None bytes).
  induction segments as [|s ss IH]; intros found; cbn [Elf.read_interpreter]; keeps.
Qed.
#[local] Hint Resolve inspect_keeps : exec_keeps.
Lemma prepare_keeps fuel path depth : keeps (Elf.prepare fuel path depth).
Proof. revert path depth. induction fuel as [|fuel IH]; intros path depth; cbn [Elf.prepare]; keeps. Qed.
Lemma preflight_keeps path : keeps (Exec.preflight path).
Proof.
  intros w. unfold Exec.preflight. pose proof (prepare_keeps 3 path 0 w) as Hw.
  destruct (Elf.prepare 3 path 0 w) as [w1 [[]|e|]]; [done| |done]. case_match; [|done]. eapply rtc_r; [exact Hw|apply b_replay].
Qed.
Lemma exec_kind_keeps node : keeps (Exec.exec_kind node).
Proof. unfold Exec.exec_kind, Path.node_of. keeps. Qed.

(** * Commit *)
(** What a computation gives when run after a start that spared the caller. *)
Definition gives {E A} (m : stm machine E A) w (x : A) : Prop := ∃ w0, spared w w0 ∧ (m w0).2 = Ok x.
(** A resident file that begins as an ELF file does, or one in chunks whose
    headers, and its interpreter's, were read and found good. *)
Definition executable w (path : bytes) : Prop :=
  ∃ r node n, resolve (fs w) (cwd (proc w)) path true = Ok r ∧ r_node r = Some node ∧ node_at (fs w) node = Ok n ∧
    match kind n with
    | File data => take 4 (vdata data) = ELF_MAGIC
    | Chunked _ => gives (Elf.prepare 3 path 0) w ()
    | _ => False
    end.

(** The call stopped with the caller spared, or went past the point of no
    return with everything [P] of the program's path, arguments and environment. *)
Definition decides (P : bytes → list bytes → list bytes → Prop) w (r : machine * res Z Outcome) : Prop :=
  (spared w r.1 ∧ ∀ o, r.2 = Ok o → o = Exit Interrupted) ∨
  ∃ w1 path a e, spared w w1 ∧ P path a e ∧ Exec.exec_image path a e w1 = r.
Lemma decides_bind {A} (m : stm machine Z A) (k : A → stm machine Z Outcome) P w w0 :
  spared w w0 → keeps m → (∀ x w1, spared w w1 → (m w0).2 = Ok x → w1 = (m w0).1 → decides P w (k x w1)) →
  decides P w ((do! x <- m in k x) w0).
Proof.
  intros Hs Hm Hk. unfold sbind. pose proof (Hm w0) as Hw. destruct (m w0) as [w1 [x|e|]] eqn:E; cbn [fst] in Hw.
  - apply Hk; [unfold spared in *; by etrans|done|done].
  - left. split; [unfold spared in *; by etrans|done].
  - left. split; [unfold spared in *; by etrans|done].
Qed.
Lemma spared_resolve w w' path : spared w w' → resolve (fs w') (cwd (proc w')) path true = resolve (fs w) (cwd (proc w)) path true.
Proof. intros Hs. destruct (spared_intact _ _ Hs) as [Ht _ _ Hf _ _]. unfold proc. by rewrite Ht, Hf. Qed.

Lemma exec_kind_ok node w k :
  (Exec.exec_kind node w).2 = Ok k →
  match k with
  | inr o => o = Exit Interrupted
  | inl c => ∃ n, node_at (fs w) node = Ok n ∧
      match kind n with File data => c = false ∧ take 4 (vdata data) = ELF_MAGIC | Chunked _ => c = true | _ => False end
  end.
Proof.
  unfold Exec.exec_kind, sbind at 1, Path.node_of, query at 1. destruct (node_at (fs w) node) as [n| |] eqn:En; [|done..].
  destruct (kind n) as [| data | f | |] eqn:Ek; [done| | |done..].
  - case_bool_decide; [|done]. intros [= <-]. exists n. rewrite Ek. done.
  - unfold sbind, query. destruct (Fs.read_node_range _ _ _ _) as [[b|hash|i g x]| |]; [..|done|done].
    + case_bool_decide; [|done]. intros [= <-]. exists n. by rewrite Ek.
    + unfold Io.wait_for_file_chunk. destruct (request_file_chunk hash w) as [w1 [[]| |]]; [|done..]. by intros [= <-].
    + done.
Qed.
Lemma preflight_ok path w r :
  (Exec.preflight path w).2 = Ok r → match r with Some o => o = Exit Interrupted | None => (Elf.prepare 3 path 0 w).2 = Ok () end.
Proof.
  unfold Exec.preflight. destruct (Elf.prepare 3 path 0 w) as [w1 [[]|e|]]; [by intros [= <-]| |done].
  destruct (page_in_wait _); [|done]. by intros [= <-].
Qed.

(** Past the point of no return the caller gets no errno: its old program is gone. *)
#[local] Hint Resolve gets_no_err attempt_no_err switch_or_stall_no_err : keeps.
Lemma task_exit_no_err status g : no_err (Calls.task_exit (B:=B) (M:=M) (V:=V) status g).
Proof.
  unfold Calls.task_exit. errless.
  intros w e. unfold Calls.wake_futex. by destruct (Sched.futex_wake _ _ _).
Qed.
Lemma exec_image_no_err path a e : no_err (Exec.exec_image (B:=B) (M:=M) (V:=V) path a e).
Proof.
  unfold Exec.exec_image. errless.
  - intros w x. unfold Desc.my_heap, with_heap, Fds.close_cloexec, sbind, query, Fds.table, expect.
    by destruct (fst <$> _).
  - intros w x. unfold Exec.replace_image. destruct (Exec.start_image _ _) as [w1 [?|?|]]; [done|apply task_exit_no_err|done].
Qed.

End commit.
