(* ===== verification/ElfSpec.v ===== *)
(** What a lazily loaded image shows: zeros between the segments, and the
    segments laid over each other in order, each with its bytes of the file and
    zeros behind them. *)

From S2P Require Import Prelude BTree Abi Digest Chunk Filesystem Pager PagerView PagerOps PagerFault Cpu Net Fd Proc Signals Text ChunkManifest Manifest Authority Env GuestMem GuestMemSpec FileIo MemCalls MemCallsSpec PathCalls PathSpec Elf.

(** * The image, byte by byte *)
Definition seg_start (reloc : Z) (s : Segment) : Z := page_of (sg_vaddr s) + reloc.
Definition seg_len (s : Segment) : Z := div_ceil (sg_memsz s + in_page (sg_vaddr s)) PAGE_SIZE * PAGE_SIZE.
Definition seg_data (reloc : Z) (s : Segment) : Z := sg_vaddr s + reloc.
Definition FILL : Z := 170.
(** What [s] makes of the byte at [x]: its own from its data on, on the pages it
    covers; in front of the data what was there before. *)
Definition segment_shows (data : bytes) (reloc : Z) (x : Z) (before : option Z) (s : Segment) : option Z :=
  if is_load s && (seg_start reloc s <=? x) && (x <? seg_start reloc s + seg_len s) then
    Some (if x <? seg_data reloc s then default FILL before
          else if x <? seg_data reloc s + sg_filesz s then default 0 (getz data (sg_offset s + (x - seg_data reloc s)))
          else 0)
  else before.
Definition image_shows (data : bytes) (reloc : Z) (ss : list Segment) (x : Z) : Z :=
  default 0 (foldl (segment_shows data reloc x) None ss).

(** The fields of the file fit, and so do the offsets of what lies behind the
    data of a segment. *)
Definition segment_sane (s : Segment) : Prop :=
  is_u64 (sg_offset s) ∧ is_u64 (sg_vaddr s) ∧ is_u64 (sg_filesz s) ∧ is_u64 (sg_memsz s) ∧
  sg_offset s + seg_len s ≤ U64_MAX.

Lemma in_page_mod x : in_page x = x mod PAGE_SIZE.
Proof. unfold in_page. change (PAGE_SIZE - 1) with (Z.ones 12). by rewrite Z.land_ones by lia. Qed.

Section mapping.
Context `{Host}.
Lemma segment_mapping_ok f reloc s m :
  Elf.segment_mapping f reloc s = Ok m → 0 ≤ reloc → segment_sane s → file_wf f →
  m = {| m_start := seg_start reloc s; m_end := seg_start reloc s + seg_len s; data_start := seg_data reloc s;
         file_offset := sg_offset s; file_len := sg_filesz s; final_perm := segment_perm (sg_flags s); fill := FILL;
         m_file := f |} ∧ mapping_wf m.
Proof.
  intros Hm Hr (Ho & Hv & Hz & Hs & Hroom) Hf. unfold Elf.segment_mapping, checked, checked_add64, page_align in Hm.
  destruct (Z.leb_spec (page_of (sg_vaddr s) + reloc) U64_MAX); cbn [ok_or rbind] in Hm; [|done].
  destruct (Z.leb_spec (sg_memsz s + in_page (sg_vaddr s)) U64_MAX); cbn [ok_or rbind] in Hm; [|done].
  fold (seg_len s) in Hm. destruct (Z.leb_spec (seg_len s) U64_MAX); cbn [rbind] in Hm; [|done].
  fold (seg_start reloc s) in *. destruct (Z.leb_spec (seg_start reloc s + seg_len s) U64_MAX) as [He|]; cbn [ok_or rbind] in Hm; [|done].
  fold (seg_data reloc s) in Hm. destruct (Z.leb_spec (seg_data reloc s) U64_MAX); cbn [ok_or rbind] in Hm; [|done].
  destruct (mapping_new _ _ _ _ _ _ _ _) as [m'| |] eqn:E; cbn in Hm; [|done..]. injection Hm as ->. split.
  - unfold mapping_new in E. by inv_res E.
  - pose proof (page_of_bounds (sg_vaddr s)). pose proof (page_of_nonneg (sg_vaddr s)).
    eapply mapping_new_wf; [..|exact E]; try done; unfold fits, seg_start, seg_data in *; lia.
Qed.
End mapping.

Section image.
Context `{Host} {B : Type} `{NetworkBroker B} {M V : Type} `{GuestMemoryLaws M V} `{AddressRanges M}.
Context `{!AddressRangesLaws M V} (contents : ChunkedFile → bytes).
Abbreviation machine := (Machine B M V).
Implicit Types w : machine.

Definition map_files (a : Z) (ms : list FileMapping) (p : Pager) : Pager := foldl (λ p m, map_file p a m) p ms.
Lemma map_files_cons a m ms p : map_files a (m :: ms) p = map_files a ms (map_file p a m).
Proof. done. Qed.
Lemma map_files_view a ms p x : view (map_files a ms p) a x = view p a x ++ view_of ms x.
Proof.
  revert p. induction ms as [|m ms IH]; intros p; [by rewrite app_nil_r|]. rewrite map_files_cons, IH.
  rewrite map_file_view, decide_True by done. rewrite <- app_assoc. f_equal. change (m :: ms) with ([m] ++ ms). by rewrite view_of_app.
Qed.
Lemma map_files_resident a ms p : resident (map_files a ms p) = resident p.
Proof. revert p. induction ms as [|m ms IH]; intros p; [done|]. by rewrite map_files_cons, IH. Qed.
Lemma map_files_counts a ms p :
  page_ins (map_files a ms p) = page_ins p ∧ page_ins_by_access (map_files a ms p) = page_ins_by_access p.
Proof. revert p. induction ms as [|m ms IH]; intros p; [done|]. rewrite map_files_cons. by destruct (IH (map_file p a m)) as [-> ->]. Qed.
Lemma map_files_wf a ms p : pager_wf p → Forall mapping_wf ms → pager_wf (map_files a ms p).
Proof.
  revert p. induction ms as [|m ms IH]; intros p Hp Hm; [done|]. inversion_clear Hm. rewrite map_files_cons. apply IH; [|done].
  intros b s. cbn. rewrite lookup_insert_Some. intros [[<- <-]|[_ Hb]]; [|by eapply Hp]. unfold space_wf. cbn.
  apply Forall_app. split; [|by constructor]. destruct (spaces p !! a) as [t|] eqn:Et; [by eapply Hp|constructor].
Qed.
Lemma map_files_over P a ms p : space_over P p a → Forall (over P) ms → space_over P (map_files a ms p) a.
Proof.
  revert p. induction ms as [|m ms IH]; intros p Hp Hm; [done|]. inversion_clear Hm. rewrite map_files_cons. apply IH; [|done].
  by apply map_file_over.
Qed.

(** The segments become mappings, in order; nothing else changes. *)
Lemma map_segments_ok f reloc ss w w' phdr phdr' :
  Elf.map_segments f reloc phdr ss w = (w', Ok phdr') →
  ∃ ms, w' = on_env (λ e, put_pager (map_files (asid (proc w)) ms (pager e)) e) w ∧
    Forall2 (λ s m, Elf.segment_mapping f reloc s = Ok m) (List.filter is_load ss) ms.
Proof.
  revert w phdr. induction ss as [|s ss IH]; intros w phdr E; cbn [Elf.map_segments] in E.
  { injection E as <- _. exists []. split; [by destruct w as [[] ? ?]|constructor]. }
  cbn [List.filter]. destruct (is_load s).
  - unfold sbind, Elf.map_segment, sbind, Elf.pure_res, query in E.
    destruct (Elf.segment_mapping f reloc s) as [m| |] eqn:Em; [|done..]. cbn [modify] in E.
    apply IH in E as (ms & -> & Hf). exists (m :: ms). split; [done|by constructor].
  - destruct (sg_kind s =? PT_PHDR); [|by eapply IH]. unfold sbind, Elf.pure_res, query in E.
    destruct (checked _) as [p| |]; [|done..]. by eapply IH.
Qed.

(** * Views of whole pages *)
Lemma elf_covers_page m x : mapping_wf m → covers (page_of x) m = covers x m.
Proof.
  intros [_ _ Hs He _ _ _ _]. pose proof (page_of_bounds x). pose proof (page_of_aligned x) as Ha. unfold covers.
  apply eq_bool_prop_intro. rewrite !Is_true_true, !andb_true_iff, !Z.leb_le, !Z.ltb_lt.
  unfold aligned, PAGE_SIZE in *. Z.div_mod_to_equations. lia.
Qed.
Lemma elf_view_of_page ms x : Forall mapping_wf ms → view_of ms (page_of x) = [] ↔ view_of ms x = [].
Proof.
  intros Hm. unfold view_of. assert (filter (covers (page_of x)) ms = filter (covers x) ms) as ->.
  { induction Hm as [|m ms Hw _ IH]; [done|]. rewrite !filter_cons, IH, elf_covers_page by done. done. }
  by destruct (filter _ ms).
Qed.
Lemma view_at_page w x : pager_wf (pager (env w)) → view_at w (page_of x) = [] ↔ view_at w x = [].
Proof.
  intros Hw. unfold view_at, view. destruct (spaces _ !! _) as [s|] eqn:E; [|done]. apply elf_view_of_page, (Hw _ _ E).
Qed.
Lemma base_fill_all ms x : Forall (λ m, fill m = FILL) ms → view_of ms x ≠ [] → base_fill (view_of ms x) = FILL.
Proof.
  intros Hm. unfold view_of, base_fill. destruct (filter (covers x) ms) as [|m l] eqn:E; [done|]. intros _. cbn.
  rewrite Forall_forall in Hm. apply Hm. assert (m ∈ filter (covers x) ms) as Hin by (rewrite E; constructor).
  by apply list_elem_of_filter in Hin as [_ ?].
Qed.

Definition mapping_of (f : ChunkedFile) (reloc : Z) (s : Segment) : FileMapping :=
  {| m_start := seg_start reloc s; m_end := seg_start reloc s + seg_len s; data_start := seg_data reloc s;
     file_offset := sg_offset s; file_len := sg_filesz s; final_perm := segment_perm (sg_flags s); fill := FILL;
     m_file := f |}.
Lemma shows_fold f reloc ss x before :
  let ms := mapping_of f reloc <$> List.filter is_load ss in
  let r := foldl (segment_shows (contents f) reloc x) before ss in
  Forall (λ s, 0 ≤ sg_filesz s) ss →
  foldl (apply_effect contents) (default FILL before) (view_of ms x) = default FILL r ∧
  (view_of ms x = [] → r = before) ∧ (view_of ms x ≠ [] → is_Some r).
Proof.
  cbn zeta. revert before. induction ss as [|s ss IH]; intros before Hz; [done|]. inversion_clear Hz as [|? ? Hs Hss].
  cbn [List.filter foldl]. unfold segment_shows at 2 4 6. destruct (is_load s) eqn:El; cbn [andb]; [|by apply IH].
  change (mapping_of f reloc <$> s :: ?l) with ([mapping_of f reloc s] ++ (mapping_of f reloc <$> l)).
  rewrite view_of_app, foldl_app, view_of_one. change (covers x (mapping_of f reloc s))
    with ((seg_start reloc s <=? x) && (x <? seg_start reloc s + seg_len s)).
  destruct (_ && _) eqn:Ec; cbn [foldl app]; [|by apply IH].
  set (v := if x <? seg_data reloc s then _ else _).
  assert (apply_effect contents (default FILL before) (effect (mapping_of f reloc s) x) = v) as ->.
  { unfold apply_effect, effect, data_end, v. cbn. destruct (Z.leb_spec (seg_data reloc s) x), (Z.ltb_spec x (seg_data reloc s)); try lia; cbn [andb].
    - destruct (Z.ltb_spec x (seg_data reloc s + sg_filesz s)); [done|]. by rewrite (proj2 (Z.leb_le _ _)) by lia.
    - by rewrite (proj2 (Z.leb_gt _ _)) by lia. }
  destruct (IH (Some v) Hss) as (Hv & He & Hn). split; [exact Hv|]. split; [done|]. intros _.
  destruct (view_of (mapping_of f reloc <$> List.filter is_load ss) x) eqn:E; [rewrite He by done; eauto|by apply Hn].
Qed.

(** * The layout *)
Lemma page_align_len s start n : start = page_of (sg_vaddr s) → page_align (sg_memsz s + (sg_vaddr s - start)) = Ok n → n = seg_len s.
Proof.
  intros -> Hp. unfold page_align in Hp. destruct (_ <=? _); [|done]. injection Hp as <-. unfold seg_len.
  do 3 f_equal. rewrite page_of_spec, in_page_mod. unfold PAGE_SIZE. Z.div_mod_to_equations. lia.
Qed.
Definition inside (l : Layout) (s : Segment) : Prop :=
  is_load s = true → lo l ≤ page_of (sg_vaddr s) ∧ page_of (sg_vaddr s) + seg_len s ≤ hi l.
Lemma place_all_ok f ss l l' :
  place_all f l ss = Ok l' → lo l' ≤ lo l ∧ hi l ≤ hi l' ∧ Forall (inside l') ss ∧
  loadable l' = loadable l + zlen (List.filter is_load ss).
Proof.
  revert l. induction ss as [|s ss IH]; intros l E; cbn [place_all] in E; [injection E as <-; unfold zlen; cbn; split_and!; (lia || constructor)|].
  cbn [List.filter]. destruct (is_load s) eqn:El.
  2:{ apply IH in E as (? & ? & ? & ?). split_and!; [done..| |done]. constructor; [|done]. intros ?; congruence. }
  destruct (place f l s) as [l1| |] eqn:Ep; cbn [rbind] in E; [|done..]. apply IH in E as (Hlo & Hhi & Hf & Hn).
  unfold place in Ep. destruct (_ || _); [done|]. destruct (segment_align _); cbn [rbind] in Ep; [|done..].
  unfold checked, checked_add64 in Ep. destruct (_ <=? U64_MAX); cbn [ok_or rbind] in Ep; [|done].
  destruct (page_align _) as [n| |] eqn:En; cbn [rbind] in Ep; [|done..]. apply page_align_len in En as ->; [|done].
  destruct (_ <=? U64_MAX); cbn [ok_or rbind] in Ep; [|done]. injection Ep as <-. cbn in *.
  split_and!; [lia|lia|constructor; [intros _; lia|done]|rewrite Hn; unfold zlen; cbn [length]; lia].
Qed.

Lemma mappings_of f reloc ss ms :
  0 ≤ reloc → Forall segment_sane ss → file_wf f →
  Forall2 (λ s m, Elf.segment_mapping f reloc s = Ok m) (List.filter is_load ss) ms →
  ms = mapping_of f reloc <$> List.filter is_load ss ∧ Forall mapping_wf ms.
Proof.
  intros Hr Hs Hf H2'. assert (Hl : Forall segment_sane (List.filter is_load ss)).
  { rewrite Forall_forall in *. intros s Hin. apply Hs. apply list_elem_of_In, filter_In in Hin as [Hin _]. by apply list_elem_of_In. }
  induction H2' as [|s m l ms Hm _ IH]; [done|]. inversion_clear Hl as [|? ? Hs1 Hs2]. destruct (IH Hs2) as [-> ?].
  destruct (segment_mapping_ok f reloc s m Hm Hr Hs1 Hf) as [Em ?]. split; [by rewrite Em|by constructor].
Qed.
Lemma view_outside f reloc ss l x base :
  Forall (inside l) ss → reloc = base - lo l → Forall mapping_wf (mapping_of f reloc <$> List.filter is_load ss) →
  view_of (mapping_of f reloc <$> List.filter is_load ss) x ≠ [] → base ≤ x < base + (hi l - lo l).
Proof.
  intros Hi -> Hw Hv. unfold view_of in Hv. destruct (filter (covers x) _) as [|m k] eqn:E; [done|].
  assert (m ∈ filter (covers x) (mapping_of f (base - lo l) <$> List.filter is_load ss)) as Hin by (rewrite E; constructor).
  apply list_elem_of_filter in Hin as [Hc Hin]. apply Is_true_true, covers_iff in Hc.
  apply list_elem_of_fmap in Hin as (s & -> & Hs). apply list_elem_of_In, filter_In in Hs as [Hs El].
  rewrite Forall_forall in Hi. apply list_elem_of_In in Hs. destruct (Hi s Hs El). cbn in Hc. unfold seg_start in Hc. lia.
Qed.

(** The whole image over a fresh range. *)
Lemma map_files_ok w f reloc base n ss l :
  space_ok contents w → allowed contents w f FILL → file_wf f → Forall segment_sane ss →
  Forall (inside l) ss → reloc = base - lo l → n = hi l - lo l →
  Forall mapping_wf (mapping_of f reloc <$> List.filter is_load ss) →
  (∀ x, base ≤ x < base + n → view_at w x = [] ∧ mem_byte (mem w) x = Some 0) →
  let w' := on_env (λ e, put_pager (map_files (asid (proc w)) (mapping_of f reloc <$> List.filter is_load ss) (pager e)) e) w in
  space_ok contents w' ∧ changed_in contents w w' base n ∧
  ∀ x, base ≤ x < base + n → guest_byte contents w' x = Some (image_shows (contents f) reloc ss x).
Proof.
  intros Hok Hal Hf Hs Hi Er En Hw Hz w'. set (ms := mapping_of f reloc <$> List.filter is_load ss) in *.
  assert (Hv : ∀ x, view_at w' x = view_at w x ++ view_of ms x) by (intros x; apply map_files_view).
  assert (Hout : ∀ x, view_of ms x ≠ [] → base ≤ x < base + n).
  { intros x Hx. subst n. by apply (view_outside f reloc ss). }
  assert (Hpw : pager_wf (pager (env w'))) by (apply map_files_wf; [apply (so_backed _ _ Hok)|done]).
  assert (Hnr : ∀ page, view_at w page = [] → ¬ in_memory w' page).
  { intros page Hp Hin. unfold in_memory in Hin. cbn in Hin. rewrite map_files_resident in Hin. by apply (so_resident _ _ Hok page). }
  split; [split|split; [split|]].
  - apply backed_iff. split; [done|]. apply map_files_over; [apply (proj1 (backed_iff contents w)), (so_backed _ _ Hok)|].
    apply Forall_fmap, Forall_true. intros s. exact Hal.
  - intros x Hx Hn. rewrite Hv in Hn. destruct (view_of ms x) eqn:E.
    + rewrite app_nil_r in Hn. by apply (so_mapped _ _ Hok).
    + destruct (Hz x) as [_ Hb]; [apply Hout; by rewrite E|]. change (mem w') with (mem w). rewrite Hb. eauto.
  - intros page Hin. rewrite Hv. intros [Hn _]%app_nil. by apply (Hnr page).
  - done.
  - apply map_files_counts.
  - intros x Hx Ho. assert (Hx0 : view_of ms x = []).
    { destruct (view_of ms x) eqn:E; [done|]. assert (base ≤ x < base + n) by (apply Hout; by rewrite E). lia. }
    pose proof (proj2 (elf_view_of_page ms x Hw) Hx0) as Hp0.
    apply guest_byte_ext; rewrite ?Hv, ?Hx0, ?Hp0, ?app_nil_r; [done..|unfold in_memory; cbn; by rewrite map_files_resident|done].
  - intros x Hx. destruct (Hz x Hx) as [Hvx Hb]. unfold guest_byte.
    pose proof (proj2 (view_at_page w x (proj1 (so_backed _ _ Hok))) Hvx) as Hvp.
    destruct (shows_fold f reloc ss x None) as (Hsh & He & Hne).
    { eapply Forall_impl; [exact Hs|]. intros s (_ & _ & [? _] & _). done. }
    fold ms in Hsh, He, Hne. unfold cold, image_shows. rewrite !Hv, Hvx, Hvp. cbn [app].
    destruct (decide (view_of ms x = [])) as [E|E].
    + rewrite (proj2 (elf_view_of_page ms x Hw) E), (He E). done.
    + assert (view_of ms (page_of x) ≠ []) as Ep by (by rewrite elf_view_of_page).
      rewrite bool_decide_true by done. rewrite (bool_decide_true (¬ _)) by (by apply Hnr). cbn [andb]. f_equal.
      rewrite base_fill_all by (done || by apply Forall_fmap, Forall_true). destruct (Hne E) as [v Ev]. rewrite Ev in *. exact Hsh.
Qed.

(** What [inspect] leaves in an image. *)
Definition inspected (i : ElfImage) : Prop := ∃ l,
  place_all (ei_file i) layout_new (ei_segments i) = Ok l ∧ loadable l ≠ 0 ∧ requested_base i = lo l ∧
  image_end i = hi l ∧ image_align i = al l.
Lemma inspect_inspected path depth w w' i : Elf.inspect path depth w = (w', Ok i) → inspected i.
Proof.
  unfold Elf.inspect. destruct (1 <? depth); [done|]. unfold sbind at 1. destruct (Elf.open_image path w) as [w1 [[node f]| |]]; [|done..].
  unfold sbind at 1. destruct (Elf.read_exact node 0 ELF_HEADER w1) as [w2 [hd| |]]; [|done..].
  unfold sbind at 1, Elf.pure_res at 1, query at 1. destruct (Elf.parse_header hd) as [[[entry phoff] phnum]| |]; [|done..].
  unfold sbind at 1. destruct (Elf.read_exact node phoff (phnum * PROGRAM_HEADER) w2) as [w3 [ph| |]]; [|done..].
  unfold sbind at 1, Elf.pure_res at 1, query at 1. destruct (parse_segments (Z.to_nat phnum) ph) as [ss| |]; [|done..].
  unfold sbind at 1, Elf.pure_res at 1, query at 1. destruct (place_all f layout_new ss) as [l| |] eqn:El; [|done..].
  destruct (Z.eqb_spec (loadable l) 0); [done|]. unfold sbind. destruct (Elf.read_interpreter _ _ _ _ w3) as [w4 [p| |]]; [|done..].
  intros [= <- <-]. by exists l.
Qed.

Lemma seg_len_pos s : segment_sane s → is_load s = true → 0 < seg_len s.
Proof.
  intros (_ & _ & _ & [Hm _] & _) Hl. unfold is_load in Hl. bool_to_prop. unfold seg_len, div_ceil. rewrite in_page_mod.
  unfold PAGE_SIZE. Z.div_mod_to_equations. lia.
Qed.
Lemma alloc_image_ok w hint n align prm w1 base :
  space_ok contents w → 0 < n → Elf.alloc_image hint n align prm w = (w1, Ok base) →
  space_ok contents w1 ∧ changed_in contents w w1 base n ∧ 0 ≤ base ∧ base + n ≤ 2 ^ 64 ∧ asid (proc w1) = asid (proc w) ∧
  ∀ x, base ≤ x < base + n → view_at w1 x = [] ∧ mem_byte (mem w1) x = Some 0.
Proof.
  intros Hok Hn E. unfold Elf.alloc_image in E. destruct (mem_find_free _ _ _ _) as [a|] eqn:Ef; [|done]. injection E as <- ->.
  destruct (find_free_spec _ _ _ _ _ Hn Ef) as (_ & Ha & He & Hfree).
  pose proof (map_free (mem w) base n prm Ha Hn He Hfree) as Hm. destruct (mem_map (mem w) base n prm) as [m ok] eqn:Em.
  cbn in Hm. subst ok. destruct (map_spec _ _ _ _ _ Ha Em) as (_ & _ & Hr). cbn [fst].
  assert (Hb : ∀ x, is_u64 x → mem_byte m x = if decide (base ≤ x < base + n) then Some 0 else mem_byte (mem w) x).
  { intros x Hx. unfold mem_byte. rewrite Hr by done. by case_decide. }
  split; [|split; [|split; [done|split; [done|split; [done|]]]]].
  - apply put_mem_ok; [done|]. intros x Hx Hs. rewrite Hb by done. case_decide; [eauto|]. by apply (so_mapped _ _ Hok).
  - split; [done|done|]. intros x Hx Ho. apply put_mem_byte. by rewrite Hb, decide_False by (done || lia).
  - intros x Hx. assert (is_u64 x) by (unfold fits; lia). split; [|cbn; by rewrite Hb, decide_True].
    destruct (view_at w x) eqn:Ev; [exact Ev|]. destruct (so_mapped _ _ Hok x) as [y Hy]; [done|by rewrite Ev|].
    apply Hfree in Hx. apply mem_byte_None in Hx. congruence.
Qed.

Lemma inspected_range i :
  inspected i → Forall segment_sane (ei_segments i) → ∃ l, Forall (inside l) (ei_segments i) ∧ requested_base i = lo l ∧
    image_end i = hi l ∧ lo l < hi l.
Proof.
  intros (l & Hp & Hn & Hb & He & _) Hs. destruct (place_all_ok _ _ _ _ Hp) as (_ & _ & Hi & Hc).
  exists l. split_and!; [done..|]. cbn in Hc. destruct (List.filter is_load (ei_segments i)) as [|s ss] eqn:E; [unfold zlen in Hc; cbn in Hc; lia|].
  assert (In s (List.filter is_load (ei_segments i))) as [Hin El]%filter_In by (rewrite E; by left).
  apply list_elem_of_In in Hin. rewrite Forall_forall in Hi, Hs. destruct (Hi s Hin El).
  pose proof (seg_len_pos s (Hs s Hin) El). lia.
Qed.

(** C17. A chunked ELF file loaded lazily shows its segments: whenever the
    mapping of an inspected image succeeds, every address of the range taken shows
    the byte [image_shows] computes from the headers and the contents of the file:
    on the pages of a segment its bytes of the file, then zeros to the end of its
    last page, and in front of its data what an earlier segment put there or the
    filling byte 0xaa; a later segment over an earlier one; zero on the pages no
    segment covers. No chunk has to be present. Every byte outside the range is as
    it was, and entry point and relocation are those of the range. The file is
    well-formed and registered with these contents, and the header fields are
    64-bit values whose offsets do not overflow. *)
Theorem lazy_image_shows i w w' md :
  inspected i → space_ok contents w → allowed contents w (ei_file i) FILL → file_wf (ei_file i) →
  Forall segment_sane (ei_segments i) → Elf.map_image i w = (w', Ok md) →
  let base := base_ptr md in
  let reloc := base - requested_base i in
  let len := image_end i - requested_base i in
  0 ≤ reloc ∧ em_offset md = reloc ∧ em_length md = len ∧ entry_ptr md = ei_entry i + reloc ∧
  space_ok contents w' ∧ changed_in contents w w' base len ∧
  ∀ x, base ≤ x < base + len → guest_byte contents w' x = Some (image_shows (contents (ei_file i)) reloc (ei_segments i) x).
Proof.
  intros Hin Hok Hal Hf Hs E. destruct (inspected_range i Hin Hs) as (l & Hi & Hb & He & Hlt). unfold Elf.map_image in E.
  rewrite (proj2 (Z.leb_le _ _)) in E by lia. unfold sbind at 1, Elf.pure_res at 1, query at 1 in E. cbn [ok_or] in E.
  unfold sbind at 1 in E. destruct (Elf.alloc_image _ _ _ _ w) as [w1 [base| |]] eqn:Ea; [|done..].
  destruct (alloc_image_ok w (requested_base i) (image_end i - requested_base i) (image_align i) Perm.INIT w1 base Hok ltac:(lia) Ea) as (Hok1 & Hch1 & H0b & Htop & Has & Hz).
  destruct (Z.leb_spec (requested_base i) base) as [Hle|]; [|done].
  unfold sbind at 1, Elf.pure_res at 1, query at 1 in E. cbn [ok_or] in E. set (reloc := base - requested_base i) in *.
  unfold sbind at 1 in E. destruct (Elf.map_segments _ _ _ _ w1) as [w2 [ph| |]] eqn:Em; [|done..].
  apply map_segments_ok in Em as (ms & -> & H2'). apply mappings_of in H2' as [-> Hw]; [|lia|done|done].
  destruct (map_files_ok w1 (ei_file i) reloc base (image_end i - requested_base i) (ei_segments i) l) as (Hok2 & Hch2 & Hsh);
    [done| |done|done|done|lia|lia|done|done|].
  { destruct (same_objects_proc _ _ (ci_same _ _ _ _ _ Hch1)) as [_ Hv]. unfold allowed. by rewrite Hv. }
  unfold sbind, Elf.pure_res, query, checked, checked_add64 in E.
  destruct (_ <=? U64_MAX); cbn [ok_or] in E; [|done]. destruct ph as [p|].
  - injection E as <- <-. cbn. split_and!; [lia|done..| |exact Hsh]. by eapply changed_in_trans.
  - destruct (_ <=? U64_MAX); cbn [ok_or] in E; [|done].
    injection E as <- <-. cbn. split_and!; [lia|done..| |exact Hsh]. by eapply changed_in_trans.
Qed.
End image.

(** A program of two segments over a file of sevens none of whose chunks is
    present; the second one begins inside a page. *)
Definition sevens (f : ChunkedFile) : bytes := replicate (Z.to_nat 9000) 7.
Definition two_segments : list Segment :=
  [{| sg_kind := PT_LOAD; sg_flags := 5; sg_offset := 0; sg_vaddr := 65536; sg_filesz := 5000; sg_memsz := 5000; sg_align := 4096 |};
   {| sg_kind := PT_LOAD; sg_flags := 6; sg_offset := 6000; sg_vaddr := 73828; sg_filesz := 100; sg_memsz := 300; sg_align := 4096 |}].
Definition small_image : ElfImage :=
  {| ei_file := demo_file; ei_entry := 65600; ei_phoff := 64; ei_phnum := 2; ei_segments := two_segments;
     requested_base := 65536; image_end := 77824; image_align := 4096; interpreter_path := None |}.
Definition small_md : ElfMetadata :=
  {| em_offset := 0; entry_ptr := 65600; base_ptr := 65536; em_length := 12288; phdr_ptr := 65600; phdr_num := 2 |}.

Lemma fresh_machine_ok (contents : ChunkedFile → bytes) : space_ok contents fresh_machine.
Proof.
  assert (Hs : spaces (pager (env fresh_machine)) = ∅) by reflexivity.
  split; [split|..].
  - intros a s. rewrite Hs, lookup_empty. discriminate 1.
  - intros s. rewrite Hs, lookup_empty. discriminate 1.
  - intros x _ []. unfold view_at, view. by rewrite Hs.
  - intros page Hin. unfold in_memory in Hin. change (resident (pager (env fresh_machine))) with (∅ : gset (Z * Z)) in Hin.
    by apply elem_of_empty in Hin.
Qed.
Lemma small_image_loads : ∃ w', Elf.map_image small_image fresh_machine = (w', Ok small_md).
Proof.
  assert (Hf : mem_find_free (mem fresh_machine) 65536 12288 4096 = Some 65536).
  { change (mem fresh_machine) with (∅ : gmap Z Z). cbn [mem_find_free flat_ranges].
    change (div_ceil 65536 4096) with 16. change 64%nat with (S 63). cbn [FlatRange.find].
    change (FlatRange.in_space (16 * 4096) 12288) with true. rewrite (proj2 (FlatRange.free_true ∅ _ _)); [reflexivity|].
    intros x _. apply lookup_empty. }
  unfold Elf.map_image. cbn [requested_base image_end image_align ei_file ei_segments ei_entry ei_phoff ei_phnum small_image].
  change (65536 <=? 77824) with true. unfold sbind at 1, Elf.pure_res at 1, query at 1. cbn [ok_or].
  unfold sbind at 1, Elf.alloc_image. change (77824 - 65536) with 12288. rewrite Hf.
  generalize (mem_map (mem fresh_machine) 65536 12288 Perm.INIT).1. intros m. eexists. vm_compute. reflexivity.
Qed.
Lemma lazy_image_shows_witness :
  ∃ w' md, Elf.map_image small_image fresh_machine = (w', Ok md) ∧ entry_ptr md = 65600 ∧
    guest_byte sevens w' 65536 = Some 7 ∧ guest_byte sevens w' 70600 = Some 0 ∧
    guest_byte sevens w' 73827 = Some 170 ∧ guest_byte sevens w' 73828 = Some 7 ∧ guest_byte sevens w' 73928 = Some 0.
Proof.
  destruct small_image_loads as [w' E].
  destruct (lazy_image_shows sevens small_image fresh_machine w' small_md) as (_ & _ & _ & _ & _ & _ & Hx); [..|exact E|].
  - exists {| lo := 65536; hi := 77824; al := 4096; loadable := 2 |}. split; [vm_compute; reflexivity|].
    split_and!; [discriminate|reflexivity..].
  - apply fresh_machine_ok.
  - split; [split|split].
    + vm_compute. reflexivity.
    + intros i h v _ Hg. vm_compute in Hg. discriminate Hg.
    + vm_compute. split; congruence.
    + apply Forall_replicate. vm_compute. split; congruence.
  - vm_compute. repeat split; congruence.
  - repeat (apply Forall_cons; split; [vm_compute; repeat split; congruence|]). constructor.
  - exists w', small_md. split; [exact E|]. split; [reflexivity|]. clear E.
    change (base_ptr small_md) with 65536 in Hx. cbn [requested_base image_end small_image] in Hx.
    split_and!; (rewrite Hx by lia; vm_compute; reflexivity).
Defined.
