(* ===== verification/Pcode.v ===== *)
(** p-code and the interpreter the compiled blocks stand in for: the parts of the
    vendored engine ([third_party/icicle]: [sleigh/pcode/src/ops.rs],
    [icicle-cpu/src/regs.rs], [icicle-cpu/src/cpu.rs],
    [icicle-cpu/src/exec/interpreter.rs]) that [crates/x64-engine/src/jit.rs] and
    [vm.rs] are written against.

    The register space is a map from byte offsets; a byte never written is zero.
    The softmmu is a class ([Softmmu]): checked reads and writes of guest memory,
    and the host bytes its translation cache and pages occupy, which compiled
    code reads directly. Floating point is a class of operations on bit patterns
    ([Floats]). Helpers, hooks and the 16- and 80-bit float formats are an escape
    ([Escapes]): compiled code never contains them. [None] is a panic. *)

From S2P Require Import Prelude Cpu.

(** * Operands and operations *)
Record VarNode := { v_id : Z; v_offset : Z; v_size : Z }.
Inductive Value := Var (v : VarNode) | Const (c size : Z).
#[global] Instance VarNode_eq_dec : EqDecision VarNode.
Proof. solve_decision. Defined.
#[global] Instance Value_eq_dec : EqDecision Value.
Proof. solve_decision. Defined.

Definition var_new (id size : Z) : VarNode := {| v_id := id; v_offset := 0; v_size := size |}.
Definition size_of (v : Value) : Z := match v with Var x => v_size x | Const _ s => s end.
(** [VarNode::slice] panics past the end, [Value::slice] when a shift is too far. *)
Definition slice_var (v : VarNode) (offset size : Z) : option VarNode :=
  if v_size v <? offset + size then None
  else Some {| v_id := v_id v; v_offset := v_offset v + offset; v_size := size |}.
Definition slice (v : Value) (offset size : Z) : option Value :=
  match v with
  | Var x => Var <$> slice_var x offset size
  | Const c _ => if offset * 8 <? 64 then Some (Const (wrap (size * 8) (Z.shiftr c (offset * 8))) size) else None
  end.

Definition RAM_SPACE : Z := 0.
Module Op.
Inductive op :=
| Copy | Select (cond : Z) | Subpiece (offset : Z) | ZeroExtend | SignExtend
| IntToFloat | UintToFloat | FloatToFloat | FloatToInt
| IntAdd | IntSub | IntXor | IntOr | IntAnd | IntMul
| IntDiv | IntSignedDiv | IntRem | IntSignedRem
| IntLeft | IntRotateLeft | IntRight | IntSignedRight | IntRotateRight
| IntEqual | IntNotEqual | IntLess | IntSignedLess | IntLessEqual | IntSignedLessEqual
| IntCarry | IntSignedCarry | IntSignedBorrow
| IntNot | IntNegate | IntCountOnes | IntCountLeadingZeroes
| BoolAnd | BoolOr | BoolXor | BoolNot
| FloatAdd | FloatSub | FloatMul | FloatDiv
| FloatNegate | FloatAbs | FloatSqrt | FloatCeil | FloatFloor | FloatRound | FloatIsNan
| FloatEqual | FloatNotEqual | FloatLess | FloatLessEqual
| Load (space : Z) | Store (space : Z)
| Branch (hint : Z) | PcodeBranch (label : Z) | PcodeLabel (label : Z) | MultiEqual | Indirect
| Arg (k : Z) | PcodeOp (k : Z) | Hook (k : Z) | HookIf (k : Z) | TracerLoad (k : Z) | TracerStore (k : Z)
| Exception | InstructionMarker | Invalid.
End Op.
#[global] Instance Op_eq_dec : EqDecision Op.op.
Proof. solve_decision. Defined.

Record Inst := { i_op : Op.op; i_a : Value; i_b : Value; i_out : VarNode }.

(** Where a lifted block goes next. *)
Inductive Target := TInvalid (code addr : Z) | TInternal (id : Z) | TExternal (v : Value).
Inductive BlockExit :=
| Jump (target : Target)
| Branch (cond : Value) (target fallthrough : Target)
| Call (target : Value) (fallthrough : Z)
| Return (target : Value).
Record Block := {
  b_code : list Inst; b_start : Z; b_end : Z; b_context : Z; b_exit : BlockExit; b_breakpoints : Z;
  b_count : Z
}.
Definition is_marker (i : Inst) : bool := bool_decide (i_op i = Op.InstructionMarker).
Definition count_instructions (l : list Inst) : Z := zlen (filter (λ i, is_marker i) l).

(** * The register space *)
Abbreviation Regs := (gmap Z Z).
Definition REG_SPACE_BYTES : Z := 131072.
Definition REG_OFFSET : Z := 512 * 16.
Definition regs_var_offset (v : VarNode) : Z := REG_OFFSET + (v_id v * 16 + v_offset v).
Definition reg_byte (r : Regs) (k : Z) : Z := default 0 (r !! k) mod 256.
Fixpoint get_bytes (r : Regs) (k : Z) (n : nat) : bytes :=
  match n with O => [] | S n => reg_byte r k :: get_bytes r (k + 1) n end.
Fixpoint put_bytes (r : Regs) (k : Z) (l : bytes) : Regs :=
  match l with [] => r | b :: l => put_bytes (<[k := b]> r) (k + 1) l end.
(** [read::<uN>(value)] and [write_var::<uN>(var, x)], [n] bytes wide. *)
Definition read_reg (r : Regs) (k n : Z) : Z := le_val (get_bytes r k (Z.to_nat n)).
Definition write_reg (r : Regs) (k n x : Z) : Regs := put_bytes r k (le_bytes (Z.to_nat n) x).
Definition read (r : Regs) (v : Value) (n : Z) : Z :=
  match v with Var x => read_reg r (regs_var_offset x) n | Const c _ => wrap (8 * n) c end.
Definition write (r : Regs) (v : VarNode) (n x : Z) : Regs := write_reg r (regs_var_offset v) n x.
(** [read_dynamic(value)]: the value and its width; an unsupported width reads
    as a zero byte. *)
Definition dynamic_sizes : list Z := [1; 2; 3; 4; 5; 6; 7; 8; 9; 10; 16].
Definition read_dynamic (r : Regs) (v : Value) : Z * Z :=
  if bool_decide (size_of v ∈ dynamic_sizes) then (read r v (size_of v), size_of v)
  else if size_of v =? 32 then (read r v 16, 16)
  else (0, 1).
Definition zxt (bits : Z) (d : Z * Z) : Z := wrap bits d.1.
Definition sxt (bits : Z) (d : Z * Z) : Z := wrap bits (signed (8 * d.2) d.1).
Definition write_trunc (r : Regs) (v : VarNode) (x : Z) : Regs :=
  if bool_decide (v_size v ∈ dynamic_sizes) then write r v (v_size v) x
  else if v_size v =? 32 then write r v 16 x
  else r.

(** * The processor *)
Class Arch := { reg_pc : VarNode }.
Class Softmmu (G : Type) := {
  mmu_read : G → Z → Z → G * (bytes + Z);
  mmu_write : G → Z → bytes → G * option Z;
  host_byte : G → Z → Z;
  host_set : G → Z → Z → G
}.
Class Floats := {
  fl_add : Z → Z → Z → Z;
  fl_sub : Z → Z → Z → Z;
  fl_mul : Z → Z → Z → Z;
  fl_div : Z → Z → Z → Z;
  fl_neg : Z → Z → Z;
  fl_abs : Z → Z → Z;
  fl_sqrt : Z → Z → Z;
  fl_ceil : Z → Z → Z;
  fl_floor : Z → Z → Z;
  fl_round : Z → Z → Z;
  fl_eq : Z → Z → Z → bool;
  fl_lt : Z → Z → Z → bool;
  fl_le : Z → Z → Z → bool;
  fl_is_nan : Z → Z → bool;
  fl_of_int : Z → Z → Z;
  fl_promote : Z → Z;
  fl_demote : Z → Z;
  fl_int : Z → Z → Z
}.

Record Fuel := { remaining : Z; start : Z }.
Record Cpu (G : Type) := {
  c_regs : Regs;
  c_mem : G;
  c_exc : Exception;
  c_pending : option Exception;
  c_fuel : Fuel;
  c_icount : Z;
  c_block : Z;
  c_offset : Z
}.
Arguments c_regs {G} _.
Arguments c_mem {G} _.
Arguments c_exc {G} _.
Arguments c_pending {G} _.
Arguments c_fuel {G} _.
Arguments c_icount {G} _.
Arguments c_block {G} _.
Arguments c_offset {G} _.

Class Escapes (G : Type) := { escape : Inst → Cpu G → Cpu G }.

Section setters.
Context {G : Type}.
Definition with_regs (r : Regs) (c : Cpu G) : Cpu G :=
  {| c_regs := r; c_mem := c_mem c; c_exc := c_exc c; c_pending := c_pending c; c_fuel := c_fuel c;
     c_icount := c_icount c; c_block := c_block c; c_offset := c_offset c |}.
Definition with_mem (g : G) (c : Cpu G) : Cpu G :=
  {| c_regs := c_regs c; c_mem := g; c_exc := c_exc c; c_pending := c_pending c; c_fuel := c_fuel c;
     c_icount := c_icount c; c_block := c_block c; c_offset := c_offset c |}.
Definition with_exc (e : Exception) (c : Cpu G) : Cpu G :=
  {| c_regs := c_regs c; c_mem := c_mem c; c_exc := e; c_pending := c_pending c; c_fuel := c_fuel c;
     c_icount := c_icount c; c_block := c_block c; c_offset := c_offset c |}.
Definition with_pending (p : option Exception) (c : Cpu G) : Cpu G :=
  {| c_regs := c_regs c; c_mem := c_mem c; c_exc := c_exc c; c_pending := p; c_fuel := c_fuel c;
     c_icount := c_icount c; c_block := c_block c; c_offset := c_offset c |}.
Definition with_remaining (f : Z) (c : Cpu G) : Cpu G :=
  {| c_regs := c_regs c; c_mem := c_mem c; c_exc := c_exc c; c_pending := c_pending c;
     c_fuel := {| remaining := f; start := start (c_fuel c) |};
     c_icount := c_icount c; c_block := c_block c; c_offset := c_offset c |}.
Definition at_block (b o : Z) (c : Cpu G) : Cpu G :=
  {| c_regs := c_regs c; c_mem := c_mem c; c_exc := c_exc c; c_pending := c_pending c; c_fuel := c_fuel c;
     c_icount := c_icount c; c_block := b; c_offset := o |}.
(** [a - b] on [u64] counters, as the release profile has it: without overflow
    checks it wraps. *)
Definition sub_u64 (a b : Z) : Z := if b <=? a then a - b else a - b + 2 ^ 64.
(** [cpu.update_fuel(new)] and [cpu.icount()]. *)
Definition update_fuel (new : Z) (c : Cpu G) : Cpu G :=
  {| c_regs := c_regs c; c_mem := c_mem c; c_exc := c_exc c; c_pending := c_pending c;
     c_fuel := {| remaining := new; start := new |};
     c_icount := wrapping_add64 (c_icount c) (sub_u64 (start (c_fuel c)) (remaining (c_fuel c)));
     c_block := c_block c; c_offset := c_offset c |}.
Definition cpu_icount (c : Cpu G) : Z := wrapping_sub64 (wrapping_add64 (c_icount c) (start (c_fuel c))) (remaining (c_fuel c)).
Definition raise (code value : Z) : Cpu G → Cpu G := with_exc {| exc_code := code; exc_value := value |}.
Definition put (v : VarNode) (n x : Z) (c : Cpu G) : Cpu G := with_regs (write (c_regs c) v n x) c.
Definition put_trunc (v : VarNode) (x : Z) (c : Cpu G) : Cpu G := with_regs (write_trunc (c_regs c) v x) c.
Definition get (c : Cpu G) (v : Value) (n : Z) : Z := read (c_regs c) v n.
End setters.

Module ExceptionCode.
Definition NoException : Z := 0.
Definition InstructionLimit : Z := 1.
Definition Halt : Z := 2.
Definition Sleep : Z := 3.
Definition SoftwareBreakpoint : Z := 4.
Definition DivisionException : Z := 259.
Definition SelfModifyingCode : Z := 1026.
Definition OutOfMemory : Z := 1281.
Definition InvalidInstruction : Z := 4097.
Definition InvalidOpSize : Z := 4100.
Definition InvalidFloatSize : Z := 4101.
Definition CodeNotTranslated : Z := 4102.
Definition ShadowStackOverflow : Z := 4103.
Definition ShadowStackInvalid : Z := 4104.
Definition UnimplementedOp : Z := 4106.
Definition InternalError : Z := 12290.
Definition UnknownError : Z := 12292.
(** Every code [from_u32] knows; another becomes [UnknownError]. *)
Definition known : list Z :=
  [0; 1; 2; 3; 4; 257; 258; 259; 513; 514; 515; 516; 517; 769; 770; 771; 772; 1025; 1026; 1027; 1281; 1282;
   4097; 4098; 4099; 4100; 4101; 4102; 4103; 4104; 4105; 4106; 8193; 8194; 12289; 12290; 12291].
Definition from_u32 (code : Z) : Z := if bool_decide (code ∈ known) then code else UnknownError.
End ExceptionCode.

(** * What the operations compute, at a width of [w] bits *)
Definition rotl (w a k : Z) : Z := let k := k mod w in wrap w (Z.lor (Z.shiftl a k) (Z.shiftr a (w - k))).
Definition rotr (w a k : Z) : Z := let k := k mod w in wrap w (Z.lor (Z.shiftr a k) (Z.shiftl a (w - k))).
Fixpoint pos_ones (p : positive) : Z :=
  match p with xH => 1 | xO p => pos_ones p | xI p => 1 + pos_ones p end.
Definition popcount (x : Z) : Z := match x with Zpos p => pos_ones p | _ => 0 end.
Definition leading_zeros (w x : Z) : Z := if x =? 0 then w else w - 1 - Z.log2 x.

Definition int_op (o : Op.op) (w a b : Z) : option Z :=
  match o with
  | Op.IntAdd => Some (wrap w (a + b))
  | Op.IntSub => Some (wrap w (a - b))
  | Op.IntXor => Some (Z.lxor a b)
  | Op.IntOr => Some (Z.lor a b)
  | Op.IntAnd => Some (Z.land a b)
  | Op.IntMul => Some (wrap w (a * b))
  | Op.IntRotateLeft => Some (rotl w a (wrap 32 b))
  | Op.IntRotateRight => Some (rotr w a (wrap 32 b))
  | _ => None
  end.
Definition div_op (o : Op.op) (w a b : Z) : option Z :=
  let overflow := (a =? 2 ^ (w - 1)) && (b =? 2 ^ w - 1) in
  match o with
  | Op.IntDiv => if b =? 0 then None else Some (a / b)
  | Op.IntRem => if b =? 0 then None else Some (a mod b)
  | Op.IntSignedDiv => if (b =? 0) || overflow then None else Some (wrap w (Z.quot (signed w a) (signed w b)))
  | Op.IntSignedRem => if (b =? 0) || overflow then None else Some (wrap w (Z.rem (signed w a) (signed w b)))
  | _ => None
  end.
(** A signed result the width cannot hold. *)
Definition overflows (w x : Z) : bool := (x <? - 2 ^ (w - 1)) || (2 ^ (w - 1) <=? x).
Definition cmp_op (o : Op.op) (w a b : Z) : option bool :=
  match o with
  | Op.IntEqual => Some (a =? b)
  | Op.IntNotEqual => Some (negb (a =? b))
  | Op.IntLess => Some (a <? b)
  | Op.IntLessEqual => Some (a <=? b)
  | Op.IntSignedLess => Some (signed w a <? signed w b)
  | Op.IntSignedLessEqual => Some (signed w a <=? signed w b)
  | Op.IntCarry => Some (2 ^ w <=? a + b)
  | Op.IntSignedCarry => Some (overflows w (signed w a + signed w b))
  | Op.IntSignedBorrow => Some (overflows w (signed w a - signed w b))
  | _ => None
  end.
Definition bool_op (o : Op.op) (a b : Z) : option bool :=
  match o with
  | Op.BoolAnd => Some (negb (Z.land a b =? 0))
  | Op.BoolOr => Some (negb (Z.lor a b =? 0))
  | Op.BoolXor => Some (negb (Z.lxor a b =? 0))
  | _ => None
  end.

Section floats.
Context `{Floats}.
Definition float_op (o : Op.op) (n a b : Z) : option Z :=
  match o with
  | Op.FloatAdd => Some (fl_add n a b)
  | Op.FloatSub => Some (fl_sub n a b)
  | Op.FloatMul => Some (fl_mul n a b)
  | Op.FloatDiv => Some (fl_div n a b)
  | _ => None
  end.
Definition float_unary (o : Op.op) (n a : Z) : option Z :=
  match o with
  | Op.FloatNegate => Some (fl_neg n a)
  | Op.FloatAbs => Some (fl_abs n a)
  | Op.FloatSqrt => Some (fl_sqrt n a)
  | Op.FloatCeil => Some (fl_ceil n a)
  | Op.FloatFloor => Some (fl_floor n a)
  | Op.FloatRound => Some (fl_round n a)
  | _ => None
  end.
Definition float_cmp (o : Op.op) (n a b : Z) : option bool :=
  match o with
  | Op.FloatEqual => Some (fl_eq n a b)
  | Op.FloatNotEqual => Some (negb (fl_eq n a b))
  | Op.FloatLess => Some (fl_lt n a b)
  | Op.FloatLessEqual => Some (fl_le n a b)
  | _ => None
  end.
(** [float_to_int!] of a 64-bit float, [n] bytes wide: a NaN or a value out of
    range is the least integer. *)
Definition float_to_int (n f : Z) : Z :=
  let t := fl_int 8 f in
  if fl_is_nan 8 f || overflows (8 * n) t then - 2 ^ (8 * n - 1) else t.
End floats.

(** * The interpreter *)
Definition int_size (n : Z) : bool := bool_decide (n ∈ [1; 2; 4; 8; 16]).
Definition word_size (n : Z) : bool := bool_decide (n ∈ [1; 2; 4; 8]).
Definition float_size (n : Z) : bool := bool_decide (n ∈ [4; 8]).

Module Interp.
Section interp.
Context `{Arch} `{Floats} {G : Type} `{Softmmu G} `{Escapes G}.
Implicit Types (c : Cpu G) (i : Inst).

Definition invalid_op_size (c : Cpu G) : option (Cpu G) := Some (raise ExceptionCode.InvalidOpSize 0 c).
Definition write_pc (val : Z) (c : Cpu G) : Cpu G :=
  at_block U64_MAX 0 (with_regs (write_reg (c_regs c) (regs_var_offset reg_pc) 8 (wrap (8 * v_size reg_pc) val)) c).
Definition read_pc (c : Cpu G) : Z := wrap (8 * v_size reg_pc) (read_reg (c_regs c) (regs_var_offset reg_pc) 8).
Definition next_instruction (addr : Z) (c : Cpu G) : Cpu G :=
  let c := write_pc addr c in
  if 1 <=? remaining (c_fuel c) then with_remaining (remaining (c_fuel c) - 1) c
  else raise ExceptionCode.InstructionLimit addr c.

(** Copies and extensions of a width without an integer type, byte by byte. *)
Fixpoint copy_bytes (input : Value) (output : VarNode) (k : Z) (n : nat) (last : Z) (c : Cpu G) : option (Cpu G * Z) :=
  match n with
  | O => Some (c, last)
  | S n => from ← slice input k 1; to ← slice_var output k 1;
           let byte := get c from 1 in copy_bytes input output (k + 1) n byte (put to 1 byte c)
  end.
Fixpoint fill_bytes (output : VarNode) (k fill : Z) (n : nat) (c : Cpu G) : option (Cpu G) :=
  match n with
  | O => Some c
  | S n => to ← slice_var output k 1; fill_bytes output (k + 1) fill n (put to 1 fill c)
  end.
Definition copy_cold (input : Value) (output : VarNode) (c : Cpu G) : option (Cpu G) :=
  fst <$> copy_bytes input output 0 (Z.to_nat (v_size output)) 0 c.
Definition copy (input : Value) (output : VarNode) (c : Cpu G) : option (Cpu G) :=
  if int_size (v_size output) then Some (put output (v_size output) (get c input (v_size output)) c)
  else copy_cold input output c.
Definition zext_cold (input : Value) (output : VarNode) (c : Cpu G) : option (Cpu G) :=
  '(c, _) ← copy_bytes input output 0 (Z.to_nat (size_of input)) 0 c;
  fill_bytes output (size_of input) 0 (Z.to_nat (v_size output - size_of input)) c.
Definition sext_cold (input : Value) (output : VarNode) (c : Cpu G) : option (Cpu G) :=
  if size_of input =? v_size output then copy input output c else
  '(c, byte) ← copy_bytes input output 0 (Z.to_nat (size_of input)) 0 c;
  fill_bytes output (size_of input) (if Z.shiftr byte 7 =? 0 then 0 else 255)
    (Z.to_nat (v_size output - size_of input)) c.
Definition extends (i : Inst) : bool :=
  word_size (size_of (i_a i)) && int_size (v_size (i_out i)) && (size_of (i_a i) <? v_size (i_out i)) &&
  (size_of (i_b i) =? 0).

(** Guest memory. A faulting access sets the exception and undoes nothing. *)
Definition load_to (dst : VarNode) (n addr : Z) (c : Cpu G) : Cpu G * bool :=
  let '(g, r) := mmu_read (c_mem c) addr n in
  match r with
  | inl b => (put dst n (le_val b) (with_mem g c), true)
  | inr code => (raise code addr (with_mem g c), false)
  end.
Definition store_from (n addr x : Z) (c : Cpu G) : Cpu G * bool :=
  let '(g, r) := mmu_write (c_mem c) addr (le_bytes (Z.to_nat n) x) in
  match r with
  | None => (with_mem g c, true)
  | Some code => (raise code addr (with_mem g c), false)
  end.
Fixpoint load_each (dst : VarNode) (k addr : Z) (n : nat) (c : Cpu G) : option (Cpu G) :=
  match n with
  | O => Some c
  | S n => to ← slice_var dst k 1;
           let '(c, ok) := load_to to 1 (wrapping_add64 addr k) c in
           if ok then load_each dst (k + 1) addr n c else Some c
  end.
Fixpoint store_each (v : Value) (k addr : Z) (n : nat) (c : Cpu G) : option (Cpu G) :=
  match n with
  | O => Some c
  | S n => from ← slice v k 1;
           let '(c, ok) := store_from 1 (wrapping_add64 addr k) (get c from 1) c in
           if ok then store_each v (k + 1) addr n c else Some c
  end.
Definition load (dst : VarNode) (addr : Z) (c : Cpu G) : option (Cpu G) :=
  if word_size (v_size dst) then Some (load_to dst (v_size dst) addr c).1
  else if v_size dst =? 16 then
    lo ← slice_var dst 0 8; hi ← slice_var dst 8 8;
    let '(c, ok) := load_to lo 8 addr c in
    if ok then Some (load_to hi 8 (wrapping_add64 addr 8) c).1 else Some c
  else load_each dst 0 addr (Z.to_nat (v_size dst)) c.
Definition store (addr : Z) (v : Value) (c : Cpu G) : option (Cpu G) :=
  if word_size (size_of v) then Some (store_from (size_of v) addr (get c v (size_of v)) c).1
  else if size_of v =? 16 then
    lo ← slice v 0 8;
    let '(c, ok) := store_from 8 addr (get c lo 8) c in
    if ok then hi ← slice v 8 8; Some (store_from 8 (wrapping_add64 addr 8) (get c hi 8) c).1 else Some c
  else store_each v 0 addr (Z.to_nat (size_of v)) c.

(** Integers to and from floats. *)
Definition to_float (out : VarNode) (i : Inst) (z : Z) (c : Cpu G) : option (Cpu G) :=
  if float_size (v_size out) then Some (put out (v_size out) (fl_of_int (v_size out) z) c)
  else if v_size out =? 10 then Some (escape i c)
  else Some (raise ExceptionCode.InvalidFloatSize (v_size out) c).
Definition from_float (out : VarNode) (f : Z) (c : Cpu G) : option (Cpu G) :=
  if bool_decide (v_size out ∈ [2; 4; 8]) then Some (put out (v_size out) (float_to_int (v_size out) f) c)
  else Some (raise ExceptionCode.InvalidFloatSize (v_size out) c).
Definition odd_float (n : Z) : bool := bool_decide (n ∈ [2; 10]).
Definition float_to_float (i : Inst) (c : Cpu G) : option (Cpu G) :=
  let (sa, so) := (size_of (i_a i), v_size (i_out i)) in
  let x := get c (i_a i) sa in
  if negb (size_of (i_b i) =? 0) then invalid_op_size c
  else if float_size sa && float_size so then
    Some (put (i_out i) so (if sa =? so then x else if sa =? 4 then fl_promote x else fl_demote x) c)
  else if (odd_float sa || float_size sa) && (odd_float so || float_size so) && negb ((sa =? 10) && (so =? 2)) then
    Some (escape i c)
  else invalid_op_size c.

(** Shifts are computed at 128 bits. *)
Definition shift_op (i : Inst) (c : Cpu G) : option (Cpu G) :=
  let x := zxt 128 (read_dynamic (c_regs c) (i_a i)) in
  let y := zxt 32 (read_dynamic (c_regs c) (i_b i)) in
  if v_size (i_out i) * 8 <=? y then Some (put_trunc (i_out i) 0 c)
  else if 128 <=? y then None
  else Some (put_trunc (i_out i)
    (if bool_decide (i_op i = Op.IntLeft) then wrap 128 (Z.shiftl x y) else Z.shiftr x y) c).
Definition signed_right (i : Inst) (c : Cpu G) : option (Cpu G) :=
  let x := sxt 128 (read_dynamic (c_regs c) (i_a i)) in
  let y := zxt 32 (read_dynamic (c_regs c) (i_b i)) in
  let shift := Z.min y (v_size (i_out i) * 8 - 1) in
  if (v_size (i_out i) =? 0) || (128 <=? shift) then None else Some (put_trunc (i_out i) (Z.shiftr x shift) c).

(** The tables of operations whose operands share a width. *)
Definition binary (i : Inst) (c : Cpu G) : option (Cpu G) :=
  let n := v_size (i_out i) in
  if int_size n && (size_of (i_a i) =? n) && (size_of (i_b i) =? n) then
    x ← int_op (i_op i) (8 * n) (get c (i_a i) n) (get c (i_b i) n); Some (put (i_out i) n x c)
  else invalid_op_size c.
Definition divide (i : Inst) (c : Cpu G) : option (Cpu G) :=
  let n := v_size (i_out i) in
  if int_size n && (size_of (i_a i) =? n) && (size_of (i_b i) =? n) then
    match div_op (i_op i) (8 * n) (get c (i_a i) n) (get c (i_b i) n) with
    | Some x => Some (put (i_out i) n x c)
    | None => Some (raise ExceptionCode.DivisionException 0 c)
    end
  else invalid_op_size c.
Definition compare (i : Inst) (c : Cpu G) : option (Cpu G) :=
  let n := size_of (i_a i) in
  if (v_size (i_out i) =? 1) && int_size n && (size_of (i_b i) =? n) then
    x ← cmp_op (i_op i) (8 * n) (get c (i_a i) n) (get c (i_b i) n); Some (put (i_out i) 1 (Z.b2z x) c)
  else invalid_op_size c.
Definition booleans (i : Inst) (c : Cpu G) : option (Cpu G) :=
  if (v_size (i_out i) =? 1) && (size_of (i_a i) =? 1) && (size_of (i_b i) =? 1) then
    x ← bool_op (i_op i) (get c (i_a i) 1) (get c (i_b i) 1); Some (put (i_out i) 1 (Z.b2z x) c)
  else invalid_op_size c.
Definition unary (f : Z → Z → Z) (i : Inst) (c : Cpu G) : option (Cpu G) :=
  let n := v_size (i_out i) in
  if int_size n && (size_of (i_a i) =? n) && (size_of (i_b i) =? 0) then
    Some (put (i_out i) n (f (8 * n) (get c (i_a i) n)) c)
  else invalid_op_size c.
Definition count (f : Z → Z → Z) (i : Inst) (c : Cpu G) : option (Cpu G) :=
  let n := size_of (i_a i) in
  if int_size n && (size_of (i_b i) =? 0) then Some (put_trunc (i_out i) (f (8 * n) (get c (i_a i) n)) c)
  else invalid_op_size c.
Definition float_binary (i : Inst) (c : Cpu G) : option (Cpu G) :=
  let n := v_size (i_out i) in
  if (size_of (i_a i) =? n) && (size_of (i_b i) =? n) && (float_size n || (n =? 10)) then
    if n =? 10 then Some (escape i c)
    else x ← float_op (i_op i) n (get c (i_a i) n) (get c (i_b i) n); Some (put (i_out i) n x c)
  else invalid_op_size c.
Definition float_single (i : Inst) (c : Cpu G) : option (Cpu G) :=
  let n := v_size (i_out i) in
  if (size_of (i_a i) =? n) && (float_size n || (n =? 10)) then
    if n =? 10 then Some (escape i c)
    else x ← float_unary (i_op i) n (get c (i_a i) n); Some (put (i_out i) n x c)
  else invalid_op_size c.
Definition float_compare (i : Inst) (c : Cpu G) : option (Cpu G) :=
  let n := size_of (i_a i) in
  if (v_size (i_out i) =? 1) && (size_of (i_b i) =? n) && (float_size n || (n =? 10)) then
    if n =? 10 then Some (escape i c)
    else x ← float_cmp (i_op i) n (get c (i_a i) n) (get c (i_b i) n); Some (put (i_out i) 1 (Z.b2z x) c)
  else invalid_op_size c.
Definition float_nan (i : Inst) (c : Cpu G) : option (Cpu G) :=
  let n := size_of (i_a i) in
  if (v_size (i_out i) =? 1) && (float_size n || (n =? 10)) then
    if n =? 10 then Some (escape i c) else Some (put (i_out i) 1 (Z.b2z (fl_is_nan n (get c (i_a i) n))) c)
  else invalid_op_size c.

Definition interpret (i : Inst) (c : Cpu G) : option (Cpu G) :=
  let (a, b) := (i_a i, i_b i) in
  let '(out, sa, sb, so) := (i_out i, size_of a, size_of b, v_size (i_out i)) in
  match i_op i with
  | Op.Copy => if int_size so && (sa =? so) && (sb =? 0) then Some (put out so (get c a so) c) else copy_cold a out c
  | Op.ZeroExtend => if extends i then Some (put out so (get c a sa) c) else zext_cold a out c
  | Op.SignExtend => if extends i then Some (put out so (signed (8 * sa) (get c a sa)) c) else sext_cold a out c
  | Op.IntToFloat => if word_size sa && (sb =? 0) then to_float out i (signed (8 * sa) (get c a sa)) c
                     else invalid_op_size c
  | Op.UintToFloat => if word_size sa && (sb =? 0) then to_float out i (get c a sa) c else invalid_op_size c
  | Op.FloatToFloat => float_to_float i c
  | Op.FloatToInt =>
      if negb (sb =? 0) then invalid_op_size c
      else if float_size sa then
        from_float out (if sa =? 4 then fl_promote (get c a 4) else get c a 8) c
      else if sa =? 10 then Some (escape i c) else invalid_op_size c
  | Op.IntAdd | Op.IntSub | Op.IntXor | Op.IntOr | Op.IntAnd | Op.IntMul | Op.IntRotateLeft | Op.IntRotateRight =>
      binary i c
  | Op.IntDiv | Op.IntSignedDiv | Op.IntRem | Op.IntSignedRem => divide i c
  | Op.IntLeft | Op.IntRight => shift_op i c
  | Op.IntSignedRight => signed_right i c
  | Op.IntEqual | Op.IntNotEqual | Op.IntLess | Op.IntSignedLess | Op.IntLessEqual | Op.IntSignedLessEqual
  | Op.IntCarry | Op.IntSignedCarry | Op.IntSignedBorrow => compare i c
  | Op.IntNot => unary (λ w x, Z.lxor x (2 ^ w - 1)) i c
  | Op.IntNegate => unary (λ w x, wrap w (- x)) i c
  | Op.IntCountOnes => count (λ _ x, popcount x) i c
  | Op.IntCountLeadingZeroes => count leading_zeros i c
  | Op.BoolAnd | Op.BoolOr | Op.BoolXor => booleans i c
  | Op.BoolNot => if (so =? 1) && (sa =? 1) && (sb =? 0) then Some (put out 1 (Z.b2z (get c a 1 =? 0)) c)
                  else invalid_op_size c
  | Op.FloatAdd | Op.FloatSub | Op.FloatMul | Op.FloatDiv => float_binary i c
  | Op.FloatNegate | Op.FloatAbs | Op.FloatSqrt | Op.FloatCeil | Op.FloatFloor | Op.FloatRound => float_single i c
  | Op.FloatIsNan => float_nan i c
  | Op.FloatEqual | Op.FloatNotEqual | Op.FloatLess | Op.FloatLessEqual => float_compare i c
  | Op.Select cond => copy (if get c (Var (var_new cond 1)) 1 =? 0 then b else a) out c
  | Op.Load id => if id =? RAM_SPACE then load out (zxt 64 (read_dynamic (c_regs c) a)) c else Some (escape i c)
  | Op.Store id => if id =? RAM_SPACE then store (zxt 64 (read_dynamic (c_regs c) a)) b c else Some (escape i c)
  | Op.Arg _ | Op.PcodeOp _ | Op.Hook _ | Op.HookIf _ => Some (escape i c)
  | Op.InstructionMarker =>
      if (so =? 0) && (sa =? 8) && (sb =? 8) then
        match a, b with Const addr _, Const _ _ => Some (next_instruction addr c) | _, _ => None end
      else invalid_op_size c
  | Op.Exception =>
      Some (raise (ExceptionCode.from_u32 (zxt 32 (read_dynamic (c_regs c) a)))
                  (zxt 64 (read_dynamic (c_regs c) b)) c)
  | Op.Invalid => Some (raise ExceptionCode.InvalidInstruction 0 c)
  | Op.Subpiece _ | Op.Branch _ | Op.PcodeBranch _ | Op.PcodeLabel _ | Op.TracerLoad _ | Op.TracerStore _
  | Op.MultiEqual | Op.Indirect => None
  end.

(** [interpret_block_unchecked]: the index of the operation that raised an
    exception, if one did. *)
Fixpoint interpret_from (k : Z) (l : list Inst) (c : Cpu G) : option (Cpu G * option Z) :=
  match l with
  | [] => Some (c, None)
  | i :: l =>
      c ← interpret i c;
      if exc_code (c_exc c) =? ExceptionCode.NoException then interpret_from (k + 1) l c else Some (c, Some k)
  end.
Definition interpret_block (l : list Inst) (offset : Z) (c : Cpu G) : option (Cpu G * option Z) :=
  interpret_from offset (drop (Z.to_nat offset) l) c.
(** [cpu.block_exit] with the shadow stack off, as it is here. *)
Definition block_exit (e : BlockExit) (c : Cpu G) : Target :=
  match e with
  | Jump t => t
  | Branch cond t f => if get c cond 1 =? 0 then f else t
  | Call t _ => TExternal t
  | Return t => TExternal t
  end.
End interp.
End Interp.
