(* ===== verification/Wasm.v ===== *)
(** The WebAssembly the compiler emits: the instructions of [wasm_encoder] that
    [crates/x64-engine/src/jit.rs] uses, a body as the flat sequence the encoder
    is given, and what an engine does with it (the core specification).

    A flat body is first read back into nested blocks ([parse]); a body that
    does not nest is rejected. Execution is by structure; only the repetition of
    a loop needs fuel. An ill-typed step is [Stuck], which validation excludes; a
    trap is [Trap], with the state it leaves.

    Linear memory is the host's: the register space at [base], and everywhere
    else the bytes the softmmu owns (its translation cache and its pages). The
    four imports are those [crates/jit-wasmi/src/lib.rs] links. *)

From S2P Require Import Prelude Cpu Pcode.

Module W.
Inductive ValType := I32 | I64 | F32 | F64.
Record MemArg := { m_offset : Z; m_align : Z; m_index : Z }.
Inductive instr :=
| Block | Loop | If | Else | End | Br (n : nat) | BrIf (n : nat) | Return | Call (f : Z)
| LocalGet (k : nat) | LocalSet (k : nat) | Select
| I32Const (c : Z) | I64Const (c : Z) | F64Const (bits : Z)
| I32Load (a : MemArg) | I32Load8U (a : MemArg) | I32Load16U (a : MemArg) | I64Load (a : MemArg)
| I32Store (a : MemArg) | I32Store8 (a : MemArg) | I32Store16 (a : MemArg) | I64Store (a : MemArg)
| F32Store (a : MemArg) | F64Store (a : MemArg)
| I32Add | I32Sub | I32Mul | I32And | I32Or | I32Xor | I32Shl | I32ShrU | I32ShrS | I32Rotl | I32Rotr
| I32DivU | I32DivS | I32RemU | I32RemS | I32Eq | I32Ne | I32LtU | I32LtS | I32LeU | I32LeS | I32GtU
| I64Add | I64Sub | I64Mul | I64And | I64Or | I64Xor | I64Shl | I64ShrU | I64ShrS | I64Rotl | I64Rotr
| I64DivU | I64DivS | I64RemU | I64RemS | I64Eq | I64Ne | I64LtU | I64LtS | I64LeU | I64LeS | I64GtU
| I32Eqz | I64Eqz | I32Clz | I64Clz | I32Popcnt | I64Popcnt
| I32WrapI64 | I64ExtendI32U | I64ExtendI32S | I32Extend8S | I32Extend16S
| F32ReinterpretI32 | F64ReinterpretI64 | I64ReinterpretF64
| F32Add | F32Sub | F32Mul | F32Div | F64Add | F64Sub | F64Mul | F64Div
| F32Neg | F32Abs | F32Sqrt | F32Ceil | F32Floor | F64Neg | F64Abs | F64Sqrt | F64Ceil | F64Floor
| F32Eq | F32Ne | F32Lt | F32Le | F64Eq | F64Ne | F64Lt | F64Le | F64Ge
| F32ConvertI32S | F64ConvertI32S | F32ConvertI64S | F64ConvertI64S
| F32ConvertI32U | F64ConvertI32U | F32ConvertI64U | F64ConvertI64U
| F64PromoteF32 | F32DemoteF64 | I32TruncSatF64S | I64TruncSatF64S.
Abbreviation code := (list instr).

(** * Values *)
Definition val : Type := ValType * Z.
#[global] Instance ValType_eq_dec : EqDecision ValType.
Proof. solve_decision. Defined.
Definition truth (b : bool) : Z := if b then 1 else 0.
(** [iN.div_s] traps on a zero divisor and on the overflow, [iN.rem_s] on zero only. *)
Definition div_u (x y : Z) : option Z := if y =? 0 then None else Some (x / y).
Definition rem_u (x y : Z) : option Z := if y =? 0 then None else Some (x mod y).
Definition div_s (w x y : Z) : option Z :=
  if y =? 0 then None
  else if (x =? 2 ^ (w - 1)) && (y =? 2 ^ w - 1) then None
  else Some (wrap w (Z.quot (signed w x) (signed w y))).
Definition rem_s (w x y : Z) : option Z :=
  if y =? 0 then None else Some (wrap w (Z.rem (signed w x) (signed w y))).
(** Shift and rotation counts are taken modulo the width. *)
Definition shl (w x k : Z) : Z := wrap w (Z.shiftl x (k mod w)).
Definition shr_u (w x k : Z) : Z := Z.shiftr x (k mod w).
Definition shr_s (w x k : Z) : Z := wrap w (Z.shiftr (signed w x) (k mod w)).

Section numerics.
Context `{Floats}.
Definition trunc_sat (w f : Z) : Z :=
  if fl_is_nan 8 f then 0 else wrap w (Z.max (- 2 ^ (w - 1)) (Z.min (2 ^ (w - 1) - 1) (fl_int 8 f))).

(** Operand type, result type, and the operation on the two operands, the later
    one second; [None] is a trap. *)
Definition int_binop (t : ValType) (w : Z) (o : instr) : option (ValType * (Z → Z → option Z)) :=
  match o with
  | I32Add | I64Add => Some (t, λ x y, Some (wrap w (x + y)))
  | I32Sub | I64Sub => Some (t, λ x y, Some (wrap w (x - y)))
  | I32Mul | I64Mul => Some (t, λ x y, Some (wrap w (x * y)))
  | I32And | I64And => Some (t, λ x y, Some (Z.land x y))
  | I32Or | I64Or => Some (t, λ x y, Some (Z.lor x y))
  | I32Xor | I64Xor => Some (t, λ x y, Some (Z.lxor x y))
  | I32Shl | I64Shl => Some (t, λ x y, Some (shl w x y))
  | I32ShrU | I64ShrU => Some (t, λ x y, Some (shr_u w x y))
  | I32ShrS | I64ShrS => Some (t, λ x y, Some (shr_s w x y))
  | I32Rotl | I64Rotl => Some (t, λ x y, Some (rotl w x y))
  | I32Rotr | I64Rotr => Some (t, λ x y, Some (rotr w x y))
  | I32DivU | I64DivU => Some (t, div_u)
  | I32DivS | I64DivS => Some (t, div_s w)
  | I32RemU | I64RemU => Some (t, rem_u)
  | I32RemS | I64RemS => Some (t, rem_s w)
  | I32Eq | I64Eq => Some (I32, λ x y, Some (truth (x =? y)))
  | I32Ne | I64Ne => Some (I32, λ x y, Some (truth (negb (x =? y))))
  | I32LtU | I64LtU => Some (I32, λ x y, Some (truth (x <? y)))
  | I32LtS | I64LtS => Some (I32, λ x y, Some (truth (signed w x <? signed w y)))
  | I32LeU | I64LeU => Some (I32, λ x y, Some (truth (x <=? y)))
  | I32LeS | I64LeS => Some (I32, λ x y, Some (truth (signed w x <=? signed w y)))
  | I32GtU | I64GtU => Some (I32, λ x y, Some (truth (y <? x)))
  | _ => None
  end.
Definition is_i32_binop (o : instr) : bool :=
  match o with
  | I32Add | I32Sub | I32Mul | I32And | I32Or | I32Xor | I32Shl | I32ShrU | I32ShrS | I32Rotl | I32Rotr
  | I32DivU | I32DivS | I32RemU | I32RemS | I32Eq | I32Ne | I32LtU | I32LtS | I32LeU | I32LeS | I32GtU => true
  | _ => false
  end.
Definition float_binop (o : instr) : option (ValType * ValType * (Z → Z → option Z)) :=
  match o with
  | F32Add => Some (F32, F32, λ x y, Some (fl_add 4 x y))
  | F32Sub => Some (F32, F32, λ x y, Some (fl_sub 4 x y))
  | F32Mul => Some (F32, F32, λ x y, Some (fl_mul 4 x y))
  | F32Div => Some (F32, F32, λ x y, Some (fl_div 4 x y))
  | F64Add => Some (F64, F64, λ x y, Some (fl_add 8 x y))
  | F64Sub => Some (F64, F64, λ x y, Some (fl_sub 8 x y))
  | F64Mul => Some (F64, F64, λ x y, Some (fl_mul 8 x y))
  | F64Div => Some (F64, F64, λ x y, Some (fl_div 8 x y))
  | F32Eq => Some (F32, I32, λ x y, Some (truth (fl_eq 4 x y)))
  | F32Ne => Some (F32, I32, λ x y, Some (truth (negb (fl_eq 4 x y))))
  | F32Lt => Some (F32, I32, λ x y, Some (truth (fl_lt 4 x y)))
  | F32Le => Some (F32, I32, λ x y, Some (truth (fl_le 4 x y)))
  | F64Eq => Some (F64, I32, λ x y, Some (truth (fl_eq 8 x y)))
  | F64Ne => Some (F64, I32, λ x y, Some (truth (negb (fl_eq 8 x y))))
  | F64Lt => Some (F64, I32, λ x y, Some (truth (fl_lt 8 x y)))
  | F64Le => Some (F64, I32, λ x y, Some (truth (fl_le 8 x y)))
  | F64Ge => Some (F64, I32, λ x y, Some (truth (fl_le 8 y x)))
  | _ => None
  end.
Definition binop (o : instr) : option (ValType * ValType * (Z → Z → option Z)) :=
  match float_binop o with
  | Some d => Some d
  | None =>
      let (t, w) := if is_i32_binop o then (I32, 32) else (I64, 64) in
      '(r, f) ← int_binop t w o; Some (t, r, f)
  end.
Definition unop (o : instr) : option (ValType * ValType * (Z → Z)) :=
  match o with
  | I32Eqz => Some (I32, I32, λ x, truth (x =? 0))
  | I64Eqz => Some (I64, I32, λ x, truth (x =? 0))
  | I32Clz => Some (I32, I32, leading_zeros 32)
  | I64Clz => Some (I64, I64, leading_zeros 64)
  | I32Popcnt => Some (I32, I32, popcount)
  | I64Popcnt => Some (I64, I64, popcount)
  | I32WrapI64 => Some (I64, I32, wrap 32)
  | I64ExtendI32U => Some (I32, I64, λ x, x)
  | I64ExtendI32S => Some (I32, I64, λ x, wrap 64 (signed 32 x))
  | I32Extend8S => Some (I32, I32, λ x, wrap 32 (signed 8 x))
  | I32Extend16S => Some (I32, I32, λ x, wrap 32 (signed 16 x))
  | F32ReinterpretI32 => Some (I32, F32, λ x, x)
  | F64ReinterpretI64 => Some (I64, F64, λ x, x)
  | I64ReinterpretF64 => Some (F64, I64, λ x, x)
  | F32Neg => Some (F32, F32, fl_neg 4)
  | F32Abs => Some (F32, F32, fl_abs 4)
  | F32Sqrt => Some (F32, F32, fl_sqrt 4)
  | F32Ceil => Some (F32, F32, fl_ceil 4)
  | F32Floor => Some (F32, F32, fl_floor 4)
  | F64Neg => Some (F64, F64, fl_neg 8)
  | F64Abs => Some (F64, F64, fl_abs 8)
  | F64Sqrt => Some (F64, F64, fl_sqrt 8)
  | F64Ceil => Some (F64, F64, fl_ceil 8)
  | F64Floor => Some (F64, F64, fl_floor 8)
  | F32ConvertI32S => Some (I32, F32, λ x, fl_of_int 4 (signed 32 x))
  | F64ConvertI32S => Some (I32, F64, λ x, fl_of_int 8 (signed 32 x))
  | F32ConvertI64S => Some (I64, F32, λ x, fl_of_int 4 (signed 64 x))
  | F64ConvertI64S => Some (I64, F64, λ x, fl_of_int 8 (signed 64 x))
  | F32ConvertI32U => Some (I32, F32, fl_of_int 4)
  | F64ConvertI32U => Some (I32, F64, fl_of_int 8)
  | F32ConvertI64U => Some (I64, F32, fl_of_int 4)
  | F64ConvertI64U => Some (I64, F64, fl_of_int 8)
  | F64PromoteF32 => Some (F32, F64, fl_promote)
  | F32DemoteF64 => Some (F64, F32, fl_demote)
  | I32TruncSatF64S => Some (F64, I32, trunc_sat 32)
  | I64TruncSatF64S => Some (F64, I64, trunc_sat 64)
  | _ => None
  end.
End numerics.
Definition load_width (o : instr) : option (ValType * Z * MemArg) :=
  match o with
  | I32Load a => Some (I32, 4, a)
  | I32Load8U a => Some (I32, 1, a)
  | I32Load16U a => Some (I32, 2, a)
  | I64Load a => Some (I64, 8, a)
  | _ => None
  end.
Definition store_width (o : instr) : option (ValType * Z * MemArg) :=
  match o with
  | I32Store a => Some (I32, 4, a)
  | I32Store8 a => Some (I32, 1, a)
  | I32Store16 a => Some (I32, 2, a)
  | I64Store a => Some (I64, 8, a)
  | F32Store a => Some (F32, 4, a)
  | F64Store a => Some (F64, 8, a)
  | _ => None
  end.

(** * Nesting *)
Inductive tree :=
| Basic (i : instr)
| TBlock (l : list tree)
| TLoop (l : list tree)
| TIf (t e : list tree).
Inductive opener := OBlock | OLoop | OIf | OElse (t : list tree).
Definition close (k : opener) (body : list tree) : tree :=
  match k with
  | OBlock => TBlock body
  | OLoop => TLoop body
  | OIf => TIf body []
  | OElse t => TIf t body
  end.
(** What is read so far, newest first, and the blocks still open around it. *)
Fixpoint parse (l : code) (acc : list tree) (open : list (opener * list tree)) : option (list tree) :=
  match l with
  | [] => None
  | Block :: l => parse l [] ((OBlock, acc) :: open)
  | Loop :: l => parse l [] ((OLoop, acc) :: open)
  | If :: l => parse l [] ((OIf, acc) :: open)
  | Else :: l =>
      match open with (OIf, acc0) :: o => parse l [] ((OElse (rev acc), acc0) :: o) | _ => None end
  | End :: l =>
      match open with
      | [] => match l with [] => Some (rev acc) | _ => None end
      | (k, acc0) :: o => parse l (close k (rev acc) :: acc0) o
      end
  | i :: l => parse l (Basic i :: acc) open
  end.

(** * State *)
Record store (G : Type) := { s_regs : Regs; s_mem : G; s_exc : Exception; s_fault : option Z }.
Arguments s_regs {G} _.
Arguments s_mem {G} _.
Arguments s_exc {G} _.
Arguments s_fault {G} _.
Record cfg (G : Type) := { k_stack : list val; k_locals : list val; k_store : store G }.
Arguments k_stack {G} _.
Arguments k_locals {G} _.
Arguments k_store {G} _.
Inductive outcome (G : Type) :=
| Next (c : cfg G)
| Break (n : nat) (c : cfg G)
| Returned (c : cfg G)
| Trap (c : cfg G)
| Stuck
| OutOfFuel.
Arguments Next {G} c.
Arguments Break {G} n c.
Arguments Returned {G} c.
Arguments Trap {G} c.
Arguments Stuck {G}.
Arguments OutOfFuel {G}.

Section exec.
Context `{Floats} {G : Type} `{Softmmu G} (base limit : Z).
Implicit Types (c : cfg G) (s : store G).

Definition with_stack (l : list val) (c : cfg G) : cfg G :=
  {| k_stack := l; k_locals := k_locals c; k_store := k_store c |}.
Definition with_locals (l : list val) (c : cfg G) : cfg G :=
  {| k_stack := k_stack c; k_locals := l; k_store := k_store c |}.
Definition with_store (s : store G) (c : cfg G) : cfg G :=
  {| k_stack := k_stack c; k_locals := k_locals c; k_store := s |}.

(** Linear memory. *)
Definition in_regs (a : Z) : bool := (base <=? a) && (a <? base + REG_SPACE_BYTES).
Definition lin_byte (s : store G) (a : Z) : Z :=
  if in_regs a then reg_byte (s_regs s) (a - base) else host_byte (s_mem s) a mod 256.
Definition lin_put (s : store G) (a b : Z) : store G :=
  if in_regs a
  then {| s_regs := <[a - base := b]> (s_regs s); s_mem := s_mem s; s_exc := s_exc s; s_fault := s_fault s |}
  else {| s_regs := s_regs s; s_mem := host_set (s_mem s) a b; s_exc := s_exc s; s_fault := s_fault s |}.
Fixpoint lin_read (s : store G) (a : Z) (n : nat) : bytes :=
  match n with O => [] | S n => lin_byte s a :: lin_read s (a + 1) n end.
Fixpoint lin_write (s : store G) (a : Z) (l : bytes) : store G :=
  match l with [] => s | b :: l => lin_write (lin_put s a b) (a + 1) l end.

(** * Imports *)
Definition set_exc (e : Exception) (s : store G) : store G :=
  {| s_regs := s_regs s; s_mem := s_mem s; s_exc := e; s_fault := s_fault s |}.
Definition set_fault (k : Z) (s : store G) : store G :=
  {| s_regs := s_regs s; s_mem := s_mem s; s_exc := s_exc s; s_fault := Some k |}.
Definition import_load (addr dst size : Z) (s : store G) : store G * Z :=
  if word_size size then
    let '(g, r) := mmu_read (s_mem s) addr size in
    match r with
    | inl b => ({| s_regs := put_bytes (s_regs s) dst b; s_mem := g; s_exc := s_exc s; s_fault := s_fault s |}, 1)
    | inr code => ({| s_regs := s_regs s; s_mem := g; s_exc := {| exc_code := code; exc_value := addr |};
                      s_fault := s_fault s |}, 0)
    end
  else (s, 0).
Definition import_store (addr value size : Z) (s : store G) : store G * Z :=
  if word_size size then
    let '(g, r) := mmu_write (s_mem s) addr (le_bytes (Z.to_nat size) value) in
    match r with
    | None => ({| s_regs := s_regs s; s_mem := g; s_exc := s_exc s; s_fault := s_fault s |}, 1)
    | Some code => ({| s_regs := s_regs s; s_mem := g; s_exc := {| exc_code := code; exc_value := addr |};
                       s_fault := s_fault s |}, 0)
    end
  else (s, 0).
Definition import_fault (index : Z) (s : store G) : store G := set_fault index s.
Definition import_raise (code value index : Z) (s : store G) : store G :=
  set_fault index (set_exc {| exc_code := ExceptionCode.from_u32 code; exc_value := value |} s).
Definition call (f : Z) (c : cfg G) : outcome G :=
  match f, k_stack c with
  | 0, (I32, size) :: (I32, dst) :: (I64, addr) :: l =>
      let '(s, r) := import_load addr dst size (k_store c) in Next (with_stack ((I32, r) :: l) (with_store s c))
  | 1, (I32, size) :: (I64, value) :: (I64, addr) :: l =>
      let '(s, r) := import_store addr value size (k_store c) in Next (with_stack ((I32, r) :: l) (with_store s c))
  | 2, (I32, index) :: l => Next (with_stack l (with_store (import_fault index (k_store c)) c))
  | 3, (I32, index) :: (I64, value) :: (I32, code) :: l =>
      Next (with_stack l (with_store (import_raise code value index (k_store c)) c))
  | _, _ => Stuck
  end.

(** * Instructions *)
Definition push (v : val) (c : cfg G) : cfg G := with_stack (v :: k_stack c) c.
Definition step_memory (o : instr) (c : cfg G) : outcome G :=
  match load_width o, store_width o, k_stack c with
  | Some (t, n, a), _, (I32, p) :: l =>
      let ea := p + m_offset a in
      if limit <? ea + n then Trap c
      else Next (with_stack ((t, le_val (lin_read (k_store c) ea (Z.to_nat n))) :: l) c)
  | _, Some (t, n, a), (t', x) :: (I32, p) :: l =>
      let ea := p + m_offset a in
      if negb (bool_decide (t = t')) then Stuck
      else if limit <? ea + n then Trap c
      else Next (with_stack l (with_store (lin_write (k_store c) ea (le_bytes (Z.to_nat n) x)) c))
  | _, _, _ => Stuck
  end.
Definition step_binop (d : ValType * ValType * (Z → Z → option Z)) (c : cfg G) : outcome G :=
  let '(t, r, f) := d in
  match k_stack c with
  | (ty, y) :: (tx, x) :: l =>
      if bool_decide (tx = t) && bool_decide (ty = t) then
        match f x y with Some z => Next (with_stack ((r, z) :: l) c) | None => Trap c end
      else Stuck
  | _ => Stuck
  end.
Definition step_unop (d : ValType * ValType * (Z → Z)) (c : cfg G) : outcome G :=
  let '(t, r, f) := d in
  match k_stack c with
  | (tx, x) :: l => if bool_decide (tx = t) then Next (with_stack ((r, f x) :: l) c) else Stuck
  | _ => Stuck
  end.
Definition step (o : instr) (c : cfg G) : outcome G :=
  match o with
  | I32Const z => Next (push (I32, wrap 32 z) c)
  | I64Const z => Next (push (I64, wrap 64 z) c)
  | F64Const z => Next (push (F64, wrap 64 z) c)
  | LocalGet k => match k_locals c !! k with Some v => Next (push v c) | None => Stuck end
  | LocalSet k =>
      match k_stack c, k_locals c !! k with
      | (t, x) :: l, Some (t', _) =>
          if bool_decide (t = t') then Next (with_stack l (with_locals (<[k := (t, x)]> (k_locals c)) c)) else Stuck
      | _, _ => Stuck
      end
  | Select =>
      match k_stack c with
      | (I32, cond) :: (t2, y) :: (t1, x) :: l =>
          if bool_decide (t1 = t2) then Next (with_stack ((t1, if cond =? 0 then y else x) :: l) c) else Stuck
      | _ => Stuck
      end
  | Br n => Break n c
  | BrIf n =>
      match k_stack c with
      | (I32, cond) :: l => if cond =? 0 then Next (with_stack l c) else Break n (with_stack l c)
      | _ => Stuck
      end
  | Return => Returned c
  | Call f => call f c
  | Block | Loop | If | Else | End => Stuck
  | _ =>
      match binop o, unop o with
      | Some d, _ => step_binop d c
      | _, Some d => step_unop d c
      | _, _ => step_memory o c
      end
  end.

(** A branch leaves the block with the stack it was entered with. *)
Definition seq (one : tree → cfg G → outcome G) : list tree → cfg G → outcome G :=
  fix seq l c := match l with
  | [] => Next c
  | t :: l => match one t c with Next c => seq l c | o => o end
  end.
Definition leave (l : list val) (o : outcome G) : outcome G :=
  match o with
  | Break O c => Next (with_stack l c)
  | Break (S n) c => Break n c
  | o => o
  end.
Fixpoint exec (fuel : nat) : tree → cfg G → outcome G :=
  fix one t c := match t with
  | Basic i => step i c
  | TBlock body => leave (k_stack c) (seq one body c)
  | TIf yes no =>
      match k_stack c with
      | (I32, cond) :: l =>
          let c := with_stack l c in leave l (if cond =? 0 then seq one no c else seq one yes c)
      | _ => Stuck
      end
  | TLoop body =>
      match seq one body c with
      | Break O c' => match fuel with S fuel => exec fuel t (with_stack (k_stack c) c') | O => OutOfFuel end
      | Break (S n) c' => Break n c'
      | o => o
      end
  end.

(** * Functions *)
Definition zeros (decl : list (nat * ValType)) : list val := concat ((λ '(n, t), replicate n (t, 0)) <$> decl).
(** A call of a function with declared locals: what it leaves and what it returns. *)
Definition run (fuel : nat) (decl : list (nat * ValType)) (body : code) (args : list val) (s : store G) : outcome G :=
  match parse body [] [] with
  | Some l => seq (exec fuel) l {| k_stack := []; k_locals := args ++ zeros decl; k_store := s |}
  | None => Stuck
  end.
End exec.
End W.
