(* ===== verification/Jit.v ===== *)
(** The compiler of hot blocks: [crates/x64-engine/src/jit.rs], which translates
    p-code to WebAssembly.

    An emitter returns the instructions it appends: [Ok code]; [Err ()] is the
    [None] that leaves the block to the interpreter, [Panic] a slice out of
    range. A module is its sections ([Module]); their binary encoding is the
    encoder's. [translate_instruction] has one definition per arm of the source. *)

From S2P Require Import Prelude Cpu Pcode Wasm.

Abbreviation emit := (res () W.code).
Definition bail {A} (o : option A) : res () A := ok_or o ().
Definition cat (m1 m2 : emit) : emit := let! x := m1 in let! y := m2 in Ok (x ++ y).
Definition ops (l : W.code) : emit := Ok l.
Declare Scope emit_scope.
Delimit Scope emit_scope with emit.
Infix "+++" := cat (at level 60, right associativity) : emit_scope.
#[local] Open Scope emit_scope.
Fixpoint cats (l : list emit) : emit := match l with [] => ops [] | m :: l => m +++ cats l end.
(** [if cond { return None }] *)
Definition unless (b : bool) (m : emit) : emit := if b then Err () else m.

(** * Indices and layouts *)
Definition IMPORT_LOAD : Z := 0.
Definition IMPORT_STORE : Z := 1.
Definition IMPORT_FAULT : Z := 2.
Definition IMPORT_RAISE : Z := 3.
Definition REGS_BASE_PARAM : nat := 0.
Definition TLB_BASE_PARAM : nat := 1.
Record FastLocals := { fast_addr : nat; fast_entry : nat; fast_data : nat; fast_wide : nat }.
Definition WIDE_SCRATCH : nat := 6.
Definition BLOCK_FAST : FastLocals := {| fast_addr := 2; fast_entry := 3; fast_data := 4; fast_wide := 5 |}.
Definition REGION_FAST : FastLocals := {| fast_addr := 4; fast_entry := 5; fast_data := 6; fast_wide := 7 |}.
Definition TRACE_STATE_LOCAL : nat := 4.
Definition TRACE_FAST : FastLocals := {| fast_addr := 5; fast_entry := 6; fast_data := 7; fast_wide := 8 |}.
Definition TRACE_RESUME_BITS : Z := 8.
Definition PERM_READ_INIT : Z := 3.
Definition PERM_WRITE_INIT : Z := 5.
Definition TLB_TAG_MASK : Z := 2 ^ 64 - 2 ^ 22.
Definition TLB_WRITE_ARRAY_OFFSET : Z := 1024 * 16.
Definition PAGE_PERM_OFFSET : Z := 4096.
Fixpoint perm_mask_word (byte : Z) (n : nat) : Z :=
  match n with O => 0 | S k => Z.lor (perm_mask_word byte k) (Z.shiftl byte (8 * Z.of_nat k)) end.
Definition EXC_DIVISION : Z := 259.
Definition EXC_INVALID_INSTRUCTION : Z := 4097.

Definition needs_host (o : Op.op) : bool :=
  match o with
  | Op.Load _ | Op.Store _ | Op.IntDiv | Op.IntSignedDiv | Op.IntRem | Op.IntSignedRem | Op.Exception | Op.Invalid =>
      true
  | _ => false
  end.
Definition block_needs_host (l : list Inst) : bool := existsb (λ i, needs_host (i_op i)) l.
Definition REG_PAGES : Z := div_ceil REG_SPACE_BYTES 65536.

(** * Shared helpers *)
Definition var_offset (v : VarNode) : Z := wrap 32 (512 * 16 + v_id v * 16 + v_offset v).
Definition wasm_ty (size : Z) : option W.ValType :=
  if bool_decide (size ∈ [1; 2; 4]) then Some W.I32 else if size =? 8 then Some W.I64 else None.
Definition is_i64 (t : W.ValType) : bool := bool_decide (t = W.I64).
Definition same_width (out : VarNode) (a b : Value) : res () Z :=
  let! _ := bail (wasm_ty (v_size out)) in
  if negb (size_of a =? v_size out) || negb (size_of b =? v_size out) then Err () else Ok (v_size out).
Definition raw_arg (offset : Z) : W.MemArg := {| W.m_offset := offset; W.m_align := 0; W.m_index := 0 |}.
Definition reg_arg (v : VarNode) : W.MemArg := raw_arg (var_offset v).
Definition emit_regs_base : emit := ops [W.LocalGet REGS_BASE_PARAM].
Definition emit_store_addr : emit := emit_regs_base.
Definition load_instr (n : Z) (a : W.MemArg) : option W.instr :=
  if n =? 1 then Some (W.I32Load8U a) else if n =? 2 then Some (W.I32Load16U a)
  else if n =? 4 then Some (W.I32Load a) else if n =? 8 then Some (W.I64Load a) else None.
Definition store_instr (n : Z) (a : W.MemArg) : option W.instr :=
  if n =? 1 then Some (W.I32Store8 a) else if n =? 2 then Some (W.I32Store16 a)
  else if n =? 4 then Some (W.I32Store a) else if n =? 8 then Some (W.I64Store a) else None.
Definition emit_load (v : Value) (size : Z) : emit :=
  let! ty := bail (wasm_ty size) in
  match v with
  | Const c _ => ops [if is_i64 ty then W.I64Const (as_i64 c) else W.I32Const (as_i32 c)]
  | Var x => emit_regs_base +++ (let! i := bail (load_instr size (reg_arg x)) in ops [i])
  end.
Definition emit_store (out : VarNode) : emit :=
  let! _ := bail (wasm_ty (v_size out)) in
  let! i := bail (store_instr (v_size out) (reg_arg out)) in ops [i].
Definition emit_zext_i64 (v : Value) : emit :=
  emit_load v (size_of v) +++
  (let! ty := bail (wasm_ty (size_of v)) in ops (if is_i64 ty then [] else [W.I64ExtendI32U])).
Definition emit_zext_i32 (v : Value) : emit :=
  emit_load v (size_of v) +++
  (let! ty := bail (wasm_ty (size_of v)) in ops (if is_i64 ty then [W.I32WrapI64] else [])).
Definition sign_fill (size : Z) : W.code :=
  if size =? 1 then [W.I32Extend8S] else if size =? 2 then [W.I32Extend16S] else [].
Definition emit_signed (v : Value) (size : Z) : emit :=
  if bool_decide (size ∈ [1; 2; 4; 8]) then emit_load v size +++ ops (sign_fill size) else Err ().
Definition emit_sext_i64 (v : Value) (size : Z) : emit :=
  emit_signed v size +++ ops (if size <? 8 then [W.I64ExtendI32S] else []).

(** * 128-bit operations, as two lanes *)
Definition WIDE_LANES : list Z := [0; 8].
Definition lane (v : Value) (off : Z) : res () Value := expect (slice v off 8).
Definition lane_var (v : VarNode) (off : Z) : res () VarNode := expect (slice_var v off 8).
Definition emit_lane_load (v : Value) (off : Z) : emit := let! x := lane v off in emit_load x 8.
Definition emit_lane_store (v : VarNode) (off : Z) : emit := let! x := lane_var v off in emit_store x.
Definition emit_wide_binop (out : VarNode) (a b : Value) (op : W.code) : emit :=
  unless (negb (v_size out =? 16) || negb (size_of a =? 16) || negb (size_of b =? 16))
    (cats ((λ off, emit_store_addr +++ emit_lane_load a off +++ emit_lane_load b off +++ ops op +++
                   emit_lane_store out off) <$> WIDE_LANES)).
Definition emit_wide_unary (out : VarNode) (a : Value) (op : W.code) : emit :=
  unless (negb (v_size out =? 16) || negb (size_of a =? 16))
    (cats ((λ off, emit_store_addr +++ emit_lane_load a off +++ ops op +++ emit_lane_store out off) <$> WIDE_LANES)).
Definition LO32_MASK : Z := 2 ^ 32 - 1.
Definition lo : W.code := [W.I64Const LO32_MASK; W.I64And].
Definition hi : W.code := [W.I64Const 32; W.I64ShrU].
Definition emit_mulhi_u64 (x y t : nat) : W.code :=
  let X := W.LocalGet x in let Y := W.LocalGet y in
  X :: lo ++ Y :: lo ++ W.I64Mul :: hi ++
  X :: lo ++ Y :: hi ++ W.I64Mul :: lo ++ W.I64Add ::
  X :: hi ++ Y :: lo ++ W.I64Mul :: lo ++ W.I64Add :: W.LocalSet t ::
  X :: hi ++ Y :: hi ++ W.I64Mul ::
  X :: lo ++ Y :: hi ++ W.I64Mul :: hi ++ W.I64Add ::
  X :: hi ++ Y :: lo ++ W.I64Mul :: hi ++ W.I64Add ::
  W.LocalGet t :: hi ++ [W.I64Add].
Definition emit_snapshot (v : Value) (off : Z) (k : nat) : emit := emit_lane_load v off +++ ops [W.LocalSet k].
Definition emit_wide_mul (out : VarNode) (a b : Value) (fast : FastLocals) : emit :=
  unless (negb (v_size out =? 16) || negb (size_of a =? 16) || negb (size_of b =? 16))
    (let w := fast_wide fast in
     let '(al, ah, bl, bh, t) := (w, w + 1, w + 2, w + 3, w + 4)%nat in
     emit_snapshot a 0 al +++ emit_snapshot a 8 ah +++ emit_snapshot b 0 bl +++ emit_snapshot b 8 bh +++
     emit_store_addr +++ ops [W.LocalGet al; W.LocalGet bl; W.I64Mul] +++ emit_lane_store out 0 +++
     emit_store_addr +++ ops (emit_mulhi_u64 al bl t) +++
     ops [W.LocalGet al; W.LocalGet bh; W.I64Mul; W.I64Add; W.LocalGet ah; W.LocalGet bl; W.I64Mul; W.I64Add] +++
     emit_lane_store out 8).

Definition emit_shift_count_u32 (b : Value) : emit :=
  if bool_decide (size_of b ∈ [1; 2; 4]) then emit_load b (size_of b)
  else if size_of b =? 8 then emit_load b 8 +++ ops [W.I32WrapI64]
  else Err ().
Inductive WideShift := Left | RightU | RightS.
#[global] Instance WideShift_eq_dec : EqDecision WideShift.
Proof. solve_decision. Defined.
Definition emit_wide_shift (out : VarNode) (a b : Value) (mode : WideShift) (fast : FastLocals) : emit :=
  unless (negb (v_size out =? 16) || negb (size_of a =? 16))
    (let! _ := bail (wasm_ty (size_of b)) in
     let w := fast_wide fast in
     let '(al, ah, s, y, tmp) := (w, w + 1, w + 2, w + 3, w + 4)%nat in
     let select_below (bound : Z) := [W.LocalGet y; W.I64Const bound; W.I64LtU; W.Select] in
     let carry_up := [W.LocalGet al; W.I64Const 1; W.I64ShrU; W.I64Const 63; W.LocalGet s; W.I64Sub; W.I64ShrU] in
     let carry_down := [W.LocalGet ah; W.I64Const 1; W.I64Shl; W.I64Const 63; W.LocalGet s; W.I64Sub; W.I64Shl] in
     emit_snapshot a 0 al +++ emit_snapshot a 8 ah +++
     emit_shift_count_u32 b +++ ops [W.I64ExtendI32U] +++
     ops (if bool_decide (mode = RightS)
          then [W.LocalSet tmp; W.LocalGet tmp; W.I64Const 127; W.LocalGet tmp; W.I64Const 127; W.I64LtU; W.Select]
          else []) +++
     ops [W.LocalSet y; W.LocalGet y; W.I64Const 63; W.I64And; W.LocalSet s] +++
     (if bool_decide (mode = Left) then
        emit_store_addr +++
        ops ([W.LocalGet al; W.LocalGet s; W.I64Shl; W.I64Const 0] ++ select_below 64) +++ emit_lane_store out 0 +++
        emit_store_addr +++
        ops ([W.LocalGet ah; W.LocalGet s; W.I64Shl] ++ carry_up ++ [W.I64Or; W.LocalGet al; W.LocalGet s; W.I64Shl;
             W.I64Const 0] ++ select_below 128 ++ select_below 64) +++ emit_lane_store out 8
      else
        emit_store_addr +++
        ops ([W.LocalGet ah; W.LocalGet s; W.I64ShrU; W.I64Const 0] ++ select_below 64) +++ emit_lane_store out 8 +++
        emit_store_addr +++
        ops ([W.LocalGet al; W.LocalGet s; W.I64ShrU] ++ carry_down ++ [W.I64Or; W.LocalGet ah; W.LocalGet s;
             W.I64ShrU; W.I64Const 0] ++ select_below 128 ++ select_below 64) +++ emit_lane_store out 0)).

(** * Integer helpers, faults and floats *)
Definition int_eqz (size : Z) : W.instr := if size =? 8 then W.I64Eqz else W.I32Eqz.
Definition int_eq (size : Z) : W.instr := if size =? 8 then W.I64Eq else W.I32Eq.
Definition int_const (size value : Z) : W.instr := if size =? 8 then W.I64Const value else W.I32Const (as_i32 value).
Definition int_min (size : Z) : Z :=
  if size =? 1 then - 2 ^ 7 else if size =? 2 then - 2 ^ 15 else if size =? 4 then - 2 ^ 31 else - 2 ^ 63.
Definition report (region_iter : option nat) : W.code :=
  match region_iter with Some iter => [W.LocalGet iter] | None => [] end.
Definition emit_fault_check (index : Z) (region_iter : option nat) : W.code :=
  [W.I32Eqz; W.If; W.I32Const (as_i32 index); W.Call IMPORT_FAULT] ++ report region_iter ++ [W.Return; W.End].
Definition emit_raise_const (code value index : Z) (region_iter : option nat) : W.code :=
  [W.I32Const (as_i32 code); W.I64Const value; W.I32Const (as_i32 index); W.Call IMPORT_RAISE] ++
  report region_iter ++ [W.Return].
Definition emit_float_operand (v : Value) (size : Z) : emit :=
  if size =? 4 then emit_load v 4 +++ ops [W.F32ReinterpretI32]
  else if size =? 8 then emit_load v 8 +++ ops [W.F64ReinterpretI64]
  else Err ().
Definition emit_float_store (out : VarNode) : emit :=
  if v_size out =? 4 then ops [W.F32Store (reg_arg out)]
  else if v_size out =? 8 then ops [W.F64Store (reg_arg out)]
  else Err ().

(** * Guest memory through the translation cache *)
Definition emit_mem_fastpath (is_store : bool) (addr : Value) (n : Z) (load_out : option VarNode)
    (store_val : option Value) (fast : FastLocals) (slow : emit) : emit :=
  unless (negb (word_size n))
    (let tlb_off := if is_store then TLB_WRITE_ARRAY_OFFSET else 0 in
     let mask := perm_mask_word (if is_store then PERM_WRITE_INIT else PERM_READ_INIT) (Z.to_nat n) in
     let! load_perm := bail (load_instr n (raw_arg PAGE_PERM_OFFSET)) in
     let! load_data := bail (load_instr n (raw_arg 0)) in
     let! store_data := bail (store_instr n (raw_arg 0)) in
     ops [W.Block; W.Block] +++
     emit_zext_i64 addr +++ ops [W.LocalSet (fast_addr fast)] +++
     ops [W.LocalGet (fast_addr fast); W.I32WrapI64; W.I32Const 4095; W.I32And; W.I32Const n; W.I32Add;
          W.I32Const 4096; W.I32GtU; W.BrIf 0] +++
     ops [W.LocalGet TLB_BASE_PARAM; W.LocalGet (fast_addr fast); W.I64Const 12; W.I64ShrU; W.I32WrapI64;
          W.I32Const 1023; W.I32And; W.I32Const 16; W.I32Mul; W.I32Add; W.LocalSet (fast_entry fast)] +++
     ops [W.LocalGet (fast_entry fast); W.I64Load (raw_arg tlb_off); W.LocalGet (fast_addr fast);
          W.I64Const (as_i64 TLB_TAG_MASK); W.I64And; W.I64Ne; W.BrIf 0] +++
     ops [W.LocalGet (fast_addr fast); W.LocalGet (fast_entry fast); W.I64Load (raw_arg (tlb_off + 8)); W.I64Add;
          W.I32WrapI64; W.LocalSet (fast_data fast)] +++
     ops [W.LocalGet (fast_data fast); load_perm] +++
     ops (if n =? 8 then [W.I64Const (as_i64 mask); W.I64And; W.I64Const (as_i64 mask); W.I64Ne]
          else [W.I32Const (as_i32 mask); W.I32And; W.I32Const (as_i32 mask); W.I32Ne]) +++
     ops [W.BrIf 0] +++
     (if is_store then
        let! val := bail store_val in
        ops [W.LocalGet (fast_data fast)] +++ emit_load val n +++ ops [store_data]
      else
        let! out := bail load_out in
        let! store_out := bail (store_instr n (reg_arg out)) in
        ops [W.LocalGet REGS_BASE_PARAM; W.LocalGet (fast_data fast); load_data; store_out]) +++
     ops [W.Br 1; W.End] +++ slow +++ ops [W.End]).

(** * The arms of [translate_instruction] *)
Section arms.
Context (o : Op.op) (out : VarNode) (a b : Value) (index : Z) (has_host : bool) (region_iter : option nat)
  (fast : FastLocals).

(** [IntAdd] and [IntSub]: store-addr(out); load(a); load(b); iN.op; store(out). *)
Definition same_width_op (op32 op64 : W.instr) : emit :=
  let! size := same_width out a b in
  emit_store_addr +++ emit_load a size +++ emit_load b size +++ ops [if size =? 8 then op64 else op32] +++
  emit_store out.
(** [IntXor], [IntOr], [IntAnd]. *)
Definition logic_op (op32 op64 : W.instr) : emit :=
  if v_size out =? 16 then emit_wide_binop out a b [op64] else same_width_op op32 op64.
Definition mul_op : emit :=
  if v_size out =? 16 then emit_wide_mul out a b fast else same_width_op W.I32Mul W.I64Mul.
Definition not_op : emit :=
  if v_size out =? 16 then emit_wide_unary out a [W.I64Const (-1); W.I64Xor] else
  let! ty := bail (wasm_ty (v_size out)) in
  unless (negb (size_of a =? v_size out))
    (emit_store_addr +++ emit_load a (v_size out) +++
     ops (if is_i64 ty then [W.I64Const (-1); W.I64Xor] else [W.I32Const (-1); W.I32Xor]) +++ emit_store out).
Definition negate_op : emit :=
  let! ty := bail (wasm_ty (v_size out)) in
  unless (negb (size_of a =? v_size out))
    (emit_store_addr +++ ops [if is_i64 ty then W.I64Const 0 else W.I32Const 0] +++ emit_load a (v_size out) +++
     ops [if is_i64 ty then W.I64Sub else W.I32Sub] +++ emit_store out).
Definition shift_op : emit :=
  if v_size out =? 16 then emit_wide_shift out a b (if bool_decide (o = Op.IntLeft) then Left else RightU) fast else
  let! ty := bail (wasm_ty (v_size out)) in
  unless (negb (size_of a =? v_size out))
    (let! _ := bail (wasm_ty (size_of b)) in
     let left := bool_decide (o = Op.IntLeft) in
     emit_store_addr +++ emit_load a (v_size out) +++ emit_shift_count_u32 b +++
     ops (match is_i64 ty, left with
          | true, true => [W.I64ExtendI32U; W.I64Shl]
          | true, false => [W.I64ExtendI32U; W.I64ShrU]
          | false, true => [W.I32Shl]
          | false, false => [W.I32ShrU]
          end) +++
     ops [if is_i64 ty then W.I64Const 0 else W.I32Const 0] +++
     emit_shift_count_u32 b +++ ops [W.I32Const (v_size out * 8); W.I32LtU; W.Select] +++ emit_store out).
Definition signed_right_op : emit :=
  if v_size out =? 16 then emit_wide_shift out a b RightS fast else
  let! ty := bail (wasm_ty (v_size out)) in
  unless (negb (size_of a =? v_size out))
    (let! _ := bail (wasm_ty (size_of b)) in
     let clamp := v_size out * 8 - 1 in
     emit_store_addr +++ emit_load a (v_size out) +++ ops (sign_fill (v_size out)) +++
     emit_shift_count_u32 b +++ ops [W.I32Const clamp] +++ emit_shift_count_u32 b +++
     ops [W.I32Const clamp; W.I32LtU; W.Select] +++
     ops (if is_i64 ty then [W.I64ExtendI32U; W.I64ShrS] else [W.I32ShrS]) +++ emit_store out).
Definition rotate_op : emit :=
  let! size := same_width out a b in
  let left := bool_decide (o = Op.IntRotateLeft) in
  let! op := bail (if size =? 4 then Some (if left then W.I32Rotl else W.I32Rotr)
                   else if size =? 8 then Some (if left then W.I64Rotl else W.I64Rotr) else None) in
  emit_store_addr +++ emit_load a size +++ emit_load b size +++ ops [op] +++ emit_store out.
(** [IntEqual], [IntNotEqual], [IntLess], [IntLessEqual]. *)
Definition compare_op (op32 op64 : W.instr) : emit :=
  unless (negb (size_of b =? size_of a) || negb (v_size out =? 1))
    (let! _ := bail (wasm_ty (size_of a)) in
     emit_store_addr +++ emit_load a (size_of a) +++ emit_load b (size_of a) +++
     ops [if size_of a =? 8 then op64 else op32] +++ emit_store out).
(** [IntSignedLess], [IntSignedLessEqual]. *)
Definition signed_compare_op (op32 op64 : W.instr) : emit :=
  unless (negb (size_of b =? size_of a) || negb (v_size out =? 1))
    (let! _ := bail (wasm_ty (size_of a)) in
     emit_store_addr +++ emit_load a (size_of a) +++ ops (sign_fill (size_of a)) +++
     emit_load b (size_of a) +++ ops (sign_fill (size_of a)) +++
     ops [if size_of a =? 8 then op64 else op32] +++ emit_store out).
(** [BoolAnd], [BoolOr], [BoolXor]. *)
Definition bool_binop (op : W.instr) : emit :=
  unless (negb (size_of a =? 1) || negb (size_of b =? 1) || negb (v_size out =? 1))
    (emit_store_addr +++ emit_load a 1 +++ emit_load b 1 +++ ops [op; W.I32Const 0; W.I32Ne] +++ emit_store out).
Definition bool_not_op : emit :=
  unless (negb (size_of a =? 1) || negb (v_size out =? 1))
    (emit_store_addr +++ emit_load a 1 +++ ops [W.I32Eqz] +++ emit_store out).
Definition copy_op : emit :=
  if v_size out =? 16 then emit_wide_unary out a [] else
  unless (negb (size_of a =? v_size out))
    (let! _ := bail (wasm_ty (v_size out)) in
     emit_store_addr +++ emit_load a (v_size out) +++ emit_store out).
Definition zero_extend_op : emit :=
  if (v_size out =? 16) && word_size (size_of a) then
    emit_store_addr +++ emit_zext_i64 a +++ emit_lane_store out 0 +++
    emit_store_addr +++ ops [W.I64Const 0] +++ emit_lane_store out 8
  else
    let! in_ty := bail (wasm_ty (size_of a)) in
    let! out_ty := bail (wasm_ty (v_size out)) in
    unless (v_size out <? size_of a)
      (emit_store_addr +++ emit_load a (size_of a) +++
       (match is_i64 in_ty, is_i64 out_ty with
        | false, false => ops []
        | false, true => ops [W.I64ExtendI32U]
        | true, true => ops []
        | true, false => Err ()
        end) +++ emit_store out).
Definition sign_extend_op : emit :=
  if (v_size out =? 16) && word_size (size_of a) then
    emit_store_addr +++ emit_sext_i64 a (size_of a) +++ emit_lane_store out 0 +++
    emit_store_addr +++ emit_sext_i64 a (size_of a) +++ ops [W.I64Const 63; W.I64ShrS] +++ emit_lane_store out 8
  else
    let! _ := bail (wasm_ty (size_of a)) in
    let! _ := bail (wasm_ty (v_size out)) in
    unless (v_size out <=? size_of a)
      (emit_store_addr +++ emit_load a (size_of a) +++
       (if v_size out =? 8 then
          if size_of a =? 1 then ops [W.I32Extend8S; W.I64ExtendI32S]
          else if size_of a =? 2 then ops [W.I32Extend16S; W.I64ExtendI32S]
          else if size_of a =? 4 then ops [W.I64ExtendI32S] else Err ()
        else
          if size_of a =? 1 then ops [W.I32Extend8S] else if size_of a =? 2 then ops [W.I32Extend16S] else Err ()) +++
       emit_store out).
Definition subpiece_op (offset : Z) : emit :=
  let! in_ty := bail (wasm_ty (size_of a)) in
  let! _ := bail (wasm_ty (v_size out)) in
  unless (size_of a <? offset + v_size out)
    (emit_store_addr +++ emit_load a (size_of a) +++
     ops (if 0 <? offset then
            if is_i64 in_ty then [W.I64Const (offset * 8); W.I64ShrU] else [W.I32Const (offset * 8); W.I32ShrU]
          else []) +++
     ops (if is_i64 in_ty && (v_size out <=? 4) then [W.I32WrapI64] else []) +++ emit_store out).
Definition carry_op : emit :=
  unless (negb (v_size out =? 1) || negb (size_of b =? size_of a))
    (let size := size_of a in
     let! ty := bail (wasm_ty size) in
     emit_store_addr +++ emit_load a size +++ emit_load b size +++
     (if is_i64 ty then ops [W.I64Add] +++ emit_load a size +++ ops [W.I64LtU]
      else
        ops [W.I32Add] +++
        ops (if negb (size =? 4) then [W.I32Const (as_i32 (2 ^ (size * 8) - 1)); W.I32And] else []) +++
        emit_load a size +++ ops [W.I32LtU]) +++
     emit_store out).
Definition sign_test (is64 : bool) (size : Z) : W.code :=
  if is64 then [W.I64Const (- 2 ^ 63); W.I64And; W.I64Const 0; W.I64Ne]
  else [W.I32Const (as_i32 (2 ^ (size * 8 - 1))); W.I32And; W.I32Const 0; W.I32Ne].
Definition signed_carry_op : emit :=
  unless (negb (v_size out =? 1) || negb (size_of b =? size_of a))
    (let size := size_of a in
     let! ty := bail (wasm_ty size) in
     let is64 := is_i64 ty in
     let xor_sum := ops [if is64 then W.I64Add else W.I32Add; if is64 then W.I64Xor else W.I32Xor] in
     emit_store_addr +++
     emit_load a size +++ emit_load a size +++ emit_load b size +++ xor_sum +++
     emit_load b size +++ emit_load a size +++ emit_load b size +++ xor_sum +++
     ops [if is64 then W.I64And else W.I32And] +++ ops (sign_test is64 size) +++ emit_store out).
Definition signed_borrow_op : emit :=
  unless (negb (v_size out =? 1) || negb (size_of b =? size_of a))
    (let size := size_of a in
     let! ty := bail (wasm_ty size) in
     let is64 := is_i64 ty in
     emit_store_addr +++
     emit_load a size +++ emit_load b size +++ ops [if is64 then W.I64Xor else W.I32Xor] +++
     emit_load a size +++ emit_load a size +++ emit_load b size +++
     ops [if is64 then W.I64Sub else W.I32Sub; if is64 then W.I64Xor else W.I32Xor] +++
     ops [if is64 then W.I64And else W.I32And] +++ ops (sign_test is64 size) +++ emit_store out).
Definition count_ones_op : emit :=
  unless (negb (size_of b =? 0))
    (let! in_ty := bail (wasm_ty (size_of a)) in
     let! out_ty := bail (wasm_ty (v_size out)) in
     emit_store_addr +++ emit_load a (size_of a) +++
     ops (if is_i64 in_ty then [W.I64Popcnt; W.I32WrapI64] else [W.I32Popcnt]) +++
     ops (if is_i64 out_ty then [W.I64ExtendI32U] else []) +++ emit_store out).
Definition leading_zeroes_op : emit :=
  unless (negb (size_of b =? 0))
    (let! in_ty := bail (wasm_ty (size_of a)) in
     let! out_ty := bail (wasm_ty (v_size out)) in
     let adjust := 32 - size_of a * 8 in
     emit_store_addr +++ emit_load a (size_of a) +++
     ops (if is_i64 in_ty then [W.I64Clz; W.I32WrapI64]
          else W.I32Clz :: (if negb (adjust =? 0) then [W.I32Const adjust; W.I32Sub] else [])) +++
     ops (if is_i64 out_ty then [W.I64ExtendI32U] else []) +++ emit_store out).
Definition select_op (cond : Z) : emit :=
  let! _ := bail (wasm_ty (v_size out)) in
  unless (negb (size_of a =? v_size out) || negb (size_of b =? v_size out))
    (emit_store_addr +++ emit_load a (v_size out) +++ emit_load b (v_size out) +++
     emit_load (Var (var_new cond 1)) 1 +++ ops [W.Select] +++ emit_store out).

(** Floats. *)
Definition float_op_arm (op32 op64 : W.instr) : emit :=
  let size := v_size out in
  unless (negb (float_size size) || negb (size_of a =? size) || negb (size_of b =? size))
    (emit_store_addr +++ emit_float_operand a size +++ emit_float_operand b size +++
     ops [if size =? 4 then op32 else op64] +++ emit_float_store out).
Definition float_unary_arm (op32 op64 : W.instr) : emit :=
  let size := v_size out in
  unless (negb (float_size size) || negb (size_of a =? size))
    (emit_store_addr +++ emit_float_operand a size +++ ops [if size =? 4 then op32 else op64] +++ emit_float_store out).
Definition float_compare_arm (op32 op64 : W.instr) : emit :=
  let size := size_of a in
  unless (negb (v_size out =? 1) || negb (float_size size) || negb (size_of b =? size))
    (emit_store_addr +++ emit_float_operand a size +++ emit_float_operand b size +++
     ops [if size =? 4 then op32 else op64] +++ emit_store out).
Definition is_nan_op : emit :=
  let size := size_of a in
  unless (negb (v_size out =? 1) || negb (float_size size))
    (emit_store_addr +++ emit_float_operand a size +++ emit_float_operand a size +++
     ops [if size =? 4 then W.F32Ne else W.F64Ne] +++ emit_store out).
Definition int_to_float_op : emit :=
  unless (negb (float_size (v_size out)) || negb (word_size (size_of a)))
    (emit_store_addr +++ emit_signed a (size_of a) +++
     ops [match size_of a =? 8, v_size out =? 4 with
          | false, true => W.F32ConvertI32S
          | false, false => W.F64ConvertI32S
          | true, true => W.F32ConvertI64S
          | true, false => W.F64ConvertI64S
          end] +++ emit_float_store out).
Definition uint_to_float_op : emit :=
  unless (negb (float_size (v_size out)) || negb (word_size (size_of a)))
    (emit_store_addr +++ emit_load a (size_of a) +++
     ops [match size_of a =? 8, v_size out =? 4 with
          | false, true => W.F32ConvertI32U
          | false, false => W.F64ConvertI32U
          | true, true => W.F32ConvertI64U
          | true, false => W.F64ConvertI64U
          end] +++ emit_float_store out).
Definition float_to_float_op : emit :=
  let (sa, so) := (size_of a, v_size out) in
  if float_size sa && (so =? sa) then emit_store_addr +++ emit_load a sa +++ emit_store out
  else if (sa =? 4) && (so =? 8) then
    emit_store_addr +++ emit_float_operand a 4 +++ ops [W.F64PromoteF32] +++ emit_float_store out
  else if (sa =? 8) && (so =? 4) then
    emit_store_addr +++ emit_float_operand a 8 +++ ops [W.F32DemoteF64] +++ emit_float_store out
  else Err ().
(** [2147483648.0f64] and [9223372036854775808.0f64] *)
Definition F64_2_31 : Z := 4746794007248502784.
Definition F64_2_63 : Z := 4890909195324358656.
Definition float_to_int_op : emit :=
  unless (negb (float_size (size_of a)) || negb (float_size (v_size out)))
    (let reload := [W.LocalGet (fast_wide fast); W.F64ReinterpretI64] in
     let four := v_size out =? 4 in
     emit_store_addr +++ emit_float_operand a (size_of a) +++
     ops (if size_of a =? 4 then [W.F64PromoteF32] else []) +++
     ops [W.I64ReinterpretF64; W.LocalSet (fast_wide fast)] +++
     ops (if four then W.I32Const (- 2 ^ 31) :: reload ++ [W.I32TruncSatF64S]
          else W.I64Const (- 2 ^ 63) :: reload ++ [W.I64TruncSatF64S]) +++
     ops (reload ++ reload ++ [W.F64Ne] ++ reload ++ [W.F64Const (if four then F64_2_31 else F64_2_63); W.F64Ge;
          W.I32Or; W.Select]) +++
     emit_store out).

(** Operations that reach the host. *)
Definition load_op (id : Z) : emit :=
  unless (negb has_host || negb (id =? RAM_SPACE) || negb (int_size (v_size out)))
    (if v_size out =? 16 then
       cats ((λ off,
         emit_zext_i64 a +++ ops (if off =? 0 then [] else [W.I64Const off; W.I64Add]) +++
         (let! x := lane_var out off in ops [W.I32Const (as_i32 (var_offset x))]) +++
         ops [W.I32Const 8; W.Call IMPORT_LOAD] +++ ops (emit_fault_check index region_iter)) <$> WIDE_LANES)
     else
       emit_mem_fastpath false a (v_size out) (Some out) None fast
         (emit_zext_i64 a +++
          ops [W.I32Const (as_i32 (var_offset out)); W.I32Const (v_size out); W.Call IMPORT_LOAD] +++
          ops (emit_fault_check index region_iter))).
Definition store_op (id : Z) : emit :=
  unless (negb has_host || negb (id =? RAM_SPACE) || negb (int_size (size_of b)))
    (if size_of b =? 16 then
       cats ((λ off,
         emit_zext_i64 a +++ ops (if off =? 0 then [] else [W.I64Const off; W.I64Add]) +++
         (let! x := lane b off in emit_zext_i64 x) +++
         ops [W.I32Const 8; W.Call IMPORT_STORE] +++ ops (emit_fault_check index region_iter)) <$> WIDE_LANES)
     else
       emit_mem_fastpath true a (size_of b) None (Some b) fast
         (emit_zext_i64 a +++ emit_zext_i64 b +++
          ops [W.I32Const (size_of b); W.Call IMPORT_STORE] +++ ops (emit_fault_check index region_iter))).
Definition raise_if : W.code := W.If :: emit_raise_const EXC_DIVISION 0 index region_iter ++ [W.End].
Definition divide_op : emit :=
  unless (negb has_host)
    (let! size := same_width out a b in
     let quot := bool_decide (o = Op.IntDiv) in
     emit_load b size +++ ops (int_eqz size :: raise_if) +++
     emit_store_addr +++ emit_load a size +++ emit_load b size +++
     ops [match quot, size =? 8 with
          | true, true => W.I64DivU
          | true, false => W.I32DivU
          | false, true => W.I64RemU
          | false, false => W.I32RemU
          end] +++ emit_store out).
Definition signed_divide_op : emit :=
  unless (negb has_host)
    (let! size := same_width out a b in
     let quot := bool_decide (o = Op.IntSignedDiv) in
     emit_load b size +++ ops (int_eqz size :: raise_if) +++
     emit_signed a size +++ ops [int_const size (int_min size); int_eq size] +++
     emit_signed b size +++ ops [int_const size (-1); int_eq size] +++
     ops (W.I32And :: raise_if) +++
     emit_store_addr +++ emit_signed a size +++ emit_signed b size +++
     ops [match quot, size =? 8 with
          | true, true => W.I64DivS
          | true, false => W.I32DivS
          | false, true => W.I64RemS
          | false, false => W.I32RemS
          end] +++ emit_store out).
Definition exception_op : emit :=
  unless (negb has_host)
    (emit_zext_i32 a +++ emit_zext_i64 b +++
     ops ([W.I32Const (as_i32 index); W.Call IMPORT_RAISE] ++ report region_iter ++ [W.Return])).
Definition invalid_op : emit :=
  unless (negb has_host) (ops (emit_raise_const EXC_INVALID_INSTRUCTION 0 index region_iter)).
End arms.

Definition translate_instruction (i : Inst) (index : Z) (has_host : bool) (region_iter : option nat)
    (fast : FastLocals) : emit :=
  let '(out, a, b, o) := (i_out i, i_a i, i_b i, i_op i) in
  match o with
  | Op.InstructionMarker => ops []
  | Op.IntAdd => same_width_op out a b W.I32Add W.I64Add
  | Op.IntSub => same_width_op out a b W.I32Sub W.I64Sub
  | Op.IntXor => logic_op out a b W.I32Xor W.I64Xor
  | Op.IntOr => logic_op out a b W.I32Or W.I64Or
  | Op.IntAnd => logic_op out a b W.I32And W.I64And
  | Op.IntMul => mul_op out a b fast
  | Op.IntNot => not_op out a
  | Op.IntNegate => negate_op out a
  | Op.IntLeft | Op.IntRight => shift_op o out a b fast
  | Op.IntSignedRight => signed_right_op out a b fast
  | Op.IntRotateLeft | Op.IntRotateRight => rotate_op o out a b
  | Op.IntEqual => compare_op out a b W.I32Eq W.I64Eq
  | Op.IntNotEqual => compare_op out a b W.I32Ne W.I64Ne
  | Op.IntLess => compare_op out a b W.I32LtU W.I64LtU
  | Op.IntLessEqual => compare_op out a b W.I32LeU W.I64LeU
  | Op.IntSignedLess => signed_compare_op out a b W.I32LtS W.I64LtS
  | Op.IntSignedLessEqual => signed_compare_op out a b W.I32LeS W.I64LeS
  | Op.BoolAnd => bool_binop out a b W.I32And
  | Op.BoolOr => bool_binop out a b W.I32Or
  | Op.BoolXor => bool_binop out a b W.I32Xor
  | Op.BoolNot => bool_not_op out a
  | Op.Copy => copy_op out a
  | Op.ZeroExtend => zero_extend_op out a
  | Op.SignExtend => sign_extend_op out a
  | Op.Subpiece offset => subpiece_op out a offset
  | Op.IntCarry => carry_op out a b
  | Op.IntSignedCarry => signed_carry_op out a b
  | Op.IntSignedBorrow => signed_borrow_op out a b
  | Op.IntCountOnes => count_ones_op out a b
  | Op.IntCountLeadingZeroes => leading_zeroes_op out a b
  | Op.Select cond => select_op out a b cond
  | Op.FloatAdd => float_op_arm out a b W.F32Add W.F64Add
  | Op.FloatSub => float_op_arm out a b W.F32Sub W.F64Sub
  | Op.FloatMul => float_op_arm out a b W.F32Mul W.F64Mul
  | Op.FloatDiv => float_op_arm out a b W.F32Div W.F64Div
  | Op.FloatNegate => float_unary_arm out a W.F32Neg W.F64Neg
  | Op.FloatAbs => float_unary_arm out a W.F32Abs W.F64Abs
  | Op.FloatSqrt => float_unary_arm out a W.F32Sqrt W.F64Sqrt
  | Op.FloatCeil => float_unary_arm out a W.F32Ceil W.F64Ceil
  | Op.FloatFloor => float_unary_arm out a W.F32Floor W.F64Floor
  | Op.FloatEqual => float_compare_arm out a b W.F32Eq W.F64Eq
  | Op.FloatNotEqual => float_compare_arm out a b W.F32Ne W.F64Ne
  | Op.FloatLess => float_compare_arm out a b W.F32Lt W.F64Lt
  | Op.FloatLessEqual => float_compare_arm out a b W.F32Le W.F64Le
  | Op.FloatIsNan => is_nan_op out a
  | Op.Load id => load_op out a index has_host region_iter fast id
  | Op.Store id => store_op a b index has_host region_iter fast id
  | Op.IntDiv | Op.IntRem => divide_op o out a b index has_host region_iter
  | Op.IntSignedDiv | Op.IntSignedRem => signed_divide_op o out a b index has_host region_iter
  | Op.IntToFloat => int_to_float_op out a
  | Op.UintToFloat => uint_to_float_op out a
  | Op.FloatToFloat => float_to_float_op out a
  | Op.FloatToInt => float_to_int_op out a fast
  | Op.Exception => exception_op a b index has_host region_iter
  | Op.Invalid => invalid_op index has_host region_iter
  | _ => Err ()
  end.

(** * Modules *)
Inductive Entity := Memory (minimum : Z) | Function (ty : Z).
Record Module := {
  m_types : list (list W.ValType * list W.ValType);
  m_imports : list (string * string * Entity);
  m_run : Z;
  m_locals : list (nat * W.ValType);
  m_body : W.code
}.
Definition host_types : list (list W.ValType * list W.ValType) :=
  [([W.I64; W.I32; W.I32], [W.I32]); ([W.I64; W.I64; W.I32], [W.I32]); ([W.I32], []); ([W.I32; W.I64; W.I32], [])].
Definition host_imports (has_host : bool) : list (string * string * Entity) :=
  ("env", "regs", Memory REG_PAGES)%string ::
  (if has_host then [("env", "load", Function 1); ("env", "store", Function 2); ("env", "fault", Function 3);
                     ("env", "raise", Function 4)]%string else []).
Definition module_of (params results : list W.ValType) (has_host : bool) (locals : list (nat * W.ValType))
    (body : W.code) : Module :=
  {| m_types := (params, results) :: (if has_host then host_types else []);
     m_imports := host_imports has_host; m_run := if has_host then 4 else 0;
     m_locals := locals; m_body := body |}.

Fixpoint translate_all (l : list Inst) (index : Z) (has_host : bool) (region_iter : option nat) (fast : FastLocals) :
    emit :=
  match l with
  | [] => ops []
  | i :: l => translate_instruction i index has_host region_iter fast +++
              translate_all l (index + 1) has_host region_iter fast
  end.

Definition block_locals : list (nat * W.ValType) := [(1%nat, W.I64); (2%nat, W.I32); (WIDE_SCRATCH, W.I64)].
Definition translate_block (l : list Inst) : res () Module :=
  let has_host := block_needs_host l in
  let! body := translate_all l 0 has_host None BLOCK_FAST in
  Ok (module_of [W.I32; W.I32] [] has_host block_locals (body ++ [W.End])).

Definition REGION_MAX_ITERS_PARAM : nat := 2.
Definition REGION_ITER_LOCAL : nat := 3.
Definition region_locals : list (nat * W.ValType) :=
  [(1%nat, W.I64); (1%nat, W.I64); (2%nat, W.I32); (WIDE_SCRATCH, W.I64)].
Definition region_module (has_host : bool) (locals : list (nat * W.ValType)) (body : W.code) : Module :=
  module_of [W.I32; W.I32; W.I64] [W.I64] has_host locals body.
Definition translate_region (l : list Inst) (cond : option Value) : res () Module :=
  let has_host := block_needs_host l in
  let! cond_var := match cond with
                   | Some (Var v) => Ok (Some v)
                   | Some (Const _ _) => Err ()
                   | None => Ok None
                   end in
  let! body := ops [W.Loop] +++ translate_all l 0 has_host (Some REGION_ITER_LOCAL) REGION_FAST +++
    ops [W.LocalGet REGION_ITER_LOCAL; W.I64Const 1; W.I64Add; W.LocalSet REGION_ITER_LOCAL;
         W.LocalGet REGION_ITER_LOCAL; W.LocalGet REGION_MAX_ITERS_PARAM; W.I64LtU] +++
    (match cond_var with
     | Some v => emit_load (Var v) 1 +++ ops [W.I32Const 0; W.I32Ne; W.I32And]
     | None => ops []
     end) +++
    ops [W.BrIf 0; W.End; W.LocalGet REGION_ITER_LOCAL; W.End] in
  Ok (region_module has_host region_locals body).

(** * Traces of several blocks *)
Record TraceResume := { r_block : Z; r_addr : Z }.
#[global] Instance TraceResume_eq_dec : EqDecision TraceResume.
Proof. solve_decision. Defined.
Record TraceTranslation := {
  t_module : Module; t_resumes : list TraceResume; t_fault_sites : list (Z * Z)
}.
(** [usize::MAX], the block id of a resume at an address. *)
Definition NO_BLOCK `{Host} : Z := usize_max.
Fixpoint position {A} `{EqDecision A} (x : A) (l : list A) (k : nat) : option nat :=
  match l with [] => None | y :: l => if bool_decide (x = y) then Some k else position x l (S k) end.
Definition trace_resume (resumes : list TraceResume) (block_id addr : Z) : res () (list TraceResume * Z) :=
  let r := {| r_block := block_id; r_addr := addr |} in
  match position r resumes 0 with
  | Some k => Ok (resumes, Z.of_nat k)
  | None => if 2 ^ TRACE_RESUME_BITS <=? zlen resumes then Err () else Ok (resumes ++ [r], zlen resumes)
  end.
Definition target_resume `{Host} (target : Target) (blocks : list Block) : res () (Z * Z) :=
  match target with
  | TInternal id => let! b := bail (getz blocks id) in Ok (id, b_start b)
  | TExternal (Const addr _) => Ok (NO_BLOCK, addr)
  | _ => Err ()
  end.
Definition emit_trace_return (resume : Z) : W.code :=
  [W.LocalGet REGION_ITER_LOCAL; W.I64Const TRACE_RESUME_BITS; W.I64Shl; W.I64Const resume; W.I64Or; W.Return].

Section trace.
(** [states] in the order a [HashMap] iterates over it. *)
Context `{Host} (blocks : list Block) (states : list (Z * Z)) (pc : VarNode).

Definition internal_state (target : Target) : option Z :=
  match target with
  | TInternal id => '(_, s) ← list_find (λ s, s.1 = id) states; Some s.2
  | TExternal (Const addr _) =>
      '(_, s) ← list_find (λ s, (b_start <$> getz blocks s.1) = Some addr) states; Some s.2
  | _ => None
  end.
Definition emit_set_pc (addr : Z) : emit := emit_store_addr +++ ops [W.I64Const (as_i64 addr)] +++ emit_store pc.
Definition emit_trace_target (target : Target) (resumes : list TraceResume) (loop_depth : nat) :
    res () (W.code * list TraceResume) :=
  match internal_state target with
  | Some state => Ok ([W.I32Const state; W.LocalSet TRACE_STATE_LOCAL; W.Br loop_depth], resumes)
  | None =>
      let! '(block_id, addr) := target_resume target blocks in
      let! set := emit_set_pc addr in
      let! '(resumes, k) := trace_resume resumes block_id addr in
      Ok (set ++ emit_trace_return k, resumes)
  end.
Definition emit_trace_exit (exit : BlockExit) (resumes : list TraceResume) : res () (W.code * list TraceResume) :=
  match exit with
  | Jump target => emit_trace_target target resumes 1
  | Branch cond target fallthrough =>
      let! load := emit_load cond (size_of cond) in
      let! ty := bail (wasm_ty (size_of cond)) in
      let! '(taken, resumes) := emit_trace_target target resumes 2 in
      let! '(other, resumes) := emit_trace_target fallthrough resumes 2 in
      Ok (load ++ (if is_i64 ty then [W.I64Const 0; W.I64Ne] else [W.I32Const 0; W.I32Ne]) ++
          W.If :: taken ++ W.Else :: other ++ [W.End], resumes)
  | _ => Err ()
  end.
Definition emit_trace_state (has_host : bool) (state id index : Z) (resumes : list TraceResume) :
    res () (W.code * list TraceResume) :=
  let! block := bail (getz blocks id) in
  let! set := emit_set_pc (b_start block) in
  let! '(resumes, k) := trace_resume resumes id (b_start block) in
  let! body := translate_all (b_code block) index has_host (Some REGION_ITER_LOCAL) TRACE_FAST in
  let! '(leave, resumes) := emit_trace_exit (b_exit block) resumes in
  Ok ([W.LocalGet TRACE_STATE_LOCAL; W.I32Const state; W.I32Eq; W.If] ++ set ++
      [W.LocalGet REGION_ITER_LOCAL; W.I64Const (b_count block); W.I64Add; W.LocalGet REGION_MAX_ITERS_PARAM; W.I64GtU;
       W.If] ++ emit_trace_return k ++ W.End :: body ++
      [W.LocalGet REGION_ITER_LOCAL; W.I64Const (b_count block); W.I64Add; W.LocalSet REGION_ITER_LOCAL] ++
      leave ++ [W.End], resumes).
Fixpoint emit_trace_states (has_host : bool) (order : list Z) (state index : Z) (resumes : list TraceResume) :
    res () (W.code * list TraceResume) :=
  match order with
  | [] => Ok ([], resumes)
  | id :: order =>
      let! '(code, resumes) := emit_trace_state has_host state id index resumes in
      let! block := bail (getz blocks id) in
      let! '(rest, resumes) := emit_trace_states has_host order (state + 1) (index + zlen (b_code block)) resumes in
      Ok (code ++ rest, resumes)
  end.
End trace.

Definition trace_locals : list (nat * W.ValType) :=
  [(1%nat, W.I64); (1%nat, W.I32); (1%nat, W.I64); (2%nat, W.I32); (WIDE_SCRATCH, W.I64)].
Fixpoint numbered {A} (k : Z) (l : list A) : list (A * Z) :=
  match l with [] => [] | x :: l => (x, k) :: numbered (k + 1) l end.
Definition fault_sites (blocks : list Block) (order : list Z) : res () (list (Z * Z)) :=
  let site id := let! b := bail (getz blocks id) in
    if negb (b_breakpoints b =? 0) || (b_count b =? 0) then Err ()
    else Ok ((λ k, (id, Z.of_nat k)) <$> seq 0 (length (b_code b))) in
  foldr (λ id rest, let! s := site id in let! r := rest in Ok (s ++ r)) (Ok []) order.
Definition translate_trace `{Host} (hash_order : list (Z * Z) → list (Z * Z)) (blocks : list Block) (order : list Z)
    (pc : VarNode) : res () TraceTranslation :=
  if (zlen order <? 2) || (8 <? zlen order) || negb (v_size pc =? 8) then Err ()
  else if negb (bool_decide (NoDup order)) then Err ()
  else
    let! _ := foldr (λ id r, let! _ := bail (getz blocks id) in r) (Ok ()) order in
    let has_host := existsb (λ id, match getz blocks id with Some b => block_needs_host (b_code b) | None => false end)
                      order in
    let! sites := fault_sites blocks order in
    let! '(code, resumes) := emit_trace_states blocks (hash_order (numbered 0 order)) pc has_host order 0 0 [] in
    let body := W.Loop :: code ++ [W.LocalGet REGION_ITER_LOCAL; W.I64Const TRACE_RESUME_BITS; W.I64Shl; W.Return;
                                   W.End; W.I64Const 0; W.End] in
    Ok {| t_module := region_module has_host trace_locals body; t_resumes := resumes; t_fault_sites := sites |}.

(** * Coverage *)
Record Bail := { bail_op : Op.op; bail_width : Z }.
Fixpoint first_bail_from (l : list Inst) (index : Z) (has_host : bool) : res () (option Bail) :=
  match l with
  | [] => Ok None
  | i :: l =>
      match translate_instruction i index has_host None BLOCK_FAST with
      | Ok _ => first_bail_from l (index + 1) has_host
      | Err _ => Ok (Some {| bail_op := i_op i;
                             bail_width := Z.max (v_size (i_out i)) (Z.max (size_of (i_a i)) (size_of (i_b i))) |})
      | Panic => Panic
      end
  end.
Definition first_bail (l : list Inst) : res () (option Bail) := first_bail_from l 0 (block_needs_host l).

(** * Running compiled code *)
Inductive JitOutcome := Completed | Faulted (index : Z) | Unavailable.
Inductive RegionOutcome := Ran (iters : Z) | RegionFaulted (iters index : Z) | RegionUnavailable.
