(* ===== verification/JitSim.v ===== *)
(** Emitted code against the processor: running instruction sequences, registers in
    linear memory, arithmetic on words, and the relation simulation proofs keep. *)

From S2P Require Import Prelude Cpu Pcode Wasm Jit.

(** Running emitted code by segments. A segment nests as it stands in any
    context ([parses]); [runs l c o] says what one does from a configuration.
    The lemmas read a segment from the front, one emitted instruction or one
    emitted block at a time. *)
(** * Nesting *)
Definition parses (l : W.code) (ts : list W.tree) : Prop :=
  ∀ rest acc open, W.parse (l ++ rest) acc open = W.parse rest (rev ts ++ acc) open.
Definition nests (l : W.code) : Prop := ∃ ts, parses l ts.
(** Instructions that open no block. *)
Definition plain (i : W.instr) : bool :=
  match i with W.Block | W.Loop | W.If | W.Else | W.End => false | _ => true end.

Lemma parses_nil : parses [] [].
Proof. by intros rest acc open. Qed.
Lemma parses_app l ts l' ts' : parses l ts → parses l' ts' → parses (l ++ l') (ts ++ ts').
Proof.
  intros Hp Hp' rest acc open. rewrite <- app_assoc, Hp, Hp', rev_app_distr, <- app_assoc. done.
Qed.
Lemma parses_plain i : plain i = true → parses [i] [W.Basic i].
Proof. intros Hi rest acc open. by destruct i. Qed.
Lemma parses_block l ts : parses l ts → parses (W.Block :: l ++ [W.End]) [W.TBlock ts].
Proof. intros Hp rest acc open. cbn. rewrite <- app_assoc, Hp. cbn. by rewrite app_nil_r, rev_involutive. Qed.
Lemma parses_loop l ts : parses l ts → parses (W.Loop :: l ++ [W.End]) [W.TLoop ts].
Proof. intros Hp rest acc open. cbn. rewrite <- app_assoc, Hp. cbn. by rewrite app_nil_r, rev_involutive. Qed.
Lemma parses_if l ts : parses l ts → parses (W.If :: l ++ [W.End]) [W.TIf ts []].
Proof. intros Hp rest acc open. cbn. rewrite <- app_assoc, Hp. cbn. by rewrite app_nil_r, rev_involutive. Qed.
Lemma parses_if_else l ts l' ts' :
  parses l ts → parses l' ts' → parses (W.If :: l ++ W.Else :: l' ++ [W.End]) [W.TIf ts ts'].
Proof.
  intros Hp Hp' rest acc open. cbn. rewrite <- app_assoc, Hp. cbn. rewrite <- app_assoc, Hp'. cbn.
  by rewrite !app_nil_r, !rev_involutive.
Qed.
Lemma parses_end l ts : parses l ts → W.parse (l ++ [W.End]) [] [] = Some ts.
Proof. intros Hp. rewrite Hp. cbn. by rewrite app_nil_r, rev_involutive. Qed.

Lemma nests_nil : nests [].
Proof. exists []. apply parses_nil. Qed.
Lemma nests_app l l' : nests l → nests l' → nests (l ++ l').
Proof. intros [ts Hp] [ts' Hp']. eexists. by apply parses_app. Qed.
Lemma nests_cons i l : plain i = true → nests l → nests (i :: l).
Proof. intros Hi Hl. apply (nests_app [i]); [|done]. eexists. by apply parses_plain. Qed.
Lemma nests_plain l : forallb plain l = true → nests l.
Proof.
  induction l as [|i l IH]; cbn; [intros _; apply nests_nil|]. intros [Hi Hl]%andb_true_iff.
  apply nests_cons; auto.
Qed.
Lemma nests_if l rest : nests l → nests rest → nests (W.If :: l ++ W.End :: rest).
Proof.
  intros [ts Hp] Hr. replace (W.If :: l ++ W.End :: rest) with ((W.If :: l ++ [W.End]) ++ rest)
    by (cbn; by rewrite <- app_assoc). apply nests_app; [|done]. eexists. by apply parses_if.
Qed.
Lemma nests_block l rest : nests l → nests rest → nests (W.Block :: l ++ W.End :: rest).
Proof.
  intros [ts Hp] Hr. replace (W.Block :: l ++ W.End :: rest) with ((W.Block :: l ++ [W.End]) ++ rest)
    by (cbn; by rewrite <- app_assoc). apply nests_app; [|done]. eexists. by apply parses_block.
Qed.

(** * Running *)
Section code.
Context `{Floats} {G : Type} `{Softmmu G} (base limit : Z).
Abbreviation cfg := (W.cfg G).
Abbreviation outcome := (W.outcome G).
Abbreviation step := (W.step base limit).
Abbreviation exec := (W.exec base limit).
Abbreviation mk := (W.Build_cfg G).
Implicit Types (l : W.code) (c : cfg) (o : outcome) (L st : list W.val) (s : W.store G).

Definition runs (l : W.code) (c : cfg) (o : outcome) : Prop :=
  ∃ ts, parses l ts ∧ ∀ fuel, W.seq (exec fuel) ts c = o.

Lemma seq_app one ts ts' c :
  W.seq one (ts ++ ts') c = match W.seq one ts c with W.Next c => W.seq one ts' c | o => o end.
Proof. revert c. induction ts as [|t ts IH]; intros c; [done|]. cbn. destruct (one t c); cbn; done. Qed.
Lemma seq_one (one : W.tree → cfg → outcome) t c : W.seq one [t] c = one t c.
Proof. cbn. by destruct (one t c). Qed.
Lemma exec_basic fuel i c : exec fuel (W.Basic i) c = step i c.
Proof. by destruct fuel. Qed.
Lemma exec_block fuel ts c : exec fuel (W.TBlock ts) c = W.leave (W.k_stack c) (W.seq (exec fuel) ts c).
Proof. by destruct fuel. Qed.
Lemma exec_if fuel ts ts' x st L s :
  exec fuel (W.TIf ts ts') (mk ((W.I32, x) :: st) L s) =
  W.leave st (W.seq (exec fuel) (if x =? 0 then ts' else ts) (mk st L s)).
Proof. by destruct fuel; cbn; destruct (x =? 0). Qed.

Lemma runs_nests l c o : runs l c o → nests l.
Proof. intros (ts & Hp & _). by exists ts. Qed.
Lemma runs_nil c : runs [] c (W.Next c).
Proof. by exists []. Qed.
Lemma runs_nil_eq c c' : c = c' → runs [] c (W.Next c').
Proof. intros ->. apply runs_nil. Qed.
Lemma runs_app l l' c c' o : runs l c (W.Next c') → runs l' c' o → runs (l ++ l') c o.
Proof.
  intros (ts & Hp & He) (ts' & Hp' & He'). exists (ts ++ ts'). split; [by apply parses_app|].
  intros fuel. by rewrite seq_app, He.
Qed.
(** What follows a segment that does not fall through is not run. *)
Definition stops (o : outcome) : bool := match o with W.Next _ => false | _ => true end.
Lemma runs_stop l l' c o : runs l c o → stops o = true → nests l' → runs (l ++ l') c o.
Proof.
  intros (ts & Hp & He) Ho [ts' Hp']. exists (ts ++ ts'). split; [by apply parses_app|].
  intros fuel. rewrite seq_app, He. by destruct o.
Qed.
Lemma runs_step i l c c' o : plain i = true → step i c = W.Next c' → runs l c' o → runs (i :: l) c o.
Proof.
  intros Hi Hs Hl. apply (runs_app [i] l c c'); [|done].
  exists [W.Basic i]. split; [by apply parses_plain|]. intros fuel. by rewrite seq_one, exec_basic.
Qed.
Lemma runs_step_stop i l c o : plain i = true → step i c = o → stops o = true → nests l → runs (i :: l) c o.
Proof.
  intros Hi Hs Ho Hl. apply (runs_stop [i] l); [|done..].
  exists [W.Basic i]. split; [by apply parses_plain|]. intros fuel. by rewrite seq_one, exec_basic.
Qed.
Lemma runs_block l st L s o :
  runs l (mk st L s) o → runs (W.Block :: l ++ [W.End]) (mk st L s) (W.leave st o).
Proof.
  intros (ts & Hp & He). exists [W.TBlock ts]. split; [by apply parses_block|].
  intros fuel. by rewrite seq_one, exec_block, He.
Qed.
Lemma runs_if_skip l rest st L s o :
  nests l → runs rest (mk st L s) o → runs (W.If :: l ++ W.End :: rest) (mk ((W.I32, 0) :: st) L s) o.
Proof.
  intros [ts Hp] Hr. replace (W.If :: l ++ W.End :: rest) with ((W.If :: l ++ [W.End]) ++ rest)
    by (cbn; by rewrite <- app_assoc). eapply runs_app; [|exact Hr].
  exists [W.TIf ts []]. split; [by apply parses_if|]. intros fuel. by rewrite seq_one, exec_if.
Qed.
Lemma runs_if_return l rest st L s x c' :
  (x =? 0) = false → runs l (mk st L s) (W.Returned c') → nests rest →
  runs (W.If :: l ++ W.End :: rest) (mk ((W.I32, x) :: st) L s) (W.Returned c').
Proof.
  intros Hx (ts & Hp & He) Hr. replace (W.If :: l ++ W.End :: rest) with ((W.If :: l ++ [W.End]) ++ rest)
    by (cbn; by rewrite <- app_assoc). eapply runs_stop; [|done..].
  exists [W.TIf ts []]. split; [by apply parses_if|]. intros fuel. by rewrite seq_one, exec_if, Hx, He.
Qed.

(** One lemma per kind of instruction. *)
Lemma runs_binop i t r f x y z rest st L s o :
  W.binop i = Some (t, r, f) → f x y = Some z →
  runs rest (mk ((r, z) :: st) L s) o → runs (i :: rest) (mk ((t, y) :: (t, x) :: st) L s) o.
Proof.
  intros Hb Hf. apply runs_step; [by destruct i|].
  transitivity (W.step_binop (t, r, f) (mk ((t, y) :: (t, x) :: st) L s)).
  - destruct i; try discriminate Hb; cbn in Hb |- *; by simplify_eq.
  - cbn. by rewrite !bool_decide_true, Hf.
Qed.
Lemma runs_unop i t r f x rest st L s o :
  W.unop i = Some (t, r, f) →
  runs rest (mk ((r, f x) :: st) L s) o → runs (i :: rest) (mk ((t, x) :: st) L s) o.
Proof.
  intros Hb. apply runs_step; [by destruct i|].
  transitivity (W.step_unop (t, r, f) (mk ((t, x) :: st) L s)).
  - destruct i; try discriminate Hb; cbn in Hb |- *; by simplify_eq.
  - cbn. by rewrite bool_decide_true.
Qed.
Lemma runs_i32 z rest st L s o :
  runs rest (mk ((W.I32, wrap 32 z) :: st) L s) o → runs (W.I32Const z :: rest) (mk st L s) o.
Proof. by apply runs_step. Qed.
Lemma runs_i64 z rest st L s o :
  runs rest (mk ((W.I64, wrap 64 z) :: st) L s) o → runs (W.I64Const z :: rest) (mk st L s) o.
Proof. by apply runs_step. Qed.
Lemma runs_f64 z rest st L s o :
  runs rest (mk ((W.F64, wrap 64 z) :: st) L s) o → runs (W.F64Const z :: rest) (mk st L s) o.
Proof. by apply runs_step. Qed.
Lemma runs_get k v rest st L s o :
  L !! k = Some v → runs rest (mk (v :: st) L s) o → runs (W.LocalGet k :: rest) (mk st L s) o.
Proof. intros Hk. apply runs_step; [done|]. cbn. by rewrite Hk. Qed.
Lemma runs_set k t x y rest st L s o :
  L !! k = Some (t, y) → runs rest (mk st (<[k := (t, x)]> L) s) o →
  runs (W.LocalSet k :: rest) (mk ((t, x) :: st) L s) o.
Proof. intros Hk. apply runs_step; [done|]. cbn. rewrite Hk. cbn. by rewrite bool_decide_true. Qed.
Lemma runs_select t x y b rest st L s o :
  runs rest (mk ((t, if b =? 0 then y else x) :: st) L s) o →
  runs (W.Select :: rest) (mk ((W.I32, b) :: (t, y) :: (t, x) :: st) L s) o.
Proof. apply runs_step; [done|]. cbn. by rewrite bool_decide_true. Qed.
Lemma runs_br_if_skip n rest st L s o :
  runs rest (mk st L s) o → runs (W.BrIf n :: rest) (mk ((W.I32, 0) :: st) L s) o.
Proof. by apply runs_step. Qed.
Lemma runs_br_if n x rest st L s :
  (x =? 0) = false → nests rest →
  runs (W.BrIf n :: rest) (mk ((W.I32, x) :: st) L s) (W.Break n (mk st L s)).
Proof. intros Hx. apply runs_step_stop; [done| |done]. cbn. by rewrite Hx. Qed.
Lemma runs_br n rest st L s : nests rest → runs (W.Br n :: rest) (mk st L s) (W.Break n (mk st L s)).
Proof. by apply runs_step_stop. Qed.
Lemma runs_return rest st L s : nests rest → runs (W.Return :: rest) (mk st L s) (W.Returned (mk st L s)).
Proof. by apply runs_step_stop. Qed.
Lemma runs_load i t n a p rest st L s o :
  W.load_width i = Some (t, n, a) → p + W.m_offset a + n ≤ limit →
  runs rest (mk ((t, le_val (W.lin_read base s (p + W.m_offset a) (Z.to_nat n))) :: st) L s) o →
  runs (i :: rest) (mk ((W.I32, p) :: st) L s) o.
Proof.
  intros Hw Hl. apply runs_step; [by destruct i|].
  transitivity (W.step_memory base limit i (mk ((W.I32, p) :: st) L s)); [by destruct i|].
  unfold W.step_memory. cbn [W.k_stack]. rewrite Hw. cbn zeta.
  assert ((limit <? p + W.m_offset a + n) = false) as Hn by lia.
  cbn in Hn |- *. by destruct (W.store_width i) as [[[? ?] ?]|]; rewrite Hn.
Qed.
Lemma runs_store i t n a p x rest st L s o :
  W.store_width i = Some (t, n, a) → p + W.m_offset a + n ≤ limit →
  runs rest (mk st L (W.lin_write base s (p + W.m_offset a) (le_bytes (Z.to_nat n) x))) o →
  runs (i :: rest) (mk ((t, x) :: (W.I32, p) :: st) L s) o.
Proof.
  intros Hw Hl. apply runs_step; [by destruct i|].
  transitivity (W.step_memory base limit i (mk ((t, x) :: (W.I32, p) :: st) L s)); [by destruct i|].
  unfold W.step_memory. cbn [W.k_stack].
  assert (W.load_width i = None) as -> by (by destruct i). rewrite Hw. cbn zeta.
  rewrite bool_decide_true by done. cbn [negb].
  assert ((limit <? p + W.m_offset a + n) = false) as Hn by lia.
  cbn in Hn |- *. by rewrite Hn.
Qed.
Lemma runs_call_load addr dst size rest st L s s' r o :
  W.import_load addr dst size s = (s', r) → runs rest (mk ((W.I32, r) :: st) L s') o →
  runs (W.Call IMPORT_LOAD :: rest) (mk ((W.I32, size) :: (W.I32, dst) :: (W.I64, addr) :: st) L s) o.
Proof. intros Hi. apply runs_step; [done|]. cbn. by rewrite Hi. Qed.
Lemma runs_call_store addr x size rest st L s s' r o :
  W.import_store addr x size s = (s', r) → runs rest (mk ((W.I32, r) :: st) L s') o →
  runs (W.Call IMPORT_STORE :: rest) (mk ((W.I32, size) :: (W.I64, x) :: (W.I64, addr) :: st) L s) o.
Proof. intros Hi. apply runs_step; [done|]. cbn. by rewrite Hi. Qed.
Lemma runs_call_fault k rest st L s o :
  runs rest (mk st L (W.import_fault k s)) o →
  runs (W.Call IMPORT_FAULT :: rest) (mk ((W.I32, k) :: st) L s) o.
Proof. by apply runs_step. Qed.
Lemma runs_call_raise code x k rest st L s o :
  runs rest (mk st L (W.import_raise code x k s)) o →
  runs (W.Call IMPORT_RAISE :: rest) (mk ((W.I32, k) :: (W.I64, x) :: (W.I32, code) :: st) L s) o.
Proof. by apply runs_step. Qed.
End code.

(** The register space as bytes: what a write changes, what a read sees, words
    as two lanes, and the window on it that linear memory gives. *)
(** * Words *)
Lemma le_bytes_congr n x y : x mod 2 ^ (8 * Z.of_nat n) = y mod 2 ^ (8 * Z.of_nat n) → le_bytes n x = le_bytes n y.
Proof.
  intros Hxy. rewrite <- (le_bytes_val (le_bytes n x)), <- (le_bytes_val (le_bytes n y)) by eauto with rust.
  by rewrite !length_le_bytes, !le_val_bytes, Hxy.
Qed.
Lemma le_val_app l k : le_val (l ++ k) = le_val l + 2 ^ (8 * zlen l) * le_val k.
Proof.
  induction l as [|b l IH]; [change (zlen []) with 0; cbn [app le_val]; lia|]. cbn [app le_val]. rewrite IH, zlen_cons.
  replace (8 * (zlen l + 1)) with (8 + 8 * zlen l) by lia. rewrite Z.pow_add_r by (unfold zlen; lia). lia.
Qed.
Lemma le_bytes_app n m x : le_bytes (n + m) x = le_bytes n x ++ le_bytes m (x / 2 ^ (8 * Z.of_nat n)).
Proof.
  revert x. induction n as [|n IH]; intros x; [by rewrite Z.div_1_r|]. cbn [le_bytes Nat.add app].
  rewrite IH, Z.div_div by lia. repeat f_equal. rewrite Nat2Z.inj_succ.
  replace (8 * Z.succ (Z.of_nat n)) with (8 + 8 * Z.of_nat n) by lia. rewrite Z.pow_add_r by lia. done.
Qed.

(** * Reads and writes *)
Lemma reg_byte_put r k l j :
  reg_byte (put_bytes r k l) j = default (reg_byte r j) ((λ b, b mod 256) <$> getz l (j - k)).
Proof.
  revert r k. induction l as [|b l IH]; intros r k.
  { cbn. destruct (getz [] (j - k)) eqn:E; [|done]. apply getz_Some in E as [? ?]. change (zlen []) with 0 in *. lia. }
  cbn [put_bytes]. rewrite IH. destruct (decide (j = k)) as [->|Hj].
  - replace (k - k) with (Z.of_nat 0) by lia. rewrite getz_nat.
    destruct (getz l (k - (k + 1))) eqn:E; [apply getz_Some in E; lia|].
    cbn. unfold reg_byte. by rewrite lookup_insert_eq.
  - assert (getz (b :: l) (j - k) = getz l (j - (k + 1))) as ->.
    { unfold getz. rewrite zlen_cons. destruct (decide (k < j)).
      - replace (Z.to_nat (j - k)) with (S (Z.to_nat (j - (k + 1)))) by lia. cbn [lookup list_lookup].
        replace ((0 <=? j - k) && (j - k <? zlen l + 1)) with ((0 <=? j - (k + 1)) && (j - (k + 1) <? zlen l))
          by (apply Bool.eq_iff_eq_true; rewrite !andb_true_iff, !Z.leb_le, !Z.ltb_lt; lia). done.
      - by replace (0 <=? j - k) with false by lia; replace (0 <=? j - (k + 1)) with false by lia. }
    unfold reg_byte. by rewrite lookup_insert_ne.
Qed.
Lemma reg_byte_put_out r k l j : j < k ∨ k + zlen l ≤ j → reg_byte (put_bytes r k l) j = reg_byte r j.
Proof.
  intros Hj. rewrite reg_byte_put. destruct (getz l (j - k)) eqn:E; [|done]. apply getz_Some in E. lia.
Qed.
Lemma reg_byte_put_in r r' k l j :
  k ≤ j < k + zlen l → reg_byte (put_bytes r k l) j = reg_byte (put_bytes r' k l) j.
Proof.
  intros Hj. rewrite !reg_byte_put. assert (is_Some (getz l (j - k))) as [b ->] by (apply getz_is_Some; lia). done.
Qed.
Lemma get_bytes_eq r r' k n :
  (∀ j, k ≤ j < k + Z.of_nat n → reg_byte r j = reg_byte r' j) → get_bytes r k n = get_bytes r' k n.
Proof.
  revert k. induction n as [|n IH]; intros k Hr; [done|]. cbn. rewrite Hr by lia. f_equal. apply IH.
  intros j ?. apply Hr. lia.
Qed.
Lemma get_put_out r k l j n :
  j + Z.of_nat n ≤ k ∨ k + zlen l ≤ j → get_bytes (put_bytes r k l) j n = get_bytes r j n.
Proof. intros Hj. apply get_bytes_eq. intros ? ?. apply reg_byte_put_out. lia. Qed.
Lemma length_get_bytes r k n : length (get_bytes r k n) = n.
Proof. revert k. induction n; intros k; cbn; auto. Qed.
Lemma get_bytes_byte_list r k n : byte_list (get_bytes r k n).
Proof.
  revert k. induction n; intros k; cbn; constructor; [|apply IHn]. unfold fits, reg_byte.
  apply Z.mod_pos_bound. lia.
Qed.
#[export] Hint Resolve get_bytes_byte_list : rust.
Lemma get_bytes_app r k n m : get_bytes r k (n + m) = get_bytes r k n ++ get_bytes r (k + Z.of_nat n) m.
Proof.
  revert k. induction n as [|n IH]; intros k; [cbn; by rewrite Z.add_0_r|]. cbn [get_bytes Nat.add app].
  rewrite IH. do 3 f_equal; lia.
Qed.
Lemma put_bytes_app r k l l' : put_bytes r k (l ++ l') = put_bytes (put_bytes r k l) (k + zlen l) l'.
Proof.
  revert r k. induction l as [|b l IH]; intros r k; [cbn; by rewrite Z.add_0_r|]. cbn [put_bytes app].
  rewrite IH, zlen_cons. f_equal. lia.
Qed.
Lemma put_bytes_cons_app r k b l : put_bytes r k (b :: l) = put_bytes (put_bytes r k [b]) (k + 1) l.
Proof. done. Qed.
Lemma get_put_same r k l : byte_list l → get_bytes (put_bytes r k l) k (length l) = l.
Proof.
  revert r k. induction l as [|b l IH]; intros r k Hl; [done|]. apply Forall_cons in Hl as [Hb Hl].
  cbn [length get_bytes]. rewrite put_bytes_cons_app, IH by done. f_equal.
  rewrite reg_byte_put_out by lia. cbn. unfold reg_byte. rewrite lookup_insert_eq. cbn.
  apply Z.mod_small. exact Hb.
Qed.

Lemma read_reg_fits r k n : 0 ≤ n → fits (8 * n) (read_reg r k n).
Proof.
  intros Hn. unfold read_reg.
  replace (8 * n) with (8 * zlen (get_bytes r k (Z.to_nat n))) by (unfold zlen; rewrite length_get_bytes; lia).
  apply le_val_bound. auto with rust.
Qed.
Lemma read_fits r v n : 0 ≤ n → fits (8 * n) (read r v n).
Proof. intros Hn. destruct v; cbn; [by apply read_reg_fits|]. unfold wrap, fits. apply Z.mod_pos_bound. lia. Qed.
Lemma read_reg_16 r k : read_reg r k 16 = read_reg r k 8 + 2 ^ 64 * read_reg r (k + 8) 8.
Proof.
  unfold read_reg. change (Z.to_nat 16) with (Z.to_nat 8 + Z.to_nat 8)%nat.
  rewrite get_bytes_app, le_val_app. unfold zlen. rewrite length_get_bytes. done.
Qed.
Lemma write_reg_16 r k x : write_reg r k 16 x = write_reg (write_reg r k 8 x) (k + 8) 8 (x / 2 ^ 64).
Proof.
  unfold write_reg. change (Z.to_nat 16) with (Z.to_nat 8 + Z.to_nat 8)%nat.
  by rewrite le_bytes_app, put_bytes_app, zlen_le_bytes.
Qed.
Lemma write_reg_mod r k n x y : 0 ≤ n → x mod 2 ^ (8 * n) = y mod 2 ^ (8 * n) → write_reg r k n x = write_reg r k n y.
Proof. intros Hn Hxy. unfold write_reg. f_equal. apply le_bytes_congr. by rewrite Z2Nat.id. Qed.
Lemma read_write_out r k n x j m :
  0 ≤ n → 0 ≤ m → j + m ≤ k ∨ k + n ≤ j → read_reg (write_reg r k n x) j m = read_reg r j m.
Proof.
  intros Hn Hm Hj. unfold read_reg, write_reg. f_equal. apply get_put_out. rewrite zlen_le_bytes. lia.
Qed.
Lemma read_write_same r k n x : 0 ≤ n → read_reg (write_reg r k n x) k n = x mod 2 ^ (8 * n).
Proof.
  intros Hn. unfold read_reg, write_reg.
  assert (length (le_bytes (Z.to_nat n) x) = Z.to_nat n) as Hl by apply length_le_bytes.
  rewrite <- Hl at 2. rewrite get_put_same by eauto with rust. rewrite le_val_bytes. by rewrite Z2Nat.id.
Qed.
(** The low bytes of a word just written. *)
Lemma read_write_low r k n m x : 0 ≤ m ≤ n → read_reg (write_reg r k n x) k m = x mod 2 ^ (8 * m).
Proof.
  intros Hn. replace n with (m + (n - m)) by lia. unfold write_reg. rewrite Z2Nat.inj_add by lia.
  rewrite le_bytes_app, put_bytes_app, zlen_le_bytes. fold (write_reg r k m x).
  change (put_bytes (write_reg r k m x) ?j (le_bytes (Z.to_nat ?p) ?y)) with (write_reg (write_reg r k m x) j p y).
  rewrite read_write_out by lia. apply read_write_same. lia.
Qed.

(** * Registers that agree outside a hidden range *)
Section hidden.
Context (hidden : Z → Prop).
Definition same (r r' : Regs) : Prop := ∀ j, ~ hidden j → reg_byte r j = reg_byte r' j.
#[global] Instance same_equiv : Equivalence same.
Proof.
  split; [by intros r j|by intros r r' Hr j Hj; symmetry; apply Hr|].
  intros r1 r2 r3 H1 H2 j Hj. rewrite H1 by done. by apply H2.
Qed.
Lemma same_put r r' k l : same r r' → same (put_bytes r k l) (put_bytes r' k l).
Proof.
  intros Hr j Hj. destruct (decide (k ≤ j < k + zlen l)); [by apply reg_byte_put_in|].
  rewrite !reg_byte_put_out by lia. by apply Hr.
Qed.
#[global] Instance same_write_reg : Proper (same ==> eq ==> eq ==> eq ==> same) write_reg.
Proof. intros r r' Hr k ? <- n ? <- x ? <-. by apply same_put. Qed.
Definition visible (k n : Z) : Prop := ∀ j, k ≤ j < k + n → ~ hidden j.
Lemma same_read_reg r r' k n : same r r' → visible k n → read_reg r k n = read_reg r' k n.
Proof.
  intros Hr Hv. unfold read_reg. f_equal. apply get_bytes_eq. intros j Hj. apply Hr, Hv. lia.
Qed.
Lemma same_hidden_put r r' k l :
  same r r' → (∀ j, k ≤ j < k + zlen l → hidden j) → same r (put_bytes r' k l).
Proof.
  intros Hr Hh j Hj. rewrite Hr by done. symmetry. apply reg_byte_put_out.
  destruct (decide (k ≤ j < k + zlen l)); [|lia]. by exfalso; apply Hj, Hh.
Qed.
End hidden.

(** * Linear memory over the registers *)
Section linear.
Context {G : Type} `{Softmmu G} (base : Z).
Implicit Types s : W.store G.
Definition set_regs (r : Regs) (s : W.store G) : W.store G :=
  {| W.s_regs := r; W.s_mem := W.s_mem s; W.s_exc := W.s_exc s; W.s_fault := W.s_fault s |}.
Definition set_mem (g : G) (s : W.store G) : W.store G :=
  {| W.s_regs := W.s_regs s; W.s_mem := g; W.s_exc := W.s_exc s; W.s_fault := W.s_fault s |}.
Lemma set_regs_id s : set_regs (W.s_regs s) s = s.
Proof. by destruct s. Qed.
Lemma set_mem_id s : set_mem (W.s_mem s) s = s.
Proof. by destruct s. Qed.
Lemma lin_read_regs s k n :
  0 ≤ k → k + Z.of_nat n ≤ REG_SPACE_BYTES → W.lin_read base s (base + k) n = get_bytes (W.s_regs s) k n.
Proof.
  revert k. induction n as [|n IH]; intros k Hk Hn; [done|]. cbn [W.lin_read get_bytes]. f_equal.
  - unfold W.lin_byte, W.in_regs. replace ((base <=? base + k) && (base + k <? base + REG_SPACE_BYTES)) with true.
    + f_equal. lia.
    + symmetry. apply andb_true_iff. rewrite Z.leb_le, Z.ltb_lt. lia.
  - rewrite <- Z.add_assoc. apply IH; lia.
Qed.
Lemma lin_write_regs s k l :
  0 ≤ k → k + zlen l ≤ REG_SPACE_BYTES →
  W.lin_write base s (base + k) l = set_regs (put_bytes (W.s_regs s) k l) s.
Proof.
  revert s k. induction l as [|b l IH]; intros s k Hk Hn; [cbn; by rewrite set_regs_id|].
  rewrite zlen_cons in Hn. pose proof (zlen_nonneg l). cbn [W.lin_write put_bytes].
  unfold W.lin_put, W.in_regs. replace ((base <=? base + k) && (base + k <? base + REG_SPACE_BYTES)) with true.
  - replace (base + k - base) with k by lia. rewrite <- Z.add_assoc, IH by lia. done.
  - symmetry. apply andb_true_iff. rewrite Z.leb_le, Z.ltb_lt. lia.
Qed.
(** Bytes the host keeps outside the register space. *)
Definition host_at (a n : Z) : Prop := a + n ≤ base ∨ base + REG_SPACE_BYTES ≤ a.
Fixpoint host_read (g : G) (a : Z) (n : nat) : bytes :=
  match n with O => [] | S n => host_byte g a mod 256 :: host_read g (a + 1) n end.
Fixpoint host_write (g : G) (a : Z) (l : bytes) : G :=
  match l with [] => g | b :: l => host_write (host_set g a b) (a + 1) l end.
Lemma lin_read_host s a n : host_at a (Z.of_nat n) → W.lin_read base s a n = host_read (W.s_mem s) a n.
Proof.
  revert a. induction n as [|n IH]; intros a Ha; [done|]. cbn [W.lin_read host_read]. f_equal.
  - unfold W.lin_byte, W.in_regs, host_at in *.
    replace ((base <=? a) && (a <? base + REG_SPACE_BYTES)) with false; [done|].
    symmetry. apply andb_false_iff. rewrite Z.leb_gt, Z.ltb_ge. lia.
  - apply IH. unfold host_at in *. lia.
Qed.
Lemma lin_write_host s a l : host_at a (zlen l) → W.lin_write base s a l = set_mem (host_write (W.s_mem s) a l) s.
Proof.
  revert s a. induction l as [|b l IH]; intros s a Ha; [cbn; by rewrite set_mem_id|].
  unfold host_at in *. rewrite zlen_cons in Ha. pose proof (zlen_nonneg l). cbn [W.lin_write host_write].
  unfold W.lin_put, W.in_regs. replace ((base <=? a) && (a <? base + REG_SPACE_BYTES)) with false.
  - rewrite IH by lia. done.
  - symmetry. apply andb_false_iff. rewrite Z.leb_gt, Z.ltb_ge. lia.
Qed.
Lemma length_host_read g a n : length (host_read g a n) = n.
Proof. revert a. induction n; intros a; cbn; auto. Qed.
End linear.

(** Words of 8, 16, 32, 64 and 128 bits: modular, signed and bitwise facts the
    compiled arithmetic rests on. *)
(** * Wrapping *)
Lemma wrap_fits w x : 0 ≤ w → fits w (wrap w x).
Proof. intros. unfold wrap, fits. apply Z.mod_pos_bound. lia. Qed.
Lemma wrap_id w x : fits w x → wrap w x = x.
Proof. intros. by apply Z.mod_small. Qed.
Lemma fits_weaken w t x : w ≤ t → fits w x → fits t x.
Proof.
  unfold fits. intros Hw [? Hx]. split; [done|]. destruct (decide (0 ≤ w)).
  - pose proof (Z.pow_le_mono_r 2 w t). lia.
  - rewrite (Z.pow_neg_r 2 w) in Hx by lia. lia.
Qed.
Lemma mod_wrap w t x : 0 ≤ w ≤ t → wrap t x mod 2 ^ w = x mod 2 ^ w.
Proof.
  intros Hw. unfold wrap. apply Z.mod_mod_divide.
  exists (2 ^ (t - w)). rewrite <- Z.pow_add_r by lia. f_equal. lia.
Qed.
(** Lifts arithmetic and logic to residues. *)
Lemma add_mod w x y x' y' : x mod 2 ^ w = x' mod 2 ^ w → y mod 2 ^ w = y' mod 2 ^ w → (x + y) mod 2 ^ w = (x' + y') mod 2 ^ w.
Proof. intros Hx Hy. by rewrite Zplus_mod, Hx, Hy, <- Zplus_mod. Qed.
Lemma sub_mod w x y x' y' : x mod 2 ^ w = x' mod 2 ^ w → y mod 2 ^ w = y' mod 2 ^ w → (x - y) mod 2 ^ w = (x' - y') mod 2 ^ w.
Proof. intros Hx Hy. by rewrite Zminus_mod, Hx, Hy, <- Zminus_mod. Qed.
Lemma mul_mod w x y x' y' : x mod 2 ^ w = x' mod 2 ^ w → y mod 2 ^ w = y' mod 2 ^ w → (x * y) mod 2 ^ w = (x' * y') mod 2 ^ w.
Proof. intros Hx Hy. by rewrite Zmult_mod, Hx, Hy, <- Zmult_mod. Qed.
Lemma lxor_mod w x y : 0 ≤ w → Z.lxor x y mod 2 ^ w = Z.lxor (x mod 2 ^ w) (y mod 2 ^ w).
Proof.
  intros Hw. apply Z.bits_inj'. intros n Hn. rewrite Z.lxor_spec. destruct (decide (n < w)).
  - by rewrite !Z.mod_pow2_bits_low, Z.lxor_spec by lia.
  - by rewrite !Z.mod_pow2_bits_high by lia.
Qed.

(** * Signed values *)
Lemma wrap_signed w x : 0 < w → wrap w (signed w x) = wrap w x.
Proof.
  intros Hw. unfold signed, wrap. cbn zeta. destruct (_ <? _); [by rewrite Z.mod_mod by lia|].
  replace (x mod 2 ^ w - 2 ^ w) with (x mod 2 ^ w + (-1) * 2 ^ w) by lia. by rewrite Z.mod_add, Z.mod_mod by lia.
Qed.
Lemma signed_range w x : 0 < w → - 2 ^ (w - 1) ≤ signed w x < 2 ^ (w - 1).
Proof.
  intros Hw. unfold signed, wrap. cbn zeta. pose proof (Z.mod_pos_bound x (2 ^ w)).
  assert (2 ^ w = 2 * 2 ^ (w - 1)) by (rewrite <- Z.pow_succ_r by lia; f_equal; lia).
  destruct (_ <? _) eqn:E; lia.
Qed.
Lemma signed_wrap w x : 0 < w → - 2 ^ (w - 1) ≤ x < 2 ^ (w - 1) → signed w (wrap w x) = x.
Proof.
  intros Hw Hx. assert (2 ^ w = 2 * 2 ^ (w - 1)) by (rewrite <- Z.pow_succ_r by lia; f_equal; lia).
  unfold signed, wrap. cbn zeta. rewrite Z.mod_mod by lia. destruct (decide (0 ≤ x)).
  - rewrite Z.mod_small by lia. by replace (x <? 2 ^ (w - 1)) with true by lia.
  - replace (x mod 2 ^ w) with (x + 2 ^ w).
    + replace (x + 2 ^ w <? 2 ^ (w - 1)) with false by lia. lia.
    + rewrite <- (Z.mod_add x 1) by lia. rewrite Z.mod_small by lia. lia.
Qed.
(** Sign extension to a wider word keeps the signed value. *)
Lemma signed_extend w t x : 0 < w ≤ t → signed t (wrap t (signed w x)) = signed w x.
Proof.
  intros Hw. apply signed_wrap; [lia|]. pose proof (signed_range w x).
  assert (2 ^ (w - 1) ≤ 2 ^ (t - 1)) by (apply Z.pow_le_mono_r; lia). lia.
Qed.
Lemma mod_extend w t x : 0 < w ≤ t → wrap t (signed w x) mod 2 ^ w = x mod 2 ^ w.
Proof. intros Hw. rewrite mod_wrap by lia. apply wrap_signed. lia. Qed.
Lemma signed_fits w x : 0 < w → fits w x → signed w x = if x <? 2 ^ (w - 1) then x else x - 2 ^ w.
Proof. intros Hw Hx. unfold signed. by rewrite wrap_id. Qed.
Lemma signed_eq_iff w x y : 0 < w → fits w x → fits w y → signed w x = signed w y ↔ x = y.
Proof.
  intros Hw Hx Hy. split; [|by intros ->]. intros E. apply (f_equal (wrap w)) in E.
  rewrite !wrap_signed in E by done. by rewrite !wrap_id in E.
Qed.

(** * Bits *)
Lemma top_bit w x : 0 < w → Z.testbit x (w - 1) = (2 ^ (w - 1) <=? x mod 2 ^ w).
Proof.
  intros Hw. pose proof (Z.mod_pos_bound x (2 ^ w)). assert (2 ^ w = 2 * 2 ^ (w - 1))
    by (rewrite <- Z.pow_succ_r by lia; f_equal; lia).
  rewrite <- (Z.mod_pow2_bits_low x w) by lia. rewrite Z.testbit_eqb by lia.
  destruct (2 ^ (w - 1) <=? x mod 2 ^ w) eqn:E.
  - replace (x mod 2 ^ w / 2 ^ (w - 1)) with 1; [done|].
    apply (Z.div_unique _ _ _ (x mod 2 ^ w - 2 ^ (w - 1))); lia.
  - by rewrite Z.div_small by lia.
Qed.
Lemma land_top_bit x k : 0 ≤ k → (Z.land x (2 ^ k) =? 0) = negb (Z.testbit x k).
Proof.
  intros Hk. destruct (Z.testbit x k) eqn:E; cbn.
  - apply Z.eqb_neq. intros E0. assert (Z.testbit (Z.land x (2 ^ k)) k = false) as Hf by (rewrite E0; apply Z.bits_0).
    rewrite Z.land_spec, E, Z.pow2_bits_true in Hf by done. done.
  - apply Z.eqb_eq, Z.bits_inj'. intros j Hj. rewrite Z.land_spec, Z.bits_0, Z.pow2_bits_eqb by done.
    destruct (k =? j) eqn:Ek; [|apply andb_false_r]. replace j with k by lia. by rewrite E.
Qed.
Lemma pos_ones_bound p : 1 ≤ pos_ones p ≤ Z.log2 (Zpos p) + 1.
Proof.
  induction p as [p IH|p IH|]; cbn [pos_ones]; [| |cbn; lia].
  - rewrite Pos2Z.inj_xI, Z.log2_succ_double by lia. lia.
  - rewrite Pos2Z.inj_xO, Z.log2_double by lia. lia.
Qed.
Lemma popcount_bound w x : 0 ≤ w → fits w x → 0 ≤ popcount x ≤ w.
Proof.
  intros Hw [H0 Hx]. destruct x as [|p|p]; cbn [popcount]; [lia| |lia]. pose proof (pos_ones_bound p).
  assert (Z.log2 (Zpos p) < w) by (apply Z.log2_lt_pow2; lia). lia.
Qed.
Lemma leading_zeros_bound w x : 0 ≤ w → fits w x → 0 ≤ leading_zeros w x ≤ w.
Proof.
  intros Hw [H0 Hx]. unfold leading_zeros. destruct (x =? 0) eqn:E; [lia|].
  assert (Z.log2 x < w) by (apply Z.log2_lt_pow2; lia). pose proof (Z.log2_nonneg x). lia.
Qed.
Lemma leading_zeros_adjust t w x : leading_zeros t x - (t - w) = leading_zeros w x.
Proof. unfold leading_zeros. destruct (x =? 0); lia. Qed.

(** * Carries *)
Lemma carry_word w x y : 0 < w → fits w x → fits w y → (wrap w (x + y) <? x) = (2 ^ w <=? x + y).
Proof.
  intros Hw Hx Hy. unfold fits, wrap in *. destruct (2 ^ w <=? x + y) eqn:E.
  - replace ((x + y) mod 2 ^ w) with (x + y - 2 ^ w); [lia|].
    rewrite <- (Z.mod_add _ (-1)) by lia. rewrite Z.mod_small by lia. lia.
  - rewrite Z.mod_small by lia. lia.
Qed.
Ltac cases_lia :=
  repeat match goal with |- context [if ?a <? ?b then _ else _] => destruct (Z.ltb_spec a b) end;
  repeat match goal with
  | |- context [?a <=? ?b] => destruct (Z.leb_spec a b)
  | |- context [?a <? ?b] => destruct (Z.ltb_spec a b)
  end; first [done|exfalso; lia].
(** The sign of the sum differs from the signs of both operands. *)
Lemma signed_carry_word w x y s :
  0 < w → fits w x → fits w y → s mod 2 ^ w = (x + y) mod 2 ^ w →
  Z.testbit (Z.land (Z.lxor x s) (Z.lxor y s)) (w - 1) = overflows w (signed w x + signed w y).
Proof.
  intros Hw Hx Hy Hs. rewrite Z.land_spec, !Z.lxor_spec, !top_bit by done. rewrite Hs, !signed_fits by done.
  rewrite (Z.mod_small x), (Z.mod_small y) by done. unfold fits in *.
  assert (2 ^ w = 2 * 2 ^ (w - 1)) as Hp by (rewrite <- Z.pow_succ_r by lia; f_equal; lia).
  unfold overflows. rewrite Hp in *. set (h := 2 ^ (w - 1)) in *.
  assert (0 ≤ x + y < 2 * h ∨ 2 * h ≤ x + y) as [E|E] by lia.
  - rewrite (Z.mod_small (x + y)) by lia. cases_lia.
  - replace ((x + y) mod (2 * h)) with (x + y - 2 * h)
      by (rewrite <- (Z.mod_add _ (-1)) by lia; rewrite Z.mod_small by lia; lia). cases_lia.
Qed.
(** The operands' signs differ and the difference does not have the first one's. *)
Lemma signed_borrow_word w x y d :
  0 < w → fits w x → fits w y → d mod 2 ^ w = (x - y) mod 2 ^ w →
  Z.testbit (Z.land (Z.lxor x y) (Z.lxor x d)) (w - 1) = overflows w (signed w x - signed w y).
Proof.
  intros Hw Hx Hy Hs. rewrite Z.land_spec, !Z.lxor_spec, !top_bit by done. rewrite Hs, !signed_fits by done.
  rewrite (Z.mod_small x), (Z.mod_small y) by done. unfold fits in *.
  assert (2 ^ w = 2 * 2 ^ (w - 1)) as Hp by (rewrite <- Z.pow_succ_r by lia; f_equal; lia).
  unfold overflows. rewrite Hp in *. set (h := 2 ^ (w - 1)) in *.
  assert (0 ≤ x - y ∨ x - y < 0) as [E|E] by lia.
  - rewrite (Z.mod_small (x - y)) by lia. cases_lia.
  - replace ((x - y) mod (2 * h)) with (x - y + 2 * h)
      by (rewrite <- (Z.mod_add _ 1) by lia; rewrite Z.mod_small by lia; lia). cases_lia.
Qed.

(** The simulation between emitted code and the interpreter: what it means for a
    wasm store to hold a processor's state, which operands the compiler may be
    given, and what the emitters of loads and stores do. *)
(** What the inline memory path relies on: the softmmu's translation cache lies
    at [tlb] in linear memory, an entry whose tag matches leads to the page's
    bytes and permissions, and an access they grant is the checked access.
    [inv] is the softmmu's own invariant. *)
Class SoftmmuLaws (G : Type) `{Softmmu G} (base limit tlb : Z) := {
  mmu_inv : G → Prop;
  mmu_read_inv g a n g' r : mmu_inv g → mmu_read g a n = (g', r) → mmu_inv g';
  mmu_write_inv g a l g' r : mmu_inv g → mmu_write g a l = (g', r) → mmu_inv g';
  mmu_read_bytes g a n g' l :
    mmu_inv g → word_size n = true → mmu_read g a n = (g', inl l) → byte_list l ∧ zlen l = n;
  mmu_read_code g a n g' code : mmu_inv g → mmu_read g a n = (g', inr code) → code ≠ 0;
  mmu_write_code g a l g' code : mmu_inv g → mmu_write g a l = (g', Some code) → code ≠ 0;
  tlb_place : 0 ≤ tlb ∧ tlb + 2 * TLB_WRITE_ARRAY_OFFSET ≤ limit ∧ host_at base tlb (2 * TLB_WRITE_ARRAY_OFFSET);
  page_place g (write : bool) a n :
    let entry := tlb + (a / 4096) mod 1024 * 16 + (if write then TLB_WRITE_ARRAY_OFFSET else 0) in
    let data := wrap 32 (a + le_val (host_read g (entry + 8) 8)) in
    mmu_inv g → word_size n = true → is_u64 a → a mod 4096 + n ≤ 4096 →
    le_val (host_read g entry 8) = Z.land a TLB_TAG_MASK →
    data + PAGE_PERM_OFFSET + n ≤ limit ∧ host_at base data n ∧ host_at base (data + PAGE_PERM_OFFSET) n;
  page_read g a n :
    let entry := tlb + (a / 4096) mod 1024 * 16 in
    let data := wrap 32 (a + le_val (host_read g (entry + 8) 8)) in
    let mask := perm_mask_word PERM_READ_INIT (Z.to_nat n) in
    mmu_inv g → word_size n = true → is_u64 a → a mod 4096 + n ≤ 4096 →
    le_val (host_read g entry 8) = Z.land a TLB_TAG_MASK →
    Z.land (le_val (host_read g (data + PAGE_PERM_OFFSET) (Z.to_nat n))) mask = mask →
    mmu_read g a n = (g, inl (host_read g data (Z.to_nat n)));
  page_write g a n x :
    let entry := tlb + (a / 4096) mod 1024 * 16 + TLB_WRITE_ARRAY_OFFSET in
    let data := wrap 32 (a + le_val (host_read g (entry + 8) 8)) in
    let mask := perm_mask_word PERM_WRITE_INIT (Z.to_nat n) in
    mmu_inv g → word_size n = true → is_u64 a → a mod 4096 + n ≤ 4096 →
    le_val (host_read g entry 8) = Z.land a TLB_TAG_MASK →
    Z.land (le_val (host_read g (data + PAGE_PERM_OFFSET) (Z.to_nat n))) mask = mask →
    mmu_write g a (le_bytes (Z.to_nat n) x) = (host_write g data (le_bytes (Z.to_nat n) x), None)
}.
(** What [f != f] and [f >= 2^31] decide about a 64-bit float. *)
Class FloatLaws `{Floats} := {
  fl_eq_refl n x : float_size n = true → fl_eq n x x = negb (fl_is_nan n x);
  fl_ge_31 x : fl_le 8 F64_2_31 x = negb (fl_is_nan 8 x) && (2 ^ 31 <=? fl_int 8 x);
  fl_ge_63 x : fl_le 8 F64_2_63 x = negb (fl_is_nan 8 x) && (2 ^ 63 <=? fl_int 8 x)
}.

Section sim.
Context `{Arch} `{Floats} {G : Type} `{Softmmu G} (base limit tlb : Z) `{!SoftmmuLaws G base limit tlb}.
Abbreviation mk := (W.Build_cfg G).
Abbreviation runs := (runs base limit).
Implicit Types (s : W.store G) (c : Cpu G) (L st : list W.val).

(** Compiled code leaves the program counter to its caller. *)
Definition pc_offset : Z := regs_var_offset reg_pc.
Definition in_pc (j : Z) : Prop := pc_offset ≤ j < pc_offset + 8.
Definition agrees (s : W.store G) (c : Cpu G) : Prop :=
  same in_pc (W.s_regs s) (c_regs c) ∧ W.s_mem s = c_mem c ∧ W.s_exc s = c_exc c ∧ mmu_inv (c_mem c).

(** * Operands *)
Definition var_ok (x : VarNode) : Prop :=
  0 ≤ v_size x ∧ 0 ≤ regs_var_offset x ∧ regs_var_offset x + v_size x ≤ REG_SPACE_BYTES ∧
  visible in_pc (regs_var_offset x) (v_size x).
Definition value_ok (v : Value) : Prop :=
  match v with Var x => var_ok x | Const z n => is_u64 z ∧ (n = 1 ∨ n = 2 ∨ n = 4 → fits (8 * n) z) end.
Definition ty (n : Z) : W.ValType := if n =? 8 then W.I64 else W.I32.

Lemma var_offset_ok x : var_ok x → var_offset x = regs_var_offset x.
Proof.
  intros (? & ? & ? & _). unfold var_offset, regs_var_offset, REG_OFFSET, REG_SPACE_BYTES, wrap in *.
  rewrite Z.mod_small; lia.
Qed.
Lemma get_read s c v n :
  agrees s c → value_ok v → 0 ≤ n ≤ size_of v → read (W.s_regs s) v n = get c v n.
Proof.
  intros (Hr & _) Hv Hn. destruct v as [x|z k]; [|done]. cbn in *. eapply same_read_reg; [exact Hr|].
  intros j Hj. apply Hv. lia.
Qed.

(** * Locals *)
Definition fast_ok (fast : FastLocals) : Prop :=
  (2 ≤ fast_addr fast)%nat ∧ fast_entry fast = (fast_addr fast + 1)%nat ∧
  fast_data fast = (fast_addr fast + 2)%nat ∧ fast_wide fast = (fast_addr fast + 3)%nat.
Definition scratch_types : list W.ValType := [W.I64; W.I32; W.I32; W.I64; W.I64; W.I64; W.I64; W.I64; W.I64].
Record locals_ok (fast : FastLocals) (L : list W.val) : Prop := {
  l_base : L !! REGS_BASE_PARAM = Some (W.I32, base);
  l_tlb : L !! TLB_BASE_PARAM = Some (W.I32, tlb);
  l_scratch k t : scratch_types !! k = Some t → ∃ x, L !! (fast_addr fast + k)%nat = Some (t, x)
}.
Definition kept (fast : FastLocals) (L L' : list W.val) : Prop := ∀ k, (k < fast_addr fast)%nat → L' !! k = L !! k.
Lemma kept_refl fast L : kept fast L L.
Proof. done. Qed.
Lemma kept_trans fast L1 L2 L3 : kept fast L1 L2 → kept fast L2 L3 → kept fast L1 L3.
Proof. intros H12 H23 k Hk. rewrite H23 by done. by apply H12. Qed.
Lemma kept_set fast L L' k v : kept fast L L' → kept fast L (<[(fast_addr fast + k)%nat := v]> L').
Proof. intros HL j Hj. rewrite list_lookup_insert_ne by lia. by apply HL. Qed.
Lemma locals_set fast L k t x :
  fast_ok fast → locals_ok fast L → scratch_types !! k = Some t →
  locals_ok fast (<[(fast_addr fast + k)%nat := (t, x)]> L).
Proof.
  intros (Hf & _) HL Hk. split.
  - rewrite list_lookup_insert_ne by (unfold REGS_BASE_PARAM; lia). by apply (l_base fast L).
  - rewrite list_lookup_insert_ne by (unfold TLB_BASE_PARAM; lia). by apply (l_tlb fast L).
  - intros j t' Hj. destruct (decide (j = k)) as [->|Hjk].
    + rewrite Hk in Hj. injection Hj as <-. exists x.
      destruct (l_scratch fast L HL k t Hk) as [y Hy]. apply list_lookup_insert_eq. by eapply lookup_lt_Some.
    + rewrite list_lookup_insert_ne by lia. by apply (l_scratch fast L HL).
Qed.

(** * What an instruction must do *)
Definition report_value (region_iter : option nat) (L st : list W.val) : Prop :=
  match region_iter with Some k => ∃ v st', L !! k = Some v ∧ st = v :: st' | None => True end.
Definition simulates (code : W.code) (index : Z) (region_iter : option nat) (fast : FastLocals) (st L : list W.val)
    (s : W.store G) (c' : Cpu G) : Prop :=
  if exc_code (c_exc c') =? ExceptionCode.NoException then
    ∃ L' s', runs code (mk st L s) (W.Next (mk st L' s')) ∧ agrees s' c' ∧ locals_ok fast L' ∧ kept fast L L' ∧
             W.s_fault s' = W.s_fault s
  else
    ∃ st' L' s', runs code (mk st L s) (W.Returned (mk st' L' s')) ∧ agrees s' c' ∧ kept fast L L' ∧
                 report_value region_iter L st' ∧ W.s_fault s' = Some index.

(** * Loads and stores of registers *)
Definition operand_ok (v : Value) (n : Z) : Prop :=
  match v with
  | Var x => 0 ≤ regs_var_offset x ∧ regs_var_offset x + n ≤ REG_SPACE_BYTES
  | Const z _ => is_u64 z ∧ (n = 8 ∨ fits (8 * n) z)
  end.
Lemma wasm_ty_cases n t : wasm_ty n = Some t → (n = 1 ∨ n = 2 ∨ n = 4 ∨ n = 8) ∧ t = ty n.
Proof.
  unfold wasm_ty, ty. destruct (bool_decide (n ∈ [1; 2; 4])) eqn:E.
  - apply bool_decide_eq_true in E. intros [= <-]. assert (n = 1 ∨ n = 2 ∨ n = 4) as Hn by set_solver.
    split; [naive_solver|]. by destruct Hn as [->|[->| ->]].
  - destruct (n =? 8) eqn:En; [|done]. intros [= <-]. split; [lia|done].
Qed.
Lemma value_operand v n : value_ok v → n = size_of v → is_Some (wasm_ty n) → operand_ok v n.
Proof.
  intros Hv -> [t [Hn _]%wasm_ty_cases]. destruct v as [x|z k]; cbn in *.
  - destruct Hv as (? & ? & ? & _). done.
  - split; [apply Hv|]. destruct Hv as [_ Hv]. destruct Hn as [->|[->|[->| ->]]]; auto.
Qed.
Lemma regs_offset x n :
  0 ≤ regs_var_offset x → 0 ≤ n → regs_var_offset x + n ≤ REG_SPACE_BYTES → var_offset x = regs_var_offset x.
Proof.
  intros. unfold var_offset, regs_var_offset, REG_OFFSET, REG_SPACE_BYTES, wrap in *. rewrite Z.mod_small; lia.
Qed.

Context (Hlimit : base + REG_SPACE_BYTES ≤ limit).
Lemma runs_emit_load v n l rest st L s o :
  emit_load v n = Ok l → L !! REGS_BASE_PARAM = Some (W.I32, base) → operand_ok v n →
  runs rest (mk ((ty n, read (W.s_regs s) v n) :: st) L s) o → runs (l ++ rest) (mk st L s) o.
Proof.
  intros Hl Hb Hv Hr. unfold emit_load in Hl. apply rbind_Ok in Hl as (t & Ht & Hl).
  apply ok_or_Ok in Ht. destruct (wasm_ty_cases _ _ Ht) as [Hn ->]. destruct v as [x|z k]; cbn in Hv.
  - unfold cat in Hl. apply rbind_Ok in Hl as (? & [= <-] & Hl). apply rbind_Ok in Hl as (? & Hi & [= <-]).
    apply rbind_Ok in Hi as (i & Hi & [= <-]). apply ok_or_Ok in Hi. eapply runs_get; [exact Hb|].
    destruct Hv as [Hv1 Hv2].
    assert (W.load_width i = Some (ty n, n, reg_arg x)) as Hw.
    { unfold load_instr in Hi. by destruct Hn as [->|[->|[->| ->]]]; cbn in Hi; simplify_eq. }
    eapply runs_load; [exact Hw|unfold reg_arg; cbn; rewrite (regs_offset x n) by lia; lia|].
    unfold reg_arg; cbn [W.m_offset raw_arg]. rewrite (regs_offset x n) by lia.
    rewrite lin_read_regs by lia. exact Hr.
  - destruct Hv as [Hz Hv]. injection Hl as <-. cbn [app]. cbn in Hr. unfold ty in *.
    destruct Hn as [->|[->|[->| ->]]]; cbn [Z.eqb Pos.eqb is_i64] in *;
      rewrite ?bool_decide_true, ?bool_decide_false by done; (apply runs_i32 || apply runs_i64);
      unfold as_i32, as_i64; rewrite wrap_signed by lia; rewrite wrap_id in Hr |- *; try done;
      destruct Hv as [Hv|Hv]; try done; eapply fits_weaken; [|exact Hv| |exact Hv]; lia.
Qed.
Lemma runs_emit_store out l st L s t n x :
  emit_store out = Ok l → n = v_size out → t = ty n → 0 ≤ regs_var_offset out → regs_var_offset out + v_size out ≤ REG_SPACE_BYTES →
  runs l (mk ((t, x) :: (W.I32, base) :: st) L s)
    (W.Next (mk st L (set_regs (write (W.s_regs s) out n x) s))).
Proof.
  intros Hl -> -> Ho1 Ho2. unfold emit_store in Hl. apply rbind_Ok in Hl as (t & Ht & Hl).
  apply ok_or_Ok in Ht. destruct (wasm_ty_cases _ _ Ht) as [Hn _].
  apply rbind_Ok in Hl as (i & Hi & [= <-]). apply ok_or_Ok in Hi.
  assert (W.store_width i = Some (ty (v_size out), v_size out, reg_arg out)) as Hw.
  { unfold store_instr in Hi. by destruct Hn as [Hn|[Hn|[Hn|Hn]]]; rewrite Hn in *; cbn in Hi; simplify_eq. }
  eapply runs_store; [exact Hw|unfold reg_arg; cbn; rewrite (regs_offset out (v_size out)) by lia; lia|].
  unfold reg_arg; cbn [W.m_offset raw_arg]. rewrite (regs_offset out (v_size out)) by lia.
  rewrite lin_write_regs; [apply runs_nil|lia|]. rewrite zlen_le_bytes. lia.
Qed.

(** * Peeling the emitters *)
Lemma cat_Ok (m m' : emit) code : cat m m' = Ok code → ∃ l l', m = Ok l ∧ m' = Ok l' ∧ code = l ++ l'.
Proof. intros Hc. apply rbind_Ok in Hc as (l & Hl & Hc). apply rbind_Ok in Hc as (l' & Hl' & [= <-]). eauto. Qed.
Lemma unless_Ok b (m : emit) code : unless b m = Ok code → b = false ∧ m = Ok code.
Proof. by destruct b. Qed.
Lemma bail_Ok {A} (o : option A) x : bail o = Ok x → o = Some x.
Proof. apply ok_or_Ok. Qed.
Lemma ops_Ok l code : ops l = Ok code → code = l.
Proof. by intros [= <-]. Qed.

(** * Results *)
Lemma agrees_write s c out n x x' :
  0 ≤ n → agrees s c → x mod 2 ^ (8 * n) = x' mod 2 ^ (8 * n) →
  agrees (set_regs (write (W.s_regs s) out n x) s) (put out n x' c).
Proof.
  intros Hn (Hr & Hm & He & Hi) Hx. split; [|done]. cbn. unfold write.
  rewrite (write_reg_mod _ _ _ x x') by done. by rewrite Hr.
Qed.
(** An instruction that only computes a register. *)
Lemma simulates_put code index it fast st L L' s c out n x x' :
  0 ≤ n → agrees s c → exc_code (c_exc c) = 0 → locals_ok fast L' → kept fast L L' →
  runs code (mk st L s) (W.Next (mk st L' (set_regs (write (W.s_regs s) out n x) s))) →
  x mod 2 ^ (8 * n) = x' mod 2 ^ (8 * n) →
  simulates code index it fast st L s (put out n x' c).
Proof.
  intros Hn Ha He HL Hk Hr Hx. unfold simulates. cbn [put with_regs c_exc]. rewrite He. cbn [Z.eqb].
  exists L', (set_regs (write (W.s_regs s) out n x) s). split_and!; [done|by apply agrees_write|done..].
Qed.
End sim.

Ltac peel H :=
  repeat match type of H with
  | cat _ _ = Ok _ =>
      let l := fresh "l" in let l' := fresh "l'" in let Hl := fresh "Hl" in
      apply cat_Ok in H as (l & l' & Hl & H & ->); peel Hl
  | rbind _ _ = Ok _ =>
      let x := fresh "x" in let Hx := fresh "Hx" in apply rbind_Ok in H as (x & Hx & H); peel Hx
  | unless _ _ = Ok _ => let Hc := fresh "Hc" in apply unless_Ok in H as [Hc H]
  | bail _ = Ok _ => apply bail_Ok in H
  | ops _ = Ok _ => apply ops_Ok in H; subst
  | emit_store_addr = Ok _ => apply ops_Ok in H; subst
  | emit_regs_base = Ok _ => apply ops_Ok in H; subst
  | Ok _ = Ok _ => injection H as H; subst
  end.
