(* ===== verification/JitArms.v ===== *)
(** The arms of the compiler that stay in registers: integers, 128-bit operations in
    two lanes, floats. *)

From S2P Require Import Prelude Cpu Pcode Wasm Jit JitSim.

(** Every integer arm of [translate_instruction] against the interpreter. *)
(** Widths. *)
Definition width (n : Z) : Z := if n =? 8 then 64 else 32.
Lemma get_fits {G} (c : Cpu G) v n : 0 ≤ n → fits (8 * n) (get c v n).
Proof. apply read_fits. Qed.
Lemma int_size_cases n : n = 1 ∨ n = 2 ∨ n = 4 ∨ n = 8 → int_size n = true.
Proof. by intros [->|[->|[->| ->]]]. Qed.
Lemma put_trunc_put {G} (c : Cpu G) out x :
  v_size out = 1 ∨ v_size out = 2 ∨ v_size out = 4 ∨ v_size out = 8 ∨ v_size out = 16 →
  put_trunc out x c = put out (v_size out) x c.
Proof.
  intros Hn. unfold put_trunc, put, write_trunc. rewrite bool_decide_true; [done|].
  destruct Hn as [->|[->|[->|[->| ->]]]]; cbn; set_solver.
Qed.
Lemma read_dynamic_get {G} (c : Cpu G) v :
  size_of v = 1 ∨ size_of v = 2 ∨ size_of v = 4 ∨ size_of v = 8 ∨ size_of v = 16 →
  read_dynamic (c_regs c) v = (get c v (size_of v), size_of v).
Proof.
  intros Hn. unfold read_dynamic. rewrite bool_decide_true; [done|].
  destruct Hn as [->|[->|[->|[->| ->]]]]; cbn; set_solver.
Qed.
Lemma zxt_get {G} (c : Cpu G) w v :
  size_of v = 1 ∨ size_of v = 2 ∨ size_of v = 4 ∨ size_of v = 8 ∨ size_of v = 16 →
  zxt w (read_dynamic (c_regs c) v) = wrap w (get c v (size_of v)).
Proof. intros Hn. by rewrite read_dynamic_get. Qed.
Lemma word_size_cases n : n = 1 ∨ n = 2 ∨ n = 4 ∨ n = 8 → word_size n = true.
Proof. by intros [->|[->|[->| ->]]]. Qed.
Lemma signed_width n x : n = 1 ∨ n = 2 ∨ n = 4 ∨ n = 8 → signed (width n) (wrap (width n) (signed (8 * n) x)) = signed (8 * n) x.
Proof. intros Hn. unfold width. destruct (n =? 8) eqn:E; apply signed_extend; lia. Qed.
Lemma is_i64_ty n : is_i64 (ty n) = (n =? 8).
Proof. unfold is_i64, ty. by destruct (n =? 8). Qed.
Lemma narrow_sum n x : n = 1 ∨ n = 2 → Z.land (wrap 32 x) (wrap 32 (as_i32 (2 ^ (n * 8) - 1))) = wrap (8 * n) x.
Proof.
  intros Hn. assert (wrap 32 (as_i32 (2 ^ (n * 8) - 1)) = Z.ones (8 * n)) as ->.
  { unfold as_i32. rewrite wrap_signed by lia. by destruct Hn as [->| ->]. }
  rewrite Z.land_ones by lia. apply mod_wrap. lia.
Qed.
Lemma width_mod n x : n = 1 ∨ n = 2 ∨ n = 4 ∨ n = 8 → wrap (width n) x mod 2 ^ (8 * n) = x mod 2 ^ (8 * n).
Proof. intros Hn. apply mod_wrap. unfold width. destruct (n =? 8) eqn:E; lia. Qed.
Lemma extends_inv o' out a b :
  word_size (size_of a) = true → int_size (v_size out) = true → size_of a < v_size out → size_of b = 0 →
  Interp.extends {| i_op := o'; i_a := a; i_b := b; i_out := out |} = true.
Proof. intros Hsa Ho Hlt Hsb. unfold Interp.extends. cbn. rewrite Hsa, Ho, Hsb. cbn. lia. Qed.

Section arms.
Context `{Arch} `{Floats} {G : Type} `{Softmmu G} `{Escapes G} (base limit tlb : Z) `{!SoftmmuLaws G base limit tlb}.
Context (Hlimit : base + REG_SPACE_BYTES ≤ limit).
Abbreviation mk := (W.Build_cfg G).
Abbreviation runs := (runs base limit).

Context (o : Op.op) (out : VarNode) (a b : Value) (index : Z) (has_host : bool) (it : option nat) (fast : FastLocals).
Context (st L : list W.val) (s : W.store G) (c : Cpu G).
Context (Hout : var_ok out) (Ha : value_ok a) (Hb : value_ok b).
Context (Hfast : fast_ok fast) (HL : locals_ok base tlb fast L).
Context (Hag : agrees base limit tlb s c) (He : exc_code (c_exc c) = 0).
Abbreviation i := {| i_op := o; i_a := a; i_b := b; i_out := out |}.
Abbreviation sim code c' := (simulates base limit tlb code index it fast st L s c').


(** Reads the code from the front. *)
Ltac operand := apply value_operand; [assumption|congruence|eexists; eassumption].
Ltac front :=
  match goal with
  | |- JitSim.runs _ _ (W.LocalGet REGS_BASE_PARAM :: _) _ _ => eapply runs_get; [exact (l_base _ _ _ _ HL)|]
  | H : emit_load ?v ?n = Ok ?l |- JitSim.runs _ _ (?l ++ _) _ _ =>
      eapply runs_emit_load; [exact Hlimit|exact H|exact (l_base _ _ _ _ HL)|operand|]; rewrite (get_read base limit tlb s c) by (done || lia)
  | H : emit_store ?v = Ok ?l |- JitSim.runs _ _ ?l _ _ =>
      eapply runs_emit_store; [exact Hlimit|exact H|first [done|lia|congruence]|first [done|by unfold ty; match goal with E : (_ =? 8) = _ |- _ => rewrite E end|idtac]|apply Hout..]
  | |- JitSim.runs _ _ (W.I32Const _ :: _) _ _ => apply runs_i32
  | |- JitSim.runs _ _ (W.I64Const _ :: _) _ _ => apply runs_i64
  | |- JitSim.runs _ _ (W.Select :: _) _ _ => apply runs_select
  | |- JitSim.runs _ _ (_ :: _) (mk ((?t, _) :: (?t, _) :: _) _ _) _ => eapply runs_binop; [reflexivity..|]
  | |- JitSim.runs _ _ (_ :: _) (mk ((?t, _) :: _) _ _) _ => eapply runs_unop; [reflexivity..|]
  end.
Lemma same_width_inv n :
  same_width out a b = Ok n →
  n = v_size out ∧ size_of a = n ∧ size_of b = n ∧ (n = 1 ∨ n = 2 ∨ n = 4 ∨ n = 8) ∧ wasm_ty n = Some (ty n).
Proof.
  unfold same_width. intros Hn. peel Hn. destruct (wasm_ty_cases _ _ Hx) as [Hc ->].
  destruct (_ || _) eqn:E in Hn; [done|]. injection Hn as <-. bool_to_prop. split_and!; congruence || lia || done.
Qed.
Lemma same_width_run op32 op64 f32 f64 z code :
  W.binop op32 = Some (W.I32, W.I32, f32) → W.binop op64 = Some (W.I64, W.I64, f64) →
  same_width_op out a b op32 op64 = Ok code →
  (if v_size out =? 8 then f64 else f32) (get c a (v_size out)) (get c b (v_size out)) = Some z →
  runs code (mk st L s) (W.Next (mk st L (set_regs (write (W.s_regs s) out (v_size out) z) s))).
Proof.
  intros H32 H64 Hc Hz. unfold same_width_op in Hc. peel Hc.
  apply same_width_inv in Hx as (-> & Hsa & Hsb & Hn & Ht). cbn [app]. front. front. front.
  unfold ty. destruct (v_size out =? 8) eqn:E;
    (eapply runs_binop; [done|exact Hz|]); front.
Qed.
Definition matches (f32 f64 : Z → Z → option Z) (f : Z → Z → Z → option Z) : Prop :=
  ∀ n x y z, n = 1 ∨ n = 2 ∨ n = 4 ∨ n = 8 → fits (8 * n) x → fits (8 * n) y → f (8 * n) x y = Some z →
  ∃ z', (if n =? 8 then f64 else f32) x y = Some z' ∧ z' mod 2 ^ (8 * n) = z mod 2 ^ (8 * n).
Ltac put_arm := eapply simulates_put; [first [lia|idtac]|exact Hag|exact He|exact HL|apply kept_refl| |].
Lemma sim_binary op32 op64 f32 f64 code c' :
  W.binop op32 = Some (W.I32, W.I32, f32) → W.binop op64 = Some (W.I64, W.I64, f64) →
  matches f32 f64 (int_op o) →
  same_width_op out a b op32 op64 = Ok code → Interp.binary i c = Some c' → sim code c'.
Proof.
  intros H32 H64 Hm Hc Hi. destruct (same_width out a b) as [n| |] eqn:Hw; unfold same_width_op in Hc; rewrite Hw in Hc;
    try discriminate Hc.
  assert (same_width_op out a b op32 op64 = Ok code) as Hc' by (unfold same_width_op; by rewrite Hw).
  apply same_width_inv in Hw as (-> & Hsa & Hsb & Hn & _). unfold Interp.binary in Hi. cbn in Hi.
  rewrite Hsa, Hsb, int_size_cases, !Z.eqb_refl in Hi by done. cbn [andb] in Hi.
  apply bind_Some in Hi as (z & Hz & [= <-]).
  destruct (Hm (v_size out) (get c a (v_size out)) (get c b (v_size out)) z) as (z' & Hz' & Hzz);
    [done|apply get_fits; lia..|done|].
  put_arm; [by eapply same_width_run|exact Hzz].
Qed.

(** Sign extension within the wasm type. *)
Lemma runs_sign_fill n x rest st' L' s' r :
  n = 1 ∨ n = 2 ∨ n = 4 ∨ n = 8 → fits (8 * n) x →
  runs rest (mk ((ty n, wrap (width n) (signed (8 * n) x)) :: st') L' s') r →
  runs (sign_fill n ++ rest) (mk ((ty n, x) :: st') L' s') r.
Proof.
  intros [->|[->|[->| ->]]] Hx Hr; cbn [sign_fill app ty Z.eqb Pos.eqb] in *;
    [eapply runs_unop; [done|exact Hr]..| |]; unfold width in Hr; cbn [Z.eqb Pos.eqb Z.mul Pos.mul] in *;
    rewrite wrap_signed, wrap_id in Hr by (done || lia); exact Hr.
Qed.

(** ** Comparisons *)
Definition decides (f32 f64 : Z → Z → option Z) (f : Z → Z → Z → option bool) (ext : Z → Z → Z) : Prop :=
  ∀ n x y z, n = 1 ∨ n = 2 ∨ n = 4 ∨ n = 8 → fits (8 * n) x → fits (8 * n) y → f (8 * n) x y = Some z →
  (if n =? 8 then f64 else f32) (ext n x) (ext n y) = Some (Z.b2z z).
Lemma compare_inv c' :
  negb (size_of b =? size_of a) || negb (v_size out =? 1) = false → is_Some (wasm_ty (size_of a)) →
  Interp.compare i c = Some c' →
  size_of b = size_of a ∧ v_size out = 1 ∧ (size_of a = 1 ∨ size_of a = 2 ∨ size_of a = 4 ∨ size_of a = 8) ∧
  ∃ z, cmp_op o (8 * size_of a) (get c a (size_of a)) (get c b (size_of a)) = Some z ∧ c' = put out 1 (Z.b2z z) c.
Proof.
  intros Hg [t [Hn _]%wasm_ty_cases] Hi. bool_to_prop. split_and!; [done..|]. unfold Interp.compare in Hi. cbn in Hi.
  replace (v_size out =? 1) with true in Hi by lia. rewrite int_size_cases in Hi by done.
  replace (size_of b =? size_of a) with true in Hi by lia. cbn [andb] in Hi.
  apply bind_Some in Hi as (z & Hz & [= <-]). eauto.
Qed.
Lemma sim_compare op32 op64 f32 f64 code c' :
  W.binop op32 = Some (W.I32, W.I32, f32) → W.binop op64 = Some (W.I64, W.I32, f64) →
  decides f32 f64 (cmp_op o) (λ _ x, x) →
  compare_op out a b op32 op64 = Ok code → Interp.compare i c = Some c' → sim code c'.
Proof.
  intros H32 H64 Hd Hc Hi. unfold compare_op in Hc. peel Hc.
  apply compare_inv in Hi as (Hsb & Ho & Hn & z & Hz & ->); [|done|by eexists].
  destruct (wasm_ty_cases _ _ Hx) as [_ ->]. apply Hd in Hz; [|done|apply get_fits; lia..].
  put_arm; [|reflexivity]. cbn [app]. do 3 front. unfold ty. destruct (size_of a =? 8) eqn:E;
    (eapply runs_binop; [done|exact Hz|]); front.
Qed.
Lemma sim_signed_compare op32 op64 f32 f64 code c' :
  W.binop op32 = Some (W.I32, W.I32, f32) → W.binop op64 = Some (W.I64, W.I32, f64) →
  decides f32 f64 (cmp_op o) (λ n x, wrap (width n) (signed (8 * n) x)) →
  signed_compare_op out a b op32 op64 = Ok code → Interp.compare i c = Some c' → sim code c'.
Proof.
  intros H32 H64 Hd Hc Hi. unfold signed_compare_op in Hc. peel Hc.
  apply compare_inv in Hi as (Hsb & Ho & Hn & z & Hz & ->); [|done|by eexists].
  destruct (wasm_ty_cases _ _ Hx) as [_ ->]. apply Hd in Hz; [|done|apply get_fits; lia..].
  put_arm; [|reflexivity]. cbn [app]. do 2 front. apply runs_sign_fill; [done|apply get_fits; lia|].
  front. apply runs_sign_fill; [done|apply get_fits; lia|]. unfold ty. destruct (size_of a =? 8) eqn:E;
    (eapply runs_binop; [done|exact Hz|]); front.
Qed.

(** ** One operand *)
Lemma unary_inv f c' :
  (v_size out = 1 ∨ v_size out = 2 ∨ v_size out = 4 ∨ v_size out = 8) → size_of a = v_size out → size_of b = 0 →
  Interp.unary f i c = Some c' → c' = put out (v_size out) (f (8 * v_size out) (get c a (v_size out))) c.
Proof.
  intros Hn Hsa Hsb Hi. unfold Interp.unary in Hi. cbn in Hi.
  rewrite int_size_cases, Hsa, Hsb, Z.eqb_refl in Hi by done. cbn in Hi. by injection Hi as <-.
Qed.
Lemma sim_not code c' :
  v_size out ≠ 16 → size_of b = 0 → not_op out a = Ok code →
  Interp.unary (λ w x, Z.lxor x (2 ^ w - 1)) i c = Some c' → sim code c'.
Proof.
  intros H16 Hsb Hc Hi. unfold not_op in Hc. replace (v_size out =? 16) with false in Hc by lia. peel Hc.
  destruct (wasm_ty_cases _ _ Hx) as [Hn ->]. bool_to_prop. apply unary_inv in Hi as ->; [|done..].
  rewrite is_i64_ty in *. cbn [app].
  assert (∀ t w x, 0 ≤ w ≤ t → Z.lxor x (wrap t (-1)) mod 2 ^ w = Z.lxor x (2 ^ w - 1) mod 2 ^ w) as Hnot.
  { intros t w x Hw. rewrite !lxor_mod, mod_wrap by lia. f_equal.
    replace (-1) with (2 ^ w - 1 + (-1) * 2 ^ w) by lia. by rewrite Z.mod_add by lia. }
  destruct (v_size out =? 8) eqn:E; 
    (put_arm; [cbn [app]; front; front; unfold ty; rewrite E; do 3 front|apply Hnot; lia]).
Qed.
Lemma sim_negate code c' :
  size_of b = 0 → negate_op out a = Ok code → Interp.unary (λ w x, wrap w (- x)) i c = Some c' → sim code c'.
Proof.
  intros Hsb Hc Hi. unfold negate_op in Hc. peel Hc.
  destruct (wasm_ty_cases _ _ Hx) as [Hn ->]. bool_to_prop. apply unary_inv in Hi as ->; [|done..].
  rewrite is_i64_ty in *. cbn [app].
  destruct (v_size out =? 8) eqn:E;
    (put_arm; [do 3 front; unfold ty; rewrite E; do 2 front|by rewrite !mod_wrap by lia]).
Qed.
Lemma sim_copy code c' :
  v_size out ≠ 16 → size_of b = 0 → o = Op.Copy → copy_op out a = Ok code → Interp.interpret i c = Some c' → sim code c'.
Proof.
  intros H16 Hsb -> Hc Hi. unfold copy_op in Hc. replace (v_size out =? 16) with false in Hc by lia. peel Hc.
  destruct (wasm_ty_cases _ _ Hx) as [Hn ->]. bool_to_prop. cbn in Hi.
  rewrite int_size_cases, Hc0, Hsb, Z.eqb_refl in Hi by done. cbn in Hi. injection Hi as <-.
  put_arm; [|reflexivity]. cbn [app]. by do 3 front.
Qed.

(** ** Booleans *)
Lemma sim_bool op f code c' :
  W.binop op = Some (W.I32, W.I32, λ x y, Some (f x y)) →
  (∀ x y z, fits 8 x → fits 8 y → bool_op o x y = Some z → fits 32 (f x y) ∧ z = negb (f x y =? 0)) →
  bool_binop out a b op = Ok code → Interp.booleans i c = Some c' → sim code c'.
Proof.
  intros Hop Hf Hc Hi. unfold bool_binop in Hc. peel Hc. bool_to_prop.
  unfold Interp.booleans in Hi. cbn in Hi. replace (v_size out) with 1 in Hi by lia.
  replace (size_of a) with 1 in Hi by lia. replace (size_of b) with 1 in Hi by lia. cbn in Hi.
  apply bind_Some in Hi as (z & Hz & [= <-]). apply Hf in Hz as [Hfit ->]; [|apply (get_fits _ _ 1); lia..].
  assert (wasm_ty 1 = Some W.I32) by done.
  put_arm; [|reflexivity]. cbn [app]. do 3 front. change (ty 1) with W.I32. eapply runs_binop; [exact Hop|done|]. front. front.
  change (wrap 32 0) with 0. front.
Qed.
Lemma sim_bool_not code c' :
  o = Op.BoolNot → size_of b = 0 → bool_not_op out a = Ok code → Interp.interpret i c = Some c' → sim code c'.
Proof.
  intros -> Hsb Hc Hi. unfold bool_not_op in Hc. peel Hc. bool_to_prop. cbn in Hi.
  replace (v_size out) with 1 in Hi by lia. replace (size_of a) with 1 in Hi by lia. rewrite Hsb in Hi. cbn in Hi.
  injection Hi as <-. assert (wasm_ty 1 = Some W.I32) by done.
  put_arm; [|reflexivity]. cbn [app]. do 2 front. change (ty 1) with W.I32. front. front.
Qed.

(** ** Shifts and rotations *)
Lemma shift_count_inv l : emit_shift_count_u32 b = Ok l → size_of b = 1 ∨ size_of b = 2 ∨ size_of b = 4 ∨ size_of b = 8.
Proof.
  unfold emit_shift_count_u32. intros Hl. destruct (bool_decide _) eqn:E.
  - apply bool_decide_eq_true in E. set_solver.
  - destruct (size_of b =? 8) eqn:E8; [lia|done].
Qed.
Lemma runs_shift_count l rest st' r :
  emit_shift_count_u32 b = Ok l →
  runs rest (mk ((W.I32, wrap 32 (get c b (size_of b))) :: st') L s) r → runs (l ++ rest) (mk st' L s) r.
Proof.
  intros Hl Hr. pose proof (shift_count_inv _ Hl) as Hn. unfold emit_shift_count_u32 in Hl.
  assert (wasm_ty (size_of b) = Some (ty (size_of b))) by (by destruct Hn as [->|[->|[->| ->]]]).
  destruct (bool_decide (size_of b ∈ [1; 2; 4])) eqn:E in Hl.
  - apply bool_decide_eq_true in E. assert (size_of b = 1 ∨ size_of b = 2 ∨ size_of b = 4) by set_solver.
    rewrite wrap_id in Hr by (eapply fits_weaken; [|apply get_fits]; lia). front.
    unfold ty. by replace (size_of b =? 8) with false by lia.
  - destruct (size_of b =? 8) eqn:E8 in Hl; [|done]. assert (size_of b = 8) as H8 by lia. rewrite H8 in Hr. peel Hl.
    rewrite <- app_assoc. cbn [app]. eapply runs_emit_load; [exact Hlimit|exact Hl0|exact (l_base _ _ _ _ HL)| |].
    { apply value_operand; [done|lia|by eexists]. }
    rewrite (get_read base limit tlb s c) by (done || lia). change (ty 8) with W.I64. eapply runs_unop; [done|exact Hr].
Qed.
Definition shl_or_shr (x y : Z) : Z := if bool_decide (o = Op.IntLeft) then Z.shiftl x y else Z.shiftr x y.
Lemma shift_inv c' :
  (v_size out = 1 ∨ v_size out = 2 ∨ v_size out = 4 ∨ v_size out = 8) → size_of a = v_size out →
  (size_of b = 1 ∨ size_of b = 2 ∨ size_of b = 4 ∨ size_of b = 8) → o = Op.IntLeft ∨ o = Op.IntRight →
  Interp.shift_op i c = Some c' → ∃ z,
  c' = put out (v_size out) z c ∧
  z mod 2 ^ (8 * v_size out) =
    (if wrap 32 (get c b (size_of b)) <? 8 * v_size out
     then shl_or_shr (get c a (v_size out)) (wrap 32 (get c b (size_of b))) else 0) mod 2 ^ (8 * v_size out).
Proof.
  intros Hn Hsa Hsb Ho Hi. unfold Interp.shift_op in Hi. cbn in Hi. rewrite !zxt_get in Hi by lia.
  rewrite Hsa in Hi. rewrite !(wrap_id 128 (get c a (v_size out))) in Hi by (eapply fits_weaken; [|apply get_fits]; lia).
  rewrite !put_trunc_put in Hi by lia. rewrite (Z.mul_comm 8).
  set (y := wrap 32 (get c b (size_of b))) in *. destruct (v_size out * 8 <=? y) eqn:E.
  - injection Hi as <-. exists 0. by replace (y <? v_size out * 8) with false by lia.
  - replace (y <? v_size out * 8) with true by lia. destruct (128 <=? y) eqn:E'; [done|]. injection Hi as <-.
    eexists. split; [done|]. unfold shl_or_shr. destruct (bool_decide _); [|done]. by rewrite mod_wrap by lia.
Qed.
Lemma shift_word t k x y :
  0 ≤ y < 8 * k → 8 * k ≤ t → o = Op.IntLeft ∨ o = Op.IntRight →
  (if bool_decide (o = Op.IntLeft) then W.shl t x y else W.shr_u t x y) mod 2 ^ (8 * k) = shl_or_shr x y mod 2 ^ (8 * k).
Proof.
  intros Hy Ht Ho. unfold W.shl, W.shr_u, shl_or_shr. rewrite (Z.mod_small y t) by lia.
  destruct (bool_decide _); [|done]. apply mod_wrap. lia.
Qed.
Lemma sim_shift code c' :
  v_size out ≠ 16 → o = Op.IntLeft ∨ o = Op.IntRight → Jit.shift_op o out a b fast = Ok code →
  Interp.shift_op i c = Some c' → sim code c'.
Proof.
  intros H16 Ho Hc Hi. unfold Jit.shift_op in Hc. replace (v_size out =? 16) with false in Hc by lia. peel Hc.
  destruct (wasm_ty_cases _ _ Hx) as [Hn ->], (wasm_ty_cases _ _ Hx0) as [Hsb ->]. bool_to_prop.
  apply shift_inv in Hi as (z & -> & Hz); [|done..]. set (y := wrap 32 (get c b (size_of b))) in *.
  assert (0 ≤ y < 2 ^ 32) by (apply wrap_fits; lia). rewrite is_i64_ty in *. cbn [app].
  assert ((W.truth (y <? wrap 32 (v_size out * 8)) =? 0) = negb (y <? 8 * v_size out)) as Ht.
  { rewrite (wrap_id 32 (v_size out * 8)) by (unfold fits; lia). rewrite (Z.mul_comm 8). by destruct (y <? v_size out * 8). }
  destruct (v_size out =? 8) eqn:E, (bool_decide (o = Op.IntLeft)) eqn:Eo;
    (put_arm; [cbn [app]; front; front; (eapply runs_shift_count; [exact Hl0|]); fold y; unfold ty; rewrite E;
      do 2 front; try front; (eapply runs_shift_count; [exact Hl1|]); fold y; do 4 front|]);
    rewrite Hz, Ht; (destruct (y <? 8 * v_size out) eqn:Ey; [|done]);
    (rewrite <- (shift_word (width (v_size out))) by (done || unfold width; rewrite ?E; lia));
    unfold width; rewrite Eo, E, ?wrap_id by (unfold fits; lia); done.
Qed.

Lemma signed_right_inv c' :
  (v_size out = 1 ∨ v_size out = 2 ∨ v_size out = 4 ∨ v_size out = 8) → size_of a = v_size out →
  (size_of b = 1 ∨ size_of b = 2 ∨ size_of b = 4 ∨ size_of b = 8) → Interp.signed_right i c = Some c' → ∃ z,
  c' = put out (v_size out) z c ∧
  z mod 2 ^ (8 * v_size out) =
    Z.shiftr (signed (8 * v_size out) (get c a (v_size out)))
      (Z.min (wrap 32 (get c b (size_of b))) (8 * v_size out - 1)) mod 2 ^ (8 * v_size out).
Proof.
  intros Hn Hsa Hsb Hi. unfold Interp.signed_right in Hi. cbn in Hi. rewrite !zxt_get in Hi by lia.
  rewrite read_dynamic_get in Hi by lia. rewrite Hsa in Hi. unfold sxt in Hi. cbn [fst snd] in Hi.
  replace (v_size out =? 0) with false in Hi by lia.
  rewrite !put_trunc_put in Hi by lia. rewrite (Z.mul_comm 8 (v_size out)) in *.
  set (y := wrap 32 (get c b (size_of b))) in *. assert (0 ≤ y) by (apply wrap_fits; lia).
  replace (128 <=? Z.min y (v_size out * 8 - 1)) with false in Hi by lia. injection Hi as <-.
  eexists. split; [done|]. set (k := Z.min y (v_size out * 8 - 1)).
  set (x := signed (v_size out * 8) (get c a (v_size out))).
  assert (- 2 ^ 63 ≤ x < 2 ^ 63) as Hx.
  { pose proof (signed_range (v_size out * 8) (get c a (v_size out))).
    assert (2 ^ (v_size out * 8 - 1) ≤ 2 ^ 63) by (apply Z.pow_le_mono_r; lia). lia. }
  apply Z.bits_inj'. intros j Hj. destruct (decide (j < v_size out * 8)); [|by rewrite !Z.mod_pow2_bits_high by lia].
  rewrite !Z.mod_pow2_bits_low, !Z.shiftr_spec by lia. unfold wrap. by rewrite Z.mod_pow2_bits_low by lia.
Qed.
Lemma sim_signed_right code c' :
  v_size out ≠ 16 → signed_right_op out a b fast = Ok code → Interp.signed_right i c = Some c' → sim code c'.
Proof.
  intros H16 Hc Hi. unfold signed_right_op in Hc. replace (v_size out =? 16) with false in Hc by lia. peel Hc.
  destruct (wasm_ty_cases _ _ Hx) as [Hn ->], (wasm_ty_cases _ _ Hx0) as [Hsb ->]. bool_to_prop.
  apply signed_right_inv in Hi as (z & -> & Hz); [|done..]. set (y := wrap 32 (get c b (size_of b))) in *.
  assert (0 ≤ y < 2 ^ 32) by (apply wrap_fits; lia). rewrite is_i64_ty in *. cbn [app].
  set (k := Z.min y (8 * v_size out - 1)) in *.
  assert ((if W.truth (y <? wrap 32 (v_size out * 8 - 1)) =? 0 then wrap 32 (v_size out * 8 - 1) else y) = k) as Hk.
  { rewrite (wrap_id 32 (v_size out * 8 - 1)) by (unfold fits; lia). subst k.
    destruct (y <? v_size out * 8 - 1) eqn:Ey; cbn [W.truth Z.eqb]; lia. }
  assert (∀ t, 8 * v_size out ≤ t → W.shr_s t (wrap t (signed (8 * v_size out) (get c a (v_size out)))) k mod 2 ^ (8 * v_size out)
               = z mod 2 ^ (8 * v_size out)) as Hs.
  { intros t Ht. rewrite Hz. unfold W.shr_s. rewrite mod_wrap, signed_extend, (Z.mod_small k) by lia. done. }
  assert (wasm_ty (v_size out) = Some (ty (v_size out))) by done.
  destruct (v_size out =? 8) eqn:E;
    (put_arm; [cbn [app]; front; front; (apply runs_sign_fill; [done|apply get_fits; lia|]);
      (eapply runs_shift_count; [exact Hl0|]); fold y; front; (eapply runs_shift_count; [exact Hl1|]); fold y;
      do 3 front; rewrite Hk; unfold ty, width; rewrite E; repeat front|]); apply Hs; lia.
Qed.
Lemma sim_rotate code c' :
  o = Op.IntRotateLeft ∨ o = Op.IntRotateRight → rotate_op o out a b = Ok code → Interp.binary i c = Some c' → sim code c'.
Proof.
  intros Ho Hc Hi. unfold rotate_op in Hc. peel Hc.
  apply same_width_inv in Hx as (-> & Hsa & Hsb & Hn & Ht).
  assert (v_size out = 4 ∨ v_size out = 8) as Hn'.
  { destruct (v_size out =? 4) eqn:E4, (v_size out =? 8) eqn:E8; try discriminate Hx0; lia. }
  unfold Interp.binary in Hi. cbn in Hi. rewrite Hsa, Hsb, int_size_cases, !Z.eqb_refl in Hi by done. cbn [andb] in Hi.
  apply bind_Some in Hi as (z & Hz & [= <-]).
  assert (∀ x w, w = 32 ∨ w = 64 → wrap 32 x mod w = x mod w) as Hw.
  { intros x w [->| ->]; [apply (mod_wrap 5 32)|apply (mod_wrap 6 32)]; lia. }
  destruct Hn' as [E|E], Ho as [Ho|Ho]; rewrite E, Ho in *; cbn in Hx0, Hz; injection Hx0 as <-; injection Hz as <-;
    (put_arm; [cbn [app]; do 3 front; repeat front|]); unfold rotl, rotr; rewrite (Hw (get c b _)) by lia; done.
Qed.

(** ** Extensions *)
Lemma sim_zero_extend code c' :
  v_size out ≠ 16 → size_of a < v_size out → size_of b = 0 → o = Op.ZeroExtend → zero_extend_op out a = Ok code →
  Interp.interpret i c = Some c' → sim code c'.
Proof.
  intros H16 Hlt Hsb Ho Hc Hi. unfold zero_extend_op in Hc. replace (v_size out =? 16) with false in Hc by lia.
  cbn [andb] in Hc. peel Hc. destruct (wasm_ty_cases _ _ Hx) as [Hsa ->], (wasm_ty_cases _ _ Hx0) as [Hn ->].
  unfold Interp.interpret in Hi. cbn [i_op i_a i_b i_out] in Hi.
  rewrite extends_inv in Hi by auto using word_size_cases, int_size_cases. injection Hi as <-.
  rewrite !is_i64_ty in Hl0.
  destruct (size_of a =? 8) eqn:Ea, (v_size out =? 8) eqn:E; try lia; peel Hl0;
    (put_arm; [cbn [app]; do 2 front; unfold ty; rewrite Ea; repeat front|reflexivity]).
Qed.
Lemma sim_sign_extend code c' :
  v_size out ≠ 16 → size_of a < v_size out → size_of b = 0 → o = Op.SignExtend → sign_extend_op out a = Ok code →
  Interp.interpret i c = Some c' → sim code c'.
Proof.
  intros H16 Hlt Hsb Ho Hc Hi. unfold sign_extend_op in Hc. replace (v_size out =? 16) with false in Hc by lia.
  cbn [andb] in Hc. peel Hc. destruct (wasm_ty_cases _ _ Hx) as [Hsa ->], (wasm_ty_cases _ _ Hx0) as [Hn ->].
  unfold Interp.interpret in Hi. cbn [i_op i_a i_b i_out] in Hi.
  rewrite extends_inv in Hi by auto using word_size_cases, int_size_cases. injection Hi as <-.
  assert (∀ w, w = 8 ∨ w = 16 ∨ w = 32 → ∀ x, signed 32 (wrap 32 (signed w x)) = signed w x) as Hs
    by (intros; apply signed_extend; lia).
  destruct (v_size out =? 8) eqn:E, Hsa as [Ea|[Ea|[Ea|Ea]]]; rewrite Ea in *; cbn [Z.eqb Pos.eqb] in Hl0; try lia;
    try discriminate Hl0; peel Hl0;
    (put_arm; [cbn [app]; do 2 front; unfold ty; cbn [Z.eqb Pos.eqb]; repeat front|]);
    rewrite ?mod_wrap, ?Hs by lia; done.
Qed.

(** ** Carries *)
Lemma compare_inv' c' :
  negb (v_size out =? 1) || negb (size_of b =? size_of a) = false → is_Some (wasm_ty (size_of a)) →
  Interp.compare i c = Some c' →
  size_of b = size_of a ∧ v_size out = 1 ∧ (size_of a = 1 ∨ size_of a = 2 ∨ size_of a = 4 ∨ size_of a = 8) ∧
  ∃ z, cmp_op o (8 * size_of a) (get c a (size_of a)) (get c b (size_of a)) = Some z ∧ c' = put out 1 (Z.b2z z) c.
Proof. rewrite orb_comm. apply compare_inv. Qed.
Lemma sim_carry code c' :
  o = Op.IntCarry → carry_op out a b = Ok code → Interp.compare i c = Some c' → sim code c'.
Proof.
  intros Ho Hc Hi. unfold carry_op in Hc. apply unless_Ok in Hc as [Hg Hc]. apply rbind_Ok in Hc as (t & Hx & Hc).
  apply bail_Ok in Hx. apply compare_inv' in Hi as (Hsb & Ho1 & Hn & z & Hz & ->); [|done|by eexists].
  destruct (wasm_ty_cases _ _ Hx) as [_ ->]. rewrite Ho in Hz. cbn in Hz. injection Hz as <-. rewrite is_i64_ty in Hc.
  pose proof (get_fits c a (size_of a)). pose proof (get_fits c b (size_of a)). rewrite <- carry_word by (done || lia || auto with lia).
  destruct (size_of a =? 8) eqn:E; peel Hc.
  - put_arm; [cbn [app]; rewrite <- ?app_assoc; cbn [app]; do 3 front; unfold ty; rewrite E; do 2 front; unfold ty; rewrite E; do 2 front|].
    by replace (8 * size_of a) with 64 by lia.
  - destruct (size_of a =? 4) eqn:E4; cbn [negb app] in *.
    + put_arm; [cbn [app]; rewrite <- ?app_assoc; cbn [app]; do 3 front; unfold ty; rewrite E; do 2 front; unfold ty; rewrite E; do 2 front|].
      by replace (8 * size_of a) with 32 by lia.
    + put_arm; [cbn [app]; rewrite <- ?app_assoc; cbn [app]; do 3 front; unfold ty; rewrite E; do 4 front; unfold ty; rewrite E; do 2 front|].
      by rewrite narrow_sum by lia.
Qed.
Lemma sign_test_word n x :
  n = 1 ∨ n = 2 ∨ n = 4 ∨ n = 8 →
  (Z.land x (wrap (width n) (if n =? 8 then - 2 ^ 63 else as_i32 (2 ^ (n * 8 - 1)))) =? 0) = negb (Z.testbit x (8 * n - 1)).
Proof.
  intros Hn. rewrite <- land_top_bit by lia. do 2 f_equal. unfold width, as_i32. rewrite (Z.mul_comm n).
  destruct (n =? 8) eqn:E; [by replace n with 8 by lia|]. rewrite wrap_signed by lia.
  by destruct Hn as [->|[->|[->| ->]]].
Qed.
Lemma runs_sign_test n x rest st' r :
  n = 1 ∨ n = 2 ∨ n = 4 ∨ n = 8 →
  runs rest (mk ((W.I32, Z.b2z (Z.testbit x (8 * n - 1))) :: st') L s) r →
  runs (sign_test (n =? 8) n ++ rest) (mk ((ty n, x) :: st') L s) r.
Proof.
  intros Hn Hr. pose proof (sign_test_word n x Hn) as Ht. unfold width in Ht. unfold ty, sign_test.
  destruct (n =? 8) eqn:E; cbn [app]; do 4 front; change (wrap _ 0) with 0; rewrite Ht, negb_involutive; exact Hr.
Qed.
Lemma runs_word n op32 op64 f x y rest st' r :
  W.binop op32 = Some (W.I32, W.I32, λ x y, Some (f 32 x y)) →
  W.binop op64 = Some (W.I64, W.I64, λ x y, Some (f 64 x y)) →
  runs rest (mk ((ty n, f (width n) x y) :: st') L s) r →
  runs ((if n =? 8 then op64 else op32) :: rest) (mk ((ty n, y) :: (ty n, x) :: st') L s) r.
Proof.
  intros H32 H64 Hr. unfold ty, width in *. destruct (n =? 8); (eapply runs_binop; [done|reflexivity|exact Hr]).
Qed.
Ltac add_word := eapply (runs_word _ _ _ (λ w x y, wrap w (x + y))); [done..|].
Ltac sub_word := eapply (runs_word _ _ _ (λ w x y, wrap w (x - y))); [done..|].
Ltac xor_word := eapply (runs_word _ _ _ (λ _ x y, Z.lxor x y)); [done..|].
Ltac and_word := eapply (runs_word _ _ _ (λ _ x y, Z.land x y)); [done..|].
Lemma sim_signed_carry code c' :
  o = Op.IntSignedCarry → signed_carry_op out a b = Ok code → Interp.compare i c = Some c' → sim code c'.
Proof.
  intros Ho Hc Hi. unfold signed_carry_op in Hc. apply unless_Ok in Hc as [Hg Hc].
  apply rbind_Ok in Hc as (t & Hx & Hc).
  apply bail_Ok in Hx. apply compare_inv' in Hi as (Hsb & Ho1 & Hn & z & Hz & ->); [|done|by eexists].
  destruct (wasm_ty_cases _ _ Hx) as [_ ->]. rewrite Ho in Hz. cbn in Hz. injection Hz as <-. rewrite !is_i64_ty in Hc.
  peel Hc. put_arm.
  { cbn [app]. do 4 front. add_word. xor_word. do 3 front. add_word. xor_word. and_word.
    apply runs_sign_test; [done|]. front. }
  by rewrite signed_carry_word by first [lia|apply get_fits; lia|by apply width_mod].
Qed.
Lemma sim_signed_borrow code c' :
  o = Op.IntSignedBorrow → signed_borrow_op out a b = Ok code → Interp.compare i c = Some c' → sim code c'.
Proof.
  intros Ho Hc Hi. unfold signed_borrow_op in Hc. apply unless_Ok in Hc as [Hg Hc].
  apply rbind_Ok in Hc as (t & Hx & Hc).
  apply bail_Ok in Hx. apply compare_inv' in Hi as (Hsb & Ho1 & Hn & z & Hz & ->); [|done|by eexists].
  destruct (wasm_ty_cases _ _ Hx) as [_ ->]. rewrite Ho in Hz. cbn in Hz. injection Hz as <-. rewrite !is_i64_ty in Hc.
  peel Hc. put_arm.
  { cbn [app]. do 3 front. xor_word. do 3 front. sub_word. xor_word. and_word.
    apply runs_sign_test; [done|]. front. }
  by rewrite signed_borrow_word by first [lia|apply get_fits; lia|by apply width_mod].
Qed.

(** ** Counts and selection *)
Lemma count_inv f c' :
  (size_of a = 1 ∨ size_of a = 2 ∨ size_of a = 4 ∨ size_of a = 8) →
  (v_size out = 1 ∨ v_size out = 2 ∨ v_size out = 4 ∨ v_size out = 8) → size_of b = 0 →
  Interp.count f i c = Some c' → c' = put out (v_size out) (f (8 * size_of a) (get c a (size_of a))) c.
Proof.
  intros Hsa Hn Hsb Hi. unfold Interp.count in Hi. cbn in Hi. rewrite int_size_cases, Hsb in Hi by done. cbn in Hi.
  rewrite put_trunc_put in Hi by lia. by injection Hi as <-.
Qed.
Lemma sim_count_ones code c' :
  count_ones_op out a b = Ok code → Interp.count (λ _ x, popcount x) i c = Some c' → sim code c'.
Proof.
  intros Hc Hi. unfold count_ones_op in Hc. peel Hc. bool_to_prop.
  destruct (wasm_ty_cases _ _ Hx) as [Hsa ->], (wasm_ty_cases _ _ Hx0) as [Hn ->].
  apply count_inv in Hi as ->; [|done..]. rewrite !is_i64_ty.
  assert (wrap 32 (popcount (get c a (size_of a))) = popcount (get c a (size_of a))) as Hw.
  { apply wrap_id. pose proof (popcount_bound (8 * size_of a) (get c a (size_of a))).
    pose proof (get_fits c a (size_of a)). unfold fits in *. lia. }
  destruct (size_of a =? 8) eqn:E, (v_size out =? 8) eqn:E';
    (put_arm; [cbn [app]; do 2 front; unfold ty; rewrite E; repeat front|]); by rewrite ?Hw.
Qed.
Lemma sim_leading_zeroes code c' :
  leading_zeroes_op out a b = Ok code → Interp.count leading_zeros i c = Some c' → sim code c'.
Proof.
  intros Hc Hi. unfold leading_zeroes_op in Hc. peel Hc. bool_to_prop.
  destruct (wasm_ty_cases _ _ Hx) as [Hsa ->], (wasm_ty_cases _ _ Hx0) as [Hn ->].
  apply count_inv in Hi as ->; [|done..]. rewrite !is_i64_ty.
  assert (∀ w, wrap 32 (leading_zeros w (get c a (size_of a)) - (w - 8 * size_of a)) =
               leading_zeros (8 * size_of a) (get c a (size_of a))) as Hw.
  { intros w. rewrite leading_zeros_adjust. apply wrap_id.
    pose proof (leading_zeros_bound (8 * size_of a) (get c a (size_of a))).
    pose proof (get_fits c a (size_of a)). unfold fits in *. lia. }
  destruct (size_of a =? 8) eqn:E.
  - specialize (Hw 64). replace (64 - 8 * size_of a) with 0 in Hw by lia. rewrite Z.sub_0_r in Hw.
    destruct (v_size out =? 8) eqn:E'; (put_arm; [cbn [app]; do 2 front; unfold ty; rewrite E; repeat front|]); by rewrite Hw.
  - specialize (Hw 32). rewrite (Z.mul_comm (size_of a)). destruct (32 - 8 * size_of a =? 0) eqn:E4; cbn [negb].
    + replace (32 - 8 * size_of a) with 0 in Hw by lia. rewrite Z.sub_0_r, wrap_id in Hw.
      * destruct (v_size out =? 8) eqn:E'; (put_arm; [cbn [app]; do 2 front; unfold ty; rewrite E; repeat front|]); by rewrite Hw.
      * pose proof (leading_zeros_bound 32 (get c a (size_of a))). pose proof (get_fits c a (size_of a)) as Hf.
        replace (8 * size_of a) with 32 in Hf by lia. unfold fits in *. lia.
    + destruct (v_size out =? 8) eqn:E'; (put_arm; [cbn [app]; do 2 front; unfold ty; rewrite E; repeat front|]);
        rewrite (wrap_id 32 (32 - 8 * size_of a)) by (unfold fits; lia); by rewrite Hw.
Qed.
Lemma sim_select cond code c' :
  o = Op.Select cond → var_ok (var_new cond 1) → select_op out a b cond = Ok code → Interp.interpret i c = Some c' → sim code c'.
Proof.
  intros Ho Hcond Hc Hi. unfold select_op in Hc. apply rbind_Ok in Hc as (t & Hx & Hc). apply bail_Ok in Hx.
  destruct (wasm_ty_cases _ _ Hx) as [Hn ->]. apply unless_Ok in Hc as [Hg Hc]. bool_to_prop.
  unfold Interp.interpret in Hi. cbn [i_op i_a i_b i_out] in Hi. rewrite Ho in Hi. unfold Interp.copy in Hi.
  rewrite int_size_cases in Hi by done. injection Hi as <-. clear Ho. peel Hc.
  assert (wasm_ty 1 = Some W.I32) by done.
  put_arm; [cbn [app]; do 3 front;
    (eapply runs_emit_load; [exact Hlimit|eassumption|exact (l_base _ _ _ _ HL)|apply (value_operand (Var _)); [done..|by eexists]|]);
    rewrite (get_read base limit tlb s c) by (done || cbn; lia); change (ty 1) with W.I32; do 2 front|].
  cbn [get read]. by destruct (read_reg (c_regs c) (regs_var_offset (var_new cond 1)) 1 =? 0).
Qed.
End arms.

(** Words of 128 bits as two lanes, and the schoolbook product of two lanes. *)
(** * Lanes of a number *)
Lemma lane_mod x y : fits 64 x → (x + 2 ^ 64 * y) mod 2 ^ 64 = x.
Proof. intros Hx. rewrite Z.mul_comm, Z.mod_add by lia. by apply Z.mod_small. Qed.
Lemma lane_div x y : fits 64 x → (x + 2 ^ 64 * y) / 2 ^ 64 = y.
Proof. intros Hx. rewrite Z.mul_comm, Z.div_add, Z.div_small by (done || lia). lia. Qed.
Lemma mod_div_lane w x : 64 ≤ w → wrap (w + 64) x / 2 ^ 64 = wrap w (x / 2 ^ 64).
Proof.
  intros Hw. unfold wrap. rewrite (Z.add_comm w), Z.pow_add_r by lia. rewrite Z.rem_mul_r by lia.
  rewrite Z.mul_comm, Z.div_add, Z.div_small by (apply Z.mod_pos_bound || lia; lia). lia.
Qed.
(** The schoolbook product of two 64-bit words. *)
Lemma mulhi_word x y :
  fits 64 x → fits 64 y →
  let xl := x mod 2 ^ 32 in let xh := x / 2 ^ 32 in let yl := y mod 2 ^ 32 in let yh := y / 2 ^ 32 in
  xh * yh + xl * yh / 2 ^ 32 + xh * yl / 2 ^ 32 +
    (xl * yl / 2 ^ 32 + (xl * yh) mod 2 ^ 32 + (xh * yl) mod 2 ^ 32) / 2 ^ 32 = x * y / 2 ^ 64.
Proof.
  intros Hx Hy xl xh yl yh. unfold fits in *.
  change (2 ^ 64) with 18446744073709551616 in *. change (2 ^ 32) with 4294967296 in *.
  assert (0 ≤ xl < 4294967296 ∧ 0 ≤ yl < 4294967296 ∧ 0 ≤ xh < 4294967296 ∧ 0 ≤ yh < 4294967296) as (? & ? & ? & ?)
    by (subst xl xh yl yh; Z.to_euclidean_division_equations; lia).
  replace (x * y) with (xl * yl + 4294967296 * (xl * yh + xh * yl) + 18446744073709551616 * (xh * yh)).
  - clearbody xl xh yl yh.
    assert (0 ≤ xl * yl ∧ 0 ≤ xl * yh ∧ 0 ≤ xh * yl ∧ 0 ≤ xh * yh) as (? & ? & ? & ?) by nia.
    generalize dependent (xl * yl). generalize dependent (xl * yh). generalize dependent (xh * yl).
    generalize dependent (xh * yh). intros u Hu r Hr q Hq p Hp. Z.to_euclidean_division_equations; lia.
  - assert (x = 4294967296 * xh + xl) as Ex by (subst xl xh; Z.to_euclidean_division_equations; lia).
    assert (y = 4294967296 * yh + yl) as Ey by (subst yl yh; Z.to_euclidean_division_equations; lia).
    clearbody xl xh yl yh. rewrite Ex, Ey. ring.
Qed.
(** No intermediate sum overflows. *)
Lemma mulhi_wrapped x y :
  fits 64 x → fits 64 y →
  let xl := x mod 2 ^ 32 in let xh := x / 2 ^ 32 in let yl := y mod 2 ^ 32 in let yh := y / 2 ^ 32 in
  let t := wrap 64 (wrap 64 (wrap 64 (xl * yl) / 2 ^ 32 + wrap 64 (xl * yh) mod 2 ^ 32) + wrap 64 (xh * yl) mod 2 ^ 32) in
  wrap 64 (wrap 64 (wrap 64 (wrap 64 (xh * yh) + wrap 64 (xl * yh) / 2 ^ 32) + wrap 64 (xh * yl) / 2 ^ 32) + t / 2 ^ 32) =
  x * y / 2 ^ 64.
Proof.
  intros Hx Hy xl xh yl yh t. rewrite <- mulhi_word by done. cbn zeta. fold xl xh yl yh. unfold fits in *.
  assert (∀ p q, 0 ≤ p < 2 ^ 32 → 0 ≤ q < 2 ^ 32 → 0 ≤ p * q ≤ (2 ^ 32 - 1) * (2 ^ 32 - 1)) as Hpq by nia.
  assert (0 ≤ xl < 2 ^ 32 ∧ 0 ≤ yl < 2 ^ 32 ∧ 0 ≤ xh < 2 ^ 32 ∧ 0 ≤ yh < 2 ^ 32) as (Hxl & Hyl & Hxh & Hyh).
  { subst xl xh yl yh. change (2 ^ 64) with 18446744073709551616 in *. change (2 ^ 32) with 4294967296 in *.
    Z.to_euclidean_division_equations; lia. }
  pose proof (Hpq _ _ Hxl Hyl). pose proof (Hpq _ _ Hxl Hyh). pose proof (Hpq _ _ Hxh Hyl). pose proof (Hpq _ _ Hxh Hyh).
  subst t. clear Hpq Hxl Hyl Hxh Hyh. clearbody xl xh yl yh.
  generalize dependent (xl * yl). generalize dependent (xl * yh). generalize dependent (xh * yl).
  generalize dependent (xh * yh). intros u Hu r Hr q Hq p Hp. unfold wrap.
  change (2 ^ 64) with 18446744073709551616 in *. change (2 ^ 32) with 4294967296 in *.
  assert (0 ≤ p / 4294967296 < 4294967296 ∧ 0 ≤ q / 4294967296 < 4294967295 ∧ 0 ≤ r / 4294967296 < 4294967295)
    as (HA & HD & HE) by (Z.to_euclidean_division_equations; lia).
  pose proof (Z.mod_pos_bound q 4294967296) as HB. pose proof (Z.mod_pos_bound r 4294967296) as HC.
  rewrite (Z.mod_small p), (Z.mod_small q 18446744073709551616), (Z.mod_small r 18446744073709551616),
    (Z.mod_small u) by lia.
  clear Hp Hq Hr. set (A := p / 4294967296) in *. set (B := q mod 4294967296) in *. set (C := r mod 4294967296) in *.
  set (D := q / 4294967296) in *. set (E := r / 4294967296) in *. clearbody A B C D E.
  rewrite (Z.mod_small (A + B)) by lia. rewrite (Z.mod_small (A + B + C)) by lia.
  assert (0 ≤ (A + B + C) / 4294967296 ≤ 2) by (Z.to_euclidean_division_equations; lia).
  rewrite (Z.mod_small (u + D)) by lia. rewrite (Z.mod_small (u + D + E)) by lia. apply Z.mod_small. lia.
Qed.

(** The low two lanes of a 128-bit product. *)
Lemma wide_product al ah bl bh :
  fits 64 al → fits 64 bl →
  let z := wrap (8 * 16) ((al + 2 ^ 64 * ah) * (bl + 2 ^ 64 * bh)) in
  wrap 64 (al * bl) mod 2 ^ 64 = z mod 2 ^ 64 ∧
  wrap 64 (wrap 64 (al * bl / 2 ^ 64 + wrap 64 (al * bh)) + wrap 64 (ah * bl)) mod 2 ^ 64 = (z / 2 ^ 64) mod 2 ^ 64.
Proof.
  intros Hal Hbl z. subst z. change (8 * 16) with (64 + 64).
  replace ((al + 2 ^ 64 * ah) * (bl + 2 ^ 64 * bh))
    with (al * bl + (al * bh + ah * bl + ah * bh * 2 ^ 64) * 2 ^ 64) by ring.
  split.
  - rewrite !mod_wrap by lia. by rewrite Z.mod_add by lia.
  - rewrite mod_div_lane, !mod_wrap, Z.div_add by lia.
    rewrite (Z.add_assoc (al * bl / 2 ^ 64)), Z.mod_add by lia.
    rewrite (Z.add_assoc (al * bl / 2 ^ 64)). apply add_mod; [|by rewrite mod_wrap by lia].
    rewrite mod_wrap by lia. apply add_mod; [done|]. by rewrite mod_wrap by lia.
Qed.

(** * Shifts of two lanes *)
Lemma lane_bit al ah m : fits 64 al → 0 ≤ m → Z.testbit (al + 2 ^ 64 * ah) m = if m <? 64 then Z.testbit al m else Z.testbit ah (m - 64).
Proof.
  intros Hal Hm. destruct (m <? 64) eqn:E.
  - rewrite <- (Z.mod_pow2_bits_low _ 64) by lia. by rewrite lane_mod.
  - replace m with (m - 64 + 64) at 1 by lia. rewrite <- Z.shiftr_spec by lia.
    by rewrite Z.shiftr_div_pow2, lane_div by (done || lia).
Qed.
Lemma high_bit x m : fits 64 x → 64 ≤ m → Z.testbit x m = false.
Proof. intros Hx Hm. rewrite <- (Z.mod_small x (2 ^ 64)) by done. by apply Z.mod_pow2_bits_high. Qed.
Lemma shl_bit x k m : 0 ≤ k < 64 → 0 ≤ m < 64 → Z.testbit (W.shl 64 x k) m = Z.testbit x (m - k).
Proof.
  intros Hk Hm. unfold W.shl, wrap. rewrite Z.mod_pow2_bits_low, Z.shiftl_spec, Z.mod_small by lia. done.
Qed.
Lemma shr_bit x k m : 0 ≤ k < 64 → 0 ≤ m → Z.testbit (W.shr_u 64 x k) m = Z.testbit x (m + k).
Proof. intros Hk Hm. unfold W.shr_u. by rewrite Z.shiftr_spec, Z.mod_small by lia. Qed.
Lemma eq_mod_bits w x y : 0 ≤ w → (∀ m, 0 ≤ m < w → Z.testbit x m = Z.testbit y m) → x mod 2 ^ w = y mod 2 ^ w.
Proof.
  intros Hw Hb. apply Z.bits_inj'. intros m Hm. destruct (decide (m < w)).
  - rewrite !Z.mod_pow2_bits_low by lia. apply Hb. lia.
  - by rewrite !Z.mod_pow2_bits_high by lia.
Qed.
Lemma div_bit x m : 0 ≤ m → Z.testbit (x / 2 ^ 64) m = Z.testbit x (m + 64).
Proof. intros Hm. by rewrite <- Z.shiftr_div_pow2, Z.shiftr_spec by lia. Qed.
Lemma land_63 y : 0 ≤ y → Z.land y 63 = y mod 64.
Proof. intros Hy. change 63 with (Z.ones 6). by rewrite Z.land_ones. Qed.

Section shift.
Context (al ah y : Z) (Hal : fits 64 al) (Hah : fits 64 ah) (Hy : 0 ≤ y).
Abbreviation A := (al + 2 ^ 64 * ah).
Abbreviation s := (y mod 64).
Definition left_lo : Z := if y <? 64 then W.shl 64 al s else 0.
Definition left_hi : Z :=
  if y <? 64 then Z.lor (W.shl 64 ah s) (W.shr_u 64 (W.shr_u 64 al 1) (63 - s))
  else if y <? 128 then W.shl 64 al s else 0.
Definition right_hi : Z := if y <? 64 then W.shr_u 64 ah s else 0.
Definition right_lo : Z :=
  if y <? 64 then Z.lor (W.shr_u 64 al s) (W.shl 64 (W.shl 64 ah 1) (63 - s))
  else if y <? 128 then W.shr_u 64 ah s else 0.
Ltac bits := apply eq_mod_bits; [lia|]; intros m Hm; pose proof (Z.mod_pos_bound y 64 ltac:(lia)) as Hs;
  rewrite ?div_bit, ?Z.bits_0 by lia.
Lemma shift_left_lanes :
  left_lo mod 2 ^ 64 = (if y <? 128 then wrap 128 (Z.shiftl A y) else 0) mod 2 ^ 64 ∧
  left_hi mod 2 ^ 64 = ((if y <? 128 then wrap 128 (Z.shiftl A y) else 0) / 2 ^ 64) mod 2 ^ 64.
Proof.
  unfold left_lo, left_hi. destruct (y <? 128) eqn:E128; [|by replace (y <? 64) with false by lia].
  split; bits; unfold wrap; rewrite Z.mod_pow2_bits_low, Z.shiftl_spec by lia; destruct (y <? 64) eqn:E64.
  - rewrite (Z.mod_small y 64) in * by lia. rewrite shl_bit by lia.
    destruct (decide (m < y)); [by rewrite !Z.testbit_neg_r by lia|]. rewrite lane_bit by (done || lia).
    by replace (m - y <? 64) with true by lia.
  - rewrite Z.bits_0. symmetry. apply Z.testbit_neg_r. lia.
  - rewrite (Z.mod_small y 64) in * by lia. rewrite Z.lor_spec, shl_bit, !shr_bit by lia.
    rewrite lane_bit by (done || lia). destruct (m + 64 - y <? 64) eqn:E.
    + rewrite (Z.testbit_neg_r ah) by lia. cbn. f_equal. lia.
    + rewrite (high_bit al) by (done || lia). rewrite orb_false_r. f_equal. lia.
  - assert (y mod 64 = y - 64) as Hs' by (symmetry; apply (Z.mod_unique _ _ 1); lia). rewrite Hs' in *.
    rewrite shl_bit by lia. destruct (decide (m + 64 < y)); [by rewrite !Z.testbit_neg_r by lia|].
    rewrite lane_bit by (done || lia). replace (m + 64 - y <? 64) with true by lia. f_equal. lia.
Qed.
Lemma shift_right_lanes :
  right_lo mod 2 ^ 64 = (if y <? 128 then Z.shiftr A y else 0) mod 2 ^ 64 ∧
  right_hi mod 2 ^ 64 = ((if y <? 128 then Z.shiftr A y else 0) / 2 ^ 64) mod 2 ^ 64.
Proof.
  unfold right_lo, right_hi. destruct (y <? 128) eqn:E128; [|by replace (y <? 64) with false by lia].
  split; bits; rewrite Z.shiftr_spec, lane_bit by (done || lia); destruct (y <? 64) eqn:E64.
  - rewrite (Z.mod_small y 64) in * by lia. rewrite Z.lor_spec, shr_bit, shl_bit by lia.
    destruct (m + y <? 64) eqn:E.
    + destruct (decide (m - (63 - y) < 0)); [rewrite (Z.testbit_neg_r (W.shl 64 ah 1)) by lia; apply orb_false_r|].
      rewrite shl_bit by lia. rewrite (Z.testbit_neg_r ah) by lia. apply orb_false_r.
    + rewrite (high_bit al) by (done || lia). cbn [orb]. rewrite shl_bit by lia. f_equal. lia.
  - assert (y mod 64 = y - 64) as Hs' by (symmetry; apply (Z.mod_unique _ _ 1); lia). rewrite Hs' in *.
    rewrite shr_bit by lia. replace (m + y <? 64) with false by lia. f_equal. lia.
  - rewrite (Z.mod_small y 64) in * by lia. rewrite shr_bit by lia. replace (m + 64 + y <? 64) with false by lia. f_equal. lia.
  - rewrite Z.bits_0. replace (m + 64 + y <? 64) with false by lia. symmetry. apply high_bit; [done|lia].
Qed.
End shift.

(** The 128-bit arms: two 64-bit lanes, the low one first. *)
Section wide.
Context `{Arch} `{Floats} {G : Type} `{Softmmu G} `{Escapes G} (base limit tlb : Z) `{!SoftmmuLaws G base limit tlb}.
Context (Hlimit : base + REG_SPACE_BYTES ≤ limit).
Abbreviation mk := (W.Build_cfg G).
Abbreviation runs := (runs base limit).

Context (o : Op.op) (out : VarNode) (a b : Value) (index : Z) (it : option nat) (fast : FastLocals).
Context (st L : list W.val) (s : W.store G) (c : Cpu G).
Context (Hout : var_ok out) (Ho16 : v_size out = 16) (Ha : value_ok a) (Hb : value_ok b).
Context (Hfast : fast_ok fast) (HL : locals_ok base tlb fast L).
Context (Hag : agrees base limit tlb s c) (He : exc_code (c_exc c) = 0).
Abbreviation i := {| i_op := o; i_a := a; i_b := b; i_out := out |}.
Abbreviation sim code c' := (simulates base limit tlb code index it fast st L s c').
Abbreviation off := (regs_var_offset out).

(** The high lane of an operand, which is read after the low lane of the result
    is written, must not overlap it. *)
Definition lane_apart (v : Value) : Prop :=
  match v with Var x => regs_var_offset x + 16 ≤ off ∨ off ≤ regs_var_offset x | Const _ _ => True end.

(** ** Lanes *)
Lemma lane_load_inv v k l : size_of v = 16 → emit_lane_load v k = Ok l → k = 0 ∨ k = 8 →
  ∃ x, slice v k 8 = Some x ∧ emit_load x 8 = Ok l.
Proof.
  intros Hv Hl Hk. unfold emit_lane_load, lane in Hl. apply rbind_Ok in Hl as (x & Hx & Hl).
  exists x. split; [|done]. unfold expect in Hx. destruct (slice v k 8); [|done]. by injection Hx as ->.
Qed.
Lemma lane_var_of v l : size_of v = 16 → emit_lane_load v 8 = Ok l → ∃ x, v = Var x ∧ v_size x = 16.
Proof.
  intros Hv Hl. apply lane_load_inv in Hl as (y & Hy & _); [|done|by right]. destruct v as [x|z k]; [by exists x|done].
Qed.
Lemma runs_lane_load x k l rest st' L' s' r :
  emit_lane_load (Var x) k = Ok l → k = 0 ∨ k = 8 → v_size x = 16 → var_ok x →
  L' !! REGS_BASE_PARAM = Some (W.I32, base) →
  runs rest (mk ((W.I64, read_reg (W.s_regs s') (regs_var_offset x + k) 8) :: st') L' s') r →
  runs (l ++ rest) (mk st' L' s') r.
Proof.
  intros Hl Hk Hx (? & ? & ? & _) Hbase Hr. apply lane_load_inv in Hl as (y & Hy & Hl); [|done|done].
  cbn in Hy. unfold slice_var in Hy. rewrite Hx in Hy. replace (16 <? k + 8) with false in Hy by lia. cbn in Hy.
  injection Hy as <-. eapply runs_emit_load; [exact Hlimit|exact Hl|done| |].
  - cbn. unfold regs_var_offset in *. cbn. lia.
  - change (ty 8) with W.I64. cbn [read].
    replace (regs_var_offset _) with (regs_var_offset x + k) by (unfold regs_var_offset; cbn; lia). exact Hr.
Qed.
Lemma runs_lane_store k l rest st' L' s' x r :
  emit_lane_store out k = Ok l → k = 0 ∨ k = 8 →
  runs rest (mk st' L' (set_regs (write_reg (W.s_regs s') (off + k) 8 x) s')) r →
  runs (l ++ rest) (mk ((W.I64, x) :: (W.I32, base) :: st') L' s') r.
Proof.
  intros Hl Hk Hr. unfold emit_lane_store, lane_var in Hl. apply rbind_Ok in Hl as (y & Hy & Hl).
  destruct Hout as (? & ? & ? & _). unfold slice_var in Hy. rewrite Ho16 in Hy.
  replace (16 <? k + 8) with false in Hy by lia. injection Hy as <-.
  eapply runs_app; [|exact Hr].
  replace (off + k) with (regs_var_offset {| v_id := v_id out; v_offset := v_offset out + k; v_size := 8 |})
    by (unfold regs_var_offset; cbn; lia).
  eapply runs_emit_store; [exact Hlimit|exact Hl|done|done| |]; unfold regs_var_offset in *; cbn; lia.
Qed.
Lemma runs_last_lane k l st' L' s' x :
  emit_lane_store out k = Ok l → k = 0 ∨ k = 8 →
  runs l (mk ((W.I64, x) :: (W.I32, base) :: st') L' s')
    (W.Next (mk st' L' (set_regs (write_reg (W.s_regs s') (off + k) 8 x) s'))).
Proof. intros Hl Hk. rewrite <- (app_nil_r l). eapply runs_lane_store; [done..|]. apply runs_nil. Qed.

Lemma agrees_lanes s' lo hi z :
  same in_pc (W.s_regs s') (write_reg (write_reg (W.s_regs s) off 8 lo) (off + 8) 8 hi) →
  W.s_mem s' = W.s_mem s → W.s_exc s' = W.s_exc s →
  lo mod 2 ^ 64 = z mod 2 ^ 64 → hi mod 2 ^ 64 = (z / 2 ^ 64) mod 2 ^ 64 → agrees base limit tlb s' (put out 16 z c).
Proof.
  intros Hr Hm Hx Hlo Hhi. destruct Hag as (Hs & Hm' & Hx' & Hi). split_and!; [|cbn; congruence..|exact Hi].
  rewrite Hr. cbn [put with_regs c_regs]. unfold write. rewrite write_reg_16.
  rewrite (write_reg_mod _ _ 8 lo z) by done. rewrite (write_reg_mod _ _ 8 hi (z / 2 ^ 64)) by done.
  by rewrite Hs.
Qed.
(** An instruction that computes both lanes of its output. *)
Lemma simulates_lanes code L' s' lo hi z :
  runs code (mk st L s) (W.Next (mk st L' s')) → locals_ok base tlb fast L' → kept fast L L' →
  same in_pc (W.s_regs s') (write_reg (write_reg (W.s_regs s) off 8 lo) (off + 8) 8 hi) →
  W.s_mem s' = W.s_mem s → W.s_exc s' = W.s_exc s → W.s_fault s' = W.s_fault s →
  lo mod 2 ^ 64 = z mod 2 ^ 64 → hi mod 2 ^ 64 = (z / 2 ^ 64) mod 2 ^ 64 → sim code (put out 16 z c).
Proof.
  intros Hr HL' Hk Hs Hm Hx Hf Hlo Hhi. unfold simulates. cbn [put with_regs c_exc]. rewrite He. cbn [Z.eqb].
  exists L', s'. split_and!; [done|by eapply agrees_lanes|done..].
Qed.

(** The lanes of an operand as the interpreter sees them. *)
Lemma get_16 x :
  get c (Var x) 16 =
  read_reg (c_regs c) (regs_var_offset x) 8 + 2 ^ 64 * read_reg (c_regs c) (regs_var_offset x + 8) 8.
Proof. apply read_reg_16. Qed.
Lemma read_lane x k :
  var_ok x → v_size x = 16 → k = 0 ∨ k = 8 →
  read_reg (W.s_regs s) (regs_var_offset x + k) 8 = read_reg (c_regs c) (regs_var_offset x + k) 8.
Proof.
  intros Hx Hs Hk. destruct Hag as (Hr & _). eapply same_read_reg; [exact Hr|]. intros j Hj. apply Hx. rewrite Hs. lia.
Qed.
Lemma read_lane_fits r k : fits 64 (read_reg r k 8).
Proof. apply (read_reg_fits r k 8). lia. Qed.
(** The high lane is still there after the low lane of the result is written. *)
Lemma read_high_lane x lo :
  lane_apart (Var x) → var_ok x → v_size x = 16 →
  read_reg (write_reg (W.s_regs s) (off + 0) 8 lo) (regs_var_offset x + 8) 8 =
  read_reg (c_regs c) (regs_var_offset x + 8) 8.
Proof.
  intros Hap Hx Hs. rewrite read_write_out by (cbn in Hap; lia). apply read_lane; [done..|by right].
Qed.

(** ** Logic *)
Definition lanewise (f : Z → Z → Z) : Prop :=
  ∀ x y, f x y mod 2 ^ 64 = f (x mod 2 ^ 64) (y mod 2 ^ 64) ∧ f x y / 2 ^ 64 = f (x / 2 ^ 64) (y / 2 ^ 64).
Ltac lane_in :=
  eapply runs_lane_load; [eassumption|by auto|assumption|assumption|eapply l_base; eassumption|].
Ltac lane_out :=
  match goal with H : emit_lane_store out ?k = Ok ?l |- JitSim.runs _ _ ?l' _ _ =>
    first [unify l l'; eapply runs_last_lane; [exact H|by auto]|eapply runs_lane_store; [exact H|by auto|]] end.
Ltac get0 := eapply runs_get; [eapply l_base; eassumption|].
Lemma lanes_cats f code : cats (f <$> WIDE_LANES) = Ok code → ∃ l l', f 0 = Ok l ∧ f 8 = Ok l' ∧ code = l ++ l'.
Proof.
  intros Hc. cbn in Hc. peel Hc. exists l, l0. split_and!; [done..|]. by rewrite app_nil_r.
Qed.
Lemma sim_wide_binop op f code c' :
  W.binop op = Some (W.I64, W.I64, λ x y, Some (f x y)) → lanewise f →
  (∀ x y, int_op o 128 x y = Some (f x y)) → lane_apart a → lane_apart b →
  emit_wide_binop out a b [op] = Ok code → Interp.binary i c = Some c' → sim code c'.
Proof.
  intros Hop Hf Hint Haa Hab Hc Hi. unfold emit_wide_binop in Hc. apply unless_Ok in Hc as [Hg Hc]. bool_to_prop.
  unfold Interp.binary in Hi. cbn in Hi. rewrite Ho16 in Hi. replace (size_of a) with 16 in Hi by lia.
  replace (size_of b) with 16 in Hi by lia. cbn in Hi. rewrite Hint in Hi. injection Hi as <-.
  apply lanes_cats in Hc as (l & l' & Hl & Hl' & ->). peel Hl. peel Hl'.
  destruct (lane_var_of a _ ltac:(done) Hl2) as (x & -> & Hx), (lane_var_of b _ ltac:(done) Hl3) as (y & -> & Hy).
  destruct (Hf (get c (Var x) 16) (get c (Var y) 16)) as [Hlo Hhi].
  rewrite !get_16, !lane_mod in Hlo by apply read_lane_fits. rewrite !get_16, !lane_div in Hhi by apply read_lane_fits.
  eapply (simulates_lanes _ _ _
    (f (read_reg (c_regs c) (regs_var_offset x) 8) (read_reg (c_regs c) (regs_var_offset y) 8))
    (f (read_reg (c_regs c) (regs_var_offset x + 8) 8) (read_reg (c_regs c) (regs_var_offset y + 8) 8)));
    [|exact HL|apply kept_refl| | | | |by rewrite !get_16, <- Hlo, Z.mod_mod by lia|by rewrite !get_16, Hhi].
  { rewrite <- ?app_assoc. cbn [app]. get0. do 2 lane_in. eapply runs_binop; [done..|]. lane_out.
    get0. do 2 lane_in. eapply runs_binop; [done..|]. lane_out. }
  all: try done. cbn [W.s_regs set_regs]. rewrite !read_high_lane, !read_lane by auto. by rewrite !Z.add_0_r.
Qed.

Definition word_op (op : W.code) (f : Z → Z) : Prop :=
  ∀ x rest st' L' s' r, runs rest (mk ((W.I64, f x) :: st') L' s') r → runs (op ++ rest) (mk ((W.I64, x) :: st') L' s') r.
Lemma sim_wide_unary op f z code :
  word_op op f → emit_wide_unary out a op = Ok code → lane_apart a →
  z mod 2 ^ 64 = f (get c a 16 mod 2 ^ 64) → z / 2 ^ 64 = f (get c a 16 / 2 ^ 64) →
  sim code (put out 16 z c).
Proof.
  intros Hop Hc Haa Hlo Hhi. unfold emit_wide_unary in Hc.
  apply unless_Ok in Hc as [Hg Hc]. bool_to_prop.
  apply lanes_cats in Hc as (l & l' & Hl & Hl' & ->). peel Hl. peel Hl'.
  destruct (lane_var_of a _ ltac:(done) Hl1) as (x & -> & Hx).
  rewrite get_16, lane_mod in Hlo by apply read_lane_fits. rewrite get_16, lane_div in Hhi by apply read_lane_fits.
  eapply (simulates_lanes _ _ _ (f (read_reg (c_regs c) (regs_var_offset x) 8))
                                (f (read_reg (c_regs c) (regs_var_offset x + 8) 8)));
    [|exact HL|apply kept_refl| | | | |by rewrite <- Hlo, Z.mod_mod by lia|by rewrite Hhi].
  { rewrite <- ?app_assoc. cbn [app]. get0. lane_in. apply Hop. lane_out. get0. lane_in. apply Hop. lane_out. }
  all: try done. cbn [W.s_regs set_regs]. rewrite !read_high_lane, !read_lane by auto. by rewrite !Z.add_0_r.
Qed.
Lemma sim_wide_copy code c' :
  o = Op.Copy → size_of b = 0 → lane_apart a → emit_wide_unary out a [] = Ok code → Interp.interpret i c = Some c' → sim code c'.
Proof.
  intros Ho Hsb Haa Hc Hi. assert (size_of a = 16) as Hsa.
  { unfold emit_wide_unary in Hc. apply unless_Ok in Hc as [Hg _]. bool_to_prop. done. }
  unfold Interp.interpret in Hi. cbn [i_op i_a i_b i_out] in Hi. rewrite Ho, Ho16, Hsa, Hsb in Hi. cbn in Hi.
  injection Hi as <-. eapply (sim_wide_unary [] (λ x, x)); [by intros ? ? ? ?|done..].
Qed.
Lemma sim_wide_not code c' :
  size_of b = 0 → lane_apart a → emit_wide_unary out a [W.I64Const (-1); W.I64Xor] = Ok code →
  Interp.unary (λ w x, Z.lxor x (2 ^ w - 1)) i c = Some c' → sim code c'.
Proof.
  intros Hsb Haa Hc Hi. assert (size_of a = 16) as Hsa.
  { unfold emit_wide_unary in Hc. apply unless_Ok in Hc as [Hg _]. bool_to_prop. done. }
  unfold Interp.unary in Hi. cbn [i_op i_a i_b i_out] in Hi. rewrite Ho16, Hsa, Hsb in Hi. cbn in Hi.
  injection Hi as <-. eapply (sim_wide_unary _ (λ x, Z.lxor x (2 ^ 64 - 1))); [|done|done| |].
  - intros x rest st' L' s' r Hr. cbn [app]. apply runs_i64. eapply runs_binop; [done..|exact Hr].
  - rewrite lxor_mod by lia. done.
  - rewrite <- !Z.shiftr_div_pow2, Z.shiftr_lxor by lia. done.
Qed.

(** ** Extensions *)
Lemma runs_zext_i64 v l rest st' r :
  emit_zext_i64 v = Ok l → value_ok v → runs rest (mk ((W.I64, get c v (size_of v)) :: st') L s) r →
  runs (l ++ rest) (mk st' L s) r.
Proof.
  intros Hl Hv Hr. unfold emit_zext_i64 in Hl. peel Hl. destruct (wasm_ty_cases _ _ Hx) as [Hn ->].
  rewrite <- app_assoc. eapply runs_emit_load; [exact Hlimit|exact Hl0|by eapply l_base|apply value_operand; [done..|by eexists]|].
  rewrite (get_read base limit tlb s c) by (done || lia). rewrite is_i64_ty. unfold ty.
  destruct (size_of v =? 8); cbn [app]; [exact Hr|]. eapply runs_unop; [done|exact Hr].
Qed.
Lemma sim_wide_zero_extend code c' :
  size_of b = 0 → o = Op.ZeroExtend → word_size (size_of a) = true → zero_extend_op out a = Ok code →
  Interp.interpret i c = Some c' → sim code c'.
Proof.
  intros Hsb Ho Hw Hc Hi. unfold zero_extend_op in Hc. rewrite Ho16, Hw in Hc. cbn [Z.eqb Pos.eqb andb] in Hc.
  assert (0 ≤ size_of a ≤ 8) as Hsa by (apply bool_decide_eq_true in Hw; set_solver by lia).
  unfold Interp.interpret in Hi. cbn [i_op i_a i_b i_out] in Hi. rewrite Ho in Hi.
  rewrite extends_inv in Hi; [|done|by rewrite Ho16|lia|done]. rewrite Ho16 in Hi. injection Hi as <-. clear Ho. peel Hc.
  assert (fits 64 (get c a (size_of a))) as Hf by (eapply fits_weaken; [|apply read_fits]; lia).
  eapply (simulates_lanes _ _ _ (get c a (size_of a)) 0);
    [|exact HL|apply kept_refl| | | | |done|by rewrite Z.div_small].
  { cbn [app]. get0. eapply runs_zext_i64; [eassumption..|]. lane_out. get0. apply runs_i64. lane_out. }
  all: try done. cbn [W.s_regs set_regs]. by rewrite Z.add_0_r.
Qed.

(** The operand of a sign extension is read again after the low lane is written. *)
Definition sext_apart (v : Value) : Prop :=
  match v with
  | Var x => regs_var_offset x + v_size x ≤ off ∨ off + 8 ≤ regs_var_offset x ∨ regs_var_offset x = off
  | Const _ _ => True
  end.
Lemma runs_sext_i64 v n l rest st' s' r :
  emit_sext_i64 v n = Ok l → value_ok v → n = size_of v → fits (8 * n) (read (W.s_regs s') v n) →
  runs rest (mk ((W.I64, wrap 64 (signed (8 * n) (read (W.s_regs s') v n))) :: st') L s') r →
  runs (l ++ rest) (mk st' L s') r.
Proof.
  intros Hl Hv -> Hf Hr. set (n := size_of v) in *. unfold emit_sext_i64, emit_signed in Hl.
  apply cat_Ok in Hl as (l1 & l2 & Hl1 & Hl2 & ->). apply ops_Ok in Hl2 as ->.
  destruct (bool_decide (n ∈ [1; 2; 4; 8])) eqn:E; [|done]. apply bool_decide_eq_true in E.
  assert (n = 1 ∨ n = 2 ∨ n = 4 ∨ n = 8) as Hc by set_solver. peel Hl1. rewrite <- !app_assoc.
  eapply runs_emit_load; [exact Hlimit|exact Hl|by eapply l_base|apply value_operand; [done..|]|].
  { destruct Hc as [->|[->|[->| ->]]]; by eexists. }
  eapply runs_sign_fill; [done|done|]. unfold ty, width. destruct (n <? 8) eqn:En; cbn [app].
  - replace (n =? 8) with false by lia. eapply runs_unop; [done|]. cbv beta. rewrite (signed_extend (8 * n)) by lia. exact Hr.
  - replace (n =? 8) with true by lia. exact Hr.
Qed.
Lemma sim_wide_sign_extend code c' :
  size_of b = 0 → o = Op.SignExtend → word_size (size_of a) = true → sext_apart a → sign_extend_op out a = Ok code →
  Interp.interpret i c = Some c' → sim code c'.
Proof.
  intros Hsb Ho Hw Hap Hc Hi. unfold sign_extend_op in Hc. rewrite Ho16, Hw in Hc. cbn [Z.eqb Pos.eqb andb] in Hc.
  assert (1 ≤ size_of a ≤ 8) as Hsa by (apply bool_decide_eq_true in Hw; set_solver by lia).
  unfold Interp.interpret in Hi. cbn [i_op i_a i_b i_out] in Hi. rewrite Ho in Hi.
  rewrite extends_inv in Hi; [|done|by rewrite Ho16|lia|done]. rewrite Ho16 in Hi. injection Hi as <-. clear Ho. peel Hc.
  set (x := get c a (size_of a)). set (n := size_of a) in *. set (lo := wrap 64 (signed (8 * n) x)).
  assert (fits (8 * n) x) as Hf by (apply read_fits; lia).
  assert (read (W.s_regs s) a n = x) as Hx by (apply (get_read base limit tlb); (done || lia)).
  assert (read (write_reg (W.s_regs s) (off + 0) 8 lo) a n = x) as Hx'.
  { rewrite Z.add_0_r. destruct a as [v|z k]; [|by rewrite <- Hx]. cbn in Hap, Hx |- *.
    destruct Hap as [Hap|[Hap|Hap]]; [rewrite read_write_out by (cbn in *; lia); done..|].
    change (v_size v) with n. rewrite Hap, read_write_low by lia. subst lo. rewrite mod_extend by lia.
    rewrite Z.mod_small by exact Hf. subst x. cbn. by rewrite Hap. }
  assert (W.shr_s 64 lo (wrap 64 63) mod 2 ^ 64 = (signed (8 * n) x / 2 ^ 64) mod 2 ^ 64) as Hhi.
  { subst lo. unfold W.shr_s. rewrite signed_extend, mod_wrap by lia. change (wrap 64 63 mod 64) with 63.
    rewrite Z.shiftr_div_pow2 by lia. f_equal. pose proof (signed_range (8 * n) x).
    assert (2 ^ (8 * n - 1) ≤ 2 ^ 63) by (apply Z.pow_le_mono_r; lia).
    change (2 ^ 63) with 9223372036854775808 in *. change (2 ^ 64) with 18446744073709551616 in *.
    Z.to_euclidean_division_equations; lia. }
  eapply (simulates_lanes _ _ _ lo (W.shr_s 64 lo (wrap 64 63)));
    [|exact HL|apply kept_refl| | | | |subst lo; by rewrite mod_wrap by lia|exact Hhi].
  { cbn [app]. get0. eapply runs_sext_i64; [eassumption|done|done|by rewrite Hx|]. rewrite Hx. fold lo. lane_out.
    get0. eapply runs_sext_i64; [eassumption|done|done|cbn; by rewrite Hx'|]. cbn [W.s_regs set_regs]. rewrite Hx'.
    fold lo. apply runs_i64. eapply runs_binop; [done..|]. lane_out. }
  all: try done. cbn [W.s_regs set_regs]. by rewrite Z.add_0_r.
Qed.

(** ** Scratch locals *)
Lemma locals_set_at k m x L' :
  locals_ok base tlb fast L' → k = (fast_addr fast + m)%nat → scratch_types !! m = Some W.I64 →
  locals_ok base tlb fast (<[k := (W.I64, x)]> L').
Proof. intros HL' -> Hm. by apply locals_set. Qed.
Lemma kept_set_at k m v L' : kept fast L L' → k = (fast_addr fast + m)%nat → kept fast L (<[k := v]> L').
Proof. intros HL' ->. by apply kept_set. Qed.
Lemma runs_set_at k m x rest st' L' s' r :
  locals_ok base tlb fast L' → k = (fast_addr fast + m)%nat → scratch_types !! m = Some W.I64 →
  runs rest (mk st' (<[k := (W.I64, x)]> L') s') r → runs (W.LocalSet k :: rest) (mk ((W.I64, x) :: st') L' s') r.
Proof. intros HL' -> Hm Hr. destruct (l_scratch _ _ _ _ HL' m _ Hm) as [y Hy]. by eapply runs_set. Qed.
Lemma locals_length : (fast_wide fast + 5 < length L)%nat.
Proof.
  destruct (l_scratch _ _ _ _ HL 8 W.I64 eq_refl) as [x Hx%lookup_lt_Some].
  destruct Hfast as (_ & _ & _ & ->). rewrite <- Nat.add_assoc. exact Hx.
Qed.
Lemma wide_index k : (fast_wide fast + k)%nat = (fast_addr fast + (3 + k))%nat.
Proof. destruct Hfast as (_ & _ & _ & ->). lia. Qed.
Lemma wide_index_0 : fast_wide fast = (fast_addr fast + 3)%nat.
Proof. by destruct Hfast as (_ & _ & _ & ->). Qed.
Ltac at_index := first [apply wide_index|apply wide_index_0].
Ltac locals := repeat (eapply locals_set_at; [|at_index|reflexivity]); exact HL.
Ltac keeps_locals := repeat (eapply kept_set_at; [|at_index]); apply kept_refl.
Ltac set_local := eapply runs_set_at; [locals|at_index|reflexivity|].
Ltac lookup_local :=
  first [apply list_lookup_insert_eq; rewrite ?length_insert; eapply Nat.le_lt_trans; [|exact locals_length]; lia
        |rewrite list_lookup_insert_ne by lia; lookup_local].
Ltac get_local := eapply runs_get; [lookup_local|].
Ltac base_local := eapply runs_get; [eapply l_base; locals|].
Ltac bin := eapply runs_binop; [reflexivity..|]; cbv beta.
Lemma runs_snapshot v x k j m l rest st' L' r :
  emit_snapshot v k j = Ok l → v = Var x → k = 0 ∨ k = 8 → v_size x = 16 → var_ok x → locals_ok base tlb fast L' →
  j = (fast_addr fast + m)%nat → scratch_types !! m = Some W.I64 →
  runs rest (mk st' (<[j := (W.I64, read_reg (c_regs c) (regs_var_offset x + k) 8)]> L') s) r →
  runs (l ++ rest) (mk st' L' s) r.
Proof.
  intros Hl -> Hk Hx Hv HL' Hj Hm Hr. unfold emit_snapshot in Hl. peel Hl. rewrite <- app_assoc.
  eapply runs_lane_load; [exact Hl0|done..|by eapply l_base|]. rewrite read_lane by done. cbn [app].
  by eapply runs_set_at.
Qed.
Lemma snapshot_var v j l : size_of v = 16 → emit_snapshot v 8 j = Ok l → ∃ x, v = Var x ∧ v_size x = 16.
Proof. intros Hv Hl. unfold emit_snapshot in Hl. peel Hl. by eapply lane_var_of. Qed.

Ltac snapshot Hl := eapply runs_snapshot; [exact Hl|reflexivity|by auto|assumption|assumption|locals|at_index|reflexivity|].

(** ** Multiplication *)
Lemma land_lo x : Z.land x (wrap 64 LO32_MASK) = x mod 2 ^ 32.
Proof. change (wrap 64 LO32_MASK) with (Z.ones 32). by rewrite Z.land_ones. Qed.
Lemma shr_hi x : W.shr_u 64 x (wrap 64 32) = x / 2 ^ 32.
Proof. unfold W.shr_u. change (wrap 64 32 mod 64) with 32. by rewrite Z.shiftr_div_pow2. Qed.
Lemma runs_lo x rest st' L' s' r :
  runs rest (mk ((W.I64, x mod 2 ^ 32) :: st') L' s') r →
  runs (W.I64Const LO32_MASK :: W.I64And :: rest) (mk ((W.I64, x) :: st') L' s') r.
Proof. intros Hr. apply runs_i64. bin. by rewrite land_lo. Qed.
Lemma runs_hi x rest st' L' s' r :
  runs rest (mk ((W.I64, x / 2 ^ 32) :: st') L' s') r →
  runs (W.I64Const 32 :: W.I64ShrU :: rest) (mk ((W.I64, x) :: st') L' s') r.
Proof. intros Hr. apply runs_i64. bin. by rewrite shr_hi. Qed.
Lemma runs_add64 x y rest st' L' s' r :
  runs rest (mk ((W.I64, wrap 64 (x + y)) :: st') L' s') r →
  runs (W.I64Add :: rest) (mk ((W.I64, y) :: (W.I64, x) :: st') L' s') r.
Proof. intros Hr. by bin. Qed.
Lemma runs_mul64 x y rest st' L' s' r :
  runs rest (mk ((W.I64, wrap 64 (x * y)) :: st') L' s') r →
  runs (W.I64Mul :: rest) (mk ((W.I64, y) :: (W.I64, x) :: st') L' s') r.
Proof. intros Hr. by bin. Qed.
Ltac mul_step Hgx Hgy :=
  match goal with
  | |- JitSim.runs _ _ (W.LocalGet _ :: _) _ _ => eapply runs_get; [first [exact Hgx|exact Hgy]|]
  | |- JitSim.runs _ _ (W.I64Const LO32_MASK :: _) _ _ => apply runs_lo
  | |- JitSim.runs _ _ (W.I64Const 32 :: _) _ _ => apply runs_hi
  | |- JitSim.runs _ _ (W.I64Add :: _) _ _ => apply runs_add64
  | |- JitSim.runs _ _ (W.I64Mul :: _) _ _ => apply runs_mul64
  end.
Lemma runs_mulhi x y L' :
  fits 64 x → fits 64 y → locals_ok base tlb fast L' →
  L' !! fast_wide fast = Some (W.I64, x) → L' !! (fast_wide fast + 2)%nat = Some (W.I64, y) →
  ∃ t, ∀ rest st' s' r,
    runs rest (mk ((W.I64, x * y / 2 ^ 64) :: st') (<[(fast_wide fast + 4)%nat := (W.I64, t)]> L') s') r →
    runs (emit_mulhi_u64 (fast_wide fast) (fast_wide fast + 2) (fast_wide fast + 4) ++ rest) (mk st' L' s') r.
Proof.
  intros Hx Hy HL' Hgx Hgy. eexists. intros rest st' s' r Hr. unfold emit_mulhi_u64, lo, hi. cbn [app].
  pose proof (l_scratch _ _ _ _ HL' 7 W.I64 eq_refl) as [z Hz].
  assert (fast_wide fast + 4 = fast_addr fast + 7)%nat as H4 by apply (wide_index 4).
  repeat mul_step Hgx Hgy. eapply runs_set_at; [done|exact H4|done|]. rewrite <- H4 in Hz.
  match goal with |- JitSim.runs _ _ _ (mk _ ?L2 _) _ =>
    assert (L2 !! fast_wide fast = Some (W.I64, x)) as Hgx2 by (by rewrite list_lookup_insert_ne by lia);
    assert (L2 !! (fast_wide fast + 2)%nat = Some (W.I64, y)) as Hgy2 by (by rewrite list_lookup_insert_ne by lia)
  end.
  repeat mul_step Hgx2 Hgy2.
  eapply runs_get; [apply list_lookup_insert_eq; by eapply lookup_lt_Some|]. repeat mul_step Hgx2 Hgy2.
  rewrite <- (mulhi_wrapped x y) in Hr by done. apply Hr.
Qed.
Lemma sim_wide_mul code c' :
  o = Op.IntMul → emit_wide_mul out a b fast = Ok code → Interp.binary i c = Some c' → sim code c'.
Proof.
  intros Ho Hc Hi. unfold emit_wide_mul in Hc. apply unless_Ok in Hc as [Hg Hc]. bool_to_prop.
  unfold Interp.binary in Hi. cbn [i_op i_a i_b i_out] in Hi. rewrite Ho, Ho16 in Hi.
  replace (size_of a) with 16 in Hi by lia. replace (size_of b) with 16 in Hi by lia. cbn in Hi. injection Hi as <-.
  clear Ho. peel Hc.
  destruct (snapshot_var a _ _ ltac:(done) Hl0) as (x & Ea & Hx), (snapshot_var b _ _ ltac:(done) Hl2) as (y & Eb & Hy).
  rewrite Ea, Eb in *. rewrite !get_16.
  set (al := read_reg (c_regs c) (regs_var_offset x) 8). set (ah := read_reg (c_regs c) (regs_var_offset x + 8) 8).
  set (bl := read_reg (c_regs c) (regs_var_offset y) 8). set (bh := read_reg (c_regs c) (regs_var_offset y + 8) 8).
  assert (fits 64 al ∧ fits 64 bl) as [Hal Hbl] by (split; apply read_lane_fits).
  destruct (wide_product al ah bl bh) as [Hlo Hhi]; [done..|].
  destruct (runs_mulhi al bl (<[(fast_wide fast + 3)%nat := (W.I64, bh)]> (<[(fast_wide fast + 2)%nat := (W.I64, bl)]>
    (<[(fast_wide fast + 1)%nat := (W.I64, ah)]> (<[fast_wide fast := (W.I64, al)]> L))))) as [t Ht];
    [exact Hal|exact Hbl|locals|lookup_local|lookup_local|].
  eapply (simulates_lanes _ _ _ (wrap 64 (al * bl)) _ (wrap (8 * 16) ((al + 2 ^ 64 * ah) * (bl + 2 ^ 64 * bh))));
    [..|exact Hlo|exact Hhi].
  { cbn [app]. snapshot Hl. snapshot Hl0. snapshot Hl1. snapshot Hl2. rewrite !Z.add_0_r. fold al ah bl bh.
    base_local. get_local. get_local. bin. lane_out. base_local.
    apply Ht. do 2 get_local. do 2 bin. do 2 get_local. do 2 bin. lane_out. }
  1: locals. 1: keeps_locals. 2-4: done. cbn [W.s_regs set_regs]. by rewrite Z.add_0_r.
Qed.

(** ** Shifts *)
Lemma lanes_swapped lo hi :
  same in_pc (write_reg (write_reg (W.s_regs s) (off + 8) 8 hi) (off + 0) 8 lo)
    (write_reg (write_reg (W.s_regs s) off 8 lo) (off + 8) 8 hi).
Proof.
  intros j _. rewrite Z.add_0_r. unfold write_reg.
  assert (zlen (le_bytes (Z.to_nat 8) lo) = 8 ∧ zlen (le_bytes (Z.to_nat 8) hi) = 8) as [El Eh] by (by rewrite !zlen_le_bytes).
  destruct (decide (off ≤ j < off + 8)).
  - rewrite (reg_byte_put_out _ (off + 8)) by lia. apply reg_byte_put_in. lia.
  - rewrite (reg_byte_put_out _ off) by lia. destruct (decide (off + 8 ≤ j < off + 16)).
    + apply reg_byte_put_in. lia.
    + by rewrite !reg_byte_put_out by lia.
Qed.
Lemma runs_wide_count l rest st' L' r :
  emit_shift_count_u32 b = Ok l → locals_ok base tlb fast L' →
  runs rest (mk ((W.I64, wrap 32 (get c b (size_of b))) :: st') L' s) r →
  runs (l ++ W.I64ExtendI32U :: rest) (mk st' L' s) r.
Proof.
  intros Hl HL' Hr. eapply (runs_shift_count base limit tlb); try eassumption.
  eapply runs_unop; [done|exact Hr].
Qed.
Lemma select_below (y k x z : Z) : (if W.truth (y <? k) =? 0 then x else z) = if y <? k then z else x.
Proof. by destruct (y <? k). Qed.
Lemma shift_wide_inv c' :
  (size_of b = 1 ∨ size_of b = 2 ∨ size_of b = 4 ∨ size_of b = 8) → size_of a = 16 →
  o = Op.IntLeft ∨ o = Op.IntRight → Interp.shift_op i c = Some c' →
  let y := wrap 32 (get c b (size_of b)) in
  c' = put out 16 (if y <? 128 then if bool_decide (o = Op.IntLeft) then wrap 128 (Z.shiftl (get c a 16) y)
                                   else Z.shiftr (get c a 16) y else 0) c.
Proof.
  intros Hsb Hsa Ho Hi y. unfold Interp.shift_op in Hi. cbn [i_op i_a i_b i_out] in Hi. rewrite !zxt_get in Hi by lia.
  fold y in Hi. rewrite !put_trunc_put in Hi by lia. rewrite Hsa, Ho16 in Hi.
  rewrite !(wrap_id 128 (get c a 16)) in Hi by (apply (read_fits _ _ 16); lia).
  change (16 * 8) with 128 in Hi. destruct (128 <=? y) eqn:E; injection Hi as <-; [by replace (y <? 128) with false by lia|].
  by replace (y <? 128) with true by lia.
Qed.
Ltac step_shift :=
  match goal with
  | |- JitSim.runs _ _ (W.LocalGet REGS_BASE_PARAM :: _) _ _ => base_local
  | |- JitSim.runs _ _ (W.LocalGet _ :: _) _ _ => get_local
  | |- JitSim.runs _ _ (W.LocalSet _ :: _) _ _ => set_local
  | |- JitSim.runs _ _ (W.I64Const _ :: _) _ _ => apply runs_i64
  | |- JitSim.runs _ _ (W.Select :: _) _ _ => apply runs_select
  | |- JitSim.runs _ _ (_ :: _) _ _ => bin
  | |- JitSim.runs _ _ _ _ _ => lane_out
  end.
Lemma shift_consts y :
  0 ≤ y → wrap 64 63 = 63 ∧ wrap 64 64 = 64 ∧ wrap 64 128 = 128 ∧ wrap 64 127 = 127 ∧ wrap 64 0 = 0 ∧ wrap 64 1 = 1 ∧
  Z.land y 63 = y mod 64 ∧ wrap 64 (63 - y mod 64) = 63 - y mod 64.
Proof.
  intros Hy. split_and!; [done..|by apply land_63|]. apply wrap_id. pose proof (Z.mod_pos_bound y 64). unfold fits. lia.
Qed.
Ltac fold_consts y Hy :=
  let H := fresh in pose proof (shift_consts y Hy) as H;
  let a := fresh in let b := fresh in let c := fresh in let d := fresh in let e := fresh in let f := fresh in
  let g := fresh in let h := fresh in
  destruct H as (a & b & c & d & e & f & g & h); rewrite ?a, ?b, ?c, ?d, ?e, ?f, ?g, ?h, ?select_below.
Lemma sim_wide_left code y z :
  size_of a = 16 → y = wrap 32 (get c b (size_of b)) → z = (if y <? 128 then wrap 128 (Z.shiftl (get c a 16) y) else 0) →
  emit_wide_shift out a b Left fast = Ok code → sim code (put out 16 z c).
Proof.
  intros Hsa Hy -> Hc. unfold emit_wide_shift in Hc. apply unless_Ok in Hc as [Hg Hc].
  apply rbind_Ok in Hc as (t & _ & Hc).
  change (bool_decide (Left = RightS)) with false in Hc. change (bool_decide (Left = Left)) with true in Hc.
  cbn iota in Hc. assert (0 ≤ y) as Hy0 by (rewrite Hy; apply wrap_fits; lia).
  cbn [app] in Hc. revert Hy. peel Hc. intros Hy.
  destruct (snapshot_var a _ _ Hsa Hl0) as (x & Ea & Hx). rewrite Ea in *. rewrite get_16.
  set (al := read_reg (c_regs c) (regs_var_offset x) 8). set (ah := read_reg (c_regs c) (regs_var_offset x + 8) 8).
  destruct (shift_left_lanes al ah y) as [Hlo Hhi]; [apply read_lane_fits..|lia|].
  eapply simulates_lanes; [..|exact Hlo|exact Hhi].
  { cbn [app]. snapshot Hl. snapshot Hl0. rewrite !Z.add_0_r. fold al ah.
    eapply runs_wide_count; [exact Hl1|locals|]. rewrite <- Hy. repeat step_shift. }
  1: locals. 1: keeps_locals. 2-4: done. cbn [W.s_regs set_regs]. rewrite Z.add_0_r.
  fold_consts y Hy0. reflexivity.
Qed.
Lemma sim_wide_right code mode y z :
  mode ≠ Left → size_of a = 16 →
  y = (if bool_decide (mode = RightS) then Z.min (wrap 32 (get c b (size_of b))) 127 else wrap 32 (get c b (size_of b))) →
  z = (if y <? 128 then Z.shiftr (get c a 16) y else 0) →
  emit_wide_shift out a b mode fast = Ok code → sim code (put out 16 z c).
Proof.
  intros Hm Hsa Hy -> Hc. unfold emit_wide_shift in Hc. apply unless_Ok in Hc as [Hg Hc].
  apply rbind_Ok in Hc as (t & _ & Hc). rewrite (bool_decide_false (mode = Left)) in Hc by done. cbn iota in Hc.
  set (n := wrap 32 (get c b (size_of b))) in *. assert (0 ≤ n < 2 ^ 32) as Hn by (apply wrap_fits; lia).
  assert (0 ≤ y) as Hy0 by (rewrite Hy; destruct (bool_decide _); lia). revert Hy. peel Hc. intros Hy.
  destruct (snapshot_var a _ _ Hsa Hl0) as (x & Ea & Hx). rewrite Ea in *. rewrite get_16.
  set (al := read_reg (c_regs c) (regs_var_offset x) 8). set (ah := read_reg (c_regs c) (regs_var_offset x + 8) 8).
  destruct (shift_right_lanes al ah y) as [Hlo Hhi]; [apply read_lane_fits..|lia|].
  assert ((if W.truth (n <? 127) =? 0 then 127 else n) = Z.min n 127) as Hmin.
  { rewrite select_below. destruct (n <? 127) eqn:E; lia. }
  destruct (bool_decide (mode = RightS)); (eapply simulates_lanes; [..|exact Hlo|exact Hhi]).
  1: cbn [app]; snapshot Hl; snapshot Hl0; rewrite !Z.add_0_r; fold al ah;
    (eapply runs_wide_count; [exact Hl1|locals|]); fold n; do 7 step_shift; change (wrap 64 127) with 127;
    rewrite Hmin, <- Hy; repeat step_shift.
  7: cbn [app]; snapshot Hl; snapshot Hl0; rewrite !Z.add_0_r; fold al ah;
    (eapply runs_wide_count; [exact Hl1|locals|]); fold n; rewrite <- Hy; repeat step_shift.
  1,7: locals. 1,6: keeps_locals. 2-4,6-8: done.
  all: cbn [W.s_regs set_regs]; rewrite lanes_swapped, <- ?Hy; fold_consts y Hy0; reflexivity.
Qed.
Lemma sim_wide_shift code c' :
  o = Op.IntLeft ∨ o = Op.IntRight →
  emit_wide_shift out a b (if bool_decide (o = Op.IntLeft) then Left else RightU) fast = Ok code →
  Interp.shift_op i c = Some c' → sim code c'.
Proof.
  intros Ho Hc Hi. assert (size_of a = 16 ∧ is_Some (wasm_ty (size_of b))) as [Hsa [t [Hsb _]%wasm_ty_cases]].
  { unfold emit_wide_shift in Hc. apply unless_Ok in Hc as [Hg Hc]. bool_to_prop.
    apply rbind_Ok in Hc as (t & Ht%bail_Ok & _). by split; [|eexists]. }
  apply shift_wide_inv in Hi; [|done..]. cbn zeta in Hi. rewrite Hi.
  destruct (bool_decide (o = Op.IntLeft)); [by eapply sim_wide_left|].
  by apply (sim_wide_right _ RightU (wrap 32 (get c b (size_of b)))).
Qed.
Lemma sim_wide_signed_right code c' :
  emit_wide_shift out a b RightS fast = Ok code → Interp.signed_right i c = Some c' → sim code c'.
Proof.
  intros Hc Hi. assert (size_of a = 16 ∧ is_Some (wasm_ty (size_of b))) as [Hsa [t [Hsb _]%wasm_ty_cases]].
  { unfold emit_wide_shift in Hc. apply unless_Ok in Hc as [Hg Hc]. bool_to_prop.
    apply rbind_Ok in Hc as (t & Ht%bail_Ok & _). by split; [|eexists]. }
  unfold Interp.signed_right in Hi. cbn [i_op i_a i_b i_out] in Hi. rewrite zxt_get, read_dynamic_get in Hi by lia.
  rewrite Hsa, Ho16 in Hi. unfold sxt in Hi. cbn [fst snd] in Hi.
  rewrite wrap_signed, (wrap_id (8 * 16)) in Hi by (lia || apply (read_fits _ _ 16); lia).
  change (16 * 8 - 1) with 127 in Hi. set (y := Z.min (wrap 32 (get c b (size_of b))) 127) in *.
  replace ((16 =? 0) || (128 <=? y)) with false in Hi by (cbn; lia). rewrite put_trunc_put in Hi by lia.
  rewrite Ho16 in Hi. injection Hi as <-. apply (sim_wide_right _ RightS y); [done|done|done| |done].
  by replace (y <? 128) with true by lia.
Qed.
End wide.

(** The floating-point arms: the same operation on the same bit patterns, and
    the conversion to integers of a value that may not fit. *)
Lemma float_size_cases n : float_size n = true ↔ n = 4 ∨ n = 8.
Proof. unfold float_size. rewrite bool_decide_eq_true. set_solver. Qed.

Section floats.
Context `{Arch} `{Floats} {G : Type} `{Softmmu G} `{Escapes G} (base limit tlb : Z) `{!SoftmmuLaws G base limit tlb}.
Context (Hlimit : base + REG_SPACE_BYTES ≤ limit).
Abbreviation mk := (W.Build_cfg G).
Abbreviation runs := (runs base limit).

Context (o : Op.op) (out : VarNode) (a b : Value) (index : Z) (it : option nat) (fast : FastLocals).
Context (st L : list W.val) (s : W.store G) (c : Cpu G).
Context (Hout : var_ok out) (Ha : value_ok a) (Hb : value_ok b).
Context (Hfast : fast_ok fast) (HL : locals_ok base tlb fast L).
Context (Hag : agrees base limit tlb s c) (He : exc_code (c_exc c) = 0).
Abbreviation i := {| i_op := o; i_a := a; i_b := b; i_out := out |}.
Abbreviation sim code c' := (simulates base limit tlb code index it fast st L s c').

Definition fty (n : Z) : W.ValType := if n =? 4 then W.F32 else W.F64.
Lemma runs_operand v n l rest st' r :
  emit_float_operand v n = Ok l → value_ok v → n = size_of v →
  runs rest (mk ((fty n, get c v n) :: st') L s) r → runs (l ++ rest) (mk st' L s) r.
Proof.
  intros Hl Hv Hn Hr. unfold emit_float_operand in Hl. unfold fty in Hr.
  destruct (n =? 4) eqn:E4; [|destruct (n =? 8) eqn:E8; [|done]];
    [assert (n = 4) as E by lia|assert (n = 8) as E by lia]; rewrite <- E in Hl; revert Hn E; peel Hl; intros Hn E;
    rewrite <- app_assoc; (eapply runs_emit_load; [exact Hlimit|exact Hl0|by eapply l_base|apply value_operand; [done..|rewrite E; by eexists]|]);
    rewrite (get_read base limit tlb s c) by (done || lia); rewrite E in *; cbn [app]; (eapply runs_unop; [done|exact Hr]).
Qed.
Lemma runs_float_store l st' L' n x :
  emit_float_store out = Ok l → n = v_size out →
  runs l (mk ((fty n, x) :: (W.I32, base) :: st') L' s)
    (W.Next (mk st' L' (set_regs (write (W.s_regs s) out n x) s))).
Proof.
  intros Hl ->. destruct Hout as (? & ? & ? & _). unfold emit_float_store in Hl. unfold fty.
  destruct (v_size out =? 4) eqn:E4; [|destruct (v_size out =? 8) eqn:E8; [|done]]; apply ops_Ok in Hl as ->;
    [assert (v_size out = 4) as E by lia|assert (v_size out = 8) as E by lia];
    (eapply runs_store; [reflexivity|unfold reg_arg; cbn; rewrite (regs_offset out (v_size out)) by lia; lia|]);
    unfold reg_arg; cbn [W.m_offset raw_arg]; rewrite (regs_offset out (v_size out)) by lia;
    (rewrite lin_write_regs; [|lia|rewrite zlen_le_bytes; lia]); unfold write, write_reg; rewrite E; apply runs_nil.
Qed.
Ltac float_out :=
  match goal with
  | E : (v_size out =? 4) = true |- _ => replace (v_size out) with 4 by lia; apply (runs_float_store _ _ _ 4)
  | E : (v_size out =? 4) = false |- _ => replace (v_size out) with 8 by lia; apply (runs_float_store _ _ _ 8)
  end; done || lia.
Ltac get0 := eapply runs_get; [exact (l_base _ _ _ _ HL)|].
Ltac operand := eapply runs_operand; [eassumption|assumption|congruence|].
Ltac put_arm := eapply simulates_put; [first [lia|idtac]|exact Hag|exact He|exact HL|apply kept_refl| |].

Lemma sim_float_op op32 op64 f code c' :
  W.binop op32 = Some (W.F32, W.F32, λ x y, Some (f 4 x y)) → W.binop op64 = Some (W.F64, W.F64, λ x y, Some (f 8 x y)) →
  (∀ n x y, float_op o n x y = Some (f n x y)) →
  float_op_arm out a b op32 op64 = Ok code → Interp.float_binary i c = Some c' → sim code c'.
Proof.
  intros H32 H64 Hf Hc Hi. unfold float_op_arm in Hc. apply unless_Ok in Hc as [Hg Hc]. bool_to_prop.
  match goal with H : float_size _ = true |- _ => pose proof H as Hs; apply float_size_cases in H end.
  unfold Interp.float_binary in Hi. cbn [i_op i_a i_b i_out] in Hi.
  replace (size_of a =? v_size out) with true in Hi by lia. replace (size_of b =? v_size out) with true in Hi by lia.
  rewrite Hs in Hi. replace (v_size out =? 10) with false in Hi by lia. cbn [andb orb] in Hi. rewrite Hf in Hi. injection Hi as <-.
  peel Hc. put_arm; [cbn [app]; get0; operand; operand|reflexivity].
  unfold fty. destruct (v_size out =? 4) eqn:E; (eapply runs_binop; [done..|]); float_out.
Qed.
Lemma sim_float_unary op32 op64 f code c' :
  W.unop op32 = Some (W.F32, W.F32, f 4) → W.unop op64 = Some (W.F64, W.F64, f 8) →
  (∀ n x, float_unary o n x = Some (f n x)) →
  float_unary_arm out a op32 op64 = Ok code → Interp.float_single i c = Some c' → sim code c'.
Proof.
  intros H32 H64 Hf Hc Hi. unfold float_unary_arm in Hc. apply unless_Ok in Hc as [Hg Hc]. bool_to_prop.
  match goal with H : float_size _ = true |- _ => pose proof H as Hs; apply float_size_cases in H end.
  unfold Interp.float_single in Hi. cbn [i_op i_a i_b i_out] in Hi.
  replace (size_of a =? v_size out) with true in Hi by lia.
  rewrite Hs in Hi. replace (v_size out =? 10) with false in Hi by lia. cbn [andb orb] in Hi. rewrite Hf in Hi. injection Hi as <-.
  peel Hc. put_arm; [cbn [app]; get0; operand|reflexivity].
  unfold fty. destruct (v_size out =? 4) eqn:E; (eapply runs_unop; [done..|]); float_out.
Qed.
Lemma runs_bool_store l st' L' x :
  emit_store out = Ok l → v_size out = 1 →
  runs l (mk ((W.I32, x) :: (W.I32, base) :: st') L' s)
    (W.Next (mk st' L' (set_regs (write (W.s_regs s) out 1 x) s))).
Proof. intros Hl Ho. eapply runs_emit_store; [exact Hlimit|exact Hl|done|done|apply Hout..]. Qed.
Lemma sim_float_compare op32 op64 f code c' :
  W.binop op32 = Some (W.F32, W.I32, λ x y, Some (W.truth (f 4 x y))) →
  W.binop op64 = Some (W.F64, W.I32, λ x y, Some (W.truth (f 8 x y))) →
  (∀ n x y, float_cmp o n x y = Some (f n x y)) →
  float_compare_arm out a b op32 op64 = Ok code → Interp.float_compare i c = Some c' → sim code c'.
Proof.
  intros H32 H64 Hf Hc Hi. unfold float_compare_arm in Hc. apply unless_Ok in Hc as [Hg Hc]. bool_to_prop.
  match goal with H : float_size _ = true |- _ => pose proof H as Hs; apply float_size_cases in H end.
  unfold Interp.float_compare in Hi. cbn [i_op i_a i_b i_out] in Hi.
  replace (v_size out =? 1) with true in Hi by lia. replace (size_of b =? size_of a) with true in Hi by lia.
  rewrite Hs in Hi. replace (size_of a =? 10) with false in Hi by lia. cbn [andb orb] in Hi. rewrite Hf in Hi. injection Hi as <-.
  peel Hc. put_arm; [cbn [app]; get0; operand; operand|reflexivity].
  unfold fty. destruct (size_of a =? 4) eqn:E.
  - eapply runs_binop; [done..|]. replace (size_of a) with 4 by lia. by apply runs_bool_store.
  - eapply runs_binop; [done..|]. replace (size_of a) with 8 by lia. by apply runs_bool_store.
Qed.
Lemma sim_is_nan `{!FloatLaws} code c' :
  is_nan_op out a = Ok code → Interp.float_nan i c = Some c' → sim code c'.
Proof.
  intros Hc Hi. unfold is_nan_op in Hc. apply unless_Ok in Hc as [Hg Hc]. bool_to_prop.
  match goal with H : float_size _ = true |- _ => pose proof H as Hs; apply float_size_cases in H end.
  unfold Interp.float_nan in Hi. cbn [i_op i_a i_b i_out] in Hi.
  replace (v_size out =? 1) with true in Hi by lia.
  rewrite Hs in Hi. replace (size_of a =? 10) with false in Hi by lia. cbn [andb orb] in Hi. injection Hi as <-.
  pose proof (fl_eq_refl _ (get c a (size_of a)) Hs) as Hnan.
  peel Hc. put_arm; [cbn [app]; get0; operand; operand|].
  - unfold fty. instantiate (1 := W.truth (negb (fl_eq (size_of a) (get c a (size_of a)) (get c a (size_of a))))).
    destruct (size_of a =? 4) eqn:E; (eapply runs_binop; [done..|]);
      [replace (size_of a) with 4 by lia|replace (size_of a) with 8 by lia]; by apply runs_bool_store.
  - by rewrite Hnan, negb_involutive.
Qed.

(** ** Conversions *)
Lemma sim_int_to_float code c' :
  o = Op.IntToFloat → size_of b = 0 → int_to_float_op out a = Ok code → Interp.interpret i c = Some c' → sim code c'.
Proof.
  intros Ho Hsb Hc Hi. unfold int_to_float_op in Hc. apply unless_Ok in Hc as [Hg Hc]. bool_to_prop.
  match goal with H : float_size _ = true |- _ => pose proof H as Hs; apply float_size_cases in H; rename H into Hn end.
  match goal with H : word_size _ = true |- _ => rename H into Hw end.
  unfold Interp.interpret in Hi. cbn [i_op i_a i_b i_out] in Hi. rewrite Ho, Hw, Hsb in Hi. unfold Interp.to_float in Hi.
  cbn [Z.eqb andb] in Hi. rewrite Hs in Hi. injection Hi as <-. clear Ho.
  apply bool_decide_eq_true in Hw. assert (size_of a = 1 ∨ size_of a = 2 ∨ size_of a = 4 ∨ size_of a = 8) as Hsa by set_solver.
  assert (fits (8 * size_of a) (get c a (size_of a))) as Hf by (apply get_fits; lia).
  peel Hc. unfold emit_signed in Hl. rewrite bool_decide_true in Hl by done. peel Hl. rewrite <- app_assoc.
  assert (is_Some (wasm_ty (size_of a))) as Hty by (destruct Hsa as [->|[->|[->| ->]]]; by eexists).
  put_arm.
  - cbn [app]. get0. eapply runs_emit_load; [exact Hlimit|exact Hl0|by eapply l_base|by apply value_operand|].
    rewrite (get_read base limit tlb s c) by (done || lia). eapply runs_sign_fill; [done..|].
    instantiate (1 := fl_of_int (v_size out) (signed (8 * size_of a) (get c a (size_of a)))).
    pose proof (signed_width (size_of a) (get c a (size_of a)) Hsa) as Hsw. unfold ty, width in *.
    destruct (size_of a =? 8) eqn:Ea, (v_size out =? 4) eqn:Eo; (eapply runs_unop; [done|]); cbv beta; rewrite Hsw; float_out.
  - done.
Qed.
Lemma sim_uint_to_float code c' :
  o = Op.UintToFloat → size_of b = 0 → uint_to_float_op out a = Ok code → Interp.interpret i c = Some c' → sim code c'.
Proof.
  intros Ho Hsb Hc Hi. unfold uint_to_float_op in Hc. apply unless_Ok in Hc as [Hg Hc]. bool_to_prop.
  match goal with H : float_size _ = true |- _ => pose proof H as Hs; apply float_size_cases in H; rename H into Hn end.
  match goal with H : word_size _ = true |- _ => rename H into Hw end.
  unfold Interp.interpret in Hi. cbn [i_op i_a i_b i_out] in Hi. rewrite Ho, Hw, Hsb in Hi. unfold Interp.to_float in Hi.
  cbn [Z.eqb andb] in Hi. rewrite Hs in Hi. injection Hi as <-. clear Ho.
  apply bool_decide_eq_true in Hw. assert (size_of a = 1 ∨ size_of a = 2 ∨ size_of a = 4 ∨ size_of a = 8) as Hsa by set_solver.
  peel Hc. assert (is_Some (wasm_ty (size_of a))) as Hty by (destruct Hsa as [->|[->|[->| ->]]]; by eexists).
  put_arm.
  - cbn [app]. get0. eapply runs_emit_load; [exact Hlimit|exact Hl|by eapply l_base|by apply value_operand|].
    rewrite (get_read base limit tlb s c) by (done || lia).
    instantiate (1 := fl_of_int (v_size out) (get c a (size_of a))). unfold ty.
    destruct (size_of a =? 8) eqn:Ea, (v_size out =? 4) eqn:Eo; (eapply runs_unop; [done|]); cbv beta; float_out.
  - done.
Qed.
Lemma sim_float_to_float code c' :
  o = Op.FloatToFloat → size_of b = 0 → float_to_float_op out a = Ok code → Interp.interpret i c = Some c' → sim code c'.
Proof.
  intros Ho Hsb Hc Hi. unfold Interp.interpret in Hi. cbn [i_op i_a i_b i_out] in Hi. rewrite Ho in Hi.
  unfold Interp.float_to_float in Hi. cbn [i_op i_a i_b i_out] in Hi. rewrite Hsb in Hi. cbn [Z.eqb negb] in Hi. clear Ho.
  unfold float_to_float_op in Hc. destruct (float_size (size_of a) && (v_size out =? size_of a)) eqn:E1.
  { bool_to_prop. match goal with H : float_size _ = true |- _ => pose proof H as Hs; apply float_size_cases in H end.
    replace (v_size out) with (size_of a) in Hi by lia. rewrite Hs, Z.eqb_refl in Hi. cbn [andb] in Hi. injection Hi as <-.
    assert (is_Some (wasm_ty (size_of a))) as Hty by (destruct (decide (size_of a = 4)) as [->|]; [by eexists|replace (size_of a) with 8 by lia; by eexists]).
    peel Hc. put_arm; [|reflexivity]. cbn [app]. get0.
    eapply runs_emit_load; [exact Hlimit|exact Hl|by eapply l_base|by apply value_operand|].
    rewrite (get_read base limit tlb s c) by (done || lia).
    eapply runs_emit_store; [exact Hlimit|exact Hc|done|done|apply Hout..]. }
  destruct ((size_of a =? 4) && (v_size out =? 8)) eqn:E2.
  { bool_to_prop. assert (size_of a = 4 ∧ v_size out = 8) as [Esa Eso] by lia. rewrite Esa, Eso in Hi. cbn in Hi.
    injection Hi as <-. peel Hc. put_arm; [|reflexivity]. cbn [app]. get0.
    eapply (runs_operand a 4); [eassumption|done|done|]. change (fty 4) with W.F32. eapply runs_unop; [done|].
    by apply (runs_float_store _ _ _ 8). }
  destruct ((size_of a =? 8) && (v_size out =? 4)) eqn:E3; [|done].
  bool_to_prop. assert (size_of a = 8 ∧ v_size out = 4) as [Esa Eso] by lia. rewrite Esa, Eso in Hi. cbn in Hi.
  injection Hi as <-. peel Hc. put_arm; [|reflexivity]. cbn [app]. get0.
  eapply (runs_operand a 8); [eassumption|done|done|]. change (fty 8) with W.F64. eapply runs_unop; [done|].
  by apply (runs_float_store _ _ _ 4).
Qed.

(** A NaN or a value out of range becomes the least integer: one that is too
    large by the selection, one that is too small by saturation. *)
Lemma trunc_select `{!FloatLaws} n f :
  n = 4 ∨ n = 8 →
  (if Z.lor (W.truth (negb (fl_eq 8 f f))) (W.truth (fl_le 8 (if n =? 4 then F64_2_31 else F64_2_63) f)) =? 0
   then W.trunc_sat (8 * n) f else wrap (8 * n) (- 2 ^ (8 * n - 1))) mod 2 ^ (8 * n) =
  float_to_int n f mod 2 ^ (8 * n).
Proof.
  intros Hn. rewrite fl_eq_refl by done.
  assert (fl_le 8 (if n =? 4 then F64_2_31 else F64_2_63) f = negb (fl_is_nan 8 f) && (2 ^ (8 * n - 1) <=? fl_int 8 f)) as ->.
  { destruct Hn as [->| ->]; cbn [Z.eqb Pos.eqb]; [apply fl_ge_31|apply fl_ge_63]. }
  rewrite negb_involutive. unfold float_to_int, W.trunc_sat, overflows. destruct (fl_is_nan 8 f) eqn:En; cbn [negb andb orb].
  { change (Z.lor (W.truth true) (W.truth false) =? 0) with false. cbn iota. by rewrite mod_wrap by lia. }
  set (v := fl_int 8 f). assert (0 < 2 ^ (8 * n - 1)) by lia. set (h := 2 ^ (8 * n - 1)) in *.
  destruct (h <=? v) eqn:E.
  { change (Z.lor (W.truth false) (W.truth true) =? 0) with false. cbn iota. rewrite orb_true_r. by rewrite mod_wrap by lia. }
  change (Z.lor (W.truth false) (W.truth false) =? 0) with true. cbn iota.
  rewrite orb_false_r, mod_wrap by lia. f_equal. destruct (v <? - h) eqn:E'; lia.
Qed.
Ltac reload_step Hget :=
  lazymatch goal with
  | |- JitSim.runs _ _ (W.LocalGet _ :: _) _ _ => eapply runs_get; [exact Hget|]
  | |- JitSim.runs _ _ (W.I32Const _ :: _) _ _ => apply runs_i32
  | |- JitSim.runs _ _ (W.I64Const _ :: _) _ _ => apply runs_i64
  | |- JitSim.runs _ _ (W.F64Const _ :: _) _ _ => apply runs_f64
  | |- JitSim.runs _ _ (W.Select :: _) _ _ => apply runs_select
  | |- JitSim.runs _ _ (W.F64ReinterpretI64 :: _) _ _ => eapply runs_unop; [reflexivity|]
  | |- JitSim.runs _ _ (_ :: _) (mk ((?t, _) :: (?t, _) :: _) _ _) _ => eapply runs_binop; [reflexivity|reflexivity|]
  | |- JitSim.runs _ _ (_ :: _) _ _ => eapply runs_unop; [reflexivity|]
  end.
Lemma sim_float_to_int `{!FloatLaws} code c' :
  o = Op.FloatToInt → size_of b = 0 → float_to_int_op out a fast = Ok code → Interp.interpret i c = Some c' → sim code c'.
Proof.
  intros Ho Hsb Hc Hi. unfold float_to_int_op in Hc. apply unless_Ok in Hc as [Hg Hc]. bool_to_prop.
  match goal with H : float_size (v_size _) = true |- _ => apply float_size_cases in H; rename H into Hn end.
  match goal with H : float_size (size_of _) = true |- _ => pose proof H as Hfs; apply float_size_cases in H; rename H into Hsa end.
  unfold Interp.interpret in Hi. cbn [i_op i_a i_b i_out] in Hi. rewrite Ho, Hsb, Hfs in Hi. cbn [Z.eqb negb] in Hi.
  unfold Interp.from_float in Hi. rewrite bool_decide_true in Hi by set_solver. injection Hi as <-. clear Ho.
  set (f := if size_of a =? 4 then fl_promote (get c a 4) else get c a 8).
  pose proof (trunc_select (v_size out) f Hn) as Hsel. peel Hc.
  assert (fast_wide fast = fast_addr fast + 3)%nat as Hw by apply Hfast. rewrite Hw.
  destruct (l_scratch _ _ _ _ HL 3 W.I64 eq_refl) as [x0 Hx0].
  set (L' := <[(fast_addr fast + 3)%nat := (W.I64, f)]> L).
  assert (L' !! (fast_addr fast + 3)%nat = Some (W.I64, f)) as Hget
    by (apply list_lookup_insert_eq; by eapply lookup_lt_Some).
  eapply (simulates_put base limit tlb _ _ _ _ _ _ L'); [lia|exact Hag|exact He|by apply locals_set|apply kept_set, kept_refl| |exact Hsel].
  cbn [app]. get0. eapply (runs_operand a (size_of a)); [eassumption|done|done|].
  assert (∀ rest r, runs rest (mk ((W.F64, f) :: (W.I32, base) :: st) L s) r →
    runs ((if size_of a =? 4 then [W.F64PromoteF32] else []) ++ rest)
      (mk ((fty (size_of a), get c a (size_of a)) :: (W.I32, base) :: st) L s) r) as Hpro.
  { intros rest r Hr. subst f. unfold fty. destruct (size_of a =? 4) eqn:E4; cbn [app].
    - replace (size_of a) with 4 by lia. eapply runs_unop; [done|exact Hr].
    - replace (size_of a) with 8 by lia. exact Hr. }
  apply Hpro. eapply runs_unop; [done|]. eapply runs_set; [exact Hx0|]. fold L'.
  destruct (v_size out =? 4) eqn:E; cbn [app];
    [assert (v_size out = 4) as Ev by lia|assert (v_size out = 8) as Ev by lia]; rewrite Ev;
    repeat reload_step Hget; (eapply runs_emit_store; [exact Hlimit|exact Hc|done|done|apply Hout..]).
Qed.
End floats.
