(* ===== verification/JitAccess.v ===== *)
(** The arms that reach memory or the host: the inline translation cache, faults and
    divisions, loads and stores; and that all emitted code nests. *)

From S2P Require Import Prelude Cpu Pcode Wasm Jit JitSim JitArms.

(** Guest memory: the inline probe of the translation cache, the imports behind
    it, and how a failed access stops the compiled code. *)
(** * The probe *)
Definition probe (n tlb_off mask : Z) (load_perm : W.instr) (fast : FastLocals) : W.code :=
  [W.LocalSet (fast_addr fast);
   W.LocalGet (fast_addr fast); W.I32WrapI64; W.I32Const 4095; W.I32And; W.I32Const n; W.I32Add; W.I32Const 4096;
   W.I32GtU; W.BrIf 0;
   W.LocalGet TLB_BASE_PARAM; W.LocalGet (fast_addr fast); W.I64Const 12; W.I64ShrU; W.I32WrapI64; W.I32Const 1023;
   W.I32And; W.I32Const 16; W.I32Mul; W.I32Add; W.LocalSet (fast_entry fast);
   W.LocalGet (fast_entry fast); W.I64Load (raw_arg tlb_off); W.LocalGet (fast_addr fast);
   W.I64Const (as_i64 TLB_TAG_MASK); W.I64And; W.I64Ne; W.BrIf 0;
   W.LocalGet (fast_addr fast); W.LocalGet (fast_entry fast); W.I64Load (raw_arg (tlb_off + 8)); W.I64Add;
   W.I32WrapI64; W.LocalSet (fast_data fast);
   W.LocalGet (fast_data fast); load_perm] ++
  (if n =? 8 then [W.I64Const (as_i64 mask); W.I64And; W.I64Const (as_i64 mask); W.I64Ne]
   else [W.I32Const (as_i32 mask); W.I32And; W.I32Const (as_i32 mask); W.I32Ne]) ++ [W.BrIf 0].
Lemma fastpath_Ok is_store addr n out val fast slow code :
  emit_mem_fastpath is_store addr n out val fast slow = Ok code → ∃ load_perm load_data store_data lz tail ls,
  word_size n = true ∧ load_instr n (raw_arg PAGE_PERM_OFFSET) = Some load_perm ∧
  load_instr n (raw_arg 0) = Some load_data ∧ store_instr n (raw_arg 0) = Some store_data ∧
  emit_zext_i64 addr = Ok lz ∧ slow = Ok ls ∧
  (if is_store then
     ∃ v l, val = Some v ∧ emit_load v n = Ok l ∧ tail = W.LocalGet (fast_data fast) :: l ++ [store_data]
   else ∃ x i, out = Some x ∧ store_instr n (reg_arg x) = Some i ∧
               tail = [W.LocalGet REGS_BASE_PARAM; W.LocalGet (fast_data fast); load_data; i]) ∧
  code = W.Block :: (W.Block :: (lz ++ probe n (if is_store then TLB_WRITE_ARRAY_OFFSET else 0)
           (perm_mask_word (if is_store then PERM_WRITE_INIT else PERM_READ_INIT) (Z.to_nat n)) load_perm fast ++
           tail ++ [W.Br 1]) ++ [W.End]) ++ (ls ++ [W.End]).
Proof.
  intros Hc. unfold emit_mem_fastpath in Hc. apply unless_Ok in Hc as [Hg Hc]. bool_to_prop.
  apply rbind_Ok in Hc as (lp & Hlp%bail_Ok & Hc). apply rbind_Ok in Hc as (ld & Hld%bail_Ok & Hc).
  apply rbind_Ok in Hc as (sd & Hsd%bail_Ok & Hc). destruct is_store; peel Hc.
  - exists lp, ld, sd. do 3 eexists. split_and!; [first [eassumption|reflexivity]..| |].
    + do 2 eexists. split_and!; [done|eassumption|]. reflexivity.
    + unfold probe. repeat (progress cbn [app] || rewrite <- !app_assoc). done.
  - exists lp, ld, sd. do 3 eexists. split_and!; [first [eassumption|reflexivity]..| |].
    + do 2 eexists. split_and!; [done|eassumption|]. reflexivity.
    + unfold probe. repeat (progress cbn [app] || rewrite <- !app_assoc). done.
Qed.

Section mem.
Context `{Arch} `{Floats} {G : Type} `{Softmmu G} `{Escapes G} (base limit tlb : Z) `{!SoftmmuLaws G base limit tlb}.
Context (Hbase : 0 ≤ base) (Hlimit : base + REG_SPACE_BYTES ≤ limit) (Hspace : limit ≤ 2 ^ 32).
Abbreviation mk := (W.Build_cfg G).
Abbreviation runs := (runs base limit).

Context (fast : FastLocals) (st L : list W.val) (s : W.store G).
Context (Hfast : fast_ok fast) (HL : locals_ok base tlb fast L) (Hinv : mmu_inv (W.s_mem s)).

(** Where the entry of an address is, and where it leads. *)
Definition entry_of (write : bool) (a : Z) : Z :=
  tlb + (a / 4096) mod 1024 * 16 + (if write then TLB_WRITE_ARRAY_OFFSET else 0).
Definition data_of (g : G) (write : bool) (a : Z) : Z := wrap 32 (a + le_val (host_read g (entry_of write a + 8) 8)).
Definition perm_mask (write : bool) (n : Z) : Z :=
  perm_mask_word (if write then PERM_WRITE_INIT else PERM_READ_INIT) (Z.to_nat n).
Definition hit (g : G) (write : bool) (a n : Z) : bool :=
  (a mod 4096 + n <=? 4096) && (le_val (host_read g (entry_of write a) 8) =? Z.land a TLB_TAG_MASK) &&
  (Z.land (le_val (host_read g (data_of g write a + PAGE_PERM_OFFSET) (Z.to_nat n))) (perm_mask write n) =? perm_mask write n).
(** The scratch locals the probe leaves. *)
Definition probed_addr (a : Z) : list W.val := <[fast_addr fast := (W.I64, a)]> L.
Definition probed_entry (a : Z) : list W.val :=
  <[fast_entry fast := (W.I32, tlb + (a / 4096) mod 1024 * 16)]> (probed_addr a).
Definition probed (write : bool) (a : Z) : list W.val :=
  <[fast_data fast := (W.I32, data_of (W.s_mem s) write a)]> (probed_entry a).

Lemma scratch_ok k t x L' :
  locals_ok base tlb fast L' → kept fast L L' → scratch_types !! k = Some t →
  locals_ok base tlb fast (<[(fast_addr fast + k)%nat := (t, x)]> L') ∧
  kept fast L (<[(fast_addr fast + k)%nat := (t, x)]> L').
Proof. intros HL' Hk Ht. split; [by apply locals_set|by apply kept_set]. Qed.
Lemma probed_addr_ok a : locals_ok base tlb fast (probed_addr a) ∧ kept fast L (probed_addr a).
Proof. unfold probed_addr. rewrite <- (Nat.add_0_r (fast_addr fast)). by apply scratch_ok. Qed.
Lemma probed_entry_ok a : locals_ok base tlb fast (probed_entry a) ∧ kept fast L (probed_entry a).
Proof.
  unfold probed_entry. destruct Hfast as (_ & -> & _). destruct (probed_addr_ok a). by apply scratch_ok.
Qed.
Lemma probed_ok w a : locals_ok base tlb fast (probed w a) ∧ kept fast L (probed w a).
Proof.
  unfold probed. destruct Hfast as (_ & _ & -> & _). destruct (probed_entry_ok a). by apply scratch_ok.
Qed.
Lemma local_in k t : scratch_types !! k = Some t → ∃ x, L !! (fast_addr fast + k)%nat = Some (t, x).
Proof. apply (l_scratch _ _ _ _ HL). Qed.
Lemma probed_addr_get a : probed_addr a !! fast_addr fast = Some (W.I64, a).
Proof.
  apply list_lookup_insert_eq. destruct (local_in 0 W.I64 eq_refl) as [x Hx]. rewrite Nat.add_0_r in Hx.
  by eapply lookup_lt_Some.
Qed.
Lemma probed_entry_get a :
  probed_entry a !! fast_addr fast = Some (W.I64, a) ∧
  probed_entry a !! fast_entry fast = Some (W.I32, tlb + (a / 4096) mod 1024 * 16).
Proof.
  unfold probed_entry. destruct Hfast as (_ & -> & _). split.
  - rewrite list_lookup_insert_ne by lia. apply probed_addr_get.
  - apply list_lookup_insert_eq. destruct (local_in 1 W.I32 eq_refl) as [x Hx]. unfold probed_addr. rewrite length_insert.
    by eapply lookup_lt_Some.
Qed.
Lemma probed_get w a : probed w a !! fast_data fast = Some (W.I32, data_of (W.s_mem s) w a).
Proof.
  unfold probed. destruct Hfast as (_ & _ & -> & _). apply list_lookup_insert_eq.
  destruct (local_in 2 W.I32 eq_refl) as [x Hx]. unfold probed_entry, probed_addr. rewrite !length_insert.
  by eapply lookup_lt_Some.
Qed.
(** What falls through the probe and what leaves it. *)
Lemma page_check a n :
  is_u64 a → word_size n = true →
  W.truth (wrap 32 4096 <? wrap 32 (Z.land (wrap 32 a) (wrap 32 4095) + wrap 32 n)) = W.truth (4096 <? a mod 4096 + n).
Proof.
  intros Ha Hn. apply bool_decide_eq_true in Hn. assert (1 ≤ n ≤ 8) by set_solver by lia.
  change (wrap 32 4096) with 4096. change (wrap 32 4095) with (Z.ones 12). rewrite Z.land_ones by lia.
  rewrite (wrap_id 32 n) by (unfold fits; lia). rewrite mod_wrap by lia. change (2 ^ 12) with 4096.
  rewrite wrap_id; [done|]. pose proof (Z.mod_pos_bound a 4096). unfold fits. lia.
Qed.
Lemma entry_index a :
  is_u64 a →
  wrap 32 (tlb + wrap 32 (Z.land (wrap 32 (W.shr_u 64 a (wrap 64 12))) (wrap 32 1023) * wrap 32 16)) =
  tlb + (a / 4096) mod 1024 * 16.
Proof.
  intros Ha. unfold W.shr_u. change (wrap 64 12 mod 64) with 12. rewrite Z.shiftr_div_pow2 by lia.
  change (2 ^ 12) with 4096. change (wrap 32 1023) with (Z.ones 10). rewrite Z.land_ones, mod_wrap by lia.
  change (2 ^ 10) with 1024. change (wrap 32 16) with 16. pose proof (Z.mod_pos_bound (a / 4096) 1024).
  rewrite (wrap_id 32 (_ mod _ * 16)) by (unfold fits; lia).
  destruct tlb_place as (? & Hl & _). unfold TLB_WRITE_ARRAY_OFFSET in Hl. apply wrap_id. unfold fits. lia.
Qed.
Ltac un := eapply runs_unop; [reflexivity|]; cbv beta.
Ltac bin := eapply runs_binop; [reflexivity|reflexivity|]; cbv beta.
Lemma probe_page a n rest r :
  is_u64 a → word_size n = true →
  runs rest (mk ((W.I32, W.truth (4096 <? a mod 4096 + n)) :: st) (probed_addr a) s) r →
  runs ([W.LocalSet (fast_addr fast); W.LocalGet (fast_addr fast); W.I32WrapI64; W.I32Const 4095; W.I32And; W.I32Const n;
         W.I32Add; W.I32Const 4096; W.I32GtU] ++ rest) (mk ((W.I64, a) :: st) L s) r.
Proof.
  intros Ha Hn Hr. cbn [app]. destruct (local_in 0 W.I64 eq_refl) as [x Hx]. rewrite Nat.add_0_r in Hx.
  eapply runs_set; [exact Hx|]. fold (probed_addr a). eapply runs_get; [apply probed_addr_get|].
  un. apply runs_i32. bin. apply runs_i32. bin. apply runs_i32. bin. by rewrite page_check.
Qed.
Lemma entry_range w a k :
  k = 0 ∨ k = 8 → let e := entry_of w a + k in e + 8 ≤ limit ∧ host_at base e 8 ∧ 0 ≤ e.
Proof.
  intros Hk. cbn zeta. destruct tlb_place as (? & Hl & Hh). unfold entry_of, host_at, TLB_WRITE_ARRAY_OFFSET in *.
  pose proof (Z.mod_pos_bound (a / 4096) 1024). destruct w; lia.
Qed.
Lemma runs_entry w a k rest st' L' r :
  k = 0 ∨ k = 8 →
  runs rest (mk ((W.I64, le_val (host_read (W.s_mem s) (entry_of w a + k) 8)) :: st') L' s) r →
  runs (W.I64Load (raw_arg ((if w then TLB_WRITE_ARRAY_OFFSET else 0) + k)) :: rest)
    (mk ((W.I32, tlb + (a / 4096) mod 1024 * 16) :: st') L' s) r.
Proof.
  intros Hk Hr. destruct (entry_range w a k Hk) as (Hl & Hh & _).
  assert (tlb + (a / 4096) mod 1024 * 16 + ((if w then TLB_WRITE_ARRAY_OFFSET else 0) + k) = entry_of w a + k) as Ee
    by (unfold entry_of; lia).
  eapply runs_load; [reflexivity|cbn [W.m_offset raw_arg]; lia|]. cbn [W.m_offset raw_arg]. rewrite Ee.
  rewrite lin_read_host by exact Hh. exact Hr.
Qed.
Lemma probe_tag w a rest r :
  is_u64 a →
  runs rest (mk ((W.I32, W.truth (negb (le_val (host_read (W.s_mem s) (entry_of w a) 8) =? Z.land a TLB_TAG_MASK))) :: st)
               (probed_entry a) s) r →
  runs ([W.LocalGet TLB_BASE_PARAM; W.LocalGet (fast_addr fast); W.I64Const 12; W.I64ShrU; W.I32WrapI64;
         W.I32Const 1023; W.I32And; W.I32Const 16; W.I32Mul; W.I32Add; W.LocalSet (fast_entry fast);
         W.LocalGet (fast_entry fast); W.I64Load (raw_arg (if w then TLB_WRITE_ARRAY_OFFSET else 0));
         W.LocalGet (fast_addr fast); W.I64Const (as_i64 TLB_TAG_MASK); W.I64And; W.I64Ne] ++ rest)
    (mk st (probed_addr a) s) r.
Proof.
  intros Ha Hr. cbn [app]. destruct (probed_addr_ok a) as [HL1 _], (probed_entry_get a) as [Hg1 Hg2].
  eapply runs_get; [by eapply l_tlb|]. eapply runs_get; [apply probed_addr_get|].
  apply runs_i64. bin. un. apply runs_i32. bin. apply runs_i32. bin. bin. rewrite entry_index by done.
  destruct (l_scratch _ _ _ _ HL1 1 W.I32 eq_refl) as [x Hx].
  assert (fast_entry fast = fast_addr fast + 1)%nat as Ef by apply Hfast. rewrite <- Ef in Hx.
  eapply runs_set; [exact Hx|]. fold (probed_entry a). eapply runs_get; [exact Hg2|].
  replace (if w then TLB_WRITE_ARRAY_OFFSET else 0) with ((if w then TLB_WRITE_ARRAY_OFFSET else 0) + 0) by lia.
  apply runs_entry; [by left|]. rewrite Z.add_0_r. eapply runs_get; [exact Hg1|]. apply runs_i64.
  change (wrap 64 (as_i64 TLB_TAG_MASK)) with TLB_TAG_MASK. bin. bin. exact Hr.
Qed.
Lemma mask_word w n :
  word_size n = true →
  (if n =? 8 then wrap 64 (as_i64 (perm_mask w n)) else wrap 32 (as_i32 (perm_mask w n))) = perm_mask w n.
Proof.
  intros Hn. apply bool_decide_eq_true in Hn.
  assert (n = 1 ∨ n = 2 ∨ n = 4 ∨ n = 8) as [->|[->|[->| ->]]] by set_solver; by destruct w.
Qed.
Lemma load_instr_width n a i : load_instr n a = Some i → W.load_width i = Some (ty n, n, a).
Proof.
  unfold load_instr, ty. intros Hi. destruct (n =? 1) eqn:E1; [|destruct (n =? 2) eqn:E2; [|destruct (n =? 4) eqn:E4;
    [|destruct (n =? 8) eqn:E8; [|done]]]]; injection Hi as <-; cbn;
    [replace n with 1 by lia|replace n with 2 by lia|replace n with 4 by lia|replace n with 8 by lia]; done.
Qed.
Lemma probe_perm w a n load_perm rest r :
  is_u64 a → word_size n = true → a mod 4096 + n ≤ 4096 →
  le_val (host_read (W.s_mem s) (entry_of w a) 8) = Z.land a TLB_TAG_MASK →
  load_instr n (raw_arg PAGE_PERM_OFFSET) = Some load_perm →
  runs rest (mk ((W.I32, W.truth (negb (Z.land (le_val (host_read (W.s_mem s)
    (data_of (W.s_mem s) w a + PAGE_PERM_OFFSET) (Z.to_nat n))) (perm_mask w n) =? perm_mask w n))) :: st) (probed w a) s) r →
  runs ([W.LocalGet (fast_addr fast); W.LocalGet (fast_entry fast);
         W.I64Load (raw_arg ((if w then TLB_WRITE_ARRAY_OFFSET else 0) + 8)); W.I64Add; W.I32WrapI64;
         W.LocalSet (fast_data fast); W.LocalGet (fast_data fast); load_perm] ++
        (if n =? 8 then [W.I64Const (as_i64 (perm_mask w n)); W.I64And; W.I64Const (as_i64 (perm_mask w n)); W.I64Ne]
         else [W.I32Const (as_i32 (perm_mask w n)); W.I32And; W.I32Const (as_i32 (perm_mask w n)); W.I32Ne]) ++ rest)
    (mk st (probed_entry a) s) r.
Proof.
  intros Ha Hn Hp Htag Hi Hr. destruct (probed_entry_ok a) as [HL1 _], (probed_entry_get a) as [Hg1 Hg2].
  destruct (page_place (W.s_mem s) w a n Hinv Hn Ha Hp Htag) as (Hl & _ & Hh).
  change (tlb + _ + (if w then TLB_WRITE_ARRAY_OFFSET else 0)) with (entry_of w a) in Hl, Hh.
  change (wrap 32 (a + le_val (host_read (W.s_mem s) (entry_of w a + 8) 8))) with (data_of (W.s_mem s) w a) in Hl, Hh.
  cbn [app]. eapply runs_get; [exact Hg1|]. eapply runs_get; [exact Hg2|]. apply runs_entry; [by right|]. bin. un.
  assert (fast_data fast = fast_addr fast + 2)%nat as Ef by apply Hfast.
  destruct (l_scratch _ _ _ _ HL1 2 W.I32 eq_refl) as [x Hx]. rewrite <- Ef in Hx.
  eapply runs_set; [exact Hx|].
  replace (wrap 32 (wrap 64 _)) with (data_of (W.s_mem s) w a) by (unfold data_of, wrap at 1; by rewrite <- (mod_wrap 32 64) by lia).
  fold (probed w a). eapply runs_get; [apply probed_get|].
  eapply runs_load; [by apply load_instr_width|cbn [W.m_offset raw_arg]; lia|]. cbn [W.m_offset raw_arg].
  assert (0 ≤ n) by (apply bool_decide_eq_true in Hn; set_solver by lia).
  rewrite lin_read_host by (by rewrite Z2Nat.id). pose proof (mask_word w n Hn) as Hm. unfold ty.
  destruct (n =? 8); cbn [app]; (apply runs_i64 || apply runs_i32); bin; (apply runs_i64 || apply runs_i32); bin; by rewrite Hm.
Qed.
Lemma load_instr_plain n a i : load_instr n a = Some i → plain i = true.
Proof. intros Hi%load_instr_width. by destruct i. Qed.
Ltac plain_code := repeat first [apply nests_cons; [done|]|apply nests_nil].
Lemma perm_code_nests (w : bool) n load_perm rest :
  plain load_perm = true → nests rest →
  nests ([W.LocalGet (fast_addr fast); W.LocalGet (fast_entry fast);
         W.I64Load (raw_arg ((if w then TLB_WRITE_ARRAY_OFFSET else 0) + 8)); W.I64Add; W.I32WrapI64;
         W.LocalSet (fast_data fast); W.LocalGet (fast_data fast); load_perm] ++
        (if n =? 8 then [W.I64Const (as_i64 (perm_mask w n)); W.I64And; W.I64Const (as_i64 (perm_mask w n)); W.I64Ne]
         else [W.I32Const (as_i32 (perm_mask w n)); W.I32And; W.I32Const (as_i32 (perm_mask w n)); W.I32Ne]) ++
        W.BrIf 0 :: rest).
Proof. intros Hp Hr. destruct (n =? 8); cbn [app]; repeat (apply nests_cons; [done|]); done. Qed.
Lemma probe_split (w : bool) n load_perm rest :
  probe n (if w then TLB_WRITE_ARRAY_OFFSET else 0) (perm_mask w n) load_perm fast ++ rest =
  [W.LocalSet (fast_addr fast); W.LocalGet (fast_addr fast); W.I32WrapI64; W.I32Const 4095; W.I32And; W.I32Const n;
   W.I32Add; W.I32Const 4096; W.I32GtU] ++ W.BrIf 0 ::
  [W.LocalGet TLB_BASE_PARAM; W.LocalGet (fast_addr fast); W.I64Const 12; W.I64ShrU; W.I32WrapI64;
   W.I32Const 1023; W.I32And; W.I32Const 16; W.I32Mul; W.I32Add; W.LocalSet (fast_entry fast);
   W.LocalGet (fast_entry fast); W.I64Load (raw_arg (if w then TLB_WRITE_ARRAY_OFFSET else 0));
   W.LocalGet (fast_addr fast); W.I64Const (as_i64 TLB_TAG_MASK); W.I64And; W.I64Ne] ++ W.BrIf 0 ::
  ([W.LocalGet (fast_addr fast); W.LocalGet (fast_entry fast);
    W.I64Load (raw_arg ((if w then TLB_WRITE_ARRAY_OFFSET else 0) + 8)); W.I64Add; W.I32WrapI64;
    W.LocalSet (fast_data fast); W.LocalGet (fast_data fast); load_perm] ++
   (if n =? 8 then [W.I64Const (as_i64 (perm_mask w n)); W.I64And; W.I64Const (as_i64 (perm_mask w n)); W.I64Ne]
    else [W.I32Const (as_i32 (perm_mask w n)); W.I32And; W.I32Const (as_i32 (perm_mask w n)); W.I32Ne]) ++
   W.BrIf 0 :: rest).
Proof. unfold probe. repeat (progress cbn [app] || rewrite <- !app_assoc). done. Qed.
Lemma probe_hit w a n load_perm rest r :
  is_u64 a → word_size n = true → load_instr n (raw_arg PAGE_PERM_OFFSET) = Some load_perm →
  hit (W.s_mem s) w a n = true → runs rest (mk st (probed w a) s) r →
  runs (probe n (if w then TLB_WRITE_ARRAY_OFFSET else 0) (perm_mask w n) load_perm fast ++ rest) (mk ((W.I64, a) :: st) L s) r.
Proof.
  intros Ha Hn Hi Hh Hr. unfold hit in Hh. apply andb_true_iff in Hh as [[E1 E2]%andb_true_iff E3].
  rewrite probe_split. apply probe_page; [done..|].
  replace (4096 <? a mod 4096 + n) with false by lia. apply runs_br_if_skip. apply probe_tag; [done|].
  rewrite E2. apply runs_br_if_skip. apply probe_perm; [done|done|lia|lia|done|]. rewrite E3. by apply runs_br_if_skip.
Qed.
Lemma probe_miss w a n load_perm rest :
  is_u64 a → word_size n = true → load_instr n (raw_arg PAGE_PERM_OFFSET) = Some load_perm →
  hit (W.s_mem s) w a n = false → nests rest → ∃ L', locals_ok base tlb fast L' ∧ kept fast L L' ∧
  runs (probe n (if w then TLB_WRITE_ARRAY_OFFSET else 0) (perm_mask w n) load_perm fast ++ rest) (mk ((W.I64, a) :: st) L s)
    (W.Break 0 (mk st L' s)).
Proof.
  intros Ha Hn Hi Hh Hr. pose proof (perm_code_nests w n load_perm rest (load_instr_plain _ _ _ Hi) Hr) as Hnest.
  rewrite probe_split. unfold hit in Hh. destruct (a mod 4096 + n <=? 4096) eqn:E1.
  - destruct (le_val (host_read (W.s_mem s) (entry_of w a) 8) =? Z.land a TLB_TAG_MASK) eqn:E2.
    + exists (probed w a). destruct (probed_ok w a). split_and!; [done..|]. apply probe_page; [done..|].
      replace (4096 <? a mod 4096 + n) with false by lia. apply runs_br_if_skip. apply probe_tag; [done|].
      rewrite E2. apply runs_br_if_skip. apply probe_perm; [done|done|lia|lia|done|]. cbn [andb] in Hh. rewrite Hh.
      by apply runs_br_if.
    + exists (probed_entry a). destruct (probed_entry_ok a). split_and!; [done..|]. apply probe_page; [done..|].
      replace (4096 <? a mod 4096 + n) with false by lia. apply runs_br_if_skip. apply probe_tag; [done|].
      rewrite E2. by apply runs_br_if.
  - exists (probed_addr a). destruct (probed_addr_ok a). split_and!; [done..|]. apply probe_page; [done..|].
    replace (4096 <? a mod 4096 + n) with true by lia. apply runs_br_if; [done|]. cbn [app].
    do 17 (apply nests_cons; [done|]). apply nests_cons; [done|]. exact Hnest.
Qed.
(** The two blocks around the probe. *)
Lemma fastpath_hit lz pr tail ls L' s' st' :
  runs (lz ++ pr ++ tail ++ [W.Br 1]) (mk st L s) (W.Break 1 (mk st' L' s')) → nests ls →
  runs (W.Block :: (W.Block :: (lz ++ pr ++ tail ++ [W.Br 1]) ++ [W.End]) ++ (ls ++ [W.End])) (mk st L s)
    (W.Next (mk st L' s')).
Proof.
  intros Hr Hls. rewrite app_assoc. apply (runs_block _ _ _ _ _ _ (W.Break 0 (mk st' L' s'))).
  eapply runs_stop; [|done|done]. by apply (runs_block _ _ _ _ _ _ (W.Break 1 (mk st' L' s'))).
Qed.
Lemma fastpath_miss lz pr tail ls L' s' st' r :
  runs (lz ++ pr ++ tail ++ [W.Br 1]) (mk st L s) (W.Break 0 (mk st' L' s')) →
  runs ls (mk st L' s') r → W.leave st r = r →
  runs (W.Block :: (W.Block :: (lz ++ pr ++ tail ++ [W.Br 1]) ++ [W.End]) ++ (ls ++ [W.End])) (mk st L s) r.
Proof.
  intros Hr Hls Hleave. rewrite app_assoc. rewrite <- Hleave. apply runs_block.
  eapply runs_app; [|exact Hls]. by apply (runs_block _ _ _ _ _ _ (W.Break 0 (mk st' L' s'))).
Qed.
End mem.

(** Instructions that reach the host or may stop the compiled code: loads and
    stores of guest memory, divisions, exceptions. *)
(** The local an iteration count is reported from. *)
Definition iter_ok (fast : FastLocals) (it : option nat) (L : list W.val) : Prop :=
  match it with Some k => (k < fast_addr fast)%nat ∧ is_Some (L !! k) | None => True end.
Lemma iter_kept fast it L L' : iter_ok fast it L → kept fast L L' → iter_ok fast it L'.
Proof. destruct it; [|done]. intros [? ?] Hk. split; [done|]. by rewrite Hk. Qed.
Lemma index_word k : 0 ≤ k < 2 ^ 32 → wrap 32 (as_i32 k) = k.
Proof. intros Hk. unfold as_i32. rewrite wrap_signed by lia. by apply wrap_id. Qed.

Section stop.
Context `{Arch} `{Floats} {G : Type} `{Softmmu G} `{Escapes G} (base limit tlb : Z) `{!SoftmmuLaws G base limit tlb}.
Abbreviation mk := (W.Build_cfg G).
Abbreviation runs := (runs base limit).
Context (index : Z) (it : option nat) (fast : FastLocals) (L : list W.val).
Context (Hindex : 0 ≤ index < 2 ^ 32) (Hit : iter_ok fast it L).

Lemma report_nests rest : nests rest → nests (report it ++ W.Return :: rest).
Proof. clear Hit. intros Hr. destruct it; cbn [report app]; repeat (apply nests_cons; [done|]); done. Qed.
Lemma runs_report rest st' L' (s' : W.store G) :
  kept fast L L' → nests rest → ∃ st'',
  runs (report it ++ W.Return :: rest) (mk st' L' s') (W.Returned (mk st'' L' s')) ∧ report_value it L st''.
Proof.
  intros Hk Hr. unfold report_value. destruct it as [k|]; cbn [report app].
  - destruct Hit as [Hlt [v Hv]]. exists (v :: st'). split; [|by exists v, st'].
    eapply runs_get; [by rewrite Hk|]. by apply runs_return.
  - exists st'. split; [|done]. by apply runs_return.
Qed.
(** A check passes on a success and returns on a failure. *)
Lemma check_code : emit_fault_check index it = W.I32Eqz :: W.If ::
  ([W.I32Const (as_i32 index); W.Call IMPORT_FAULT] ++ report it ++ [W.Return]) ++ [W.End].
Proof. unfold emit_fault_check. cbn [app]. by rewrite <- !app_assoc. Qed.
Lemma check_body_nests : nests ([W.I32Const (as_i32 index); W.Call IMPORT_FAULT] ++ report it ++ [W.Return]).
Proof. cbn [app]. do 2 (apply nests_cons; [done|]). apply report_nests, nests_nil. Qed.
Lemma check_nests rest : nests rest → nests (emit_fault_check index it ++ rest).
Proof.
  intros Hr. rewrite check_code. cbn [app]. apply nests_cons; [done|]. rewrite <- app_assoc.
  apply (nests_if ([W.I32Const _; W.Call IMPORT_FAULT] ++ report it ++ [W.Return])); [apply check_body_nests|done].
Qed.
Lemma check_pass rest st' L' (s' : W.store G) r :
  runs rest (mk st' L' s') r → runs (emit_fault_check index it ++ rest) (mk ((W.I32, 1) :: st') L' s') r.
Proof.
  intros Hr. rewrite check_code. cbn [app]. eapply runs_unop; [done|]. rewrite <- app_assoc.
  apply (runs_if_skip _ _ ([W.I32Const _; W.Call IMPORT_FAULT] ++ report it ++ [W.Return])); [apply check_body_nests|done].
Qed.
Lemma check_fail rest st' L' (s' : W.store G) :
  kept fast L L' → nests rest → ∃ st'',
  runs (emit_fault_check index it ++ rest) (mk ((W.I32, 0) :: st') L' s')
    (W.Returned (mk st'' L' (W.set_fault index s'))) ∧ report_value it L st''.
Proof.
  intros Hk Hr. destruct (runs_report [] st' L' (W.set_fault index s') Hk nests_nil) as (st'' & Hrun & Hv).
  exists st''. split; [|done]. rewrite check_code. cbn [app]. eapply runs_unop; [done|]. rewrite <- app_assoc.
  apply (runs_if_return _ _ ([W.I32Const _; W.Call IMPORT_FAULT] ++ report it ++ [W.Return])); [done| |done].
  cbn [app]. apply runs_i32. rewrite index_word by done. apply runs_call_fault. exact Hrun.
Qed.
Lemma runs_raise_const code rest st' L' (s' : W.store G) :
  0 ≤ code < 2 ^ 32 → kept fast L L' → nests rest → ∃ st'',
  runs (emit_raise_const code 0 index it ++ rest) (mk st' L' s')
    (W.Returned (mk st'' L' (W.import_raise code 0 index s'))) ∧ report_value it L st''.
Proof.
  intros Hc Hk Hr. destruct (runs_report rest st' L' (W.import_raise code 0 index s') Hk Hr) as (st'' & Hrun & Hv).
  exists st''. split; [|done]. unfold emit_raise_const. rewrite <- !app_assoc. cbn [app].
  apply runs_i32. rewrite (index_word code) by done. apply runs_i64. apply runs_i32. rewrite index_word by done.
  apply runs_call_raise. exact Hrun.
Qed.
(** The body of [If] that raises a division exception. *)
Lemma raise_if_nests rest : nests rest → nests (raise_if index it ++ rest).
Proof.
  intros Hr. unfold raise_if. cbn [app]. rewrite <- app_assoc. apply nests_if; [|done]. unfold emit_raise_const.
  cbn [app]. do 4 (apply nests_cons; [done|]). apply report_nests, nests_nil.
Qed.
Lemma raise_skip rest st' L' (s' : W.store G) r :
  runs rest (mk st' L' s') r → runs (raise_if index it ++ rest) (mk ((W.I32, 0) :: st') L' s') r.
Proof.
  intros Hr. unfold raise_if. cbn [app]. rewrite <- app_assoc. apply runs_if_skip; [|done].
  unfold emit_raise_const. cbn [app]. do 4 (apply nests_cons; [done|]). apply report_nests, nests_nil.
Qed.
Lemma raise_taken rest st' (s' : W.store G) :
  nests rest → ∃ st'',
  runs (raise_if index it ++ rest) (mk ((W.I32, 1) :: st') L s')
    (W.Returned (mk st'' L (W.import_raise EXC_DIVISION 0 index s'))) ∧ report_value it L st''.
Proof.
  intros Hr. destruct (runs_raise_const EXC_DIVISION [] st' L s') as (st'' & Hrun & Hv); [done|apply kept_refl|apply nests_nil|].
  exists st''. split; [|done]. unfold raise_if. cbn [app]. rewrite <- app_assoc. apply runs_if_return; [done| |done].
  by rewrite app_nil_r in Hrun.
Qed.
(** An instruction that stops. *)
Lemma simulates_stop code st st' L' s s' (c' : Cpu G) :
  exc_code (c_exc c') ≠ 0 → runs code (mk st L s) (W.Returned (mk st' L' s')) → agrees base limit tlb s' c' →
  kept fast L L' → report_value it L st' → W.s_fault s' = Some index →
  simulates base limit tlb code index it fast st L s c'.
Proof.
  intros Hx Hr Hag Hk Hv Hf. unfold simulates. replace (_ =? _) with false by (unfold ExceptionCode.NoException; lia).
  by exists st', L', s'.
Qed.
Lemma simulates_next code st L' s s' (c' : Cpu G) :
  exc_code (c_exc c') = 0 → runs code (mk st L s) (W.Next (mk st L' s')) → agrees base limit tlb s' c' →
  locals_ok base tlb fast L' → kept fast L L' → W.s_fault s' = W.s_fault s →
  simulates base limit tlb code index it fast st L s c'.
Proof. intros Hx Hr Hag HL Hk Hf. unfold simulates. rewrite Hx. cbn [Z.eqb]. by exists L', s'. Qed.
Lemma agrees_raise code value s (c : Cpu G) :
  agrees base limit tlb s c →
  agrees base limit tlb (W.import_raise code value index s) (raise (ExceptionCode.from_u32 code) value c).
Proof. by intros (? & ? & ? & ?). Qed.
Lemma from_u32_zero x : ExceptionCode.from_u32 x = 0 → x = 0.
Proof. unfold ExceptionCode.from_u32. case_bool_decide; [done|discriminate]. Qed.
End stop.

Section raising.
Context `{Arch} `{Floats} {G : Type} `{Softmmu G} `{Escapes G} (base limit tlb : Z) `{!SoftmmuLaws G base limit tlb}.
Context (Hlimit : base + REG_SPACE_BYTES ≤ limit).
Abbreviation mk := (W.Build_cfg G).
Abbreviation runs := (runs base limit).
Context (o : Op.op) (out : VarNode) (a b : Value) (index : Z) (has_host : bool) (it : option nat) (fast : FastLocals).
Context (st L : list W.val) (s : W.store G) (c : Cpu G).
Context (Hout : var_ok out) (Ha : value_ok a) (Hb : value_ok b).
Context (Hfast : fast_ok fast) (HL : locals_ok base tlb fast L).
Context (Hag : agrees base limit tlb s c) (He : exc_code (c_exc c) = 0).
Context (Hindex : 0 ≤ index < 2 ^ 32) (Hit : iter_ok fast it L).
Abbreviation i := {| i_op := o; i_a := a; i_b := b; i_out := out |}.
Abbreviation sim code c' := (simulates base limit tlb code index it fast st L s c').

Lemma sim_invalid code c' :
  o = Op.Invalid → invalid_op index has_host it = Ok code → Interp.interpret i c = Some c' → sim code c'.
Proof.
  intros Ho Hc Hi. unfold invalid_op in Hc. apply unless_Ok in Hc as [_ Hc]. apply ops_Ok in Hc as ->.
  unfold Interp.interpret in Hi. cbn [i_op i_a i_b i_out] in Hi. rewrite Ho in Hi. injection Hi as <-.
  destruct (runs_raise_const base limit index it fast L Hindex Hit EXC_INVALID_INSTRUCTION [] st L s)
    as (st'' & Hr & Hv); [done|apply kept_refl|apply nests_nil|]. rewrite app_nil_r in Hr.
  eapply simulates_stop; [|exact Hr|by apply agrees_raise|apply kept_refl|done|done]. done.
Qed.

(** ** Exceptions *)
Definition raises (v : Value) : Prop := match v with Const z _ => z mod 2 ^ 32 ≠ 0 | Var _ => False end.
Lemma runs_zext_i32 v l rest st' r :
  emit_zext_i32 v = Ok l → value_ok v → runs rest (mk ((W.I32, wrap 32 (get c v (size_of v))) :: st') L s) r →
  runs (l ++ rest) (mk st' L s) r.
Proof.
  intros Hl Hv Hr. unfold emit_zext_i32 in Hl. peel Hl. destruct (wasm_ty_cases _ _ Hx) as [Hn ->].
  rewrite <- app_assoc. eapply runs_emit_load; [exact Hlimit|exact Hl0|by eapply l_base|apply value_operand; [done..|by eexists]|].
  rewrite (get_read base limit tlb s c) by (done || lia). rewrite is_i64_ty. unfold ty.
  destruct (size_of v =? 8) eqn:E; cbn [app].
  - by eapply runs_unop.
  - rewrite wrap_id in Hr; [done|]. apply (fits_weaken (8 * size_of v)); [lia|]. apply get_fits. lia.
Qed.
Lemma zext_size v l : emit_zext_i64 v = Ok l → size_of v = 1 ∨ size_of v = 2 ∨ size_of v = 4 ∨ size_of v = 8.
Proof. intros Hl. unfold emit_zext_i64 in Hl. peel Hl. by destruct (wasm_ty_cases _ _ Hx). Qed.
Lemma get_zext v w : size_of v = 1 ∨ size_of v = 2 ∨ size_of v = 4 ∨ size_of v = 8 →
  zxt w (read_dynamic (c_regs c) v) = wrap w (get c v (size_of v)).
Proof. intros Hs. apply zxt_get. clear - Hs. tauto. Qed.
Lemma get_word v : size_of v = 1 ∨ size_of v = 2 ∨ size_of v = 4 ∨ size_of v = 8 → is_u64 (get c v (size_of v)).
Proof. intros Hs. apply (fits_weaken (8 * size_of v) 64); [lia|]. apply get_fits. lia. Qed.
Lemma raises_code : raises a → is_Some (wasm_ty (size_of a)) → wrap 32 (get c a (size_of a)) ≠ 0.
Proof.
  intros Hr [t [Hs _]%wasm_ty_cases]. destruct a as [x|z n]; [done|]. cbn in *. destruct Ha as [Hz Hf].
  rewrite (wrap_id (8 * n)); [exact Hr|]. destruct (decide (n = 8)) as [->|]; [exact Hz|apply Hf; lia].
Qed.
Lemma sim_exception code c' :
  o = Op.Exception → raises a → exception_op a b index has_host it = Ok code → Interp.interpret i c = Some c' →
  sim code c'.
Proof.
  intros Ho Hra Hc Hi. unfold exception_op in Hc. apply unless_Ok in Hc as [_ Hc].
  unfold Interp.interpret in Hi. cbn [i_op i_a i_b i_out] in Hi. rewrite Ho in Hi. injection Hi as <-.
  apply cat_Ok in Hc as (l1 & l' & Hl1 & Hc & ->). apply cat_Ok in Hc as (l2 & l3 & Hl2 & Hc & ->). apply ops_Ok in Hc as ->.
  pose proof (zext_size _ _ Hl2) as Hsb.
  assert (is_Some (wasm_ty (size_of a))) as Ht.
  { unfold emit_zext_i32 in Hl1. peel Hl1. by eexists. }
  pose proof Ht as [t [Hsa _]%wasm_ty_cases]. rewrite !get_zext by done.
  rewrite (wrap_id 64) by (by apply get_word). pose proof (raises_code Hra Ht) as Hne.
  set (x := wrap 32 (get c a (size_of a))) in *. set (y := get c b (size_of b)) in *.
  destruct (runs_report base limit it fast L Hit [] st L (W.import_raise x y index s) (kept_refl _ _) nests_nil) as (st'' & Hr & Hv).
  eapply (simulates_stop base limit tlb index it fast L _ st st'' L s (W.import_raise x y index s)); [|cbn [app]|apply agrees_raise, Hag|apply kept_refl|done|done].
  - cbn. intros E%from_u32_zero. done.
  - eapply runs_zext_i32; [exact Hl1|done|]. eapply (runs_zext_i64 base limit tlb); try eassumption.
    apply runs_i32. rewrite index_word by done. apply runs_call_raise. exact Hr.
Qed.

(** ** Divisions *)
Ltac load_word H :=
  eapply runs_emit_load; [exact Hlimit|exact H|exact (l_base _ _ _ _ HL)|apply value_operand; [assumption|congruence|eexists; eassumption]|];
  rewrite (get_read base limit tlb s c) by (done || lia).
Lemma divide_inv n c' :
  n = v_size out → size_of a = n → size_of b = n → n = 1 ∨ n = 2 ∨ n = 4 ∨ n = 8 → Interp.divide i c = Some c' →
  c' = match div_op o (8 * n) (get c a n) (get c b n) with
       | Some x => put out n x c
       | None => raise ExceptionCode.DivisionException 0 c
       end.
Proof.
  intros -> Hsa Hsb Hn Hi. unfold Interp.divide in Hi. cbn [i_op i_a i_b i_out] in Hi.
  rewrite Hsa, Hsb, int_size_cases, Z.eqb_refl in Hi by done. cbn [andb] in Hi. destruct (div_op _ _ _ _); by injection Hi as <-.
Qed.
Lemma runs_eqz n x rest st' r :
  runs rest (mk ((W.I32, W.truth (x =? 0)) :: st') L s) r → runs (int_eqz n :: rest) (mk ((ty n, x) :: st') L s) r.
Proof. intros Hr. unfold int_eqz, ty. destruct (n =? 8); by eapply runs_unop. Qed.
Lemma sim_divide_raise code c' st'' :
  runs code (mk st L s) (W.Returned (mk st'' L (W.import_raise EXC_DIVISION 0 index s))) → report_value it L st'' →
  c' = raise ExceptionCode.DivisionException 0 c → sim code c'.
Proof.
  intros Hr Hv ->. eapply simulates_stop; [|exact Hr| |apply kept_refl|done|done]; [done|].
  by apply (agrees_raise base limit tlb index EXC_DIVISION).
Qed.
Lemma emit_load_nests v n l rest : emit_load v n = Ok l → nests rest → nests (l ++ rest).
Proof.
  intros Hl Hr. unfold emit_load in Hl. apply rbind_Ok in Hl as (t & _ & Hl). destruct v as [x|z k].
  - peel Hl. cbn [app]. do 2 (apply nests_cons; [try done|]); [by eapply load_instr_plain|done].
  - apply ops_Ok in Hl as ->. cbn [app]. apply nests_cons; [by destruct (is_i64 t)|done].
Qed.
Lemma emit_store_nests v l : emit_store v = Ok l → nests l.
Proof.
  intros Hl. unfold emit_store in Hl. apply rbind_Ok in Hl as (t & _ & Hl). apply rbind_Ok in Hl as (j & Hj%bail_Ok & Hl).
  apply ops_Ok in Hl as ->. apply nests_cons; [|apply nests_nil]. unfold store_instr in Hj.
  repeat case_match; simplify_eq; done.
Qed.
Lemma sim_divide code c' :
  o = Op.IntDiv ∨ o = Op.IntRem → divide_op o out a b index has_host it = Ok code → Interp.divide i c = Some c' →
  sim code c'.
Proof.
  intros Ho Hc Hi. unfold divide_op in Hc. apply unless_Ok in Hc as [_ Hc].
  apply rbind_Ok in Hc as (n & Hw & Hc). apply same_width_inv in Hw as (-> & Hsa & Hsb & Hn & Ht).
  apply (divide_inv (v_size out)) in Hi as ->; [|done..]. set (x := get c a _) in *. set (y := get c b _) in *.
  assert (fits (8 * v_size out) x ∧ fits (8 * v_size out) y) as [Hfx Hfy] by (split; apply get_fits; lia).
  revert Ho. peel Hc. intros Ho.  destruct (y =? 0) eqn:Ey.
  - assert (div_op o (8 * v_size out) x y = None) as -> by (destruct Ho as [->| ->]; cbn; by rewrite Ey).
    edestruct (raise_taken base limit index it fast L Hindex Hit) as (st'' & Hr & Hv); [|eapply sim_divide_raise; [|exact Hv|done]].
    2:{ load_word Hl. cbn [app]. apply runs_eqz. fold y. rewrite Ey. exact Hr. }
    cbn [app]. apply nests_cons; [done|]. eapply emit_load_nests; [eassumption|]. eapply emit_load_nests; [eassumption|].
    apply nests_cons; [by repeat case_match|]. by eapply emit_store_nests.
  - assert (∃ z, div_op o (8 * v_size out) x y = Some z ∧
             z = if bool_decide (o = Op.IntDiv) then x / y else x mod y) as (z & Hz & Hz').
    { destruct Ho as [->| ->]; cbn; rewrite Ey; by eexists. }
    rewrite Hz. eapply simulates_put; [lia|exact Hag|exact He|exact HL|apply kept_refl| |reflexivity].
    load_word Hl. cbn [app]. apply runs_eqz. fold y. rewrite Ey. apply raise_skip.
    eapply runs_get; [exact (l_base _ _ _ _ HL)|]. load_word Hl0. load_word Hl1. fold x y.
    eapply (runs_binop _ _ _ (ty (v_size out)) (ty (v_size out)) (if bool_decide (o = Op.IntDiv) then W.div_u else W.rem_u) x y z).
    + unfold ty. destruct (v_size out =? 8), (bool_decide (o = Op.IntDiv)); done.
    + rewrite Hz'. destruct (bool_decide _); unfold W.div_u, W.rem_u; by rewrite Ey.
    + eapply runs_emit_store; [exact Hlimit|eassumption|done|done|apply Hout..].
Qed.

(** Signed operands are compared at the width of the wasm type. *)
Lemma signed_word_eq n x z :
  n = 1 ∨ n = 2 ∨ n = 4 ∨ n = 8 → - 2 ^ (8 * n - 1) ≤ z < 2 ^ (8 * n - 1) →
  (wrap (width n) (signed (8 * n) x) =? wrap (width n) z) = (signed (8 * n) x =? z).
Proof.
  intros Hn Hz. apply Bool.eq_iff_eq_true. rewrite !Z.eqb_eq. split; [|by intros ->].
  intros E%(f_equal (signed (width n))). rewrite signed_width in E by done. rewrite E. apply signed_wrap.
  - unfold width. destruct (n =? 8); lia.
  - unfold width. destruct Hn as [->|[->|[->| ->]]]; cbn in *; lia.
Qed.
Lemma runs_int_const n v rest st' r :
  runs rest (mk ((ty n, wrap (width n) v) :: st') L s) r → runs (int_const n v :: rest) (mk st' L s) r.
Proof.
  intros Hr. unfold int_const, ty, width in *. destruct (n =? 8); [by apply runs_i64|]. apply runs_i32.
  unfold as_i32. by rewrite wrap_signed by lia.
Qed.
Lemma runs_int_eq n x y rest st' r :
  runs rest (mk ((W.I32, W.truth (x =? y)) :: st') L s) r → runs (int_eq n :: rest) (mk ((ty n, y) :: (ty n, x) :: st') L s) r.
Proof. intros Hr. unfold int_eq, ty. destruct (n =? 8); by eapply runs_binop. Qed.
Lemma runs_signed v n l rest st' r :
  emit_signed v n = Ok l → value_ok v → n = size_of v →
  runs rest (mk ((ty n, wrap (width n) (signed (8 * n) (get c v n))) :: st') L s) r → runs (l ++ rest) (mk st' L s) r.
Proof.
  intros Hl Hv Hn Hr. unfold emit_signed in Hl. case_bool_decide as Hs; [|done].
  apply cat_Ok in Hl as (l0 & l1 & Hl0 & Hl1 & ->). apply ops_Ok in Hl1 as ->.
  assert (n = 1 ∨ n = 2 ∨ n = 4 ∨ n = 8) as Hn4 by set_solver. rewrite <- app_assoc.
  assert (wasm_ty n = Some (ty n)) as Ht by (by destruct Hn4 as [->|[->|[->| ->]]]).
  eapply runs_emit_load; [exact Hlimit|exact Hl0|exact (l_base _ _ _ _ HL)|apply value_operand; [done..|by eexists]|].
  rewrite (get_read base limit tlb s c) by (done || lia). apply runs_sign_fill; [done|apply get_fits; lia|done].
Qed.
Lemma emit_signed_nests v n l rest : emit_signed v n = Ok l → nests rest → nests (l ++ rest).
Proof.
  intros Hl Hr. unfold emit_signed in Hl. destruct (bool_decide _); [|done]. peel Hl. rewrite <- app_assoc.
  eapply emit_load_nests; [done|]. unfold sign_fill. destruct (n =? 1); [|destruct (n =? 2)]; cbn [app]; [by apply nests_cons..|done].
Qed.
Lemma int_min_eq n : n = 1 ∨ n = 2 ∨ n = 4 ∨ n = 8 → int_min n = - 2 ^ (8 * n - 1).
Proof. by intros [->|[->|[->| ->]]]. Qed.
Lemma signed_least w x : 0 < w → fits w x → (signed w x =? - 2 ^ (w - 1)) = (x =? 2 ^ (w - 1)).
Proof.
  intros Hw Hx. rewrite signed_fits by done. assert (2 ^ w = 2 * 2 ^ (w - 1)) by (rewrite <- Z.pow_succ_r by lia; f_equal; lia).
  unfold fits in Hx. destruct (x <? 2 ^ (w - 1)) eqn:E; lia.
Qed.
Lemma signed_minus_one w x : 0 < w → fits w x → (signed w x =? -1) = (x =? 2 ^ w - 1).
Proof.
  intros Hw Hx. rewrite signed_fits by done. assert (2 ^ w = 2 * 2 ^ (w - 1)) by (rewrite <- Z.pow_succ_r by lia; f_equal; lia).
  unfold fits in Hx. destruct (x <? 2 ^ (w - 1)) eqn:E; lia.
Qed.
Lemma truth_and p q : Z.land (W.truth p) (W.truth q) = W.truth (p && q).
Proof. by destruct p, q. Qed.
(** The two signed divisions at the width of the wasm type. *)
Lemma signed_division n x y (quot : bool) :
  n = 1 ∨ n = 2 ∨ n = 4 ∨ n = 8 → fits (8 * n) x → fits (8 * n) y → (y =? 0) = false →
  ((x =? 2 ^ (8 * n - 1)) && (y =? 2 ^ (8 * n) - 1)) = false →
  let w := width n in let f := if quot then Z.quot else Z.rem in
  (if quot then W.div_s w else W.rem_s w) (wrap w (signed (8 * n) x)) (wrap w (signed (8 * n) y)) =
    Some (wrap w (f (signed (8 * n) x) (signed (8 * n) y))).
Proof.
  intros Hn Hx Hy Ey Eo w f. subst w f.
  assert ((wrap (width n) (signed (8 * n) y) =? 0) = false) as E0.
  { replace 0 with (wrap (width n) 0) by done. rewrite signed_word_eq by (try done; lia).
    rewrite signed_fits by (try done; lia). unfold fits in Hy. destruct (y <? _) eqn:E; lia. }
  assert ((wrap (width n) (signed (8 * n) x) =? 2 ^ (width n - 1)) && (wrap (width n) (signed (8 * n) y) =? 2 ^ (width n) - 1) = false) as E1.
  { destruct (decide (n < 4)) as [Hlt|Hge].
    - apply andb_false_iff. left. apply Z.eqb_neq. intros E%(f_equal (signed (width n))). rewrite signed_width in E by done.
      pose proof (signed_range (8 * n) x ltac:(lia)) as Hr.
      destruct Hn as [->|[->|Hn]]; [change (signed _ (2 ^ _)) with (- 2 ^ 31) in E; lia..|lia].
    - replace (width n) with (8 * n) by (unfold width; destruct (n =? 8) eqn:E; lia).
      rewrite !wrap_signed, !wrap_id by (try done; lia). exact Eo. }
  destruct quot; unfold W.div_s, W.rem_s; rewrite E0, ?E1, !signed_width by done; done.
Qed.
(** The overflow check in front of a signed division. *)
Lemma runs_overflow_check n la lb rest r :
  emit_signed a n = Ok la → emit_signed b n = Ok lb → size_of a = n → size_of b = n → n = 1 ∨ n = 2 ∨ n = 4 ∨ n = 8 →
  runs rest (mk ((W.I32, W.truth ((get c a n =? 2 ^ (8 * n - 1)) && (get c b n =? 2 ^ (8 * n) - 1))) :: st) L s) r →
  runs (la ++ [int_const n (int_min n); int_eq n] ++ lb ++ [int_const n (-1); int_eq n] ++ W.I32And :: rest) (mk st L s) r.
Proof.
  intros Hla Hlb Hsa Hsb Hn Hr. eapply runs_signed; [exact Hla|done|done|]. cbn [app].
  apply runs_int_const, runs_int_eq. eapply runs_signed; [exact Hlb|done|done|]. cbn [app].
  apply runs_int_const, runs_int_eq. eapply runs_binop; [reflexivity..|]. rewrite truth_and.
  assert (0 < 2 ^ (8 * n - 1)) by (apply Z.pow_pos_nonneg; lia).
  rewrite !signed_word_eq, int_min_eq, signed_least, signed_minus_one
    by (try done; try (apply get_fits); try (rewrite ?int_min_eq by done); lia). done.
Qed.
Lemma overflow_check_nests n la lb rest :
  emit_signed a n = Ok la → emit_signed b n = Ok lb → nests rest →
  nests (la ++ [int_const n (int_min n); int_eq n] ++ lb ++ [int_const n (-1); int_eq n] ++ W.I32And :: rest).
Proof.
  intros Hla Hlb Hr. do 2 (eapply emit_signed_nests; [eassumption|]; cbn [app];
    do 2 (apply nests_cons; [unfold int_const, int_eq; by destruct (_ =? 8)|])). by apply nests_cons.
Qed.
Lemma sim_signed_divide code c' :
  o = Op.IntSignedDiv ∨ o = Op.IntSignedRem → signed_divide_op o out a b index has_host it = Ok code →
  Interp.divide i c = Some c' → sim code c'.
Proof.
  intros Ho Hc Hi. unfold signed_divide_op in Hc. apply unless_Ok in Hc as [_ Hc].
  apply rbind_Ok in Hc as (n & Hw & Hc). apply same_width_inv in Hw as (-> & Hsa & Hsb & Hn & Ht).
  apply (divide_inv (v_size out)) in Hi as ->; [|done..]. set (x := get c a _) in *. set (y := get c b _) in *.
  assert (fits (8 * v_size out) x ∧ fits (8 * v_size out) y) as [Hfx Hfy] by (split; apply get_fits; lia).
  revert Ho. peel Hc. intros Ho. set (quot := bool_decide (o = Op.IntSignedDiv)).
  match goal with |- simulates _ _ _ (l ++ _ ++ ?l1 ++ _ ++ ?l2 ++ _ ++ _ ++ ?rest) _ _ _ _ _ _ _ =>
    set (tail := rest); set (la := l1) in *; set (lb := l2) in * end.
  assert (nests tail) as Htail.
  { unfold tail. cbn [app]. apply nests_cons; [done|]. do 2 (eapply emit_signed_nests; [eassumption|]).
    apply nests_cons; [by repeat case_match|]. by eapply emit_store_nests. }
  assert (nests (raise_if index it ++ tail)) as Hraise by (by apply raise_if_nests).
  destruct (y =? 0) eqn:Ey.
  - assert (div_op o (8 * v_size out) x y = None) as -> by (destruct Ho as [->| ->]; cbn; by rewrite Ey).
    edestruct (raise_taken base limit index it fast L Hindex Hit) as (st'' & Hr & Hv);
      [by eapply (overflow_check_nests (v_size out) la lb)|].
    eapply sim_divide_raise; [|exact Hv|done]. load_word Hl. cbn [app]. apply runs_eqz. fold y. rewrite Ey. exact Hr.
  - destruct ((x =? 2 ^ (8 * v_size out - 1)) && (y =? 2 ^ (8 * v_size out) - 1)) eqn:Eo.
    + assert (div_op o (8 * v_size out) x y = None) as -> by (destruct Ho as [->| ->]; cbn; by rewrite Ey, Eo).
      edestruct (raise_taken base limit index it fast L Hindex Hit) as (st'' & Hr & Hv); [exact Htail|].
      eapply sim_divide_raise; [|exact Hv|done]. load_word Hl. cbn [app]. apply runs_eqz. fold y. rewrite Ey. apply raise_skip.
      eapply runs_overflow_check; [eassumption..|]. fold x y. rewrite Eo. exact Hr.
    + assert (div_op o (8 * v_size out) x y = Some (wrap (8 * v_size out) ((if quot then Z.quot else Z.rem)
        (signed (8 * v_size out) x) (signed (8 * v_size out) y)))) as -> by (destruct Ho as [->| ->]; cbn; by rewrite Ey, Eo).
      eapply simulates_put; [lia|exact Hag|exact He|exact HL|apply kept_refl| |].
      * load_word Hl. cbn [app]. apply runs_eqz. fold y. rewrite Ey. apply raise_skip.
        eapply runs_overflow_check; [eassumption..|]. fold x y. rewrite Eo. apply raise_skip. unfold tail. cbn [app].
        eapply runs_get; [exact (l_base _ _ _ _ HL)|]. do 2 (eapply runs_signed; [eassumption|done|done|]). fold x y.
        eapply (runs_binop _ _ _ (ty (v_size out)) (ty (v_size out))); [|by apply (signed_division _ _ _ quot)|].
        { unfold ty, width. destruct (v_size out =? 8), quot; done. }
        eapply runs_emit_store; [exact Hlimit|eassumption|done|done|apply Hout..].
      * rewrite width_mod by done. unfold wrap. by rewrite Z.mod_mod by lia.
Qed.
End raising.

(** Loads and stores of guest memory against the interpreter. *)
Lemma put_le_bytes r k n l : byte_list l → zlen l = n → put_bytes r k (le_bytes (Z.to_nat n) (le_val l)) = put_bytes r k l.
Proof. intros Hb <-. f_equal. unfold zlen. by rewrite Nat2Z.id, le_bytes_val. Qed.
Lemma word_size_range n : word_size n = true → 1 ≤ n ≤ 8.
Proof. intros Hn. apply bool_decide_eq_true in Hn. set_solver by lia. Qed.
Lemma int_size_word n : int_size n = true → n ≠ 16 → word_size n = true.
Proof. intros Hn%bool_decide_eq_true H16. apply bool_decide_eq_true. set_solver. Qed.

Section access.
Context `{Arch} `{Floats} {G : Type} `{Softmmu G} `{Escapes G} (base limit tlb : Z) `{!SoftmmuLaws G base limit tlb}.
Context (Hbase : 0 ≤ base) (Hlimit : base + REG_SPACE_BYTES ≤ limit) (Hspace : limit ≤ 2 ^ 32).
Abbreviation mk := (W.Build_cfg G).
Abbreviation runs := (runs base limit).
Abbreviation agrees := (agrees base limit tlb).
Context (index : Z) (it : option nat) (fast : FastLocals) (st L : list W.val).
Context (Hindex : 0 ≤ index < 2 ^ 32) (Hit : iter_ok fast it L) (Hfast : fast_ok fast) (HL : locals_ok base tlb fast L).
Implicit Types (s : W.store G) (c : Cpu G).

(** * Checked accesses *)
(** The code of an access, its arguments on the stack, does what the interpreter
    does ([d]): it falls through or returns. *)
Definition accesses (code : W.code) (args : list W.val) (L' : list W.val) s (d : Cpu G * bool) : Prop :=
  if d.2 then
    ∃ s', agrees s' d.1 ∧ exc_code (c_exc d.1) = 0 ∧ W.s_fault s' = W.s_fault s ∧
          ∀ rest st r, runs rest (mk st L' s') r → runs (code ++ rest) (mk (args ++ st) L' s) r
  else
    ∃ s', agrees s' d.1 ∧ exc_code (c_exc d.1) ≠ 0 ∧ W.s_fault s' = Some index ∧
          ∀ rest st, nests rest → ∃ st'',
            runs (code ++ rest) (mk (args ++ st) L' s) (W.Returned (mk st'' L' s')) ∧ report_value it L st''.
Definition load_call (x : VarNode) (n : Z) : W.code :=
  [W.I32Const (as_i32 (var_offset x)); W.I32Const n; W.Call IMPORT_LOAD] ++ emit_fault_check index it.
Definition store_call (n : Z) : W.code := [W.I32Const n; W.Call IMPORT_STORE] ++ emit_fault_check index it.
Lemma access_pass code args L' s s' c' :
  agrees s' c' → exc_code (c_exc c') = 0 → W.s_fault s' = W.s_fault s →
  (∀ rest st r, runs rest (mk ((W.I32, 1) :: st) L' s') r → runs (code ++ rest) (mk (args ++ st) L' s) r) →
  accesses (code ++ emit_fault_check index it) args L' s (c', true).
Proof.
  intros Hag Hx Hf Hr. exists s'. split_and!; [done..|]. intros rest st' r Hrest. rewrite <- app_assoc. by apply Hr, check_pass.
Qed.
Lemma access_fail code args L' s s' c' :
  agrees s' c' → exc_code (c_exc c') ≠ 0 → kept fast L L' →
  (∀ rest st r, runs rest (mk ((W.I32, 0) :: st) L' s') r → runs (code ++ rest) (mk (args ++ st) L' s) r) →
  accesses (code ++ emit_fault_check index it) args L' s (c', false).
Proof.
  intros Hag Hx Hk Hr. exists (W.set_fault index s'). split_and!; [by destruct Hag as (? & ? & ? & ?)|done|done|].
  intros rest st' Hn. destruct (check_fail base limit index it fast L Hindex Hit rest st' L' s' Hk Hn) as (st'' & Hrun & Hv).
  exists st''. split; [|done]. rewrite <- app_assoc. by apply Hr.
Qed.
Lemma accesses_load x n addr L' s c :
  agrees s c → exc_code (c_exc c) = 0 → word_size n = true → kept fast L L' →
  0 ≤ regs_var_offset x → regs_var_offset x + n ≤ REG_SPACE_BYTES →
  accesses (load_call x n) [(W.I64, addr)] L' s (Interp.load_to x n addr c).
Proof.
  intros (Hr & Hm & Hx & Hi) He Hn Hk Hx1 Hx2. pose proof (word_size_range n Hn). unfold Interp.load_to.
  destruct (mmu_read (c_mem c) addr n) as [g [l|code]] eqn:Er.
  all: assert (∀ s' v, W.import_load addr (regs_var_offset x) n s = (s', v) → ∀ rest st r,
      runs rest (mk ((W.I32, v) :: st) L' s') r →
      runs ([W.I32Const (as_i32 (var_offset x)); W.I32Const n; W.Call IMPORT_LOAD] ++ rest) (mk ((W.I64, addr) :: st) L' s) r)
    as Hcall.
  1,3: intros s' v Hs rest st' r Hrest; cbn [app]; apply runs_i32, runs_i32; rewrite (regs_offset x n) by lia;
    rewrite index_word by (unfold REG_SPACE_BYTES in *; lia); rewrite (wrap_id 32 n) by (unfold fits; lia);
    by eapply runs_call_load.
  - destruct (mmu_read_bytes _ _ _ _ _ Hi Hn Er) as [Hb Hl]. eapply access_pass; [| | |apply Hcall].
    4:{ unfold W.import_load. rewrite Hn, Hm, Er. done. }
    + split_and!; [|done|done|by eapply mmu_read_inv]. cbn. unfold write, write_reg. rewrite put_le_bytes by done. by apply same_put.
    + done.
    + done.
  - eapply access_fail; [| |done|apply Hcall].
    3:{ unfold W.import_load. rewrite Hn, Hm, Er. done. }
    + split_and!; [done..|by eapply mmu_read_inv].
    + cbn. by eapply mmu_read_code.
Qed.
Lemma accesses_store n addr x L' s c :
  agrees s c → exc_code (c_exc c) = 0 → word_size n = true → kept fast L L' →
  accesses (store_call n) [(W.I64, x); (W.I64, addr)] L' s (Interp.store_from n addr x c).
Proof.
  intros (Hr & Hm & Hx & Hi) He Hn Hk. pose proof (word_size_range n Hn). unfold Interp.store_from.
  destruct (mmu_write (c_mem c) addr (le_bytes (Z.to_nat n) x)) as [g [code|]] eqn:Er.
  all: assert (∀ s' v, W.import_store addr x n s = (s', v) → ∀ rest st r,
      runs rest (mk ((W.I32, v) :: st) L' s') r →
      runs ([W.I32Const n; W.Call IMPORT_STORE] ++ rest) (mk ([(W.I64, x); (W.I64, addr)] ++ st) L' s) r)
    as Hcall.
  1,3: intros s' v Hs rest st' r Hrest; cbn [app]; apply runs_i32; rewrite (wrap_id 32 n) by (unfold fits; lia);
    by eapply runs_call_store.
  - eapply access_fail; [| |done|apply Hcall].
    3:{ unfold W.import_store. rewrite Hn, Hm, Er. done. }
    + split_and!; [done..|by eapply mmu_write_inv].
    + cbn. by eapply mmu_write_code.
  - eapply access_pass; [| | |apply Hcall].
    4:{ unfold W.import_store. rewrite Hn, Hm, Er. done. }
    + split_and!; [done..|by eapply mmu_write_inv].
    + done.
    + done.
Qed.

(** An access behind a missed probe, and one on its own. *)
Lemma access_runs p code args L' s d :
  (∀ rest r, runs rest (mk (args ++ st) L' s) r → runs (p ++ rest) (mk st L' s) r) → accesses code args L' s d →
  if d.2 then ∃ s', runs (p ++ code) (mk st L' s) (W.Next (mk st L' s')) ∧ agrees s' d.1 ∧ exc_code (c_exc d.1) = 0 ∧
                    W.s_fault s' = W.s_fault s
  else ∃ st'' s', runs (p ++ code) (mk st L' s) (W.Returned (mk st'' L' s')) ∧ agrees s' d.1 ∧ exc_code (c_exc d.1) ≠ 0 ∧
                  W.s_fault s' = Some index ∧ report_value it L st''.
Proof.
  intros Hp Hacc. unfold accesses in Hacc. destruct d as [c' []]; cbn [fst snd] in *.
  - destruct Hacc as (s' & Hag & Hx & Hf & Hr). exists s'. split_and!; [|done..]. apply Hp.
    rewrite <- (app_nil_r code). apply Hr, runs_nil.
  - destruct Hacc as (s' & Hag & Hx & Hf & Hr). destruct (Hr [] st nests_nil) as (st'' & Hrun & Hv). exists st'', s'.
    split_and!; [|done..]. apply Hp. by rewrite app_nil_r in Hrun.
Qed.
Lemma sim_access code p pcode args L' s d :
  kept fast L L' → locals_ok base tlb fast L' → accesses pcode args L' s d →
  (∀ rest r, runs rest (mk (args ++ st) L' s) r → runs (p ++ rest) (mk st L' s) r) →
  (∀ r, runs (p ++ pcode) (mk st L' s) r → W.leave st r = r → runs code (mk st L s) r) →
  simulates base limit tlb code index it fast st L s d.1.
Proof.
  intros Hk HL' Hacc Hp Hcode. pose proof (access_runs p pcode args L' s d Hp Hacc) as Hr. destruct d as [c' []]; cbn [fst snd] in *.
  - destruct Hr as (s' & Hr & Hag & Hx & Hf). eapply simulates_next; [done|by apply Hcode|done..].
  - destruct Hr as (st'' & s' & Hr & Hag & Hx & Hf & Hv). eapply simulates_stop; [done|by apply Hcode|done..].
Qed.
Lemma call_nests l : forallb plain l = true → nests (l ++ emit_fault_check index it).
Proof.
  intros Hl. apply nests_app; [by apply nests_plain|]. rewrite <- (app_nil_r (emit_fault_check _ _)). apply check_nests, nests_nil.
Qed.
Lemma zext_nests v l rest : emit_zext_i64 v = Ok l → nests rest → nests (l ++ rest).
Proof.
  intros Hl Hr. unfold emit_zext_i64 in Hl. peel Hl. rewrite <- app_assoc. eapply emit_load_nests; [done|].
  destruct (is_i64 _); cbn [app]; [done|by apply nests_cons].
Qed.
Lemma zext_runs v l s c L' rest st' r :
  emit_zext_i64 v = Ok l → value_ok v → agrees s c → locals_ok base tlb fast L' →
  runs rest (mk ((W.I64, get c v (size_of v)) :: st') L' s) r → runs (l ++ rest) (mk st' L' s) r.
Proof. intros Hl Hv Hag HL' Hr. eapply (runs_zext_i64 base limit tlb); try eassumption. Qed.

(** * One word *)
Section word.
Context (s : W.store G) (c : Cpu G) (a : Value) (Ha : value_ok a).
Context (Hag : agrees s c) (He : exc_code (c_exc c) = 0).
Lemma mem_inv : mmu_inv (W.s_mem s).
Proof. by destruct Hag as (_ & -> & _ & ?). Qed.
(** A probe that misses leaves the access to the slow path. *)
Lemma sim_slow write n lz load_perm tail ls args pcode p d :
  emit_zext_i64 a = Ok lz → word_size n = true → load_instr n (raw_arg PAGE_PERM_OFFSET) = Some load_perm → nests tail →
  hit tlb (W.s_mem s) write (get c a (size_of a)) n = false → ls = p ++ pcode →
  (∀ L', kept fast L L' → accesses pcode args L' s d) →
  (∀ L' rest r, locals_ok base tlb fast L' → runs rest (mk (args ++ st) L' s) r → runs (p ++ rest) (mk st L' s) r) →
  simulates base limit tlb (W.Block :: (W.Block :: (lz ++ probe n (if write then TLB_WRITE_ARRAY_OFFSET else 0)
      (perm_mask write n) load_perm fast ++ tail ++ [W.Br 1]) ++ [W.End]) ++ (ls ++ [W.End])) index it fast st L s d.1.
Proof.
  intros Hlz Hn Hlp Htail Hh -> Hacc Hp. pose proof (zext_size _ _ Hlz) as Hsa. pose proof (get_word c a Hsa) as Hu.
  destruct (probe_miss base limit tlb Hbase Hlimit Hspace fast st L s Hfast HL mem_inv write _ n load_perm (tail ++ [W.Br 1]) Hu Hn Hlp Hh)
    as (L' & HL' & Hk & Hmiss). { apply nests_app; [done|]. apply nests_cons; [done|apply nests_nil]. }
  eapply (sim_access _ p pcode args L'); [done..|by apply Hacc|intros rest r; by apply Hp|].
  intros r Hr Hleave. eapply fastpath_miss; [|exact Hr|done]. by eapply zext_runs.
Qed.
Lemma hit_page write x n :
  hit tlb (W.s_mem s) write x n = true → x mod 4096 + n ≤ 4096 ∧
  le_val (host_read (W.s_mem s) (entry_of tlb write x) 8) = Z.land x TLB_TAG_MASK ∧
  Z.land (le_val (host_read (W.s_mem s) (data_of tlb (W.s_mem s) write x + PAGE_PERM_OFFSET) (Z.to_nat n))) (perm_mask write n) =
    perm_mask write n.
Proof. unfold hit. rewrite !andb_true_iff, Z.leb_le, !Z.eqb_eq. tauto. Qed.
(** A probe that hits reaches the page. *)
Lemma runs_fast write n lz load_perm tail ls L' s' st' :
  emit_zext_i64 a = Ok lz → word_size n = true → load_instr n (raw_arg PAGE_PERM_OFFSET) = Some load_perm → nests ls →
  hit tlb (W.s_mem s) write (get c a (size_of a)) n = true →
  runs (tail ++ [W.Br 1]) (mk st (probed tlb fast L s write (get c a (size_of a))) s) (W.Break 1 (mk st' L' s')) →
  runs (W.Block :: (W.Block :: (lz ++ probe n (if write then TLB_WRITE_ARRAY_OFFSET else 0)
      (perm_mask write n) load_perm fast ++ tail ++ [W.Br 1]) ++ [W.End]) ++ (ls ++ [W.End])) (mk st L s)
    (W.Next (mk st L' s')).
Proof.
  intros Hlz Hn Hlp Hls Hh Hr. pose proof (zext_size _ _ Hlz) as Hsa. pose proof (get_word c a Hsa) as Hu.
  eapply fastpath_hit; [|done]. eapply zext_runs; [done..|].
  by apply (probe_hit base limit tlb Hbase Hlimit Hspace fast st L s Hfast HL mem_inv).
Qed.
Lemma data_range write n :
  word_size n = true → (size_of a = 1 ∨ size_of a = 2 ∨ size_of a = 4 ∨ size_of a = 8) →
  hit tlb (W.s_mem s) write (get c a (size_of a)) n = true →
  let d := data_of tlb (W.s_mem s) write (get c a (size_of a)) in d + n ≤ limit ∧ host_at base d n.
Proof.
  intros Hn Hsa (Hp & Ht & _)%hit_page d. pose proof (get_word c a Hsa) as Hu.
  destruct (page_place (W.s_mem s) write _ n mem_inv Hn Hu Hp Ht) as (Hl & Hd & _). unfold d, data_of, entry_of.
  unfold PAGE_PERM_OFFSET in Hl. split; [lia|done].
Qed.
Lemma raw_load n i : load_instr n (raw_arg 0) = Some i → ∀ p rest st' L' s' r,
  p + n ≤ limit → 0 ≤ n → host_at base p n →
  runs rest (mk ((ty n, le_val (host_read (W.s_mem s') p (Z.to_nat n))) :: st') L' s') r →
  runs (i :: rest) (mk ((W.I32, p) :: st') L' s') r.
Proof.
  intros Hi p rest st' L' s' r Hl Hn Hh Hr. eapply runs_load; [by apply load_instr_width|cbn; lia|].
  cbn [W.m_offset raw_arg]. rewrite Z.add_0_r, lin_read_host by (by rewrite Z2Nat.id). exact Hr.
Qed.
Lemma reg_store x n i : store_instr n (reg_arg x) = Some i → ∀ v rest st' L' s' r,
  0 ≤ n → 0 ≤ regs_var_offset x → regs_var_offset x + n ≤ REG_SPACE_BYTES →
  runs rest (mk st' L' (set_regs (write (W.s_regs s') x n v) s')) r →
  runs (i :: rest) (mk ((ty n, v) :: (W.I32, base) :: st') L' s') r.
Proof.
  intros Hi v rest st' L' s' r Hn Hx1 Hx2 Hr.
  assert (W.store_width i = Some (ty n, n, reg_arg x)) as Hw.
  { unfold store_instr in Hi. repeat case_match; simplify_eq; cbn; by match goal with E : (n =? ?k) = true |- _ =>
      replace n with k by lia end. }
  eapply runs_store; [exact Hw|unfold reg_arg; cbn; rewrite (regs_offset x n) by lia; lia|].
  unfold reg_arg; cbn [W.m_offset raw_arg]. rewrite (regs_offset x n), lin_write_regs by (rewrite ?zlen_le_bytes; lia). exact Hr.
Qed.
Lemma raw_store n i : store_instr n (raw_arg 0) = Some i → ∀ p v rest st' L' s' r,
  p + n ≤ limit → 0 ≤ n → host_at base p n →
  runs rest (mk st' L' (set_mem (host_write (W.s_mem s') p (le_bytes (Z.to_nat n) v)) s')) r →
  runs (i :: rest) (mk ((ty n, v) :: (W.I32, p) :: st') L' s') r.
Proof.
  intros Hi p v rest st' L' s' r Hl Hn Hh Hr.
  assert (W.store_width i = Some (ty n, n, raw_arg 0)) as Hw.
  { unfold store_instr in Hi. repeat case_match; simplify_eq; cbn; by match goal with E : (n =? ?k) = true |- _ =>
      replace n with k by lia end. }
  eapply runs_store; [exact Hw|cbn; lia|].
  cbn [W.m_offset raw_arg]. rewrite Z.add_0_r, lin_write_host by (rewrite zlen_le_bytes; by rewrite Z2Nat.id). exact Hr.
Qed.
Lemma hit_read x n :
  is_u64 x → word_size n = true → hit tlb (W.s_mem s) false x n = true →
  mmu_read (W.s_mem s) x n = (W.s_mem s, inl (host_read (W.s_mem s) (data_of tlb (W.s_mem s) false x) (Z.to_nat n))).
Proof.
  intros Hu Hn (Hp & Ht & Hm)%hit_page. pose proof mem_inv. unfold data_of, entry_of in *. rewrite Z.add_0_r in *.
  by apply page_read.
Qed.
Lemma hit_write x n v :
  is_u64 x → word_size n = true → hit tlb (W.s_mem s) true x n = true →
  mmu_write (W.s_mem s) x (le_bytes (Z.to_nat n) v) =
    (host_write (W.s_mem s) (data_of tlb (W.s_mem s) true x) (le_bytes (Z.to_nat n) v), None).
Proof. intros Hu Hn (Hp & Ht & Hm)%hit_page. pose proof mem_inv. by apply page_write. Qed.
Lemma sim_load_word out code :
  var_ok out → word_size (v_size out) = true →
  emit_mem_fastpath false a (v_size out) (Some out) None fast
    (cat (emit_zext_i64 a) (cat (ops [W.I32Const (as_i32 (var_offset out)); W.I32Const (v_size out); W.Call IMPORT_LOAD])
       (ops (emit_fault_check index it)))) = Ok code →
  simulates base limit tlb code index it fast st L s (Interp.load_to out (v_size out) (get c a (size_of a)) c).1.
Proof.
  intros (Ho0 & Ho1 & Ho2 & Ho3) Hn Hc. pose proof (word_size_range _ Hn) as Hn'.
  apply fastpath_Ok in Hc as (lp & ld & sd & lz & tail & ls & _ & Hlp & Hld & _ & Hlz & Hls & (x & i & [= <-] & Hi & ->) & ->).
  apply cat_Ok in Hls as (l1 & l2 & Hl1 & Hl2 & ->). rewrite Hlz in Hl1. injection Hl1 as <-.
  change (cat _ _) with (ops (load_call out (v_size out))) in Hl2. apply ops_Ok in Hl2 as ->.
  change (perm_mask_word _ _) with (perm_mask false (v_size out)).
  pose proof (zext_size _ _ Hlz) as Hsa. set (addr := get c a (size_of a)).
  destruct (hit tlb (W.s_mem s) false addr (v_size out)) eqn:Eh.
  - destruct (data_range false _ Hn Hsa Eh) as [Hd1 Hd2].
    set (d := data_of tlb (W.s_mem s) false addr) in *. fold addr in Hd1, Hd2. fold d in Hd1, Hd2.
    destruct Hag as (Hr & Hmem & Hx & Hi').
    pose proof (hit_read addr (v_size out) (get_word c a Hsa) Hn Eh) as Hread. rewrite Hmem in Hread at 1 2.
    unfold Interp.load_to. rewrite Hread. cbn [fst].
    eapply simulates_next with (s' := set_regs (write (W.s_regs s) out (v_size out)
      (le_val (host_read (W.s_mem s) d (Z.to_nat (v_size out))))) s); [done| | | | |].
    + eapply (runs_fast false); [done..| |exact Eh|].
      { eapply zext_nests; [done|]. by apply call_nests. }
      cbn [app]. eapply runs_get; [eapply l_base, probed_ok; done|]. eapply runs_get; [eapply probed_get; done|].
      eapply raw_load; [exact Hld|exact Hd1|lia|exact Hd2|]. eapply reg_store; [exact Hi|lia|lia|lia|].
      apply runs_br, nests_nil.
    + split_and!; [|done|done|done]. cbn. unfold write. by rewrite Hr.
    + by apply probed_ok.
    + by eapply probed_ok.
    + done.
  - eapply (sim_slow false _ _ lp _ _ [(W.I64, addr)] (load_call out (v_size out)) lz); [done..| |exact Eh|done| |].
    + cbn [app]. do 2 (apply nests_cons; [done|]). apply nests_cons; [by eapply load_instr_plain|].
      apply nests_cons; [|apply nests_nil]. unfold store_instr in Hi. repeat case_match; simplify_eq; done.
    + intros L' Hk. by apply accesses_load.
    + intros L' rest r HL' Hr. by eapply zext_runs.
Qed.
Lemma sim_store_word v code :
  value_ok v → word_size (size_of v) = true →
  emit_mem_fastpath true a (size_of v) None (Some v) fast
    (cat (emit_zext_i64 a) (cat (emit_zext_i64 v) (cat (ops [W.I32Const (size_of v); W.Call IMPORT_STORE])
       (ops (emit_fault_check index it))))) = Ok code →
  simulates base limit tlb code index it fast st L s
    (Interp.store_from (size_of v) (get c a (size_of a)) (get c v (size_of v)) c).1.
Proof.
  intros Hv Hn Hc. pose proof (word_size_range _ Hn) as Hn'.
  apply fastpath_Ok in Hc as (lp & ld & sd & lz & tail & ls & _ & Hlp & _ & Hsd & Hlz & Hls & (x & l & [= <-] & Hl & ->) & ->).
  apply cat_Ok in Hls as (l1 & l2 & Hl1 & Hl2 & ->). rewrite Hlz in Hl1. injection Hl1 as <-.
  apply cat_Ok in Hl2 as (lv & l2' & Hlv & Hl2 & ->).
  change (cat _ _) with (ops (store_call (size_of v))) in Hl2. apply ops_Ok in Hl2 as ->.
  change (perm_mask_word _ _) with (perm_mask true (size_of v)).
  pose proof (zext_size _ _ Hlz) as Hsa. pose proof (zext_size _ _ Hlv) as Hsv.
  set (addr := get c a (size_of a)). set (y := get c v (size_of v)).
  destruct (hit tlb (W.s_mem s) true addr (size_of v)) eqn:Eh.
  - destruct (data_range true _ Hn Hsa Eh) as [Hd1 Hd2]. fold addr in Hd1, Hd2.
    pose proof (hit_write addr (size_of v) y (get_word c a Hsa) Hn Eh) as Hwrite. pose proof Hag as (Hr & Hmem & Hx & Hi').
    rewrite Hmem in Hwrite at 1. pose proof (mmu_write_inv _ _ _ _ _ Hi' Hwrite) as Hinv'.
    unfold Interp.store_from. rewrite Hwrite. cbn [fst].
    eapply simulates_next with (L' := probed tlb fast L s true addr) (s' := set_mem (host_write (W.s_mem s) (data_of tlb (W.s_mem s) true addr)
      (le_bytes (Z.to_nat (size_of v)) y)) s); [done| |split_and!; [exact Hr|reflexivity|exact Hx|exact Hinv']|by apply probed_ok|by eapply probed_ok|].
    + eapply (runs_fast true); [done..| |exact Eh|].
      { eapply zext_nests; [done|]. eapply zext_nests; [done|]. by apply call_nests. }
      cbn [app]. eapply runs_get; [eapply probed_get; done|]. rewrite <- app_assoc.
      eapply runs_emit_load; [exact Hlimit|exact Hl|eapply l_base, probed_ok; done|apply value_operand; [done..|]|].
      { unfold wasm_ty. by destruct Hsv as [->|[->|[->| ->]]]; eexists. }
      rewrite (get_read base limit tlb s c) by (done || lia). fold y.
      eapply raw_store; [exact Hsd|exact Hd1|lia|exact Hd2|]. apply runs_br, nests_nil.
    + done.
  - eapply (sim_slow true _ _ lp _ _ [(W.I64, y); (W.I64, addr)] (store_call (size_of v)) (lz ++ lv)); [done..| |exact Eh|by rewrite <- app_assoc| |].
    + cbn [app]. apply nests_cons; [done|]. eapply emit_load_nests; [done|]. apply nests_cons; [|apply nests_nil].
      unfold store_instr in Hsd. repeat case_match; simplify_eq; done.
    + intros L' Hk. by apply accesses_store.
    + intros L' rest r HL' Hr. rewrite <- app_assoc. eapply zext_runs; [done..|]. by eapply zext_runs.
Qed.
End word.

(** * Sixteen bytes, as two accesses *)
Lemma access_then code p args rest s d c' :
  accesses code args L s d → (∀ rest r, runs rest (mk (args ++ st) L s) r → runs (p ++ rest) (mk st L s) r) → nests rest →
  (if d.2 then ∀ s', agrees s' d.1 → exc_code (c_exc d.1) = 0 → simulates base limit tlb rest index it fast st L s' c'
   else c' = d.1) →
  simulates base limit tlb (p ++ code ++ rest) index it fast st L s c'.
Proof.
  intros Hacc Hp Hn Hc'. destruct d as [c1 []]; cbn [accesses fst snd] in *.
  - destruct Hacc as (s' & Hag & Hx & Hf & Hr). specialize (Hc' s' Hag Hx). unfold simulates in *.
    destruct (exc_code (c_exc c') =? _).
    + destruct Hc' as (L' & s2 & Hrun & Ha & Hl & Hk & Hf'). exists L', s2. split_and!; [by apply Hp, Hr|done..|congruence].
    + destruct Hc' as (st' & L' & s2 & Hrun & Ha & Hk & Hv & Hf'). exists st', L', s2. split_and!; [by apply Hp, Hr|done..].
  - destruct Hacc as (s' & Hag & Hx & Hf & Hr). subst c'. destruct (Hr rest st Hn) as (st'' & Hrun & Hv).
    eapply simulates_stop; [done|by apply Hp|done|apply kept_refl|done|done].
Qed.

(** The address of a wide load is read again for the second lane. *)
Definition addr_apart (out : VarNode) (v : Value) : Prop :=
  match v with
  | Var x => regs_var_offset x + v_size x ≤ regs_var_offset out ∨ regs_var_offset out + 8 ≤ regs_var_offset x
  | Const _ _ => True
  end.
Lemma get_load x n addr c v :
  0 ≤ size_of v → 0 ≤ n → match v with Var y => regs_var_offset y + v_size y ≤ regs_var_offset x ∨
    regs_var_offset x + n ≤ regs_var_offset y | Const _ _ => True end →
  get (Interp.load_to x n addr c).1 v (size_of v) = get c v (size_of v).
Proof.
  intros Hs Hn Hap. unfold Interp.load_to. destruct (mmu_read _ _ _) as [g [l|code]]; [|done]. cbn [fst].
  destruct v as [y|z k]; [|done]. unfold get. cbn. unfold write. apply read_write_out; [lia|exact Hs|lia].
Qed.
Lemma get_store n addr x c v m : get (Interp.store_from n addr x c).1 v m = get c v m.
Proof. unfold Interp.store_from. by destruct (mmu_write _ _ _) as [g []]. Qed.
Lemma runs_next_address v l s c rest r :
  emit_zext_i64 v = Ok l → value_ok v → agrees s c →
  runs rest (mk ([(W.I64, wrapping_add64 (get c v (size_of v)) 8)] ++ st) L s) r →
  runs ((l ++ [W.I64Const 8; W.I64Add]) ++ rest) (mk st L s) r.
Proof.
  intros Hl Hv Hag Hr. rewrite <- app_assoc. eapply zext_runs; [done..|]. cbn [app]. apply runs_i64.
  by eapply runs_binop.
Qed.
Lemma slice_lane out k x :
  v_size out = 16 → k = 0 ∨ k = 8 → var_ok out → slice_var out k 8 = Some x →
  v_size x = 8 ∧ regs_var_offset x = regs_var_offset out + k ∧ var_ok x.
Proof.
  intros Hs Hk (? & ? & ? & Hvis) Hx. unfold slice_var in Hx. destruct (_ <? _) eqn:E; [done|]. injection Hx as <-.
  assert (regs_var_offset {| v_id := v_id out; v_offset := v_offset out + k; v_size := 8 |} = regs_var_offset out + k) as Eo
    by (unfold regs_var_offset; cbn; lia).
  split_and!; [done|exact Eo|]. unfold var_ok. rewrite Eo. cbn [v_size]. split_and!; [lia..|].
  intros j Hj. apply Hvis. lia.
Qed.
Lemma expect_Ok {A} (x : option A) (y : A) : (expect x : res () A) = Ok y → x = Some y.
Proof. destruct x; [by intros [= ->]|done]. Qed.
Lemma sim_load_wide out a s c code c' :
  var_ok out → v_size out = 16 → value_ok a → addr_apart out a → agrees s c → exc_code (c_exc c) = 0 →
  cats ((λ off,
     cat (emit_zext_i64 a) (cat (ops (if off =? 0 then [] else [W.I64Const off; W.I64Add]))
     (cat (let! x := lane_var out off in ops [W.I32Const (as_i32 (var_offset x))])
     (cat (ops [W.I32Const 8; W.Call IMPORT_LOAD]) (ops (emit_fault_check index it)))))) <$> WIDE_LANES) = Ok code →
  Interp.load out (get c a (size_of a)) c = Some c' → simulates base limit tlb code index it fast st L s c'.
Proof.
  intros Hout H16 Ha Hap Hag He Hc Hi. apply lanes_cats in Hc as (l & l' & Hl & Hl' & ->).
  peel Hl. peel Hl'. unfold lane_var in *. apply expect_Ok in Hx, Hx0.
  unfold Interp.load in Hi. rewrite H16, Hx, Hx0 in Hi. cbn [word_size bool_decide] in Hi.
  replace (word_size 16) with false in Hi by done. cbn [Z.eqb Pos.eqb mbind option_bind] in Hi.
  destruct (slice_lane _ _ _ H16 (or_introl eq_refl) Hout Hx) as (Hs1 & Ho1 & Hv1).
  destruct (slice_lane _ _ _ H16 (or_intror eq_refl) Hout Hx0) as (Hs2 & Ho2 & Hv2).
  rewrite Hl0 in Hl. injection Hl as <-. pose proof (zext_size _ _ Hl0) as Hsa.
  destruct (Interp.load_to x 8 _ c) as [c1 ok] eqn:E1. set (addr := get c a (size_of a)) in *.
  rewrite <- !app_assoc. cbn [app].
  eapply (access_then (load_call x 8) l0 [(W.I64, addr)] _ s (c1, ok)).
  - rewrite <- E1. apply accesses_load; [done..|apply kept_refl|apply Hv1|]. rewrite <- Hs1. apply Hv1.
  - intros rest r. by apply zext_runs.
  - eapply zext_nests; [done|]. apply (call_nests [_; _; _; _; _]). done.
  - cbn [fst snd]. destruct ok; [|by injection Hi]. injection Hi as <-. intros s' Hag' He'.
    assert (get c1 a (size_of a) = addr) as Ea.
    { replace c1 with (Interp.load_to x 8 addr c).1 by (by rewrite E1). apply get_load; [lia|lia|].
      destruct a; [|done]. cbn in Hap. rewrite Ho1. lia. }
    eapply (sim_access _ (l0 ++ [W.I64Const 8; W.I64Add]) (load_call x0 8) [(W.I64, wrapping_add64 addr 8)] L);
      [apply kept_refl|done| | |].
    + apply accesses_load; [done..|apply kept_refl|apply Hv2|]. rewrite <- Hs2. apply Hv2.
    + intros rest r Hr. eapply runs_next_address; [done..|]. by rewrite Ea.
    + intros r Hr _. rewrite <- app_assoc in Hr. exact Hr.
Qed.
Lemma sim_store_wide a b s c code c' :
  value_ok b → size_of b = 16 → value_ok a → agrees s c → exc_code (c_exc c) = 0 →
  cats ((λ off,
     cat (emit_zext_i64 a) (cat (ops (if off =? 0 then [] else [W.I64Const off; W.I64Add]))
     (cat (let! x := lane b off in emit_zext_i64 x)
     (cat (ops [W.I32Const 8; W.Call IMPORT_STORE]) (ops (emit_fault_check index it)))))) <$> WIDE_LANES) = Ok code →
  Interp.store (get c a (size_of a)) b c = Some c' → simulates base limit tlb code index it fast st L s c'.
Proof.
  intros Hb H16 Ha Hag He Hc Hi. apply lanes_cats in Hc as (l & l' & Hl & Hl' & ->).
  peel Hl. peel Hl'. unfold lane in *. apply expect_Ok in Hx, Hx0.
  destruct b as [y|]; [|done]. cbn in H16, Hb, Hx, Hx0.
  apply fmap_Some in Hx as (y1 & Hy1 & ->), Hx0 as (y2 & Hy2 & ->).
  unfold Interp.store in Hi. cbn [size_of slice] in Hi. rewrite H16, Hy1, Hy2 in Hi.
  replace (word_size 16) with false in Hi by done. cbn [Z.eqb Pos.eqb mbind option_bind fmap option_fmap option_map] in Hi.
  destruct (slice_lane _ _ _ H16 (or_introl eq_refl) Hb Hy1) as (Hs1 & Ho1 & Hv1).
  destruct (slice_lane _ _ _ H16 (or_intror eq_refl) Hb Hy2) as (Hs2 & Ho2 & Hv2).
  match goal with H : emit_zext_i64 (Var y1) = Ok _ |- _ => rename H into Hz1 end.
  match goal with H : emit_zext_i64 (Var y2) = Ok _ |- _ => rename H into Hz2 end.
  rewrite Hl0 in Hl. injection Hl as <-. pose proof (zext_size _ _ Hl0) as Hsa.
  set (addr := get c a (size_of a)) in *. destruct (Interp.store_from 8 addr _ c) as [c1 ok] eqn:E1.
  rewrite <- !app_assoc. cbn [app Z.eqb]. rewrite (app_assoc l0 l).
  eapply (access_then (store_call 8) (l0 ++ l) [(W.I64, get c (Var y1) 8); (W.I64, addr)] _ s (c1, ok)).
  - rewrite <- E1. by apply accesses_store; [..|apply kept_refl].
  - intros rest r Hr. rewrite <- app_assoc. eapply zext_runs; [done..|]. eapply zext_runs; [done..|]. cbn [size_of]. by rewrite Hs1.
  - eapply zext_nests; [done|]. do 2 (apply nests_cons; [done|]). eapply zext_nests; [done|]. by apply (call_nests [_; _]).
  - cbn [fst snd]. destruct ok; [|by injection Hi]. injection Hi as <-. intros s' Hag' He'.
    assert (∀ v m, get c1 v m = get c v m) as Ea.
    { intros v m. replace c1 with (Interp.store_from 8 addr (get c (Var y1) 8) c).1 by (by rewrite E1). apply get_store. }
    eapply (sim_access _ ((l0 ++ [W.I64Const 8; W.I64Add]) ++ l2) (store_call 8)
      [(W.I64, get c1 (Var y2) 8); (W.I64, wrapping_add64 addr 8)] L); [apply kept_refl|done| | |].
    + apply accesses_store; [done..|apply kept_refl].
    + intros rest r Hr. rewrite <- (app_assoc _ l2). eapply runs_next_address; [done..|]. rewrite Ea. cbn [app].
      eapply zext_runs; [done..|]. cbn [size_of]. by rewrite Hs2.
    + intros r Hr _. rewrite <- !app_assoc in Hr. exact Hr.
Qed.
End access.

(** * The arms *)
Section arms.
Context `{Arch} `{Floats} {G : Type} `{Softmmu G} `{Escapes G} (base limit tlb : Z) `{!SoftmmuLaws G base limit tlb}.
Context (Hbase : 0 ≤ base) (Hlimit : base + REG_SPACE_BYTES ≤ limit) (Hspace : limit ≤ 2 ^ 32).
Context (o : Op.op) (out : VarNode) (a b : Value) (index : Z) (has_host : bool) (it : option nat) (fast : FastLocals).
Context (st L : list W.val) (s : W.store G) (c : Cpu G).
Context (Hout : var_ok out) (Ha : value_ok a) (Hb : value_ok b).
Context (Hfast : fast_ok fast) (HL : locals_ok base tlb fast L).
Context (Hag : agrees base limit tlb s c) (He : exc_code (c_exc c) = 0).
Context (Hindex : 0 ≤ index < 2 ^ 32) (Hit : iter_ok fast it L).
Abbreviation i := {| i_op := o; i_a := a; i_b := b; i_out := out |}.
Abbreviation sim code c' := (simulates base limit tlb code index it fast st L s c').

Lemma address v l : emit_zext_i64 v = Ok l → zxt 64 (read_dynamic (c_regs c) v) = get c v (size_of v).
Proof. intros Hl%zext_size. rewrite get_zext by done. apply wrap_id. by apply get_word. Qed.
Lemma sim_load id code c' :
  o = Op.Load id → (v_size out = 16 → addr_apart out a) → load_op out a index has_host it fast id = Ok code →
  Interp.interpret i c = Some c' → sim code c'.
Proof.
  intros Ho Hap Hc Hi. unfold load_op in Hc. apply unless_Ok in Hc as [Hg Hc]. bool_to_prop.
  unfold Interp.interpret in Hi. cbn [i_op i_a i_b i_out] in Hi. rewrite Ho in Hi.
  replace (id =? RAM_SPACE) with true in Hi by lia. destruct (v_size out =? 16) eqn:E16.
  - assert (∃ l, emit_zext_i64 a = Ok l) as [l Hl].
    { pose proof Hc as Hc2. apply lanes_cats in Hc2 as (? & ? & Hl & _). apply cat_Ok in Hl as (l & ? & Hl & _). eauto. }
    rewrite (address _ _ Hl) in Hi. eapply sim_load_wide; [..|exact Hc|exact Hi]; try done; try lia. apply Hap. lia.
  - assert (∃ l, emit_zext_i64 a = Ok l) as [l Hl].
    { pose proof Hc as (? & ? & ? & l & ? & ? & ? & ? & ? & ? & Hl & _)%fastpath_Ok. eauto. }
    rewrite (address _ _ Hl) in Hi. assert (word_size (v_size out) = true) as Hw by (by apply int_size_word; [|lia]).
    unfold Interp.load in Hi. rewrite Hw in Hi. injection Hi as <-. by eapply sim_load_word.
Qed.
Lemma sim_store id code c' :
  o = Op.Store id → store_op a b index has_host it fast id = Ok code → Interp.interpret i c = Some c' → sim code c'.
Proof.
  intros Ho Hc Hi. unfold store_op in Hc. apply unless_Ok in Hc as [Hg Hc]. bool_to_prop.
  unfold Interp.interpret in Hi. cbn [i_op i_a i_b i_out] in Hi. rewrite Ho in Hi.
  replace (id =? RAM_SPACE) with true in Hi by lia. destruct (size_of b =? 16) eqn:E16.
  - assert (∃ l, emit_zext_i64 a = Ok l) as [l Hl].
    { pose proof Hc as Hc2. apply lanes_cats in Hc2 as (? & ? & Hl & _). apply cat_Ok in Hl as (l & ? & Hl & _). eauto. }
    rewrite (address _ _ Hl) in Hi. eapply sim_store_wide; [..|exact Hc|exact Hi]; try done; lia.
  - assert (∃ l, emit_zext_i64 a = Ok l) as [l Hl].
    { pose proof Hc as (? & ? & ? & l & ? & ? & ? & ? & ? & ? & Hl & _)%fastpath_Ok. eauto. }
    rewrite (address _ _ Hl) in Hi. assert (word_size (size_of b) = true) as Hw by (by apply int_size_word; [|lia]).
    unfold Interp.store in Hi. rewrite Hw in Hi. injection Hi as <-. by eapply sim_store_word.
Qed.
End arms.

(** Every segment [translate_instruction] emits nests: the blocks it opens are
    closed within it. *)
Definition emits (m : emit) : Prop := ∀ code, m = Ok code → nests code.
Lemma emits_ops l : nests l → emits (ops l).
Proof. by intros Hl code ->%ops_Ok. Qed.
Lemma emits_plain l : forallb plain l = true → emits (ops l).
Proof. intros Hl. by apply emits_ops, nests_plain. Qed.
Lemma emits_cat m m' : emits m → emits m' → emits (cat m m').
Proof. intros Hm Hm' code (l & l' & Hl & Hl' & ->)%cat_Ok. apply nests_app; [by apply Hm|by apply Hm']. Qed.
Lemma emits_cats l : Forall emits l → emits (cats l).
Proof. induction 1; [by apply emits_plain|by apply emits_cat]. Qed.
Lemma emits_unless b m : emits m → emits (unless b m).
Proof. destruct b; [by intros _ code|done]. Qed.
Lemma emits_bind {A} (m : res () A) f : (∀ x, m = Ok x → emits (f x)) → emits (rbind m f).
Proof. intros Hf code (x & Hx & Hc)%rbind_Ok. by eapply Hf. Qed.
Lemma emits_err : emits (Err ()).
Proof. by intros code. Qed.
Lemma emits_if (b : bool) m m' : emits m → emits m' → emits (if b then m else m').
Proof. by destruct b. Qed.
Lemma emits_load v n : emits (emit_load v n).
Proof. intros code Hl. rewrite <- (app_nil_r code). eapply emit_load_nests; [done|apply nests_nil]. Qed.
Lemma emits_store v : emits (emit_store v).
Proof. intros code Hl. by eapply emit_store_nests. Qed.
Lemma emits_check index it : emits (ops (emit_fault_check index it)).
Proof. apply emits_ops. rewrite <- (app_nil_r (emit_fault_check _ _)). apply check_nests, nests_nil. Qed.
Lemma emits_raise_if index it i : plain i = true → emits (ops (i :: raise_if index it)).
Proof.
  intros Hi. apply emits_ops, nests_cons; [done|]. rewrite <- (app_nil_r (raise_if _ _)). apply raise_if_nests, nests_nil.
Qed.
Create HintDb emits discriminated.
#[export] Hint Resolve emits_load emits_store emits_err emits_check : emits.

Ltac plain_list :=
  repeat match goal with |- context [if ?b then _ else _] => destruct b end; vm_compute; reflexivity.
Ltac emits_step :=
  match goal with
  | |- emits (cat _ _) => apply emits_cat
  | |- emits (unless _ _) => apply emits_unless
  | |- emits (rbind _ _) => apply emits_bind; intros ? ?
  | |- emits (Err _) => apply emits_err
  | |- emits (emit_load _ _) => apply emits_load
  | |- emits (emit_store _) => apply emits_store
  | |- emits (ops (emit_fault_check _ _)) => apply emits_check
  | |- emits (ops (_ :: raise_if _ _)) => apply emits_raise_if
  | |- emits (if ?b then _ else _) => apply emits_if
  | |- emits (match ?x with _ => _ end) => destruct x
  end.
Ltac emits_tac := repeat emits_step; try (apply emits_plain; plain_list).

Lemma emits_zext_i64 v : emits (emit_zext_i64 v).
Proof. unfold emit_zext_i64. emits_tac. Qed.
Lemma emits_zext_i32 v : emits (emit_zext_i32 v).
Proof. unfold emit_zext_i32. emits_tac. Qed.
Lemma emits_signed v n : emits (emit_signed v n).
Proof. unfold emit_signed, sign_fill. emits_tac. Qed.
Lemma emits_sext_i64 v n : emits (emit_sext_i64 v n).
Proof. unfold emit_sext_i64. apply emits_cat; [apply emits_signed|]. emits_tac. Qed.
Lemma emits_lane_load v k : emits (emit_lane_load v k).
Proof. unfold emit_lane_load. emits_tac. Qed.
Lemma emits_lane_store v k : emits (emit_lane_store v k).
Proof. unfold emit_lane_store. emits_tac. Qed.
Lemma emits_snapshot v k j : emits (emit_snapshot v k j).
Proof. unfold emit_snapshot. apply emits_cat; [apply emits_lane_load|by apply emits_plain]. Qed.
Lemma emits_shift_count b : emits (emit_shift_count_u32 b).
Proof. unfold emit_shift_count_u32. emits_tac. Qed.
Lemma emits_float_operand v n : emits (emit_float_operand v n).
Proof. unfold emit_float_operand. emits_tac. Qed.
Lemma emits_float_store v : emits (emit_float_store v).
Proof. unfold emit_float_store. emits_tac. Qed.
#[export] Hint Resolve emits_zext_i64 emits_zext_i32 emits_signed emits_sext_i64 emits_lane_load emits_lane_store
  emits_snapshot emits_shift_count emits_float_operand emits_float_store : emits.
Ltac arm_nests := repeat first [solve [auto with emits]|emits_step]; try (apply emits_plain; plain_list).

Section arms.
Context (o : Op.op) (out : VarNode) (a b : Value) (index : Z) (has_host : bool) (it : option nat) (fast : FastLocals).
Lemma emits_wide_binop op : forallb plain op = true → emits (emit_wide_binop out a b op).
Proof.
  intros Hop. unfold emit_wide_binop. apply emits_unless, emits_cats. repeat constructor; arm_nests; by apply emits_plain.
Qed.
Lemma emits_wide_unary op : forallb plain op = true → emits (emit_wide_unary out a op).
Proof.
  intros Hop. unfold emit_wide_unary. apply emits_unless, emits_cats. repeat constructor; arm_nests; by apply emits_plain.
Qed.
Lemma emits_wide_mul : emits (emit_wide_mul out a b fast).
Proof. unfold emit_wide_mul. cbn zeta. arm_nests. Qed.
Lemma emits_wide_shift mode : emits (emit_wide_shift out a b mode fast).
Proof. unfold emit_wide_shift. cbn zeta. arm_nests. Qed.
Lemma emits_same_width op32 op64 : plain op32 = true → plain op64 = true → emits (same_width_op out a b op32 op64).
Proof. intros H32 H64. unfold same_width_op. arm_nests. apply emits_plain. case_match; cbn; by rewrite ?H32, ?H64. Qed.
Lemma emits_logic op32 op64 : plain op32 = true → plain op64 = true → emits (logic_op out a b op32 op64).
Proof.
  intros H32 H64. unfold logic_op. apply emits_if; [|by apply emits_same_width]. apply emits_wide_binop. cbn. by rewrite H64.
Qed.
Lemma emits_compare op32 op64 : plain op32 = true → plain op64 = true → emits (compare_op out a b op32 op64).
Proof. intros H32 H64. unfold compare_op. arm_nests. apply emits_plain. case_match; cbn; by rewrite ?H32, ?H64. Qed.
Lemma emits_signed_compare op32 op64 : plain op32 = true → plain op64 = true → emits (signed_compare_op out a b op32 op64).
Proof.
  intros H32 H64. unfold signed_compare_op, sign_fill. arm_nests. apply emits_plain. case_match; cbn; by rewrite ?H32, ?H64.
Qed.
Lemma emits_bool op : plain op = true → emits (bool_binop out a b op).
Proof. intros Hop. unfold bool_binop. arm_nests. apply emits_plain. cbn. by rewrite Hop. Qed.
Lemma emits_float_op op32 op64 : plain op32 = true → plain op64 = true → emits (float_op_arm out a b op32 op64).
Proof. intros H32 H64. unfold float_op_arm. cbn zeta. arm_nests. apply emits_plain. case_match; cbn; by rewrite ?H32, ?H64. Qed.
Lemma emits_float_unary op32 op64 : plain op32 = true → plain op64 = true → emits (float_unary_arm out a op32 op64).
Proof. intros H32 H64. unfold float_unary_arm. cbn zeta. arm_nests. apply emits_plain. case_match; cbn; by rewrite ?H32, ?H64. Qed.
Lemma emits_float_compare op32 op64 : plain op32 = true → plain op64 = true → emits (float_compare_arm out a b op32 op64).
Proof. intros H32 H64. unfold float_compare_arm. cbn zeta. arm_nests. apply emits_plain. case_match; cbn; by rewrite ?H32, ?H64. Qed.
#[local] Hint Resolve emits_wide_mul emits_wide_shift : emits.

(** Both paths of a memory access. *)
Lemma store_instr_plain n m i : store_instr n m = Some i → plain i = true.
Proof. unfold store_instr. repeat case_match; by intros [= <-]. Qed.
Lemma probe_nests n off mask lp rest : plain lp = true → nests rest → nests (probe n off mask lp fast ++ rest).
Proof.
  intros Hlp Hr. unfold probe. rewrite <- !app_assoc. cbn [app]. repeat (apply nests_cons; [done|]).
  destruct (n =? 8); cbn [app]; repeat (apply nests_cons; [done|]); done.
Qed.
Lemma emits_fastpath is_store n x v slow : emits slow → emits (emit_mem_fastpath is_store a n x v fast slow).
Proof.
  intros Hs code (lp & ld & sd & lz & tail & ls & _ & Hlp & Hld & Hsd & Hlz & Hls & Ht & ->)%fastpath_Ok.
  assert (nests (tail ++ [W.Br 1])) as Htail.
  { apply nests_app; [|by apply nests_plain]. destruct is_store.
    - destruct Ht as (y & l & _ & Hl & ->). apply nests_cons; [done|]. eapply emit_load_nests; [done|].
      apply nests_cons; [by eapply store_instr_plain|apply nests_nil].
    - destruct Ht as (y & i & _ & Hi & ->). do 2 (apply nests_cons; [done|]). apply nests_cons; [by eapply load_instr_plain|].
      apply nests_cons; [by eapply store_instr_plain|apply nests_nil]. }
  rewrite app_assoc. apply nests_block; [|apply nests_nil]. cbn [app]. rewrite <- app_assoc. apply nests_block; [|by apply Hs].
  eapply zext_nests; [done|]. apply probe_nests; [by eapply load_instr_plain|done].
Qed.
Lemma emits_load_op id : emits (load_op out a index has_host it fast id).
Proof.
  unfold load_op. apply emits_unless, emits_if; [|apply emits_fastpath; arm_nests].
  apply emits_cats. repeat constructor; arm_nests.
Qed.
Lemma emits_store_op id : emits (store_op a b index has_host it fast id).
Proof.
  unfold store_op. apply emits_unless, emits_if; [|apply emits_fastpath; arm_nests].
  apply emits_cats. repeat constructor; arm_nests.
Qed.
Lemma emits_divide : emits (divide_op o out a b index has_host it).
Proof. unfold divide_op, int_eqz. cbn zeta. arm_nests. case_match; done. Qed.
Lemma emits_signed_divide : emits (signed_divide_op o out a b index has_host it).
Proof. unfold signed_divide_op, int_eqz, int_const, int_eq. cbn zeta. arm_nests; try done; case_match; done. Qed.
Lemma emits_report l : forallb plain l = true → emits (ops (l ++ report it ++ [W.Return])).
Proof.
  intros Hl. apply emits_ops, nests_app; [by apply nests_plain|]. apply report_nests, nests_nil.
Qed.
Lemma emits_exception : emits (exception_op a b index has_host it).
Proof. unfold exception_op. arm_nests. by apply emits_report. Qed.
Lemma emits_invalid : emits (invalid_op index has_host it).
Proof. unfold invalid_op, emit_raise_const. arm_nests. by apply emits_report. Qed.
End arms.
#[export] Hint Resolve emits_wide_binop emits_wide_unary emits_wide_mul emits_wide_shift emits_same_width emits_logic
  emits_compare emits_signed_compare emits_bool emits_float_op emits_float_unary emits_float_compare emits_load_op
  emits_store_op emits_divide emits_signed_divide emits_exception emits_invalid : emits.

Lemma translate_nests i index has_host it fast : emits (translate_instruction i index has_host it fast).
Proof.
  unfold translate_instruction. destruct (i_op i); try solve [auto with emits]; try (by apply emits_plain).
  all: unfold copy_op, select_op, subpiece_op, zero_extend_op, sign_extend_op, int_to_float_op, uint_to_float_op,
    float_to_float_op, float_to_int_op, mul_op, Jit.shift_op, signed_right_op, rotate_op, not_op, negate_op, bool_not_op,
    carry_op, signed_carry_op, signed_borrow_op, sign_test, count_ones_op, leading_zeroes_op, is_nan_op, sign_fill;
    cbn zeta; arm_nests.
  all: apply emits_plain; match goal with E : bail _ = Ok _ |- _ => apply bail_Ok in E end; repeat case_match; simplify_eq; done.
Qed.
Lemma translate_all_nests l index has_host it fast : emits (translate_all l index has_host it fast).
Proof. revert index. induction l as [|i l IH]; intros index; [by apply emits_plain|]. apply emits_cat; [apply translate_nests|apply IH]. Qed.
