(* ===== verification/JitBlock.v ===== *)
(** Every operation, then blocks and self-loops: what is emitted against what the
    interpreter does. *)

From S2P Require Import Prelude Cpu Pcode Wasm Jit JitSim JitArms JitAccess.

(** One instruction: what [translate_instruction] emits against what the
    interpreter does, over every operation. *)
(** * Operations at the width of the wasm type *)
Lemma lanewise_bits f g :
  g false false = false → (∀ x y m, Z.testbit (f x y) m = g (Z.testbit x m) (Z.testbit y m)) → lanewise f.
Proof.
  intros Hg Hf x y. split.
  - apply Z.bits_inj'. intros m Hm. rewrite Hf. destruct (decide (m < 64)).
    + by rewrite !Z.mod_pow2_bits_low, Hf by lia.
    + by rewrite !Z.mod_pow2_bits_high by lia.
  - rewrite <- !Z.shiftr_div_pow2 by lia. apply Z.bits_inj'. intros m Hm. by rewrite Hf, !Z.shiftr_spec, Hf by lia.
Qed.
Lemma matches_mod o (f : Z → Z → Z) :
  (∀ w x y, int_op o w x y = Some (wrap w (f x y))) →
  matches (λ x y, Some (wrap 32 (f x y))) (λ x y, Some (wrap 64 (f x y))) (int_op o).
Proof.
  intros Ho n x y z Hn Hx Hy Hz. rewrite Ho in Hz. injection Hz as <-. exists (wrap (width n) (f x y)).
  split; [unfold width; by destruct (n =? 8)|]. rewrite width_mod by done. unfold wrap. by rewrite Z.mod_mod by lia.
Qed.
Lemma matches_bits o (f : Z → Z → Z) :
  (∀ w x y, int_op o w x y = Some (f x y)) → matches (λ x y, Some (f x y)) (λ x y, Some (f x y)) (int_op o).
Proof. intros Ho n x y z Hn Hx Hy Hz. rewrite Ho in Hz. injection Hz as <-. exists (f x y). by destruct (n =? 8). Qed.
Lemma decides_unsigned o (f : Z → Z → bool) :
  (∀ w x y, cmp_op o w x y = Some (f x y)) →
  decides (λ x y, Some (W.truth (f x y))) (λ x y, Some (W.truth (f x y))) (cmp_op o) (λ _ x, x).
Proof. intros Ho n x y z Hn Hx Hy Hz. rewrite Ho in Hz. injection Hz as <-. by destruct (n =? 8). Qed.
Lemma decides_signed o (f : Z → Z → bool) :
  (∀ w x y, cmp_op o w x y = Some (f (signed w x) (signed w y))) →
  decides (λ x y, Some (W.truth (f (signed 32 x) (signed 32 y)))) (λ x y, Some (W.truth (f (signed 64 x) (signed 64 y))))
    (cmp_op o) (λ n x, wrap (width n) (signed (8 * n) x)).
Proof.
  intros Ho n x y z Hn Hx Hy Hz. rewrite Ho in Hz. injection Hz as <-. pose proof (signed_width n x Hn) as Ex.
  pose proof (signed_width n y Hn) as Ey. unfold width in *. by destruct (n =? 8); rewrite Ex, Ey.
Qed.
Lemma bool_fits (x y : Z) : fits 8 x → fits 8 y → fits 32 (Z.land x y) ∧ fits 32 (Z.lor x y) ∧ fits 32 (Z.lxor x y).
Proof.
  intros Hx Hy. assert (∀ z, (∀ m, 8 ≤ m → Z.testbit z m = false) → 0 ≤ z → fits 32 z) as Hb.
  { intros z Hz Hz0. split; [done|]. apply Z.lt_le_trans with (2 ^ 8); [|lia].
    destruct (decide (z = 0)) as [->|]; [lia|]. apply Z.log2_lt_pow2; [lia|].
    destruct (decide (8 ≤ Z.log2 z)) as [Hl|]; [|lia]. apply Hz in Hl. rewrite Z.bit_log2 in Hl by lia. done. }
  assert (∀ z m, fits 8 z → 8 ≤ m → Z.testbit z m = false) as Hh.
  { intros z m Hz Hm. rewrite <- (Z.mod_small z (2 ^ 8)) by done. by apply Z.mod_pow2_bits_high. }
  destruct Hx as [Hx0 Hx], Hy as [Hy0 Hy]. split_and!; apply Hb.
  - intros m Hm. by rewrite Z.land_spec, Hh.
  - apply Z.land_nonneg. by left.
  - intros m Hm. by rewrite Z.lor_spec, !Hh.
  - by apply Z.lor_nonneg.
  - intros m Hm. by rewrite Z.lxor_spec, !Hh.
  - by apply Z.lxor_nonneg.
Qed.

(** * Instructions the lifter produces *)
Definition is_const (v : Value) : bool := match v with Const _ _ => true | Var _ => false end.
Section inst.
Context `{Arch}.
Definition inst_ok (i : Inst) : Prop :=
  let '(out, a, b) := (i_out i, i_a i, i_b i) in
  var_ok out ∧ value_ok a ∧ value_ok b ∧
  match i_op i with
  | Op.Copy | Op.IntNot => size_of b = 0 ∧ (v_size out = 16 → lane_apart out a)
  | Op.IntNegate | Op.BoolNot | Op.IntToFloat | Op.UintToFloat | Op.FloatToFloat | Op.FloatToInt => size_of b = 0
  | Op.ZeroExtend => size_of b = 0 ∧ size_of a < v_size out
  | Op.SignExtend => size_of b = 0 ∧ size_of a < v_size out ∧ (v_size out = 16 → sext_apart out a)
  | Op.IntXor | Op.IntOr | Op.IntAnd => v_size out = 16 → lane_apart out a ∧ lane_apart out b
  | Op.Select cond => var_ok (var_new cond 1)
  | Op.Load _ => v_size out = 16 → addr_apart out a
  | Op.Exception => raises a
  | Op.InstructionMarker => v_size out = 0 ∧ size_of a = 8 ∧ size_of b = 8 ∧ is_const a = true ∧ is_const b = true
  | _ => True
  end.
End inst.

Section arms.
Context `{Arch} `{Floats} `{!FloatLaws} {G : Type} `{Softmmu G} `{Escapes G} (base limit tlb : Z) `{!SoftmmuLaws G base limit tlb}.
Context (Hbase : 0 ≤ base) (Hlimit : base + REG_SPACE_BYTES ≤ limit) (Hspace : limit ≤ 2 ^ 32).
Context (o : Op.op) (out : VarNode) (a b : Value) (index : Z) (has_host : bool) (it : option nat) (fast : FastLocals).
Context (st L : list W.val) (s : W.store G) (c : Cpu G).
Context (Hout : var_ok out) (Ha : value_ok a) (Hb : value_ok b).
Context (Hfast : fast_ok fast) (HL : locals_ok base tlb fast L).
Context (Hag : agrees base limit tlb s c) (He : exc_code (c_exc c) = 0).
Context (Hindex : 0 ≤ index < 2 ^ 32) (Hit : iter_ok fast it L).
Abbreviation i := {| i_op := o; i_a := a; i_b := b; i_out := out |}.
Abbreviation sim code c' := (simulates base limit tlb code index it fast st L s c').

Tactic Notation "arm" uconstr(lem) constr(Hc) constr(Hi) := eapply lem; [..|exact Hc|exact Hi]; try eassumption; try done.
Lemma sim_logic op32 op64 f g code c' :
  W.binop op32 = Some (W.I32, W.I32, λ x y, Some (f x y)) → W.binop op64 = Some (W.I64, W.I64, λ x y, Some (f x y)) →
  (∀ w x y, int_op o w x y = Some (f x y)) →
  g false false = false → (∀ x y m, Z.testbit (f x y) m = g (Z.testbit x m) (Z.testbit y m)) →
  (v_size out = 16 → lane_apart out a ∧ lane_apart out b) →
  logic_op out a b op32 op64 = Ok code → Interp.binary i c = Some c' → sim code c'.
Proof.
  intros H32 H64 Ho Hg Hf Hap Hc Hi. unfold logic_op in Hc. destruct (v_size out =? 16) eqn:E16.
  - destruct Hap as [Haa Hab]; [lia|].
    arm (sim_wide_binop base limit tlb) Hc Hi; [lia|by eapply lanewise_bits].
  - arm (sim_binary base limit tlb) Hc Hi. by apply matches_bits.
Qed.
Lemma sim_extend code c' :
  o = Op.ZeroExtend ∨ o = Op.SignExtend → size_of b = 0 → size_of a < v_size out →
  (o = Op.SignExtend → v_size out = 16 → sext_apart out a) →
  (if bool_decide (o = Op.ZeroExtend) then zero_extend_op out a else sign_extend_op out a) = Ok code →
  Interp.interpret i c = Some c' → sim code c'.
Proof.
  intros Ho Hsb Hlt Hap Hc Hi. assert (v_size out = 16 → word_size (size_of a) = true) as Hw.
  { intros H16. destruct (word_size (size_of a)) eqn:E; [done|]. exfalso.
    destruct (bool_decide _); unfold zero_extend_op, sign_extend_op in Hc; rewrite E, H16 in Hc; cbn in Hc; peel Hc;
      destruct (wasm_ty_cases _ _ Hx) as [Hs _]; by rewrite word_size_cases in E. }
  destruct (decide (v_size out = 16)) as [H16|H16], Ho as [-> | ->]; cbn in Hc.
  - arm (sim_wide_zero_extend base limit tlb) Hc Hi; auto.
  - arm (sim_wide_sign_extend base limit tlb) Hc Hi; auto.
  - arm (sim_zero_extend base limit tlb) Hc Hi; auto.
  - arm (sim_sign_extend base limit tlb) Hc Hi; auto.
Qed.
Lemma sim_mul code c' : o = Op.IntMul → mul_op out a b fast = Ok code → Interp.binary i c = Some c' → sim code c'.
Proof.
  intros Ho Hc Hi. unfold mul_op in Hc. destruct (v_size out =? 16) eqn:E16.
  - arm (sim_wide_mul base limit tlb) Hc Hi. lia.
  - arm (sim_binary base limit tlb) Hc Hi. rewrite Ho. by apply (matches_mod Op.IntMul Z.mul).
Qed.
Lemma sim_any_shift code c' :
  o = Op.IntLeft ∨ o = Op.IntRight → Jit.shift_op o out a b fast = Ok code → Interp.shift_op i c = Some c' → sim code c'.
Proof.
  intros Ho Hc Hi. destruct (decide (v_size out = 16)) as [H16|H16]; [|by arm (sim_shift base limit tlb) Hc Hi].
  unfold Jit.shift_op in Hc. rewrite H16 in Hc. cbn [Z.eqb Pos.eqb] in Hc. by arm (sim_wide_shift base limit tlb) Hc Hi.
Qed.
Lemma sim_any_signed_right code c' :
  signed_right_op out a b fast = Ok code → Interp.signed_right i c = Some c' → sim code c'.
Proof.
  intros Hc Hi. destruct (decide (v_size out = 16)) as [H16|H16]; [|by arm (sim_signed_right base limit tlb) Hc Hi].
  unfold signed_right_op in Hc. rewrite H16 in Hc. cbn [Z.eqb Pos.eqb] in Hc. by arm (sim_wide_signed_right base limit tlb) Hc Hi.
Qed.
Lemma sim_any_copy code c' :
  o = Op.Copy → size_of b = 0 → (v_size out = 16 → lane_apart out a) → copy_op out a = Ok code →
  Interp.interpret i c = Some c' → sim code c'.
Proof.
  intros Ho Hsb Hap Hc Hi. destruct (decide (v_size out = 16)) as [H16|H16]; [|by arm (sim_copy base limit tlb) Hc Hi].
  unfold copy_op in Hc. rewrite H16 in Hc. cbn [Z.eqb Pos.eqb] in Hc. arm (sim_wide_copy base limit tlb) Hc Hi. auto.
Qed.
Lemma sim_any_not code c' :
  size_of b = 0 → (v_size out = 16 → lane_apart out a) → not_op out a = Ok code →
  Interp.unary (λ w x, Z.lxor x (2 ^ w - 1)) i c = Some c' → sim code c'.
Proof.
  intros Hsb Hap Hc Hi. destruct (decide (v_size out = 16)) as [H16|H16]; [|by arm (sim_not base limit tlb) Hc Hi].
  unfold not_op in Hc. rewrite H16 in Hc. cbn [Z.eqb Pos.eqb] in Hc. arm (sim_wide_not base limit tlb) Hc Hi. auto.
Qed.
End arms.

(** * Every operation *)
Section inst_sim.
Context `{Arch} `{Floats} `{!FloatLaws} {G : Type} `{Softmmu G} `{Escapes G} (base limit tlb : Z) `{!SoftmmuLaws G base limit tlb}.
Context (Hbase : 0 ≤ base) (Hlimit : base + REG_SPACE_BYTES ≤ limit) (Hspace : limit ≤ 2 ^ 32).
Context (i : Inst) (index : Z) (has_host : bool) (it : option nat) (fast : FastLocals).
Context (st L : list W.val) (s : W.store G) (c : Cpu G) (Hok : inst_ok i).
Context (Hfast : fast_ok fast) (HL : locals_ok base tlb fast L).
Context (Hag : agrees base limit tlb s c) (He : exc_code (c_exc c) = 0).
Context (Hindex : 0 ≤ index < 2 ^ 32) (Hit : iter_ok fast it L).
Abbreviation sim code c' := (simulates base limit tlb code index it fast st L s c').
Tactic Notation "arm" uconstr(lem) constr(Hc) constr(Hi) := eapply lem; [..|exact Hc|exact Hi]; try eassumption; try done.

Tactic Notation "float_arm" uconstr(lem) uconstr(g) constr(Hc) constr(Hi) :=
  eapply lem with (f := g); [..|exact Hc|exact Hi]; try eassumption; try done.

Definition is_int_op (o : Op.op) : bool :=
  match o with
  | Op.IntAdd | Op.IntSub | Op.IntXor | Op.IntOr | Op.IntAnd | Op.IntMul | Op.IntLeft | Op.IntRight | Op.IntSignedRight
  | Op.IntRotateLeft | Op.IntRotateRight | Op.IntNot | Op.IntNegate | Op.IntCountOnes | Op.IntCountLeadingZeroes => true
  | _ => false
  end.
Lemma sim_int_ops code c' :
  is_int_op (i_op i) = true → translate_instruction i index has_host it fast = Ok code → Interp.interpret i c = Some c' →
  sim code c'.
Proof.
  destruct i as [o a b out]. destruct Hok as (Hout & Ha & Hb & Hop). cbn [i_op i_a i_b i_out] in *. intros Ho Hc Hi.
  destruct o; try discriminate Ho.
  - arm (sim_binary base limit tlb) Hc Hi. by apply (matches_mod Op.IntAdd Z.add).
  - arm (sim_binary base limit tlb) Hc Hi. by apply (matches_mod Op.IntSub Z.sub).
  - arm (sim_logic base limit tlb) Hc Hi; [|apply Z.lxor_spec]. done.
  - arm (sim_logic base limit tlb) Hc Hi; [|apply Z.lor_spec]. done.
  - arm (sim_logic base limit tlb) Hc Hi; [|apply Z.land_spec]. done.
  - arm (sim_mul base limit tlb) Hc Hi.
  - arm (sim_any_shift base limit tlb) Hc Hi. by left.
  - arm (sim_rotate base limit tlb) Hc Hi. by left.
  - arm (sim_any_shift base limit tlb) Hc Hi. by right.
  - arm (sim_any_signed_right base limit tlb) Hc Hi.
  - arm (sim_rotate base limit tlb) Hc Hi. by right.
  - destruct Hop. arm (sim_any_not base limit tlb) Hc Hi.
  - arm (sim_negate base limit tlb) Hc Hi.
  - arm (sim_count_ones base limit tlb) Hc Hi.
  - arm (sim_leading_zeroes base limit tlb) Hc Hi.
Qed.
Definition is_test (o : Op.op) : bool :=
  match o with
  | Op.IntEqual | Op.IntNotEqual | Op.IntLess | Op.IntSignedLess | Op.IntLessEqual | Op.IntSignedLessEqual
  | Op.IntCarry | Op.IntSignedCarry | Op.IntSignedBorrow | Op.BoolAnd | Op.BoolOr | Op.BoolXor | Op.BoolNot => true
  | _ => false
  end.
Lemma sim_tests code c' :
  is_test (i_op i) = true → translate_instruction i index has_host it fast = Ok code → Interp.interpret i c = Some c' →
  sim code c'.
Proof.
  destruct i as [o a b out]. destruct Hok as (Hout & Ha & Hb & Hop). cbn [i_op i_a i_b i_out] in *. intros Ho Hc Hi.
  destruct o; try discriminate Ho.
  - arm (sim_compare base limit tlb) Hc Hi. by apply (decides_unsigned Op.IntEqual Z.eqb).
  - arm (sim_compare base limit tlb) Hc Hi. by apply (decides_unsigned Op.IntNotEqual (λ x y, negb (x =? y))).
  - arm (sim_compare base limit tlb) Hc Hi. by apply (decides_unsigned Op.IntLess Z.ltb).
  - arm (sim_signed_compare base limit tlb) Hc Hi. by apply (decides_signed Op.IntSignedLess Z.ltb).
  - arm (sim_compare base limit tlb) Hc Hi. by apply (decides_unsigned Op.IntLessEqual Z.leb).
  - arm (sim_signed_compare base limit tlb) Hc Hi. by apply (decides_signed Op.IntSignedLessEqual Z.leb).
  - arm (sim_carry base limit tlb) Hc Hi.
  - arm (sim_signed_carry base limit tlb) Hc Hi.
  - arm (sim_signed_borrow base limit tlb) Hc Hi.
  - arm (sim_bool base limit tlb) Hc Hi. intros x y z Hx Hy [= <-]. split; [by apply bool_fits|done].
  - arm (sim_bool base limit tlb) Hc Hi. intros x y z Hx Hy [= <-]. split; [by apply bool_fits|done].
  - arm (sim_bool base limit tlb) Hc Hi. intros x y z Hx Hy [= <-]. split; [by apply bool_fits|done].
  - arm (sim_bool_not base limit tlb) Hc Hi.
Qed.
Definition is_float_op (o : Op.op) : bool :=
  match o with
  | Op.FloatAdd | Op.FloatSub | Op.FloatMul | Op.FloatDiv | Op.FloatNegate | Op.FloatAbs | Op.FloatSqrt | Op.FloatCeil
  | Op.FloatFloor | Op.FloatEqual | Op.FloatNotEqual | Op.FloatLess | Op.FloatLessEqual | Op.FloatIsNan
  | Op.IntToFloat | Op.UintToFloat | Op.FloatToFloat | Op.FloatToInt => true
  | _ => false
  end.
Lemma sim_floats code c' :
  is_float_op (i_op i) = true → translate_instruction i index has_host it fast = Ok code → Interp.interpret i c = Some c' →
  sim code c'.
Proof.
  destruct i as [o a b out]. destruct Hok as (Hout & Ha & Hb & Hop). cbn [i_op i_a i_b i_out] in *. intros Ho Hc Hi.
  destruct o; try discriminate Ho.
  - arm (sim_int_to_float base limit tlb) Hc Hi.
  - arm (sim_uint_to_float base limit tlb) Hc Hi.
  - arm (sim_float_to_float base limit tlb) Hc Hi.
  - arm (sim_float_to_int base limit tlb) Hc Hi.
  - by float_arm (sim_float_op base limit tlb) fl_add Hc Hi.
  - by float_arm (sim_float_op base limit tlb) fl_sub Hc Hi.
  - by float_arm (sim_float_op base limit tlb) fl_mul Hc Hi.
  - by float_arm (sim_float_op base limit tlb) fl_div Hc Hi.
  - by float_arm (sim_float_unary base limit tlb) fl_neg Hc Hi.
  - by float_arm (sim_float_unary base limit tlb) fl_abs Hc Hi.
  - by float_arm (sim_float_unary base limit tlb) fl_sqrt Hc Hi.
  - by float_arm (sim_float_unary base limit tlb) fl_ceil Hc Hi.
  - by float_arm (sim_float_unary base limit tlb) fl_floor Hc Hi.
  - by arm (sim_is_nan base limit tlb) Hc Hi.
  - by float_arm (sim_float_compare base limit tlb) fl_eq Hc Hi.
  - by float_arm (sim_float_compare base limit tlb) (λ n x y, negb (fl_eq n x y)) Hc Hi.
  - by float_arm (sim_float_compare base limit tlb) fl_lt Hc Hi.
  - by float_arm (sim_float_compare base limit tlb) fl_le Hc Hi.
Qed.
Definition is_move (o : Op.op) : bool :=
  match o with
  | Op.Copy | Op.Select _ | Op.ZeroExtend | Op.SignExtend | Op.Load _ | Op.Store _ | Op.IntDiv | Op.IntSignedDiv | Op.IntRem
  | Op.IntSignedRem | Op.Exception | Op.Invalid => true
  | _ => false
  end.
Lemma sim_moves code c' :
  is_move (i_op i) = true → translate_instruction i index has_host it fast = Ok code → Interp.interpret i c = Some c' →
  sim code c'.
Proof.
  destruct i as [o a b out]. destruct Hok as (Hout & Ha & Hb & Hop). cbn [i_op i_a i_b i_out] in *. intros Ho Hc Hi.
  destruct o; try discriminate Ho.
  - destruct Hop. by arm (sim_any_copy base limit tlb) Hc Hi.
  - by arm (sim_select base limit tlb) Hc Hi.
  - destruct Hop. eapply (sim_extend base limit tlb) with (o := Op.ZeroExtend); [..|exact Hc|exact Hi]; try done. by left.
  - destruct Hop as (? & ? & ?).
    eapply (sim_extend base limit tlb) with (o := Op.SignExtend); [..|exact Hc|exact Hi]; try done. by right.
  - arm (sim_divide base limit tlb) Hc Hi. by left.
  - arm (sim_signed_divide base limit tlb) Hc Hi. by left.
  - arm (sim_divide base limit tlb) Hc Hi. by right.
  - arm (sim_signed_divide base limit tlb) Hc Hi. by right.
  - by arm (sim_load base limit tlb) Hc Hi.
  - by arm (sim_store base limit tlb) Hc Hi.
  - by arm (sim_exception base limit tlb) Hc Hi.
  - by arm (sim_invalid base limit tlb) Hc Hi.
Qed.
Lemma instruction_simulated code c' :
  i_op i ≠ Op.InstructionMarker → translate_instruction i index has_host it fast = Ok code →
  Interp.interpret i c = Some c' → sim code c'.
Proof.
  intros Hm Hc Hi. destruct (is_int_op (i_op i)) eqn:E1; [by apply sim_int_ops|].
  destruct (is_test (i_op i)) eqn:E2; [by apply sim_tests|]. destruct (is_float_op (i_op i)) eqn:E3; [by apply sim_floats|].
  destruct (is_move (i_op i)) eqn:E4; [by apply sim_moves|]. exfalso. unfold translate_instruction in Hc.
  unfold Interp.interpret in Hi. destruct (i_op i); discriminate || done.
Qed.
End inst_sim.

(** Compiled blocks and regions against the interpreter: what running the module
    of a translated block leaves is what interpreting the block leaves, for
    every outcome, and a region is as many turns of its block as it reports. *)
(** * What an instruction leaves alone *)
Definition frame {G} (c : Cpu G) : option Exception * Fuel * Z * Z * Z :=
  (c_pending c, c_fuel c, c_icount c, c_block c, c_offset c).
Section frame.
Context `{Arch} `{Floats} {G : Type} `{Softmmu G} `{Escapes G}.
Implicit Types c : Cpu G.

Lemma copy_bytes_frame v out k n last c c' x :
  Interp.copy_bytes v out k n last c = Some (c', x) → frame c' = frame c.
Proof.
  revert k last c. induction n as [|n IH]; intros k last c Hc; [by injection Hc as <- <-|]. cbn in Hc.
  apply bind_Some in Hc as (f & _ & Hc). apply bind_Some in Hc as (t & _ & Hc). by apply IH in Hc.
Qed.
Lemma fill_bytes_frame out k x n c c' : Interp.fill_bytes out k x n c = Some c' → frame c' = frame c.
Proof.
  revert k c. induction n as [|n IH]; intros k c Hc; [by injection Hc as <-|]. cbn in Hc.
  apply bind_Some in Hc as (t & _ & Hc). by apply IH in Hc.
Qed.
Lemma copy_cold_frame v out c c' : Interp.copy_cold v out c = Some c' → frame c' = frame c.
Proof. unfold Interp.copy_cold. intros ([c1 x] & Hc & ->)%fmap_Some. by eapply copy_bytes_frame. Qed.
Lemma copy_frame v out c c' : Interp.copy v out c = Some c' → frame c' = frame c.
Proof.
  unfold Interp.copy. destruct (int_size _); [by intros [= <-]|]. apply copy_cold_frame.
Qed.
Lemma load_to_frame x n addr c : frame (Interp.load_to x n addr c).1 = frame c.
Proof. unfold Interp.load_to. by destruct (mmu_read _ _ _) as [g []]. Qed.
Lemma store_from_frame n addr x c : frame (Interp.store_from n addr x c).1 = frame c.
Proof. unfold Interp.store_from. by destruct (mmu_write _ _ _) as [g []]. Qed.
Lemma load_each_frame x k addr n c c' : Interp.load_each x k addr n c = Some c' → frame c' = frame c.
Proof.
  revert k c. induction n as [|n IH]; intros k c Hc; [by injection Hc as <-|]. cbn in Hc.
  apply bind_Some in Hc as (t & _ & Hc). pose proof (load_to_frame t 1 (wrapping_add64 addr k) c) as Hf.
  destruct (Interp.load_to _ _ _ _) as [c1 []]; cbn in Hf; [apply IH in Hc; congruence|by injection Hc as <-].
Qed.
Lemma store_each_frame v k addr n c c' : Interp.store_each v k addr n c = Some c' → frame c' = frame c.
Proof.
  revert k c. induction n as [|n IH]; intros k c Hc; [by injection Hc as <-|]. cbn in Hc.
  apply bind_Some in Hc as (f & _ & Hc). pose proof (store_from_frame 1 (wrapping_add64 addr k) (get c f 1) c) as Hf.
  destruct (Interp.store_from _ _ _ _) as [c1 []]; cbn in Hf; [apply IH in Hc; congruence|by injection Hc as <-].
Qed.
Lemma load_frame x addr c c' : Interp.load x addr c = Some c' → frame c' = frame c.
Proof.
  unfold Interp.load. destruct (word_size _); [intros [= <-]; apply load_to_frame|].
  destruct (_ =? 16); [|apply load_each_frame]. intros (lo & _ & (hi & _ & Hc)%bind_Some)%bind_Some.
  pose proof (load_to_frame lo 8 addr c) as Hf. destruct (Interp.load_to lo _ _ _) as [c1 []]; injection Hc as <-; [|done].
  rewrite load_to_frame. exact Hf.
Qed.
Lemma store_frame addr v c c' : Interp.store addr v c = Some c' → frame c' = frame c.
Proof.
  unfold Interp.store. destruct (word_size _); [intros [= <-]; apply store_from_frame|].
  destruct (_ =? 16); [|apply store_each_frame]. intros (lo & _ & Hc)%bind_Some.
  pose proof (store_from_frame 8 addr (get c lo 8) c) as Hf. destruct (Interp.store_from _ _ _ _) as [c1 []]; cbn in Hf.
  - apply bind_Some in Hc as (hi & _ & [= <-]). rewrite store_from_frame. exact Hf.
  - by injection Hc as <-.
Qed.
Lemma zext_cold_frame v out c c' : Interp.zext_cold v out c = Some c' → frame c' = frame c.
Proof.
  unfold Interp.zext_cold. intros ([c1 x] & Hc & Hf)%bind_Some. apply fill_bytes_frame in Hf. apply copy_bytes_frame in Hc. congruence.
Qed.
Lemma sext_cold_frame v out c c' : Interp.sext_cold v out c = Some c' → frame c' = frame c.
Proof.
  unfold Interp.sext_cold. destruct (_ =? _); [apply copy_frame|].
  intros ([c1 x] & Hc & Hf)%bind_Some. apply fill_bytes_frame in Hf. apply copy_bytes_frame in Hc. congruence.
Qed.
Lemma float_not_ten n : float_size n = true → (n =? 10) = false.
Proof. intros Hn%float_size_cases. lia. Qed.
Ltac put_frame Hi :=
  unfold Interp.binary, Interp.divide, Interp.compare, Interp.booleans, Interp.unary, Interp.count, Interp.shift_op,
    Interp.signed_right, Interp.invalid_op_size in Hi; cbn [i_op i_a i_b i_out] in Hi;
  repeat (first [apply bind_Some in Hi as (? & _ & Hi)
                |match type of Hi with context [match ?x with _ => _ end] => destruct x end]); simplify_eq; try done.
(** Floats of the widths the compiler accepts do not escape. *)
Ltac float_frame Hg Hi :=
  let Ht := fresh in pose proof (float_not_ten _ Hg) as Ht; cbn [i_op i_a i_b i_out] in Hi;
  match type of Hi with (if ?g then _ else _) = _ => destruct g; [|by injection Hi as <-] end;
  rewrite Ht in Hi; first [apply bind_Some in Hi as (? & _ & [= <-])|injection Hi as <-]; done.
Lemma float_binary_frame o a b out op32 op64 code c c' :
  float_op_arm out a b op32 op64 = Ok code →
  Interp.float_binary {| i_op := o; i_a := a; i_b := b; i_out := out |} c = Some c' → frame c' = frame c.
Proof.
  unfold float_op_arm, Interp.float_binary. intros [Hg _]%unless_Ok Hi. bool_to_prop.
  match goal with E : float_size _ = true |- _ => float_frame E Hi end.
Qed.
Lemma float_single_frame o a b out op32 op64 code c c' :
  float_unary_arm out a op32 op64 = Ok code →
  Interp.float_single {| i_op := o; i_a := a; i_b := b; i_out := out |} c = Some c' → frame c' = frame c.
Proof.
  unfold float_unary_arm, Interp.float_single. intros [Hg _]%unless_Ok Hi. bool_to_prop.
  match goal with E : float_size _ = true |- _ => float_frame E Hi end.
Qed.
Lemma float_compare_frame o a b out op32 op64 code c c' :
  float_compare_arm out a b op32 op64 = Ok code →
  Interp.float_compare {| i_op := o; i_a := a; i_b := b; i_out := out |} c = Some c' → frame c' = frame c.
Proof.
  unfold float_compare_arm, Interp.float_compare. intros [Hg _]%unless_Ok Hi. bool_to_prop.
  match goal with E : float_size _ = true |- _ => float_frame E Hi end.
Qed.
Lemma float_nan_frame o a b out code c c' :
  is_nan_op out a = Ok code →
  Interp.float_nan {| i_op := o; i_a := a; i_b := b; i_out := out |} c = Some c' → frame c' = frame c.
Proof.
  unfold is_nan_op, Interp.float_nan. intros [Hg _]%unless_Ok Hi. bool_to_prop.
  match goal with E : float_size _ = true |- _ => float_frame E Hi end.
Qed.
Lemma to_float_frame out i z c c' : float_size (v_size out) = true → Interp.to_float out i z c = Some c' → frame c' = frame c.
Proof. unfold Interp.to_float. intros ->. by intros [= <-]. Qed.
Lemma float_to_float_widths out a code :
  float_to_float_op out a = Ok code → float_size (size_of a) && float_size (v_size out) = true.
Proof.
  unfold float_to_float_op. intros Hc. destruct (float_size (size_of a) && (v_size out =? size_of a)) eqn:E1.
  - apply andb_true_iff in E1 as [Ef E1]. replace (v_size out) with (size_of a) by lia. by rewrite Ef.
  - destruct ((size_of a =? 4) && (v_size out =? 8)) eqn:E2.
    { apply andb_true_iff in E2 as [Ea Eo]. apply Z.eqb_eq in Ea, Eo. by rewrite Ea, Eo. }
    destruct ((size_of a =? 8) && (v_size out =? 4)) eqn:E3; [|done].
    apply andb_true_iff in E3 as [Ea Eo]. apply Z.eqb_eq in Ea, Eo. by rewrite Ea, Eo.
Qed.
Lemma float_to_float_frame i c c' code :
  float_to_float_op (i_out i) (i_a i) = Ok code → Interp.float_to_float i c = Some c' → frame c' = frame c.
Proof.
  intros Hc%float_to_float_widths Hi. unfold Interp.float_to_float in Hi. destruct (negb _); [by injection Hi as <-|].
  rewrite Hc in Hi. by injection Hi as <-.
Qed.
Lemma from_float_frame out f c c' : Interp.from_float out f c = Some c' → frame c' = frame c.
Proof. unfold Interp.from_float. by destruct (bool_decide _); intros [= <-]. Qed.
(** An operation the compiler accepts does not escape. *)
Lemma interpret_frame i index has_host it fast code c c' :
  translate_instruction i index has_host it fast = Ok code → i_op i ≠ Op.InstructionMarker →
  Interp.interpret i c = Some c' → frame c' = frame c.
Proof.
  intros Hc Hm Hi. destruct i as [o a b out]. cbn [i_op] in Hm.
  unfold translate_instruction in Hc. unfold Interp.interpret in Hi. cbn [i_op i_a i_b i_out] in *.
  destruct o; try discriminate Hc; try discriminate Hi; try done; try (solve [clear Hc; put_frame Hi]).
  all: try (match type of Hc with
    | float_op_arm _ _ _ _ _ = _ => exact (float_binary_frame _ _ _ _ _ _ _ _ _ Hc Hi)
    | float_unary_arm _ _ _ _ = _ => exact (float_single_frame _ _ _ _ _ _ _ _ _ Hc Hi)
    | float_compare_arm _ _ _ _ _ = _ => exact (float_compare_frame _ _ _ _ _ _ _ _ _ Hc Hi)
    | is_nan_op _ _ = _ => exact (float_nan_frame _ _ _ _ _ _ _ Hc Hi)
    end).
  - destruct (_ && _); [by injection Hi as <-|by eapply copy_cold_frame].
  - by eapply copy_frame.
  - destruct (Interp.extends _); [by injection Hi as <-|by eapply zext_cold_frame].
  - destruct (Interp.extends _); [by injection Hi as <-|by eapply sext_cold_frame].
  - unfold int_to_float_op in Hc. apply unless_Ok in Hc as [Hg _]. bool_to_prop.
    destruct (_ && _); [by eapply to_float_frame|by injection Hi as <-].
  - unfold uint_to_float_op in Hc. apply unless_Ok in Hc as [Hg _]. bool_to_prop.
    destruct (_ && _); [by eapply to_float_frame|by injection Hi as <-].
  - exact (float_to_float_frame {| i_op := Op.FloatToFloat; i_a := a; i_b := b; i_out := out |} _ _ _ Hc Hi).
  - unfold float_to_int_op in Hc. apply unless_Ok in Hc as [Hg _]. bool_to_prop.
    destruct (negb _); [by injection Hi as <-|]. match goal with E : float_size (size_of a) = true |- _ => rewrite E in Hi end.
    by eapply from_float_frame.
  - unfold load_op in Hc. apply unless_Ok in Hc as [Hg _]. bool_to_prop.
    replace (space =? RAM_SPACE) with true in Hi by lia. by eapply load_frame.
  - unfold store_op in Hc. apply unless_Ok in Hc as [Hg _]. bool_to_prop.
    replace (space =? RAM_SPACE) with true in Hi by lia. by eapply store_frame.
Qed.
End frame.

(** * Blocks *)
Lemma markers_cons i l : count_instructions (i :: l) = (if is_marker i then 1 else 0) + count_instructions l.
Proof.
  unfold count_instructions. destruct (is_marker i) eqn:E.
  - rewrite filter_cons_True by (by apply Is_true_true). rewrite zlen_cons. lia.
  - rewrite filter_cons_False by (rewrite E; intros []). lia.
Qed.
Lemma count_nonneg l : 0 ≤ count_instructions l.
Proof. apply zlen_nonneg. Qed.

Section block.
Context `{Arch} `{Floats} `{!FloatLaws} {G : Type} `{Softmmu G} `{Escapes G} (base limit tlb : Z) `{!SoftmmuLaws G base limit tlb}.
Context (Hbase : 0 ≤ base) (Hlimit : base + REG_SPACE_BYTES ≤ limit) (Hspace : limit ≤ 2 ^ 32).
Abbreviation mk := (W.Build_cfg G).
Abbreviation runs := (runs base limit).
Abbreviation agrees := (agrees base limit tlb).
Implicit Types (s : W.store G) (c : Cpu G).

Lemma agrees_pc s c x : agrees s c → agrees s (Interp.write_pc x c).
Proof.
  intros (Hr & Hm & He & Hi). split_and!; [|done..]. unfold Interp.write_pc. cbn [at_block with_regs c_regs].
  apply same_hidden_put; [done|]. intros j Hj. rewrite zlen_le_bytes in Hj. unfold in_pc, pc_offset. lia.
Qed.
Lemma marker_interpret i c c' :
  inst_ok i → i_op i = Op.InstructionMarker → Interp.interpret i c = Some c' →
  ∃ addr, i_a i = Const addr 8 ∧ c' = Interp.next_instruction addr c.
Proof.
  destruct i as [o a b out]. intros (_ & _ & _ & Hop) Ho Hi. cbn [i_op i_a i_b i_out] in *. subst o. destruct Hop as (Hso & Hsa & Hsb & Hca & Hcb).
  unfold Interp.interpret in Hi. cbn [i_op i_a i_b i_out] in Hi. rewrite Hso, Hsa, Hsb in Hi. cbn in Hi.
  destruct a as [|addr n], b as [|len m]; try done. cbn in Hsa. subst n. exists addr. by injection Hi as <-.
Qed.
Lemma marker_simulated s c addr :
  agrees s c → 1 ≤ remaining (c_fuel c) → let c' := Interp.next_instruction addr c in
  agrees s c' ∧ c_exc c' = c_exc c ∧ remaining (c_fuel c') = remaining (c_fuel c) - 1.
Proof.
  intros Hag Hf c'. subst c'. unfold Interp.next_instruction. cbn [Interp.write_pc at_block with_regs c_fuel].
  replace (1 <=? _) with true by lia. split_and!; [|done..]. by apply (agrees_pc s c addr).
Qed.

(** What running the code of some instructions must do when interpreting them
    ends in [c'], stopping at an instruction or not. *)
Definition follows (code : W.code) (it : option nat) (fast : FastLocals) (st L : list W.val) s (c' : Cpu G) (r : option Z) :
    Prop :=
  match r with
  | None =>
      exc_code (c_exc c') = 0 ∧ ∃ L' s', runs code (mk st L s) (W.Next (mk st L' s')) ∧ agrees s' c' ∧
        locals_ok base tlb fast L' ∧ kept fast L L' ∧ W.s_fault s' = W.s_fault s
  | Some k =>
      exc_code (c_exc c') ≠ 0 ∧ ∃ st' L' s', runs code (mk st L s) (W.Returned (mk st' L' s')) ∧ agrees s' c' ∧
        kept fast L L' ∧ report_value it L st' ∧ W.s_fault s' = Some k
  end.
Lemma report_kept it fast L L' st' : iter_ok fast it L → kept fast L L' → report_value it L' st' → report_value it L st'.
Proof.
  unfold report_value. destruct it as [k|]; [|done]. intros [Hk _] HL (v & st'' & Hv & ->). exists v, st''.
  by rewrite <- HL.
Qed.
Lemma follows_next code code' it fast st L L' s s' c' r :
  iter_ok fast it L → runs code (mk st L s) (W.Next (mk st L' s')) → kept fast L L' → W.s_fault s' = W.s_fault s →
  follows code' it fast st L' s' c' r → follows (code ++ code') it fast st L s c' r.
Proof.
  intros Hit Hr Hk Hf Hc'. destruct r as [k|]; cbn [follows] in *.
  - destruct Hc' as (Hx & st1 & L1 & s1 & Hr1 & Hag & Hk1 & Hv & Hf1). split; [done|]. exists st1, L1, s1.
    split_and!; [by eapply runs_app|done|by eapply kept_trans|by eapply report_kept|done].
  - destruct Hc' as (Hx & L1 & s1 & Hr1 & Hag & HL1 & Hk1 & Hf1). split; [done|]. exists L1, s1.
    split_and!; [by eapply runs_app|done|done|by eapply kept_trans|congruence].
Qed.
Lemma frame_fuel (c c' : Cpu G) : frame c' = frame c → c_fuel c' = c_fuel c.
Proof. by intros [= _ ?]. Qed.
Lemma translate_all_follows l index has_host it fast code st L s c c' r :
  Forall inst_ok l → 0 ≤ index → index + zlen l ≤ 2 ^ 32 → fast_ok fast → locals_ok base tlb fast L → iter_ok fast it L →
  agrees s c → exc_code (c_exc c) = 0 → count_instructions l ≤ remaining (c_fuel c) →
  translate_all l index has_host it fast = Ok code → Interp.interpret_from index l c = Some (c', r) →
  follows code it fast st L s c' r.
Proof.
  intros Hok. revert index code L s c. induction Hok as [|i l Hi Hl IH]; intros index code L s c Hi0 Hi1 Hfast HL Hit Hag He Hfuel Hc Hr.
  - apply ops_Ok in Hc as ->. injection Hr as <- <-. split; [done|]. exists L, s. split_and!; [apply runs_nil|done..].
  - cbn in Hc, Hr. apply cat_Ok in Hc as (l1 & l2 & Hl1 & Hl2 & ->). apply bind_Some in Hr as (c1 & Hint & Hr).
    rewrite zlen_cons in Hi1. pose proof (zlen_nonneg l). rewrite markers_cons in Hfuel. pose proof (count_nonneg l).
    destruct (decide (i_op i = Op.InstructionMarker)) as [Em|Em].
    + assert (is_marker i = true) as Hm by (by apply bool_decide_eq_true). rewrite Hm in Hfuel.
      destruct (marker_interpret i c c1 Hi Em Hint) as (addr & Ea & ->).
      destruct (marker_simulated s c addr Hag ltac:(lia)) as (Hag1 & He1 & Hf1). rewrite He1, He in Hr. cbn in Hr.
      unfold translate_instruction in Hl1. rewrite Em in Hl1. apply ops_Ok in Hl1 as ->.
      apply (IH (index + 1) l2 L s (Interp.next_instruction addr c)); try done; [lia|lia|congruence|lia].
    + assert (is_marker i = false) as Hm by (by apply bool_decide_eq_false). rewrite Hm in Hfuel.
      pose proof (frame_fuel _ _ (interpret_frame _ _ _ _ _ _ _ _ Hl1 Em Hint)) as Hfu.
      pose proof (instruction_simulated base limit tlb Hbase Hlimit Hspace i index has_host it fast st L s c Hi Hfast HL Hag He
        ltac:(lia) Hit l1 c1 Em Hl1 Hint) as Hsim. unfold simulates in Hsim.
      destruct (exc_code (c_exc c1) =? ExceptionCode.NoException) eqn:Ee.
      * destruct Hsim as (L1 & s1 & Hrun & Hag1 & HL1 & Hk1 & Hf1).
        eapply follows_next; [done..|]. eapply (IH (index + 1) l2 L1 s1 c1); try done; [lia|lia|by eapply iter_kept| |by rewrite Hfu].
        unfold ExceptionCode.NoException in Ee. lia.
      * destruct Hsim as (st1 & L1 & s1 & Hrun & Hag1 & Hk1 & Hv1 & Hf1). injection Hr as <- <-.
        split; [unfold ExceptionCode.NoException in Ee; lia|]. exists st1, L1, s1. split_and!; [|done..].
        eapply runs_stop; [done|done|]. by eapply translate_all_nests.
Qed.
End block.

(** Running whole modules: a block once, and a region as many turns of its block
    as its condition and its budget allow. *)
(** * Turns of a self-loop *)
Section turns.
Context `{Arch} `{Floats} {G : Type} `{Softmmu G} `{Escapes G}.
Implicit Types c : Cpu G.
Definition taken (cond : option VarNode) c : bool :=
  match cond with Some v => negb (get c (Var v) 1 =? 0) | None => true end.
(** Up to [n] turns: the state, how many whole turns ran, and where one stopped. *)
Fixpoint interpret_turns (n : nat) (l : list Inst) (cond : option VarNode) c : option (Cpu G * Z * option Z) :=
  match n with
  | O => None
  | S n =>
      '(c, r) ← Interp.interpret_block l 0 c;
      match r with
      | Some k => Some (c, 0, Some k)
      | None =>
          match n with
          | O => Some (c, 1, None)
          | S _ => if taken cond c then '(c, t, r) ← interpret_turns n l cond c; Some (c, t + 1, r) else Some (c, 1, None)
          end
      end
  end.
(** A block that runs to its end has passed every marker. *)
Lemma interpret_from_fuel l index has_host it fast code k c c' :
  Forall inst_ok l → translate_all l index has_host it fast = Ok code → count_instructions l ≤ remaining (c_fuel c) →
  Interp.interpret_from k l c = Some (c', None) → remaining (c_fuel c') = remaining (c_fuel c) - count_instructions l.
Proof.
  intros Hok. revert index k code c. induction Hok as [|i l Hi Hl IH]; intros index k code c Hc Hf Hr.
  - injection Hr as <-. change (count_instructions []) with 0. lia.
  - cbn in Hc, Hr. apply cat_Ok in Hc as (l1 & l2 & Hl1 & Hl2 & _). apply bind_Some in Hr as (c1 & Hint & Hr).
    rewrite markers_cons in *. destruct (exc_code _ =? _) eqn:Ee; [|done]. pose proof (count_nonneg l).
    destruct (decide (i_op i = Op.InstructionMarker)) as [Em|Em].
    + assert (is_marker i = true) as Hm by (by apply bool_decide_eq_true). rewrite Hm in *.
      destruct (marker_interpret i c c1 Hi Em Hint) as (addr & _ & ->).
      assert (remaining (c_fuel (Interp.next_instruction addr c)) = remaining (c_fuel c) - 1) as Hf1.
      { unfold Interp.next_instruction. cbn. by replace (1 <=? _) with true by lia. }
      rewrite (IH (index + 1) (k + 1) l2 (Interp.next_instruction addr c)) by (done || lia). lia.
    + assert (is_marker i = false) as Hm by (by apply bool_decide_eq_false). rewrite Hm in *.
      pose proof (frame_fuel _ _ (interpret_frame _ _ _ _ _ _ _ _ Hl1 Em Hint)) as Hfu.
      rewrite (IH (index + 1) (k + 1) l2 c1) by (done || (rewrite Hfu; lia)). rewrite Hfu. lia.
Qed.
End turns.

Section modules.
Context `{Arch} `{Floats} `{!FloatLaws} {G : Type} `{Softmmu G} `{Escapes G} (base limit tlb : Z) `{!SoftmmuLaws G base limit tlb}.
Context (Hbase : 0 ≤ base) (Hlimit : base + REG_SPACE_BYTES ≤ limit) (Hspace : limit ≤ 2 ^ 32).
Abbreviation mk := (W.Build_cfg G).
Abbreviation runs := (runs base limit).
Abbreviation agrees := (agrees base limit tlb).
Implicit Types (s : W.store G) (c : Cpu G).

(** ** Blocks *)
Definition block_args : list W.val := [(W.I32, base); (W.I32, tlb)].
Ltac scratch := intros k t Hk; do 9 (destruct k as [|k]; [injection Hk as <-; by eexists|]); destruct k; discriminate Hk.
Lemma block_locals_ok : locals_ok base tlb BLOCK_FAST (block_args ++ W.zeros block_locals).
Proof. split; [done..|scratch]. Qed.
Lemma block_fast_ok : fast_ok BLOCK_FAST.
Proof. unfold fast_ok. cbn. lia. Qed.
Lemma runs_run l c o body decl args s fuel :
  runs l (mk [] (args ++ W.zeros decl) s) o → body = l ++ [W.End] → W.run base limit fuel decl body args s = o.
Proof. intros (ts & Hp & Hr) ->. unfold W.run. by rewrite (parses_end _ _ Hp), Hr. Qed.
Lemma block_run l m s c c' r fuel :
  translate_block l = Ok m → Forall inst_ok l → zlen l ≤ 2 ^ 32 → agrees s c → exc_code (c_exc c) = 0 →
  count_instructions l ≤ remaining (c_fuel c) → Interp.interpret_block l 0 c = Some (c', r) → ∃ k,
  W.run base limit fuel (m_locals m) (m_body m) block_args s =
    match r with Some _ => W.Returned k | None => W.Next k end ∧
  agrees (W.k_store k) c' ∧ W.s_fault (W.k_store k) = match r with Some i => Some i | None => W.s_fault s end.
Proof.
  intros Hm Hok Hlen Hag He Hf Hr. unfold translate_block in Hm. apply rbind_Ok in Hm as (code & Hc & [= <-]). cbn [m_locals m_body module_of].
  unfold Interp.interpret_block in Hr. rewrite drop_0 in Hr.
  pose proof (translate_all_follows base limit tlb Hbase Hlimit Hspace l 0 _ None BLOCK_FAST code [] _ s c c' r Hok ltac:(lia)
    ltac:(lia) block_fast_ok block_locals_ok I Hag He Hf Hc Hr) as Hsim. destruct r as [k|].
  - destruct Hsim as (_ & st' & L' & s' & Hrun & Hag' & _ & _ & Hf'). exists (mk st' L' s').
    split_and!; [by eapply runs_run|done..].
  - destruct Hsim as (_ & L' & s' & Hrun & Hag' & _ & _ & Hf'). exists (mk [] L' s').
    split_and!; [by eapply runs_run|done..].
Qed.

(** ** Regions *)
Definition region_args (max : Z) : list W.val := block_args ++ [(W.I64, max)].
Lemma region_locals_ok max : locals_ok base tlb REGION_FAST (region_args max ++ W.zeros region_locals).
Proof. split; [done..|scratch]. Qed.
Lemma region_fast_ok : fast_ok REGION_FAST.
Proof. unfold fast_ok. cbn. lia. Qed.
Definition again (cond : option VarNode) (load : W.code) : W.code :=
  [W.LocalGet REGION_ITER_LOCAL; W.I64Const 1; W.I64Add; W.LocalSet REGION_ITER_LOCAL;
   W.LocalGet REGION_ITER_LOCAL; W.LocalGet REGION_MAX_ITERS_PARAM; W.I64LtU] ++
  (match cond with Some _ => load ++ [W.I32Const 0; W.I32Ne; W.I32And] | None => [] end) ++ [W.BrIf 0].
Definition cond_ok (cond : option VarNode) : Prop :=
  match cond with Some v => var_ok v ∧ 1 ≤ v_size v | None => True end.
Lemma locals_counter L x : locals_ok base tlb REGION_FAST L → locals_ok base tlb REGION_FAST (<[REGION_ITER_LOCAL := (W.I64, x)]> L).
Proof.
  intros HL. split; [rewrite list_lookup_insert_ne by done; by apply (l_base _ _ _ _ HL)
    |rewrite list_lookup_insert_ne by done; by apply (l_tlb _ _ _ _ HL)|].
  intros k t Hk. rewrite list_lookup_insert_ne by (cbn; unfold REGION_ITER_LOCAL; lia). by apply (l_scratch _ _ _ _ HL).
Qed.
Lemma runs_again cond load st L s c iter max :
  cond_ok cond → match cond with Some v => emit_load (Var v) 1 = Ok load | None => True end →
  agrees s c → locals_ok base tlb REGION_FAST L → L !! REGION_ITER_LOCAL = Some (W.I64, iter) →
  L !! REGION_MAX_ITERS_PARAM = Some (W.I64, max) → 0 ≤ iter → iter + 1 < 2 ^ 64 →
  let L' := <[REGION_ITER_LOCAL := (W.I64, iter + 1)]> L in
  runs (again cond load) (mk st L s)
    (if (iter + 1 <? max) && taken cond c then W.Break 0 (mk st L' s) else W.Next (mk st L' s)).
Proof.
  intros Hcond Hl Hag HL Hi Hm Hi0 Hi1 L'. unfold again. cbn [app].
  assert (L' !! REGION_ITER_LOCAL = Some (W.I64, iter + 1)) as Hi' by (apply list_lookup_insert_eq; by eapply lookup_lt_Some).
  assert (L' !! REGION_MAX_ITERS_PARAM = Some (W.I64, max)) as Hm' by (unfold L'; by rewrite list_lookup_insert_ne).
  pose proof (locals_counter L (iter + 1) HL) as HL'. fold L' in HL'.
  eapply runs_get; [exact Hi|]. apply runs_i64. eapply runs_binop; [reflexivity..|]. change (wrap 64 1) with 1.
  rewrite (wrap_id 64) by (unfold fits; lia). eapply runs_set; [exact Hi|]. fold L'.
  eapply runs_get; [exact Hi'|]. eapply runs_get; [exact Hm'|]. eapply runs_binop; [reflexivity..|].
  assert (∀ b, runs [W.BrIf 0] (mk ((W.I32, W.truth b) :: st) L' s) (if b then W.Break 0 (mk st L' s) else W.Next (mk st L' s))) as Hbr.
  { intros []; [by apply runs_br_if; [|apply nests_nil]|]. apply runs_br_if_skip, runs_nil. }
  destruct cond as [v|]; cbn [app taken].
  - destruct Hcond as [(Hv0 & Hv1 & Hv2 & Hv3) Hv4]. rewrite <- app_assoc.
    eapply runs_emit_load; [exact Hlimit|exact Hl|by eapply l_base|split; [done|lia]|].
    change (ty 1) with W.I32. cbn [app]. apply runs_i32. eapply runs_binop; [reflexivity..|]. eapply runs_binop; [reflexivity..|].
    change (wrap 32 0) with 0. rewrite truth_and. rewrite (get_read base limit tlb s c); [apply Hbr|done|done|cbn; lia].
  - rewrite andb_true_r. apply Hbr.
Qed.
Lemma parses_inj l ts ts' : parses l ts → parses l ts' → ts = ts'.
Proof. intros Hp Hp'. apply parses_end in Hp, Hp'. congruence. Qed.
Lemma runs_parsed l ts k o fuel : parses l ts → runs l k o → W.seq (W.exec base limit fuel) ts k = o.
Proof. intros Hp (ts' & Hp' & Hr). by rewrite (parses_inj _ _ _ Hp Hp'). Qed.
Lemma exec_loop fuel ts k :
  W.exec base limit fuel (W.TLoop ts) k =
  match W.seq (W.exec base limit fuel) ts k with
  | W.Break O k' =>
      match fuel with S fuel => W.exec base limit fuel (W.TLoop ts) (W.with_stack (W.k_stack k) k') | O => W.OutOfFuel end
  | W.Break (S n) k' => W.Break n k'
  | o => o
  end.
Proof. by destruct fuel. Qed.

Section region.
Context (l : list Inst) (cond : option VarNode) (has_host : bool) (code load : W.code) (ts : list W.tree) (max : Z).
Context (Hok : Forall inst_ok l) (Hlen : zlen l ≤ 2 ^ 32) (Hcond : cond_ok cond) (Hmax : max < 2 ^ 64).
Context (Hcode : translate_all l 0 has_host (Some REGION_ITER_LOCAL) REGION_FAST = Ok code).
Context (Hload : match cond with Some v => emit_load (Var v) 1 = Ok load | None => True end).
Context (Hts : parses (code ++ again cond load) ts).

(** One turn of the loop. *)
Lemma region_turn st L s c c' r iter fuel :
  agrees s c → exc_code (c_exc c) = 0 → count_instructions l ≤ remaining (c_fuel c) → locals_ok base tlb REGION_FAST L →
  L !! REGION_ITER_LOCAL = Some (W.I64, iter) → L !! REGION_MAX_ITERS_PARAM = Some (W.I64, max) → 0 ≤ iter < max →
  Interp.interpret_block l 0 c = Some (c', r) →
  match r with
  | None => exc_code (c_exc c') = 0 ∧ ∃ L' s',
      W.seq (W.exec base limit fuel) ts (mk st L s) =
        (if (iter + 1 <? max) && taken cond c' then W.Break 0 (mk st L' s') else W.Next (mk st L' s')) ∧
      agrees s' c' ∧ locals_ok base tlb REGION_FAST L' ∧ L' !! REGION_ITER_LOCAL = Some (W.I64, iter + 1) ∧
      L' !! REGION_MAX_ITERS_PARAM = Some (W.I64, max) ∧ W.s_fault s' = W.s_fault s
  | Some k => ∃ st' L' s',
      W.seq (W.exec base limit fuel) ts (mk st L s) = W.Returned (mk ((W.I64, iter) :: st') L' s') ∧ agrees s' c' ∧
      W.s_fault s' = Some k
  end.
Proof.
  intros Hag He Hf HL Hi Hm Hiter Hr. unfold Interp.interpret_block in Hr. rewrite drop_0 in Hr.
  assert (iter_ok REGION_FAST (Some REGION_ITER_LOCAL) L) as Hit by (split; [unfold REGION_ITER_LOCAL; cbn; lia|by eexists]).
  pose proof (translate_all_follows base limit tlb Hbase Hlimit Hspace l 0 _ _ REGION_FAST code st L s c c' r Hok ltac:(lia)
    ltac:(lia) region_fast_ok HL Hit Hag He Hf Hcode Hr) as Hsim. destruct r as [k|]; cbn [follows] in Hsim.
  - destruct Hsim as (Hx & st' & L' & s' & Hrun & Hag' & _ & (v & st'' & Hv & ->) & Hf'). exists st'', L', s'.
    pose proof (eq_trans (eq_sym Hv) Hi) as [= ->]. split_and!; [|done..]. eapply runs_parsed; [exact Hts|]. eapply runs_stop; [exact Hrun|done|].
    unfold again. repeat (apply nests_cons; [done|]). apply nests_app; [|by apply nests_plain].
    destruct cond; [|apply nests_nil]. eapply emit_load_nests; [done|by apply nests_plain].
  - destruct Hsim as (Hx & L1 & s1 & Hrun & Hag1 & HL1 & Hk1 & Hf1). split; [done|].
    assert (L1 !! REGION_ITER_LOCAL = Some (W.I64, iter)) as Hi1 by (rewrite Hk1; [done|cbn; unfold REGION_ITER_LOCAL; lia]).
    assert (L1 !! REGION_MAX_ITERS_PARAM = Some (W.I64, max)) as Hm1 by (rewrite Hk1; [done|cbn; unfold REGION_MAX_ITERS_PARAM; lia]).
    pose proof (runs_again cond load st L1 s1 c' iter max Hcond Hload Hag1 HL1 Hi1 Hm1 ltac:(lia) ltac:(lia)) as Hr2.
    eexists _, s1. split_and!; [|done|by apply locals_counter|apply list_lookup_insert_eq; by eapply lookup_lt_Some
      |by rewrite list_lookup_insert_ne|done]. eapply runs_parsed; [exact Hts|]. eapply runs_app; [exact Hrun|exact Hr2].
Qed.
Lemma region_loop n st L s c c' t r iter fuel :
  agrees s c → exc_code (c_exc c) = 0 → Z.of_nat n * count_instructions l ≤ remaining (c_fuel c) →
  locals_ok base tlb REGION_FAST L →
  L !! REGION_ITER_LOCAL = Some (W.I64, iter) → L !! REGION_MAX_ITERS_PARAM = Some (W.I64, max) →
  0 ≤ iter → iter + Z.of_nat n = max → (n ≤ S fuel)%nat → interpret_turns n l cond c = Some (c', t, r) →
  0 ≤ t ∧ iter + t ≤ max ∧
  match r with
  | None => ∃ L' s', W.exec base limit fuel (W.TLoop ts) (mk st L s) = W.Next (mk st L' s') ∧ agrees s' c' ∧
      L' !! REGION_ITER_LOCAL = Some (W.I64, iter + t) ∧ W.s_fault s' = W.s_fault s
  | Some k => ∃ st' L' s', W.exec base limit fuel (W.TLoop ts) (mk st L s) = W.Returned (mk ((W.I64, iter + t) :: st') L' s') ∧
      agrees s' c' ∧ W.s_fault s' = Some k
  end.
Proof.
  revert L s c t iter fuel. induction n as [|n IH]; intros L s c t iter fuel Hag He Hf HL Hi Hm Hi0 Hn Hfu Hr; [done|].
  cbn in Hr. apply bind_Some in Hr as ([c1 r1] & Hb & Hr). pose proof (count_nonneg l) as Hc0.
  assert (count_instructions l ≤ remaining (c_fuel c)) as Hf1 by nia.
  pose proof (region_turn st L s c c1 r1 iter fuel Hag He Hf1 HL Hi Hm ltac:(lia) Hb) as Ht. rewrite exec_loop.
  destruct r1 as [k|].
  { injection Hr as <- <- <-. destruct Ht as (st' & L' & s' & -> & Hag' & Hf'). rewrite Z.add_0_r.
    split_and!; [lia|lia|]. by exists st', L', s'. }
  destruct Ht as (He1 & L1 & s1 & -> & Hag1 & HL1 & Hi1 & Hm1 & Hfl).
  destruct n as [|n].
  { injection Hr as <- <- <-. replace (iter + 1 <? max) with false by lia. cbn [andb]. split_and!; [lia|lia|]. by exists L1, s1. }
  destruct (taken cond c1) eqn:Et.
  - apply bind_Some in Hr as ([[c2 t2] r2] & Hr & [= <- <- <-]). replace (iter + 1 <? max) with true by lia. cbn [andb].
    destruct fuel as [|fuel]; [lia|]. cbn [W.with_stack W.k_stack W.k_locals W.k_store].
    assert (remaining (c_fuel c1) = remaining (c_fuel c) - count_instructions l) as Hf2.
    { unfold Interp.interpret_block in Hb. rewrite drop_0 in Hb. by eapply interpret_from_fuel. }
    destruct (IH L1 s1 c1 t2 (iter + 1) fuel) as (Ht0 & Ht1 & Hres); [done|done|rewrite Hf2; nia|done|done|done|lia|lia|lia|done|].
    split_and!; [lia|lia|]. replace (iter + (t2 + 1)) with (iter + 1 + t2) by lia. destruct r2 as [k|].
    + destruct Hres as (st' & L' & s' & Hx & Hag' & Hf'). by exists st', L', s'.
    + destruct Hres as (L' & s' & Hx & Hag' & Hi' & Hf'). exists L', s'. split_and!; [done..|congruence].
  - injection Hr as <- <- <-. rewrite andb_false_r. split_and!; [lia|lia|]. by exists L1, s1.
Qed.
End region.

Definition cond_var (cond : option Value) : option VarNode := match cond with Some (Var v) => Some v | _ => None end.
Lemma region_code l cond m :
  translate_region l cond = Ok m → ∃ code load,
  translate_all l 0 (block_needs_host l) (Some REGION_ITER_LOCAL) REGION_FAST = Ok code ∧
  match cond_var cond with Some v => emit_load (Var v) 1 = Ok load | None => True end ∧ m_locals m = region_locals ∧
  m_body m = (W.Loop :: (code ++ again (cond_var cond) load) ++ [W.End]) ++ [W.LocalGet REGION_ITER_LOCAL; W.End].
Proof.
  unfold translate_region. intros (cv & Hcv & (body & Hb & [= <-])%rbind_Ok)%rbind_Ok.
  assert (cv = cond_var cond) as -> by (destruct cond as [[v|]|]; by simplify_eq). cbn [m_locals m_body region_module module_of].
  apply cat_Ok in Hb as (l0 & l1 & ->%ops_Ok & Hb & ->). apply cat_Ok in Hb as (code & l2 & Hcode & Hb & ->).
  apply cat_Ok in Hb as (l3 & l4 & ->%ops_Ok & Hb & ->). apply cat_Ok in Hb as (l5 & l6 & Hl5 & ->%ops_Ok & ->).
  unfold again. destruct (cond_var cond) as [v|].
  - apply cat_Ok in Hl5 as (load & l7 & Hload & ->%ops_Ok & ->). exists code, load. split_and!; [done..|].
    cbn [app]. by repeat (rewrite <- !app_assoc; cbn [app]).
  - apply ops_Ok in Hl5 as ->. exists code, []. split_and!; [done..|]. cbn [app]. by repeat (rewrite <- !app_assoc; cbn [app]).
Qed.
Lemma region_run l cond m s c c' t r max fuel :
  translate_region l cond = Ok m → Forall inst_ok l → zlen l ≤ 2 ^ 32 → cond_ok (cond_var cond) → agrees s c →
  exc_code (c_exc c) = 0 → 1 ≤ max < 2 ^ 64 → max * count_instructions l ≤ remaining (c_fuel c) →
  (Z.to_nat max ≤ S fuel)%nat → interpret_turns (Z.to_nat max) l (cond_var cond) c = Some (c', t, r) →
  0 ≤ t ≤ max ∧ ∃ st' L' s',
  W.run base limit fuel (m_locals m) (m_body m) (region_args max) s =
    (let k := mk ((W.I64, t) :: st') L' s' in match r with Some _ => W.Returned k | None => W.Next k end) ∧
  agrees s' c' ∧ W.s_fault s' = match r with Some i => Some i | None => W.s_fault s end.
Proof.
  intros (code & load & Hcode & Hload & -> & ->)%region_code Hok Hlen Hcond Hag He Hmax Hf Hfu Hr.
  assert (nests (code ++ again (cond_var cond) load)) as [ts Hts].
  { apply nests_app; [by eapply translate_all_nests|]. unfold again. repeat (apply nests_cons; [done|]).
    apply nests_app; [|by apply nests_plain]. destruct (cond_var cond); [|apply nests_nil].
    eapply emit_load_nests; [done|by apply nests_plain]. }
  assert (W.parse ((W.Loop :: (code ++ again (cond_var cond) load) ++ [W.End]) ++ [W.LocalGet REGION_ITER_LOCAL; W.End]) [] [] =
    Some [W.TLoop ts; W.Basic (W.LocalGet REGION_ITER_LOCAL)]) as Hparse.
  { replace [W.LocalGet REGION_ITER_LOCAL; W.End] with ([W.LocalGet REGION_ITER_LOCAL] ++ [W.End]) by done.
    rewrite app_assoc. apply parses_end. apply (parses_app _ [W.TLoop ts] _ [W.Basic (W.LocalGet REGION_ITER_LOCAL)]);
      [by apply parses_loop|by apply parses_plain]. }
  unfold W.run. rewrite Hparse. cbn [W.seq].
  destruct (region_loop l (cond_var cond) (block_needs_host l) code load ts max Hok Hlen Hcond ltac:(lia) Hcode Hload Hts
    (Z.to_nat max) [] (region_args max ++ W.zeros region_locals) s c c' t r 0 fuel) as (Ht0 & Ht1 & Hres);
    [done|done|rewrite Z2Nat.id; lia|apply region_locals_ok|done|done|lia|rewrite Z2Nat.id; lia|done|done|].
  split; [lia|]. change (0 + t) with t in Hres. destruct r as [k|].
  - destruct Hres as (st' & L' & s' & -> & Hag' & Hf'). by exists st', L', s'.
  - destruct Hres as (L' & s' & -> & Hag' & Hi' & Hf'). exists [], L', s'. split_and!; [|done..].
    rewrite exec_basic. cbn [W.step W.k_locals]. unfold W.val in *. by rewrite Hi'.
Qed.
End modules.
