(* ===== verification/Backend.v ===== *)
(** What runs compiled code: the promises of a backend, the wasmi backend that keeps
    them, and the theorem from translation to state. *)

From S2P Require Import Prelude Cpu Pcode Wasm Jit JitSim JitBlock.

(** What the machine asks of a host that compiles and runs blocks ([JitBackend],
    [crates/x64-engine/src/jit.rs]), and the host used outside a browser
    ([crates/jit-wasmi/src/lib.rs]).

    [None] is a run that does not end within the loop fuel, or that steps
    outside what validation admits. *)
Class JitBackend (J G : Type) := {
  jit_compile : Module → J → J * option Z;
  jit_call : Z → Cpu G → J → option (J * Cpu G * JitOutcome);
  jit_call_region : Z → Cpu G → Z → J → option (J * Cpu G * RegionOutcome);
  jit_evict : Z → J → J
}.

(** * What a backend promises *)
Section promises.
Context `{Arch} `{Floats} {J G : Type} `{Softmmu G} `{Escapes G} `{JitBackend J G}.
(** [c1], the state a call leaves, against [c], the state before it, and [c'], the
    state interpreting leaves: registers but the program counter, memory and
    exception are those of [c']. The counters ([frame]: pending exception, fuel,
    instruction count, position) are still those of [c]: compiled code touches none
    of them, and the machine charges the fuel and sets the position afterwards. *)
Definition ran_as (c c' c1 : Cpu G) : Prop :=
  same in_pc (c_regs c1) (c_regs c') ∧ c_mem c1 = c_mem c' ∧ c_exc c1 = c_exc c' ∧ frame c1 = frame c.
Class BackendLaws (owns : J → Z → Module → Prop) (inv : G → Prop) := {
  call_refines j h m l c c' r :
    owns j h m → translate_block l = Ok m → Forall inst_ok l → zlen l ≤ 2 ^ 32 → inv (c_mem c) → exc_code (c_exc c) = 0 →
    count_instructions l ≤ remaining (c_fuel c) → Interp.interpret_block l 0 c = Some (c', r) → ∃ c1,
    jit_call h c j = Some (j, c1, match r with Some k => Faulted k | None => Completed end) ∧ ran_as c c' c1 ∧ inv (c_mem c1);
  region_refines j h m l cond c c' t r max :
    owns j h m → translate_region l cond = Ok m → Forall inst_ok l → zlen l ≤ 2 ^ 32 → cond_ok (cond_var cond) →
    inv (c_mem c) → exc_code (c_exc c) = 0 → 1 ≤ max < 2 ^ 64 → max * count_instructions l ≤ remaining (c_fuel c) →
    interpret_turns (Z.to_nat max) l (cond_var cond) c = Some (c', t, r) → 0 ≤ t ≤ max ∧ ∃ c1,
    jit_call_region h c max j = Some (j, c1, match r with Some k => RegionFaulted t k | None => Ran t end) ∧
    ran_as c c' c1 ∧ inv (c_mem c1)
}.
End promises.

(** * Compiled code under wasmi *)
Definition TLB_BYTES : Z := 2 * 1024 * 16.
Definition tlb_base : Z := REG_SPACE_BYTES.
(** The size of the memory a backend makes, in bytes. *)
Definition memory_bytes : Z := div_ceil (REG_SPACE_BYTES + TLB_BYTES) 65536 * 65536.
Record WasmiJit := { w_instances : list (option Module) }.

Section wasmi.
Context `{Floats} {G : Type} `{Softmmu G} (accepts : Module → bool).
Implicit Types (j : WasmiJit) (c : Cpu G).

(** [WasmiJit::new]: no live translation cache, so every tag is invalid. *)
Definition wasmi_new (g : G) : WasmiJit * G :=
  ({| w_instances := [] |}, host_write g tlb_base (replicate (Z.to_nat TLB_BYTES) 255)).
Definition compile (m : Module) (j : WasmiJit) : WasmiJit * option Z :=
  if accepts m then ({| w_instances := w_instances j ++ [Some m] |}, Some (wrap 32 (zlen (w_instances j)))) else (j, None).
Definition evict (h : Z) (j : WasmiJit) : WasmiJit :=
  match getz (w_instances j) h with
  | Some _ => {| w_instances := <[Z.to_nat h := None]> (w_instances j) |}
  | None => j
  end.
Definition has_type (params results : list W.ValType) (m : Module) : bool :=
  bool_decide (head (m_types m) = Some (params, results)).
Definition instance (h : Z) (j : WasmiJit) : option Module :=
  match getz (w_instances j) h with Some (Some m) => Some m | _ => None end.
Definition enter (c : Cpu G) : W.store G :=
  {| W.s_regs := c_regs c; W.s_mem := c_mem c; W.s_exc := c_exc c; W.s_fault := None |}.
(** The callbacks act on the live processor; the registers are copied back after
    a run that does not trap. *)
Definition callbacks (s : W.store G) (c : Cpu G) : Cpu G := with_exc (W.s_exc s) (with_mem (W.s_mem s) c).
Definition copy_back (s : W.store G) (c : Cpu G) : Cpu G := with_regs (W.s_regs s) (callbacks s c).
Definition call (h : Z) (c : Cpu G) (j : WasmiJit) : option (WasmiJit * Cpu G * JitOutcome) :=
  match instance h j with
  | None => Some (j, c, Unavailable)
  | Some m =>
      if negb (has_type [W.I32; W.I32] [] m) then Some (j, c, Unavailable) else
      match W.run 0 memory_bytes 0 (m_locals m) (m_body m) [(W.I32, 0); (W.I32, tlb_base)] (enter c) with
      | W.Next k | W.Returned k =>
          Some (j, copy_back (W.k_store k) c, match W.s_fault (W.k_store k) with Some i => Faulted i | None => Completed end)
      | W.Trap k => Some (j, callbacks (W.k_store k) c, Unavailable)
      | W.Break _ _ | W.Stuck | W.OutOfFuel => None
      end
  end.
Definition call_region (h : Z) (c : Cpu G) (max_iters : Z) (j : WasmiJit) : option (WasmiJit * Cpu G * RegionOutcome) :=
  match instance h j with
  | None => Some (j, c, RegionUnavailable)
  | Some m =>
      if negb (has_type [W.I32; W.I32; W.I64] [W.I64] m) then Some (j, c, RegionUnavailable) else
      match W.run 0 memory_bytes (Z.to_nat max_iters) (m_locals m) (m_body m)
              [(W.I32, 0); (W.I32, tlb_base); (W.I64, max_iters)] (enter c) with
      | W.Next k | W.Returned k =>
          match W.k_stack k with
          | (W.I64, ran) :: _ =>
              let iters := wrap 64 ran in
              Some (j, copy_back (W.k_store k) c,
                    match W.s_fault (W.k_store k) with Some i => RegionFaulted iters i | None => Ran iters end)
          | _ => None
          end
      | W.Trap k => Some (j, callbacks (W.k_store k) c, RegionUnavailable)
      | W.Break _ _ | W.Stuck | W.OutOfFuel => None
      end
  end.
Definition wasmi_backend : JitBackend WasmiJit G :=
  {| jit_compile := compile; jit_call := call; jit_call_region := call_region; jit_evict := evict |}.
End wasmi.

(** * The promises kept *)
(** Guest memory apart from the memory of a backend. *)
Class ApartMemory (G : Type) `{Softmmu G} (gm_inv : G → Prop) := {
  gm_read_inv g a n g' r : gm_inv g → mmu_read g a n = (g', r) → gm_inv g';
  gm_write_inv g a l g' r : gm_inv g → mmu_write g a l = (g', r) → gm_inv g';
  gm_read_bytes g a n g' l : gm_inv g → word_size n = true → mmu_read g a n = (g', inl l) → byte_list l ∧ zlen l = n;
  gm_read_code g a n g' code : gm_inv g → mmu_read g a n = (g', inr code) → code ≠ 0;
  gm_write_code g a l g' code : gm_inv g → mmu_write g a l = (g', Some code) → code ≠ 0;
  gm_read_host g a n g' r k : mmu_read g a n = (g', r) → host_byte g' k = host_byte g k;
  gm_write_host g a l g' r k : mmu_write g a l = (g', r) → host_byte g' k = host_byte g k
}.
Section laws.
Context {G : Type} `{Softmmu G} (gm_inv : G → Prop) `{!ApartMemory G gm_inv}.
Definition invalid_tlb (g : G) : Prop := ∀ k, tlb_base ≤ k < tlb_base + TLB_BYTES → host_byte g k mod 256 = 255.
Definition wasmi_inv (g : G) : Prop := gm_inv g ∧ invalid_tlb g.
Lemma invalid_read g a n : invalid_tlb g → tlb_base ≤ a → a + Z.of_nat n ≤ tlb_base + TLB_BYTES → host_read g a n = replicate n 255.
Proof.
  intros Hg. revert a. induction n as [|n IH]; intros a Ha Hn; [done|]. cbn. rewrite Hg, IH by lia. done.
Qed.
Lemma tag_even a : Z.land a TLB_TAG_MASK ≠ 2 ^ 64 - 1.
Proof.
  intros E. assert (Z.testbit (Z.land a TLB_TAG_MASK) 0 = Z.testbit (2 ^ 64 - 1) 0) as Hb by (by rewrite E).
  rewrite Z.land_spec in Hb. change (Z.testbit TLB_TAG_MASK 0) with false in Hb. rewrite andb_false_r in Hb. done.
Qed.
Lemma never_hits g (write : bool) a :
  wasmi_inv g → le_val (host_read g (tlb_base + (a / 4096) mod 1024 * 16 + (if write then TLB_WRITE_ARRAY_OFFSET else 0)) 8) ≠
    Z.land a TLB_TAG_MASK.
Proof.
  intros [_ Hg]. pose proof (Z.mod_pos_bound (a / 4096) 1024). rewrite invalid_read; [|done|destruct write; unfold TLB_WRITE_ARRAY_OFFSET; lia
    |destruct write; unfold TLB_WRITE_ARRAY_OFFSET, TLB_BYTES; lia].
  change (le_val (replicate 8 255)) with (2 ^ 64 - 1). intros E. by apply (tag_even a).
Qed.
#[export] Program Instance wasmi_laws : SoftmmuLaws G 0 memory_bytes tlb_base := { mmu_inv := wasmi_inv }.
Next Obligation. intros g a n g' r [Hg Ht] Hr. split; [by eapply gm_read_inv|]. intros k Hk. rewrite (gm_read_host _ _ _ _ _ k Hr). by apply Ht. Qed.
Next Obligation. intros g a n g' r [Hg Ht] Hr. split; [by eapply gm_write_inv|]. intros k Hk. rewrite (gm_write_host _ _ _ _ _ k Hr). by apply Ht. Qed.
Next Obligation. intros g a n g' l [Hg _]. by apply gm_read_bytes. Qed.
Next Obligation. intros g a n g' code [Hg _]. by apply gm_read_code. Qed.
Next Obligation. intros g a n g' code [Hg _]. by apply gm_write_code. Qed.
Next Obligation. split_and!; [done..|]. by right. Qed.
Next Obligation. cbn zeta. intros g write a n Hg _ _ _ E. by apply (never_hits g write a) in E. Qed.
Next Obligation. cbn zeta. intros g a n Hg _ _ _ E. destruct (never_hits g false a Hg). by rewrite Z.add_0_r. Qed.
Next Obligation. cbn zeta. intros g a n x Hg _ _ _ E. by apply (never_hits g true a) in E. Qed.

Context `{Arch} `{Floats} `{!FloatLaws} `{Escapes G} (accepts : Module → bool).
Definition wasmi_owns (j : WasmiJit) (h : Z) (m : Module) : Prop := instance h j = Some m.
Lemma agrees_enter (c : Cpu G) : wasmi_inv (c_mem c) → agrees 0 memory_bytes tlb_base (enter c) c.
Proof. intros Hi. by split_and!. Qed.
Lemma agrees_ran (c c' : Cpu G) (s : W.store G) :
  agrees 0 memory_bytes tlb_base s c' → ran_as c c' (copy_back s c) ∧ wasmi_inv (c_mem (copy_back s c)).
Proof. intros (Hr & Hm & He & Hi). split; [by split_and!|]. cbn. by rewrite Hm. Qed.
Lemma wasmi_call j h m l (c c' : Cpu G) r :
  wasmi_owns j h m → translate_block l = Ok m → Forall inst_ok l → zlen l ≤ 2 ^ 32 → wasmi_inv (c_mem c) →
  exc_code (c_exc c) = 0 → count_instructions l ≤ remaining (c_fuel c) → Interp.interpret_block l 0 c = Some (c', r) → ∃ c1,
  call h c j = Some (j, c1, match r with Some k => Faulted k | None => Completed end) ∧ ran_as c c' c1 ∧ wasmi_inv (c_mem c1).
Proof.
  intros Hj Hm Hok Hlen Hi He Hf Hr. unfold call. rewrite Hj.
  assert (has_type [W.I32; W.I32] [] m = true) as ->.
  { unfold translate_block in Hm. apply rbind_Ok in Hm as (code & _ & [= <-]). by apply bool_decide_eq_true. }
  destruct (block_run 0 memory_bytes tlb_base ltac:(done) ltac:(done) ltac:(done) l m (enter c) c c' r 0 Hm Hok Hlen
    (agrees_enter c Hi) He Hf Hr) as (k & Hrun & Hag & Hfault). change (block_args 0 tlb_base) with [(W.I32, 0); (W.I32, tlb_base)] in Hrun.
  exists (copy_back (W.k_store k) c). split; [|by apply agrees_ran]. cbn [negb]. rewrite Hrun. destruct r; by rewrite Hfault.
Qed.
Lemma wasmi_region j h m l cond (c c' : Cpu G) t r max :
  wasmi_owns j h m → translate_region l cond = Ok m → Forall inst_ok l → zlen l ≤ 2 ^ 32 → cond_ok (cond_var cond) →
  wasmi_inv (c_mem c) → exc_code (c_exc c) = 0 → 1 ≤ max < 2 ^ 64 → max * count_instructions l ≤ remaining (c_fuel c) →
  interpret_turns (Z.to_nat max) l (cond_var cond) c = Some (c', t, r) → 0 ≤ t ≤ max ∧ ∃ c1,
  call_region h c max j = Some (j, c1, match r with Some k => RegionFaulted t k | None => Ran t end) ∧
  ran_as c c' c1 ∧ wasmi_inv (c_mem c1).
Proof.
  intros Hj Hm Hok Hlen Hcond Hi He Hmax Hf Hr. unfold call_region. rewrite Hj.
  assert (has_type [W.I32; W.I32; W.I64] [W.I64] m = true) as ->.
  { unfold translate_region in Hm. apply rbind_Ok in Hm as (cv & _ & Hm). apply rbind_Ok in Hm as (body & _ & [= <-]).
    by apply bool_decide_eq_true. }
  destruct (region_run 0 memory_bytes tlb_base ltac:(done) ltac:(done) ltac:(done) l cond m (enter c) c c' t r max (Z.to_nat max)
    Hm Hok Hlen Hcond (agrees_enter c Hi) He Hmax Hf ltac:(lia) Hr) as (Ht & st' & L' & s' & Hrun & Hag & Hfault).
  split; [done|]. change (region_args 0 tlb_base max) with [(W.I32, 0); (W.I32, tlb_base); (W.I64, max)] in Hrun.
  exists (copy_back s' c). split; [|by apply agrees_ran]. cbn [negb]. rewrite Hrun.
  assert (wrap 64 t = t) as Hw by (apply Z.mod_small; lia). destruct r; cbn [W.k_stack W.k_store]; by rewrite Hfault, Hw.
Qed.
Lemma wasmi_keeps_promises :
  @BackendLaws _ _ WasmiJit G _ _ (wasmi_backend accepts) wasmi_owns wasmi_inv.
Proof. split; intros; [by eapply wasmi_call|by eapply wasmi_region]. Qed.
End laws.

(** Compiled code does what the interpreter does: a block and a self-loop, from
    translation to the state the machine sees, on the wasmi backend.

    The concrete machine of the examples has a guest memory of mapped bytes
    beside the backend's, and floats with no fraction. *)
(** * Compiling, then calling *)
Section spec.
Context {G : Type} `{Softmmu G} (gm_inv : G → Prop) `{!ApartMemory G gm_inv}.
Context `{Arch} `{Floats} `{!FloatLaws} `{Escapes G} (accepts : Module → bool).
Implicit Types (j : WasmiJit) (c : Cpu G).

Lemma compile_owns m j j' h :
  compile accepts m j = (j', Some h) → zlen (w_instances j) < 2 ^ 32 → wasmi_owns j' h m.
Proof.
  unfold compile, wasmi_owns, instance. destruct (accepts m); [|done]. intros [= <- <-] Hlen. cbn [w_instances].
  unfold wrap, zlen in *. rewrite Z.mod_small, getz_nat by lia.
  by rewrite lookup_app_r, Nat.sub_diag by done.
Qed.

(** C6. A block the translator accepts, compiled and called on the wasmi backend,
    leaves the registers (the program counter apart), guest memory and the
    exception as interpreting the block leaves them, and reports the operation the
    interpreter stops at. The counters (fuel, instruction count, position, pending
    exception) stay as they were before the call, for the machine to charge. The
    operations are those of [inst_ok]: constants that fit their width, 16-byte
    outputs that do not overlap an input half-way, extensions that widen, constant
    markers, exceptions that raise; compiled code differs from the interpreter
    outside them. *)
Theorem compiled_block_runs_as_interpreted l m j j' h c c' r :
  translate_block l = Ok m → compile accepts m j = (j', Some h) → zlen (w_instances j) < 2 ^ 32 →
  Forall inst_ok l → zlen l ≤ 2 ^ 32 → gm_inv (c_mem c) → invalid_tlb (c_mem c) → exc_code (c_exc c) = 0 →
  count_instructions l ≤ remaining (c_fuel c) → Interp.interpret_block l 0 c = Some (c', r) →
  ∃ c1, call h c j' = Some (j', c1, match r with Some k => Faulted k | None => Completed end) ∧ ran_as c c' c1.
Proof.
  intros Hm Hj Hlen Hok Hl Hg Ht He Hf Hr.
  destruct (wasmi_call gm_inv j' h m l c c' r (compile_owns _ _ _ _ Hj Hlen) Hm Hok Hl (conj Hg Ht) He Hf Hr) as (c1 & Hc & Hran & _).
  by exists c1.
Qed.

(** A self-loop compiled as a region and called with a budget of turns leaves
    what interpreting its block turn by turn leaves, and reports how many whole
    turns ran and the instruction a turn stopped at. *)
Theorem compiled_region_runs_as_interpreted l cond m j j' h c c' t r max :
  translate_region l cond = Ok m → compile accepts m j = (j', Some h) → zlen (w_instances j) < 2 ^ 32 →
  Forall inst_ok l → zlen l ≤ 2 ^ 32 → cond_ok (cond_var cond) → gm_inv (c_mem c) → invalid_tlb (c_mem c) →
  exc_code (c_exc c) = 0 → 1 ≤ max < 2 ^ 64 → max * count_instructions l ≤ remaining (c_fuel c) →
  interpret_turns (Z.to_nat max) l (cond_var cond) c = Some (c', t, r) →
  0 ≤ t ≤ max ∧
  ∃ c1, call_region h c max j' = Some (j', c1, match r with Some k => RegionFaulted t k | None => Ran t end) ∧ ran_as c c' c1.
Proof.
  intros Hm Hj Hlen Hok Hl Hcond Hg Ht He Hmax Hf Hr.
  destruct (wasmi_region gm_inv j' h m l cond c c' t r max (compile_owns _ _ _ _ Hj Hlen) Hm Hok Hl Hcond (conj Hg Ht) He Hmax Hf Hr)
    as (Hle & c1 & Hc & Hran & _).
  split; [done|]. by exists c1.
Qed.
End spec.

(** * A concrete machine *)
Module Sample.
Record Memory := { guest : gmap Z Z; host : gmap Z Z }.
Fixpoint load (m : gmap Z Z) (a : Z) (n : nat) : option bytes :=
  match n with O => Some [] | S n => b ← m !! a; l ← load m (a + 1) n; Some (b mod 256 :: l) end.
Fixpoint store (m : gmap Z Z) (a : Z) (l : bytes) : gmap Z Z :=
  match l with [] => m | b :: l => store (<[a := b]> m) (a + 1) l end.
Definition ReadUnmapped : Z := 513.
Definition WriteUnmapped : Z := 769.
#[export] Instance memory : Softmmu Memory := {
  mmu_read g a n := (g, match load (guest g) a (Z.to_nat n) with Some l => inl l | None => inr ReadUnmapped end);
  mmu_write g a l :=
    match load (guest g) a (length l) with
    | Some _ => ({| guest := store (guest g) a l; host := host g |}, None)
    | None => (g, Some WriteUnmapped)
    end;
  host_byte g k := default 255 (host g !! k);
  host_set g k b := {| guest := guest g; host := <[k := b]> (host g) |}
}.
Definition any (g : Memory) : Prop := True.
Lemma load_bytes m a n l : load m a n = Some l → byte_list l ∧ length l = n.
Proof.
  revert a l. induction n as [|n IH]; intros a l E; cbn in E.
  - injection E as <-. by split; [apply Forall_nil|].
  - apply bind_Some in E as (b & _ & E). apply bind_Some in E as (l' & Hl & [= <-]). destruct (IH _ _ Hl) as [Hb Hn].
    split; [|cbn; congruence]. apply Forall_cons. split; [|done]. apply Z.mod_pos_bound. lia.
Qed.
#[export] Instance memory_laws : ApartMemory Memory any.
Proof.
  split; try done.
  - intros g a n g' l _ Hn E. cbn in E. destruct (load _ _ _) as [l'|] eqn:El; [|done]. simplify_eq.
    apply load_bytes in El as [Hb Hl]. split; [done|]. apply bool_decide_eq_true in Hn. unfold zlen. set_unfold. lia.
  - intros g a n g' code _ E. cbn in E. by destruct (load _ _ _); simplify_eq.
  - intros g a l g' code _ E. cbn in E. by destruct (load _ _ _); simplify_eq.
  - intros g a n g' r k E. cbn in E. by simplify_eq.
  - intros g a l g' r k E. cbn in E. by destruct (load _ _ _); simplify_eq.
Qed.
(** Positive patterns compare as integers; the others are no numbers. *)
Definition nan (x : Z) : bool := (x <? 0) || (2 ^ 63 <=? x).
#[export] Instance floats : Floats := {
  fl_add _ x y := Z.max x y; fl_sub _ x y := Z.min x y; fl_mul _ x _ := x; fl_div _ x _ := x; fl_neg _ x := x; fl_abs _ x := x;
  fl_sqrt _ x := x; fl_ceil _ x := x; fl_floor _ x := x; fl_round _ x := x;
  fl_eq _ x y := negb (nan x) && negb (nan y) && (x =? y);
  fl_lt _ x y := negb (nan x) && negb (nan y) && (x <? y);
  fl_le _ x y := negb (nan x) && negb (nan y) && (x <=? y);
  fl_is_nan _ := nan; fl_of_int _ x := x; fl_promote x := x; fl_demote x := x;
  fl_int _ x := if x <? F64_2_31 then 0 else if x <? F64_2_63 then 2 ^ 31 else 2 ^ 63
}.
#[export] Instance float_laws : FloatLaws.
Proof.
  split; cbn; intros; unfold nan.
  - rewrite Z.eqb_refl, andb_true_r. by destruct (_ || _).
  - unfold F64_2_31, F64_2_63. destruct (Z.ltb_spec x 4746794007248502784), (Z.ltb_spec x 4890909195324358656); cbn; lia.
  - unfold F64_2_31, F64_2_63. destruct (Z.ltb_spec x 4746794007248502784), (Z.ltb_spec x 4890909195324358656); cbn; lia.
Qed.
#[export] Instance arch : Arch := { reg_pc := var_new 1 8 }.
#[export] Instance no_escapes : Escapes Memory := { escape _ c := c }.

Definition r2 : VarNode := var_new 2 8.
Definition r3 : VarNode := var_new 3 8.
Definition flag : VarNode := var_new 4 1.
Definition nil_var : VarNode := var_new 0 0.
Definition marker (addr : Z) : Inst :=
  {| i_op := Op.InstructionMarker; i_a := Const addr 8; i_b := Const 4 8; i_out := nil_var |}.
Definition inst (o : Op.op) (a b : Value) (out : VarNode) : Inst := {| i_op := o; i_a := a; i_b := b; i_out := out |}.
(** Two instructions: a sum stored, then a load of what is not mapped. *)
Definition faulting : list Inst :=
  [marker 4096; inst Op.IntAdd (Var r2) (Const 5 8) r2; inst (Op.Store RAM_SPACE) (Const 256 8) (Var r2) nil_var;
   marker 4100; inst (Op.Load RAM_SPACE) (Const 64 8) (Const 0 0) r3; inst Op.Copy (Var r3) (Const 0 0) r2].
(** A count down to zero. *)
Definition countdown : list Inst :=
  [marker 4096; inst Op.IntSub (Var r2) (Const 1 8) r2; inst Op.IntNotEqual (Var r2) (Const 0 8) flag].
Definition mem : Memory := {| guest := store ∅ 256 (replicate 16 0); host := ∅ |}.
Definition cpu (x : Z) : Cpu Memory :=
  {| c_regs := write ∅ r2 8 x; c_mem := mem; c_exc := {| exc_code := 0; exc_value := 0 |}; c_pending := None;
     c_fuel := {| remaining := 1000; start := 1000 |}; c_icount := 0; c_block := 7; c_offset := 0 |}.
Definition no_jit : WasmiJit := {| w_instances := [] |}.
Definition accept (_ : Module) : bool := true.
Definition after {A} (c : Cpu Memory) (r : option (Cpu Memory * A)) : Cpu Memory := match r with Some (c, _) => c | None => c end.
Definition compiled (r : res () Module) : Module := match r with Ok m => m | _ => module_of [] [] false [] [] end.
Definition block_module : Module := compiled (translate_block faulting).
Definition loop_module : Module := compiled (translate_region countdown (Some (Var flag))).
Definition holding (m : Module) : WasmiJit := {| w_instances := [Some m] |}.
Lemma var_ok_at v : 0 ≤ v_size v → 0 ≤ v_id v < 4096 → v_id v = 0 ∨ 2 ≤ v_id v → v_offset v = 0 → v_size v ≤ 16 → var_ok v.
Proof.
  intros Hs Hi Hv Ho Hz. unfold var_ok, regs_var_offset, REG_OFFSET, REG_SPACE_BYTES. rewrite Ho. split_and!; [lia..|].
  intros k Hk [Hp Hq]. unfold pc_offset, regs_var_offset, REG_OFFSET in *. cbn in Hp, Hq. lia.
Qed.
Ltac operands := first [by split | by apply var_ok_at; cbn; lia | split; [done|]; intros; done].
Ltac insts := repeat (apply Forall_cons; split; [split_and!; operands|]); apply Forall_nil; done.
Lemma faulting_ok : Forall inst_ok faulting.
Proof. insts. Qed.
Lemma countdown_ok : Forall inst_ok countdown.
Proof. insts. Qed.
Lemma tlb_clear : invalid_tlb mem.
Proof. by intros k _. Qed.
End Sample.
Import Sample.

Lemma compiled_block_runs_as_interpreted_witness :
  ∃ c1, call 0 (cpu 37) (holding block_module) = Some (holding block_module, c1, Faulted 4) ∧
        ran_as (cpu 37) (after (cpu 37) (Interp.interpret_block faulting 0 (cpu 37))) c1.
Proof.
  apply (compiled_block_runs_as_interpreted any accept faulting block_module no_jit (holding block_module) 0 (cpu 37)
    (after (cpu 37) (Interp.interpret_block faulting 0 (cpu 37))) (Some 4)); [by vm_compute..|exact faulting_ok|done|done|exact tlb_clear|done| |].
  - by vm_compute.
  - by vm_compute.
Defined.
Lemma compiled_region_runs_as_interpreted_witness :
  ∃ c1, call_region 0 (cpu 5) 100 (holding loop_module) = Some (holding loop_module, c1, Ran 5) ∧
        ran_as (cpu 5) (match interpret_turns 100 countdown (Some flag) (cpu 5) with Some (c, _, _) => c | None => cpu 5 end) c1.
Proof.
  apply (compiled_region_runs_as_interpreted any accept countdown (Some (Var flag)) loop_module no_jit (holding loop_module) 0 (cpu 5)
    (match interpret_turns 100 countdown (Some flag) (cpu 5) with Some (c, _, _) => c | None => cpu 5 end) 5 None 100);
    [by vm_compute..|exact countdown_ok|done| |done|exact tlb_clear|done|done|by vm_compute|by vm_compute].
  split; [apply var_ok_at; cbn; lia|done].
Defined.
