(* ===== verification/VmTrace.v ===== *)
(** What the dispatch loop decides with: the budget of compiled code, loops and
    traces, and the instructions that ran. *)

From stdpp Require Import sorting.
From S2P Require Import Prelude Cpu Pcode Wasm Jit JitSim Backend.

(** The budget of compiled code ([JitBudget], [crates/x64-engine/src/vm.rs]): how
    much the backend holds, and which handles go first when it must hold less.

    The maps of handles are the caches the machine dispatches from: a handle a
    cache names is one the backend holds. *)
Record JitEntry := { e_key : Z; e_region : bool; e_bytes : Z; e_epoch : Z }.
Record TraceMeta := { tm_resumes : list TraceResume; tm_sites : list (Z * Z); tm_blocks : list Z }.
Record JitBudget := {
  j_meta : gmap Z JitEntry; j_total : Z; j_budget : Z; j_epoch : Z; j_compiles : Z; j_evictions : Z; j_hits : Z; j_peak : Z
}.
Record JitCodeStats := {
  cs_total : Z; cs_peak : Z; cs_budget : Z; cs_live : Z; cs_compiles : Z; cs_evictions : Z; cs_hits : Z
}.
Definition default_budget : JitBudget :=
  {| j_meta := ∅; j_total := 0; j_budget := 0; j_epoch := 0; j_compiles := 0; j_evictions := 0; j_hits := 0; j_peak := 0 |}.
(** [jit_cache], [jit_region_cache] and [jit_trace_meta]; [None] is a block known
    not to translate. *)
Record Caches := { c_blocks : gmap Z (option Z); c_regions : gmap Z (option Z); c_traces : gmap Z TraceMeta }.
Definition no_caches : Caches := {| c_blocks := ∅; c_regions := ∅; c_traces := ∅ |}.
Definition with_blocks (m : gmap Z (option Z)) (x : Caches) : Caches :=
  {| c_blocks := m; c_regions := c_regions x; c_traces := c_traces x |}.
Definition with_regions (m : gmap Z (option Z)) (x : Caches) : Caches :=
  {| c_blocks := c_blocks x; c_regions := m; c_traces := c_traces x |}.
Definition with_traces (m : gmap Z TraceMeta) (x : Caches) : Caches :=
  {| c_blocks := c_blocks x; c_regions := c_regions x; c_traces := m |}.

(** The entry of least [last_epoch], the first of equals. *)
Definition older (x y : Z * JitEntry) : Z * JitEntry := if e_epoch y.2 <? e_epoch x.2 then y else x.
Definition least_recent (m : gmap Z JitEntry) : option (Z * JitEntry) :=
  match map_to_list m with [] => None | x :: l => Some (foldl older x l) end.
Definition drop_handle (h key : Z) (m : gmap Z (option Z)) : gmap Z (option Z) :=
  if bool_decide (m !! key = Some (Some h)) then delete key m else m.
Definition forget (h : Z) (e : JitEntry) (x : Caches) : Caches :=
  if e_region e then with_traces (delete (e_key e) (c_traces x)) (with_regions (drop_handle h (e_key e) (c_regions x)) x)
  else with_blocks (drop_handle h (e_key e) (c_blocks x)) x.
Definition remove_entry (h : Z) (e : JitEntry) (b : JitBudget) : JitBudget :=
  {| j_meta := delete h (j_meta b); j_total := Z.max 0 (j_total b - e_bytes e); j_budget := j_budget b; j_epoch := j_epoch b;
     j_compiles := j_compiles b; j_evictions := j_evictions b + 1; j_hits := j_hits b; j_peak := j_peak b |}.

Section budget.
Context {J G : Type} `{JitBackend J G}.
(** One turn of the loop per live handle, at most. *)
Fixpoint evict_until (fuel : nat) (incoming : Z) (b : JitBudget) (j : J) (x : Caches) : JitBudget * J * Caches :=
  if j_total b + incoming <=? j_budget b then (b, j, x)
  else match fuel, least_recent (j_meta b) with
       | S fuel, Some (h, e) => evict_until fuel incoming (remove_entry h e b) (jit_evict h j) (forget h e x)
       | _, _ => (b, j, x)
       end.
Definition make_room (incoming : Z) (b : JitBudget) (j : J) (x : Caches) : JitBudget * J * Caches :=
  if j_budget b =? 0 then (b, j, x) else evict_until (size (j_meta b)) incoming b j x.
Definition record (h key : Z) (is_region : bool) (bytes : Z) (b : JitBudget) : JitBudget :=
  {| j_meta := <[h := {| e_key := key; e_region := is_region; e_bytes := wrap 32 bytes; e_epoch := j_epoch b + 1 |}]> (j_meta b);
     j_total := j_total b + bytes; j_budget := j_budget b; j_epoch := j_epoch b + 1; j_compiles := j_compiles b + 1;
     j_evictions := j_evictions b; j_hits := j_hits b; j_peak := Z.max (j_peak b) (j_total b + bytes) |}.
Definition touch (h : Z) (b : JitBudget) : JitBudget :=
  let epoch := j_epoch b + 1 in
  let touched e := {| e_key := e_key e; e_region := e_region e; e_bytes := e_bytes e; e_epoch := epoch |} in
  {| j_meta := alter touched h (j_meta b); j_total := j_total b; j_budget := j_budget b; j_epoch := epoch;
     j_compiles := j_compiles b; j_evictions := j_evictions b; j_hits := j_hits b + 1; j_peak := j_peak b |}.
Definition clear (b : JitBudget) (j : J) : JitBudget * J :=
  ({| j_meta := ∅; j_total := 0; j_budget := j_budget b; j_epoch := j_epoch b; j_compiles := j_compiles b;
      j_evictions := j_evictions b; j_hits := j_hits b; j_peak := j_peak b |},
   foldl (λ j x, jit_evict x.1 j) j (map_to_list (j_meta b))).
Definition stats (b : JitBudget) : JitCodeStats :=
  {| cs_total := j_total b; cs_peak := j_peak b; cs_budget := j_budget b; cs_live := Z.of_nat (size (j_meta b));
     cs_compiles := j_compiles b; cs_evictions := j_evictions b; cs_hits := j_hits b |}.
End budget.

(** * What the budget keeps *)
Definition bytes_held (m : gmap Z JitEntry) : Z := map_fold (λ _ e n, e_bytes e + n) 0 m.
Record budget_ok (b : JitBudget) : Prop := {
  bk_total : j_total b = bytes_held (j_meta b);
  bk_bytes h e : j_meta b !! h = Some e → 0 ≤ e_bytes e;
  bk_epoch h e : j_meta b !! h = Some e → e_epoch e ≤ j_epoch b;
  bk_distinct h h' e e' : j_meta b !! h = Some e → j_meta b !! h' = Some e' → e_epoch e = e_epoch e' → h = h'
}.
(** A handle a cache names is one the backend holds for that block. *)
Record caches_ok (b : JitBudget) (x : Caches) : Prop := {
  ck_block k h : c_blocks x !! k = Some (Some h) → ∃ e, j_meta b !! h = Some e ∧ e_key e = k ∧ e_region e = false;
  ck_region k h : c_regions x !! k = Some (Some h) → ∃ e, j_meta b !! h = Some e ∧ e_key e = k ∧ e_region e = true
}.

Lemma bytes_held_delete m h e : m !! h = Some e → bytes_held m = e_bytes e + bytes_held (delete h m).
Proof. intros Hh. apply (map_fold_delete_L (λ _ e n, e_bytes e + n) 0 h e); [|done]. intros. lia. Qed.
Lemma bytes_held_insert m h e : m !! h = None → bytes_held (<[h := e]> m) = e_bytes e + bytes_held m.
Proof. intros Hh. apply (map_fold_insert_L (λ _ e n, e_bytes e + n) 0 h e); [|done]. intros. lia. Qed.
Lemma bytes_held_nonneg m : (∀ h e, m !! h = Some e → 0 ≤ e_bytes e) → 0 ≤ bytes_held m.
Proof.
  induction m as [|h e m Hh IH] using map_ind; intros Hm; [done|]. rewrite bytes_held_insert by done.
  pose proof (Hm h e (lookup_insert_eq _ _ _)). assert (0 ≤ bytes_held m); [|lia]. apply IH. intros k f Hk. apply (Hm k).
  by rewrite lookup_insert_ne by (intros ->; congruence).
Qed.
Lemma foldl_older x l :
  foldl older x l ∈ x :: l ∧ ∀ y, y ∈ x :: l → e_epoch (foldl older x l).2 ≤ e_epoch y.2.
Proof.
  revert x. induction l as [|z l IH]; intros x; cbn [foldl].
  - split; [set_solver|]. intros y Hy. assert (y = x) as -> by set_solver. lia.
  - destruct (IH (older x z)) as [Hin Hle]. split.
    + unfold older in *. destruct (_ <? _); set_solver.
    + assert (e_epoch (older x z).2 ≤ e_epoch x.2 ∧ e_epoch (older x z).2 ≤ e_epoch z.2) as [Hx Hz].
      { unfold older. destruct (_ <? _) eqn:E; lia. }
      pose proof (Hle (older x z) ltac:(set_solver)). intros y Hy. assert (y = x ∨ y = z ∨ y ∈ l) as [->|[->|Hl]] by set_solver;
        [lia|lia|]. apply Hle. set_solver.
Qed.
Lemma least_recent_Some m h e :
  least_recent m = Some (h, e) → m !! h = Some e ∧ ∀ h' e', m !! h' = Some e' → e_epoch e ≤ e_epoch e'.
Proof.
  unfold least_recent. destruct (map_to_list m) as [|x l] eqn:E; [done|]. intros [= Hx].
  destruct (foldl_older x l) as [Hin Hle]. rewrite Hx in Hin, Hle. rewrite <- E in Hin, Hle.
  split; [by apply elem_of_map_to_list|]. intros h' e' Hh'. apply (Hle (h', e')). by apply elem_of_map_to_list.
Qed.
Lemma least_recent_None m : least_recent m = None → m = ∅.
Proof. unfold least_recent. destruct (map_to_list m) eqn:E; [|done]. intros _. by apply map_to_list_empty_iff. Qed.

Section steps.
Context {J G : Type} `{JitBackend J G}.
Lemma remove_ok b h e : budget_ok b → j_meta b !! h = Some e → budget_ok (remove_entry h e b).
Proof.
  intros Hb Hh. split; cbn.
  - pose proof (bytes_held_delete _ _ _ Hh). pose proof (bk_total _ Hb). assert (0 ≤ bytes_held (delete h (j_meta b))); [|lia].
    apply bytes_held_nonneg. intros h' e' [_ ?]%lookup_delete_Some. by eapply bk_bytes.
  - intros h' e' [_ ?]%lookup_delete_Some. by eapply bk_bytes.
  - intros h' e' [_ ?]%lookup_delete_Some. by eapply bk_epoch.
  - intros h1 h2 e1 e2 [_ ?]%lookup_delete_Some [_ ?]%lookup_delete_Some. by eapply bk_distinct.
Qed.
Lemma drop_handle_Some h key m k h' : drop_handle h key m !! k = Some (Some h') → m !! k = Some (Some h') ∧ (k = key → h' ≠ h).
Proof.
  unfold drop_handle. case_bool_decide as E.
  - intros [Hk Hm]%lookup_delete_Some. split; [done|]. by intros ->.
  - intros Hm. split; [done|]. by intros -> ->.
Qed.
Lemma forget_ok b x h e :
  caches_ok b x → j_meta b !! h = Some e → caches_ok (remove_entry h e b) (forget h e x).
Proof.
  intros Hc Hh. unfold forget. split; intros k h' Hk; destruct (e_region e) eqn:Er; cbn in *.
  - destruct (ck_block _ _ Hc _ _ Hk) as (f & Hf & Ek & Ef). exists f. split; [|done].
    rewrite lookup_delete_ne; [done|]. intros ->. congruence.
  - apply drop_handle_Some in Hk as [Hk Hne]. destruct (ck_block _ _ Hc _ _ Hk) as (f & Hf & Ek & Ef). exists f. split; [|done].
    rewrite lookup_delete_ne; [done|]. intros ->. rewrite Hh in Hf. injection Hf as <-. by apply Hne.
  - apply drop_handle_Some in Hk as [Hk Hne]. destruct (ck_region _ _ Hc _ _ Hk) as (f & Hf & Ek & Ef). exists f. split; [|done].
    rewrite lookup_delete_ne; [done|]. intros ->. rewrite Hh in Hf. injection Hf as <-. by apply Hne.
  - destruct (ck_region _ _ Hc _ _ Hk) as (f & Hf & Ek & Ef). exists f. split; [|done].
    rewrite lookup_delete_ne; [done|]. intros ->. congruence.
Qed.
Lemma evict_until_ok fuel incoming b (j : J) x b' j' x' :
  budget_ok b → caches_ok b x → (size (j_meta b) ≤ fuel)%nat → evict_until fuel incoming b j x = (b', j', x') →
  budget_ok b' ∧ caches_ok b' x' ∧ (j_total b' + incoming ≤ j_budget b ∨ j_meta b' = ∅) ∧ j_meta b' ⊆ j_meta b ∧
  j_budget b' = j_budget b ∧
  ∀ h e h' e', j_meta b' !! h = Some e → j_meta b !! h' = Some e' → j_meta b' !! h' = None → e_epoch e' < e_epoch e.
Proof.
  revert b j x. induction fuel as [|fuel IH]; intros b j x Hb Hc Hsize He; cbn in He.
  - assert (j_meta b = ∅) as Hm by (apply map_size_empty_iff; lia).
    destruct (_ <=? _) eqn:E; injection He as <- <- <-; (split_and!; [done|done|by right|done|done|]);
      intros h e h' e' _ Hh; rewrite Hm in Hh; by rewrite lookup_empty in Hh.
  - destruct (_ <=? _) eqn:E.
    { injection He as <- <- <-. split_and!; [done|done|left; lia|done|done|]. intros. congruence. }
    destruct (least_recent (j_meta b)) as [[h e]|] eqn:El.
    2:{ injection He as <- <- <-. split_and!; [done|done|right; by apply least_recent_None|done|done|]. intros. congruence. }
    apply least_recent_Some in El as [Hh Hleast].
    assert (size (j_meta (remove_entry h e b)) ≤ fuel)%nat as Hs.
    { cbn. pose proof (map_size_delete_Some h (j_meta b) ltac:(by eexists)). rewrite H0. lia. }
    destruct (IH _ _ _ (remove_ok _ _ _ Hb Hh) (forget_ok _ _ _ _ Hc Hh) Hs He) as (Hb' & Hc' & Hfit & Hsub & Hbud & Hlru).
    cbn in Hsub, Hbud, Hlru. split_and!; [done|done|done|etrans; [done|apply delete_subseteq]|done|].
    intros k f k' f' Hk Hk' Hnone. destruct (decide (k' = h)) as [->|Hne].
    + rewrite Hh in Hk'. injection Hk' as <-. pose proof (lookup_weaken _ _ _ _ Hk Hsub) as Hk0.
      apply lookup_delete_Some in Hk0 as [Hkh Hk0]. pose proof (Hleast _ _ Hk0). destruct (decide (e_epoch e = e_epoch f)) as [Ee|]; [|lia].
      destruct Hkh. exact (bk_distinct _ Hb _ _ _ _ Hh Hk0 Ee).
    + eapply Hlru; [exact Hk| |exact Hnone]. by rewrite lookup_delete_ne.
Qed.
Lemma make_room_ok incoming b (j : J) x b' j' x' :
  budget_ok b → caches_ok b x → make_room incoming b j x = (b', j', x') → budget_ok b' ∧ caches_ok b' x'.
Proof.
  intros Hb Hc Hm. unfold make_room in Hm. destruct (_ =? 0); [by injection Hm as <- <- <-|].
  by destruct (evict_until_ok _ _ _ _ _ _ _ _ Hb Hc (Nat.le_refl _) Hm) as (? & ? & _).
Qed.
(** A handle just compiled is not yet live; its module is smaller than 4 GB. *)
Lemma record_ok h key is_region bytes b :
  budget_ok b → j_meta b !! h = None → 0 ≤ bytes < 2 ^ 32 → budget_ok (record h key is_region bytes b).
Proof.
  intros Hb Hh Hbytes. split; cbn.
  - rewrite bytes_held_insert by done. cbn. rewrite wrap_id by done. pose proof (bk_total _ Hb). lia.
  - intros h' e'. rewrite lookup_insert_Some. intros [[<- <-]|[_ ?]]; [cbn; rewrite wrap_id by done; lia|by eapply bk_bytes].
  - intros h' e'. rewrite lookup_insert_Some. intros [[<- <-]|[_ He]]; [cbn; lia|]. pose proof (bk_epoch _ Hb _ _ He). lia.
  - intros h1 h2 e1 e2. rewrite !lookup_insert_Some. intros [[<- <-]|[_ H1]] [[<- <-]|[_ H2]] Ee; cbn in Ee.
    + done.
    + pose proof (bk_epoch _ Hb _ _ H2). lia.
    + pose proof (bk_epoch _ Hb _ _ H1). lia.
    + by eapply bk_distinct.
Qed.
Definition install (h key : Z) (is_region : bool) (x : Caches) : Caches :=
  if is_region then with_regions (<[key := Some h]> (c_regions x)) x else with_blocks (<[key := Some h]> (c_blocks x)) x.
Lemma install_caches_ok h key is_region bytes b x :
  caches_ok b x → j_meta b !! h = None → caches_ok (record h key is_region bytes b) (install h key is_region x).
Proof.
  intros Hc Hh. assert (∀ k e, j_meta b !! k = Some e → j_meta (record h key is_region bytes b) !! k = Some e) as Hkeep.
  { intros k e Hk. cbn. rewrite lookup_insert_ne; [done|]. intros ->. congruence. }
  unfold install. split; intros k h' Hk; destruct is_region; cbn in Hk.
  - destruct (ck_block _ _ Hc _ _ Hk) as (e & He & ?). exists e. auto.
  - apply lookup_insert_Some in Hk as [[<- [= <-]]|[_ Hk]]; [eexists; split; [apply lookup_insert_eq|done]|].
    destruct (ck_block _ _ Hc _ _ Hk) as (e & He & ?). exists e. auto.
  - apply lookup_insert_Some in Hk as [[<- [= <-]]|[_ Hk]]; [eexists; split; [apply lookup_insert_eq|done]|].
    destruct (ck_region _ _ Hc _ _ Hk) as (e & He & ?). exists e. auto.
  - destruct (ck_region _ _ Hc _ _ Hk) as (e & He & ?). exists e. auto.
Qed.
Lemma touch_ok h b x : budget_ok b → caches_ok b x → budget_ok (touch h b) ∧ caches_ok (touch h b) x.
Proof.
  intros Hb Hc. set (touched := λ e, {| e_key := e_key e; e_region := e_region e; e_bytes := e_bytes e; e_epoch := j_epoch b + 1 |}).
  assert (∀ k e, j_meta (touch h b) !! k = Some e → ∃ f, j_meta b !! k = Some f ∧ e_key f = e_key e ∧ e_region f = e_region e ∧
    e_bytes f = e_bytes e ∧ e_epoch e = if bool_decide (k = h) then j_epoch b + 1 else e_epoch f) as Hback.
  { intros k e. cbn. rewrite lookup_alter_Some. intros [(<- & f & Hf & ->)|[Hne Hk]].
    - exists f. by rewrite bool_decide_true.
    - exists e. by rewrite bool_decide_false by congruence. }
  assert (∀ k e, j_meta b !! k = Some e → ∃ f, j_meta (touch h b) !! k = Some f ∧ e_key f = e_key e ∧ e_region f = e_region e) as Hfwd.
  { intros k e Hk. cbn. destruct (decide (h = k)) as [<-|Hne].
    - exists (touched e). rewrite lookup_alter_eq, Hk. done.
    - exists e. by rewrite lookup_alter_ne. }
  assert (bytes_held (j_meta (touch h b)) = bytes_held (j_meta b)) as Hheld.
  { cbn. destruct (j_meta b !! h) as [e|] eqn:Eh.
    - rewrite (bytes_held_delete (alter _ _ _) h (touched e)) by (by rewrite lookup_alter_eq, Eh).
      rewrite delete_alter_eq, (bytes_held_delete _ _ _ Eh). done.
    - f_equal. apply map_eq. intros k. destruct (decide (h = k)) as [<-|]; [by rewrite lookup_alter_eq, Eh|by rewrite lookup_alter_ne]. }
  split; [split|split].
  - rewrite Hheld. apply (bk_total _ Hb).
  - intros k e (f & Hf & _ & _ & <- & _)%Hback. by eapply bk_bytes.
  - intros k e (f & Hf & _ & _ & _ & ->)%Hback. pose proof (bk_epoch _ Hb _ _ Hf). cbn. case_bool_decide; lia.
  - intros k k' e e' (f & Hf & _ & _ & _ & Ee)%Hback (f' & Hf' & _ & _ & _ & Ee')%Hback E. rewrite Ee, Ee' in E.
    pose proof (bk_epoch _ Hb _ _ Hf). pose proof (bk_epoch _ Hb _ _ Hf').
    case_bool_decide; case_bool_decide; [congruence|lia|lia|by eapply bk_distinct].
  - intros k h' Hk. destruct (ck_block _ _ Hc _ _ Hk) as (e & He & Ek & Er). destruct (Hfwd _ _ He) as (f & Hf & Efk & Efr).
    exists f. by rewrite Efk, Efr.
  - intros k h' Hk. destruct (ck_region _ _ Hc _ _ Hk) as (e & He & Ek & Er). destruct (Hfwd _ _ He) as (f & Hf & Efk & Efr).
    exists f. by rewrite Efk, Efr.
Qed.

(** * Everything the machine does with the budget *)
Inductive budget_step : JitBudget * J * Caches → JitBudget * J * Caches → Prop :=
| step_room incoming b j x : budget_step (b, j, x) (make_room incoming b j x)
| step_record h key is_region bytes b j j' x :
    j_meta b !! h = None → 0 ≤ bytes < 2 ^ 32 →
    budget_step (b, j, x) (record h key is_region bytes b, j', install h key is_region x)
| step_trace key meta b j x : budget_step (b, j, x) (b, j, with_traces (<[key := meta]> (c_traces x)) x)
| step_bail_block key b j x :
    c_blocks x !! key = None → budget_step (b, j, x) (b, j, with_blocks (<[key := None]> (c_blocks x)) x)
| step_bail_region key b j x :
    c_regions x !! key = None → budget_step (b, j, x) (b, j, with_regions (<[key := None]> (c_regions x)) x)
| step_touch h b j x : budget_step (b, j, x) (touch h b, j, x)
| step_clear b j x : budget_step (b, j, x) (clear b j, no_caches)
| step_limit n b j x :
    budget_step (b, j, x) ({| j_meta := j_meta b; j_total := j_total b; j_budget := n; j_epoch := j_epoch b; j_compiles := j_compiles b;
      j_evictions := j_evictions b; j_hits := j_hits b; j_peak := j_peak b |}, j, x).
Lemma budget_step_ok y y' :
  budget_step y y' → budget_ok y.1.1 → caches_ok y.1.1 y.2 → budget_ok y'.1.1 ∧ caches_ok y'.1.1 y'.2.
Proof.
  destruct 1 as [incoming b j x|h key is_region bytes b j j' x Hh Hbytes|key meta b j x|key b j x Hk|key b j x Hk|h b j x|b j x|n b j x];
    intros Hb Hc; cbn [fst snd] in *.
  - destruct (make_room incoming b j x) as [[b' j'] x'] eqn:E. by eapply make_room_ok.
  - split; [by apply record_ok|by apply install_caches_ok].
  - split; [done|]. by destruct Hc as [Hc1 Hc2].
  - split; [done|]. destruct Hc as [Hc1 Hc2]. split; cbn; [|done]. intros k h. rewrite lookup_insert_Some. naive_solver.
  - split; [done|]. destruct Hc as [Hc1 Hc2]. split; cbn; [done|]. intros k h. rewrite lookup_insert_Some. naive_solver.
  - by apply touch_ok.
  - split; split; cbn; try done; intros *; rewrite ?lookup_empty; done.
  - split; [by destruct Hb|by destruct Hc].
Qed.
End steps.

(** C23. The budget of compiled code counts exactly the bytes of the live
    handles, with distinct recencies, and a handle a dispatch cache names is live
    for that block and that kind: after any sequence of evictions, compilations,
    bails, uses, flushes and budget changes, the machine never dispatches to
    evicted code. *)
Theorem budget_reachable {J G} `{JitBackend J G} (j : J) y :
  rtc budget_step (default_budget, j, no_caches) y → budget_ok y.1.1 ∧ caches_ok y.1.1 y.2.
Proof.
  intros Hr. assert (budget_ok default_budget ∧ caches_ok default_budget no_caches) as Hinit.
  { split; split; cbn; try done; intros *; rewrite ?lookup_empty; done. }
  remember (default_budget, j, no_caches) as y0 eqn:E0.
  assert (budget_ok y0.1.1 ∧ caches_ok y0.1.1 y0.2) as H0 by (by rewrite E0). clear E0 Hinit.
  induction Hr as [y|y0 y1 y2 Hs _ IH]; [done|]. apply IH. by apply budget_step_ok in Hs; [|apply H0..].
Qed.

(** Making room under a budget evicts until the incoming code fits or nothing
    is left, keeps the accounting and the caches right, and evicts only handles
    used less recently than every handle it keeps. *)
Theorem make_room_evicts_least_recent {J G} `{JitBackend J G} incoming b (j : J) x b' j' x' :
  budget_ok b → caches_ok b x → j_budget b ≠ 0 → make_room incoming b j x = (b', j', x') →
  budget_ok b' ∧ caches_ok b' x' ∧ (j_total b' + incoming ≤ j_budget b ∨ j_meta b' = ∅) ∧ j_meta b' ⊆ j_meta b ∧
  ∀ h e h' e', j_meta b' !! h = Some e → j_meta b !! h' = Some e' → j_meta b' !! h' = None → e_epoch e' < e_epoch e.
Proof.
  intros Hb Hc Hn Hm. unfold make_room in Hm. replace (_ =? 0) with false in Hm by lia.
  destruct (evict_until_ok _ _ _ _ _ _ _ _ Hb Hc (Nat.le_refl _) Hm) as (? & ? & ? & ? & _ & ?). by split_and!.
Qed.

(** The helpers of the dispatch loop ([crates/x64-engine/src/vm.rs]): which blocks
    loop, which chains of blocks close into a trace, which guest instructions ran,
    and what the interpreter would have counted when compiled code stops.

    [None], and [Panic] where a translation is asked for, is a panic: a marker
    whose address is not a constant. *)
Definition as_u64 (v : Value) : option Z := match v with Const c _ => Some c | Var _ => None end.

(** * Loops and traces *)
Definition resolves_to_self (b : Block) (block_id : Z) (t : Target) : bool :=
  match t with
  | TInternal id => id =? block_id
  | TExternal (Const addr _) => addr =? b_start b
  | _ => false
  end.
Definition self_loop_kind (b : Block) (block_id : Z) : option (option Value) :=
  match b_exit b with
  | Branch cond target _ => if resolves_to_self b block_id target then Some (Some cond) else None
  | Jump target => if resolves_to_self b block_id target then Some None else None
  | _ => None
  end.

Section trace.
Context (blocks : list Block) (header : Z) (resolve_external : Z → option Z).
Definition MAX_BLOCKS : Z := 8.
Definition in_group (t : Target) : option Z :=
  match t with
  | TInternal b => if b <? zlen blocks then Some b else None
  | TExternal (Const addr _) => resolve_external addr
  | _ => None
  end.
Definition has_static_addr (t : Target) : bool :=
  match t with
  | TInternal b => b <? zlen blocks
  | TExternal (Const _ _) => true
  | _ => false
  end.
(** An unvisited successor that is not the header. *)
Definition fresh_succ (order : list Z) (t : option Z) : option Z :=
  n ← t; if negb (n =? header) && bool_decide (n ∉ order) then Some n else None.
(** [order] holds the blocks seen so far. *)
Fixpoint select_from (fuel : nat) (order : list Z) (cur : Z) : res () (option (list Z)) :=
  match fuel with
  | O => Ok None
  | S fuel =>
      if MAX_BLOCKS <=? zlen order then Ok None
      else if bool_decide (cur ∈ order) then Ok None
      else
        let order := order ++ [cur] in
        match getz blocks cur with
        | None => Ok None
        | Some block =>
            let! bail := first_bail (b_code block) in
            if bool_decide (is_Some bail) then Ok None else
            match b_exit block with
            | Jump target =>
                match in_group target with
                | Some n =>
                    if n =? header then Ok (if 2 <=? zlen order then Some order else None)
                    else if bool_decide (n ∉ order) then select_from fuel order n else Ok None
                | None => Ok None
                end
            | Branch _ target fallthrough =>
                let (t_id, f_id) := (in_group target, in_group fallthrough) in
                if bool_decide (t_id = Some header) && has_static_addr fallthrough && (2 <=? zlen order) then Ok (Some order)
                else if bool_decide (f_id = Some header) && has_static_addr target && (2 <=? zlen order) then Ok (Some order)
                else match fresh_succ order f_id, has_static_addr target, fresh_succ order t_id, has_static_addr fallthrough with
                     | Some n, true, _, _ => select_from fuel order n
                     | _, _, Some n, true => select_from fuel order n
                     | _, _, _, _ => Ok None
                     end
            | _ => Ok None
            end
        end
  end.
Definition select_trace : res () (option (list Z)) := select_from (S (Z.to_nat MAX_BLOCKS)) [] header.
End trace.

(** * Which guest instructions ran *)
Abbreviation Tracking := (option (gset (Z * Z))).
(** The ranges of the markers in a slice of p-code. *)
Fixpoint marker_ranges (l : list Inst) : option (list (Z * Z)) :=
  match l with
  | [] => Some []
  | i :: l =>
      if is_marker i then a ← as_u64 (i_a i); n ← as_u64 (i_b i); r ← marker_ranges l; Some ((a, n) :: r) else marker_ranges l
  end.
Definition record_instruction_ranges (t : Tracking) (l : list Inst) (start : Z) (through : option Z) : option Tracking :=
  match t with
  | None => Some None
  | Some set =>
      let e := Z.min (match through with Some k => k + 1 | None => zlen l end) (zlen l) in
      if e <=? start then Some t
      else r ← marker_ranges (take (Z.to_nat (e - start)) (drop (Z.to_nat start) l)); Some (Some (list_to_set r ∪ set))
  end.
Definition cycle_length (blocks : list Block) (order : list Z) : Z :=
  foldl (λ n id, saturating_add64 n (match getz blocks id with Some b => b_count b | None => 0 end)) 0 order.
Fixpoint record_prefix (blocks : list Block) (order : list Z) (whole : bool) (left : Z) (t : Tracking) : option Tracking :=
  match order with
  | [] => Some t
  | id :: order =>
      match getz blocks id with
      | None => record_prefix blocks order whole left t
      | Some b =>
          if whole || (b_count b <=? left) then
            t ← record_instruction_ranges t (b_code b) 0 None;
            record_prefix blocks order whole (Z.max 0 (left - b_count b)) t
          else Some t
      end
  end.
Definition record_trace_instruction_ranges (t : Tracking) (blocks : list Block) (order : list Z) (retired : Z)
    (fault : option (Z * Z)) : option Tracking :=
  match t with
  | None => Some None
  | Some _ =>
      t ← record_prefix blocks order (cycle_length blocks order <=? retired) retired t;
      match fault with
      | Some (id, through) =>
          if bool_decide (id ∈ order) then
            match getz blocks id with
            | Some b => record_instruction_ranges t (b_code b) 0 (Some through)
            | None => Some t
            end
          else Some t
      | None => Some t
      end
  end.

(** The union of sorted ranges, one interval open at a time. *)
Fixpoint union_length (l : list (Z * Z)) (current : option (Z * Z)) (total : Z) : Z :=
  match l with
  | [] => match current with Some (s, e) => saturating_add64 total (e - s) | None => total end
  | (s, e) :: l =>
      match current with
      | Some (before, through) =>
          if s <=? through then union_length l (Some (before, Z.max through e)) total
          else union_length l (Some (s, e)) (saturating_add64 total (through - before))
      | None => union_length l (Some (s, e)) total
      end
  end.
Definition range_le (x y : Z * Z) : Prop := x.1 < y.1 ∨ x.1 = y.1 ∧ x.2 ≤ y.2.
#[global] Instance range_le_dec : RelDecision range_le.
Proof. intros x y. unfold range_le. apply _. Defined.
Definition ends_within (r : Z * Z) : option (Z * Z) := if r.1 + r.2 <=? U64_MAX then Some (r.1, r.1 + r.2) else None.
Definition executed_byte_count (t : Tracking) : Z :=
  match t with
  | None => 0
  | Some set => union_length (merge_sort range_le (omap ends_within (elements set))) None 0
  end.

(** * When compiled code stops *)
Fixpoint last_marker (l : list Inst) (pc : option Z) (n : Z) : option (option Z * Z) :=
  match l with
  | [] => Some (pc, n)
  | i :: l => if is_marker i then a ← as_u64 (i_a i); last_marker l (Some a) (n + 1) else last_marker l pc n
  end.
Definition fault_pc_and_fuel (l : list Inst) (fault_index : Z) : option (option Z * Z) :=
  match l with
  | [] => Some (None, 0)
  | _ => last_marker (take (S (Z.to_nat (Z.min fault_index (zlen l - 1)))) l) None 0
  end.
(** [block.pcode.address_of(offset)]: is there a marker before the offset? *)
Definition address_of (l : list Inst) (offset : Z) : option Z :=
  i ← last (filter (λ i, is_marker i) (take (Z.to_nat offset) l)); as_u64 (i_a i).
Definition adjust_cpu_fuel_for_block_reentry {G} (c : Cpu G) (b : Block) (offset : Z) (page_in_retry : bool) : Cpu G :=
  if page_in_retry then c
  else match address_of (b_code b) offset, getz (b_code b) offset with
       | Some _, Some i =>
           if is_marker i then c else with_remaining (saturating_sub (remaining (c_fuel c)) 1) c
       | _, _ => c
       end.

(** What the helpers of the dispatch loop promise: a selected trace is a closed
    chain of translatable blocks, and the count of executed bytes is the size of
    the union of the ranges that ran. *)
(** * Traces *)
Section trace.
Context (blocks : list Block) (header : Z) (resolve : Z → option Z).
Abbreviation in_group := (in_group blocks resolve).
Abbreviation has_static_addr := (has_static_addr blocks).
(** [n] follows the block [id], whose other way out has a known address. *)
Definition follows_block (id n : Z) : Prop :=
  ∃ b, getz blocks id = Some b ∧ first_bail (b_code b) = Ok None ∧
  match b_exit b with
  | Jump t => in_group t = Some n
  | Branch _ t f => in_group t = Some n ∧ has_static_addr f = true ∨ in_group f = Some n ∧ has_static_addr t = true
  | _ => False
  end.
Record chain (order : list Z) : Prop := {
  ch_nodup : NoDup order;
  ch_links k x y : order !! k = Some x → order !! S k = Some y → follows_block x y
}.
Lemma chain_snoc order cur :
  chain order → cur ∉ order → (∀ x, last order = Some x → follows_block x cur) → chain (order ++ [cur]).
Proof.
  intros [Hnd Hl] Hcur Hlast. split.
  - apply NoDup_app. split_and!; [done|set_solver|apply NoDup_singleton].
  - intros k x y Hx Hy. rewrite !lookup_app_Some in *. destruct Hy as [Hy|[Hk Hy]].
    + destruct Hx as [Hx|[Hk _]]; [by eapply Hl|]. apply lookup_lt_Some in Hy. lia.
    + assert (S k - length order = 0)%nat as Ek by (apply lookup_lt_Some in Hy; cbn in Hy; lia). rewrite Ek in Hy. injection Hy as <-.
      destruct Hx as [Hx|[Hk' Hx]]; [|lia]. apply Hlast. rewrite last_lookup. by replace (pred (length order)) with k by lia.
Qed.
Lemma fresh_succ_Some order t n : fresh_succ header order t = Some n → t = Some n ∧ n ≠ header ∧ n ∉ order.
Proof.
  unfold fresh_succ. intros (m & Hm & Hn)%bind_Some. destruct (_ && _) eqn:E; [|done]. injection Hn as <-.
  apply andb_true_iff in E as [E1 E2]. apply bool_decide_eq_true in E2. apply negb_true_iff, Z.eqb_neq in E1. done.
Qed.
Lemma select_from_chain fuel order cur r :
  chain order → (∀ x, head order = Some x → x = header) → (order = [] → cur = header) →
  (∀ x, last order = Some x → follows_block x cur) → select_from blocks header resolve fuel order cur = Ok (Some r) →
  chain r ∧ head r = Some header ∧ 2 ≤ zlen r ≤ MAX_BLOCKS ∧ ∃ x, last r = Some x ∧ follows_block x header.
Proof.
  revert order cur. induction fuel as [|fuel IH]; intros order cur Hch Hhd Hcur Hlast Hs; [done|]. cbn in Hs.
  destruct (MAX_BLOCKS <=? zlen order) eqn:Elen; [done|]. case_bool_decide as Ein; [done|].
  destruct (getz blocks cur) as [b|] eqn:Eb; [|done]. apply rbind_Ok in Hs as (bail & Hbail & Hs).
  case_bool_decide as Hnb; [done|]. assert (bail = None) as -> by (by destruct bail; [destruct Hnb; eexists|]).
  set (order' := order ++ [cur]) in *. pose proof (chain_snoc _ _ Hch Ein Hlast) as Hch'. fold order' in Hch'.
  assert (head order' = Some header) as Hhd'.
  { unfold order'. destruct order as [|x o]; cbn; [by rewrite Hcur|]. by rewrite (Hhd x). }
  assert (last order' = Some cur) as Hl' by (unfold order'; by rewrite last_snoc).
  assert (zlen order' ≤ MAX_BLOCKS) as Hlen' by (unfold order'; rewrite zlen_app; change (zlen [cur]) with 1; lia).
  assert (∀ n, follows_block cur n → select_from blocks header resolve fuel order' n = Ok (Some r) →
    chain r ∧ head r = Some header ∧ 2 ≤ zlen r ≤ MAX_BLOCKS ∧ ∃ x, last r = Some x ∧ follows_block x header) as Hgo.
  { intros n Hn. apply IH; [done| | |].
    - intros x Hx. congruence.
    - unfold order'. by destruct order.
    - intros x Hx. rewrite Hl' in Hx. by injection Hx as <-. }
  assert (∀ Hf : follows_block cur header, 2 ≤ zlen order' → chain order' ∧ head order' = Some header ∧
    2 ≤ zlen order' ≤ MAX_BLOCKS ∧ ∃ x, last order' = Some x ∧ follows_block x header) as Hdone.
  { intros Hf H2. split_and!; [done..|]. by exists cur. }
  destruct (b_exit b) as [t|cond t f| |] eqn:Ee; try done.
  - destruct (in_group t) as [n|] eqn:Et; [|done].
    assert (follows_block cur n) as Hn by (exists b; by rewrite Ee). destruct (n =? header) eqn:En.
    + apply Z.eqb_eq in En as ->. destruct (2 <=? zlen order') eqn:E2; [|done]. injection Hs as <-. apply Hdone; [done|lia].
    + case_bool_decide; [by apply (Hgo n)|done].
  - destruct (bool_decide (in_group t = Some header) && has_static_addr f && (2 <=? zlen order')) eqn:E1.
    { apply andb_true_iff in E1 as [[E1 E2]%andb_true_iff E3]. apply bool_decide_eq_true in E1. injection Hs as <-.
      apply Hdone; [exists b; rewrite Ee; by auto|lia]. }
    destruct (bool_decide (in_group f = Some header) && has_static_addr t && (2 <=? zlen order')) eqn:E4.
    { apply andb_true_iff in E4 as [[E4 E5]%andb_true_iff E6]. apply bool_decide_eq_true in E4. injection Hs as <-.
      apply Hdone; [exists b; rewrite Ee; by auto|lia]. }
    assert (∀ n, fresh_succ header order' (in_group f) = Some n → has_static_addr t = true → follows_block cur n) as Hff.
    { intros n (? & _ & _)%fresh_succ_Some ?. exists b. rewrite Ee. by auto. }
    assert (∀ n, fresh_succ header order' (in_group t) = Some n → has_static_addr f = true → follows_block cur n) as Hft.
    { intros n (? & _ & _)%fresh_succ_Some ?. exists b. rewrite Ee. by auto. }
    destruct (fresh_succ header order' (in_group f)) as [n|], (has_static_addr t), (fresh_succ header order' (in_group t)) as [m|],
      (has_static_addr f); try done; (apply (Hgo n) in Hs || apply (Hgo m) in Hs); by auto.
Qed.
End trace.

(** C32. A trace the selector returns starts at the hot block, visits two to eight
    distinct blocks, each of which translates and leads to the next while its other
    way out has a constant address, and closes: its last block leads back to the
    first. *)
Theorem select_trace_closed blocks header resolve order :
  select_trace blocks header resolve = Ok (Some order) →
  NoDup order ∧ head order = Some header ∧ 2 ≤ zlen order ≤ 8 ∧
  (∀ k x y, order !! k = Some x → order !! S k = Some y → follows_block blocks resolve x y) ∧
  ∃ x, last order = Some x ∧ follows_block blocks resolve x header.
Proof.
  intros Hs. apply select_from_chain in Hs as ([Hnd Hl] & Hh & Hlen & Hx); try done.
  split; [constructor|done].
Qed.

(** * Executed bytes *)
Definition interval (s e : Z) : gset Z := list_to_set (seqZ s (e - s)).
Lemma elem_of_interval s e z : z ∈ interval s e ↔ s ≤ z < e.
Proof. unfold interval. rewrite elem_of_list_to_set, elem_of_seqZ. lia. Qed.
Lemma size_interval s e : s ≤ e → Z.of_nat (size (interval s e)) = e - s.
Proof. intros Hse. unfold interval. rewrite size_list_to_set, length_seqZ by apply NoDup_seqZ. lia. Qed.
Lemma size_below (X : gset Z) n : 0 ≤ n → (∀ z, z ∈ X → 0 ≤ z < n) → Z.of_nat (size X) ≤ n.
Proof.
  intros Hn HX. rewrite <- (Z.sub_0_r n) at 1. rewrite <- (size_interval 0 n) by done. apply Nat2Z.inj_le.
  apply subseteq_size. intros z Hz. apply elem_of_interval. by apply HX.
Qed.
Lemma union_length_spec l b t (T : gset Z) :
  Sorted range_le l → Forall (λ r, b ≤ r.1 ∧ r.1 ≤ r.2 ≤ U64_MAX) l → 0 ≤ b ≤ t → t ≤ U64_MAX → (∀ z, z ∈ T → 0 ≤ z < b) →
  ∃ U : gset Z, (∀ z, z ∈ U ↔ z ∈ T ∨ b ≤ z < t ∨ ∃ r, r ∈ l ∧ r.1 ≤ z < r.2) ∧
  union_length l (Some (b, t)) (Z.of_nat (size T)) = Z.of_nat (size U).
Proof.
  revert b t T. induction l as [|[s e] l IH]; intros b t T Hs Hl Hb Ht HT.
  - exists (T ∪ interval b t). split.
    + intros z. rewrite elem_of_union, elem_of_interval. set_solver.
    + assert (T ## interval b t) as Hd by (intros z Hz; rewrite elem_of_interval; apply HT in Hz; lia).
      cbn. rewrite size_union, Nat2Z.inj_add, size_interval by (done || lia). unfold saturating_add64.
      pose proof (size_below T b ltac:(lia) HT). lia.
  - apply Forall_cons in Hl as [[Hb1 He] Hl]. cbn in Hb1, He. apply Sorted_inv in Hs as [Hs Hhd].
    assert (Sorted range_le ((s, e) :: l)) as Hss by (by constructor).
    assert (Forall (λ r, s ≤ r.1) l) as Hge.
    { apply Sorted_StronglySorted in Hss; [|intros x y z; unfold range_le; lia]. apply StronglySorted_inv in Hss as [_ Hss].
      eapply Forall_impl; [exact Hss|]. unfold range_le. cbn. lia. }
    cbn [union_length]. destruct (s <=? t) eqn:E.
    + destruct (IH b (Z.max t e) T) as (U & HU & Hsize); [done|done|lia|lia|done|]. exists U. split; [|done].
      intros z. rewrite HU. setoid_rewrite elem_of_cons. split.
      * intros [Hz|[Hz|(r & Hr & Hz)]]; [by left| |right; right; exists r; by auto].
        destruct (decide (z < t)); [right; left; lia|]. right; right. exists (s, e). cbn. split; [by left|lia].
      * intros [Hz|[Hz|(r & [->|Hr] & Hz)]]; [by left|right; left; lia| |right; right; by exists r]. cbn in Hz.
        right; left. lia.
    + assert (T ## interval b t) as Hd by (intros z Hz; rewrite elem_of_interval; apply HT in Hz; lia).
      destruct (IH s e (T ∪ interval b t)) as (U & HU & Hsize); [done| |lia|lia| |].
      { apply Forall_forall. intros r Hr. rewrite Forall_forall in Hge, Hl. specialize (Hge r Hr). specialize (Hl r Hr). cbn in Hl. lia. }
      { intros z. rewrite elem_of_union, elem_of_interval. intros [Hz|Hz]; [apply HT in Hz; lia|lia]. }
      exists U. split.
      * intros z. rewrite HU, elem_of_union, elem_of_interval. setoid_rewrite elem_of_cons. split.
        -- intros [[Hz|Hz]|[Hz|(r & Hr & Hz)]]; [by left|by right; left|right; right; by exists (s, e); auto|right; right; exists r; by auto].
        -- intros [Hz|[Hz|(r & [->|Hr] & Hz)]]; [by left; left|by left; right|by right; left|right; right; by exists r].
      * rewrite <- Hsize. f_equal. rewrite size_union, Nat2Z.inj_add, size_interval by (done || lia). unfold saturating_add64.
        pose proof (size_below T b ltac:(lia) HT). lia.
Qed.
#[global] Instance range_le_trans : Transitive range_le.
Proof. intros x y z. unfold range_le. lia. Qed.
#[global] Instance range_le_total : Total range_le.
Proof. intros x y. unfold range_le. lia. Qed.
Lemma ends_within_Some r q : ends_within r = Some q ↔ q = (r.1, r.1 + r.2) ∧ r.1 + r.2 ≤ U64_MAX.
Proof. unfold ends_within. destruct (_ <=? _) eqn:E; [|split; [done|lia]]. split; [intros [= <-]; split; [done|lia]|by intros [-> _]]. Qed.

(** The count of executed bytes is the number of addresses some executed
    instruction covers, counted once however the instructions overlap. *)
Theorem executed_bytes_union ranges :
  (∀ r, r ∈ ranges → 0 ≤ r.1 ∧ 0 ≤ r.2) → ∃ U : gset Z,
  (∀ z, z ∈ U ↔ ∃ r, r ∈ ranges ∧ r.1 + r.2 ≤ U64_MAX ∧ r.1 ≤ z < r.1 + r.2) ∧
  executed_byte_count (Some ranges) = Z.of_nat (size U).
Proof.
  intros Hr. cbn [executed_byte_count]. set (l := merge_sort range_le (omap ends_within (elements ranges))).
  assert (Sorted range_le l) as Hs by apply (Sorted_merge_sort range_le).
  assert (∀ q, q ∈ l ↔ ∃ r, r ∈ ranges ∧ r.1 + r.2 ≤ U64_MAX ∧ q = (r.1, r.1 + r.2)) as Hl.
  { intros q. unfold l. rewrite (merge_sort_Permutation range_le), list_elem_of_omap. setoid_rewrite elem_of_elements.
    setoid_rewrite ends_within_Some. naive_solver. }
  assert (Forall (λ q, 0 ≤ q.1 ∧ q.1 ≤ q.2 ≤ U64_MAX) l) as Hall.
  { apply Forall_forall. intros q (r & Hin & Hle & ->)%Hl. apply Hr in Hin. cbn. lia. }
  assert (∀ z, (∃ q, q ∈ l ∧ q.1 ≤ z < q.2) ↔ ∃ r, r ∈ ranges ∧ r.1 + r.2 ≤ U64_MAX ∧ r.1 ≤ z < r.1 + r.2) as Hz.
  { intros z. split.
    - intros (q & (r & Hin & Hle & ->)%Hl & Hq). by exists r.
    - intros (r & Hin & Hle & Hq). exists (r.1, r.1 + r.2). split; [|done]. apply Hl. by exists r. }
  clearbody l. destruct l as [|[s e] l].
  - exists ∅. split; [|done]. intros z. rewrite <- Hz. set_solver.
  - cbn [union_length]. apply Forall_cons in Hall as [[Hs0 He] Hall]. cbn in Hs0, He. pose proof Hs as [Hs' _]%Sorted_inv.
    destruct (union_length_spec l s e ∅) as (U & HU & Hsize); [done| |lia|lia|set_solver|].
    { apply Sorted_StronglySorted in Hs; [|apply _]. apply StronglySorted_inv in Hs as [_ Hs]. rewrite Forall_forall in Hs, Hall |- *.
      intros r Hin. specialize (Hs r Hin). specialize (Hall r Hin). unfold range_le in Hs. cbn in Hs. lia. }
    exists U. split; [|exact Hsize]. intros z. rewrite HU, <- Hz. setoid_rewrite elem_of_cons. split.
    + intros [Hz0|[Hz0|(r & Hin & Hz0)]]; [set_solver|by exists (s, e); auto|exists r; by auto].
    + intros (r & [->|Hin] & Hz0); [by right; left|right; right; by exists r].
Qed.
