(* ===== verification/Vm.v ===== *)
(** The machine that runs guest code ([crates/x64-engine/src/vm.rs]): its state, its
    operations, and its run loop. *)

From S2P Require Import Prelude Cpu Pcode Wasm Jit Backend VmTrace.

(** The state of the machine that runs guest code ([InterpVm] and the mirrors next
    to it, [crates/x64-engine/src/vm.rs]), in the groups its operations work on:
    the run loop, the lifted code, the compiled code, and what is observed of a run.

    [BlockTable] is the vendored engine's table of lifted blocks. The wall-clock
    times of a profiled run are left out. *)
Record BlockKey := { bk_vaddr : Z; bk_isa : Z; bk_asid : Z }.
#[global] Instance BlockKey_eq_dec : EqDecision BlockKey.
Proof. solve_decision. Defined.
#[global] Instance BlockKey_countable : Countable BlockKey.
Proof.
  refine (inj_countable' (λ k, (bk_vaddr k, bk_isa k, bk_asid k)) (λ '(a, i, s), {| bk_vaddr := a; bk_isa := i; bk_asid := s |}) _).
  by intros [].
Defined.
Record BlockGroup := { bg_first : Z; bg_last : Z; bg_start : Z; bg_end : Z }.
Record BlockTable := {
  bt_map : gmap BlockKey BlockGroup; bt_blocks : list Block; bt_breakpoints : gset Z; bt_modified : list Z
}.
Record LiftedCode := { lc_group : BlockGroup; lc_context : Z; lc_source : bytes }.
Record BlockProfile := { bp_entries : Z; bp_instructions : Z }.

Record RunState := {
  rs_limit : Z;
  rs_interrupt : bool;
  rs_next_timer : Z;
  rs_resume : bool;
  rs_retry : bool;
  rs_asid : Z;
  rs_block_start : Z;
  rs_icount : Z
}.
Definition set_rs_limit (v : Z) (x : RunState) : RunState :=
  {| rs_limit := v; rs_interrupt := rs_interrupt x; rs_next_timer := rs_next_timer x; rs_resume := rs_resume x;
     rs_retry := rs_retry x; rs_asid := rs_asid x; rs_block_start := rs_block_start x; rs_icount := rs_icount x |}.
Definition set_rs_interrupt (v : bool) (x : RunState) : RunState :=
  {| rs_limit := rs_limit x; rs_interrupt := v; rs_next_timer := rs_next_timer x; rs_resume := rs_resume x;
     rs_retry := rs_retry x; rs_asid := rs_asid x; rs_block_start := rs_block_start x; rs_icount := rs_icount x |}.
Definition set_rs_next_timer (v : Z) (x : RunState) : RunState :=
  {| rs_limit := rs_limit x; rs_interrupt := rs_interrupt x; rs_next_timer := v; rs_resume := rs_resume x;
     rs_retry := rs_retry x; rs_asid := rs_asid x; rs_block_start := rs_block_start x; rs_icount := rs_icount x |}.
Definition set_rs_resume (v : bool) (x : RunState) : RunState :=
  {| rs_limit := rs_limit x; rs_interrupt := rs_interrupt x; rs_next_timer := rs_next_timer x; rs_resume := v;
     rs_retry := rs_retry x; rs_asid := rs_asid x; rs_block_start := rs_block_start x; rs_icount := rs_icount x |}.
Definition set_rs_retry (v : bool) (x : RunState) : RunState :=
  {| rs_limit := rs_limit x; rs_interrupt := rs_interrupt x; rs_next_timer := rs_next_timer x;
     rs_resume := rs_resume x; rs_retry := v; rs_asid := rs_asid x; rs_block_start := rs_block_start x;
     rs_icount := rs_icount x |}.
Definition set_rs_asid (v : Z) (x : RunState) : RunState :=
  {| rs_limit := rs_limit x; rs_interrupt := rs_interrupt x; rs_next_timer := rs_next_timer x;
     rs_resume := rs_resume x; rs_retry := rs_retry x; rs_asid := v; rs_block_start := rs_block_start x;
     rs_icount := rs_icount x |}.
Definition set_rs_block_start (v : Z) (x : RunState) : RunState :=
  {| rs_limit := rs_limit x; rs_interrupt := rs_interrupt x; rs_next_timer := rs_next_timer x;
     rs_resume := rs_resume x; rs_retry := rs_retry x; rs_asid := rs_asid x; rs_block_start := v;
     rs_icount := rs_icount x |}.
Definition set_rs_icount (v : Z) (x : RunState) : RunState :=
  {| rs_limit := rs_limit x; rs_interrupt := rs_interrupt x; rs_next_timer := rs_next_timer x;
     rs_resume := rs_resume x; rs_retry := rs_retry x; rs_asid := rs_asid x; rs_block_start := rs_block_start x;
     rs_icount := v |}.

Record LiftState := {
  ls_index : gmap (Z * Z) (list LiftedCode);
  ls_context : Z;
  ls_isa : Z;
  ls_promote : option Z;
  ls_entries : gmap Z Z;
  ls_promoted : gset Z;
  ls_decoded : Z;
  ls_reused : Z;
  ls_flushes : Z
}.
Definition set_ls_index (v : gmap (Z * Z) (list LiftedCode)) (x : LiftState) : LiftState :=
  {| ls_index := v; ls_context := ls_context x; ls_isa := ls_isa x; ls_promote := ls_promote x;
     ls_entries := ls_entries x; ls_promoted := ls_promoted x; ls_decoded := ls_decoded x; ls_reused := ls_reused x;
     ls_flushes := ls_flushes x |}.
Definition set_ls_context (v : Z) (x : LiftState) : LiftState :=
  {| ls_index := ls_index x; ls_context := v; ls_isa := ls_isa x; ls_promote := ls_promote x;
     ls_entries := ls_entries x; ls_promoted := ls_promoted x; ls_decoded := ls_decoded x; ls_reused := ls_reused x;
     ls_flushes := ls_flushes x |}.
Definition set_ls_isa (v : Z) (x : LiftState) : LiftState :=
  {| ls_index := ls_index x; ls_context := ls_context x; ls_isa := v; ls_promote := ls_promote x;
     ls_entries := ls_entries x; ls_promoted := ls_promoted x; ls_decoded := ls_decoded x; ls_reused := ls_reused x;
     ls_flushes := ls_flushes x |}.
Definition set_ls_promote (v : option Z) (x : LiftState) : LiftState :=
  {| ls_index := ls_index x; ls_context := ls_context x; ls_isa := ls_isa x; ls_promote := v;
     ls_entries := ls_entries x; ls_promoted := ls_promoted x; ls_decoded := ls_decoded x; ls_reused := ls_reused x;
     ls_flushes := ls_flushes x |}.
Definition set_ls_entries (v : gmap Z Z) (x : LiftState) : LiftState :=
  {| ls_index := ls_index x; ls_context := ls_context x; ls_isa := ls_isa x; ls_promote := ls_promote x;
     ls_entries := v; ls_promoted := ls_promoted x; ls_decoded := ls_decoded x; ls_reused := ls_reused x;
     ls_flushes := ls_flushes x |}.
Definition set_ls_promoted (v : gset Z) (x : LiftState) : LiftState :=
  {| ls_index := ls_index x; ls_context := ls_context x; ls_isa := ls_isa x; ls_promote := ls_promote x;
     ls_entries := ls_entries x; ls_promoted := v; ls_decoded := ls_decoded x; ls_reused := ls_reused x;
     ls_flushes := ls_flushes x |}.
Definition set_ls_decoded (v : Z) (x : LiftState) : LiftState :=
  {| ls_index := ls_index x; ls_context := ls_context x; ls_isa := ls_isa x; ls_promote := ls_promote x;
     ls_entries := ls_entries x; ls_promoted := ls_promoted x; ls_decoded := v; ls_reused := ls_reused x;
     ls_flushes := ls_flushes x |}.
Definition set_ls_reused (v : Z) (x : LiftState) : LiftState :=
  {| ls_index := ls_index x; ls_context := ls_context x; ls_isa := ls_isa x; ls_promote := ls_promote x;
     ls_entries := ls_entries x; ls_promoted := ls_promoted x; ls_decoded := ls_decoded x; ls_reused := v;
     ls_flushes := ls_flushes x |}.
Definition set_ls_flushes (v : Z) (x : LiftState) : LiftState :=
  {| ls_index := ls_index x; ls_context := ls_context x; ls_isa := ls_isa x; ls_promote := ls_promote x;
     ls_entries := ls_entries x; ls_promoted := ls_promoted x; ls_decoded := ls_decoded x; ls_reused := ls_reused x;
     ls_flushes := v |}.

Record Observed := {
  ob_profile : option (gmap Z BlockProfile);
  ob_executed : Tracking;
  ob_lazy : gmap Z (bytes * Z);
  ob_page_ins : Z
}.
Definition set_ob_profile (v : option (gmap Z BlockProfile)) (x : Observed) : Observed :=
  {| ob_profile := v; ob_executed := ob_executed x; ob_lazy := ob_lazy x; ob_page_ins := ob_page_ins x |}.
Definition set_ob_executed (v : Tracking) (x : Observed) : Observed :=
  {| ob_profile := ob_profile x; ob_executed := v; ob_lazy := ob_lazy x; ob_page_ins := ob_page_ins x |}.
Definition set_ob_lazy (v : gmap Z (bytes * Z)) (x : Observed) : Observed :=
  {| ob_profile := ob_profile x; ob_executed := ob_executed x; ob_lazy := v; ob_page_ins := ob_page_ins x |}.
Definition set_ob_page_ins (v : Z) (x : Observed) : Observed :=
  {| ob_profile := ob_profile x; ob_executed := ob_executed x; ob_lazy := ob_lazy x; ob_page_ins := v |}.

Record JitState (J : Type) := {
  js_jit : option J;
  js_after : option Z;
  js_caches : Caches;
  js_entries : gmap Z Z;
  js_dispatches : Z;
  js_block_dispatches : Z;
  js_region_dispatches : Z;
  js_budget : JitBudget
}.
Arguments js_jit {J} _.
Arguments js_after {J} _.
Arguments js_caches {J} _.
Arguments js_entries {J} _.
Arguments js_dispatches {J} _.
Arguments js_block_dispatches {J} _.
Arguments js_region_dispatches {J} _.
Arguments js_budget {J} _.
Section jit.
Context {J : Type}.
Definition set_js_jit (v : option J) (x : JitState J) : JitState J :=
  {| js_jit := v; js_after := js_after x; js_caches := js_caches x; js_entries := js_entries x;
     js_dispatches := js_dispatches x; js_block_dispatches := js_block_dispatches x;
     js_region_dispatches := js_region_dispatches x; js_budget := js_budget x |}.
Definition set_js_after (v : option Z) (x : JitState J) : JitState J :=
  {| js_jit := js_jit x; js_after := v; js_caches := js_caches x; js_entries := js_entries x;
     js_dispatches := js_dispatches x; js_block_dispatches := js_block_dispatches x;
     js_region_dispatches := js_region_dispatches x; js_budget := js_budget x |}.
Definition set_js_caches (v : Caches) (x : JitState J) : JitState J :=
  {| js_jit := js_jit x; js_after := js_after x; js_caches := v; js_entries := js_entries x;
     js_dispatches := js_dispatches x; js_block_dispatches := js_block_dispatches x;
     js_region_dispatches := js_region_dispatches x; js_budget := js_budget x |}.
Definition set_js_entries (v : gmap Z Z) (x : JitState J) : JitState J :=
  {| js_jit := js_jit x; js_after := js_after x; js_caches := js_caches x; js_entries := v;
     js_dispatches := js_dispatches x; js_block_dispatches := js_block_dispatches x;
     js_region_dispatches := js_region_dispatches x; js_budget := js_budget x |}.
Definition set_js_dispatches (v : Z) (x : JitState J) : JitState J :=
  {| js_jit := js_jit x; js_after := js_after x; js_caches := js_caches x; js_entries := js_entries x;
     js_dispatches := v; js_block_dispatches := js_block_dispatches x; js_region_dispatches := js_region_dispatches x;
     js_budget := js_budget x |}.
Definition set_js_block_dispatches (v : Z) (x : JitState J) : JitState J :=
  {| js_jit := js_jit x; js_after := js_after x; js_caches := js_caches x; js_entries := js_entries x;
     js_dispatches := js_dispatches x; js_block_dispatches := v; js_region_dispatches := js_region_dispatches x;
     js_budget := js_budget x |}.
Definition set_js_region_dispatches (v : Z) (x : JitState J) : JitState J :=
  {| js_jit := js_jit x; js_after := js_after x; js_caches := js_caches x; js_entries := js_entries x;
     js_dispatches := js_dispatches x; js_block_dispatches := js_block_dispatches x; js_region_dispatches := v;
     js_budget := js_budget x |}.
Definition set_js_budget (v : JitBudget) (x : JitState J) : JitState J :=
  {| js_jit := js_jit x; js_after := js_after x; js_caches := js_caches x; js_entries := js_entries x;
     js_dispatches := js_dispatches x; js_block_dispatches := js_block_dispatches x;
     js_region_dispatches := js_region_dispatches x; js_budget := v |}.
End jit.

Record InterpVm (E F G J : Type) := {
  vm_cpu : Cpu G;
  vm_env : E;
  vm_lifter : F;
  vm_code : BlockTable;
  vm_run : RunState;
  vm_lift : LiftState;
  vm_jit : JitState J;
  vm_seen : Observed
}.
Arguments vm_cpu {E F G J} _.
Arguments vm_env {E F G J} _.
Arguments vm_lifter {E F G J} _.
Arguments vm_code {E F G J} _.
Arguments vm_run {E F G J} _.
Arguments vm_lift {E F G J} _.
Arguments vm_jit {E F G J} _.
Arguments vm_seen {E F G J} _.
Section vm.
Context {E F G J : Type}.
Abbreviation VM := (InterpVm E F G J).
Definition set_vm_cpu (v : Cpu G) (x : VM) : VM :=
  {| vm_cpu := v; vm_env := vm_env x; vm_lifter := vm_lifter x; vm_code := vm_code x; vm_run := vm_run x;
     vm_lift := vm_lift x; vm_jit := vm_jit x; vm_seen := vm_seen x |}.
Definition set_vm_env (v : E) (x : VM) : VM :=
  {| vm_cpu := vm_cpu x; vm_env := v; vm_lifter := vm_lifter x; vm_code := vm_code x; vm_run := vm_run x;
     vm_lift := vm_lift x; vm_jit := vm_jit x; vm_seen := vm_seen x |}.
Definition set_vm_lifter (v : F) (x : VM) : VM :=
  {| vm_cpu := vm_cpu x; vm_env := vm_env x; vm_lifter := v; vm_code := vm_code x; vm_run := vm_run x;
     vm_lift := vm_lift x; vm_jit := vm_jit x; vm_seen := vm_seen x |}.
Definition set_vm_code (v : BlockTable) (x : VM) : VM :=
  {| vm_cpu := vm_cpu x; vm_env := vm_env x; vm_lifter := vm_lifter x; vm_code := v; vm_run := vm_run x;
     vm_lift := vm_lift x; vm_jit := vm_jit x; vm_seen := vm_seen x |}.
Definition set_vm_run (v : RunState) (x : VM) : VM :=
  {| vm_cpu := vm_cpu x; vm_env := vm_env x; vm_lifter := vm_lifter x; vm_code := vm_code x; vm_run := v;
     vm_lift := vm_lift x; vm_jit := vm_jit x; vm_seen := vm_seen x |}.
Definition set_vm_lift (v : LiftState) (x : VM) : VM :=
  {| vm_cpu := vm_cpu x; vm_env := vm_env x; vm_lifter := vm_lifter x; vm_code := vm_code x; vm_run := vm_run x;
     vm_lift := v; vm_jit := vm_jit x; vm_seen := vm_seen x |}.
Definition set_vm_jit (v : JitState J) (x : VM) : VM :=
  {| vm_cpu := vm_cpu x; vm_env := vm_env x; vm_lifter := vm_lifter x; vm_code := vm_code x; vm_run := vm_run x;
     vm_lift := vm_lift x; vm_jit := v; vm_seen := vm_seen x |}.
Definition set_vm_seen (v : Observed) (x : VM) : VM :=
  {| vm_cpu := vm_cpu x; vm_env := vm_env x; vm_lifter := vm_lifter x; vm_code := vm_code x; vm_run := vm_run x;
     vm_lift := vm_lift x; vm_jit := vm_jit x; vm_seen := v |}.
Definition on_cpu (f : Cpu G → Cpu G) (x : VM) : VM := set_vm_cpu (f (vm_cpu x)) x.
Definition on_run (f : RunState → RunState) (x : VM) : VM := set_vm_run (f (vm_run x)) x.
Definition on_lift (f : LiftState → LiftState) (x : VM) : VM := set_vm_lift (f (vm_lift x)) x.
Definition on_jit (f : JitState J → JitState J) (x : VM) : VM := set_vm_jit (f (vm_jit x)) x.
Definition on_seen (f : Observed → Observed) (x : VM) : VM := set_vm_seen (f (vm_seen x)) x.
End vm.

(** The machine: [crates/x64-engine/src/vm.rs].

    The lifter, the environment (the kernel) and the parts of guest memory the
    machine itself touches are classes; the backend is [JitBackend]. [None] is a
    panic, or a loop that outlasts its fuel. *)
(** * What the machine relies on *)
Inductive DecodeError := NonExecutableMemory (addr : Z) | OtherDecodeError (code : Z).
Definition ExecViolation : Z := 1025.
Definition decode_code (e : DecodeError) : Z :=
  match e with NonExecutableMemory _ => ExecViolation | OtherDecodeError code => code end.
Class VmArch := { reg_isa_mode : option VarNode; isa_mode_context : list Z }.
(** A handler reads the mirrors of the run, and may leave another address space
    and a fault to retry. *)
Class Environment (E G : Type) := {
  env_handle_exception : E → Cpu G → RunState → E * Cpu G * (Z * bool) * option VmExit;
  env_next_timer : E → Z
}.
Class BlockLifter (F G : Type) := {
  lifter_set_context : Z → F → F;
  (** With its optimizer, or without. *)
  lifter_lift_block : bool → Cpu G → BlockTable → Z → F → F * Cpu G * BlockTable * (BlockGroup + DecodeError);
  validate : Inst → bool
}.
Class VmMemory (G : Type) := {
  vmm_read_bytes : G → Z → Z → G * option bytes;
  vmm_write_bytes : G → Z → bytes → G * bool;
  vmm_update_perm : G → Z → Z → Z → G * bool;
  vmm_clear_code_cache : G → G;
  (** [cpu.reset()] and [cpu.mem.clear()]. *)
  vmm_reset : Cpu G → Cpu G
}.

Section vm.
Context `{Host} `{Arch} `{VmArch} `{Floats} {E F G J : Type} `{Softmmu G} `{Escapes G} `{VmMemory G} `{Environment E G}
  `{BlockLifter F G} `{JitBackend J G}.
Abbreviation VM := (InterpVm E F G J).
Implicit Types (vm : VM) (b : Block).

Definition set_exception (code value : Z) : VM → VM := on_cpu (raise code value).
Definition CORRUPTED_BLOCK_MAP : Z := 0.
Definition internal_error : VM → VM := set_exception ExceptionCode.InternalError CORRUPTED_BLOCK_MAP.
Definition corrupted_block_map : VM → VM := internal_error.
Definition block_at vm (id : Z) : option Block := getz (bt_blocks (vm_code vm)) id.
Definition with_map (m : gmap BlockKey BlockGroup) (t : BlockTable) : BlockTable :=
  {| bt_map := m; bt_blocks := bt_blocks t; bt_breakpoints := bt_breakpoints t; bt_modified := bt_modified t |}.
Definition with_code_blocks (l : list Block) (t : BlockTable) : BlockTable :=
  {| bt_map := bt_map t; bt_blocks := l; bt_breakpoints := bt_breakpoints t; bt_modified := bt_modified t |}.
Definition with_modified (l : list Z) (t : BlockTable) : BlockTable :=
  {| bt_map := bt_map t; bt_blocks := bt_blocks t; bt_breakpoints := bt_breakpoints t; bt_modified := l |}.

(** * Where the machine is *)
Definition isa_mode (c : Cpu G) : Z := match reg_isa_mode with Some v => read (c_regs c) (Var v) 1 | None => 0 end.
Definition get_block_key vm (vaddr : Z) : BlockKey :=
  {| bk_vaddr := vaddr; bk_isa := isa_mode (vm_cpu vm); bk_asid := rs_asid (vm_run vm) |}.
Definition group_at vm (vaddr : Z) : option BlockGroup := bt_map (vm_code vm) !! get_block_key vm vaddr.
Definition get_current_block vm : option (Z * Z) :=
  if negb (c_block (vm_cpu vm) =? U64_MAX) then Some (c_block (vm_cpu vm), c_offset (vm_cpu vm))
  else g ← group_at vm (Interp.read_pc (vm_cpu vm)); Some (bg_first g, 0).
Definition resolve_trace_external (t : BlockTable) (key : BlockKey) : option Z := bg_first <$> bt_map t !! key.
Definition CHECK_FOR_INTERRUPT_FLAG_TIMER : Z := 1048576.
Definition update_timer vm : VM :=
  let exit := Z.min (rs_limit (vm_run vm)) (env_next_timer (vm_env vm)) in
  on_run (set_rs_next_timer (Z.min exit (wrapping_add64 CHECK_FOR_INTERRUPT_FLAG_TIMER (c_icount (vm_cpu vm))))) vm.
Definition mark_block (start : Z) : VM → VM := on_run (set_rs_block_start start).
Definition mark_icount vm : VM := on_run (set_rs_icount (cpu_icount (vm_cpu vm))) vm.

(** * Switches *)
Definition clear_jit vm : VM :=
  match js_jit (vm_jit vm) with
  | Some j => let '(budget, j) := clear (js_budget (vm_jit vm)) j in
              on_jit (λ s, set_js_jit (Some j) (set_js_budget budget s)) vm
  | None => vm
  end.
Definition set_jit (j : J) : VM → VM := on_jit (set_js_jit (Some j)).
Definition set_jit_tiering (after : option Z) vm : VM :=
  clear_jit (on_jit (λ s, set_js_caches no_caches (set_js_entries ∅ (set_js_after after s))) vm).
Definition with_budget (n : Z) (b : JitBudget) : JitBudget :=
  {| j_meta := j_meta b; j_total := j_total b; j_budget := n; j_epoch := j_epoch b; j_compiles := j_compiles b;
     j_evictions := j_evictions b; j_hits := j_hits b; j_peak := j_peak b |}.
Definition set_jit_code_budget (bytes : Z) vm : VM := on_jit (set_js_budget (with_budget bytes (js_budget (vm_jit vm)))) vm.
Definition set_lift_tiering (threshold : option Z) : VM → VM :=
  on_lift (λ s, set_ls_promoted ∅ (set_ls_entries ∅ (set_ls_promote threshold s))).
Definition profile_blocks (on : bool) : VM → VM := on_seen (set_ob_profile (if on then Some ∅ else None)).
Definition track_executed_bytes (on : bool) : VM → VM := on_seen (set_ob_executed (if on then Some ∅ else None)).
Definition page_of (addr : Z) : Z := Z.land addr (U64_MAX - 4095).
Definition register_lazy_page (addr : Z) (data : bytes) (perm : Z) vm : VM :=
  on_seen (set_ob_lazy (<[page_of addr := (data, perm)]> (ob_lazy (vm_seen vm)))) vm.
Definition suspend_for_page_in : VM → VM := on_run (set_rs_resume true).
Definition cancel_page_in_resume : VM → VM := on_run (λ s, set_rs_retry false (set_rs_resume false s)).
Definition flush_code vm : VM :=
  let vm := on_lift (λ s, set_ls_index ∅ (set_ls_flushes (ls_flushes s + 1) s)) vm in
  let vm := set_vm_code {| bt_map := ∅; bt_blocks := []; bt_breakpoints := bt_breakpoints (vm_code vm); bt_modified := [] |} vm in
  clear_jit (on_jit (λ s, set_js_caches no_caches (set_js_entries ∅ s)) vm).

Definition reset vm : VM := on_lift (set_ls_isa 255) (flush_code (on_cpu vmm_reset vm)).
Definition DEFAULT_PROMOTE_AFTER : Z := 1000.
(** A new machine; the mirrors of a run are the thread's, and stay. *)
Definition vm_new (c : Cpu G) (env : E) (f : F) (s : RunState) : VM :=
  {| vm_cpu := c; vm_env := env; vm_lifter := f;
     vm_code := {| bt_map := ∅; bt_blocks := []; bt_breakpoints := ∅; bt_modified := [] |};
     vm_run := {| rs_limit := U64_MAX; rs_interrupt := false; rs_next_timer := 0; rs_resume := false; rs_retry := rs_retry s;
                  rs_asid := rs_asid s; rs_block_start := rs_block_start s; rs_icount := rs_icount s |};
     vm_lift := {| ls_index := ∅; ls_context := 0; ls_isa := 255; ls_promote := Some DEFAULT_PROMOTE_AFTER; ls_entries := ∅;
                   ls_promoted := ∅; ls_decoded := 0; ls_reused := 0; ls_flushes := 0 |};
     vm_jit := {| js_jit := None; js_after := None; js_caches := no_caches; js_entries := ∅; js_dispatches := 0;
                  js_block_dispatches := 0; js_region_dispatches := 0; js_budget := default_budget |};
     vm_seen := {| ob_profile := None; ob_executed := None; ob_lazy := ∅; ob_page_ins := 0 |} |}.
Record LiftStats := {
  st_blocks : Z; st_indexed : Z; st_promoted : Z; st_counted : Z; st_decoded : Z; st_reused : Z; st_flushes : Z
}.
Definition lift_stats vm : LiftStats :=
  {| st_blocks := zlen (bt_blocks (vm_code vm)); st_indexed := Z.of_nat (size (ls_index (vm_lift vm)));
     st_promoted := Z.of_nat (size (ls_promoted (vm_lift vm))); st_counted := Z.of_nat (size (ls_entries (vm_lift vm)));
     st_decoded := ls_decoded (vm_lift vm); st_reused := ls_reused (vm_lift vm); st_flushes := ls_flushes (vm_lift vm) |}.

(** * Lifting *)
Definition MAX_LIFTED_SOURCE : Z := 65536.
Definition MAX_LIFTED_CANDIDATES : Z := 4.
Definition update_context vm : VM :=
  let vm := match block_at vm (c_block (vm_cpu vm)) with
            | Some b => set_vm_lifter (lifter_set_context (b_context b) (vm_lifter vm)) (on_lift (set_ls_context (b_context b)) vm)
            | None => vm
            end in
  let mode := isa_mode (vm_cpu vm) in
  if ls_isa (vm_lift vm) =? mode then vm else
  let vm := on_lift (set_ls_isa mode) vm in
  match getz isa_mode_context mode with
  | Some ctx => set_vm_lifter (lifter_set_context ctx (vm_lifter vm)) (on_lift (set_ls_context ctx) vm)
  | None => internal_error vm
  end.
(** A candidate the bytes now in memory still match, whose block numbers still
    name it. *)
Definition candidate_holds (t : BlockTable) (context : Z) (g : G) (l : LiftedCode) : G * bool :=
  if negb (lc_context l =? context) then (g, false) else
  let '(g, r) := vmm_read_bytes g (bg_start (lc_group l)) (zlen (lc_source l)) in
  (g, match r with
      | Some buf => bool_decide (buf = lc_source l) &&
          match getz (bt_blocks t) (bg_first (lc_group l)) with
          | Some b => (b_start b =? bg_start (lc_group l)) && (bg_last (lc_group l) <=? zlen (bt_blocks t))
          | None => false
          end
      | None => false
      end).
Fixpoint first_holding (t : BlockTable) (context : Z) (g : G) (l : list LiftedCode) : G * option BlockGroup :=
  match l with
  | [] => (g, None)
  | x :: l => let '(g, ok) := candidate_holds t context g x in
              if ok then (g, Some (lc_group x)) else first_holding t context g l
  end.
Definition reuse_lifted (addr mode : Z) vm : VM * option BlockGroup :=
  match ls_index (vm_lift vm) !! (addr, mode) with
  | None => (vm, None)
  | Some l => let '(g, r) := first_holding (vm_code vm) (ls_context (vm_lift vm)) (c_mem (vm_cpu vm)) l in
              (on_cpu (with_mem g) vm, r)
  end.
Definition remember_lifted (addr mode : Z) (g : BlockGroup) vm : VM :=
  let len := Z.max 0 (bg_end g - bg_start g) in
  if (len =? 0) || (MAX_LIFTED_SOURCE <? len) then vm else
  let '(m, r) := vmm_read_bytes (c_mem (vm_cpu vm)) (bg_start g) len in
  let vm := on_cpu (with_mem m) vm in
  match r with
  | None => vm
  | Some source =>
      let entry := default [] (ls_index (vm_lift vm) !! (addr, mode)) in
      let x := {| lc_group := g; lc_context := ls_context (vm_lift vm); lc_source := source |} in
      let entry := if zlen entry <? MAX_LIFTED_CANDIDATES then entry ++ [x] else entry in
      on_lift (set_ls_index (<[(addr, mode) := entry]> (ls_index (vm_lift vm)))) vm
  end.
(** The breakpoints among the markers of a block. *)
Fixpoint count_breakpoints (bps : gset Z) (l : list Inst) : option Z :=
  match l with
  | [] => Some 0
  | i :: l => if is_marker i then a ← as_u64 (i_a i); n ← count_breakpoints bps l; Some (if bool_decide (a ∈ bps) then n + 1 else n)
              else count_breakpoints bps l
  end.
Definition with_breakpoints (n : Z) (b : Block) : Block :=
  {| b_code := b_code b; b_start := b_start b; b_end := b_end b; b_context := b_context b; b_exit := b_exit b; b_breakpoints := n;
     b_count := b_count b |}.
Definition range (a b : Z) : list Z := seqZ a (b - a).
Definition place_breakpoints (ids : list Z) (t : BlockTable) : option BlockTable :=
  if bool_decide (bt_breakpoints t = ∅) then Some t
  else foldl (λ t id, t ← t; b ← getz (bt_blocks t) id; n ← count_breakpoints (bt_breakpoints t) (b_code b);
                      Some (with_code_blocks (<[Z.to_nat id := with_breakpoints (b_breakpoints b + n) b]> (bt_blocks t)) t))
         (Some t) ids.
Definition all_valid (t : BlockTable) (ids : list Z) : option () :=
  foldl (λ r id, _ ← r; b ← getz (bt_blocks t) id; if forallb validate (b_code b) then Some () else None) (Some ()) ids.
Definition lift (addr : Z) vm : option (VM * (BlockGroup + DecodeError)) :=
  let vm := update_context vm in
  let mode := isa_mode (vm_cpu vm) in
  let '(vm, reused) := reuse_lifted addr mode vm in
  match reused with
  | Some g =>
      let vm := on_lift (λ s, set_ls_reused (ls_reused s + 1) s) vm in
      Some (set_vm_code (with_map (<[get_block_key vm addr := g]> (bt_map (vm_code vm))) (vm_code vm)) vm, inl g)
  | None =>
      let vm := on_lift (λ s, set_ls_decoded (ls_decoded s + 1) s) vm in
      let optimize := match ls_promote (vm_lift vm) with
                      | None => true
                      | Some _ => bool_decide (addr ∈ ls_promoted (vm_lift vm))
                      end in
      let '(f, c, t, lifted) := lifter_lift_block optimize (vm_cpu vm) (vm_code vm) addr (vm_lifter vm) in
      let vm := set_vm_lifter f (set_vm_cpu c (set_vm_code t vm)) in
      match lifted with
      | inr e => Some (vm, inr e)
      | inl g =>
          let ids := range (bg_first g) (bg_last g) in
          t ← place_breakpoints ids t;
          _ ← all_valid t (bt_modified t ++ ids);
          let t := with_modified [] t in
          let vm := set_vm_code (with_map (<[get_block_key vm addr := g]> (bt_map t)) t) vm in
          Some (remember_lifted addr mode g vm, inl g)
      end
  end.
End vm.

(** The run loop of the machine ([crates/x64-engine/src/vm.rs]): a block at a time,
    compiled or interpreted, and what an exception leads to.

    [None] is a panic, or a loop that outlasts its fuel. *)
Definition ExternalAddr : Z := 8193.
(** What dispatching to compiled code leaves to do: interpret the block, take its
    exit, go on at another block, or leave the loop. *)
Inductive Flow := Interpret | TakeExit | GoTo (id : Z) | Leave.
#[global] Instance Flow_eq_dec : EqDecision Flow.
Proof. solve_decision. Defined.

Section run.
Context `{Host} `{Arch} `{VmArch} `{Floats} {E F G J : Type} `{Softmmu G} `{Escapes G} `{VmMemory G} `{Environment E G}
  `{BlockLifter F G} `{JitBackend J G}.
Context (encoded_len : Module → Z) (hash_order : list (Z * Z) → list (Z * Z)).
Abbreviation VM := (InterpVm E F G J).
Implicit Types (vm : VM) (b : Block).

(** * Small steps *)
Definition only_block (id : Z) (c : Cpu G) : Cpu G := at_block id (c_offset c) c.
Definition only_code (code : Z) (c : Cpu G) : Cpu G := raise code (exc_value (c_exc c)) c.
Definition fuel_left vm : Z := remaining (c_fuel (vm_cpu vm)).
Definition charge (n : Z) vm : VM := on_cpu (with_remaining (sub_u64 (fuel_left vm) n)) vm.
Definition charge_saturating (n : Z) vm : VM := on_cpu (with_remaining (saturating_sub (fuel_left vm) n)) vm.
(** What the interpreter would have ticked up to a fault. *)
Definition tick_to_fault (l : list Inst) (index : Z) vm : option VM :=
  '(pc, n) ← fault_pc_and_fuel l index;
  let vm := match pc with Some pc => on_cpu (Interp.write_pc pc) vm | None => vm end in
  Some (charge_saturating n vm).
Definition count_dispatch (is_region : bool) vm : VM :=
  on_jit (λ s, let s := set_js_dispatches (js_dispatches s + 1) s in
               if is_region then set_js_region_dispatches (js_region_dispatches s + 1) s
               else set_js_block_dispatches (js_block_dispatches s + 1) s) vm.
Definition use_handle (h : Z) vm : VM := on_jit (λ s, set_js_budget (touch h (js_budget s)) s) vm.
Definition track (f : Tracking → option Tracking) vm : option VM :=
  t ← f (ob_executed (vm_seen vm)); Some (on_seen (set_ob_executed t) vm).
Definition leave_at (id offset : Z) vm : VM * Flow := (on_cpu (at_block id offset) vm, Leave).
Definition leave_with (code value : Z) vm : VM * Flow := (set_exception code value vm, Leave).
(** Where control goes once a block is known, and the mirrors it sets. *)
Definition enter_block (id : Z) vm : VM * Flow :=
  match block_at vm id with
  | Some b => (mark_icount (mark_block (b_start b) vm), GoTo id)
  | None => (corrupted_block_map vm, Leave)
  end.
Definition resume_at (id : Z) vm : VM * Flow := enter_block id (on_cpu (at_block id 0) vm).

(** * Compiling *)
Definition caches vm : Caches := js_caches (vm_jit vm).
Definition set_caches (x : Caches) : VM → VM := on_jit (set_js_caches x).
Definition bail_region (key : Z) vm : VM := set_caches (with_regions (<[key := None]> (c_regions (caches vm))) (caches vm)) vm.
Definition bail_block (key : Z) vm : VM := set_caches (with_blocks (<[key := None]> (c_blocks (caches vm))) (caches vm)) vm.
(** Make room, compile, and remember the handle; a decline leaves the cache
    absent. Without a backend it panics. *)
Definition compile_code (key : Z) (is_region : bool) (meta : option TraceMeta) (m : Module) vm : option (VM * option Z) :=
  j ← js_jit (vm_jit vm);
  let '(budget, j, x) := make_room (encoded_len m) (js_budget (vm_jit vm)) j (caches vm) in
  let '(j, h) := jit_compile m j in
  let '(budget, x) :=
    match h with
    | Some h =>
        let x := install h key is_region x in
        (record h key is_region (encoded_len m) budget,
         match meta with Some t => with_traces (<[key := t]> (c_traces x)) x | None => x end)
    | None => (budget, x)
    end in
  Some (on_jit (λ s, set_js_jit (Some j) (set_js_budget budget (set_js_caches x s))) vm, h).
Definition trace_handle (key : Z) (order : list Z) vm : option (VM * option Z) :=
  match c_regions (caches vm) !! key with
  | Some decided => Some (vm, decided)
  | None =>
      match translate_trace hash_order (bt_blocks (vm_code vm)) order reg_pc with
      | Panic => None
      | Err _ => Some (bail_region key vm, None)
      | Ok t => compile_code key true (Some {| tm_resumes := t_resumes t; tm_sites := t_fault_sites t; tm_blocks := order |})
                  (t_module t) vm
      end
  end.
Definition region_handle (key : Z) (hot : bool) b (cond : option Value) vm : option (VM * option Z) :=
  match c_regions (caches vm) !! key with
  | Some decided => Some (vm, decided)
  | None =>
      if negb hot then Some (vm, None) else
      match translate_region (b_code b) cond with
      | Panic => None
      | Err _ => Some (bail_region key vm, None)
      | Ok m => compile_code key true None m vm
      end
  end.
Definition block_handle (key : Z) (hot : bool) b vm : option (VM * option Z) :=
  match c_blocks (caches vm) !! key with
  | Some decided => Some (vm, decided)
  | None =>
      if negb hot then Some (vm, None) else
      match translate_block (b_code b) with
      | Panic => None
      | Err _ => Some (bail_block key vm, None)
      | Ok m => compile_code key false None m vm
      end
  end.

(** * Dispatching *)
Definition call_handle (h : Z) vm : option (VM * JitOutcome) :=
  match js_jit (vm_jit vm) with
  | Some j => '(j, c, o) ← jit_call h (vm_cpu vm) j; Some (on_jit (set_js_jit (Some j)) (set_vm_cpu c vm), o)
  | None => Some (vm, Unavailable)
  end.
Definition call_region_handle (h max : Z) vm : option (VM * RegionOutcome) :=
  match js_jit (vm_jit vm) with
  | Some j => '(j, c, o) ← jit_call_region h (vm_cpu vm) max j; Some (on_jit (set_js_jit (Some j)) (set_vm_cpu c vm), o)
  | None => Some (vm, RegionUnavailable)
  end.
Definition trace_ran (id h : Z) (meta : TraceMeta) (fuel_before packed : Z) vm : option (VM * Flow) :=
  let retired := Z.shiftr packed TRACE_RESUME_BITS in
  match getz (tm_resumes meta) (Z.land packed (2 ^ TRACE_RESUME_BITS - 1)) with
  | None => Some (internal_error vm, Leave)
  | Some resume =>
      if (retired =? 0) || (fuel_before <? retired) then Some (internal_error vm, Leave) else
      let vm := charge retired vm in
      vm ← track (λ t, record_trace_instruction_ranges t (bt_blocks (vm_code vm)) (tm_blocks meta) retired None) (count_dispatch true vm);
      let vm := use_handle h vm in
      if negb (r_block resume =? NO_BLOCK) then Some (resume_at (r_block resume) vm)
      else
        let vm := on_cpu (Interp.write_pc (r_addr resume)) vm in
        match group_at vm (r_addr resume) with
        | Some g => Some (resume_at (bg_first g) vm)
        | None => Some (leave_with ExceptionCode.CodeNotTranslated (r_addr resume) (on_cpu (only_block id) vm))
        end
  end.
Definition trace_faulted (h : Z) (meta : TraceMeta) (fuel_before retired index : Z) vm : option (VM * Flow) :=
  match getz (tm_sites meta) index with
  | None => Some (internal_error vm, Leave)
  | Some (fault_block, local_index) =>
      if fuel_before <? retired then Some (internal_error vm, Leave) else
      let vm := charge retired vm in
      faulted ← block_at vm fault_block;
      vm ← tick_to_fault (b_code faulted) local_index vm;
      vm ← track (λ t, record_trace_instruction_ranges t (bt_blocks (vm_code vm)) (tm_blocks meta) retired
                         (Some (fault_block, local_index))) (count_dispatch true vm);
      Some (leave_at fault_block local_index (use_handle h vm))
  end.
Definition dispatch_trace (id : Z) b vm : option (VM * Flow) :=
  match select_trace (bt_blocks (vm_code vm)) id (λ addr, resolve_trace_external (vm_code vm) (get_block_key vm addr)) with
  | Ok (Some order) =>
      '(vm, handle) ← trace_handle id order vm;
      match handle, c_traces (caches vm) !! id with
      | Some h, Some meta =>
          let fuel_before := fuel_left vm in
          '(vm, outcome) ← (if fuel_before <? b_count b then Some (vm, RegionUnavailable) else call_region_handle h fuel_before vm);
          match outcome with
          | Ran packed => trace_ran id h meta fuel_before packed vm
          | RegionFaulted retired index => trace_faulted h meta fuel_before retired index vm
          | RegionUnavailable => Some (vm, Interpret)
          end
      | _, _ => Some (vm, Interpret)
      end
  | Ok None => Some (vm, Interpret)
  | _ => None
  end.
Definition region_ran (h : Z) b (iters : Z) vm : option (VM * Flow) :=
  let vm := charge (saturating_mul64 iters (b_count b)) vm in
  vm ← track (λ t, if 0 <? iters then record_instruction_ranges t (b_code b) 0 None else Some t) (count_dispatch true vm);
  Some (use_handle h vm, TakeExit).
Definition region_faulted (id h : Z) b (iters index : Z) vm : option (VM * Flow) :=
  vm ← tick_to_fault (b_code b) index (charge_saturating (saturating_mul64 iters (b_count b)) vm);
  vm ← track (λ t, record_instruction_ranges t (b_code b) 0 (if iters =? 0 then Some index else None)) (count_dispatch true vm);
  Some (leave_at id index (use_handle h vm)).
Definition dispatch_region (id : Z) (hot : bool) b vm : option (VM * Flow) :=
  match self_loop_kind b id with
  | None => Some (vm, Interpret)
  | Some cond =>
      '(vm, handle) ← region_handle id hot b cond vm;
      match handle with
      | None => Some (vm, Interpret)
      | Some h =>
          let num := b_count b in
          if (0 <? num) && (num <=? fuel_left vm) then
            '(vm, outcome) ← call_region_handle h (fuel_left vm / num) vm;
            match outcome with
            | Ran iters => region_ran h b iters vm
            | RegionFaulted iters index => region_faulted id h b iters index vm
            | RegionUnavailable => Some (vm, Interpret)
            end
          else Some (vm, Interpret)
      end
  end.
Definition block_completed (h : Z) b vm : option (VM * Flow) :=
  let vm := charge (b_count b) vm in
  vm ← track (λ t, record_instruction_ranges t (b_code b) 0 None) (count_dispatch false vm);
  Some (use_handle h vm, TakeExit).
Definition block_faulted (id h : Z) b (index : Z) vm : option (VM * Flow) :=
  vm ← tick_to_fault (b_code b) index vm;
  vm ← track (λ t, record_instruction_ranges t (b_code b) 0 (Some index)) (count_dispatch false vm);
  Some (leave_at id index (use_handle h vm)).
Definition dispatch_block (id : Z) (hot : bool) b vm : option (VM * Flow) :=
  '(vm, handle) ← block_handle id hot b vm;
  match handle with
  | None => Some (vm, Interpret)
  | Some h =>
      if b_count b <=? fuel_left vm then
        '(vm, outcome) ← call_handle h vm;
        match outcome with
        | Completed => block_completed h b vm
        | Faulted index => block_faulted id h b index vm
        | Unavailable => Some (vm, Interpret)
        end
      else Some (vm, Interpret)
  end.
(** The next path, when this one did not run the block. *)
Definition or_else (r : option (VM * Flow)) (k : VM → option (VM * Flow)) : option (VM * Flow) :=
  '(vm, f) ← r; match f with Interpret => k vm | _ => Some (vm, f) end.
Definition dispatch (id offset : Z) b vm : option (VM * Flow) :=
  if negb ((offset =? 0) && (b_breakpoints b =? 0) && (0 <? b_count b)) then Some (vm, Interpret) else
  match js_after (vm_jit vm) with
  | None => Some (vm, Interpret)
  | Some after =>
      let count := default 0 (js_entries (vm_jit vm) !! id) + 1 in
      let vm := on_jit (set_js_entries (<[id := count]> (js_entries (vm_jit vm)))) vm in
      let hot := after <=? count in
      or_else (or_else (if hot then dispatch_trace id b vm else Some (vm, Interpret)) (dispatch_region id hot b)) (dispatch_block id hot b)
  end.

(** * A block at a time *)
Definition profile_entry b vm : VM :=
  match ob_profile (vm_seen vm) with
  | None => vm
  | Some p =>
      let n := match p !! b_start b with Some e => bp_entries e | None => 0 end in
      on_seen (set_ob_profile (Some (<[b_start b := {| bp_entries := n + 1; bp_instructions := b_count b |}]> p))) vm
  end.
(** The number of markers before the first breakpoint. *)
Fixpoint first_breakpoint (bps : gset Z) (l : list Inst) (k : Z) : option (option Z) :=
  match l with
  | [] => Some None
  | i :: l =>
      if is_marker i then a ← as_u64 (i_a i); if bool_decide (a ∈ bps) then Some (Some k) else first_breakpoint bps l (k + 1)
      else first_breakpoint bps l k
  end.
Definition limit_to_breakpoint (offset : Z) b vm : option VM :=
  if b_breakpoints b =? 0 then Some vm
  else if zlen (b_code b) <? offset then None
  else
    r ← first_breakpoint (bt_breakpoints (vm_code vm)) (drop (Z.to_nat offset) (b_code b)) 0;
    Some (match r with Some k => on_cpu (update_fuel (Z.min (fuel_left vm) k)) vm | None => vm end).
Definition interpret_here (id offset : Z) b vm : option (VM * Flow) :=
  '(c, stopped) ← Interp.interpret_block (b_code b) offset (vm_cpu vm);
  vm ← track (λ t, record_instruction_ranges t (b_code b) offset stopped) (set_vm_cpu c vm);
  Some (match stopped with Some k => leave_at id k vm | None => (vm, TakeExit) end).
(** A block re-entered often enough is lifted again, optimized. *)
Definition promote (addr : Z) vm : VM * bool :=
  match ls_promote (vm_lift vm) with
  | None => (vm, false)
  | Some threshold =>
      if bool_decide (addr ∈ ls_promoted (vm_lift vm)) then (vm, false) else
      let count := default 0 (ls_entries (vm_lift vm) !! addr) + 1 in
      let vm := on_lift (set_ls_entries (<[addr := count]> (ls_entries (vm_lift vm)))) vm in
      if count <? threshold then (vm, false) else
      let key := get_block_key vm addr in
      let vm := set_vm_code (with_map (delete key (bt_map (vm_code vm))) (vm_code vm)) vm in
      (on_lift (λ s, set_ls_index (delete (addr, bk_isa key) (ls_index s)) (set_ls_promoted ({[addr]} ∪ ls_promoted s) s)) vm, true)
  end.
Definition exit_external (id addr : Z) vm : VM * Flow :=
  let vm := on_cpu (Interp.write_pc addr) vm in
  let '(vm, promoted) := promote addr vm in
  let untranslated := leave_with ExceptionCode.CodeNotTranslated addr (on_cpu (only_block id) vm) in
  if promoted then untranslated
  else match group_at vm addr with
       | Some g => enter_block (bg_first g) vm
       | None => untranslated
       end.
Definition take_exit (id : Z) b vm : VM * Flow :=
  match Interp.block_exit (b_exit b) (vm_cpu vm) with
  | TInternal id => enter_block id vm
  | TExternal v => exit_external id (zxt 64 (read_dynamic (c_regs (vm_cpu vm)) v)) vm
  | TInvalid code addr =>
      let vm := on_cpu (Interp.write_pc addr) vm in
      leave_with (if fuel_left vm =? 0 then ExceptionCode.InstructionLimit else code) addr vm
  end.
Definition block_step (id offset : Z) vm : option (VM * Flow) :=
  b ← block_at vm id;
  vm ← limit_to_breakpoint offset b (profile_entry b vm);
  '(vm, f) ← or_else (dispatch id offset b vm) (interpret_here id offset b);
  Some (match f with TakeExit => take_exit id b vm | _ => (vm, f) end).
Fixpoint blocks_loop (n : nat) (id offset : Z) vm : option VM :=
  match n with
  | O => None
  | S n => '(vm, f) ← block_step id offset vm;
           match f with GoTo id => blocks_loop n id 0 vm | _ => Some vm end
  end.
Definition no_exception : Exception := {| exc_code := 0; exc_value := 0 |}.
Definition run_block_interpreter (n : nat) vm : option VM :=
  let vm := on_cpu (with_exc no_exception) vm in
  match get_current_block vm with
  | None => Some (set_exception ExceptionCode.CodeNotTranslated (Interp.read_pc (vm_cpu vm)) vm)
  | Some (id, offset) =>
      let vm := match block_at vm id with Some b => mark_block (b_start b) vm | None => vm end in
      let vm := on_cpu (at_block (c_block (vm_cpu vm)) 0) vm in
      match block_at vm id with
      | None => Some (corrupted_block_map vm)
      | Some b =>
          let retry := rs_retry (vm_run vm) in
          let vm := on_run (set_rs_retry false) vm in
          blocks_loop n id offset (on_cpu (λ c, adjust_cpu_fuel_for_block_reentry c b offset retry) vm)
      end
  end.

(** * Exceptions *)
Definition access_faults : list Z := [513; 514; 517; 769; 770; ExecViolation].
Definition code_of vm : Z := ExceptionCode.from_u32 (exc_code (c_exc (vm_cpu vm))).
Definition value_of vm : Z := exc_value (c_exc (vm_cpu vm)).
(** A fault on a registered page fills it; the faulting operation runs again. *)
Definition try_page_in vm : VM * bool :=
  if negb (bool_decide (code_of vm ∈ access_faults)) then (vm, false) else
  let page := page_of (value_of vm) in
  match ob_lazy (vm_seen vm) !! page with
  | None => (vm, false)
  | Some (data, perm) =>
      let '(g, ok) := vmm_write_bytes (c_mem (vm_cpu vm)) page data in
      let '(g, ok) := if ok then vmm_update_perm g page (zlen data) perm else (g, false) in
      let vm := on_cpu (with_mem g) vm in
      if ok then
        let vm := on_seen (λ s, set_ob_page_ins (ob_page_ins s + 1) (set_ob_lazy (delete page (ob_lazy s)) s)) vm in
        (on_run (set_rs_retry true) (on_cpu (with_exc no_exception) vm), true)
      else (vm, false)
  end.
Definition ask_environment vm : VM * option VmExit :=
  let '(env, c, (asid, retry), exit) := env_handle_exception (vm_env vm) (vm_cpu vm) (vm_run vm) in
  (on_run (λ s, set_rs_retry retry (set_rs_asid asid s)) (set_vm_env env (set_vm_cpu c vm)), exit).
Definition unhandled (code : Z) vm : VM * VmExit := (vm, UnhandledException code (value_of vm)).
Definition enter_group (g : BlockGroup) vm : VM * VmExit := (on_cpu (at_block (bg_first g) 0) vm, Running).

(** The three handlers call each other; [again] is the handler of the fault that
    lifting raises. *)
Section handlers.
Context (again : VM → option (VM * VmExit)).
Definition handle_code_not_translated vm : option (VM * VmExit) :=
  let pc := Interp.read_pc (vm_cpu vm) in
  if bool_decide (is_Some (group_at vm pc)) then Some (vm, UnhandledException ExceptionCode.InternalError CORRUPTED_BLOCK_MAP) else
  '(vm, lifted) ← lift pc vm;
  match lifted with
  | inl g => Some (enter_group g vm)
  | inr e =>
      let address := match e with NonExecutableMemory a => a | OtherDecodeError _ => pc end in
      let vm := on_cpu (only_block U64_MAX) (set_exception (decode_code e) address vm) in
      if rs_limit (vm_run vm) <=? c_icount (vm_cpu vm) then Some (vm, InstructionLimit) else again vm
  end.
Definition handle_external_address (addr : Z) vm : option (VM * VmExit) :=
  let vm := on_cpu (Interp.write_pc addr) vm in
  match group_at vm addr with
  | Some g => Some (enter_group g vm)
  | None => handle_code_not_translated vm
  end.
Definition handle_unimplemented_op vm : VM * VmExit := unhandled ExceptionCode.UnimplementedOp vm.
Definition self_modified vm : option (VM * VmExit) :=
  let vm := on_cpu (λ c, with_mem (vmm_clear_code_cache (c_mem c)) c) vm in
  let vm := on_cpu (at_block U64_MAX 0) (flush_code vm) in
  handle_external_address (Interp.read_pc (vm_cpu vm)) vm.
Definition handle_code (code : Z) vm : option (VM * VmExit) :=
  if (code =? ExceptionCode.NoException) || (code =? ExceptionCode.InstructionLimit) then
    if rs_limit (vm_run vm) <=? c_icount (vm_cpu vm) then Some (vm, InstructionLimit)
    else if bool_decide (Interp.read_pc (vm_cpu vm) ∈ bt_breakpoints (vm_code vm)) then Some (vm, Breakpoint)
    else Some (update_timer vm, Running)
  else if code =? ExceptionCode.SoftwareBreakpoint then Some (vm, Breakpoint)
  else if code =? ExternalAddr then handle_external_address (value_of vm) vm
  else if code =? ExceptionCode.CodeNotTranslated then handle_code_not_translated vm
  else if code =? ExceptionCode.UnimplementedOp then Some (handle_unimplemented_op vm)
  else if (code =? ExceptionCode.ShadowStackInvalid) || (code =? ExceptionCode.ShadowStackOverflow) then
    b ← block_at vm (c_block (vm_cpu vm));
    Some (unhandled code (on_cpu (at_block (c_block (vm_cpu vm)) (zlen (b_code b))) vm))
  else if code =? ExceptionCode.SelfModifyingCode then self_modified vm
  else if (code =? ExceptionCode.Halt) || (code =? ExceptionCode.Sleep) then Some (vm, Halt)
  else if code =? ExceptionCode.OutOfMemory then Some (vm, OutOfMemory)
  else Some (unhandled code vm).
Definition handle_once vm : option (VM * VmExit) :=
  if rs_interrupt (vm_run vm) then Some (vm, Interrupted) else
  let '(vm, served) := if bool_decide (ob_lazy (vm_seen vm) = ∅) then (vm, false) else try_page_in vm in
  if served then Some (vm, Running) else
  let '(vm, exit) := ask_environment vm in
  match exit with Some exit => Some (vm, exit) | None => handle_code (code_of vm) vm end.
End handlers.
Fixpoint handle_exception (n : nat) vm : option (VM * VmExit) :=
  match n with O => None | S n => handle_once (handle_exception n) vm end.

(** * Running *)
Definition take_pending (n : nat) vm : option (VM * VmExit) :=
  match c_pending (vm_cpu vm) with
  | None => Some (vm, Running)
  | Some e => handle_exception n (on_cpu (λ c, with_exc e (with_pending None c)) vm)
  end.
Definition run_slice (n : nat) vm : option VM :=
  let todo := saturating_sub (rs_next_timer (vm_run vm)) (c_icount (vm_cpu vm)) in
  if 0 <? todo then vm ← run_block_interpreter n (on_cpu (update_fuel todo) vm); Some (on_cpu (update_fuel 0) vm)
  else Some (on_cpu (only_code ExceptionCode.InstructionLimit) vm).
Fixpoint run_loop (n : nat) vm : option (VM * VmExit) :=
  match n with
  | O => None
  | S n =>
      '(vm, exit) ← take_pending n vm;
      match exit with
      | Running =>
          vm ← run_slice n vm;
          '(vm, exit) ← handle_exception n vm;
          match exit with Running => run_loop n vm | exit => Some (vm, exit) end
      | exit => Some (vm, exit)
      end
  end.
Definition prepare vm : VM :=
  if rs_resume (vm_run vm) then on_run (set_rs_resume false) vm else
  update_timer (match c_block (vm_cpu vm) =? U64_MAX, get_current_block vm with
                | true, Some (id, _) => on_cpu (at_block id 0) vm
                | _, _ => vm
                end).
Definition run (n : nat) vm : option (VM * VmExit) := run_loop n (prepare vm).
End run.
