(* ===== verification/VmSpec.v ===== *)
(** The machine with compiled code against the machine without: where a block stops,
    one step, one loop. *)

From S2P Require Import Prelude Cpu Pcode Wasm Jit JitSim JitArms JitAccess JitBlock Backend VmTrace Vm.

(** The program counter and the fuel while a translated block is interpreted:
    only markers move them, so where a block stops says what they are. *)
(** * Operations leave the program counter alone *)
Create HintDb keeps.
Section keeps.
Context `{Arch} `{Floats} {G : Type} `{Softmmu G} `{Escapes G}.
Implicit Types c : Cpu G.
Definition keeps_pc (c c' : Cpu G) : Prop := ∀ j, in_pc j → reg_byte (c_regs c') j = reg_byte (c_regs c) j.
Lemma keeps_refl c c' : c_regs c' = c_regs c → keeps_pc c c'.
Proof. by intros E j _; rewrite E. Qed.
Lemma keeps_trans c1 c2 c3 : keeps_pc c1 c2 → keeps_pc c2 c3 → keeps_pc c1 c3.
Proof. intros H12 H23 j Hj. rewrite H23 by done. by apply H12. Qed.
Lemma keeps_put v n x c : var_ok v → 0 ≤ n ≤ v_size v → keeps_pc c (put v n x c).
Proof.
  intros (_ & _ & _ & Hv) Hn j Hj. unfold put, write, write_reg. cbn [with_regs c_regs]. apply reg_byte_put_out. rewrite zlen_le_bytes.
  destruct (decide (regs_var_offset v ≤ j < regs_var_offset v + n)); [|lia]. exfalso. apply (Hv j); [lia|done].
Qed.
Lemma keeps_put_trunc v x c : var_ok v → keeps_pc c (put_trunc v x c).
Proof.
  intros Hv. pose proof Hv as (Hs & _). unfold put_trunc, write_trunc. case_bool_decide.
  - apply (keeps_put v (v_size v) x c); [done|lia].
  - destruct (_ =? 32) eqn:E; [|by apply keeps_refl]. apply (keeps_put v 16 x c); [done|lia].
Qed.
Lemma slice_var_ok v k n w : var_ok v → 0 ≤ k → 0 ≤ n → slice_var v k n = Some w → var_ok w ∧ v_size w = n.
Proof.
  unfold slice_var. intros (Hs & Ho & Hl & Hv) Hk Hn. destruct (_ <? _) eqn:E; [done|]. intros [= <-]. unfold var_ok, regs_var_offset in *.
  cbn [v_size v_id v_offset]. split_and!; try lia. intros j Hj. apply Hv. lia.
Qed.
Lemma keeps_slice v k w x c : var_ok v → 0 ≤ k → slice_var v k 1 = Some w → keeps_pc c (put w 1 x c).
Proof. intros Hv Hk Hw. destruct (slice_var_ok v k 1 w Hv Hk ltac:(lia) Hw) as [Hok Hn]. apply keeps_put; [done|lia]. Qed.
Lemma keeps_copy_bytes v out k n last c c' x :
  var_ok out → 0 ≤ k → Interp.copy_bytes v out k n last c = Some (c', x) → keeps_pc c c'.
Proof.
  intros Hv. revert k last c. induction n as [|n IH]; intros k last c Hk Hc; [injection Hc as <- <-; by apply keeps_refl|]. cbn in Hc.
  apply bind_Some in Hc as (f & _ & Hc). apply bind_Some in Hc as (t & Ht & Hc). apply IH in Hc; [|lia].
  eapply keeps_trans; [|done]. by eapply keeps_slice.
Qed.
Lemma keeps_fill_bytes out k x n c c' : var_ok out → 0 ≤ k → Interp.fill_bytes out k x n c = Some c' → keeps_pc c c'.
Proof.
  intros Hv. revert k c. induction n as [|n IH]; intros k c Hk Hc; [injection Hc as <-; by apply keeps_refl|]. cbn in Hc.
  apply bind_Some in Hc as (t & Ht & Hc). apply IH in Hc; [|lia]. eapply keeps_trans; [|done]. by eapply keeps_slice.
Qed.
Lemma keeps_copy_cold v out c c' : var_ok out → Interp.copy_cold v out c = Some c' → keeps_pc c c'.
Proof. unfold Interp.copy_cold. intros Hv ([c1 x] & Hc & ->)%fmap_Some. by eapply keeps_copy_bytes. Qed.
Lemma copy_keeps_pc v out c c' : var_ok out → Interp.copy v out c = Some c' → keeps_pc c c'.
Proof.
  unfold Interp.copy. intros Hv. pose proof Hv as (Hs & _). destruct (int_size _); [intros [= <-]; by apply keeps_put|by apply keeps_copy_cold].
Qed.
Lemma keeps_load_to v n addr c : var_ok v → 0 ≤ n ≤ v_size v → keeps_pc c (Interp.load_to v n addr c).1.
Proof.
  intros Hv Hn. unfold Interp.load_to. destruct (mmu_read _ _ _) as [g []]; [|by apply keeps_refl].
  by apply (keeps_put v n _ (with_mem g c)).
Qed.
Lemma keeps_store_from n addr x c : keeps_pc c (Interp.store_from n addr x c).1.
Proof. unfold Interp.store_from. destruct (mmu_write _ _ _) as [g []]; by apply keeps_refl. Qed.
Lemma keeps_load_each v k addr n c c' : var_ok v → 0 ≤ k → Interp.load_each v k addr n c = Some c' → keeps_pc c c'.
Proof.
  intros Hv. revert k c. induction n as [|n IH]; intros k c Hk Hc; [injection Hc as <-; by apply keeps_refl|]. cbn in Hc.
  apply bind_Some in Hc as (t & Ht & Hc). destruct (slice_var_ok v k 1 t Hv Hk ltac:(lia) Ht) as [Hok Hn].
  pose proof (keeps_load_to t 1 (wrapping_add64 addr k) c Hok ltac:(lia)) as Hf.
  destruct (Interp.load_to _ _ _ _) as [c1 []]; cbn in Hf; [|by injection Hc as <-]. apply IH in Hc; [|lia]. by eapply keeps_trans.
Qed.
Lemma keeps_load v addr c c' : var_ok v → Interp.load v addr c = Some c' → keeps_pc c c'.
Proof.
  intros Hv. pose proof Hv as (Hs & _). unfold Interp.load. destruct (word_size _); [intros [= <-]; by apply keeps_load_to|].
  destruct (_ =? 16) eqn:E; [|by apply keeps_load_each]. intros (lo & Hlo & (hi & Hhi & Hc)%bind_Some)%bind_Some.
  destruct (slice_var_ok v 0 8 lo Hv ltac:(lia) ltac:(lia) Hlo) as [Hok Hn].
  destruct (slice_var_ok v 8 8 hi Hv ltac:(lia) ltac:(lia) Hhi) as [Hok' Hn'].
  pose proof (keeps_load_to lo 8 addr c Hok ltac:(lia)) as Hf. destruct (Interp.load_to lo _ _ _) as [c1 []]; injection Hc as <-; [|done].
  eapply keeps_trans; [done|]. apply keeps_load_to; [done|lia].
Qed.
Lemma keeps_store_each v k addr n c c' : Interp.store_each v k addr n c = Some c' → keeps_pc c c'.
Proof.
  revert k c. induction n as [|n IH]; intros k c Hc; [injection Hc as <-; by apply keeps_refl|]. cbn in Hc.
  apply bind_Some in Hc as (f & _ & Hc). pose proof (keeps_store_from 1 (wrapping_add64 addr k) (get c f 1) c) as Hf.
  destruct (Interp.store_from _ _ _ _) as [c1 []]; cbn in Hf; [|by injection Hc as <-]. apply IH in Hc. by eapply keeps_trans.
Qed.
Lemma keeps_store addr v c c' : Interp.store addr v c = Some c' → keeps_pc c c'.
Proof.
  unfold Interp.store. destruct (word_size _); [intros [= <-]; apply keeps_store_from|].
  destruct (_ =? 16); [|apply keeps_store_each]. intros (lo & _ & Hc)%bind_Some.
  pose proof (keeps_store_from 8 addr (get c lo 8) c) as Hf. destruct (Interp.store_from _ _ _ _) as [c1 []]; cbn in Hf.
  - apply bind_Some in Hc as (hi & _ & [= <-]). eapply keeps_trans; [done|]. apply keeps_store_from.
  - by injection Hc as <-.
Qed.
Lemma keeps_zext v out c c' : var_ok out → 0 ≤ size_of v → Interp.zext_cold v out c = Some c' → keeps_pc c c'.
Proof.
  unfold Interp.zext_cold. intros Hv Hs ([c1 x] & Hc & Hf)%bind_Some. apply keeps_fill_bytes in Hf; [|done..].
  apply keeps_copy_bytes in Hc; [|done..]. by eapply keeps_trans.
Qed.
Lemma keeps_sext v out c c' : var_ok out → 0 ≤ size_of v → Interp.sext_cold v out c = Some c' → keeps_pc c c'.
Proof.
  unfold Interp.sext_cold. intros Hv Hs. destruct (_ =? _); [by apply copy_keeps_pc|].
  intros ([c1 x] & Hc & Hf)%bind_Some. apply keeps_fill_bytes in Hf; [|done..].
  apply keeps_copy_bytes in Hc; [|done..]. by eapply keeps_trans.
Qed.
Ltac keeps_puts Hi :=
  unfold Interp.binary, Interp.divide, Interp.compare, Interp.booleans, Interp.unary, Interp.count, Interp.shift_op,
    Interp.signed_right, Interp.from_float, Interp.float_binary, Interp.float_single, Interp.float_compare,
    Interp.float_nan, Interp.to_float, Interp.float_to_float, Interp.invalid_op_size in Hi; cbn [i_op i_a i_b i_out] in Hi;
  repeat (first [apply bind_Some in Hi as (? & _ & Hi)
                |match type of Hi with context [match ?x with _ => _ end] => destruct x eqn:? end]); simplify_eq;
  first [congruence | by apply keeps_refl | by apply keeps_put_trunc | apply keeps_put; [done|lia]].
(** Floats of the widths the compiler accepts do not escape. *)
Ltac accepted Hc Hi :=
  unfold float_op_arm, float_unary_arm, float_compare_arm, is_nan_op, int_to_float_op, uint_to_float_op, float_to_int_op in Hc;
  apply unless_Ok in Hc as [Hc _]; bool_to_prop;
  repeat match goal with E : float_size _ = true |- _ => pose proof (float_not_ten _ E); revert E end; intros; keeps_puts Hi.
Lemma keeps_float_to_float i c c' code :
  var_ok (i_out i) → float_to_float_op (i_out i) (i_a i) = Ok code → Interp.float_to_float i c = Some c' → keeps_pc c c'.
Proof.
  unfold float_to_float_op, Interp.float_to_float. intros Ho Hc Hi. pose proof Ho as (Hs & _).
  destruct (negb _); [injection Hi as <-; by apply keeps_refl|].
  assert (float_size (size_of (i_a i)) && float_size (v_size (i_out i)) = true) as E.
  { by eapply float_to_float_widths. }
  rewrite E in Hi. injection Hi as <-. by apply keeps_put.
Qed.
Lemma extend_width out a code :
  zero_extend_op out a = Ok code ∨ sign_extend_op out a = Ok code → 0 ≤ size_of a.
Proof.
  destruct (word_size (size_of a)) eqn:E; [intros _; apply bool_decide_eq_true in E; set_unfold; lia|].
  unfold zero_extend_op, sign_extend_op. rewrite E, !andb_false_r. intros [Hc|Hc]; peel Hc;
    destruct (wasm_ty_cases _ _ Hx) as [Hs _]; lia.
Qed.
Lemma interpret_keeps_pc i index has_host it fast code c c' :
  inst_ok i → translate_instruction i index has_host it fast = Ok code → i_op i ≠ Op.InstructionMarker →
  Interp.interpret i c = Some c' → keeps_pc c c'.
Proof.
  intros (Ho & Ha & Hb & _) Hc Hm Hi. destruct i as [o a b out]. cbn [i_op i_a i_b i_out] in *. pose proof Ho as (Hs & _).
  unfold translate_instruction in Hc. unfold Interp.interpret in Hi. cbn [i_op i_a i_b i_out] in *.
  destruct o; try discriminate Hc; try discriminate Hi; try done; try (solve [clear Hc; keeps_puts Hi]).
  all: try (solve [accepted Hc Hi]).
  - destruct (_ && _); [injection Hi as <-; by apply keeps_put|by eapply keeps_copy_cold].
  - by eapply copy_keeps_pc.
  - pose proof (extend_width _ _ _ (or_introl Hc)). destruct (Interp.extends _); [injection Hi as <-; by apply keeps_put|by eapply keeps_zext].
  - pose proof (extend_width _ _ _ (or_intror Hc)). destruct (Interp.extends _); [injection Hi as <-; by apply keeps_put|by eapply keeps_sext].
  - by eapply (keeps_float_to_float {| i_op := Op.FloatToFloat; i_a := a; i_b := b; i_out := out |}).
  - unfold load_op in Hc. apply unless_Ok in Hc as [Hg _]. bool_to_prop.
    replace (space =? RAM_SPACE) with true in Hi by lia. by eapply keeps_load.
  - unfold store_op in Hc. apply unless_Ok in Hc as [Hg _]. bool_to_prop.
    replace (space =? RAM_SPACE) with true in Hi by lia. by eapply keeps_store.
Qed.

(** * Where a block stops *)
(** From [c], [n] instructions started, the last at [pc]. *)
Definition ticked (pc : option Z) (n : Z) (c c' : Cpu G) : Prop :=
  c_fuel c' = {| remaining := remaining (c_fuel c) - n; start := start (c_fuel c) |} ∧ c_pending c' = c_pending c ∧
  c_icount c' = c_icount c ∧ keeps_pc (match pc with Some a => Interp.write_pc a c | None => c end) c'.
Lemma ticked_none c c' : frame c' = frame c → keeps_pc c c' → ticked None 0 c c'.
Proof. intros [= Hp Hf Hi _ _] Hk. split_and!; [|done..]. rewrite Hf, Z.sub_0_r. by destruct (c_fuel c). Qed.
Lemma keeps_write_pc a c c1 : keeps_pc (Interp.write_pc a c) (Interp.write_pc a c1).
Proof. intros j Hj. apply reg_byte_put_in. rewrite zlen_le_bytes. unfold in_pc, pc_offset in Hj. lia. Qed.
Lemma ticked_trans pc1 n1 pc2 n2 c c1 c' :
  ticked pc1 n1 c c1 → ticked pc2 n2 c1 c' → ticked (match pc2 with Some _ => pc2 | None => pc1 end) (n1 + n2) c c'.
Proof.
  intros (Hf1 & Hp1 & Hi1 & Hk1) (Hf2 & Hp2 & Hi2 & Hk2). split_and!; [|congruence..|].
  - rewrite Hf2, Hf1. cbn. f_equal. lia.
  - destruct pc2 as [a|]; [|by eapply keeps_trans]. eapply keeps_trans; [apply keeps_write_pc|done].
Qed.
Lemma ticked_marker addr c : 1 ≤ remaining (c_fuel c) → ticked (Some addr) 1 c (Interp.next_instruction addr c).
Proof.
  intros Hf. unfold Interp.next_instruction. cbn [Interp.write_pc at_block with_regs c_fuel]. replace (1 <=? _) with true by lia.
  split_and!; [done..|]. by apply keeps_refl.
Qed.
Lemma last_marker_acc l pc n :
  last_marker l pc n = '(p, m) ← last_marker l None 0; Some (match p with Some _ => p | None => pc end, n + m).
Proof.
  revert pc n. induction l as [|i l IH]; intros pc n; cbn; [by rewrite Z.add_0_r|].
  destruct (is_marker i); [|apply IH]. destruct (as_u64 (i_a i)) as [a|]; [|done]. cbn. rewrite (IH (Some a) (n + 1)), (IH (Some a) (0 + 1)).
  destruct (last_marker l None 0) as [[p m]|]; [|done]. cbn. destruct p; f_equal; f_equal; lia.
Qed.
Lemma interpret_ticks l index has_host it fast code k c c' r :
  Forall inst_ok l → translate_all l index has_host it fast = Ok code → count_instructions l ≤ remaining (c_fuel c) →
  exc_code (c_exc c) = 0 → Interp.interpret_from k l c = Some (c', r) →
  ∃ pc n, last_marker (match r with Some i => take (Z.to_nat (i + 1 - k)) l | None => l end) None 0 = Some (pc, n) ∧
          ticked pc n c c' ∧ match r with Some i => k ≤ i < k + zlen l | None => True end.
Proof.
  intros Hok. revert index k code c. induction Hok as [|i l Hi Hl IH]; intros index k code c Hc Hf He Hr.
  - injection Hr as <- <-. exists None, 0. split_and!; [done| |done]. apply ticked_none; [done|by apply keeps_refl].
  - cbn in Hc, Hr. apply cat_Ok in Hc as (l1 & l2 & Hl1 & Hl2 & _). apply bind_Some in Hr as (c1 & Hint & Hr).
    rewrite markers_cons in Hf. rewrite zlen_cons. pose proof (count_nonneg l). pose proof (zlen_nonneg l).
    assert (∃ pc n, last_marker [i] None 0 = Some (pc, n) ∧ ticked pc n c c1 ∧ count_instructions l ≤ remaining (c_fuel c1) ∧
      (is_marker i = true → exc_code (c_exc c1) = 0)) as (pc & n & Hm & Ht & Hf1 & Hx).
    { destruct (decide (i_op i = Op.InstructionMarker)) as [Em|Em].
      - assert (is_marker i = true) as Hm by (by apply bool_decide_eq_true). rewrite Hm in Hf.
        destruct (marker_interpret i c c1 Hi Em Hint) as (addr & Ea & ->). exists (Some addr), 1.
        cbn. rewrite Hm, Ea. pose proof (ticked_marker addr c ltac:(lia)) as Ht. split_and!; [done|done| |].
        + destruct Ht as (-> & _). cbn. lia.
        + intros _. unfold Interp.next_instruction. cbn [Interp.write_pc at_block with_regs c_fuel]. by replace (1 <=? _) with true by lia.
      - assert (is_marker i = false) as Hm by (by apply bool_decide_eq_false). rewrite Hm in Hf. exists None, 0. cbn. rewrite Hm.
        pose proof (interpret_frame _ _ _ _ _ _ _ _ Hl1 Em Hint) as Hfr. split_and!; [done| | |done].
        + apply ticked_none; [done|by eapply interpret_keeps_pc].
        + injection Hfr as _ -> _ _ _. lia. }
    destruct (exc_code (c_exc c1) =? _) eqn:Ee.
    + apply Z.eqb_eq in Ee. destruct (IH _ _ _ _ Hl2 Hf1 Ee Hr) as (pc' & n' & Hm' & Ht' & Hr').
      exists (match pc' with Some _ => pc' | None => pc end), (n + n'). split_and!; [|by eapply ticked_trans|destruct r; [lia|done]].
      assert (∀ m, last_marker m None 0 = Some (pc', n') →
        last_marker (i :: m) None 0 = Some (match pc' with Some _ => pc' | None => pc end, n + n')) as Hcons.
      { intros m Em. cbn in Hm |- *. destruct (is_marker i); cbn in Hm |- *.
        - destruct (as_u64 (i_a i)); [|done]. cbn in Hm |- *. injection Hm as <- <-. by rewrite last_marker_acc, Em.
        - injection Hm as <- <-. rewrite Em. by destruct pc'. }
      destruct r as [j|]; [|by apply Hcons]. replace (Z.to_nat (j + 1 - k)) with (S (Z.to_nat (j + 1 - (k + 1)))) by lia. by apply Hcons.
    + injection Hr as <- <-. replace (Z.to_nat (k + 1 - k)) with 1%nat by lia. exists pc, n. cbn [take]. rewrite take_0.
      split_and!; [done|done|lia..].
Qed.
End keeps.

(** Dispatching to compiled code does what interpreting does: a block run by its
    compiled handle and a self-loop run by its compiled region, with the program
    counter, the fuel and the position put back where the interpreter has them. *)
(** * Processors and machines that agree *)
Section agree.
Context `{Arch} {G : Type}.
Implicit Types c : Cpu G.
Definition counters c : option Exception * Fuel * Z := (c_pending c, c_fuel c, c_icount c).
(** Up to the program counter and the block it stands for. *)
Definition but_pc (c1 c2 : Cpu G) : Prop :=
  same in_pc (c_regs c1) (c_regs c2) ∧ c_mem c1 = c_mem c2 ∧ c_exc c1 = c_exc c2 ∧ counters c1 = counters c2.
Definition alike (c1 c2 : Cpu G) : Prop :=
  (∀ j, reg_byte (c_regs c1) j = reg_byte (c_regs c2) j) ∧ c_mem c1 = c_mem c2 ∧ c_exc c1 = c_exc c2 ∧ frame c1 = frame c2.
Lemma alike_but_pc c1 c2 : alike c1 c2 → but_pc c1 c2.
Proof. intros (Hr & Hm & He & Hf). split_and!; [by intros j _|done..|]. unfold counters, frame in *. congruence. Qed.
Lemma but_pc_write a c1 c2 : but_pc c1 c2 → alike (Interp.write_pc a c1) (Interp.write_pc a c2).
Proof.
  intros (Hr & Hm & He & Hf). split_and!; [|done..|].
  - intros j. unfold Interp.write_pc. cbn [at_block with_regs c_regs]. unfold write_reg.
    destruct (decide (in_pc j)) as [Hj|Hj].
    + apply reg_byte_put_in. rewrite zlen_le_bytes. unfold in_pc, pc_offset in Hj. lia.
    + rewrite !reg_byte_put_out; [by apply Hr|..]; rewrite zlen_le_bytes; unfold in_pc, pc_offset in Hj; lia.
  - unfold counters, frame in *. cbn. congruence.
Qed.
Lemma alike_raise code v c1 c2 : alike c1 c2 → alike (raise code v c1) (raise code v c2).
Proof. intros (Hr & Hm & He & Hf). by split_and!. Qed.
Lemma alike_block id c1 c2 : alike c1 c2 → alike (only_block id c1) (only_block id c2).
Proof. intros (Hr & Hm & He & Hf). split_and!; [done..|]. unfold frame in *. cbn. congruence. Qed.
Lemma but_pc_raise code v c1 c2 : but_pc c1 c2 → but_pc (raise code v c1) (raise code v c2).
Proof. intros (Hr & Hm & He & Hf). by split_and!. Qed.
Lemma but_pc_icount c1 c2 : but_pc c1 c2 → cpu_icount c1 = cpu_icount c2.
Proof. intros (_ & _ & _ & [= _ Hf Hi]). unfold cpu_icount. congruence. Qed.
Lemma but_pc_get c1 c2 v n : but_pc c1 c2 → value_ok v → 0 ≤ n ≤ size_of v → get c1 v n = get c2 v n.
Proof.
  intros (Hr & _) Hv Hn. unfold get, read. destruct v as [x|]; [|done]. destruct Hv as (_ & _ & _ & Hv).
  eapply same_read_reg; [done|]. intros j Hj. apply Hv. cbn in Hn. lia.
Qed.
Lemma but_pc_dynamic c1 c2 v : but_pc c1 c2 → value_ok v → read_dynamic (c_regs c1) v = read_dynamic (c_regs c2) v.
Proof.
  intros Hc Hv. unfold read_dynamic. case_bool_decide as E.
  - f_equal. apply (but_pc_get c1 c2); [done..|]. set_unfold. lia.
  - destruct (_ =? 32) eqn:E32; [|done]. f_equal. apply (but_pc_get c1 c2); [done..|lia].
Qed.
End agree.

Section machines.
Context `{Arch} {E F G J : Type}.
Abbreviation VM := (InterpVm E F G J).
Implicit Types vm : VM.
(** All of a machine but its processor and its compiled code. *)
Definition rest vm : E * F * BlockTable * RunState * LiftState * Observed :=
  (vm_env vm, vm_lifter vm, vm_code vm, vm_run vm, vm_lift vm, vm_seen vm).
Definition machine_as (exact : bool) (vm1 vm2 : VM) : Prop :=
  rest vm1 = rest vm2 ∧ if exact then alike (vm_cpu vm1) (vm_cpu vm2) else but_pc (vm_cpu vm1) (vm_cpu vm2).
Lemma machine_but_pc exact vm1 vm2 : machine_as exact vm1 vm2 → rest vm1 = rest vm2 ∧ but_pc (vm_cpu vm1) (vm_cpu vm2).
Proof. intros [Hr Hc]. split; [done|]. destruct exact; [by apply alike_but_pc|done]. Qed.
End machines.

(** * One exit, taken by two machines that agree *)
Section exits.
Context `{Host} `{Arch} `{VmArch} `{Floats} {E F G J : Type} `{Softmmu G} `{Escapes G} `{VmMemory G} `{Environment E G}
  `{BlockLifter F G} `{JitBackend J G}.
Abbreviation VM := (InterpVm E F G J).
Implicit Types (vm : VM) (b : Block).
Definition exit_ok (e : BlockExit) : Prop :=
  let ok t := match t with TExternal v => value_ok v | _ => True end in
  match e with
  | Jump t => ok t
  | Branch cond t f => value_ok cond ∧ 1 ≤ size_of cond ∧ ok t ∧ ok f
  | Call t _ | Return t => value_ok t
  end.
Definition isa_apart : Prop := match reg_isa_mode with Some v => visible in_pc (regs_var_offset v) 1 | None => True end.
Definition is_internal (t : Target) : bool := match t with TInternal _ => true | _ => false end.
Context (Hisa : isa_apart).

Lemma but_pc_isa (c1 c2 : Cpu G) : but_pc c1 c2 → isa_mode c1 = isa_mode c2.
Proof.
  intros (Hr & _). unfold isa_mode, isa_apart in *. destruct reg_isa_mode as [v|]; [|done]. by eapply same_read_reg.
Qed.
Lemma rest_block_at vm1 vm2 id : rest vm1 = rest vm2 → block_at vm1 id = block_at vm2 id.
Proof. intros [= _ _ Hc _ _ _]. unfold block_at. by rewrite Hc. Qed.
Lemma rest_key vm1 vm2 a : rest vm1 = rest vm2 → but_pc (vm_cpu vm1) (vm_cpu vm2) → get_block_key vm1 a = get_block_key vm2 a.
Proof. intros [= _ _ _ Hr _ _] Hc. unfold get_block_key. by rewrite Hr, (but_pc_isa _ _ Hc). Qed.
Lemma rest_group vm1 vm2 a : rest vm1 = rest vm2 → but_pc (vm_cpu vm1) (vm_cpu vm2) → group_at vm1 a = group_at vm2 a.
Proof. intros Hr Hc. unfold group_at. rewrite (rest_key _ _ _ Hr Hc). by injection Hr as _ _ -> _ _ _. Qed.
Lemma enter_as exact vm1 vm2 id :
  machine_as exact vm1 vm2 → ∃ vm1' vm2' f, enter_block id vm1 = (vm1', f) ∧ enter_block id vm2 = (vm2', f) ∧ machine_as exact vm1' vm2'.
Proof.
  intros Hm. destruct (machine_but_pc _ _ _ Hm) as [Hr Hc]. unfold enter_block. rewrite (rest_block_at _ _ id Hr).
  destruct (block_at vm2 id) as [b|]; do 3 eexists; (split_and!; [done|done|]); destruct Hm as [_ Hm].
  - split; [|by destruct exact]. unfold rest in *. cbn. rewrite (but_pc_icount _ _ Hc). congruence.
  - split; [done|]. destruct exact; [by apply alike_raise|by apply but_pc_raise].
Qed.
Lemma promote_as exact vm1 vm2 a :
  machine_as exact vm1 vm2 → ∃ vm1' vm2' p, promote a vm1 = (vm1', p) ∧ promote a vm2 = (vm2', p) ∧ machine_as exact vm1' vm2'.
Proof.
  intros Hm. destruct (machine_but_pc _ _ _ Hm) as [Hr Hc]. unfold promote. pose proof Hr as [= _ _ Hcode _ Hl _]. rewrite Hl.
  destruct (ls_promote _) as [n|]; [|by do 3 eexists]. case_bool_decide; [by do 3 eexists|]. cbn zeta.
  destruct (_ <? n); do 3 eexists; (split_and!; [done|done|]); destruct Hm as [_ Hm].
  - split; [|done]. unfold rest in *. cbn. congruence.
  - split; [|done]. pose proof (rest_key _ _ a Hr Hc) as Hk. unfold get_block_key in *. unfold rest in *. cbn. cbn in Hk.
    rewrite Hk. congruence.
Qed.
Lemma exit_external_as vm1 vm2 id a :
  rest vm1 = rest vm2 → but_pc (vm_cpu vm1) (vm_cpu vm2) →
  ∃ vm1' vm2' f, exit_external id a vm1 = (vm1', f) ∧ exit_external id a vm2 = (vm2', f) ∧ machine_as true vm1' vm2'.
Proof.
  intros Hr Hc. unfold exit_external.
  assert (machine_as true (on_cpu (Interp.write_pc a) vm1) (on_cpu (Interp.write_pc a) vm2)) as Hm.
  { split; [done|]. by apply but_pc_write. }
  destruct (promote_as _ _ _ a Hm) as (vm1' & vm2' & p & -> & -> & Hm').
  assert (machine_as true (set_exception ExceptionCode.CodeNotTranslated a (on_cpu (only_block id) vm1'))
    (set_exception ExceptionCode.CodeNotTranslated a (on_cpu (only_block id) vm2'))) as Hleave.
  { destruct Hm' as [? ?]. split; [done|]. by apply alike_raise, alike_block. }
  destruct p; [by do 3 eexists|]. destruct (machine_but_pc _ _ _ Hm') as [Hr' Hc']. rewrite (rest_group _ _ a Hr' Hc').
  destruct (group_at vm2' a); [by apply enter_as|by do 3 eexists].
Qed.
Lemma block_exit_as e (c1 c2 : Cpu G) :
  exit_ok e → but_pc c1 c2 → Interp.block_exit e c1 = Interp.block_exit e c2 ∧
  match Interp.block_exit e c1 with TExternal v => value_ok v | _ => True end.
Proof.
  intros He Hc. destruct e as [t|cond t f|t|t]; cbn in *; [done| |done..]. destruct He as (Hv & Hs & Ht & Hf).
  rewrite (but_pc_get c1 c2 cond 1 Hc Hv ltac:(lia)). by destruct (_ =? 0).
Qed.
Lemma take_exit_as id b vm1 vm2 :
  exit_ok (b_exit b) → rest vm1 = rest vm2 → but_pc (vm_cpu vm1) (vm_cpu vm2) →
  ∃ vm1' vm2' f, take_exit id b vm1 = (vm1', f) ∧ take_exit id b vm2 = (vm2', f) ∧
    machine_as (negb (is_internal (Interp.block_exit (b_exit b) (vm_cpu vm2)))) vm1' vm2'.
Proof.
  intros He Hr Hc. unfold take_exit. destruct (block_exit_as _ _ _ He Hc) as [Hx Hv]. rewrite Hx in Hv |- *.
  destruct (Interp.block_exit (b_exit b) (vm_cpu vm2)) as [code a|id'|v]; cbn [is_internal negb].
  - do 3 eexists. split_and!; [done| |].
    + unfold leave_with, fuel_left. done.
    + destruct Hc as (? & ? & ? & Hf). unfold fuel_left. cbn. injection Hf as Hp Hf Hi. rewrite Hf. split; [done|].
      apply alike_raise, but_pc_write. split_and!; [done..|]. unfold counters. congruence.
  - by apply enter_as.
  - rewrite (but_pc_dynamic _ _ _ Hc Hv). by apply exit_external_as.
Qed.
End exits.

(** * What stopping compiled code puts back *)
Definition starts_at_marker (l : list Inst) : bool := match l with i :: _ => is_marker i | [] => false end.
Lemma fault_marker l k : 0 ≤ k < zlen l → fault_pc_and_fuel l k = last_marker (take (Z.to_nat (k + 1)) l) None 0.
Proof.
  intros Hk. unfold fault_pc_and_fuel. destruct l as [|i l]; [unfold zlen in Hk; cbn in Hk; lia|]. rewrite Z.min_l by lia.
  by replace (Z.to_nat (k + 1)) with (S (Z.to_nat k)) by lia.
Qed.
Lemma last_marker_seen l pc n p m : last_marker l (Some pc) n = Some (p, m) → is_Some p.
Proof.
  revert pc n. induction l as [|i l IH]; intros pc n Hl; [by injection Hl as <- _|]. cbn in Hl. destruct (is_marker i); [|by eapply IH].
  apply bind_Some in Hl as (a & _ & Hl). by eapply IH.
Qed.
Lemma last_marker_first l k p m :
  starts_at_marker l = true → 0 ≤ k → last_marker (take (Z.to_nat (k + 1)) l) None 0 = Some (p, m) → is_Some p.
Proof.
  intros Hs Hk Hl. replace (Z.to_nat (k + 1)) with (S (Z.to_nat k)) in Hl by lia. destruct l as [|i l]; [done|]. cbn in Hs, Hl.
  rewrite Hs in Hl. apply bind_Some in Hl as (a & _ & Hl). by eapply last_marker_seen.
Qed.
Lemma last_marker_count l p m : last_marker l None 0 = Some (p, m) → m = count_instructions l.
Proof.
  revert p m. induction l as [|i l IH]; intros p m Hl; [by injection Hl as _ <-|]. cbn in Hl. rewrite markers_cons.
  destruct (is_marker i); [|by eapply IH]. apply bind_Some in Hl as (a & _ & Hl). rewrite last_marker_acc in Hl.
  apply bind_Some in Hl as ([p' m'] & Hl & [= _ <-]). rewrite (IH _ _ Hl). lia.
Qed.
Lemma count_take k l : count_instructions (take k l) ≤ count_instructions l.
Proof.
  revert k. induction l as [|i l IH]; intros [|k]; cbn [take]; [done|done|apply count_nonneg|]. rewrite !markers_cons. specialize (IH k). lia.
Qed.

Section stop.
Context `{Arch} {G : Type}.
Implicit Types c : Cpu G.
Lemma ran_all c c' c1 pc n :
  ran_as c c' c1 → ticked pc n c c' → n ≤ remaining (c_fuel c) → but_pc (with_remaining (remaining (c_fuel c1) - n) c1) c'.
Proof.
  intros (Hr & Hm & He & Hf) (Hf' & Hp' & Hi' & _) Hn. split_and!; [done..|]. unfold frame, counters in *. injection Hf as Hp Hf Hi _ _. cbn.
  rewrite Hf', Hp', Hi', Hp, Hf, Hi. done.
Qed.
Lemma ran_until c c' c1 a n id k :
  ran_as c c' c1 → ticked (Some a) n c c' → n ≤ remaining (c_fuel c) →
  alike (at_block id k (with_remaining (saturating_sub (remaining (c_fuel c1)) n) (Interp.write_pc a c1))) (at_block id k c').
Proof.
  intros (Hr & Hm & He & Hf) (Hf' & Hp' & Hi' & Hk) Hn. unfold frame in *. injection Hf as Hp Hf Hi _ _. split_and!; [|done..|].
  - intros j. cbn [at_block with_remaining c_regs]. destruct (decide (in_pc j)) as [Hj|Hj].
    + rewrite Hk by done. by apply (keeps_write_pc a c c1).
    + rewrite <- Hr by done. apply reg_byte_put_out. rewrite zlen_le_bytes. unfold in_pc, pc_offset in Hj. lia.
  - unfold frame. cbn. rewrite Hf', Hp', Hi', Hp, Hf, Hi. unfold saturating_sub. by rewrite Z.max_r by lia.
Qed.
End stop.

(** * Dispatching a block *)
Section dispatch.
Context `{Host} `{Arch} `{VmArch} `{Floats} {E F G J : Type} `{Softmmu G} `{Escapes G} `{VmMemory G} `{Environment E G}
  `{BlockLifter F G} `{JitBackend J G}.
Context (encoded_len : Module → Z) (hash_order : list (Z * Z) → list (Z * Z)).
Context (owns : J → Z → Module → Prop) (inv : G → Prop) `{!BackendLaws owns inv}.
Abbreviation VM := (InterpVm E F G J).
Implicit Types (vm : VM) (b : Block).

(** A block compiled code stands for. *)
Record compilable b : Prop := {
  cb_insts : Forall inst_ok (b_code b);
  cb_length : zlen (b_code b) ≤ 2 ^ 32;
  cb_count : b_count b = count_instructions (b_code b);
  cb_marker : starts_at_marker (b_code b) = true
}.
(** A processor about to enter it. *)
Record ready b vm : Prop := {
  rd_mem : inv (c_mem (vm_cpu vm));
  rd_exc : exc_code (c_exc (vm_cpu vm)) = 0;
  rd_fuel : b_count b ≤ fuel_left vm
}.
Lemma block_ticks l index has_host it fast code (c c' : Cpu G) r :
  translate_all l index has_host it fast = Ok code → Forall inst_ok l → count_instructions l ≤ remaining (c_fuel c) →
  exc_code (c_exc c) = 0 → Interp.interpret_block l 0 c = Some (c', r) →
  match r with
  | None => ∃ pc, ticked pc (count_instructions l) c c'
  | Some k => ∃ pc n, fault_pc_and_fuel l k = Some (pc, n) ∧ ticked pc n c c' ∧ n ≤ count_instructions l ∧
      (starts_at_marker l = true → is_Some pc)
  end.
Proof.
  intros Hc Hok Hf He Hr. unfold Interp.interpret_block in Hr. rewrite drop_0 in Hr.
  destruct (interpret_ticks l index _ _ _ code 0 c c' r Hok Hc Hf He Hr) as (pc & n & Hl & Ht & Hk). destruct r as [k|].
  - rewrite Z.sub_0_r in Hl. exists pc, n. split_and!; [by rewrite fault_marker by lia|done| |].
    + rewrite (last_marker_count _ _ _ Hl). apply count_take.
    + intros Hs. by eapply last_marker_first; [..|exact Hl]; [|lia].
  - exists pc. by rewrite <- (last_marker_count _ _ _ Hl).
Qed.
Lemma track_as (f : Tracking → option Tracking) vm1 vm2 vm2' :
  vm_seen vm1 = vm_seen vm2 → track f vm2 = Some vm2' → ∃ t, f (ob_executed (vm_seen vm1)) = Some t ∧
  vm2' = on_seen (set_ob_executed t) vm2.
Proof. intros Hs Ht. unfold track in Ht. rewrite Hs. apply bind_Some in Ht as (t & Ht & [= <-]). by exists t. Qed.
Lemma dispatch_block_as id hot b vm j h m vm2 f :
  compilable b → ready b vm → js_jit (vm_jit vm) = Some j → c_blocks (caches vm) !! id = Some (Some h) → owns j h m →
  translate_block (b_code b) = Ok m → interpret_here id 0 b vm = Some (vm2, f) →
  ∃ vm1, dispatch_block encoded_len id hot b vm = Some (vm1, f) ∧ machine_as (bool_decide (f = Leave)) vm1 vm2 ∧ (f = Leave ∨ f = TakeExit).
Proof.
  intros [Hok Hlen Hcount Hstart] [Hmem He Hfuel] Hj Hh Hown Htr Hint. unfold interpret_here in Hint.
  apply bind_Some in Hint as ([c' r] & Hr & Hint). apply bind_Some in Hint as (vm' & Ht & Hint).
  destruct (call_refines j h m (b_code b) (vm_cpu vm) c' r Hown Htr Hok Hlen Hmem He ltac:(by rewrite <- Hcount) Hr) as (c1 & Hcall & Hran & _).
  assert (∃ code, translate_all (b_code b) 0 (block_needs_host (b_code b)) None BLOCK_FAST = Ok code) as [code Hcode].
  { unfold translate_block in Htr. apply rbind_Ok in Htr as (code & Hcode & _). by exists code. }
  pose proof (block_ticks _ _ _ _ _ _ _ _ _ Hcode Hok ltac:(by rewrite <- Hcount) He Hr) as Htick.
  unfold dispatch_block, block_handle. rewrite Hh. cbn [mbind option_bind]. replace (b_count b <=? fuel_left vm) with true by lia.
  unfold call_handle. rewrite Hj, Hcall. cbn [mbind option_bind].
  apply (track_as _ vm) in Ht as (t & Ht & ->); [|done]. destruct r as [k|]; injection Hint as <- <-.
  - destruct Htick as (pc & n & Hpc & Htick & Hn & Hs). destruct (Hs Hstart) as [a ->]. unfold block_faulted, tick_to_fault. rewrite Hpc.
    cbn [mbind option_bind]. unfold track at 1. cbn [vm_seen]. cbn in Ht |- *. rewrite Ht. cbn. eexists. split_and!; [done| |by left].
    split; [done|]. cbn. unfold fuel_left. cbn. unfold fuel_left in Hfuel; eapply ran_until; [done..|lia].
  - destruct Htick as [pc Htick]. unfold block_completed, charge, fuel_left. cbn. pose proof Hran as (_ & _ & _ & Hf). injection Hf as _ Hf _ _ _.
    rewrite Hf. unfold sub_u64. replace (b_count b <=? _) with true by (unfold fuel_left in Hfuel; lia). cbn. unfold track. cbn. rewrite Ht. cbn.
    eexists. split_and!; [done| |by right]. split; [done|]. cbn. rewrite <- Hf. rewrite Hcount. eapply ran_all; [done..|].
    unfold fuel_left in Hfuel. lia.
Qed.

(** * A step of the machine with compiled code, and without *)
Definition jit_off vm : VM := on_jit (set_js_after None) vm.
(** The block at [id] has a handle the backend owns, and no loop of it is compiled. *)
Record dispatchable (id : Z) b vm : Prop := {
  dp_block : block_at vm id = Some b;
  dp_after : is_Some (js_after (vm_jit vm));
  dp_breakpoints : b_breakpoints b = 0;
  dp_count : 0 < b_count b;
  dp_trace : select_trace (bt_blocks (vm_code vm)) id (λ a, resolve_trace_external (vm_code vm) (get_block_key vm a)) = Ok None;
  dp_loop : self_loop_kind b id = None;
  dp_handle : ∃ j h m, js_jit (vm_jit vm) = Some j ∧ c_blocks (caches vm) !! id = Some (Some h) ∧ owns j h m ∧
    translate_block (b_code b) = Ok m
}.
Lemma interpret_here_jit g id offset b vm :
  interpret_here id offset b (on_jit g vm) = prod_map (on_jit g) (λ f, f) <$> interpret_here id offset b vm.
Proof.
  unfold interpret_here, track. cbn. destruct (Interp.interpret_block _ _ _) as [[c r]|]; [|done]. cbn.
  destruct (record_instruction_ranges _ _ _ _) as [t|]; [|done]. cbn. by destruct r.
Qed.
Lemma profile_fields b vm :
  vm_cpu (profile_entry b vm) = vm_cpu vm ∧ vm_jit (profile_entry b vm) = vm_jit vm ∧ vm_code (profile_entry b vm) = vm_code vm ∧
  vm_run (profile_entry b vm) = vm_run vm ∧ profile_entry b (jit_off vm) = jit_off (profile_entry b vm).
Proof. unfold profile_entry. cbn. by destruct (ob_profile (vm_seen vm)). Qed.
Lemma dispatch_as id b vm vm2 f :
  compilable b → ready b vm → dispatchable id b vm → interpret_here id 0 b vm = Some (vm2, f) →
  ∃ vm1, dispatch encoded_len hash_order id 0 b vm = Some (vm1, f) ∧ machine_as (bool_decide (f = Leave)) vm1 vm2 ∧ (f = Leave ∨ f = TakeExit).
Proof.
  intros Hb Hrd [Hat [after Ha] Hbp Hn Htr Hl (j & h & m & Hj & Hh & Ho & Hm)] Hi. unfold dispatch. rewrite Hbp, Ha.
  replace (negb _) with false by (cbn; lia). set (g := set_js_entries _). set (hot := after <=? _).
  assert ((if hot then dispatch_trace encoded_len hash_order id b (on_jit g vm) else Some (on_jit g vm, Interpret)) =
    Some (on_jit g vm, Interpret)) as ->.
  { destruct hot; [|done]. unfold dispatch_trace. change (select_trace _ _ _) with (select_trace (bt_blocks (vm_code vm)) id
      (λ a, resolve_trace_external (vm_code vm) (get_block_key vm a))). by rewrite Htr. }
  cbn [or_else mbind option_bind]. unfold dispatch_region. rewrite Hl. cbn [or_else mbind option_bind].
  assert (ready b (on_jit g vm)) as Hrd' by (by destruct Hrd).
  destruct (dispatch_block_as id hot b (on_jit g vm) j h m (on_jit g vm2) f Hb Hrd' Hj Hh Ho Hm ltac:(by rewrite interpret_here_jit, Hi))
    as (vm1 & Hd & Hms & Hf). by exists vm1.
Qed.
(** Whether the way a block ended, run from [vm] with the outcome [f], settles the
    program counter register: it stopped, or it takes an exit out of its group. *)
Definition settles_pc b vm (f : Flow) : bool :=
  match f with TakeExit => negb (is_internal (Interp.block_exit (b_exit b) (vm_cpu vm))) | _ => true end.
Lemma step_off id b vm vm2 f :
  block_at vm id = Some b → b_breakpoints b = 0 → block_step encoded_len hash_order id 0 (jit_off vm) = Some (vm2, f) →
  ∃ vm' f', interpret_here id 0 b (profile_entry b vm) = Some (vm', f') ∧
    (vm2, f) = match f' with TakeExit => take_exit id b (jit_off vm') | _ => (jit_off vm', f') end.
Proof.
  intros Hb Hbp Hs. unfold block_step in Hs. change (block_at (jit_off vm) id) with (block_at vm id) in Hs. rewrite Hb in Hs.
  cbn [mbind option_bind] in Hs. unfold limit_to_breakpoint in Hs. rewrite Hbp in Hs. cbn [Z.eqb mbind option_bind] in Hs.
  destruct (profile_fields b vm) as (_ & _ & _ & _ & E0). rewrite E0 in Hs.
  assert (dispatch encoded_len hash_order id 0 b (jit_off (profile_entry b vm)) = Some (jit_off (profile_entry b vm), Interpret)) as Hd.
  { unfold dispatch. by destruct (negb _). }
  rewrite Hd in Hs. cbn [or_else mbind option_bind] in Hs. apply bind_Some in Hs as ([vm' f'] & Hi & [= Hs]).
  unfold jit_off at 1 in Hi. rewrite interpret_here_jit in Hi. apply fmap_Some in Hi as ([vm'' f''] & Hi & [= -> ->]).
  exists vm'', f''. by rewrite <- Hs.
Qed.

End dispatch.

(** A self-loop compiled as a region, run by the machine: its turns, the fuel they
    cost, and where one of them stops, as the interpreter has them. *)
Section turns.
Context `{Arch} `{Floats} {G : Type} `{Softmmu G} `{Escapes G}.
Implicit Types c : Cpu G.
Lemma interpret_clear l k c c' : Interp.interpret_from k l c = Some (c', None) → exc_code (c_exc c) = 0 → exc_code (c_exc c') = 0.
Proof.
  revert k c. induction l as [|i l IH]; intros k c Hi He; [by injection Hi as <-|]. cbn in Hi. apply bind_Some in Hi as (c1 & _ & Hi).
  destruct (_ =? _) eqn:E; [|done]. apply (IH _ _ Hi). by apply Z.eqb_eq in E.
Qed.
Lemma turns_tick n l cond index has_host it fast code c c' t r :
  translate_all l index has_host it fast = Ok code → Forall inst_ok l → Z.of_nat n * count_instructions l ≤ remaining (c_fuel c) →
  exc_code (c_exc c) = 0 → interpret_turns n l cond c = Some (c', t, r) → 0 ≤ t ∧
  match r with
  | None => t ≤ Z.of_nat n ∧ ∃ pc, ticked pc (t * count_instructions l) c c'
  | Some k => t < Z.of_nat n ∧ ∃ pc m pc', fault_pc_and_fuel l k = Some (pc, m) ∧ m ≤ count_instructions l ∧
      ticked (match pc with Some _ => pc | None => pc' end) (t * count_instructions l + m) c c' ∧ (starts_at_marker l = true → is_Some pc)
  end.
Proof.
  intros Hc Hok. revert c t. induction n as [|n IH]; intros c t Hf He Hr; [done|]. cbn [interpret_turns] in Hr.
  apply bind_Some in Hr as ([c1 r1] & Hb & Hr). pose proof (count_nonneg l).
  rewrite Nat2Z.inj_succ, Z.mul_succ_l in Hf. pose proof (Z.mul_nonneg_nonneg (Z.of_nat n) _ (Nat2Z.is_nonneg n) (count_nonneg l)).
  assert (count_instructions l ≤ remaining (c_fuel c)) as Hf0 by lia. pose proof (block_ticks _ _ _ _ _ _ _ _ _ Hc Hok Hf0 He Hb) as Hbt. destruct r1 as [k|].
  - injection Hr as <- <- <-. destruct Hbt as (pc & m & Hpc & Ht & Hm & Hs). split; [lia|]. split; [lia|]. exists pc, m, None.
    split_and!; [done|done| |done]. rewrite Z.mul_0_l, Z.add_0_l. by destruct pc.
  - destruct Hbt as (pc1 & Ht1). assert (t = 1 ∧ c' = c1 ∧ r = None ∨
      ∃ t', t = t' + 1 ∧ interpret_turns n l cond c1 = Some (c', t', r)) as [(-> & -> & ->)|(t' & -> & Hn)].
    { destruct n; [injection Hr as <- <- <-; by left|]. destruct (taken _ _); [|injection Hr as <- <- <-; by left].
      apply bind_Some in Hr as ([[c2 t2] r2] & Hn & [= <- <- <-]). right. by exists t2. }
    + split; [lia|]. split; [lia|]. exists pc1. by rewrite Z.mul_1_l.
    + assert (Z.of_nat n * count_instructions l ≤ remaining (c_fuel c1)) as Hf1 by (destruct Ht1 as (-> & _); cbn; lia).
      destruct (IH c1 t' Hf1 (interpret_clear _ _ _ _ Hb He) Hn) as (Hpos & Hcase). split; [lia|]. destruct r as [k|].
      * destruct Hcase as (Hlt & pc & m & pc' & Hpc & Hm & Ht & Hs). split; [lia|].
        exists pc, m, (match pc' with Some _ => pc' | None => pc1 end). split_and!; [done|done| |done].
        replace ((t' + 1) * _ + m) with (count_instructions l + (t' * count_instructions l + m)) by lia.
        pose proof (ticked_trans _ _ _ _ _ _ _ Ht1 Ht). by destruct pc.
      * destruct Hcase as (Hle & pc & Ht). split; [lia|]. eexists. replace ((t' + 1) * _) with (count_instructions l + t' * count_instructions l) by lia.
        by eapply ticked_trans.
Qed.
End turns.

Lemma marker_ranges_ok `{Arch} l : Forall inst_ok l → is_Some (marker_ranges l).
Proof.
  induction 1 as [|i l Hi _ [r IH]]; [by eexists|]. cbn. rewrite IH. destruct (is_marker i) eqn:Em; [|by eexists].
  apply bool_decide_eq_true in Em. destruct Hi as (_ & _ & _ & Hop). rewrite Em in Hop. destruct Hop as (_ & _ & _ & Ha & Hb).
  destruct (i_a i); [done|]. destruct (i_b i); [done|]. by eexists.
Qed.
Lemma record_ranges_ok `{Arch} l t start through : Forall inst_ok l → is_Some (record_instruction_ranges t l start through).
Proof.
  intros Hl. unfold record_instruction_ranges. destruct t as [set|]; [|by eexists]. destruct (_ <=? _); [by eexists|].
  destruct (marker_ranges_ok (take (Z.to_nat (Z.min (match through with Some k => k + 1 | None => zlen l end) (zlen l) - start))
    (drop (Z.to_nat start) l))) as [r ->]; [by apply Forall_take, Forall_drop|]. by eexists.
Qed.

Section regions.
Context `{Host} `{Arch} `{VmArch} `{Floats} {E F G J : Type} `{Softmmu G} `{Escapes G} `{VmMemory G} `{Environment E G}
  `{BlockLifter F G} `{JitBackend J G}.
Context (encoded_len : Module → Z).
Context (owns : J → Z → Module → Prop) (inv : G → Prop) `{!BackendLaws owns inv}.
Abbreviation VM := (InterpVm E F G J).
Implicit Types (vm : VM) (b : Block).

End regions.
