(* ===== verification/VmFuel.v ===== *)
(** The instruction count of a run, and a concrete machine the theorems of the run
    loop apply to. *)

From S2P Require Import Prelude Cpu Pcode Wasm Jit JitSim JitBlock Backend VmTrace Vm VmSpec.

(** A slice of a run stays within its timer: whatever mix of compiled blocks,
    compiled traces and interpreted blocks it runs, it retires no instruction past
    the count it was given. The fuel is subtracted with wrap-around, so this rests
    on the checks made before compiled code is called and charged. A compiled
    self-loop is charged what its call reports, unchecked; [VmSpec] has its exact
    charge, and the example at the end what happens when the handle is not a
    loop's. *)
(** Helpers and compiled code leave the instruction count to the machine, and what
    a call reports is a [u64]. *)
Class KeepsCount {J G} `{Escapes G} `{JitBackend J G} := {
  escape_count i (c : Cpu G) : c_fuel (escape i c) = c_fuel c ∧ c_icount (escape i c) = c_icount c;
  call_count h (c : Cpu G) (j : J) j' c' o : jit_call h c j = Some (j', c', o) → c_fuel c' = c_fuel c ∧ c_icount c' = c_icount c;
  region_count h (c : Cpu G) n (j : J) j' c' o :
    jit_call_region h c n j = Some (j', c', o) → c_fuel c' = c_fuel c ∧ c_icount c' = c_icount c ∧
    match o with Ran k | RegionFaulted k _ => 0 ≤ k | RegionUnavailable => True end
}.

(** * Processors *)
Section cpu.
Context `{Arch} `{Floats} {J G : Type} `{Softmmu G} `{Escapes G} `{JitBackend J G} `{!KeepsCount (J:=J) (G:=G)}.
Implicit Types c : Cpu G.
(** At most [T] instructions, counting what the fuel still allows. *)
Definition within (T : Z) c : Prop :=
  0 ≤ c_icount c ∧ 0 ≤ remaining (c_fuel c) ≤ start (c_fuel c) ∧ c_icount c + start (c_fuel c) ≤ T.
Definition counted c c' : Prop := c_fuel c' = c_fuel c ∧ c_icount c' = c_icount c.
Lemma within_counted T c c' : within T c → counted c c' → within T c'.
Proof. unfold within. by intros Hw [-> ->]. Qed.
Lemma within_update T n c : within T c → 0 ≤ n ≤ remaining (c_fuel c) → within T (update_fuel n c).
Proof.
  unfold within, update_fuel, sub_u64, wrapping_add64, wrap. cbn. intros (Hi & Hf & Ht) Hn. replace (_ <=? _) with true by lia.
  pose proof (Z.mod_le (c_icount c + (start (c_fuel c) - remaining (c_fuel c))) (2 ^ 64) ltac:(lia) ltac:(lia)).
  pose proof (Z.mod_pos_bound (c_icount c + (start (c_fuel c) - remaining (c_fuel c))) (2 ^ 64) ltac:(lia)). lia.
Qed.
Lemma within_remaining T n c : within T c → 0 ≤ n ≤ remaining (c_fuel c) → within T (with_remaining n c).
Proof. unfold within. cbn. lia. Qed.
Lemma within_timer T n c :
  0 ≤ c_icount c → remaining (c_fuel c) = start (c_fuel c) → 0 ≤ n → c_icount c + n ≤ T → within T (update_fuel n c).
Proof.
  unfold within, update_fuel, sub_u64, wrapping_add64, wrap. cbn. intros Hi -> Hn Ht. replace (_ <=? _) with true by lia. rewrite Z.sub_diag, Z.add_0_r.
  pose proof (Z.mod_le (c_icount c) (2 ^ 64) ltac:(lia) ltac:(lia)). pose proof (Z.mod_pos_bound (c_icount c) (2 ^ 64) ltac:(lia)). lia.
Qed.
Lemma within_saturating T n c : within T c → 0 ≤ n → within T (with_remaining (saturating_sub (remaining (c_fuel c)) n) c).
Proof. intros Hw Hn. apply within_remaining; [done|]. destruct Hw as (_ & ? & _). unfold saturating_sub. lia. Qed.
Lemma frame_counted c c' : frame c' = frame c → counted c c'.
Proof. by intros [= _ ? ? _ _]. Qed.
Ltac puts Hi :=
  unfold Interp.binary, Interp.divide, Interp.compare, Interp.booleans, Interp.unary, Interp.count, Interp.shift_op,
    Interp.signed_right, Interp.from_float, Interp.float_binary, Interp.float_single, Interp.float_compare,
    Interp.float_nan, Interp.to_float, Interp.float_to_float, Interp.invalid_op_size in Hi;
  repeat (first [apply bind_Some in Hi as (? & _ & Hi)
                |match type of Hi with context [match ?x with _ => _ end] => destruct x eqn:? end]); simplify_eq;
  first [by apply frame_counted | apply escape_count].
Lemma interpret_within T i c c' : within T c → Interp.interpret i c = Some c' → within T c'.
Proof.
  intros Hw Hi. destruct (decide (i_op i = Op.InstructionMarker)) as [Em|Em].
  - unfold Interp.interpret in Hi. rewrite Em in Hi. destruct (_ && _); [|injection Hi as <-; by eapply within_counted].
    destruct (i_a i) as [|addr n]; [done|]. destruct (i_b i); [done|]. injection Hi as <-. unfold Interp.next_instruction.
    cbn [Interp.write_pc at_block with_regs c_fuel]. destruct (1 <=? _) eqn:E; [apply within_remaining; [done|cbn; lia]|done].
  - apply (within_counted T c); [done|]. unfold Interp.interpret in Hi. destruct (i_op i); try done; try (solve [puts Hi]).
    + destruct (_ && _); [by injection Hi as <-|]. by eapply frame_counted, copy_cold_frame.
    + by eapply frame_counted, copy_frame.
    + destruct (Interp.extends _); [by injection Hi as <-|]. by eapply frame_counted, zext_cold_frame.
    + destruct (Interp.extends _); [by injection Hi as <-|]. by eapply frame_counted, sext_cold_frame.
    + destruct (_ =? _); [by eapply frame_counted, load_frame|injection Hi as <-; apply escape_count].
    + destruct (_ =? _); [by eapply frame_counted, store_frame|injection Hi as <-; apply escape_count].
Qed.
Lemma interpret_from_within T k l c c' r : within T c → Interp.interpret_from k l c = Some (c', r) → within T c'.
Proof.
  revert k c. induction l as [|i l IH]; intros k c Hw Hi; [by injection Hi as <- _|]. cbn in Hi. apply bind_Some in Hi as (c1 & Hc & Hi).
  apply (interpret_within T) in Hc; [|done]. destruct (_ =? _); [by eapply IH|by injection Hi as <- _].
Qed.
End cpu.

(** * Machines *)
Create HintDb within.
Section machine.
Context `{Host} `{Arch} `{VmArch} `{Floats} {E F G J : Type} `{Softmmu G} `{Escapes G} `{VmMemory G} `{Environment E G}
  `{BlockLifter F G} `{JitBackend J G} `{!KeepsCount (J:=J) (G:=G)}.
Context (encoded_len : Module → Z) (hash_order : list (Z * Z) → list (Z * Z)) (T : Z).
Abbreviation VM := (InterpVm E F G J).
Implicit Types (vm : VM) (b : Block).
(** No block of the table jumps to itself. *)
Definition loop_free vm : Prop := ∀ id b, block_at vm id = Some b → self_loop_kind b id = None.
Definition bounded vm : Prop := within T (vm_cpu vm) ∧ loop_free vm.
Lemma charge_within n vm : bounded vm → 0 ≤ n ≤ fuel_left vm → bounded (charge n vm).
Proof.
  intros [Hw Hl] Hn. split; [|done]. apply within_remaining; [done|]. unfold sub_u64, fuel_left in *. replace (_ <=? _) with true by lia. lia.
Qed.
Lemma saturating_within n vm : bounded vm → 0 ≤ n → bounded (charge_saturating n vm).
Proof. intros [Hw Hl] Hn. split; [by apply within_saturating|done]. Qed.
Lemma last_marker_grows l pc n pc' n' : last_marker l pc n = Some (pc', n') → n ≤ n'.
Proof.
  revert pc n. induction l as [|i l IH]; intros pc n Hl; cbn in Hl; [by simplify_eq|]. destruct (is_marker i); [|by eapply IH].
  apply bind_Some in Hl as (a & _ & Hl). apply IH in Hl. lia.
Qed.
Lemma fault_fuel_nonneg l k pc n : fault_pc_and_fuel l k = Some (pc, n) → 0 ≤ n.
Proof. unfold fault_pc_and_fuel. destruct l; [by intros [= _ <-]|]. apply last_marker_grows. Qed.
Lemma tick_within l k vm vm' : bounded vm → tick_to_fault l k vm = Some vm' → bounded vm'.
Proof.
  unfold tick_to_fault. intros Hw ([pc n] & Hn & [= <-])%bind_Some. apply saturating_within; [by destruct pc|by eapply fault_fuel_nonneg].
Qed.
Lemma track_within f vm vm' : bounded vm → track f vm = Some vm' → bounded vm'.
Proof. unfold track. by intros Hw (t & _ & [= <-])%bind_Some. Qed.
Lemma compile_within key k meta m vm vm' h : bounded vm → compile_code encoded_len key k meta m vm = Some (vm', h) → bounded vm'.
Proof.
  unfold compile_code. intros Hw (j & _ & Hc)%bind_Some. destruct (make_room _ _ _ _) as [[budget j'] x], (jit_compile _ _) as [j'' h'].
  by destruct h'; injection Hc as <- _.
Qed.
Lemma call_within h vm vm' o : bounded vm → call_handle h vm = Some (vm', o) → bounded vm' ∧ fuel_left vm' = fuel_left vm.
Proof.
  unfold call_handle. intros Hw. destruct (js_jit _); [|by intros [= <- _]]. intros ([[j' c'] o'] & Hc & [= <- _])%bind_Some.
  apply call_count in Hc as [Hf Hi]. destruct Hw. unfold fuel_left. cbn. rewrite Hf. split; [|done]. split; [by eapply within_counted|done].
Qed.
Lemma call_region_within h n vm vm' o : bounded vm → call_region_handle h n vm = Some (vm', o) →
  bounded vm' ∧ fuel_left vm' = fuel_left vm ∧ match o with Ran k | RegionFaulted k _ => 0 ≤ k | RegionUnavailable => True end.
Proof.
  unfold call_region_handle. intros Hw. destruct (js_jit _); [|by intros [= <- <-]]. intros ([[j' c'] o'] & Hc & [= <- <-])%bind_Some.
  apply region_count in Hc as (Hf & Hi & Ho). destruct Hw. unfold fuel_left. cbn. rewrite Hf. split_and!; [|done..].
  split; [by eapply within_counted|done].
Qed.
Lemma enter_within id vm vm' f : bounded vm → enter_block id vm = (vm', f) → bounded vm'.
Proof. unfold enter_block. by destruct (block_at vm id); intros Hw [= <- _]. Qed.
Hint Resolve tick_within track_within compile_within enter_within : within.
Hint Extern 1 (bounded (_ _ _)) => assumption : within.
Ltac branch Hr := match type of Hr with context [match ?x with _ => _ end] => destruct x eqn:? end.
(** Follow a successful run to the machine it ends in. *)
Ltac follow Hr :=
  repeat (first [apply bind_Some in Hr as (? & ? & Hr)
                |match type of Hr with context [match ?x with _ => _ end] => destruct x eqn:? end]; cbn beta iota in Hr);
  try discriminate Hr; repeat match type of Hr with Some _ = Some _ => injection Hr as Hr end; simplify_eq.
Lemma handles_within key hot b cond order vm vm' h :
  bounded vm →
  trace_handle encoded_len hash_order key order vm = Some (vm', h) ∨ region_handle encoded_len key hot b cond vm = Some (vm', h) ∨
  block_handle encoded_len key hot b vm = Some (vm', h) → bounded vm'.
Proof.
  unfold trace_handle, region_handle, block_handle. intros Hw [Hr|[Hr|Hr]]; follow Hr; eauto with within.
Qed.
Lemma resume_within id vm vm' f : bounded vm → resume_at id vm = (vm', f) → bounded vm'.
Proof. unfold resume_at. intros Hw. by apply enter_within. Qed.
Hint Resolve resume_within : within.
Lemma trace_ran_within id h meta packed vm vm' f : bounded vm → 0 ≤ packed → trace_ran id h meta (fuel_left vm) packed vm = Some (vm', f) → bounded vm'.
Proof.
  unfold trace_ran. intros Hw Hp Hr. destruct (getz _ _) as [resume|]; [|by injection Hr as <- _].
  destruct (_ || _) eqn:Eg; [by injection Hr as <- _|]. apply bind_Some in Hr as (vm2 & H2' & Hr).
  assert (bounded vm2) as Hw2.
  { eapply track_within; [|done]. apply charge_within; [done|]. pose proof (proj2 (Z.shiftr_nonneg packed TRACE_RESUME_BITS) Hp). lia. }
  destruct (negb _); [injection Hr as Hr; by apply resume_within in Hr|]. cbn in Hr.
  branch Hr; [injection Hr as Hr; by apply resume_within in Hr|by injection Hr as <- _].
Qed.
Lemma trace_faulted_within h meta n k vm vm' f : bounded vm → 0 ≤ n → trace_faulted h meta (fuel_left vm) n k vm = Some (vm', f) → bounded vm'.
Proof.
  unfold trace_faulted. intros Hw Hn Hr. destruct (getz _ _) as [[fb li]|]; [|by injection Hr as <- _].
  destruct (_ <? _) eqn:Eg; [by injection Hr as <- _|]. apply bind_Some in Hr as (fbk & _ & Hr).
  apply bind_Some in Hr as (vm2 & H2' & Hr). apply bind_Some in Hr as (vm3 & H3' & [= <- _]).
  pose proof (tick_within _ _ _ _ (charge_within n _ Hw ltac:(lia)) H2') as Hw2. exact (track_within _ (count_dispatch true vm2) _ Hw2 H3').
Qed.
Lemma block_within id h b k vm vm' f :
  bounded vm → 0 ≤ b_count b ≤ fuel_left vm → block_completed h b vm = Some (vm', f) ∨ block_faulted id h b k vm = Some (vm', f) → bounded vm'.
Proof.
  unfold block_completed, block_faulted. intros Hw Hn [Hr|Hr].
  - apply bind_Some in Hr as (vm2 & H2' & [= <- _]). exact (track_within _ (count_dispatch false (charge _ vm)) _ (charge_within _ _ Hw Hn) H2').
  - apply bind_Some in Hr as (vm1 & H1' & Hr); apply bind_Some in Hr as (vm2 & H2' & [= <- _]).
    exact (track_within _ (count_dispatch false vm1) _ (tick_within _ _ _ _ Hw H1') H2').
Qed.
Lemma dispatch_trace_within id b vm vm' f : bounded vm → dispatch_trace encoded_len hash_order id b vm = Some (vm', f) → bounded vm'.
Proof.
  unfold dispatch_trace. intros Hw Hr. destruct (select_trace _ _ _) as [[order|]| |]; [|by injection Hr as <- _|done..].
  apply bind_Some in Hr as ([vm1 handle] & H1' & Hr).
  assert (bounded vm1) as Hw1 by (eapply (handles_within id true b None order vm); [done|by left]).
  destruct handle as [h|]; [|by injection Hr as <- _]. destruct (c_traces _ !! id) as [meta|]; [|by injection Hr as <- _].
  apply bind_Some in Hr as ([vm2 o] & H2' & Hr).
  assert (bounded vm2 ∧ fuel_left vm2 = fuel_left vm1 ∧ match o with Ran k | RegionFaulted k _ => 0 ≤ k | RegionUnavailable => True end)
    as (Hw2 & Hf2 & Ho).
  { destruct (_ <? _); [by injection H2' as <- <-|by eapply call_region_within]. }
  rewrite <- Hf2 in Hr. destruct o; [by eapply trace_ran_within|by eapply trace_faulted_within|by injection Hr as <- _].
Qed.
Lemma dispatch_block_within id hot b vm vm' f : bounded vm → 0 < b_count b → dispatch_block encoded_len id hot b vm = Some (vm', f) → bounded vm'.
Proof.
  unfold dispatch_block. intros Hw Hn Hr. apply bind_Some in Hr as ([vm1 handle] & H1' & Hr).
  assert (bounded vm1) as Hw1 by (eapply (handles_within id hot b None [] vm); [done|by right; right]).
  destruct handle as [h|]; [|by injection Hr as <- _]. destruct (_ <=? _) eqn:Eg; [|by injection Hr as <- _].
  apply bind_Some in Hr as ([vm2 o] & H2' & Hr). destruct (call_within _ _ _ _ Hw1 H2') as [Hw2 Hf2]. rewrite <- Hf2 in Eg.
  destruct o as [|k|]; [eapply (block_within id h b 0); [done|lia|by left]|eapply (block_within id h b k); [done|lia|by right]|by injection Hr as <- _].
Qed.
Lemma or_else_within r k vm' f :
  (∀ vm1 f1, r = Some (vm1, f1) → bounded vm1) → (∀ vm1 vm2 f2, bounded vm1 → k vm1 = Some (vm2, f2) → bounded vm2) →
  or_else r k = Some (vm', f) → bounded vm'.
Proof.
  unfold or_else. intros Hr Hk ([vm1 f1] & H1' & Hc)%bind_Some. destruct f1; [by eapply Hk; [by eapply Hr|]|by injection Hc as <- _; eapply Hr..].
Qed.
Lemma dispatch_within id offset b vm vm' f : bounded vm → self_loop_kind b id = None → dispatch encoded_len hash_order id offset b vm = Some (vm', f) → bounded vm'.
Proof.
  unfold dispatch. intros Hw Hl Hr. destruct (negb _) eqn:En; [by injection Hr as <- _|]. destruct (js_after _); [|by injection Hr as <- _].
  set (g := set_js_entries _) in Hr. assert (bounded (on_jit g vm)) as Hw' by done. revert Hr. apply or_else_within.
  - intros vm1 f1. apply or_else_within.
    + intros vm2 f2. destruct (_ <=? _); [by apply dispatch_trace_within|by intros [= <- _]].
    + unfold dispatch_region. rewrite Hl. by intros ? ? ? ? [= <- _].
  - intros. eapply dispatch_block_within; [done| |done]. lia.
Qed.
Lemma limit_within offset b vm vm' : bounded vm → limit_to_breakpoint offset b vm = Some vm' → bounded vm'.
Proof.
  unfold limit_to_breakpoint. intros Hw Hr. destruct (_ =? 0); [by injection Hr as <-|]. destruct (_ <? _); [done|].
  apply bind_Some in Hr as (r & Hb & [= <-]). destruct r as [k|]; [|done]. assert (0 ≤ k) as Hk.
  { revert Hb. assert (0 ≤ 0) as Hz by done. revert Hz. generalize 0 at 2 3. intros z Hz.
    generalize (drop (Z.to_nat offset) (b_code b)) as l. intros l. revert z Hz. induction l as [|i l IH]; intros z Hz Hb; [done|]. cbn in Hb.
    destruct (is_marker i); [|by eapply IH]. apply bind_Some in Hb as (a & _ & Hb). case_bool_decide; [by injection Hb as <-|].
    eapply (IH (z + 1)); [lia|done]. }
  destruct Hw as [Hw Hl]. split; [|done]. apply within_update; [done|]. destruct Hw as (_ & Hf & _). unfold fuel_left. lia.
Qed.
Lemma interpret_here_within id offset b vm vm' f : bounded vm → interpret_here id offset b vm = Some (vm', f) → bounded vm'.
Proof.
  unfold interpret_here. intros Hw ([c r] & H1' & Hr)%bind_Some. apply bind_Some in Hr as (vm1 & H2' & Hr).
  assert (bounded vm1) as Hw1 by (destruct Hw; eapply track_within; [|done]; split; [by eapply interpret_from_within|done]). by destruct r; injection Hr as <- _.
Qed.
Lemma take_exit_within id b vm vm' f : bounded vm → take_exit id b vm = (vm', f) → bounded vm'.
Proof.
  unfold take_exit. intros Hw Hr. destruct (Interp.block_exit _ _) as [code a|id'|v]; [by injection Hr as <- _|by eapply enter_within|].
  unfold exit_external in Hr. set (a := zxt _ _) in Hr. assert (bounded (promote a (on_cpu (Interp.write_pc a) vm)).1) as Hp.
  { unfold promote. destruct (ls_promote _); [|done]. case_bool_decide; [done|]. by destruct (_ <? _). }
  destruct (promote a _) as [vm1 []]; cbn in Hp; [by injection Hr as <- _|]. destruct (group_at vm1 a); [by eapply enter_within|by injection Hr as <- _].
Qed.
Lemma step_within id offset vm vm' f : bounded vm → block_step encoded_len hash_order id offset vm = Some (vm', f) → bounded vm'.
Proof.
  unfold block_step. intros Hw (b & Hb & Hr)%bind_Some. apply bind_Some in Hr as (vm1 & H1' & Hr).
  assert (bounded vm1) as Hw1 by (eapply limit_within; [|done]; unfold profile_entry; by destruct (ob_profile _)).
  apply bind_Some in Hr as ([vm2 f2] & H2' & Hr). assert (bounded vm2) as Hw2.
  { revert H2'. apply or_else_within; [intros vm3 f3; apply dispatch_within; [done|by apply Hw in Hb]|intros; by eapply interpret_here_within]. }
  destruct f2; injection Hr as Hr; [by simplify_eq|by eapply take_exit_within|by simplify_eq..].
Qed.
Lemma loop_within n id offset vm vm' : bounded vm → blocks_loop encoded_len hash_order n id offset vm = Some vm' → bounded vm'.
Proof.
  revert id offset vm. induction n as [|n IH]; intros id offset vm Hw Hr; [done|]. cbn in Hr. apply bind_Some in Hr as ([vm1 f] & H1' & Hr).
  apply step_within in H1'; [|done]. destruct f; [by injection Hr as <-|by injection Hr as <-|by eapply IH|by injection Hr as <-].
Qed.
Lemma adjust_within (c : Cpu G) b offset retry : within T c → within T (adjust_cpu_fuel_for_block_reentry c b offset retry).
Proof.
  intros Hw. unfold adjust_cpu_fuel_for_block_reentry. destruct retry; [done|]. destruct (address_of _ _); [|done].
  destruct (getz _ _) as [i|]; [|done]. destruct (is_marker i); [done|]. by apply within_saturating.
Qed.
Lemma blocks_within n vm vm' : bounded vm → run_block_interpreter encoded_len hash_order n vm = Some vm' → bounded vm'.
Proof.
  unfold run_block_interpreter. intros Hw Hr. destruct (get_current_block _) as [[id offset]|]; [|by injection Hr as <-].
  cbn zeta in Hr. assert (∀ vm1, bounded vm1 → match block_at vm1 id with
      | None => Some (corrupted_block_map vm1)
      | Some b => blocks_loop encoded_len hash_order n id offset
          (on_cpu (λ c, adjust_cpu_fuel_for_block_reentry c b offset (rs_retry (vm_run vm1))) (on_run (set_rs_retry false) vm1))
      end = Some vm' → bounded vm') as Hgo.
  { intros vm1 Hw1 Hr1. destruct (block_at vm1 id); [|by injection Hr1 as <-]. apply loop_within in Hr1; [done|]. destruct Hw1. split; [by apply adjust_within|done]. }
  eapply Hgo; [|exact Hr]. match goal with |- context [match ?x with _ => _ end] => by destruct x end.
Qed.
End machine.

Section slices.
Context `{Host} `{Arch} `{VmArch} `{Floats} {E F G J : Type} `{Softmmu G} `{Escapes G} `{VmMemory G} `{Environment E G}
  `{BlockLifter F G} `{JitBackend J G} `{!KeepsCount (J:=J) (G:=G)}.
Context (encoded_len : Module → Z) (hash_order : list (Z * Z) → list (Z * Z)).
Implicit Types vm : InterpVm E F G J.

(** C12. A slice of a run, of compiled blocks, compiled traces and interpreted
    blocks in any mix, through faults and breakpoints, never counts an instruction
    past the timer it starts with, so never past the limit of the run or the
    environment's next timer, and leaves the count settled. The fuel is a [u64]
    that wraps around when it is overdrawn, so the checks made before compiled code
    is entered and charged matter. No block of the table jumps to itself: compiled
    self-loops are charged without a check. *)
Theorem slice_within_timer n vm vm' :
  loop_free vm → 0 ≤ c_icount (vm_cpu vm) → remaining (c_fuel (vm_cpu vm)) = start (c_fuel (vm_cpu vm)) →
  run_slice encoded_len hash_order n (update_timer vm) = Some vm' →
  c_icount (vm_cpu vm') ≤ Z.max (c_icount (vm_cpu vm)) (Z.min (rs_limit (vm_run vm)) (env_next_timer (vm_env vm))) ∧
  remaining (c_fuel (vm_cpu vm')) = start (c_fuel (vm_cpu vm')).
Proof.
  intros Hl Hi Hf Hr. unfold run_slice in Hr. destruct (0 <? _) eqn:Hpos.
  - apply bind_Some in Hr as (vm1 & Hb & [= <-]). split; [|done]. set (T := Z.min (rs_limit _) _). apply (blocks_within _ _ T) in Hb; [destruct Hb as [Hw _]|].
    + assert (0 ≤ remaining (c_fuel (vm_cpu vm1))) as Hrem by (by destruct Hw as (_ & [? _] & _)).
      destruct (within_update T 0 _ Hw) as (_ & _ & Hle); [done|]. cbn in Hle |- *. lia.
    + split; [|done]. apply within_timer; [done..|unfold saturating_sub; lia|]. unfold T, saturating_sub in *. cbn in *. lia.
  - injection Hr as <-. cbn. split; [lia|done].
Qed.
End slices.

(** A machine over the concrete memory and floats of [Backend], with the wasmi
    backend: what the theorems of the run loop say of it. *)
Import Sample.

Section wasmi_count.
Context `{Floats} {G : Type} `{Softmmu G} `{Escapes G} (accepts : Module → bool).
(** Compiled code under wasmi touches no counter of the machine. *)
Lemma wasmi_counts :
  (∀ i (c : Cpu G), c_fuel (escape i c) = c_fuel c ∧ c_icount (escape i c) = c_icount c) →
  @KeepsCount WasmiJit G _ (wasmi_backend accepts).
Proof.
  intros He. split; [done|..]; cbn.
  - unfold call. intros h c j j' c' o Hc. destruct (instance h j); [|by simplify_eq]. destruct (negb _); [by simplify_eq|].
    by destruct (W.run _ _ _ _ _ _); simplify_eq.
  - unfold call_region. intros h c n j j' c' o Hc. destruct (instance h j); [|by simplify_eq]. destruct (negb _); [by simplify_eq|].
    destruct (W.run _ _ _ _ _ _); simplify_eq; try done; repeat case_match; simplify_eq; split_and!; try done; apply Z.mod_pos_bound; lia.
Qed.
End wasmi_count.

Module SampleVm.
#[export] Instance vm_arch : VmArch := { reg_isa_mode := None; isa_mode_context := [] }.
#[export] Instance vm_memory : VmMemory Memory := {
  vmm_read_bytes g a n := (g, load (guest g) a (Z.to_nat n));
  vmm_write_bytes g a l := ({| guest := store (guest g) a l; host := host g |}, true);
  vmm_update_perm g _ _ _ := (g, true);
  vmm_clear_code_cache g := g;
  vmm_reset c := c
}.
#[export] Instance environment : Environment () Memory := {
  env_handle_exception _ c s := ((), c, (rs_asid s, rs_retry s), None);
  env_next_timer _ := 1000000
}.
#[export] Instance lifter : BlockLifter () Memory := {
  lifter_set_context _ f := f;
  lifter_lift_block _ c t _ f := (f, c, t, inr (OtherDecodeError ExceptionCode.InvalidInstruction));
  validate _ := true
}.
#[export] Instance backend : JitBackend WasmiJit Memory := wasmi_backend accept.
#[export] Instance backend_laws : BackendLaws wasmi_owns (wasmi_inv any) := wasmi_keeps_promises any accept.
#[export] Instance keeps_count : KeepsCount (J:=WasmiJit) (G:=Memory).
Proof. by apply wasmi_counts. Qed.

Definition block (l : list Inst) (e : BlockExit) : Block :=
  {| b_code := l; b_start := 4096; b_end := 4104; b_context := 0; b_exit := e; b_breakpoints := 0; b_count := count_instructions l |}.
Definition stopping : Block := block faulting (Jump (TExternal (Const 8192 8))).
Definition counting : Block := block countdown (Branch (Var flag) (TInternal 0) (TExternal (Const 8192 8))).
Definition machine (b : Block) (m : Module) (x : Caches) (c : Cpu Memory) : InterpVm () () Memory WasmiJit :=
  {| vm_cpu := c; vm_env := (); vm_lifter := ();
     vm_code := {| bt_map := ∅; bt_blocks := [b]; bt_breakpoints := ∅; bt_modified := [] |};
     vm_run := {| rs_limit := 500; rs_interrupt := false; rs_next_timer := 0; rs_resume := false; rs_retry := false; rs_asid := 0;
                  rs_block_start := 0; rs_icount := 0 |};
     vm_lift := {| ls_index := ∅; ls_context := 0; ls_isa := 0; ls_promote := None; ls_entries := ∅; ls_promoted := ∅;
                   ls_decoded := 0; ls_reused := 0; ls_flushes := 0 |};
     vm_jit := {| js_jit := Some (holding m); js_after := Some 2; js_caches := x; js_entries := ∅; js_dispatches := 0;
                  js_block_dispatches := 0; js_region_dispatches := 0; js_budget := default_budget |};
     vm_seen := {| ob_profile := None; ob_executed := Some ∅; ob_lazy := ∅; ob_page_ins := 0 |} |}.
Definition block_caches : Caches := with_blocks {[0 := Some 0]} no_caches.
Definition region_caches : Caches := with_regions {[0 := Some 0]} no_caches.
Definition length_of (m : Module) : Z := zlen (m_body m).
Definition same_order (l : list (Z * Z)) : list (Z * Z) := l.
End SampleVm.
Import SampleVm.

Definition stopping_vm : InterpVm () () Memory WasmiJit := machine stopping block_module block_caches (cpu 37).
Definition counting_vm : InterpVm () () Memory WasmiJit := machine counting loop_module region_caches (cpu 5).
Definition ended {A B} (x : A) (r : option (A * B)) : A := match r with Some (y, _) => y | None => x end.
Definition interpreted : InterpVm () () Memory WasmiJit := ended stopping_vm (block_step length_of same_order 0 0 (jit_off stopping_vm)).
(** A machine whose only block runs compiled and leaves for an address outside. *)
Definition straight : Block := block countdown (Jump (TExternal (Const 8192 8))).
Definition straight_vm : InterpVm () () Memory WasmiJit :=
  machine straight (compiled (translate_block countdown)) block_caches (at_block 0 0 (cpu 5)).
Definition turned : Cpu Memory :=
  match interpret_turns 1000 countdown (Some flag) (cpu 5) with Some (c, _, _) => c | None => cpu 5 end.
Lemma stopping_ok : compilable stopping.
Proof. split; [exact faulting_ok|done..]. Qed.
Lemma counting_ok : compilable counting.
Proof. split; [exact countdown_ok|done..]. Qed.
Lemma ready_at b m x c : c_mem c = mem → exc_code (c_exc c) = 0 → b_count b ≤ remaining (c_fuel c) → ready (wasmi_inv any) b (machine b m x c).
Proof. intros Hm He Hf. split; [|done..]. cbn. rewrite Hm. split; [done|exact tlb_clear]. Qed.

Lemma slice_within_timer_witness :
  ∃ vm1, run_slice length_of same_order 10 (update_timer straight_vm) = Some vm1 ∧ 0 < c_icount (vm_cpu vm1) ≤ 500 ∧
    js_block_dispatches (vm_jit vm1) = 1.
Proof.
  destruct (run_slice length_of same_order 10 (update_timer straight_vm)) as [vm1|] eqn:Hr; [|by vm_compute in Hr].
  exists vm1. destruct (slice_within_timer length_of same_order 10 straight_vm vm1) as [Hle _]; [|done|done|exact Hr|].
  - intros id b Hb. apply getz_Some in Hb as [Hid Hb]. assert (id = 0) as -> by (change (zlen _) with 1 in Hid; lia). by injection Hb as <-.
  - split; [done|]. vm_compute in Hr. injection Hr as <-. cbn in Hle |- *. split; [lia|done].
Defined.

Lemma budget_reachable_witness :
  let y := (record 3 7 false 100 default_budget, no_jit, install 3 7 false no_caches) in budget_ok y.1.1 ∧ caches_ok y.1.1 y.2.
Proof. apply (budget_reachable no_jit). apply rtc_once. by apply step_record. Defined.
Definition round_trip : list Block :=
  [block countdown (Jump (TInternal 1)); block countdown (Branch (Var flag) (TInternal 0) (TExternal (Const 8192 8)))].
Lemma select_trace_closed_witness :
  NoDup [0; 1] ∧ head [0; 1] = Some 0 ∧ 2 ≤ zlen [0; 1] ≤ 8 ∧
  (∀ k x y, [0; 1] !! k = Some x → [0; 1] !! S k = Some y → follows_block round_trip (λ _, None) x y) ∧
  ∃ x, last [0; 1] = Some x ∧ follows_block round_trip (λ _, None) x 0.
Proof. apply (select_trace_closed round_trip 0 (λ _, None) [0; 1]). by vm_compute. Defined.

(** A loop that is also the head of a compiled trace. Once the other block of the
    trace is lifted again the trace is no longer selected, and the region path
    calls its handle and takes the packed result for a number of turns: more
    instructions than there is fuel for, and the subtraction wraps around, so the
    machine is left with more fuel than it had. *)
Definition looping : Block := block countdown (Branch (Var flag) (TExternal (Const 4096 8)) (TExternal (Const 8192 8))).
Definition returning : Block :=
  {| b_code := [marker 8192]; b_start := 8192; b_end := 8196; b_context := 0; b_exit := Jump (TExternal (Const 4096 8));
     b_breakpoints := 0; b_count := 1 |}.
Definition group (id : Z) : BlockGroup := {| bg_first := id; bg_last := id + 1; bg_start := 4096; bg_end := 4104 |}.
Definition key (a : Z) : BlockKey := {| bk_vaddr := a; bk_isa := 0; bk_asid := 0 |}.
Definition with_blocks_at (m : gmap BlockKey BlockGroup) (j : JitState WasmiJit) : InterpVm () () Memory WasmiJit :=
  set_vm_jit j (set_vm_code {| bt_map := m; bt_blocks := [looping; returning]; bt_breakpoints := ∅; bt_modified := [] |} counting_vm).
Definition both : InterpVm () () Memory WasmiJit :=
  with_blocks_at {[key 4096 := group 0; key 8192 := group 1]} (set_js_jit (Some no_jit) (set_js_after (Some 0) (set_js_caches no_caches (vm_jit counting_vm)))).
Definition traced : option (InterpVm () () Memory WasmiJit * Flow) := dispatch_trace length_of same_order 0 looping both.
Definition relifted : option (InterpVm () () Memory WasmiJit) :=
  '(vm, _) ← traced; Some (set_vm_cpu (cpu 5) (set_vm_code (with_map {[key 4096 := group 0]} (vm_code vm)) vm)).
Example trace_handle_taken_for_loop :
  match relifted with
  | Some vm =>
      select_trace (bt_blocks (vm_code vm)) 0 (λ a, resolve_trace_external (vm_code vm) (get_block_key vm a)) = Ok None ∧
      match call_region_handle 0 (fuel_left vm / b_count looping) vm with
      | Some (_, Ran iters) => (fuel_left vm <? saturating_mul64 iters (b_count looping)) = true
      | _ => False
      end ∧
      match dispatch length_of same_order 0 0 looping vm with Some (vm', _) => (fuel_left vm <? fuel_left vm') = true | None => False end
  | None => False
  end.
Proof. by vm_compute. Qed.
